(* ===== verification/_CoqProject ===== *)
-Q . S2P
Prelude.v
Clock.v
Json.v
Text.v
Dialect.v
Rdbms.v
Crash.v
CircuitBreaker.v
Snowflake.v
App.v
ShardCatalog.v
ShardRouter.v
Routing.v
RoutingSpec.v
Lock.v
LockSpec.v
Middleware.v
MiddlewareSpec.v
Auth.v
AuthSpec.v
OrmDialect.v
OrmQuery.v
OrmCrud.v
OrmFacts.v
OrmSpec.v
OrmRelation.v
OrmRelationSpec.v
OrmMigrate.v
OrmMigrateSpec.v
OrmValue.v
GraphQL.v
GraphQLFacts.v
GraphQLPrint.v
GraphQLSpec.v
Outbox.v
OutboxSpec.v
TierConfig.v
Tiering.v
TieringFacts.v
TieringInv.v
TieringSafe.v
TieringSpec.v
S3Sink.v
S3SinkSpec.v
TierSql.v
TierQuery.v
TierQuerySpec.v
MigrationPlan.v
Migrate.v
MigrateFacts.v
MigrateSpec.v
Mq.v
MqSpec.v
Events.v
EventsSpec.v
Saga.v
SagaSql.v
ClickSink.v
ClickSinkSpec.v
Partition.v
PartitionSpec.v
DualWrite.v
Security.v
SecuritySpec.v
TwoPhase.v
TwoPhaseFacts.v
TwoPhaseSpec.v
XaSqlx.v
XaSqlxSpec.v
Workflow.v
Engines.v
WorkflowSpec.v
EnginesSpec.v
RemoteSql.v
RemoteSqlSpec.v
Caches.v
Config.v
ConfigSpec.v
Transaction.v
Services.v
