(* ===== verification/Prelude.v ===== *)
(** * Verification of the e-cat microservice framework (root file)

    e-cat is a Rust workspace of about seventy crates.  This library models the parts that
    carry its own decisions: what is stored, what is retried, what is sent where and in
    which order.  Definitions are shallow and executable: pure functions for pure code,
    explicit state for mutexes and atomics, step relations for interleavings, a small monad
    for code that can fail or die between two effects.  Names follow the source.

    ** Conventions

    - [Prelude] (this file): results, machine integers as [Z] with their wrap-around
      written out, sorting, reachability, lists.  [Clock]: instants and durations in
      nanoseconds.  [Json]: [serde_json] values, whose number type and text are the
      operations of classes, so the theorems hold for any implementation.  [Text]: the
      string functions of the standard library.  [Crash]: effects of a process that can
      die, with a weakest precondition that speaks of every point of death.
    - Third-party code is a class or an argument of the definitions: databases, object
      stores, SHA-256, JSON text, tokio channels.  Its laws are separate classes
      ([..Law], [..Contract]), each instantiated by a concrete implementation in the
      witnesses.
    - [Instant::now()] is the [t]-th value of a clock; every read advances [t].
    - Loops over input carry fuel equal to the length of the input (or the bound the code
      itself has); where running out would be observable, it is a value of its own
      ([NoFuel] in [GraphQL]) that a theorem proves unreachable.

    ** Files

    A component has a file of definitions and, where its proofs are long, one of theorems
    ([..Facts] for lemmas, [..Spec] for theorems and witnesses).  Small components hold both.

    - Circuit breaker: [CircuitBreaker] (ecat-circuit-breaker/src): the sliding window, the
      state machine as two critical sections around the protected call, interleaved for
      any number of calls; permits are accounted for and a dropped probe gives its back.
    - Relational clients and routing: [Dialect], [Rdbms], [Routing], [RoutingSpec]
      (ecat-data/src/dialect.rs, rdbms.rs, breaker.rs, routing.rs): the router composes
      the breaker of [CircuitBreaker] with the backends.  [Transaction] (rdbms.rs;
      ecat-data-sqlx/src/transaction.rs, lib.rs, rdbms.rs): the transaction with its
      destructor, the sqlx wrapper and the two statements on one connection, as programs of
      [Crash] under the time limit of [Workflow].
    - Sharding (ecat-data-sharding/src): [Snowflake] (id.rs), [ShardCatalog] (catalog.rs,
      config.rs, budget.rs), [ShardRouter] (router.rs, scatter.rs, health.rs),
      [MigrationPlan], [Migrate], [MigrateFacts], [MigrateSpec] (migrate/), [DualWrite]
      (migrate/dual_write.rs, client.rs), [Outbox], [OutboxSpec] (outbox.rs,
      outbox/relay.rs), [Config.Topology] (topology.rs, topology/remote.rs, proxy.rs).
    - Tiering (ecat-data-tiering/src): [TierConfig], [Tiering], [TieringFacts],
      [TieringInv], [TieringSafe], [TieringSpec] (config.rs, state.rs, archive.rs,
      archive/pacer.rs), [S3Sink], [S3SinkSpec] (sink/s3.rs), [ClickSink], [ClickSinkSpec]
      (sink/clickhouse.rs, ecat-data-clickhouse/src/lib.rs): both sinks are proved to keep
      the contract the archive job is proved against.  [TierSql], [TierQuery],
      [TierQuerySpec] (sink/mod.rs, query.rs, query/clickhouse.rs), [Partition],
      [PartitionSpec] (partition.rs).
    - Distributed transactions: [Saga], [SagaSql] (ecat-saga/src/saga.rs, state.rs: the
      engine and its two stores), [TwoPhase], [TwoPhaseFacts], [TwoPhaseSpec]
      (ecat-data-2pc/src/coordinator.rs, recovery.rs), [XaSqlx], [XaSqlxSpec] (xa.rs: the
      participant over sqlx, against the laws of the participant of [TwoPhase]).
    - HTTP: [Middleware], [MiddlewareSpec] (ecat-middleware: ratelimit.rs, retry.rs,
      ratelimit_redis.rs), [Auth], [AuthSpec] (ecat-auth/src), [Security], [SecuritySpec]
      (ecat-security/src), [GraphQL], [GraphQLFacts], [GraphQLPrint], [GraphQLSpec]
      (ecat-graphql/src).
    - ORM (ecat-orm/src): [OrmDialect], [OrmQuery], [OrmCrud], [OrmFacts], [OrmSpec]
      (entity.rs, dialect/, query/, page.rs, crud.rs, batch.rs), [OrmRelation],
      [OrmRelationSpec] (relation.rs), [OrmMigrate], [OrmMigrateSpec] (migrate/),
      [OrmValue] (value.rs, time.rs).
    - Messages: [Mq], [MqSpec] (ecat-mq/src/lib.rs), [Events], [EventsSpec]
      (ecat-events/src/lib.rs).
    - Locks and caches: [Lock], [LockSpec] (ecat-lock, the lock of ecat-data-redis),
      [Caches] (ecat-data/src/cache.rs, ecat-data-memcached, the cache of ecat-data-redis).
    - Calls to engines: [Workflow], [WorkflowSpec] (ecat-errors, ecat-data/src/timeout.rs,
      ecat-workflow/src: permit, breaker and time limit around one call, interleaved),
      [Engines], [EnginesSpec] (the four ecat-workflow- adapters, each an instance of the
      contract), [RemoteSql], [RemoteSqlSpec] (ecat-data-spark, ecat-data-trino).
    - Application: [App] (ecat/src), [Config], [ConfigSpec] (ecat-config,
      ecat-config-remote: sources of settings, the watches of Consul and etcd), [Services]
      (ecat-registry, ecat-client, ecat-health, ecat-versioning, ecat-scheduler,
      ecat-metadata).

    ** What the theorems show

    - No data is lost or invented across crashes.  The archive job keeps every row over any
      cold sink that keeps its contract, and over the S3 and ClickHouse sinks, which are
      proved to keep it; other clients may insert rows before each of its statements, but
      only as [TieringInv.punctual] allows (what a late row costs are theorems of
      [TieringSpec]).  Backfill and cutover of a shard migration deliver every row, for the
      migrations [MigrateSpec] calls [planned].  The mirror of double writes executes what
      was answered, and never what the primary did not execute.  No participant of the
      two-phase coordinator commits while another rolls back, and the one over sqlx keeps
      the laws of the participant but for a failed transaction that reports a prepare.  The
      saga engine refines an abstract specification, over either store.  An outbox record
      that reads done was handled, whether relays are seen as interleaved steps or as whole
      calls of [run_once].  Two statements in one transaction are all or nothing, and the
      server is left without an open transaction, however their call ends.
    - Isolation and uniqueness: Snowflake identifiers are unique for interleaved threads;
      leases of a lock exclude each other; relays that answer in time never share an outbox
      record; an event has one consumer per group.
    - Bounds: the rate limiters, the query budget of GraphQL, the parameter limits of SQL
      statements, the permits of breaker and client.
    - What reaches a database: the text of a query built without [filter_raw] and [join] is
      made of keywords, declared names and placeholders, and does not depend on the values.
    - Behaviour under failure: five calls cut within one window open the breaker (calls that
      outlast the window one after the other never do), an open breaker shields the engine of
      each of the four adapters, a run of an application stops what it started, the watch of
      a topology keeps the last good one and converges to it for any interleaving.
    - Equivalences and round trips: a tiered query and a merged scatter with their one-table
      references, a chunked delete with the single statement, printed GraphQL with what is
      read back, obfuscated settings with the plain ones, the key range of etcd with the
      prefix it stands for.
    - Totality: the GraphQL parser answers every text, partition plans end, relations give
      every subject its rows, migrations apply what is pending in order.
    - What the code does not do although a comment says so is stated as a theorem too and
      listed with the findings: rows that arrive before a partition is dropped, chunked NOT IN
      deletes, keys read back on MySQL, a version header that selects nothing, and the like.

    ** Bounds and fuel

    The GraphQL parser recurses at most [MAX_DEPTH] levels, as the code does, and its loops
    carry the length of the text.  [split_chunks] and [slice::chunks] carry the length of
    the batch.  Migration and archive loops take the number of effects or the budget of
    the code as their measure.  The polls of a started DolphinScheduler flow
    are at most [TRIGGER_POLL_ATTEMPTS], as in the code.  The polling loops of [RemoteSql],
    which the code bounds only by the time limit around them, run on a fuel that is an
    argument: a program out of fuel is one that still polls.  Prefixes are trimmed with the length of the text.  Sort orders
    are total because the code breaks ties by key.

    ** Not modelled

    Connectors that turn one operation into the requests of one engine (the ecat-data-
    crates not named above, ecat-mq- and ecat-registry- bindings): their shape, a guarded
    call and the reading of its answer, is that of [RemoteSql], and their state is on the
    servers.  The relational drivers beyond the transaction and the XA participant pass
    statements to sqlx and tiberius.  Transports, TLS, tracing, metrics, logging, the
    command line and the other middleware are plumbing around third-party calls with no
    decision that is read back; derive macros and generated protobuf code have no state.
    Memory orderings weaker than interleaving, cancellation inside third-party futures and
    the text of errors that only people read are left out.  The manifest lists every crate. *)

From stdpp Require Export base tactics option list gmap strings relations.
From stdpp Require Export sorting.
From Stdlib Require Export ZArith Lia SpecFloat.

#[global] Set Default Goal Selector "!".

(** ** Results

    Rust's [Result<T, E>] with the [?] operator. *)

Inductive result (T E : Type) : Type :=
| Ok (v : T)
| Err (e : E).
Arguments Ok {T E} v.
Arguments Err {T E} e.

Definition rbind {T U E} (r : result T E) (k : T -> result U E) : result U E :=
  match r with Ok v => k v | Err e => Err e end.

Definition is_ok {T E} (r : result T E) : bool :=
  match r with Ok _ => true | Err _ => false end.

Definition map_err {T E F} (f : E -> F) (r : result T E) : result T F :=
  match r with Ok v => Ok v | Err e => Err (f e) end.

Definition ok_or {T E} (o : option T) (e : E) : result T E :=
  match o with Some v => Ok v | None => Err e end.

Declare Scope ecat_scope.
Delimit Scope ecat_scope with ecat.

Notation "'let?' x ':=' c 'in' k" := (rbind c (fun x => k))
  (at level 10, x pattern, c at level 100, k at level 200,
   format "'[v' 'let?'  x  ':='  c  'in' '/' k ']'") : ecat_scope.

(** ** Machine integers

    A w-bit unsigned integer is a [Z] in [0, 2^w); [wrap w] is the release-mode
    wrap-around of an arithmetic result. *)

Definition wrap (w z : Z) : Z := (z mod 2 ^ w)%Z.
Definition u64_max : Z := (2 ^ 64 - 1)%Z.
Definition u32_max : Z := (2 ^ 32 - 1)%Z.
Definition u64_add (a b : Z) : Z := wrap 64 (a + b).
Definition u32_add (a b : Z) : Z := wrap 32 (a + b).
Definition sat_sub (a b : Z) : Z := Z.max 0 (a - b).

(** i64 arithmetic: two's complement in [-2^63, 2^63). *)
Definition to_i64 (z : Z) : Z := ((z + 2 ^ 63) mod 2 ^ 64 - 2 ^ 63)%Z.

Definition in_u64 (z : Z) : Prop := (0 <= z < 2 ^ 64)%Z.
Definition in_i64 (z : Z) : Prop := (- 2 ^ 63 <= z < 2 ^ 63)%Z.

(** ** Floating point

    [f64] is IEEE-754 binary64 as computed by [SpecFloat]: conversion from an
    integer, division and comparison, all rounding to nearest even. *)

Definition f64 : Type := spec_float.
Definition f64_of_u64 (n : Z) : f64 := binary_normalize 53 1024 n 0 false.
Definition f64_div (a b : f64) : f64 := SFdiv 53 1024 a b.
Definition f64_ge (a b : f64) : bool := SFleb b a.
Definition f64_zero : f64 := S754_zero false.
Definition f64_one : f64 := f64_of_u64 1.

(** [f64::clamp]: a NaN stays a NaN. *)
Definition f64_clamp (lo hi x : f64) : f64 :=
  let x := if SFltb x lo then lo else x in
  if SFltb hi x then hi else x.

(** ** Stable sorting

    [sort_by] of the standard library: stable, ascending for [le]. *)

Section Sort.
Context {A : Type} (le : A -> A -> bool).

Fixpoint insert_sorted (x : A) (l : list A) : list A :=
  match l with
  | [] => [x]
  | y :: l' => if le x y then x :: l else y :: insert_sorted x l'
  end.

Definition sort_by (l : list A) : list A := foldr insert_sorted [] l.

End Sort.

(** [HashSet::insert] over a list of names: the first repeated element. *)
Fixpoint first_dup (seen : gset string) (l : list string) : option string :=
  match l with
  | [] => None
  | x :: l => if decide (x ∈ seen) then Some x else first_dup ({[x]} ∪ seen) l
  end.

(** ** Reachability

    A component with interleaved operations is a step relation; what holds of
    every reachable state is proved by rule induction. *)

Definition reachable {S} (init : S -> Prop) (step : S -> S -> Prop) (s : S) : Prop :=
  exists s0, init s0 /\ rtc step s0 s.

Definition inductive_invariant {S} (init : S -> Prop) (step : S -> S -> Prop)
    (inv : S -> Prop) : Prop :=
  (forall s, init s -> inv s) /\ (forall s s', inv s -> step s s' -> inv s').

(** ** Tactics *)

Create HintDb ecat.

(** Splits every [match] and [if] of the goal on its scrutinee. *)
Ltac case_goal :=
  repeat match goal with
  | |- context [match ?x with _ => _ end] => destruct x eqn:?; simplify_eq/=
  end.

(** The same in the hypotheses. *)
Ltac case_hyps :=
  repeat match goal with
  | H : context [match ?x with _ => _ end] |- _ => destruct x eqn:?; simplify_eq/=
  end.

(** Turns the boolean tests of the code into arithmetic facts. *)
Ltac bool_prop :=
  repeat match goal with
  | H : (_ <=? _)%Z = true |- _ => apply Z.leb_le in H
  | H : (_ <=? _)%Z = false |- _ => apply Z.leb_gt in H
  | H : (_ <? _)%Z = true |- _ => apply Z.ltb_lt in H
  | H : (_ <? _)%Z = false |- _ => apply Z.ltb_ge in H
  | H : (_ =? _)%Z = true |- _ => apply Z.eqb_eq in H
  | H : (_ =? _)%Z = false |- _ => apply Z.eqb_neq in H
  | H : _ && _ = true |- _ => apply andb_true_iff in H as [? ?]
  | H : _ || _ = false |- _ => apply orb_false_iff in H as [? ?]
  | H : negb _ = true |- _ => apply negb_true_iff in H
  | H : negb _ = false |- _ => apply negb_false_iff in H
  end.

(** ** Generic lemmas *)

Lemma invariant_reachable {S} (init : S -> Prop) (step : S -> S -> Prop) inv s :
  inductive_invariant init step inv -> reachable init step s -> inv s.
Proof.
  intros [Hinit Hstep] (s0 & H0 & Hr). apply Hinit in H0.
  induction Hr as [|x y z Hxy Hyz IH]; eauto.
Qed.

Lemma reachable_refl {S} (init : S -> Prop) step s :
  init s -> reachable init step s.
Proof. intros H. exists s. split; [done | apply rtc_refl]. Qed.

Lemma reachable_step {S} (init : S -> Prop) step (s s' : S) :
  reachable init step s -> step s s' -> reachable init step s'.
Proof. intros (s0 & H0 & Hr) Hs. exists s0. split; [done | eapply rtc_r; eauto]. Qed.

Lemma rbind_ok {T U E} (r : result T E) (k : T -> result U E) v :
  rbind r k = Ok v -> exists x, r = Ok x /\ k x = Ok v.
Proof. destruct r; simpl; [eauto | discriminate]. Qed.

Lemma wrap_range w z : (0 <= w)%Z -> (0 <= wrap w z < 2 ^ w)%Z.
Proof. intros. apply Z.mod_pos_bound. lia. Qed.

Lemma wrap_small w z : (0 <= z < 2 ^ w)%Z -> wrap w z = z.
Proof. intros. by apply Z.mod_small. Qed.

Lemma to_i64_range z : in_i64 (to_i64 z).
Proof.
  unfold in_i64, to_i64. pose proof (Z.mod_pos_bound (z + 2 ^ 63) (2 ^ 64)). lia.
Qed.

Lemma to_i64_small z : in_i64 z -> to_i64 z = z.
Proof. unfold in_i64, to_i64. intros. rewrite Z.mod_small; lia. Qed.

Section SortFacts.
Context {A : Type} (le : A -> A -> bool).

Lemma insert_sorted_perm x l : insert_sorted le x l ≡ₚ x :: l.
Proof.
  induction l as [|y l IH]; simpl; [done|]. case_match; [done|].
  rewrite IH. apply Permutation_swap.
Qed.

Lemma sort_by_perm l : sort_by le l ≡ₚ l.
Proof. induction l as [|x l IH]; simpl; [done|]. by rewrite insert_sorted_perm, IH. Qed.

(** The order laws are only needed of the elements at hand. *)
Context (P : A -> Prop).
Context (le_total : forall x y, P x -> P y -> le x y = true \/ le y x = true).
Context (le_trans : forall x y z, P x -> P y -> P z ->
                      le x y = true -> le y z = true -> le x z = true).

Lemma insert_sorted_sorted x l :
  P x -> Forall P l -> StronglySorted (fun a b => le a b = true) l ->
  StronglySorted (fun a b => le a b = true) (insert_sorted le x l).
Proof.
  intros Hx HP. induction 1 as [|y l Hs IH Hy]; simpl; [by repeat constructor|].
  inv HP. destruct (le x y) eqn:Hxy.
  - constructor; [by constructor|]. constructor; [done|].
    rewrite Forall_forall in *. intros z Hz. apply (le_trans x y z); auto.
  - constructor; [auto|]. rewrite insert_sorted_perm. constructor; [|done].
    destruct (le_total x y); congruence.
Qed.

Lemma sort_by_sorted l :
  Forall P l -> StronglySorted (fun a b => le a b = true) (sort_by le l).
Proof.
  induction 1 as [|x l Hx HP IH]; simpl; [constructor|].
  apply insert_sorted_sorted; auto. by rewrite sort_by_perm.
Qed.

(** Sorting forgets the input order when ties are equal elements. *)
Lemma sort_by_unique l1 l2 :
  Forall P l1 ->
  (forall x y, x ∈ l1 -> y ∈ l1 -> le x y = true -> le y x = true -> x = y) ->
  l1 ≡ₚ l2 -> sort_by le l1 = sort_by le l2.
Proof.
  intros HP Hanti Hp. apply (StronglySorted_unique_strong (fun a b => le a b = true)).
  - intros x y Hx Hy. rewrite sort_by_perm in Hx, Hy. rewrite <- Hp in Hy. by apply Hanti.
  - by apply sort_by_sorted.
  - apply sort_by_sorted. by rewrite <- Hp.
  - by rewrite !sort_by_perm.
Qed.

End SortFacts.

Lemma StronglySorted_sublist {A} (R : A -> A -> Prop) l1 l2 :
  sublist l1 l2 -> StronglySorted R l2 -> StronglySorted R l1.
Proof.
  intros Hs. induction Hs as [|x l1 l2 Hs IH|x l1 l2 Hs IH]; intros H;
    [constructor| |]; apply StronglySorted_inv in H as [H Hx]; [|by apply IH].
  constructor; [by apply IH|]. rewrite Forall_forall in *. intros y Hy.
  apply Hx. apply (elem_of_submseteq l1); [done|]. by apply sublist_submseteq.
Qed.

Lemma first_dup_None seen l :
  first_dup seen l = None <-> NoDup l /\ (forall x, x ∈ l -> x ∉ seen).
Proof.
  revert seen. induction l as [|x l IH]; intros seen; simpl; [split; [|done]; by split; [constructor|set_solver]|].
  case_decide.
  - split; [done|]. intros [_ Hs]. destruct (Hs x); set_solver.
  - rewrite IH, NoDup_cons. set_solver.
Qed.

Lemma filter_keys_nodup {K A} (f : K * A -> bool) l :
  NoDup (map fst l) -> NoDup (map fst (List.filter f l)).
Proof.
  induction l as [|x l IH]; simpl; [done|]. intros [Hx Hl]%NoDup_cons.
  destruct (f x); simpl; [|auto]. apply NoDup_cons. split; [|auto].
  intros Hin. apply Hx. apply list_elem_of_fmap in Hin as (y & -> & Hy).
  apply list_elem_of_In, List.filter_In in Hy as [Hy _]. apply list_elem_of_fmap_2.
  by apply list_elem_of_In.
Qed.

Lemma filter_forallb {A} (f : A -> bool) (l : list A) : forallb f l = true -> List.filter f l = l.
Proof.
  induction l as [|x l IH]; [done|]. cbn [forallb List.filter]. intros [-> Hl]%andb_true_iff. by rewrite IH.
Qed.

#[export] Hint Resolve wrap_range to_i64_range reachable_refl : ecat.
