(* ===== verification/Clock.v ===== *)
(** * Time

    The [time] crate's instants and durations as integers of nanoseconds: the range of
    [OffsetDateTime] (years -9999 to 9999), checked addition, and the part of an
    instant its fixed text formats keep. *)

From S2P Require Import Prelude.

Local Open Scope Z_scope.

Definition second : Z := 10 ^ 9.
Definition minute : Z := 60 * second.
Definition day : Z := 86400 * second.

Definition min_instant : Z := -377705116800 * second.
Definition max_instant : Z := 253402300799 * second + 999999999.

(** [OffsetDateTime::checked_add]; the operators [+] and [-] panic where this is
    [None]. *)
Definition checked_add (t d : Z) : option Z :=
  if (min_instant <=? t + d) && (t + d <=? max_instant) then Some (t + d) else None.

(** The instant a text with seconds stands for. *)
Definition floor_second (t : Z) : Z := t - t mod second.

(** [hour() * 60 + minute()] in UTC. *)
Definition minute_of_day (t : Z) : Z := (t / minute) mod 1440.

Lemma minute_of_day_range t : 0 <= minute_of_day t < 1440.
Proof. unfold minute_of_day. apply Z.mod_pos_bound. lia. Qed.

Lemma checked_add_spec t d r :
  checked_add t d = Some r <-> r = t + d /\ min_instant <= t + d <= max_instant.
Proof.
  unfold checked_add. destruct (_ && _) eqn:H; split; intros Hr.
  - apply andb_prop in H as []. simplify_eq. lia.
  - by destruct Hr as [-> _].
  - done.
  - destruct Hr as [_ ?]. apply andb_false_iff in H. lia.
Qed.

Lemma floor_second_le t : floor_second t <= t < floor_second t + second.
Proof. unfold floor_second, second. pose proof (Z.mod_pos_bound t (10 ^ 9)). lia. Qed.
