(* ===== verification/Json.v ===== *)
(** * JSON values as the data layer uses them

    [serde_json::Value] is a third-party type: its variants are data, its number
    type and its text rendering are the operations of the class [JsonText], so
    every theorem that mentions them holds for any implementation of the library.
    Strings are their UTF-8 bytes. *)

From S2P Require Import Prelude.

Local Open Scope Z_scope.

(** What the code calls of [serde_json::Number] and of [Display for Value]. *)
Class JsonNumber := {
  Number : Type;
  number_as_i64 : Number -> option Z;
  number_is_u64 : Number -> bool;
  number_as_f64 : Number -> option f64;
  number_text : Number -> string;
}.

Inductive Value `{JsonNumber} : Type :=
| VNull
| VBool (b : bool)
| VNumber (n : Number)
| VString (s : string)
| VArray (l : list Value)
| VObject (l : list (string * Value)).

(** [Value::to_string]. *)
Class JsonText `{JsonNumber} := { value_text : Value -> string }.

Section Values.
Context `{JsonNumber}.

Definition is_null (v : Value) : bool :=
  match v with VNull => true | _ => false end.

Definition as_str (v : Value) : option string :=
  match v with VString s => Some s | _ => None end.

Definition as_i64 (v : Value) : option Z :=
  match v with VNumber n => number_as_i64 n | _ => None end.

Definition is_u64 (v : Value) : bool :=
  match v with VNumber n => number_is_u64 n | _ => false end.

(** A row of a result set: column name to value. *)
Definition Row : Type := gmap string Value.

Lemma Value_nested_ind (P : Value -> Prop) :
  P VNull -> (forall b, P (VBool b)) -> (forall n, P (VNumber n)) ->
  (forall s, P (VString s)) ->
  (forall l, Forall P l -> P (VArray l)) ->
  (forall l, Forall (fun kv => P kv.2) l -> P (VObject l)) ->
  forall v, P v.
Proof.
  intros Hn Hb Hnum Hs Ha Ho. fix IH 1.
  intros [|b|n|s|l|l]; [exact Hn|apply Hb|apply Hnum|apply Hs| |].
  - apply Ha. induction l as [|v l IHl]; constructor; [apply IH | exact IHl].
  - apply Ho. induction l as [|[k v] l IHl]; constructor; [apply IH | exact IHl].
Qed.

(** Equality of JSON documents up to the order of object members. *)
Inductive json_equiv : Value -> Value -> Prop :=
| json_equiv_refl v : json_equiv v v
| json_equiv_array l l' :
    Forall2 json_equiv l l' -> json_equiv (VArray l) (VArray l')
| json_equiv_object l m l' :
    NoDup l.*1 ->
    Forall2 (fun a b => a.1 = b.1 /\ json_equiv a.2 b.2) l m -> m ≡ₚ l' ->
    json_equiv (VObject l) (VObject l').

End Values.

(** [Number::from] of an [i64]. *)
Class JsonInt `{JN : JsonNumber} := {
  number_of_i64 : Z -> Number;
  number_of_i64_as n : in_i64 n -> number_as_i64 (number_of_i64 n) = Some n;
}.

(** ** Text *)

Definition byte_of (a : Ascii.ascii) : Z := Z.of_N (Ascii.N_of_ascii a).

Fixpoint bytes_of (s : string) : list Z :=
  match s with
  | EmptyString => []
  | String a s => byte_of a :: bytes_of s
  end.

Lemma bytes_of_app a b : bytes_of (a +:+ b) = bytes_of a ++ bytes_of b.
Proof.
  induction a as [|c a IH]; [done|].
  change (byte_of c :: bytes_of (a +:+ b) = byte_of c :: (bytes_of a ++ bytes_of b)). by rewrite IH.
Qed.

Lemma append_nil_r s : s +:+ "" = s.
Proof. induction s as [|a s IH]; [done|]. change (String a s +:+ "") with (String a (s +:+ "")). by rewrite IH. Qed.

Lemma append_assoc (a b c : string) : (a +:+ b) +:+ c = a +:+ (b +:+ c).
Proof. induction a as [|x a IH]; [done|]. change (String x ((a +:+ b) +:+ c) = String x (a +:+ (b +:+ c))). by rewrite IH. Qed.

Lemma length_sapp a b : String.length (a +:+ b) = (String.length a + String.length b)%nat.
Proof. induction a as [|x a IH]; [done|]. change (S (String.length (a +:+ b)) = S (String.length a + String.length b)%nat). by rewrite IH. Qed.

Definition between (lo b hi : Z) : bool := (lo <=? b) && (b <=? hi).

(** [str::trim().is_empty()]: only characters with the Unicode property
    White_Space, in UTF-8: U+0009-000D, U+0020, U+0085, U+00A0, U+1680,
    U+2000-200A, U+2028, U+2029, U+202F, U+205F, U+3000. *)
Definition space1 (b : Z) : bool := between 9 b 13 || (b =? 32).
Definition space2 (a b : Z) : bool := (a =? 194) && ((b =? 133) || (b =? 160)).
Definition space3 (a b c : Z) : bool :=
  (a =? 225) && (b =? 154) && (c =? 128)
  || (a =? 226) && (b =? 128) && (between 128 c 138 || between 168 c 169 || (c =? 175))
  || (a =? 226) && (b =? 129) && (c =? 159)
  || (a =? 227) && (b =? 128) && (c =? 128).

Fixpoint blank_bytes (l : list Z) : bool :=
  match l with
  | [] => true
  | a :: l1 =>
      if space1 a then blank_bytes l1 else
      match l1 with
      | [] => false
      | b :: l2 =>
          if space2 a b then blank_bytes l2 else
          match l2 with
          | [] => false
          | c :: l3 => if space3 a b c then blank_bytes l3 else false
          end
      end
  end.

Definition is_blank (s : string) : bool := blank_bytes (bytes_of s).

Lemma byte_of_range a : 0 <= byte_of a < 256.
Proof. unfold byte_of. pose proof (Ascii.N_ascii_bounded a). lia. Qed.

(** [str] order: bytewise lexicographic. *)
Definition str_le (a b : string) : bool := String.leb a b.

Lemma str_le_total a b : str_le a b = true \/ str_le b a = true.
Proof. unfold str_le. apply String.leb_total. Qed.

Lemma str_le_antisym a b : str_le a b = true -> str_le b a = true -> a = b.
Proof. unfold str_le. apply String.leb_antisym. Qed.

Lemma str_le_trans a b c : str_le a b = true -> str_le b c = true -> str_le a c = true.
Proof.
  unfold str_le. intros H1 H2.
  assert (H : String.le a c) by (transitivity b; by apply Is_true_true).
  by apply Is_true_true.
Qed.
