(* ===== verification/Text.v ===== *)
(** * Text helpers of the Rust standard library

    [to_string] and [parse] of unsigned integers, [trim], [to_ascii_lowercase],
    [rsplit_once] and counting of a character, as the components use them. *)

From Stdlib Require Import Ascii.
From Stdlib Require DecimalString DecimalN DecimalFacts.
From S2P Require Import Prelude Json.

Local Open Scope Z_scope.

(** [u64::to_string]. *)
Definition dec_text (n : Z) : string :=
  DecimalString.NilZero.string_of_uint (N.to_uint (Z.to_N n)).

(** [str::parse] of an unsigned integer of [w] bits: decimal digits after an
    optional plus sign, at least one, no overflow. *)
Definition parse_uint (w : Z) (s : string) : option Z :=
  let digits := match s with String "+"%char rest => rest | _ => s end in
  match DecimalString.NilZero.uint_of_string digits with
  | Some d => let n := Z.of_N (N.of_uint d) in if n <? 2 ^ w then Some n else None
  | None => None
  end.

Lemma to_uint_nonnil n : N.to_uint n <> Decimal.Nil.
Proof.
  intros H. pose proof (DecimalN.Unsigned.of_to n) as Hn. rewrite H in Hn. simpl in Hn. subst n. done.
Qed.

Lemma string_of_uint_no_plus d s :
  DecimalString.NilZero.string_of_uint d = String "+"%char s -> False.
Proof. by destruct d. Qed.

Lemma parse_dec_text w n : 0 <= n < 2 ^ w -> parse_uint w (dec_text n) = Some n.
Proof.
  intros Hn. unfold parse_uint, dec_text.
  set (t := DecimalString.NilZero.string_of_uint (N.to_uint (Z.to_N n))).
  assert (Ht : match t with String "+"%char rest => rest | _ => t end = t).
  { destruct t as [|a t'] eqn:E; [done|]. destruct (Ascii.ascii_dec a "+"%char) as [->|Hne].
    - by apply string_of_uint_no_plus in E.
    - by repeat (destruct a as [[] [] [] [] [] [] [] []]; try done). }
  rewrite Ht. unfold t. rewrite DecimalString.NilZero.usu by apply to_uint_nonnil.
  rewrite DecimalN.Unsigned.of_to. rewrite Z2N.id by lia.
  by assert (n <? 2 ^ w = true) as -> by (apply Z.ltb_lt; lia).
Qed.

(** [{:016x}]: sixteen lower-case hexadecimal digits of a [u64]. *)
Definition hex_digit (n : Z) : Ascii.ascii :=
  Ascii.ascii_of_N (Z.to_N (if n <? 10 then 48 + n else 87 + n)).

Fixpoint hex_digits (count : nat) (n : Z) (acc : string) : string :=
  match count with
  | O => acc
  | S count => hex_digits count (Z.shiftr n 4) (String (hex_digit (Z.land n 15)) acc)
  end.

Definition hex16 (n : Z) : string := hex_digits 16 n "".

(** [str::to_ascii_lowercase]. *)
Definition lower_ascii (a : Ascii.ascii) : Ascii.ascii :=
  let n := Ascii.N_of_ascii a in
  if ((65 <=? n) && (n <=? 90))%N then Ascii.ascii_of_N (n + 32) else a.

Fixpoint to_ascii_lowercase (s : string) : string :=
  match s with
  | EmptyString => EmptyString
  | String a s => String (lower_ascii a) (to_ascii_lowercase s)
  end.

(** [str::trim]: from both ends, the characters [is_blank] skips. *)
Fixpoint of_bytes (l : list Z) : string :=
  match l with
  | [] => EmptyString
  | b :: l => String (Ascii.ascii_of_N (Z.to_N b)) (of_bytes l)
  end.

Lemma of_bytes_bytes_of s : of_bytes (bytes_of s) = s.
Proof.
  induction s as [|a s IH]; [done|]. cbn [bytes_of of_bytes]. rewrite IH. unfold byte_of.
  by rewrite N2Z.id, Ascii.ascii_N_embedding.
Qed.

Lemma bytes_of_inj s t : bytes_of s = bytes_of t -> s = t.
Proof. intros H. by rewrite <- (of_bytes_bytes_of s), H, of_bytes_bytes_of. Qed.

Lemma bytes_of_range s : Forall (fun x => 0 <= x < 256) (bytes_of s).
Proof. induction s as [|a s IH]; constructor; [apply byte_of_range|done]. Qed.

Lemma byte_of_ascii x : 0 <= x < 256 -> byte_of (Ascii.ascii_of_N (Z.to_N x)) = x.
Proof. intros H. unfold byte_of. rewrite Ascii.N_ascii_embedding by lia. lia. Qed.

Lemma bytes_of_of_bytes l : Forall (fun x => 0 <= x < 256) l -> bytes_of (of_bytes l) = l.
Proof. induction 1 as [|x l Hx Hl IH]; [done|]. cbn [of_bytes bytes_of]. by rewrite byte_of_ascii, IH. Qed.

Fixpoint trim_start (l : list Z) : list Z :=
  match l with
  | [] => []
  | a :: l1 =>
      if space1 a then trim_start l1 else
      match l1 with
      | [] => l
      | b :: l2 =>
          if space2 a b then trim_start l2 else
          match l2 with
          | [] => l
          | c :: l3 => if space3 a b c then trim_start l3 else l
          end
      end
  end.

(** The same from the end, on the reversed bytes. *)
Fixpoint trim_rev (l : list Z) : list Z :=
  match l with
  | [] => []
  | a :: l1 =>
      if space1 a then trim_rev l1 else
      match l1 with
      | [] => l
      | b :: l2 =>
          if space2 b a then trim_rev l2 else
          match l2 with
          | [] => l
          | c :: l3 => if space3 c b a then trim_rev l3 else l
          end
      end
  end.

Definition trim (s : string) : string :=
  of_bytes (reverse (trim_rev (reverse (trim_start (bytes_of s))))).

(** [str::matches(c).count()] and [str::contains(c)]. *)
Fixpoint count_char (c : Ascii.ascii) (s : string) : nat :=
  match s with
  | EmptyString => 0
  | String a s => (if Ascii.eqb a c then 1 else 0) + count_char c s
  end.

Definition contains_char (c : Ascii.ascii) (s : string) : bool :=
  negb (Nat.eqb (count_char c s) 0).

(** [str::contains(&str)]. *)
Fixpoint contains (sub s : string) : bool :=
  String.prefix sub s ||
  match s with EmptyString => false | String _ s => contains sub s end.

(** [str::strip_prefix]. *)
Fixpoint strip_prefix (p s : string) : option string :=
  match p, s with
  | EmptyString, s => Some s
  | String a p, String b s => if Ascii.eqb a b then strip_prefix p s else None
  | String _ _, EmptyString => None
  end.

Lemma strip_prefix_app p s : strip_prefix p (p +:+ s) = Some s.
Proof.
  induction p as [|a p IH]; [done|]. change (strip_prefix (String a p) (String a (p +:+ s)) = Some s).
  cbn [strip_prefix]. by rewrite Ascii.eqb_refl.
Qed.

Lemma sapp_cancel p a b : p +:+ a = p +:+ b -> a = b.
Proof. intros H. pose proof (strip_prefix_app p a) as Ha. rewrite H, strip_prefix_app in Ha. by simplify_eq. Qed.

(** [str::rsplit_once(c)]. *)
Fixpoint rsplit_once (c : Ascii.ascii) (s : string) : option (string * string) :=
  match s with
  | EmptyString => None
  | String a s' =>
      match rsplit_once c s' with
      | Some (before, after) => Some (String a before, after)
      | None => if Ascii.eqb a c then Some (EmptyString, s') else None
      end
  end.

(** [str::split_once(c)]. *)
Fixpoint split_once (c : Ascii.ascii) (s : string) : option (string * string) :=
  match s with
  | EmptyString => None
  | String a s' =>
      if Ascii.eqb a c then Some (EmptyString, s')
      else match split_once c s' with
           | Some (before, after) => Some (String a before, after)
           | None => None
           end
  end.

Lemma split_once_spec c s before after :
  split_once c s = Some (before, after) ->
  s = before +:+ String c after /\ count_char c before = 0%nat.
Proof.
  revert before after. induction s as [|a s IH]; intros before after; simpl; [done|].
  destruct (Ascii.eqb_spec a c) as [->|Hne]; [intros; by simplify_eq|].
  destruct (split_once c s) as [[b t]|]; [|done]. intros; simplify_eq.
  destruct (IH b after eq_refl) as [-> Hc]. simpl.
  destruct (Ascii.eqb_spec a c); [done|]. by rewrite Hc.
Qed.

Lemma split_once_app c before after :
  count_char c before = 0%nat -> split_once c (before +:+ String c after) = Some (before, after).
Proof.
  induction before as [|a s IH]; intros Hc.
  - change (split_once c (String c after) = Some (EmptyString, after)). cbn [split_once]. by rewrite Ascii.eqb_refl.
  - change (split_once c (String a (s +:+ String c after)) = Some (String a s, after)). cbn [split_once count_char] in *.
    destruct (Ascii.eqb a c); [done|]. by rewrite IH.
Qed.

Lemma rsplit_once_spec c s before after :
  rsplit_once c s = Some (before, after) ->
  s = before +:+ String c after /\ count_char c after = 0%nat.
Proof.
  revert before after. induction s as [|a s IH]; intros before after; simpl; [done|].
  destruct (rsplit_once c s) as [[b t]|] eqn:Hs.
  - intros; simplify_eq. destruct (IH b after eq_refl) as [-> Hc]. done.
  - destruct (Ascii.eqb_spec a c) as [->|]; [|done]. intros; simplify_eq. split; [done|].
    clear IH. induction after as [|a s IH]; [done|]. simpl in *.
    destruct (rsplit_once c s) as [[? ?]|]; [done|]. destruct (Ascii.eqb a c); [done|]. auto.
Qed.

Lemma rsplit_once_none c s : rsplit_once c s = None <-> count_char c s = 0%nat.
Proof.
  induction s as [|a s IH]; simpl; [done|].
  destruct (rsplit_once c s) as [[b t]|] eqn:Hs, (Ascii.eqb a c); simpl; naive_solver.
Qed.

Example trim_ex : trim "  BYTEA " = "BYTEA"%string.
Proof. reflexivity. Qed.

(** ** UTF-8 validation

    [str::from_utf8] and [String::from_utf8_lossy] of the standard library on bytes, as the
    components that read untrusted bytes use them. *)

Local Open Scope Z_scope.

Module Utf8.

(** A whole character of [n] bytes, or [n] bytes to replace. *)
Inductive piece := Whole (n : nat) | Broken (n : nat).

Definition continuation (b : Z) : bool := between 128 b 191.

(** The byte [i] places further, 0 past the end. *)
Definition at_ (l : list Z) (i : nat) : Z := default 0 (l !! i).

(** What the second byte after [a] may be. *)
Definition second_of_three (a b : Z) : bool :=
  if a =? 224 then between 160 b 191 else if a =? 237 then between 128 b 159 else continuation b.
Definition second_of_four (a b : Z) : bool :=
  if a =? 240 then between 144 b 191 else if a =? 244 then between 128 b 143 else continuation b.

Definition first_piece (a : Z) (l : list Z) : piece :=
  if a <? 128 then Whole 1
  else if between 194 a 223 then if continuation (at_ l 0) then Whole 2 else Broken 1
  else if between 224 a 239 then
    if second_of_three a (at_ l 0) then if continuation (at_ l 1) then Whole 3 else Broken 2 else Broken 1
  else if between 240 a 244 then
    if second_of_four a (at_ l 0)
    then if continuation (at_ l 1) then if continuation (at_ l 2) then Whole 4 else Broken 3 else Broken 2
    else Broken 1
  else Broken 1.

(** [skip] bytes belong to the piece before. *)
Fixpoint valid_from (skip : nat) (l : list Z) : bool :=
  match l with
  | [] => true
  | a :: l =>
      match skip with
      | S k => valid_from k l
      | O => match first_piece a l with Whole n => valid_from (n - 1) l | Broken _ => false end
      end
  end.

Definition valid (l : list Z) : bool := valid_from 0 l.

Definition from_utf8 (l : list Z) : option string := if valid l then Some (of_bytes l) else None.

(** U+FFFD. *)
Definition replacement : list Z := [239; 191; 189].

Fixpoint lossy_from (keep : bool) (skip : nat) (l : list Z) : list Z :=
  match l with
  | [] => []
  | a :: l =>
      match skip with
      | S k => (if keep then [a] else []) ++ lossy_from keep k l
      | O =>
          match first_piece a l with
          | Whole n => a :: lossy_from true (n - 1) l
          | Broken n => replacement ++ lossy_from false (n - 1) l
          end
      end
  end.

Definition from_utf8_lossy (l : list Z) : string := of_bytes (lossy_from true 0 l).

Lemma lossy_valid_from skip l : valid_from skip l = true -> lossy_from true skip l = l.
Proof.
  revert skip. induction l as [|a l IH]; intros skip H; [done|]. cbn in *. destruct skip as [|k].
  - destruct (first_piece a l) as [n|n]; [|done]. by rewrite IH.
  - by rewrite IH.
Qed.

(** Valid bytes are read as they are. *)
Lemma lossy_valid l : valid l = true -> from_utf8_lossy l = of_bytes l.
Proof. intros H. unfold from_utf8_lossy. by rewrite (lossy_valid_from 0). Qed.

Lemma valid_ascii l : Forall (fun b => 0 <= b < 128) l -> valid l = true.
Proof.
  unfold valid. induction 1 as [|a l Ha _ IH]; [done|]. cbn. unfold first_piece. by assert (a <? 128 = true) as -> by lia.
Qed.

End Utf8.
