(* ===== verification/Dialect.v ===== *)
(** * Database dialects ([ecat-data])

    [src/ecat-data/src/dialect.rs]: the dialects the components branch on, and how one is
    read off a connection string. *)

From Stdlib Require Import Ascii.
From S2P Require Import Prelude Json Text.

Local Open Scope Z_scope.
Local Open Scope ecat_scope.

Inductive Dialect := Standard | Sqlite | Postgres | MySql | Mssql.

#[export] Instance dialect_eq_dec : EqDecision Dialect.
Proof. solve_decision. Defined.

Module DialectUrl.

(** The control characters and the space. *)
Definition is_pad (a : Ascii.ascii) : bool := byte_of a <=? 32.

Fixpoint trim_pad_start (s : string) : string :=
  match s with
  | String a s' => if is_pad a then trim_pad_start s' else s
  | EmptyString => EmptyString
  end.

(** From the end: a character is dropped when only padding follows it. *)
Fixpoint trim_pad_end (s : string) : string :=
  match s with
  | EmptyString => EmptyString
  | String a s' =>
      match trim_pad_end s' with
      | EmptyString => if is_pad a then EmptyString else String a EmptyString
      | s'' => String a s''
      end
  end.

(** [split(sub).next()]: what comes before the first [sub]. *)
Fixpoint before (sub s : string) : string :=
  if String.prefix sub s then EmptyString
  else match s with
       | EmptyString => EmptyString
       | String a s' => String a (before sub s')
       end.

Definition by_scheme (scheme : string) : Dialect :=
  if bool_decide (scheme ∈ ["postgres"; "postgresql"]) then Postgres
  else if bool_decide (scheme ∈ ["mysql"; "mariadb"]) then MySql
  else if String.eqb scheme "sqlite" then Sqlite
  else if bool_decide (scheme ∈ ["mssql"; "sqlserver"]) then Mssql
  else Standard.

Definition from_url (url : string) : Dialect :=
  by_scheme (to_ascii_lowercase (before ":" (before "://" (trim_pad_end (trim_pad_start url))))).

(** *** Lemmas *)

Fixpoint all_pad (s : string) : bool :=
  match s with EmptyString => true | String a s => is_pad a && all_pad s end.

Fixpoint no_colon (s : string) : bool :=
  match s with EmptyString => true | String a s => negb (Ascii.eqb a ":"%char) && no_colon s end.

Lemma trim_pad_start_app pad s :
  all_pad pad = true -> trim_pad_start (pad +:+ s) = trim_pad_start s.
Proof. induction pad as [|a pad IH]; simpl; [done|]. intros [-> Hp]%andb_prop. by apply IH. Qed.

(** Nothing before a character that stays is lost. *)
Lemma trim_pad_end_app s a rest :
  is_pad a = false -> exists rest', trim_pad_end (s +:+ String a rest) = s +:+ String a rest'.
Proof.
  intros Ha. induction s as [|b s [rest' IH]]; simpl.
  - destruct (trim_pad_end rest) as [|c r]; [rewrite Ha; by exists EmptyString|by exists (String c r)].
  - rewrite IH. exists rest'. by destruct s.
Qed.

Lemma prefix_head_ne a b x s : Ascii.eqb b a = false -> String.prefix (String a x) (String b s) = false.
Proof.
  intros Hab. cbn [String.prefix]. destruct (Ascii.ascii_dec a b) as [->|]; [|done].
  by rewrite Ascii.eqb_refl in Hab.
Qed.

Lemma append_nil_l s : EmptyString +:+ s = s.
Proof. reflexivity. Qed.

Lemma append_cons a s t : String a s +:+ t = String a (s +:+ t).
Proof. reflexivity. Qed.

Lemma before_colon s rest : no_colon s = true -> before ":" (s +:+ String ":" rest) = s.
Proof.
  induction s as [|a s IH]; [intros _; by destruct rest|]. rewrite append_cons. cbn [no_colon before].
  intros [Ha Hs]%andb_prop. apply negb_true_iff in Ha. rewrite prefix_head_ne by done. by rewrite IH.
Qed.

(** Cutting at [://] first does not lose the scheme. *)
Lemma before_scheme s rest :
  no_colon s = true ->
  before "://" (s +:+ String ":" rest) = s \/ exists r, before "://" (s +:+ String ":" rest) = s +:+ String ":" r.
Proof.
  induction s as [|a s IH].
  - intros _. rewrite append_nil_l. cbn [before]. destruct (String.prefix "://" (String ":" rest)); [by left|].
    right. by eexists.
  - rewrite append_cons. cbn [before no_colon]. intros [Ha Hs]%andb_prop. apply negb_true_iff in Ha.
    rewrite prefix_head_ne by done. destruct (IH Hs) as [->|[r ->]]; [by left|]. right. by exists r.
Qed.

Lemma before_nothing s : no_colon s = true -> before ":" s = s.
Proof.
  induction s as [|a s IH]; [done|]. cbn [no_colon before]. intros [Ha Hs]%andb_prop.
  apply negb_true_iff in Ha. rewrite prefix_head_ne by done. by rewrite IH.
Qed.

(** The dialect depends on the scheme alone: not on its case, on padding around the
    URL, or on what follows the colon. *)
Theorem from_url_by_scheme pad c scheme rest :
  all_pad pad = true -> is_pad c = false -> no_colon (String c scheme) = true ->
  from_url (pad +:+ String c scheme +:+ String ":" rest) = by_scheme (to_ascii_lowercase (String c scheme)).
Proof.
  intros Hp Hc Hs. unfold from_url. rewrite trim_pad_start_app by done. rewrite append_cons. cbn [trim_pad_start].
  rewrite Hc. change (String c (scheme +:+ String ":" rest)) with (String c scheme +:+ String ":" rest).
  destruct (trim_pad_end_app (String c scheme) ":" rest eq_refl) as [r ->].
  destruct (before_scheme (String c scheme) r Hs) as [->|[r' ->]].
  - by rewrite before_nothing.
  - by rewrite before_colon.
Qed.

Lemma from_url_by_scheme_witness :
  from_url (String (Ascii.ascii_of_nat 0) " MariaDB://db:3306/x ") = MySql.
Proof.
  exact (from_url_by_scheme (String (Ascii.ascii_of_nat 0) " ") "M" "ariaDB" "//db:3306/x " eq_refl eq_refl eq_refl).
Defined.

End DialectUrl.
