(* ===== verification/Rdbms.v ===== *)
(** * Relational clients ([ecat-data])

    [src/ecat-data/src/rdbms.rs]: the operations of [SqlExecutor] and [RdbmsClient] and
    their error type.  A client is what its operations do to an outside world [W]. *)

From S2P Require Import Prelude Json Dialect.

Local Open Scope Z_scope.

Module Rdbms.

Inductive RdbmsError :=
| Database (m : string)
| Connection (m : string)
| ConfigError (m : string)
| Timeout_ (m : string)
| NoAvailableReplica.

Section Client.
Context `{JN : JsonNumber}.

(** The operations of [SqlExecutor] that reach a backend. *)
Inductive Request :=
| Execute (sql : string)
| Query (sql : string)
| ExecuteWith (sql : string) (params : list Value)
| QueryWith (sql : string) (params : list Value)
| QueryWrite (sql : string) (params : list Value)
| ExecuteThenQuery (first : string) (params : list Value) (second : string).

Inductive Reply := Affected (n : Z) | Rows (l : list Row).

(** [RdbmsClient]: its operations, and its transactions as [Tx]. *)
Record RdbmsClient (W Tx : Type) := {
  perform_ : Request -> W -> result Reply RdbmsError * W;
  begin_ : W -> result Tx RdbmsError * W;
  replica_lag : W -> option Z;
  dialect_ : Dialect;
}.

End Client.

Arguments perform_ {_ W Tx} _.
Arguments begin_ {_ W Tx} _.
Arguments replica_lag {_ W Tx} _.
Arguments dialect_ {_ W Tx} _.

End Rdbms.
