(* ===== verification/Crash.v ===== *)
(** * Fallible effects of a process that can die

    A monad for code that performs durable effects one after the other: an effect
    changes the outside world [W] and returns a result; the process can die before
    any effect, after which only [W] is left.  [wp] is its weakest precondition:
    what must hold of the world so that a postcondition holds when the code
    returns and a crash invariant when it dies. *)

From S2P Require Import Prelude.

Inductive outcome (E A : Type) :=
| Ret (r : result A E)
| Died.
Arguments Ret {E A} r.
Arguments Died {E A}.

(** The process: the world and the number of effects left, [None] if it lives on. *)
Record proc (W : Type) := { the_world : W; left_ : option nat }.
Arguments the_world {W} _.
Arguments left_ {W} _.

Section Monad.
Context {W E : Type}.

Definition M (A : Type) : Type := proc W -> outcome E A * proc W.

Definition ret {A} (r : result A E) : M A := fun p => (Ret r, p).

(** The [?] operator. *)
Definition bind {A B} (m : M A) (k : A -> M B) : M B :=
  fun p => match m p with
           | (Ret (Ok x), p) => k x p
           | (Ret (Err e), p) => (Ret (Err e), p)
           | (Died, p) => (Died, p)
           end.

(** Inspecting a result instead of returning it. *)
Definition try {A} (m : M A) : M (result A E) :=
  fun p => match m p with
           | (Ret r, p) => (Ret (Ok r), p)
           | (Died, p) => (Died, p)
           end.

Definition effect {A} (f : W -> result A E * W) : M A :=
  fun p => match left_ p with
           | Some O => (Died, p)
           | Some (S n) =>
               let '(r, w) := f (the_world p) in (Ret r, {| the_world := w; left_ := Some n |})
           | None =>
               let '(r, w) := f (the_world p) in (Ret r, {| the_world := w; left_ := None |})
           end.

(** Looking at the process's own data. *)
Definition get {A} (f : W -> A) : M A := fun p => (Ret (Ok (f (the_world p))), p).

Definition wp {A} (m : M A) (Q : result A E -> W -> Prop) (I : W -> Prop) (w : W) : Prop :=
  forall b, match m {| the_world := w; left_ := b |} with
            | (Ret r, p) => Q r (the_world p)
            | (Died, p) => I (the_world p)
            end.

Lemma wp_run {A} (m : M A) (Q : result A E -> W -> Prop) (I : W -> Prop) w b out p :
  wp m Q I w -> m {| the_world := w; left_ := b |} = (out, p) ->
  match out with Ret r => Q r (the_world p) | Died => I (the_world p) end.
Proof. intros Hm Hrun. specialize (Hm b). rewrite Hrun in Hm. by destruct out. Qed.

Lemma wp_ret {A} (r : result A E) Q I w : Q r w -> wp (ret r) Q I w.
Proof. by intros H b. Qed.

Lemma wp_get {A} (f : W -> A) Q I w : Q (Ok (f w)) w -> wp (get f) Q I w.
Proof. by intros H b. Qed.

Lemma wp_bind {A B} (m : M A) (k : A -> M B) Q I w :
  wp m (fun r w' => match r with Ok x => wp (k x) Q I w' | Err e => Q (Err e) w' end) I w ->
  wp (bind m k) Q I w.
Proof.
  intros Hm b. unfold bind. specialize (Hm b).
  destruct (m _) as [[[x|e]|] p]; [|done..]. destruct p as [w' b']. apply Hm.
Qed.

Lemma wp_try {A} (m : M A) Q I w :
  wp m (fun r w' => Q (Ok r) w') I w -> wp (try m) Q I w.
Proof. intros Hm b. unfold try. specialize (Hm b). by destruct (m _) as [[r|] p]. Qed.

Lemma wp_effect {A} (f : W -> result A E * W) Q I w :
  I w -> Q (f w).1 (f w).2 -> wp (effect f) Q I w.
Proof.
  intros Hi Hq b. unfold effect; simpl. destruct b as [[|n]|]; [done|..];
    by destruct (f w) as [r w'].
Qed.

Lemma wp_mono {A} (m : M A) (Q Q' : result A E -> W -> Prop) I w :
  wp m Q I w -> (forall r w', Q r w' -> Q' r w') -> wp m Q' I w.
Proof. intros Hm HQ b. specialize (Hm b). destruct (m _) as [[r|] p]; auto. Qed.

(** *** What every run keeps

    A preorder on worlds that every effect respects relates the worlds before and
    after, however the run ends; an outcome that no part yields, the whole does not.
    [J] is what is known of the world and stays. *)

Definition respects {A} (J : W -> Prop) (R : W -> W -> Prop) (bad : E -> Prop) (m : M A) : Prop :=
  forall p out p', J (the_world p) -> m p = (out, p') ->
    R (the_world p) (the_world p') /\ (forall e, out = Ret (Err e) -> ~ bad e).

Section Respects.
Context (J : W -> Prop) (R : W -> W -> Prop) `{!PreOrder R} (bad : E -> Prop).
Context (stable : forall w w', R w w' -> J w -> J w').

Lemma respects_ret {A} (r : result A E) :
  (forall e, r = Err e -> ~ bad e) -> respects J R bad (ret r).
Proof. intros Hr p out p' _ H. unfold ret in H. simplify_eq. split; [reflexivity|]. naive_solver. Qed.

Lemma respects_ok {A} (x : A) : respects J R bad (ret (Ok x)).
Proof. by apply respects_ret. Qed.

Lemma respects_get {A} (f : W -> A) : respects J R bad (get f).
Proof. intros p out p' _ H. unfold get in H. simplify_eq. split; [reflexivity|done]. Qed.

Lemma respects_bind {A B} (m : M A) (k : A -> M B) :
  respects J R bad m -> (forall x, respects J R bad (k x)) -> respects J R bad (bind m k).
Proof.
  intros Hm Hk p out p' HJ H. unfold bind in H. destruct (m p) as [[[x|e]|] p1] eqn:Hp;
    destruct (Hm _ _ _ HJ Hp) as [H1 Hb].
  - destruct (Hk _ _ _ _ (stable _ _ H1 HJ) H) as [H2 Hb2]. split; [by etrans|done].
  - simplify_eq. split; [done|]. intros; simplify_eq. by apply Hb.
  - simplify_eq. by split.
Qed.

Lemma respects_effect {A} (f : W -> result A E * W) :
  (forall w, R w (f w).2 /\ (forall e, (f w).1 = Err e -> ~ bad e)) -> respects J R bad (effect f).
Proof.
  intros Hf p out p' _ H. unfold effect in H. pose proof (Hf (the_world p)) as [H1 H2].
  destruct (left_ p) as [[|n]|]; [simplify_eq; by split; [reflexivity|]|..];
    destruct (f (the_world p)) as [r w]; simplify_eq; simpl in *; (split; [done|]); naive_solver.
Qed.

Lemma respects_try_bind {A B} (m : M A) (k : result A E -> M B) :
  respects J R bad m ->
  (forall r, (forall e, r = Err e -> ~ bad e) -> respects J R bad (k r)) ->
  respects J R bad (bind (try m) k).
Proof.
  intros Hm Hk p out p' HJ H. unfold bind, try in H. destruct (m p) as [[r|] p1] eqn:Hp;
    destruct (Hm _ _ _ HJ Hp) as [H1 Hb].
  - assert (Hr : forall e, r = Err e -> ~ bad e) by (intros e ->; by apply Hb).
    destruct (Hk r Hr _ _ _ (stable _ _ H1 HJ) H) as [H2 Hb2]. split; [by etrans|done].
  - simplify_eq. by split.
Qed.

End Respects.

End Monad.
Arguments M : clear implicits.

Notation "'do!' x := m 'in' k" := (bind m (fun x => k))
  (at level 10, x pattern, m at level 100, k at level 200,
   format "'[v' 'do!'  x  :=  m  'in' '/' k ']'") : ecat_scope.
