(* ===== verification/CircuitBreaker.v ===== *)
(** * The circuit breaker ([ecat-circuit-breaker])

    [Module Window] is [src/ecat-circuit-breaker/src/window.rs], [Module Breaker]
    the state machine of [breaker.rs], [Module Layer] the builder of [tower.rs].

    A call runs in two critical sections of the breaker's mutex with the
    protected future between them, and the future can be dropped in between
    ([ProbePermit::drop]).  [Breaker.enter], [Breaker.finish] and
    [Breaker.drop_permit] are these sections; [Breaker.step] interleaves them for
    any number of concurrent calls.

    Time: [Instant::now()] is the [t]-th value of a clock [clk : nat -> Z] in
    nanoseconds, and every read advances [t], so two reads inside one critical
    section may differ, as they may in the program.  [f64] is IEEE-754 binary64
    as computed by [SpecFloat]. *)

From S2P Require Import Prelude.

Local Open Scope Z_scope.

Definition secs (n : Z) : Z := n * 1000000000.

Module Window.

Record SlidingWindow := {
  successes : Z;
  failures : Z;
  window_start : Z;
  window : Z;
}.

Section Clock.
Context (clk : nat -> Z).

(** [Instant::elapsed]: saturating, one clock read. *)
Definition elapsed (since : Z) (t : nat) : Z := sat_sub (clk t) since.

Definition new (window : Z) (t : nat) : SlidingWindow * nat :=
  ({| successes := 0; failures := 0; window_start := clk t; window := window |}, S t).

Definition clear (w : SlidingWindow) (t : nat) : SlidingWindow * nat :=
  ({| successes := 0; failures := 0; window_start := clk t; window := window w |}, S t).

Definition rotate (w : SlidingWindow) (t : nat) : SlidingWindow * nat :=
  if window w <=? elapsed (window_start w) t
  then ({| successes := 0; failures := 0;
           window_start := clk (S t); window := window w |}, S (S t))
  else (w, S t).

Definition record (w : SlidingWindow) (success : bool) (t : nat) : SlidingWindow * nat :=
  let '(w, t) := rotate w t in
  (if success
   then {| successes := u64_add (successes w) 1; failures := failures w;
           window_start := window_start w; window := window w |}
   else {| successes := successes w; failures := u64_add (failures w) 1;
           window_start := window_start w; window := window w |}, t).

Definition total (w : SlidingWindow) (t : nat) : Z * SlidingWindow * nat :=
  let '(w, t) := rotate w t in
  (u64_add (successes w) (failures w), w, t).

Definition failure_ratio (w : SlidingWindow) (t : nat) : f64 * SlidingWindow * nat :=
  let '(n, w, t) := total w t in
  if n =? 0 then (f64_zero, w, t)
  else (f64_div (f64_of_u64 (failures w)) (f64_of_u64 n), w, t).

End Clock.
End Window.

Module Breaker.
Import Window.

Inductive BreakerState := Closed | Open | HalfOpen.

#[export] Instance BreakerState_eq_dec : EqDecision BreakerState.
Proof. solve_decision. Defined.

Definition code (s : BreakerState) : Z :=
  match s with Closed => 0 | Open => 1 | HalfOpen => 2 end.

Record BreakerConfig := {
  cfg_failure_ratio : f64;
  cfg_window : Z;
  half_open_probes : Z;
  open_duration : Z;
}.

Definition default_failure_ratio : f64 := f64_div (f64_of_u64 1) (f64_of_u64 2).
Definition default_window : Z := secs 30.
Definition default_half_open_probes : Z := 3.
Definition default_open_duration : Z := secs 10.

Definition BreakerConfig_default : BreakerConfig := {|
  cfg_failure_ratio := default_failure_ratio;
  cfg_window := default_window;
  half_open_probes := default_half_open_probes;
  open_duration := default_open_duration;
|}.

Record Inner := {
  state : BreakerState;
  win : SlidingWindow;
  opened_at : option Z;
  half_open_count : Z;
  opened_total : Z;
}.

Inductive BreakerError (E : Type) :=
| BreakerOpen
| ProbesExhausted
| InnerError (e : E).
Arguments BreakerOpen {E}.
Arguments ProbesExhausted {E}.
Arguments InnerError {E} e.

(** What the first critical section of [call] decides: reject without calling
    the downstream, or go on, with or without a probe permit. *)
Inductive admission := Rejected (e : BreakerError Empty_set) | Granted (permit : bool).

(** Field updates of [Inner]. *)
Definition with_state (s : BreakerState) (i : Inner) : Inner :=
  {| state := s; win := win i; opened_at := opened_at i;
     half_open_count := half_open_count i; opened_total := opened_total i |}.
Definition with_win (w : SlidingWindow) (i : Inner) : Inner :=
  {| state := state i; win := w; opened_at := opened_at i;
     half_open_count := half_open_count i; opened_total := opened_total i |}.
Definition with_count (n : Z) (i : Inner) : Inner :=
  {| state := state i; win := win i; opened_at := opened_at i;
     half_open_count := n; opened_total := opened_total i |}.

Section Machine.
Context (clk : nat -> Z).
(** Whether [tracing::warn!] is enabled: its fields are evaluated only then, and
    one of them reads (and so rotates) the window. *)
Context (warn_enabled : bool).
Context (config : BreakerConfig).

Definition new (t : nat) : Inner * nat :=
  let '(w, t) := Window.new clk (cfg_window config) t in
  ({| state := Closed; win := w; opened_at := None;
      half_open_count := 0; opened_total := 0 |}, t).

(** The section of [call] before [f().await]. *)
Definition enter (i : Inner) (t : nat) : admission * Inner * nat :=
  match state i with
  | Open =>
      match opened_at i with
      | Some at_ =>
          if open_duration config <=? elapsed clk at_ t
          then (Granted false, with_count 0 (with_state HalfOpen i), S t)
          else (Rejected BreakerOpen, i, S t)
      | None => (Granted false, i, t)
      end
  | HalfOpen =>
      if half_open_probes config <=? half_open_count i
      then (Rejected ProbesExhausted, i, t)
      else (Granted true, with_count (u32_add (half_open_count i) 1) i, t)
  | Closed => (Granted false, i, t)
  end.

(** [inner.state = Open; inner.opened_at = Some(now); inner.opened_total += 1]. *)
Definition reopen (i : Inner) (t : nat) : Inner * nat :=
  ({| state := Open; win := win i; opened_at := Some (clk t);
      half_open_count := half_open_count i;
      opened_total := u64_add (opened_total i) 1 |}, S t).

(** The two conditions of [Closed], [&&] short-circuiting. *)
Definition should_open (i : Inner) (t : nat) : bool * Inner * nat :=
  let '(n, w, t) := total clk (win i) t in
  if 5 <=? n then
    let '(r, w, t) := failure_ratio clk w t in
    (f64_ge r (cfg_failure_ratio config), with_win w i, t)
  else (false, with_win w i, t).

(** The section of [call] after [f().await].  [is_failure] is the verdict of
    [classify] on the response, [false] without a callback. *)
Definition finish {T E} (classify : option (T -> bool)) (i : Inner)
    (r : result T E) (t : nat) : Inner * nat :=
  let success :=
    match r with
    | Ok resp => negb (match classify with Some c => c resp | None => false end)
    | Err _ => false
    end in
  let '(w, t) := record clk (win i) success t in
  let i := with_win w i in
  match state i with
  | Closed =>
      let '(b, i, t) := should_open i t in
      if b then
        let '(i, t) :=
          if warn_enabled
          then let '(_, w, t) := failure_ratio clk (win i) t in (with_win w i, t)
          else (i, t) in
        reopen i t
      else (i, t)
  | HalfOpen =>
      if is_ok r then
        let '(w, t) := clear clk (win i) t in
        ({| state := Closed; win := w; opened_at := None;
            half_open_count := half_open_count i;
            opened_total := opened_total i |}, t)
      else reopen i t
  | Open => (i, t)
  end.

(** [Drop for ProbePermit] of an armed permit. *)
Definition drop_permit (i : Inner) : Inner :=
  with_count (sat_sub (half_open_count i) 1) i.

(** [Breaker::state]: the effective state, a cooled-down [Open] being reported as
    [HalfOpen]; [is_some_and] reads the clock only when [opened_at] is set. *)
Definition effective_state (i : Inner) (t : nat) : BreakerState * nat :=
  let '(cooled_down, t) :=
    match opened_at i with
    | Some at_ => (open_duration config <=? elapsed clk at_ t, S t)
    | None => (false, t)
    end in
  (if bool_decide (state i = Open) && cooled_down then HalfOpen else state i, t).

(** [Breaker::call], uninterrupted: [f] acts on the outside world [W]. *)
Definition call {W T E} (classify : option (T -> bool)) (i : Inner) (t : nat)
    (f : W -> result T E * W) (world : W) : result T (BreakerError E) * Inner * nat * W :=
  match enter i t with
  | (Rejected BreakerOpen, i, t) => (Err BreakerOpen, i, t, world)
  | (Rejected ProbesExhausted, i, t) => (Err ProbesExhausted, i, t, world)
  | (Rejected (InnerError e), i, t) => match e with end
  | (Granted _, i, t) =>
      let '(r, world) := f world in
      let '(i, t) := finish classify i r t in
      (map_err InnerError r, i, t, world)
  end.

(** *** Concurrent calls

    [inflight] maps a call between its two sections to its permit. *)
Record sys := {
  inner : Inner;
  tick : nat;
  inflight : gmap nat bool;
}.

Context {T E : Type} (classify : option (T -> bool)).

Inductive step : sys -> sys -> Prop :=
| step_admit s id (p : bool) i t :
    inflight s !! id = None ->
    enter (inner s) (tick s) = (Granted p, i, t) ->
    step s {| inner := i; tick := t; inflight := <[id := p]> (inflight s) |}
| step_reject s e i t :
    enter (inner s) (tick s) = (Rejected e, i, t) ->
    step s {| inner := i; tick := t; inflight := inflight s |}
| step_finish s id (p : bool) (r : result T E) i t :
    inflight s !! id = Some p ->
    finish classify (inner s) r (tick s) = (i, t) ->
    step s {| inner := i; tick := t; inflight := delete id (inflight s) |}
| step_cancel s id (p : bool) :
    inflight s !! id = Some p ->
    step s {| inner := if p then drop_permit (inner s) else inner s;
              tick := tick s; inflight := delete id (inflight s) |}
| step_time s : step s {| inner := inner s; tick := S (tick s); inflight := inflight s |}.

Definition init (s : sys) : Prop :=
  exists t : nat, (inner s, tick s) = new t /\ inflight s = ∅.

(** Permits held by calls in flight. *)
Definition permits (m : gmap nat bool) : nat :=
  size (filter (fun kv : nat * bool => kv.2 = true) m).

End Machine.
End Breaker.

Module Layer.
Import Breaker.

(** [CircuitBreakerLayer] without its callback, which the services share. *)
Definition new : BreakerConfig := BreakerConfig_default.

Definition failure_ratio (ratio : f64) (c : BreakerConfig) : BreakerConfig :=
  {| cfg_failure_ratio := f64_clamp f64_zero f64_one ratio; cfg_window := cfg_window c;
     half_open_probes := half_open_probes c; open_duration := open_duration c |}.

Definition window (w : Z) (c : BreakerConfig) : BreakerConfig :=
  {| cfg_failure_ratio := cfg_failure_ratio c; cfg_window := w;
     half_open_probes := half_open_probes c; open_duration := open_duration c |}.

Definition half_open_probes_ (n : Z) (c : BreakerConfig) : BreakerConfig :=
  {| cfg_failure_ratio := cfg_failure_ratio c; cfg_window := cfg_window c;
     half_open_probes := Z.max n 1; open_duration := open_duration c |}.

Definition open_duration_ (d : Z) (c : BreakerConfig) : BreakerConfig :=
  {| cfg_failure_ratio := cfg_failure_ratio c; cfg_window := cfg_window c;
     half_open_probes := half_open_probes c; open_duration := d |}.

End Layer.

(** ** Lemmas and theorems *)

Module BreakerFacts.
Import Window Breaker.

Section Permits.

Lemma permits_empty : permits ∅ = 0%nat.
Proof. reflexivity. Qed.

Lemma permits_admit (m : gmap nat bool) id (p : bool) :
  m !! id = None ->
  permits (<[id := p]> m) = if p then S (permits m) else permits m.
Proof.
  intros Hid. unfold permits. destruct p.
  - rewrite map_filter_insert_True by done.
    rewrite map_size_insert_None; [done|]. apply map_lookup_filter_None. by left.
  - rewrite map_filter_insert_False by (simpl; done). by rewrite delete_id.
Qed.

Lemma permits_release (m : gmap nat bool) id (p : bool) :
  m !! id = Some p ->
  permits (delete id m) = if p then pred (permits m) else permits m.
Proof.
  intros Hid. unfold permits. rewrite map_filter_delete. destruct p.
  - apply map_size_delete_Some. exists true. by apply map_lookup_filter_Some.
  - rewrite delete_id; [done|]. apply map_lookup_filter_None. right. naive_solver.
Qed.

Lemma permits_held (m : gmap nat bool) id : m !! id = Some true -> (0 < permits m)%nat.
Proof.
  intros Hid. unfold permits.
  destruct (size _) eqn:Hs; [|lia].
  apply map_size_empty_inv, (map_filter_empty_not_lookup _ _ id true) in Hs; naive_solver.
Qed.

End Permits.

Section Facts.
Context (clk : nat -> Z) (warn_enabled : bool) (config : BreakerConfig).
Context {T E : Type} (classify : option (T -> bool)).

Local Abbreviation enter := (enter clk config).
Local Abbreviation finish := (finish (E := E) clk warn_enabled config classify).
Local Abbreviation step := (step clk warn_enabled config (T := T) (E := E) classify).

(** *** The window *)

Definition fresh (w : SlidingWindow) : Prop :=
  forall t, sat_sub (clk t) (window_start w) < window w.

Lemma rotate_fresh w t : fresh w -> rotate clk w t = (w, S t).
Proof. intros H. unfold rotate, elapsed. specialize (H t). case_goal; bool_prop; [lia | done]. Qed.

Lemma rotate_window w t : window (rotate clk w t).1 = window w.
Proof. unfold rotate. by case_match. Qed.

(** What one more sample makes of the counters. *)
Definition sample (w : SlidingWindow) (success : bool) : SlidingWindow :=
  if success
  then {| successes := u64_add (successes w) 1; failures := failures w;
          window_start := window_start w; window := window w |}
  else {| successes := successes w; failures := u64_add (failures w) 1;
          window_start := window_start w; window := window w |}.

Lemma sample_fresh w b : fresh w -> fresh (sample w b).
Proof. unfold fresh. by destruct b. Qed.

Lemma record_fresh w b t : fresh w -> record clk w b t = (sample w b, S t).
Proof. intros H. unfold record. by rewrite rotate_fresh. Qed.

Lemma total_fresh w t :
  fresh w -> total clk w t = (u64_add (successes w) (failures w), w, S t).
Proof. intros H. unfold total. by rewrite rotate_fresh. Qed.

(** The ratio the breaker compares with its threshold. *)
Definition ratio (w : SlidingWindow) : f64 :=
  let n := u64_add (successes w) (failures w) in
  if n =? 0 then f64_zero else f64_div (f64_of_u64 (failures w)) (f64_of_u64 n).

Lemma failure_ratio_fresh w t : fresh w -> failure_ratio clk w t = (ratio w, w, S t).
Proof. intros H. unfold failure_ratio, ratio. rewrite total_fresh by done. by case_match. Qed.

(** *** The sections of a call *)

Lemma should_open_same i t b i' t' :
  should_open clk config i t = (b, i', t') ->
  state i' = state i /\ opened_at i' = opened_at i /\
  half_open_count i' = half_open_count i /\ opened_total i' = opened_total i.
Proof. unfold should_open. intros. case_hyps; simplify_eq; done. Qed.

Lemma should_open_fresh i t :
  fresh (win i) ->
  exists t', should_open clk config i t =
    ((5 <=? u64_add (successes (win i)) (failures (win i)))
     && f64_ge (ratio (win i)) (cfg_failure_ratio config), i, t').
Proof.
  intros H. unfold should_open. rewrite total_fresh by done.
  destruct (5 <=? _); simpl; [rewrite failure_ratio_fresh by done|];
    eexists; f_equal; f_equal; by destruct i.
Qed.

Lemma enter_never_opens i t a i' t' :
  enter i t = (a, i', t') ->
  opened_total i' = opened_total i /\ (state i' = Open -> state i = Open).
Proof.
  unfold Breaker.enter. intros He.
  destruct (state i) eqn:Hs; repeat case_match; simplify_eq/=; by rewrite ?Hs.
Qed.

(** The verdict a completed call leaves in [finish]. *)
Lemma finish_cases i (r : result T E) t i' t' :
  finish i r t = (i', t') ->
  (state i' = state i /\ opened_at i' = opened_at i /\
   half_open_count i' = half_open_count i /\ opened_total i' = opened_total i /\
   state i <> HalfOpen) \/
  (state i = HalfOpen /\ is_ok r = true /\ state i' = Closed /\ opened_at i' = None /\
   opened_total i' = opened_total i /\ half_open_count i' = half_open_count i) \/
  (state i <> Open /\ state i' = Open /\ is_Some (opened_at i') /\
   opened_total i' = u64_add (opened_total i) 1 /\ half_open_count i' = half_open_count i).
Proof.
  unfold Breaker.finish. destruct (record _ _ _ _) as [w t1]; simpl.
  destruct (state i) eqn:Hs.
  - destruct (should_open _ _ _ _) as [[b i1] t2] eqn:Ho.
    apply should_open_same in Ho as (H1 & H2 & H3 & H4); simpl in *.
    destruct b; [|intros; simplify_eq; left; rewrite H1; naive_solver].
    destruct warn_enabled; unfold reopen;
      [destruct (failure_ratio _ _ _) as [[? ?] ?]|]; intros; simplify_eq/=;
      right; right; rewrite H3, H4; naive_solver.
  - intros; simplify_eq/=. left. naive_solver.
  - destruct (is_ok r); unfold reopen; intros; simplify_eq/=; naive_solver.
Qed.

(** *** The invariant of concurrent calls *)

Definition breaker_inv (s : sys) : Prop :=
  (state (inner s) = Open -> is_Some (opened_at (inner s))) /\
  0 <= half_open_count (inner s) <= half_open_probes config /\
  (state (inner s) = HalfOpen ->
     half_open_count (inner s) <= Z.of_nat (permits (inflight s))).

Lemma breaker_inv_finish s id (p : bool) (r : result T E) i t :
  inflight s !! id = Some p -> finish (inner s) r (tick s) = (i, t) ->
  breaker_inv s ->
  breaker_inv {| inner := i; tick := t; inflight := delete id (inflight s) |}.
Proof.
  intros Hid Hf (H1 & H2 & H3). unfold breaker_inv; simpl.
  apply finish_cases in Hf as [(Hs & Ha & Hc & _ & Hn)|[(_ & _ & Hs & _ & _ & Hc)|
    (_ & Hs & Ha & _ & Hc)]]; rewrite Hs, Hc, ?Ha; split_and!; try done; lia.
Qed.

Lemma breaker_inv_cancel s id (p : bool) :
  inflight s !! id = Some p -> breaker_inv s ->
  breaker_inv {| inner := if p then drop_permit (inner s) else inner s;
                 tick := tick s; inflight := delete id (inflight s) |}.
Proof.
  intros Hid (H1 & H2 & H3). unfold breaker_inv; simpl.
  rewrite (permits_release _ _ p) by done. destruct p; simpl; [|done].
  apply permits_held in Hid. unfold sat_sub. split; [done|]. split; [lia|].
  intros Hs. specialize (H3 Hs). lia.
Qed.

Lemma breaker_inv_enter s a i t :
  half_open_probes config <= u32_max ->
  enter (inner s) (tick s) = (a, i, t) -> breaker_inv s ->
  match a with
  | Rejected _ => i = inner s
  | Granted p =>
      forall m, permits m = (if p then S (permits (inflight s)) else permits (inflight s)) ->
      breaker_inv {| inner := i; tick := t; inflight := m |}
  end.
Proof.
  unfold Breaker.enter, u32_max. intros Hu He (H1 & H2 & H3).
  destruct (state (inner s)) eqn:Hs;
    [|destruct (opened_at (inner s)) eqn:Ha; [destruct (_ <=? _) eqn:Hc|]
     |destruct (_ <=? _) eqn:Hc]; simplify_eq/=; try done;
    bool_prop; intros m Hm; unfold breaker_inv; simpl; rewrite ?Hm, ?Hs.
  - naive_solver.
  - split; [done|]. split; [lia|]. intros. lia.
  - destruct (H1 eq_refl) as [? ?]; done.
  - assert (Hw : u32_add (half_open_count (inner s)) 1 = half_open_count (inner s) + 1).
    { unfold u32_add. apply wrap_small. lia. }
    rewrite Hw. split; [done|]. split; [lia|]. intros _. specialize (H3 eq_refl). lia.
Qed.

Lemma breaker_inv_inductive :
  0 <= half_open_probes config <= u32_max ->
  inductive_invariant (init clk config) step breaker_inv.
Proof.
  intros [Hp Hu]. split.
  - intros s (t & Hn & He). unfold new in Hn. simplify_eq/=.
    unfold breaker_inv. rewrite He, permits_empty. destruct s; simplify_eq/=.
    split_and!; try done; lia.
  - intros s s' Hi Hstep. destruct Hstep as [s id p i t Hid He|s e i t He|s id p r i t Hid Hf|
      s id p Hid|s].
    + pose proof (breaker_inv_enter _ _ _ _ Hu He Hi) as H; simpl in H.
      apply H. by apply permits_admit.
    + pose proof (breaker_inv_enter _ _ _ _ Hu He Hi) as H; simpl in H. by subst i.
    + eapply breaker_inv_finish; eauto.
    + eapply breaker_inv_cancel; eauto.
    + exact Hi.
Qed.

Lemma breaker_inv_reachable s :
  0 <= half_open_probes config <= u32_max ->
  reachable (init clk config) step s -> breaker_inv s.
Proof. intros H. apply invariant_reachable. by apply breaker_inv_inductive. Qed.

End Facts.
End BreakerFacts.

Module BreakerSpec.
Import Window Breaker BreakerFacts.

(** The clock of the witnesses: one nanosecond per read. *)
Definition demo_clk (t : nat) : Z := Z.of_nat t.

(** A half-open breaker with one probe in flight. *)
Definition demo_sys : sys := {|
  inner := {| state := HalfOpen;
              win := {| successes := 0; failures := 5; window_start := 0; window := secs 30 |};
              opened_at := Some 3; half_open_count := 1; opened_total := 1 |};
  tick := 40; inflight := {[ 7%nat := true ]} |}.

(** C1. In every interleaving of concurrent calls and cancellations, an open
    breaker knows when it opened, the probe counter stays within
    [half_open_probes], and in half-open it never exceeds the number of probe
    permits that calls in flight really hold. *)
Theorem breaker_permits_accounted clk warn config T E (classify : option (T -> bool)) s :
  0 <= half_open_probes config <= u32_max ->
  reachable (init clk config) (step clk warn config (E := E) classify) s ->
  (state (inner s) = Open -> is_Some (opened_at (inner s))) /\
  0 <= half_open_count (inner s) <= half_open_probes config /\
  (state (inner s) = HalfOpen ->
     half_open_count (inner s) <= Z.of_nat (permits (inflight s))).
Proof. apply breaker_inv_reachable. Qed.

Definition demo_init : sys :=
  {| inner := (new demo_clk BreakerConfig_default 0).1; tick := 1; inflight := ∅ |}.

Lemma breaker_permits_accounted_witness :
  0 <= half_open_count (inner demo_init) <= half_open_probes BreakerConfig_default.
Proof.
  apply (breaker_permits_accounted demo_clk true BreakerConfig_default unit unit None demo_init).
  - vm_compute; split; discriminate.
  - apply reachable_refl. exists 0%nat. split; reflexivity.
Defined.

(** C2. A breaker is never stuck: once no call in flight holds a permit, the next
    call is not refused with [ProbesExhausted], whatever probes were cancelled
    before. *)
Theorem no_permanent_exhaustion clk warn config T E (classify : option (T -> bool)) s :
  1 <= half_open_probes config <= u32_max ->
  reachable (init clk config) (step clk warn config (E := E) classify) s ->
  permits (inflight s) = 0%nat ->
  forall i t, enter clk config (inner s) (tick s) <> (Rejected ProbesExhausted, i, t).
Proof.
  intros Hp Hr H0 i t He. apply breaker_inv_reachable in Hr as (_ & _ & H3); [|lia].
  unfold enter in He. destruct (state (inner s)); repeat case_match; simplify_eq.
  bool_prop. specialize (H3 eq_refl). lia.
Qed.

Lemma no_permanent_exhaustion_witness :
  permits (inflight demo_init) = 0%nat /\
  enter demo_clk BreakerConfig_default (inner demo_init) 1
    <> (Rejected ProbesExhausted, inner demo_init, 1%nat).
Proof.
  split; [reflexivity|].
  apply (no_permanent_exhaustion demo_clk true BreakerConfig_default unit unit None demo_init).
  - vm_compute; split; discriminate.
  - apply reachable_refl. exists 0%nat. split; reflexivity.
  - reflexivity.
Defined.

(** [Breaker::state] and [Breaker::call] agree: in every reachable state the
    effective state is [Open] exactly when the next call is refused with
    [BreakerError::Open], and such a call leaves the outside world, that is the
    downstream, and the breaker untouched. *)
Theorem effective_open_iff_rejected clk warn config T E (classify : option (T -> bool)) s :
  0 <= half_open_probes config <= u32_max ->
  reachable (init clk config) (step clk warn config (E := E) classify) s ->
  ((effective_state clk config (inner s) (tick s)).1 = Open <->
   enter clk config (inner s) (tick s) = (Rejected BreakerOpen, inner s, S (tick s))) /\
  ((effective_state clk config (inner s) (tick s)).1 = Open ->
   forall W (f : W -> result T E * W) w,
     call clk warn config classify (inner s) (tick s) f w =
       (Err BreakerOpen, inner s, S (tick s), w)).
Proof.
  intros Hp Hr. apply breaker_inv_reachable in Hr as (H1 & _ & _); [|lia].
  unfold effective_state, call, enter. destruct (state (inner s)) eqn:Hs; simpl.
  - split; [split; [|done]|]; by repeat case_match.
  - destruct (H1 eq_refl) as [a ->]. by destruct (_ <=? _).
  - split; [split|]; repeat case_match; simplify_eq/=; done.
Qed.

Lemma effective_open_iff_rejected_witness :
  ((effective_state demo_clk BreakerConfig_default (inner demo_init) 1).1 = Open <->
   enter demo_clk BreakerConfig_default (inner demo_init) 1 =
     (Rejected BreakerOpen, inner demo_init, 2%nat)).
Proof.
  apply (effective_open_iff_rejected demo_clk true BreakerConfig_default unit unit None demo_init).
  - vm_compute; split; discriminate.
  - apply reachable_refl. exists 0%nat. split; reflexivity.
Defined.

(** The trip condition, while the window has not run out: a completed call of
    a closed breaker opens it exactly when the window then holds at least five
    samples and their failure ratio reaches the threshold; otherwise the breaker
    stays closed with the sample counted. *)
Theorem closed_trips_iff clk warn config T E (classify : option (T -> bool)) i (r : result T E) t :
  state i = Closed -> fresh clk (win i) ->
  let w := sample (win i)
             (match r with
              | Ok v => negb (match classify with Some c => c v | None => false end)
              | Err _ => false end) in
  let trips := (5 <=? u64_add (successes w) (failures w))
               && f64_ge (ratio w) (cfg_failure_ratio config) in
  let i' := (finish clk warn config classify i r t).1 in
  state i' = (if trips then Open else Closed) /\ win i' = w /\
  opened_total i' = (if trips then u64_add (opened_total i) 1 else opened_total i).
Proof.
  intros Hs Hf. cbv zeta. unfold finish. rewrite record_fresh by done.
  set (w := sample _ _). assert (Hw : fresh clk w) by (by apply sample_fresh).
  cbn [state with_win]. rewrite Hs.
  destruct (should_open_fresh clk config (with_win w i) (S t) Hw) as [t' ->].
  cbn [win with_win]. destruct (_ && _); [|by rewrite <- Hs].
  destruct warn; cbn [win with_win]; [rewrite failure_ratio_fresh by done|]; done.
Qed.

Definition demo_closed : Inner :=
  {| state := Closed;
     win := {| successes := 0; failures := 4; window_start := 0; window := secs 30 |};
     opened_at := None; half_open_count := 0; opened_total := 0 |}.

Lemma closed_trips_iff_witness :
  state (finish (E := unit) (fun _ => 7) true BreakerConfig_default
           (None : option (unit -> bool)) demo_closed (Err tt) 0).1 = Open.
Proof.
  refine (proj1 (closed_trips_iff (fun _ => 7) true BreakerConfig_default unit unit None
                   demo_closed (Err tt) 0 eq_refl _)).
  intros t. reflexivity.
Defined.

(** Recovery: once the cool-down of an open breaker has passed, one
    successful call is let through, returns its result and closes the breaker
    with an empty window. *)
Theorem cooled_down_success_closes clk warn config T E (classify : option (T -> bool))
    i t a W (f : W -> result T E * W) w v w' :
  state i = Open -> opened_at i = Some a ->
  open_duration config <= sat_sub (clk t) a ->
  f w = (Ok v, w') ->
  exists i' t',
    call clk warn config classify i t f w = (Ok v, i', t', w') /\
    state i' = Closed /\ opened_at i' = None /\
    successes (win i') = 0 /\ failures (win i') = 0 /\
    opened_total i' = opened_total i.
Proof.
  intros Hs Ha He Hf. unfold call, enter, elapsed. rewrite Hs, Ha.
  apply Z.leb_le in He as ->. rewrite Hf. unfold finish.
  destruct (record _ _ _ _) as [w1 t1]. cbn. do 2 eexists. split; [reflexivity|]. done.
Qed.

Definition demo_open : Inner :=
  {| state := Open;
     win := {| successes := 0; failures := 5; window_start := 0; window := secs 30 |};
     opened_at := Some 0; half_open_count := 2; opened_total := 1 |}.

Lemma cooled_down_success_closes_witness :
  exists i' t',
    call (E := unit) (fun _ => secs 11) true BreakerConfig_default (None : option (nat -> bool))
      demo_open 0 (fun n => (Ok n, S n)) 4%nat = (Ok 4%nat, i', t', 5%nat) /\
    state i' = Closed /\ opened_at i' = None /\
    successes (win i') = 0 /\ failures (win i') = 0 /\ opened_total i' = 1.
Proof.
  apply (cooled_down_success_closes (fun _ => secs 11) true BreakerConfig_default nat unit None
           demo_open 0%nat 0 nat (fun n => (Ok n, S n)) 4%nat 4%nat 5%nat); try reflexivity.
  vm_compute. discriminate.
Defined.

(** [opened_total] counts openings: one step of the system raises it by one
    when, and only when, the breaker goes from another state to [Open]. *)
Theorem opened_total_counts_openings clk warn config T E (classify : option (T -> bool)) s s' :
  step clk warn config (E := E) classify s s' ->
  opened_total (inner s') =
    if bool_decide (state (inner s) <> Open /\ state (inner s') = Open)
    then u64_add (opened_total (inner s)) 1 else opened_total (inner s).
Proof.
  intros Hstep.
  destruct Hstep as [s id p i t Hid He|s e i t He|s id p r i t Hid Hf|s id p Hid|s]; simpl.
  - apply enter_never_opens in He as [-> He]. case_bool_decide; tauto.
  - apply enter_never_opens in He as [-> He]. case_bool_decide; tauto.
  - apply finish_cases in Hf as [(-> & _ & _ & -> & _)|[(-> & _ & -> & _ & -> & _)|
      (Hn & -> & _ & -> & _)]]; case_bool_decide; first [tauto | intuition congruence].
  - assert (Hd : opened_total (if p then drop_permit (inner s) else inner s) =
               opened_total (inner s) /\
               state (if p then drop_permit (inner s) else inner s) = state (inner s))
      by (by destruct p).
    destruct Hd as [-> ->]. case_bool_decide; tauto.
  - case_bool_decide; tauto.
Qed.

Definition demo_reopened : sys := {|
  inner := (finish (E := unit) demo_clk true BreakerConfig_default
              (None : option (unit -> bool)) (inner demo_sys) (Err tt) 40).1;
  tick := (finish (E := unit) demo_clk true BreakerConfig_default
              (None : option (unit -> bool)) (inner demo_sys) (Err tt) 40).2;
  inflight := delete 7%nat (inflight demo_sys) |}.

Lemma opened_total_counts_openings_witness : opened_total (inner demo_reopened) = 2.
Proof.
  refine (opened_total_counts_openings demo_clk true BreakerConfig_default unit unit None
            demo_sys demo_reopened _).
  apply (step_finish demo_clk true BreakerConfig_default None demo_sys 7 true (Err tt)); reflexivity.
Defined.

(** The verdict of a half-open probe is the transport result alone: [Ok]
    closes the breaker and [Err] reopens it, whatever [classify] says of the
    response, so a probe answered by a response the callback counts as a failure
    still closes the breaker and clears the window that recorded it. *)
Theorem half_open_verdict_ignores_classify clk warn config T E
    (classify : option (T -> bool)) i (r : result T E) t :
  state i = HalfOpen ->
  let i' := (finish clk warn config classify i r t).1 in
  state i' = (if is_ok r then Closed else Open) /\
  (is_ok r = true -> failures (win i') = 0 /\ successes (win i') = 0 /\ opened_at i' = None) /\
  (is_ok r = false -> is_Some (opened_at i') /\ opened_total i' = u64_add (opened_total i) 1).
Proof.
  intros Hs. unfold finish. destruct (record _ _ _ _) as [w t1]. cbn. rewrite Hs.
  destruct (is_ok r); simpl; naive_solver.
Qed.

Lemma half_open_verdict_ignores_classify_witness :
  state (finish (E := unit) demo_clk true BreakerConfig_default
           (Some (fun code : Z => 500 <=? code)) (inner demo_sys) (Ok 503) 40).1 = Closed.
Proof.
  exact (proj1 (half_open_verdict_ignores_classify demo_clk true BreakerConfig_default Z unit
                  (Some (fun code : Z => 500 <=? code)) (inner demo_sys) (Ok 503) 40%nat eq_refl)).
Defined.

(** The builder keeps the precondition of C2. *)
Lemma layer_probes_positive n c : 1 <= half_open_probes (Layer.half_open_probes_ n c).
Proof. simpl. lia. Qed.

End BreakerSpec.
