(* ===== verification/Snowflake.v ===== *)
(** * Snowflake identifiers ([src/ecat-data-sharding/src/id.rs])

    One iteration of [Snowflake::next_id] is three atomic actions: the acquire
    load of the packed state, the clock read, and the compare-exchange.
    [Snowflake.step] interleaves them for any number of threads sharing one
    generator; [Snowflake.next_id] is the loop of a single thread. *)

From S2P Require Import Prelude.
From stdpp Require Import sorting.

Local Open Scope Z_scope.

Module Snowflake.

Definition WORKER_BITS : Z := 10.
Definition MAX_WORKER_ID : Z := Z.shiftl 1 WORKER_BITS - 1.
Definition SEQUENCE_BITS : Z := 12.
Definition MAX_SEQUENCE : Z := Z.shiftl 1 SEQUENCE_BITS - 1.
Definition MAX_TIMESTAMP : Z := Z.shiftl 1 41 - 1.
Definition STATE_UNSET : Z := u64_max.

Inductive IdError := ClockRollback | IdOutOfRange.

Record Snowflake := { worker_id : Z; epoch_ms : Z }.

(** [with_clock]: [epoch_ns] is [epoch.unix_timestamp_nanos()], an [i128]. *)
Definition with_clock (worker_id epoch_ns : Z) : result Snowflake IdError :=
  if MAX_WORKER_ID <? worker_id then Err IdOutOfRange
  else
    let ms := epoch_ns / 1000000 in
    if (- 2 ^ 63 <=? ms) && (ms <? 2 ^ 63)
    then Ok {| worker_id := worker_id; epoch_ms := ms |}
    else Err IdOutOfRange.

(** The packed state [(ms << 12) | sequence]. *)
Definition pack (ms sequence : Z) : Z := Z.lor (Z.shiftl ms SEQUENCE_BITS) sequence.

Definition compose_id (timestamp worker_id sequence : Z) : Z :=
  to_i64 (wrap 64 (Z.lor (Z.lor (Z.shiftl timestamp (WORKER_BITS + SEQUENCE_BITS))
                            (Z.shiftl worker_id SEQUENCE_BITS)) sequence)).

(** What an iteration does once it holds [state] and a clock reading. *)
Inductive attempt :=
| Fail (e : IdError)
| Spin
| Publish (now sequence : Z).

Definition try_next (state now : Z) : attempt :=
  let last_ms := if state =? STATE_UNSET then None
                 else Some (Z.shiftr state SEQUENCE_BITS) in
  if match last_ms with Some last => now <? last | None => false end
  then Fail ClockRollback
  else if negb ((0 <=? now) && (now <=? MAX_TIMESTAMP)) then Fail IdOutOfRange
  else match last_ms with
       | Some last =>
           if now =? last then
             let sequence := Z.land state MAX_SEQUENCE in
             if sequence =? MAX_SEQUENCE then Spin else Publish now (sequence + 1)
           else Publish now 0
       | None => Publish now 0
       end.

(** The loop of one thread, alone: the compare-exchange always succeeds.  [clk]
    is the injected clock, read once per iteration; the fuel bounds the spinning
    on an exhausted millisecond. *)
Fixpoint next_id (fuel : nat) (g : Snowflake) (clk : nat -> Z) (state : Z) (t : nat)
    : option (result Z IdError * Z * nat) :=
  match fuel with
  | O => None
  | S fuel =>
      match try_next state (to_i64 (clk t - epoch_ms g)) with
      | Fail e => Some (Err e, state, S t)
      | Spin => next_id fuel g clk state (S t)
      | Publish now sequence =>
          Some (Ok (compose_id now (worker_id g) sequence), pack now sequence, S t)
      end
  end.

(** *** Threads *)

Inductive phase :=
| Loaded (state : Z)             (** after the acquire load *)
| Clocked (state now : Z).       (** after the clock read *)

Record sys := {
  shared : Z;                    (** the [AtomicU64] *)
  threads : gmap nat phase;
  issued : list (Z * Z);         (** published (ms, sequence), newest first *)
  rollbacks : nat;               (** calls that returned [ClockRollback] *)
  last_read : Z;                 (** the latest clock reading, relative *)
}.

Section Threads.
(** What a clock read may return, given the latest one. *)
Context (clock_ok : Z -> Z -> Prop).

Inductive step : sys -> sys -> Prop :=
| step_load s id :
    threads s !! id = None ->
    step s {| shared := shared s; threads := <[id := Loaded (shared s)]> (threads s);
              issued := issued s; rollbacks := rollbacks s; last_read := last_read s |}
| step_clock s id st now :
    threads s !! id = Some (Loaded st) -> clock_ok (last_read s) now ->
    step s {| shared := shared s; threads := <[id := Clocked st now]> (threads s);
              issued := issued s; rollbacks := rollbacks s; last_read := now |}
| step_fail s id st now e :
    threads s !! id = Some (Clocked st now) -> try_next st now = Fail e ->
    step s {| shared := shared s; threads := delete id (threads s); issued := issued s;
              rollbacks := match e with ClockRollback => S (rollbacks s)
                                      | IdOutOfRange => rollbacks s end;
              last_read := last_read s |}
| step_spin s id st now :
    threads s !! id = Some (Clocked st now) -> try_next st now = Spin ->
    step s {| shared := shared s; threads := delete id (threads s); issued := issued s;
              rollbacks := rollbacks s; last_read := last_read s |}
| step_cas_ok s id st now sq :
    threads s !! id = Some (Clocked st now) -> try_next st now = Publish now sq ->
    shared s = st ->
    step s {| shared := pack now sq; threads := delete id (threads s);
              issued := (now, sq) :: issued s;
              rollbacks := rollbacks s; last_read := last_read s |}
| step_cas_fail s id st now sq :
    threads s !! id = Some (Clocked st now) -> try_next st now = Publish now sq ->
    shared s <> st ->
    step s {| shared := shared s; threads := delete id (threads s); issued := issued s;
              rollbacks := rollbacks s; last_read := last_read s |}.

Definition init (s : sys) : Prop :=
  shared s = STATE_UNSET /\ threads s = ∅ /\ issued s = [] /\ rollbacks s = 0%nat.

End Threads.

Definition ids (g : Snowflake) (s : sys) : list Z :=
  map (fun p => compose_id p.1 (worker_id g) p.2) (issued s).

(** *** Packing *)

Lemma lor_shiftl_add a b n : 0 <= n -> 0 <= b < 2 ^ n -> Z.lor (Z.shiftl a n) b = a * 2 ^ n + b.
Proof.
  intros Hn Hb. rewrite <- Z.shiftl_mul_pow2 by done.
  rewrite <- (Z.add_lor_land (Z.shiftl a n) b).
  assert (H0 : Z.land (Z.shiftl a n) b = 0); [|lia].
  apply Z.bits_inj'. intros k Hk. rewrite Z.land_spec, Z.bits_0.
  destruct (decide (k < n)); [by rewrite Z.shiftl_spec_low|].
  rewrite <- (Z.mod_small b (2 ^ n)) by done.
  rewrite Z.mod_pow2_bits_high by lia. apply andb_false_r.
Qed.

(** Evaluates the constants of the layout, for [lia]. *)
Ltac consts :=
  change MAX_SEQUENCE with 4095 in *; change MAX_TIMESTAMP with 2199023255551 in *;
  change MAX_WORKER_ID with 1023 in *; change STATE_UNSET with 18446744073709551615 in *.

Definition valid_pair (p : Z * Z) : Prop :=
  0 <= p.1 <= MAX_TIMESTAMP /\ 0 <= p.2 <= MAX_SEQUENCE.

Lemma pack_eq ms sq : 0 <= sq <= MAX_SEQUENCE -> pack ms sq = ms * 4096 + sq.
Proof. intros. unfold pack. change MAX_SEQUENCE with 4095 in *. rewrite lor_shiftl_add; [done|done|]. change (2 ^ SEQUENCE_BITS) with 4096. lia. Qed.

Lemma pack_ms ms sq : 0 <= sq <= MAX_SEQUENCE -> Z.shiftr (pack ms sq) SEQUENCE_BITS = ms.
Proof.
  intros H. rewrite pack_eq, Z.shiftr_div_pow2 by done.
  change (2 ^ SEQUENCE_BITS) with 4096. change MAX_SEQUENCE with 4095 in H.
  rewrite Z.div_add_l by done. rewrite Z.div_small; lia.
Qed.

Lemma pack_sequence ms sq : 0 <= sq <= MAX_SEQUENCE -> Z.land (pack ms sq) MAX_SEQUENCE = sq.
Proof.
  intros H. rewrite pack_eq by done. change MAX_SEQUENCE with (Z.ones 12) in *.
  rewrite Z.land_ones by done. change (Z.ones 12) with 4095 in H. change (2 ^ 12) with 4096.
  rewrite Z.add_comm, Z.mod_add, Z.mod_small; lia.
Qed.

Lemma pack_set ms sq : valid_pair (ms, sq) -> pack ms sq <> STATE_UNSET.
Proof.
  intros [H1 H2]; simpl in *. rewrite pack_eq by done.
  change MAX_TIMESTAMP with 2199023255551 in H1. change MAX_SEQUENCE with 4095 in H2.
  change STATE_UNSET with 18446744073709551615. lia.
Qed.

(** The shared word: unset, or the packing of a published pair. *)
Definition valid_state (st : Z) : Prop :=
  st = STATE_UNSET \/ exists ms sq, valid_pair (ms, sq) /\ st = pack ms sq.

Lemma try_next_publish st now n sq :
  valid_state st -> try_next st now = Publish n sq ->
  n = now /\ valid_pair (now, sq) /\ (st = STATE_UNSET \/ st < pack now sq).
Proof.
  unfold try_next. intros [->|(ms & s & Hv & ->)].
  - rewrite Z.eqb_refl. cbv iota zeta.
    destruct (negb _) eqn:H2; [done|]. intros; simplify_eq. bool_prop.
    split; [done|]. split; [split; simpl; consts; lia | by left].
  - pose proof (pack_set _ _ Hv) as Hne. apply Z.eqb_neq in Hne as ->.
    destruct Hv as [Hv1 Hv2]; simpl in Hv1, Hv2.
    cbv iota zeta. rewrite pack_ms, pack_sequence by done.
    destruct (now <? ms) eqn:H1; [done|]. destruct (negb _) eqn:H2; [done|].
    destruct (now =? ms) eqn:H3; [destruct (s =? MAX_SEQUENCE) eqn:H4; [done|]|];
      intros; simplify_eq; bool_prop; unfold valid_pair; simpl;
      (split; [done|]); (split; [consts; lia|]); right;
      rewrite !pack_eq by (consts; lia); consts; lia.
Qed.

(** A rollback is reported exactly on a reading before the published millisecond. *)
Lemma try_next_rollback st now :
  try_next st now = Fail ClockRollback <->
  st <> STATE_UNSET /\ now < Z.shiftr st SEQUENCE_BITS.
Proof.
  unfold try_next. split.
  - destruct (st =? STATE_UNSET) eqn:H1; cbv iota; [by repeat case_match|].
    destruct (now <? _) eqn:H2; [by bool_prop|]. by repeat case_match.
  - intros [H1 H2]. apply Z.eqb_neq in H1 as ->. by apply Z.ltb_lt in H2 as ->.
Qed.

(** *** The invariant of concurrent threads *)

Definition newer (p q : Z * Z) : Prop := pack q.1 q.2 < pack p.1 p.2.

Definition phase_state (ph : phase) : Z :=
  match ph with Loaded st => st | Clocked st _ => st end.

Definition snow_inv (s : sys) : Prop :=
  (shared s = match issued s with [] => STATE_UNSET | p :: _ => pack p.1 p.2 end) /\
  Forall valid_pair (issued s) /\ StronglySorted newer (issued s) /\
  (forall id ph, threads s !! id = Some ph -> valid_state (phase_state ph)).

Lemma snow_inv_shared_valid s : snow_inv s -> valid_state (shared s).
Proof.
  intros (H1 & H2 & _). rewrite H1. destruct (issued s) as [|[ms sq] l]; [by left|].
  right. exists ms, sq. split; [by inv H2 | done].
Qed.

Lemma snow_inv_delete s sh l rb lr id :
  (sh = match l with [] => STATE_UNSET | p :: _ => pack p.1 p.2 end) ->
  Forall valid_pair l -> StronglySorted newer l -> snow_inv s ->
  snow_inv {| shared := sh; threads := delete id (threads s); issued := l;
              rollbacks := rb; last_read := lr |}.
Proof.
  intros Hs Hf Hso (_ & _ & _ & Ht). split_and!; simpl; try done.
  intros id' ph Hl. apply lookup_delete_Some in Hl as [_ Hl]. eauto.
Qed.

(** The head of a sorted list that grows is the newest of all. *)
Lemma newer_cons p l :
  StronglySorted newer l ->
  match l with [] => True | q :: _ => newer p q end ->
  StronglySorted newer (p :: l).
Proof.
  intros Hs Hh. constructor; [done|]. destruct Hs as [|q l Hs Hq]; [constructor|].
  constructor; [done|]. eapply Forall_impl; [exact Hq|]. unfold newer in *. intros. simpl in *. lia.
Qed.

Lemma snow_inv_cas s id st now sq :
  threads s !! id = Some (Clocked st now) -> try_next st now = Publish now sq ->
  shared s = st -> snow_inv s ->
  Forall valid_pair ((now, sq) :: issued s) /\ StronglySorted newer ((now, sq) :: issued s).
Proof.
  intros Hid Ht Hsh Hi. pose proof (snow_inv_shared_valid _ Hi) as Hv.
  rewrite Hsh in Hv. destruct Hi as (H1 & H2 & H3 & _).
  apply try_next_publish in Ht as (_ & Hp & Hlt); [|done].
  split; [by constructor|]. apply newer_cons; [done|].
  destruct (issued s) as [|[ms sq'] l]; [done|]. unfold newer; simpl in *. subst st.
  destruct Hlt as [Hlt|Hlt]; [|lia]. inv H2. exfalso. eapply pack_set; eauto. congruence.
Qed.

Lemma snow_inv_inductive clock_ok : inductive_invariant init (step clock_ok) snow_inv.
Proof.
  split.
  - intros s (H1 & H2 & H3 & _). split_and!; rewrite ?H3, ?H2; try done; constructor.
  - intros s s' Hi Hstep. pose proof Hi as (H1 & H2 & H3 & H4).
    destruct Hstep as [s id Hid|s id st now Hid Hc|s id st now e Hid Ht|s id st now Hid Ht|
      s id st now sq Hid Ht Hs|s id st now sq Hid Ht Hs].
    + split_and!; simpl; try done. intros id' ph Hl. destruct (decide (id = id')) as [->|].
      * rewrite lookup_insert_eq in Hl. simplify_eq. by apply snow_inv_shared_valid.
      * rewrite lookup_insert_ne in Hl by done. eauto.
    + split_and!; simpl; try done. intros id' ph Hl. destruct (decide (id = id')) as [->|].
      * rewrite lookup_insert_eq in Hl. simplify_eq. apply (H4 _ _ Hid).
      * rewrite lookup_insert_ne in Hl by done. eauto.
    + by apply snow_inv_delete.
    + by apply snow_inv_delete.
    + apply (snow_inv_cas _ _ _ _ _ Hid) in Ht as [Hf Hso]; [|done..].
      by apply snow_inv_delete.
    + by apply snow_inv_delete.
Qed.

(** *** Identifiers *)

Lemma compose_eq ts w sq :
  valid_pair (ts, sq) -> 0 <= w <= MAX_WORKER_ID ->
  compose_id ts w sq = ts * 4194304 + w * 4096 + sq.
Proof.
  intros [H1 H2] Hw. unfold compose_id. simpl in H1, H2.
  change MAX_TIMESTAMP with 2199023255551 in H1. change MAX_SEQUENCE with 4095 in H2.
  change MAX_WORKER_ID with 1023 in Hw.
  rewrite <- Z.lor_assoc. change (WORKER_BITS + SEQUENCE_BITS) with 22. change SEQUENCE_BITS with 12.
  rewrite (lor_shiftl_add w sq 12) by lia.
  rewrite lor_shiftl_add by lia. change (2 ^ 12) with 4096. change (2 ^ 22) with 4194304.
  rewrite wrap_small by lia. rewrite to_i64_small; unfold in_i64; lia.
Qed.

Lemma newer_id w p q :
  0 <= w <= MAX_WORKER_ID -> valid_pair p -> valid_pair q -> newer p q ->
  compose_id q.1 w q.2 < compose_id p.1 w p.2.
Proof.
  intros Hw Hp Hq Hn. destruct p as [pm ps], q as [qm qs].
  rewrite !compose_eq by done. unfold newer in Hn. simpl in *.
  destruct Hp as [Hp1 Hp2], Hq as [Hq1 Hq2]. simpl in *. rewrite !pack_eq in Hn by done.
  change MAX_SEQUENCE with 4095 in *. lia.
Qed.

End Snowflake.

Module SnowflakeSpec.
Import Snowflake.

(** The published pairs, oldest first, give strictly increasing identifiers. *)
Lemma ids_descending g s :
  0 <= worker_id g <= MAX_WORKER_ID -> snow_inv s -> StronglySorted Z.gt (ids g s).
Proof.
  intros Hw (_ & Hv & Hs & _). unfold ids.
  induction Hs as [|p l Hs IH Hp]; simpl; [constructor|]. inv Hv.
  constructor; [by apply IH|]. apply Forall_map.
  rewrite Forall_forall in *. intros q Hq. apply Z.lt_gt. apply newer_id; auto.
Qed.

Lemma descending_NoDup (l : list Z) : StronglySorted Z.gt l -> NoDup l.
Proof.
  induction 1 as [|x l Hs IH Hx]; constructor; [|done].
  intros Hin. rewrite Forall_forall in Hx. specialize (Hx x Hin). lia.
Qed.

(** The demonstration run: a thread loads, reads the clock and publishes. *)
Definition demo_gen : Snowflake := {| worker_id := 5; epoch_ms := 0 |}.
Definition demo0 : sys :=
  {| shared := STATE_UNSET; threads := ∅; issued := []; rollbacks := 0; last_read := 0 |}.
Definition demo1 : sys :=
  {| shared := STATE_UNSET; threads := {[ 1%nat := Loaded STATE_UNSET ]}; issued := [];
     rollbacks := 0; last_read := 0 |}.
Definition demo2 : sys :=
  {| shared := STATE_UNSET; threads := <[1%nat := Clocked STATE_UNSET 9]> (threads demo1);
     issued := []; rollbacks := 0; last_read := 9 |}.
Definition demo3 : sys :=
  {| shared := pack 9 0; threads := delete 1%nat (threads demo2);
     issued := [(9, 0)]; rollbacks := 0; last_read := 9 |}.

Lemma demo_reachable : reachable init (step Z.le) demo3.
Proof.
  apply (reachable_step _ _ demo2); [apply (reachable_step _ _ demo1);
    [apply (reachable_step _ _ demo0); [apply reachable_refl; done|]|]|].
  - apply (step_load Z.le demo0 1). reflexivity.
  - apply (step_clock Z.le demo1 1 STATE_UNSET 9); [reflexivity | vm_compute; discriminate].
  - apply (step_cas_ok Z.le demo2 1 STATE_UNSET 9 0); reflexivity.
Qed.

(** C11. Identifiers never repeat: whatever the clock does and however the threads
    interleave, the identifiers a generator has issued are pairwise distinct, and
    each is larger than every one issued before it. *)
Theorem snowflake_ids_unique clock_ok g s :
  0 <= worker_id g <= MAX_WORKER_ID ->
  reachable init (step clock_ok) s ->
  NoDup (ids g s) /\ StronglySorted Z.gt (ids g s).
Proof.
  intros Hw Hr. pose proof (invariant_reachable _ _ _ _ (snow_inv_inductive clock_ok) Hr) as Hi.
  pose proof (ids_descending g s Hw Hi) as Hs. split; [by apply descending_NoDup | done].
Qed.

Lemma snowflake_ids_unique_witness : NoDup (ids demo_gen demo3).
Proof.
  apply (snowflake_ids_unique Z.le demo_gen demo3);
    [vm_compute; split; discriminate | apply demo_reachable].
Defined.

(** Loaded and clocked states are never ahead of the clock. *)
Definition clock_inv (s : sys) : Prop :=
  let behind st r := st = STATE_UNSET \/ Z.shiftr st SEQUENCE_BITS <= r in
  snow_inv s /\ behind (shared s) (last_read s) /\ rollbacks s = 0%nat /\
  forall id ph, threads s !! id = Some ph ->
    match ph with
    | Loaded st => behind st (last_read s)
    | Clocked st now => behind st now /\ now <= last_read s
    end.

Lemma clock_inv_step s s' : clock_inv s -> step Z.le s s' -> clock_inv s'.
Proof.
  intros (Hi & Hb & Hr & Ht) Hstep.
  assert (Hi' : snow_inv s') by (by eapply (snow_inv_inductive Z.le)).
  split; [exact Hi'|]. clear Hi'.
  destruct Hstep as [s id Hid|s id st now Hid Hc|s id st now e Hid Hn|s id st now Hid Hn|
      s id st now sq Hid Hn Hs|s id st now sq Hid Hn Hs]; simpl.
  - split_and!; try done. intros id' ph Hl. apply lookup_insert_Some in Hl as [[_ <-]|[_ Hl]];
      [done | by apply (Ht id')].
  - split_and!; try done; [naive_solver lia|]. intros id' ph Hl.
    apply lookup_insert_Some in Hl as [[<- <-]|[_ Hl]].
    + specialize (Ht _ _ Hid). simpl in Ht. naive_solver lia.
    + specialize (Ht _ _ Hl). destruct ph; naive_solver lia.
  - split_and!; try done.
    + destruct e; [|done]. apply try_next_rollback in Hn as [Hne Hlt].
      destruct (Ht _ _ Hid) as [[?|?] _]; [done|lia].
    + intros id' ph Hl. apply lookup_delete_Some in Hl as [_ Hl]. by apply (Ht id').
  - split_and!; try done.
    intros id' ph Hl. apply lookup_delete_Some in Hl as [_ Hl]. by apply (Ht id').
  - split_and!; try done.
    + apply try_next_publish in Hn as (_ & [_ Hsq] & _); [|by apply (proj2 (proj2 (proj2 Hi)) _ _ Hid)].
      right. rewrite pack_ms by done. apply (Ht _ _ Hid).
    + intros id' ph Hl. apply lookup_delete_Some in Hl as [_ Hl]. by apply (Ht id').
  - split_and!; try done.
    intros id' ph Hl. apply lookup_delete_Some in Hl as [_ Hl]. by apply (Ht id').
Qed.

(** No false alarm: when successive clock readings never decrease, no thread
    ever reports [ClockRollback], however the threads overtake each other between
    load, clock read and compare-exchange. *)
Theorem monotone_clock_never_rolls_back s :
  reachable init (step Z.le) s -> rollbacks s = 0%nat.
Proof.
  intros Hr. assert (Hi : clock_inv s); [|by destruct Hi as (_ & _ & H & _)].
  apply (invariant_reachable init (step Z.le)); [split|done].
  - intros s0 H0. split; [by apply (snow_inv_inductive Z.le)|].
    destruct H0 as (H1 & H2 & _ & H4). split_and!; [by left | done |].
    intros id ph. rewrite H2, lookup_empty. done.
  - intros. eapply clock_inv_step; eauto.
Qed.

Lemma monotone_clock_never_rolls_back_witness : rollbacks demo3 = 0%nat.
Proof. apply (monotone_clock_never_rolls_back demo3). apply demo_reachable. Defined.

(** The layout: within the bit budget an identifier is a non-negative [i64]
    from which timestamp, worker and sequence are read back, so two generators
    with different worker identifiers never issue the same value. *)
Theorem compose_id_decodes ts w sq :
  0 <= ts <= MAX_TIMESTAMP -> 0 <= w <= MAX_WORKER_ID -> 0 <= sq <= MAX_SEQUENCE ->
  let id := compose_id ts w sq in
  0 <= id < 2 ^ 63 /\
  Z.shiftr id (WORKER_BITS + SEQUENCE_BITS) = ts /\
  Z.land (Z.shiftr id SEQUENCE_BITS) MAX_WORKER_ID = w /\
  Z.land id MAX_SEQUENCE = sq.
Proof.
  intros Hts Hw Hsq. cbv zeta. rewrite compose_eq by done. consts.
  rewrite !Z.shiftr_div_pow2 by done.
  change 1023 with (Z.ones 10). change 4095 with (Z.ones 12). rewrite !Z.land_ones by done.
  change (2 ^ (WORKER_BITS + SEQUENCE_BITS)) with 4194304.
  change (2 ^ SEQUENCE_BITS) with 4096. change (2 ^ 12) with 4096. change (2 ^ 10) with 1024.
  assert (Hd : (ts * 4194304 + w * 4096 + sq) / 4096 = ts * 1024 + w).
  { symmetry. apply (Z.div_unique _ _ _ sq); lia. }
  split; [lia|]. split_and!.
  - symmetry. apply (Z.div_unique _ _ _ (w * 4096 + sq)); lia.
  - rewrite Hd. symmetry. apply (Z.mod_unique _ _ ts); lia.
  - symmetry. apply (Z.mod_unique _ _ (ts * 1024 + w)); lia.
Qed.

Lemma compose_id_decodes_witness :
  Z.land (compose_id 9 5 3) MAX_SEQUENCE = 3.
Proof.
  apply (compose_id_decodes 9 5 3); vm_compute; split; discriminate.
Defined.

(** The loop of one thread ends: it returns as soon as the clock shows
    another millisecond than the published one, so a fuel that reaches such a
    reading is enough, and the spinning costs one clock read per round. *)
Theorem next_id_terminates g clk st fuel t :
  (exists j, (j < fuel)%nat /\
     (st = STATE_UNSET \/ to_i64 (clk (t + j)%nat - epoch_ms g) <> Z.shiftr st SEQUENCE_BITS)) ->
  exists r st' t', next_id fuel g clk st t = Some (r, st', t') /\ (t < t' <= t + fuel)%nat.
Proof.
  revert t. induction fuel as [|fuel IH]; intros t (j & Hj & Hr); [lia|]. simpl.
  destruct (try_next st _) eqn:Ht; [do 3 eexists; split; [done|lia]| |do 3 eexists; split; [done|lia]].
  destruct j as [|j].
  - exfalso. rewrite Nat.add_0_r in Hr. revert Ht. unfold try_next.
    destruct (st =? STATE_UNSET) eqn:H1; [by repeat case_match|]. bool_prop.
    destruct Hr as [|Hr]; [done|]. destruct (_ =? Z.shiftr _ _) eqn:H2; [by bool_prop|].
    by repeat case_match.
  - destruct (IH (S t)) as (r & st' & t' & -> & Ht').
    + exists j. split; [lia|]. by replace (S t + j)%nat with (t + S j)%nat by lia.
    + do 3 eexists. split; [done|lia].
Qed.

Lemma next_id_terminates_witness :
  exists r st' t', next_id 6 demo_gen (fun t => if decide (t < 3)%nat then 9 else 10)
                     (pack 9 4095) 0 = Some (r, st', t') /\ (0 < t' <= 0 + 6)%nat.
Proof.
  apply (next_id_terminates demo_gen (fun t => if decide (t < 3)%nat then 9 else 10)
           (pack 9 4095) 6 0).
  exists 3%nat. split; [lia|]. right. vm_compute. discriminate.
Defined.

End SnowflakeSpec.
