(* ===== verification/App.v ===== *)
(** * The application and its workers (ecat)

    [src/ecat/src/lib.rs], [worker.rs], [hook.rs], [deployment.rs]: building an application,
    running its hooks and servers to the shutdown signal and down again, and the background
    workers that are a pair of hooks around one task.

    The hooks and servers are the user's: what they answer is the class [Parts].  The
    [log] is what the run has done, in order. *)

From S2P Require Import Prelude Text.

Local Open Scope Z_scope.
Local Open Scope ecat_scope.

Module Deployment.

Inductive DeploymentMode := Standalone | Distributed.
Inductive CacheMode := Memory | Redis.

Record DeploymentConfig := {
  mode : DeploymentMode;
  node_id : string;
  worker_id : option Z;
  cache : CacheMode;
  sharding_enabled : bool;
  tiering_enabled : bool
}.

Inductive DeploymentError := StandaloneWithSharding | DistributedWithoutNodeId | DistributedWithMemoryCache | InvalidWorkerId.

Definition display (e : DeploymentError) : string :=
  match e with
  | StandaloneWithSharding => "standalone deployment cannot enable sharding"
  | DistributedWithoutNodeId => "distributed deployment requires a non-empty node_id"
  | DistributedWithMemoryCache => "distributed deployment requires the redis cache"
  | InvalidWorkerId => "distributed sharding requires worker_id < 1024"
  end.

Definition is_redis (c : CacheMode) : bool := match c with Redis => true | Memory => false end.
Definition worker_fits (o : option Z) : bool := match o with Some id => id <? 1024 | None => false end.

Definition validate (c : DeploymentConfig) : result unit DeploymentError :=
  match mode c with
  | Standalone => if sharding_enabled c then Err StandaloneWithSharding else Ok tt
  | Distributed =>
      if String.eqb (trim (node_id c)) "" then Err DistributedWithoutNodeId
      else if negb (is_redis (cache c)) then Err DistributedWithMemoryCache
      else if sharding_enabled c && negb (worker_fits (worker_id c)) then Err InvalidWorkerId
      else Ok tt
  end.

End Deployment.

Module App.
Import Deployment.

(** A hook: a user's, or one half of a worker's pair. *)
Inductive hook := Custom (i : nat) | WorkerHook (w : nat).

Definition hook_error (message : string) : string := message.

(** *** The application and its builder *)

Record App := { name : string; version : string; servers : list nat; start_hooks : list hook; stop_hooks : list hook }.

Record AppBuilder := {
  b_name : option string;
  b_version : option string;
  b_servers : list nat;
  b_start : list hook;
  b_stop : list hook;
  b_deployment : option DeploymentConfig
}.

Definition builder : AppBuilder :=
  {| b_name := None; b_version := None; b_servers := []; b_start := []; b_stop := []; b_deployment := None |}.

Definition with_name (n : string) (b : AppBuilder) : AppBuilder :=
  {| b_name := Some n; b_version := b_version b; b_servers := b_servers b; b_start := b_start b; b_stop := b_stop b; b_deployment := b_deployment b |}.
Definition with_version (v : string) (b : AppBuilder) : AppBuilder :=
  {| b_name := b_name b; b_version := Some v; b_servers := b_servers b; b_start := b_start b; b_stop := b_stop b; b_deployment := b_deployment b |}.
Definition add_server (s : nat) (b : AppBuilder) : AppBuilder :=
  {| b_name := b_name b; b_version := b_version b; b_servers := b_servers b ++ [s]; b_start := b_start b; b_stop := b_stop b; b_deployment := b_deployment b |}.
Definition on_start_hook (h : hook) (b : AppBuilder) : AppBuilder :=
  {| b_name := b_name b; b_version := b_version b; b_servers := b_servers b; b_start := b_start b ++ [h]; b_stop := b_stop b; b_deployment := b_deployment b |}.
Definition on_stop_hook (h : hook) (b : AppBuilder) : AppBuilder :=
  {| b_name := b_name b; b_version := b_version b; b_servers := b_servers b; b_start := b_start b; b_stop := b_stop b ++ [h]; b_deployment := b_deployment b |}.
Definition with_deployment (c : DeploymentConfig) (b : AppBuilder) : AppBuilder :=
  {| b_name := b_name b; b_version := b_version b; b_servers := b_servers b; b_start := b_start b; b_stop := b_stop b; b_deployment := Some c |}.

(** A worker is registered on both sides; [w] is the pair it shares with its handle. *)
Definition background_worker (w : nat) (b : AppBuilder) : AppBuilder := on_stop_hook (WorkerHook w) (on_start_hook (WorkerHook w) b).

Definition build (b : AppBuilder) : result App string :=
  let? _ := match b_deployment b with Some c => map_err Deployment.display (validate c) | None => Ok tt end in
  Ok {| name := default "ecat-app" (b_name b); version := default "0.1.0" (b_version b); servers := b_servers b;
        start_hooks := b_start b; stop_hooks := b_stop b |}.

(** *** What the parts do *)

(** How a task ends once it is told to stop. *)
Inductive exit := Finished | Panicked | Never.

(** What a call answers, [None] when it never does. *)
Class Parts := {
  hook_start : nat -> option (result unit string);
  hook_stop : nat -> option (result unit string);
  worker_exit : nat -> exit;
  server_stop : nat -> option (result unit string);
  server_exit : nat -> exit
}.

Inductive event :=
| HookStarted (i : nat) | HookStopped (i : nat)
| WorkerSpawned (w : nat) | WorkerSignalled (w : nat) | WorkerJoined (w : nat)
| ServerSpawned (s : nat) | ServerStopped (s : nat) | ServerJoined (s : nat)
| ShutdownSeen.

(** [WorkerInner] and its [WorkerHandle]. *)
Record worker := { make : bool; shutdown_rx : bool; signal : bool; task : bool }.

Definition new_worker : worker := {| make := true; shutdown_rx := true; signal := false; task := false |}.

Record world := { workers : gmap nat worker; log : list event }.

Definition emit (e : event) (w : world) : world := {| workers := workers w; log := log w ++ [e] |}.
Definition worker_of (n : nat) (w : world) : worker := default new_worker (workers w !! n).
Definition set_worker (n : nat) (x : worker) (w : world) : world := {| workers := <[n := x]> (workers w); log := log w |}.

Section Run.
Context {PA : Parts}.

(** [WorkerHook::on_start]. *)
Definition worker_start (n : nat) (w : world) : result unit string * world :=
  let x := worker_of n w in
  if negb (make x) then (Err (hook_error "worker already started"), w)
  else
    let w := set_worker n {| make := false; shutdown_rx := shutdown_rx x; signal := signal x; task := task x |} w in
    if negb (shutdown_rx x) then (Err (hook_error "worker already started"), w)
    else
      let w := emit (WorkerSpawned n) w in
      let x := {| make := false; shutdown_rx := false; signal := signal x; task := task x |} in
      if task x then (Err (hook_error "worker already started"), set_worker n x w)
      else (Ok tt, set_worker n {| make := false; shutdown_rx := false; signal := signal x; task := true |} w).

(** [WorkerHandle::shutdown] and [wait]; [None] is a wait that does not end. *)
Definition worker_shutdown (n : nat) (w : world) : world :=
  let x := worker_of n w in
  emit (WorkerSignalled n) (set_worker n {| make := make x; shutdown_rx := shutdown_rx x; signal := true; task := task x |} w).

Definition worker_wait (n : nat) (w : world) : option (result unit string * world) :=
  let x := worker_of n w in
  if negb (task x) then Some (Ok tt, w)
  else
    let gone := emit (WorkerJoined n) (set_worker n {| make := make x; shutdown_rx := shutdown_rx x; signal := signal x; task := false |} w) in
    match worker_exit n with
    | Finished => Some (Ok tt, gone)
    | Panicked => Some (Err "task panicked", gone)
    | Never => None
    end.

Definition on_start (h : hook) (w : world) : option (result unit string * world) :=
  match h with
  | Custom i => match hook_start i with Some r => Some (r, emit (HookStarted i) w) | None => None end
  | WorkerHook n => Some (worker_start n w)
  end.

Definition on_stop (h : hook) (w : world) : option (result unit string * world) :=
  match h with
  | Custom i => match hook_stop i with Some r => Some (r, emit (HookStopped i) w) | None => None end
  | WorkerHook n => worker_wait n (worker_shutdown n w)
  end.

Fixpoint start_all (l : list hook) (w : world) : option (result unit string * world) :=
  match l with
  | [] => Some (Ok tt, w)
  | h :: l =>
      match on_start h w with
      | None => None
      | Some (Err e, w) => Some (Err e, w)
      | Some (Ok _, w) => start_all l w
      end
  end.

Fixpoint stop_all (l : list hook) (w : world) : option (result unit string * world) :=
  match l with
  | [] => Some (Ok tt, w)
  | h :: l =>
      match on_stop h w with
      | None => None
      | Some (Err e, w) => Some (Err e, w)
      | Some (Ok _, w) => stop_all l w
      end
  end.

(** The errors of a server, stopping or as a task, are logged. *)
Fixpoint stop_servers (l : list nat) (w : world) : option world :=
  match l with
  | [] => Some w
  | s :: l => match server_stop s with None => None | Some _ => stop_servers l (emit (ServerStopped s) w) end
  end.

Fixpoint join_servers (l : list nat) (w : world) : option world :=
  match l with
  | [] => Some w
  | s :: l => match server_exit s with Never => None | _ => join_servers l (emit (ServerJoined s) w) end
  end.

Definition spawn_servers (l : list nat) (w : world) : world := foldl (fun w s => emit (ServerSpawned s) w) w l.

(** [App::run]; [None] does not return. *)
Definition run (a : App) (w : world) : option (result unit string * world) :=
  match start_all (start_hooks a) w with
  | None => None
  | Some (Err e, w) => Some (Err e, w)
  | Some (Ok _, w) =>
      let w := emit ShutdownSeen (spawn_servers (servers a) w) in
      match stop_all (stop_hooks a) w with
      | None => None
      | Some (Err e, w) => Some (Err e, w)
      | Some (Ok _, w) =>
          match stop_servers (servers a) w with
          | None => None
          | Some w =>
              match join_servers (servers a) w with
              | None => None
              | Some w => Some (Ok tt, w)
              end
          end
      end
  end.

End Run.
End App.

(** ** What a run of an application does

    With parts that do not fail, a run is the start hooks, the servers, the shutdown signal,
    the stop hooks and then the servers down again.  A stop hook that fails, or a worker that
    panicked, ends the run with the servers still up. *)

From S2P Require Import Snowflake.


Module AppSpec.
Import Deployment App.

Section Spec.
Context {PA : Parts}.

Definition started_event (h : hook) : event := match h with Custom i => HookStarted i | WorkerHook n => WorkerSpawned n end.
Definition stopped_events (h : hook) : list event :=
  match h with Custom i => [HookStopped i] | WorkerHook n => [WorkerSignalled n; WorkerJoined n] end.

Definition starts (h : hook) : Prop := match h with Custom i => hook_start i = Some (Ok tt) | WorkerHook _ => True end.
Definition stops (h : hook) : Prop := match h with Custom i => hook_stop i = Some (Ok tt) | WorkerHook n => worker_exit n = Finished end.
Definition stop_fails (h : hook) : Prop :=
  match h with Custom i => exists e, hook_stop i = Some (Err e) | WorkerHook n => worker_exit n = Panicked end.

(** The workers of a list of hooks. *)
Definition pool (l : list hook) : list nat := omap (fun h => match h with WorkerHook n => Some n | Custom _ => None end) l.

Lemma worker_of_set n m x w : worker_of n (set_worker m x w) = if decide (n = m) then x else worker_of n w.
Proof. unfold worker_of, set_worker. cbn. case_decide as E; [subst; by rewrite lookup_insert_eq | by rewrite lookup_insert_ne]. Qed.

Lemma worker_of_emit n e w : worker_of n (emit e w) = worker_of n w.
Proof. done. Qed.

Lemma worker_starts n w : worker_of n w = new_worker ->
  (worker_start n w).1 = Ok tt /\ log (worker_start n w).2 = log w ++ [WorkerSpawned n] /\
  task (worker_of n (worker_start n w).2) = true /\
  forall m, m <> n -> worker_of m (worker_start n w).2 = worker_of m w.
Proof.
  intros E. unfold worker_start. rewrite E. cbn. split; [done|]. split; [done|]. split; [by rewrite worker_of_set, decide_True|].
  intros m Hm. by rewrite worker_of_set, worker_of_emit, worker_of_set, !decide_False.
Qed.

Lemma hook_starts h w : starts h -> (forall n, h = WorkerHook n -> worker_of n w = new_worker) ->
  exists w', on_start h w = Some (Ok tt, w') /\ log w' = log w ++ [started_event h] /\
    (forall n, h = WorkerHook n -> task (worker_of n w') = true) /\
    forall m, h <> WorkerHook m -> worker_of m w' = worker_of m w.
Proof.
  destruct h as [i|n]; intros Hs Hn; cbn in *; [rewrite Hs; exists (emit (HookStarted i) w); by split_and!|].
  destruct (worker_starts n w (Hn n eq_refl)) as (H1 & H2 & H3 & H4). destruct (worker_start n w) as [r w']. cbn in *. subst r.
  exists w'. split_and!; [done|done|by intros ? [= <-]|]. intros m Hm. apply H4. congruence.
Qed.

Lemma pool_cons h l n : n ∈ pool (h :: l) <-> h = WorkerHook n \/ n ∈ pool l.
Proof. unfold pool. cbn. destruct h; [|rewrite elem_of_cons]; intuition congruence. Qed.

Lemma pool_nodup h l : NoDup (pool (h :: l)) -> NoDup (pool l) /\ forall n, h = WorkerHook n -> n ∉ pool l.
Proof. unfold pool. cbn. destruct h; [done|]. intros [Hn Hd]%NoDup_cons. split; [done|]. by intros ? [= <-]. Qed.

(** The start hooks: the workers they name were new. *)
Lemma start_all_log l w :
  Forall starts l -> NoDup (pool l) -> (forall n, n ∈ pool l -> worker_of n w = new_worker) ->
  exists w', start_all l w = Some (Ok tt, w') /\ log w' = log w ++ (started_event <$> l) /\
    (forall n, n ∈ pool l -> task (worker_of n w') = true) /\
    forall m, m ∉ pool l -> worker_of m w' = worker_of m w.
Proof.
  revert w. induction l as [|h l IH]; intros w Hs Hd Hn; [exists w; cbn; rewrite app_nil_r; split_and!; try done; by intros n ?%not_elem_of_nil|].
  apply Forall_cons in Hs as [Hh Hs]. apply pool_nodup in Hd as [Hd Hnot]. cbn [start_all fmap list_fmap].
  destruct (hook_starts h w Hh) as (w1 & -> & H2 & H3 & H4); [intros n E; by apply Hn, pool_cons; left|].
  destruct (IH w1) as (w2 & -> & I2 & I3 & I4); [done|done| |].
  - intros n Hin. rewrite H4; [by apply Hn, pool_cons; right|]. intros E. by destruct (Hnot n E).
  - exists w2. split; [done|]. split; [by rewrite I2, H2, <- app_assoc|]. split.
    + intros n [E|Hin]%pool_cons; [|by apply I3]. rewrite I4; [by apply H3|by apply Hnot].
    + intros m Hm. rewrite pool_cons in Hm. rewrite I4; [apply H4|]; tauto.
Qed.

(** *** Stopping *)

Lemma hook_stops h w : stops h -> (forall n, h = WorkerHook n -> task (worker_of n w) = true) ->
  exists w', on_stop h w = Some (Ok tt, w') /\ log w' = log w ++ stopped_events h /\ forall m, h <> WorkerHook m -> worker_of m w' = worker_of m w.
Proof.
  destruct h as [i|n]; intros Hs Hn; cbn in *.
  - exists (emit (HookStopped i) w). by rewrite Hs.
  - unfold worker_wait, worker_shutdown. rewrite worker_of_emit, worker_of_set, decide_True by done. cbn [task]. rewrite (Hn n eq_refl), Hs. cbn.
    eexists. split; [done|]. cbn. split; [by rewrite <- app_assoc|]. intros m Hm. rewrite worker_of_emit, worker_of_set, worker_of_emit, worker_of_set, !decide_False; congruence.
Qed.

Lemma stop_all_log l w :
  Forall stops l -> NoDup (pool l) -> (forall n, n ∈ pool l -> task (worker_of n w) = true) ->
  exists w', stop_all l w = Some (Ok tt, w') /\ log w' = log w ++ (l ≫= stopped_events).
Proof.
  revert w. induction l as [|h l IH]; intros w Hs Hd Hn; [exists w; split; [done|]; by rewrite app_nil_r|].
  apply Forall_cons in Hs as [Hh Hs]. apply pool_nodup in Hd as [Hd Hnot]. cbn [stop_all].
  destruct (hook_stops h w Hh) as (w1 & E1 & L1 & F1); [intros n E; by apply Hn, pool_cons; left|]. rewrite E1.
  destruct (IH w1) as (w2 & E2 & L2); [done|done| |].
  - intros n Hin. rewrite F1; [by apply Hn, pool_cons; right|]. intros E. by destruct (Hnot n E).
  - exists w2. split; [done|]. by rewrite L2, L1, <- app_assoc.
Qed.

Lemma pool_app l l' : pool (l ++ l') = pool l ++ pool l'.
Proof. unfold pool. apply omap_app. Qed.

(** A failing hook ends the loop with an error, and the hooks behind it are not reached. *)
Lemma stop_all_fails l h l' w :
  Forall stops l -> stop_fails h -> NoDup (pool (l ++ h :: l')) -> (forall n, n ∈ pool (l ++ [h]) -> task (worker_of n w) = true) ->
  exists e w', stop_all (l ++ h :: l') w = Some (Err e, w') /\
    log w' = log w ++ (l ≫= stopped_events) ++ stopped_events h.
Proof.
  revert w. induction l as [|h0 l IH]; intros w Hs Hf Hd Hn; cbn [app stop_all].
  - destruct h as [i|n]; cbn in Hf |- *.
    + destruct Hf as [e Hf]. rewrite Hf. by exists e, (emit (HookStopped i) w).
    + unfold worker_wait, worker_shutdown. rewrite worker_of_emit, worker_of_set, decide_True by done. cbn [task]. rewrite Hn by (apply pool_cons; by left). rewrite Hf.
      cbn. eexists _, _. split; [done|]. cbn. by rewrite <- app_assoc.
  - apply Forall_cons in Hs as [Hh Hs]. apply pool_nodup in Hd as [Hd Hnot].
    destruct (hook_stops h0 w Hh) as (w1 & E1 & L1 & F1); [intros n E; apply Hn, pool_cons; by left|]. rewrite E1.
    destruct (IH w1) as (e & w2 & E2 & L2); [done|done|done| |].
    + intros n Hin. rewrite F1; [apply Hn, pool_cons; by right|]. intros E. apply (Hnot n E). rewrite pool_app in Hin |- *.
      apply elem_of_app in Hin as [Hin|Hin]; apply elem_of_app; [by left|right]. apply pool_cons in Hin as [Hin|Hin]; [apply pool_cons; by left|by apply not_elem_of_nil in Hin].
    + exists e, w2. split; [done|]. cbn. by rewrite L2, L1, <- !app_assoc.
Qed.

(** *** Servers *)

(** A server whose [stop] never returns keeps the servers behind it up, and the run with it. *)
Lemma hanging_stop_hangs l s l' w : server_stop s = None -> stop_servers (l ++ s :: l') w = None.
Proof. intros Hs. revert w. induction l as [|x l IH]; intros w; cbn; [by rewrite Hs|]. by destruct (server_stop x). Qed.

Lemma emitted_log (f : nat -> event) l w : log (foldl (fun w s => emit (f s) w) w l) = log w ++ (f <$> l).
Proof. revert w. induction l as [|s l IH]; intros w; cbn; [by rewrite app_nil_r|]. by rewrite IH; cbn; rewrite <- app_assoc. Qed.

Lemma emitted_workers (f : nat -> event) l w n : worker_of n (foldl (fun w s => emit (f s) w) w l) = worker_of n w.
Proof. revert w. induction l as [|s l IH]; intros w; cbn; [done|]. by rewrite IH. Qed.

Lemma stop_servers_log l w : Forall (fun s => is_Some (server_stop s)) l ->
  exists w', stop_servers l w = Some w' /\ log w' = log w ++ (ServerStopped <$> l).
Proof.
  revert w. induction l as [|s l IH]; intros w Hs; cbn; [exists w; by rewrite app_nil_r|]. apply Forall_cons in Hs as [[r Hh] Hs].
  destruct (IH (emit (ServerStopped s) w) Hs) as (w' & E & L). exists w'. rewrite L, Hh. cbn. by rewrite <- app_assoc.
Qed.

Lemma join_servers_log l w : Forall (fun s => server_exit s <> Never) l ->
  exists w', join_servers l w = Some w' /\ log w' = log w ++ (ServerJoined <$> l).
Proof.
  revert w. induction l as [|s l IH]; intros w Hs; cbn; [exists w; by rewrite app_nil_r|]. apply Forall_cons in Hs as [Hh Hs].
  destruct (IH (emit (ServerJoined s) w) Hs) as (w' & E & L). exists w'. rewrite L. cbn. rewrite <- app_assoc. by destruct (server_exit s).
Qed.

Definition fresh_world : world := {| workers := ∅; log := [] |}.

(** The hooks of an application are paired: what a stop hook waits for, a start hook has
    spawned, once. *)
Record paired (a : App) : Prop := {
  paired_starts : NoDup (pool (start_hooks a));
  paired_stops : NoDup (pool (stop_hooks a));
  paired_subset n : n ∈ pool (stop_hooks a) -> n ∈ pool (start_hooks a)
}.

(** The run up to the stop hooks. *)
Lemma run_started a : Forall starts (start_hooks a) -> NoDup (pool (start_hooks a)) ->
  exists w, run a fresh_world =
    match stop_all (stop_hooks a) w with
    | None => None
    | Some (Err e, w) => Some (Err e, w)
    | Some (Ok _, w) =>
        match stop_servers (servers a) w with
        | None => None
        | Some w => match join_servers (servers a) w with None => None | Some w => Some (Ok tt, w) end
        end
    end /\
    log w = (started_event <$> start_hooks a) ++ (ServerSpawned <$> servers a) ++ [ShutdownSeen] /\
    forall n, n ∈ pool (start_hooks a) -> task (worker_of n w) = true.
Proof.
  intros Hs Hd. destruct (start_all_log (start_hooks a) fresh_world Hs Hd) as (w & H1 & H2 & H3 & _); [done|].
  unfold run. rewrite H1. cbn in H2. eexists. split; [reflexivity|].
  split; [cbn; unfold spawn_servers; by rewrite emitted_log, H2, <- app_assoc|]. intros n Hn. rewrite worker_of_emit. unfold spawn_servers. rewrite emitted_workers. by apply H3.
Qed.

(** C34. With hooks that succeed, workers that finish when told to stop and servers that end,
    the run returns, whatever errors the servers answer to the call that stops them: it
    started every hook in order, then the servers, and after the signal it stopped the hooks in order, each worker signalled and awaited, then stopped
    every server and awaited every server task. *)
Theorem run_stops_what_it_started a :
  paired a -> Forall starts (start_hooks a) -> Forall stops (stop_hooks a) ->
  Forall (fun s => is_Some (server_stop s)) (servers a) -> Forall (fun s => server_exit s <> Never) (servers a) ->
  exists w, run a fresh_world = Some (Ok tt, w) /\
    log w = (started_event <$> start_hooks a) ++ (ServerSpawned <$> servers a) ++ [ShutdownSeen] ++
            (stop_hooks a ≫= stopped_events) ++ (ServerStopped <$> servers a) ++ (ServerJoined <$> servers a).
Proof.
  intros [Hd1 Hd2 Hsub] Hs Hp Hst He. destruct (run_started a Hs Hd1) as (w & -> & L & T).
  destruct (stop_all_log (stop_hooks a) w Hp Hd2) as (w1 & -> & L1); [intros n Hn; by apply T, Hsub|].
  destruct (stop_servers_log (servers a) w1 Hst) as (w2 & -> & L2). destruct (join_servers_log (servers a) w2 He) as (w3 & -> & L3).
  exists w3. split; [done|]. by rewrite L3, L2, L1, L, <- !app_assoc.
Qed.

(** A stop hook that fails, as that of a worker that panicked does, ends the run there:
    the hooks behind it are not told to stop, and the servers stay up. *)
Theorem failing_stop_hook_leaves_servers_up a l h l' :
  paired a -> Forall starts (start_hooks a) -> stop_hooks a = l ++ h :: l' -> Forall stops l -> stop_fails h ->
  exists e w, run a fresh_world = Some (Err e, w) /\
    log w = (started_event <$> start_hooks a) ++ (ServerSpawned <$> servers a) ++ [ShutdownSeen] ++ (l ≫= stopped_events) ++ stopped_events h.
Proof.
  intros [Hd1 Hd2 Hsub] Hs E Hp Hf. destruct (run_started a Hs Hd1) as (w & -> & L & T). rewrite E in *.
  destruct (stop_all_fails l h l' w Hp Hf Hd2) as (e & w1 & -> & L1).
  - intros n Hn. apply T, Hsub. rewrite pool_app in Hn |- *. apply elem_of_app in Hn as [Hn|Hn]; apply elem_of_app; [by left|right].
    apply pool_cons in Hn as [Hn|Hn]; [apply pool_cons; by left|by apply not_elem_of_nil in Hn].
  - exists e, w1. split; [done|]. by rewrite L1, L, <- !app_assoc.
Qed.

(** An application that could be built for a distributed deployment with sharding has a
    node name and a worker number that the identifier generator accepts. *)
Theorem built_deployment_can_number a b c epoch :
  build b = Ok a -> b_deployment b = Some c -> mode c = Distributed -> sharding_enabled c = true ->
  - 2 ^ 63 <= epoch / 1000000 < 2 ^ 63 ->
  trim (node_id c) <> "" /\ exists id g, worker_id c = Some id /\ Snowflake.with_clock id epoch = Ok g.
Proof.
  unfold build, validate. intros Hb Hd Hm Hs He. rewrite Hd, Hm, Hs in Hb. cbn [andb] in Hb.
  destruct (String.eqb_spec (trim (node_id c)) ""); [done|]. destruct (is_redis (cache c)); [|done]. cbn [negb] in Hb. split; [done|].
  unfold worker_fits in Hb. destruct (worker_id c) as [id|]; [|done]. destruct (Z.ltb_spec id 1024); [|done].
  exists id, {| Snowflake.worker_id := id; Snowflake.epoch_ms := epoch / 1000000 |}. split; [done|]. unfold Snowflake.with_clock.
  change Snowflake.MAX_WORKER_ID with 1023. assert (1023 <? id = false) as -> by lia.
  assert ((-2 ^ 63 <=? epoch / 1000000) && (epoch / 1000000 <? 2 ^ 63) = true) as -> by lia. done.
Qed.

End Spec.
End AppSpec.

Module AppDemo.
Import Deployment App AppSpec.

(** The second worker panics. *)
#[local] Instance demo_parts : Parts := {|
  hook_start _ := Some (Ok tt);
  hook_stop _ := Some (Ok tt);
  worker_exit n := if Nat.eqb n 2 then Panicked else Finished;
  server_stop _ := Some (Err "listener already closed");
  server_exit _ := Finished
|}.

Definition distributed : DeploymentConfig :=
  {| mode := Distributed; node_id := "node-1"; worker_id := Some 7; cache := Redis; sharding_enabled := true; tiering_enabled := false |}.

Definition demo_builder : AppBuilder := with_deployment distributed (add_server 0 (background_worker 1 (on_start_hook (Custom 0) builder))).
Definition demo_app : App :=
  {| name := "ecat-app"; version := "0.1.0"; servers := [0%nat]; start_hooks := [Custom 0; WorkerHook 1]; stop_hooks := [WorkerHook 1] |}.
Definition panicking : App :=
  {| name := "ecat-app"; version := "0.1.0"; servers := [0%nat]; start_hooks := [WorkerHook 1; WorkerHook 2; WorkerHook 3];
     stop_hooks := [WorkerHook 1; WorkerHook 2; WorkerHook 3] |}.

Lemma demo_paired : paired demo_app.
Proof. split; cbn; [by apply (bool_decide_unpack _)|by apply (bool_decide_unpack _)|by intros n]. Qed.

Lemma panicking_paired : paired panicking.
Proof. split; cbn; [by apply (bool_decide_unpack _)|by apply (bool_decide_unpack _)|by intros n]. Qed.

Lemma run_stops_what_it_started_witness :
  exists w, run demo_app fresh_world = Some (Ok tt, w) /\
    log w = [HookStarted 0; WorkerSpawned 1; ServerSpawned 0; ShutdownSeen; WorkerSignalled 1; WorkerJoined 1; ServerStopped 0; ServerJoined 0].
Proof. apply (run_stops_what_it_started demo_app demo_paired); by repeat constructor. Defined.

Lemma failing_stop_hook_leaves_servers_up_witness :
  exists e w, run panicking fresh_world = Some (Err e, w) /\
    log w = [WorkerSpawned 1; WorkerSpawned 2; WorkerSpawned 3; ServerSpawned 0; ShutdownSeen; WorkerSignalled 1; WorkerJoined 1;
             WorkerSignalled 2; WorkerJoined 2].
Proof.
  apply (failing_stop_hook_leaves_servers_up panicking [WorkerHook 1] (WorkerHook 2) [WorkerHook 3] panicking_paired); by repeat constructor.
Defined.

Lemma built_deployment_can_number_witness :
  trim "node-1" <> "" /\ exists id g, Some 7 = Some id /\ Snowflake.with_clock id 0 = Ok g.
Proof.
  apply (built_deployment_can_number demo_app demo_builder distributed 0); [vm_compute; reflexivity|reflexivity..|].
  split; [by apply Z.leb_le | by apply Z.ltb_lt].
Defined.

End AppDemo.
