(* ===== verification/ShardCatalog.v ===== *)
(** * The shard catalog ([ecat-data-sharding])

    [src/ecat-data-sharding/src/catalog.rs] (topology, validation, hashing and
    key routing), [config.rs] (the constraints of the deployment mode) and
    [budget.rs] (the connection budget). *)

From S2P Require Import Prelude Json.
From stdpp Require pretty.

Local Open Scope Z_scope.
Local Open Scope ecat_scope.

Module Catalog.

Inductive ShardAlgorithm :=
| HashMod (shards : Z)
| Range (boundaries : list Z).

Record ShardEndpoint := { ep_name : string; url : option string }.

Record ShardTable := {
  tb_name : string;
  key : string;
  pk : string;
  algorithm : ShardAlgorithm;
  shards : list ShardEndpoint;
}.

Record ShardCatalog := { tables : list ShardTable }.

Inductive ShardError :=
| Config (message : string)
| MissingKey
| UnknownTable (name : string)
| ShardCountMismatch
| PartialFailure (failed : list string)
| ClockRollback
| IdOutOfRange
| UnsupportedDialect
| Database (message : string).

(** FNV-1a, 64 bits. *)
Definition fnv1a64 (bytes : list Z) : Z :=
  foldl (fun hash byte => wrap 64 (Z.lxor hash byte * 1099511628211))
    14695981039346656037 bytes.

(** [boundaries.windows(2).any(|pair| pair[0] >= pair[1])]. *)
Fixpoint unordered (l : list Z) : bool :=
  match l with
  | a :: (b :: _) as l' => (b <=? a) || unordered l'
  | _ => false
  end.

Definition check_algorithm (table : string) (algorithm : ShardAlgorithm) (endpoints : nat)
    : result unit ShardError :=
  match algorithm with
  | HashMod shards =>
      if (shards =? 0) || negb (shards =? Z.of_nat endpoints)
      then Err ShardCountMismatch else Ok tt
  | Range boundaries =>
      if negb (Nat.eqb (length boundaries + 1) endpoints) then Err ShardCountMismatch
      else if unordered boundaries
      then Err (Config ("table `" +:+ table +:+ "` range boundaries must be strictly increasing"))
      else Ok tt
  end.

(** One table of [validate], after the uniqueness of its name. *)
Definition validate_shards (t : ShardTable) : result unit ShardError :=
  match shards t with
  | [] => Err (Config ("table `" +:+ tb_name t +:+ "` has no shards"))
  | _ =>
      match first_dup ∅ (map ep_name (shards t)) with
      | Some name =>
          Err (Config ("table `" +:+ tb_name t +:+ "` has duplicate shard name `"
                       +:+ name +:+ "`"))
      | None => check_algorithm (tb_name t) (algorithm t) (length (shards t))
      end
  end.

Fixpoint validate_from (seen : gset string) (l : list ShardTable) : result unit ShardError :=
  match l with
  | [] => Ok tt
  | t :: l =>
      if is_blank (tb_name t) || is_blank (key t) || is_blank (pk t)
      then Err (Config ("table `" +:+ tb_name t +:+ "` has an empty name, key, or pk"))
      else if decide (tb_name t ∈ seen)
      then Err (Config ("duplicate table name `" +:+ tb_name t +:+ "`"))
      else let? _ := validate_shards t in validate_from ({[tb_name t]} ∪ seen) l
  end.

Definition validate (c : ShardCatalog) : result unit ShardError := validate_from ∅ (tables c).

Definition table (c : ShardCatalog) (name : string) : result ShardTable ShardError :=
  ok_or (List.find (fun t => String.eqb (tb_name t) name) (tables c)) (UnknownTable name).

(** [slice::partition_point]: the length of the prefix satisfying the predicate. *)
Fixpoint partition_point {A} (p : A -> bool) (l : list A) : nat :=
  match l with
  | [] => 0
  | x :: l => if p x then S (partition_point p l) else 0
  end.

Section Routing.
Context `{JT : JsonText}.

Fixpoint join (sep : string) (l : list string) : string :=
  match l with
  | [] => ""
  | [x] => x
  | x :: l => x +:+ sep +:+ join sep l
  end.

(** [write_canonical]: object members in key order, array items in place.  The
    members are rendered before they are sorted; the code renders while it walks
    the sorted entries, which gives the same text. *)
Fixpoint write_canonical (v : Value) : string :=
  match v with
  | VNull => "null"
  | VBool b => if b then "true" else "false"
  | VNumber n => number_text n
  | VString s => value_text (VString s)
  | VArray items => "[" +:+ join "," (map write_canonical items) +:+ "]"
  | VObject entries =>
      let rendered :=
        map (fun e => match e with (k, item) => (k, write_canonical item) end) entries in
      let sorted := sort_by (fun a b : string * string => str_le a.1 b.1) rendered in
      "{" +:+ join "," (map (fun e : string * string =>
                               value_text (VString e.1) +:+ ":" +:+ e.2) sorted) +:+ "}"
  end.

Definition stable_hash64 (k : Value) : result Z ShardError :=
  match k with
  | VNull => Err MissingKey
  | VString text => Ok (fnv1a64 (bytes_of text))
  | other => Ok (fnv1a64 (bytes_of (write_canonical other)))
  end.

Definition shard_for (c : ShardCatalog) (name : string) (k : Value) : result nat ShardError :=
  let? t := table c name in
  let? _ := check_algorithm (tb_name t) (algorithm t) (length (shards t)) in
  if is_null k then Err MissingKey else
  match algorithm t with
  | HashMod n => let? h := stable_hash64 k in Ok (Z.to_nat (h mod n))
  | Range boundaries =>
      match as_i64 k with
      | None =>
          if is_u64 k then Err IdOutOfRange
          else Err (Config ("table `" +:+ tb_name t +:+ "` range shard key must be an integer"))
      | Some id => Ok (partition_point (fun boundary => boundary <=? id) boundaries)
      end
  end.

End Routing.
End Catalog.

Module ShardingConfig.
Import Catalog.

Inductive ShardingMode := Proxy | Client.

Record ShardingConfig := { mode : ShardingMode; catalog : ShardCatalog }.

Definition has_url (s : ShardEndpoint) : bool :=
  match url s with Some u => negb (is_blank u) | None => false end.

Definition check_endpoint (m : ShardingMode) (t : ShardTable) (s : ShardEndpoint)
    : result unit ShardError :=
  match m with
  | Proxy =>
      if has_url s
      then Err (Config ("table `" +:+ tb_name t +:+ "` shard `" +:+ ep_name s
                        +:+ "`: proxy mode forbids per-shard urls"))
      else Ok tt
  | Client =>
      if has_url s then Ok tt
      else Err (Config ("table `" +:+ tb_name t +:+ "` shard `" +:+ ep_name s
                        +:+ "`: client mode requires a url"))
  end.

(** A [for] loop with [?]: the first error, or [Ok]. *)
Fixpoint for_each {A} (f : A -> result unit ShardError) (l : list A) : result unit ShardError :=
  match l with
  | [] => Ok tt
  | x :: l => let? _ := f x in for_each f l
  end.

Definition validate (c : ShardingConfig) : result unit ShardError :=
  let? _ := Catalog.validate (catalog c) in
  for_each (fun t => for_each (check_endpoint (mode c) t) (shards t)) (tables (catalog c)).

End ShardingConfig.

Module Budget.
Import Catalog.

(** [clients] is the list of reported pool sizes ([RdbmsClient::pool_size], a
    [u32]); the decimal text of a number in the message is [dec]. *)
Definition pool_total (clients : list (option Z)) : Z :=
  foldl (fun total c => match c with Some n => u64_add total n | None => total end) 0 clients.

Definition unknown (clients : list (option Z)) : nat :=
  length (List.filter (fun c => match c with None => true | Some _ => false end) clients).

Definition validate_pool_budget (dec : Z -> string) (clients : list (option Z))
    (instances max_total_connections : Z) : result unit ShardError :=
  let total := wrap 64 (pool_total clients * instances) in
  if max_total_connections <? total then
    let skipped :=
      if Nat.eqb (unknown clients) 0 then ""
      else " (" +:+ dec (Z.of_nat (unknown clients)) +:+ " client(s) skipped: unknown pool size)" in
    Err (Config ("connection pool budget exceeded: " +:+ dec total +:+ " > "
                 +:+ dec max_total_connections +:+ skipped))
  else Ok tt.

End Budget.

(** ** Lemmas *)

Module CatalogFacts.
Import Catalog.

(** Strictly increasing boundaries. *)
Lemma unordered_false_sorted l : unordered l = false <-> StronglySorted Z.lt l.
Proof.
  induction l as [|a [|b l] IH]; [split; [constructor|done]|split; [by repeat constructor|done]|].
  cbn [unordered]. rewrite orb_false_iff, IH, Z.leb_gt. split.
  - intros [Hab Hs]. constructor; [done|]. constructor; [done|].
    inv Hs. eapply Forall_impl; [eassumption|]. simpl. lia.
  - intros Hs. inv Hs. inv H2. done.
Qed.

Lemma partition_point_le {A} (p : A -> bool) l : (partition_point p l <= length l)%nat.
Proof. induction l as [|x l IH]; simpl; [lia|]. destruct (p x); lia. Qed.

(** What [partition_point] promises of the elements around the index. *)
Lemma partition_point_spec {A} (p : A -> bool) l i x :
  l !! i = Some x ->
  ((i < partition_point p l)%nat -> p x = true) /\ (i = partition_point p l -> p x = false).
Proof.
  revert i. induction l as [|y l IH]; intros i Hi; [done|]. simpl.
  destruct (p y) eqn:Hy; [|split; [lia|]; intros ->; by simplify_eq/=].
  destruct i as [|i]; simplify_eq/=; [split; [done|lia]|].
  destruct (IH i Hi). split; intros; [|naive_solver lia].
  apply H. lia.
Qed.

(** On sorted boundaries the index is the owner of the key's interval. *)
Lemma partition_point_interval b id :
  StronglySorted Z.lt b ->
  let p := partition_point (fun x => x <=? id) b in
  (p <= length b)%nat /\
  (forall j x, b !! j = Some x -> (j < p)%nat -> x <= id) /\
  (forall j x, b !! j = Some x -> (p <= j)%nat -> id < x).
Proof.
  intros Hs. split; [apply partition_point_le|]. split.
  - intros j x Hj Hlt. apply Z.leb_le.
    by apply (partition_point_spec (fun x => x <=? id) b j x Hj).
  - induction Hs as [|y l Hs IH Hy]; intros j x Hj Hle; [done|]. simpl in Hle.
    rewrite Forall_forall in Hy. destruct (y <=? id) eqn:Hyid; bool_prop.
    + destruct j as [|j]; [lia|]. eapply IH; [exact Hj|lia].
    + destruct j as [|j]; simplify_eq/=; [done|].
      apply list_elem_of_lookup_2 in Hj. specialize (Hy _ Hj). lia.
Qed.

Lemma fnv1a64_range bytes : 0 <= fnv1a64 bytes < 2 ^ 64.
Proof.
  unfold fnv1a64. assert (H : 0 <= 14695981039346656037 < 2 ^ 64) by lia.
  revert H. generalize 14695981039346656037.
  induction bytes as [|b l IH]; intros h Hh; simpl; [done|]. apply IH. by apply wrap_range.
Qed.

Lemma check_algorithm_ok name a n :
  check_algorithm name a n = Ok tt <->
  match a with
  | HashMod s => s <> 0 /\ s = Z.of_nat n
  | Range b => (length b + 1 = n)%nat /\ StronglySorted Z.lt b
  end.
Proof.
  unfold check_algorithm. destruct a as [s|b].
  - destruct (_ || _) eqn:Hc; [apply orb_true_iff in Hc|]; bool_prop; split; try done.
    intros [? ?]. destruct Hc; bool_prop; done.
  - rewrite <- unordered_false_sorted. destruct (Nat.eqb_spec (length b + 1) n); simpl;
      [destruct (unordered b); naive_solver | naive_solver].
Qed.

Lemma table_ok c name t :
  table c name = Ok t -> t ∈ tables c /\ tb_name t = name.
Proof.
  unfold table, ok_or. destruct (List.find _ _) eqn:Hf; [|done]. intros; simplify_eq.
  apply List.find_some in Hf as [Hin He]. split; [by apply list_elem_of_In|].
  by apply String.eqb_eq in He.
Qed.

(** What [validate] promises of one table. *)
Definition wf_table (t : ShardTable) : Prop :=
  is_blank (tb_name t) = false /\ is_blank (key t) = false /\ is_blank (pk t) = false /\
  shards t <> [] /\ NoDup (map ep_name (shards t)) /\
  match algorithm t with
  | HashMod s => s = Z.of_nat (length (shards t))
  | Range b => (length b + 1 = length (shards t))%nat /\ StronglySorted Z.lt b
  end.

Definition wf_catalog (c : ShardCatalog) : Prop :=
  Forall wf_table (tables c) /\ NoDup (map tb_name (tables c)).

Lemma validate_shards_ok t :
  validate_shards t = Ok tt <->
  shards t <> [] /\ NoDup (map ep_name (shards t)) /\
  match algorithm t with
  | HashMod s => s = Z.of_nat (length (shards t))
  | Range b => (length b + 1 = length (shards t))%nat /\ StronglySorted Z.lt b
  end.
Proof.
  unfold validate_shards. destruct (shards t) as [|e l] eqn:Hs; [naive_solver|].
  destruct (first_dup ∅ _) eqn:Hd.
  - split; [done|]. intros (_ & Hn & _).
    assert (Hx : first_dup ∅ (map ep_name (e :: l)) = None) by (apply first_dup_None; set_solver).
    congruence.
  - apply first_dup_None in Hd as [Hd _]. rewrite check_algorithm_ok. simpl length.
    destruct (algorithm t); [|naive_solver]. split; [naive_solver|]. intros (_ & _ & ->).
    split; [lia|done].
Qed.

Lemma validate_from_ok seen l :
  validate_from seen l = Ok tt <->
  Forall wf_table l /\ NoDup (map tb_name l) /\ (forall x, x ∈ map tb_name l -> x ∉ seen).
Proof.
  revert seen. induction l as [|t l IH]; intros seen; simpl.
  { split; [intros _|done]. split_and!; [constructor..|]. set_solver. }
  rewrite Forall_cons, NoDup_cons. unfold wf_table at 1.
  destruct (is_blank (tb_name t)) eqn:H1, (is_blank (key t)) eqn:H2,
    (is_blank (pk t)) eqn:H3; simpl; try naive_solver.
  case_decide; [split; [done|]; intros (_ & _ & Hx); exfalso; set_solver|].
  pose proof (validate_shards_ok t) as Hv.
  destruct (validate_shards t) as [[]|e]; simpl; [|naive_solver].
  rewrite IH. assert (Hv' : shards t <> [] /\ NoDup (map ep_name (shards t)) /\ _) by (by apply Hv).
  split.
  - intros (Ha & Hb & Hc). split_and!; try done; try tauto; set_solver.
  - intros ((_ & Ha) & (Hb & Hb') & Hc). split_and!; [done..|]. intros x Hx.
    assert (x <> tb_name t) by (intros ->; done). set_solver.
Qed.

Lemma validate_ok c : validate c = Ok tt <-> wf_catalog c.
Proof. unfold validate, wf_catalog. rewrite validate_from_ok. set_solver. Qed.

(** A validated table is found again under its name. *)
Lemma table_found c t :
  NoDup (map tb_name (tables c)) -> t ∈ tables c -> table c (tb_name t) = Ok t.
Proof.
  unfold table. destruct c as [l]; simpl. induction l as [|t' l IH]; intros Hn Hin; [set_solver|].
  simpl in *. apply NoDup_cons in Hn as [Hn Hn']. destruct (String.eqb_spec (tb_name t') (tb_name t)) as [He|He].
  - apply elem_of_cons in Hin as [->|Hin]; [done|]. destruct Hn. rewrite He.
    apply list_elem_of_In, List.in_map, list_elem_of_In, Hin.
  - apply IH; [done|]. apply elem_of_cons in Hin as [->|?]; done.
Qed.

Lemma shard_for_bound `{JT : JsonText} c name k i :
  shard_for c name k = Ok i ->
  exists t, table c name = Ok t /\ (i < length (shards t))%nat /\ is_null k = false.
Proof.
  unfold shard_for. destruct (table c name) as [t|] eqn:Ht; simpl; [|done].
  destruct (check_algorithm _ _ _) as [[]|] eqn:Hc; simpl; [|done].
  apply check_algorithm_ok in Hc.
  destruct (is_null k) eqn:Hk; [done|]. intros Hr. exists t. split; [done|]. split; [|done].
  destruct (algorithm t) as [n|b].
  - destruct (stable_hash64 k) as [h|]; simplify_eq/=.
    pose proof (Z.mod_pos_bound h n). lia.
  - destruct (as_i64 k); [|by destruct (is_u64 k)]. simplify_eq.
    pose proof (partition_point_le (fun x => x <=? z) b). lia.
Qed.

(** *** Canonical text *)

Lemma unique_keys_inj {A} (l : list (string * A)) x y :
  NoDup l.*1 -> x ∈ l -> y ∈ l -> x.1 = y.1 -> x = y.
Proof.
  intros Hn Hx Hy He. apply list_elem_of_lookup in Hx as [i Hi], Hy as [j Hj].
  assert (i = j) as ->; [|congruence].
  eapply (NoDup_lookup l.*1 i j x.1); [done|..]; rewrite list_lookup_fmap, ?Hi, ?Hj; simpl; congruence.
Qed.

Section Canonical.
Context `{JT : JsonText}.

Definition render (e : string * Value) : string * string := (e.1, write_canonical e.2).

Lemma render_map l :
  map (fun e => match e with (k, item) => (k, write_canonical item) end) l = map render l.
Proof. apply map_ext. by intros []. Qed.

Lemma render_keys l : (map render l).*1 = l.*1.
Proof. induction l as [|[k v] l IH]; [done|]. simpl. by f_equal. Qed.

Lemma write_canonical_equiv v v' : json_equiv v v' -> write_canonical v = write_canonical v'.
Proof.
  revert v'. induction v as [| | | |l IH|l IH] using Value_nested_ind; intros v' He;
    inversion He as [|? l' HF|? m l' Hn HF Hp]; subst; try done.
  - simpl. do 3 f_equal. clear He. induction HF; inv IH; simpl; f_equal; auto.
  - simpl. rewrite !render_map. do 4 f_equal.
    assert (Hm : map render l = map render m).
    { clear He Hn Hp. induction HF as [|[k v] [k' v'] l m [Hk Hv] HF IHF]; [done|].
      inv IH. simpl in *. subst. unfold render at 1 3. simpl. f_equal; [f_equal|]; auto. }
    apply (sort_by_unique _ (fun _ => True)).
    + intros. apply str_le_total.
    + intros x y z _ _ _. apply str_le_trans.
    + by apply Forall_true.
    + intros x y Hx Hy H1 H2. apply (unique_keys_inj (map render l)); [by rewrite render_keys|done..|].
      by apply str_le_antisym.
    + rewrite Hm. by apply Permutation_map.
Qed.

#[export] Instance stable_hash64_proper : Proper (json_equiv ==> eq) stable_hash64.
Proof.
  intros v v' He. pose proof (write_canonical_equiv _ _ He) as Hw.
  inversion He; subst; try done; unfold stable_hash64; by rewrite Hw.
Qed.

#[export] Instance shard_for_proper c name : Proper (json_equiv ==> eq) (shard_for c name).
Proof.
  intros v v' He. pose proof (stable_hash64_proper _ _ He) as Hh.
  unfold shard_for. rewrite Hh.
  destruct (table c name) as [t|]; [|done]. simpl. destruct (check_algorithm _ _ _); [|done].
  simpl. inversion He; subst; done.
Qed.

End Canonical.

(** *** Endpoint constraints *)

Lemma for_each_ok {A} (f : A -> result unit ShardError) l :
  ShardingConfig.for_each f l = Ok tt <-> forall x, x ∈ l -> f x = Ok tt.
Proof.
  induction l as [|x l IH]; simpl; [set_solver|].
  destruct (f x) as [[]|e] eqn:Hx; simpl.
  - rewrite IH. set_solver.
  - split; [done|]. intros H. rewrite H in Hx; set_solver.
Qed.

Lemma check_endpoint_ok m t s :
  ShardingConfig.check_endpoint m t s = Ok tt <->
  ShardingConfig.has_url s =
    match m with ShardingConfig.Proxy => false | ShardingConfig.Client => true end.
Proof.
  unfold ShardingConfig.check_endpoint. destruct m, (ShardingConfig.has_url s); naive_solver.
Qed.

(** *** The budget *)

Lemma pool_total_sum clients acc :
  0 <= acc -> Forall (fun c => match c with Some n => 0 <= n | None => True end) clients ->
  acc + foldr (fun c s => match c with Some n => n | None => 0 end + s) 0 clients < 2 ^ 64 ->
  foldl (fun total c => match c with Some n => u64_add total n | None => total end) acc clients
    = acc + foldr (fun c s => match c with Some n => n | None => 0 end + s) 0 clients.
Proof.
  intros Ha HF. revert acc Ha. induction HF as [|c l Hc HF IH]; intros acc Ha Hb; simpl in *; [lia|].
  assert (0 <= foldr (fun c s => match c with Some n => n | None => 0 end + s) 0 l).
  { clear -HF. induction HF as [|[n|] l]; simpl in *; lia. }
  destruct c as [n|].
  - unfold u64_add. rewrite wrap_small by lia. rewrite IH; lia.
  - rewrite IH; lia.
Qed.

End CatalogFacts.

Module CatalogSpec.
Import Catalog CatalogFacts.

(** *** A concrete number type for the witnesses: the integers. *)
#[local] Instance demo_number : JsonNumber := {|
  Number := Z;
  number_as_i64 n := if (- 2 ^ 63 <=? n) && (n <? 2 ^ 63) then Some n else None;
  number_is_u64 n := (0 <=? n) && (n <? 2 ^ 64);
  number_as_f64 n := Some (f64_of_u64 n);
  number_text n := pretty.pretty n |}.
#[local] Instance demo_text : JsonText := {|
  value_text v := match v with VString s => s | _ => "?" end |}.

Definition demo_num (z : Z) : Value := @VNumber demo_number z.
Definition demo_ep (name : string) : ShardEndpoint := {| ep_name := name; url := None |}.
Definition demo_orders : ShardTable :=
  {| tb_name := "orders"; key := "uid"; pk := "id"; algorithm := HashMod 2;
     shards := [demo_ep "s0"; demo_ep "s1"] |}.
Definition demo_logs : ShardTable :=
  {| tb_name := "logs"; key := "day"; pk := "id"; algorithm := Range [10; 20];
     shards := [demo_ep "l0"; demo_ep "l1"; demo_ep "l2"] |}.
Definition demo_catalog : ShardCatalog := {| tables := [demo_orders; demo_logs] |}.

(** [ShardCatalog::validate] accepts exactly the well-formed catalogs:
    names, keys and primary keys that are not blank, unique table names, in each
    table at least one shard, unique shard names, and an algorithm that fits the
    number of shards, its boundaries strictly increasing. *)
Theorem validate_accepts_exactly_wf c : validate c = Ok tt <-> wf_catalog c.
Proof. apply validate_ok. Qed.

(** Routing never leaves the table: whatever the catalog, validated or not,
    an index that [shard_for] returns is the index of a shard of that table, and
    the key was not null. *)
Theorem shard_for_in_bounds `{JT : JsonText} c name k i :
  shard_for c name k = Ok i ->
  exists t, table c name = Ok t /\ (i < length (shards t))%nat /\ is_null k = false.
Proof. apply shard_for_bound. Qed.

Lemma shard_for_in_bounds_witness :
  exists t, table demo_catalog "logs" = Ok t /\ (1 < length (shards t))%nat /\
            is_null (demo_num 15) = false.
Proof. apply (shard_for_in_bounds demo_catalog "logs" (demo_num 15) 1). reflexivity. Defined.

(** A validated catalog routes every usable key: in each of its tables a
    non-null key has a shard under [HashMod], and an integer key in the [i64]
    range has one under [Range]. *)
Theorem validated_catalog_routes `{JT : JsonText} c t k :
  validate c = Ok tt -> t ∈ tables c -> is_null k = false ->
  (match algorithm t with HashMod _ => True | Range _ => is_Some (as_i64 k) end) ->
  exists i, shard_for c (tb_name t) k = Ok i /\ (i < length (shards t))%nat.
Proof.
  intros Hv Hin Hk Ha. apply validate_ok in Hv as [Hw Hn].
  pose proof (table_found c t Hn Hin) as Ht.
  rewrite Forall_forall in Hw. specialize (Hw t Hin) as (_ & _ & _ & Hne & _ & Halg).
  assert (Hc : check_algorithm (tb_name t) (algorithm t) (length (shards t)) = Ok tt).
  { apply check_algorithm_ok. destruct (algorithm t); [|done]. split; [|done].
    destruct (shards t); [done|]. simpl in *. lia. }
  assert (Hi : exists i, shard_for c (tb_name t) k = Ok i).
  { unfold shard_for. rewrite Ht. simpl. rewrite Hc, Hk. simpl. destruct (algorithm t).
    - unfold stable_hash64. destruct k; simpl in *; eauto; discriminate.
    - destruct Ha as [z ->]. eauto. }
  destruct Hi as [i Hi]. exists i. split; [done|].
  apply shard_for_bound in Hi as (t' & Ht' & Hlt & _).
  rewrite Ht in Ht'. by simplify_eq.
Qed.

Lemma validated_catalog_routes_witness :
  exists i, shard_for demo_catalog "orders" (VString "alice") = Ok i /\ (i < 2)%nat.
Proof.
  apply (validated_catalog_routes demo_catalog demo_orders (VString "alice"));
    [reflexivity | left | reflexivity | exact I].
Defined.

(** Range ownership: under [Range], key [id] goes to shard [i] exactly when
    [id] reaches the boundary before [i] and stays below the boundary at [i]; the
    shards therefore own disjoint intervals that cover all integers. *)
Theorem range_shard_owns_interval `{JT : JsonText} c name t b k id i :
  table c name = Ok t -> algorithm t = Range b ->
  (length b + 1 = length (shards t))%nat -> StronglySorted Z.lt b ->
  as_i64 k = Some id ->
  shard_for c name k = Ok i <->
  (i <= length b)%nat /\
  (forall j x, b !! j = Some x -> (j < i)%nat -> x <= id) /\
  (forall j x, b !! j = Some x -> (i <= j)%nat -> id < x).
Proof.
  intros Ht Ha Hl Hs Hk. unfold shard_for. rewrite Ht. simpl.
  assert (Hc : check_algorithm (tb_name t) (algorithm t) (length (shards t)) = Ok tt)
    by (apply check_algorithm_ok; by rewrite Ha).
  rewrite Hc. simpl. assert (is_null k = false) as -> by (by destruct k).
  rewrite Ha, Hk. split.
  - intros Hi. simplify_eq. by apply partition_point_interval.
  - intros (Hi & Hlo & Hhi). f_equal.
    destruct (partition_point_interval b id Hs) as (Hpl & Hplo & Hphi).
    set (p := partition_point _ b) in *.
    destruct (lt_eq_lt_dec p i) as [[Hlt|He]|Hgt]; [|done|]; exfalso.
    + destruct (lookup_lt_is_Some_2 b p) as [x Hx]; [lia|].
      specialize (Hlo _ _ Hx). specialize (Hphi _ _ Hx). lia.
    + destruct (lookup_lt_is_Some_2 b i) as [x Hx]; [lia|].
      specialize (Hhi _ _ Hx). specialize (Hplo _ _ Hx). lia.
Qed.

Lemma range_shard_owns_interval_witness :
  shard_for demo_catalog "logs" (demo_num 10) = Ok 1%nat <->
  (1 <= 2)%nat /\
  (forall j x, [10; 20] !! j = Some x -> (j < 1)%nat -> x <= 10) /\
  (forall j x, [10; 20] !! j = Some x -> (1 <= j)%nat -> 10 < x).
Proof.
  apply (range_shard_owns_interval demo_catalog "logs" demo_logs [10; 20] (demo_num 10) 10 1);
    try reflexivity. repeat constructor.
Defined.

(** Routing is a function of the JSON value, not of its spelling: two keys
    that differ only in the order of object members, at any depth, hash to the
    same 64-bit value and go to the same shard. *)
Theorem member_order_does_not_route `{JT : JsonText} c name k k' :
  json_equiv k k' ->
  stable_hash64 k = stable_hash64 k' /\ shard_for c name k = shard_for c name k' /\
  (forall h, stable_hash64 k = Ok h -> in_u64 h).
Proof.
  intros He. split; [by rewrite He|]. split; [by rewrite He|].
  unfold stable_hash64, in_u64. intros h.
  destruct k; intros; simplify_eq; apply fnv1a64_range.
Qed.

Lemma member_order_does_not_route_witness :
  shard_for demo_catalog "orders" (VObject [("b", demo_num 1); ("a", demo_num 2)]) =
  shard_for demo_catalog "orders" (VObject [("a", demo_num 2); ("b", demo_num 1)]).
Proof.
  refine (proj1 (proj2 (member_order_does_not_route demo_catalog "orders"
    (VObject [("b", demo_num 1); ("a", demo_num 2)])
    (VObject [("a", demo_num 2); ("b", demo_num 1)]) _))).
  apply (json_equiv_object _ [("b", demo_num 1); ("a", demo_num 2)]).
  - apply NoDup_cons. split; [set_solver|]. apply NoDup_singleton.
  - repeat constructor.
  - apply Permutation_swap.
Defined.

(** The connection budget is exact as long as the product fits 64 bits: the
    check passes exactly when the reported pool sizes times the replicas stay
    within the budget; backends that report no size count as zero. *)
Theorem pool_budget_exact dec clients instances budget :
  Forall (fun c => match c with Some n => 0 <= n | None => True end) clients ->
  0 <= instances ->
  let sum := foldr (fun c s => match c with Some n => n | None => 0 end + s) 0 clients in
  sum < 2 ^ 64 -> sum * instances < 2 ^ 64 ->
  Budget.validate_pool_budget dec clients instances budget = Ok tt <-> sum * instances <= budget.
Proof.
  intros HF Hi sum Hs Hp. unfold Budget.validate_pool_budget, Budget.pool_total.
  rewrite pool_total_sum by (done || lia). fold sum. rewrite Z.add_0_l.
  assert (0 <= sum) by (subst sum; clear -HF; induction HF as [|[n|] l]; simpl in *; lia).
  rewrite wrap_small by nia. destruct (budget <? sum * instances) eqn:Hb; bool_prop.
  - split; [done|lia].
  - done.
Qed.

Lemma pool_budget_exact_witness :
  Budget.validate_pool_budget (fun _ => "") [Some 10; None; Some 5] 4 60 = Ok tt <->
  10 + (0 + (5 + 0)) <= 15.
Proof.
  split; [intros _; lia|intros _].
  apply (pool_budget_exact (fun _ => "") [Some 10; None; Some 5] 4 60);
    [repeat constructor; lia | lia | vm_compute; reflexivity | vm_compute; reflexivity
    | vm_compute; discriminate].
Defined.

(** The 64-bit product can wrap: three maximal pools on 2^31 replicas pass any
    budget. *)
Example pool_budget_wraps :
  Budget.validate_pool_budget (fun _ => "") [Some (2 ^ 32 - 1); Some (2 ^ 32 - 1); Some 2]
    (2 ^ 31) 0 = Ok tt.
Proof. reflexivity. Qed.

(** The deployment mode decides about endpoint URLs: with a valid catalog,
    [Proxy] is accepted exactly when no endpoint has a URL that is not blank, and
    [Client] exactly when every endpoint has one. *)
Theorem sharding_mode_urls cfg :
  ShardingConfig.validate cfg = Ok tt <->
  wf_catalog (ShardingConfig.catalog cfg) /\
  forall t s, t ∈ tables (ShardingConfig.catalog cfg) -> s ∈ shards t ->
    ShardingConfig.has_url s =
      match ShardingConfig.mode cfg with
      | ShardingConfig.Proxy => false
      | ShardingConfig.Client => true
      end.
Proof.
  unfold ShardingConfig.validate. pose proof (validate_ok (ShardingConfig.catalog cfg)) as Hv.
  destruct (validate _) as [[]|e]; simpl; [|naive_solver].
  rewrite for_each_ok. setoid_rewrite for_each_ok. setoid_rewrite check_endpoint_ok. naive_solver.
Qed.

End CatalogSpec.
