(* ===== verification/ShardRouter.v ===== *)
(** * Routing and scatter over shards ([ecat-data-sharding])

    [src/ecat-data-sharding/src/router.rs] (the keyed router and its hot reload),
    [scatter.rs] (fan-out, merge, deduplication, paging), [health.rs] (the shard
    probe) and [topology.rs] (the static source).

    A database client is an opaque handle [client]; what a query on it returns is
    an argument.  The tasks of a scatter finish in any order: [gather] consumes
    the sequence of completions the [JoinSet] yields, and [timed_out] says whether
    the timer fired before the sequence was complete. *)

From S2P Require Import Prelude Json ShardCatalog.
From stdpp Require pretty.

Local Open Scope Z_scope.
Local Open Scope ecat_scope.

Module Router.
Import Catalog.

Section Router.
Context {client : Type}.

Record ShardRouter := { catalog : ShardCatalog; clients : gmap string client }.

(** [KeyedClient]: the client of one shard, bound to a table. *)
Record KeyedClient := { kc_client : client; kc_table : string }.

Definition no_client (t : ShardTable) (s : ShardEndpoint) : ShardError :=
  Config ("table `" +:+ tb_name t +:+ "` shard `" +:+ ep_name s +:+ "` has no client").

Definition validate_clients (c : ShardCatalog) (cl : gmap string client)
    : result unit ShardError :=
  ShardingConfig.for_each
    (fun t => ShardingConfig.for_each
       (fun s => match cl !! ep_name s with Some _ => Ok tt | None => Err (no_client t s) end)
       (shards t))
    (tables c).

Definition new (c : ShardCatalog) (cl : gmap string client) : result ShardRouter ShardError :=
  let? _ := validate c in
  let? _ := validate_clients c cl in
  Ok {| catalog := c; clients := cl |}.

(** [reload] checks first and swaps under the write lock: on an error the router
    keeps its catalog. *)
Definition reload (r : ShardRouter) (c : ShardCatalog) : ShardRouter * result unit ShardError :=
  match validate c with
  | Err e => (r, Err e)
  | Ok _ =>
      match validate_clients c (clients r) with
      | Err e => (r, Err e)
      | Ok _ => ({| catalog := c; clients := clients r |}, Ok tt)
      end
  end.

Context `{JT : JsonText}.

(** [None] in the index lookup is a panic of the slice access. *)
Definition for_key_with_shard (r : ShardRouter) (name : string) (k : Value)
    : option (result (string * KeyedClient) ShardError) :=
  match shard_for (catalog r) name k with
  | Err e => Some (Err e)
  | Ok index =>
      match table (catalog r) name with
      | Err e => Some (Err e)
      | Ok t =>
          match shards t !! index with
          | None => None
          | Some s =>
              Some (match clients r !! ep_name s with
                    | None => Err (Config ("shard `" +:+ ep_name s +:+ "` has no client"))
                    | Some c => Ok (ep_name s, {| kc_client := c; kc_table := name |})
                    end)
          end
      end
  end.

Definition for_key (r : ShardRouter) (name : string) (k : Value)
    : option (result KeyedClient ShardError) :=
  match for_key_with_shard r name k with
  | None => None
  | Some (Ok p) => Some (Ok p.2)
  | Some (Err e) => Some (Err e)
  end.

(** *** The shard probe ([check_health])

    [query] is the answer of [SELECT 1] (the [Err] text is the rendered database
    error); the timer fires while the probe number [deadline] is in flight. *)

Fixpoint targets (cl : gmap string client) (l : list ShardEndpoint)
    : result (list (string * client)) ShardError :=
  match l with
  | [] => Ok []
  | s :: l =>
      let? c := ok_or (cl !! ep_name s)
                  (Config ("shard `" +:+ ep_name s +:+ "` has no client")) in
      let? rest := targets cl l in
      Ok ((ep_name s, c) :: rest)
  end.

Fixpoint probe (query : client -> result unit string) (timeout_text : string)
    (deadline : nat) (l : list (string * client)) : result unit ShardError :=
  match l with
  | [] => Ok tt
  | (name, c) :: l =>
      match deadline with
      | O => Err (Database ("shard `" +:+ name +:+ "` health probe timed out after "
                            +:+ timeout_text))
      | S deadline =>
          match query c with
          | Err e => Err (Database ("shard `" +:+ name +:+ "`: " +:+ e))
          | Ok _ => probe query timeout_text deadline l
          end
      end
  end.

Definition check_health (r : ShardRouter) (query : client -> result unit string)
    (timeout_text : string) (deadline : nat) : result unit ShardError :=
  let? _ := validate (catalog r) in
  let? ts := targets (clients r) (concat (map shards (tables (catalog r)))) in
  probe query timeout_text deadline ts.

End Router.
Arguments ShardRouter : clear implicits.
Arguments KeyedClient : clear implicits.
End Router.

Module Scatter.
Import Catalog Router.

Section Scatter.
Context `{JT : JsonText}.

(** *** Order of values *)

Definition then_cmp (a b : comparison) : comparison :=
  match a with Eq => b | _ => a end.

(** [Option<f64>::partial_cmp], [unwrap_or(Equal)]. *)
Definition compare_f64 (a b : option f64) : comparison :=
  match a, b with
  | None, None => Eq
  | None, Some _ => Lt
  | Some _, None => Gt
  | Some x, Some y => match SFcompare x y with Some c => c | None => Eq end
  end.

Definition compare_numbers (a b : Number) : comparison :=
  match number_as_i64 a, number_as_i64 b with
  | Some x, Some y => x ?= y
  | _, _ => compare_f64 (number_as_f64 a) (number_as_f64 b)
  end.

Definition value_rank (v : Value) : Z :=
  match v with
  | VNull => 0 | VBool _ => 1 | VNumber _ => 2 | VString _ => 3 | VArray _ => 4 | VObject _ => 5
  end.

Definition compare_bool (a b : bool) : comparison :=
  match a, b with false, true => Lt | true, false => Gt | _, _ => Eq end.

Definition compare_values (a b : Value) : comparison :=
  match a, b with
  | VNull, VNull => Eq
  | VBool x, VBool y => compare_bool x y
  | VNumber x, VNumber y =>
      then_cmp (compare_numbers x y) (String.compare (number_text x) (number_text y))
  | VString x, VString y => String.compare x y
  | _, _ => then_cmp (value_rank a ?= value_rank b)
              (String.compare (value_text a) (value_text b))
  end.

(** *** Merge *)

Definition entry : Type := Value * nat * Row.

Definition entry_le (a b : entry) : bool :=
  match then_cmp (compare_values a.1.1 b.1.1) (Nat.compare a.1.2 b.1.2) with
  | Gt => false | _ => true
  end.

(** [row.get(column).filter(|v| !v.is_null())]. *)
Definition column (name : string) (r : Row) : option Value :=
  match r !! name with
  | Some v => if is_null v then None else Some v
  | None => None
  end.

Fixpoint keyed_rows (order_by : string) (index : nat) (rows : list Row)
    : result (list entry) ShardError :=
  match rows with
  | [] => Ok []
  | r :: rows =>
      match column order_by r with
      | None => Err (Config ("scatter row is missing or null order_by column `"
                             +:+ order_by +:+ "`"))
      | Some v => let? rest := keyed_rows order_by index rows in Ok ((v, index, r) :: rest)
      end
  end.

Fixpoint collect (dec : nat -> string) (order_by : string) (index : nat)
    (results : list (option (list Row))) : result (list entry) ShardError :=
  match results with
  | [] => Ok []
  | None :: _ => Err (Config ("scatter result missing for shard #" +:+ dec index))
  | Some rows :: results =>
      let? here := keyed_rows order_by index rows in
      let? rest := collect dec order_by (S index) results in
      Ok (here ++ rest)
  end.

Fixpoint dedup (pk : string) (seen : gset string) (l : list entry)
    : result (list entry) ShardError :=
  match l with
  | [] => Ok []
  | e :: l =>
      match column pk e.2 with
      | None => Err (Config ("scatter row is missing or null pk column `" +:+ pk +:+ "`"))
      | Some v =>
          if decide (value_text v ∈ seen) then dedup pk seen l
          else let? rest := dedup pk ({[value_text v]} ∪ seen) l in Ok (e :: rest)
      end
  end.

Definition merge (dec : nat -> string) (order_by pk : string) (offset limit : Z)
    (results : list (option (list Row))) : result (list Row) ShardError :=
  let? ordered := collect dec order_by 0 results in
  let? merged := dedup pk ∅ (sort_by entry_le ordered) in
  Ok (take (Z.to_nat limit) (drop (Z.to_nat offset) (map snd merged))).

(** *** Gathering *)

Record ScatterRequest := {
  req_table : string;
  order_by : string;
  limit : Z;
  offset : Z;
  max_concurrency : Z;
}.

(** A completion: rows of a shard, a failed query, or a task that did not join
    (a panic), with its rendered error. *)
Inductive joined :=
| JoinedRows (index : nat) (rows : list Row)
| JoinedErr (index : nat)
| JoinFailed (message : string).

Definition shard_name (t : ShardTable) (index : nat) : string :=
  match shards t !! index with Some s => ep_name s | None => "" end.

Fixpoint gather (t : ShardTable) (events : list joined)
    (results : list (option (list Row))) (failed : list string)
    : result (list (option (list Row)) * list string) ShardError :=
  match events with
  | [] => Ok (results, failed)
  | JoinedRows index rows :: events => gather t events (<[index := Some rows]> results) failed
  | JoinedErr index :: events => gather t events results (failed ++ [shard_name t index])
  | JoinFailed m :: _ => Err (Config ("scatter task failed: " +:+ m))
  end.

(** After the timer: every shard without rows that is not listed yet failed. *)
Fixpoint mark_unfinished (t : ShardTable) (index : nat)
    (results : list (option (list Row))) (failed : list string) : list string :=
  match results with
  | [] => failed
  | slot :: results =>
      let name := shard_name t index in
      let failed :=
        match slot with
        | None => if decide (name ∈ failed) then failed else failed ++ [name]
        | Some _ => failed
        end in
      mark_unfinished t (S index) results failed
  end.

Definition scatter {client} (dec : nat -> string) (r : ShardRouter client) (req : ScatterRequest)
    (events : list joined) (timed_out : bool) : result (list Row) ShardError :=
  if max_concurrency req =? 0
  then Err (Config "scatter max_concurrency must be at least 1")
  else
    let? t := table (catalog r) (req_table req) in
    let? _ := ShardingConfig.for_each
                (fun s => match clients r !! ep_name s with
                          | Some _ => Ok tt
                          | None => Err (Config ("shard `" +:+ ep_name s +:+ "` has no client"))
                          end) (shards t) in
    let? (results, failed) := gather t events (map (fun _ => None) (shards t)) [] in
    let failed := if timed_out then mark_unfinished t 0 results failed else failed in
    match failed with
    | [] => merge dec (order_by req) (pk t) (offset req) (limit req) results
    | _ => Err (PartialFailure (sort_by str_le failed))
    end.

End Scatter.
End Scatter.

(** ** Lemmas *)

Module RouterFacts.
Import Catalog CatalogFacts Router.

Section Facts.
Context {client : Type} `{JT : JsonText}.

Definition served (c : ShardCatalog) (cl : gmap string client) : Prop :=
  forall t s, t ∈ tables c -> s ∈ shards t -> is_Some (cl !! ep_name s).

Lemma validate_clients_ok c (cl : gmap string client) :
  validate_clients c cl = Ok tt <-> served c cl.
Proof.
  unfold validate_clients, served. rewrite for_each_ok. setoid_rewrite for_each_ok.
  split.
  - intros Hf t s Ht Hs. specialize (Hf t Ht s Hs). destruct (cl !! _); [eauto|done].
  - intros Hf t Ht s Hs. by destruct (Hf t s Ht Hs) as [c' ->].
Qed.

(** A router as [new] and [reload] leave it. *)
Definition router_inv (r : ShardRouter client) : Prop :=
  wf_catalog (catalog r) /\ served (catalog r) (clients r).

Lemma new_inv c (cl : gmap string client) r :
  new c cl = Ok r -> router_inv r /\ catalog r = c /\ clients r = cl.
Proof.
  unfold new. pose proof (validate_ok c) as Hv. pose proof (validate_clients_ok c cl) as Hc.
  destruct (validate c) as [[]|]; simpl; [|done].
  destruct (validate_clients c cl) as [[]|]; simpl; [|done].
  intros. simplify_eq. unfold router_inv; simpl. tauto.
Qed.

Lemma reload_cases (r : ShardRouter client) c :
  (reload r c = ({| catalog := c; clients := clients r |}, Ok tt) /\
   wf_catalog c /\ served c (clients r)) \/
  (exists e, reload r c = (r, Err e) /\ ~ (wf_catalog c /\ served c (clients r))).
Proof.
  unfold reload. pose proof (validate_ok c) as Hv.
  pose proof (validate_clients_ok c (clients r)) as Hc.
  destruct (validate c) as [[]|e]; [|right; exists e; split; [done|]; naive_solver].
  destruct (validate_clients c _) as [[]|e]; [left; tauto|].
  right. exists e. split; [done|]. naive_solver.
Qed.

End Facts.
End RouterFacts.

Module RouterSpec.
Import Catalog CatalogFacts Router RouterFacts.

Section Reload.
Context {client : Type}.

Definition router_init (r : ShardRouter client) : Prop :=
  exists c cl, new c cl = Ok r.

Definition reload_step (r r' : ShardRouter client) : Prop :=
  exists c, r' = (reload r c).1.

Lemma router_inv_inductive : inductive_invariant router_init reload_step router_inv.
Proof.
  split.
  - intros r (c & cl & Hn). by apply new_inv in Hn as [? _].
  - intros r r' Hi (c & ->).
    destruct (reload_cases r c) as [(-> & ? & ?)|(e & -> & _)]; [split|]; done.
Qed.

End Reload.

(** Hot reload is all or nothing: a reload either installs the new catalog,
    which is then well formed with a client for every endpoint, or reports an
    error and leaves the router as it was; the clients never change. *)
Theorem reload_all_or_nothing client (r : ShardRouter client) c :
  let '(r', res) := reload r c in
  clients r' = clients r /\
  (res = Ok tt <-> wf_catalog c /\ served c (clients r)) /\
  (res = Ok tt -> catalog r' = c) /\
  (res <> Ok tt -> r' = r).
Proof.
  destruct (reload_cases r c) as [(-> & ? & ?)|(e & -> & Hn)]; simpl; naive_solver.
Qed.

(** A router built by [new] and changed only by reloads serves every key it
    routes: the lookup neither panics nor fails for want of a client; it fails
    only as [shard_for] does, and otherwise hands out the client of the shard
    [shard_for] chose, bound to the table. *)
Theorem router_serves_every_key client `{JT : JsonText} (r : ShardRouter client) name k :
  reachable router_init reload_step r ->
  match shard_for (catalog r) name k with
  | Err e => for_key_with_shard r name k = Some (Err e)
  | Ok i =>
      exists t s c, table (catalog r) name = Ok t /\ shards t !! i = Some s /\
        clients r !! ep_name s = Some c /\
        for_key_with_shard r name k =
          Some (Ok (ep_name s, {| kc_client := c; kc_table := name |}))
  end.
Proof.
  intros Hr. apply (invariant_reachable _ _ _ _ router_inv_inductive) in Hr as [_ Hs].
  unfold for_key_with_shard. destruct (shard_for _ _ _) as [i|e] eqn:Hi; [|done].
  apply shard_for_bound in Hi as (t & Ht & Hlt & _).
  apply lookup_lt_is_Some_2 in Hlt as [s Hl].
  destruct (Hs t s) as [c Hc].
  { by apply table_ok in Ht as [? _]. } { by eapply list_elem_of_lookup_2. }
  exists t, s, c. split; [done|]. split; [done|]. split; [done|]. by rewrite Ht, Hl, Hc.
Qed.

Definition demo_ep (name : string) : ShardEndpoint := {| ep_name := name; url := None |}.
Definition demo_users : ShardTable :=
  {| tb_name := "users"; key := "uid"; pk := "id"; algorithm := HashMod 2;
     shards := [demo_ep "a"; demo_ep "b"] |}.
Definition demo_router : ShardRouter nat :=
  {| catalog := {| tables := [demo_users] |};
     clients := {[ "a" := 1%nat; "b" := 2%nat ]} |}.

#[local] Instance demo_number : JsonNumber := {|
  Number := Z; number_as_i64 n := Some n; number_is_u64 n := 0 <=? n;
  number_as_f64 n := Some (f64_of_u64 n); number_text n := "" |}.
#[local] Instance demo_text : JsonText := {|
  value_text v := match v with VString s => s | _ => "?" end |}.

Lemma router_serves_every_key_witness :
  match shard_for (catalog demo_router) "users" (VString "bob") with
  | Err e => for_key_with_shard demo_router "users" (VString "bob") = Some (Err e)
  | Ok i =>
      exists t s c, table (catalog demo_router) "users" = Ok t /\ shards t !! i = Some s /\
        clients demo_router !! ep_name s = Some c /\
        for_key_with_shard demo_router "users" (VString "bob") =
          Some (Ok (ep_name s, {| kc_client := c; kc_table := "users" |}))
  end.
Proof.
  apply (router_serves_every_key nat demo_router "users" (VString "bob")).
  apply reachable_refl.
  exists {| tables := [demo_users] |}, {[ "a" := 1%nat; "b" := 2%nat ]}. reflexivity.
Defined.

End RouterSpec.

Module ScatterFacts.
Import Catalog CatalogFacts Router Scatter.

Section Facts.
Context `{JT : JsonText}.

(** *** The order of sortable values

    Integers, strings and booleans are compared as keys: the rank of the type,
    then the integer, then the text. *)

Definition order_key (v : Value) : Z * Z * string :=
  match v with
  | VBool b => (1, Z.b2z b, "")
  | VNumber n => (2, default 0 (number_as_i64 n), number_text n)
  | VString s => (3, 0, s)
  | _ => (0, 0, "")
  end.

Definition sortable (v : Value) : Prop :=
  match v with
  | VBool _ | VString _ => True
  | VNumber n => is_Some (number_as_i64 n)
  | _ => False
  end.

Definition key_cmp (a b : Z * Z * string) : comparison :=
  then_cmp (a.1.1 ?= b.1.1) (then_cmp (a.1.2 ?= b.1.2) (String.compare a.2 b.2)).

Lemma compare_values_key v w :
  sortable v -> sortable w -> compare_values v w = key_cmp (order_key v) (order_key w).
Proof.
  destruct v as [|b|n|s| |], w as [|b'|n'|s'| |]; simpl; try done.
  - intros _ _. by destruct b, b'.
  - intros [z Hz] [z' Hz']. unfold compare_numbers. by rewrite Hz, Hz'.
Qed.

Definition key_le (a b : Z * Z * string * nat) : Prop :=
  a.1.1.1 < b.1.1.1 \/ a.1.1.1 = b.1.1.1 /\
  (a.1.1.2 < b.1.1.2 \/ a.1.1.2 = b.1.1.2 /\
   ((str_le a.1.2 b.1.2 = true /\ a.1.2 <> b.1.2) \/ a.1.2 = b.1.2 /\ (a.2 <= b.2)%nat)).

Lemma str_compare_cases a b :
  match String.compare a b with
  | Lt => str_le a b = true /\ a <> b
  | Eq => a = b
  | Gt => str_le b a = true /\ a <> b
  end.
Proof.
  unfold str_le, String.leb. destruct (String.compare a b) eqn:Hc.
  - by apply String.compare_eq_iff.
  - split; [done|]. intros ->. pose proof (String.compare_antisym b b) as Ha. by rewrite Hc in Ha.
  - rewrite String.compare_antisym, Hc. split; [done|].
    intros ->. pose proof (String.compare_antisym b b) as Ha. by rewrite Hc in Ha.
Qed.

Lemma entry_le_key (a b : entry) :
  sortable a.1.1 -> sortable b.1.1 ->
  entry_le a b = true <-> key_le (order_key a.1.1, a.1.2) (order_key b.1.1, b.1.2).
Proof.
  intros Ha Hb. unfold entry_le. rewrite compare_values_key by done.
  destruct (order_key a.1.1) as [[r z] s], (order_key b.1.1) as [[r' z'] s'].
  unfold key_cmp, key_le; simpl.
  destruct (Z.compare_spec r r'); simpl; [|split; auto|split; [done|]; lia].
  destruct (Z.compare_spec z z'); simpl; [|split; auto|split; [done|]; lia].
  subst. pose proof (str_compare_cases s s') as Hs.
  destruct (String.compare s s'); simpl.
  - subst. assert (Hle : (match Nat.compare a.1.2 b.1.2 with Gt => false | _ => true end) = true
                         <-> (a.1.2 <= b.1.2)%nat)
      by (destruct (Nat.compare_spec a.1.2 b.1.2); split; try done; lia).
    rewrite Hle. split; [by auto 10|].
    intros [|[_ [|[_ [[_ Hne]|[_ ?]]]]]]; try lia; done.
  - split; [intros _|done]. right. split; [done|]. right. split; [done|]. by left.
  - split; [done|]. destruct Hs as [Hs Hne]. intros [|[_ [|[_ [[Hle _]|[He _]]]]]]; try lia; try done.
    destruct Hne. by apply str_le_antisym.
Qed.

Lemma key_le_total a b : key_le a b \/ key_le b a.
Proof.
  unfold key_le. destruct a as [[[r z] s] i], b as [[[r' z'] s'] i']; simpl.
  destruct (Z.lt_trichotomy r r') as [|[->|]]; [by auto| |by auto].
  destruct (Z.lt_trichotomy z z') as [|[->|]]; [by auto| |by auto].
  destruct (decide (s = s')) as [->|Hne].
  - destruct (Nat.le_ge_cases i i'); [left|right]; auto 10.
  - destruct (str_le_total s s'); [left|right]; right; (split; [done|]); right;
      (split; [done|]); left; auto.
Qed.

Lemma key_le_trans a b c : key_le a b -> key_le b c -> key_le a c.
Proof.
  unfold key_le. destruct a as [[[r z] s] i], b as [[[r' z'] s'] i'], c as [[[r'' z''] s''] i''].
  simpl. intros [?|(-> & [?|(-> & H1)])] [?|(-> & [?|(-> & H2)])]; try (left; lia);
    right; (split; [done|]); try (left; lia).
  right. split; [done|].
  destruct H1 as [[H1 Hn1]|[-> H1]], H2 as [[H2 Hn2]|[-> H2]]; [|by auto|by auto|right; split; [done|lia]].
  left. split; [by eapply str_le_trans|]. intros ->. destruct Hn1. by apply str_le_antisym.
Qed.

Definition entry_ok (e : entry) : Prop := sortable e.1.1.

Lemma entry_le_total a b : entry_ok a -> entry_ok b -> entry_le a b = true \/ entry_le b a = true.
Proof. intros Ha Hb. rewrite !entry_le_key by done. apply key_le_total. Qed.

Lemma entry_le_trans a b c :
  entry_ok a -> entry_ok b -> entry_ok c ->
  entry_le a b = true -> entry_le b c = true -> entry_le a c = true.
Proof. intros Ha Hb Hc. rewrite !entry_le_key by done. apply key_le_trans. Qed.

(** *** Merge *)

Definition slot_rows (slot : option (list Row)) : list Row := default [] slot.

(** The columns a merge needs of a row. *)
Definition mergeable (order_by pk : string) (r : Row) : Prop :=
  (exists v, column order_by r = Some v /\ sortable v) /\ is_Some (column pk r).

Definition pk_text (pk : string) (r : Row) : string :=
  match column pk r with Some v => value_text v | None => "" end.

Lemma keyed_rows_total order_by pk i rows :
  Forall (mergeable order_by pk) rows ->
  exists l, keyed_rows order_by i rows = Ok l /\ map snd l = rows /\
            Forall (fun e => entry_ok e /\ column order_by e.2 = Some e.1.1) l.
Proof.
  induction 1 as [|r rows [(v & Hv & Hs) _] _ IH]; simpl.
  - by exists [].
  - rewrite Hv. destruct IH as (l & -> & Hm & Hl). exists ((v, i, r) :: l). simpl.
    split; [done|]. split; [by rewrite Hm|]. by constructor.
Qed.

Lemma collect_total dec order_by pk i results :
  Forall (fun slot => exists rows, slot = Some rows /\ Forall (mergeable order_by pk) rows) results ->
  exists l, collect dec order_by i results = Ok l /\
            map snd l = concat (map slot_rows results) /\
            Forall (fun e => entry_ok e /\ column order_by e.2 = Some e.1.1) l.
Proof.
  intros Hf. revert i. induction Hf as [|slot results (rows & -> & Hr) _ IH]; intros i; simpl.
  - by exists [].
  - destruct (keyed_rows_total order_by pk i rows Hr) as (l1 & -> & Hm1 & Hl1).
    destruct (IH (S i)) as (l2 & -> & Hm2 & Hl2). simpl. exists (l1 ++ l2).
    split; [done|]. split; [|by apply Forall_app].
    etransitivity; [apply map_app|]. f_equal; [exact Hm1 | exact Hm2].
Qed.

Lemma collect_slots dec order_by i results l :
  collect dec order_by i results = Ok l -> Forall is_Some results.
Proof.
  revert i l. induction results as [|[rows|] results IH]; intros i l; simpl; [done| |done].
  destruct (keyed_rows _ _ _); simpl; [|done].
  destruct (collect _ _ _ _) eqn:Hc; simpl; [|done]. intros _. constructor; eauto.
Qed.

Lemma dedup_total pk seen l :
  Forall (fun e : entry => is_Some (column pk e.2)) l ->
  exists out, dedup pk seen l = Ok out /\ sublist out l /\
    NoDup (map (fun e : entry => pk_text pk e.2) out) /\
    (forall e, e ∈ out -> pk_text pk e.2 ∉ seen) /\
    (forall e, e ∈ l -> pk_text pk e.2 ∈ seen \/
                        exists e', e' ∈ out /\ pk_text pk e'.2 = pk_text pk e.2).
Proof.
  intros Hf. revert seen. induction Hf as [|e l [v Hv] _ IH]; intros seen; simpl.
  - exists []. split; [done|]. split; [done|]. split; [constructor|]. set_solver.
  - rewrite Hv. assert (Hpk : pk_text pk e.2 = value_text v) by (unfold pk_text; by rewrite Hv).
    case_decide as Hd.
    + destruct (IH seen) as (out & -> & Hsub & Hn & Hout & Hl). exists out.
      split; [done|]. split; [by constructor|]. split; [done|]. split; [done|].
      intros e' [->|He']%elem_of_cons; [left; by rewrite Hpk|auto].
    + destruct (IH ({[value_text v]} ∪ seen)) as (out & -> & Hsub & Hn & Hout & Hl). simpl.
      exists (e :: out). split; [done|]. split; [by constructor|]. split; [|split].
      * simpl. constructor; [|done]. rewrite Hpk. intros Hin.
        apply list_elem_of_fmap in Hin as (e' & He' & Hin). specialize (Hout _ Hin). set_solver.
      * intros e' [->|He']%elem_of_cons; [by rewrite Hpk|]. specialize (Hout _ He'). set_solver.
      * intros e' [->|He']%elem_of_cons; [right; exists e; set_solver|].
        destruct (Hl _ He') as [Hin|(e2 & ? & ?)]; [|right; exists e2; set_solver].
        apply elem_of_union in Hin as [Hin|Hin]; [|by left]. right. exists e.
        rewrite Hpk. set_solver.
Qed.

(** *** Gathering in closed form *)

Definition event_index (e : joined) : nat :=
  match e with JoinedRows i _ | JoinedErr i => i | JoinFailed _ => 0 end.

Definition joined_ok (e : joined) : Prop :=
  match e with JoinFailed _ => False | _ => True end.

Definition store_event (results : list (option (list Row))) (e : joined)
    : list (option (list Row)) :=
  match e with JoinedRows i rows => <[i := Some rows]> results | _ => results end.

Definition failed_names (t : ShardTable) (events : list joined) : list string :=
  omap (fun e => match e with JoinedErr i => Some (shard_name t i) | _ => None end) events.

Lemma gather_closed t events results failed :
  Forall joined_ok events ->
  gather t events results failed =
    Ok (foldl store_event results events, failed ++ failed_names t events).
Proof.
  intros Hf. revert results failed. induction Hf as [|e events He _ IH]; intros results failed.
  - simpl. by rewrite app_nil_r.
  - destruct e; simpl; rewrite ?IH; try done. by rewrite <- app_assoc.
Qed.

Lemma gather_ok_inv t events results failed out :
  gather t events results failed = Ok out -> Forall joined_ok events.
Proof.
  revert results failed. induction events as [|[] events IH]; intros results failed; simpl;
    [constructor|..|done]; intros Hg; constructor; eauto; done.
Qed.

Lemma store_events_perm events events' results :
  events ≡ₚ events' -> NoDup (map event_index events) -> Forall joined_ok events ->
  foldl store_event results events = foldl store_event results events'.
Proof.
  intros Hp. revert results. induction Hp as [|e l l' Hp IH|e e' l|l1 l2 l3 Hp1 IH1 Hp2 IH2];
    intros results Hn Hf; simpl in *.
  - done.
  - inv Hn. inv Hf. by apply IH.
  - f_equal. apply NoDup_cons in Hn as [Hn _].
    destruct e as [i rows|i|m], e' as [j rows'|j|m']; simpl in *; try done.
    apply list_insert_insert_ne. intros ->. apply Hn, elem_of_cons. by left.
  - rewrite IH1 by done. apply IH2; [by rewrite <- Hp1 | by rewrite <- Hp1].
Qed.

Lemma failed_names_perm t events events' :
  events ≡ₚ events' -> failed_names t events ≡ₚ failed_names t events'.
Proof. apply omap_Permutation. Qed.

Lemma mark_unfinished_perm t i results f1 f2 :
  f1 ≡ₚ f2 -> mark_unfinished t i results f1 ≡ₚ mark_unfinished t i results f2.
Proof.
  revert i f1 f2. induction results as [|[rows|] results IH]; intros i f1 f2 Hp; simpl; [done|auto|].
  apply IH. destruct (decide (shard_name t i ∈ f1)) as [Hin|Hin].
  - rewrite decide_True by (by rewrite <- Hp). done.
  - rewrite decide_False by (by rewrite <- Hp). by rewrite Hp.
Qed.

Lemma mark_unfinished_incl t i results f x : x ∈ f -> x ∈ mark_unfinished t i results f.
Proof.
  revert i f. induction results as [|[rows|] results IH]; intros i f Hx; simpl; [done|auto|].
  apply IH. case_decide; set_solver.
Qed.

Lemma mark_unfinished_nil t i results :
  mark_unfinished t i results [] = [] -> Forall is_Some results.
Proof.
  revert i. induction results as [|[rows|] results IH]; intros i; simpl; [done| |].
  - intros Hm. constructor; eauto.
  - intros Hm. exfalso.
    assert (Hx : shard_name t i ∈ mark_unfinished t (S i) results [shard_name t i])
      by (apply mark_unfinished_incl; set_solver).
    rewrite Hm in Hx. set_solver.
Qed.

(** A slot is filled only by the completion of its own task. *)
Lemma store_events_lookup events results i rows :
  foldl store_event results events !! i = Some (Some rows) ->
  results !! i = Some (Some rows) \/ JoinedRows i rows ∈ events.
Proof.
  revert results. induction events as [|e events IH]; intros results; simpl; [by left|].
  intros [Hl|Hl]%IH; [|right; set_solver]. destruct e as [j rows'|j|m]; simpl in Hl; [|by left..].
  destruct (decide (i = j)) as [->|Hne]; [|rewrite list_lookup_insert_ne in Hl by done; by left].
  destruct (decide (j < length results)%nat).
  - rewrite list_lookup_insert_eq in Hl by done. simplify_eq. right. set_solver.
  - rewrite list_insert_ge in Hl by lia. by left.
Qed.

Lemma store_events_length events results :
  length (foldl store_event results events) = length results.
Proof.
  revert results. induction events as [|[] events IH]; intros results; simpl; rewrite ?IH; try done.
  by rewrite length_insert.
Qed.

End Facts.
End ScatterFacts.

Module ScatterSpec.
Import Catalog CatalogFacts Router Scatter ScatterFacts RouterSpec.

(** C14. The answer of a scatter does not depend on the order in which the shards
    answer: two runs with the same completions, each task completing once, return
    the same rows or the same error, also when the timer cuts both short. *)
Theorem scatter_order_independent client `{JT : JsonText} dec (r : ShardRouter client) req
    events events' timed_out :
  events ≡ₚ events' -> NoDup (map event_index events) -> Forall joined_ok events ->
  scatter dec r req events timed_out = scatter dec r req events' timed_out.
Proof.
  intros Hp Hn Hf. assert (Hf' : Forall joined_ok events') by (by rewrite <- Hp).
  unfold scatter. destruct (_ =? 0); [done|]. destruct (table _ _) as [t|]; [|done]. simpl.
  destruct (ShardingConfig.for_each _ _) as [[]|]; [|done]. simpl.
  rewrite !gather_closed by done. simpl.
  rewrite (store_events_perm events events') by done.
  set (res := foldl _ _ events').
  pose proof (failed_names_perm t _ _ Hp) as Hfn.
  assert (Hff : forall f1 f2 : list string, f1 ≡ₚ f2 ->
    (match f1 with [] => merge dec (order_by req) (pk t) (offset req) (limit req) res
                 | _ => Err (PartialFailure (sort_by str_le f1)) end) =
    (match f2 with [] => merge dec (order_by req) (pk t) (offset req) (limit req) res
                 | _ => Err (PartialFailure (sort_by str_le f2)) end)).
  { intros f1 f2 Hf12.
    assert (Hs : sort_by str_le f1 = sort_by str_le f2).
    { apply (sort_by_unique _ (fun _ => True)); [intros; apply str_le_total
        |intros x y z _ _ _; apply str_le_trans|by apply Forall_true
        |intros; by apply str_le_antisym|done]. }
    destruct f1, f2; try done; [by apply Permutation_nil_l in Hf12
      |by symmetry in Hf12; apply Permutation_nil_l in Hf12|by rewrite Hs]. }
  apply Hff. destruct timed_out; [by apply mark_unfinished_perm | done].
Qed.

#[local] Existing Instance RouterSpec.demo_number.
#[local] Existing Instance RouterSpec.demo_text.

Definition demo_req : ScatterRequest :=
  {| req_table := "users"; order_by := "id"; limit := 10; offset := 0; max_concurrency := 4 |}.
Definition demo_row (id : string) : Row := {[ "id" := VString id ]}.
Definition demo_events : list joined :=
  [JoinedRows 1 [demo_row "2"; demo_row "3"]; JoinedRows 0 [demo_row "1"; demo_row "3"]].

Lemma scatter_order_independent_witness :
  scatter (fun _ => "") demo_router demo_req demo_events false =
  scatter (fun _ => "") demo_router demo_req (rev demo_events) false.
Proof.
  apply (scatter_order_independent nat (fun _ => "") demo_router demo_req).
  - apply Permutation_swap.
  - apply NoDup_cons. split; [set_solver|]. apply NoDup_singleton.
  - repeat constructor.
Defined.

(** No partial answer: when a scatter returns rows, no query failed, no task
    was lost, and every shard of the table delivered its rows. *)
Theorem scatter_all_or_nothing client `{JT : JsonText} dec (r : ShardRouter client) req
    events timed_out rows :
  scatter dec r req events timed_out = Ok rows ->
  exists t, table (catalog r) (req_table req) = Ok t /\
    Forall joined_ok events /\ failed_names t events = [] /\
    forall i, (i < length (shards t))%nat -> exists rows_i, JoinedRows i rows_i ∈ events.
Proof.
  unfold scatter. destruct (_ =? 0); [done|]. destruct (table _ _) as [t|]; simpl; [|done].
  destruct (ShardingConfig.for_each _ _) as [[]|]; simpl; [|done].
  destruct (gather t events _ []) as [[results failed]|] eqn:Hg; simpl; [|done].
  pose proof (gather_ok_inv _ _ _ _ _ Hg) as Hf. rewrite gather_closed in Hg by done.
  simplify_eq/=. set (res := foldl _ _ events). intros Hm. exists t. split; [done|]. split; [done|].
  assert (Hall : failed_names t events = [] /\ Forall is_Some res).
  { destruct timed_out.
    - destruct (mark_unfinished t 0 res (failed_names t events)) eqn:Hu; [|done].
      assert (Hn : failed_names t events = []).
      { destruct (failed_names t events) as [|x l] eqn:He; [done|]. exfalso.
        assert (Hx : x ∈ mark_unfinished t 0 res (x :: l))
          by (apply mark_unfinished_incl; set_solver).
        rewrite Hu in Hx. set_solver. }
      split; [done|]. rewrite Hn in Hu. by apply mark_unfinished_nil in Hu.
    - destruct (failed_names t events); [|done]. split; [done|].
      unfold merge in Hm. destruct (collect _ _ _ _) eqn:Hc; simpl in Hm; [|done].
      by apply collect_slots in Hc. }
  destruct Hall as [Hn Hs]. split; [done|]. intros i Hi.
  destruct (lookup_lt_is_Some_2 res i) as [slot Hl];
    [subst res; by rewrite store_events_length, length_map|].
  rewrite Forall_lookup in Hs. destruct (Hs _ _ Hl) as [rows_i ->]. exists rows_i.
  apply store_events_lookup in Hl as [Hl|]; [|done]. exfalso.
  rewrite list_lookup_fmap in Hl. by destruct (shards t !! i).
Qed.

Lemma scatter_all_or_nothing_witness :
  exists t, table (catalog demo_router) "users" = Ok t /\
    Forall joined_ok demo_events /\ failed_names t demo_events = [] /\
    forall i, (i < length (shards t))%nat -> exists rows_i, JoinedRows i rows_i ∈ demo_events.
Proof.
  apply (scatter_all_or_nothing nat (fun _ => "") demo_router demo_req demo_events false
           [demo_row "1"; demo_row "2"; demo_row "3"]).
  reflexivity.
Defined.

(** C15. Merging: when every row carries a primary key and a sortable order column
    (an integer, a string or a boolean), the pages are windows of one list that
    depends on neither offset nor limit; it is sorted by the order column with the
    shard index as tie-break, holds every primary key of every shard exactly once,
    and nothing but rows of the shards. *)
Theorem merge_pages_of_sorted_union `{JT : JsonText} dec order_by pk results :
  Forall (fun slot => exists rows, slot = Some rows /\
            Forall (mergeable order_by pk) rows) results ->
  exists full : list entry,
    (forall offset limit, merge dec order_by pk offset limit results =
       Ok (take (Z.to_nat limit) (drop (Z.to_nat offset) (map snd full)))) /\
    StronglySorted (fun a b => entry_le a b = true) full /\
    NoDup (map (pk_text pk) (map snd full)) /\
    (forall r, r ∈ map snd full -> r ∈ concat (map slot_rows results)) /\
    (forall r, r ∈ concat (map slot_rows results) ->
       exists r', r' ∈ map snd full /\ pk_text pk r' = pk_text pk r).
Proof.
  intros Hr. destruct (collect_total dec order_by pk 0 results Hr) as (l & Hc & Hm & Hl).
  assert (Hpk : Forall (fun e : entry => is_Some (column pk e.2)) l).
  { apply Forall_forall. intros e He.
    assert (Hin : e.2 ∈ concat (map slot_rows results))
      by (rewrite <- Hm; by apply (list_elem_of_fmap_2 snd)).
    rewrite <- Hm in Hin. clear -Hr Hm Hin.
    rewrite Hm in Hin. apply list_elem_of_In, List.in_concat in Hin as (rows & Hrows & Hin).
    apply List.in_map_iff in Hrows as (slot & <- & Hslot).
    rewrite Forall_forall in Hr. apply list_elem_of_In in Hslot.
    destruct (Hr _ Hslot) as (rows & -> & HF). rewrite Forall_forall in HF.
    apply list_elem_of_In in Hin. by destruct (HF _ Hin). }
  set (sorted := sort_by entry_le l).
  assert (Hpks : Forall (fun e : entry => is_Some (column pk e.2)) sorted)
    by (unfold sorted; by rewrite sort_by_perm).
  destruct (dedup_total pk ∅ sorted Hpks) as (full & Hd & Hsub & Hn & _ & Hcov).
  exists full. split; [|split; [|split; [|split]]].
  - intros offset limit. unfold merge. rewrite Hc. simpl. fold sorted. by rewrite Hd.
  - eapply StronglySorted_sublist; [exact Hsub|].
    apply (sort_by_sorted entry_le entry_ok); [apply entry_le_total|apply entry_le_trans|].
    eapply Forall_impl; [exact Hl|]. by intros e [? _].
  - by rewrite map_map.
  - intros r Hin. apply list_elem_of_fmap in Hin as (e & -> & He). rewrite <- Hm.
    apply list_elem_of_fmap_2. rewrite <- (sort_by_perm entry_le l). fold sorted.
    eapply elem_of_submseteq; [exact He|]. by apply sublist_submseteq.
  - intros r Hin. rewrite <- Hm in Hin. apply list_elem_of_fmap in Hin as (e & -> & He).
    rewrite <- (sort_by_perm entry_le l) in He. fold sorted in He.
    destruct (Hcov e He) as [Hbad|(e' & He' & Heq)]; [set_solver|].
    exists e'.2. split; [by apply (list_elem_of_fmap_2 snd)|done].
Qed.

Lemma merge_pages_of_sorted_union_witness :
  exists full : list entry,
    (forall offset limit, merge (fun _ => "") "id" "id" offset limit
         [Some [demo_row "1"; demo_row "3"]; Some [demo_row "2"; demo_row "3"]] =
       Ok (take (Z.to_nat limit) (drop (Z.to_nat offset) (map snd full)))) /\
    StronglySorted (fun a b => entry_le a b = true) full /\
    NoDup (map (pk_text "id") (map snd full)) /\
    (forall r, r ∈ map snd full ->
       r ∈ [demo_row "1"; demo_row "3"; demo_row "2"; demo_row "3"]) /\
    (forall r, r ∈ [demo_row "1"; demo_row "3"; demo_row "2"; demo_row "3"] ->
       exists r', r' ∈ map snd full /\ pk_text "id" r' = pk_text "id" r).
Proof.
  apply (merge_pages_of_sorted_union (fun _ => "") "id" "id"
           [Some [demo_row "1"; demo_row "3"]; Some [demo_row "2"; demo_row "3"]]).
  repeat constructor; eexists; (split; [reflexivity|]); repeat constructor; simpl;
    try (eexists; split; [reflexivity|exact I]); eexists; reflexivity.
Defined.

End ScatterSpec.

Module ScatterMixed.
Import Scatter.

(** *** The comparator on mixed numbers

    Two integers beyond 2^53 and a float between them. *)
Inductive mixed := MInt (z : Z) | MFloat (z : Z) (text : string).
#[local] Instance mixed_number : JsonNumber := {|
  Number := mixed;
  number_as_i64 n := match n with MInt z => Some z | MFloat _ _ => None end;
  number_is_u64 n := match n with MInt z => 0 <=? z | MFloat _ _ => false end;
  number_as_f64 n := match n with MInt z | MFloat z _ => Some (f64_of_u64 z) end;
  number_text n := match n with MInt z => pretty.pretty z | MFloat _ s => s end |}.
#[local] Instance mixed_text : JsonText := {| value_text _ := "" |}.

Definition mixed_a : Value := @VNumber mixed_number (MInt (-9007199254740993)).
Definition mixed_b : Value := @VNumber mixed_number (MFloat (-9007199254740992) "-9007199254740992.0").
Definition mixed_c : Value := @VNumber mixed_number (MInt (-9007199254740992)).

(** The comparator of the merge is not an order on all JSON numbers: there
    are two integers and a float, correctly converted and printed, that it puts
    in a cycle [a < c < b < a]. *)
Theorem compare_values_cycle :
  compare_values mixed_a mixed_c = Lt /\
  compare_values mixed_c mixed_b = Lt /\
  compare_values mixed_b mixed_a = Lt.
Proof. vm_compute. done. Qed.

End ScatterMixed.
