(* ===== verification/Routing.v ===== *)
(** * Read/write routing over guarded endpoints ([ecat-data])

    [src/ecat-data/src/breaker.rs] ([Module Guard]: an executor behind a circuit breaker)
    and [routing.rs] ([Module Routing]: writes to the primary, reads round robin over the
    replicas whose breaker is not open).

    The breaker is the one of [CircuitBreaker].  Backends act on one outside world [W]:
    a client is what its operations do to it.  A call is a sequence of breaker sections
    and backend calls; calls run one after the other, every clock read advances [t]. *)

From S2P Require Import Prelude Json Dialect Rdbms CircuitBreaker.

Local Open Scope Z_scope.
Local Open Scope ecat_scope.

Module Guard.
Import Breaker Rdbms.

(** A refused call did not reach the backend; the backend's own errors pass. *)
Definition map_breaker_error (e : BreakerError RdbmsError) : RdbmsError :=
  match e with
  | InnerError e => e
  | BreakerOpen => Connection "circuit breaker is open"
  | ProbesExhausted => Connection "circuit breaker: too many probes"
  end.

Section Guarded.
Context `{JN : JsonNumber} {W Tx : Type}.
Context (clk : nat -> Z) (warn_enabled : bool) (config : BreakerConfig).

(** [CircuitBreakerExecutor], and [Endpoint] of the router: a client and its own breaker. *)
Record Guarded := { client : RdbmsClient W Tx; breaker : Inner }.

Definition guard (c : RdbmsClient W Tx) (t : nat) : Guarded * nat :=
  let '(b, t) := Breaker.new clk config t in ({| client := c; breaker := b |}, t).

(** Every operation goes through the breaker. *)
Definition perform (g : Guarded) (r : Request) (t : nat) (w : W)
    : result Reply RdbmsError * Guarded * nat * W :=
  let '(res, b, t, w) :=
    call clk warn_enabled config (None : option (Reply -> bool)) (breaker g) t (perform_ (client g) r) w in
  (map_err map_breaker_error res, {| client := client g; breaker := b |}, t, w).

(** Transactions do not. *)
Definition transaction (g : Guarded) (w : W) : result Tx RdbmsError * W := begin_ (client g) w.

(** [is_none_or]: an unknown lag does not disqualify. *)
Definition lag_ok (g : Guarded) (max_lag : option Z) (w : W) : bool :=
  match max_lag with
  | Some m => match replica_lag (client g) w with Some lag => lag <=? m | None => true end
  | None => true
  end.

Definition is_available (g : Guarded) (max_lag : option Z) (t : nat) (w : W) : bool * nat :=
  let '(s, t) := effective_state clk config (breaker g) t in
  (if decide (s = Open) then false else lag_ok g max_lag w, t).

End Guarded.
End Guard.

Module Routing.
Import Breaker Rdbms Guard.

Section Router.
Context `{JN : JsonNumber} {W Tx : Type}.
Context (clk : nat -> Z) (warn_enabled : bool) (config : BreakerConfig).

Local Abbreviation Endpoint := (Guarded (W:=W) (Tx:=Tx)).

Record RdbmsRouting := {
  primary : Endpoint;
  replicas : list Endpoint;
  next : Z;
  fallback : bool;
  max_replica_lag : option Z;
}.

Fixpoint guard_all (l : list (RdbmsClient W Tx)) (t : nat) : list Endpoint * nat :=
  match l with
  | [] => ([], t)
  | c :: l =>
      let '(g, t) := guard clk config c t in
      let '(gs, t) := guard_all l t in
      (g :: gs, t)
  end.

Definition with_breaker_config (p : RdbmsClient W Tx) (l : list (RdbmsClient W Tx)) (t : nat)
    : RdbmsRouting * nat :=
  let '(p, t) := guard clk config p t in
  let '(gs, t) := guard_all l t in
  ({| primary := p; replicas := gs; next := 0; fallback := true; max_replica_lag := None |}, t).

Definition fallback_to_primary (yes : bool) (q : RdbmsRouting) : RdbmsRouting :=
  {| primary := primary q; replicas := replicas q; next := next q; fallback := yes;
     max_replica_lag := max_replica_lag q |}.

Definition set_max_replica_lag (lag : Z) (q : RdbmsRouting) : RdbmsRouting :=
  {| primary := primary q; replicas := replicas q; next := next q; fallback := fallback q;
     max_replica_lag := Some lag |}.

(** [(start + i) % n]. *)
Definition slot (start : Z) (n i : nat) : nat := Z.to_nat (wrap 64 (start + Z.of_nat i) mod Z.of_nat n).

(** [for i in 0..n]: [i] is where the scan is, [todo] how much is left. *)
Fixpoint scan (l : list Endpoint) (max_lag : option Z) (start : Z) (i todo : nat) (t : nat) (w : W)
    : option nat * nat :=
  match todo with
  | O => (None, t)
  | S todo =>
      let j := slot start (length l) i in
      match l !! j with
      | None => (None, t)
      | Some g =>
          let '(up, t) := is_available clk config g max_lag t w in
          if up then (Some j, t) else scan l max_lag start (S i) todo t w
      end
  end.

(** Without replicas the counter stays. *)
Definition pick_replica (q : RdbmsRouting) (t : nat) (w : W) : option nat * RdbmsRouting * nat :=
  match replicas q with
  | [] => (None, q, t)
  | l =>
      let '(j, t) := scan l (max_replica_lag q) (next q) 0 (length l) t w in
      (j, {| primary := primary q; replicas := l; next := u64_add (next q) 1; fallback := fallback q;
             max_replica_lag := max_replica_lag q |}, t)
  end.

Definition set_primary (g : Endpoint) (q : RdbmsRouting) : RdbmsRouting :=
  {| primary := g; replicas := replicas q; next := next q; fallback := fallback q;
     max_replica_lag := max_replica_lag q |}.
Definition set_replica (j : nat) (g : Endpoint) (q : RdbmsRouting) : RdbmsRouting :=
  {| primary := primary q; replicas := <[j := g]> (replicas q); next := next q; fallback := fallback q;
     max_replica_lag := max_replica_lag q |}.

Definition on_primary (q : RdbmsRouting) (r : Request) (t : nat) (w : W)
    : result Reply RdbmsError * RdbmsRouting * nat * W :=
  let '(res, g, t, w) := perform clk warn_enabled config (primary q) r t w in
  (res, set_primary g q, t, w).

(** [query] and [query_with]. *)
Definition read (q : RdbmsRouting) (r : Request) (t : nat) (w : W)
    : result Reply RdbmsError * RdbmsRouting * nat * W :=
  let '(j, q, t) := pick_replica q t w in
  match j ≫= (fun j => g ← replicas q !! j; Some (j, g)) with
  | Some (j, g) =>
      let '(res, g, t, w) := perform clk warn_enabled config g r t w in
      (res, set_replica j g q, t, w)
  | None => if fallback q then on_primary q r t w else (Err NoAvailableReplica, q, t, w)
  end.

Definition is_read (r : Request) : bool :=
  match r with Query _ | QueryWith _ _ => true | _ => false end.

(** The router as a [SqlExecutor]. *)
Definition route (q : RdbmsRouting) (r : Request) (t : nat) (w : W)
    : result Reply RdbmsError * RdbmsRouting * nat * W :=
  if is_read r then read q r t w else on_primary q r t w.

(** [PrimaryOnly]. *)
Definition route_primary_only (q : RdbmsRouting) (r : Request) (t : nat) (w : W)
    : result Reply RdbmsError * RdbmsRouting * nat * W := on_primary q r t w.

Definition route_transaction (q : RdbmsRouting) (w : W) : result Tx RdbmsError * W :=
  transaction (primary q) w.

Definition route_dialect (q : RdbmsRouting) : Dialect := dialect_ (client (primary q)).

End Router.
End Routing.
