(* ===== verification/RoutingSpec.v ===== *)
(** * What the router promises

    Writes reach the primary alone; a read is served by the first available replica in
    rotation, which its breaker does not refuse; a recovered replica is read again; reads
    are spread evenly.  And a gap: a replica whose probes are out is not skipped. *)

From S2P Require Import Prelude Json Dialect Rdbms ShardCatalog CircuitBreaker Routing.

Local Open Scope Z_scope.
Local Open Scope ecat_scope.

Module RoutingFacts.
Import Breaker Rdbms Guard Routing.

Section Facts.
Context `{JN : JsonNumber} {W Tx : Type}.
Context (clk : nat -> Z) (warn_enabled : bool) (config : BreakerConfig).

Local Abbreviation Endpoint := (Guarded (W:=W) (Tx:=Tx)).
Local Abbreviation Router := (RdbmsRouting (W:=W) (Tx:=Tx)).
Local Abbreviation available g m t w := (is_available clk config (g : Endpoint) m t w).1.

(** *** One guarded call *)

(** The backend is asked once, or not at all and then the caller gets an error. *)
Lemma perform_cases (g : Endpoint) r t (w : W) res g' t' w' :
  perform clk warn_enabled config g r t w = (res, g', t', w') ->
  client g' = client g /\
  ((perform_ (client g) r w = (res, w')) \/
   (w' = w /\ breaker g' = breaker g /\ exists m, res = Err (Connection m))).
Proof.
  unfold perform, call. destruct (enter clk config (breaker g) t) as [[a b] t1] eqn:He.
  assert (Hb : forall e, a = Rejected e -> b = breaker g).
  { unfold enter in He. intros e ->. repeat case_match; by simplify_eq. }
  destruct a as [[| |[]]|p].
  - intros [= <- <- <- <-]. split; [done|]. right. rewrite (Hb _ eq_refl). by split_and!; [..|eexists].
  - intros [= <- <- <- <-]. split; [done|]. right. rewrite (Hb _ eq_refl). by split_and!; [..|eexists].
  - destruct (perform_ (client g) r w) as [v w1] eqn:Hp. destruct (finish _ _ _ _ _ _ _) as [b' t2].
    intros [= <- <- <- <-]. split; [done|]. left. by destruct v.
Qed.

Lemma perform_ok (g : Endpoint) r t (w : W) v g' t' w' :
  perform clk warn_enabled config g r t w = (Ok v, g', t', w') ->
  perform_ (client g) r w = (Ok v, w').
Proof. intros H. apply perform_cases in H as [_ [H|(_ & _ & m & H)]]; [done|discriminate]. Qed.

(** *** Availability *)

Context (clk_mono : forall a b, (a <= b)%nat -> clk a <= clk b).

Lemma is_available_tick (g : Endpoint) m t (w : W) up t' :
  is_available clk config g m t w = (up, t') -> (t <= t')%nat.
Proof.
  unfold is_available, effective_state. destruct (opened_at (breaker g)); intros; simplify_eq/=; lia.
Qed.

(** An available endpoint is not refused for being open, now or later. *)
Lemma available_not_refused (g : Endpoint) m t (w : W) :
  available g m t w = true ->
  forall t1 b t2, (t <= t1)%nat -> enter clk config (breaker g) t1 <> (Rejected BreakerOpen, b, t2).
Proof.
  unfold is_available, effective_state, enter, Window.elapsed. intros Ha t1 b t2 Ht He.
  destruct (state (breaker g)) eqn:Hs; [done| |by destruct (_ <=? _)].
  destruct (opened_at (breaker g)) as [a|]; [|done].
  destruct (open_duration config <=? sat_sub (clk t1) a) eqn:Hc; [done|].
  destruct (open_duration config <=? sat_sub (clk t) a) eqn:Hc0; [|done].
  apply Z.leb_le in Hc0. apply Z.leb_gt in Hc. specialize (clk_mono t t1 Ht).
  unfold sat_sub in *. lia.
Qed.

Lemma not_open_available (g : Endpoint) t (w : W) :
  state (breaker g) <> Open -> is_available clk config g None t w = (true, match opened_at (breaker g) with Some _ => S t | None => t end).
Proof.
  intros Hs. unfold is_available, effective_state. rewrite bool_decide_false by done.
  by destruct (opened_at _); cbn [andb]; case_decide.
Qed.

Lemma cooled_available (g : Endpoint) a t (w : W) :
  state (breaker g) = Open -> opened_at (breaker g) = Some a ->
  open_duration config <= sat_sub (clk t) a -> is_available clk config g None t w = (true, S t).
Proof.
  intros Hs Ha Hc. unfold is_available, effective_state, Window.elapsed.
  rewrite Ha, bool_decide_true by done. replace (_ <=? _) with true by lia.
  cbn [andb]. by case_decide.
Qed.

(** *** The rotation *)

Lemma slot_small start n i :
  0 <= start -> start + Z.of_nat n <= 2 ^ 64 -> (i < n)%nat ->
  slot start n i = Z.to_nat ((start + Z.of_nat i) mod Z.of_nat n).
Proof. intros. unfold slot. rewrite wrap_small by lia. done. Qed.

Lemma slot_lt start n i : (0 < n)%nat -> (slot start n i < n)%nat.
Proof.
  intros. unfold slot. pose proof (Z.mod_pos_bound (wrap 64 (start + Z.of_nat i)) (Z.of_nat n)). lia.
Qed.

Lemma slot_cover start n j :
  0 <= start -> start + Z.of_nat n <= 2 ^ 64 -> (j < n)%nat ->
  exists i, (i < n)%nat /\ slot start n i = j.
Proof.
  intros Hs Hn Hj. exists (Z.to_nat ((Z.of_nat j - start) mod Z.of_nat n)).
  pose proof (Z.mod_pos_bound (Z.of_nat j - start) (Z.of_nat n)) as Hb.
  split; [lia|]. rewrite slot_small by lia. rewrite Z2Nat.id by lia.
  rewrite Zplus_mod_idemp_r. replace (start + (Z.of_nat j - start)) with (Z.of_nat j) by lia.
  rewrite Z.mod_small by lia. lia.
Qed.

Lemma rotation_inj s n i j :
  (i < n)%nat -> (j < n)%nat ->
  (s + Z.of_nat i) mod Z.of_nat n = (s + Z.of_nat j) mod Z.of_nat n -> i = j.
Proof.
  intros Hi Hj H. assert (Hd : (Z.of_nat i - Z.of_nat j) mod Z.of_nat n = 0).
  { replace (Z.of_nat i - Z.of_nat j) with ((s + Z.of_nat i) - (s + Z.of_nat j)) by lia.
    rewrite Zminus_mod, H, Z.sub_diag. apply Zmod_0_l. }
  apply Z.mod_divide in Hd as [k Hk]; [|lia]. assert (k = 0) by nia. lia.
Qed.

(** The [k]-th in rotation was down when the scan looked at it. *)
Definition down (l : list Endpoint) (m : option Z) (start : Z) (t t' : nat) (w : W) (k : nat) : Prop :=
  forall g, l !! slot start (length l) k = Some g ->
  exists t1, (t <= t1 <= t')%nat /\ available g m t1 w = false.

Lemma down_weaken l m start t1 t2 t t' (w : W) k :
  (t <= t1)%nat -> (t2 <= t')%nat -> down l m start t1 t2 w k -> down l m start t t' w k.
Proof. intros H1 H2 Hd g Hg. destruct (Hd g Hg) as (t3 & ? & ?). exists t3. split; [lia|done]. Qed.

(** A scan finds the first available slot, the ones before it being down. *)
Lemma scan_spec (l : list Endpoint) m start i todo t (w : W) j t' :
  (0 < length l)%nat -> scan clk config l m start i todo t w = (j, t') ->
  (t <= t')%nat /\
  match j with
  | Some j =>
      exists k g t1, (i <= k < i + todo)%nat /\ slot start (length l) k = j /\ l !! j = Some g /\
        (t <= t1 <= t')%nat /\ available g m t1 w = true /\
        forall k', (i <= k' < k)%nat -> down l m start t t' w k'
  | None => forall k', (i <= k' < i + todo)%nat -> down l m start t t' w k'
  end.
Proof.
  intros Hl. revert i t j t'. induction todo as [|todo IH]; intros i t j t' H; simpl in H.
  { simplify_eq. split; [lia|]. intros. lia. }
  destruct (l !! slot start (length l) i) as [g|] eqn:Hg.
  2: { apply lookup_ge_None in Hg. pose proof (slot_lt start (length l) i Hl). lia. }
  destruct (is_available clk config g m t w) as [up t1] eqn:Ha. pose proof (is_available_tick _ _ _ _ _ _ Ha).
  destruct up.
  - injection H as <- <-. split; [done|]. exists i, g, t. split; [lia|]. split; [done|]. split; [done|].
    split; [lia|]. split; [by rewrite Ha|]. intros. lia.
  - apply IH in H as [Ht H].
    assert (Hi : down l m start t t' w i).
    { intros g' Hg'. rewrite Hg in Hg'. injection Hg' as <-. exists t. rewrite Ha. split; [lia|done]. }
    split; [lia|]. destruct j as [j|].
    + destruct H as (k & g1 & t2 & Hk & Hj & Hg1 & Ht2 & Hav & Hd). exists k, g1, t2.
      split; [lia|]. split; [done|]. split; [done|]. split; [lia|]. split; [done|].
      intros k' Hk'. destruct (decide (k' = i)) as [->|]; [done|].
      apply (down_weaken _ _ _ t1 t'); [lia|lia|]. apply Hd. lia.
    + intros k' Hk'. destruct (decide (k' = i)) as [->|]; [done|].
      apply (down_weaken _ _ _ t1 t'); [lia|lia|]. apply H. lia.
Qed.

(** When no breaker is open and lag is not looked at, the first slot is taken. *)
Lemma scan_first (l : list Endpoint) start todo t (w : W) :
  (0 < length l)%nat -> (0 < todo)%nat ->
  (forall j g, l !! j = Some g -> state (breaker g) <> Open) ->
  exists t', scan clk config l None start 0 todo t w = (Some (slot start (length l) 0), t').
Proof.
  intros Hl Ht Hs. destruct todo as [|todo]; [lia|]. cbn [scan].
  destruct (lookup_lt_is_Some_2 l (slot start (length l) 0)) as [g Hg]; [by apply slot_lt|].
  rewrite Hg, not_open_available by by eapply Hs. by eexists.
Qed.

Lemma pick_first (q : Router) t (w : W) :
  replicas q <> [] -> max_replica_lag q = None ->
  (forall j g, replicas q !! j = Some g -> state (breaker g) <> Open) ->
  exists t', pick_replica clk config q t w =
    (Some (slot (next q) (length (replicas q)) 0),
     {| primary := primary q; replicas := replicas q; next := u64_add (next q) 1; fallback := fallback q;
        max_replica_lag := None |}, t').
Proof.
  intros Hr Hm Hs. unfold pick_replica. rewrite Hm. destruct (replicas q) as [|g0 l0]; [done|].
  destruct (scan_first (g0 :: l0) (next q) (length (g0 :: l0)) t w) as [t' ->]; [simpl; lia..|done|].
  by exists t'.
Qed.

End Facts.
End RoutingFacts.

Module RoutingSpec.
Import Breaker Rdbms Guard Routing RoutingFacts.

Section Theorems.
Context `{JN : JsonNumber} {W Tx : Type}.
Context (clk : nat -> Z) (warn_enabled : bool) (config : BreakerConfig).

Local Abbreviation Router := (RdbmsRouting (W:=W) (Tx:=Tx)).
Local Abbreviation available g m t w := (is_available clk config g m t w).1.

(** A request that writes, or reads what was written, reaches the primary alone,
    at most once, and no replica, its breaker or the rotation changes; the caller gets
    the primary's reply, or the primary's breaker refused it. *)
Theorem writes_reach_primary_only (q : Router) r t w res q' t' w' :
  is_read r = false -> route clk warn_enabled config q r t w = (res, q', t', w') ->
  replicas q' = replicas q /\ next q' = next q /\
  (perform_ (client (primary q)) r w = (res, w') \/
   (w' = w /\ exists m, res = Err (Connection m))).
Proof.
  unfold route, on_primary. intros -> H.
  destruct (perform _ _ _ _ _ _ _) as [[[res1 g] t1] w1] eqn:Hp. simplify_eq/=.
  split; [done|]. split; [done|]. apply perform_cases in Hp as [_ [H|(-> & _ & Hm)]]; [by left|by right].
Qed.

(** C19. A read is served by a replica that was available when the scan came to it, the ones
    before it in rotation being down; its breaker does not refuse the read for being
    open, and no other endpoint is touched.  Only when every replica was down the
    primary serves it, or it fails without reaching a backend. *)
Theorem read_served_by_first_available (q : Router) r t w res q' t' w' :
  (forall a b, (a <= b)%nat -> clk a <= clk b) ->
  0 <= next q -> next q + Z.of_nat (length (replicas q)) <= 2 ^ 64 ->
  is_read r = true -> route clk warn_enabled config q r t w = (res, q', t', w') ->
  let m := max_replica_lag q in let n := length (replicas q) in
  (exists k g t1 t2 g', (k < n)%nat /\ replicas q !! slot (next q) n k = Some g /\
     (forall k', (k' < k)%nat -> down clk config (replicas q) m (next q) t t2 w k') /\
     (t <= t1 <= t2)%nat /\ available g m t1 w = true /\
     perform clk warn_enabled config g r t2 w = (res, g', t', w') /\
     (forall b t3, enter clk config (breaker g) t2 <> (Rejected BreakerOpen, b, t3)) /\
     primary q' = primary q /\ replicas q' = <[slot (next q) n k := g']> (replicas q)) \/
  (exists t2, (forall j g, replicas q !! j = Some g ->
                exists t1, (t <= t1 <= t2)%nat /\ available g m t1 w = false) /\
     replicas q' = replicas q /\
     if fallback q
     then perform clk warn_enabled config (primary q) r t2 w = (res, primary q', t', w')
     else res = Err NoAvailableReplica /\ w' = w /\ primary q' = primary q).
Proof.
  cbv zeta. intros Hmono Hn0 Hn Hr H. unfold route in H. rewrite Hr in H. unfold read, pick_replica in H.
  destruct (replicas q) as [|g0 l0] eqn:Hl.
  { right. exists t. split; [done|]. unfold on_primary in H. cbn in H. destruct (fallback q).
    - destruct (perform _ _ _ _ _ _ _) as [[[res1 g1] t1] w1] eqn:Hp. by simplify_eq/=.
    - by simplify_eq. }
  rewrite <- Hl in *. destruct (scan _ _ _ _ _ _ _ _ _) as [j t1] eqn:Hs.
  apply scan_spec in Hs as [Ht Hs]; [|rewrite Hl; simpl; lia].
  destruct j as [j|]; cbn in H.
  - destruct Hs as (k & g & t3 & Hk & Hj & Hg & Ht3 & Ha & Hd). left. rewrite Hg in H. cbn in H.
    destruct (perform _ _ _ _ _ _ _) as [[[res1 g'] t2] w1] eqn:Hp. simplify_eq/=.
    exists k, g, t3, t1, g'. split; [lia|]. split; [done|]. split; [intros k' Hk'; apply Hd; lia|].
    split; [lia|]. split; [done|]. split; [done|]. split; [|done].
    intros b t4. by eapply available_not_refused; [..|apply Ha|lia].
  - right. exists t1. split.
    + intros j g Hg. destruct (slot_cover (next q) (length (replicas q)) j) as (i & Hi & Hji); [lia|lia|by eapply lookup_lt_Some|].
      apply (Hs i); [lia|]. by rewrite Hji.
    + unfold on_primary in H. cbn in H. destruct (fallback q).
      * destruct (perform _ _ _ _ _ _ _) as [[[res1 g1] t2] w1] eqn:Hp. by simplify_eq/=.
      * by simplify_eq.
Qed.

(** A replica that recovered is read again: once its breaker has cooled down, the read
    whose turn it is goes to it, and a reply closes the breaker. *)
Theorem recovered_replica_is_read_again (q : Router) r t w g a v w' :
  is_read r = true -> max_replica_lag q = None ->
  replicas q !! slot (next q) (length (replicas q)) 0 = Some g ->
  state (breaker g) = Open -> opened_at (breaker g) = Some a ->
  (forall t1, (t <= t1)%nat -> open_duration config <= sat_sub (clk t1) a) ->
  perform_ (client g) r w = (Ok v, w') ->
  exists g' t' q',
    route clk warn_enabled config q r t w = (Ok v, q', t', w') /\
    replicas q' !! slot (next q) (length (replicas q)) 0 = Some g' /\ state (breaker g') = Closed.
Proof.
  intros Hr Hm Hg Hs Ha Hc Hp. unfold route. rewrite Hr. unfold read, pick_replica. rewrite Hm.
  destruct (replicas q) as [|g0 l0] eqn:Hl; [done|]. rewrite <- Hl in *.
  assert (Hscan : scan clk config (replicas q) None (next q) 0 (length (replicas q)) t w =
                  (Some (slot (next q) (length (replicas q)) 0), S t)).
  { rewrite Hl at 2. cbn [length scan]. by rewrite Hg, (cooled_available clk config g a) by auto. }
  rewrite Hscan. cbn. rewrite Hg. cbn. unfold perform.
  destruct (BreakerSpec.cooled_down_success_closes clk warn_enabled config Reply RdbmsError None
              (breaker g) (S t) a W (perform_ (client g) r) w v w' Hs Ha) as (b & t' & Hcall & Hb & _);
    [apply Hc; lia|done|]. rewrite Hcall.
  eexists _, _, _. split; [reflexivity|]. cbn.
  split; [apply list_lookup_insert_eq; by eapply lookup_lt_Some|exact Hb].
Qed.

(** The replicas that serve a sequence of reads. *)
Fixpoint served (q : Router) (rs : list Request) (t : nat) (w : W) : list (option nat) :=
  match rs with
  | [] => []
  | r :: rs =>
      let '(j, _, _) := pick_replica clk config q t w in
      let '(_, q, t, w) := read clk warn_enabled config q r t w in
      j :: served q rs t w
  end.

(** No replica's breaker is open at any of the reads. *)
Fixpoint none_open (q : Router) (rs : list Request) (t : nat) (w : W) : bool :=
  match rs with
  | [] => true
  | r :: rs =>
      forallb (fun g => bool_decide (state (breaker g) <> Open)) (replicas q) &&
      let '(_, q, t, w) := read clk warn_enabled config q r t w in none_open q rs t w
  end.

Lemma pick_keeps (q : Router) t (w : W) j q1 t1 :
  pick_replica clk config q t w = (j, q1, t1) ->
  replicas q1 = replicas q /\ max_replica_lag q1 = max_replica_lag q /\
  (replicas q <> [] -> next q1 = u64_add (next q) 1).
Proof.
  unfold pick_replica. destruct (replicas q) as [|g0 l0] eqn:Hl; [intros; by simplify_eq|].
  destruct (scan _ _ _ _ _ _ _ _ _). intros. by simplify_eq/=.
Qed.

Lemma read_keeps (q : Router) r t w res q' t' w' :
  read clk warn_enabled config q r t w = (res, q', t', w') ->
  length (replicas q') = length (replicas q) /\ max_replica_lag q' = max_replica_lag q /\
  (replicas q <> [] -> next q' = u64_add (next q) 1).
Proof.
  unfold read, on_primary. destruct (pick_replica _ _ _ _ _) as [[j q1] t1] eqn:Hp.
  apply pick_keeps in Hp as (Hr & Hm & Hn).
  destruct (_ ≫= _) as [[j1 g1]|]; [|destruct (fallback q1)];
    try destruct (perform _ _ _ _ _ _ _) as [[[? ?] ?] ?]; intros; simplify_eq/=;
    by rewrite ?length_insert, Hr.
Qed.

Lemma served_rotates (q : Router) rs t w :
  0 <= next q -> next q + Z.of_nat (length rs) < 2 ^ 64 ->
  replicas q <> [] -> max_replica_lag q = None -> none_open q rs t w = true ->
  served q rs t w = map (fun i => Some (Z.to_nat ((next q + Z.of_nat i) mod Z.of_nat (length (replicas q)))))
                        (seq 0 (length rs)).
Proof.
  revert q t w. induction rs as [|r rs IH]; intros q t w Hn0 Hn Hr Hm Ho; [done|].
  cbn [served none_open length seq map] in *. apply andb_prop in Ho as [Ho Hrest].
  assert (Hs : forall j g, replicas q !! j = Some g -> state (breaker g) <> Open).
  { intros j g Hg. rewrite forallb_forall in Ho. apply (bool_decide_unpack _), Is_true_true, Ho.
    apply list_elem_of_In. by eapply list_elem_of_lookup_2. }
  destruct (pick_first clk config q t w Hr Hm Hs) as [t1 ->].
  destruct (read _ _ _ _ _ _ _) as [[[res q1] t2] w1] eqn:Hread.
  apply read_keeps in Hread as (Hlen & Hmq & Hnext). specialize (Hnext Hr).
  assert (Hn1 : next q1 = next q + 1) by (rewrite Hnext; apply wrap_small; lia).
  assert (Hl0 : replicas q1 <> []) by (intros H0; rewrite H0 in Hlen; by destruct (replicas q)).
  rewrite IH; [|lia|lia|done|congruence|done]. f_equal.
  - unfold slot. by rewrite Z.add_0_r, wrap_small by lia.
  - rewrite <- seq_shift, map_map, Hlen, Hn1. apply map_ext. intros i. do 3 f_equal. lia.
Qed.

(** Reads are spread evenly: while no breaker is open, as many reads in a row as there
    are replicas reach each replica exactly once. *)
Theorem reads_are_spread_evenly (q : Router) rs t w :
  0 <= next q -> next q + Z.of_nat (length rs) < 2 ^ 64 -> max_replica_lag q = None ->
  length rs = length (replicas q) -> none_open q rs t w = true ->
  served q rs t w ≡ₚ map Some (seq 0 (length (replicas q))).
Proof.
  intros Hn0 Hn Hm Hlen Ho. destruct (decide (replicas q = [])) as [Hr|Hr].
  { rewrite Hr in *. by destruct rs. }
  rewrite served_rotates, Hlen by done.
  assert (Hpos : (0 < length (replicas q))%nat) by (destruct (replicas q); [done|simpl; lia]).
  set (n := length (replicas q)) in *.
  rewrite <- (map_map (fun i => Z.to_nat ((next q + Z.of_nat i) mod Z.of_nat n)) Some).
  apply Permutation_map. apply NoDup_Permutation.
  - apply NoDup_fmap_2_strong; [|apply NoDup_seq]. intros i j Hi Hj Heq.
    apply elem_of_seq in Hi, Hj. apply (rotation_inj (next q) n); [lia|lia|].
    pose proof (Z.mod_pos_bound (next q + Z.of_nat i) (Z.of_nat n)).
    pose proof (Z.mod_pos_bound (next q + Z.of_nat j) (Z.of_nat n)). lia.
  - apply NoDup_seq.
  - intros j. rewrite elem_of_seq, list_elem_of_fmap. split.
    + intros (i & -> & Hi). apply elem_of_seq in Hi.
      pose proof (Z.mod_pos_bound (next q + Z.of_nat i) (Z.of_nat n)). lia.
    + intros Hj. exists (Z.to_nat ((Z.of_nat j - next q) mod Z.of_nat n)).
      pose proof (Z.mod_pos_bound (Z.of_nat j - next q) (Z.of_nat n)) as Hb. split; [|apply elem_of_seq; lia].
      rewrite Z2Nat.id by lia. rewrite Zplus_mod_idemp_r.
      replace (next q + (Z.of_nat j - next q)) with (Z.of_nat j) by lia. rewrite Z.mod_small by lia. lia.
Qed.

End Theorems.

(** *** A primary and two replicas

    The world is the log of who was asked. *)

#[local] Instance demo_number : JsonNumber := CatalogSpec.demo_number.

Definition demo_clk (t : nat) : Z := Z.of_nat t.

Definition backend (name : string) : RdbmsClient (list string) unit := {|
  perform_ _ w := (Ok (Affected 1), w ++ [name]);
  begin_ w := (Ok tt, w ++ [name]);
  replica_lag _ := None;
  dialect_ := MySql |}.

Definition endpoint (name : string) (i : Inner) : Guarded := {| client := backend name; breaker := i |}.

Definition healthy : Inner := (Breaker.new demo_clk BreakerConfig_default 0).1.
(** All its probes are out. *)
Definition saturated : Inner :=
  {| state := HalfOpen; win := win healthy; opened_at := Some 0; half_open_count := 3; opened_total := 1 |}.
Definition opened (at_ : Z) : Inner :=
  {| state := Open; win := win healthy; opened_at := Some at_; half_open_count := 0; opened_total := 1 |}.

Definition cluster (a b : Inner) : RdbmsRouting (W:=list string) (Tx:=unit) :=
  {| primary := endpoint "primary" healthy; replicas := [endpoint "a" a; endpoint "b" b]; next := 0;
     fallback := true; max_replica_lag := None |}.

Definition ask (q : RdbmsRouting (W:=list string) (Tx:=unit)) (r : Request) : string * list string :=
  let '(res, _, _, w) := route demo_clk true BreakerConfig_default q r 5 [] in
  (match res with Ok _ => "ok" | Err (Connection m) => m | Err _ => "error" end, w).

Lemma writes_reach_primary_only_witness :
  (ask (cluster healthy healthy) (Execute "DELETE FROM t")).2 = ["primary"] /\
  (let '(_, q', _, _) := route demo_clk true BreakerConfig_default (cluster healthy healthy)
                           (Execute "DELETE FROM t") 5 [] in
   replicas q' = replicas (cluster healthy healthy)).
Proof.
  split; [vm_compute; reflexivity|].
  destruct (route _ _ _ _ _ _ _) as [[[res q'] t'] w'] eqn:H.
  exact (proj1 (writes_reach_primary_only demo_clk true BreakerConfig_default (cluster healthy healthy)
           (Execute "DELETE FROM t") 5 [] res q' t' w' eq_refl H)).
Defined.

Lemma read_served_by_first_available_witness :
  (ask (cluster (opened 0) healthy) (Query "SELECT 1")).2 = ["b"] /\
  (let '(res, q', _, _) := route demo_clk true BreakerConfig_default (cluster (opened 0) healthy)
                             (Query "SELECT 1") 5 [] in
   primary q' = primary (cluster (opened 0) healthy)).
Proof.
  split; [vm_compute; reflexivity|].
  destruct (route _ _ _ _ _ _ _) as [[[res q'] t'] w'] eqn:H.
  destruct (read_served_by_first_available demo_clk true BreakerConfig_default (cluster (opened 0) healthy)
              (Query "SELECT 1") 5 [] res q' t' w') as [(_ & _ & _ & _ & _ & _ & _ & _ & _ & _ & _ & _ & Hp & _)|(t2 & Hall & _)].
  - intros a b Hab. unfold demo_clk. lia.
  - reflexivity.
  - vm_compute. discriminate.
  - reflexivity.
  - exact H.
  - exact Hp.
  - destruct (Hall 1%nat (endpoint "b" healthy) eq_refl) as (t1 & _ & Hf). discriminate Hf.
Defined.

Lemma recovered_replica_is_read_again_witness :
  exists g' t' q',
    route (fun _ => secs 11) true BreakerConfig_default (cluster (opened 0) healthy) (Query "SELECT 1") 5 [] =
      (Ok (Affected 1), q', t', ["a"]) /\
    replicas q' !! 0%nat = Some g' /\ state (breaker g') = Closed.
Proof.
  apply (recovered_replica_is_read_again (fun _ => secs 11) true BreakerConfig_default
           (cluster (opened 0) healthy) (Query "SELECT 1") 5 [] (endpoint "a" (opened 0)) 0 (Affected 1) ["a"]).
  - reflexivity.
  - reflexivity.
  - reflexivity.
  - reflexivity.
  - reflexivity.
  - intros t1 _. vm_compute. discriminate.
  - reflexivity.
Defined.

Lemma reads_are_spread_evenly_witness :
  served demo_clk true BreakerConfig_default (cluster healthy healthy) [Query "x"; Query "y"] 5 []
    ≡ₚ [Some 0%nat; Some 1%nat].
Proof.
  apply (reads_are_spread_evenly demo_clk true BreakerConfig_default (cluster healthy healthy)
           [Query "x"; Query "y"] 5 []).
  - vm_compute. discriminate.
  - reflexivity.
  - reflexivity.
  - reflexivity.
  - vm_compute. reflexivity.
Defined.

(** A replica whose half-open probes are all out is not skipped: the read whose turn it
    is fails, although the other replica and the primary are healthy. *)
Theorem saturated_replica_fails_reads :
  ask (cluster saturated healthy) (Query "SELECT 1") =
    ("circuit breaker: too many probes", []) /\
  ask (cluster (opened 0) healthy) (Query "SELECT 1") = ("ok", ["b"]).
Proof. split; vm_compute; reflexivity. Qed.

End RoutingSpec.
