(* ===== verification/Lock.v ===== *)
(** * Locks over Redis (ecat-lock, ecat-data-redis)

    [DistributedLock] and [FencedLock] as [RedisLock] implements them: one command or Lua
    script of the server per call, with a token of its own for every acquisition.  Module
    [LockSystem] is several processes sharing one server, with lost answers and leases that
    run out on the server's clock, in milliseconds.

    The Redis server is a parameter; its documented commands are laws on the keys live at
    an instant. *)

From S2P Require Import Prelude Text.

Local Open Scope Z_scope.
Local Open Scope ecat_scope.

(** ** The server *)

(** The commands the lock uses, at an instant of the server's clock: the keys afterwards
    and the reply. *)
Class RedisServer := {
  db : Type;
  call_get : Z -> db -> string -> option string;
  call_set_nx_px : Z -> db -> string -> string -> Z -> db * result bool string;
  call_incr : Z -> db -> string -> db * result Z string;
  call_del : Z -> db -> string -> db;
  call_pexpire : Z -> db -> string -> Z -> db * result Z string
}.

(** A value and the instant it expires. *)
Notation Entry := (string * option Z)%type.

Definition alive (t : Z) (e : Entry) : Prop := match e.2 with Some x => t < x | None => True end.

#[export] Instance alive_dec t e : Decision (alive t e).
Proof. unfold alive. destruct (e.2); apply _. Defined.

Definition reply {A} (r : result A string) : option A := match r with Ok a => Some a | Err _ => None end.

(** An expiry is positive and fits 64 bits. *)
Definition valid_px (t px : Z) : bool := (0 <? px) && (t + px <? 2 ^ 63).

Definition after_set_nx (t : Z) (m : gmap string Entry) (k v : string) (px : Z) : gmap string Entry * option bool :=
  if valid_px t px then
    match m !! k with
    | None => (<[k := (v, Some (t + px))]> m, Some true)
    | Some _ => (m, Some false)
    end
  else (m, None).

(** PEXPIRE of a time in the past deletes the key. *)
Definition after_pexpire (t : Z) (m : gmap string Entry) (k : string) (px : Z) : gmap string Entry * option Z :=
  match m !! k with
  | None => (m, Some 0)
  | Some (v, _) =>
      if px <=? 0 then (delete k m, Some 1)
      else if valid_px t px then (<[k := (v, Some (t + px))]> m, Some 1)
      else (m, None)
  end.

Class RedisLaw `{RS : RedisServer} := {
  entries : Z -> db -> gmap string Entry;
  entries_later t t' d : t <= t' -> entries t' d = filter (fun kv => alive t' kv.2) (entries t d);
  get_entry t d k : call_get t d k = fst <$> entries t d !! k;
  set_entry t d k v px :
    (entries t (call_set_nx_px t d k v px).1, reply (call_set_nx_px t d k v px).2) = after_set_nx t (entries t d) k v px;
  incr_first t d k : entries t d !! k = None ->
    entries t (call_incr t d k).1 = <[k := (dec_text 1, None)]> (entries t d) /\ (call_incr t d k).2 = Ok 1;
  incr_next t d k n x : entries t d !! k = Some (dec_text n, x) -> 0 <= n -> n + 1 < 2 ^ 63 ->
    entries t (call_incr t d k).1 = <[k := (dec_text (n + 1), x)]> (entries t d) /\ (call_incr t d k).2 = Ok (n + 1);
  del_entry t d k : entries t (call_del t d k) = delete k (entries t d);
  pexpire_entry t d k px :
    (entries t (call_pexpire t d k px).1, reply (call_pexpire t d k px).2) = after_pexpire t (entries t d) k px
}.

(** ** The calls *)

Module RedisLock.

Inductive LockError := Other (msg : string).

Record FenceGuard := { token : string; fence : Z }.

(** What becomes of a call: no connection, no answer in time from a server that did or did
    not run the command, or the answer. *)
Inductive wire :=
| NoConnection (e : string)
| NotRun
| Unanswered
| Answered.

Section RedisLock.
Context {RS : RedisServer}.

(** [query_timeout], in seconds. *)
Record RedisLock := { query_timeout : option Z }.

Definition query_timeout_of (secs : option Z) : option Z :=
  match secs with None => Some 30 | Some s => if s =? 0 then None else Some s end.

Definition of_config (secs : option Z) : RedisLock := {| query_timeout := query_timeout_of secs |}.

(** [ttl] in nanoseconds. *)
Definition ttl_millis (ttl : Z) : Z := Z.min u64_max (ttl / 10 ^ 6).

Definition fence_key (key : string) : string := "ecat:fence:" +:+ key.

(** *** The scripts *)

Definition FENCE_SCRIPT (t : Z) (lock_key fkey token : string) (px : Z) (d : db) : db * result Z string :=
  match call_incr t d fkey with
  | (d, Err e) => (d, Err e)
  | (d, Ok fence) =>
      match call_set_nx_px t d lock_key token px with
      | (d, Err e) => (d, Err e)
      | (d, Ok true) => (d, Ok fence)
      | (d, Ok false) => (d, Ok 0)
      end
  end.

Definition RELEASE_SCRIPT (t : Z) (key token : string) (d : db) : db :=
  if bool_decide (call_get t d key = Some token) then call_del t d key else d.

Definition RENEW_SCRIPT (t : Z) (key token : string) (px : Z) (d : db) : db * result Z string :=
  if bool_decide (call_get t d key = Some token) then call_pexpire t d key px else (d, Ok 0).

(** *** The lock *)

Definition timed_out (op : string) (limit : Z) : LockError :=
  Other ("redis " +:+ op +:+ ": timed out after " +:+ dec_text limit +:+ "s").

(** The command under [conn] and [with_timeout]; without a limit an answer is awaited. *)
Definition with_timeout {A} (l : RedisLock) (w : wire) (op : string) (cmd : db -> db * result A LockError) (d : db)
    : db * result A LockError :=
  match w, query_timeout l with
  | NoConnection e, _ => (d, Err (Other ("redis acquire: " +:+ e)))
  | NotRun, Some limit => (d, Err (timed_out op limit))
  | Unanswered, Some limit => ((cmd d).1, Err (timed_out op limit))
  | _, _ => cmd d
  end.

Definition failed (op : string) (e : string) : LockError := Other ("redis " +:+ op +:+ ": " +:+ e).

(** [token] is the fresh UUID of the call. *)
Definition acquire (l : RedisLock) (w : wire) (t : Z) (key : string) (ttl : Z) (token : string) (d : db)
    : db * result (option string) LockError :=
  with_timeout l w "acquire" (fun d =>
    let '(d, r) := call_set_nx_px t d key token (ttl_millis ttl) in
    (d, let? ok := map_err (failed "acquire") r in Ok (if ok : bool then Some token else None))) d.

Definition acquire_fenced (l : RedisLock) (w : wire) (t : Z) (key : string) (ttl : Z) (token : string) (d : db)
    : db * result (option FenceGuard) LockError :=
  with_timeout l w "acquire_fenced" (fun d =>
    let '(d, r) := FENCE_SCRIPT t key (fence_key key) token (ttl_millis ttl) d in
    (d, let? f := map_err (failed "acquire_fenced") r in
        Ok (if f =? 0 then None else Some {| token := token; fence := f |}))) d.

(** A counter that is not a number fails to convert. *)
Definition validate_fence (l : RedisLock) (w : wire) (t : Z) (key : string) (f : Z) (d : db)
    : db * result bool LockError :=
  with_timeout l w "validate_fence" (fun d =>
    (d, match call_get t d (fence_key key) with
        | None => Ok false
        | Some v =>
            match parse_uint 64 v with
            | Some current => Ok (current =? f)
            | None => Err (failed "validate_fence" "not an integer")
            end
        end)) d.

Definition release (l : RedisLock) (w : wire) (t : Z) (key token : string) (d : db) : db * result unit LockError :=
  with_timeout l w "release" (fun d => (RELEASE_SCRIPT t key token d, Ok tt)) d.

Definition renew (l : RedisLock) (w : wire) (t : Z) (key token : string) (ttl : Z) (d : db) : db * result unit LockError :=
  with_timeout l w "renew" (fun d =>
    let '(d, r) := RENEW_SCRIPT t key token (ttl_millis ttl) d in
    (d, let? n := map_err (failed "renew") r in
        if n =? 0 then Err (Other "renew: token mismatch or lock not held") else Ok tt)) d.

End RedisLock.
End RedisLock.

(** ** Processes sharing the server *)

Module LockSystem.
Import RedisLock.

(** What a process holds: until when, by its last answered call. *)
Record lease := { l_key : string; l_token : string; l_until : Z }.

Section System.
Context {RS : RedisServer} (l : RedisLock).

(** [used] are the tokens given out, [tries] how often each key was asked for with a
    fence, [grants] the fences handed out, latest first. *)
Record sys := {
  store : db;
  now : Z;
  leases : list lease;
  used : gset string;
  tries : gmap string Z;
  grants : list (string * Z)
}.

Definition tried (s : sys) (key : string) : Z := default 0 (tries s !! key).

(** A process that renews without an answer relies on the shorter of the two terms. *)
Definition renewed (ok : bool) (key token : string) (until : Z) (x : lease) : lease :=
  if bool_decide (l_key x = key /\ l_token x = token)
  then {| l_key := key; l_token := token; l_until := if ok then until else Z.min (l_until x) until |}
  else x.

Definition given_up (key token : string) (x : lease) : Prop := ~ (l_key x = key /\ l_token x = token).

#[export] Instance given_up_dec key token x : Decision (given_up key token x).
Proof. unfold given_up. apply _. Defined.

(** Lock keys are not fence keys. *)
Definition plain (key : string) : Prop := forall k, key <> fence_key k.

(** The script runs unless the connection failed or the call was lost on the way. *)
Definition runs (w : wire) : bool :=
  match w, query_timeout l with NoConnection _, _ | NotRun, Some _ => false | _, _ => true end.

Inductive step : sys -> sys -> Prop :=
| S_tick s t :
    now s <= t ->
    step s {| store := store s; now := t; leases := leases s; used := used s; tries := tries s; grants := grants s |}
| S_acquire s w key ttl token d r :
    plain key -> token ∉ used s -> acquire l w (now s) key ttl token (store s) = (d, r) ->
    step s {| store := d; now := now s;
              leases := match r with
                        | Ok (Some _) => {| l_key := key; l_token := token; l_until := now s + ttl_millis ttl |} :: leases s
                        | _ => leases s
                        end;
              used := {[token]} ∪ used s; tries := tries s; grants := grants s |}
| S_acquire_fenced s w key ttl token d r :
    plain key -> token ∉ used s -> tried s key + 1 < 2 ^ 63 ->
    acquire_fenced l w (now s) key ttl token (store s) = (d, r) ->
    step s {| store := d; now := now s;
              leases := match r with
                        | Ok (Some _) => {| l_key := key; l_token := token; l_until := now s + ttl_millis ttl |} :: leases s
                        | _ => leases s
                        end;
              used := {[token]} ∪ used s;
              tries := if runs w then <[key := tried s key + 1]> (tries s) else tries s;
              grants := match r with Ok (Some g) => (key, fence g) :: grants s | _ => grants s end |}
| S_release s w key token d r :
    plain key -> release l w (now s) key token (store s) = (d, r) ->
    step s {| store := d; now := now s; leases := filter (given_up key token) (leases s);
              used := used s; tries := tries s; grants := grants s |}
| S_renew s w key token ttl d r :
    plain key -> 0 <= ttl -> renew l w (now s) key token ttl (store s) = (d, r) ->
    step s {| store := d; now := now s; leases := renewed (is_ok r) key token (now s + ttl_millis ttl) <$> leases s;
              used := used s; tries := tries s; grants := grants s |}.

Context {RL : @RedisLaw RS}.

(** An empty server. *)
Definition init (s : sys) : Prop :=
  entries (now s) (store s) = ∅ /\ leases s = [] /\ used s = ∅ /\ tries s = ∅ /\ grants s = [].

End System.
End LockSystem.
