(* ===== verification/LockSpec.v ===== *)
(** * What the Redis lock promises

    Whatever answers are lost, two processes never hold unexpired leases of one key, fences
    grow from one grant to the next, and a fence validates only while nobody has asked for
    the key since.  That last guarantee cuts both ways: an attempt that fails refuses the
    holder's fence, and an acquisition without a fence leaves the old one valid.  Renewing
    for less than a millisecond gives the lock up and reports success. *)

From S2P Require Import Prelude Text Lock.

Local Open Scope Z_scope.
Local Open Scope ecat_scope.

Module LockSpec.
Import RedisLock LockSystem.

Section Spec.
Context `{RL : RedisLaw}.
Context (l : RedisLock).

Local Abbreviation sys := (LockSystem.sys (RS:=RS)).
Local Abbreviation step := (LockSystem.step l).

(** ** The calls, on the keys *)

Lemma with_timeout_cases {A} w op (cmd : db -> db * result A LockError) d d' r :
  with_timeout l w op cmd d = (d', r) ->
  (runs l w = false /\ d' = d /\ exists e, r = Err e) \/
  (runs l w = true /\ d' = (cmd d).1 /\ (r = (cmd d).2 \/ exists e, r = Err e)).
Proof.
  unfold with_timeout, runs. destruct w, (query_timeout l); intros H; try (injection H as <- <-; naive_solver);
    destruct (cmd d); injection H as <- <-; naive_solver.
Qed.

Lemma ttl_millis_nonneg ttl : 0 <= ttl -> 0 <= ttl_millis ttl.
Proof. intros H. unfold ttl_millis, u64_max. apply Z.min_glb; [lia|]. apply Z.div_pos; lia. Qed.

(** SET NX takes a free key for a positive time, or changes nothing. *)
Lemma set_nx_cases t d k v px d' r :
  call_set_nx_px t d k v px = (d', r) ->
  (entries t d' = entries t d /\ (r = Ok false \/ exists e, r = Err e)) \/
  (entries t d !! k = None /\ entries t d' = <[k := (v, Some (t + px))]> (entries t d) /\ r = Ok true).
Proof.
  intros H. pose proof (set_entry t d k v px) as Hs. rewrite H in Hs. unfold after_set_nx in Hs. cbn [fst snd] in Hs.
  destruct (valid_px t px); [destruct (entries t d !! k)|]; injection Hs as Hd Hr; destruct r as [[]|]; cbn in Hr; naive_solver.
Qed.

Lemma acquire_cases w t key ttl token d d' r :
  acquire l w t key ttl token d = (d', r) ->
  (entries t d' = entries t d /\ forall tok, r <> Ok (Some tok)) \/
  (entries t d !! key = None /\ entries t d' = <[key := (token, Some (t + ttl_millis ttl))]> (entries t d) /\
     forall tok, r = Ok (Some tok) -> tok = token).
Proof.
  intros [(_ & -> & e & ->) | (_ & -> & Hr)]%with_timeout_cases; [by left|].
  destruct (call_set_nx_px t d key token (ttl_millis ttl)) as [d1 r1] eqn:E. cbn [fst snd] in *.
  apply set_nx_cases in E as [(E & Hr1) | (En & E & ->)].
  - left. split; [done|]. intros tok ->. destruct Hr as [Hr | [e Hr]]; [|done]. destruct Hr1 as [-> | [e ->]]; done.
  - right. split; [done|]. split; [done|]. intros tok ->. destruct Hr as [Hr | [e Hr]]; [|done]. by injection Hr.
Qed.

(** The counter of a key after [n] attempts. *)
Definition counter_is (t : Z) (d : db) (key : string) (n : Z) : Prop :=
  entries t d !! fence_key key =@{option Entry} if n =? 0 then None else Some (dec_text n, None).

Lemma incr_counter t d key n d' r :
  counter_is t d key n -> 0 <= n -> n + 1 < 2 ^ 63 -> call_incr t d (fence_key key) = (d', r) ->
  r = Ok (n + 1) /\ entries t d' = <[fence_key key := (dec_text (n + 1), None)]> (entries t d).
Proof.
  intros Hc Hn Hb H. unfold counter_is in Hc. destruct (n =? 0) eqn:E.
  - apply Z.eqb_eq in E as ->. destruct (incr_first t d _ Hc) as [H1 H2]. by rewrite H in H1, H2.
  - destruct (incr_next t d _ n None Hc Hn Hb) as [H1 H2]. by rewrite H in H1, H2.
Qed.

Lemma acquire_fenced_cases w t key ttl token d d' r n :
  plain key -> counter_is t d key n -> 0 <= n -> n + 1 < 2 ^ 63 ->
  acquire_fenced l w t key ttl token d = (d', r) ->
  exists d1,
    entries t d1 = (if runs l w then <[fence_key key := (dec_text (n + 1), None)]> (entries t d) else entries t d) /\
    ((entries t d' = entries t d1 /\ forall g, r <> Ok (Some g)) \/
     (runs l w = true /\ entries t d1 !! key = None /\
      entries t d' = <[key := (token, Some (t + ttl_millis ttl))]> (entries t d1) /\
      forall g, r = Ok (Some g) -> g = {| token := token; fence := n + 1 |})).
Proof.
  intros Hp Hc Hn Hb H. apply with_timeout_cases in H as [(Hw & -> & e & ->) | (Hw & -> & Hr)]; rewrite Hw.
  { exists d. split; [done|]. by left. }
  unfold FENCE_SCRIPT in *. destruct (call_incr t d (fence_key key)) as [d1 r1] eqn:E1.
  apply (incr_counter t d key n) in E1 as [-> E1]; try done. exists d1. split; [done|].
  destruct (call_set_nx_px t d1 key token (ttl_millis ttl)) as [d2 r2] eqn:E2.
  apply set_nx_cases in E2 as [(E2 & Hr2) | (En & E2 & ->)]; cbn [fst snd] in *.
  - left. split; [destruct Hr2 as [-> | [e ->]]; done|].
    intros g ->. destruct Hr as [Hr | [e Hr]]; [|done]. destruct Hr2 as [-> | [e ->]]; done.
  - right. do 3 (split; [done|]). intros g ->. destruct Hr as [Hr | [e Hr]]; [|done]. cbn in Hr.
    destruct (n + 1 =? 0) eqn:E0; [done|]. by injection Hr.
Qed.

Lemma release_cases w t key token d d' r :
  release l w t key token d = (d', r) ->
  entries t d' = entries t d \/
  (exists x, entries t d !! key = Some (token, x)) /\ entries t d' = delete key (entries t d).
Proof.
  intros [(_ & -> & _) | (_ & -> & _)]%with_timeout_cases; [by left|]. cbn [fst]. unfold RELEASE_SCRIPT.
  case_bool_decide as H; [|by left]. right. rewrite get_entry in H. rewrite del_entry. split; [|done].
  destruct (entries t d !! key) as [[v x]|]; [|done]. injection H as ->. by exists x.
Qed.

Lemma renew_cases w t key token ttl d d' r :
  0 <= ttl -> renew l w t key token ttl d = (d', r) ->
  (entries t d' = entries t d /\ is_ok r = false) \/
  ((exists x, entries t d !! key = Some (token, x)) /\
     ((ttl_millis ttl = 0 /\ entries t d' = delete key (entries t d)) \/
      entries t d' = <[key := (token, Some (t + ttl_millis ttl))]> (entries t d))).
Proof.
  intros Ht [(_ & -> & e & ->) | (_ & -> & Hr)]%with_timeout_cases; [by left|]. unfold RENEW_SCRIPT in *.
  case_bool_decide as H; [|left; split; [done|]; destruct Hr as [-> | [e ->]]; done].
  rewrite get_entry in H. destruct (entries t d !! key) as [[v x]|] eqn:Ee; [|done]. injection H as ->.
  pose proof (pexpire_entry t d key (ttl_millis ttl)) as Hx. destruct (call_pexpire t d key (ttl_millis ttl)) as [d1 r1].
  cbn [fst snd] in *. unfold after_pexpire in Hx. rewrite Ee in Hx. pose proof (ttl_millis_nonneg ttl Ht).
  destruct (ttl_millis ttl <=? 0) eqn:E0; [|destruct (valid_px t (ttl_millis ttl))]; injection Hx as Hx Hr1.
  - right. split; [eauto|]. left. split; [lia|done].
  - right. split; [eauto|]. by right.
  - left. split; [done|]. destruct r1 as [n|e]; [done|]. destruct Hr as [-> | [e' ->]]; done.
Qed.

(** ** The invariant *)

(** A lease that has not run out is what the server has. *)
Definition backed (s : sys) (x : lease) : Prop :=
  plain (l_key x) /\
  (now s < l_until x ->
   exists e, entries (now s) (store s) !! l_key x = Some (l_token x, Some e) /\ l_until x <= e).

Record sys_inv (s : sys) : Prop := {
  si_backed : Forall (backed s) (leases s);
  si_distinct : NoDup (l_token <$> leases s);
  si_used : Forall (fun x => l_token x ∈ used s) (leases s);
  si_counter : forall key, counter_is (now s) (store s) key (tried s key) /\ 0 <= tried s key < 2 ^ 63;
  si_grants : StronglySorted (fun a b => a.1 = b.1 -> b.2 < a.2) (grants s);
  si_granted : Forall (fun g => 0 < g.2 <= tried s g.1) (grants s)
}.

(** Leases stand while the keys they live on keep their entries. *)
Lemma backed_mono s s' x :
  now s' = now s -> backed s x ->
  (forall e, entries (now s) (store s) !! l_key x = Some (l_token x, Some e) ->
     entries (now s) (store s') !! l_key x = Some (l_token x, Some e)) ->
  backed s' x.
Proof.
  intros Hn [Hp Hb] H. split; [done|]. rewrite Hn. intros Hl. destruct (Hb Hl) as (e & He & Hu). eauto.
Qed.

Lemma counter_mono s d key :
  counter_is (now s) (store s) key (tried s key) ->
  entries (now s) d !! fence_key key = entries (now s) (store s) !! fence_key key ->
  counter_is (now s) d key (tried s key).
Proof. intros H1 H2. unfold counter_is in *. by rewrite H2. Qed.

Lemma fence_key_inj a b : fence_key a = fence_key b -> a = b.
Proof. unfold fence_key. intros H. by repeat (injection H as H). Qed.

Lemma fresh_lease s token x : sys_inv s -> token ∉ used s -> x ∈ leases s -> l_token x <> token.
Proof. intros Hs Ht Hx <-. pose proof (si_used s Hs) as H. rewrite Forall_forall in H. by apply Ht, H. Qed.

Lemma lock_init_inv s : init s -> sys_inv s.
Proof.
  intros (He & Hl & Hu & Ht & Hg). split; rewrite ?Hl, ?Hg; try constructor.
  - unfold counter_is, tried. by rewrite He, Ht, !lookup_empty.
  - unfold tried. rewrite Ht, lookup_empty. cbn. lia.
Qed.

Lemma tick_inv s t :
  sys_inv s -> now s <= t ->
  sys_inv {| store := store s; now := t; leases := leases s; used := used s; tries := tries s; grants := grants s |}.
Proof.
  intros [Hb Hd Hu Hc Hg Hq] Ht. split; try done; cbn [store now leases].
  - eapply Forall_impl; [exact Hb|]. intros x [Hp Hx]. split; [done|]. cbn [store now]. intros Hl.
    destruct Hx as (e & He & Hle); [lia|]. exists e. split; [|done]. rewrite (entries_later (now s)) by done.
    apply map_lookup_filter_Some. split; [done|]. unfold alive. cbn. lia.
  - intros key. destruct (Hc key) as [H1 H2]. split; [|done]. unfold counter_is in *. cbn [tried tries].
    change (tried _ key) with (tried s key). rewrite (entries_later (now s)) by done.
    destruct (tried s key =? 0).
    + apply map_lookup_filter_None. by left.
    + by apply map_lookup_filter_Some.
Qed.

(** A new lease: the key was free and carries its token now. *)
Lemma acquired_inv s d key token until new us :
  sys_inv s -> plain key -> token ∉ used s ->
  (forall k, k <> key -> entries (now s) d !! k = entries (now s) (store s) !! k) ->
  (entries (now s) d !! key = entries (now s) (store s) !! key /\ new = [] \/
   entries (now s) (store s) !! key = None /\ entries (now s) d !! key = Some (token, Some until) /\
     (new = [] \/ new = [{| l_key := key; l_token := token; l_until := until |}])) ->
  us = {[token]} ∪ used s ->
  sys_inv {| store := d; now := now s; leases := new ++ leases s; used := us; tries := tries s; grants := grants s |}.
Proof.
  intros Hs Hp Ht Hk Hnew ->. pose proof Hs as [Hb Hd Hu Hc Hg Hq]. split; try done; cbn [store now leases used].
  - apply Forall_app. split.
    + destruct Hnew as [[_ ->] | (_ & He & [-> | ->])]; [constructor..|]. constructor; [|constructor].
      split; [done|]. cbn. intros _. exists until. split; [done|lia].
    + apply Forall_forall. intros x Hx. rewrite Forall_forall in Hb. apply (backed_mono s); [done|by apply Hb|].
      intros e He. cbn [store]. destruct (decide (l_key x = key)) as [E|E]; [|by rewrite Hk].
      rewrite E in *. destruct Hnew as [[-> _] | (Hn & _)]; [done|congruence].
  - rewrite fmap_app. destruct Hnew as [[_ ->] | (_ & _ & [-> | ->])]; try done. cbn. apply NoDup_cons. split; [|done].
    intros (x & E & Hx)%list_elem_of_fmap. by destruct (fresh_lease s token x Hs Ht Hx).
  - apply Forall_app. split.
    + destruct Hnew as [[_ ->] | (_ & _ & [-> | ->])]; [constructor..|]. constructor; [|constructor]. cbn. set_solver.
    + eapply Forall_impl; [exact Hu|]. intros x Hx. cbn in *. set_solver.
  - intros k. destruct (Hc k) as [H1 H2]. split; [|done]. apply (counter_mono s); [done|]. apply Hk. intros E. by apply (Hp k).
Qed.

Lemma tried_insert s key n k : default 0 (<[key := n]> (tries s) !! k) = if decide (k = key) then n else tried s k.
Proof. destruct (decide (k = key)) as [->|E]; [by rewrite lookup_insert_eq | by rewrite lookup_insert_ne]. Qed.

(** One more attempt with a fence, before the key is taken. *)
Lemma attempt_inv s key d :
  sys_inv s -> plain key -> tried s key + 1 < 2 ^ 63 ->
  entries (now s) d = <[fence_key key := (dec_text (tried s key + 1), None)]> (entries (now s) (store s)) ->
  sys_inv {| store := d; now := now s; leases := leases s; used := used s; tries := <[key := tried s key + 1]> (tries s);
             grants := grants s |}.
Proof.
  intros [Hb Hd Hu Hc Hg Hq] Hp Ht Hk. split; try done; cbn [store now leases grants].
  - eapply Forall_impl; [exact Hb|]. intros x Hx. apply (backed_mono s); [done|done|]. cbn [store]. rewrite Hk.
    intros e He. destruct Hx as [Hpl _]. by rewrite lookup_insert_ne by apply not_eq_sym, Hpl.
  - intros k. replace (tried _ k) with (if decide (k = key) then tried s key + 1 else tried s k) by (symmetry; apply tried_insert).
    destruct (decide (k = key)) as [->|E].
    + destruct (Hc key) as [_ [H1 H2]]. split; [|lia]. unfold counter_is.
      rewrite Hk, lookup_insert_eq. assert (tried s key + 1 =? 0 = false) as -> by lia. done.
    + destruct (Hc k) as [H1 H2]. split; [|done]. unfold counter_is in *.
      rewrite Hk, lookup_insert_ne; [done|]. intros H%fence_key_inj. congruence.
  - eapply Forall_impl; [exact Hq|]. intros [k f] [H1 H2]. cbn [fst snd] in *.
    replace (tried _ k) with (if decide (k = key) then tried s key + 1 else tried s k) by (symmetry; apply tried_insert).
    destruct (decide (k = key)) as [->|E]; lia.
Qed.

Lemma granted_inv s key f :
  sys_inv s -> f = tried s key -> 0 < f -> Forall (fun g => g.1 = key -> g.2 < f) (grants s) ->
  sys_inv {| store := store s; now := now s; leases := leases s; used := used s; tries := tries s;
             grants := (key, f) :: grants s |}.
Proof.
  intros [Hb Hd Hu Hc Hg Hq] -> Hf Hlt. split; try done; cbn [grants].
  - constructor; [done|]. eapply Forall_impl; [exact Hlt|]. cbn. intros g H E. by apply H.
  - constructor; [|done]. cbn. split; [done|]. unfold tried. cbn. lia.
Qed.

(** The keys and leases change without a new token or attempt. *)
Lemma leases_inv s d (f : lease -> lease) (P : lease -> Prop) `{!forall x, Decision (P x)} :
  sys_inv s -> (forall x, l_key (f x) = l_key x /\ l_token (f x) = l_token x) ->
  (forall k, entries (now s) d !! fence_key k = entries (now s) (store s) !! fence_key k) ->
  (forall x, x ∈ leases s -> P x -> backed s x ->
     backed {| store := d; now := now s; leases := []; used := ∅; tries := ∅; grants := [] |} (f x)) ->
  sys_inv {| store := d; now := now s; leases := f <$> filter P (leases s); used := used s; tries := tries s;
             grants := grants s |}.
Proof.
  intros [Hb Hd Hu Hc Hg Hq] Hf Hk Hbk. rewrite Forall_forall in Hb, Hu. split; try done; cbn [store now leases used].
  - apply Forall_forall. intros y (x & -> & [Hp Hx]%list_elem_of_filter)%list_elem_of_fmap.
    destruct (Hbk x Hx Hp (Hb x Hx)) as [H1 H2]. by split.
  - rewrite <- list_fmap_compose, (list_fmap_ext _ l_token) by (intros; apply Hf).
    apply (sublist_NoDup _ (l_token <$> leases s)); [done|]. apply (fmap_sublist l_token), sublist_filter.
  - apply Forall_forall. intros y (x & -> & [Hp Hx]%list_elem_of_filter)%list_elem_of_fmap. rewrite (proj2 (Hf x)). by apply Hu.
  - intros k. destruct (Hc k) as [H1 H2]. split; [|done]. by apply (counter_mono s).
Qed.

Lemma release_inv s w key token d r :
  sys_inv s -> plain key -> release l w (now s) key token (store s) = (d, r) ->
  sys_inv {| store := d; now := now s; leases := filter (given_up key token) (leases s); used := used s;
             tries := tries s; grants := grants s |}.
Proof.
  intros Hs Hp Hr. rewrite <- (list_fmap_id (filter _ _)). apply release_cases in Hr. apply leases_inv; try done.
  - intros k. destruct Hr as [-> | [_ ->]]; [done|]. by rewrite lookup_delete_ne by apply Hp.
  - intros x _ Hg Hb. change (id x) with x. apply (backed_mono s); [done|done|]. cbn [store]. intros e He.
    destruct Hr as [-> | [[y Hy] ->]]; [done|]. destruct (decide (l_key x = key)) as [E|E]; [|by rewrite lookup_delete_ne].
    destruct Hg. split; [done|]. rewrite E in He. rewrite Hy in He. by injection He.
Qed.

Lemma renew_inv s w key token ttl d r :
  sys_inv s -> plain key -> 0 <= ttl -> renew l w (now s) key token ttl (store s) = (d, r) ->
  sys_inv {| store := d; now := now s; leases := renewed (is_ok r) key token (now s + ttl_millis ttl) <$> leases s;
             used := used s; tries := tries s; grants := grants s |}.
Proof.
  intros Hs Hp Ht Hr. apply renew_cases in Hr; [|done].
  assert (Hall : filter (fun _ : lease => True) (leases s) = leases s).
  { induction (leases s) as [|x xs IH]; [done|]. by rewrite filter_cons_True, IH. }
  rewrite <- Hall. apply leases_inv; try done.
  - intros x. unfold renewed. case_bool_decide as E; [by destruct E as [-> ->] | done].
  - intros k. destruct Hr as [[-> _] | [_ [[_ ->] | ->]]]; [done| |];
      rewrite ?lookup_delete_ne, ?lookup_insert_ne by apply Hp; done.
  - intros x _ _ Hb. unfold renewed. case_bool_decide as E.
    + destruct E as [Ek Et]. destruct Hb as [Hpl Hb]. split; [done|]. cbn [l_key l_token l_until now store].
      destruct Hr as [[Hd ->] | [_ [[H0 _] | Hd]]].
      * intros Hl. destruct Hb as (e & He & Hle); [lia|]. exists e. rewrite Hd, <- Ek, <- Et. split; [done|lia].
      * rewrite H0. destruct (is_ok r); lia.
      * intros _. exists (now s + ttl_millis ttl). rewrite Hd, lookup_insert_eq. split; [done|]. destruct (is_ok r); lia.
    + apply (backed_mono s); [done|done|]. cbn [store]. intros e He.
      destruct Hr as [[-> _] | [[y Hy] Hd]]; [done|].
      assert (l_key x <> key) by (intros Ek; apply E; split; [done|]; rewrite Ek in He; rewrite Hy in He; by injection He).
      destruct Hd as [[_ ->] | ->]; by rewrite ?lookup_delete_ne, ?lookup_insert_ne.
Qed.

Lemma acquire_inv s w key ttl token d r :
  sys_inv s -> plain key -> token ∉ used s -> acquire l w (now s) key ttl token (store s) = (d, r) ->
  sys_inv {| store := d; now := now s;
             leases := match r with
                       | Ok (Some _) => {| l_key := key; l_token := token; l_until := now s + ttl_millis ttl |} :: leases s
                       | _ => leases s
                       end;
             used := {[token]} ∪ used s; tries := tries s; grants := grants s |}.
Proof.
  intros Hs Hp Ht Ha. apply acquire_cases in Ha.
  set (new := match r with Ok (Some _) => [{| l_key := key; l_token := token; l_until := now s + ttl_millis ttl |}] | _ => [] end).
  replace (match r with Ok (Some _) => _ | _ => _ end) with (new ++ leases s) by (unfold new; destruct r as [[]|]; done).
  apply (acquired_inv s d key token (now s + ttl_millis ttl)); try done.
  - destruct Ha as [[-> _] | (_ & -> & _)]; [done|]. intros k Hk. by rewrite lookup_insert_ne.
  - destruct Ha as [[-> Hr] | (Hn & -> & Hr)].
    + left. split; [done|]. unfold new. destruct r as [[tok|]|]; try done. by destruct (Hr tok).
    + right. split; [done|]. split; [by rewrite lookup_insert_eq|]. unfold new. destruct r as [[tok|]|]; auto.
Qed.

Lemma acquire_fenced_inv s w key ttl token d r :
  sys_inv s -> plain key -> token ∉ used s -> tried s key + 1 < 2 ^ 63 ->
  acquire_fenced l w (now s) key ttl token (store s) = (d, r) ->
  sys_inv {| store := d; now := now s;
             leases := match r with
                       | Ok (Some _) => {| l_key := key; l_token := token; l_until := now s + ttl_millis ttl |} :: leases s
                       | _ => leases s
                       end;
             used := {[token]} ∪ used s;
             tries := if runs l w then <[key := tried s key + 1]> (tries s) else tries s;
             grants := match r with Ok (Some g) => (key, fence g) :: grants s | _ => grants s end |}.
Proof.
  intros Hs Hp Ht Hb Ha. destruct (si_counter s Hs key) as [Hc Hn].
  destruct (acquire_fenced_cases w (now s) key ttl token (store s) d r _ Hp Hc (proj1 Hn) Hb Ha) as (d1 & E1 & H).
  set (s1 := {| store := d1; now := now s; leases := leases s; used := used s;
                tries := if runs l w then <[key := tried s key + 1]> (tries s) else tries s; grants := grants s |}).
  assert (Hs1 : sys_inv s1).
  { unfold s1. destruct (runs l w) eqn:Hw; [by apply attempt_inv|]. destruct Hs as [H1 H2 H3 H4 H5 H6]. split; try done.
    - eapply Forall_impl; [exact H1|]. intros x Hx. apply (backed_mono s); [done|done|]. cbn [store]. by rewrite E1.
    - intros k. destruct (H4 k) as [Hk1 Hk2]. split; [|done]. apply (counter_mono s); [done|]. cbn [store]. by rewrite E1. }
  set (new := match r with Ok (Some _) => [{| l_key := key; l_token := token; l_until := now s + ttl_millis ttl |}] | _ => [] end).
  replace (match r with Ok (Some _) => _ :: leases s | _ => _ end) with (new ++ leases s) by (unfold new; destruct r as [[]|]; done).
  assert (Hs2 : sys_inv {| store := d; now := now s; leases := new ++ leases s; used := {[token]} ∪ used s; tries := tries s1;
                           grants := grants s |}).
  { apply (acquired_inv s1 d key token (now s + ttl_millis ttl) new); try done;
      change (now s1) with (now s); change (store s1) with d1.
    - destruct H as [[-> _] | (_ & _ & -> & _)]; [done|]. intros k Hk. by rewrite lookup_insert_ne.
    - destruct H as [[Hd Hr] | (_ & Hnone & Hd & Hr)]; rewrite Hd.
      + left. split; [done|]. unfold new. destruct r as [[g|]|]; try done. by destruct (Hr g).
      + right. split; [done|]. split; [by rewrite lookup_insert_eq|]. unfold new. destruct r as [[g|]|]; auto. }
  destruct r as [[g|]|e]; try exact Hs2. destruct H as [[_ Hr] | (Hw & _ & _ & Hr)]; [by destruct (Hr g)|].
  rewrite (Hr g eq_refl). cbn [fence]. apply (granted_inv _ _ _ Hs2); [|lia|].
  - unfold tried at 2. cbn [tries s1]. rewrite Hw. rewrite tried_insert. by rewrite decide_True.
  - eapply Forall_impl; [apply (si_granted s Hs)|]. intros [k f] Hf E. cbn in E |- *. subst k. cbn in Hf. lia.
Qed.

Lemma lock_step_inv s s' : sys_inv s -> step s s' -> sys_inv s'.
Proof.
  intros Hs Hst. destruct Hst.
  - by apply tick_inv.
  - by eapply acquire_inv.
  - by eapply acquire_fenced_inv.
  - by eapply release_inv.
  - by eapply renew_inv.
Qed.

Lemma reachable_sys_inv s : reachable init step s -> sys_inv s.
Proof. apply invariant_reachable. split; [apply lock_init_inv | apply lock_step_inv]. Qed.

(** ** The guarantees *)

(** C28. Two leases of one key that have not run out are one lease: whatever calls fail,
    lose their answer or run late, one process at most holds a lock. *)
Theorem leases_exclude_each_other s x y :
  reachable init step s -> x ∈ leases s -> y ∈ leases s -> l_key x = l_key y ->
  now s < l_until x -> now s < l_until y -> x = y.
Proof.
  intros Hs%reachable_sys_inv Hx Hy Hk Lx Ly. pose proof (si_backed s Hs) as Hb. rewrite Forall_forall in Hb.
  destruct (Hb x Hx) as [_ (e & He & _)]; [done|]. destruct (Hb y Hy) as [_ (e' & He' & _)]; [done|].
  rewrite Hk, He' in He. injection He as Ht _. pose proof (si_distinct s Hs) as Hd.
  apply list_elem_of_lookup in Hx as [i Hi]. apply list_elem_of_lookup in Hy as [j Hj].
  assert (i = j) as ->; [|congruence]. eapply (NoDup_lookup _ i j (l_token x) Hd); rewrite list_lookup_fmap, ?Hi, ?Hj; cbn; congruence.
Qed.

(** The fences granted for a key grow: each is larger than those granted before it. *)
Theorem fences_grow s gs key f gs' f' :
  reachable init step s -> grants s = gs ++ (key, f) :: gs' -> (key, f') ∈ gs' -> 0 < f' < f.
Proof.
  intros Hs%reachable_sys_inv Hg Hf. pose proof (si_grants s Hs) as H. pose proof (si_granted s Hs) as Hq. rewrite Hg in H, Hq.
  assert (Hs' : StronglySorted (fun a b => a.1 = b.1 -> b.2 < a.2) ((key, f) :: gs')).
  { clear Hg Hq. induction gs as [|g gs IH]; [done|]. apply IH. by apply StronglySorted_inv in H as [H _]. }
  clear H. apply StronglySorted_inv in Hs' as [_ H]. rewrite Forall_forall in H, Hq. split.
  - apply (Hq (key, f')). set_solver.
  - by apply (H (key, f')).
Qed.

(** What a validation answers: whether the fence is that of the last attempt. *)
Lemma validate_answers s key f :
  sys_inv s -> 0 < tried s key ->
  (validate_fence l Answered (now s) key f (store s)).2 = Ok (tried s key =? f).
Proof.
  intros Hs Ht. destruct (si_counter s Hs key) as [Hc Hn]. unfold counter_is in Hc.
  assert (tried s key =? 0 = false) as E by lia. rewrite E in Hc. unfold validate_fence, with_timeout.
  destruct (query_timeout l); cbn [snd]; rewrite get_entry, Hc; cbn [fmap option_fmap option_map fst];
    rewrite parse_dec_text by lia; done.
Qed.

(** A granted fence validates exactly while nobody has asked for the key with a fence
    since: as soon as somebody has, it is refused for ever. *)
Theorem fence_validates_until_the_next_attempt s key f s' :
  reachable init step s -> (key, f) ∈ grants s -> rtc step s s' ->
  (validate_fence l Answered (now s') key f (store s')).2 = Ok (tried s' key =? f) /\ f <= tried s' key.
Proof.
  intros Hs Hg Hst. assert (Hs' : sys_inv s').
  { apply reachable_sys_inv. destruct Hs as (s0 & H0 & Hr). exists s0. split; [done|]. by etrans. }
  assert (Hf : 0 < f <= tried s' key); [|by split; [apply validate_answers; [done|lia] | lia]].
  assert (Hin : (key, f) ∈ grants s').
  { clear Hs Hs'. induction Hst as [|a b c Hab _ IH]; [done|]. apply IH. destruct Hab; cbn [grants]; try done. destruct r as [[]|]; set_solver. }
  pose proof (si_granted s' Hs') as Hq. rewrite Forall_forall in Hq. by apply (Hq (key, f)).
Qed.

(** ** Gaps *)

Lemma set_taken t d k v px x :
  entries t d !! k = Some x -> valid_px t px = true ->
  exists d', call_set_nx_px t d k v px = (d', Ok false) /\ entries t d' = entries t d.
Proof.
  intros Hk Hv. pose proof (set_entry t d k v px) as H. unfold after_set_nx in H. rewrite Hv, Hk in H.
  destruct (call_set_nx_px t d k v px) as [d' [b|e]]; cbn in H; [|by injection H]. injection H as H ->. eauto.
Qed.

Lemma set_free t d k v px :
  entries t d !! k = None -> valid_px t px = true ->
  exists d', call_set_nx_px t d k v px = (d', Ok true) /\ entries t d' = <[k := (v, Some (t + px))]> (entries t d).
Proof.
  intros Hk Hv. pose proof (set_entry t d k v px) as H. unfold after_set_nx in H. rewrite Hv, Hk in H.
  destruct (call_set_nx_px t d k v px) as [d' [b|e]]; cbn in H; [|by injection H]. injection H as H ->. eauto.
Qed.

Lemma answered {A} op (cmd : db -> db * result A LockError) d : with_timeout l Answered op cmd d = cmd d.
Proof. unfold with_timeout. by destruct (query_timeout l). Qed.

(** An attempt that does not get the lock still refuses the fence of the process that
    has it: the holder of a running lease, whose fence was the last one, no longer
    validates although nobody took the lock over. *)
Theorem failed_attempt_refuses_the_holder s x f token ttl :
  reachable init step s -> x ∈ leases s -> now s < l_until x -> (l_key x, f) ∈ grants s -> tried s (l_key x) = f ->
  f + 1 < 2 ^ 63 -> valid_px (now s) (ttl_millis ttl) = true ->
  (validate_fence l Answered (now s) (l_key x) f (store s)).2 = Ok true /\
  exists d e, acquire_fenced l Answered (now s) (l_key x) ttl token (store s) = (d, Ok None) /\
    entries (now s) d !! l_key x = Some (l_token x, Some e) /\
    (validate_fence l Answered (now s) (l_key x) f d).2 = Ok false.
Proof.
  intros Hs%reachable_sys_inv Hx Hl Hg Hf Hb Hv. pose proof (si_granted s Hs) as Hq. rewrite Forall_forall in Hq.
  destruct (Hq _ Hg) as [H0 _]. cbn in H0. split.
  { rewrite validate_answers by (done || lia). by rewrite Hf, Z.eqb_refl. }
  pose proof (si_backed s Hs) as Hbk. rewrite Forall_forall in Hbk. destruct (Hbk x Hx) as [Hp Hb']. destruct (Hb' Hl) as (e & He & _).
  destruct (si_counter s Hs (l_key x)) as [Hc Hn]. rewrite Hf in Hc, Hn.
  destruct (call_incr (now s) (store s) (fence_key (l_key x))) as [d1 r1] eqn:E1.
  apply (incr_counter _ _ _ f) in E1 as E2; try done; [|lia]. destruct E2 as [-> E2].
  assert (He1 : entries (now s) d1 !! l_key x = Some (l_token x, Some e)).
  { rewrite E2, lookup_insert_ne by apply not_eq_sym, Hp. done. }
  destruct (set_taken _ _ _ token _ _ He1 Hv) as (d2 & E3 & E4). exists d2, e. split; [|split; [by rewrite E4|]].
  - unfold acquire_fenced. rewrite answered. unfold FENCE_SCRIPT. by rewrite E1, E3.
  - unfold validate_fence. rewrite answered, get_entry, E4, E2, lookup_insert_eq. cbn [snd fmap option_fmap option_map fst].
    rewrite parse_dec_text by lia. f_equal. lia.
Qed.

(** An acquisition without a fence leaves the counter: when a lease has run out and
    another process takes the lock plainly, the old fence still validates. *)
Theorem plain_acquire_keeps_the_old_fence s key f token ttl :
  reachable init step s -> plain key -> (key, f) ∈ grants s -> tried s key = f ->
  entries (now s) (store s) !! key = None -> valid_px (now s) (ttl_millis ttl) = true ->
  exists d, acquire l Answered (now s) key ttl token (store s) = (d, Ok (Some token)) /\
    entries (now s) d !! key = Some (token, Some (now s + ttl_millis ttl)) /\
    (validate_fence l Answered (now s) key f d).2 = Ok true.
Proof.
  intros Hs%reachable_sys_inv Hp Hg Hf Hk Hv. pose proof (si_granted s Hs) as Hq. rewrite Forall_forall in Hq.
  destruct (Hq _ Hg) as [H0 _]. cbn in H0. destruct (si_counter s Hs key) as [Hc Hn]. rewrite Hf in Hc, Hn.
  destruct (set_free _ _ _ token _ Hk Hv) as (d & E & Hd). exists d. split; [|split].
  - unfold acquire. rewrite answered. by rewrite E.
  - by rewrite Hd, lookup_insert_eq.
  - unfold counter_is in Hc. assert (f =? 0 = false) as E0 by lia. rewrite E0 in Hc.
    unfold validate_fence. rewrite answered, get_entry, Hd, lookup_insert_ne by apply Hp. rewrite Hc. cbn.
    rewrite parse_dec_text by lia. f_equal. apply Z.eqb_refl.
Qed.

(** Renewing for less than a millisecond deletes the lock and answers success: the
    next process gets it at once. *)
Theorem short_renewal_gives_the_lock_up t d key token ttl x token' ttl' :
  entries t d !! key = Some (token, x) -> 0 <= ttl < 10 ^ 6 -> valid_px t (ttl_millis ttl') = true ->
  exists d' d'', renew l Answered t key token ttl d = (d', Ok tt) /\
    acquire l Answered t key ttl' token' d' = (d'', Ok (Some token')).
Proof.
  intros Hk Ht Hv. assert (H0 : ttl_millis ttl = 0).
  { unfold ttl_millis, u64_max. rewrite Z.div_small by lia. lia. }
  unfold renew, acquire. setoid_rewrite answered. unfold RENEW_SCRIPT. rewrite get_entry, Hk, bool_decide_true by done. rewrite H0.
  pose proof (pexpire_entry t d key 0) as Hx. unfold after_pexpire in Hx. rewrite Hk in Hx. cbn in Hx.
  destruct (call_pexpire t d key 0) as [d' [n|e]]; cbn in Hx; [|by injection Hx]. injection Hx as Hd ->.
  assert (Hf : entries t d' !! key = None) by by rewrite Hd, lookup_delete_eq.
  destruct (set_free _ _ _ token' _ Hf Hv) as (d'' & E & _). exists d', d''. cbn. by rewrite E.
Qed.

End Spec.
End LockSpec.

(** ** A server *)

Module LockDemo.
Import RedisLock LockSystem LockSpec.

Definition purge (t : Z) (m : gmap string Entry) : gmap string Entry := filter (fun kv => alive t kv.2) m.

Definition answer {A} (r : gmap string Entry * option A) : gmap string Entry * result A string :=
  (r.1, match r.2 with Some a => Ok a | None => Err "ERR value is not an integer or out of range" end).

Definition incr_in (m : gmap string Entry) (k : string) : gmap string Entry * option Z :=
  match m !! k with
  | None => (<[k := (dec_text 1, None)]> m, Some 1)
  | Some (v, x) =>
      match parse_uint 63 v with
      | Some n => if n + 1 <? 2 ^ 63 then (<[k := (dec_text (n + 1), x)]> m, Some (n + 1)) else (m, None)
      | None => (m, None)
      end
  end.

#[local] Instance demo_server : RedisServer := {|
  db := gmap string Entry;
  call_get t d k := fst <$> purge t d !! k;
  call_set_nx_px t d k v px := answer (after_set_nx t (purge t d) k v px);
  call_incr t d k := answer (incr_in (purge t d) k);
  call_del t d k := delete k (purge t d);
  call_pexpire t d k px := answer (after_pexpire t (purge t d) k px)
|}.

Lemma purge_later t t' m : t <= t' -> purge t' m = purge t' (purge t m).
Proof.
  intros Ht. unfold purge. rewrite map_filter_filter. apply map_filter_ext. intros k [v [x|]] _; unfold alive; cbn; [lia|tauto].
Qed.

(** A server never keeps what is dead. *)
Lemma purge_alive t m : (forall k e, m !! k = Some e -> alive t e) -> purge t m = m.
Proof. intros H. apply map_filter_id. intros k e He. by apply (H k). Qed.

Lemma purge_lookup_alive t m k e : purge t m !! k = Some e -> alive t e.
Proof. intros H. by apply map_lookup_filter_Some in H as [_ H]. Qed.

Lemma purge_insert t m k e : alive t e -> purge t (<[k := e]> (purge t m)) = <[k := e]> (purge t m).
Proof.
  intros He. apply purge_alive. intros k' e' H. destruct (decide (k' = k)) as [->|Hne].
  - rewrite lookup_insert_eq in H. by injection H as <-.
  - rewrite lookup_insert_ne in H by done. by eapply purge_lookup_alive.
Qed.

Lemma purge_delete t m k : purge t (delete k (purge t m)) = delete k (purge t m).
Proof.
  apply purge_alive. intros k' e' H. apply lookup_delete_Some in H as [_ H]. by eapply purge_lookup_alive.
Qed.

Lemma purge_purge t m : purge t (purge t m) = purge t m.
Proof. symmetry. apply purge_later. lia. Qed.

Lemma valid_px_later t px : valid_px t px = true -> t < t + px.
Proof. unfold valid_px. lia. Qed.

#[local] Instance demo_redis : RedisLaw.
Proof.
  refine {| entries t (d : @db demo_server) := purge t d |}.
  - intros t t' d. apply purge_later.
  - done.
  - intros t d k v px. cbn. unfold after_set_nx, answer.
    destruct (valid_px t px) eqn:Hv; [destruct (purge t d !! k)|]; cbn; rewrite ?purge_purge; try done.
    rewrite purge_insert; [done|]. by apply valid_px_later.
  - intros t d k H. cbn. unfold answer, incr_in. rewrite H. cbn. by rewrite purge_insert.
  - intros t d k n x H Hn Hb. cbn [call_incr demo_server]. unfold answer, incr_in. rewrite H, parse_dec_text by lia.
    assert (n + 1 <? 2 ^ 63 = true) as -> by lia. cbn [fst snd]. rewrite purge_insert; [done|]. by apply (purge_lookup_alive _ _ _ _ H).
  - intros t d k. apply purge_delete.
  - intros t d k px. cbn. unfold after_pexpire, answer. destruct (purge t d !! k) as [[v x]|]; [|by cbn; rewrite purge_purge].
    destruct (px <=? 0); [by cbn; rewrite purge_delete|]. destruct (valid_px t px) eqn:Hv; cbn; rewrite ?purge_purge; try done.
    rewrite purge_insert; [done|]. by apply valid_px_later.
Defined.

Definition demo_lock : RedisLock := of_config None.
Definition ten_seconds : Z := 10 * 10 ^ 9.

(** One fenced acquisition of an empty server at instant 5. *)
Definition d0 : db := ∅.
Definition s0 : sys := {| store := d0; now := 5; leases := []; used := ∅; tries := ∅; grants := [] |}.
Definition d1 : db := (acquire_fenced demo_lock Answered 5 "job" ten_seconds "a" d0).1.
Definition held : lease := {| l_key := "job"; l_token := "a"; l_until := 10005 |}.
Definition s1 : sys :=
  {| store := d1; now := 5; leases := [held]; used := {["a"]} ∪ ∅; tries := <["job" := 1]> ∅; grants := [("job", 1)] |}.

Lemma job_plain : plain "job".
Proof. intros k H. discriminate H. Qed.

Lemma s0_init : init s0.
Proof. split; [|done]. apply purge_alive. intros k e H. by rewrite lookup_empty in H. Qed.

Lemma s1_step : step demo_lock s0 s1.
Proof.
  apply (S_acquire_fenced demo_lock s0 Answered "job" ten_seconds "a" d1 (Ok (Some {| token := "a"; fence := 1 |})));
    [apply job_plain | set_solver | by vm_compute | by vm_compute].
Qed.

Lemma s1_reached : reachable init (step demo_lock) s1.
Proof. exists s0. split; [apply s0_init|]. eapply rtc_l; [apply s1_step | apply rtc_refl]. Qed.

(** The same, later: the lease has run out. *)
Definition s2 : sys :=
  {| store := d1; now := 20000; leases := [held]; used := used s1; tries := tries s1; grants := grants s1 |}.

Lemma s2_step : step demo_lock s1 s2.
Proof. apply (S_tick demo_lock s1 20000). cbn. lia. Qed.

Lemma s2_reached : reachable init (step demo_lock) s2.
Proof.
  exists s0. split; [apply s0_init|]. eapply rtc_l; [apply s1_step|]. eapply rtc_l; [apply s2_step | apply rtc_refl].
Qed.

(** And granted once more. *)
Definition d3 : db := (acquire_fenced demo_lock Answered 20000 "job" ten_seconds "b" d1).1.
Definition s3 : sys :=
  {| store := d3; now := 20000; leases := [{| l_key := "job"; l_token := "b"; l_until := 30000 |}; held];
     used := {["b"]} ∪ used s2; tries := <["job" := 2]> (tries s2); grants := [("job", 2); ("job", 1)] |}.

Lemma s3_step : step demo_lock s2 s3.
Proof.
  apply (S_acquire_fenced demo_lock s2 Answered "job" ten_seconds "b" d3 (Ok (Some {| token := "b"; fence := 2 |})));
    [apply job_plain | set_solver | by vm_compute | by vm_compute].
Qed.

Lemma s3_reached : reachable init (step demo_lock) s3.
Proof.
  exists s0. split; [apply s0_init|]. eapply rtc_l; [apply s1_step|]. eapply rtc_l; [apply s2_step|].
  eapply rtc_l; [apply s3_step | apply rtc_refl].
Qed.

Lemma leases_exclude_each_other_witness : held = held.
Proof.
  exact (leases_exclude_each_other demo_lock s1 held held s1_reached (list_elem_of_here held []) (list_elem_of_here held [])
    eq_refl eq_refl eq_refl).
Defined.

Lemma fences_grow_witness : 0 < 1 < 2.
Proof. exact (fences_grow demo_lock s3 [] "job" 2 [("job", 1)] 1 s3_reached eq_refl (list_elem_of_here _ _)). Defined.

Lemma fence_validates_until_the_next_attempt_witness :
  (validate_fence demo_lock Answered (now s3) "job" 1 (store s3)).2 = Ok false /\ 1 <= tried s3 "job".
Proof.
  exact (fence_validates_until_the_next_attempt demo_lock s1 "job" 1 s3 s1_reached (list_elem_of_here _ _)
    (rtc_l _ _ _ _ s2_step (rtc_l _ _ _ _ s3_step (rtc_refl _ _)))).
Defined.

Lemma failed_attempt_refuses_the_holder_witness :
  (validate_fence demo_lock Answered (now s1) "job" 1 (store s1)).2 = Ok true /\
  exists d e, acquire_fenced demo_lock Answered (now s1) "job" ten_seconds "b" (store s1) = (d, Ok None) /\
    entries (now s1) d !! "job" = Some ("a", Some e) /\
    (validate_fence demo_lock Answered (now s1) "job" 1 d).2 = Ok false.
Proof.
  exact (failed_attempt_refuses_the_holder demo_lock s1 held 1 "b" ten_seconds s1_reached (list_elem_of_here _ _) eq_refl
    (list_elem_of_here _ _) eq_refl eq_refl eq_refl).
Defined.

Lemma plain_acquire_keeps_the_old_fence_witness :
  exists d, acquire demo_lock Answered (now s2) "job" ten_seconds "c" (store s2) = (d, Ok (Some "c")) /\
    entries (now s2) d !! "job" = Some ("c", Some (now s2 + ttl_millis ten_seconds)) /\
    (validate_fence demo_lock Answered (now s2) "job" 1 d).2 = Ok true.
Proof.
  apply (plain_acquire_keeps_the_old_fence demo_lock s2 "job" 1 "c" ten_seconds s2_reached job_plain).
  - apply list_elem_of_here.
  - reflexivity.
  - reflexivity.
  - reflexivity.
Defined.

Lemma short_renewal_gives_the_lock_up_witness :
  exists d' d'', renew demo_lock Answered 5 "job" "a" 500000 d1 = (d', Ok tt) /\
    acquire demo_lock Answered 5 "job" ten_seconds "b" d' = (d'', Ok (Some "b")).
Proof.
  apply (short_renewal_gives_the_lock_up demo_lock 5 d1 "job" "a" 500000 (Some 10005) "b" ten_seconds).
  - reflexivity.
  - lia.
  - reflexivity.
Defined.

End LockDemo.
