(* ===== verification/Middleware.v ===== *)
(** * Request middleware ([ecat-middleware])

    [src/ecat-middleware/src/ratelimit.rs] ([Module RateLimit]: the in-memory fixed-window
    store, the limiter and the key of a request), [retry.rs] ([Module Retry]: the
    policy and its back-off) and [ratelimit_redis.rs] ([Module RedisLimit]: the fixed window
    as one Lua script on the server that [Lock] describes).

    Time: [Instant::now()] is the [t]-th value of a clock in nanoseconds, as in
    [CircuitBreaker]; every read advances [t].  The store's mutex makes a check one
    step. *)

From Stdlib Require Import Ascii.
From S2P Require Import Prelude Clock Json Text.

Local Open Scope Z_scope.
Local Open Scope ecat_scope.

Module RateLimit.

Definition SWEEP_INTERVAL : Z := 60 * second.
Definition MAX_IDLE : Z := 24 * 60 * 60 * second.

Record MemoryStoreInner := {
  buckets : gmap string (Z * Z);
  last_sweep : Z;
}.

Definition exceeded : string := "rate limit exceeded".

Section Store.
Context (clk : nat -> Z).

Definition new (t : nat) : MemoryStoreInner * nat := ({| buckets := ∅; last_sweep := clk t |}, S t).

(** [Instant::elapsed]. *)
Definition elapsed (since : Z) (t : nat) : Z := sat_sub (clk t) since.

(** The sweep: three reads of the clock, or one. *)
Definition sweep (s : MemoryStoreInner) (t : nat) : MemoryStoreInner * nat :=
  if SWEEP_INTERVAL <=? elapsed (last_sweep s) t
  then ({| buckets := filter (fun kv => clk (S t) - MAX_IDLE < kv.2.2) (buckets s);
           last_sweep := clk (S (S t)) |}, S (S (S t)))
  else (s, S t).

Definition put (key : string) (b : Z * Z) (s : MemoryStoreInner) : MemoryStoreInner :=
  {| buckets := <[key := b]> (buckets s); last_sweep := last_sweep s |}.

(** [or_insert] evaluates its argument whether or not the key is there. *)
Definition check (key : string) (max window_secs : Z) (s : MemoryStoreInner) (t : nat)
    : result unit string * MemoryStoreInner * nat :=
  let '(s, t) := sweep s t in
  let '(n, at_) := default (0, clk t) (buckets s !! key) in
  if window_secs * second <? elapsed at_ (S t)
  then (Ok tt, put key (1, clk (S (S t))) s, S (S (S t)))
  else
    let n := u32_add n 1 in
    (if max <? n then Err exceeded else Ok tt, put key (n, at_) s, S (S t)).

(** [RateLimiter]: [Duration::as_secs] drops the fraction. *)
Record RateLimiter := { max_requests : Z; window : Z }.

Definition as_secs (d : Z) : Z := d / second.

Definition allow (l : RateLimiter) (key : string) (s : MemoryStoreInner) (t : nat)
    : bool * MemoryStoreInner * nat :=
  let '(r, s, t) := check key (max_requests l) (as_secs (window l)) s t in (is_ok r, s, t).

(** *** Requests *)

(** What the key is read from: the peer address of the connection and the headers that
    are text. *)
Record Request := { connect_info : option string; header : string -> option string }.

Definition first_hop (v : string) : string :=
  trim (match split_once ","%char v with Some (hop, _) => hop | None => v end).

Fixpoint first_header (r : Request) (names : list string) : option string :=
  match names with
  | [] => None
  | name :: names =>
      match header r name with
      | Some v => if String.eqb (first_hop v) "" then first_header r names else Some (first_hop v)
      | None => first_header r names
      end
  end.

Definition default_key_fn (r : Request) (trust_proxy : bool) : string :=
  match connect_info r with
  | Some addr => addr
  | None =>
      default "global" (if trust_proxy then first_header r ["x-forwarded-for"; "x-real-ip"] else None)
  end.

(** [RateLimitService::call]: the inner service's future is only driven when the request
    is allowed. *)
Definition limited {W T E} (l : RateLimiter) (key_fn : Request -> string) (r : Request)
    (s : MemoryStoreInner) (t : nat) (inner : W -> result T E * W) (w : W)
    : result T (string + E) * MemoryStoreInner * nat * W :=
  let '(ok, s, t) := allow l (key_fn r) s t in
  if ok then let '(res, w) := inner w in (map_err inr res, s, t, w)
  else (Err (inl exceeded), s, t, w).

(** A sequence of checks of one limit: the key, the verdict, when it began and ended. *)
Record event := { ev_key : string; admitted : bool; began : Z; ended : Z }.

Fixpoint checks (max window_secs : Z) (keys : list string) (s : MemoryStoreInner) (t : nat)
    : list event :=
  match keys with
  | [] => []
  | key :: keys =>
      let '(r, s', t') := check key max window_secs s t in
      {| ev_key := key; admitted := is_ok r; began := clk t; ended := clk t' |}
        :: checks max window_secs keys s' t'
  end.

End Store.
End RateLimit.

Module Retry.

(** [as_nanos] is a [u128]. *)
Definition u128_max : Z := 2 ^ 128 - 1.

Definition exponential_backoff (base max_delay retry_number : Z) : Z :=
  let exp := sat_sub retry_number 1 in
  let nanos := Z.min u128_max (base * 2 ^ Z.min exp 127) in
  Z.min (if nanos <=? u64_max then nanos else u64_max) max_delay.

Section Policy.
Context {Req T E : Type}.

(** [RetryRule]; the default retries errors only. *)
Definition Rule : Type := Req -> result T E -> bool.

Definition default_rule : Rule := fun _ r => negb (is_ok r).

Record RetryLayer := { max_attempts : Z; base_delay : Z; max_delay : Z; rule : Rule }.

Definition default_layer : RetryLayer :=
  {| max_attempts := 3; base_delay := second; max_delay := 30 * second; rule := default_rule |}.

(** [RetryPolicy::retry]: the attempts made and, to go on, the delay. *)
Definition retry (l : RetryLayer) (attempts : Z) (req : Req) (r : result T E) : Z * option Z :=
  let attempts := u32_add attempts 1 in
  if max_attempts l <=? attempts then (attempts, None)
  else if negb (rule l req r) then (attempts, None)
  else (attempts, Some (exponential_backoff (base_delay l) (max_delay l) attempts)).

(** The calls of one request, with the delays slept: the service is called until the
    policy gives up.  [fuel] bounds the attempts. *)
Fixpoint attempts_from {W} (fuel : nat) (l : RetryLayer) (attempts : Z) (req : Req)
    (service : Req -> W -> result T E * W) (w : W) : option (result T E * list Z * W) :=
  match fuel with
  | O => None
  | S fuel =>
      let '(r, w) := service req w in
      match retry l attempts req r with
      | (_, None) => Some (r, [], w)
      | (attempts, Some delay) =>
          match attempts_from fuel l attempts req service w with
          | Some (r, delays, w) => Some (r, delay :: delays, w)
          | None => None
          end
      end
  end.

(** [RetryService::call]. *)
Definition call {W} (fuel : nat) (l : RetryLayer) (req : Req) (service : Req -> W -> result T E * W)
    (w : W) : option (result T E * list Z * W) := attempts_from fuel l 0 req service w.

End Policy.
End Retry.

(** ** Rate limits over Redis *)

From S2P Require Import Lock.


(** EXPIRE, in seconds; a time that does not fit is an error. *)
Class RedisExpire `{RS : RedisServer} := { call_expire : Z -> db -> string -> Z -> db * result Z string }.

Class ExpireLaw `{RE : RedisExpire} `{RL : !RedisLaw} := {
  expire_entry t d k secs :
    (entries t (call_expire t d k secs).1, reply (call_expire t d k secs).2) =
      if secs <? 2 ^ 63 then after_pexpire t (entries t d) k (secs * 1000) else (entries t d, None)
}.

Module RedisLimit.
Import RedisLock RateLimit.

Section Store.
Context `{RE : RedisExpire}.

(** [c] is returned whether or not the expiry was set. *)
Definition INCR_SCRIPT (t : Z) (key : string) (window_secs : Z) (d : db) : db * result Z string :=
  match call_incr t d key with
  | (d, Err e) => (d, Err e)
  | (d, Ok c) =>
      if c =? 1 then
        match call_expire t d key window_secs with
        | (d, Ok _) => (d, Ok c)
        | (d, Err _) => (call_del t d key, Ok c)
        end
      else (d, Ok c)
  end.

Definition rate_key (key : string) : string := "rl:" +:+ key.

(** The script on the wire; there is no time limit of this store's own. *)
Definition invoke (w : wire) (t : Z) (key : string) (window_secs : Z) (d : db) : db * result Z string :=
  match w with
  | NoConnection e => (d, Err e)
  | NotRun => (d, Err "connection lost")
  | Unanswered => ((INCR_SCRIPT t key window_secs d).1, Err "connection lost")
  | Answered => INCR_SCRIPT t key window_secs d
  end.

(** An error of the server admits the request; [count as u32] wraps. *)
Definition check (w : wire) (t : Z) (key : string) (max window_secs : Z) (d : db) : db * result unit string :=
  match invoke w t (rate_key key) window_secs d with
  | (d, Err _) => (d, Ok tt)
  | (d, Ok count) => (d, if max <? wrap 32 count then Err exceeded else Ok tt)
  end.

(** The checks of one key, by any process, in the order they reach the server: how many
    are admitted. *)
Fixpoint admitted (key : string) (max window_secs : Z) (times : list Z) (d : db) : Z :=
  match times with
  | [] => 0
  | t :: times =>
      let '(d, r) := check Answered t key max window_secs d in
      (if is_ok r then 1 else 0) + admitted key max window_secs times d
  end.

End Store.
End RedisLimit.
