(* ===== verification/MiddlewareSpec.v ===== *)
(** * What the middleware promises

    The fixed-window limiter admits at most twice its limit in any span of a window's
    length and refuses only a key that used its limit up; retries are bounded and their
    delays too.  And what the limiter does not do: windows under a second or over a day,
    and a limit of zero. *)

From S2P Require Import Prelude Clock Json Text Middleware.

Local Open Scope Z_scope.
Local Open Scope ecat_scope.

Module RateLimitFacts.
Import RateLimit.

Section Facts.
Context (clk : nat -> Z) (max window_secs : Z).
Context (clk_mono : forall a b, (a <= b)%nat -> clk a <= clk b).
Context (window_range : 0 <= window_secs * second < MAX_IDLE).
Context (max_range : 1 <= max < 2 ^ 32 - 1).

Local Abbreviation W := (window_secs * second).

(** The state at a time: buckets began before, with at most [m] requests. *)
Definition past (m : Z) (s : MemoryStoreInner) (t : nat) : Prop :=
  forall k n at_, buckets s !! k = Some (n, at_) -> at_ <= clk t /\ 0 <= n <= m.

(** The bucket of a key stays, or it goes, too old to count. *)
Definition kept (s s' : MemoryStoreInner) (t' : nat) (k : string) : Prop :=
  buckets s' !! k = buckets s !! k \/
  buckets s' !! k = None /\ exists n at_, buckets s !! k = Some (n, at_) /\ at_ + W < clk t'.

Lemma sweep_spec m s t s' t' :
  sweep clk s t = (s', t') -> past m s t ->
  (t < t')%nat /\ past m s' t' /\ forall k, kept s s' t' k.
Proof.
  unfold sweep. intros H Hp. destruct (_ <=? _); simplify_eq/=.
  - split; [lia|]. split.
    + intros k' n at_ Hk. apply map_lookup_filter_Some in Hk as [Hk _].
      specialize (Hp _ _ _ Hk). pose proof (clk_mono t (S (S (S t)))). lia.
    + intros k. unfold kept. cbn [buckets]. destruct (buckets s !! k) as [[n at_]|] eqn:Hk.
      * destruct (decide (clk (S t) - MAX_IDLE < at_)) as [Hlt|Hge].
        -- left. by apply map_lookup_filter_Some.
        -- right. split; [|exists n, at_; split; [done|]].
           ++ apply map_lookup_filter_None. right. intros x Hx. rewrite Hk in Hx. by simplify_eq.
           ++ pose proof (clk_mono (S t) (S (S (S t)))). lia.
      * left. apply map_lookup_filter_None. by left.
  - split; [lia|]. split; [|intros k; by left]. intros k' n at_ Hk. specialize (Hp _ _ _ Hk).
    pose proof (clk_mono t (S t)). lia.
Qed.

(** A check begins a new window for its key, or counts one more request in the window
    that still runs. *)
Inductive checked (key : string) (s : MemoryStoreInner) (t : nat) (s' : MemoryStoreInner) (t' : nat)
    : bool -> Prop :=
| new_window at_ :
    buckets s' !! key = Some (1, at_) -> clk t <= at_ <= clk t' ->
    (forall n old, buckets s !! key = Some (n, old) -> old + W < clk t') ->
    checked key s t s' t' true
| same_window n at_ :
    buckets s !! key = Some (n, at_) -> buckets s' !! key = Some (n + 1, at_) ->
    clk t <= at_ + W -> checked key s t s' t' (n + 1 <=? max).

Lemma check_spec m key s t r s' t' :
  check clk key max window_secs s t = (r, s', t') -> past m s t -> 0 <= m -> m + 1 < 2 ^ 32 ->
  (t < t')%nat /\ past (m + 1) s' t' /\ (forall k, k <> key -> kept s s' t' k) /\
  checked key s t s' t' (is_ok r).
Proof.
  unfold check. intros H Hp Hm0 Hm. destruct (sweep clk s t) as [s1 t1] eqn:Hs.
  apply (sweep_spec m) in Hs as (Ht & Hp1 & Hk); [|done].
  assert (Hput : forall b t2, (t1 <= t2)%nat -> b.2 <= clk t2 -> 0 <= b.1 <= m + 1 ->
            past (m + 1) (put key b s1) t2 /\ forall k, k <> key -> kept s (put key b s1) t2 k).
  { intros [n at_] t2 Ht2 Hb Hn. pose proof (clk_mono t1 t2 Ht2). split.
    - intros k' n' at' Hl. simpl in Hl, Hb, Hn. destruct (decide (key = k')) as [->|Hne].
      + rewrite lookup_insert_eq in Hl. simplify_eq. lia.
      + rewrite lookup_insert_ne in Hl by done. specialize (Hp1 _ _ _ Hl). lia.
    - intros k' Hne. unfold kept. simpl. rewrite lookup_insert_ne by done.
      destruct (Hk k') as [->|[-> (n' & old & ? & ?)]]; [by left|]. right. split; [done|].
      exists n', old. split; [done|lia]. }
  pose proof (clk_mono t t1) as H01. pose proof (clk_mono t1 (S t1)) as H12.
  pose proof (clk_mono (S t1) (S (S t1))) as H23. pose proof (clk_mono (S (S t1)) (S (S (S t1)))) as H34.
  destruct (buckets s1 !! key) as [[n at_]|] eqn:Hb; cbn [default id] in H.
  - assert (Hold : buckets s !! key = Some (n, at_)) by (destruct (Hk key) as [<-|[? _]]; congruence).
    destruct (Hp1 _ _ _ Hb) as [Hat Hn]. unfold elapsed, sat_sub in H.
    destruct (_ <? _) eqn:He; injection H as <- <- <-.
    + split; [lia|]. destruct (Hput (1, clk (S (S t1))) (S (S (S t1)))) as [Hp' Hk']; [lia|simpl; lia|simpl; lia|].
      split; [done|]. split; [done|]. apply (new_window _ _ _ _ _ (clk (S (S t1)))).
      * apply lookup_insert_eq.
      * lia.
      * intros n' old Hl. rewrite Hold in Hl. simplify_eq. lia.
    + assert (Hw : u32_add n 1 = n + 1) by (apply wrap_small; lia). rewrite Hw.
      split; [lia|]. destruct (Hput (n + 1, at_) (S (S t1))) as [Hp' Hk']; [lia|simpl; lia|simpl; lia|].
      split; [done|]. split; [done|].
      replace (is_ok _) with (n + 1 <=? max) by (rewrite Z.ltb_antisym; by destruct (n + 1 <=? max)).
      apply (same_window _ _ _ _ _ n at_); [done|apply lookup_insert_eq|lia].
  - unfold elapsed, sat_sub in H. assert (Hnew : forall n old, buckets s !! key = Some (n, old) -> old + W < clk t1).
    { intros n old Hl. destruct (Hk key) as [He|[_ (n' & old' & Hl' & ?)]]; congruence || (rewrite Hl in Hl'; by simplify_eq). }
    destruct (_ <? _) eqn:He; injection H as <- <- <-.
    + split; [lia|]. destruct (Hput (1, clk (S (S t1))) (S (S (S t1)))) as [Hp' Hk']; [lia|simpl; lia|simpl; lia|].
      split; [done|]. split; [done|]. apply (new_window _ _ _ _ _ (clk (S (S t1)))).
      * apply lookup_insert_eq.
      * lia.
      * intros n old Hl. specialize (Hnew n old Hl). lia.
    + assert (Hw : u32_add 0 1 = 1) by reflexivity. rewrite Hw. replace (max <? 1) with false by lia.
      split; [lia|]. destruct (Hput (1, clk t1) (S (S t1))) as [Hp' Hk']; [lia|simpl; lia|simpl; lia|].
      split; [done|]. split; [done|]. apply (new_window _ _ _ _ _ (clk t1)).
      * apply lookup_insert_eq.
      * lia.
      * intros n old Hl. specialize (Hnew n old Hl). lia.
Qed.

(** *** Counting admitted requests *)

Definition counts (k : string) (lo hi : Z) (e : event) : bool :=
  String.eqb (ev_key e) k && admitted e && (lo <=? ended e) && (ended e <=? hi).

(** Requests of [k] that were admitted and ended in [[lo, hi]]. *)
Definition count (k : string) (lo hi : Z) (l : list event) : Z :=
  Z.of_nat (length (List.filter (counts k lo hi) l)).

Lemma count_cons k lo hi e l : count k lo hi (e :: l) = (if counts k lo hi e then 1 else 0) + count k lo hi l.
Proof. unfold count. cbn [List.filter]. destruct (counts _ _ _ e); cbn [length]; lia. Qed.

Lemma count_app k lo hi l1 l2 : count k lo hi (l1 ++ l2) = count k lo hi l1 + count k lo hi l2.
Proof. unfold count. rewrite List.filter_app, length_app. lia. Qed.

Lemma count_nonneg k lo hi l : 0 <= count k lo hi l.
Proof. unfold count. lia. Qed.

Lemma counts_true k lo hi e :
  counts k lo hi e = true <-> ev_key e = k /\ admitted e = true /\ lo <= ended e <= hi.
Proof. unfold counts. rewrite !andb_true_iff, String.eqb_eq, !Z.leb_le. tauto. Qed.

Local Abbreviation checks := (checks clk max window_secs).

(** Nothing ends before it begins. *)
Lemma count_late k lo hi keys s t m :
  hi < clk t -> past m s t -> 0 <= m -> m + Z.of_nat (length keys) < 2 ^ 32 - 1 ->
  count k lo hi (checks keys s t) = 0.
Proof.
  revert s t m. induction keys as [|key keys IH]; intros s t m Ht Hp Hm Hl; [done|]. cbn [RateLimit.checks].
  destruct (check _ _ _ _ _ _) as [[r s'] t'] eqn:Hc. cbn [length] in Hl.
  apply (check_spec m) in Hc as (Ht' & Hp' & _ & _); [|done..|lia].
  pose proof (clk_mono t t') as Hm'. rewrite count_cons, (IH s' t' (m + 1)) by (done || lia).
  destruct (counts _ _ _ _) eqn:He; [|done]. apply counts_true in He. simpl in He. lia.
Qed.

Local Ltac check_step keys s t Hl m :=
  cbn [RateLimit.checks]; destruct (check _ _ _ _ _ _) as [[r s'] t'] eqn:Hc; cbn [length] in Hl;
  apply (check_spec m) in Hc as (Ht' & Hp' & Hoth & Hkey); [|done..|lia];
  pose proof (clk_mono t t') as Htt; rewrite count_cons.

(** Within one window what is left of the limit is admitted. *)
Lemma count_in_window k lo hi keys s t m n at_ :
  past m s t -> 0 <= m -> m + Z.of_nat (length keys) < 2 ^ 32 - 1 ->
  buckets s !! k = Some (n, at_) -> hi <= at_ + W ->
  count k lo hi (checks keys s t) <= Z.max 0 (max - n).
Proof.
  revert s t m n. induction keys as [|key keys IH]; intros s t m n Hp Hm Hl Hb Hhi; [simpl; unfold count; simpl; lia|].
  check_step keys s t Hl m. destruct (decide (k = key)) as [->|Hne].
  - destruct Hkey as [at' Hb' Hat Hold|n' at' Hb0 Hb' Hin].
    + rewrite (count_late _ _ _ keys s' t' (m + 1)); [|specialize (Hold _ _ Hb); lia|done|lia|lia].
      destruct (counts _ _ _ _) eqn:He; [|lia]. apply counts_true in He. simpl in He.
      specialize (Hold _ _ Hb). lia.
    + rewrite Hb in Hb0. injection Hb0 as <- <-.
      pose proof (IH s' t' (m + 1) (n + 1) Hp' ltac:(lia) ltac:(lia) Hb' Hhi) as Hc.
      destruct (counts _ _ _ _) eqn:He; [|lia]. apply counts_true in He as (_ & Ha & _). simpl in Ha. lia.
  - destruct (counts _ _ _ _) eqn:He; [apply counts_true in He as [He _]; simpl in He; congruence|].
    destruct (Hoth k Hne) as [Hsame|[Hgone (n' & old & Ho & Hlt)]].
    + rewrite Hb in Hsame. pose proof (IH s' t' (m + 1) n Hp' ltac:(lia) ltac:(lia) Hsame Hhi). lia.
    + rewrite Hb in Ho. injection Ho as <- <-.
      rewrite (count_late _ _ _ keys s' t' (m + 1)); [lia|lia|done|lia|lia].
Qed.

Definition room (s : MemoryStoreInner) (k : string) : Z :=
  match buckets s !! k with Some (n, _) => Z.max 0 (max - n) | None => 0 end.

(** From any state: what is left of the running window, and one more limit. *)
Lemma count_from k lo hi keys s t m :
  past m s t -> 0 <= m -> m + Z.of_nat (length keys) < 2 ^ 32 - 1 -> hi <= clk t + W ->
  count k lo hi (checks keys s t) <= room s k + max.
Proof.
  revert s t m. induction keys as [|key keys IH]; intros s t m Hp Hm Hl Hhi.
  { simpl. unfold count, room. simpl. destruct (buckets s !! k) as [[? ?]|]; lia. }
  check_step keys s t Hl m.
  assert (Hpos : 0 <= room s k) by (unfold room; destruct (buckets s !! k) as [[? ?]|]; lia).
  destruct (decide (k = key)) as [->|Hne].
  - destruct Hkey as [at' Hb' Hat Hold|n at' Hb0 Hb' Hin].
    + pose proof (count_in_window key lo hi keys s' t' (m + 1) 1 at' Hp' ltac:(lia) ltac:(lia) Hb' ltac:(lia)).
      destruct (counts _ _ _ _); lia.
    + pose proof (IH s' t' (m + 1) Hp' ltac:(lia) ltac:(lia) ltac:(lia)) as Hc. unfold room in *.
      rewrite Hb' in Hc. rewrite Hb0. destruct (counts _ _ _ _) eqn:He; [|lia].
      apply counts_true in He as (_ & Ha & _). simpl in Ha. lia.
  - destruct (counts _ _ _ _) eqn:He; [apply counts_true in He as [He _]; simpl in He; congruence|].
    pose proof (IH s' t' (m + 1) Hp' ltac:(lia) ltac:(lia) ltac:(lia)) as Hc. unfold room in *.
    destruct (Hoth k Hne) as [Hsame|[Hgone _]]; [rewrite Hsame in Hc; lia|rewrite Hgone in Hc].
    destruct (buckets s !! k) as [[? ?]|]; lia.
Qed.

(** Twice the limit in any span of a window's length. *)
Lemma count_in_span k lo keys s t m :
  past m s t -> 0 <= m -> m + Z.of_nat (length keys) < 2 ^ 32 - 1 ->
  count k lo (lo + W) (checks keys s t) <= 2 * max.
Proof.
  revert s t m. induction keys as [|key keys IH]; intros s t m Hp Hm Hl; [simpl; unfold count; simpl; lia|].
  check_step keys s t Hl m. destruct (counts _ _ _ _) eqn:He.
  - apply counts_true in He as (Hk & Ha & Hlo & _). simpl in Hk, Ha, Hlo. subst key.
    pose proof (count_from k lo (lo + W) keys s' t' (m + 1) Hp' ltac:(lia) ltac:(lia) ltac:(lia)) as Hc.
    unfold room in Hc. destruct Hkey as [at' Hb' _ _|n at' Hb0 Hb' _]; rewrite Hb' in Hc; [lia|].
    destruct (Hp _ _ _ Hb0) as [_ ?]. lia.
  - pose proof (IH s' t' (m + 1) Hp' ltac:(lia) ltac:(lia)). lia.
Qed.

(** *** Refusals *)

(** The admitted requests of a window are in the history. *)
Definition recorded (h : list event) (s : MemoryStoreInner) : Prop :=
  forall k n at_ hi, buckets s !! k = Some (n, at_) -> (forall e, e ∈ h -> ended e <= hi) ->
    Z.min n max <= count k at_ hi h.

Lemma count_weaken k lo lo' hi hi' l : lo' <= lo -> hi <= hi' -> count k lo hi l <= count k lo' hi' l.
Proof.
  intros Hlo Hhi. induction l as [|e l IH]; [done|]. rewrite !count_cons.
  destruct (counts k lo hi e) eqn:H1, (counts k lo' hi' e) eqn:H2; try lia.
  exfalso. apply counts_true in H1 as (? & ? & ?). apply not_true_iff_false in H2. apply H2, counts_true.
  split_and!; [done..|lia|lia].
Qed.

Lemma refused_after k e h keys s t m :
  past m s t -> 0 <= m -> m + Z.of_nat (length keys) < 2 ^ 32 - 1 -> recorded h s ->
  (forall e, e ∈ h -> ended e <= clk t) ->
  forall before after, checks keys s t = before ++ e :: after -> ev_key e = k -> admitted e = false ->
  max <= count k (began e - W) (began e) (h ++ before).
Proof.
  revert h s t m. induction keys as [|key keys IH]; intros h s t m Hp Hm Hl Hr Hh before after Hc0 Hk Ha.
  { by destruct before. }
  revert Hc0. cbn [RateLimit.checks]; destruct (check _ _ _ _ _ _) as [[r s'] t'] eqn:Hc; cbn [length] in Hl;
  apply (check_spec m) in Hc as (Ht' & Hp' & Hoth & Hkey); [|done..|lia]; pose proof (clk_mono t t') as Htt.
  intros Hc0. destruct before as [|e0 before]; cbn [app] in Hc0.
  - injection Hc0 as <- _. simpl in Hk, Ha |- *. subst key. rewrite app_nil_r.
    destruct Hkey as [at' _ _ _|n at' Hb0 _ Hin]; [done|].
    pose proof (Hr k n at' (clk t) Hb0 Hh) as Hcount. apply Z.leb_gt in Ha.
    pose proof (count_weaken k at' (clk t - W) (clk t) (clk t) h ltac:(lia) ltac:(lia)). lia.
  - injection Hc0 as <- Hrest. set (e0 := {| ev_key := key; admitted := is_ok r; began := clk t; ended := clk t' |}).
    replace (h ++ e0 :: before) with ((h ++ [e0]) ++ before) by by rewrite <- app_assoc.
    apply (IH (h ++ [e0]) s' t' (m + 1)) with (after := after); [done|lia|lia| | |done|done|done].
    + intros k' n' at' hi Hb Hhi. rewrite count_app, count_cons. change (count k' at' hi []) with 0.
      assert (Hhi' : forall e, e ∈ h -> ended e <= hi) by (intros e1 He1; apply Hhi; set_solver).
      assert (He0 : clk t' <= hi) by (apply (Hhi e0); set_solver).
      destruct (decide (k' = key)) as [->|Hne].
      * assert (Hc1 : counts key at' hi e0 = is_ok r && (at' <=? clk t')).
        { unfold counts. simpl. rewrite String.eqb_refl. replace (clk t' <=? hi) with true by lia. by rewrite andb_true_r. }
        rewrite Hc1. destruct Hkey as [at0 Hb' Hat _|n0 at0 Hb0 Hb' Hin]; rewrite Hb in Hb'; simplify_eq.
        -- replace (at0 <=? clk t') with true by lia. simpl. pose proof (count_nonneg key at0 hi h). lia.
        -- pose proof (Hr key n0 at0 hi Hb0 Hhi'). destruct (Hp' _ _ _ Hb) as [Hle _].
           replace (at0 <=? clk t') with true by lia. destruct (Z.leb_spec (n0 + 1) max); simpl; lia.
      * replace (counts k' at' hi e0) with false.
        2: { symmetry. apply not_true_iff_false. intros (He & _)%counts_true. simpl in He. congruence. }
        destruct (Hoth k' Hne) as [Hsame|[Hgone _]]; [|congruence]. rewrite Hsame in Hb.
        pose proof (Hr k' n' at' hi Hb Hhi'). lia.
    + intros e1 [He1|He1]%elem_of_app; [specialize (Hh e1 He1); lia|]. by apply list_elem_of_singleton in He1 as ->.
Qed.

End Facts.
End RateLimitFacts.

Module RateLimitSpec.
Import RateLimit RateLimitFacts.

(** C20. At most twice the limit: in any span of a window's length a key gets at most
    [2 * max] requests admitted, however requests of any keys come, through resets and
    sweeps; for a limit of at least one, a window of whole seconds that is shorter than the
    24 hours after which a bucket is swept, fewer than 2^32 - 1 requests and a clock that does
    not go back. *)
Theorem rate_bounded_in_any_span clk max window_secs keys k lo t :
  (forall a b, (a <= b)%nat -> clk a <= clk b) ->
  0 <= window_secs * second < MAX_IDLE -> 1 <= max < 2 ^ 32 - 1 ->
  Z.of_nat (length keys) < 2 ^ 32 - 1 ->
  count k lo (lo + window_secs * second)
    (checks clk max window_secs keys (new clk t).1 (new clk t).2) <= 2 * max.
Proof.
  intros Hc Hw Hm Hl. apply (count_in_span clk max window_secs Hc Hw Hm) with (m := 0); [|lia|lia].
  intros k' n at_ Hk. simpl in Hk. by rewrite lookup_empty in Hk.
Qed.

(** Fair: a request is refused only after [max] requests of its key were admitted
    within the last window. *)
Theorem refused_only_after_max clk max window_secs keys t before e after :
  (forall a b, (a <= b)%nat -> clk a <= clk b) ->
  0 <= window_secs * second < MAX_IDLE -> 1 <= max < 2 ^ 32 - 1 ->
  Z.of_nat (length keys) < 2 ^ 32 - 1 ->
  checks clk max window_secs keys (new clk t).1 (new clk t).2 = before ++ e :: after ->
  admitted e = false ->
  max <= count (ev_key e) (began e - window_secs * second) (began e) before.
Proof.
  intros Hc Hw Hm Hl He Ha.
  apply (refused_after clk max window_secs Hc Hw Hm _ e [] keys (new clk t).1 (new clk t).2 0) with (after := after);
    [|lia|lia| |by intros ? ?%not_elem_of_nil|done|done|done].
  - intros k' n at_ Hk. simpl in Hk. by rewrite lookup_empty in Hk.
  - intros k' n at_ hi Hk. simpl in Hk. by rewrite lookup_empty in Hk.
Qed.

(** A window under a second is no window: the limiter keeps whole seconds, and while the
    clock moves between its reads every request is admitted, whatever the limit. *)
Theorem subsecond_window_never_refuses clk l key s t :
  (forall a b, (a < b)%nat -> clk a < clk b) -> 0 <= window l < second ->
  (forall n at_, buckets s !! key = Some (n, at_) -> at_ <= clk t) ->
  (allow clk l key s t).1.1 = true.
Proof.
  intros Hc Hw Hp. unfold allow, as_secs. rewrite Z.div_small by done. unfold check.
  destruct (sweep clk s t) as [s1 t1] eqn:Hs.
  assert (Ht : (t < t1)%nat /\ forall n at_, buckets s1 !! key = Some (n, at_) -> at_ <= clk t).
  { unfold sweep in Hs. destruct (_ <=? _); simplify_eq/=; (split; [lia|]); [|done].
    intros n at_ [Hk _]%map_lookup_filter_Some. by eapply Hp. }
  destruct Ht as [Ht Hp1]. pose proof (Hc t (S t1)). pose proof (Hc t1 (S t1)).
  destruct (buckets s1 !! key) as [[n at_]|] eqn:Hb; cbn [default id]; unfold elapsed, sat_sub.
  - specialize (Hp1 _ _ eq_refl). by replace (_ <? _) with true by lia.
  - by replace (_ <? _) with true by lia.
Qed.

(** *** Concrete runs *)

(** A clock of one nanosecond per read, at first; after [n] reads it is [later]. *)
Definition jump (n : nat) (later : Z) (t : nat) : Z := if (t <? n)%nat then Z.of_nat t else later + Z.of_nat t.

Definition verdicts (clk : nat -> Z) (max window_secs : Z) (keys : list string) : list bool :=
  map admitted (checks clk max window_secs keys (new clk 0).1 (new clk 0).2).

Lemma jump_mono n later a b : 0 <= later -> (a <= b)%nat -> jump n later a <= jump n later b.
Proof. intros. unfold jump. destruct (Nat.ltb_spec a n), (Nat.ltb_spec b n); lia. Qed.

Lemma rate_bounded_in_any_span_witness :
  verdicts (jump 10 (61 * second)) 2 60 ["a"; "a"; "a"; "a"; "a"; "a"] = [true; true; false; true; true; false] /\
  count "a" 0 (0 + 60 * second)
    (checks (jump 10 (61 * second)) 2 60 ["a"; "a"; "a"; "a"; "a"; "a"]
       (new (jump 10 (61 * second)) 0).1 (new (jump 10 (61 * second)) 0).2) <= 2 * 2.
Proof.
  split; [vm_compute; reflexivity|].
  apply (rate_bounded_in_any_span (jump 10 (61 * second)) 2 60); [intros a b; by apply jump_mono|by vm_compute|lia|simpl; lia].
Defined.

Lemma refused_only_after_max_witness :
  2 <= count "a" (7 - 60 * second) 7
         (take 2 (checks (jump 100 0) 2 60 ["a"; "a"; "a"] (new (jump 100 0) 0).1 (new (jump 100 0) 0).2)).
Proof.
  apply (refused_only_after_max (jump 100 0) 2 60 ["a"; "a"; "a"] 0 _
           {| ev_key := "a"; admitted := false; began := 7; ended := 10 |} []);
    [intros a b; by apply jump_mono|by vm_compute|lia|simpl; lia|reflexivity|reflexivity].
Defined.

Lemma subsecond_window_never_refuses_witness :
  (allow (fun t => Z.of_nat t) {| max_requests := 0; window := second / 2 |} "a"
     {| buckets := ∅; last_sweep := 0 |} 5).1.1 = true.
Proof.
  apply subsecond_window_never_refuses; [intros; lia|by vm_compute|done].
Defined.

(** A window longer than a day ends after a day: the sweep drops a bucket by the time
    its window began.  With a limit of 1 in two days, three requests in two days pass. *)
Theorem long_window_ends_after_a_day :
  verdicts (fun t => Z.of_nat t * (8 * 3600 * second)) 1 (2 * 86400) ["a"; "a"; "a"]
    = [true; true; true].
Proof. vm_compute. reflexivity. Qed.

(** A limit of zero refuses the first request of a key, and lets one through whenever a
    window has passed. *)
Theorem zero_limit_lets_one_through :
  verdicts (jump 4 (61 * second)) 0 60 ["a"; "a"; "a"] = [false; true; false].
Proof. vm_compute. reflexivity. Qed.

(** Without trusted proxies the key of a request is that of its connection: no header a
    client sends changes it. *)
Theorem key_ignores_headers r r' :
  connect_info r = connect_info r' -> default_key_fn r false = default_key_fn r' false.
Proof. unfold default_key_fn. by intros ->. Qed.

Lemma key_ignores_headers_witness :
  default_key_fn {| connect_info := None; header := fun _ => Some "1.2.3.4" |} false =
  default_key_fn {| connect_info := None; header := fun _ => None |} false.
Proof. apply key_ignores_headers. reflexivity. Defined.

End RateLimitSpec.

Module RetrySpec.
Import Retry.

(** The doc's formula is what is computed, wherever it fits: no width overflows. *)
Theorem backoff_exact base max_delay n :
  0 <= base -> 0 <= max_delay <= u64_max -> 1 <= n ->
  exponential_backoff base max_delay n = Z.min (base * 2 ^ (n - 1)) max_delay.
Proof.
  intros Hb Hm Hn. unfold exponential_backoff, sat_sub. replace (Z.max 0 (n - 1)) with (n - 1) by lia.
  destruct (Z.leb_spec (n - 1) 127) as [Hle|Hgt].
  - replace (Z.min (n - 1) 127) with (n - 1) by lia.
    assert (0 <= base * 2 ^ (n - 1)) by (apply Z.mul_nonneg_nonneg; [lia|apply Z.pow_nonneg; lia]).
    unfold u128_max, u64_max in *. destruct (Z.leb_spec (Z.min (2 ^ 128 - 1) (base * 2 ^ (n - 1))) (2 ^ 64 - 1)); lia.
  - replace (Z.min (n - 1) 127) with 127 by lia. destruct (decide (base = 0)) as [->|Hne].
    + rewrite !Z.mul_0_l. unfold u128_max, u64_max in *. simpl. lia.
    + assert (H127 : 2 ^ 127 <= base * 2 ^ 127) by nia.
      assert (Hpow : base * 2 ^ 127 <= base * 2 ^ (n - 1)) by (apply Z.mul_le_mono_nonneg_l, Z.pow_le_mono_r; lia).
      unfold u128_max, u64_max in *.
      destruct (Z.leb_spec (Z.min (2 ^ 128 - 1) (base * 2 ^ 127)) (2 ^ 64 - 1)); lia.
Qed.

Lemma backoff_exact_witness : exponential_backoff second (30 * second) 4 = 8 * second.
Proof. rewrite (backoff_exact second (30 * second) 4); [reflexivity|by vm_compute..]. Defined.

Section Attempts.
Context {Req T E W : Type} (l : RetryLayer (Req:=Req) (T:=T) (E:=E)) (req : Req)
  (service : Req -> W -> result T E * W).

(** The [n]-th response, from 0, of calling the service again and again. *)
Fixpoint response (n : nat) (w : W) : result T E * W :=
  match n with O => service req w | S n => response n (service req w).2 end.

Definition delays (from : Z) (n : nat) : list Z :=
  map (fun i => exponential_backoff (base_delay l) (max_delay l) (from + 1 + Z.of_nat i)) (seq 0 n).

Lemma attempts_spec fuel a w :
  0 <= a -> a + 1 < 2 ^ 32 -> max_attempts l < 2 ^ 32 ->
  (0 < fuel)%nat -> max_attempts l - a <= Z.of_nat fuel ->
  exists n, (n = 0%nat \/ a + Z.of_nat n < max_attempts l) /\
    attempts_from fuel l a req service w = Some ((response n w).1, delays a n, (response n w).2) /\
    (forall i, (i < n)%nat -> rule l req (response i w).1 = true) /\
    (rule l req (response n w).1 = true -> max_attempts l <= a + Z.of_nat n + 1).
Proof.
  revert a w. induction fuel as [|fuel IH]; intros a w Ha Ha1 Hm Hpos Hf; [lia|]. cbn [attempts_from].
  destruct (service req w) as [r w1] eqn:Hs. unfold retry.
  assert (Hadd : u32_add a 1 = a + 1) by (apply wrap_small; lia). rewrite Hadd.
  assert (Hdone : exists n, n = 0%nat) by by exists 0%nat.
  destruct (Z.leb_spec (max_attempts l) (a + 1)) as [Hle|Hgt].
  { exists 0%nat. simpl. rewrite Hs. split; [by left|]. split; [done|]. split; [lia|]. intros _. lia. }
  destruct (rule l req r) eqn:Hr; cbn [negb].
  2: { exists 0%nat. simpl. rewrite Hs. split; [by left|]. split; [done|]. split; [lia|]. simpl. congruence. }
  destruct (IH (a + 1) w1) as (n & Hn & -> & Hall & Hlast); [lia|lia|lia|lia|lia|].
  exists (S n). cbn [response]. rewrite Hs. cbn [snd]. split; [right; lia|]. split; [|split].
  - assert (Hd : delays a (S n) = exponential_backoff (base_delay l) (max_delay l) (a + 1) :: delays (a + 1) n).
    { unfold delays. cbn [seq map]. rewrite <- seq_shift, map_map. f_equal; [f_equal; lia|].
      apply map_ext. intros i. f_equal. lia. }
    by rewrite Hd.
  - intros [|i] Hi; cbn [response]; rewrite Hs; [done|]. apply Hall. lia.
  - intros H. specialize (Hlast H). lia.
Qed.

(** Retries end: the service is called [n + 1] times, at least once and at most
    [max_attempts] times, with the delays of the back-off in between; only retryable
    responses are followed by another call, and a retryable response is returned only
    when the attempts are used up. *)
Theorem retries_are_bounded fuel w :
  0 <= max_attempts l < 2 ^ 32 -> (0 < fuel)%nat -> max_attempts l <= Z.of_nat fuel ->
  exists n, (n = 0%nat \/ Z.of_nat n < max_attempts l) /\
    call fuel l req service w = Some ((response n w).1, delays 0 n, (response n w).2) /\
    (forall i, (i < n)%nat -> rule l req (response i w).1 = true) /\
    (rule l req (response n w).1 = true -> max_attempts l <= Z.of_nat n + 1).
Proof.
  intros Hm Hpos Hf. destruct (attempts_spec fuel 0 w) as (n & Hn & Hc & Hall & Hlast); [lia|lia|lia|lia|lia|].
  exists n. split; [done|]. split; [exact Hc|]. split; [done|]. intros H. specialize (Hlast H). lia.
Qed.

End Attempts.

(** A service that fails twice and then answers. *)
Definition flaky (_ : unit) (n : Z) : result Z Z * Z := (if 2 <=? n then Ok n else Err n, n + 1).

Lemma retries_are_bounded_witness :
  call 3 default_layer tt flaky 0 = Some (Ok 2, [second; 2 * second], 3) /\
  exists n, call 3 default_layer tt flaky 0 =
    Some ((response tt flaky n 0).1, delays (T:=Z) (E:=Z) (Req:=unit) default_layer 0 n, (response tt flaky n 0).2).
Proof.
  split; [reflexivity|].
  destruct (retries_are_bounded default_layer tt flaky 3 0) as (n & _ & Hc & _); [by vm_compute|lia|by vm_compute|].
  exists n. exact Hc.
Defined.

End RetrySpec.

(** ** What a shared limit admits

    Over any span of the server's clock, in milliseconds, that is shorter than the window, at
    most twice the limit, and the limit itself from the start of a window. *)

From S2P Require Import Lock LockSpec.

Module RedisLimitSpec.
Import RedisLock RateLimit RedisLimit.

Section Spec.
Context `{EL : ExpireLaw}.
Context (key : string) (max secs : Z).
Hypothesis Hsecs : 0 < secs.

Local Abbreviation rk := (rate_key key).
Local Abbreviation span := (secs * 1000).

(** The window of the key at an instant: how often it was asked, and until when. *)
Definition window_is (t : Z) (d : db) (w : option (Z * Z)) : Prop :=
  match w with
  | None => entries t d !! rk = None
  | Some (n, x) => entries t d !! rk = Some (dec_text n, Some x) /\ 1 <= n /\ t < x
  end.

Lemma window_later t t' d w : t <= t' -> window_is t d w ->
  window_is t' d (match w with Some (n, x) => if decide (t' < x) then Some (n, x) else None | None => None end).
Proof.
  intros Ht Hw. unfold window_is in *. rewrite (entries_later t t' d Ht). destruct w as [[n x]|].
  - destruct Hw as (He & Hn & Hx). case_decide as Hd.
    + split; [|done]. apply map_lookup_filter_Some. by split.
    + apply map_lookup_filter_None. right. intros e E. rewrite He in E. by injection E as <-.
  - apply map_lookup_filter_None. by left.
Qed.

(** A check that finds no window begins one; its instants fit the server's clock. *)
Lemma check_begins t d : window_is t d None -> t + span < 2 ^ 63 -> 0 <= t ->
  window_is t (check Answered t key max secs d).1 (Some (1, t + span)) /\
  is_ok (check Answered t key max secs d).2 = negb (max <? 1).
Proof.
  intros Hw Hb Ht. cbn in Hw. unfold check, invoke, INCR_SCRIPT. destruct (incr_first t d rk Hw) as [E1 E2].
  destruct (call_incr t d rk) as [d1 r1]. cbn [fst snd] in E1, E2. subst r1. cbn [Z.eqb Pos.eqb].
  pose proof (expire_entry t d1 rk secs) as Hx. destruct (Z.ltb_spec secs (2 ^ 63)); [|lia].
  unfold after_pexpire in Hx. rewrite E1, lookup_insert_eq in Hx. destruct (Z.leb_spec span 0); [lia|].
  unfold valid_px in Hx. assert ((0 <? span) && (t + span <? 2 ^ 63) = true) as Hv by lia. rewrite Hv in Hx.
  destruct (call_expire t d1 rk secs) as [d2 [n|e]]; cbn [fst snd reply] in Hx; injection Hx as Hd Hr; [|done].
  cbn [fst snd]. split; [|by destruct (max <? wrap 32 1) eqn:E; change (wrap 32 1) with 1 in E; rewrite E].
  unfold window_is. rewrite Hd, insert_insert_eq, lookup_insert_eq. split; [done|lia].
Qed.

(** A check inside a window counts. *)
Lemma check_counts t d n x : window_is t d (Some (n, x)) -> n + 1 < 2 ^ 32 ->
  window_is t (check Answered t key max secs d).1 (Some (n + 1, x)) /\
  is_ok (check Answered t key max secs d).2 = negb (max <? n + 1).
Proof.
  intros (Hw & Hn & Hx) Hb. unfold check, invoke, INCR_SCRIPT. destruct (incr_next t d rk n (Some x) Hw) as [E1 E2]; [lia|lia|].
  destruct (call_incr t d rk) as [d1 r1]. cbn [fst snd] in E1, E2. subst r1. destruct (Z.eqb_spec (n + 1) 1); [lia|]. cbn [fst snd].
  unfold wrap. rewrite Z.mod_small by lia. split; [|by destruct (max <? n + 1)].
  unfold window_is. rewrite E1, lookup_insert_eq. split; [done|lia].
Qed.

Definition left_over (n : Z) : Z := Z.max 0 (max - n).

(** Inside one window. *)
Lemma admitted_inside times t0 d n x :
  window_is t0 d (Some (n, x)) -> Forall (fun t => t0 <= t < x) times -> StronglySorted Z.le times ->
  n + Z.of_nat (length times) < 2 ^ 32 -> admitted key max secs times d <= left_over n.
Proof.
  revert t0 d n. induction times as [|t times IH]; intros t0 d n Hw Ht Hs Hb; cbn [admitted]; [unfold left_over; lia|].
  apply Forall_cons in Ht as [Ht Hts]. apply StronglySorted_inv in Hs as [Hs Hle]. cbn [length] in Hb.
  pose proof (window_later t0 t d _ (proj1 Ht) Hw) as Hw'. cbn in Hw'. rewrite decide_True in Hw' by lia.
  destruct (check_counts t d n x Hw') as [H1 H2]; [lia|]. destruct (check Answered t key max secs d) as [d' r]. cbn [fst snd] in H1, H2.
  assert (Hi : admitted key max secs times d' <= left_over (n + 1)).
  { apply (IH t); [done| |done|lia]. apply Forall_forall. intros u Hu. rewrite Forall_forall in Hle, Hts. specialize (Hle u Hu). specialize (Hts u Hu). lia. }
  rewrite H2. unfold left_over in *. destruct (Z.ltb_spec max (n + 1)); cbn; lia.
Qed.

(** From no window, over less than its length. *)
Lemma admitted_fresh times t0 d :
  window_is t0 d None -> Forall (fun t => t0 <= t < t0 + span) times -> StronglySorted Z.le times -> 0 <= t0 -> t0 + 2 * span < 2 ^ 63 ->
  0 <= max -> 1 + Z.of_nat (length times) < 2 ^ 32 -> admitted key max secs times d <= max.
Proof.
  destruct times as [|t times]; intros Hw Ht Hs H0 Hf Hm Hb; cbn [admitted]; [done|].
  apply Forall_cons in Ht as [Ht Hts]. apply StronglySorted_inv in Hs as [Hs Hle]. cbn [length] in Hb.
  pose proof (window_later t0 t d None (proj1 Ht) Hw) as Hw'.
  destruct (check_begins t d Hw') as [H1 H2]; [lia|lia|]. destruct (check Answered t key max secs d) as [d' r]. cbn [fst snd] in H1, H2.
  assert (Hi : admitted key max secs times d' <= left_over 1).
  { apply (admitted_inside times t d' 1 (t + span)); [done| |done|lia]. apply Forall_forall. intros u Hu. rewrite Forall_forall in Hle, Hts. specialize (Hle u Hu). specialize (Hts u Hu). lia. }
  rewrite H2. unfold left_over in Hi. destruct (Z.ltb_spec max 1); cbn; lia.
Qed.

(** However many processes share a limit on the Redis server, over any span of the server's
    clock shorter than the window at most twice the limit is admitted, and no more than the
    limit when no window was open at its start. *)
Theorem shared_limit_is_bounded times t0 d w :
  window_is t0 d w -> Forall (fun t => t0 <= t < t0 + span) times -> StronglySorted Z.le times -> 0 <= t0 -> t0 + 3 * span < 2 ^ 63 ->
  0 <= max -> (match w with Some (n, _) => n | None => 1 end) + Z.of_nat (length times) < 2 ^ 32 ->
  admitted key max secs times d <= match w with Some _ => 2 * max | None => max end.
Proof.
  intros Hw Ht Hs H0 Hf Hm Hb. destruct w as [[n x]|]; [|apply (admitted_fresh times t0); first [done|lia]].
  assert (Hgoal : admitted key max secs times d <= left_over n + max); [|destruct Hw as (_ & Hn & _); unfold left_over in Hgoal; lia].
  assert (Hgen : forall times u d n, t0 <= u -> window_is u d (Some (n, x)) -> Forall (fun t => u <= t < t0 + span) times -> StronglySorted Z.le times ->
    n + Z.of_nat (length times) < 2 ^ 32 -> admitted key max secs times d <= left_over n + max).
  2: { by apply (Hgen times t0). }
  clear -Hm Hsecs H0 Hf EL. induction times as [|t times IH]; intros u d n Hu Hw Ht Hs Hb; cbn [admitted]; [unfold left_over; lia|].
  pose proof Ht as Hall. apply Forall_cons in Ht as [Ht Hts]. pose proof Hs as Hsort. apply StronglySorted_inv in Hs as [Hs Hle]. cbn [length] in Hb.
  pose proof (window_later u t d _ (proj1 Ht) Hw) as Hw'. cbn beta iota in Hw'. case_decide as Hx.
  - destruct (check_counts t d n x Hw') as [H1 H2]; [lia|]. destruct (check Answered t key max secs d) as [d' r]. cbn [fst snd] in H1, H2.
    assert (Hi : admitted key max secs times d' <= left_over (n + 1) + max).
    { apply (IH t); [lia|done| |done|lia]. apply Forall_forall. intros v Hv. rewrite Forall_forall in Hle, Hts. specialize (Hle v Hv). specialize (Hts v Hv). lia. }
    rewrite H2. unfold left_over in *. destruct (Z.ltb_spec max (n + 1)); cbn; lia.
  - assert (Hi : admitted key max secs (t :: times) d <= max).
    { apply (admitted_fresh (t :: times) t d Hw'); [|done|lia|lia|done|cbn [length]; destruct Hw as (_ & Hn & _); lia].
      apply Forall_cons. split; [lia|]. apply Forall_forall. intros v Hv. rewrite Forall_forall in Hle, Hts. specialize (Hle v Hv). specialize (Hts v Hv). lia. }
    cbn [admitted] in Hi. unfold left_over. lia.
Qed.

End Spec.
End RedisLimitSpec.

Module RedisLimitDemo.
Import RedisLock RateLimit RedisLimit RedisLimitSpec LockSpec.LockDemo.

#[local] Existing Instance demo_server.
#[local] Existing Instance demo_redis.

#[local] Instance demo_expire : RedisExpire := {|
  call_expire t d k secs := answer (if secs <? 2 ^ 63 then after_pexpire t (purge t d) k (secs * 1000) else (purge t d, None))
|}.

#[local] Instance demo_expire_law : ExpireLaw.
Proof.
  constructor. intros t d k secs. cbn [call_expire demo_expire]. destruct (secs <? 2 ^ 63).
  - exact (pexpire_entry t d k (secs * 1000)).
  - cbn. by rewrite purge_purge.
Defined.

Definition empty_db : @db demo_server := (∅ : gmap string Entry).

Lemma shared_limit_is_bounded_witness :
  admitted "ip" 2 60 [0; 10; 20; 30] empty_db = 2 /\ admitted "ip" 2 60 [0; 10; 20; 30] empty_db <= 2.
Proof.
  split; [vm_compute; reflexivity|].
  apply (shared_limit_is_bounded "ip" 2 60 eq_refl [0; 10; 20; 30] 0 empty_db None);
    [reflexivity|repeat constructor; lia|repeat constructor; lia|lia|by vm_compute|lia|by vm_compute].
Defined.

End RedisLimitDemo.
