(* ===== verification/Auth.v ===== *)
(** * Authentication layers ([ecat-auth])

    [src/ecat-auth/src/claims.rs], [helpers.rs] ([Module Claims]), [apikey.rs] ([Module
    ApiKey]), [jwt.rs] ([Module Jwt]) and [oauth2.rs] ([Module OAuth2]: introspection with
    its bounded cache).  A layer either answers a request itself or hands the claims it
    established to the service behind it.  Header maps, signature checks, the HTTP client
    and SHA-256 are third-party: operations of classes.

    A call of the OAuth2 layer takes the lock of its cache twice, to read and to write, and
    may be interleaved with others in between: [OAuth2.lookup] and [OAuth2.store] are the
    two sections, [OAuth2.step] interleaves them. *)

From Stdlib Require Import Ascii.
From S2P Require Import Prelude Clock Json Text.

Local Open Scope Z_scope.
Local Open Scope ecat_scope.

Module Claims.

Section Claims.
Context `{JN : JsonNumber}.

Record AuthClaims := {
  sub : string;
  exp : option Z;
  iat : option Z;
  role : option string;
  extra : gmap string Value;
}.

Definition has_role (c : AuthClaims) (r : string) : bool := bool_decide (role c = Some r).

(** A request: the first value of each header that is text, and the query string. *)
Record Request := { headers : string -> option string; query : option string }.

(** What a layer decides: its own answer (the status and the text of its error), or the claims the inner service is called with. *)
Inductive verdict :=
| Refuse (status : Z) (body : string)
| Admit (c : AuthClaims).

Definition UNAUTHORIZED : Z := 401.
Definition FORBIDDEN : Z := 403.

Definition extract_bearer (r : Request) (header_name : string) : option string :=
  match headers r header_name with
  | Some v => match strip_prefix "Bearer " v with Some t => Some (trim t) | None => None end
  | None => None
  end.

Definition extract_header (r : Request) (name : string) : option string := headers r name.

(** [str::split(c)]. *)
Fixpoint split (c : ascii) (s : string) : list string :=
  match s with
  | EmptyString => [EmptyString]
  | String a s =>
      match split c s with
      | [] => [EmptyString]
      | x :: l => if Ascii.eqb a c then EmptyString :: x :: l else String a x :: l
      end
  end.

Fixpoint find_pair (pairs : list string) (param : string) : option string :=
  match pairs with
  | [] => None
  | p :: pairs =>
      match split_once "="%char p with
      | Some (k, v) => if String.eqb k param then Some v else find_pair pairs param
      | None => if String.eqb p param then None else find_pair pairs param
      end
  end.

Definition extract_query_param (q : option string) (param : string) : option string :=
  match q with Some q => find_pair (split "&"%char q) param | None => None end.

End Claims.
End Claims.

Module ApiKey.
Import Claims.

Section ApiKey.
Context `{JN : JsonNumber}.

Record ApiKeyLayer := { keys : gmap string AuthClaims; header_name : string; query_param : option string }.

Definition new (keys : gmap string AuthClaims) : ApiKeyLayer :=
  {| keys := keys; header_name := "X-API-Key"; query_param := None |}.

Definition call (l : ApiKeyLayer) (r : Request) : verdict :=
  let key :=
    match extract_header r (header_name l) with
    | Some k => Some k
    | None => match query_param l with Some p => extract_query_param (query r) p | None => None end
    end in
  match key with
  | Some k =>
      match keys l !! k with
      | Some c => Admit c
      | None => Refuse UNAUTHORIZED "invalid api key"
      end
  | None => Refuse UNAUTHORIZED "invalid api key"
  end.

End ApiKey.
End ApiKey.

Module Jwt.
Import Claims.

Section Jwt.
Context `{JN : JsonNumber}.

(** What of [jsonwebtoken::Validation] is configured. *)
Record Validation := { v_iss : option string; v_aud : option string }.

(** [jsonwebtoken::decode] into [AuthClaims]: signature, expiry and, where the claim is
    there, issuer and audience. *)
Class Tokens := { decode : string -> Validation -> string -> option AuthClaims }.

Context `{TK : Tokens}.

Record JwtAuthLayer := {
  secret : string;
  required_claims : list string;
  jwt_header : string;
  required_issuer : option string;
  required_audience : option string;
  validation : Validation;
}.

Inductive JwtAuthError := WeakKey.

Definition new (secret : string) : result JwtAuthLayer JwtAuthError :=
  if (String.length secret <? 32)%nat then Err WeakKey
  else Ok {| secret := secret; required_claims := ["sub"]; jwt_header := "Authorization";
             required_issuer := None; required_audience := None; validation := {| v_iss := None; v_aud := None |} |}.

Definition require_claims (l : JwtAuthLayer) (claims : list string) : JwtAuthLayer :=
  {| secret := secret l; required_claims := claims; jwt_header := jwt_header l; required_issuer := required_issuer l;
     required_audience := required_audience l; validation := validation l |}.

Definition set_required_issuer (l : JwtAuthLayer) (iss : string) : JwtAuthLayer :=
  {| secret := secret l; required_claims := required_claims l; jwt_header := jwt_header l; required_issuer := Some iss;
     required_audience := required_audience l;
     validation := {| v_iss := Some iss; v_aud := v_aud (validation l) |} |}.

Definition set_required_audience (l : JwtAuthLayer) (aud : string) : JwtAuthLayer :=
  {| secret := secret l; required_claims := required_claims l; jwt_header := jwt_header l;
     required_issuer := required_issuer l; required_audience := Some aud;
     validation := {| v_iss := v_iss (validation l); v_aud := Some aud |} |}.

Definition is_some {A} (o : option A) : bool := match o with Some _ => true | None => false end.

Definition satisfied (c : AuthClaims) (claim : string) : bool :=
  if String.eqb claim "sub" then negb (String.eqb (sub c) "")
  else if String.eqb claim "role" then is_some (role c)
  else is_some (extra c !! claim).

Definition present (required : option string) (c : AuthClaims) (claim : string) : bool :=
  negb (is_some required) || is_some (extra c !! claim).

Definition call (l : JwtAuthLayer) (r : Request) : verdict :=
  match extract_bearer r (jwt_header l) with
  | None => Refuse UNAUTHORIZED "missing authorization token"
  | Some token =>
      match decode (secret l) (validation l) token with
      | None => Refuse UNAUTHORIZED "invalid token"
      | Some c =>
          if negb (present (required_issuer l) c "iss" && present (required_audience l) c "aud")
          then Refuse UNAUTHORIZED "invalid token"
          else match List.find (fun claim => negb (satisfied c claim)) (required_claims l) with
               | Some claim => Refuse FORBIDDEN ("missing required claim: " +:+ claim)
               | None => Admit c
               end
      end
  end.

End Jwt.
End Jwt.

Module OAuth2.
Import Claims.

Definition INTROSPECT_BODY_LIMIT : nat := 1024 * 1024.
Definition CACHE_CAPACITY : nat := 10000.
Definition DEFAULT_CLAIMS_WHITELIST : list string := ["iss"; "aud"; "scope"; "roles"].

Section OAuth2.
Context `{JN : JsonNumber}.

(** SHA-256 as hexadecimal text, and [serde_json::from_slice]. *)
Class Digest := { cache_key : string -> string; parse_body : string -> option Value; as_u64 : Value -> option Z }.

Context `{DG : Digest}.

Record IntrospectCache := { entries : gmap string (AuthClaims * Z); order : list string }.

Definition empty_cache : IntrospectCache := {| entries := ∅; order := [] |}.

Record OAuth2Layer := { cache_ttl_secs : Z; capacity : nat; claims_whitelist : list string }.

Definition default_layer : OAuth2Layer :=
  {| cache_ttl_secs := 300; capacity := CACHE_CAPACITY; claims_whitelist := DEFAULT_CLAIMS_WHITELIST |}.

Definition cache_capacity (l : OAuth2Layer) (n : nat) : OAuth2Layer :=
  {| cache_ttl_secs := cache_ttl_secs l; capacity := Nat.max n 1; claims_whitelist := claims_whitelist l |}.

(** [Instant::elapsed] at [now], and the time to live. *)
Definition live (l : OAuth2Layer) (at_ now : Z) : bool := sat_sub now at_ <? cache_ttl_secs l * second.

(** The clock is read for every entry. *)
Definition purge_expired (l : OAuth2Layer) (now : string -> Z) (c : IntrospectCache) : IntrospectCache :=
  let kept := filter (fun kv => live l kv.2.2 (now kv.1)) (entries c) in
  {| entries := kept; order := List.filter (fun k => bool_decide (is_Some (kept !! k))) (order c) |}.

Definition filter_claims (c : AuthClaims) (whitelist : list string) : AuthClaims :=
  if existsb (String.eqb "*") whitelist then c
  else {| sub := sub c; exp := exp c; iat := iat c; role := role c;
          extra := filter (fun kv => existsb (String.eqb kv.1) whitelist) (extra c) |}.

(** The read section. *)
Definition lookup (l : OAuth2Layer) (key : string) (now : Z) (c : IntrospectCache) : option AuthClaims :=
  if 0 <? cache_ttl_secs l then
    match entries c !! key with
    | Some (claims, at_) => if live l at_ now then Some claims else None
    | None => None
    end
  else None.

(** First in, first out. *)
Definition evict (l : OAuth2Layer) (c : IntrospectCache) : IntrospectCache :=
  if (capacity l <=? size (entries c))%nat then
    match order c with
    | oldest :: rest => {| entries := delete oldest (entries c); order := rest |}
    | [] => c
    end
  else c.

(** The write section; [purge_at] and [now] are its reads of the clock. *)
Definition store (l : OAuth2Layer) (key : string) (claims : AuthClaims) (purge_at : string -> Z) (now : Z)
    (c : IntrospectCache) : IntrospectCache :=
  if 0 <? cache_ttl_secs l then
    let c := if (Nat.max (capacity l * 9 / 10) 1 <=? size (entries c))%nat then purge_expired l purge_at c else c in
    let c := if bool_decide (is_Some (entries c !! key)) then c
             else let c := evict l c in {| entries := entries c; order := order c ++ [key] |} in
    {| entries := <[key := (filter_claims claims (claims_whitelist l), now)]> (entries c); order := order c |}
  else c.

(** The chunks of the body, up to the limit. *)
Fixpoint read_body (acc : string) (chunks : list (option string)) : option string :=
  match chunks with
  | [] => Some acc
  | None :: _ => None
  | Some chunk :: chunks =>
      if (INTROSPECT_BODY_LIMIT <? String.length acc + String.length chunk)%nat then None
      else read_body (acc +:+ chunk) chunks
  end.

(** An answer of the introspection endpoint: its status and its body, or no answer. *)
Definition Answer : Type := option (Z * list (option string)).

Definition get (v : Value) (k : string) : option Value :=
  match v with
  | VObject l => match List.find (fun kv => String.eqb kv.1 k) l with Some kv => Some kv.2 | None => None end
  | _ => None
  end.

Definition members (v : Value) : list (string * Value) := match v with VObject l => l | _ => [] end.

Definition known (k : string) : bool :=
  existsb (String.eqb k) ["active"; "sub"; "role"; "client_id"; "exp"; "iat"].

Definition claims_of (body : Value) : result AuthClaims string :=
  let active := match get body "active" with Some (VBool b) => b | _ => false end in
  if negb active then Err "token is not active"
  else
    match get body "sub" with
    | Some (VString (String a s)) =>
        Ok {| sub := String a s;
              exp := match get body "exp" with Some v => as_u64 v | None => None end;
              iat := match get body "iat" with Some v => as_u64 v | None => None end;
              role := match get body "role" with Some v => as_str v | None => None end;
              extra := list_to_map (List.filter (fun kv => negb (known kv.1)) (members body)) |}
    | _ => Err "introspection response missing sub"
    end.

Definition introspect (a : Answer) : result AuthClaims string :=
  match a with
  | None => Err "introspection request failed"
  | Some (status, chunks) =>
      if negb ((200 <=? status) && (status <? 300)) then Err "introspection returned an error status"
      else match read_body "" chunks with
           | None => Err "introspection read"
           | Some text => match parse_body text with None => Err "introspection parse" | Some v => claims_of v end
           end
  end.

(** [introspect_token] alone: [t0] is when the cache is read, [ask] what the endpoint
    answers, [purge_at] and [t1] when the cache is written. *)
Definition introspect_token (l : OAuth2Layer) (token : string) (t0 : Z) (ask : string -> Answer)
    (purge_at : string -> Z) (t1 : Z) (c : IntrospectCache) : result AuthClaims string * IntrospectCache :=
  match lookup l (cache_key token) t0 c with
  | Some claims => (Ok claims, c)
  | None =>
      match introspect (ask token) with
      | Err e => (Err e, c)
      | Ok claims => (Ok claims, store l (cache_key token) claims purge_at t1 c)
      end
  end.

Definition call (l : OAuth2Layer) (r : Request) (t0 : Z) (ask : string -> Answer) (purge_at : string -> Z) (t1 : Z)
    (c : IntrospectCache) : verdict * IntrospectCache :=
  match extract_bearer r "Authorization" with
  | None => (Refuse UNAUTHORIZED "missing bearer token", c)
  | Some token =>
      match introspect_token l token t0 ask purge_at t1 c with
      | (Ok claims, c) => (Admit claims, c)
      | (Err _, c) => (Refuse UNAUTHORIZED "invalid token", c)
      end
  end.

(** *** Calls running side by side *)

(** A call that has its answer and still has to write the cache. *)
Record pending := { p_key : string; p_claims : AuthClaims }.

(** The cache, the calls between their sections, and the time. *)
Record state := { cache : IntrospectCache; waiting : list pending; now : Z }.

(** A call is admitted from the cache or by an answer of the endpoint; an answer is
    stored. *)
Inductive event :=
| FromCache (key : string) (c : AuthClaims) (t : Z)
| Fresh (key : string) (c : AuthClaims) (t : Z)
| Stored (key : string) (c : AuthClaims) (t : Z).

(** A token is introspected by its text; two texts of one digest are one key. *)
Inductive step (l : OAuth2Layer) (ask : string -> Z -> Answer) : state -> option event -> state -> Prop :=
| S_tick s t : now s <= t -> step l ask s None {| cache := cache s; waiting := waiting s; now := t |}
| S_hit s token c :
    lookup l (cache_key token) (now s) (cache s) = Some c ->
    step l ask s (Some (FromCache (cache_key token) c (now s))) s
| S_miss s token c :
    lookup l (cache_key token) (now s) (cache s) = None -> introspect (ask token (now s)) = Ok c ->
    step l ask s (Some (Fresh (cache_key token) c (now s)))
      {| cache := cache s; waiting := {| p_key := cache_key token; p_claims := c |} :: waiting s; now := now s |}
| S_store s w1 p w2 purge_at :
    waiting s = w1 ++ p :: w2 -> (forall k, purge_at k <= now s) ->
    step l ask s (Some (Stored (p_key p) (p_claims p) (now s)))
      {| cache := store l (p_key p) (p_claims p) purge_at (now s) (cache s); waiting := w1 ++ w2; now := now s |}.

(** The states and events from an empty cache. *)
Inductive runs (l : OAuth2Layer) (ask : string -> Z -> Answer) : list event -> state -> Prop :=
| R_start t : runs l ask [] {| cache := empty_cache; waiting := []; now := t |}
| R_step tr s o s' : runs l ask tr s -> step l ask s o s' -> runs l ask (match o with Some e => e :: tr | None => tr end) s'.

End OAuth2.
End OAuth2.
