(* ===== verification/AuthSpec.v ===== *)
(** * What the authentication layers promise

    A request behind the JWT layer carries a token that decodes and every claim asked for;
    claims from the introspection cache are at most one time to live old, however calls
    interleave, and the cache keeps within its capacity.  And two gaps: claims that are
    fields of their own are never found, and an expiry is not looked at on a hit. *)

From S2P Require Import Prelude Clock Json Text Auth.

Local Open Scope Z_scope.
Local Open Scope ecat_scope.

Module JwtSpec.
Import Claims Jwt.

Section Jwt.
Context `{JN : JsonNumber} {TK : Tokens}.

(** The service behind the JWT layer is only called for a bearer token that decodes
    under the secret, with an issuer and an audience where they are required, and with
    every required claim. *)
Theorem admitted_token_is_valid l r c :
  Jwt.call l r = Admit c ->
  exists token, extract_bearer r (jwt_header l) = Some token /\
    decode (secret l) (validation l) token = Some c /\
    (required_issuer l <> None -> extra c !! "iss" <> None) /\
    (required_audience l <> None -> extra c !! "aud" <> None) /\
    Forall (fun claim => satisfied c claim = true) (required_claims l).
Proof.
  unfold Jwt.call. destruct (extract_bearer r (jwt_header l)) as [token|]; [|done].
  destruct (decode (secret l) (validation l) token) as [c'|] eqn:Ed; [|done].
  destruct (present (required_issuer l) c' "iss" && present (required_audience l) c' "aud") eqn:Ep; [|done]. cbn [negb].
  destruct (List.find _ (required_claims l)) as [claim|] eqn:Ef; [done|]. intros [= <-].
  exists token. split; [done|]. split; [done|]. apply andb_true_iff in Ep as [Hi Ha]. unfold present in *. repeat split.
  - revert Hi. by destruct (required_issuer l), (extra c' !! "iss").
  - revert Ha. by destruct (required_audience l), (extra c' !! "aud").
  - apply Forall_forall. intros x Hx. apply list_elem_of_In in Hx. pose proof (List.find_none _ _ Ef x Hx) as H.
    by apply negb_false_iff in H.
Qed.

(** [serde(flatten)]: a member that is a field of its own is not among the others. *)
Definition flattened : Prop := forall key v token c claim,
  decode key v token = Some c -> claim ∈ ["sub"; "exp"; "iat"; "role"] -> extra c !! claim = None.

(** Requiring the claim exp or iat refuses every token, also those that carry it: the
    claim is looked up among the members that have no field of their own. *)
Theorem required_exp_refuses_every_token l r claim :
  flattened -> claim = "exp" \/ claim = "iat" -> claim ∈ required_claims l ->
  exists status body, Jwt.call l r = Refuse status body.
Proof.
  intros Hfl Hc Hin. destruct (Jwt.call l r) as [status body|c] eqn:E; [by exists status, body|]. exfalso.
  apply admitted_token_is_valid in E as (token & _ & Hd & _ & _ & Hall). rewrite Forall_forall in Hall.
  specialize (Hall claim Hin). unfold satisfied in Hall. pose proof (Hfl _ _ _ _ claim Hd) as Hn.
  destruct Hc as [->| ->]; cbn in Hall; rewrite Hn in Hall; try done; set_solver.
Qed.

End Jwt.
End JwtSpec.

Module OAuth2Spec.
Import Claims OAuth2.

Section OAuth2.
Context `{JN : JsonNumber} {DG : Digest}.

(** The order lists the keys of the entries, each once, and there are no more than the
    capacity. *)
Definition bounded (l : OAuth2Layer) (c : IntrospectCache) : Prop :=
  NoDup (order c) /\ (forall k, k ∈ order c <-> is_Some (entries c !! k)) /\ (size (entries c) <= capacity l)%nat.

Lemma size_order c :
  NoDup (order c) -> (forall k, k ∈ order c <-> is_Some (entries c !! k)) -> size (entries c) = length (order c).
Proof.
  intros Hnd Hk. rewrite <- size_dom. rewrite <- (size_list_to_set (C:=gset string) (order c) Hnd). f_equal.
  apply set_eq. intros k. by rewrite elem_of_list_to_set, Hk, elem_of_dom.
Qed.

Lemma bounded_purge l now c : bounded l c -> bounded l (purge_expired l now c).
Proof.
  intros (Hnd & Hk & Hs). unfold purge_expired. set (kept := filter _ (entries c)). repeat split; cbn [entries order].
  - by apply NoDup_ListNoDup, List.NoDup_filter, NoDup_ListNoDup.
  - intros H. apply list_elem_of_In, List.filter_In in H as [_ H]. by apply bool_decide_eq_true in H.
  - intros H. apply list_elem_of_In, List.filter_In. split; [|by apply bool_decide_eq_true].
    apply list_elem_of_In, Hk. destruct H as [x Hx]. apply map_lookup_filter_Some in Hx as [Hx _]. by exists x.
  - etransitivity; [|exact Hs]. unfold kept. rewrite <- !size_dom. apply subseteq_size, dom_filter_subseteq.
Qed.

Lemma evict_spec l c :
  bounded l c -> (0 < capacity l)%nat ->
  NoDup (order (evict l c)) /\ (forall k, k ∈ order (evict l c) <-> is_Some (entries (evict l c) !! k)) /\
  (size (entries (evict l c)) < capacity l)%nat /\ (forall k, is_Some (entries (evict l c) !! k) -> is_Some (entries c !! k)).
Proof.
  intros (Hnd & Hk & Hs) Hc. unfold evict. destruct (Nat.leb_spec (capacity l) (size (entries c))) as [Hf|Hf]; [|done].
  pose proof (size_order c Hnd Hk) as Hlen. destruct (order c) as [|oldest rest] eqn:Eo; [simpl in Hlen; lia|].
  apply NoDup_cons in Hnd as [Ho Hnd]. cbn [entries order].
  assert (Hiff : forall k, k ∈ rest <-> is_Some (delete oldest (entries c) !! k)).
  { intros k. destruct (decide (k = oldest)) as [->|Hne].
    - rewrite lookup_delete_eq. split; [done|]. by intros [? ?].
    - rewrite lookup_delete_ne by done. rewrite <- Hk, elem_of_cons. split; [by right|]. by intros [->|]. }
  split; [done|]. split; [done|]. split.
  - pose proof (size_order {| entries := delete oldest (entries c); order := rest |} Hnd Hiff) as H. cbn in H, Hlen. lia.
  - intros k Hd. apply Hk. right. by apply Hiff.
Qed.

Lemma bounded_store l key claims purge_at now c :
  (0 < capacity l)%nat -> bounded l c -> bounded l (store l key claims purge_at now c).
Proof.
  intros Hcap Hb. unfold store. destruct (0 <? cache_ttl_secs l); [|done].
  set (c1 := if (_ <=? _)%nat then _ else c). assert (Hb1 : bounded l c1).
  { unfold c1. destruct (_ <=? _)%nat; [by apply bounded_purge|done]. }
  clearbody c1. clear Hb. destruct (bool_decide (is_Some (entries c1 !! key))) eqn:Ek; cbn [entries order].
  - apply bool_decide_eq_true in Ek. destruct Hb1 as (Hnd & Hk & Hs). split; [done|]. split.
    + intros k. cbn [entries order]. rewrite Hk. destruct (decide (k = key)) as [->|Hne]; [by rewrite lookup_insert_eq|by rewrite lookup_insert_ne].
    + destruct Ek as [x Ek]. cbn [entries]. rewrite map_size_insert_Some by (by rewrite Ek). done.
  - apply bool_decide_eq_false in Ek. destruct (evict_spec l c1 Hb1 Hcap) as (Hnd & Hk & Hs & Hsub).
    assert (Hkey : entries (evict l c1) !! key = None).
    { destruct (entries (evict l c1) !! key) eqn:E; [|done]. exfalso. by apply Ek, Hsub. }
    split; [|split].
    + apply NoDup_app. split; [done|]. split; [|apply NoDup_singleton]. intros k H1 ->%list_elem_of_singleton.
      apply Hk in H1 as [? H1]. by rewrite Hkey in H1.
    + intros k. cbn [order entries]. rewrite elem_of_app, list_elem_of_singleton.
      destruct (decide (k = key)) as [->|Hne]; [rewrite lookup_insert_eq; split; [done|by right]|].
      rewrite lookup_insert_ne by done. rewrite Hk. naive_solver.
    + cbn [entries]. rewrite map_size_insert_None by done. lia.
Qed.

Lemma cache_bounded_inv l ask tr s : (0 < capacity l)%nat -> runs l ask tr s -> bounded l (cache s).
Proof.
  intros Hcap. induction 1 as [t|tr s o s' Hr IH Hs].
  - split; [constructor|]. split; [|cbn; by rewrite map_size_empty; lia]. intros k. cbn. rewrite lookup_empty.
    split; [by intros ?%not_elem_of_nil|by intros [? ?]].
  - inversion Hs; subst; cbn [cache]; [done..|]. by apply bounded_store.
Qed.

(** However calls interleave, the introspection cache holds at most its capacity of
    entries, and the queue by which the oldest is evicted lists exactly their keys. *)
Theorem introspection_cache_is_bounded l ask tr s :
  (0 < capacity l)%nat -> runs l ask tr s -> bounded l (cache s) /\ (length (order (cache s)) <= capacity l)%nat.
Proof.
  intros Hcap Hr. pose proof (cache_bounded_inv l ask tr s Hcap Hr) as Hb. split; [done|].
  destruct Hb as (Hnd & Hk & Hs). by rewrite <- (size_order _ Hnd Hk).
Qed.

(** *** Where cached claims come from *)

Definition vouched (l : OAuth2Layer) (tr : list event) (key : string) (c : AuthClaims) (at_ : Z) : Prop :=
  exists c0 t0, Stored key c0 at_ ∈ tr /\ Fresh key c0 t0 ∈ tr /\ t0 <= at_ /\ c = filter_claims c0 (claims_whitelist l).

Definition sourced (l : OAuth2Layer) (tr : list event) (s : state) : Prop :=
  (forall key c at_, entries (cache s) !! key = Some (c, at_) -> vouched l tr key c at_ /\ at_ <= now s) /\
  Forall (fun p => exists t0, Fresh (p_key p) (p_claims p) t0 ∈ tr /\ t0 <= now s) (waiting s).

Lemma vouched_more l tr tr' key c at_ : (forall e, e ∈ tr -> e ∈ tr') -> vouched l tr key c at_ -> vouched l tr' key c at_.
Proof. intros H (c0 & t0 & Hs & Hf & Ht). exists c0, t0. auto. Qed.

Lemma store_entries l key claims purge_at now c k x :
  entries (store l key claims purge_at now c) !! k = Some x ->
  (k = key /\ x = (filter_claims claims (claims_whitelist l), now)) \/ entries c !! k = Some x.
Proof.
  unfold store. destruct (0 <? cache_ttl_secs l); [|by right].
  set (c1 := if (_ <=? _)%nat then _ else c). assert (H1 : forall x, entries c1 !! k = Some x -> entries c !! k = Some x).
  { unfold c1. destruct (_ <=? _)%nat; [|done]. intros y Hy. by apply map_lookup_filter_Some in Hy as [Hy _]. }
  clearbody c1. cbn [entries]. destruct (decide (k = key)) as [->|Hne]; [rewrite lookup_insert_eq; intros [= <-]; by left|].
  rewrite lookup_insert_ne by done. intros Hx. right. apply H1.
  destruct (bool_decide (is_Some (entries c1 !! key))); [done|]. cbn [entries] in Hx. unfold evict in Hx.
  destruct (capacity l <=? size (entries c1))%nat; [|done]. destruct (order c1) as [|oldest rest]; [done|].
  cbn [entries] in Hx. by apply lookup_delete_Some in Hx as [_ Hx].
Qed.

Lemma sourced_step l ask tr s o s' :
  sourced l tr s -> step l ask s o s' ->
  sourced l (match o with Some e => e :: tr | None => tr end) s'.
Proof.
  intros [He Hw] Hs. inversion Hs as [s0 t Ht|s0 token c Hc|s0 token c Hc Hi|s0 w1 p w2 purge_at Hp Hpa]; subst;
    cbn [cache waiting now].
  - split; [intros key c a H; apply He in H as [H1 H2]; cbn [now]; split; [done|lia]|].
    eapply Forall_impl; [exact Hw|]. intros p (t0 & H1 & H2). exists t0. cbn [now]. split; [done|lia].
  - split; [intros key c' a H; apply He in H as [H1 H2]; split; [|done]; eapply vouched_more; [|done]; by right|].
    eapply Forall_impl; [exact Hw|]. intros p (t0 & H1 & H2). exists t0. split; [by right|done].
  - split; [intros key c' a H; apply He in H as [H1 H2]; split; [|done]; eapply vouched_more; [|done]; by right|].
    constructor; [exists (now s); cbn; split; [apply list_elem_of_here|lia]|].
    eapply Forall_impl; [exact Hw|]. intros p (t0 & H1 & H2). exists t0. split; [by right|done].
  - rewrite Hp in Hw. apply Forall_app in Hw as [Hw1 Hw2]. apply Forall_cons in Hw2 as [(t0 & Hf & Ht) Hw2]. split.
    + intros key c a H. apply store_entries in H as [[-> [= -> ->]]|H].
      * split; [|done]. exists (p_claims p), t0. repeat split; [apply list_elem_of_here|by right|done].
      * apply He in H as [H1 H2]. split; [|done]. eapply vouched_more; [|done]. by right.
    + apply Forall_app. split; (eapply Forall_impl; [done|]); intros q (t1 & H1 & H2); exists t1; (split; [by right|done]).
Qed.

Lemma sourced_runs l ask tr s : runs l ask tr s -> sourced l tr s.
Proof.
  induction 1 as [t|tr s o s' Hr IH Hs]; [|by eapply sourced_step].
  split; [intros key c a H; cbn in H; by rewrite lookup_empty in H|constructor].
Qed.

Definition served (l : OAuth2Layer) (tr : list event) : Prop :=
  forall key c t, FromCache key c t ∈ tr ->
    exists c0 t0 t1, Fresh key c0 t0 ∈ tr /\ Stored key c0 t1 ∈ tr /\ t0 <= t1 <= t /\
      t < t1 + cache_ttl_secs l * second /\ c = filter_claims c0 (claims_whitelist l).

(** Claims taken from the introspection cache are those the endpoint gave for the same
    token, cut to the white list, and were stored less than the time to live ago: a token
    the endpoint has revoked is refused once that time has passed since its last answer
    was stored, however calls interleave. *)
Theorem cached_claims_expire l ask tr s : runs l ask tr s -> served l tr.
Proof.
  induction 1 as [t|tr s o s' Hr IH Hs]; [by intros key c t' H%not_elem_of_nil|].
  assert (Hold : served l tr -> forall e, (forall key c t, e <> FromCache key c t) -> served l (e :: tr)).
  { intros H e He key c t Hin. apply elem_of_cons in Hin as [Heq|Hin]; [by apply eq_sym, He in Heq|].
    destruct (H key c t Hin) as (c0 & t0 & t1 & H1 & H2 & H3). exists c0, t0, t1. split; [by right|split; [by right|done]]. }
  pose proof (sourced_runs l ask tr s Hr) as [He _].
  inversion Hs as [s0 t Ht|s0 token c Hc|s0 token c Hc Hi|s0 w1 p w2 purge_at Hp Hpa]; subst; [done| |by apply Hold|by apply Hold].
  intros key c' t Hin. apply elem_of_cons in Hin as [Heq|Hin].
  - injection Heq as -> -> ->. unfold lookup in Hc. destruct (0 <? cache_ttl_secs l); [|done].
    destruct (entries _ !! cache_key token) as [[c1 a]|] eqn:Ee; [|done]. destruct (live l a _) eqn:El; [|done]. injection Hc as ->.
    destruct (He _ _ _ Ee) as [(c0 & t0 & Hst & Hf & Ht0 & ->) Ha]. exists c0, t0, a.
    split; [by right|]. split; [by right|]. split; [lia|]. split; [|done].
    unfold live in El. apply Z.ltb_lt in El. unfold sat_sub in El. lia.
  - destruct (IH key c' t Hin) as (c0 & t0 & t1 & H1 & H2 & H3). exists c0, t0, t1. split; [by right|split; [by right|done]].
Qed.

(** The expiry of a token is not looked at on a hit: a token answered at [t1] with an
    expiry that has passed is admitted until the time to live is over. *)
Theorem expired_token_is_served_from_cache l r token claims e t1 t purge_at ask c :
  0 < cache_ttl_secs l -> extract_bearer r "Authorization" = Some token -> exp claims = Some e ->
  e * second < t -> t1 <= t < t1 + cache_ttl_secs l * second ->
  exists admitted, (OAuth2.call l r t ask purge_at t (store l (cache_key token) claims purge_at t1 c)).1 = Admit admitted /\
    exp admitted = Some e.
Proof.
  intros Httl Hb He Hexp Ht. exists (filter_claims claims (claims_whitelist l)). unfold OAuth2.call. rewrite Hb.
  unfold introspect_token, lookup, store. destruct (Z.ltb_spec 0 (cache_ttl_secs l)); [|lia]. cbn [entries].
  rewrite lookup_insert_eq. unfold live. replace (sat_sub t t1 <? cache_ttl_secs l * second) with true.
  - split; [done|]. unfold filter_claims. by destruct (existsb _ _).
  - symmetry. apply Z.ltb_lt. unfold sat_sub. lia.
Qed.

End OAuth2.
End OAuth2Spec.

Module AuthDemo.
Import Claims Jwt OAuth2.

#[local] Instance demo_number : JsonNumber := {|
  Number := Z; number_as_i64 n := Some n; number_is_u64 n := true; number_as_f64 _ := None; number_text _ := "" |}.

Definition ann : AuthClaims := {| sub := "ann"; exp := Some 60; iat := None; role := None; extra := ∅ |}.

#[local] Instance demo_tokens : Tokens := {| decode _ _ t := if String.eqb t "good" then Some ann else None |}.

Definition layer (claims : list string) : JwtAuthLayer := {|
  secret := "0123456789abcdef0123456789abcdef"; required_claims := claims; jwt_header := "Authorization";
  required_issuer := None; required_audience := None; validation := {| v_iss := None; v_aud := None |} |}.

Definition good : Claims.Request :=
  {| headers h := if String.eqb h "Authorization" then Some "Bearer good" else None; query := None |}.

Lemma admitted_token_is_valid_witness :
  exists token, extract_bearer good "Authorization" = Some token /\
    decode (secret (layer ["sub"])) (validation (layer ["sub"])) token = Some ann /\
    (required_issuer (layer ["sub"]) <> None -> extra ann !! "iss" <> None) /\
    (required_audience (layer ["sub"]) <> None -> extra ann !! "aud" <> None) /\
    Forall (fun claim => satisfied ann claim = true) ["sub"].
Proof. apply (JwtSpec.admitted_token_is_valid (layer ["sub"]) good ann). reflexivity. Defined.

Lemma required_exp_refuses_every_token_witness :
  exists status body, Jwt.call (layer ["sub"; "exp"]) good = Refuse status body.
Proof.
  apply (JwtSpec.required_exp_refuses_every_token (layer ["sub"; "exp"]) good "exp"); [|by left|set_solver].
  intros key v token c claim Hd _. cbn in Hd. destruct (String.eqb token "good"); [|done]. by injection Hd as <-.
Defined.

#[local] Instance demo_digest : Digest := {|
  cache_key t := t;
  parse_body s := if String.eqb s "ann"
    then Some (VObject [("active", VBool true); ("sub", VString "ann"); ("exp", @VNumber demo_number 60)]) else None;
  as_u64 v := as_i64 v |}.

Definition small : OAuth2Layer := {| cache_ttl_secs := 300; capacity := 2; claims_whitelist := DEFAULT_CLAIMS_WHITELIST |}.
Definition ask (_ : string) (_ : Z) : Answer := Some (200, [Some "ann"]).

Definition started : state := {| cache := empty_cache; waiting := []; now := 0 |}.
Definition asked : state := {| cache := empty_cache; waiting := [{| p_key := "good"; p_claims := ann |}]; now := 0 |}.
Definition stored : state := {| cache := store small "good" ann (fun _ => 0) 0 empty_cache; waiting := []; now := 0 |}.

Lemma demo_run : runs small ask [FromCache "good" ann 0; Stored "good" ann 0; Fresh "good" ann 0] stored.
Proof.
  apply (R_step small ask [Stored "good" ann 0; Fresh "good" ann 0] stored (Some (FromCache "good" ann 0)) stored).
  - apply (R_step small ask [Fresh "good" ann 0] asked (Some (Stored "good" ann 0)) stored).
    + apply (R_step small ask [] started (Some (Fresh "good" ann 0)) asked (R_start small ask 0)).
      exact (S_miss small ask started "good" ann eq_refl eq_refl).
    + exact (S_store small ask asked [] {| p_key := "good"; p_claims := ann |} [] (fun _ => 0) eq_refl (fun _ => Z.le_refl 0)).
  - exact (S_hit small ask stored "good" ann eq_refl).
Qed.

Lemma introspection_cache_is_bounded_witness :
  OAuth2Spec.bounded small (cache stored) /\ (length (order (cache stored)) <= 2)%nat.
Proof. apply (OAuth2Spec.introspection_cache_is_bounded small ask [FromCache "good" ann 0; Stored "good" ann 0; Fresh "good" ann 0] stored); [cbn; lia|apply demo_run]. Defined.

Lemma cached_claims_expire_witness :
  OAuth2Spec.served small [FromCache "good" ann 0; Stored "good" ann 0; Fresh "good" ann 0].
Proof. apply (OAuth2Spec.cached_claims_expire small ask [FromCache "good" ann 0; Stored "good" ann 0; Fresh "good" ann 0] stored). apply demo_run. Defined.

Lemma expired_token_is_served_from_cache_witness :
  exists admitted,
    (OAuth2.call small good (100 * second) (fun t => ask t 0) (fun _ => 0) (100 * second)
       (store small (cache_key "good") ann (fun _ => 0) 0 empty_cache)).1 = Admit admitted /\ exp admitted = Some 60.
Proof.
  apply (OAuth2Spec.expired_token_is_served_from_cache small good "good" ann 60 0 (100 * second) (fun _ => 0) (fun t => ask t 0) empty_cache);
    first [reflexivity|unfold second; cbn; lia].
Defined.

End AuthDemo.
