(* ===== verification/OrmDialect.v ===== *)
(** * Entities and dialects of the ORM ([ecat-orm])

    [src/ecat-orm/src/entity.rs], [error.rs] ([Module Entity]: the metadata of an entity)
    and [dialect/] ([Module Spec]: what each database spells differently).  A statement is
    its text; a placeholder's index counts from one. *)

From Stdlib Require Import Ascii.
From S2P Require Import Prelude Json Text Dialect Rdbms.

Local Open Scope Z_scope.
Local Open Scope ecat_scope.

Module Entity.
Import Rdbms.

Inductive ColType := I64 | I32 | F64 | Bool_ | Text_ | Bytes_ | Timestamp_ | Date_ | Json_.

Record ColumnMeta := {
  c_name : string;
  ty : ColType;
  nullable : bool;
  is_pk : bool;
  auto_increment : bool;
}.

(** The column that has each duty, if one has. *)
Record EntityFlags := {
  created_at : option string;
  updated_at : option string;
  soft_delete : option string;
  version : option string;
}.

Definition no_flags : EntityFlags :=
  {| created_at := None; updated_at := None; soft_delete := None; version := None |}.

Inductive RelationKind := HasMany | HasOne | BelongsTo.

Record RelationMeta := {
  r_name : string;
  kind : RelationKind;
  target_table : string;
  foreign_key : string;
  local_key : string;
}.

Record EntityMeta := {
  m_table : string;
  m_pk : string;
  columns : list ColumnMeta;
  relations : list RelationMeta;
  flags : EntityFlags;
}.

Definition column (m : EntityMeta) (name : string) : option ColumnMeta :=
  List.find (fun c => String.eqb (c_name c) name) (columns m).

Definition insertable_columns (m : EntityMeta) : list ColumnMeta :=
  List.filter (fun c => negb (is_pk c && auto_increment c)) (columns m).

Definition updatable_columns (m : EntityMeta) : list ColumnMeta :=
  List.filter (fun c => negb (is_pk c)) (columns m).

Definition relation (m : EntityMeta) (name : string) : option RelationMeta :=
  List.find (fun r => String.eqb (r_name r) name) (relations m).

Inductive OrmError :=
| ERdbms (e : RdbmsError)
| UnknownColumn (c : string)
| OptimisticLockConflict
| NotFound
| MigrationIrreversible (name : string)
| InvalidMigrationName (name : string)
| MigrationNotApplied (version : Z)
| UnexpectedNull (c : string)
| TypeMismatch (c expected : string)
| MigrationFailed (version : Z) (name : string) (source : OrmError).

(** [to_db] of a message. *)
Definition db_error {A} (m : string) : result A OrmError := Err (ERdbms (Database m)).

End Entity.

Module Spec.
Import Entity.

(** *** Text *)

Fixpoint join (sep : string) (l : list string) : string :=
  match l with
  | [] => ""
  | [x] => x
  | x :: l => x +:+ sep +:+ join sep l
  end.

Definition dq : string := String (ascii_of_nat 34) EmptyString.

Definition num (n : nat) : string := dec_text (Z.of_nat n).

Record Limit := { l_prefix : string; l_suffix : string }.
Definition no_limit : Limit := {| l_prefix := ""; l_suffix := "" |}.

Inductive InsertPlan :=
| Single (sql : string)
| InsertThen (insert fetch : string).

(** *** What the dialects share *)

(** The placeholders [from + 1 .. from + n]. *)
Definition placeholders (ph : nat -> string) (from n : nat) : string :=
  join ", " (map ph (seq (S from) n)).

Definition list_of (q : string -> string) (cols : list string) : string := join ", " (map q cols).

(** One tuple of placeholders per row. *)
Definition value_rows (ph : nat -> string) (n_rows per_row : nat) : string :=
  join ", " (map (fun r => "(" +:+ placeholders ph (r * per_row) per_row +:+ ")") (seq 0 n_rows)).

Definition old_name (c : string) : string := c +:+ "__old".

Definition update_many_aliases (q : string -> string) (pk : string) (set_cols where_extra : list string)
    : list string :=
  map q (pk :: set_cols ++ map old_name where_extra).

Definition update_many_from_values (q : string -> string) (ph : nat -> string) (table pk : string)
    (set_cols where_extra : list string) (n_rows : nat) : string :=
  let alias := join ", " (update_many_aliases q pk set_cols where_extra) in
  let per_row := (1 + length set_cols + length where_extra)%nat in
  let sets := join ", " (map (fun c => q c +:+ " = v." +:+ q c) set_cols) in
  let conds :=
    (q table +:+ "." +:+ q pk +:+ " = v." +:+ q pk)
      :: map (fun c => q table +:+ "." +:+ q c +:+ " = v." +:+ q (old_name c)) where_extra in
  "UPDATE " +:+ q table +:+ " SET " +:+ sets +:+ " FROM (VALUES " +:+ value_rows ph n_rows per_row
    +:+ ") AS v(" +:+ alias +:+ ") WHERE " +:+ join " AND " conds.

(** [LIMIT]/[OFFSET] as a suffix. *)
Definition limit_suffix (limit : option Z) (offset : Z) : Limit :=
  {| l_prefix := "";
     l_suffix :=
       match limit with
       | None => if offset =? 0 then "" else " OFFSET " +:+ dec_text offset
       | Some l => " LIMIT " +:+ dec_text l +:+ (if offset =? 0 then "" else " OFFSET " +:+ dec_text offset)
       end |}.

(** The columns an upsert sets. *)
Definition assigns (pk : string) (f : string -> string) (cols : list string) : string :=
  join ", " (map f (List.filter (fun c => negb (String.eqb c pk)) cols)).

Definition upsert_on_conflict (q : string -> string) (ph : nat -> string) (table : string) (cols : list string)
    (pk : string) : string :=
  let sets := assigns pk (fun c => q c +:+ " = excluded." +:+ q c) cols in
  let action := if String.eqb sets "" then "DO NOTHING" else "DO UPDATE SET " +:+ sets in
  "INSERT INTO " +:+ q table +:+ " (" +:+ list_of q cols +:+ ") VALUES (" +:+ placeholders ph 0 (length cols)
    +:+ ") ON CONFLICT (" +:+ q pk +:+ ") " +:+ action.

Definition insert_returning (q : string -> string) (ph : nat -> string) (table : string) (cols : list string)
    (pk : string) : InsertPlan :=
  Single ("INSERT INTO " +:+ q table +:+ " (" +:+ list_of q cols +:+ ") VALUES ("
            +:+ placeholders ph 0 (length cols) +:+ ") RETURNING " +:+ q pk).

(** *** The dialects *)

Record DialectSpec := {
  quote : string -> string;
  placeholder : nat -> string;
  limit_clause : option Z -> Z -> bool -> Limit;
  insert_plan : string -> list string -> string -> InsertPlan;
  upsert : string -> list string -> string -> string;
  update_many_stmt : string -> string -> list string -> list string -> nat -> string;
  bool_literal : bool -> string;
  col_type : ColType -> string;
  create_table_prefix : string -> string;
  needs_exists_check_before_create : bool;
  autoincrement_ddl : ColType -> string;
  max_params_per_stmt : nat;
}.

Definition double_quoted (ident : string) : string := dq +:+ ident +:+ dq.
Definition question (_ : nat) : string := "?".

Definition standard_type (t : ColType) : string :=
  match t with
  | I64 => "BIGINT" | I32 => "INTEGER" | F64 => "DOUBLE PRECISION" | Bool_ => "BOOLEAN"
  | Text_ | Json_ => "TEXT" | Bytes_ => "BLOB" | Timestamp_ => "TIMESTAMP" | Date_ => "DATE"
  end.

Definition if_not_exists (q : string -> string) (table : string) : string :=
  "CREATE TABLE IF NOT EXISTS " +:+ q table.

Definition standard_spec : DialectSpec := {|
  quote := double_quoted; placeholder := question;
  limit_clause l o _ := limit_suffix l o;
  insert_plan := insert_returning double_quoted question;
  upsert := upsert_on_conflict double_quoted question;
  update_many_stmt := update_many_from_values double_quoted question;
  bool_literal b := if b then "TRUE" else "FALSE";
  col_type := standard_type;
  create_table_prefix := if_not_exists double_quoted;
  needs_exists_check_before_create := false;
  autoincrement_ddl t := standard_type t +:+ " GENERATED BY DEFAULT AS IDENTITY";
  max_params_per_stmt := 65535 |}.

(** SQLite names the columns of the values by their position. *)
Definition position (i : nat) : string := "column" +:+ num i.

Fixpoint with_index {A} (i : nat) (l : list A) : list (nat * A) :=
  match l with [] => [] | x :: l => (i, x) :: with_index (S i) l end.

Definition sqlite_update_many (table pk : string) (set_cols where_extra : list string) (n_rows : nat) : string :=
  let q := double_quoted in
  let per_row := (1 + length set_cols + length where_extra)%nat in
  let sets := join ", " (map (fun ic => q ic.2 +:+ " = v." +:+ q (position (ic.1 + 2))) (with_index 0 set_cols)) in
  let conds :=
    (q table +:+ "." +:+ q pk +:+ " = v." +:+ q (position 1))
      :: map (fun ic => q table +:+ "." +:+ q ic.2 +:+ " = v." +:+ q (position (length set_cols + ic.1 + 2)))
           (with_index 0 where_extra) in
  "UPDATE " +:+ q table +:+ " SET " +:+ sets +:+ " FROM (VALUES " +:+ value_rows question n_rows per_row
    +:+ ") AS v WHERE " +:+ join " AND " conds.

Definition sqlite_type (t : ColType) : string :=
  match t with
  | I64 | I32 | Bool_ => "INTEGER" | F64 => "REAL"
  | Text_ | Json_ | Timestamp_ | Date_ => "TEXT" | Bytes_ => "BLOB"
  end.

Definition sqlite_spec : DialectSpec := {|
  quote := double_quoted; placeholder := question;
  limit_clause l o _ := limit_suffix l o;
  insert_plan := insert_returning double_quoted question;
  upsert := upsert_on_conflict double_quoted question;
  update_many_stmt := sqlite_update_many;
  bool_literal b := if b then "1" else "0";
  col_type := sqlite_type;
  create_table_prefix := if_not_exists double_quoted;
  needs_exists_check_before_create := false;
  autoincrement_ddl _ := "INTEGER PRIMARY KEY AUTOINCREMENT";
  max_params_per_stmt := 999 |}.

Definition dollar (i : nat) : string := "$" +:+ num i.

Definition postgres_type (t : ColType) : string :=
  match t with
  | I64 => "BIGINT" | I32 => "INTEGER" | F64 => "DOUBLE PRECISION" | Bool_ => "BOOLEAN"
  | Text_ | Json_ => "TEXT" | Bytes_ => "BYTEA" | Timestamp_ => "TIMESTAMPTZ" | Date_ => "DATE"
  end.

Definition postgres_spec : DialectSpec := {|
  quote := double_quoted; placeholder := dollar;
  limit_clause l o _ := limit_suffix l o;
  insert_plan := insert_returning double_quoted dollar;
  upsert := upsert_on_conflict double_quoted dollar;
  update_many_stmt := update_many_from_values double_quoted dollar;
  bool_literal b := if b then "TRUE" else "FALSE";
  col_type := postgres_type;
  create_table_prefix := if_not_exists double_quoted;
  needs_exists_check_before_create := false;
  autoincrement_ddl t :=
    match t with I64 => "BIGSERIAL" | t => postgres_type t +:+ " GENERATED BY DEFAULT AS IDENTITY" end;
  max_params_per_stmt := 65535 |}.

Definition backquoted (ident : string) : string := "`" +:+ ident +:+ "`".

Definition mysql_insert_plan (table : string) (cols : list string) (_ : string) : InsertPlan :=
  InsertThen
    ("INSERT INTO " +:+ backquoted table +:+ " (" +:+ list_of backquoted cols +:+ ") VALUES ("
       +:+ placeholders question 0 (length cols) +:+ ")")
    "SELECT LAST_INSERT_ID()".

Definition mysql_upsert (table : string) (cols : list string) (pk : string) : string :=
  let q := backquoted in
  let sets := assigns pk (fun c => q c +:+ " = VALUES(" +:+ q c +:+ ")") cols in
  let sets := if String.eqb sets "" then q pk +:+ " = " +:+ q pk else sets in
  "INSERT INTO " +:+ q table +:+ " (" +:+ list_of q cols +:+ ") VALUES ("
    +:+ placeholders question 0 (length cols) +:+ ") ON DUPLICATE KEY UPDATE " +:+ sets.

(** A derived table instead of [FROM (VALUES ...)]; its first row names the columns. *)
Definition mysql_update_many (table pk : string) (set_cols where_extra : list string) (n_rows : nat) : string :=
  let q := backquoted in
  let alias := update_many_aliases q pk set_cols where_extra in
  let per_row := length alias in
  let select r :=
    "SELECT " +:+ join ", " (map (fun ca =>
        let ph := question (r * per_row + ca.1 + 1) in
        if Nat.eqb r 0 then ph +:+ " AS " +:+ ca.2 else ph) (with_index 0 alias)) in
  let sets := join ", " (map (fun c => q table +:+ "." +:+ q c +:+ " = v." +:+ q c) set_cols) in
  "UPDATE " +:+ q table +:+ " JOIN (" +:+ join " UNION ALL " (map select (seq 0 n_rows)) +:+ ") AS v ON "
    +:+ q table +:+ "." +:+ q pk +:+ " = v." +:+ q pk +:+ " SET " +:+ sets
    +:+ match where_extra with
        | [] => ""
        | _ => " WHERE " +:+ join " AND "
                 (map (fun c => q table +:+ "." +:+ q c +:+ " = v." +:+ q (old_name c)) where_extra)
        end.

Definition mysql_type (t : ColType) : string :=
  match t with
  | I64 => "BIGINT" | I32 => "INT" | F64 => "DOUBLE" | Bool_ => "TINYINT(1)"
  | Text_ | Json_ => "TEXT" | Bytes_ => "BLOB" | Timestamp_ => "DATETIME" | Date_ => "DATE"
  end.

Definition mysql_spec : DialectSpec := {|
  quote := backquoted; placeholder := question;
  limit_clause l o _ := limit_suffix l o;
  insert_plan := mysql_insert_plan;
  upsert := mysql_upsert;
  update_many_stmt := mysql_update_many;
  bool_literal b := if b then "1" else "0";
  col_type := mysql_type;
  create_table_prefix := if_not_exists backquoted;
  needs_exists_check_before_create := false;
  autoincrement_ddl t := mysql_type t +:+ " AUTO_INCREMENT";
  max_params_per_stmt := 65535 |}.

Definition bracketed (ident : string) : string := "[" +:+ ident +:+ "]".
Definition at_p (i : nat) : string := "@P" +:+ num i.

Definition mssql_limit (limit : option Z) (offset : Z) (has_order : bool) : Limit :=
  if offset =? 0 then
    match limit with
    | Some l => {| l_prefix := "TOP (" +:+ dec_text l +:+ ") "; l_suffix := "" |}
    | None => no_limit
    end
  else
    {| l_prefix := "";
       l_suffix := (if has_order then "" else " ORDER BY (SELECT NULL)") +:+ " OFFSET " +:+ dec_text offset
                     +:+ " ROWS" +:+ match limit with
                                     | Some l => " FETCH NEXT " +:+ dec_text l +:+ " ROWS ONLY"
                                     | None => ""
                                     end |}.

Definition mssql_insert_plan (table : string) (cols : list string) (pk : string) : InsertPlan :=
  Single ("INSERT INTO " +:+ bracketed table +:+ " (" +:+ list_of bracketed cols +:+ ") OUTPUT INSERTED."
            +:+ bracketed pk +:+ " VALUES (" +:+ placeholders at_p 0 (length cols) +:+ ")").

Definition mssql_upsert (table : string) (cols : list string) (pk : string) : string :=
  let q := bracketed in
  let cols_sql := list_of q cols in
  let src_cols := join ", " (map (fun c => "[s]." +:+ q c) cols) in
  let sets := assigns pk (fun c => "[t]." +:+ q c +:+ " = [s]." +:+ q c) cols in
  let matched := if String.eqb sets "" then "" else "WHEN MATCHED THEN UPDATE SET " +:+ sets +:+ " " in
  "MERGE INTO " +:+ q table +:+ " AS [t] USING (VALUES (" +:+ placeholders at_p 0 (length cols) +:+ ")) AS [s] ("
    +:+ cols_sql +:+ ") ON [t]." +:+ q pk +:+ " = [s]." +:+ q pk +:+ " " +:+ matched
    +:+ "WHEN NOT MATCHED THEN INSERT (" +:+ cols_sql +:+ ") VALUES (" +:+ src_cols +:+ ");".

Definition mssql_type (t : ColType) : string :=
  match t with
  | I64 => "BIGINT" | I32 => "INT" | F64 => "FLOAT" | Bool_ => "BIT"
  | Text_ | Json_ => "NVARCHAR(MAX)" | Bytes_ => "VARBINARY(MAX)" | Timestamp_ => "DATETIME2" | Date_ => "DATE"
  end.

Definition mssql_spec : DialectSpec := {|
  quote := bracketed; placeholder := at_p;
  limit_clause := mssql_limit;
  insert_plan := mssql_insert_plan;
  upsert := mssql_upsert;
  update_many_stmt := update_many_from_values bracketed at_p;
  bool_literal b := if b then "1" else "0";
  col_type := mssql_type;
  create_table_prefix table := "CREATE TABLE " +:+ bracketed table;
  needs_exists_check_before_create := true;
  autoincrement_ddl t := mssql_type t +:+ " IDENTITY(1,1)";
  max_params_per_stmt := 2100 |}.

Definition lookup (d : Dialect) : DialectSpec :=
  match d with
  | Standard => standard_spec
  | Sqlite => sqlite_spec
  | Postgres => postgres_spec
  | MySql => mysql_spec
  | Mssql => mssql_spec
  end.

(** Every dialect takes at least one parameter. *)
Lemma max_params_positive d : (0 < max_params_per_stmt (lookup d))%nat.
Proof. destruct d; apply Nat.ltb_lt; reflexivity. Qed.

End Spec.
