(* ===== verification/OrmQuery.v ===== *)
(** * The query builder of the ORM ([ecat-orm])

    [src/ecat-orm/src/query/filter.rs], [query/mod.rs], [query/sql.rs] ([Module Query]: the
    builder and the SELECT it renders) and [page.rs] ([Module Page]).  The type state of the
    builder is an index; the text of a statement and its parameters are produced by one pass
    that threads the number of placeholders used. *)

From S2P Require Import Prelude Json Text Dialect Rdbms OrmDialect.

Local Open Scope Z_scope.
Local Open Scope ecat_scope.

Module Query.
Import Rdbms Entity Spec.

Inductive Op := OpEq | OpNe | OpLt | OpLe | OpGt | OpGe | OpLike | OpIn | OpNotIn | OpIsNull | OpNotNull.

(** The last four have no infix form ([unreachable!]). *)
Definition as_sql (o : Op) : string :=
  match o with
  | OpEq => "=" | OpNe => "<>" | OpLt => "<" | OpLe => "<=" | OpGt => ">" | OpGe => ">=" | OpLike => "LIKE"
  | OpIn | OpNotIn | OpIsNull | OpNotNull => ""
  end.

Definition as_str (o : Op) : string :=
  match o with
  | OpEq => "Eq" | OpNe => "Ne" | OpLt => "Lt" | OpLe => "Le" | OpGt => "Gt" | OpGe => "Ge" | OpLike => "Like"
  | OpIn => "In" | OpNotIn => "NotIn" | OpIsNull => "IsNull" | OpNotNull => "NotNull"
  end.

Definition takes_value (o : Op) : bool := match o with OpIsNull | OpNotNull => false | _ => true end.

Inductive Order := Asc | Desc.
Definition order_sql (o : Order) : string := match o with Asc => "ASC" | Desc => "DESC" end.

Inductive JoinType := Inner | Left_.
Definition join_sql (j : JoinType) : string := match j with Inner => "INNER JOIN" | Left_ => "LEFT JOIN" end.

Record OrderBy := { o_column : string; dir : Order }.

(** [Unfiltered] and [Filtered]. *)
Inductive state := Unfiltered | Filtered.

Section Query.
Context `{JT : JsonText}.

Inductive Expr :=
| Cmp (column : string) (op : Op) (value : Value)
| In_ (column : string) (values : list Value) (negated : bool)
| Null (column : string) (negated : bool)
| Raw (sql : string).

(** The entity's metadata are a parameter of the type. *)
Record Query (m : EntityMeta) (s : state) := {
  filters : list Expr;
  orders : list OrderBy;
  joins : list (JoinType * string * string);
  limit : option Z;
  offset : option Z;
  with_trashed : bool;
  preload : list string;
}.
Arguments filters {m s}. Arguments orders {m s}. Arguments joins {m s}. Arguments limit {m s}.
Arguments offset {m s}. Arguments with_trashed {m s}. Arguments preload {m s}.

Definition new (m : EntityMeta) : Query m Unfiltered :=
  {| filters := []; orders := []; joins := []; limit := None; offset := None; with_trashed := false; preload := [] |}.

(** [with]. *)
Definition with_relations {m s} (names : list string) (q : Query m s) : Query m s :=
  {| filters := filters q; orders := orders q; joins := joins q; limit := limit q; offset := offset q;
     with_trashed := with_trashed q; preload := preload q ++ names |}.

Definition set_with_trashed {m s} (q : Query m s) : Query m s :=
  {| filters := filters q; orders := orders q; joins := joins q; limit := limit q; offset := offset q;
     with_trashed := true; preload := preload q |}.

Definition check_column (m : EntityMeta) (c : string) : result unit OrmError :=
  match column m c with Some _ => Ok tt | None => Err (UnknownColumn c) end.

Definition order_by {m s} (c : string) (d : Order) (q : Query m s) : result (Query m s) OrmError :=
  let? _ := check_column m c in
  Ok {| filters := filters q; orders := orders q ++ [{| o_column := c; dir := d |}]; joins := joins q;
        limit := limit q; offset := offset q; with_trashed := with_trashed q; preload := preload q |}.

Definition set_limit {m s} (n : Z) (q : Query m s) : Query m s :=
  {| filters := filters q; orders := orders q; joins := joins q; limit := Some n; offset := offset q;
     with_trashed := with_trashed q; preload := preload q |}.

Definition set_offset {m s} (n : Z) (q : Query m s) : Query m s :=
  {| filters := filters q; orders := orders q; joins := joins q; limit := limit q; offset := Some n;
     with_trashed := with_trashed q; preload := preload q |}.

Definition join {m s} (k : JoinType) (table on : string) (q : Query m s) : Query m s :=
  {| filters := filters q; orders := orders q; joins := joins q ++ [(k, table, on)]; limit := limit q;
     offset := offset q; with_trashed := with_trashed q; preload := preload q |}.

Definition push_filter {m s} (e : Expr) (q : Query m s) : Query m Filtered :=
  {| filters := filters q ++ [e]; orders := orders q; joins := joins q; limit := limit q; offset := offset q;
     with_trashed := with_trashed q; preload := preload q |}.

Definition filter_raw {m s} (e : string) (q : Query m s) : result (Query m Filtered) OrmError :=
  Ok (push_filter (Raw e) q).

(** The condition of a filter. *)
Definition filter_expr (c : string) (o : Op) (v : Value) : result Expr OrmError :=
  match o with
  | OpIsNull => Ok (Null c false)
  | OpNotNull => Ok (Null c true)
  | OpIn | OpNotIn =>
      match v with
      | VArray l => Ok (In_ c l (match o with OpNotIn => true | _ => false end))
      | _ => db_error ("`" +:+ as_str o +:+ "` requires an array value, got: " +:+ value_text v)
      end
  | _ => Ok (Cmp c o v)
  end.

Definition filter {m s} (c : string) (o : Op) (v : Value) (q : Query m s) : result (Query m Filtered) OrmError :=
  let? _ := check_column m c in
  let? e := filter_expr c o v in
  Ok (push_filter e q).

(** *** Rendering *)

Record Built := { sql : string; params : list Value }.

Definition COUNT_ALIAS : string := "ecat_count".

(** [Placeholders]: the number used. *)
Definition take (s : DialectSpec) (used : nat) : string * nat := (placeholder s (S used), S used).

Fixpoint take_all (s : DialectSpec) (used : nat) (vs : list Value) : list string * nat :=
  match vs with
  | [] => ([], used)
  | _ :: vs =>
      let '(p, used) := take s used in
      let '(ps, used) := take_all s used vs in (p :: ps, used)
  end.

(** One condition: its text, the placeholders used and the values bound so far. *)
Definition render_expr (s : DialectSpec) (e : Expr) (used : nat) (ps : list Value)
    : string * nat * list Value :=
  match e with
  | Cmp c o v =>
      let '(p, used) := take s used in
      (quote s c +:+ " " +:+ as_sql o +:+ " " +:+ p, used, ps ++ [v])
  | In_ c vs negated =>
      match vs with
      | [] => ((if negated then "1 = 1" else "1 = 0"), used, ps)
      | _ =>
          let '(l, used) := take_all s used vs in
          (quote s c +:+ " " +:+ (if negated then "NOT " else "") +:+ "IN (" +:+ Spec.join ", " l +:+ ")",
           used, ps ++ vs)
      end
  | Null c negated => (quote s c +:+ (if negated then " IS NOT NULL" else " IS NULL"), used, ps)
  | Raw e => (e, used, ps)
  end.

Fixpoint render_exprs (s : DialectSpec) (l : list Expr) (used : nat) (ps : list Value)
    : list string * nat * list Value :=
  match l with
  | [] => ([], used, ps)
  | e :: l =>
      let '(c, used, ps) := render_expr s e used ps in
      let '(cs, used, ps) := render_exprs s l used ps in (c :: cs, used, ps)
  end.

(** The soft-delete gate has no placeholder. *)
Definition gate (m : EntityMeta) (with_trashed : bool) (s : DialectSpec) : list string :=
  match soft_delete (flags m) with
  | Some sd => if with_trashed then [] else [quote s sd +:+ " IS NULL"]
  | None => []
  end.

Definition render_where (m : EntityMeta) (l : list Expr) (with_trashed : bool) (s : DialectSpec) (used : nat)
    (ps : list Value) : option string * nat * list Value :=
  let '(cs, used, ps) := render_exprs s l used ps in
  (match gate m with_trashed s ++ cs with [] => None | cs => Some (Spec.join " AND " cs) end, used, ps).

Definition build_select {m st} (q : Query m st) (d : Dialect) (for_count : bool) : Built :=
  let s := lookup d in
  let cols :=
    if for_count then "COUNT(*) AS " +:+ quote s COUNT_ALIAS
    else Spec.join ", " (map (fun c => quote s (c_name c)) (columns m)) in
  let lim :=
    if for_count then no_limit
    else limit_clause s (limit q) (default 0 (offset q)) (negb (Nat.eqb (length (orders q)) 0)) in
  let head := "SELECT " +:+ l_prefix lim +:+ cols +:+ " FROM " +:+ quote s (m_table m) in
  let joined :=
    foldl (fun acc j => acc +:+ " " +:+ join_sql j.1.1 +:+ " " +:+ quote s j.1.2 +:+ " ON " +:+ j.2)
      head (joins q) in
  let '(w, used, ps) := render_where m (filters q) (with_trashed q) s 0 [] in
  let filtered := match w with Some w => joined +:+ " WHERE " +:+ w | None => joined end in
  let ordered :=
    if negb for_count && negb (Nat.eqb (length (orders q)) 0)
    then filtered +:+ " ORDER BY "
           +:+ Spec.join ", " (map (fun o => quote s (o_column o) +:+ " " +:+ order_sql (dir o)) (orders q))
    else filtered in
  {| sql := ordered +:+ l_suffix lim; params := ps |}.

(** [clone_with_limit]. *)
Definition clone_with_limit {m s} (l o : Z) (q : Query m s) : Query m s := set_offset o (set_limit l q).

End Query.

Arguments filters {_ _ _} _.
Arguments orders {_ _ _} _.
Arguments joins {_ _ _} _.
Arguments limit {_ _ _} _.
Arguments offset {_ _ _} _.
Arguments with_trashed {_ _ _} _.
Arguments preload {_ _ _} _.
End Query.

Module Page.
Import Rdbms Entity Query.

Record Page (T : Type) := { items : list T; total : option Z; page : Z; per_page : Z }.
Arguments items {T}. Arguments total {T}. Arguments page {T}. Arguments per_page {T}.

(** [u64::div_ceil]. *)
Definition div_ceil (a b : Z) : Z := if a mod b =? 0 then a / b else a / b + 1.

Definition total_pages {T} (p : Page T) : option Z :=
  match total p with
  | None => None
  | Some t => if per_page p =? 0 then None else Some (div_ceil t (per_page p))
  end.

Definition has_next {T} (p : Page T) : bool :=
  match total_pages p with Some t => page p <? t | None => false end.

(** [saturating_mul]. *)
Definition page_offset (page per_page : Z) : Z := Z.min u64_max (sat_sub page 1 * per_page).

Section Paging.
Context `{JT : JsonText} {E W Tx : Type}.
Context (from_row : Row -> result E OrmError).
(** [relation::load_relation] on the rows fetched. *)
Context (load_relation : list E -> string -> W -> result (list E) OrmError * W).

Definition query_rows (db : RdbmsClient W Tx) (b : Built) (w : W) : result (list Row) OrmError * W :=
  match perform_ db (QueryWith (sql b) (params b)) w with
  | (Ok (Rows l), w) => (Ok l, w)
  | (Ok (Affected _), w) => (Ok [], w)
  | (Err e, w) => (Err (ERdbms e), w)
  end.

Fixpoint from_rows (l : list Row) : result (list E) OrmError :=
  match l with
  | [] => Ok []
  | r :: l => let? e := from_row r in let? es := from_rows l in Ok (e :: es)
  end.

Fixpoint load_all (names : list string) (es : list E) (w : W) : result (list E) OrmError * W :=
  match names with
  | [] => (Ok es, w)
  | n :: names =>
      match load_relation es n w with
      | (Ok es, w) => load_all names es w
      | (Err e, w) => (Err e, w)
      end
  end.

Definition fetch {m s} (db : RdbmsClient W Tx) (q : Query m s) (w : W) : result (list E) OrmError * W :=
  match query_rows db (build_select q (dialect_ db) false) w with
  | (Ok rows, w) =>
      match from_rows rows with
      | Ok es => load_all (preload q) es w
      | Err e => (Err e, w)
      end
  | (Err e, w) => (Err e, w)
  end.

Definition page_items {m s} (db : RdbmsClient W Tx) (q : Query m s) (page per_page : Z) (w : W)
    : result (list E) OrmError * W :=
  fetch db (clone_with_limit per_page (page_offset page per_page) q) w.

Definition paginate_without_count {m s} (db : RdbmsClient W Tx) (q : Query m s) (page per_page : Z) (w : W)
    : result (Page E) OrmError * W :=
  match page_items db q page per_page w with
  | (Ok es, w) => (Ok {| items := es; total := None; page := page; per_page := per_page |}, w)
  | (Err e, w) => (Err e, w)
  end.

(** The count of the first row, read by its alias as an [i64]. *)
Definition read_i64 (r : Row) (c : string) : result Z OrmError :=
  match (r : gmap string Value) !! c with
  | None => Err (UnknownColumn c)
  | Some v => if is_null v then Err (UnexpectedNull c)
              else match as_i64 v with Some n => Ok n | None => Err (TypeMismatch c "i64") end
  end.

Definition read_total (rows : list Row) : result Z OrmError :=
  match rows with
  | [] => Ok 0
  | r :: _ => let? n := read_i64 r COUNT_ALIAS in Ok (Z.max n 0)
  end.

Definition paginate {m s} (db : RdbmsClient W Tx) (q : Query m s) (page per_page : Z) (w : W)
    : result (Page E) OrmError * W :=
  match query_rows db (build_select q (dialect_ db) true) w with
  | (Ok rows, w) =>
      match read_total rows with
      | Ok t =>
          match page_items db q page per_page w with
          | (Ok es, w) => (Ok {| items := es; total := Some t; page := page; per_page := per_page |}, w)
          | (Err e, w) => (Err e, w)
          end
      | Err e => (Err e, w)
      end
  | (Err e, w) => (Err e, w)
  end.

End Paging.
End Page.
