(* ===== verification/OrmCrud.v ===== *)
(** * Writing entities: single rows and batches ([ecat-orm])

    [src/ecat-orm/src/crud.rs] ([Module Crud]) and [batch.rs] ([Module Batch]).  The
    database is the client of [Rdbms] acting on a world [W]; every read of the clock takes
    the next instant.  A missing column of an entity panics, as the code does. *)

From S2P Require Import Prelude Json Text Dialect Rdbms OrmDialect OrmQuery.

Local Open Scope Z_scope.
Local Open Scope ecat_scope.

Module Crud.
Import Rdbms Entity Spec Query Page.

(** What the code uses of [Entity]. *)
Class EntityT `{JN : JsonNumber} (E : Type) := {
  TABLE : string;
  PK : string;
  META : EntityMeta;
  to_values : E -> list (string * Value);
  pk_value : E -> Value;
}.

Inductive outcome (A : Type) := Done (r : result A OrmError) | Panic.
Arguments Done {A}. Arguments Panic {A}.

Section Crud.
Context `{JI : JsonInt} {JT : JsonText} {E : Type} {ET : EntityT E} {W Tx : Type}.
(** [now()] as the text of the column. *)
Context (clock : nat -> string).

(** The world and the number of clock reads so far. *)
Definition M (A : Type) : Type := W * nat -> outcome A * (W * nat).

Definition ret {A} (r : result A OrmError) : M A := fun s => (Done r, s).

Definition bind {A B} (m : M A) (k : A -> M B) : M B :=
  fun s => match m s with
           | (Done (Ok x), s) => k x s
           | (Done (Err e), s) => (Done (Err e), s)
           | (Panic, s) => (Panic, s)
           end.

Local Notation "'do!' x ':=' c 'in' k" := (bind c (fun x => k)) (at level 10, x pattern, c at level 100, k at level 200).

Definition panic {A} : M A := fun s => (Panic, s).

Definition now : M Value := fun '(w, t) => (Done (Ok (VString (clock t))), (w, S t)).

(** One statement; its affected rows. *)
Definition exec (db : RdbmsClient W Tx) (r : Request) : M Z :=
  fun '(w, t) => match perform_ db r w with
                 | (Ok (Affected n), w) => (Done (Ok n), (w, t))
                 | (Ok (Rows _), w) => (Done (Ok 0), (w, t))
                 | (Err e, w) => (Done (Err (ERdbms e)), (w, t))
                 end.

(** One statement that returns rows. *)
Definition rows (db : RdbmsClient W Tx) (r : Request) : M (list Row) :=
  fun '(w, t) => match perform_ db r w with
                 | (Ok (Rows l), w) => (Done (Ok l), (w, t))
                 | (Ok (Affected _), w) => (Done (Ok []), (w, t))
                 | (Err e, w) => (Done (Err (ERdbms e)), (w, t))
                 end.

Definition auto_timestamp (flag : option string) (c : string) (current : Value) (always_overwrite : bool)
    : M (option Value) :=
  if bool_decide (flag = Some c) && (always_overwrite || is_null current)
  then do! v := now in ret (Ok (Some v))
  else ret (Ok None).

Fixpoint insert_loop (l : list (string * Value)) : M (list string * list Value) :=
  match l with
  | [] => ret (Ok ([], []))
  | (name, v) :: l =>
      match column META name with
      | None => panic
      | Some c =>
          if is_pk c && auto_increment c then insert_loop l
          else
            do! a := auto_timestamp (created_at (flags META)) name v false in
            let v := default v a in
            do! b := auto_timestamp (updated_at (flags META)) name v true in
            let v := default v b in
            do! (cols, vals) := insert_loop l in
            ret (Ok (name :: cols, v :: vals))
      end
  end.

Definition insert_parts (e : E) : M (list string * list Value) := insert_loop (to_values e).

Fixpoint update_loop (l : list (string * Value)) : M (list string * list Value) :=
  match l with
  | [] => ret (Ok ([], []))
  | (name, v) :: l =>
      match column META name with
      | None => panic
      | Some c =>
          if is_pk c then update_loop l
          else
            do! b := auto_timestamp (updated_at (flags META)) name v true in
            let v := default v b in
            do! (cols, vals) := update_loop l in
            ret (Ok (name :: cols, v :: vals))
      end
  end.

Definition update_parts (e : E) : M (list string * list Value) := update_loop (to_values e).

Definition read_returned_pk (l : list Row) : result Z OrmError :=
  match l with
  | [] => db_error "INSERT returned no row for the generated primary key"
  | r :: _ => read_i64 r PK
  end.

Definition insert (db : RdbmsClient W Tx) (e : E) : M Z :=
  do! (cols, vals) := insert_parts e in
  match insert_plan (lookup (dialect_ db)) TABLE cols PK with
  | Single sql => do! l := rows db (QueryWrite sql vals) in ret (read_returned_pk l)
  | InsertThen ins fetch => do! l := rows db (ExecuteThenQuery ins vals fetch) in ret (read_returned_pk l)
  end.

(** [update_row]: the columns set, their values and the old version. *)
Record UpdateRow := { set_cols : list string; set_values : list Value; old_version : option Value }.

Fixpoint position (c : string) (l : list string) : option nat :=
  match l with
  | [] => None
  | x :: l => if String.eqb x c then Some O else S <$> position c l
  end.

Definition next_version (v : Value) : Value := VNumber (number_of_i64 (to_i64 (default 0 (as_i64 v) + 1))).

Definition versioned (cols : list string) (vals : list Value) : UpdateRow :=
  match version (flags META) with
  | Some vc =>
      match position vc cols with
      | Some i =>
          match vals !! i with
          | Some old => {| set_cols := cols; set_values := <[i := next_version old]> vals; old_version := Some old |}
          | None => {| set_cols := cols; set_values := vals; old_version := None |}
          end
      | None => {| set_cols := cols; set_values := vals; old_version := None |}
      end
  | None => {| set_cols := cols; set_values := vals; old_version := None |}
  end.

Definition update_row (e : E) : M UpdateRow :=
  do! (cols, vals) := update_parts e in ret (Ok (versioned cols vals)).

(** The text and the parameters of a single-row update. *)
Definition update_stmt (s : DialectSpec) (row : UpdateRow) (pk : Value) : Built :=
  let sets := Spec.join ", " (map (fun ic => quote s ic.2 +:+ " = " +:+ placeholder s (ic.1 + 1))
                                (with_index 0 (set_cols row))) in
  let n := length (set_values row) in
  let by_pk := quote s PK +:+ " = " +:+ placeholder s (n + 1) in
  let '(conds, vals) :=
    match version (flags META), old_version row with
    | Some vc, Some old =>
        ([by_pk; quote s vc +:+ " = " +:+ placeholder s (n + 2)], set_values row ++ [pk; old])
    | _, _ => ([by_pk], set_values row ++ [pk])
    end in
  {| sql := "UPDATE " +:+ quote s TABLE +:+ " SET " +:+ sets +:+ " WHERE " +:+ Spec.join " AND " conds;
     params := vals |}.

Definition update (db : RdbmsClient W Tx) (e : E) : M Z :=
  do! row := update_row e in
  let b := update_stmt (lookup (dialect_ db)) row (pk_value e) in
  do! n := exec db (ExecuteWith (sql b) (params b)) in
  if n =? 0
  then ret (Err (match version (flags META) with Some _ => OptimisticLockConflict | None => NotFound end))
  else ret (Ok n).

Definition delete_by_pk_stmt (s : DialectSpec) : string :=
  "DELETE FROM " +:+ quote s TABLE +:+ " WHERE " +:+ quote s PK +:+ " = " +:+ placeholder s 1.

Definition delete_by_id (db : RdbmsClient W Tx) (pk : Value) : M Z :=
  let s := lookup (dialect_ db) in
  do! b :=
    match soft_delete (flags META) with
    | Some sd =>
        do! t := now in
        ret (Ok {| sql := "UPDATE " +:+ quote s TABLE +:+ " SET " +:+ quote s sd +:+ " = " +:+ placeholder s 1
                          +:+ " WHERE " +:+ quote s PK +:+ " = " +:+ placeholder s 2 +:+ " AND " +:+ quote s sd
                          +:+ " IS NULL";
                   params := [t; pk] |})
    | None => ret (Ok {| sql := delete_by_pk_stmt s; params := [pk] |})
    end in
  do! n := exec db (ExecuteWith (sql b) (params b)) in
  if n =? 0 then ret (Err NotFound) else ret (Ok n).

Definition hard_delete_by_id (db : RdbmsClient W Tx) (pk : Value) : M Z :=
  do! n := exec db (ExecuteWith (delete_by_pk_stmt (lookup (dialect_ db))) [pk]) in
  if n =? 0 then ret (Err NotFound) else ret (Ok n).

Definition unset (c : ColumnMeta) (v : Value) : bool := auto_increment c && bool_decide (as_i64 v = Some 0).

Definition save (db : RdbmsClient W Tx) (e : E) : M unit :=
  match column META PK with
  | None => panic
  | Some c =>
      if unset c (pk_value e) then do! _ := insert db e in ret (Ok tt)
      else do! _ := update db e in ret (Ok tt)
  end.

End Crud.
Arguments Done {A}. Arguments Panic {A}.
End Crud.

Module Batch.
Import Rdbms Entity Spec Query Crud.

(** At least one row per chunk. *)
Definition chunk_size (max_params params_per_row : nat) : nat :=
  Nat.max 1 (max_params / Nat.max 1 params_per_row).

Fixpoint split_loop (fuel left per_chunk : nat) : list nat :=
  match fuel with
  | O => []
  | S fuel =>
      if Nat.eqb left 0 then []
      else let n := Nat.min left per_chunk in n :: split_loop fuel (left - n) per_chunk
  end.

(** Each round takes at least one row. *)
Definition split_chunks (total per_chunk : nat) : list nat := split_loop total total (Nat.max 1 per_chunk).

(** The rows of each chunk. *)
Fixpoint slices {A} (sizes : list nat) (l : list A) : list (list A) :=
  match sizes with
  | [] => []
  | n :: sizes => firstn n l :: slices sizes (skipn n l)
  end.

Section Batch.
Context `{JI : JsonInt} {JT : JsonText} {E : Type} {ET : EntityT E} {W Tx : Type}.
Context (clock : nat -> string).

Local Notation M := (M (W:=W)).
Local Notation "'do!' x ':=' c 'in' k" := (bind c (fun x => k)) (at level 10, x pattern, c at level 100, k at level 200).

(** One statement per chunk, the affected rows added up. *)
Fixpoint for_chunks {A} (f : A -> M Z) (total : Z) (l : list A) : M Z :=
  match l with
  | [] => ret (Ok total)
  | x :: l => do! n := f x in for_chunks f (u64_add total n) l
  end.

Definition column_count {A} : result A OrmError :=
  db_error "to_values() returned a different column count for a later row".

(** The tuples of the rows and their values; [n] placeholders are used. *)
Fixpoint insert_tuples (s : DialectSpec) (cols : list string) (n : nat) (l : list E) : M (list string * list Value) :=
  match l with
  | [] => ret (Ok ([], []))
  | r :: l =>
      do! (row_cols, vals) := insert_parts clock r in
      if negb (Nat.eqb (length row_cols) (length cols)) then ret column_count
      else
        do! (tuples, ps) := insert_tuples s cols (n + length vals) l in
        ret (Ok (("(" +:+ placeholders (placeholder s) n (length vals) +:+ ")") :: tuples, vals ++ ps))
  end.

Definition insert_stmt (s : DialectSpec) (cols tuples : list string) : string :=
  "INSERT INTO " +:+ quote s TABLE +:+ " (" +:+ list_of (quote s) cols +:+ ") VALUES " +:+ Spec.join ", " tuples.

Definition insert_chunk (db : RdbmsClient W Tx) (cols : list string) (l : list E) : M Z :=
  let s := lookup (dialect_ db) in
  do! (tuples, ps) := insert_tuples s cols 0 l in
  exec db (ExecuteWith (insert_stmt s cols tuples) ps).

Definition insert_many (db : RdbmsClient W Tx) (l : list E) : M Z :=
  match l with
  | [] => ret (Ok 0)
  | e :: _ =>
      let s := lookup (dialect_ db) in
      do! (cols, _) := insert_parts clock e in
      match cols with
      | [] => ret (db_error "entity has no insertable columns")
      | _ =>
          let per_chunk := chunk_size (max_params_per_stmt s) (length cols) in
          for_chunks (insert_chunk db cols) 0 (slices (split_chunks (length l) per_chunk) l)
      end
  end.

(** Per row: the key, the values set, the old version. *)
Fixpoint update_params (cols extra : list string) (l : list E) : M (list Value) :=
  match l with
  | [] => ret (Ok [])
  | r :: l =>
      do! row := update_row clock r in
      if negb (Nat.eqb (length (set_cols row)) (length cols)) then ret column_count
      else
        let old c := match version (flags META) with
                     | Some vc => if String.eqb vc c then default VNull (old_version row) else VNull
                     | None => VNull
                     end in
        do! ps := update_params cols extra l in
        ret (Ok (pk_value r :: set_values row ++ map old extra ++ ps))
  end.

Definition update_chunk (db : RdbmsClient W Tx) (cols extra : list string) (l : list E) : M Z :=
  do! ps := update_params cols extra l in
  exec db (ExecuteWith (update_many_stmt (lookup (dialect_ db)) TABLE PK cols extra (length l)) ps).

Definition where_extra (cols : list string) : list string :=
  match version (flags META) with
  | Some vc => if existsb (String.eqb vc) cols then [vc] else []
  | None => []
  end.

Definition update_many (db : RdbmsClient W Tx) (l : list E) : M Z :=
  match l with
  | [] => ret (Ok 0)
  | e :: _ =>
      let s := lookup (dialect_ db) in
      do! row := update_row clock e in
      match set_cols row with
      | [] => ret (db_error "entity has no updatable columns")
      | cols =>
          let extra := where_extra cols in
          let per_chunk := chunk_size (max_params_per_stmt s) (1 + length cols + length extra) in
          for_chunks (update_chunk db cols extra) 0 (slices (split_chunks (length l) per_chunk) l)
      end
  end.

Definition upsert_one (db : RdbmsClient W Tx) (e : E) : M Z :=
  do! (cols, vals) := insert_parts clock e in
  match cols with
  | [] => ret (db_error "entity has no insertable columns")
  | _ => exec db (ExecuteWith (upsert (lookup (dialect_ db)) TABLE cols PK) vals)
  end.

(** *** Deleting by filters *)

Definition fixed_param_cost (e : Expr) : nat := match e with Cmp _ _ _ => 1 | _ => 0 end.

Definition is_in (e : Expr) : bool := match e with In_ _ _ _ => true | _ => false end.

(** [slice::chunks]; [n] is positive. *)
Fixpoint chunks_fuel {A} (fuel n : nat) (l : list A) : list (list A) :=
  match fuel with
  | O => []
  | S fuel => match l with [] => [] | _ => firstn n l :: chunks_fuel fuel n (skipn n l) end
  end.
Definition chunks {A} (n : nat) (l : list A) : list (list A) := chunks_fuel (length l) n l.

(** The slices of one [IN]: an empty list has one, empty. *)
Definition in_slices (share : nat) (e : Expr) : list (list Value) :=
  match e with
  | In_ _ [] _ => [[]]
  | In_ _ vs _ => chunks share vs
  | _ => []
  end.

Definition with_values (vs : list Value) (e : Expr) : Expr :=
  match e with In_ c _ negated => In_ c vs negated | e => e end.

Definition in_indices (l : list Expr) : list nat :=
  map fst (List.filter (fun ie => is_in ie.2) (with_index 0 l)).

Definition in_share (l : list Expr) (budget : nat) : nat :=
  Nat.max 1 ((budget - sum_list_with fixed_param_cost l) / length (in_indices l)).

Definition split_in_filters (l : list Expr) (budget : nat) : list (list Expr) :=
  match in_indices l with
  | [] => [l]
  | ins =>
      foldl (fun out idx =>
               flat_map (fun base =>
                 map (fun vs => alter (with_values vs) idx base)
                   (match l !! idx with Some e => in_slices (in_share l budget) e | None => [] end)) out)
        [l] ins
  end.

(** One statement: the text before WHERE, the placeholders used and the values bound. *)
Definition delete_head (m : EntityMeta) (s : DialectSpec) (soft : option string) : M (string * nat * list Value) :=
  match soft with
  | Some sd =>
      do! t := now clock in
      ret (Ok ("UPDATE " +:+ quote s (m_table m) +:+ " SET " +:+ quote s sd +:+ " = " +:+ placeholder s 1, 1%nat, [t]))
  | None => ret (Ok ("DELETE FROM " +:+ quote s (m_table m), O, []))
  end.

Definition delete_chunk (db : RdbmsClient W Tx) (m : EntityMeta) (hard : bool) (soft : option string)
    (chunk : list Expr) : M Z :=
  let s := lookup (dialect_ db) in
  do! (head, used, ps) := delete_head m s soft in
  match render_where m chunk hard s used ps with
  | (Some w, _, ps) => exec db (ExecuteWith (head +:+ " WHERE " +:+ w) ps)
  | (None, _, _) => ret (db_error "delete_where requires at least one filter")
  end.

Definition soft_column (m : EntityMeta) (hard : bool) : option string :=
  if hard then None else soft_delete (flags m).

(** The soft delete binds one more parameter. *)
Definition delete_budget (s : DialectSpec) (m : EntityMeta) (hard : bool) : nat :=
  max_params_per_stmt s - match soft_column m hard with Some _ => 1 | None => 0 end.

Definition delete_where (db : RdbmsClient W Tx) (m : EntityMeta) (l : list Expr) (hard : bool) : M Z :=
  for_chunks (delete_chunk db m hard (soft_column m hard)) 0
    (split_in_filters l (delete_budget (lookup (dialect_ db)) m hard)).

End Batch.
End Batch.
