(* ===== verification/OrmFacts.v ===== *)
(** * Facts of the ORM's statements

    [Module Pieces]: a WHERE clause as text and values in order, and that the rendered
    statement is its numbering.  [Module Chunks]: splitting batches.  [Module Deletes]: what
    the statements of a chunked delete do to a table. *)

From S2P Require Import Prelude Json Text Dialect Rdbms OrmDialect OrmQuery OrmCrud.

Local Open Scope Z_scope.
Local Open Scope ecat_scope.

Module Pieces.
Import Entity Spec Query.

Section Pieces.
Context `{JN : JsonNumber} {JT : JsonText}.

(** A statement before its placeholders are numbered. *)
Inductive piece := Lit (t : string) | Par (v : Value).

Fixpoint number (s : DialectSpec) (n : nat) (l : list piece) : string :=
  match l with
  | [] => ""
  | Lit t :: l => t +:+ number s n l
  | Par _ :: l => placeholder s (S n) +:+ number s (S n) l
  end.

Fixpoint binds (l : list piece) : list Value :=
  match l with
  | [] => []
  | Lit _ :: l => binds l
  | Par v :: l => v :: binds l
  end.

Fixpoint separated (sep : string) (l : list (list piece)) : list piece :=
  match l with
  | [] => []
  | [x] => x
  | x :: l => x ++ Lit sep :: separated sep l
  end.

Definition expr_pieces (s : DialectSpec) (e : Expr) : list piece :=
  match e with
  | Cmp c o v => [Lit (quote s c +:+ " " +:+ as_sql o +:+ " "); Par v]
  | In_ c [] negated => [Lit (if negated then "1 = 1" else "1 = 0")]
  | In_ c vs negated =>
      Lit (quote s c +:+ " " +:+ (if negated then "NOT " else "") +:+ "IN (")
        :: separated ", " (map (fun v => [Par v]) vs) ++ [Lit ")"]
  | Null c negated => [Lit (quote s c +:+ (if negated then " IS NOT NULL" else " IS NULL"))]
  | Raw e => [Lit e]
  end.

Definition where_pieces (m : EntityMeta) (l : list Expr) (with_trashed : bool) (s : DialectSpec) : list piece :=
  separated " AND " (map (fun t => [Lit t]) (gate m with_trashed s) ++ map (expr_pieces s) l).

Definition no_condition (m : EntityMeta) (l : list Expr) (with_trashed : bool) (s : DialectSpec) : bool :=
  Nat.eqb (length (gate m with_trashed s) + length l) 0.

(** *** Text *)

Lemma append_empty_l s : "" +:+ s = s.
Proof. done. Qed.

Lemma number_app s n a b : number s n (a ++ b) = number s n a +:+ number s (n + length (binds a)) b.
Proof.
  revert n. induction a as [|[t|v] a IH]; intros n; cbn [app number binds length].
  - by rewrite Nat.add_0_r.
  - by rewrite IH, append_assoc.
  - rewrite IH, append_assoc. do 3 f_equal. lia.
Qed.

Lemma binds_app a b : binds (a ++ b) = binds a ++ binds b.
Proof. induction a as [|[t|v] a IH]; cbn [app binds]; [done|done|]. by rewrite IH. Qed.

Lemma binds_separated sep l : binds (separated sep l) = concat (map binds l).
Proof.
  induction l as [|x [|y l] IH]; [done|by cbn; rewrite app_nil_r|].
  change (separated sep (x :: y :: l)) with (x ++ Lit sep :: separated sep (y :: l)).
  rewrite binds_app. cbn [binds]. by rewrite IH.
Qed.

Lemma number_separated_cons s n sep x l :
  l <> [] ->
  number s n (separated sep (x :: l)) = number s n x +:+ sep +:+ number s (n + length (binds x)) (separated sep l).
Proof. destruct l as [|y l]; [done|]. intros _. apply number_app. Qed.

Lemma join_cons sep x l : l <> [] -> Spec.join sep (x :: l) = x +:+ sep +:+ Spec.join sep l.
Proof. by destruct l. Qed.

(** *** Rendering a WHERE *)

Lemma take_all_spec s used vs :
  take_all s used vs = (map (fun i => placeholder s (S i)) (seq used (length vs)), (used + length vs)%nat).
Proof.
  revert used. induction vs as [|v vs IH]; intros used; cbn [take_all length seq map]; [by rewrite Nat.add_0_r|].
  unfold take. rewrite IH. by rewrite Nat.add_succ_comm.
Qed.

Lemma number_params s n vs :
  number s n (separated ", " (map (fun v => [Par v]) vs))
  = Spec.join ", " (map (fun i => placeholder s (S i)) (seq n (length vs))).
Proof.
  revert n. induction vs as [|v vs IH]; intros n; [done|]. cbn [map length seq].
  destruct vs as [|w vs]; [by cbn [map seq length separated number Spec.join]; rewrite append_nil_r|].
  rewrite number_separated_cons by done. cbn [number binds length]. rewrite append_nil_r, Nat.add_1_r, IH.
  by rewrite join_cons.
Qed.

Lemma binds_params vs : binds (separated ", " (map (fun v => [Par v]) vs)) = vs.
Proof. rewrite binds_separated. induction vs as [|v vs IH]; [done|]. cbn [map concat app binds]. by rewrite IH. Qed.

Lemma render_expr_spec s e used ps :
  render_expr s e used ps =
  (number s used (expr_pieces s e), (used + length (binds (expr_pieces s e)))%nat, ps ++ binds (expr_pieces s e)).
Proof.
  destruct e as [c o v|c vs negated|c negated|e]; cbn [render_expr expr_pieces].
  - cbn [take number binds length]. rewrite append_nil_r, Nat.add_1_r, !append_assoc. done.
  - destruct vs as [|v vs]; [cbn [number binds length]; by rewrite append_nil_r, Nat.add_0_r, app_nil_r|].
    rewrite take_all_spec. cbn [number binds]. rewrite number_app, binds_app, binds_params. cbn [number binds].
    rewrite number_params, append_nil_r, app_nil_r, !append_assoc. done.
  - cbn [number binds length]. by rewrite append_nil_r, Nat.add_0_r, app_nil_r.
  - cbn [number binds length]. by rewrite append_nil_r, Nat.add_0_r, app_nil_r.
Qed.

Lemma render_exprs_spec s l used ps :
  exists cs, render_exprs s l used ps =
    (cs, (used + length (binds (separated " AND " (map (expr_pieces s) l))))%nat,
     ps ++ binds (separated " AND " (map (expr_pieces s) l))) /\
    length cs = length l /\
    Spec.join " AND " cs = number s used (separated " AND " (map (expr_pieces s) l)).
Proof.
  revert used ps. induction l as [|e l IH]; intros used ps.
  { exists []. cbn. by rewrite Nat.add_0_r, app_nil_r. }
  cbn [render_exprs map]. rewrite render_expr_spec.
  destruct (IH (used + length (binds (expr_pieces s e)))%nat (ps ++ binds (expr_pieces s e))) as (cs & E & Hl & Hj).
  rewrite E. eexists. split; [|split].
  - rewrite !binds_separated in *. cbn [map concat]. by rewrite length_app, Nat.add_assoc, app_assoc.
  - cbn [length]. by rewrite Hl.
  - destruct l as [|e' l].
    + destruct cs; [|done]. cbn [Spec.join map separated]. done.
    + rewrite number_separated_cons by done. destruct cs as [|c cs]; [done|]. by rewrite join_cons, Hj.
Qed.

(** The text and the values of a WHERE are those of its pieces, numbered from the
    placeholders already used. *)
Lemma render_where_spec m l trashed s used ps :
  render_where m l trashed s used ps =
  (if no_condition m l trashed s then None else Some (number s used (where_pieces m l trashed s)),
   (used + length (binds (where_pieces m l trashed s)))%nat, ps ++ binds (where_pieces m l trashed s)).
Proof.
  unfold render_where, where_pieces, no_condition.
  destruct (render_exprs_spec s l used ps) as (cs & -> & Hl & Hj).
  assert (Hg : gate m trashed s = [] \/ exists g, gate m trashed s = [g]).
  { unfold gate. destruct (soft_delete (flags m)) as [sd|]; [|by left]. destruct trashed; [by left|].
    right. by eexists. }
  destruct Hg as [->|[g ->]]; cbn [map app length Nat.add].
  - destruct cs as [|c cs], l as [|e l]; try done. by rewrite Hj.
  - destruct l as [|e l].
    + destruct cs; [|done]. cbn. by rewrite append_nil_r.
    + rewrite (number_separated_cons s used " AND " [Lit g]) by done.
      assert (Hb : binds (separated " AND " ([Lit g] :: map (expr_pieces s) (e :: l)))
                   = binds (separated " AND " (map (expr_pieces s) (e :: l)))).
      { rewrite !binds_separated. done. }
      rewrite Hb. cbn [number binds length Nat.eqb]. rewrite append_nil_r, Nat.add_0_r.
      destruct cs as [|c cs]; [done|]. by rewrite join_cons, Hj.
Qed.

(** *** The text does not depend on the values *)

Definition blank_piece (p : piece) : piece := match p with Par _ => Par VNull | p => p end.

Lemma number_blank s n l : number s n (map blank_piece l) = number s n l.
Proof. revert n. induction l as [|[t|v] l IH]; intros n; cbn [map blank_piece number]; [done|..]; by rewrite IH. Qed.

Lemma separated_map (f : piece -> piece) sep l :
  f (Lit sep) = Lit sep -> map f (separated sep l) = separated sep (map (map f) l).
Proof.
  intros Hf. induction l as [|x [|y l] IH]; [done|done|].
  change (separated sep (x :: y :: l)) with (x ++ Lit sep :: separated sep (y :: l)).
  rewrite map_app. cbn [map]. by rewrite Hf, IH.
Qed.

(** The shape of a condition: its values forgotten. *)
Definition blank (e : Expr) : Expr :=
  match e with
  | Cmp c o _ => Cmp c o VNull
  | In_ c vs negated => In_ c (map (fun _ => VNull) vs) negated
  | e => e
  end.

Lemma blank_pieces s e : map blank_piece (expr_pieces s e) = expr_pieces s (blank e).
Proof.
  destruct e as [c o v|c [|v vs] negated|c negated|e]; [done|done| |done|done].
  change (expr_pieces s (blank (In_ c (v :: vs) negated))) with
    (Lit (quote s c +:+ " " +:+ (if negated then "NOT " else "") +:+ "IN (")
       :: separated ", " (map (fun v => [Par v]) (map (fun _ => VNull) (v :: vs))) ++ [Lit ")"]).
  cbn [expr_pieces]. cbn [map blank_piece]. f_equal. rewrite map_app, separated_map by done.
  do 2 f_equal. cbn [map blank_piece]. f_equal. rewrite !map_map. done.
Qed.

Lemma where_blank m l trashed s :
  map blank_piece (where_pieces m l trashed s) = where_pieces m (map blank l) trashed s.
Proof.
  unfold where_pieces. rewrite separated_map by done. f_equal. rewrite map_app, !map_map. f_equal.
  apply map_ext. intros e. apply blank_pieces.
Qed.

Lemma where_text_blank m l trashed s n :
  number s n (where_pieces m l trashed s) = number s n (where_pieces m (map blank l) trashed s).
Proof. by rewrite <- where_blank, number_blank. Qed.

Lemma binds_length_blank l : length (binds (map blank_piece l)) = length (binds l).
Proof. induction l as [|[t|v] l IH]; cbn [map blank_piece binds length]; auto. Qed.

End Pieces.
End Pieces.

Module Chunks.
Import Crud Batch.

Lemma sum_split_loop fuel left n :
  (left <= fuel)%nat -> (0 < n)%nat -> sum_list (split_loop fuel left n) = left.
Proof.
  revert left. induction fuel as [|fuel IH]; intros left Hf Hn; cbn [split_loop]; [simpl; lia|].
  destruct (Nat.eqb_spec left 0) as [->|Hl]; [done|]. cbn [sum_list_with]. rewrite IH by lia. unfold id. lia.
Qed.

Lemma split_loop_bound fuel left n :
  (0 < n)%nat -> Forall (fun k => 0 < k <= n)%nat (split_loop fuel left n).
Proof.
  revert left. induction fuel as [|fuel IH]; intros left Hn; cbn [split_loop]; [constructor|].
  destruct (Nat.eqb_spec left 0); constructor; [lia|auto].
Qed.

Lemma split_chunks_sum total n : sum_list (split_chunks total n) = total.
Proof. apply sum_split_loop; lia. Qed.

Lemma split_chunks_bound total n : Forall (fun k => 0 < k <= Nat.max 1 n)%nat (split_chunks total n).
Proof. apply split_loop_bound. lia. Qed.

Lemma slices_concat {A} sizes (l : list A) : sum_list sizes = length l -> concat (slices sizes l) = l.
Proof.
  revert l. induction sizes as [|n sizes IH]; intros l Hs; cbn [slices concat].
  - by destruct l.
  - change (n + sum_list sizes = length l)%nat in Hs. rewrite IH; [apply take_drop|]. rewrite length_drop. lia.
Qed.

Lemma slices_bound {A} sizes n (l : list A) :
  Forall (fun k => 0 < k <= n)%nat sizes -> Forall (fun x => length x <= n)%nat (slices sizes l).
Proof.
  intros H. revert l. induction H as [|k sizes Hk Hs IH]; intros l; cbn [slices]; constructor; [|done].
  rewrite length_take. lia.
Qed.

Lemma chunk_size_bound max per_row :
  (0 < per_row)%nat -> (per_row <= max)%nat -> (Nat.max 1 (chunk_size max per_row) * per_row <= max)%nat.
Proof.
  intros Hp Hm. unfold chunk_size. rewrite (Nat.max_r 1 per_row) by lia.
  assert (0 < max / per_row)%nat by (apply Nat.div_str_pos; lia).
  pose proof (Nat.Div0.mul_div_le max per_row). rewrite !Nat.max_r by lia. lia.
Qed.

(** [slice::chunks]. *)
Lemma chunks_fuel_concat {A} fuel n (l : list A) :
  (length l <= fuel)%nat -> (0 < n)%nat -> concat (chunks_fuel fuel n l) = l.
Proof.
  revert l. induction fuel as [|fuel IH]; intros l Hf Hn; [by destruct l; [|simpl in Hf; lia]|].
  destruct l as [|x l]; [done|]. cbn [chunks_fuel concat]. rewrite IH; [apply take_drop| |done].
  rewrite length_drop. simpl in *. lia.
Qed.

Lemma chunks_concat {A} n (l : list A) : (0 < n)%nat -> concat (chunks n l) = l.
Proof. by apply chunks_fuel_concat. Qed.

Lemma chunks_bound {A} n (l : list A) : Forall (fun x => length x <= n)%nat (chunks n l).
Proof.
  unfold chunks. generalize (length l) at 1 as fuel. intros fuel. revert l.
  induction fuel as [|fuel IH]; intros l; [constructor|]. destruct l as [|x l]; [constructor|].
  cbn [chunks_fuel]. constructor; [|done]. rewrite length_take. lia.
Qed.

(** More than one chunk: the first two. *)
Lemma chunks_two {A} n (l : list A) :
  (0 < n)%nat -> (n < length l)%nat -> exists b rest, chunks n l = firstn n l :: b :: rest /\ b <> [] /\
    (forall x, x ∈ b -> x ∈ skipn n l).
Proof.
  intros Hn Hl. unfold chunks. destruct l as [|x l]; [simpl in Hl; lia|]. cbn [length chunks_fuel].
  destruct (length l) as [|fuel] eqn:E; [simpl in Hl; rewrite E in Hl; lia|].
  destruct (skipn n (x :: l)) as [|y t] eqn:Ed.
  { apply (f_equal length) in Ed. rewrite length_drop in Ed. simpl in *. lia. }
  cbn [chunks_fuel]. eexists _, _. split; [done|]. split.
  - destruct n; [lia|done].
  - intros z Hz. rewrite <- (take_drop n (y :: t)). set_solver.
Qed.

End Chunks.

Module Deletes.
Import Entity Spec Query Crud Batch Chunks Pieces.

(** *** Positions of the IN filters *)

Section Indices.
Context `{JN : JsonNumber} {JT : JsonText}.

Lemma with_index_lookup {A} k (l : list A) i x :
  (i, x) ∈ with_index k l <-> exists j, i = (k + j)%nat /\ l !! j = Some x.
Proof.
  revert k. induction l as [|y l IH]; intros k; cbn [with_index].
  - split; [by intros ?%not_elem_of_nil|]. intros (j & _ & H). done.
  - rewrite elem_of_cons, IH. split.
    + intros [Hp|(j & -> & Hj)]; [simplify_eq; exists 0%nat; split; [lia|done]|]. exists (S j). split; [lia|done].
    + intros ([|j] & -> & Hj); [left; simplify_eq/=; f_equal; lia|]. right. exists j. split; [lia|done].
Qed.

Lemma with_index_fst {A} k (l : list A) : map fst (with_index k l) = seq k (length l).
Proof. revert k. induction l as [|x l IH]; intros k; [done|]. cbn [with_index map length seq]. by rewrite IH. Qed.

Lemma in_indices_elem l i : i ∈ in_indices l <-> exists e, l !! i = Some e /\ is_in e = true.
Proof.
  unfold in_indices. rewrite list_elem_of_fmap. split.
  - intros ([j e] & -> & H). apply list_elem_of_In, List.filter_In in H as [H He]. apply list_elem_of_In in H.
    apply with_index_lookup in H as (k & -> & Hk). by exists e.
  - intros (e & Hl & He). exists (i, e). split; [done|]. apply list_elem_of_In, List.filter_In. split; [|done].
    apply list_elem_of_In, with_index_lookup. by exists i.
Qed.

Lemma in_indices_nodup l : NoDup (in_indices l).
Proof. apply filter_keys_nodup. rewrite with_index_fst. apply NoDup_seq. Qed.

Lemma in_indices_none l : in_indices l = [] -> Forall (fun e => is_in e = false) l.
Proof.
  intros H. apply Forall_lookup_2. intros i e He. destruct (is_in e) eqn:E; [|done].
  assert (Hi : i ∈ in_indices l) by (apply in_indices_elem; eauto). rewrite H in Hi. by apply not_elem_of_nil in Hi.
Qed.

Lemma in_indices_length l : length (in_indices l) = length (List.filter is_in l).
Proof.
  unfold in_indices. rewrite length_map. generalize 0%nat as k. induction l as [|e l IH]; intros k; [done|].
  cbn [with_index List.filter snd]. destruct (is_in e); cbn [length]; by rewrite IH.
Qed.

Lemma in_share_positive l b : (0 < in_share l b)%nat.
Proof. unfold in_share. lia. Qed.

(** One step of the product, and the whole. *)
Definition split_step (l : list Expr) (share : nat) (out : list (list Expr)) (idx : nat) : list (list Expr) :=
  flat_map (fun base =>
    map (fun vs => alter (with_values vs) idx base)
      (match l !! idx with Some e => in_slices share e | None => [] end)) out.

Lemma split_in_filters_fold l b : split_in_filters l b = foldl (split_step l (in_share l b)) [l] (in_indices l).
Proof. unfold split_in_filters. by destruct (in_indices l). Qed.

Lemma split_step_elem l share out idx f e :
  l !! idx = Some e ->
  f ∈ split_step l share out idx <->
  exists base vs, base ∈ out /\ vs ∈ in_slices share e /\ f = alter (with_values vs) idx base.
Proof.
  intros He. unfold split_step. rewrite He, list_elem_of_In, in_flat_map. split.
  - intros (base & Hb & Hf). apply list_elem_of_In, list_elem_of_fmap in Hf as (vs & -> & Hv).
    exists base, vs. by rewrite list_elem_of_In.
  - intros (base & vs & Hb & Hv & ->). exists base. split; [by apply list_elem_of_In|].
    apply list_elem_of_In, list_elem_of_fmap. by exists vs.
Qed.

(** What every combination has in common with the filters, and how far it is cut. *)
Definition skeleton (e : Expr) : Expr := with_values [] e.

Definition small (share : nat) (e : Expr) : Prop :=
  match e with In_ _ vs _ => (length vs <= share)%nat | _ => True end.

Lemma in_slices_small share e vs : vs ∈ in_slices share e -> (length vs <= share)%nat.
Proof.
  destruct e as [?|c [|v l] n|?|?]; cbn [in_slices]; try by intros ?%not_elem_of_nil.
  - intros ->%list_elem_of_singleton. simpl. lia.
  - pose proof (chunks_bound share (v :: l)) as H. rewrite Forall_forall in H. apply H.
Qed.

Lemma skeleton_with_values vs e : skeleton (with_values vs e) = skeleton e.
Proof. by destruct e. Qed.

Lemma split_fold_inv l share (ins : list nat) out (done_ : list nat) :
  (forall i, i ∈ ins -> exists e, l !! i = Some e) ->
  (forall f, f ∈ out -> map skeleton f = map skeleton l /\
             forall i e, i ∈ done_ -> f !! i = Some e -> small share e) ->
  forall f, f ∈ foldl (split_step l share) out ins ->
    map skeleton f = map skeleton l /\ forall i e, i ∈ done_ \/ i ∈ ins -> f !! i = Some e -> small share e.
Proof.
  revert out done_. induction ins as [|i ins IH]; intros out done_ Hins Hout f Hf.
  { apply Hout in Hf as [Hs Hf]. split; [done|].
    intros j e [Hj|Hj]; [by eapply Hf|by apply not_elem_of_nil in Hj]. }
  cbn [foldl] in Hf. destruct (Hins i) as [e He]; [apply list_elem_of_here|].
  apply (IH _ (i :: done_)) in Hf as [Hs Hf].
  - split; [done|]. intros j e' Hj. apply Hf. rewrite elem_of_cons in *. tauto.
  - intros j Hj. apply Hins. by right.
  - intros g Hg. apply (split_step_elem l share out i g e He) in Hg as (base & vs & Hb & Hv & ->).
    apply Hout in Hb as [Hs0 Hb]. split.
    + rewrite <- Hs0. apply list_eq. intros j. rewrite !list_lookup_fmap.
      destruct (decide (j = i)) as [->|Hne]; [|by rewrite list_lookup_alter_ne].
      rewrite list_lookup_alter_eq. destruct (base !! i); [|done]. cbn. by rewrite skeleton_with_values.
    + intros j e' Hj Hl. destruct (decide (j = i)) as [->|Hne].
      * rewrite list_lookup_alter_eq in Hl. destruct (base !! i) as [e0|]; [|done]. simplify_eq/=.
        destruct e0; cbn; try done. by eapply in_slices_small.
      * rewrite list_lookup_alter_ne in Hl by done. rewrite elem_of_cons in Hj. destruct Hj as [->|Hj]; [done|]. eauto.
Qed.

Definition values_of (e : Expr) : nat := match e with In_ _ vs _ => length vs | _ => 0 end.

Lemma binds_length_expr s e : length (binds (expr_pieces s e)) = (fixed_param_cost e + values_of e)%nat.
Proof.
  destruct e as [c o v|c [|v vs] n|c n|t]; try done. cbn [expr_pieces binds].
  rewrite binds_app, binds_params, app_nil_r. done.
Qed.

Lemma binds_length_where m l trashed s :
  length (binds (where_pieces m l trashed s))
  = (sum_list_with fixed_param_cost l + sum_list_with values_of l)%nat.
Proof.
  unfold where_pieces. rewrite binds_separated, map_app, concat_app, length_app.
  assert (Hg : concat (map binds (map (fun t => [Lit t]) (gate m trashed s))) = []).
  { induction (gate m trashed s) as [|g gs IH]; [done|]. cbn [map concat binds app]. done. }
  rewrite Hg. cbn [length Nat.add]. induction l as [|e l IH]; [done|].
  cbn [map concat sum_list_with]. rewrite length_app, binds_length_expr, IH. lia.
Qed.

Lemma small_values share l :
  (forall e, e ∈ l -> small share e) ->
  (sum_list_with values_of l <= length (List.filter is_in l) * share)%nat.
Proof.
  induction l as [|e l IH]; intros H; [simpl; lia|]. cbn [sum_list_with List.filter].
  assert (He : small share e) by (apply H, list_elem_of_here).
  assert (Hl : (sum_list_with values_of l <= length (List.filter is_in l) * share)%nat).
  { apply IH. intros e' He'. apply H. by right. }
  destruct e; cbn [values_of is_in length small] in *; lia.
Qed.

Lemma skeleton_sums l l' :
  map skeleton l = map skeleton l' ->
  sum_list_with fixed_param_cost l = sum_list_with fixed_param_cost l' /\
  length (List.filter is_in l) = length (List.filter is_in l').
Proof.
  revert l'. induction l as [|e l IH]; intros [|e' l'] H; try done. cbn [map] in H. injection H as He Hl.
  apply IH in Hl as [H1 H2]. cbn [sum_list_with List.filter].
  assert (Hc : fixed_param_cost e = fixed_param_cost e' /\ is_in e = is_in e') by (destruct e, e'; by simplify_eq/=).
  destruct Hc as [-> ->]. rewrite H1. split; [done|]. by destruct (is_in e'); cbn [length]; rewrite H2.
Qed.

(** Each combination stays within the budget, when the filters leave room for one value
    per IN. *)
Lemma split_within_budget m trashed s l b f :
  (sum_list_with fixed_param_cost l + length (in_indices l) <= b)%nat ->
  f ∈ split_in_filters l b -> (length (binds (where_pieces m f trashed s)) <= b)%nat.
Proof.
  intros Hroom Hf. rewrite split_in_filters_fold in Hf.
  eapply (split_fold_inv l (in_share l b) (in_indices l) [l] []) in Hf as [Hs Hsmall].
  - rewrite binds_length_where. destruct (skeleton_sums f l Hs) as [-> Hin].
    assert (Hv : (sum_list_with values_of f <= length (List.filter is_in f) * in_share l b)%nat).
    { apply small_values. intros e He. destruct (is_in e) eqn:Ei; [|by destruct e].
      apply list_elem_of_lookup in He as [i Hi]. apply (Hsmall i); [|done]. right. apply in_indices_elem.
      assert (Hi' : map skeleton f !! i = Some (skeleton e)) by by rewrite list_lookup_fmap, Hi.
      rewrite Hs, list_lookup_fmap in Hi'. destruct (l !! i) as [e'|]; [|done]. exists e'. split; [done|].
      simplify_eq/=. by destruct e, e'. }
    rewrite Hin, <- in_indices_length in Hv. unfold in_share in Hv. set (n := length (in_indices l)) in *.
    set (fx := sum_list_with fixed_param_cost l) in *.
    destruct n as [|n]; [simpl in Hv; lia|].
    assert (0 < (b - fx) / S n)%nat by (apply Nat.div_str_pos; lia).
    pose proof (Nat.Div0.mul_div_le (b - fx) (S n)). rewrite Nat.max_r in Hv by lia. lia.
  - intros i Hi. apply in_indices_elem in Hi as (e & He & _). by exists e.
  - intros g ->%list_elem_of_singleton. split; [done|]. by intros i e ?%not_elem_of_nil.
Qed.

End Indices.
End Deletes.
