(* ===== verification/OrmSpec.v ===== *)
(** * What the ORM promises

    [Module Tables]: what the statements of a delete do to the rows of a table.  [Module
    OrmSpec]: the properties of [ecat-orm]: statements bind their values in order and
    never show them, batches are cut within the parameter limit without losing a row,
    chunked deletes, pages and the primary key of an insert. *)

From S2P Require Import Prelude Json Text Dialect Rdbms ShardCatalog OrmDialect OrmQuery OrmCrud OrmFacts.

Local Open Scope Z_scope.
Local Open Scope ecat_scope.

Module Tables.
Import Entity Spec Query Crud Batch Chunks Pieces Deletes.

Section Tables.
Context `{JN : JsonNumber} {JT : JsonText}.

(** How the database compares two values, [None]-valued comparisons being false, and what
    a raw condition says of a row. *)
Context (cmp : Op -> Value -> Value -> bool) (raw : string -> Row -> bool).

Definition cell (r : Row) (c : string) : option Value := (r : gmap string Value) !! c.

(** A condition holds of a row; NULL and missing columns are unknown. *)
Definition holds (r : Row) (e : Expr) : bool :=
  match e with
  | Cmp c o v => match cell r c with Some x => cmp o x v | None => false end
  | In_ c [] negated => negated
  | In_ c vs negated =>
      match cell r c with
      | Some x => if negated then forallb (cmp OpNe x) vs else existsb (cmp OpEq x) vs
      | None => false
      end
  | Null c negated => match cell r c with Some x => xorb negated (is_null x) | None => false end
  | Raw t => raw t r
  end.

Definition alive (m : EntityMeta) (with_trashed : bool) (r : Row) : bool :=
  match soft_delete (flags m) with
  | Some sd => with_trashed || match cell r sd with Some x => is_null x | None => false end
  | None => true
  end.

(** The rows a WHERE selects. *)
Definition selects (m : EntityMeta) (l : list Expr) (with_trashed : bool) (r : Row) : bool :=
  alive m with_trashed r && forallb (holds r) l.

Definition mark (sd : string) (t : Value) (r : Row) : Row := <[sd := t]> (r : gmap string Value).

(** One statement: the rows it leaves and how many it affected; a soft delete sets the
    column to [t]. *)
Definition delete_rows (m : EntityMeta) (hard : bool) (t : Value) (l : list Expr) (rows : list Row)
    : list Row * nat :=
  let hit := selects m l hard in
  (match soft_column m hard with
   | Some sd => map (fun r => if hit r then mark sd t r else r) rows
   | None => List.filter (fun r => negb (hit r)) rows
   end, length (List.filter hit rows)).

(** The statements of a chunked delete, one after the other; [clock] dates them. *)
Fixpoint run_deletes (m : EntityMeta) (hard : bool) (clock : nat -> Value) (chunks : list (list Expr))
    (rows : list Row) : list Row * nat :=
  match chunks with
  | [] => (rows, O)
  | l :: chunks =>
      let '(rows, n) := delete_rows m hard (clock O) l rows in
      let '(rows, k) := run_deletes m hard (fun i => clock (S i)) chunks rows in (rows, (n + k)%nat)
  end.

(** *** Combinations of IN slices *)

Definition positive (e : Expr) : bool := match e with In_ _ (_ :: _) negated => negb negated | _ => true end.

Lemma existsb_concat {A} (f : A -> bool) ls : existsb f (concat ls) = existsb (existsb f) ls.
Proof. induction ls as [|l ls IH]; [done|]. cbn [concat existsb]. by rewrite existsb_app, IH. Qed.

Lemma existsb_map {A B} (f : B -> bool) (g : A -> B) l : existsb f (map g l) = existsb (fun x => f (g x)) l.
Proof. induction l as [|x l IH]; [done|]. cbn [map existsb]. by rewrite IH. Qed.

Lemma chunks_nonempty {A} n (l : list A) : (0 < n)%nat -> [] ∉ chunks n l.
Proof.
  intros Hn. unfold chunks. generalize (length l) as fuel. intros fuel. revert l.
  induction fuel as [|fuel IH]; intros l; [apply not_elem_of_nil|]. destruct l as [|x l]; [apply not_elem_of_nil|].
  cbn [chunks_fuel]. apply not_elem_of_cons. split; [by destruct n; [lia|]|apply IH].
Qed.

(** A row satisfies a positive IN when it satisfies one of its slices. *)
Lemma holds_slices share r e :
  (0 < share)%nat -> is_in e = true -> positive e = true ->
  holds r e = existsb (fun vs => holds r (with_values vs e)) (in_slices share e).
Proof.
  intros Hs Hi Hp. destruct e as [|c vs negated| |]; try done. destruct vs as [|v vs]; [cbn; by rewrite orb_false_r|].
  cbn [positive] in Hp. apply negb_true_iff in Hp as ->.
  assert (Hne : [] ∉ chunks share (v :: vs)) by by apply chunks_nonempty.
  pose proof (chunks_concat share (v :: vs) Hs) as Hc.
  change (in_slices share (In_ c (v :: vs) false)) with (chunks share (v :: vs)).
  change (holds r (In_ c (v :: vs) false)) with
    (match cell r c with Some x => existsb (cmp OpEq x) (v :: vs) | None => false end).
  assert (Hl : forall vs', vs' ∈ chunks share (v :: vs) ->
            holds r (with_values vs' (In_ c (v :: vs) false))
            = match cell r c with Some x => existsb (cmp OpEq x) vs' | None => false end).
  { intros [|w vs'] Hv; [done|reflexivity]. }
  destruct (cell r c) as [x|].
  - transitivity (existsb (cmp OpEq x) (concat (chunks share (v :: vs)))); [by rewrite Hc|].
    rewrite existsb_concat. clear Hc Hne. induction (chunks share (v :: vs)) as [|w ws IH]; [done|].
    cbn [existsb]. rewrite Hl by apply list_elem_of_here. f_equal. apply IH. intros vs' Hv. apply Hl. by right.
  - clear Hc Hne. induction (chunks share (v :: vs)) as [|w ws IH]; [done|]. cbn [existsb].
    rewrite Hl by apply list_elem_of_here. apply IH. intros vs' Hv. apply Hl. by right.
Qed.

Lemma forallb_alter (f : Expr -> bool) g i l e :
  l !! i = Some e -> forallb f (alter g i l) = f (g e) && forallb f (delete i l).
Proof.
  revert i. induction l as [|x l IH]; intros [|i] H; try done; simplify_eq/=; [done|].
  cbn [alter list_alter delete list_delete forallb]. rewrite (IH i H). destruct (f x), (f (g e)); done.
Qed.

Lemma forallb_delete (f : Expr -> bool) i l e :
  l !! i = Some e -> forallb f l = f e && forallb f (delete i l).
Proof.
  revert i. induction l as [|x l IH]; intros [|i] H; try done; [by injection H as ->|]. cbn in H.
  change (f x && forallb f l = f e && (f x && forallb f (delete i l))). rewrite (IH i H). by destruct (f x), (f e).
Qed.

Lemma existsb_andb {A} (f : A -> bool) b l : existsb (fun x => f x && b) l = existsb f l && b.
Proof. induction l as [|x l IH]; [done|]. cbn [existsb]. rewrite IH. by destruct (f x), (existsb f l), b. Qed.

Lemma existsb_ext_elem {A} (f g : A -> bool) l : (forall x, x ∈ l -> f x = g x) -> existsb f l = existsb g l.
Proof.
  induction l as [|x l IH]; [done|]. intros H. cbn [existsb]. rewrite H by apply list_elem_of_here. f_equal.
  apply IH. intros y Hy. apply H. by right.
Qed.

Lemma existsb_flat_map {A B} (f : B -> bool) (g : A -> list B) l :
  existsb f (flat_map g l) = existsb (fun x => existsb f (g x)) l.
Proof. induction l as [|x l IH]; [done|]. cbn [flat_map existsb]. by rewrite existsb_app, IH. Qed.

Lemma step_covers l share out i e r :
  (0 < share)%nat -> l !! i = Some e -> is_in e = true -> positive e = true ->
  (forall base, base ∈ out -> base !! i = Some e) ->
  existsb (forallb (holds r)) (split_step l share out i) = existsb (forallb (holds r)) out.
Proof.
  intros Hs He Hi Hp Hout. unfold split_step. rewrite He, existsb_flat_map. apply existsb_ext_elem.
  intros base Hb. apply Hout in Hb. rewrite existsb_map.
  erewrite existsb_ext_elem; [|intros vs _; by apply forallb_alter].
  rewrite existsb_andb, <- holds_slices by done. by rewrite (forallb_delete _ i base e Hb).
Qed.

(** The combinations select, together, the rows the filters select. *)
Lemma split_covers l b r :
  forallb positive l = true ->
  existsb (forallb (holds r)) (split_in_filters l b) = forallb (holds r) l.
Proof.
  intros Hp. rewrite split_in_filters_fold.
  assert (H : forall (ins : list nat) out, NoDup ins ->
            (forall i, i ∈ ins -> exists e, l !! i = Some e /\ is_in e = true) ->
            (forall base i, base ∈ out -> i ∈ ins -> base !! i = l !! i) ->
            existsb (forallb (holds r)) (foldl (split_step l (in_share l b)) out ins)
            = existsb (forallb (holds r)) out).
  { induction ins as [|i ins IH]; intros out Hnd Hins Hout; [done|]. cbn [foldl].
    apply NoDup_cons in Hnd as [Hi Hnd]. destruct (Hins i) as (e & He & Hin); [apply list_elem_of_here|].
    rewrite IH.
    - apply (step_covers l _ out i e r); [apply in_share_positive|done|done| |].
      + rewrite forallb_forall in Hp. apply Hp, list_elem_of_In. by eapply list_elem_of_lookup_2.
      + intros base Hb. rewrite <- He. apply Hout; [done|apply list_elem_of_here].
    - done.
    - intros j Hj. apply Hins. by right.
    - intros base j Hb Hj. apply (split_step_elem l _ out i base e He) in Hb as (base0 & vs & Hb & _ & ->).
      rewrite list_lookup_alter_ne by (intros ->; done). apply Hout; [done|by right]. }
  rewrite H; [cbn; by rewrite orb_false_r|apply in_indices_nodup|intros i; apply in_indices_elem|].
  by intros base i ->%list_elem_of_singleton.
Qed.

(** *** Running the statements *)

Lemma filter_negb_length {A} (f : A -> bool) (l : list A) :
  (length (List.filter f l) + length (List.filter (fun x => negb (f x)) l))%nat = length l.
Proof. induction l as [|x l IH]; [done|]. cbn [List.filter length]. destruct (f x); cbn [negb length]; lia. Qed.

Lemma filter_filter {A} (f g : A -> bool) (l : list A) :
  List.filter f (List.filter g l) = List.filter (fun x => g x && f x) l.
Proof.
  induction l as [|x l IH]; [done|]. cbn [List.filter]. destruct (g x); cbn [List.filter andb]; by rewrite IH.
Qed.

Lemma filter_ext_eq {A} (f g : A -> bool) (l : list A) : (forall x, f x = g x) -> List.filter f l = List.filter g l.
Proof. intros H. induction l as [|x l IH]; [done|]. cbn [List.filter]. by rewrite H, IH. Qed.

Definition some_selects (m : EntityMeta) (hard : bool) (chunks : list (list Expr)) (r : Row) : bool :=
  existsb (fun l => selects m l hard r) chunks.

Lemma run_hard m hard clock chunks rows :
  soft_column m hard = None ->
  run_deletes m hard clock chunks rows =
  (List.filter (fun r => negb (some_selects m hard chunks r)) rows,
   length (List.filter (some_selects m hard chunks) rows)).
Proof.
  intros Hc. revert clock rows. induction chunks as [|l chunks IH]; intros clock rows.
  { cbn [run_deletes some_selects existsb negb]. f_equal.
    - symmetry. by induction rows as [|r rows IHr]; cbn [List.filter]; [|rewrite IHr].
    - by induction rows as [|r rows IHr]; cbn [List.filter]. }
  cbn [run_deletes delete_rows]. unfold delete_rows. rewrite Hc, IH, !filter_filter. f_equal.
  - apply filter_ext_eq. intros r. unfold some_selects. cbn [existsb]. by rewrite negb_orb.
  - pose proof (filter_negb_length (selects m l hard) (List.filter (some_selects m hard (l :: chunks)) rows)) as H.
    rewrite !filter_filter in H. rewrite <- H. f_equal; f_equal; apply filter_ext_eq; intros r;
      unfold some_selects; cbn [existsb]; by destruct (selects m l hard r), (existsb _ chunks).
Qed.

(** A soft-deleted row is not selected again. *)
Lemma alive_marked m sd t (r : Row) :
  soft_delete (flags m) = Some sd -> is_null t = false ->
  alive m false (mark sd t r) = false.
Proof. intros Hs Ht. unfold alive, cell, mark. rewrite Hs, lookup_insert_eq. done. Qed.

(** What a soft delete does to a row: nothing, or it dates it, once. *)
Definition marked (sd : string) (clock : nat -> Value) (hit : bool) (r r' : Row) : Prop :=
  if hit then exists i, r' = mark sd (clock i) r else r' = r.

Lemma run_dead m clock chunks (r : Row) :
  alive m false r = false -> run_deletes m false clock chunks [r] = ([r], O).
Proof.
  intros Hr. revert clock. induction chunks as [|l chunks IH]; intros clock; [done|].
  cbn [run_deletes]. unfold delete_rows, selects. cbn [List.filter length]. rewrite Hr. cbn [andb negb].
  assert (E : match soft_column m false with
              | Some sd => map (fun r0 : Row => if alive m false r0 && forallb (holds r0) l
                             then mark sd (clock 0%nat) r0 else r0) [r]
              | None => [r] end = [r]).
  { destruct (soft_column m false); [|done]. cbn [map]. by rewrite Hr. }
  rewrite E, IH. done.
Qed.

Lemma run_deletes_ext m hard c1 c2 chunks rows :
  (forall i, c1 i = c2 i) -> run_deletes m hard c1 chunks rows = run_deletes m hard c2 chunks rows.
Proof.
  revert c1 c2 rows. induction chunks as [|l chunks IH]; intros c1 c2 rows H; [done|]. cbn [run_deletes].
  rewrite H. destruct (delete_rows m hard (c2 O) l rows) as [rows' n]. by rewrite (IH _ (fun i => c2 (S i))).
Qed.

Lemma delete_rows_app m hard t l a b :
  delete_rows m hard t l (a ++ b) =
  ((delete_rows m hard t l a).1 ++ (delete_rows m hard t l b).1,
   ((delete_rows m hard t l a).2 + (delete_rows m hard t l b).2)%nat).
Proof.
  unfold delete_rows. cbn [fst snd]. f_equal; [|by rewrite List.filter_app, length_app].
  destruct (soft_column m hard); [apply map_app|apply List.filter_app].
Qed.

Lemma run_deletes_app m hard clock chunks a b :
  run_deletes m hard clock chunks (a ++ b) =
  ((run_deletes m hard clock chunks a).1 ++ (run_deletes m hard clock chunks b).1,
   ((run_deletes m hard clock chunks a).2 + (run_deletes m hard clock chunks b).2)%nat).
Proof.
  revert clock a b. induction chunks as [|l chunks IH]; intros clock a b; [done|]. cbn [run_deletes].
  rewrite delete_rows_app. destruct (delete_rows m hard (clock O) l a) as [a' n].
  destruct (delete_rows m hard (clock O) l b) as [b' k]. cbn [fst snd]. rewrite IH.
  destruct (run_deletes _ _ _ _ a') as [a2 n2]. destruct (run_deletes _ _ _ _ b') as [b2 k2]. cbn [fst snd].
  f_equal. lia.
Qed.

Lemma run_soft_row m sd clock chunks (r : Row) :
  soft_column m false = Some sd -> (forall i, is_null (clock i) = false) ->
  exists r', run_deletes m false clock chunks [r]
             = ([r'], if some_selects m false chunks r then 1%nat else O) /\
    marked sd clock (some_selects m false chunks r) r r'.
Proof.
  intros Hsd Hck. revert clock Hck. induction chunks as [|l chunks IH]; intros clock Hck; [by exists r|].
  cbn [run_deletes]. unfold delete_rows. rewrite Hsd. unfold some_selects. cbn [existsb map List.filter].
  destruct (selects m l false r) eqn:Hl; cbn [orb length].
  - rewrite run_dead by (by apply alive_marked). eexists. split; [done|]. by exists O.
  - destruct (IH (fun i => clock (S i))) as (r' & E & Hm); [done|]. rewrite E. fold (some_selects m false chunks r).
    exists r'. split; [done|]. unfold marked in *. destruct (some_selects m false chunks r); [|done].
    destruct Hm as [i ->]. by exists (S i).
Qed.

Lemma run_soft m sd clock chunks rows :
  soft_column m false = Some sd -> (forall i, is_null (clock i) = false) ->
  let '(rows', n) := run_deletes m false clock chunks rows in
  Forall2 (fun r r' => marked sd clock (some_selects m false chunks r) r r') rows rows' /\
  n = length (List.filter (some_selects m false chunks) rows).
Proof.
  intros Hsd Hck. induction rows as [|r rows IH].
  - assert (En : run_deletes m false clock chunks [] = ([], O)).
    { revert clock Hck. induction chunks as [|l chunks IH]; intros c Hc; [done|]. cbn [run_deletes].
      unfold delete_rows. rewrite Hsd. cbn [map List.filter length]. by rewrite IH. }
    rewrite En. split; [constructor|done].
  - change (r :: rows) with ([r] ++ rows). rewrite run_deletes_app. destruct (run_soft_row m sd clock chunks r Hsd Hck) as (r' & E & Hm). rewrite E.
    destruct (run_deletes m false clock chunks rows) as [rows' n]. destruct IH as [H1 H2]. cbn [fst snd app].
    split; [by constructor|]. cbn [List.filter]. destruct (some_selects m false chunks r); cbn [length]; lia.
Qed.

Lemma some_selects_split m l b hard r :
  forallb positive l = true -> some_selects m hard (split_in_filters l b) r = selects m l hard r.
Proof.
  intros Hp. unfold some_selects, selects.
  transitivity (alive m hard r && existsb (forallb (holds r)) (split_in_filters l b)).
  - induction (split_in_filters l b) as [|f fs IH]; cbn [existsb]; [by rewrite andb_false_r|]. rewrite IH.
    by destruct (alive m hard r).
  - by rewrite split_covers.
Qed.

End Tables.
End Tables.

Module Sent.
Import Rdbms Entity Spec Query Crud Batch Chunks Pieces Deletes Tables.

Section Sent.
Context `{JI : JsonInt} {JT : JsonText} {W Tx : Type}.
Context (clock : nat -> string).

(** The statement a chunk of a delete becomes. *)
Definition delete_pieces (m : EntityMeta) (s : DialectSpec) (hard : bool) (l : list Expr) (t : Value) : list piece :=
  match soft_column m hard with
  | Some sd => [Lit ("UPDATE " +:+ quote s (m_table m) +:+ " SET " +:+ quote s sd +:+ " = "); Par t]
  | None => [Lit ("DELETE FROM " +:+ quote s (m_table m))]
  end ++ Lit " WHERE " :: where_pieces m l hard s.

Definition statement (s : DialectSpec) (l : list piece) : Request := ExecuteWith (number s 0 l) (binds l).

Definition reads (m : EntityMeta) (hard : bool) : nat := match soft_column m hard with Some _ => 1 | None => 0 end.

Lemma delete_chunk_sends (db : RdbmsClient W Tx) m hard l w t :
  l <> [] ->
  delete_chunk clock db m hard (soft_column m hard) l (w, t) =
  exec db (statement (lookup (dialect_ db)) (delete_pieces m (lookup (dialect_ db)) hard l (VString (clock t))))
    (w, (t + reads m hard)%nat).
Proof.
  intros Hl. unfold delete_chunk, delete_head, delete_pieces, reads, statement.
  assert (Hn : forall s, no_condition m l hard s = false).
  { intros s. apply Nat.eqb_neq. destruct l; [done|]. cbn [length]. lia. }
  destruct (soft_column m hard) as [sd|].
  - unfold bind, now, ret. rewrite render_where_spec, Hn. cbn [app number binds]. rewrite Nat.add_1_r.
    by rewrite !append_assoc.
  - unfold bind, ret. rewrite render_where_spec, Hn. cbn [app number binds]. by rewrite Nat.add_0_r.
Qed.

(** A client whose requests are recorded. *)
Definition logged (db : RdbmsClient W Tx) : RdbmsClient (W * list Request) Tx := {|
  perform_ r wl := let '(o, w) := perform_ db r wl.1 in (o, (w, wl.2 ++ [r]));
  begin_ wl := let '(o, w) := begin_ db wl.1 in (o, (w, wl.2));
  replica_lag wl := replica_lag db wl.1;
  dialect_ := dialect_ db |}.

Definition params_of (r : Request) : list Value :=
  match r with
  | Execute _ | Rdbms.Query _ => []
  | ExecuteWith _ ps | QueryWith _ ps | QueryWrite _ ps | ExecuteThenQuery _ ps _ => ps
  end.

Definition fits (n : nat) (r : Request) : Prop := (length (params_of r) <= n)%nat.

(** Every request an action sends has a property. *)
Definition sends {A} (P : Request -> Prop) (f : M (W:=W * list Request) A) : Prop :=
  forall w log t, Forall P log -> Forall P (f ((w, log), t)).2.1.2.

Lemma sends_exec db P r : P r -> sends P (exec (logged db) r).
Proof.
  intros Hr w log t Hl. unfold exec, logged. cbn [perform_ fst snd]. destruct (perform_ db r w) as [o w'].
  destruct o as [[n|l]|e]; cbn [fst snd]; apply Forall_app; (split; [done|by repeat constructor]).
Qed.

Lemma sends_ret {A} P (r : result A OrmError) : sends P (ret r).
Proof. by intros w log t H. Qed.

Lemma sends_bind {A B} P (m : M A) (k : A -> M B) : sends P m -> (forall x, sends P (k x)) -> sends P (bind m k).
Proof.
  intros Hm Hk w log t H. unfold bind. pose proof (Hm w log t H) as Hs.
  destruct (m (w, log, t)) as [[[x|e]|] [[w' log'] t']]; cbn [fst snd] in *; [by apply Hk|done|done].
Qed.

Lemma sends_for_chunks {A} P (f : A -> M Z) total l :
  (forall x, x ∈ l -> sends P (f x)) -> sends P (for_chunks f total l).
Proof.
  revert total. induction l as [|x l IH]; intros total H; [apply sends_ret|]. cbn [for_chunks].
  apply sends_bind; [apply H, list_elem_of_here|]. intros n. apply IH. intros y Hy. apply H. by right.
Qed.

End Sent.
End Sent.

Module OrmSpec.
Import Rdbms Entity Spec Query Crud Batch Chunks Pieces Deletes Tables Sent.

Section Delete.
Context `{JI : JsonInt} {JT : JsonText} {Tx : Type}.
Context (cmp : Op -> Value -> Value -> bool) (raw : string -> Row -> bool) (clock : nat -> string).

(** The database runs each statement of the delete. *)
Definition runs_deletes (db : RdbmsClient (list Row) Tx) (m : EntityMeta) (hard : bool) (chunks : list (list Expr))
    : Prop :=
  forall l t rows, l ∈ chunks ->
    perform_ db (statement (lookup (dialect_ db)) (delete_pieces m (lookup (dialect_ db)) hard l t)) rows =
    let '(rows', n) := delete_rows cmp raw m hard t l rows in (Ok (Affected (Z.of_nat n)), rows').

Definition dates (m : EntityMeta) (hard : bool) (t i : nat) : Value := VString (clock (t + i * reads m hard)).

Lemma for_chunks_runs db m hard chunks total rows t :
  (forall l, l ∈ chunks -> l <> []) -> runs_deletes db m hard chunks -> 0 <= total ->
  total + Z.of_nat (run_deletes cmp raw m hard (dates m hard t) chunks rows).2 <= u64_max ->
  for_chunks (delete_chunk clock db m hard (soft_column m hard)) total chunks (rows, t) =
  (Done (Ok (total + Z.of_nat (run_deletes cmp raw m hard (dates m hard t) chunks rows).2)),
   ((run_deletes cmp raw m hard (dates m hard t) chunks rows).1, (t + length chunks * reads m hard)%nat)).
Proof.
  revert total rows t. induction chunks as [|l chunks IH]; intros total rows t Hne Hdb H0 Hmax.
  { cbn. by rewrite Z.add_0_r, Nat.add_0_r. }
  cbn [for_chunks]. unfold bind at 1. rewrite delete_chunk_sends by (apply Hne, list_elem_of_here).
  unfold exec. rewrite Hdb by apply list_elem_of_here. cbn [run_deletes] in *.
  replace (dates m hard t 0) with (VString (clock t)) in * by (unfold dates; by rewrite Nat.add_0_r).
  destruct (delete_rows cmp raw m hard (VString (clock t)) l rows) as [rows1 n].
  rewrite (run_deletes_ext _ _ _ _ (fun i => dates m hard t (S i)) (dates m hard (t + reads m hard))) in *
    by (intros i; unfold dates; do 2 f_equal; lia).
  destruct (run_deletes cmp raw m hard (dates m hard (t + reads m hard)) chunks rows1) as [rows2 k] eqn:E.
  cbn [fst snd] in *. unfold u64_add. rewrite wrap_small by (unfold u64_max in *; lia).
  rewrite IH; rewrite ?E; cbn [fst snd]; [|set_solver| |lia|lia].
  - f_equal; [do 2 f_equal; lia|]. f_equal. cbn [length]. lia.
  - intros l' t' rows' Hl'. apply Hdb. by right.
Qed.

Lemma split_nonempty l b f : l <> [] -> f ∈ split_in_filters l b -> f <> [].
Proof.
  intros Hl Hf ->. rewrite split_in_filters_fold in Hf.
  apply (split_fold_inv l _ _ _ []) in Hf as [Hs _]; [by destruct l| |].
  - intros i Hi. apply in_indices_elem in Hi as (e & He & _). by exists e.
  - intros g ->%list_elem_of_singleton. split; [done|]. by intros i e ?%not_elem_of_nil.
Qed.

Lemma filter_length_le {A} (f : A -> bool) (l : list A) : (length (List.filter f l) <= length l)%nat.
Proof. pose proof (filter_negb_length f l). lia. Qed.

(** A row that a delete with a soft-delete column selects is dated, once; the others are
    left as they are. *)
Definition soft_deleted (sd : string) (hit : bool) (r r' : Row) : Prop :=
  if hit then exists i, r' = mark sd (VString (clock i)) r else r' = r.

(** What one statement with all the filters does. *)
Definition deleted (m : EntityMeta) (hard : bool) (l : list Expr) (rows rows' : list Row) : Prop :=
  match soft_column m hard with
  | None => rows' = List.filter (fun r => negb (selects cmp raw m l hard r)) rows
  | Some sd => Forall2 (fun r r' => soft_deleted sd (selects cmp raw m l hard r) r r') rows rows'
  end.

Lemma soft_not_hard m hard sd : soft_column m hard = Some sd -> hard = false.
Proof. by destruct hard. Qed.

(** C22. A delete whose IN lists are cut to fit the parameter limit does what one statement
    with the whole lists would do: it removes (or dates) the rows the filters select, leaves
    the others, and returns how many there were, each counted once although several
    statements may select it. *)
Theorem chunked_delete_is_one_delete (db : RdbmsClient (list Row) Tx) m l hard rows t :
  l <> [] -> forallb positive l = true ->
  runs_deletes db m hard (split_in_filters l (delete_budget (lookup (dialect_ db)) m hard)) ->
  Z.of_nat (length rows) <= u64_max ->
  let '(o, (rows', _)) := delete_where clock db m l hard (rows, t) in
  o = Done (Ok (Z.of_nat (length (List.filter (selects cmp raw m l hard) rows)))) /\
  deleted m hard l rows rows'.
Proof.
  intros Hl Hp Hdb Hmax. unfold delete_where. set (chunks := split_in_filters _ _) in *.
  assert (Hsel : forall r, some_selects cmp raw m hard chunks r = selects cmp raw m l hard r)
    by (intros r; by apply some_selects_split).
  assert (Hcount : forall l', length (List.filter (some_selects cmp raw m hard chunks) l')
                    = length (List.filter (selects cmp raw m l hard) l'))
    by (intros l'; f_equal; by apply filter_ext_eq).
  pose proof (filter_length_le (selects cmp raw m l hard) rows) as Hle. unfold deleted.
  destruct (soft_column m hard) as [sd|] eqn:Hsd.
  - pose proof (soft_not_hard _ _ _ Hsd) as ->.
    pose proof (run_soft cmp raw m sd (dates m false t) chunks rows Hsd (fun _ => eq_refl)) as Hrun.
    rewrite <- Hsd, for_chunks_runs; [|by intros l' ?%split_nonempty|done|lia|].
    + destruct (run_deletes cmp raw m false (dates m false t) chunks rows) as [rows' n]. destruct Hrun as [H2 ->].
      cbn [fst snd]. rewrite Hcount. split; [done|]. eapply Forall2_impl; [exact H2|]. intros r r' H.
      unfold marked in H. rewrite Hsel in H. unfold soft_deleted. destruct (selects cmp raw m l false r); [|done].
      destruct H as [i ->]. by eexists.
    + destruct (run_deletes cmp raw m false (dates m false t) chunks rows) as [rows' n]. destruct Hrun as [_ ->].
      cbn [snd]. rewrite Hcount. lia.
  - pose proof (run_hard cmp raw m hard (dates m hard t) chunks rows Hsd) as Hrun.
    rewrite <- Hsd, for_chunks_runs; [|by intros l' ?%split_nonempty|done|lia|]; rewrite Hrun; cbn [fst snd];
      rewrite Hcount; [|lia].
    split; [done|]. apply filter_ext_eq. intros r. by rewrite Hsel.
Qed.

(** The value differs from all the listed ones but one. *)
Definition unlike (x : Value) (vs : list Value) : Prop :=
  forall v v', v ∈ vs -> v' ∈ vs -> v <> v' -> cmp OpNe x v = false -> cmp OpNe x v' = true.

Lemma unlike_halves x n vs b :
  NoDup vs -> unlike x vs -> (forall v, v ∈ b -> v ∈ skipn n vs) ->
  forallb (cmp OpNe x) (firstn n vs) || forallb (cmp OpNe x) b = true.
Proof.
  intros Hnd Hu Hb. destruct (forallb (cmp OpNe x) (firstn n vs)) eqn:E; [done|]. cbn [orb].
  apply forallb_forall. intros v' Hv'. apply list_elem_of_In, Hb in Hv'.
  assert (Hex : exists v, v ∈ firstn n vs /\ cmp OpNe x v = false).
  { clear -E. induction (firstn n vs) as [|v l IH]; [done|]. cbn [forallb] in E.
    destruct (cmp OpNe x v) eqn:Ev; [|exists v; split; [apply list_elem_of_here|done]].
    destruct IH as (w & Hw & Hc); [done|]. exists w. split; [by right|done]. }
  destruct Hex as (v & Hv & Hc). rewrite <- (take_drop n vs) in Hnd. apply NoDup_app in Hnd as (_ & Hd & _).
  apply (Hu v v'); [| | |done].
  - rewrite <- (take_drop n vs). set_solver.
  - rewrite <- (take_drop n vs). set_solver.
  - intros <-. by apply (Hd v).
Qed.

Lemma split_single c vs negated b :
  vs <> [] ->
  split_in_filters [In_ c vs negated] b
  = map (fun w => [In_ c w negated]) (chunks (in_share [In_ c vs negated] b) vs).
Proof. intros Hv. destruct vs as [|v vs]; [done|]. unfold split_in_filters. cbn. by rewrite app_nil_r. Qed.

Lemma holds_not_in r c vs :
  vs <> [] ->
  holds cmp raw r (In_ c vs true) = match cell r c with Some x => forallb (cmp OpNe x) vs | None => false end.
Proof. by destruct vs. Qed.

(** One of the first two slices selects the row. *)
Lemma long_not_in_selects m c vs r x b :
  (0 < b < length vs)%nat -> NoDup vs -> cell r c = Some x -> unlike x vs ->
  some_selects cmp raw m true (split_in_filters [In_ c vs true] b) r = true.
Proof.
  intros Hb Hnd Ex Hu. assert (Hv : vs <> []) by (intros ->; simpl in Hb; lia).
  rewrite split_single by done.
  assert (Hs : (in_share [In_ c vs true] b < length vs)%nat).
  { unfold in_share. change (length (in_indices [In_ c vs true])) with 1%nat.
    change (sum_list_with fixed_param_cost [In_ c vs true]) with 0%nat. rewrite Nat.sub_0_r, Nat.div_1_r. lia. }
  destruct (chunks_two _ vs (in_share_positive [In_ c vs true] b) Hs) as (w & rest & -> & Hw & Hsub).
  pose proof (unlike_halves x _ vs w Hnd Hu Hsub) as Ho. unfold some_selects, selects. cbn [map existsb].
  assert (Ha : alive m true r = true) by (unfold alive; by destruct (soft_delete (flags m))).
  rewrite Ha. cbn [forallb andb]. rewrite !andb_true_r, !holds_not_in, Ex; [|done|].
  - by rewrite orb_assoc, Ho.
  - pose proof (in_share_positive [In_ c vs true] b) as H. destruct (in_share [In_ c vs true] b); [lia|].
    by destruct vs.
Qed.

(** A NOT IN is cut like an IN, and each statement deletes the rows its slice does not
    list: a list longer than the limit deletes every row that has a value in the column,
    also the rows whose value is listed, which one statement keeps. *)
Theorem chunked_not_in_deletes_listed_rows (db : RdbmsClient (list Row) Tx) m c vs rows t :
  runs_deletes db m true (split_in_filters [In_ c vs true] (max_params_per_stmt (lookup (dialect_ db)))) ->
  (max_params_per_stmt (lookup (dialect_ db)) < length vs)%nat -> NoDup vs ->
  Forall (fun r => forall x, cell r c = Some x -> unlike x vs) rows ->
  Z.of_nat (length rows) <= u64_max ->
  let '(_, (rows', _)) := delete_where clock db m [In_ c vs true] true (rows, t) in
  Forall (fun r => cell r c = None) rows' /\
  forall r x, r ∈ rows -> cell r c = Some x -> existsb (fun v => negb (cmp OpNe x v)) vs = true ->
    r ∈ (delete_rows cmp raw m true VNull [In_ c vs true] rows).1.
Proof.
  intros Hdb Hlong Hnd Hu Hmax. unfold delete_where, delete_budget. cbn [soft_column].
  rewrite Nat.sub_0_r. set (chunks := split_in_filters _ _) in *.
  pose proof (run_hard cmp raw m true (dates m true t) chunks rows eq_refl) as Hrun.
  change (@None string) with (soft_column m true).
  rewrite for_chunks_runs; [|by intros l' ?%split_nonempty|done|lia|]; rewrite Hrun; cbn [fst snd].
  - split; [apply Forall_forall|]; intros r.
    + intros [Hr Hk]%list_elem_of_In%List.filter_In. apply list_elem_of_In in Hr.
      destruct (cell r c) as [x|] eqn:Ex; [|done]. rewrite Forall_forall in Hu. specialize (Hu r Hr x Ex).
      apply negb_true_iff in Hk. exfalso. revert Hk. apply not_false_iff_true.
      apply (long_not_in_selects m c vs r x); [|done..]. pose proof (max_params_positive (dialect_ db)). lia.
    + intros x Hr Ex Hv. apply list_elem_of_In, List.filter_In. split; [by apply list_elem_of_In|].
      apply negb_true_iff, andb_false_iff. right. cbn [forallb]. rewrite holds_not_in by (by intros ->).
      rewrite Ex, andb_true_r. clear -Hv. induction vs as [|v vs IH]; [done|]. cbn [existsb forallb] in *.
      by destruct (cmp OpNe x v); [apply IH|].
  - pose proof (filter_length_le (some_selects cmp raw m true chunks) rows). lia.
Qed.

End Delete.
Section Limits.
Context `{JI : JsonInt} {JT : JsonText} {E : Type} {ET : EntityT E} {W Tx : Type}.
Context (clock : nat -> string).

(** Every statement of a delete stays within the parameter limit of the dialect, when
    the conditions other than IN leave room for one value per IN list and the date. *)
Theorem delete_statements_fit (db : RdbmsClient W Tx) m l hard w t :
  l <> [] ->
  (sum_list_with fixed_param_cost l + length (in_indices l) + reads m hard
     <= max_params_per_stmt (lookup (dialect_ db)))%nat ->
  Forall (fits (max_params_per_stmt (lookup (dialect_ db))))
    (delete_where clock (logged db) m l hard ((w, []), t)).2.1.2.
Proof.
  intros Hl Hroom. unfold delete_where. apply sends_for_chunks; [|constructor]. intros f Hf w' log t' Hlog.
  rewrite delete_chunk_sends by by eapply split_nonempty. apply sends_exec; [|done].
  pose proof (fun b => split_within_budget m hard (lookup (dialect_ db)) l b f) as Hb.
  unfold fits, statement, params_of, delete_pieces, delete_budget, reads in *. cbn [logged dialect_] in *.
  destruct (soft_column m hard) as [sd|]; cbn [app binds length]; specialize (fun H => Hb _ H Hf) as Hn; specialize (Hn ltac:(lia)); lia.
Qed.

(** The values of a row at the [t]-th reading of the clock, and of several rows. *)
Definition row_at (e : E) (t : nat) : outcome (list string * list Value) * nat :=
  let '(o, (_, t')) := insert_parts (W:=unit) clock e (tt, t) in (o, t').

Fixpoint rows_at (n : nat) (l : list E) (t : nat) : option (list (list Value) * nat) :=
  match l with
  | [] => Some ([], t)
  | e :: l =>
      match row_at e t with
      | (Done (Ok (cols, vals)), t) =>
          if Nat.eqb (length cols) n
          then match rows_at n l t with Some (vs, t) => Some (vals :: vs, t) | None => None end
          else None
      | _ => None
      end
  end.

Lemma auto_timestamp_world {W1 W2} flag c v b (w1 : W1) (w2 : W2) t :
  let '(o, (w, t')) := auto_timestamp clock flag c v b (w1, t) in
  w = w1 /\ auto_timestamp clock flag c v b (w2, t) = (o, (w2, t')).
Proof. unfold auto_timestamp. by destruct (bool_decide (flag = Some c) && (b || is_null v)). Qed.

Lemma insert_loop_world {W1 W2} l (w1 : W1) (w2 : W2) t :
  let '(o, (w, t')) := insert_loop clock l (w1, t) in w = w1 /\ insert_loop clock l (w2, t) = (o, (w2, t')).
Proof.
  revert t. induction l as [|[c v] l IH]; intros t; [done|]. cbn [insert_loop].
  destruct (column META c) as [m|]; [|done]. destruct (is_pk m && auto_increment m); [apply IH|].
  unfold bind. pose proof (auto_timestamp_world (created_at (flags META)) c v false w1 w2 t) as Ha.
  destruct (auto_timestamp clock (created_at (flags META)) c v false (w1, t)) as [[[a|?]|] [w t1]];
    destruct Ha as [-> ->]; [|done..].
  pose proof (auto_timestamp_world (updated_at (flags META)) c (default v a) true w1 w2 t1) as Hb.
  destruct (auto_timestamp clock (updated_at (flags META)) c (default v a) true (w1, t1)) as [[[b|?]|] [w t2]];
    destruct Hb as [-> ->]; [|done..].
  specialize (IH t2). destruct (insert_loop clock l (w1, t2)) as [[[[cols vals]|?]|] [w t3]]; by destruct IH as [-> ->].
Qed.

Lemma insert_parts_row {W1} (w : W1) e t : insert_parts clock e (w, t) = let '(o, t') := row_at e t in (o, (w, t')).
Proof.
  unfold row_at, insert_parts. pose proof (insert_loop_world (to_values e) tt w t) as H.
  destruct (insert_loop clock (to_values e) (tt, t)) as [o [u t']]. by destruct H as [_ ->].
Qed.

Lemma insert_loop_lengths {W1} l (w : W1) t :
  match insert_loop clock l (w, t) with (Done (Ok (cols, vals)), _) => length cols = length vals | _ => True end.
Proof.
  revert t. induction l as [|[c v] l IH]; intros t; [done|]. cbn [insert_loop].
  destruct (column META c) as [m|]; [|done]. destruct (is_pk m && auto_increment m); [apply IH|]. unfold bind.
  pose proof (auto_timestamp_world (created_at (flags META)) c v false w w t) as Ha.
  destruct (auto_timestamp clock (created_at (flags META)) c v false (w, t)) as [[[a|?]|] [w1 t1]]; [|done..].
  destruct Ha as [-> _].
  pose proof (auto_timestamp_world (updated_at (flags META)) c (default v a) true w w t1) as Hb.
  destruct (auto_timestamp clock (updated_at (flags META)) c (default v a) true (w, t1)) as [[[b|?]|] [w2 t2]]; [|done..].
  destruct Hb as [-> _]. specialize (IH t2). destruct (insert_loop clock l (w, t2)) as [[[[cols vals]|?]|] [w3 t3]]; [|done..].
  unfold ret. cbn [length]. by rewrite IH.
Qed.

Lemma row_at_lengths e t cols vals t' : row_at e t = (Done (Ok (cols, vals)), t') -> length cols = length vals.
Proof.
  unfold row_at, insert_parts. intros H. pose proof (insert_loop_lengths (to_values e) tt t) as Hl.
  destruct (insert_loop clock (to_values e) (tt, t)) as [o [u t1]]. by simplify_eq/=.
Qed.

Lemma rows_at_app n a b t :
  rows_at n (a ++ b) t =
  match rows_at n a t with
  | Some (va, t) => match rows_at n b t with Some (vb, t) => Some (va ++ vb, t) | None => None end
  | None => None
  end.
Proof.
  revert t. induction a as [|e a IH]; intros t; cbn [app rows_at]; [by destruct (rows_at n b t) as [[vb t']|]|].
  destruct (row_at e t) as [[[[cols vals]|?]|] t1]; try done. destruct (Nat.eqb (length cols) n); [|done].
  rewrite IH. destruct (rows_at n a t1) as [[va t2]|]; [|done]. by destruct (rows_at n b t2) as [[vb t3]|].
Qed.

Lemma rows_at_lengths n l t vs t' :
  rows_at n l t = Some (vs, t') -> length (concat vs) = (length l * n)%nat.
Proof.
  revert t vs. induction l as [|e l IH]; intros t vs H; cbn [rows_at] in H; [by simplify_eq/=|].
  destruct (row_at e t) as [[[[cols vals]|?]|] t1] eqn:Er; try done.
  destruct (Nat.eqb_spec (length cols) n) as [<-|]; [|done]. destruct (rows_at _ l t1) as [[vl t2]|] eqn:El; [|done].
  simplify_eq/=. rewrite length_app, (IH _ _ El). apply row_at_lengths in Er. lia.
Qed.

Lemma rows_at_count n l t vs t' : rows_at n l t = Some (vs, t') -> length vs = length l.
Proof.
  revert t vs. induction l as [|e l IH]; intros t vs H; cbn [rows_at] in H; [by simplify_eq/=|].
  destruct (row_at e t) as [[[[cols vals]|?]|] t1]; try done. destruct (Nat.eqb (length cols) n); [|done].
  destruct (rows_at n l t1) as [[vl t2]|] eqn:El; [|done]. simplify_eq/=. by rewrite (IH _ _ El).
Qed.

Lemma insert_tuples_spec {W1} (w : W1) s cols k l t vs t' :
  rows_at (length cols) l t = Some (vs, t') ->
  exists tuples, insert_tuples clock s cols k l (w, t) = (Done (Ok (tuples, concat vs)), (w, t')) /\
    length tuples = length l.
Proof.
  revert k t vs. induction l as [|e l IH]; intros k t vs H; cbn [rows_at] in H; [simplify_eq; by eexists|].
  cbn [insert_tuples]. unfold bind at 1. rewrite insert_parts_row.
  destruct (row_at e t) as [[[[cols' vals]|?]|] t1]; try done.
  destruct (Nat.eqb_spec (length cols') (length cols)) as [Hc|]; [|done].
  destruct (rows_at _ l t1) as [[vl t2]|] eqn:El; [|done]. simplify_eq/=. unfold bind.
  destruct (IH (k + length vals)%nat _ _ El) as (tuples & -> & Hl). eexists. split; [done|]. cbn [length]. by rewrite Hl.
Qed.

(** The database accepts every statement. *)
Definition accepts (db : RdbmsClient W Tx) : Prop :=
  forall r w, exists n w', perform_ db r w = (Ok (Affected n), w').

Lemma insert_chunk_sends (db : RdbmsClient W Tx) cols l w log t vs t' :
  accepts db -> rows_at (length cols) l t = Some (vs, t') ->
  exists n w' r, insert_chunk clock (logged db) cols l ((w, log), t) = (Done (Ok n), ((w', log ++ [r]), t')) /\
    params_of r = concat vs.
Proof.
  intros Hacc H. unfold insert_chunk, bind. cbn [logged dialect_].
  destruct (insert_tuples_spec (w, log) (lookup (dialect_ db)) cols 0 l t vs t' H) as (tuples & -> & _).
  unfold exec, logged. cbn [perform_ fst snd dialect_].
  destruct (Hacc (ExecuteWith (insert_stmt (lookup (dialect_ db)) cols tuples) (concat vs)) w) as (n & w' & ->).
  eexists n, w', _. by split.
Qed.

Lemma insert_chunks_send (db : RdbmsClient W Tx) cols per ls total w log t vs t' :
  accepts db -> rows_at (length cols) (concat ls) t = Some (vs, t') ->
  Forall (fun l => length l <= per)%nat ls ->
  exists n w' reqs, for_chunks (insert_chunk clock (logged db) cols) total ls ((w, log), t)
                    = (Done (Ok n), ((w', log ++ reqs), t')) /\
    concat (map params_of reqs) = concat vs /\ Forall (fits (per * length cols)) reqs.
Proof.
  intros Hacc. revert total w log t vs. induction ls as [|l ls IH]; intros total w log t vs H Hper.
  { simplify_eq/=. exists total, w, []. by rewrite app_nil_r. }
  cbn [concat] in H. rewrite rows_at_app in H. apply Forall_cons in Hper as [Hl Hper].
  destruct (rows_at (length cols) l t) as [[va t1]|] eqn:Ea; [|done].
  destruct (rows_at (length cols) (concat ls) t1) as [[vb t2]|] eqn:Eb; [|done]. simplify_eq.
  destruct (insert_chunk_sends db cols l w log t va t1 Hacc Ea) as (n & w1 & r & E1 & Hr).
  cbn [for_chunks]. unfold bind at 1. rewrite E1.
  destruct (IH (u64_add total n) w1 (log ++ [r]) t1 vb Eb Hper) as (n' & w' & reqs & -> & Hp & Hf).
  exists n', w', (r :: reqs). rewrite <- app_assoc. split; [done|]. split.
  - cbn [map concat]. by rewrite Hr, Hp, concat_app.
  - constructor; [|done]. unfold fits. rewrite Hr, (rows_at_lengths _ _ _ _ _ Ea). by apply Nat.mul_le_mono_r.
Qed.

(** A batch insert binds the values of each row once and in the order of the rows, the
    timestamps of each row read for it, over statements that stay within the parameter
    limit of the dialect. *)
Theorem insert_many_binds_each_row_once (db : RdbmsClient W Tx) e es w t cols vals t1 vs t2 :
  accepts db ->
  row_at e t = (Done (Ok (cols, vals)), t1) ->
  (0 < length cols <= max_params_per_stmt (lookup (dialect_ db)))%nat ->
  rows_at (length cols) (e :: es) t1 = Some (vs, t2) ->
  exists n w' reqs,
    insert_many clock (logged db) (e :: es) ((w, []), t) = (Done (Ok n), ((w', reqs), t2)) /\
    concat (map params_of reqs) = concat vs /\ length vs = S (length es) /\
    Forall (fits (max_params_per_stmt (lookup (dialect_ db)))) reqs.
Proof.
  intros Hacc He Hcols Hrows. unfold insert_many, bind. rewrite insert_parts_row, He.
  destruct cols as [|c cs] eqn:Ec; [simpl in Hcols; lia|]. rewrite <- Ec in *. clear Ec c cs.
  cbn [logged dialect_]. set (max := max_params_per_stmt (lookup (dialect_ db))) in *.
  set (sizes := split_chunks (length (e :: es)) (chunk_size max (length cols))).
  destruct (insert_chunks_send db cols (Nat.max 1 (chunk_size max (length cols))) (slices sizes (e :: es)) 0 w [] t1 vs t2)
    as (n & w' & reqs & Hrun & Hp & Hf); [done| | |].
  - rewrite slices_concat; [done|apply split_chunks_sum].
  - apply slices_bound, split_chunks_bound.
  - exists n, w', reqs. split; [|split; [done|split]].
    + destruct cols; [simpl in Hcols; lia|]. exact Hrun.
    + by apply rows_at_count in Hrows.
    + eapply Forall_impl; [exact Hf|]. intros r Hr. unfold fits in *. etransitivity; [exact Hr|].
      apply chunk_size_bound; lia.
Qed.

(** On MySQL, whose client names the column of [SELECT LAST_INSERT_ID()] after its
    expression, an insert fails with an unknown column after the row has been written: the
    key is read under the name of the primary key. *)
Theorem mysql_insert_loses_the_key (db : RdbmsClient W Tx) e w t cols vals t' n w' :
  dialect_ db = MySql -> PK <> "LAST_INSERT_ID()" ->
  row_at e t = (Done (Ok (cols, vals)), t') ->
  (forall ins, perform_ db (ExecuteThenQuery ins vals "SELECT LAST_INSERT_ID()") w
     = (Ok (Rows [({["LAST_INSERT_ID()" := VNumber (number_of_i64 n)]} : gmap string Value)]), w')) ->
  insert clock db e (w, t) = (Done (Err (UnknownColumn PK)), (w', t')).
Proof.
  intros Hd Hpk He Hdb. unfold insert, bind. rewrite insert_parts_row, He, Hd. cbn [lookup mysql_spec insert_plan].
  unfold mysql_insert_plan, rows. rewrite Hdb. unfold ret, read_returned_pk, Page.read_i64.
  by rewrite lookup_singleton_ne.
Qed.

End Limits.

Section Select.
Context `{JN : JsonNumber} {JT : JsonText}.

(** The queries a program can build without [filter_raw] and [join], whose text goes into
    the statement as it is. *)
Inductive builds (m : EntityMeta) : forall s, Query m s -> Prop :=
| B_new : builds m _ (new m)
| B_with s q names : builds m s q -> builds m s (with_relations names q)
| B_trashed s q : builds m s q -> builds m s (set_with_trashed q)
| B_order s q q' c d : builds m s q -> order_by c d q = Ok q' -> builds m s q'
| B_limit s q n : builds m s q -> builds m s (set_limit n q)
| B_offset s q n : builds m s q -> builds m s (set_offset n q)
| B_filter s q q' c o v : builds m s q -> Query.filter c o v q = Ok q' -> builds m _ q'.

Definition declared (m : EntityMeta) (c : string) : Prop := column m c <> None.

(** A condition on a declared column, with an infix operator where it has one. *)
Definition sound (m : EntityMeta) (e : Expr) : Prop :=
  match e with
  | Cmp c o _ => declared m c /\ as_sql o <> ""
  | In_ c _ _ | Null c _ => declared m c
  | Raw _ => False
  end.

Lemma check_declared m c u : check_column m c = Ok u -> declared m c.
Proof. unfold check_column, declared. by destruct (column m c). Qed.

Lemma builds_sound m s (q : Query m s) :
  builds m s q ->
  Forall (sound m) (filters q) /\ Forall (fun o => declared m (o_column o)) (orders q) /\ joins q = [] /\
  (s = Filtered -> filters q <> []).
Proof.
  induction 1 as [|s q names Hb (Hf & Ho & Hj & Hn)|s q Hb (Hf & Ho & Hj & Hn)|s q q' c d Hb (Hf & Ho & Hj & Hn) E
    |s q n Hb (Hf & Ho & Hj & Hn)|s q n Hb (Hf & Ho & Hj & Hn)|s q q' c o v Hb (Hf & Ho & Hj & Hn) E]; [by repeat split; try constructor|done|done| |done|done|].
  - unfold order_by in E. destruct (check_column m c) as [u|] eqn:Ec; [|done]. injection E as <-. cbn [filters orders joins].
    split_and!; [done| |done|done]. apply Forall_app. split; [done|]. repeat constructor. by eapply check_declared.
  - unfold Query.filter in E. destruct (check_column m c) as [u|] eqn:Ec; [|done]. apply check_declared in Ec. cbn in E.
    destruct (filter_expr c o v) as [e|] eqn:Ee; [|done]. injection E as <-. cbn [push_filter filters orders joins].
    split_and!; [|done|done|intros _; by destruct (filters q)]. apply Forall_app. split; [done|]. repeat constructor.
    destruct o, v; cbn in Ee; simplify_eq; cbn; done.
Qed.

(** *** What a statement may be made of *)

Definition KEYWORDS : list string :=
  [""; "SELECT "; "COUNT(*) AS "; " FROM "; " WHERE "; " AND "; ", "; " ORDER BY "; " "; "ASC"; "DESC"; "="; "<>"; "<";
   "<="; ">"; ">="; "LIKE"; "NOT "; "IN ("; ")"; " IS NULL"; " IS NOT NULL"; "1 = 1"; "1 = 0"; " LIMIT "; " OFFSET ";
   "TOP ("; ") "; " ORDER BY (SELECT NULL)"; " ROWS"; " FETCH NEXT "; " ROWS ONLY"].

(** The names of an entity: its table, its columns and the column of soft deletes; and the
    alias of a count. *)
Definition named (m : EntityMeta) (c : string) : Prop :=
  c = m_table m \/ declared m c \/ soft_delete (flags m) = Some c \/ c = COUNT_ALIAS.

(** Texts of keywords, quoted names, placeholders and the numbers of a limit. *)
Inductive spoken (m : EntityMeta) (s : DialectSpec) : string -> Prop :=
| S_word w : List.In w KEYWORDS -> spoken m s w
| S_name c : named m c -> spoken m s (quote s c)
| S_placeholder n : spoken m s (placeholder s n)
| S_number z : spoken m s (dec_text z)
| S_app a b : spoken m s a -> spoken m s b -> spoken m s (a +:+ b).

Section Spoken.
Context (m : EntityMeta) (d : Dialect).

Local Abbreviation sp := (spoken m (lookup d)).

Ltac word := apply S_word; cbn; tauto.

Lemma spoken_join sep l : sp sep -> Forall sp l -> sp (Spec.join sep l).
Proof.
  intros Hs. induction 1 as [|x l Hx Hl IH]; [word|]. destruct l as [|y l]; [done|].
  cbn [Spec.join]. repeat apply S_app; done.
Qed.

Lemma spoken_take_all vs used : Forall sp (take_all (lookup d) used vs).1.
Proof.
  revert used. induction vs as [|v vs IH]; intros used; [constructor|]. cbn [take_all take].
  specialize (IH (S used)). destruct (take_all (lookup d) (S used) vs). constructor; [apply S_placeholder|exact IH].
Qed.

Lemma spoken_expr e used ps : sound m e -> sp (render_expr (lookup d) e used ps).1.1.
Proof.
  destruct e as [c o v|c [|v vs] n|c n|t]; cbn [render_expr take sound]; try done.
  - intros [Hc Ho]. repeat apply S_app; [by apply S_name; right; left|word| |word|apply S_placeholder]. destruct o; word || done.
  - intros _. destruct n; word.
  - intros Hc. pose proof (spoken_take_all (v :: vs) used) as Hl. destruct (take_all (lookup d) used (v :: vs)) as [l u].
    repeat apply S_app; [by apply S_name; right; left|word|destruct n; word|word| |word]. apply spoken_join; [word|done].
  - intros Hc. apply S_app; [by apply S_name; right; left|]. destruct n; word.
Qed.

Lemma spoken_exprs l used ps : Forall (sound m) l -> Forall sp (render_exprs (lookup d) l used ps).1.1.
Proof.
  intros Hl. revert used ps. induction Hl as [|e l He Hl IH]; intros used ps; [constructor|]. cbn [render_exprs].
  pose proof (spoken_expr e used ps He) as Hs. destruct (render_expr (lookup d) e used ps) as [[c u] ps'].
  specialize (IH u ps'). destruct (render_exprs (lookup d) l u ps') as [[cs u'] ps'']. by constructor.
Qed.

Lemma spoken_where l trashed used ps w :
  Forall (sound m) l -> (render_where m l trashed (lookup d) used ps).1.1 = Some w -> sp w.
Proof.
  intros Hl. unfold render_where. pose proof (spoken_exprs l used ps Hl) as Hs.
  destruct (render_exprs (lookup d) l used ps) as [[cs u] ps']. cbn [fst].
  assert (Hg : Forall sp (gate m trashed (lookup d) ++ cs)).
  { apply Forall_app. split; [|done]. unfold gate. destruct (soft_delete (flags m)) as [c|] eqn:E; [|constructor].
    destruct trashed; [constructor|constructor; [|constructor]]. apply S_app; [apply S_name; unfold named; tauto|word]. }
  destruct (gate m trashed (lookup d) ++ cs) as [|x l']; [done|]. intros Hj. assert (w = Spec.join " AND " (x :: l')) as -> by (by injection Hj). apply spoken_join; [word|done].
Qed.

Lemma spoken_limit l o b : sp (l_prefix (limit_clause (lookup d) l o b)) /\ sp (l_suffix (limit_clause (lookup d) l o b)).
Proof.
  assert (Hs : forall l o, sp (l_prefix (limit_suffix l o)) /\ sp (l_suffix (limit_suffix l o))).
  { intros [l0|] o0; cbn [limit_suffix l_prefix l_suffix]; (split; [word|]); destruct (o0 =? 0);
      repeat apply S_app; first [apply S_number|word]. }
  destruct d; cbn [lookup limit_clause standard_spec sqlite_spec postgres_spec mysql_spec mssql_spec]; try apply Hs.
  unfold mssql_limit. destruct (o =? 0).
  - destruct l as [l0|]; cbn [l_prefix l_suffix no_limit]; (split; [|word]); [|word].
    repeat apply S_app; first [apply S_number|word].
  - cbn [l_prefix l_suffix]. split; [word|]. destruct b, l; repeat apply S_app; first [apply S_number|word].
Qed.

Lemma spoken_columns : sp (Spec.join ", " (map (fun c => quote (lookup d) (c_name c)) (columns m))).
Proof.
  apply spoken_join; [word|]. apply Forall_forall. intros x (c & -> & Hc)%list_elem_of_fmap. apply S_name. right; left.
  unfold declared, column. intros Hn. apply list_elem_of_In in Hc. pose proof (List.find_none _ _ Hn c Hc) as Hf. cbn in Hf.
  by rewrite String.eqb_refl in Hf.
Qed.

End Spoken.

(** A query with its values forgotten, and its values. *)
Definition blank_query {m s} (q : Query m s) : Query m s :=
  {| filters := map blank (filters q); orders := orders q; joins := joins q; limit := limit q; offset := offset q;
     with_trashed := with_trashed q; preload := preload q |}.

Definition values (e : Expr) : list Value :=
  match e with Cmp _ _ v => [v] | In_ _ vs _ => vs | _ => [] end.

Lemma binds_where m l trashed s : binds (where_pieces m l trashed s) = flat_map values l.
Proof.
  unfold where_pieces. rewrite binds_separated, map_app, concat_app.
  assert (Hg : concat (map binds (map (fun t => [Lit t]) (gate m trashed s))) = []).
  { induction (gate m trashed s) as [|g gs IH]; [done|]. by cbn [map concat binds app]. }
  rewrite Hg. cbn [app]. induction l as [|e l IH]; [done|]. cbn [map concat flat_map]. rewrite IH. f_equal.
  destruct e as [c o v|c [|v vs] n|c n|t]; try done. cbn [expr_pieces binds values].
  by rewrite binds_app, binds_params, app_nil_r.
Qed.

(** The text of a SELECT does not depend on the values of its filters, on any dialect:
    they are all bound as parameters, in the order of the conditions. *)
Theorem select_text_hides_values m s (q : Query m s) d for_count :
  sql (build_select q d for_count) = sql (build_select (blank_query q) d for_count) /\
  params (build_select q d for_count) = flat_map values (filters q).
Proof.
  unfold build_select, blank_query. cbn [filters orders joins limit offset with_trashed].
  rewrite !render_where_spec. rewrite <- where_text_blank. unfold no_condition. rewrite length_map.
  cbn [sql params app]. split; [done|]. apply binds_where.
Qed.

(** C23. A query built without [filter_raw] and [join] speaks only of its entity.  On every
    dialect the text of its SELECT (or its count) is put together from a fixed list of
    keywords, quoted names of the entity's table and declared columns, placeholders and the
    numbers of its limit, and nothing else; the values of its filters are bound as parameters, in
    the order of the conditions, and the text is the same whatever they are.  Its conditions
    are on declared columns with operators that have an infix form, and when its type says it
    is filtered a WHERE clause is rendered (which may hold of every row: NOT IN an empty list).
    What [filter_raw] and [join] are given goes into the text unchecked, and no such claim
    holds of it. *)
Theorem built_query_is_sound m s (q : Query m s) d for_count :
  builds m s q ->
  spoken m (lookup d) (sql (build_select q d for_count)) /\
  params (build_select q d for_count) = flat_map values (filters q) /\
  sql (build_select q d for_count) = sql (build_select (blank_query q) d for_count) /\
  Forall (sound m) (filters q) /\
  (s = Filtered -> forall trashed used ps, exists w, (render_where m (filters q) trashed (lookup d) used ps).1.1 = Some w).
Proof.
  intros (Hf & Ho & Hj & Hn)%builds_sound. destruct (select_text_hides_values m s q d for_count) as [Ht Hp].
  split_and!; [|done|done|done|].
  - clear Ht Hp Hn. unfold build_select. rewrite Hj. cbn [foldl].
    destruct (render_where m (filters q) (with_trashed q) (lookup d) 0 []) as [[w u] ps] eqn:Ew. cbn [sql].
    assert (Hw : forall t, w = Some t -> spoken m (lookup d) t).
    { intros t ->. by eapply spoken_where; [|rewrite Ew]. }
    set (lim := if for_count then no_limit else _).
    assert (Hl : spoken m (lookup d) (l_prefix lim) /\ spoken m (lookup d) (l_suffix lim)).
    { unfold lim. destruct for_count; [split; apply S_word; cbn; tauto|apply spoken_limit]. }
    apply S_app; [|apply Hl]. clearbody lim.
    assert (Hhead : spoken m (lookup d) ("SELECT " +:+ l_prefix lim +:+ (if for_count then "COUNT(*) AS " +:+ quote (lookup d) COUNT_ALIAS
              else Spec.join ", " (map (fun c => quote (lookup d) (c_name c)) (columns m))) +:+ " FROM " +:+ quote (lookup d) (m_table m))).
    { repeat apply S_app; [apply S_word; cbn; tauto|apply Hl| |apply S_word; cbn; tauto|apply S_name; by left].
      destruct for_count; [|apply spoken_columns]. apply S_app; [apply S_word; cbn; tauto|apply S_name; unfold named; tauto]. }
    set (filtered := match w with Some w => _ | None => _ end).
    assert (Hfilt : spoken m (lookup d) filtered).
    { unfold filtered. destruct w as [t|]; [|exact Hhead]. apply S_app; [exact Hhead|]. apply S_app; [apply S_word; cbn; tauto|by apply Hw]. }
    clearbody filtered. destruct (negb for_count && _); [|done]. repeat apply S_app; [done|apply S_word; cbn; tauto|].
    apply spoken_join; [apply S_word; cbn; tauto|]. apply Forall_forall. intros x (o & -> & Hin)%list_elem_of_fmap.
    rewrite Forall_forall in Ho. repeat apply S_app; [by apply S_name; right; left; apply Ho|apply S_word; cbn; tauto|].
    destruct (dir o); apply S_word; cbn; tauto.
  - intros -> trashed used ps. specialize (Hn eq_refl). rewrite render_where_spec. cbn [fst]. unfold no_condition.
    destruct (filters q) as [|e l]; [done|]. rewrite Nat.add_comm. cbn [length Nat.add Nat.eqb]. by eexists.
Qed.

End Select.

Section Pages.
Import Page.
Context `{JI : JsonInt} {JT : JsonText} {E W Tx : Type}.
Context (decode : Row -> E) (load_relation : list E -> string -> W -> result (list E) OrmError * W).

(** What LIMIT and OFFSET select. *)
Definition limited {A} (l o : Z) (rows : list A) : list A := firstn (Z.to_nat l) (skipn (Z.to_nat o) rows).

(** The database holds [rows]: it counts them and answers each page of them. *)
Definition answers (db : RdbmsClient W Tx) {m s} (q : Query m s) (rows : list Row) (per : Z) : Prop :=
  (forall w, perform_ db (QueryWith (sql (build_select q (dialect_ db) true)) (params (build_select q (dialect_ db) true))) w
     = (Ok (Rows [({[COUNT_ALIAS := VNumber (number_of_i64 (Z.of_nat (length rows)))]} : gmap string Value)]), w)) /\
  forall p w, 1 <= p <= div_ceil (Z.of_nat (length rows)) per ->
    let o := page_offset p per in
    let b := build_select (clone_with_limit per o q) (dialect_ db) false in
    perform_ db (QueryWith (sql b) (params b)) w = (Ok (Rows (limited per o rows)), w).

Lemma decoded_rows l : from_rows (fun r => Ok (decode r)) l = Ok (map decode l).
Proof. induction l as [|r l IH]; [done|]. cbn [from_rows map]. by rewrite IH. Qed.

Lemma slices_of_pages {A} (per k : nat) (l : list A) :
  (length l <= k * per)%nat -> concat (map (fun i => firstn per (skipn (i * per) l)) (seq 0 k)) = l.
Proof.
  revert l. induction k as [|k IH]; intros l Hl; [by destruct l; [|simpl in Hl; lia]|].
  cbn [seq map concat]. rewrite Nat.mul_0_l, drop_0, <- seq_shift, map_map.
  transitivity (firstn per l ++ skipn per l); [|apply take_drop]. f_equal.
  etransitivity; [|apply (IH (skipn per l)); rewrite length_drop; lia].
  f_equal. apply map_ext. intros i. by rewrite drop_drop.
Qed.

Lemma div_ceil_covers n per : 0 <= n -> 0 < per -> n <= div_ceil n per * per < n + per.
Proof.
  intros Hn Hp. unfold div_ceil. pose proof (Z.div_mod n per ltac:(lia)). pose proof (Z.mod_pos_bound n per Hp).
  destruct (Z.eqb_spec (n mod per) 0); nia.
Qed.

(** C24. Paging through a query: every page up to the last is answered with the total, the
    number of pages and whether another follows, and the items of the pages, one after the
    other, are the rows, each once. *)
Theorem pages_partition_the_rows (db : RdbmsClient W Tx) m s (q : Query m s) rows per :
  answers db q rows per -> preload q = [] -> 0 < per -> Z.of_nat (length rows) < 2 ^ 63 ->
  let n := Z.of_nat (length rows) in
  let items_of p := map decode (limited per (page_offset p per) rows) in
  (forall p w, 1 <= p <= div_ceil n per ->
     exists r, paginate (fun r => Ok (decode r)) load_relation db q p per w = (Ok r, w) /\
       items r = items_of p /\ total r = Some n /\ total_pages r = Some (div_ceil n per) /\
       has_next r = (p <? div_ceil n per)) /\
  concat (map items_of (seqZ 1 (div_ceil n per))) = map decode rows.
Proof.
  intros [Hc Hp] Hpre Hper Hmax n items_of. pose proof (div_ceil_covers n per ltac:(lia) Hper) as Hcov. split.
  - intros p w Hr. eexists. unfold paginate, query_rows. rewrite Hc. unfold read_total, read_i64.
    rewrite lookup_singleton_eq. cbn [is_null as_i64]. rewrite number_of_i64_as by (unfold in_i64; lia).
    cbn [rbind]. unfold page_items, fetch, query_rows. cbn zeta in Hp. rewrite Hp, decoded_rows by done.
    change (preload (clone_with_limit per (page_offset p per) q)) with (preload q). rewrite Hpre. cbn [load_all].
    split; [done|]. cbn [items total]. split; [done|]. unfold has_next, total_pages. cbn [total per_page page].
    replace (Z.max (Z.of_nat (length rows)) 0) with n by lia. destruct (Z.eqb_spec per 0); [lia|]. done.
  - etransitivity; [|apply f_equal, (slices_of_pages (Z.to_nat per) (Z.to_nat (div_ceil n per)) rows); nia].
    rewrite concat_map, !map_map. unfold seqZ. rewrite map_map. f_equal. apply map_ext_in. intros i Hi.
    apply in_seq in Hi. unfold items_of, limited, page_offset, sat_sub. do 3 f_equal.
    unfold u64_max in *. nia.
Qed.

End Pages.
End OrmSpec.

Module OrmDemo.
Import Rdbms Entity Spec Query Crud Batch Pieces Deletes Tables Sent OrmSpec Page.

#[local] Instance demo_number : JsonNumber := {|
  Number := Z; number_as_i64 n := if bool_decide (- 2 ^ 63 <= n < 2 ^ 63) then Some n else None;
  number_is_u64 n := true; number_as_f64 _ := None; number_text _ := "" |}.
Lemma demo_int_law (n : Z) : in_i64 n -> number_as_i64 (n : @Number demo_number) = Some n.
Proof. intros Hn. cbn. by rewrite bool_decide_eq_true_2. Qed.

#[local] Instance demo_int : JsonInt := {| number_of_i64 (n : Z) := n : @Number demo_number; number_of_i64_as := demo_int_law |}.
#[local] Instance demo_text : JsonText := {| value_text _ := "" |}.

Definition int (n : Z) : Value := @VNumber demo_number n.

Definition col (name : string) (t : ColType) (pk : bool) : ColumnMeta :=
  {| c_name := name; ty := t; nullable := false; is_pk := pk; auto_increment := pk |}.

Definition users : EntityMeta := {|
  m_table := "users"; m_pk := "id"; columns := [col "id" I64 true; col "name" Text_ false; col "made" Timestamp_ false];
  relations := []; flags := {| created_at := Some "made"; updated_at := None; soft_delete := None; version := None |} |}.

#[local] Instance demo_entity : EntityT string := {|
  TABLE := "users"; PK := "id"; META := users;
  to_values e := [("id", int 0); ("name", VString e); ("made", VNull)]; pk_value _ := int 0 |}.

Definition tick (n : nat) : string := num n.

Definition demo_cmp (o : Op) (x v : Value) : bool :=
  match o, as_i64 x, as_i64 v with
  | OpEq, Some a, Some b => a =? b
  | OpNe, Some a, Some b => negb (a =? b)
  | _, _, _ => false
  end.
Definition demo_raw (_ : string) (_ : Row) : bool := false.

Definition with_id (n : Z) : Row := ({["id" := int n]} : gmap string Value).

(** A database that runs deletes by a list of keys. *)
Definition key_db (negated : bool) : RdbmsClient (list Row) unit := {|
  perform_ r rows :=
    match r with
    | ExecuteWith _ ps =>
        let '(rows', n) := delete_rows demo_cmp demo_raw users true VNull [In_ "id" ps negated] rows in
        (Ok (Affected (Z.of_nat n)), rows')
    | _ => (Err (Database "unknown statement"), rows)
    end;
  begin_ w := (Ok tt, w); replica_lag _ := None; dialect_ := Sqlite |}.

Lemma key_db_runs negated vs b :
  vs <> [] -> runs_deletes demo_cmp demo_raw (key_db negated) users true (split_in_filters [In_ "id" vs negated] b).
Proof.
  intros Hv l t rows Hl. rewrite split_single in Hl by done. apply list_elem_of_fmap in Hl as (w & -> & _).
  unfold statement, delete_pieces. cbn [soft_column app binds]. unfold where_pieces.
  change (gate users true (lookup (dialect_ (key_db negated)))) with (@nil string). cbn [map app separated].
  assert (Hb : forall s, binds (expr_pieces s (In_ "id" w negated)) = w).
  { intros s. destruct w as [|v w]; [done|]. cbn [expr_pieces binds]. by rewrite binds_app, binds_params, app_nil_r. }
  cbn [perform_ key_db]. rewrite Hb. by destruct (delete_rows _ _ _ _ _ _ rows).
Qed.

Definition keys (n : nat) : list Value := map int (seqZ 0 (Z.of_nat n)).

Lemma keys_nodup n : NoDup (keys n).
Proof. apply NoDup_fmap_2; [|apply NoDup_seqZ]. intros a b H. by injection H. Qed.

Lemma chunked_delete_is_one_delete_witness :
  let '(o, (rows', _)) :=
    delete_where tick (key_db false) users [In_ "id" (keys 1200) false] true ([with_id 1100; with_id 5; with_id 5000], 0%nat) in
  o = Done (Ok (Z.of_nat (length (List.filter (selects demo_cmp demo_raw users [In_ "id" (keys 1200) false] true)
                                   [with_id 1100; with_id 5; with_id 5000])))) /\
  deleted demo_cmp demo_raw tick users true [In_ "id" (keys 1200) false] [with_id 1100; with_id 5; with_id 5000] rows'.
Proof.
  apply (chunked_delete_is_one_delete demo_cmp demo_raw tick (key_db false) users [In_ "id" (keys 1200) false] true
           [with_id 1100; with_id 5; with_id 5000] 0%nat); [done|reflexivity| |done].
  by apply key_db_runs.
Defined.

Lemma chunked_not_in_deletes_listed_rows_witness :
  let '(_, (rows', _)) :=
    delete_where tick (key_db true) users [In_ "id" (keys 1000) true] true ([with_id 5; with_id 5000], 0%nat) in
  Forall (fun r => cell r "id" = None) rows' /\
  forall r x, r ∈ [with_id 5; with_id 5000] -> cell r "id" = Some x ->
    existsb (fun v => negb (demo_cmp OpNe x v)) (keys 1000) = true ->
    r ∈ (delete_rows demo_cmp demo_raw users true VNull [In_ "id" (keys 1000) true] [with_id 5; with_id 5000]).1.
Proof.
  apply (chunked_not_in_deletes_listed_rows demo_cmp demo_raw tick (key_db true) users "id" (keys 1000)
           [with_id 5; with_id 5000] 0%nat).
  - by apply key_db_runs.
  - apply Nat.ltb_lt. vm_compute. reflexivity.
  - apply keys_nodup.
  - assert (Hu : forall n, - 2 ^ 63 <= n < 2 ^ 63 -> unlike demo_cmp (int n) (keys 1000)).
    { intros n Hn v v' (a & -> & Ha)%list_elem_of_fmap (b & -> & Hb)%list_elem_of_fmap Hne.
      apply elem_of_seqZ in Ha, Hb. unfold demo_cmp, int, as_i64. cbn [number_as_i64 demo_number].
      rewrite !bool_decide_eq_true_2 by lia. intros H%negb_false_iff%Z.eqb_eq. apply negb_true_iff, Z.eqb_neq.
      intros ->. apply Hne. by rewrite <- H. }
    assert (Hc : forall n, cell (with_id n) "id" = Some (int n)) by (intros n; apply lookup_singleton_eq).
    apply Forall_cons. split; [|apply Forall_singleton]; intros x; rewrite Hc; intros [= <-]; apply Hu; lia.
  - done.
Defined.

Definition silent : RdbmsClient nat unit := {|
  perform_ _ w := (Ok (Affected 1), S w); begin_ w := (Ok tt, w); replica_lag _ := None; dialect_ := Mssql |}.

Lemma delete_statements_fit_witness :
  Forall (fits 2100)
    (delete_where tick (logged silent) users [Cmp "name" OpEq (VString "a"); In_ "id" (keys 5000) false] true ((0%nat, []), 0%nat)).2.1.2.
Proof.
  apply (delete_statements_fit tick silent users [Cmp "name" OpEq (VString "a"); In_ "id" (keys 5000) false] true 0%nat 0%nat);
    [done|]. apply Nat.leb_le. vm_compute. reflexivity.
Defined.

Lemma insert_many_binds_each_row_once_witness :
  exists n w' reqs,
    insert_many tick (logged silent) ["a"; "b"] ((0%nat, []), 0%nat) = (Done (Ok n), ((w', reqs), 3%nat)) /\
    concat (map params_of reqs) = concat [[VString "a"; VString "1"]; [VString "b"; VString "2"]] /\
    2%nat = 2%nat /\ Forall (fits 2100) reqs.
Proof.
  apply (insert_many_binds_each_row_once tick silent "a" ["b"] 0%nat 0%nat ["name"; "made"] [VString "a"; VString "0"] 1%nat
           [[VString "a"; VString "1"]; [VString "b"; VString "2"]] 3%nat).
  - intros r w. by eexists _, _.
  - reflexivity.
  - split; [cbn; lia|]. apply Nat.leb_le. vm_compute. reflexivity.
  - reflexivity.
Defined.

Definition mysql_db : RdbmsClient nat unit := {|
  perform_ _ w := (Ok (Rows [({["LAST_INSERT_ID()" := int 7]} : gmap string Value)]), S w);
  begin_ w := (Ok tt, w); replica_lag _ := None; dialect_ := MySql |}.

Lemma mysql_insert_loses_the_key_witness :
  insert tick mysql_db "a" (0%nat, 0%nat) = (Done (Err (UnknownColumn (PK (E:=string)))), (1%nat, 1%nat)).
Proof.
  apply (mysql_insert_loses_the_key tick mysql_db "a" 0%nat 0%nat ["name"; "made"] [VString "a"; VString "0"] 1%nat 7 1%nat);
    [reflexivity|discriminate|reflexivity|].
  intros ins. reflexivity.
Defined.

Definition by_name : Query users Filtered := push_filter (Cmp "name" OpEq (VString "a")) (new users).

(** A value that tries to close the statement. *)
Definition hostile : Query users Filtered :=
  set_limit 7 (push_filter (In_ "id" [int 1; int 2] true) (push_filter (Cmp "name" OpEq (VString "' OR 1 = 1 --")) (new users))).

Lemma built_query_is_sound_witness :
  spoken users (lookup Postgres) (sql (build_select hostile Postgres false)) /\
  params (build_select hostile Postgres false) = [VString "' OR 1 = 1 --"; int 1; int 2] /\
  sql (build_select hostile Postgres false) = sql (build_select (blank_query hostile) Postgres false).
Proof.
  destruct (built_query_is_sound users Filtered hostile Postgres false) as (H1 & H2 & H3 & _).
  - apply B_limit. apply (B_filter users Filtered (push_filter (Cmp "name" OpEq (VString "' OR 1 = 1 --")) (new users)) _ "id" OpNotIn (VArray [int 1; int 2]));
      [|reflexivity].
    by apply (B_filter users Unfiltered (new users) _ "name" OpEq (VString "' OR 1 = 1 --")); [constructor|].
  - split; [exact H1|]. split; [exact H2|exact H3].
Defined.

(** A database that answers the count and the three pages of five rows. *)
Definition five : list Row := map with_id [1; 2; 3; 4; 5].
Definition page_db : RdbmsClient unit unit := {|
  perform_ r w :=
    match r with
    | QueryWith text _ =>
        if String.eqb text (sql (build_select by_name Sqlite true))
        then (Ok (Rows [({[COUNT_ALIAS := int 5]} : gmap string Value)]), w)
        else match List.find (fun p => String.eqb text
                 (sql (build_select (clone_with_limit 2 (page_offset p 2) by_name) Sqlite false))) [1; 2; 3] with
             | Some p => (Ok (Rows (limited 2 (page_offset p 2) five)), w)
             | None => (Err (Database "unknown statement"), w)
             end
    | _ => (Err (Database "unknown statement"), w)
    end;
  begin_ w := (Ok tt, w); replica_lag _ := None; dialect_ := Sqlite |}.

Lemma pages_partition_the_rows_witness :
  let items_of p := map id (limited 2 (page_offset p 2) five) in
  (forall p w, 1 <= p <= 3 ->
     exists r, paginate (fun r => Ok r) (fun l _ w => (Ok l, w)) page_db by_name p 2 w = (Ok r, w) /\
       items r = items_of p /\ total r = Some 5 /\ total_pages r = Some 3 /\ has_next r = (p <? 3)) /\
  concat (map items_of (seqZ 1 3)) = map id five.
Proof.
  apply (pages_partition_the_rows (fun r => r) (fun l _ w => (Ok l, w)) page_db users Filtered by_name five 2).
  - split; [reflexivity|]. intros p w Hp. change (1 <= p <= 3) in Hp.
    assert (p = 1 \/ p = 2 \/ p = 3) as [-> | [-> | ->]] by lia; reflexivity.
  - done.
  - done.
  - done.
Defined.

End OrmDemo.
