(* ===== verification/OrmRelation.v ===== *)
(** * Loading relations, and reading entities ([ecat-orm])

    [src/ecat-orm/src/relation.rs] ([Module Relation]) and the reads of [crud.rs].  One IN
    query per relation, cut to the parameter limit; its rows are grouped by key and handed
    to every subject.  A hash map is the list of its entries; equality of JSON values is
    the operation of the class [ValueEq]. *)

From S2P Require Import Prelude Json Text Dialect Rdbms OrmDialect OrmQuery OrmCrud OrmFacts.

Local Open Scope Z_scope.
Local Open Scope ecat_scope.

(** [PartialEq for Value], an equivalence that tells NULL from the rest. *)
Class ValueEq `{JN : JsonNumber} := { value_eqb : Value -> Value -> bool }.

Class ValueEqLaw `{VE : ValueEq} := {
  value_eqb_refl v : value_eqb v v = true;
  value_eqb_sym a b : value_eqb a b = true -> value_eqb b a = true;
  value_eqb_trans a b c : value_eqb a b = true -> value_eqb b c = true -> value_eqb a c = true;
  value_eqb_null a b : value_eqb a b = true -> is_null a = is_null b;
}.

Module Relation.
Import Rdbms Entity Spec Query Page Crud Batch.

Inductive Side := Subject | Target.

Definition join_sides (k : RelationKind) : Side * Side :=
  match k with
  | HasMany | HasOne => (Subject, Target)
  | BelongsTo => (Target, Subject)
  end.

Definition is_single_valued (k : RelationKind) : bool :=
  match k with HasOne | BelongsTo => true | HasMany => false end.

Section Relation.
Context `{VE : ValueEq} {JT : JsonText} {E : Type} {ET : EntityT E} {W Tx : Type}.
(** [Entity::set_relation] and [Entity::from_row]. *)
Context (set_relation : string -> list Row -> E -> result E OrmError) (from_row : Row -> result E OrmError).

Definition contains (l : list Value) (v : Value) : bool := existsb (fun x => value_eqb x v) l.

Fixpoint distinct_from (out keys : list Value) : list Value :=
  match keys with
  | [] => out
  | k :: keys => distinct_from (if is_null k || contains out k then out else out ++ [k]) keys
  end.

Definition distinct_keys (keys : list Value) : list Value := distinct_from [] keys.

(** *** The map from keys to rows *)

Fixpoint append_at {K} (k : Value) (rs : list K) (g : list (Value * list K)) : list (Value * list K) :=
  match g with
  | [] => [(k, rs)]
  | (k', rs') :: g => if value_eqb k' k then (k', rs' ++ rs) :: g else (k', rs') :: append_at k rs g
  end.

Definition group_by_key {K} (rows : list (Value * K)) : list (Value * list K) :=
  foldl (fun g kv => append_at kv.1 [kv.2] g) [] rows.

Fixpoint bucket {K} (k : Value) (g : list (Value * list K)) : list K :=
  match g with
  | [] => []
  | (k', rs) :: g => if value_eqb k' k then rs else bucket k g
  end.

Definition merge_groups {K} (buckets g : list (Value * list K)) : list (Value * list K) :=
  foldl (fun b kv => append_at kv.1 kv.2 b) buckets g.

(** *** One relation *)

Definition subject_value (s : E) (c : string) : Value :=
  if String.eqb c PK then pk_value s
  else match List.find (fun nv => String.eqb nv.1 c) (to_values s) with Some nv => nv.2 | None => VNull end.

Definition side_column (m : RelationMeta) (s : Side) : string :=
  match s with Subject => local_key m | Target => foreign_key m end.

Definition subject_col (m : RelationMeta) : string := side_column m (join_sides (kind m)).1.
Definition target_col (m : RelationMeta) : string := side_column m (join_sides (kind m)).2.

Definition relation_sql (s : DialectSpec) (m : RelationMeta) (n : nat) : string :=
  "SELECT * FROM " +:+ quote s (target_table m) +:+ " WHERE " +:+ quote s (target_col m) +:+ " IN ("
    +:+ placeholders (placeholder s) 0 n +:+ ")".

Definition missing (name : string) (c : string) : OrmError :=
  UnknownColumn ("relation `" +:+ name +:+ "`: target column `" +:+ c +:+
    "` missing from the result set; the relation's foreign_key / local_key may be swapped").

Fixpoint keyed (name c : string) (l : list Row) : result (list (Value * Row)) OrmError :=
  match l with
  | [] => Ok []
  | r :: l =>
      match (r : gmap string Value) !! c with
      | None => Err (missing name c)
      | Some k => let? ps := keyed name c l in Ok ((k, r) :: ps)
      end
  end.

Fixpoint load_chunks (db : RdbmsClient W Tx) (m : RelationMeta) (name : string) (chunks : list (list Value))
    (buckets : list (Value * list Row)) (w : W) : result (list (Value * list Row)) OrmError * W :=
  match chunks with
  | [] => (Ok buckets, w)
  | ks :: chunks =>
      match query_rows db {| sql := relation_sql (lookup (dialect_ db)) m (length ks); params := ks |} w with
      | (Ok rows, w) =>
          match keyed name (target_col m) rows with
          | Ok pairs => load_chunks db m name chunks (merge_groups buckets (group_by_key pairs)) w
          | Err e => (Err e, w)
          end
      | (Err e, w) => (Err e, w)
      end
  end.

Definition rows_of (m : RelationMeta) (buckets : list (Value * list Row)) (s : E) : list Row :=
  let rows := bucket (subject_value s (subject_col m)) buckets in
  if is_single_valued (kind m) then firstn 1 rows else rows.

Fixpoint write_back (name : string) (rows : E -> list Row) (l : list E) : result (list E) OrmError :=
  match l with
  | [] => Ok []
  | s :: l => let? s := set_relation name (rows s) s in let? l := write_back name rows l in Ok (s :: l)
  end.

Definition load_relation (db : RdbmsClient W Tx) (subjects : list E) (name : string) (w : W)
    : result (list E) OrmError * W :=
  match relation META name with
  | None => (Err (UnknownColumn ("unknown relation `" +:+ name +:+ "`")), w)
  | Some m =>
      let keys := distinct_keys (map (fun s => subject_value s (subject_col m)) subjects) in
      let per_chunk := chunk_size (max_params_per_stmt (lookup (dialect_ db))) 1 in
      match load_chunks db m name (slices (split_chunks (length keys) per_chunk) keys) [] w with
      | (Ok buckets, w) => (write_back name (rows_of m buckets) subjects, w)
      | (Err e, w) => (Err e, w)
      end
  end.

(** *** Reading entities *)

Definition find_by_id (db : RdbmsClient W Tx) (pk : Value) (w : W) : result (option E) OrmError * W :=
  match Query.filter PK OpEq pk (new META) with
  | Err e => (Err e, w)
  | Ok q =>
      match fetch from_row (load_relation db) db q w with
      | (Ok es, w) => (Ok (hd_error es), w)
      | (Err e, w) => (Err e, w)
      end
  end.

Definition find_all (db : RdbmsClient W Tx) (w : W) : result (list E) OrmError * W :=
  fetch from_row (load_relation db) db (new META) w.

End Relation.
End Relation.
