(* ===== verification/OrmRelationSpec.v ===== *)
(** * What loading a relation promises

    Every subject receives the rows of the target table whose key equals its own, in the
    order of the table and however the keys were cut; a subject without a key or without
    rows receives none, so nothing of an earlier load is left. *)

From S2P Require Import Prelude Json Text Dialect Rdbms OrmDialect OrmQuery OrmCrud OrmFacts OrmRelation.

Local Open Scope Z_scope.
Local Open Scope ecat_scope.

Module RelationSpec.
Import Rdbms Entity Spec Query Page Crud Batch Chunks Relation.

Section Spec.
Context `{VL : ValueEqLaw} {JT : JsonText} {E : Type} {ET : EntityT E} {W Tx : Type}.
Context (set_relation : string -> list Row -> E -> result E OrmError).

(** *** Keys *)

Lemma eqb_congr a b c : value_eqb a b = true -> value_eqb a c = value_eqb b c.
Proof.
  intros H. destruct (value_eqb a c) eqn:Ea, (value_eqb b c) eqn:Eb; try done; exfalso.
  - pose proof (value_eqb_trans b a c (value_eqb_sym a b H) Ea). congruence.
  - pose proof (value_eqb_trans a b c H Eb). congruence.
Qed.

Lemma contains_congr l a b : value_eqb a b = true -> contains l a = contains l b.
Proof.
  intros H. unfold contains. induction l as [|x l IH]; [done|]. cbn [existsb]. rewrite IH. f_equal.
  destruct (value_eqb x a) eqn:Ea, (value_eqb x b) eqn:Eb; try done.
  - pose proof (value_eqb_trans x a b Ea H). congruence.
  - pose proof (value_eqb_trans x b a Eb (value_eqb_sym a b H)). congruence.
Qed.

Lemma contains_app a b v : contains (a ++ b) v = contains a v || contains b v.
Proof. unfold contains. apply existsb_app. Qed.

(** No two keys are equal. *)
Fixpoint distinct (l : list Value) : Prop :=
  match l with [] => True | k :: l => contains l k = false /\ distinct l end.

Lemma distinct_snoc l k : distinct l -> contains l k = false -> distinct (l ++ [k]).
Proof.
  induction l as [|x l IH]; [done|]. cbn [app distinct]. intros [Hx Hl] Hk. cbn [contains existsb] in Hk.
  apply orb_false_iff in Hk as [Hxk Hk]. split; [|by apply IH]. rewrite contains_app, Hx. cbn.
  rewrite orb_false_r. apply not_true_iff_false. intros H%value_eqb_sym. by rewrite H in Hxk.
Qed.

Lemma distinct_app a b :
  distinct (a ++ b) -> distinct a /\ distinct b /\ forall k, contains a k = true -> contains b k = false.
Proof.
  induction a as [|x a IH]; [done|]. cbn [app distinct]. intros [Hx H]. apply IH in H as (Ha & Hb & Hd).
  rewrite contains_app in Hx. apply orb_false_iff in Hx as [Hxa Hxb]. split; [done|]. split; [done|].
  intros k Hk. cbn [contains existsb] in Hk. apply orb_true_iff in Hk as [Hk|Hk]; [|by apply Hd].
  by rewrite <- (contains_congr b x k).
Qed.

Lemma distinct_from_spec keys out :
  distinct out ->
  distinct (distinct_from out keys) /\
  forall k, contains (distinct_from out keys) k = contains out k || negb (is_null k) && contains keys k.
Proof.
  revert out. induction keys as [|x keys IH]; intros out Ho; cbn [distinct_from].
  { split; [done|]. intros k. cbn. by rewrite andb_false_r, orb_false_r. }
  destruct (is_null x || contains out x) eqn:Ex.
  - destruct (IH out Ho) as [Hd Hc]. split; [done|]. intros k. rewrite Hc. cbn [contains existsb].
    destruct (value_eqb x k) eqn:Ek; [|done]. cbn [orb]. apply orb_true_iff in Ex as [Ex|Ex].
    + by rewrite <- (value_eqb_null x k), Ex.
    + by rewrite (contains_congr out x k) in Ex by done; rewrite Ex.
  - apply orb_false_iff in Ex as [Hn Hx]. destruct (IH (out ++ [x])) as [Hd Hc]; [by apply distinct_snoc|].
    split; [done|]. intros k. rewrite Hc, contains_app. cbn [contains existsb]. rewrite orb_false_r, <- orb_assoc. f_equal.
    destruct (value_eqb x k) eqn:Ek; [|done]. by rewrite <- (value_eqb_null x k), Hn.
Qed.

Lemma distinct_keys_spec keys :
  distinct (distinct_keys keys) /\ forall k, contains (distinct_keys keys) k = negb (is_null k) && contains keys k.
Proof. apply (distinct_from_spec keys []). done. Qed.

(** *** Buckets *)

Lemma bucket_append_at {K} k k' (rs : list K) g :
  bucket k (append_at k' rs g) = if value_eqb k' k then bucket k g ++ rs else bucket k g.
Proof.
  induction g as [|[x l] g IH]; cbn [append_at bucket]; [by destruct (value_eqb k' k)|].
  destruct (value_eqb x k') eqn:Ex; cbn [bucket].
  - rewrite (eqb_congr x k' k) by done. by destruct (value_eqb k' k).
  - destruct (value_eqb x k) eqn:Exk; [|done]. destruct (value_eqb k' k) eqn:Ek; [|done]. exfalso.
    pose proof (value_eqb_trans x k k' Exk (value_eqb_sym k' k Ek)). congruence.
Qed.

Lemma bucket_group {K} k (rows : list (Value * K)) :
  bucket k (group_by_key rows) = map snd (List.filter (fun kv => value_eqb kv.1 k) rows).
Proof.
  unfold group_by_key.
  assert (H : forall g, bucket k (foldl (fun g kv => append_at kv.1 [kv.2] g) g rows)
            = bucket k g ++ map snd (List.filter (fun kv => value_eqb kv.1 k) rows)).
  { induction rows as [|[x r] rows IH]; intros g; cbn [foldl List.filter map fst snd]; [by rewrite app_nil_r|].
    rewrite IH, bucket_append_at. destruct (value_eqb x k); [|done]. by rewrite <- app_assoc. }
  by rewrite H.
Qed.

(** The keys of a grouping are distinct, so merging adds each bucket once. *)
Lemma contains_append_at {K} k (rs : list K) g v :
  contains (map fst (append_at k rs g)) v = contains (map fst g) v || value_eqb k v.
Proof.
  induction g as [|[x l] g IH]; cbn [append_at map fst contains existsb]; [by rewrite orb_false_r|].
  destruct (value_eqb x k) eqn:Ex; cbn [map fst existsb].
  - rewrite <- (eqb_congr x k v) by done. destruct (value_eqb x v); [done|]. by rewrite orb_false_r.
  - fold (contains (map fst (append_at k rs g)) v). rewrite IH. by rewrite orb_assoc.
Qed.

Lemma distinct_append_at {K} k (rs : list K) g : distinct (map fst g) -> distinct (map fst (append_at k rs g)).
Proof.
  induction g as [|[x l] g IH]; [done|]. cbn [append_at map fst distinct]. intros [Hx Hg].
  destruct (value_eqb x k) eqn:Ex; cbn [map fst distinct]; [done|]. split; [|by apply IH].
  rewrite contains_append_at, Hx. apply not_true_iff_false. intros H%value_eqb_sym. by rewrite H in Ex.
Qed.

Lemma distinct_group {K} (rows : list (Value * K)) : distinct (map fst (group_by_key rows)).
Proof.
  unfold group_by_key. assert (H : forall g, distinct (map fst g) ->
      distinct (map fst (foldl (fun g kv => append_at kv.1 [kv.2] g) g rows))).
  { induction rows as [|r rows IH]; intros g Hg; [done|]. cbn [foldl]. by apply IH, distinct_append_at. }
  by apply H.
Qed.

Lemma bucket_absent {K} k (g : list (Value * list K)) : contains (map fst g) k = false -> bucket k g = [].
Proof.
  induction g as [|[x l] g IH]; [done|]. cbn [map fst contains existsb bucket]. intros H.
  apply orb_false_iff in H as [-> H]. by apply IH.
Qed.

Lemma bucket_merge {K} k (b g : list (Value * list K)) :
  distinct (map fst g) -> bucket k (merge_groups b g) = bucket k b ++ bucket k g.
Proof.
  unfold merge_groups. revert b. induction g as [|[x l] g IH]; intros b Hd; [by rewrite app_nil_r|].
  cbn [map fst distinct] in Hd. destruct Hd as [Hx Hg]. cbn [foldl fst snd bucket].
  rewrite IH by done. rewrite bucket_append_at. destruct (value_eqb x k) eqn:Ex; [|done].
  rewrite (bucket_absent k g); [by rewrite app_nil_r|]. by rewrite <- (contains_congr _ x k).
Qed.

(** *** The rows of a key *)

Definition keyed_by (c : string) (k : Value) (r : Row) : bool :=
  match (r : gmap string Value) !! c with Some x => value_eqb x k | None => false end.

(** The database answers the IN query of the relation over [table]. *)
Definition answers_in (db : RdbmsClient W Tx) (m : RelationMeta) (table : list Row) : Prop :=
  forall ks w, (length ks <= max_params_per_stmt (lookup (dialect_ db)))%nat ->
    perform_ db (QueryWith (relation_sql (lookup (dialect_ db)) m (length ks)) ks) w =
    (Ok (Rows (List.filter (fun r => existsb (fun k => keyed_by (target_col m) k r) ks) table)), w).

Definition matching (c : string) (ks : list Value) (table : list Row) : list Row :=
  List.filter (fun r => existsb (fun k => keyed_by c k r) ks) table.

Lemma keyed_matching name c ks table :
  exists pairs, keyed name c (matching c ks table) = Ok pairs /\
    forall k, map snd (List.filter (fun kv => value_eqb kv.1 k) pairs)
              = List.filter (keyed_by c k) (matching c ks table).
Proof.
  unfold matching. induction table as [|r table (pairs & IH & Hf)]; [by exists []|]. cbn [List.filter].
  destruct (existsb (fun k => keyed_by c k r) ks) eqn:Er; [|by exists pairs]. cbn [keyed].
  destruct ((r : gmap string Value) !! c) as [x|] eqn:Ex.
  - rewrite IH. exists ((x, r) :: pairs). split; [done|]. intros k. cbn [List.filter fst].
    unfold keyed_by at 1. rewrite Ex. destruct (value_eqb x k); cbn [map snd]; by rewrite Hf.
  - exfalso. clear -Er Ex. induction ks as [|k ks IH]; [done|]. cbn [existsb] in Er. unfold keyed_by in Er at 1.
    rewrite Ex in Er. by apply IH.
Qed.

Lemma load_chunks_spec db m name table chunks b w :
  answers_in db m table ->
  Forall (fun ks => length ks <= max_params_per_stmt (lookup (dialect_ db)))%nat chunks ->
  exists buckets, load_chunks db m name chunks b w = (Ok buckets, w) /\
    forall k, bucket k buckets =
      bucket k b ++ concat (map (fun ks => List.filter (keyed_by (target_col m) k) (matching (target_col m) ks table)) chunks).
Proof.
  intros Hdb Hc. revert b. induction Hc as [|ks chunks Hks Hc IH]; intros b.
  { exists b. split; [done|]. intros k. cbn. by rewrite app_nil_r. }
  cbn [load_chunks]. unfold query_rows. cbn [sql params]. rewrite Hdb by done. fold (matching (target_col m) ks table).
  destruct (keyed_matching name (target_col m) ks table) as (pairs & -> & Hf).
  destruct (IH (merge_groups b (group_by_key pairs))) as (buckets & Hl & Hb). exists buckets. split; [exact Hl|].
  intros k. rewrite Hb, bucket_merge by apply distinct_group. cbn [map concat].
  by rewrite bucket_group, Hf, app_assoc.
Qed.

Lemma filter_matching c k ks table :
  List.filter (keyed_by c k) (matching c ks table) = if contains ks k then List.filter (keyed_by c k) table else [].
Proof.
  unfold matching. induction table as [|r table IH]; [by destruct (contains ks k)|]. cbn [List.filter].
  assert (Hk : keyed_by c k r = true -> existsb (fun x => keyed_by c x r) ks = contains ks k).
  { unfold keyed_by. destruct ((r : gmap string Value) !! c) as [x|]; [|done]. intros Hx. unfold contains.
    clear IH. induction ks as [|y ks IH]; [done|]. cbn [existsb]. rewrite IH. f_equal.
    rewrite (eqb_congr x k y) by done. destruct (value_eqb k y) eqn:Ey, (value_eqb y k) eqn:Ez; try done.
    - by rewrite (value_eqb_sym k y) in Ez.
    - by rewrite (value_eqb_sym y k) in Ey. }
  destruct (keyed_by c k r) eqn:Er.
  - rewrite Hk by done. destruct (contains ks k); [|done]. cbn [List.filter]. by rewrite Er, IH.
  - destruct (existsb (fun x => keyed_by c x r) ks); cbn [List.filter]; rewrite ?Er, IH; by destruct (contains ks k).
Qed.

Lemma concat_one_chunk {K} (l : list K) k chunks :
  distinct (concat chunks) ->
  concat (map (fun ks => if contains ks k then l else []) chunks) = if contains (concat chunks) k then l else [].
Proof.
  induction chunks as [|ks chunks IH]; [done|]. cbn [concat map]. intros H.
  apply distinct_app in H as (_ & Hd & Hx). rewrite IH by done. rewrite contains_app.
  destruct (contains ks k) eqn:Ek; [|done]. rewrite (Hx k) by done. by rewrite app_nil_r.
Qed.

(** The rows of the target table that belong to a subject. *)
Definition related (m : RelationMeta) (table : list Row) (s : E) : list Row :=
  let k := subject_value s (subject_col m) in
  let rows := if is_null k then [] else List.filter (keyed_by (target_col m) k) table in
  if is_single_valued (kind m) then firstn 1 rows else rows.

Lemma write_back_ext name f g (l : list E) :
  (forall s, s ∈ l -> f s = g s) -> write_back set_relation name f l = write_back set_relation name g l.
Proof.
  induction l as [|s l IH]; intros H; [done|]. cbn [write_back]. rewrite H by apply list_elem_of_here.
  destruct (set_relation name (g s) s); [|done]. cbn [rbind]. rewrite IH; [done|]. intros x Hx. apply H. by right.
Qed.

(** C25. Loading a relation hands every subject exactly the rows of the target table whose
    key is its own, in the order of the table and for a single-valued relation the first of
    them, however many keys there are; the world is left as it was. *)
Theorem relation_gives_each_subject_its_rows (db : RdbmsClient W Tx) name m table subjects w :
  relation META name = Some m -> answers_in db m table ->
  load_relation set_relation db subjects name w = (write_back set_relation name (related m table) subjects, w).
Proof.
  intros Hm Hdb. unfold load_relation. rewrite Hm.
  set (keys := distinct_keys _). set (per := chunk_size _ 1).
  destruct (load_chunks_spec db m name table (slices (split_chunks (length keys) per) keys) [] w Hdb)
    as (buckets & -> & Hb).
  { eapply Forall_impl; [apply slices_bound, split_chunks_bound|]. intros ks Hks. cbn beta in Hks.
    pose proof (max_params_positive (dialect_ db)) as Hp.
    pose proof (chunk_size_bound (max_params_per_stmt (lookup (dialect_ db))) 1) as Hs. unfold per in Hks. lia. }
  f_equal. apply write_back_ext. intros s Hs. unfold rows_of, related. rewrite Hb. cbn [bucket app].
  set (k := subject_value s (subject_col m)).
  rewrite (map_ext _ (fun ks => if contains ks k then List.filter (keyed_by (target_col m) k) table else []))
    by (intros ks; apply filter_matching).
  destruct (distinct_keys_spec (map (fun s => subject_value s (subject_col m)) subjects)) as [Hd Hc].
  fold keys in Hd, Hc. rewrite concat_one_chunk; rewrite slices_concat by apply split_chunks_sum; [|done].
  rewrite Hc. assert (Hk : contains (map (fun s => subject_value s (subject_col m)) subjects) k = true).
  { unfold contains. rewrite existsb_exists. exists k. split; [|apply value_eqb_refl].
    apply list_elem_of_In, list_elem_of_fmap. by exists s. }
  rewrite Hk, andb_true_r. by destruct (is_null k).
Qed.

End Spec.
End RelationSpec.

Module RelationDemo.
Import Rdbms Entity Spec Query Page Crud Batch Relation RelationSpec.

#[local] Instance demo_number : JsonNumber := {|
  Number := Z; number_as_i64 n := Some n; number_is_u64 n := true; number_as_f64 _ := None; number_text _ := "" |}.
#[local] Instance demo_text : JsonText := {| value_text _ := "" |}.

(** Numbers by value, the rest by whether it is NULL. *)
Definition demo_eqb (a b : Value) : bool :=
  match a, b with
  | VNumber x, VNumber y => Z.eqb x y
  | VNumber _, _ | _, VNumber _ => false
  | a, b => Bool.eqb (is_null a) (is_null b)
  end.
#[local] Instance demo_eq : ValueEq := {| value_eqb := demo_eqb |}.

Lemma demo_eq_law : ValueEqLaw.
Proof.
  split; cbn; unfold demo_eqb.
  - intros [|?|n|?|?|?]; try done. apply Z.eqb_refl.
  - intros [|?|n|?|?|?] [|?|n'|?|?|?]; try done. by rewrite Z.eqb_sym.
  - intros [|?|n|?|?|?] [|?|n'|?|?|?] [|?|n''|?|?|?]; try done. intros ->%Z.eqb_eq ->%Z.eqb_eq. apply Z.eqb_refl.
  - by intros [|?|n|?|?|?] [|?|n'|?|?|?].
Qed.

Definition user_posts : RelationMeta :=
  {| r_name := "posts"; kind := HasMany; target_table := "posts"; foreign_key := "user_id"; local_key := "id" |}.

#[local] Instance demo_user : EntityT (Z * list Row) := {|
  TABLE := "users"; PK := "id";
  META := {| m_table := "users"; m_pk := "id"; columns := []; relations := [user_posts]; flags := no_flags |};
  to_values u := [("id", @VNumber demo_number u.1)]; pk_value u := @VNumber demo_number u.1 |}.

Definition set_posts (_ : string) (rows : list Row) (u : Z * list Row) : result (Z * list Row) OrmError := Ok (u.1, rows).

Definition post (user n : Z) : Row := ({["user_id" := @VNumber demo_number user; "n" := @VNumber demo_number n]} : gmap string Value).
Definition posts : list Row := [post 1 10; post 2 20; post 1 30; post 9 90].

Definition post_db : RdbmsClient unit unit := {|
  perform_ r w :=
    match r with
    | QueryWith _ ks => (Ok (Rows (List.filter (fun r => existsb (fun k => keyed_by "user_id" k r) ks) posts)), w)
    | _ => (Err (Database "unknown statement"), w)
    end;
  begin_ w := (Ok tt, w); replica_lag _ := None; dialect_ := Sqlite |}.

Lemma relation_gives_each_subject_its_rows_witness :
  load_relation set_posts post_db [(1, []); (2, []); (3, [])] "posts" tt
  = (write_back set_posts "posts" (related user_posts posts) [(1, []); (2, []); (3, [])], tt).
Proof.
  apply (relation_gives_each_subject_its_rows (VL:=demo_eq_law) set_posts post_db "posts" user_posts posts
           [(1, []); (2, []); (3, [])] tt); [reflexivity|].
  intros ks w _. reflexivity.
Defined.

(** The rows each subject is handed. *)
Example posts_of_users :
  write_back set_posts "posts" (related user_posts posts) [(1, []); (2, []); (3, [])]
  = Ok [(1, [post 1 10; post 1 30]); (2, [post 2 20]); (3, [])].
Proof. reflexivity. Qed.

End RelationDemo.
