(* ===== verification/OrmMigrate.v ===== *)
(** * Schema migrations of the ORM ([ecat-orm])

    [src/ecat-orm/src/migrate/ddl.rs] ([Module Ddl]: tables as statements, versions as
    names), [migrate/version.rs] ([Module Version]: the table of applied versions) and
    [migrate/mod.rs] ([Module Migrator]). *)

From Stdlib Require Import Ascii.
From S2P Require Import Prelude Json Text Dialect Rdbms OrmDialect OrmQuery OrmCrud.

Local Open Scope Z_scope.
Local Open Scope ecat_scope.

Module Ddl.
Import Entity Spec.

Definition column_ddl (s : DialectSpec) (c : ColumnMeta) : string :=
  let quoted := quote s (c_name c) in
  if is_pk c && auto_increment c then
    let ddl := autoincrement_ddl s (ty c) in
    if contains "PRIMARY KEY" ddl then quoted +:+ " " +:+ ddl else quoted +:+ " " +:+ ddl +:+ " PRIMARY KEY"
  else
    let t := col_type s (ty c) in
    if is_pk c then quoted +:+ " " +:+ t +:+ " PRIMARY KEY"
    else if nullable c then quoted +:+ " " +:+ t
    else quoted +:+ " " +:+ t +:+ " NOT NULL".

Definition create_table_sql (m : EntityMeta) (d : Dialect) : string :=
  create_table_prefix (lookup d) (m_table m) +:+ " (" +:+ Spec.join ", " (map (column_ddl (lookup d)) (columns m)) +:+ ")".

Definition drop_table_sql (m : EntityMeta) (d : Dialect) : string :=
  "DROP TABLE IF EXISTS " +:+ quote (lookup d) (m_table m).

(** [split('_').next()]. *)
Definition digits_of (name : string) : string :=
  match split_once "_"%char name with Some (d, _) => d | None => name end.

Fixpoint all_digits (s : string) : bool :=
  match s with
  | EmptyString => true
  | String a s => (48 <=? byte_of a) && (byte_of a <=? 57) && all_digits s
  end.

Definition parse_version (name : string) : result Z OrmError :=
  let digits := digits_of name in
  if String.eqb digits "" || negb (all_digits digits) then Err (InvalidMigrationName name)
  else match parse_uint 63 digits with Some v => Ok v | None => Err (InvalidMigrationName name) end.

End Ddl.

Module Version.
Import Rdbms Entity Spec Query Page Crud Ddl.

Definition VTABLE : string := "_ecat_migrations".

Definition vcol (name : string) (t : ColType) (pk : bool) : ColumnMeta :=
  {| c_name := name; ty := t; nullable := false; is_pk := pk; auto_increment := false |}.

Definition COLS : list ColumnMeta := [vcol "version" I64 true; vcol "name" Text_ false; vcol "applied_at" Timestamp_ false].

Definition VMETA : EntityMeta :=
  {| m_table := VTABLE; m_pk := "version"; columns := COLS; relations := []; flags := no_flags |}.

Section Version.
Context `{JI : JsonInt} {W Tx : Type}.
Context (clock : nat -> string).

Local Notation M := (M (W:=W)).
Local Notation "'do!' x ':=' c 'in' k" := (bind c (fun x => k)) (at level 10, x pattern, c at level 100, k at level 200).

Definition exists_sql (s : DialectSpec) : string :=
  "SELECT 1 FROM INFORMATION_SCHEMA.TABLES WHERE TABLE_NAME = " +:+ placeholder s 1.

Definition ensure_version_table (db : RdbmsClient W Tx) : M unit :=
  let s := lookup (dialect_ db) in
  do! found :=
    if needs_exists_check_before_create s
    then do! l := rows db (QueryWith (exists_sql s) [VString VTABLE]) in ret (Ok (negb (Nat.eqb (length l) 0)))
    else ret (Ok false) in
  if (found : bool) then ret (Ok tt)
  else do! _ := exec db (Execute (create_table_sql VMETA (dialect_ db))) in ret (Ok tt).

Definition select_versions (s : DialectSpec) : string := "SELECT " +:+ quote s "version" +:+ " FROM " +:+ quote s VTABLE.

Fixpoint read_versions (l : list Row) : result (list Z) OrmError :=
  match l with
  | [] => Ok []
  | r :: l => let? v := read_i64 r "version" in let? vs := read_versions l in Ok (v :: vs)
  end.

Definition read_applied (db : RdbmsClient W Tx) : M (list Z) :=
  do! l := rows db (Rdbms.Query (select_versions (lookup (dialect_ db)))) in ret (read_versions l).

Definition record_sql (s : DialectSpec) : string :=
  "INSERT INTO " +:+ quote s VTABLE +:+ " (" +:+ list_of (quote s) ["version"; "name"; "applied_at"] +:+ ") VALUES ("
    +:+ placeholders (placeholder s) 0 (length COLS) +:+ ")".

Definition record (db : RdbmsClient W Tx) (version : Z) (name : string) : M unit :=
  do! applied_at := now clock in
  do! _ := exec db (ExecuteWith (record_sql (lookup (dialect_ db)))
                      [VNumber (number_of_i64 version); VString name; applied_at]) in
  ret (Ok tt).

Definition remove_sql (s : DialectSpec) : string :=
  "DELETE FROM " +:+ quote s VTABLE +:+ " WHERE " +:+ quote s "version" +:+ " = " +:+ placeholder s 1.

Definition remove (db : RdbmsClient W Tx) (version : Z) : M unit :=
  do! _ := exec db (ExecuteWith (remove_sql (lookup (dialect_ db))) [VNumber (number_of_i64 version)]) in
  ret (Ok tt).

End Version.
End Version.

Module Migrator.
Import Rdbms Entity Spec Query Page Crud Ddl Version.

Record Migration := { mg_version : Z; mg_name : string; mg_sql : string; reverse_sql : option string }.

(** [Migration::reverse]. *)
Definition reverse (m : Migration) : result string OrmError :=
  match reverse_sql m with Some s => Ok s | None => Err (MigrationIrreversible (mg_name m)) end.

(** Statements that wait for their dialect. *)
Record MigrationBuilder := { forward : Dialect -> string; backward : option (Dialect -> string) }.

Definition create_table (m : EntityMeta) : MigrationBuilder := {| forward := create_table_sql m; backward := None |}.
Definition drop_table (m : EntityMeta) : MigrationBuilder := {| forward := drop_table_sql m; backward := None |}.
Definition with_reverse (r : Dialect -> string) (b : MigrationBuilder) : MigrationBuilder :=
  {| forward := forward b; backward := Some r |}.

Definition build (b : MigrationBuilder) (version : Z) (name : string) (d : Dialect) : Migration :=
  {| mg_version := version; mg_name := name; mg_sql := forward b d;
     reverse_sql := match backward b with Some f => Some (f d) | None => None end |}.

Record MigrationStatus := { applied : list Z; pending : list Z; unknown : list Z }.

Definition mem (l : list Z) (v : Z) : bool := existsb (Z.eqb v) l.

Definition classify (applied known : list Z) : MigrationStatus :=
  {| applied := sort_by Z.leb (List.filter (mem known) applied);
     pending := sort_by Z.leb (List.filter (fun v => negb (mem applied v)) known);
     unknown := sort_by Z.leb (List.filter (fun v => negb (mem known v)) applied) |}.

Section Migrator.
Context `{JI : JsonInt} {W Tx : Type}.
Context (clock : nat -> string).

Local Notation M := (M (W:=W)).
Local Notation "'do!' x ':=' c 'in' k" := (bind c (fun x => k)) (at level 10, x pattern, c at level 100, k at level 200).

(** [Migrator::add] appends a name and a builder. *)
Definition Declared : Type := list (string * MigrationBuilder).

Fixpoint known_versions (l : Declared) : result (list Z) OrmError :=
  match l with
  | [] => Ok []
  | (name, _) :: l => let? v := parse_version name in let? vs := known_versions l in Ok (v :: vs)
  end.

Fixpoint resolve (d : Dialect) (l : Declared) : result (list Migration) OrmError :=
  match l with
  | [] => Ok []
  | (name, b) :: l => let? v := parse_version name in let? ms := resolve d l in Ok (build b v name d :: ms)
  end.

Definition status (db : RdbmsClient W Tx) (l : Declared) : M MigrationStatus :=
  do! _ := ensure_version_table db in
  do! a := read_applied db in
  ret (let? known := known_versions l in Ok (classify a known)).

(** A failing statement is wrapped with its version and name. *)
Definition apply (db : RdbmsClient W Tx) (m : Migration) (sql : string) : M unit :=
  fun s => match exec db (Execute sql) s with
           | (Done (Ok _), s) => (Done (Ok tt), s)
           | (Done (Err e), s) => (Done (Err (MigrationFailed (mg_version m) (mg_name m) e)), s)
           | (Panic, s) => (Panic, s)
           end.

Fixpoint run_loop (db : RdbmsClient W Tx) (applied : list Z) (l : list Migration) : M unit :=
  match l with
  | [] => ret (Ok tt)
  | m :: l =>
      if mem applied (mg_version m) then run_loop db applied l
      else
        do! _ := apply db m (mg_sql m) in
        do! _ := record clock db (mg_version m) (mg_name m) in
        run_loop db applied l
  end.

Definition by_version (a b : Migration) : bool := mg_version a <=? mg_version b.

Definition run (db : RdbmsClient W Tx) (l : Declared) : M unit :=
  do! _ := ensure_version_table db in
  do! a := read_applied db in
  do! ms := ret (resolve (dialect_ db) l) in
  run_loop db a (sort_by by_version ms).

Definition down (db : RdbmsClient W Tx) (l : Declared) (version : Z) : M unit :=
  do! _ := ensure_version_table db in
  do! a := read_applied db in
  if negb (mem a version) then ret (Err (MigrationNotApplied version))
  else
    do! ms := ret (resolve (dialect_ db) l) in
    match List.find (fun m => mg_version m =? version) ms with
    | None => ret (Err (MigrationNotApplied version))
    | Some m =>
        do! r := ret (reverse m) in
        do! _ := apply db m r in
        remove db version
    end.

End Migrator.
End Migrator.
