(* ===== verification/OrmMigrateSpec.v ===== *)
(** * What schema migrations promise

    The pending migrations run once each, in the order of their versions, and are recorded
    as they go; the first failure stops the run; a run after a complete one sends nothing;
    [down] undoes one version.  And a gap: two migrations of one version. *)

From S2P Require Import Prelude Json Text Dialect Rdbms OrmDialect OrmQuery OrmCrud OrmMigrate.

Local Open Scope Z_scope.
Local Open Scope ecat_scope.

Module MigrateOrmSpec.
Import Rdbms Entity Spec Query Page Crud Ddl Version Migrator.

Lemma mem_spec l v : mem l v = true <-> v ∈ l.
Proof.
  unfold mem. rewrite existsb_exists, list_elem_of_In. split; [|by exists v; rewrite Z.eqb_refl].
  by intros (x & Hx & ->%Z.eqb_eq).
Qed.

Lemma mem_app a b v : mem (a ++ b) v = mem a v || mem b v.
Proof. apply existsb_app. Qed.

Section Runs.
Context `{JI : JsonInt} {W Tx : Type}.
Context (clock : nat -> string) (db : RdbmsClient W Tx).

(** What the database shows of its world: the versions of its table and the migration
    statements it ran; [bad] are those it refuses. *)
Context (versions : W -> list Z) (log : W -> list string) (bad : string -> bool).

Definition ordinary (sql : string) : Prop := sql <> create_table_sql VMETA (dialect_ db).

Record runs_migrations : Prop := {
  table_exists w : exists found,
    perform_ db (QueryWith (exists_sql (lookup (dialect_ db))) [VString VTABLE]) w = (Ok (Rows found), w);
  table_created w : perform_ db (Execute (create_table_sql VMETA (dialect_ db))) w = (Ok (Affected 0), w);
  versions_read w : exists l,
    perform_ db (Rdbms.Query (select_versions (lookup (dialect_ db)))) w = (Ok (Rows l), w) /\
    read_versions l = Ok (versions w);
  migration_run sql w : ordinary sql -> exists w', log w' = (if bad sql then log w else log w ++ [sql]) /\ versions w' = versions w /\
    if bad sql then exists e, perform_ db (Execute sql) w = (Err e, w')
    else exists n, perform_ db (Execute sql) w = (Ok (Affected n), w');
  version_recorded v name t w : mem (versions w) v = false -> exists n w',
    perform_ db (ExecuteWith (record_sql (lookup (dialect_ db))) [VNumber (number_of_i64 v); name; t]) w
      = (Ok (Affected n), w') /\ versions w' = versions w ++ [v] /\ log w' = log w;
  version_twice v name t w : mem (versions w) v = true -> exists e,
    perform_ db (ExecuteWith (record_sql (lookup (dialect_ db))) [VNumber (number_of_i64 v); name; t]) w = (Err e, w);
  version_removed v w : exists n w',
    perform_ db (ExecuteWith (remove_sql (lookup (dialect_ db))) [VNumber (number_of_i64 v)]) w
      = (Ok (Affected n), w') /\ versions w' = List.filter (fun x => negb (x =? v)) (versions w) /\ log w' = log w;
}.

Context (Hdb : runs_migrations).

Lemma ensure_ok w t : ensure_version_table db (w, t) = (Done (Ok tt), (w, t)).
Proof.
  unfold ensure_version_table, bind, ret, rows, exec.
  destruct (needs_exists_check_before_create (lookup (dialect_ db))); [|by rewrite (table_created Hdb)].
  destruct (table_exists Hdb w) as [found ->]. destruct (negb (length found =? 0)%nat); [done|].
  by rewrite (table_created Hdb).
Qed.

Lemma read_applied_ok w t : read_applied db (w, t) = (Done (Ok (versions w)), (w, t)).
Proof.
  unfold read_applied, bind, rows, ret. destruct (versions_read Hdb w) as (l & -> & Hl). by rewrite Hl.
Qed.

Lemma apply_outcome m sql w t :
  ordinary sql ->
  exists w', versions w' = versions w /\ log w' = (if bad sql then log w else log w ++ [sql]) /\
    if bad sql
    then exists e, apply db m sql (w, t) = (Done (Err (MigrationFailed (mg_version m) (mg_name m) e)), (w', t))
    else apply db m sql (w, t) = (Done (Ok tt), (w', t)).
Proof.
  intros Ho. unfold apply, exec. destruct (migration_run Hdb sql w Ho) as (w' & Hl & Hv & H). exists w'. split; [done|]. split; [done|].
  destruct (bad sql); destruct H as [x ->]; [by eexists|done].
Qed.

Lemma record_outcome v name w t :
  mem (versions w) v = false ->
  exists w', record clock db v name (w, t) = (Done (Ok tt), (w', S t)) /\ versions w' = versions w ++ [v] /\ log w' = log w.
Proof.
  intros Hv. unfold record, bind, now, exec, ret.
  destruct (version_recorded Hdb v (VString name) (VString (clock t)) w Hv) as (n & w' & -> & H). by exists w'.
Qed.

(** How far a run got over the migrations still to apply. *)
Definition ran (todo : list Migration) (w w' : W) (o : result unit OrmError) : Prop :=
  exists done_ rest, todo = done_ ++ rest /\ versions w' = versions w ++ map mg_version done_ /\
    log w' = log w ++ map mg_sql done_ /\
    match o with
    | Ok _ => rest = []
    | Err e => exists m rest' src, rest = m :: rest' /\ bad (mg_sql m) = true /\ e = MigrationFailed (mg_version m) (mg_name m) src
    end.

Definition fresh (applied : list Z) (l : list Migration) : list Migration :=
  List.filter (fun m => negb (mem applied (mg_version m))) l.

Lemma run_loop_ran applied l w t :
  (forall m, m ∈ l -> ordinary (mg_sql m)) -> NoDup (map mg_version (fresh applied l)) ->
  (forall m, m ∈ fresh applied l -> mem (versions w) (mg_version m) = false) ->
  exists o w' t', run_loop clock db applied l (w, t) = (Done o, (w', t')) /\ ran (fresh applied l) w w' o.
Proof.
  intros Hord. revert w t. induction l as [|m l IH]; intros w t Hnd Hf.
  { exists (Ok tt), w, t. split; [done|]. exists [], []. by rewrite !app_nil_r. }
  assert (Hm0 : ordinary (mg_sql m)) by apply Hord, list_elem_of_here.
  specialize (IH (fun x Hx => Hord x (list_elem_of_further _ _ _ Hx))).
  cbn [run_loop]. unfold fresh in *. cbn [List.filter] in *. destruct (mem applied (mg_version m)) eqn:Em; cbn [negb] in *.
  { by apply IH. }
  cbn [map] in Hnd. apply NoDup_cons in Hnd as [Hm Hnd]. unfold bind at 1.
  destruct (apply_outcome m (mg_sql m) w t Hm0) as (w1 & Hv1 & Hl1 & H1). destruct (bad (mg_sql m)) eqn:Eb.
  - destruct H1 as [e ->]. eexists _, w1, t. split; [done|]. exists [], (m :: List.filter (fun m => negb (mem applied (mg_version m))) l).
    rewrite !app_nil_r. split; [done|]. split; [done|]. split; [done|]. by eexists m, _, e.
  - rewrite H1. unfold bind. destruct (record_outcome (mg_version m) (mg_name m) w1 t) as (w2 & -> & Hv2 & Hl2).
    { rewrite Hv1. apply Hf, list_elem_of_here. }
    destruct (IH w2 (S t) Hnd) as (o & w' & t' & -> & done_ & rest & Hd & Hv & Hl & Ho).
    { intros x Hx. rewrite Hv2, Hv1, mem_app. rewrite Hf by (by right). cbn. rewrite orb_false_r. apply Z.eqb_neq.
      intros Heq. apply Hm. rewrite <- Heq. apply list_elem_of_fmap. by exists x. }
    exists o, w', t'. split; [done|]. exists (m :: done_), rest. rewrite Hd, Hv, Hl, Hv2, Hv1, Hl2, Hl1. cbn [map].
    by rewrite <- !app_assoc.
Qed.

Definition todo (l : list Migration) (w : W) : list Migration := fresh (versions w) (sort_by by_version l).

Lemma filter_map_nodup {A B} (f : A -> B) (p : A -> bool) l : NoDup (map f l) -> NoDup (map f (List.filter p l)).
Proof.
  induction l as [|x l IH]; [done|]. cbn [map List.filter]. intros [Hx Hl]%NoDup_cons.
  destruct (p x); [|by apply IH]. cbn [map]. apply NoDup_cons. split; [|by apply IH]. intros H. apply Hx.
  apply list_elem_of_fmap in H as (y & -> & Hy). apply list_elem_of_In, List.filter_In in Hy as [Hy _].
  apply list_elem_of_fmap. exists y. by rewrite list_elem_of_In.
Qed.

Lemma todo_sorted l w : StronglySorted (fun a b => by_version a b = true) (todo l w).
Proof.
  unfold todo, fresh.
  assert (H : StronglySorted (fun a b => by_version a b = true) (sort_by by_version l)).
  { apply (sort_by_sorted by_version (fun _ => True)); [| |by apply Forall_true].
    - intros x y _ _. unfold by_version. rewrite !Z.leb_le. lia.
    - intros x y z _ _ _. unfold by_version. rewrite !Z.leb_le. lia. }
  revert H. generalize (sort_by by_version l). clear. intros l. induction 1 as [|m l Hs IH Hm]; [constructor|].
  cbn [List.filter]. destruct (negb _); [|done]. constructor; [done|]. rewrite Forall_forall in *. intros x Hx. apply Hm.
  apply list_elem_of_In, List.filter_In in Hx as [Hx _]. by apply list_elem_of_In.
Qed.

(** C26. A run of migrations with distinct versions applies those whose version is not recorded, in the order of their
    versions, records each after its statement succeeded and stops at the first that fails,
    naming it; whatever happened before stays recorded, and after a complete run another
    one sends no migration. *)
Theorem run_applies_pending_in_order l ms w t :
  resolve (dialect_ db) l = Ok ms -> NoDup (map mg_version ms) -> (forall m, m ∈ ms -> ordinary (mg_sql m)) ->
  StronglySorted (fun a b => by_version a b = true) (todo ms w) /\
  exists o w' t', run clock db l (w, t) = (Done o, (w', t')) /\ ran (todo ms w) w w' o /\
    (o = Ok tt -> run clock db l (w', t') = (Done (Ok tt), (w', t'))).
Proof.
  intros Hr Hnd Hord. split; [apply todo_sorted|].
  assert (Hrun : forall w t, run clock db l (w, t) = run_loop clock db (versions w) (sort_by by_version ms) (w, t)).
  { intros w0 t0. unfold run, bind, ret. by rewrite ensure_ok, read_applied_ok, Hr. }
  assert (Hp : sort_by by_version ms ≡ₚ ms) by apply sort_by_perm.
  destruct (run_loop_ran (versions w) (sort_by by_version ms) w t) as (o & w' & t' & E & Hran).
  { intros m Hm. apply Hord. by rewrite Hp in Hm. }
  { apply filter_map_nodup. by rewrite Hp. }
  { intros m Hm. apply list_elem_of_In, List.filter_In in Hm as [_ Hm]. by apply negb_true_iff. }
  exists o, w', t'. rewrite Hrun. split; [done|]. split; [done|]. intros ->. rewrite Hrun.
  destruct Hran as (done_ & rest & Hd & Hv & _ & ->). rewrite app_nil_r in Hd.
  assert (Hall : forall m, m ∈ sort_by by_version ms -> mem (versions w') (mg_version m) = true).
  { intros m Hm. rewrite Hv, mem_app. destruct (mem (versions w) (mg_version m)) eqn:Em; [done|]. apply mem_spec.
    apply list_elem_of_fmap. exists m. split; [done|]. rewrite <- Hd. apply list_elem_of_In, List.filter_In.
    by rewrite Em, <- list_elem_of_In. }
  revert Hall. generalize (sort_by by_version ms) as s. clear. induction s as [|m s IH]; intros H; [done|].
  cbn [run_loop]. rewrite H by apply list_elem_of_here. apply IH. intros x Hx. apply H. by right.
Qed.

(** [down] on a recorded version whose migration has a reverse statement runs that
    statement and forgets the version; without one, or for a version that is not recorded,
    it changes nothing and says so. *)
Theorem down_undoes_a_migration l ms v w t :
  resolve (dialect_ db) l = Ok ms -> (forall m r, m ∈ ms -> reverse_sql m = Some r -> ordinary r) ->
  exists o w' t', down db l v (w, t) = (Done o, (w', t')) /\
    match List.find (fun m => mg_version m =? v) ms with
    | Some m =>
        if mem (versions w) v then
          match reverse_sql m with
          | Some r =>
              if bad r then versions w' = versions w /\ log w' = log w /\ exists e, o = Err (MigrationFailed v (mg_name m) e)
              else versions w' = List.filter (fun x => negb (x =? v)) (versions w) /\ log w' = log w ++ [r] /\ o = Ok tt
          | None => w' = w /\ o = Err (MigrationIrreversible (mg_name m))
          end
        else w' = w /\ o = Err (MigrationNotApplied v)
    | None => w' = w /\ o = Err (MigrationNotApplied v)
    end.
Proof.
  intros Hr Hord. unfold down, bind at 1 2. rewrite ensure_ok, read_applied_ok.
  destruct (mem (versions w) v) eqn:Em; cbn [negb]; [|eexists _, w, t; split; [done|]; by destruct (List.find _ ms)].
  rewrite Hr. unfold bind at 1, ret at 1. destruct (List.find (fun m => mg_version m =? v) ms) as [m|] eqn:Ef.
  - apply List.find_some in Ef as [Hm Hv%Z.eqb_eq]. apply list_elem_of_In in Hm. specialize (Hord m).
    unfold reverse. destruct (reverse_sql m) as [r|].
    + unfold bind at 1, ret at 1. unfold bind at 1. destruct (apply_outcome m r w t (Hord r Hm eq_refl)) as (w1 & Hv1 & Hl1 & H1).
      destruct (bad r).
      * destruct H1 as [e ->]. eexists _, w1, t. split; [done|]. split; [done|]. split; [done|]. rewrite Hv. by exists e.
      * rewrite H1. unfold remove, bind, exec, ret. destruct (version_removed Hdb v w1) as (n & w2 & -> & Hv2 & Hl2).
        exists (Ok tt), w2, t. rewrite Hv2, Hv1, Hl2, Hl1. done.
    + unfold bind at 1, ret at 1. by eexists _, w, t.
  - by eexists _, w, t.
Qed.

(** Two migrations of one version that is not recorded both run; the version is recorded
    once, the run ends with the error of the second record, and the next run takes both
    for applied. *)
Theorem two_migrations_of_one_version l m1 m2 w t :
  resolve (dialect_ db) l = Ok [m1; m2] -> mg_version m1 = mg_version m2 ->
  ordinary (mg_sql m1) -> ordinary (mg_sql m2) -> bad (mg_sql m1) = false -> bad (mg_sql m2) = false ->
  mem (versions w) (mg_version m1) = false ->
  exists e w' t', run clock db l (w, t) = (Done (Err (ERdbms e)), (w', t')) /\
    log w' = log w ++ [mg_sql m1; mg_sql m2] /\ versions w' = versions w ++ [mg_version m1] /\
    run clock db l (w', t') = (Done (Ok tt), (w', t')).
Proof.
  intros Hr Hv Ho1 Ho2 Hb1 Hb2 Hm.
  assert (Hrun : forall w t, run clock db l (w, t) = run_loop clock db (versions w) [m1; m2] (w, t)).
  { intros w0 t0. unfold run, bind, ret. rewrite ensure_ok, read_applied_ok, Hr. unfold sort_by. cbn [foldr insert_sorted].
    unfold by_version. by rewrite Hv, Z.leb_refl. }
  assert (Hall : forall w' t', mem (versions w') (mg_version m1) = true ->
            run clock db l (w', t') = (Done (Ok tt), (w', t'))).
  { intros w' t' Hw. rewrite Hrun. cbn [run_loop]. by rewrite <- Hv, Hw. }
  rewrite Hrun. cbn [run_loop]. rewrite <- Hv, Hm. unfold bind at 1.
  destruct (apply_outcome m1 (mg_sql m1) w t Ho1) as (w1 & Hv1 & Hl1 & H1). rewrite Hb1 in *. rewrite H1.
  unfold bind at 1. destruct (record_outcome (mg_version m1) (mg_name m1) w1 t) as (w2 & -> & Hv2 & Hl2); [by rewrite Hv1|].
  unfold bind at 1. destruct (apply_outcome m2 (mg_sql m2) w2 (S t) Ho2) as (w3 & Hv3 & Hl3 & H3). rewrite Hb2 in *.
  rewrite H3.
  assert (Hw3 : mem (versions w3) (mg_version m1) = true).
  { rewrite Hv3, Hv2, Hv1, mem_app. cbn. by rewrite Z.eqb_refl, orb_true_r. }
  unfold record, bind, now, exec, ret.
  destruct (version_twice Hdb (mg_version m1) (VString (mg_name m2)) (VString (clock (S t))) w3 Hw3) as [e He].
  rewrite He. exists e, w3, (S (S t)). split; [done|].
  rewrite Hl3, Hl2, Hl1, Hv3, Hv2, Hv1, <- app_assoc. split; [done|]. split; [done|]. by apply Hall.
Qed.

End Runs.
End MigrateOrmSpec.

Module MigrateOrmDemo.
Import Rdbms Entity Spec Query Page Crud Ddl Version Migrator MigrateOrmSpec.

#[local] Instance demo_number : JsonNumber := {|
  Number := Z; number_as_i64 n := Some n; number_is_u64 n := true; number_as_f64 _ := None; number_text _ := "" |}.
#[local] Instance demo_int : JsonInt :=
  {| number_of_i64 (n : Z) := n : @Number demo_number; number_of_i64_as _ _ := eq_refl |}.

Definition tick (n : nat) : string := num n.
Definition refuses (sql : string) : bool := String.eqb sql "BROKEN".

(** The versions of the table and the statements run. *)
Definition Db : Type := list Z * list string.

Definition demo_db : RdbmsClient Db unit := {|
  perform_ r w :=
    match r with
    | QueryWith _ _ => (Ok (Rows []), w)
    | Rdbms.Query _ => (Ok (Rows (map (fun v => ({["version" := @VNumber demo_number v]} : gmap string Value)) w.1)), w)
    | Execute sql =>
        if String.eqb sql (create_table_sql VMETA Sqlite) then (Ok (Affected 0), w)
        else if refuses sql then (Err (Database "syntax error"), w) else (Ok (Affected 0), (w.1, w.2 ++ [sql]))
    | ExecuteWith _ [VNumber v; _; _] =>
        if mem w.1 v then (Err (Database "UNIQUE constraint failed"), w) else (Ok (Affected 1), (w.1 ++ [v], w.2))
    | ExecuteWith _ [VNumber v] => (Ok (Affected 1), (List.filter (fun x => negb (x =? v)) w.1, w.2))
    | _ => (Err (Database "unknown statement"), w)
    end;
  begin_ w := (Ok tt, w); replica_lag _ := None; dialect_ := Sqlite |}.

Lemma demo_runs : runs_migrations demo_db fst snd refuses.
Proof.
  split.
  - intros w. by eexists.
  - intros w. cbn [perform_ demo_db]. by rewrite String.eqb_refl.
  - intros w. eexists. split; [done|]. destruct w as [l ss]. cbn [fst]. clear ss. induction l as [|v l IH]; [done|].
    cbn [map read_versions]. unfold read_i64 at 1. rewrite lookup_singleton_eq. cbn [is_null as_i64 number_as_i64 demo_number rbind].
    by rewrite IH.
  - intros sql w Ho. cbn [perform_ demo_db]. destruct (String.eqb_spec sql (create_table_sql VMETA Sqlite)) as [|_]; [done|].
    destruct (refuses sql); [exists w|exists (w.1, w.2 ++ [sql])]; (split; [done|split; [done|by eexists]]).
  - intros v name t w Hm. cbn. rewrite Hm. by eexists _, _.
  - intros v name t w Hm. cbn. rewrite Hm. by eexists.
  - intros v w. by eexists _, _.
Qed.

Definition blank_db : Db := ([], []).

Definition sql_of (s : string) : MigrationBuilder := {| forward _ := s; backward := None |}.
Definition declared : Declared :=
  [("002_posts", sql_of "CREATE posts"); ("001_users", with_reverse (fun _ => "DROP users") (sql_of "CREATE users"));
   ("003_broken", sql_of "BROKEN")].
Definition migrations : list Migration :=
  [{| mg_version := 2; mg_name := "002_posts"; mg_sql := "CREATE posts"; reverse_sql := None |};
   {| mg_version := 1; mg_name := "001_users"; mg_sql := "CREATE users"; reverse_sql := Some "DROP users" |};
   {| mg_version := 3; mg_name := "003_broken"; mg_sql := "BROKEN"; reverse_sql := None |}].

Lemma run_applies_pending_in_order_witness :
  StronglySorted (fun a b => by_version a b = true) (todo fst migrations blank_db) /\
  exists o w' t', run tick demo_db declared (blank_db, 0%nat) = (Done o, (w', t')) /\
    ran fst snd refuses (todo fst migrations blank_db) blank_db w' o /\
    (o = Ok tt -> run tick demo_db declared (w', t') = (Done (Ok tt), (w', t'))).
Proof.
  apply (run_applies_pending_in_order tick demo_db fst snd refuses demo_runs declared migrations blank_db 0%nat).
  - reflexivity.
  - repeat constructor; set_solver.
  - intros m Hm. repeat (apply elem_of_cons in Hm as [->|Hm]; [discriminate|]). by apply not_elem_of_nil in Hm.
Defined.

Lemma down_undoes_a_migration_witness :
  exists o w' t', down demo_db declared 1 (([1; 2], []), 0%nat) = (Done o, (w', t')) /\
    w'.1 = [2] /\ w'.2 = ["DROP users"] /\ o = Ok tt.
Proof.
  apply (down_undoes_a_migration demo_db fst snd refuses demo_runs declared migrations 1 ([1; 2], []) 0%nat); [reflexivity|].
  intros m r Hm. repeat (apply elem_of_cons in Hm as [->|Hm]; [by intros [= <-]|]). by apply not_elem_of_nil in Hm.
Defined.

Lemma two_migrations_of_one_version_witness :
  exists e w' t', run tick demo_db [("001_a", sql_of "A"); ("001_b", sql_of "B")] (blank_db, 0%nat)
    = (Done (Err (ERdbms e)), (w', t')) /\
    w'.2 = ["A"; "B"] /\ w'.1 = [1] /\
    run tick demo_db [("001_a", sql_of "A"); ("001_b", sql_of "B")] (w', t') = (Done (Ok tt), (w', t')).
Proof.
  apply (two_migrations_of_one_version tick demo_db fst snd refuses demo_runs [("001_a", sql_of "A"); ("001_b", sql_of "B")]
           {| mg_version := 1; mg_name := "001_a"; mg_sql := "A"; reverse_sql := None |}
           {| mg_version := 1; mg_name := "001_b"; mg_sql := "B"; reverse_sql := None |} blank_db 0%nat);
    first [reflexivity|discriminate].
Defined.

End MigrateOrmDemo.
