(* ===== verification/OrmValue.v ===== *)
(** * Column values ([ecat-orm])

    [src/ecat-orm/src/value.rs]: how a field is written as JSON and read back, one instance
    of [ColumnValue] per Rust type.  Numbers, base64 and the texts of timestamps and dates
    are operations of third-party crates ([JsonScalars], [ColumnTexts]). *)

From Stdlib Require Import DecimalString DecimalN.
From S2P Require Import Prelude Json Rdbms OrmDialect OrmCrud.

Local Open Scope Z_scope.
Local Open Scope ecat_scope.

Module ColumnValues.
Import Entity.

(** [f64::is_finite]. *)
Definition is_finite (x : f64) : bool := match x with S754_nan | S754_infinity _ => false | _ => true end.

(** [serde_json::Number] from and to floats. *)
Class JsonScalars `{JI : JsonInt} := {
  number_of_f64 : f64 -> option Number;
  number_of_f64_finite x : is_finite x = true ->
    exists n, number_of_f64 x = Some n /\ number_as_f64 n = Some x;
}.

(** base64, [time]'s RFC 3339 and dates; texts of what was written read back. *)
Class ColumnTexts := {
  Timestamp : Type;
  Date : Type;
  base64_encode : list Z -> string;
  base64_decode : string -> option (list Z);
  base64_roundtrip b : base64_decode (base64_encode b) = Some b;
  to_rfc3339_utc : Timestamp -> string;
  parse_rfc3339 : string -> option Timestamp;
  rfc3339_roundtrip t : parse_rfc3339 (to_rfc3339_utc t) = Some t;
  to_date_string : Date -> string;
  parse_date : string -> option Date;
  date_roundtrip d : parse_date (to_date_string d) = Some d;
}.

Section Values.
Context `{JS : JsonScalars} {CT : ColumnTexts}.

Class ColumnValue (T : Type) := {
  COL_TYPE : ColType;
  NULLABLE : bool;
  to_json : T -> Value;
  from_json : string -> Value -> result T OrmError;
}.

Definition from_row_col {T} `{ColumnValue T} (r : Row) (c : string) : result T OrmError :=
  match (r : gmap string Value) !! c with
  | None => Err (UnknownColumn c)
  | Some v => if is_null v && negb NULLABLE then Err (UnexpectedNull c) else from_json c v
  end.

Definition mismatch {T} (c expected : string) : result T OrmError := Err (TypeMismatch c expected).

(** [int_col!]: an integer of [w] bits. *)
Record Int (w : Z) := { int_value : Z; int_range : bool_decide (- 2 ^ (w - 1) <= int_value < 2 ^ (w - 1)) = true }.
Arguments int_value {w}.

Definition try_from (w n : Z) : option (Int w) :=
  match bool_decide (- 2 ^ (w - 1) <= n < 2 ^ (w - 1)) as b return
        bool_decide (- 2 ^ (w - 1) <= n < 2 ^ (w - 1)) = b -> option (Int w) with
  | true => fun H => Some {| int_value := n; int_range := H |}
  | false => fun _ => None
  end eq_refl.

Definition int_from_json (w : Z) (expected c : string) (v : Value) : result (Int w) OrmError :=
  match as_i64 v with
  | Some n => match try_from w n with Some x => Ok x | None => mismatch c expected end
  | None => mismatch c expected
  end.

#[export] Instance column_i64 : ColumnValue (Int 64) := {|
  COL_TYPE := I64; NULLABLE := false;
  to_json x := VNumber (number_of_i64 (int_value x)); from_json := int_from_json 64 "i64" |}.

#[export] Instance column_i32 : ColumnValue (Int 32) := {|
  COL_TYPE := I32; NULLABLE := false;
  to_json x := VNumber (number_of_i64 (int_value x)); from_json := int_from_json 32 "i32" |}.

Definition f64_to_json (x : f64) : Value :=
  match x with
  | S754_nan => VString "NaN"
  | S754_infinity neg => VString (if neg then "-Infinity" else "Infinity")
  | x => match number_of_f64 x with Some n => VNumber n | None => VNull end
  end.

Definition f64_from_json (c : string) (v : Value) : result f64 OrmError :=
  match v with
  | VNumber n => match number_as_f64 n with Some x => Ok x | None => mismatch c "f64" end
  | VString s =>
      if String.eqb s "NaN" then Ok S754_nan
      else if String.eqb s "Infinity" || String.eqb s "inf" then Ok (S754_infinity false)
      else if String.eqb s "-Infinity" || String.eqb s "-inf" then Ok (S754_infinity true)
      else mismatch c "f64"
  | _ => mismatch c "f64"
  end.

#[export] Instance column_f64 : ColumnValue f64 :=
  {| COL_TYPE := F64; NULLABLE := false; to_json := f64_to_json; from_json := f64_from_json |}.

Definition bool_from_json (c : string) (v : Value) : result bool OrmError :=
  match v with
  | VBool b => Ok b
  | VNumber n => match number_as_i64 n with Some i => Ok (negb (i =? 0)) | None => mismatch c "bool" end
  | _ => mismatch c "bool"
  end.

#[export] Instance column_bool : ColumnValue bool :=
  {| COL_TYPE := Bool_; NULLABLE := false; to_json := VBool; from_json := bool_from_json |}.

(** A value written as text. *)
Definition text_from_json {T} (parse : string -> option T) (expected c : string) (v : Value) : result T OrmError :=
  match as_str v with
  | Some s => match parse s with Some x => Ok x | None => mismatch c expected end
  | None => mismatch c expected
  end.

#[export] Instance column_string : ColumnValue string :=
  {| COL_TYPE := Text_; NULLABLE := false; to_json := VString; from_json := text_from_json Some "string" |}.

#[export] Instance column_bytes : ColumnValue (list Z) := {|
  COL_TYPE := Bytes_; NULLABLE := false; to_json b := VString (base64_encode b);
  from_json := text_from_json base64_decode "base64 bytes" |}.

(** Texts that do not parse are database errors. *)
Definition parsed_from_json {T} (parse : string -> option T) (expected : string) (invalid : string -> string) (c : string)
    (v : Value) : result T OrmError :=
  match as_str v with
  | Some s => match parse s with Some x => Ok x | None => db_error (invalid s) end
  | None => mismatch c expected
  end.

#[export] Instance column_timestamp : ColumnValue Timestamp := {|
  COL_TYPE := Timestamp_; NULLABLE := false; to_json t := VString (to_rfc3339_utc t);
  from_json := parsed_from_json parse_rfc3339 "RFC3339 timestamp string" (fun s => "invalid RFC3339 timestamp `" +:+ s +:+ "`") |}.

#[export] Instance column_date : ColumnValue Date := {|
  COL_TYPE := Date_; NULLABLE := false; to_json d := VString (to_date_string d);
  from_json := parsed_from_json parse_date "YYYY-MM-DD date string"
                 (fun s => "invalid date `" +:+ s +:+ "` (expected YYYY-MM-DD)") |}.

#[export] Instance column_option {T} `{CV : ColumnValue T} : ColumnValue (option T) := {|
  COL_TYPE := COL_TYPE; NULLABLE := true;
  to_json x := match x with Some x => to_json x | None => VNull end;
  from_json c v := if is_null v then Ok None else let? x := from_json c v in Ok (Some x) |}.

(** *** What is written reads back *)

Class RoundTrip (T : Type) `{CV : ColumnValue T} := {
  roundtrip c x : from_json c (to_json x) = Ok x;
  not_null x : NULLABLE = false -> is_null (to_json x) = false;
}.

Lemma try_from_value w (x : Int w) : try_from w (int_value x) = Some x.
Proof.
  destruct x as [n H]. unfold try_from. cbn [int_value].
  generalize (eq_refl (bool_decide (- 2 ^ (w - 1) <= n < 2 ^ (w - 1)))).
  generalize (bool_decide (- 2 ^ (w - 1) <= n < 2 ^ (w - 1))) at 2 3. intros [] H'; [|congruence].
  do 2 f_equal. apply Eqdep_dec.UIP_dec. apply Bool.bool_dec.
Qed.

Lemma try_from_out w n : ~ - 2 ^ (w - 1) <= n < 2 ^ (w - 1) -> try_from w n = None.
Proof.
  intros H. unfold try_from. generalize (eq_refl (bool_decide (- 2 ^ (w - 1) <= n < 2 ^ (w - 1)))).
  generalize (bool_decide (- 2 ^ (w - 1) <= n < 2 ^ (w - 1))) at 2 3. intros [] H'; [|done].
  exfalso. apply H. exact (bool_decide_eq_true_1 _ H').
Qed.

Lemma int_roundtrip w e c (x : Int w) : 0 < w <= 64 -> int_from_json w e c (VNumber (number_of_i64 (int_value x))) = Ok x.
Proof.
  intros Hw. unfold int_from_json. cbn [as_i64]. rewrite number_of_i64_as; [by rewrite try_from_value|].
  pose proof (bool_decide_eq_true_1 _ (int_range w x)) as H. unfold in_i64.
  assert (2 ^ (w - 1) <= 2 ^ 63) by (apply Z.pow_le_mono_r; lia). lia.
Qed.

#[export] Instance roundtrip_i64 : RoundTrip (Int 64).
Proof. split; [|done]. intros c x. by apply int_roundtrip. Qed.

#[export] Instance roundtrip_i32 : RoundTrip (Int 32).
Proof. split; [|done]. intros c x. by apply int_roundtrip. Qed.

#[export] Instance roundtrip_f64 : RoundTrip f64.
Proof.
  split.
  - intros c [b|[]| |b m e]; cbn [to_json column_f64 f64_to_json]; try done.
    + destruct (number_of_f64_finite (S754_zero b) eq_refl) as (n & -> & Hn). cbn. by rewrite Hn.
    + destruct (number_of_f64_finite (S754_finite b m e) eq_refl) as (n & -> & Hn). cbn. by rewrite Hn.
  - intros [b|[]| |b m e] _; cbn [to_json column_f64 f64_to_json]; try done.
    + by destruct (number_of_f64_finite (S754_zero b) eq_refl) as (n & -> & _).
    + by destruct (number_of_f64_finite (S754_finite b m e) eq_refl) as (n & -> & _).
Qed.

#[export] Instance roundtrip_bool : RoundTrip bool.
Proof. by split. Qed.

#[export] Instance roundtrip_string : RoundTrip string.
Proof. by split. Qed.

#[export] Instance roundtrip_bytes : RoundTrip (list Z).
Proof. split; [|done]. intros c x. cbn. unfold text_from_json. cbn [as_str]. by rewrite base64_roundtrip. Qed.

#[export] Instance roundtrip_timestamp : RoundTrip Timestamp.
Proof. split; [|done]. intros c x. cbn. unfold parsed_from_json. cbn [as_str]. by rewrite rfc3339_roundtrip. Qed.

#[export] Instance roundtrip_date : RoundTrip Date.
Proof. split; [|done]. intros c x. cbn. unfold parsed_from_json. cbn [as_str]. by rewrite date_roundtrip. Qed.

(** A column written from a field of any supported type reads back as the field, and
    as an option of it, where NULL reads back as nothing; a NULL in a column that may not
    be NULL, a missing column and an integer outside its width are told apart from values. *)
Theorem stored_column_reads_back {T} `{RT : RoundTrip T} (r : Row) c (x : T) :
  NULLABLE (T:=T) = false ->
  from_row_col (<[c := to_json x]> (r : gmap string Value)) c = Ok x /\
  from_row_col (<[c := to_json (Some x)]> (r : gmap string Value)) c = Ok (Some x) /\
  from_row_col (T:=option T) (<[c := VNull]> (r : gmap string Value)) c = Ok None /\
  from_row_col (T:=T) (<[c := VNull]> (r : gmap string Value)) c = Err (UnexpectedNull c) /\
  from_row_col (T:=T) (delete c (r : gmap string Value)) c = Err (UnknownColumn c) /\
  forall n, in_i64 n -> ~ - 2 ^ 31 <= n < 2 ^ 31 ->
    from_row_col (T:=Int 32) (<[c := VNumber (number_of_i64 n)]> (r : gmap string Value)) c = Err (TypeMismatch c "i32").
Proof.
  intros Hn. unfold from_row_col. rewrite !lookup_insert_eq, lookup_delete_eq. cbn [NULLABLE column_option negb].
  rewrite (not_null x Hn), roundtrip, Hn. cbn [andb negb is_null]. rewrite andb_false_r.
  split; [done|]. split; [|split; [done|split; [done|split; [done|]]]].
  - cbn [from_json to_json column_option]. by rewrite (not_null x Hn), roundtrip.
  - intros n Hi Ho. rewrite lookup_insert_eq. cbn [is_null andb from_json column_i32].
    unfold int_from_json. cbn [as_i64]. rewrite number_of_i64_as by done. by rewrite try_from_out.
Qed.

End Values.
End ColumnValues.

Module ColumnDemo.
Import Entity ColumnValues.

#[local] Instance demo_number : JsonNumber := {|
  Number := Z + f64; number_as_i64 n := match n with inl z => Some z | inr _ => None end;
  number_is_u64 n := true; number_as_f64 n := match n with inl _ => None | inr x => Some x end; number_text _ := "" |}.
#[local] Instance demo_int : JsonInt :=
  {| number_of_i64 (n : Z) := inl n : @Number demo_number; number_of_i64_as _ _ := eq_refl |}.

Lemma demo_finite (x : f64) :
  is_finite x = true -> exists n : @Number demo_number, Some (inr x : @Number demo_number) = Some n /\ number_as_f64 n = Some x.
Proof. intros _. by exists (inr x). Qed.

#[local] Instance demo_scalars : JsonScalars :=
  {| number_of_f64 x := Some (inr x : @Number demo_number); number_of_f64_finite := demo_finite |}.

(** Bytes as the decimal text of their code. *)
Definition demo_encode (b : list Z) : string := DecimalString.NilZero.string_of_uint (N.to_uint (Npos (encode b))).
Definition demo_decode (s : string) : option (list Z) :=
  match DecimalString.NilZero.uint_of_string s with
  | Some d => match N.of_uint d with Npos p => decode p | N0 => None end
  | None => None
  end.

Lemma demo_roundtrip b : demo_decode (demo_encode b) = Some b.
Proof.
  unfold demo_decode, demo_encode. rewrite DecimalString.NilZero.usu, DecimalN.Unsigned.of_to; [apply decode_encode|].
  intros H. pose proof (DecimalN.Unsigned.of_to (Npos (encode b))) as Hn. by rewrite H in Hn.
Qed.

#[local] Instance demo_texts : ColumnTexts := {|
  Timestamp := string; Date := string;
  base64_encode := demo_encode; base64_decode := demo_decode; base64_roundtrip := demo_roundtrip;
  to_rfc3339_utc t := t; parse_rfc3339 s := Some s; rfc3339_roundtrip _ := eq_refl;
  to_date_string d := d; parse_date s := Some s; date_roundtrip _ := eq_refl |}.

Definition empty_row : Row := (∅ : gmap string Value).

Lemma stored_column_reads_back_witness :
  from_row_col (<[ "blob" := to_json [1; 2; 255] ]> (empty_row : gmap string Value)) "blob" = Ok [1; 2; 255] /\
  from_row_col (<[ "blob" := to_json (Some [1; 2; 255]) ]> (empty_row : gmap string Value)) "blob" = Ok (Some [1; 2; 255]) /\
  from_row_col (T:=option (list Z)) (<[ "blob" := VNull ]> (empty_row : gmap string Value)) "blob" = Ok None /\
  from_row_col (T:=list Z) (<[ "blob" := VNull ]> (empty_row : gmap string Value)) "blob" = Err (UnexpectedNull "blob") /\
  from_row_col (T:=list Z) (delete "blob" (empty_row : gmap string Value)) "blob" = Err (UnknownColumn "blob") /\
  forall n, in_i64 n -> ~ - 2 ^ 31 <= n < 2 ^ 31 ->
    from_row_col (T:=Int 32) (<[ "blob" := VNumber (number_of_i64 n) ]> (empty_row : gmap string Value)) "blob"
    = Err (TypeMismatch "blob" "i32").
Proof. apply (stored_column_reads_back (T:=list Z) empty_row "blob" [1; 2; 255]). reflexivity. Defined.

End ColumnDemo.
