(* ===== verification/GraphQL.v ===== *)
(** * The GraphQL front end ([ecat-graphql])

    [src/ecat-graphql/src/parser/mod.rs] and [parser/strings.rs] ([Module Parser]: the
    hand-written parser), [validation.rs] and [lib.rs] ([Module Exec]: the query budget
    and the execution of one field).

    A position [(b, i)] of the code is the rest of the input from [i] on; a slice
    [&b[start..i]] is what was read between two rests.  Recursion is bounded by the depth
    ([k] levels are left, [S MAX_DEPTH] at the top); a loop over the input carries fuel
    and ends with [NoFuel] if it runs out, which [GraphQLSpec] proves it does not.  A map
    is the list of its entries. *)

From S2P Require Import Prelude Json Text.

Local Open Scope Z_scope.
Local Open Scope ecat_scope.

Module Parser.

(** What [serde_json] parses. *)
Class GraphJson `{JN : JsonNumber} := {
  json_of_slice : list Z -> result Value string;
}.

Definition MAX_DEPTH : nat := 32.

Inductive Operation := OpQuery | OpMutation | OpSubscription.

Inductive perror := Msg (m : string) | NoFuel.

Definition msg {A} (m : string) : result A perror := Err (Msg m).

(** *** Characters *)

Definition is_space (b : Z) : bool :=
  (b =? 32) || (b =? 9) || (b =? 10) || (b =? 12) || (b =? 13).
Definition is_digit (b : Z) : bool := between 48 b 57.
Definition is_ident_byte (b : Z) : bool :=
  between 65 b 90 || between 97 b 122 || is_digit b || (b =? 95).
Definition is_quote (b : Z) : bool := (b =? 34) || (b =? 39).

(** What was read between two rests. *)
Definition slice (from to : list Z) : list Z := take (length from - length to) from.

(** *** Skipping *)

(** To the end of the line of a comment, which stays. *)
Fixpoint skip_comment (b : list Z) : list Z :=
  match b with
  | [] => []
  | x :: b' => if x =? 10 then b else skip_comment b'
  end.

(** White space and comments; [comment] while in one. *)
Fixpoint skip_ws_in (comment : bool) (b : list Z) : list Z :=
  match b with
  | [] => []
  | x :: b' =>
      if comment then (if x =? 10 then skip_ws_in false b' else skip_ws_in true b')
      else if x =? 35 then skip_ws_in true b'
      else if is_space x then skip_ws_in false b'
      else b
  end.
Definition skip_ws (b : list Z) : list Z := skip_ws_in false b.

Fixpoint skip_ident (b : list Z) : list Z :=
  match b with
  | x :: b' => if is_ident_byte x then skip_ident b' else b
  | [] => []
  end.

Definition unterminated {A} : result A perror := msg "unterminated string literal".

(** The body of a block string; [quote] is its quote. *)
Fixpoint skip_block (quote : Z) (b : list Z) : result (list Z) perror :=
  match b with
  | [] => unterminated
  | x :: b1 =>
      if x =? quote then
        match b1 with
        | y :: z :: b3 => if (y =? quote) && (z =? quote) then Ok b3 else skip_block quote b1
        | _ => skip_block quote b1
        end
      else skip_block quote b1
  end.

(** The body of a string. *)
Fixpoint skip_body (quote : Z) (b : list Z) : result (list Z) perror :=
  match b with
  | [] => unterminated
  | x :: b1 =>
      if x =? 92 then match b1 with [] => unterminated | _ :: b2 => skip_body quote b2 end
      else if x =? quote then Ok b1
      else skip_body quote b1
  end.

(** From the opening quote on. *)
Definition skip_string (b : list Z) : result (list Z) perror :=
  match b with
  | [] => unterminated
  | quote :: b1 =>
      match b1 with
      | x :: y :: b3 => if (x =? quote) && (y =? quote) then skip_block quote b3 else skip_body quote b1
      | _ => skip_body quote b1
      end
  end.

(** A balanced group: to the closing byte that brings the depth back to zero. *)
Fixpoint skip_group (fuel : nat) (what : string) (open close : Z) (depth : nat) (b : list Z)
    : result (list Z) perror :=
  match fuel with
  | O => Err NoFuel
  | S fuel =>
      match b with
      | [] => msg what
      | x :: b' =>
          if x =? open then skip_group fuel what open close (S depth) b'
          else if x =? close then
            match depth with
            | S (S d) => skip_group fuel what open close (S d) b'
            | _ => Ok b'
            end
          else if is_quote x then let? b' := skip_string b in skip_group fuel what open close depth b'
          else skip_group fuel what open close depth b'
      end
  end.

Definition skip_parens (b : list Z) : result (list Z) perror :=
  skip_group (S (length b)) "unbalanced parentheses" 40 41 0 b.

Definition skip_balanced (open close : Z) (b : list Z) : result (list Z) perror :=
  skip_group (S (length b)) "unbalanced value group" open close 0 b.

Definition skip_directive (b : list Z) : result (list Z) perror :=
  match b with
  | [] => Ok []
  | _ :: b =>
      let b := skip_ws (skip_ident b) in
      match b with x :: _ => if x =? 40 then skip_parens b else Ok b | [] => Ok b end
  end.

(** *** Strings *)

Definition hex_value (b : Z) : option Z :=
  if is_digit b then Some (b - 48)
  else if between 65 b 70 then Some (b - 55)
  else if between 97 b 102 then Some (b - 87)
  else None.

Fixpoint hex_number (acc : Z) (l : list Z) : option Z :=
  match l with
  | [] => Some acc
  | b :: l => match hex_value b with Some v => hex_number (16 * acc + v) l | None => None end
  end.

(** [u32::from_str_radix(_, 16)]: an optional plus sign, at least one digit. *)
Definition from_hex (l : list Z) : option Z :=
  match l with
  | [] => None
  | b :: l' => if b =? 43 then match l' with [] => None | _ => hex_number 0 l' end else hex_number 0 l
  end.

(** [char::encode_utf8]; [None] for a surrogate or beyond Unicode. *)
Definition encode_utf8 (c : Z) : option (list Z) :=
  if between 55296 c 57343 || (1114111 <? c) then None
  else if c <? 128 then Some [c]
  else if c <? 2048 then Some [192 + c / 64; 128 + c mod 64]
  else if c <? 65536 then Some [224 + c / 4096; 128 + (c / 64) mod 64; 128 + c mod 64]
  else Some [240 + c / 262144; 128 + (c / 4096) mod 64; 128 + (c / 64) mod 64; 128 + c mod 64].

Definition simple_escape (b : Z) : option Z :=
  if b =? 92 then Some 92 else if b =? 34 then Some 34 else if b =? 39 then Some 39
  else if b =? 110 then Some 10 else if b =? 116 then Some 9 else if b =? 114 then Some 13
  else if b =? 98 then Some 8 else if b =? 102 then Some 12 else None.

Definition bad_unicode {A} : result A perror := msg "invalid unicode escape".

(** The characters of a single-quoted string. *)
Fixpoint unescape (l : list Z) : result (list Z) perror :=
  match l with
  | [] => Ok []
  | c :: l1 =>
      if negb (c =? 92) then let? r := unescape l1 in Ok (c :: r)
      else
        match l1 with
        | [] => msg "invalid escape in string literal"
        | e :: l2 =>
            match simple_escape e with
            | Some x => let? r := unescape l2 in Ok (x :: r)
            | None =>
                if e =? 117 then
                  match l2 with
                  | h1 :: h2 :: h3 :: h4 :: l6 =>
                      match from_hex [h1; h2; h3; h4] ≫= encode_utf8 with
                      | Some enc => let? r := unescape l6 in Ok (enc ++ r)
                      | None => bad_unicode
                      end
                  | _ => bad_unicode
                  end
                else msg "invalid escape in string literal"
            end
        end
  end.

Section Values.
Context `{GJ : GraphJson}.

(** [from_utf8_lossy] of UTF-8 is the text itself. *)
Definition parse_string_literal (token : list Z) : result Value perror :=
  match token with
  | q :: rest =>
      if q =? 34 then map_err (fun e => Msg ("invalid string literal: " +:+ e)) (json_of_slice token)
      else let? out := unescape (take (length rest - 1) rest) in Ok (VString (of_bytes out))
  | [] => unterminated
  end.

(** *** Values *)

(** Cutting at the commas outside groups and strings; [cur] is the current part, reversed. *)
Fixpoint split_top_level (fuel : nat) (round square curly : nat) (cur b : list Z) : result (list (list Z)) perror :=
  match fuel with
  | O => Err NoFuel
  | S fuel =>
      match b with
      | [] => Ok [reverse cur]
      | x :: b' =>
          if is_quote x then
            let rest := match skip_string b with Ok r => r | Err _ => [] end in
            split_top_level fuel round square curly (reverse (slice b rest) ++ cur) rest
          else if x =? 40 then split_top_level fuel (S round) square curly (x :: cur) b'
          else if x =? 41 then split_top_level fuel (pred round) square curly (x :: cur) b'
          else if x =? 91 then split_top_level fuel round (S square) curly (x :: cur) b'
          else if x =? 93 then split_top_level fuel round (pred square) curly (x :: cur) b'
          else if x =? 123 then split_top_level fuel round square (S curly) (x :: cur) b'
          else if x =? 125 then split_top_level fuel round square (pred curly) (x :: cur) b'
          else if (x =? 44) && Nat.eqb round 0 && Nat.eqb square 0 && Nat.eqb curly 0
          then let? parts := split_top_level fuel round square curly [] b' in Ok (reverse cur :: parts)
          else split_top_level fuel round square curly (x :: cur) b'
      end
  end.

(** The inside of a group. *)
Definition inside (raw : list Z) : list Z := take (length raw - 2) (drop 1 raw).

Definition parts_of (raw : list Z) : result (list (list Z)) perror :=
  split_top_level (S (length raw)) 0 0 0 [] (inside raw).

Fixpoint skip_token (b : list Z) : list Z :=
  match b with
  | x :: b' =>
      if is_space x || (x =? 44) || (x =? 41) || (x =? 93) || (x =? 125) then b else skip_token b'
  | [] => []
  end.

(** Numbers, [true], [false], [null]; a bare word is an enum value, a string. *)
Definition parse_literal (token : list Z) : result Value perror :=
  match json_of_slice token with
  | Ok v => Ok v
  | Err _ =>
      if forallb is_ident_byte token
         && negb (match token with c :: _ => is_digit c | [] => false end)
      then Ok (VString (of_bytes token))
      else msg ("invalid value '" +:+ of_bytes token +:+ "'")
  end.

Fixpoint lookup_key {A} (name : string) (l : list (string * A)) : option A :=
  match l with
  | [] => None
  | (k, v) :: l => if String.eqb k name then Some v else lookup_key name l
  end.

Definition lookup_variable (variables : Value) (name : string) : result Value perror :=
  match variables with
  | VObject m => match lookup_key name m with
                 | Some v => Ok v
                 | None => msg ("variable '" +:+ name +:+ "' is not provided")
                 end
  | _ => msg ("variable '" +:+ name +:+ "' is not provided")
  end.

Definition duplicate {A} (name : string) : result A perror := msg ("duplicate argument '" +:+ name +:+ "'").

Definition is_blank_part (item : list Z) : bool := forallb is_space item.

(** The parser of the values one level down. *)
Definition value_parser : Type := list Z -> result (Value * list Z) perror.

Fixpoint parse_items (value : value_parser) (items : list (list Z)) : result (list Value) perror :=
  match items with
  | [] => Ok []
  | item :: items =>
      if is_blank_part item then parse_items value items
      else
        let? (v, _) := value item in
        let? rest := parse_items value items in
        Ok (v :: rest)
  end.

Definition quoted_name {A} : result A perror := msg "quoted field names in input objects not supported".

Fixpoint parse_members (value : value_parser) (map : list (string * Value)) (items : list (list Z))
    : result (list (string * Value)) perror :=
  match items with
  | [] => Ok map
  | item :: items =>
      if is_blank_part item then parse_members value map items
      else
        let b := skip_ws item in
        let rest := skip_ident b in
        let name := of_bytes (slice b rest) in
        if Nat.eqb (length rest) (length b) then
          match b with
          | x :: _ => if is_quote x then quoted_name else msg "expected field name in input object"
          | [] => msg "expected field name in input object"
          end
        else
          match skip_ws rest with
          | x :: rest =>
              if x =? 58 then
                let? (v, _) := value rest in
                match lookup_key name map with
                | Some _ => duplicate name
                | None => parse_members value (map ++ [(name, v)]) items
                end
              else msg ("expected ':' after '" +:+ name +:+ "' in input object")
          | [] => msg ("expected ':' after '" +:+ name +:+ "' in input object")
          end
  end.

Definition too_deep {A} : result A perror := msg "selection too deep".

Fixpoint parse_value (k : nat) (variables : Value) (b : list Z) : result (Value * list Z) perror :=
  match k with
  | O => too_deep
  | S k =>
      let b := skip_ws b in
      match b with
      | [] => msg "expected value"
      | x :: b1 =>
          if is_quote x then
            match b1 with
            | y :: z :: _ =>
                if (y =? x) && (z =? x) then msg "block string value not supported"
                else let? rest := skip_string b in
                     let? v := parse_string_literal (slice b rest) in Ok (v, rest)
            | _ => let? rest := skip_string b in
                   let? v := parse_string_literal (slice b rest) in Ok (v, rest)
            end
          else if x =? 91 then
            let? rest := skip_balanced 91 93 b in
            let? items := parts_of (slice b rest) in
            let? vs := parse_items (parse_value k variables) items in
            Ok (VArray vs, rest)
          else if x =? 123 then
            let? rest := skip_balanced 123 125 b in
            let? items := parts_of (slice b rest) in
            let? ms := parse_members (parse_value k variables) [] items in
            Ok (VObject ms, rest)
          else if x =? 36 then
            let rest := skip_ident b1 in
            let? v := lookup_variable variables (of_bytes (slice b1 rest)) in Ok (v, rest)
          else
            let rest := skip_token b in
            let? v := parse_literal (slice b rest) in Ok (v, rest)
      end
  end.

(** *** Arguments *)

Fixpoint args_loop (fuel : nat) (value : value_parser) (args : list (string * Value)) (b : list Z)
    : result (list (string * Value)) perror :=
  match fuel with
  | O => Err NoFuel
  | S fuel =>
      let b := skip_ws b in
      match b with
      | [] => msg "expected ')' in arguments"
      | x :: _ =>
          if x =? 41 then Ok args
          else
            let rest := skip_ident b in
            if Nat.eqb (length rest) (length b) then msg "expected argument name"
            else
              let name := of_bytes (slice b rest) in
              match skip_ws rest with
              | y :: rest =>
                  if y =? 58 then
                    let? (v, rest) := value (skip_ws rest) in
                    match lookup_key name args with
                    | Some _ => duplicate name
                    | None =>
                        let rest := skip_ws rest in
                        args_loop fuel value (args ++ [(name, v)])
                          (match rest with z :: rest' => if z =? 44 then rest' else rest | [] => rest end)
                    end
                  else msg ("expected ':' after argument '" +:+ name +:+ "'")
              | [] => msg ("expected ':' after argument '" +:+ name +:+ "'")
              end
      end
  end.

Definition parse_args (value : value_parser) (raw : list Z) : result (list (string * Value)) perror :=
  match skip_ws raw with
  | x :: b => if x =? 40 then args_loop (S (length raw)) value [] b else msg "expected '(' in arguments"
  | [] => msg "expected '(' in arguments"
  end.

(** *** Fields *)

Inductive FieldNode := Node (args : list (string * Value)) (selection : option (list (string * FieldNode))).

Abbreviation SelectionSet := (list (string * FieldNode)).

Record ParsedField := {
  operation : Operation;
  f_name : string;
  f_args : list (string * Value);
  f_selection : option SelectionSet;
}.

(** [HashMap::insert]. *)
Fixpoint insert_key {A} (name : string) (v : A) (l : list (string * A)) : list (string * A) :=
  match l with
  | [] => [(name, v)]
  | (k, w) :: l => if String.eqb k name then (k, v) :: l else (k, w) :: insert_key name v l
  end.

Fixpoint skip_directives (fuel : nat) (b : list Z) : result (list Z) perror :=
  match fuel with
  | O => Err NoFuel
  | S fuel =>
      match b with
      | x :: _ => if x =? 64 then let? b := skip_directive b in skip_directives fuel (skip_ws b) else Ok b
      | [] => Ok b
      end
  end.

(** The parser of a selection set from its brace on. *)
Definition set_parser : Type := list Z -> result (SelectionSet * list Z) perror.

(** One field with its node; [value] and [set] parse one level's values and the selection
    below. *)
Definition parse_field (value : value_parser) (set : set_parser) (b : list Z)
    : result (string * list (string * Value) * option SelectionSet * list Z) perror :=
  let b := skip_ws b in
  let rest := skip_ident b in
  if Nat.eqb (length rest) (length b) then msg "expected field name"
  else
    let name := of_bytes (slice b rest) in
    let b := skip_ws rest in
    if match b with x :: _ => x =? 58 | [] => false end then msg "aliases not supported"
    else
      let? (args, b) :=
        (if match b with x :: _ => x =? 40 | [] => false end
         then let? rest := skip_parens b in
              let? args := parse_args value (slice b rest) in
              Ok (args, skip_ws rest)
         else Ok ([], b)) in
      let? b := skip_directives (S (length b)) b in
      if match b with x :: _ => x =? 123 | [] => false end
      then let? (s, b) := set b in Ok (name, args, Some s, b)
      else Ok (name, args, None, b).

Definition no_spread {A} : result A perror := msg "fragment spreads are not supported".

(** The fields of a selection up to its closing brace. *)
Fixpoint fields_loop (fuel : nat) (value : value_parser) (set : set_parser) (acc : SelectionSet) (b : list Z)
    : result (SelectionSet * list Z) perror :=
  match fuel with
  | O => Err NoFuel
  | S fuel =>
      match b with
      | [] => msg "expected '}'"
      | x :: b' =>
          if x =? 125 then Ok (acc, b')
          else if x =? 46 then no_spread
          else
            let? (name, args, sel, b) := parse_field value set b in
            fields_loop fuel value set (insert_key name (Node args sel) acc) (skip_ws b)
      end
  end.

(** [depth] levels in: the fields of the set and their values have [k] levels left,
    their selections one less. *)
Fixpoint parse_selection_set (k : nat) (variables : Value) (b : list Z) : result (SelectionSet * list Z) perror :=
  match k with
  | O => too_deep
  | S k' =>
      let b := skip_ws (drop 1 b) in
      match b with
      | [] => msg "empty selection set"
      | x :: _ =>
          if x =? 125 then msg "empty selection set"
          else fields_loop (S (length b)) (parse_value k variables) (parse_selection_set k' variables) [] b
      end
  end.

(** *** A query *)

Fixpoint starts_with (kw b : list Z) : option (list Z) :=
  match kw, b with
  | [], _ => Some b
  | x :: kw, y :: b => if x =? y then starts_with kw b else None
  | _, [] => None
  end.

(** The keyword, if it ends there. *)
Definition keyword (kw : string) (b : list Z) : option (list Z) :=
  match starts_with (bytes_of kw) b with
  | Some rest => match rest with
                 | [] => Some rest
                 | x :: _ => if is_space x || (x =? 40) || (x =? 123) then Some rest else None
                 end
  | None => None
  end.

Definition parse_operation (b : list Z) : Operation * list Z :=
  match keyword "query" b with
  | Some r => (OpQuery, r)
  | None => match keyword "mutation" b with
            | Some r => (OpMutation, r)
            | None => match keyword "subscription" b with
                      | Some r => (OpSubscription, r)
                      | None => (OpQuery, b)
                      end
            end
  end.

(** Variable definitions and directives. *)
Fixpoint skip_header (fuel : nat) (b : list Z) : result (list Z) perror :=
  match fuel with
  | O => Err NoFuel
  | S fuel =>
      match b with
      | x :: _ =>
          if x =? 40 then let? b := skip_parens b in skip_header fuel (skip_ws b)
          else if x =? 64 then let? b := skip_directive b in skip_header fuel (skip_ws b)
          else Ok b
      | [] => Ok b
      end
  end.

Definition levels : nat := S MAX_DEPTH.

Definition parse_query (query : string) (variables : Value) : result ParsedField perror :=
  let b := skip_ws (bytes_of query) in
  let '(op, b) := parse_operation b in
  let b := skip_ws b in
  let b := match b with x :: _ => if is_ident_byte x then skip_ws (skip_ident b) else b | [] => b end in
  let? b := skip_header (S (length b)) b in
  match b with
  | x :: b =>
      if x =? 123 then
        let b := skip_ws b in
        match b with
        | [] => msg "empty selection set"
        | x :: _ =>
            if x =? 125 then msg "empty selection set"
            else if x =? 46 then no_spread
            else
              let? (name, args, sel, b) :=
                parse_field (parse_value levels variables) (parse_selection_set MAX_DEPTH variables) b in
              match skip_ws b with
              | [] => msg "expected '}'"
              | y :: _ =>
                  if y =? 125
                  then Ok {| operation := op; f_name := name; f_args := args; f_selection := sel |}
                  else if y =? 46 then no_spread
                  else msg "multiple top-level fields not supported"
              end
        end
      else msg "expected '{' before selection"
  | [] => msg "expected '{' before selection"
  end.

End Values.
End Parser.

Module Exec.
Import Parser.

(** *** Budget ([validation.rs]) *)

Record QueryLimits := { max_complexity : Z }.
Definition DEFAULT_MAX_COMPLEXITY : Z := 10000.
Definition default_limits : QueryLimits := {| max_complexity := DEFAULT_MAX_COMPLEXITY |}.

Section Exec.
Context `{GJ : GraphJson}.

Definition node_selection (n : FieldNode) : option (list (string * FieldNode)) :=
  match n with Node _ sel => sel end.

(** The nodes below a node; a selection has one per field and those below each. *)
Fixpoint nodes_below (n : FieldNode) : Z :=
  match n with
  | Node _ None => 0
  | Node _ (Some set) => foldr (fun f acc => 1 + nodes_below f.2 + acc) 0 set
  end.

Definition complexity (sel : option (list (string * FieldNode))) : Z :=
  match sel with
  | None => 0
  | Some set => foldr (fun f acc => 1 + nodes_below f.2 + acc) 0 set
  end.

Definition validate (field : ParsedField) (limits : QueryLimits) : result unit string :=
  let n := complexity (f_selection field) + 1 in
  if max_complexity limits <? n
  then Err ("query complexity " +:+ dec_text n +:+ " exceeds limit " +:+ dec_text (max_complexity limits))
  else Ok ().

(** *** Execution ([lib.rs]) *)

Record FieldRequest := {
  r_args : list (string * Value);
  r_variables : Value;
  r_selection : option (list (string * FieldNode));
}.

(** A resolver is the application's; it acts on a world [W]. *)
Context {W : Type}.

Inductive FieldHandler :=
| Legacy (resolver : Value -> W -> result Value string * W)
| Rich (resolve : FieldRequest -> W -> result Value string * W).

Record GraphQLSchema := {
  query_resolvers : list (string * FieldHandler);
  mutation_resolvers : list (string * FieldHandler);
  limits : QueryLimits;
}.

Definition new : GraphQLSchema :=
  {| query_resolvers := []; mutation_resolvers := []; limits := default_limits |}.

Definition with_limits (s : GraphQLSchema) (l : QueryLimits) : GraphQLSchema :=
  {| query_resolvers := query_resolvers s; mutation_resolvers := mutation_resolvers s; limits := l |}.

(** [query] and [query_field]; [mutation] and [mutation_field]. *)
Definition query (s : GraphQLSchema) (name : string) (h : FieldHandler) : GraphQLSchema :=
  {| query_resolvers := insert_key name h (query_resolvers s);
     mutation_resolvers := mutation_resolvers s; limits := limits s |}.

Definition mutation (s : GraphQLSchema) (name : string) (h : FieldHandler) : GraphQLSchema :=
  {| query_resolvers := query_resolvers s;
     mutation_resolvers := insert_key name h (mutation_resolvers s); limits := limits s |}.

(** The arguments over the variables. *)
Definition merge_args (variables : Value) (args : list (string * Value)) : result Value string :=
  match args with
  | [] => Ok variables
  | _ =>
      match variables with
      | VObject m => Ok (VObject (fold_left (fun m kv => insert_key kv.1 kv.2 m) args m))
      | VNull => Ok (VObject args)
      | _ => Err "variables must be a JSON object when field arguments are present"
      end
  end.

Definition perror_text (e : perror) : string :=
  match e with Msg m => m | NoFuel => "" end.

(** One resolver's answer as the response. *)
Definition answer (name : string) (r : result Value string * W) : result Value (list string) * W :=
  match r with
  | (Ok data, w) => (Ok (VObject [(name, data)]), w)
  | (Err e, w) => (Err [e], w)
  end.

Definition execute (schema : GraphQLSchema) (query : string) (variables : Value) (w : W)
    : result Value (list string) * W :=
  match parse_query (trim query) variables with
  | Err e => (Err [perror_text e], w)
  | Ok field =>
      match validate field (limits schema) with
      | Err e => (Err [e], w)
      | Ok _ =>
          let resolvers :=
            match operation field with
            | OpMutation => mutation_resolvers schema
            | _ => query_resolvers schema
            end in
          match lookup_key (f_name field) resolvers with
          | Some (Legacy resolver) =>
              match merge_args variables (f_args field) with
              | Err e => (Err [e], w)
              | Ok vars => answer (f_name field) (resolver vars w)
              end
          | Some (Rich resolve) =>
              answer (f_name field)
                (resolve {| r_args := f_args field; r_variables := variables;
                            r_selection := f_selection field |} w)
          | None => (Err ["unknown field: " +:+ f_name field], w)
          end
      end
  end.

(** [graphql_router]'s handler: the status code and the body. *)
Definition handler (schema : GraphQLSchema) (query : string) (variables : Value) (w : W)
    : (Z * Value) * W :=
  match execute schema query variables w with
  | (Ok data, w) => ((200, VObject [("data", data)]), w)
  | (Err errors, w) => ((400, VObject [("errors", VArray (map VString errors))]), w)
  end.

End Exec.
End Exec.
