(* ===== verification/GraphQLFacts.v ===== *)
(** * Facts of the GraphQL parser

    Postconditions of the parser's functions ([good]), by which they never run out of
    fuel, hand back a shorter rest and build well-formed selections. *)

From S2P Require Import Prelude Json Text.
From S2P Require Import GraphQL.

Local Open Scope Z_scope.
Local Open Scope ecat_scope.

Module GraphQLFacts.
Import Parser Exec.

(** *** A result that did not run out of fuel *)

Definition good {A} (P : A -> Prop) (r : result A perror) : Prop :=
  match r with Ok x => P x | Err NoFuel => False | Err (Msg _) => True end.

Lemma good_ok {A} (P : A -> Prop) x : P x -> good P (Ok x).
Proof. done. Qed.

Lemma good_msg {A} (P : A -> Prop) m : good P (msg m).
Proof. done. Qed.

Lemma good_mono {A} (P Q : A -> Prop) r : good P r -> (forall x, P x -> Q x) -> good Q r.
Proof. destruct r as [x|[m|]]; simpl; auto. Qed.

Lemma good_bind {A B} (P : A -> Prop) (Q : B -> Prop) r (k : A -> result B perror) :
  good P r -> (forall x, P x -> good Q (k x)) -> good Q (rbind r k).
Proof. destruct r as [x|[m|]]; simpl; auto. Qed.

Lemma good_inv {A} (P : A -> Prop) r x : good P r -> r = Ok x -> P x.
Proof. by intros H ->. Qed.

(** What a parser of a value and of a selection hands back is no longer than its input. *)
Definition shrinks (b r : list Z) : Prop := (length r <= length b)%nat.

Ltac len := unfold shrinks in *; cbn [length fst snd] in *; lia.

(** Splits the outermost test of the goal. *)
Ltac case_if := match goal with |- context [if ?c then _ else _] => destruct c eqn:? end.

(** *** Skipping *)

Lemma skip_ws_in_shrinks c b : shrinks b (skip_ws_in c b).
Proof.
  revert c. induction b as [|x b IH]; intros c; simpl; [len|].
  pose proof (IH true). pose proof (IH false).
  destruct c; [destruct (x =? 10)|destruct (x =? 35); [|destruct (is_space x)]]; len.
Qed.

Lemma skip_ws_shrinks b : shrinks b (skip_ws b).
Proof. apply skip_ws_in_shrinks. Qed.

Lemma skip_ident_shrinks b : shrinks b (skip_ident b).
Proof. induction b as [|x b IH]; simpl; [len|]. case_match; len. Qed.

Lemma skip_token_shrinks b : shrinks b (skip_token b).
Proof. induction b as [|x b IH]; simpl; [len|]. case_match; len. Qed.

Lemma skip_block_good q b : good (shrinks b) (skip_block q b).
Proof.
  induction b as [|x b IH]; simpl; [done|].
  assert (Hb : good (shrinks (x :: b)) (skip_block q b)) by (eapply good_mono; [exact IH|intros; len]).
  destruct (x =? q); [|done]. destruct b as [|y [|z b]]; [done..|].
  destruct ((y =? q) && (z =? q)); [simpl; len|done].
Qed.

Lemma skip_body_good q b : good (shrinks b) (skip_body q b).
Proof.
  remember (length b) as n eqn:Hn. revert b Hn. induction (lt_wf n) as [n _ IH]. intros b ->.
  destruct b as [|x b]; [done|]. cbn [skip_body].
  destruct (x =? 92); [|destruct (x =? q); [simpl; len|]].
  - destruct b as [|y b]; [done|]. eapply good_mono; [eapply (IH (length b)); [simpl; lia|done]|intros; len].
  - eapply good_mono; [eapply (IH (length b)); [simpl; lia|done]|intros; len].
Qed.

(** A string takes at least its opening quote. *)
Lemma skip_string_good b : good (fun r => length r < length b)%nat (skip_string b).
Proof.
  destruct b as [|q b]; [done|]. cbn [skip_string].
  assert (Hb : good (fun r => length r < length (q :: b))%nat (skip_body q b))
    by (eapply good_mono; [apply skip_body_good|intros; len]).
  destruct b as [|x [|y b]]; [exact Hb..|]. destruct ((x =? q) && (y =? q)); [|exact Hb].
  eapply good_mono; [apply skip_block_good|intros; len].
Qed.

Lemma skip_group_good fuel what o c d b :
  (length b < fuel)%nat -> good (fun r => length r < length b)%nat (skip_group fuel what o c d b).
Proof.
  revert d b. induction fuel as [|fuel IH]; intros d b Hf; [lia|]. destruct b as [|x b]; [done|].
  cbn [skip_group].
  assert (Hb : forall d' b', (length b' < length (x :: b))%nat ->
            good (fun r => length r < length (x :: b))%nat (skip_group fuel what o c d' b')).
  { intros d' b' Hl. eapply good_mono; [apply IH; len|cbn beta; intros; lia]. }
  destruct (x =? o); [apply Hb; len|]. destruct (x =? c); [destruct d as [|[|d]]; [simpl; lia..|apply Hb; len]|].
  destruct (is_quote x); [|apply Hb; len].
  eapply good_bind; [apply skip_string_good|]. intros r Hr. by apply Hb.
Qed.

Lemma skip_parens_good b : good (fun r => length r < length b)%nat (skip_parens b).
Proof. apply skip_group_good. lia. Qed.

Lemma skip_balanced_good o c b : good (fun r => length r < length b)%nat (skip_balanced o c b).
Proof. apply skip_group_good. lia. Qed.

Lemma skip_directive_good x b : good (shrinks b) (skip_directive (x :: b)).
Proof.
  cbn [skip_directive]. pose proof (skip_ident_shrinks b). pose proof (skip_ws_shrinks (skip_ident b)).
  destruct (skip_ws (skip_ident b)) as [|y t]; [simpl; len|]. destruct (y =? 40); [|simpl; len].
  eapply good_mono; [apply skip_parens_good|]. intros; len.
Qed.

Lemma skip_directives_good fuel b : (length b < fuel)%nat -> good (shrinks b) (skip_directives fuel b).
Proof.
  revert b. induction fuel as [|fuel IH]; intros b Hf; [lia|]. destruct b as [|x b]; [simpl; len|].
  cbn [skip_directives]. destruct (x =? 64); [|simpl; len].
  eapply good_bind; [apply skip_directive_good|]. intros r Hr. pose proof (skip_ws_shrinks r).
  eapply good_mono; [apply IH; len|intros; len].
Qed.

Lemma skip_header_good fuel b : (length b < fuel)%nat -> good (shrinks b) (skip_header fuel b).
Proof.
  revert b. induction fuel as [|fuel IH]; intros b Hf; [lia|]. destruct b as [|x b]; [simpl; len|].
  cbn [skip_header]. destruct (x =? 40); [|destruct (x =? 64); [|simpl; len]].
  - eapply good_bind; [apply skip_parens_good|]. intros r Hr. pose proof (skip_ws_shrinks r).
    eapply good_mono; [apply IH; len|intros; len].
  - eapply good_bind; [apply skip_directive_good|]. intros r Hr. pose proof (skip_ws_shrinks r).
    eapply good_mono; [apply IH; len|intros; len].
Qed.

Lemma unescape_good l : good (fun _ => True) (unescape l).
Proof.
  remember (length l) as n eqn:Hn. revert l Hn. induction (lt_wf n) as [n _ IH]. intros l ->.
  assert (Hr : forall l' (k : list Z -> list Z), (length l' < length l)%nat ->
            good (fun _ => True) (let? r := unescape l' in Ok (k r))).
  { intros l' k Hl. eapply good_bind; [by eapply (IH (length l'))|]. done. }
  destruct l as [|c l]; [done|]. cbn [unescape]. destruct (negb (c =? 92)); [apply (Hr l (cons c)); len|].
  destruct l as [|e l]; [done|]. destruct (simple_escape e) as [x|]; [apply (Hr l (cons x)); len|].
  destruct (e =? 117); [|done]. destruct l as [|h1 [|h2 [|h3 [|h4 l]]]]; [done..|].
  destruct (from_hex _ ≫= encode_utf8); [apply (Hr l (app _)); len|done].
Qed.

Lemma split_top_level_good fuel r s c cur b :
  (length b < fuel)%nat -> good (fun _ => True) (split_top_level fuel r s c cur b).
Proof.
  revert r s c cur b. induction fuel as [|fuel IH]; intros r s c cur b Hf; [lia|].
  destruct b as [|x b]; [done|]. cbn [split_top_level]. cbn [length] in Hf.
  destruct (is_quote x).
  { apply IH. pose proof (skip_string_good (x :: b)) as Hs.
    destruct (skip_string (x :: b)) as [t|[m|]]; [cbn [good] in Hs; len|simpl; lia|done]. }
  repeat (match goal with |- good _ (if ?t then _ else _) => destruct t end; [first [apply IH; lia
    | eapply good_bind; [apply IH; lia|done]]|]). apply IH. lia.
Qed.

Lemma slice_length a b : (length (slice a b) <= length a)%nat.
Proof. unfold slice. rewrite length_take. lia. Qed.

Section Values.
Context `{GJ : GraphJson}.

Lemma parse_string_literal_good t : good (fun _ => True) (parse_string_literal t).
Proof.
  destruct t as [|q t]; [done|]. cbn [parse_string_literal]. destruct (q =? 34).
  - by destruct (json_of_slice (q :: t)).
  - eapply good_bind; [apply unescape_good|done].
Qed.

Lemma parts_of_good raw : good (fun _ => True) (parts_of raw).
Proof.
  apply split_top_level_good. unfold inside. rewrite length_take, length_drop. lia.
Qed.

Lemma parse_literal_good t : good (fun _ => True) (parse_literal t).
Proof. unfold parse_literal. destruct (json_of_slice t); [done|]. by case_match. Qed.

(** A parser of values. *)
Definition value_good (value : value_parser) : Prop :=
  forall b, good (fun vr => shrinks b vr.2) (value b).

Lemma parse_items_good value items : value_good value -> good (fun _ => True) (parse_items value items).
Proof.
  intros Hv. induction items as [|it items IH]; [done|]. cbn [parse_items]. destruct (is_blank_part it); [done|].
  eapply good_bind; [apply Hv|]. intros [v r] _. eapply good_bind; [exact IH|done].
Qed.

Lemma parse_members_good value m items :
  value_good value -> good (fun _ => True) (parse_members value m items).
Proof.
  intros Hv. revert m. induction items as [|it items IH]; intros m; [done|]. cbn [parse_members].
  destruct (is_blank_part it); [apply IH|]. destruct (Nat.eqb _ _); [by repeat case_match|].
  destruct (skip_ws (skip_ident (skip_ws it))) as [|x t]; [done|]. destruct (x =? 58); [|done].
  eapply good_bind; [apply Hv|]. intros [v r] _. by destruct (lookup_key _ m).
Qed.

Lemma lookup_variable_good vars name : good (fun _ => True) (lookup_variable vars name).
Proof. unfold lookup_variable. by repeat case_match. Qed.

Lemma parse_value_good k vars : value_good (parse_value k vars).
Proof.
  induction k as [|k IH]; intros b; [done|]. cbn [parse_value].
  pose proof (skip_ws_shrinks b) as Hw. destruct (skip_ws b) as [|x b1]; [done|].
  assert (Hs : good (fun vr => shrinks b vr.2)
            (let? rest := skip_string (x :: b1) in
             let? v := parse_string_literal (slice (x :: b1) rest) in Ok (v, rest))).
  { eapply good_bind; [apply skip_string_good|]. intros r Hr.
    eapply good_bind; [apply parse_string_literal_good|]. intros v _. simpl. len. }
  destruct (is_quote x).
  { destruct b1 as [|y [|z b1]]; [exact Hs..|]. by destruct ((y =? x) && (z =? x)). }
  destruct (x =? 91); [|destruct (x =? 123); [|destruct (x =? 36)]].
  - eapply good_bind; [apply skip_balanced_good|]. intros r Hr.
    eapply good_bind; [apply parts_of_good|]. intros items _.
    eapply good_bind; [apply parse_items_good, IH|]. intros v _. simpl. len.
  - eapply good_bind; [apply skip_balanced_good|]. intros r Hr.
    eapply good_bind; [apply parts_of_good|]. intros items _.
    eapply good_bind; [apply parse_members_good, IH|]. intros v _. simpl. len.
  - eapply good_bind; [apply lookup_variable_good|]. intros v _. simpl. pose proof (skip_ident_shrinks b1). len.
  - eapply good_bind; [apply parse_literal_good|]. intros v _. cbn [good snd].
    pose proof (skip_token_shrinks (x :: b1)). len.
Qed.

(** *** Well-formed fields *)

Lemma insert_key_keys {A} name (v : A) l :
  (insert_key name v l).*1 = if decide (name ∈ l.*1) then l.*1 else l.*1 ++ [name].
Proof.
  induction l as [|[k w] l IH]; [by rewrite decide_False by apply not_elem_of_nil|].
  cbn [insert_key]. destruct (String.eqb_spec k name) as [->|Hne].
  - cbn [fmap list_fmap fst]. rewrite decide_True; [done|]. apply list_elem_of_here.
  - cbn [fmap list_fmap fst]. rewrite IH. cbn [fst].
    destruct (decide (name ∈ l.*1)) as [Hin|Hin]; destruct (decide (name ∈ k :: l.*1)) as [Hin'|Hin']; try done.
    + destruct Hin'. by right.
    + apply elem_of_cons in Hin' as [->|?]; done.
Qed.

Lemma lookup_key_none {A} name (l : list (string * A)) : lookup_key name l = None <-> name ∉ l.*1.
Proof.
  induction l as [|[k w] l IH]; [split; [intros _; apply not_elem_of_nil|done]|].
  cbn [lookup_key fmap list_fmap fst]. rewrite not_elem_of_cons.
  destruct (String.eqb_spec k name) as [->|Hne]; [naive_solver|]. rewrite IH. naive_solver.
Qed.

(** A name the parser takes. *)
Definition identifier (s : string) : bool :=
  negb (String.eqb s "") && forallb is_ident_byte (bytes_of s).

(** The keys of a parsed map. *)
Definition names_ok (l : list string) : bool := bool_decide (NoDup l) && forallb identifier l.

(** A node with at most [k] levels of selections below. *)
Fixpoint node_ok (k : nat) (n : FieldNode) : bool :=
  match n with
  | Node args sel =>
      names_ok args.*1 &&
      match sel, k with
      | None, _ => true
      | Some _, O => false
      | Some set, S k =>
          negb (Nat.eqb (length set) 0) && names_ok set.*1 && forallb (fun f => node_ok k f.2) set
      end
  end.

Definition field_ok (q : ParsedField) : bool :=
  identifier (f_name q) && node_ok MAX_DEPTH (Node (f_args q) (f_selection q)).

Lemma is_ident_byte_range x : is_ident_byte x = true -> 0 <= x < 128.
Proof. unfold is_ident_byte, is_digit, between. intros H. lia. Qed.

Lemma ident_bytes l : forallb is_ident_byte l = true -> Forall (fun x => 0 <= x < 256) l.
Proof.
  intros H. induction l as [|x l IH]; [done|]. cbn [forallb] in H. apply andb_true_iff in H as [Hx Hl].
  apply is_ident_byte_range in Hx. constructor; [lia|auto].
Qed.

Lemma skip_ident_split b : exists l, b = l ++ skip_ident b /\ forallb is_ident_byte l = true.
Proof.
  induction b as [|x b (l & Hb & Hl)]; [by exists []|]. cbn [skip_ident].
  destruct (is_ident_byte x) eqn:Hx; [|by exists []].
  exists (x :: l). cbn [forallb app]. by rewrite Hx, Hl, <- Hb.
Qed.

Lemma slice_app a b : slice (a ++ b) b = a.
Proof. unfold slice. rewrite length_app. replace (_ + _ - _)%nat with (length a) by lia. apply take_app_length. Qed.

(** The name before a rest that is not the whole. *)
Lemma slice_identifier b :
  length (skip_ident b) <> length b -> identifier (of_bytes (slice b (skip_ident b))) = true.
Proof.
  intros Hn. destruct (skip_ident_split b) as (l & Hb & Hl). rewrite Hb in Hn at 2. rewrite length_app in Hn.
  assert (Hs : slice b (skip_ident b) = l) by (rewrite Hb at 1; apply slice_app).
  rewrite Hs. unfold identifier. rewrite bytes_of_of_bytes by by apply ident_bytes.
  rewrite Hl, andb_true_r. destruct l; [simpl in Hn; lia|done].
Qed.

Lemma names_ok_snoc l n : names_ok l = true -> n ∉ l -> identifier n = true -> names_ok (l ++ [n]) = true.
Proof.
  unfold names_ok. rewrite !andb_true_iff, !bool_decide_eq_true, forallb_app. intros [Hl Hi] Hn Hid.
  split; [|simpl; by rewrite Hi, Hid]. apply NoDup_app. split; [done|]. split; [|apply NoDup_singleton].
  intros x Hx ->%list_elem_of_singleton. done.
Qed.

Lemma names_ok_insert {A} n (v : A) l :
  names_ok l.*1 = true -> identifier n = true -> names_ok (insert_key n v l).*1 = true.
Proof.
  intros Hl Hn. rewrite insert_key_keys. destruct (decide _); [done|]. by apply names_ok_snoc.
Qed.

Lemma forallb_insert {A} (f : A -> bool) n v l :
  forallb (fun x => f x.2) l = true -> f v = true -> forallb (fun x => f x.2) (insert_key n v l) = true.
Proof.
  intros Hl Hv. induction l as [|[k w] l IH]; cbn [insert_key forallb snd]; [by rewrite Hv|].
  cbn [forallb snd] in Hl. apply andb_true_iff in Hl as [Hw Hl].
  destruct (String.eqb k n); cbn [forallb snd]; [by rewrite Hv, Hl|]. by rewrite Hw, IH.
Qed.

Lemma insert_key_nonempty {A} n (v : A) l : Nat.eqb (length (insert_key n v l)) 0 = false.
Proof. destruct l as [|[k w] l]; [done|]. cbn [insert_key]. by destruct (String.eqb k n). Qed.

(** *** Weights *)

Lemma FieldNode_nested_ind (P : FieldNode -> Prop) :
  (forall args, P (Node args None)) ->
  (forall args set, Forall (fun f => P f.2) set -> P (Node args (Some set))) ->
  forall n, P n.
Proof.
  intros Hn Hs. fix IH 1. intros [args [set|]]; [|apply Hn]. apply Hs.
  induction set as [|[k n] set IHs]; constructor; [apply IH|exact IHs].
Qed.

Lemma nodes_below_nonneg n : 0 <= nodes_below n.
Proof.
  induction n as [args|args set Hset] using FieldNode_nested_ind; [done|]. cbn [nodes_below].
  induction Hset as [|f set Hf _ IH]; [done|]. cbn [foldr]. lia.
Qed.

Lemma complexity_nonneg sel : 0 <= complexity sel.
Proof. apply (nodes_below_nonneg (Node [] sel)). Qed.

Lemma nodes_below_node args sel : nodes_below (Node args sel) = complexity sel.
Proof. by destruct sel. Qed.

Lemma complexity_cons f set : complexity (Some (f :: set)) = 1 + nodes_below f.2 + complexity (Some set).
Proof. done. Qed.

Lemma complexity_insert n v set :
  complexity (Some (insert_key n v set)) <= 1 + nodes_below v + complexity (Some set).
Proof.
  induction set as [|[k w] set IH]; cbn [insert_key]; [done|].
  pose proof (nodes_below_nonneg w). pose proof (nodes_below_nonneg v).
  destruct (String.eqb k n); rewrite !complexity_cons; cbn [snd]; lia.
Qed.

(** *** Arguments and selections *)

Lemma args_loop_good fuel value args b :
  value_good value -> (length b < fuel)%nat -> names_ok args.*1 = true ->
  good (fun l => names_ok l.*1 = true) (args_loop fuel value args b).
Proof.
  intros Hv. revert args b. induction fuel as [|fuel IH]; intros args b Hf Ha; [lia|]. cbn [args_loop].
  pose proof (skip_ws_shrinks b). destruct (skip_ws b) as [|x t] eqn:Hb; [done|]. destruct (x =? 41); [done|].
  destruct (Nat.eqb_spec (length (skip_ident (x :: t))) (length (x :: t))) as [|Hn]; [done|].
  pose proof (slice_identifier _ Hn) as Hid. set (name := of_bytes _) in *.
  pose proof (skip_ident_shrinks (x :: t)). pose proof (skip_ws_shrinks (skip_ident (x :: t))).
  destruct (skip_ws (skip_ident (x :: t))) as [|y t']; [done|]. destruct (y =? 58); [|done].
  pose proof (skip_ws_shrinks t'). eapply good_bind; [apply Hv|]. intros [v r] Hr. cbn [snd] in Hr.
  destruct (lookup_key name args) eqn:Hk; [done|]. pose proof (skip_ws_shrinks r). apply IH.
  - destruct (skip_ws r) as [|z r']; [len|]. destruct (z =? 44); len.
  - rewrite fmap_app. apply names_ok_snoc; [done| |done]. by apply lookup_key_none.
Qed.

Lemma parse_args_good value raw :
  value_good value -> good (fun l => names_ok l.*1 = true) (parse_args value raw).
Proof.
  intros Hv. unfold parse_args. pose proof (skip_ws_shrinks raw). destruct (skip_ws raw) as [|x b]; [done|].
  destruct (x =? 40); [|done]. apply args_loop_good; [done|len|done].
Qed.

(** A parser of selections of at most [k] levels. *)
Definition set_good (k : nat) (set : set_parser) : Prop :=
  forall b, good (fun sr => node_ok k (Node [] (Some sr.1)) = true /\
    complexity (Some sr.1) + Z.of_nat (length sr.2) <= Z.of_nat (length b)) (set b).

Definition field_good (k : nat) (b : list Z)
    (x : string * list (string * Value) * option (list (string * FieldNode)) * list Z) : Prop :=
  let '(name, args, sel, r) := x in
  identifier name = true /\ node_ok k (Node args sel) = true /\
  1 + complexity sel + Z.of_nat (length r) <= Z.of_nat (length b).

Lemma node_ok_args k args sel :
  names_ok args.*1 = true -> node_ok k (Node [] sel) = true -> node_ok k (Node args sel) = true.
Proof. intros Ha. destruct k; cbn [node_ok]; by rewrite Ha. Qed.

Lemma parse_field_good k value set b :
  value_good value -> set_good k set -> good (field_good k b) (parse_field value set b).
Proof.
  intros Hv Hs. unfold parse_field. pose proof (skip_ws_shrinks b) as Hw. set (b0 := skip_ws b) in *.
  destruct (Nat.eqb_spec (length (skip_ident b0)) (length b0)) as [|Hn]; [done|].
  pose proof (slice_identifier _ Hn) as Hid. set (name := of_bytes _) in *.
  pose proof (skip_ident_shrinks b0). pose proof (skip_ws_shrinks (skip_ident b0)).
  set (b1 := skip_ws (skip_ident b0)) in *. clearbody b1 name. case_if; [done|].
  eapply (good_bind (fun ab => names_ok ab.1.*1 = true /\ shrinks b1 ab.2)).
  { case_if; [|split; [done|len]]. eapply good_bind; [apply skip_parens_good|]. intros r Hr.
    eapply good_bind; [by apply parse_args_good|]. intros args Ha. split; [done|].
    pose proof (skip_ws_shrinks r). cbn [snd]. len. }
  intros [args b2] [Ha Hb2]. cbn [fst snd] in *.
  eapply good_bind; [apply skip_directives_good; lia|]. intros b3 Hb3.
  case_if.
  - eapply good_bind; [apply Hs|]. intros [s r] [Hok Hc]. cbn [fst snd] in *. cbn [good field_good].
    split; [done|]. split; [by apply node_ok_args|]. len.
  - cbn [good field_good complexity]. split; [done|]. split; [|len].
    apply node_ok_args; [done|]. by destruct k.
Qed.

Lemma fields_loop_good k fuel value set acc b :
  value_good value -> set_good k set -> (length b < fuel)%nat ->
  names_ok acc.*1 = true -> forallb (fun f => node_ok k f.2) acc = true ->
  (acc = [] -> match b with x :: _ => x =? 125 | [] => false end = false) ->
  good (fun sr => node_ok (S k) (Node [] (Some sr.1)) = true /\
    complexity (Some sr.1) + Z.of_nat (length sr.2)
                  <= complexity (Some acc) + Z.of_nat (length b)) (fields_loop fuel value set acc b).
Proof.
  intros Hv Hs. revert acc b. induction fuel as [|fuel IH]; intros acc b Hf Ha Hn He; [lia|]. cbn [fields_loop].
  destruct b as [|x b]; [done|]. destruct (x =? 125) eqn:Hx.
  { cbn [good fst snd]. split; [|len]. cbn [node_ok fmap list_fmap]. rewrite Ha, Hn.
    destruct acc; [by specialize (He eq_refl)|done]. }
  destruct (x =? 46); [done|]. eapply good_bind; [by apply parse_field_good|].
  intros [[[name args] sel] r] (Hid & Hok & Hc). pose proof (skip_ws_shrinks r).
  pose proof (complexity_insert name (Node args sel) acc) as Hi. rewrite nodes_below_node in Hi.
  pose proof (complexity_nonneg sel).
  eapply good_mono; [apply IH|].
  - len.
  - by apply names_ok_insert.
  - by apply forallb_insert.
  - intros E. apply (f_equal length) in E. pose proof (insert_key_nonempty name (Node args sel) acc).
    by rewrite E in *.
  - intros [s r'] [Hs1 Hs2]. cbn [fst snd] in *. split; [done|]. len.
Qed.

Lemma parse_selection_set_good k vars : set_good k (parse_selection_set k vars).
Proof.
  induction k as [|k IH]; intros b; [done|]. cbn [parse_selection_set].
  assert (Hd : shrinks b (drop 1 b)) by (unfold shrinks; rewrite length_drop; lia).
  pose proof (skip_ws_shrinks (drop 1 b)). destruct (skip_ws (drop 1 b)) as [|x t]; [done|].
  destruct (x =? 125) eqn:Hx; [done|].
  eapply good_mono; [apply (fields_loop_good k); [apply parse_value_good|exact IH|lia|done|done|done]|].
  intros [s r] [H1 H2]. split; [done|]. change (complexity (Some [])) with 0 in H2. len.
Qed.

Lemma starts_with_shrinks kw b r : starts_with kw b = Some r -> shrinks b r.
Proof.
  revert b. induction kw as [|x kw IH]; intros b H; [simplify_eq/=; len|].
  destruct b as [|y b]; [done|]. simpl in H. destruct (x =? y); [|done]. apply IH in H. len.
Qed.

Lemma parse_operation_shrinks b : shrinks b (parse_operation b).2.
Proof.
  assert (H : forall kw r, keyword kw b = Some r -> shrinks b r).
  { intros kw r Hk. unfold keyword in Hk. destruct (starts_with _ b) as [r'|] eqn:Hs; [|done].
    apply starts_with_shrinks in Hs. by case_hyps. }
  unfold parse_operation. repeat (case_match; [by eapply H|]). cbn [snd]. len.
Qed.

(** The parser's postcondition. *)
Lemma parse_query_good query vars :
  good (fun q => field_ok q = true /\ complexity (f_selection q) + 1 <= Z.of_nat (length (bytes_of query)))
    (parse_query query vars).
Proof.
  unfold parse_query. pose proof (skip_ws_shrinks (bytes_of query)) as H0.
  pose proof (parse_operation_shrinks (skip_ws (bytes_of query))) as H1.
  destruct (parse_operation (skip_ws (bytes_of query))) as [op b1]. cbn [snd] in H1.
  pose proof (skip_ws_shrinks b1) as H2.
  set (b2 := match skip_ws b1 with [] => _ | _ => _ end).
  assert (H3 : shrinks (skip_ws b1) b2).
  { unfold b2. destruct (skip_ws b1) as [|x t]; [len|]. destruct (is_ident_byte x); [|len].
    pose proof (skip_ident_shrinks (x :: t)). pose proof (skip_ws_shrinks (skip_ident (x :: t))). len. }
  clearbody b2. eapply good_bind; [apply skip_header_good; lia|]. intros b3 Hb3.
  destruct b3 as [|x b4]; [done|]. destruct (x =? 123); [|done].
  pose proof (skip_ws_shrinks b4) as H4. destruct (skip_ws b4) as [|y b5] eqn:E; [done|].
  destruct (y =? 125); [done|]. destruct (y =? 46); [done|].
  eapply good_bind;
    [apply (parse_field_good MAX_DEPTH); [apply parse_value_good|apply parse_selection_set_good]|].
  intros [[[name args] sel] r] (Hid & Hok & Hc). destruct (skip_ws r) as [|z r']; [done|].
  destruct (z =? 125); [|by case_match]. cbn [good f_selection]. split; [|len].
  unfold field_ok. cbn [f_name f_args f_selection]. by rewrite Hid, Hok.
Qed.

End Values.
End GraphQLFacts.
