(* ===== verification/GraphQLPrint.v ===== *)
(** * Printing a GraphQL field and reading it back

    A printer of the syntax [ecat-graphql] reads ([Module Printer]), a specification
    the code has no counterpart of: single-quoted strings, literals, lists, input
    objects, arguments and nested selections; and what the parser's scanners do on
    printed text ([Module Scan]). *)

From S2P Require Import Prelude Json Text.
From S2P Require Import GraphQL GraphQLFacts.

Local Open Scope Z_scope.
Local Open Scope ecat_scope.

Module Printer.
Import Parser Exec GraphQLFacts.

(** Documented behaviour of [serde_json]: the three literals, and an integer's text
    reads back as that integer and is made of digits and a sign. *)
Definition number_byte (b : Z) : bool := is_digit b || (b =? 45).

Class GraphJsonLaw `{GJ : GraphJson} := {
  json_null : json_of_slice (bytes_of "null") = Ok VNull;
  json_bool b : json_of_slice (bytes_of (if b : bool then "true" else "false")) = Ok (VBool b);
  json_integer n : is_Some (number_as_i64 n) -> json_of_slice (bytes_of (number_text n)) = Ok (VNumber n);
  integer_text n : is_Some (number_as_i64 n) ->
    number_text n <> EmptyString /\ forallb number_byte (bytes_of (number_text n)) = true;
}.

(** *** The printer *)

Fixpoint escape (l : list Z) : list Z :=
  match l with
  | [] => []
  | x :: l => if (x =? 92) || (x =? 39) then 92 :: x :: escape l else x :: escape l
  end.

Definition print_string (s : string) : list Z := 39 :: escape (bytes_of s) ++ [39].

Definition commas (l : list (list Z)) : list Z :=
  match l with [] => [] | x :: l => x ++ concat (map (cons 44) l) end.

Section Print.
Context `{JN : JsonNumber}.

Fixpoint print_value (v : Value) : list Z :=
  match v with
  | VNull => bytes_of "null"
  | VBool b => bytes_of (if b then "true" else "false")
  | VNumber n => bytes_of (number_text n)
  | VString s => print_string s
  | VArray l => 91 :: commas (map print_value l) ++ [93]
  | VObject m => 123 :: commas (map (fun kv => bytes_of kv.1 ++ 58 :: print_value kv.2) m) ++ [125]
  end.

Definition print_member (kv : string * Value) : list Z := bytes_of kv.1 ++ 58 :: print_value kv.2.

Definition print_args (args : list (string * Value)) : list Z :=
  match args with [] => [] | _ => 40 :: commas (map print_member args) ++ [41] end.

Fixpoint print_node (n : FieldNode) : list Z :=
  match n with
  | Node args None => print_args args
  | Node args (Some set) =>
      print_args args ++ 123 :: concat (map (fun f => bytes_of f.1 ++ print_node f.2 ++ [32]) set) ++ [125]
  end.

Definition print_fields (set : list (string * FieldNode)) : list Z :=
  concat (map (fun f => bytes_of f.1 ++ print_node f.2 ++ [32]) set).

Definition operation_text (op : Operation) : string :=
  match op with OpQuery => "query" | OpMutation => "mutation" | OpSubscription => "subscription" end.

Definition print_query (q : ParsedField) : string :=
  of_bytes (bytes_of (operation_text (operation q)) ++ 123 ::
            bytes_of (f_name q) ++ print_node (Node (f_args q) (f_selection q)) ++ [125]).

(** *** What can be printed *)

(** A value of at most [k] levels, its numbers integers, its keys distinct identifiers. *)
Fixpoint value_ok (k : nat) (v : Value) : bool :=
  match k with
  | O => false
  | S k =>
      match v with
      | VNull | VBool _ | VString _ => true
      | VNumber n => match number_as_i64 n with Some _ => true | None => false end
      | VArray l => forallb (value_ok k) l
      | VObject m => names_ok m.*1 && forallb (fun kv => value_ok k kv.2) m
      end
  end.

Definition args_ok (k : nat) (args : list (string * Value)) : bool :=
  names_ok args.*1 && forallb (fun kv => value_ok k kv.2) args.

(** The values of a node with [k] levels of selections below. *)
Fixpoint values_ok (k : nat) (n : FieldNode) : bool :=
  match n with
  | Node args sel =>
      args_ok (S k) args &&
      match sel, k with
      | None, _ => true
      | Some _, O => false
      | Some set, S k => forallb (fun f => values_ok k f.2) set
      end
  end.

Definition printable (q : ParsedField) : bool :=
  field_ok q && values_ok MAX_DEPTH (Node (f_args q) (f_selection q)).

End Print.
End Printer.

Module Scan.
Import Parser Exec GraphQLFacts Printer.

(** *** Strings *)

Definition no_quote (t : list Z) : Prop := match t with x :: _ => x <> 39 | [] => True end.

Lemma no_quote_app t u : no_quote t -> no_quote u -> no_quote (t ++ u).
Proof. by destruct t. Qed.

Lemma skip_body_escape l rest : skip_body 39 (escape l ++ 39 :: rest) = Ok rest.
Proof.
  induction l as [|x l IH]; [done|]. cbn [escape]. destruct (x =? 92) eqn:E92; cbn [orb].
  - apply IH.
  - destruct (x =? 39) eqn:E39; [apply IH|]. cbn [app skip_body]. by rewrite E92, E39.
Qed.

Lemma escape_head l : no_quote (escape l).
Proof.
  destruct l as [|x l]; [done|]. cbn [escape]. destruct (x =? 92); [done|].
  destruct (x =? 39) eqn:E; cbn; [done|]. intros ->. done.
Qed.

Lemma skip_string_print s rest : no_quote rest -> skip_string (print_string s ++ rest) = Ok rest.
Proof.
  intros Hr. unfold print_string. cbn [app]. rewrite <- app_assoc. cbn [app].
  pose proof (skip_body_escape (bytes_of s) rest) as Hb. pose proof (escape_head (bytes_of s)) as He.
  cbn [skip_string]. destruct (escape (bytes_of s)) as [|x t]; cbn [app] in *.
  - destruct rest as [|y rest]; [done|]. cbn [no_quote] in Hr. destruct (Z.eqb_spec y 39); [done|].
    rewrite andb_false_r. done.
  - cbn [no_quote] in He. destruct (Z.eqb_spec x 39); [done|]. cbn [andb]. rewrite Hb. by destruct (t ++ _).
Qed.

Lemma unescape_escape l : unescape (escape l) = Ok l.
Proof.
  induction l as [|x l IH]; [done|]. cbn [escape].
  destruct (Z.eqb_spec x 92) as [->|H92]; cbn [orb].
  { cbn [unescape Z.eqb Pos.eqb negb simple_escape rbind]. by rewrite IH. }
  destruct (Z.eqb_spec x 39) as [->|H39].
  { cbn [unescape Z.eqb Pos.eqb negb simple_escape rbind]. by rewrite IH. }
  cbn [unescape]. destruct (Z.eqb_spec x 92); [done|]. cbn [negb]. by rewrite IH.
Qed.

(** *** Balanced text *)

Inductive bracket : Z -> Z -> Prop :=
| round : bracket 40 41
| square : bracket 91 93
| curly : bracket 123 125.

Definition plain (x : Z) : bool :=
  negb (is_quote x || (x =? 40) || (x =? 41) || (x =? 91) || (x =? 93) || (x =? 123) || (x =? 125)).

(** Text whose brackets and strings close; [top] if it has no comma outside brackets. *)
Inductive balanced : bool -> list Z -> Prop :=
| bal_nil top : balanced top []
| bal_plain top x t : plain x = true -> (x = 44 -> top = false) -> balanced top t -> balanced top (x :: t)
| bal_string top s t : no_quote t -> balanced top t -> balanced top (print_string s ++ t)
| bal_group top o c t u : bracket o c -> balanced false t -> balanced top u -> balanced top (o :: t ++ c :: u).

Lemma balanced_weaken top t : balanced top t -> balanced false t.
Proof. induction 1; [constructor|apply bal_plain|apply bal_string|apply bal_group]; auto. Qed.

Lemma balanced_app top t u : balanced top t -> balanced top u -> no_quote u -> balanced top (t ++ u).
Proof.
  intros Ht Hu Hq. induction Ht as [|top x t Hx Hc Ht IH|top s t Hn Ht IH|top o c t v Hb Ht IHt Hv IHv]; [done|..].
  - cbn [app]. apply bal_plain; auto.
  - rewrite <- app_assoc. apply bal_string; [by apply no_quote_app|auto].
  - cbn [app]. rewrite <- app_assoc. cbn [app]. apply bal_group; auto.
Qed.

Lemma balanced_plain t : forallb (fun x => plain x && negb (x =? 44)) t = true -> balanced true t.
Proof.
  induction t as [|x t IH]; cbn [forallb]; intros H; [constructor|].
  apply andb_true_iff in H as [[Hx Hc]%andb_true_iff Ht]. constructor; [done| |auto].
  intros ->. done.
Qed.

Lemma balanced_commas ps : Forall (balanced true) ps -> balanced false (commas ps).
Proof.
  intros H. destruct H as [|p ps Hp Hps]; [constructor|]. cbn [commas].
  assert (Ht : balanced false (concat (map (cons 44) ps)) /\ no_quote (concat (map (cons 44) ps))).
  { induction Hps as [|q ps Hq Hps IH]; [split; [constructor|done]|]. cbn [map concat app]. destruct IH as [IH1 IH2].
    split; [|done]. constructor; [done|done|]. apply balanced_app; [by eapply balanced_weaken|done|done]. }
  destruct Ht as [Ht Hn]. apply balanced_app; [by eapply balanced_weaken|done|done].
Qed.

Lemma plain_tests x : plain x = true ->
  is_quote x = false /\ (x =? 40) = false /\ (x =? 41) = false /\ (x =? 91) = false /\ (x =? 93) = false /\
  (x =? 123) = false /\ (x =? 125) = false.
Proof. unfold plain. rewrite negb_true_iff, !orb_false_iff. tauto. Qed.

(** A balanced text inside a group is skipped whole. *)
Lemma skip_group_balanced top t w o c fuel d rest :
  balanced top t -> bracket o c -> no_quote rest -> (length (t ++ rest) < fuel)%nat ->
  exists fuel', (length rest < fuel')%nat /\
    skip_group fuel w o c (S d) (t ++ rest) = skip_group fuel' w o c (S d) rest.
Proof.
  intros Ht Hb. revert fuel d rest.
  induction Ht as [|top x t Hx Hc Ht IH|top s t Hn Ht IH|top o' c' t u Hb' Ht IHt Hu IHu]; intros fuel d rest Hr Hf.
  - by exists fuel.
  - destruct fuel as [|fuel]; [lia|]. cbn [app length] in Hf. destruct (IH fuel d rest Hr) as (f & Hl & E); [lia|].
    exists f. split; [done|]. rewrite <- E. cbn [app skip_group].
    apply plain_tests in Hx as (H1 & H2 & H3 & H4 & H5 & H6 & H7).
    destruct Hb; by rewrite ?H1, ?H2, ?H3, ?H4, ?H5, ?H6, ?H7.
  - destruct fuel as [|fuel]; [lia|]. rewrite <- app_assoc in Hf |- *.
    destruct (IH fuel d rest Hr) as (f & Hl & E).
    { rewrite length_app in Hf. cbn [print_string length] in Hf. lia. }
    exists f. split; [done|]. rewrite <- E.
    pose proof (skip_string_print s (t ++ rest) (no_quote_app _ _ Hn Hr)) as Hs.
    destruct Hb; unfold print_string in *; cbn [app] in *; cbn [skip_group]; by rewrite Hs.
  - destruct fuel as [|fuel]; [lia|]. cbn [app] in *. rewrite <- app_assoc in Hf |- *. cbn [app length] in *.
    assert (Hq : no_quote (c' :: u ++ rest)) by (by destruct Hb').
    assert (Hin : forall d', exists f, (length rest < f)%nat /\
              skip_group fuel w o c (S d') (t ++ c' :: u ++ rest) = skip_group f w o c (S d') (c' :: u ++ rest) /\
              (length (c' :: u ++ rest) < f)%nat).
    { intros d'. destruct (IHt fuel d' (c' :: u ++ rest) Hq) as (f & Hl & E); [lia|].
      exists f. split; [|done]. cbn [length] in Hl. rewrite length_app in Hl. lia. }
    destruct (decide (o' = o)) as [->|Ho].
    + assert (c' = c) as -> by (by inversion Hb; subst; inversion Hb').
      destruct (Hin (S d)) as (f & _ & E & Hl). destruct f as [|f]; [lia|].
      destruct (IHu f d rest Hr) as (f' & Hl' & E'); [cbn [length] in Hl; lia|].
      exists f'. split; [done|]. rewrite <- E'. cbn [skip_group]. rewrite Z.eqb_refl, E.
      by destruct Hb.
    + destruct (Hin d) as (f & _ & E & Hl). destruct f as [|f]; [lia|].
      destruct (IHu f d rest Hr) as (f' & Hl' & E'); [cbn [length] in Hl; lia|].
      exists f'. split; [done|]. rewrite <- E'. cbn [skip_group].
      transitivity (skip_group fuel w o c (S d) (t ++ c' :: u ++ rest)); [by destruct Hb, Hb'|].
      rewrite E. by destruct Hb, Hb'.
Qed.

Lemma skip_group_whole w o c t rest :
  bracket o c -> balanced false t ->
  skip_group (S (length (o :: t ++ c :: rest))) w o c 0 (o :: t ++ c :: rest) = Ok rest.
Proof.
  intros Hb Ht. cbn [skip_group]. rewrite Z.eqb_refl.
  destruct (skip_group_balanced false t w o c (length (o :: t ++ c :: rest)) 0 (c :: rest)) as (f & Hl & E);
    [done|done|by destruct Hb|cbn [length]; lia|].
  rewrite E. destruct f as [|f]; [lia|]. by destruct Hb.
Qed.

(** A balanced text between commas stays in one part. *)
Lemma split_balanced top t fuel r s c cur rest :
  balanced top t -> (top = true \/ (0 < r + s + c)%nat) -> no_quote rest -> (length (t ++ rest) < fuel)%nat ->
  exists fuel', (length rest < fuel')%nat /\
    split_top_level fuel r s c cur (t ++ rest) = split_top_level fuel' r s c (reverse t ++ cur) rest.
Proof.
  intros Ht. revert fuel r s c cur rest.
  induction Ht as [|top x t Hx Hc Ht IH|top str t Hn Ht IH|top o c' t u Hb Ht IHt Hu IHu];
    intros fuel r s c cur rest Hd Hr Hf.
  - by exists fuel.
  - destruct fuel as [|fuel]; [lia|]. cbn [app length] in Hf.
    destruct (IH fuel r s c (x :: cur) rest Hd Hr) as (f & Hl & E); [lia|].
    exists f. split; [done|]. rewrite reverse_cons, <- app_assoc. cbn [app]. rewrite <- E. cbn [split_top_level].
    apply plain_tests in Hx as (H1 & H2 & H3 & H4 & H5 & H6 & H7). rewrite H1, H2, H3, H4, H5, H6, H7.
    destruct (Z.eqb_spec x 44) as [->|]; [|done]. cbn [andb]. destruct Hd as [->|Hd]; [by specialize (Hc eq_refl)|].
    destruct r; [|done]. destruct s; [|done]. destruct c; [simpl in Hd; lia|done].
  - destruct fuel as [|fuel]; [lia|]. rewrite <- app_assoc in Hf |- *.
    destruct (IH fuel r s c (reverse (print_string str) ++ cur) rest Hd Hr) as (f & Hl & E).
    { rewrite length_app in Hf. cbn [print_string length] in Hf. lia. }
    exists f. split; [done|]. rewrite reverse_app, <- app_assoc. rewrite <- E.
    pose proof (skip_string_print str (t ++ rest) (no_quote_app _ _ Hn Hr)) as Hs.
    pose proof (slice_app (print_string str) (t ++ rest)) as Hsl.
    change (print_string str) with (39 :: escape (bytes_of str) ++ [39]) in *. cbn [app] in *.
    cbn [split_top_level]. rewrite Hs, Hsl. done.
  - destruct fuel as [|fuel]; [lia|]. cbn [app] in *. rewrite <- app_assoc in Hf |- *. cbn [app length] in *.
    assert (Hq : no_quote (c' :: u ++ rest)) by (by destruct Hb).
    assert (Hin : forall r' s' d', (0 < r' + s' + d')%nat -> exists f,
              split_top_level fuel r' s' d' (o :: cur) (t ++ c' :: u ++ rest)
              = split_top_level (S f) r' s' d' (reverse t ++ o :: cur) (c' :: u ++ rest) /\
              (length (u ++ rest) < f)%nat).
    { intros r' s' d' Hp. destruct (IHt fuel r' s' d' (o :: cur) (c' :: u ++ rest)) as (f & Hl & E);
        [by right|done|lia|]. destruct f as [|f]; [lia|]. exists f. split; [done|]. cbn [length] in Hl. lia. }
    assert (Hcur : reverse (o :: t ++ c' :: u) ++ cur = reverse u ++ c' :: reverse t ++ o :: cur).
    { rewrite reverse_cons, reverse_app, reverse_cons, <- !app_assoc. done. }
    assert (Hend : exists f, (length (u ++ rest) < f)%nat /\
              split_top_level (S fuel) r s c cur (o :: t ++ c' :: u ++ rest)
              = split_top_level f r s c (c' :: reverse t ++ o :: cur) (u ++ rest)).
    { destruct Hb.
      - destruct (Hin (S r) s c) as (f & E & Hl); [lia|]. exists f. split; [done|]. exact E.
      - destruct (Hin r (S s) c) as (f & E & Hl); [lia|]. exists f. split; [done|]. exact E.
      - destruct (Hin r s (S c)) as (f & E & Hl); [lia|]. exists f. split; [done|]. exact E. }
    destruct Hend as (f & Hl & ->). rewrite Hcur. by apply IHu.
Qed.

Lemma split_commas ps cur fuel :
  Forall (balanced true) ps -> (length (concat (map (cons 44%Z) ps)) < fuel)%nat ->
  split_top_level fuel 0 0 0 cur (concat (map (cons 44) ps)) = Ok (reverse cur :: ps).
Proof.
  intros H. revert cur fuel. induction H as [|p ps Hp Hps IH]; intros cur fuel Hf.
  - destruct fuel; [lia|done].
  - destruct fuel as [|fuel]; [lia|]. cbn [map concat app length] in *. cbn [split_top_level is_quote Z.eqb Pos.eqb orb andb Nat.eqb].
    destruct (split_balanced true p fuel 0 0 0 [] (concat (map (cons 44) ps))) as (f & Hl & E);
      [done|by left|by destruct ps|lia|].
    rewrite E, app_nil_r, IH by done. cbn [rbind]. by rewrite reverse_involutive.
Qed.

Lemma parts_of_group o c ps :
  Forall (balanced true) ps ->
  parts_of (o :: commas ps ++ [c]) = Ok (match ps with [] => [[]] | _ => ps end).
Proof.
  intros H. unfold parts_of.
  assert (Hi : inside (o :: commas ps ++ [c]) = commas ps).
  { unfold inside. cbn [drop length]. rewrite drop_0, length_app. cbn [length].
    replace (S _ - 2)%nat with (length (commas ps)) by lia. apply take_app_length. }
  rewrite Hi. destruct H as [|p ps Hp Hps]; [done|]. cbn [commas].
  destruct (split_balanced true p (S (length (o :: (p ++ concat (map (cons 44) ps)) ++ [c]))) 0 0 0 []
              (concat (map (cons 44) ps))) as (f & Hl & E);
    [done|by left|by destruct ps|cbn [length]; rewrite !length_app; simpl; lia|].
  by rewrite E, split_commas, app_nil_r, reverse_involutive.
Qed.

End Scan.

(** What the parser reads in printed values, arguments and selections. *)
Module Reading.
Import Parser Exec GraphQLFacts Printer Scan.

(** Where a value ends. *)
Definition ends (rest : list Z) : Prop :=
  match rest with [] => True | x :: _ => x = 44 \/ x = 41 \/ x = 93 \/ x = 125 end.

Definition token_byte (x : Z) : bool := is_ident_byte x || number_byte x.

Lemma token_byte_plain x : token_byte x = true ->
  (plain x && negb (x =? 44) = true) /\ is_space x = false /\ (x =? 35) = false /\ (x =? 36) = false.
Proof.
  unfold token_byte, number_byte, is_ident_byte, is_digit, plain, is_quote, is_space, between. intros H. lia.
Qed.

Lemma skip_token_app l rest : forallb token_byte l = true -> ends rest -> skip_token (l ++ rest) = rest.
Proof.
  intros Hl Hr. induction l as [|x l IH]; cbn [app].
  - destruct rest as [|x rest]; [done|]. cbn [ends] in Hr. cbn [skip_token]. by destruct Hr as [->|[->|[->| ->]]].
  - cbn [forallb] in Hl. apply andb_true_iff in Hl as [Hx Hl]. cbn [skip_token].
    apply token_byte_plain in Hx as (Hp & Hs & _ & _). apply andb_true_iff in Hp as [Hp Hc].
    apply plain_tests in Hp as (_ & _ & H41 & _ & H93 & _ & H125).
    rewrite Hs, H41, H93, H125. apply negb_true_iff in Hc as ->. by apply IH.
Qed.

Lemma token_balanced l : forallb token_byte l = true -> balanced true l.
Proof.
  intros H. apply balanced_plain. induction l as [|x l IH]; [done|]. cbn [forallb] in *.
  apply andb_true_iff in H as [Hx Hl]. apply token_byte_plain in Hx as (-> & _). by apply IH.
Qed.

(** No white space and no comment in front. *)
Definition solid (t : list Z) : Prop := match t with x :: _ => is_space x = false /\ (x =? 35) = false | [] => False end.

Lemma skip_ws_solid t rest : solid t -> skip_ws (t ++ rest) = t ++ rest.
Proof.
  destruct t as [|x t]; [done|]. intros [Hs Hc]. unfold skip_ws. cbn [app skip_ws_in]. by rewrite Hc, Hs.
Qed.

Lemma skip_ws_ends rest : ends rest -> skip_ws rest = rest.
Proof. destruct rest as [|x rest]; [done|]. intros [->|[->|[->| ->]]]; reflexivity. Qed.

Lemma solid_not_blank t : solid t -> is_blank_part t = false.
Proof. destruct t as [|x t]; [done|]. intros [Hs _]. unfold is_blank_part. cbn [forallb]. by rewrite Hs. Qed.

Lemma solid_app t u : solid t -> solid (t ++ u).
Proof. by destruct t. Qed.

(** *** Names *)

Lemma identifier_bytes s : identifier s = true -> bytes_of s <> [] /\ forallb is_ident_byte (bytes_of s) = true.
Proof.
  unfold identifier. rewrite andb_true_iff, negb_true_iff. intros [Hn Hb]. split; [|done].
  by destruct s.
Qed.

Definition stops (rest : list Z) : Prop := match rest with x :: _ => is_ident_byte x = false | [] => True end.

Lemma skip_ident_app l rest : forallb is_ident_byte l = true -> stops rest -> skip_ident (l ++ rest) = rest.
Proof.
  intros Hl Hr. induction l as [|x l IH]; cbn [app].
  - destruct rest as [|x rest]; [done|]. cbn [skip_ident]. by rewrite Hr.
  - cbn [forallb] in Hl. apply andb_true_iff in Hl as [Hx Hl]. cbn [skip_ident]. rewrite Hx. by apply IH.
Qed.

Lemma ident_token l : forallb is_ident_byte l = true -> forallb token_byte l = true.
Proof.
  intros H. induction l as [|x l IH]; [done|]. cbn [forallb] in *. apply andb_true_iff in H as [Hx Hl].
  unfold token_byte. rewrite Hx. by apply IH.
Qed.

Lemma identifier_solid s : identifier s = true -> solid (bytes_of s).
Proof.
  intros H. apply identifier_bytes in H as [Hn Hb]. apply ident_token in Hb.
  destruct (bytes_of s) as [|x t]; [done|]. cbn [forallb] in Hb. apply andb_true_iff in Hb as [Hx _].
  by apply token_byte_plain in Hx as (_ & Hs & Hc & _).
Qed.

(** Reading a name and what follows it. *)
Lemma read_name s rest : identifier s = true -> stops rest ->
  skip_ws (bytes_of s ++ rest) = bytes_of s ++ rest /\
  skip_ident (bytes_of s ++ rest) = rest /\
  Nat.eqb (length rest) (length (bytes_of s ++ rest)) = false /\
  of_bytes (slice (bytes_of s ++ rest) rest) = s.
Proof.
  intros Hs Hr. split; [by apply skip_ws_solid, identifier_solid|].
  apply identifier_bytes in Hs as [Hn Hb]. split; [by apply skip_ident_app|]. split.
  - apply Nat.eqb_neq. rewrite length_app. destruct (bytes_of s); [done|]. simpl. lia.
  - rewrite slice_app. apply of_bytes_bytes_of.
Qed.

Lemma names_ok_cons x l : names_ok (x :: l) = true -> identifier x = true /\ x ∉ l /\ names_ok l = true.
Proof.
  unfold names_ok. cbn [forallb]. rewrite !andb_true_iff, !bool_decide_eq_true, NoDup_cons. tauto.
Qed.

Section Values.
Context `{GJL : GraphJsonLaw}.

Lemma print_value_solid k v : value_ok k v = true -> solid (print_value v).
Proof.
  destruct k as [|k]; [done|]. destruct v as [|b|n|s|l|m]; cbn [value_ok print_value]; [done| |  |done..].
  - by destruct b.
  - destruct (number_as_i64 n) eqn:En; [|done]. intros _.
    destruct (integer_text n) as [Hne Hb]; [by rewrite En|]. destruct (number_text n) as [|a t]; [done|].
    cbn [bytes_of forallb] in *. apply andb_true_iff in Hb as [Hx _].
    assert (Ht : token_byte (byte_of a) = true) by (unfold token_byte; by rewrite Hx, orb_true_r).
    by apply token_byte_plain in Ht as (_ & Hs & Hc & _).
Qed.

Lemma number_token n : is_Some (number_as_i64 n) -> forallb token_byte (bytes_of (number_text n)) = true.
Proof.
  intros Hn. apply integer_text in Hn as [_ Hb]. induction (bytes_of _) as [|x l IH]; [done|].
  cbn [forallb] in *. apply andb_true_iff in Hb as [Hx Hl]. unfold token_byte. rewrite Hx, orb_true_r. by apply IH.
Qed.

Lemma forallb_Forall {A} (f : A -> bool) l : forallb f l = true <-> Forall (fun x => f x = true) l.
Proof.
  induction l as [|x l IH]; [split; [constructor|done]|]. cbn [forallb].
  rewrite andb_true_iff, IH, Forall_cons. done.
Qed.

Lemma print_member_balanced k kv :
  (forall v, value_ok k v = true -> balanced true (print_value v)) ->
  identifier kv.1 = true -> value_ok k kv.2 = true -> balanced true (print_member kv).
Proof.
  intros IH Hid Hv. apply balanced_app; [|by apply bal_plain, IH|done].
  apply token_balanced, ident_token. by apply identifier_bytes.
Qed.

Lemma members_balanced k m :
  (forall v, value_ok k v = true -> balanced true (print_value v)) -> args_ok k m = true ->
  Forall (balanced true) (map print_member m).
Proof.
  intros IH. unfold args_ok. rewrite andb_true_iff. intros [Hn Hv]. induction m as [|kv m IHm]; [constructor|].
  cbn [forallb map] in *. apply andb_true_iff in Hv as [Hv Hm]. apply names_ok_cons in Hn as (Hid & _ & Hn).
  constructor; [by eapply print_member_balanced|auto].
Qed.

Lemma print_value_balanced k v : value_ok k v = true -> balanced true (print_value v).
Proof.
  revert v. induction k as [|k IH]; intros v Hv; [done|].
  destruct v as [|b|n|s|l|m]; cbn [value_ok print_value] in *.
  - by apply balanced_plain.
  - by destruct b; apply balanced_plain.
  - apply token_balanced, number_token. by destruct (number_as_i64 n).
  - rewrite <- (app_nil_r (print_string s)). apply bal_string; [done|constructor].
  - apply (bal_group true 91 93 _ []); [constructor| |constructor]. apply balanced_commas, Forall_map.
    apply forallb_Forall in Hv. eapply Forall_impl; [exact Hv|apply IH].
  - apply (bal_group true 123 125 _ []); [constructor| |constructor].
    by apply balanced_commas, (members_balanced k).
Qed.

(** *** Values *)

Definition reads (k : nat) (vars : Value) : Prop :=
  forall v rest, value_ok k v = true -> ends rest ->
    parse_value k vars (print_value v ++ rest) = Ok (v, rest).

Lemma parse_items_print k vars l :
  reads k vars -> forallb (value_ok k) l = true ->
  parse_items (parse_value k vars) (map print_value l) = Ok l.
Proof.
  intros Hr. induction l as [|v l IH]; [done|]. cbn [forallb map parse_items].
  rewrite andb_true_iff. intros [Hv Hl]. rewrite (solid_not_blank _ (print_value_solid k v Hv)).
  pose proof (Hr v [] Hv I) as H. rewrite app_nil_r in H. rewrite H. cbn [rbind]. by rewrite IH.
Qed.

Lemma lookup_key_fresh {A} x (v : A) acc l :
  NoDup (acc ++ (x, v) :: l).*1 -> lookup_key x acc = None.
Proof.
  rewrite fmap_app. intros (_ & Hd & _)%NoDup_app. apply lookup_key_none. intros Hx.
  apply (Hd x Hx). apply list_elem_of_here.
Qed.

Lemma parse_members_print k vars acc m :
  reads k vars -> args_ok k m = true -> NoDup (acc ++ m).*1 ->
  parse_members (parse_value k vars) acc (map print_member m) = Ok (acc ++ m).
Proof.
  intros Hr Hok. revert acc. unfold args_ok in Hok. apply andb_true_iff in Hok as [Hn Hv].
  induction m as [|[x v] m IH]; intros acc Hnd; [by rewrite app_nil_r|].
  cbn [forallb map snd fmap list_fmap fst] in *. apply names_ok_cons in Hn as (Hid & _ & Hn).
  apply andb_true_iff in Hv as [Hv Hm]. cbn [parse_members].
  assert (Hs : solid (print_member (x, v))) by by apply solid_app, identifier_solid.
  rewrite (solid_not_blank _ Hs). unfold print_member. cbn [fst snd].
  destruct (read_name x (58 :: print_value v) Hid eq_refl) as (E1 & E2 & E3 & E4).
  rewrite E1, E2, E3, E4. cbn [skip_ws skip_ws_in is_space Z.eqb Pos.eqb orb].
  pose proof (Hr v [] Hv I) as H. rewrite app_nil_r in H. rewrite H. cbn [rbind].
  rewrite (lookup_key_fresh x v acc m Hnd). rewrite IH; [by rewrite <- app_assoc|done..|].
  by rewrite <- app_assoc.
Qed.

(** A bare token. *)
Lemma parse_token k vars l rest v :
  forallb token_byte l = true -> l <> [] -> json_of_slice l = Ok v -> ends rest ->
  parse_value (S k) vars (l ++ rest) = Ok (v, rest).
Proof.
  intros Hl Hn Hj Hr. cbn [parse_value].
  destruct l as [|x l]; [done|]. pose proof Hl as Hl'. cbn [forallb] in Hl.
  apply andb_true_iff in Hl as [Hx Hl]. apply token_byte_plain in Hx as (Hp & Hs & Hc & Hd).
  rewrite skip_ws_solid by done. apply andb_true_iff in Hp as [Hp _].
  apply plain_tests in Hp as (Hq & _ & _ & H91 & _ & H123 & _). cbn [app].
  rewrite Hq, H91, H123, Hd. change (x :: l ++ rest) with ((x :: l) ++ rest).
  rewrite skip_token_app, slice_app by done. unfold parse_literal. by rewrite Hj.
Qed.

(** A group of balanced parts. *)
Lemma read_group o c ps rest :
  bracket o c -> Forall (balanced true) ps ->
  skip_balanced o c (o :: commas ps ++ c :: rest) = Ok rest /\
  slice (o :: commas ps ++ c :: rest) rest = o :: commas ps ++ [c].
Proof.
  intros Hb Hp. split; [apply skip_group_whole; [done|by apply balanced_commas]|].
  replace (o :: commas ps ++ c :: rest) with ((o :: commas ps ++ [c]) ++ rest)
    by (cbn [app]; by rewrite <- app_assoc). apply slice_app.
Qed.

Lemma parse_value_print k vars : reads k vars.
Proof.
  induction k as [|k IH]; intros v rest Hv Hr; [done|].
  destruct v as [|b|n|s|l|m]; cbn [value_ok print_value] in *.
  - apply parse_token; [done|done|apply json_null|done].
  - apply parse_token; [by destruct b|by destruct b|apply json_bool|done].
  - assert (Hn : is_Some (number_as_i64 n)) by by destruct (number_as_i64 n).
    apply parse_token; [by apply number_token| |by apply json_integer|done].
    apply integer_text in Hn as [Hn _]. by destruct (number_text n).
  - assert (Hq : no_quote rest) by (destruct rest as [|x rest]; [done|]; cbn in *; lia).
    cbn [parse_value]. rewrite skip_ws_solid by done.
    pose proof (skip_string_print s rest Hq) as Hs. pose proof (slice_app (print_string s) rest) as Hsl.
    assert (Hl : parse_string_literal (print_string s) = Ok (VString s)).
    { unfold print_string. cbn [parse_string_literal Z.eqb Pos.eqb]. rewrite length_app. cbn [length].
      replace (_ + 1 - 1)%nat with (length (escape (bytes_of s))) by lia. rewrite take_app_length, unescape_escape.
      cbn [rbind]. by rewrite of_bytes_bytes_of. }
    assert (E : (let? r := skip_string (print_string s ++ rest) in
                 let? v := parse_string_literal (slice (print_string s ++ rest) r) in Ok (v, r))
                = Ok (VString s, rest)).
    { rewrite Hs. cbn [rbind]. by rewrite Hsl, Hl. }
    pose proof (escape_head (bytes_of s)) as He. unfold print_string in *. cbn [app] in *.
    cbn [is_quote Z.eqb Pos.eqb orb]. rewrite <- app_assoc in E |- *. cbn [app] in *.
    destruct (escape (bytes_of s)) as [|x t]; cbn [app] in *.
    + destruct rest as [|y rest]; [exact E|]. cbn [no_quote] in Hq. destruct (Z.eqb_spec y 39); [done|].
      rewrite andb_false_r. exact E.
    + cbn [no_quote] in He. destruct (Z.eqb_spec x 39); [done|]. cbn [andb]. destruct (t ++ 39 :: rest); exact E.
  - assert (Hp : Forall (balanced true) (map print_value l)).
    { apply Forall_map. apply forallb_Forall in Hv. eapply Forall_impl; [exact Hv|]. apply print_value_balanced. }
    destruct (read_group 91 93 _ rest square Hp) as [E1 E2].
    cbn [app]. rewrite <- app_assoc. cbn [app parse_value skip_ws skip_ws_in is_space is_quote Z.eqb Pos.eqb orb].
    rewrite E1. cbn [rbind]. rewrite E2, parts_of_group by done. cbn [rbind].
    pose proof (parse_items_print k vars l IH Hv) as E3. destruct l as [|v l]; [done|].
    cbn [map] in *. by rewrite E3.
  - assert (Hp : Forall (balanced true) (map print_member m)).
    { apply (members_balanced k); [apply print_value_balanced|done]. }
    destruct (read_group 123 125 _ rest curly Hp) as [E1 E2].
    change (map (fun kv => bytes_of kv.1 ++ 58 :: print_value kv.2) m) with (map print_member m).
    cbn [app]. rewrite <- app_assoc. cbn [app parse_value skip_ws skip_ws_in is_space is_quote Z.eqb Pos.eqb orb].
    rewrite E1. cbn [rbind]. rewrite E2, parts_of_group by done. cbn [rbind].
    assert (E3 : parse_members (parse_value k vars) [] (map print_member m) = Ok m).
    { apply (parse_members_print k vars []); [done|done|]. apply andb_true_iff in Hv as [Hn _].
      apply andb_true_iff in Hn as [Hn _]. by apply bool_decide_eq_true in Hn. }
    destruct m as [|kv m]; [done|]. cbn [map] in *. by rewrite E3.
Qed.

(** *** Arguments *)

Lemma args_loop_print k vars fuel acc args :
  args_ok k args = true -> NoDup (acc ++ args).*1 ->
  (length (commas (map print_member args) ++ [41%Z]) < fuel)%nat ->
  args_loop fuel (parse_value k vars) acc (commas (map print_member args) ++ [41]) = Ok (acc ++ args).
Proof.
  revert fuel acc. induction args as [|[x v] args IH]; intros fuel acc Hok Hnd Hf; (destruct fuel as [|fuel]; [lia|]).
  { by rewrite app_nil_r. }
  pose proof Hok as Hok'. unfold args_ok in Hok. cbn [forallb snd fmap list_fmap fst] in Hok.
  apply andb_true_iff in Hok as [Hn Hv]. apply names_ok_cons in Hn as (Hid & _ & Hn).
  apply andb_true_iff in Hv as [Hv Hm].
  assert (Hok : args_ok k args = true) by (unfold args_ok; by rewrite Hn, Hm).
  assert (E : commas (map print_member ((x, v) :: args)) ++ [41] = bytes_of x ++ 58 :: print_value v ++
            concat (map (cons 44) (map print_member args)) ++ [41]).
  { cbn [map commas]. unfold print_member at 1. cbn [fst snd]. by rewrite <- !app_assoc. }
  rewrite E in Hf |- *. cbn [args_loop].
  destruct (read_name x (58 :: print_value v ++ concat (map (cons 44) (map print_member args)) ++ [41]) Hid eq_refl)
    as (E1 & E2 & E3 & E4).
  rewrite E1. pose proof (identifier_solid x Hid) as Hs. pose proof (identifier_bytes x Hid) as [Hne Hib].
  rewrite E2, E3, E4. rewrite length_app in Hf. cbn [length] in Hf. clear E1 E2 E3 E4 E.
  destruct (bytes_of x) as [|c t]; [done|]. cbn [app]. cbn [forallb] in Hib. apply andb_true_iff in Hib as [Hc _].
  assert (H41 : (c =? 41) = false).
  { unfold is_ident_byte, is_digit, between in Hc. lia. }
  rewrite H41. cbn [skip_ws skip_ws_in is_space Z.eqb Pos.eqb orb].
  rewrite skip_ws_solid by by eapply print_value_solid.
  assert (He : ends (concat (map (cons 44) (map print_member args)) ++ [41])).
  { destruct args; cbn; auto. }
  rewrite parse_value_print by done. cbn [rbind]. rewrite (lookup_key_fresh x v acc args Hnd).
  rewrite skip_ws_ends by done. rewrite !length_app in Hf.
  destruct args as [|[y w] args].
  - cbn [map concat app]. change (41 =? 44) with false. cbn match. destruct fuel; [simpl in Hf; lia|done].
  - cbn [map concat app] in *. change (44 =? 44) with true. cbn match. rewrite IH; [by rewrite <- app_assoc|done|..].
    + by rewrite <- app_assoc.
    + cbn [map commas]. repeat (rewrite length_app in Hf || rewrite length_app || cbn [length] in Hf || cbn [length]). lia.
Qed.

Lemma print_args_read k vars args rest :
  args_ok k args = true -> args <> [] ->
  skip_parens (print_args args ++ rest) = Ok rest /\
  parse_args (parse_value k vars) (slice (print_args args ++ rest) rest) = Ok args.
Proof.
  intros Hok Hne. assert (Hp : Forall (balanced true) (map print_member args)).
  { apply (members_balanced k); [apply print_value_balanced|done]. }
  rewrite slice_app. unfold print_args. destruct args as [|a args]; [done|]. split.
  - cbn [app]. rewrite <- app_assoc. apply skip_group_whole; [constructor|by apply balanced_commas].
  - unfold parse_args. cbn [skip_ws skip_ws_in is_space Z.eqb Pos.eqb orb].
    apply (args_loop_print k vars _ []); [done| |cbn [length]; lia].
    unfold args_ok in Hok. apply andb_true_iff in Hok as [Hn _]. apply andb_true_iff in Hn as [Hn _].
    by apply bool_decide_eq_true in Hn.
Qed.

(** *** Fields *)

(** What follows a printed field: the next field or the end of the selection. *)
Definition follows (rest : list Z) : Prop :=
  stops rest /\ skip_ws (skip_ws rest) = skip_ws rest /\
  match skip_ws rest with x :: _ => is_ident_byte x || (x =? 125) = true | [] => False end.

Definition set_reads (k : nat) (set : set_parser) : Prop :=
  forall s rest, node_ok k (Node [] (Some s)) = true -> values_ok k (Node [] (Some s)) = true ->
    set (123 :: print_fields s ++ 125 :: rest) = Ok (s, rest).

Lemma node_ok_selection k args sel : node_ok k (Node args sel) = true -> node_ok k (Node [] sel) = true.
Proof. destruct k; cbn [node_ok]; by intros [_ H]%andb_true_iff. Qed.

Lemma values_ok_selection k args sel :
  values_ok k (Node args sel) = true -> args_ok (S k) args = true /\ values_ok k (Node [] sel) = true.
Proof. destruct k; cbn [values_ok]; by intros [Ha H]%andb_true_iff. Qed.

Lemma follow_tests rest x t : follows rest -> skip_ws rest = x :: t ->
  (x =? 58) = false /\ (x =? 40) = false /\ (x =? 64) = false /\ (x =? 123) = false.
Proof.
  intros (_ & _ & H) E. rewrite E in H. unfold is_ident_byte, is_digit, between in H. lia.
Qed.

Lemma print_args_nil_or args : args = [] \/ exists t, args <> [] /\ print_args args = 40 :: t.
Proof. destruct args as [|a args]; [by left|]. right. by eexists. Qed.

Lemma skip_directives_none fuel x t : (x =? 64) = false -> skip_directives (S fuel) (x :: t) = Ok (x :: t).
Proof. intros H. cbn [skip_directives]. by rewrite H. Qed.

(** After the name: what [parse_field] does with the printed arguments and selection. *)
Lemma parse_field_print k vars set name args sel rest :
  set_reads k set -> identifier name = true ->
  node_ok k (Node args sel) = true -> values_ok k (Node args sel) = true -> follows rest ->
  exists r, parse_field (parse_value (S k) vars) set (bytes_of name ++ print_node (Node args sel) ++ rest)
            = Ok (name, args, sel, r) /\ skip_ws r = skip_ws rest.
Proof.
  intros Hset Hid Hok Hv Hrest. apply node_ok_selection in Hok. apply values_ok_selection in Hv as [Ha Hv].
  pose proof Hrest as (Hstop & Hidem & Hf). destruct (skip_ws rest) as [|y f] eqn:Ef; [done|].
  pose proof (follow_tests rest y f Hrest Ef) as (T58 & T40 & T64 & T123).
  set (tail := match sel with None => rest | Some s => 123 :: print_fields s ++ 125 :: rest end).
  assert (E : print_node (Node args sel) ++ rest = print_args args ++ tail).
  { destruct sel as [s|]; cbn [print_node]; [|done]. rewrite <- app_assoc. cbn [app]. by rewrite <- app_assoc. }
  assert (Et : skip_ws tail = match sel with None => y :: f | Some _ => tail end).
  { unfold tail. by destruct sel. }
  (* once the arguments are read *)
  assert (Hend : exists r,
            (let? b := skip_directives (S (length (skip_ws tail))) (skip_ws tail) in
             if match b with x :: _ => x =? 123 | [] => false end
             then let? (s, b) := set b in Ok (name, args, Some s, b)
             else Ok (name, args, None, b)) = Ok (name, args, sel, r) /\ skip_ws r = y :: f).
  { rewrite Et. destruct sel as [s|]; unfold tail.
    - rewrite skip_directives_none by done. cbn [rbind]. change (123 =? 123) with true. cbn match.
      rewrite Hset by done. cbn [rbind]. by exists rest.
    - rewrite skip_directives_none by done. cbn [rbind]. rewrite T123. by exists (y :: f). }
  destruct Hend as (r & Hr & Hws). exists r. split; [|done]. rewrite E. unfold parse_field.
  assert (Hst : stops (print_args args ++ tail)).
  { destruct (print_args_nil_or args) as [->|(t & _ & ->)]; [|done]. cbn [print_args app]. unfold tail. by destruct sel. }
  destruct (read_name name _ Hid Hst) as (E1 & E2 & E3 & E4). rewrite E1, E2, E3, E4. clear E1 E2 E3 E4.
  destruct (print_args_nil_or args) as [->|(t & Hne & Hp)].
  - cbn [print_args app]. rewrite Et in Hr |- *. destruct sel as [s|]; unfold tail in *; [exact Hr|].
    rewrite T58, T40. exact Hr.
  - pose proof (print_args_read (S k) vars args tail Ha Hne) as [E1 E2]. rewrite Hp in *. cbn [app] in *.
    cbn [skip_ws skip_ws_in is_space Z.eqb Pos.eqb orb].
    change (40 =? 58) with false. change (40 =? 40) with true. cbn match. rewrite E1. cbn [rbind]. rewrite E2.
    exact Hr.
Qed.

Lemma insert_key_fresh {A} x (v : A) acc : x ∉ acc.*1 -> insert_key x v acc = acc ++ [(x, v)].
Proof.
  induction acc as [|[k w] acc IH]; [done|]. cbn [fmap list_fmap fst insert_key app].
  rewrite not_elem_of_cons. intros [Hk Hx]. destruct (String.eqb_spec k x); [by subst|]. by rewrite IH.
Qed.

Lemma print_fields_cons x n s : print_fields ((x, n) :: s) = bytes_of x ++ print_node n ++ 32 :: print_fields s.
Proof. unfold print_fields. cbn [map concat fst snd]. by rewrite <- !app_assoc. Qed.

(** The fields of a printed selection, then its brace. *)
Lemma fields_start s rest : forallb identifier s.*1 = true ->
  exists x t, print_fields s ++ 125 :: rest = x :: t /\ is_ident_byte x || (x =? 125) = true /\
    skip_ws (x :: t) = x :: t /\ (s <> [] -> is_ident_byte x = true).
Proof.
  destruct s as [|[x n] s]; [by exists 125, rest|]. cbn [fmap list_fmap fst forallb]. intros [Hx _]%andb_true_iff.
  rewrite print_fields_cons. pose proof (identifier_solid x Hx) as Hs. apply identifier_bytes in Hx as [Hne Hb].
  destruct (bytes_of x) as [|c t]; [done|]. cbn [app]. eexists c, _. split; [done|].
  cbn [forallb] in Hb. apply andb_true_iff in Hb as [Hc _]. rewrite Hc. split; [done|]. split; [|done].
  rewrite <- app_assoc. by apply (skip_ws_solid (c :: t)).
Qed.

Lemma follows_fields s rest : forallb identifier s.*1 = true -> follows (32 :: print_fields s ++ 125 :: rest).
Proof.
  intros H. destruct (fields_start s rest H) as (x & t & -> & Hx & Hw & _). split; [done|].
  assert (E : skip_ws (32 :: x :: t) = x :: t).
  { exact Hw. }
  rewrite E. by split.
Qed.

Lemma fields_loop_print k vars set fuel acc s rest :
  set_reads k set -> names_ok s.*1 = true -> NoDup (acc ++ s).*1 ->
  forallb (fun f => node_ok k f.2) s = true -> forallb (fun f => values_ok k f.2) s = true ->
  (length (print_fields s ++ 125%Z :: rest) < fuel)%nat ->
  fields_loop fuel (parse_value (S k) vars) set acc (print_fields s ++ 125 :: rest) = Ok (acc ++ s, rest).
Proof.
  intros Hset. revert fuel acc. induction s as [|[x [args sel]] s IH]; intros fuel acc Hn Hnd Hok Hv Hf;
    (destruct fuel as [|fuel]; [lia|]).
  { by rewrite app_nil_r. }
  assert (Hids : forallb identifier ((x, Node args sel) :: s).*1 = true).
  { by unfold names_ok in Hn; apply andb_true_iff in Hn as [_ Hn]. }
  destruct (fields_start ((x, Node args sel) :: s) rest Hids) as (c & t & Ec & _ & _ & Hc).
  specialize (Hc ltac:(done)). assert (Hcc : (c =? 125) = false /\ (c =? 46) = false).
  { unfold is_ident_byte, is_digit, between in Hc. lia. }
  cbn [fmap list_fmap fst forallb snd] in *. apply names_ok_cons in Hn as (Hid & _ & Hn).
  apply andb_true_iff in Hok as [Hok Hoks]. apply andb_true_iff in Hv as [Hv Hvs]. apply andb_true_iff in Hids as [_ Hids].
  destruct (parse_field_print k vars set x args sel (32 :: print_fields s ++ 125 :: rest)) as (r & Hp & Hr);
    [done..|by apply follows_fields|].
  rewrite print_fields_cons in Ec, Hf |- *. rewrite <- !app_assoc in Ec, Hf |- *. cbn [app] in *.
  rewrite Ec in Hp. rewrite Ec. cbn [fields_loop]. destruct Hcc as [-> ->]. rewrite Hp. cbn [rbind].
  rewrite insert_key_fresh by (apply lookup_key_none; by eapply lookup_key_fresh).
  rewrite Hr. destruct (fields_start s rest Hids) as (y & u & Ey & _ & Hw & _).
  assert (E : skip_ws (32 :: print_fields s ++ 125 :: rest) = print_fields s ++ 125 :: rest).
  { rewrite Ey. exact Hw. }
  rewrite E. rewrite IH; [by rewrite <- app_assoc|done| |done..|].
  - by rewrite <- app_assoc.
  - rewrite !length_app in Hf. cbn [length] in Hf. lia.
Qed.

Lemma parse_selection_set_print k vars : set_reads k (parse_selection_set k vars).
Proof.
  induction k as [|k IH]; intros s rest Hok Hv; [done|]. cbn [node_ok values_ok] in *.
  cbn [fmap list_fmap] in Hok. apply andb_true_iff in Hok as [_ Hok]. apply andb_true_iff in Hok as [Hok Hn].
  apply andb_true_iff in Hok as [Hne Hnames]. apply andb_true_iff in Hv as [_ Hv].
  assert (Hids : forallb identifier s.*1 = true) by (unfold names_ok in Hnames; by apply andb_true_iff in Hnames as [_ ?]).
  destruct (fields_start s rest Hids) as (x & t & E & _ & Hw & Hx).
  assert (Hs : s <> []) by (intros ->; done). specialize (Hx Hs).
  assert (Hx125 : (x =? 125) = false) by (unfold is_ident_byte, is_digit, between in Hx; lia).
  cbn [parse_selection_set drop]. rewrite ?drop_0, E, Hw, Hx125, <- E.
  apply (fields_loop_print k vars _ _ []); [exact IH|done| |done|done|lia].
  unfold names_ok in Hnames. apply andb_true_iff in Hnames as [Hnd _]. by apply bool_decide_eq_true in Hnd.
Qed.

(** *** Queries *)

Lemma parse_operation_print op rest :
  parse_operation (bytes_of (operation_text op) ++ 123 :: rest) = (op, 123 :: rest).
Proof. by destruct op. Qed.

Ltac bytes :=
  repeat match goal with
  | |- Forall _ (_ ++ _) => apply Forall_app; split
  | |- Forall _ (_ :: _) => apply Forall_cons; split; [lia|]
  | |- Forall _ [] => constructor
  | |- Forall _ (bytes_of _) => apply bytes_of_range
  end.

Lemma escape_range l : Forall (fun x => 0 <= x < 256) l -> Forall (fun x => 0 <= x < 256) (escape l).
Proof.
  induction 1 as [|x l Hx Hl IH]; [constructor|]. cbn [escape]. case_if; repeat constructor; (done || lia).
Qed.

Lemma commas_range ps :
  Forall (Forall (fun x => 0 <= x < 256)) ps -> Forall (fun x => 0 <= x < 256) (commas ps).
Proof.
  intros [|p ps' Hp Hps]; [constructor|]. cbn [commas]. apply Forall_app. split; [done|].
  induction Hps as [|q qs Hq Hqs IH]; [constructor|]. cbn [map concat]. apply Forall_app. split; [|done].
  constructor; [lia|done].
Qed.

Lemma print_value_range v : Forall (fun x => 0 <= x < 256) (print_value v).
Proof.
  induction v as [|b|n|s|l Hl|m Hm] using Value_nested_ind; cbn [print_value].
  1-3: apply bytes_of_range.
  - unfold print_string. bytes. apply escape_range, bytes_of_range.
  - bytes. apply commas_range, Forall_map. done.
  - bytes. apply commas_range, Forall_map. eapply Forall_impl; [exact Hm|]. intros [x v] Hv. by bytes.
Qed.

Lemma print_args_range args : Forall (fun x => 0 <= x < 256) (print_args args).
Proof.
  unfold print_args. destruct args as [|a args]; [constructor|]. bytes. apply commas_range, Forall_map.
  apply Forall_true. intros [x v]. unfold print_member. bytes. apply print_value_range.
Qed.

Lemma print_node_range n : Forall (fun x => 0 <= x < 256) (print_node n).
Proof.
  induction n as [args|args set Hset] using FieldNode_nested_ind; cbn [print_node]; [apply print_args_range|].
  apply Forall_app. split; [apply print_args_range|]. bytes.
  induction Hset as [|f set Hf _ IH]; [constructor|]. cbn [map concat]. by bytes.
Qed.

(** A printed query, whatever comes after its closing brace. *)
Lemma parse_query_print q junk vars :
  printable q = true -> parse_query (print_query q +:+ junk) vars = Ok q.
Proof.
  unfold printable, field_ok. rewrite !andb_true_iff. intros [[Hid Hok] Hv].
  destruct q as [op name args sel]. cbn [f_name f_args f_selection operation] in *.
  unfold parse_query, print_query. cbn [f_name f_args f_selection operation].
  rewrite bytes_of_app, bytes_of_of_bytes by (bytes; apply print_node_range).
  rewrite <- app_assoc. cbn [app]. rewrite <- app_assoc.
  set (node := Node args sel) in *. rewrite <- app_assoc. set (rest := [125] ++ bytes_of junk).
  rewrite (skip_ws_solid (bytes_of (operation_text op))) by (by destruct op).
  rewrite parse_operation_print. cbn beta iota zeta.
  set (body := bytes_of name ++ print_node node ++ rest).
  change (skip_ws (123 :: body)) with (123 :: body). cbn match. change (is_ident_byte 123) with false. cbn match.
  change (skip_header (S (length (123 :: body))) (123 :: body)) with (Ok (T:=list Z) (E:=perror) (123 :: body)).
  cbn [rbind]. change (123 =? 123) with true. cbn match.
  assert (Hw : skip_ws body = body) by by apply skip_ws_solid, identifier_solid.
  assert (Hrest : follows rest) by done.
  destruct (parse_field_print MAX_DEPTH vars (parse_selection_set MAX_DEPTH vars) name args sel rest)
    as (r & Hp & Hr); [apply parse_selection_set_print|done..|].
  fold node body in Hp. rewrite Hw. pose proof (identifier_bytes name Hid) as [Hne Hb].
  destruct body as [|x t] eqn:E; [unfold body in E; by destruct (bytes_of name)|].
  assert (Hx : (x =? 125) = false /\ (x =? 46) = false).
  { unfold body in E. destruct (bytes_of name) as [|c u]; [done|]. cbn [app] in E. simplify_eq.
    cbn [forallb] in Hb. apply andb_true_iff in Hb as [Hc _]. unfold is_ident_byte, is_digit, between in Hc. lia. }
  destruct Hx as [-> ->]. change (S MAX_DEPTH) with levels in Hp. rewrite Hp. cbn [rbind]. rewrite Hr. done.
Qed.

End Values.
End Reading.
