(* ===== verification/GraphQLSpec.v ===== *)
(** * What the GraphQL front end promises

    The properties of [ecat-graphql]: the parser always answers, what it builds is well
    formed and no larger than its text, printed fields read back, and a resolver runs
    only within the query budget, with the arguments over the variables. *)

From S2P Require Import Prelude Json Text.
From S2P Require Import ShardCatalog GraphQL GraphQLFacts GraphQLPrint.

Local Open Scope Z_scope.
Local Open Scope ecat_scope.

Module ExecFacts.
Import Parser Exec GraphQLFacts.

Section Exec.
Context `{GJ : GraphJson} {W : Type}.

(** One call of a field's handler: the resolver, with what it is given. *)
Inductive calls (vars : Value) (q : ParsedField) (w : W) : FieldHandler -> result Value string * W -> Prop :=
| calls_legacy resolver merged :
    merge_args vars (f_args q) = Ok merged -> calls vars q w (Legacy resolver) (resolver merged w)
| calls_rich resolve :
    calls vars q w (Rich resolve)
      (resolve {| r_args := f_args q; r_variables := vars; r_selection := f_selection q |} w).

Definition resolvers_for (s : GraphQLSchema (W:=W)) (op : Operation) : list (string * FieldHandler) :=
  match op with OpMutation => mutation_resolvers s | _ => query_resolvers s end.

Lemma within_budget q l : validate q l = Ok tt <-> complexity (f_selection q) + 1 <= max_complexity l.
Proof. unfold validate. destruct (Z.ltb_spec (max_complexity l) (complexity (f_selection q) + 1)); naive_solver lia. Qed.

Lemma execute_cases schema text vars (w : W) :
  (exists e, execute schema text vars w = (Err [e], w)) \/
  exists q h r, parse_query (trim text) vars = Ok q /\
    complexity (f_selection q) + 1 <= max_complexity (limits schema) /\
    lookup_key (f_name q) (resolvers_for schema (operation q)) = Some h /\
    calls vars q w h r /\ execute schema text vars w = answer (f_name q) r.
Proof.
  unfold execute. destruct (parse_query (trim text) vars) as [q|e]; [|left; eauto].
  destruct (validate q (limits schema)) as [[]|e] eqn:Hv; [|left; eauto]. apply within_budget in Hv.
  fold (resolvers_for schema (operation q)).
  destruct (lookup_key (f_name q) (resolvers_for schema (operation q))) as [[resolver|resolve]|] eqn:Hh; [| |left; eauto].
  - destruct (merge_args vars (f_args q)) as [m|e] eqn:Hm; [|left; eauto].
    right. exists q, (Legacy resolver), (resolver m w). do 3 (split; [done|]). split; [by constructor|done].
  - right. eexists q, (Rich resolve), _. do 3 (split; [done|]). split; [by constructor|done].
Qed.

Lemma lookup_insert_key {A} x y (v : A) l :
  lookup_key x (insert_key y v l) = if String.eqb y x then Some v else lookup_key x l.
Proof.
  induction l as [|[k w] l IH]; cbn [insert_key lookup_key]; [done|].
  destruct (String.eqb_spec k y) as [->|Hk]; cbn [lookup_key]; [by destruct (String.eqb y x)|].
  rewrite IH. destruct (String.eqb_spec k x), (String.eqb_spec y x); congruence.
Qed.

(** Later entries win. *)
Lemma lookup_merge x (args m : list (string * Value)) :
  NoDup args.*1 ->
  lookup_key x (fold_left (fun m kv => insert_key kv.1 kv.2 m) args m) =
  match lookup_key x args with Some v => Some v | None => lookup_key x m end.
Proof.
  revert m. induction args as [|[k v] args IH]; intros m Hnd; [done|].
  cbn [fold_left fst snd lookup_key fmap list_fmap] in *. apply NoDup_cons in Hnd as [Hk Hnd].
  rewrite IH, lookup_insert_key by done. destruct (String.eqb_spec k x) as [->|Hne]; [|done].
  by apply lookup_key_none in Hk as ->.
Qed.

End Exec.
End ExecFacts.

Module GraphQLSpec.
Import Parser Exec GraphQLFacts Printer Reading ExecFacts.

(** *** A concrete [serde_json] for the witnesses: literals and unsigned integers *)

Definition demo_int (n : Z) : option Z := if between 0 n 9 then Some n else None.

#[local] Instance demo_number : JsonNumber := {|
  Number := Z; number_as_i64 := demo_int; number_is_u64 _ := false;
  number_as_f64 _ := None; number_text n := of_bytes [48 + n] |}.

#[local] Instance demo_json : GraphJson := {|
  json_of_slice l :=
    if decide (l = bytes_of "null") then Ok VNull
    else if decide (l = bytes_of "true") then Ok (VBool true)
    else if decide (l = bytes_of "false") then Ok (VBool false)
    else match l with [d] => if is_digit d then Ok (VNumber (d - 48)) else Err "expected value"
                    | _ => Err "expected value" end |}.

Definition demo_num (z : Z) : Value := @VNumber demo_number z.

Lemma demo_int_range n : is_Some (demo_int n) -> 0 <= n <= 9.
Proof. unfold demo_int, between. intros [x H]. destruct (_ && _) eqn:E; [lia|done]. Qed.

Lemma demo_int_bytes n : is_Some (demo_int n) -> bytes_of (of_bytes [48 + n]) = [48 + n].
Proof. intros H%demo_int_range. apply bytes_of_of_bytes. constructor; [lia|constructor]. Qed.

#[local] Instance demo_law : GraphJsonLaw.
Proof.
  split.
  - done.
  - by intros [].
  - intros n Hn. cbn [number_text demo_number number_as_i64] in *. rewrite demo_int_bytes by done.
    apply demo_int_range in Hn. cbn [json_of_slice demo_json]. rewrite !decide_False by done.
    unfold is_digit, between. assert ((48 <=? 48 + n) && (48 + n <=? 57) = true) as -> by lia.
    do 2 f_equal. lia.
  - intros n Hn. cbn [number_text demo_number number_as_i64] in *. rewrite demo_int_bytes by done. split; [done|].
    apply demo_int_range in Hn. cbn [forallb]. unfold number_byte, is_digit, between. lia.
Defined.

(** C18. The parser always answers: whatever the text and the variables, it ends with a field
    or a message, its loops never running past the end of the text; and the complexity of
    the field it answers with never exceeds the number of bytes of the text, so that the
    budget's [usize] sum cannot overflow. *)
Theorem parse_query_answers `{GJ : GraphJson} text vars :
  (exists m, parse_query text vars = Err (Msg m)) \/
  exists q, parse_query text vars = Ok q /\
    0 < complexity (f_selection q) + 1 <= Z.of_nat (length (bytes_of text)).
Proof.
  pose proof (parse_query_good text vars) as H. destruct (parse_query text vars) as [q|[m|]]; [|by left; exists m|done].
  right. exists q. destruct H as [_ H]. pose proof (complexity_nonneg (f_selection q)). split; [done|lia].
Qed.

(** What the parser builds is well formed: every field and argument name is a nonempty
    identifier, the keys of each argument list and of each selection are distinct, no
    selection is empty, and selections nest at most [MAX_DEPTH] levels deep. *)
Theorem parsed_field_well_formed `{GJ : GraphJson} text vars q :
  parse_query text vars = Ok q -> field_ok q = true.
Proof. intros H. by destruct (good_inv _ _ _ (parse_query_good text vars) H). Qed.

Definition demo_text : string := "mutation m { user(id: 7, tags: ['a', [RED]]) { posts { id } name } }".

Example demo_text_parses :
  match parse_query demo_text VNull with
  | Ok q => (f_name q, length (f_args q), complexity (f_selection q))
  | Err _ => ("", O, 0)
  end = ("user", 2%nat, 3).
Proof. vm_compute. reflexivity. Qed.

Definition parsed (r : result ParsedField perror) : ParsedField :=
  match r with Ok q => q | Err _ => {| operation := OpQuery; f_name := ""; f_args := []; f_selection := None |} end.

Lemma parsed_field_well_formed_witness : field_ok (parsed (parse_query demo_text VNull)) = true.
Proof.
  apply (parsed_field_well_formed demo_text VNull). vm_compute. reflexivity.
Defined.

(** C16. Reading a printed field gives the field back: any operation, any arguments whose
    values are built of null, booleans, integers, strings of any bytes, lists and input
    objects within the depth limit, any well-formed tree of selections within it. *)
Theorem parse_print_roundtrip `{GJL : GraphJsonLaw} q vars :
  printable q = true -> parse_query (print_query q) vars = Ok q.
Proof. intros H. rewrite <- (append_nil_r (print_query q)). by apply parse_query_print. Qed.

Definition demo_query : ParsedField :=
  {| operation := OpMutation; f_name := "save";
     f_args := [("note", VString "it's } a \ note"); ("tags", VArray [VNull; VObject [("k", demo_num 3)]])];
     f_selection := Some [("id", Node [] None); ("owner", Node [("n", demo_num 1)] (Some [("name", Node [] None)]))] |}.

Lemma parse_print_roundtrip_witness :
  printable demo_query = true /\ parse_query (print_query demo_query) VNull = Ok demo_query.
Proof.
  assert (H : printable demo_query = true) by (vm_compute; reflexivity).
  split; [exact H | exact (parse_print_roundtrip demo_query VNull H)].
Defined.

(** The parser stops at the closing brace of the operation: whatever text follows a
    printed field, a second operation included, changes nothing and raises no error. *)
Theorem text_after_the_field_is_ignored `{GJL : GraphJsonLaw} q junk vars :
  printable q = true -> parse_query (print_query q +:+ junk) vars = parse_query (print_query q) vars.
Proof.
  intros H. rewrite parse_query_print by done. rewrite <- (append_nil_r (print_query q)).
  by rewrite parse_query_print.
Qed.

Lemma text_after_the_field_is_ignored_witness :
  parse_query (print_query demo_query +:+ " mutation { drop }") VNull = parse_query (print_query demo_query) VNull.
Proof. apply (text_after_the_field_is_ignored demo_query). vm_compute. reflexivity. Defined.

(** C17. A resolver runs only within the budget: [execute] either leaves the world as it was
    and answers with one error, or the text parsed to a field of at most
    [max_complexity] nodes for which the schema has a handler among those of its
    operation, that handler was called, once, and its answer is the response under the
    field's name. *)
Theorem resolver_runs_within_budget `{GJ : GraphJson} {W} (schema : GraphQLSchema (W:=W)) text vars w :
  (exists e, execute schema text vars w = (Err [e], w)) \/
  exists q h r, parse_query (trim text) vars = Ok q /\
    complexity (f_selection q) + 1 <= max_complexity (limits schema) /\
    lookup_key (f_name q) (resolvers_for schema (operation q)) = Some h /\
    calls vars q w h r /\ execute schema text vars w = answer (f_name q) r.
Proof. apply execute_cases. Qed.

(** A legacy resolver sees each argument over the variable of the same name, and every
    other variable unchanged; without arguments, the variables as they came. *)
Theorem arguments_win_over_variables `{GJ : GraphJson} m args x :
  NoDup args.*1 ->
  exists merged, merge_args (VObject m) args = Ok (VObject merged) /\
    lookup_key x merged = match lookup_key x args with Some v => Some v | None => lookup_key x m end.
Proof.
  intros Hnd. destruct args as [|a args]; [by exists m|]. eexists. split; [done|]. by apply lookup_merge.
Qed.

Lemma arguments_win_over_variables_witness :
  exists merged, merge_args (VObject [("id", VNull); ("page", demo_num 2)]) [("id", demo_num 7)] = Ok (VObject merged) /\
    lookup_key "id" merged = Some (demo_num 7).
Proof.
  apply (arguments_win_over_variables [("id", VNull); ("page", demo_num 2)] [("id", demo_num 7)] "id").
  apply NoDup_singleton.
Defined.

(** A mutation keyword that a directive or a comment follows at once is not seen as the
    keyword: [mutation@d { x }] is read as a query, so its field is looked up among the
    query resolvers. *)
Theorem mutation_with_directive_is_a_query `{GJ : GraphJson} vars :
  parse_query "mutation@audit { x }" vars =
    Ok {| operation := OpQuery; f_name := "x"; f_args := []; f_selection := None |} /\
  parse_query "mutation @audit { x }" vars =
    Ok {| operation := OpMutation; f_name := "x"; f_args := []; f_selection := None |}.
Proof. split; vm_compute; reflexivity. Qed.

Lemma parse_missing_value `{GJ : GraphJson} k vars e rest :
  json_of_slice [] = Err e -> parse_value (S k) vars (41 :: rest) = Ok (VString "", 41 :: rest).
Proof.
  intros He. cbn [parse_value]. change (skip_ws (41 :: rest)) with (41 :: rest). cbn [is_quote Z.eqb Pos.eqb orb].
  change (skip_token (41 :: rest)) with (41 :: rest). unfold slice. rewrite Nat.sub_diag. cbn [take].
  unfold parse_literal. by rewrite He.
Qed.

Lemma read_missing `{GJ : GraphJson} value set v :
  value [41] = Ok (v, [41]) ->
  parse_field value set (bytes_of "x(a: ) }") = Ok ("x", [("a", v)], None, [125]).
Proof.
  intros Hv. assert (Ha : parse_args value [40; 97; 58; 32; 41] = Ok [("a", v)]).
  { change (parse_args value _) with
      (let? (v, rest) := value [41] in
       match lookup_key "a" (@nil (string * Value)) with
       | Some _ => duplicate "a"
       | None => args_loop 5 value [("a", v)]
                   (match skip_ws rest with z :: r => if z =? 44 then r else skip_ws rest | [] => skip_ws rest end)
       end).
    rewrite Hv. reflexivity. }
  change (parse_field value set _) with
    (let? (args, b) := (let? args := parse_args value [40; 97; 58; 32; 41] in Ok (args, [125])) in
     let? b := skip_directives (S (length b)) b in
     if match b with x :: _ => x =? 123 | [] => false end
     then let? (s, b) := set b in Ok ("x"%string, args, Some s, b)
     else Ok ("x"%string, args, None, b)).
  rewrite Ha. reflexivity.
Qed.

(** An argument without a value reads as the empty string, where [serde_json] rejects the
    empty text, as it does. *)
Theorem missing_value_is_the_empty_string `{GJ : GraphJson} vars e :
  json_of_slice [] = Err e ->
  parse_query "{ x(a: ) }" vars =
    Ok {| operation := OpQuery; f_name := "x"; f_args := [("a", VString "")]; f_selection := None |}.
Proof.
  intros He.
  change (parse_query _ vars) with
    (let? (name, args, sel, b) :=
       parse_field (parse_value levels vars) (parse_selection_set MAX_DEPTH vars) (bytes_of "x(a: ) }") in
     match skip_ws b with
     | [] => msg "expected '}'"
     | y :: _ =>
         if y =? 125
         then Ok {| operation := OpQuery; f_name := name; f_args := args; f_selection := sel |}
         else if y =? 46 then no_spread
         else msg "multiple top-level fields not supported"
     end).
  rewrite (read_missing _ _ (VString "")); [reflexivity|]. by apply parse_missing_value with e.
Qed.

Lemma missing_value_is_the_empty_string_witness :
  f_args (parsed (parse_query "{ x(a: ) }" VNull)) = [("a", VString "")].
Proof.
  rewrite (missing_value_is_the_empty_string (GJ:=demo_json) VNull "expected value"); [reflexivity|].
  vm_compute. reflexivity.
Defined.

End GraphQLSpec.
