(* ===== verification/Outbox.v ===== *)
(** * The transactional outbox ([ecat-data-sharding])

    [src/ecat-data-sharding/src/outbox.rs] (the leased store) and
    [outbox/relay.rs] (the delivery loop and its back-off), with the outbox check of
    [health.rs].

    The store is one table; a statement is its effect on the rows, a transaction one
    atomic effect.  What the database answers is an input: [fault] says whether a
    call fails and whether it was applied nevertheless.  Instants and durations are
    nanoseconds; the fixed-width text of an instant orders like the instant. *)

From S2P Require Import Prelude Dialect Clock Json ShardCatalog.
From stdpp Require pretty.

Local Open Scope Z_scope.
Local Open Scope ecat_scope.

Module Outbox.
Import Catalog.

(** *** Records *)

Inductive OutboxStatus := Pending | Processing | Done | Failed.

#[export] Instance status_eq_dec : EqDecision OutboxStatus.
Proof. solve_decision. Defined.

Definition as_str (s : OutboxStatus) : string :=
  match s with
  | Pending => "pending"
  | Processing => "processing"
  | Done => "done"
  | Failed => "failed"
  end.

Definition parse (s : string) : result OutboxStatus ShardError :=
  if String.eqb s "pending" then Ok Pending
  else if String.eqb s "processing" then Ok Processing
  else if String.eqb s "done" then Ok Done
  else if String.eqb s "failed" then Ok Failed
  else Err (Database ("unknown outbox status `" +:+ s +:+ "`")).

Record OutboxRecord := {
  id : string;
  aggregate : string;
  payload : list Z;
  status : OutboxStatus;
  attempts : Z;
  next_attempt_at : Z;
}.

(** A row of [ecat_outbox]: the record's columns and the lease. *)
Record OutRow := {
  r_aggregate : string;
  r_payload : list Z;
  r_status : string;
  r_attempts : Z;
  r_next : Z;
  r_claimed : option Z;
}.

Abbreviation table_ := (gmap string OutRow).

(** [from_row]: the status text and the 32-bit range of [attempts] are checked. *)
Definition from_row (i : string) (r : OutRow) : result OutboxRecord ShardError :=
  let? s := parse (r_status r) in
  let? n := (if (0 <=? r_attempts r) && (r_attempts r <=? u32_max) then Ok (r_attempts r)
             else Err (Database "outbox attempts out of range")) in
  Ok {| id := i; aggregate := r_aggregate r; payload := r_payload r; status := s;
        attempts := n; next_attempt_at := r_next r |}.

Definition STALE_BACKOFF : Z := 30 * second.

(** *** The database *)

(** How a call ends: applied; or reporting an error, applied or not. *)
Inductive fault := NoFault | Fault (e : ShardError) (applied : bool).

Definition perform (f : fault) (update : table_ -> table_) (t : table_)
    : result unit ShardError * table_ :=
  match f with
  | NoFault => (Ok tt, update t)
  | Fault e applied => (Err e, if applied then update t else t)
  end.

Definition check_dialect (d : Dialect) : result unit ShardError :=
  match d with Mssql => Err UnsupportedDialect | _ => Ok tt end.

(** *** Appending *)

(** [INSERT]: a conflicting [id] is a database error. *)
Definition append (d : Dialect) (f : fault) (r : OutboxRecord) (t : table_)
    : result unit ShardError * table_ :=
  if decide (status r <> Pending)
  then (Err (Config ("outbox append requires Pending status, got `"
                     +:+ as_str (status r) +:+ "`")), t)
  else
    match check_dialect d with
    | Err e => (Err e, t)
    | Ok _ =>
        match t !! id r with
        | Some _ => (Err (Database "duplicate key"), t)
        | None =>
            perform f (fun t => <[id r := {| r_aggregate := aggregate r; r_payload := payload r;
                                             r_status := as_str (status r);
                                             r_attempts := attempts r;
                                             r_next := next_attempt_at r;
                                             r_claimed := None |}]> t) t
        end
    end.

(** *** Claiming *)

Definition reclaim_row (cutoff stale_next : Z) (r : OutRow) : OutRow :=
  match r_claimed r with
  | Some c =>
      if String.eqb (r_status r) "processing" && (c <? cutoff)
      then {| r_aggregate := r_aggregate r; r_payload := r_payload r; r_status := "pending";
              r_attempts := r_attempts r + 1; r_next := stale_next; r_claimed := None |}
      else r
  | None => r
  end.

(** [UPDATE ... WHERE status = 'processing' AND claimed_at < cutoff]. *)
Definition reclaim (cutoff stale_next : Z) (t : table_) : table_ :=
  reclaim_row cutoff stale_next <$> t.

Definition due (now : Z) (e : string * OutRow) : bool :=
  (String.eqb (r_status e.2) "pending" || String.eqb (r_status e.2) "failed")
  && (r_next e.2 <=? now).

(** [ORDER BY next_attempt_at, id]. *)
Definition order (a b : string * OutRow) : bool :=
  (r_next a.2 <? r_next b.2) || ((r_next a.2 =? r_next b.2) && str_le a.1 b.1).

Definition select_due (now : Z) (limit : nat) (t : table_) : list (string * OutRow) :=
  take limit (sort_by order (List.filter (due now) (map_to_list (t : gmap string OutRow)))).

Definition lease_row (now : Z) (r : OutRow) : OutRow :=
  {| r_aggregate := r_aggregate r; r_payload := r_payload r; r_status := "processing";
     r_attempts := r_attempts r; r_next := r_next r; r_claimed := Some now |}.

(** [UPDATE ... WHERE id IN (ids)]. *)
Definition mark_processing (now : Z) (ids : list string) (t : table_) : table_ :=
  foldr (fun i t => alter (lease_row now) i (t : gmap string OutRow)) t ids.

Fixpoint from_rows (l : list (string * OutRow)) : result (list OutboxRecord) ShardError :=
  match l with
  | [] => Ok []
  | (i, r) :: l => let? x := from_row i r in let? rest := from_rows l in Ok (x :: rest)
  end.

Definition set_processing (r : OutboxRecord) : OutboxRecord :=
  {| id := id r; aggregate := aggregate r; payload := payload r; status := Processing;
     attempts := attempts r; next_attempt_at := next_attempt_at r |}.

(** [claim]: one transaction; any error before the commit leaves the table alone, a
    failing commit may have been applied. *)
Definition claim (d : Dialect) (now : Z) (f : fault) (limit : nat) (lease : Z) (t : table_)
    : result (list OutboxRecord) ShardError * table_ :=
  match limit with
  | O => (Ok [], t)
  | _ =>
      match check_dialect d with
      | Err e => (Err e, t)
      | Ok _ =>
          match checked_add now (- lease) with
          | None => (Err (Config "outbox lease out of range"), t)
          | Some cutoff =>
              match checked_add now STALE_BACKOFF with
              | None => (Err (Config "outbox stale backoff out of range"), t)
              | Some stale_next =>
                  let t1 := reclaim cutoff stale_next t in
                  let rows := select_due now limit t1 in
                  match from_rows rows with
                  | Err e => (Err e, t)
                  | Ok records =>
                      let t2 := mark_processing now (map fst rows) t1 in
                      match perform f (fun _ => t2) t with
                      | (Err e, t) => (Err e, t)
                      | (Ok _, t) => (Ok (map set_processing records), t)
                      end
                  end
              end
          end
      end
  end.

(** *** Completing *)

Definition done_row (r : OutRow) : OutRow :=
  if String.eqb (r_status r) "processing"
  then {| r_aggregate := r_aggregate r; r_payload := r_payload r; r_status := "done";
          r_attempts := r_attempts r; r_next := r_next r; r_claimed := r_claimed r |}
  else r.

Definition mark_done (d : Dialect) (f : fault) (i : string) (t : table_)
    : result unit ShardError * table_ :=
  match check_dialect d with
  | Err e => (Err e, t)
  | Ok _ => perform f (fun t => alter done_row i (t : gmap string OutRow)) t
  end.

Definition failed_row (next : Z) (r : OutRow) : OutRow :=
  if String.eqb (r_status r) "processing"
  then {| r_aggregate := r_aggregate r; r_payload := r_payload r; r_status := "failed";
          r_attempts := r_attempts r + 1; r_next := next; r_claimed := None |}
  else r.

Definition mark_failed (d : Dialect) (now : Z) (f : fault) (i : string) (retry_after : Z)
    (t : table_) : result unit ShardError * table_ :=
  match check_dialect d with
  | Err e => (Err e, t)
  | Ok _ =>
      match checked_add now retry_after with
      | None => (Err (Config "outbox retry_after out of range"), t)
      | Some next => perform f (fun t => alter (failed_row next) i (t : gmap string OutRow)) t
      end
  end.

(** [SELECT COUNT( * ) ... WHERE status <> 'done']. *)
Definition pending_count (t : table_) : nat :=
  length (List.filter (fun e => negb (String.eqb (r_status e.2) "done"))
            (map_to_list (t : gmap string OutRow))).

(** [OutboxHealthCheck::check]. *)
Definition check_backlog (max_backlog : Z) (count : result Z ShardError) (text : ShardError -> string)
    : result unit string :=
  match count with
  | Err e => Err (text e)
  | Ok pending =>
      if max_backlog <? pending
      then Err ("outbox backlog " +:+ pretty.pretty pending +:+ " exceeds "
                +:+ pretty.pretty max_backlog)
      else Ok tt
  end.

End Outbox.

Module Relay.
Import Catalog Outbox.

Definition BASE_BACKOFF : Z := second.
Definition MAX_BACKOFF : Z := 3600 * second.

(** [1i32 << attempts.min(20)]; [checked_mul] of a duration by it. *)
Definition backoff (attempts : Z) : Z :=
  let factor := Z.shiftl 1 (Z.min attempts 20) in
  let product := BASE_BACKOFF * factor in
  if product <? 2 ^ 63 * second then Z.min product MAX_BACKOFF else MAX_BACKOFF.

Record RelayReport := { claimed : Z; done_ : Z; failed : Z }.

Record OutboxRelay := { batch : nat; lease : Z }.

(** What the environment does during a round: the time and the database's answer of
    each call, and what the handler returns. *)
Record round := {
  time : nat -> Z;
  answer : nat -> fault;
  handle : OutboxRecord -> result unit string;
}.

(** The delivery of the claimed records, in order; [n] counts the database calls. *)
Fixpoint deliver (d : Dialect) (env : round) (n : nat) (l : list OutboxRecord)
    (rep : RelayReport) (t : table_) : result RelayReport ShardError * table_ :=
  match l with
  | [] => (Ok rep, t)
  | r :: l =>
      match handle env r with
      | Ok _ =>
          match mark_done d (answer env n) (id r) t with
          | (Err e, t) => (Err e, t)
          | (Ok _, t) =>
              deliver d env (S n) l
                {| claimed := claimed rep; done_ := u32_add (done_ rep) 1; failed := failed rep |} t
          end
      | Err _ =>
          match mark_failed d (time env n) (answer env n) (id r) (backoff (attempts r)) t with
          | (Err e, t) => (Err e, t)
          | (Ok _, t) =>
              deliver d env (S n) l
                {| claimed := claimed rep; done_ := done_ rep; failed := u32_add (failed rep) 1 |} t
          end
      end
  end.

Definition run_once (c : OutboxRelay) (d : Dialect) (env : round) (t : table_)
    : result RelayReport ShardError * table_ :=
  if Nat.eqb (batch c) 0 then (Err (Config "outbox relay batch must be > 0"), t)
  else if lease c =? 0 then (Err (Config "outbox relay lease must be > 0"), t)
  else
    match claim d (time env 0) (answer env 0) (batch c) (lease c) t with
    | (Err e, t) => (Err e, t)
    | (Ok records, t) =>
        deliver d env 1 records
          {| claimed := Z.min (Z.of_nat (length records)) u32_max; done_ := 0; failed := 0 |} t
    end.

(** *** Relays side by side

    Each relay holds the records of its last claim; the head of the list is being
    handled, and [Some] holds the handler's verdict between the handler and the
    write of it. *)

Record worker := { todo : list OutboxRecord; verdict : option bool; claimed_at_ : Z; lease_ : Z }.

Record sys := {
  tbl : table_;
  now : Z;
  workers : gmap nat worker;
  handled : gset string;
}.

Section System.
Context (d : Dialect).

(** Which leases the relays use, and when a relay still writes a verdict: any time
    ([fun _ _ => True]) in the code. *)
Context (lease_ok : Z -> Prop) (prompt : sys -> worker -> Prop).

Definition set_workers (w : gmap nat worker) (s : sys) : sys :=
  {| tbl := tbl s; now := now s; workers := w; handled := handled s |}.
Definition set_tbl (t : table_) (s : sys) : sys :=
  {| tbl := t; now := now s; workers := workers s; handled := handled s |}.

(** A failing write ends the round: [run_once] returns the error. *)
Definition advance (res : result unit ShardError) (k : nat) (w : worker) (s : sys) : sys :=
  match res with
  | Ok _ => set_workers (<[k := {| todo := tail (todo w); verdict := None;
                                   claimed_at_ := claimed_at_ w; lease_ := lease_ w |}]> (workers s)) s
  | Err _ => set_workers (delete k (workers s)) s
  end.

Inductive step (s : sys) : sys -> Prop :=
| step_append f r res t :
    append d f r (tbl s) = (res, t) -> step s (set_tbl t s)
| step_tick n : now s <= n ->
    step s {| tbl := tbl s; now := n; workers := workers s; handled := handled s |}
| step_claim k f limit lease res t :
    (workers s !! k = None \/ exists w, workers s !! k = Some w /\ todo w = []) -> lease_ok lease ->
    claim d (now s) f limit lease (tbl s) = (res, t) ->
    step s (set_tbl t (set_workers match res with
      | Ok l => <[k := {| todo := l; verdict := None; claimed_at_ := now s; lease_ := lease |}]> (workers s)
      | Err _ => delete k (workers s)
      end s))
| step_handle k w r l ok :
    workers s !! k = Some w -> todo w = r :: l -> verdict w = None ->
    step s {| tbl := tbl s; now := now s;
              workers := <[k := {| todo := todo w; verdict := Some ok; claimed_at_ := claimed_at_ w;
                                   lease_ := lease_ w |}]> (workers s);
              handled := if (ok : bool) then {[id r]} ∪ handled s else handled s |}
| step_done k w r l f res t :
    workers s !! k = Some w -> todo w = r :: l -> verdict w = Some true ->
    prompt s w -> mark_done d f (id r) (tbl s) = (res, t) ->
    step s (advance res k w (set_tbl t s))
| step_failed k w r l f res t :
    workers s !! k = Some w -> todo w = r :: l -> verdict w = Some false ->
    prompt s w -> mark_failed d (now s) f (id r) (backoff (attempts r)) (tbl s) = (res, t) ->
    step s (advance res k w (set_tbl t s))
| step_die k : step s (set_workers (delete k (workers s)) s).

Definition init (s : sys) : Prop := tbl s = ∅ /\ workers s = ∅ /\ handled s = ∅.

End System.
End Relay.

(** ** Lemmas *)

Module OutboxFacts.
Import Catalog Outbox Relay.

(** The statuses of a row. *)
Definition pending (r : OutRow) : Prop := r_status r = "pending" \/ r_status r = "failed".
Definition processing (r : OutRow) : Prop := r_status r = "processing".
Definition finished (r : OutRow) : Prop := r_status r = "done".

(** A row is in one of the four states and a lease always has its start. *)
Definition row_ok (now : Z) (r : OutRow) : Prop :=
  (pending r \/ processing r \/ finished r) /\
  (processing r -> exists c, r_claimed r = Some c /\ c <= now).

(** Rows only move forward: the content stays, attempts never fall, done stays. *)
Definition row_le (r r' : OutRow) : Prop :=
  r_aggregate r' = r_aggregate r /\ r_payload r' = r_payload r /\
  r_attempts r <= r_attempts r' /\ (finished r -> finished r').

Lemma row_le_refl r : row_le r r.
Proof. unfold row_le. split_and!; auto. lia. Qed.

Lemma row_le_trans a b c : row_le a b -> row_le b c -> row_le a c.
Proof. intros (? & ? & ? & ?) (? & ? & ? & ?). split_and!; [congruence..|lia|auto]. Qed.

Lemma reclaim_row_le c n r : row_le r (reclaim_row c n r).
Proof.
  unfold reclaim_row. destruct (r_claimed r) as [x|]; [|apply row_le_refl].
  destruct (String.eqb_spec (r_status r) "processing") as [He|]; simpl; [|apply row_le_refl].
  destruct (x <? c); [|apply row_le_refl]. unfold row_le, finished; simpl.
  split_and!; [done|done|lia|]. congruence.
Qed.

Lemma done_row_le r : row_le r (done_row r).
Proof.
  unfold done_row. destruct (String.eqb_spec (r_status r) "processing"); [|apply row_le_refl].
  unfold row_le, finished; simpl. split_and!; [done|done|lia|done].
Qed.

Lemma failed_row_le n r : row_le r (failed_row n r).
Proof.
  unfold failed_row. destruct (String.eqb_spec (r_status r) "processing") as [He|]; [|apply row_le_refl].
  unfold row_le, finished; simpl. split_and!; [done|done|lia|]. congruence.
Qed.

(** *** The table of a claim *)

Lemma mark_processing_lookup now ids t i :
  NoDup ids ->
  (mark_processing now ids t : gmap string OutRow) !! i =
    if decide (i ∈ ids) then lease_row now <$> (t : gmap string OutRow) !! i
    else (t : gmap string OutRow) !! i.
Proof.
  unfold mark_processing. induction ids as [|j ids IH]; intros Hnd; cbn [foldr].
  - case_decide as Hin; [by apply elem_of_nil in Hin|done].
  - apply NoDup_cons in Hnd as [Hj Hnd]. specialize (IH Hnd).
    destruct (decide (i = j)) as [->|Hne].
    + rewrite lookup_alter_eq, IH. case_decide; [done|]. case_decide; [done|set_solver].
    + rewrite lookup_alter_ne by done. rewrite IH. repeat case_decide; set_solver.
Qed.

Lemma select_due_in now limit t e :
  e ∈ select_due now limit t ->
  (t : gmap string OutRow) !! e.1 = Some e.2 /\ pending e.2 /\ r_next e.2 <= now.
Proof.
  unfold select_due. intros Hin. apply elem_of_take in Hin as (i & Hi & _).
  apply list_elem_of_lookup_2 in Hi. rewrite sort_by_perm in Hi.
  apply list_elem_of_In, List.filter_In in Hi as [Hi Hd]. apply list_elem_of_In in Hi.
  destruct e as [k r]. apply elem_of_map_to_list in Hi. split; [done|].
  unfold due in Hd. simpl in *. apply andb_prop in Hd as [Hs Hn]. split; [|by apply Z.leb_le].
  apply orb_prop in Hs as [Hs|Hs]; apply String.eqb_eq in Hs; [by left|by right].
Qed.

Lemma select_due_nodup now limit t : NoDup (map fst (select_due now limit t)).
Proof.
  unfold select_due. set (l := sort_by _ _).
  assert (Hl : NoDup (map fst l)).
  { assert (Hp : map fst l ≡ₚ map fst (List.filter (due now) (map_to_list (t : gmap string OutRow))))
      by (apply Permutation_map, sort_by_perm).
    rewrite Hp. apply filter_keys_nodup. apply NoDup_fst_map_to_list. }
  rewrite <- (take_drop limit l), map_app in Hl. by apply NoDup_app in Hl as [? _].
Qed.

Lemma from_rows_ids l rs : from_rows l = Ok rs -> map id rs = map fst l.
Proof.
  revert rs. induction l as [|[i r] l IH]; intros rs H; simpl in H; [by simplify_eq|].
  unfold from_row in H. destruct (parse (r_status r)); [|done]. simpl in H.
  destruct (_ && _); [|done]. simpl in H. destruct (from_rows l) as [rest|]; [|done].
  simpl in H. simplify_eq. simpl. f_equal. by apply IH.
Qed.

(** What a claim did: nothing, or the reclaim and the leases of what it selected. *)
Lemma claim_spec d now f limit lease t res t' :
  claim d now f limit lease t = (res, t') ->
  (t' = t /\ (res = Ok [] \/ exists e, res = Err e)) \/
  exists cutoff stale rows records,
    cutoff = now - lease /\ stale = now + STALE_BACKOFF /\
    rows = select_due now limit (reclaim cutoff stale t) /\
    from_rows rows = Ok records /\
    t' = mark_processing now (map fst rows) (reclaim cutoff stale t) /\
    (res = Ok (map set_processing records) \/ exists e, res = Err e).
Proof.
  unfold claim. destruct limit as [|limit]; [intros; simplify_eq; left; auto|].
  destruct (check_dialect d); [|intros; simplify_eq; left; eauto].
  unfold checked_add. destruct (_ && _); [|intros; simplify_eq; left; eauto].
  destruct (_ && _); [|intros; simplify_eq; left; eauto].
  set (rows := select_due _ _ _). destruct (from_rows rows) as [records|e] eqn:Hr;
    [|intros; simplify_eq; left; eauto].
  unfold perform. destruct f as [|e [|]]; intros; simplify_eq.
  - right. exists (now - lease), (now + STALE_BACKOFF), rows, records. split_and!; auto.
  - right. exists (now - lease), (now + STALE_BACKOFF), rows, records. split_and!; eauto.
  - left. eauto.
Qed.

(** *** How the table evolves *)

(** [P] are the identifiers an operation may finish. *)
Definition evolves (now : Z) (P : string -> Prop) (t t' : table_) : Prop :=
  forall i, match (t : gmap string OutRow) !! i, (t' : gmap string OutRow) !! i with
            | None, None => True
            | None, Some r' => pending r'
            | Some r, Some r' => row_le r r' /\ (row_ok now r -> row_ok now r') /\
                                 (finished r' -> finished r \/ P i)
            | Some _, None => False
            end.

Lemma evolves_refl now P t : evolves now P t t.
Proof. intros i. destruct (_ !! i); [|done]. split; [apply row_le_refl|]. auto. Qed.

Lemma pending_ok now r : pending r -> row_ok now r.
Proof.
  intros Hp. split; [by left|]. unfold pending, processing in *. intros He. rewrite He in Hp. by destruct Hp.
Qed.

Lemma append_evolves d f r t res t' now :
  append d f r t = (res, t') -> evolves now (fun _ => False) t t'.
Proof.
  unfold append. case_decide as Hs; [intros; simplify_eq; apply evolves_refl|].
  destruct (check_dialect d); [|intros; simplify_eq; apply evolves_refl].
  destruct ((t : gmap string OutRow) !! id r) as [q|] eqn:Hq; [intros; simplify_eq; apply evolves_refl|].
  assert (Hins : evolves now (fun _ => False) t (<[id r := {| r_aggregate := aggregate r;
    r_payload := payload r; r_status := as_str (status r); r_attempts := attempts r;
    r_next := next_attempt_at r; r_claimed := None |}]> (t : gmap string OutRow))).
  { intros i. destruct (decide (i = id r)) as [->|Hne].
    - rewrite lookup_insert_eq, Hq. left. simpl. by rewrite Hs.
    - rewrite lookup_insert_ne by done. exact (evolves_refl now (fun _ => False) t i). }
  unfold perform. destruct f as [|e [|]]; intros; simplify_eq; [exact Hins|exact Hins|apply evolves_refl].
Qed.

Lemma alter_evolves now P (g : OutRow -> OutRow) i t :
  (forall r, (t : gmap string OutRow) !! i = Some r -> row_le r (g r) /\
     (row_ok now r -> row_ok now (g r)) /\ (finished (g r) -> finished r \/ P i)) ->
  evolves now P t (alter g i (t : gmap string OutRow)).
Proof.
  intros Hg j. destruct (decide (j = i)) as [->|Hne].
  - rewrite lookup_alter_eq. destruct ((t : gmap string OutRow) !! i) as [r|]; simpl; [|done]. by apply Hg.
  - rewrite lookup_alter_ne by done. exact (evolves_refl now P t j).
Qed.

Lemma mark_done_evolves d f i t res t' now :
  mark_done d f i t = (res, t') -> evolves now (fun j => j = i) t t'.
Proof.
  unfold mark_done. destruct (check_dialect d); [|intros; simplify_eq; apply evolves_refl].
  assert (Ha : evolves now (fun j => j = i) t (alter done_row i (t : gmap string OutRow))).
  { apply alter_evolves. intros r _. split; [apply done_row_le|]. split; [|by right].
    intros [H1 H2]. unfold done_row. destruct (String.eqb_spec (r_status r) "processing"); [|done].
    split; [right; by right|]. unfold processing; simpl. done. }
  unfold perform. destruct f as [|e [|]]; intros; simplify_eq; [exact Ha|exact Ha|apply evolves_refl].
Qed.

Lemma mark_failed_evolves d now f i a t res t' :
  mark_failed d now f i a t = (res, t') -> evolves now (fun _ => False) t t'.
Proof.
  unfold mark_failed. destruct (check_dialect d); [|intros; simplify_eq; apply evolves_refl].
  destruct (checked_add now a) as [n|]; [|intros; simplify_eq; apply evolves_refl].
  assert (Ha : evolves now (fun _ => False) t (alter (failed_row n) i (t : gmap string OutRow))).
  { apply alter_evolves. intros r _. split; [apply failed_row_le|]. unfold failed_row.
    destruct (String.eqb_spec (r_status r) "processing"); [|by split; [|left]].
    split; [intros _; apply pending_ok; by right|]. unfold finished; simpl. done. }
  unfold perform. destruct f as [|e [|]]; intros; simplify_eq; [exact Ha|exact Ha|apply evolves_refl].
Qed.

Lemma reclaim_row_ok now c n r :
  row_ok now r -> row_ok now (reclaim_row c n r) /\ (finished (reclaim_row c n r) -> finished r).
Proof.
  intros Hr. unfold reclaim_row. destruct (r_claimed r) as [x|]; [|by split].
  destruct (_ && _); [|by split]. split; [apply pending_ok; by left|]. unfold finished; simpl. done.
Qed.

Lemma claim_evolves d now f limit lease t res t' :
  claim d now f limit lease t = (res, t') ->
  (forall i r, (t : gmap string OutRow) !! i = Some r -> row_ok now r) ->
  evolves now (fun _ => False) t t'.
Proof.
  intros Hc Hok. apply claim_spec in Hc as [[-> _]|Hc]; [apply evolves_refl|].
  destruct Hc as (cutoff & stale & rows & records & _ & _ & Hrows & _ & -> & _). intros i.
  rewrite mark_processing_lookup by (rewrite Hrows; apply select_due_nodup).
  unfold reclaim. rewrite lookup_fmap. specialize (Hok i).
  destruct ((t : gmap string OutRow) !! i) as [r|] eqn:Hr; simpl.
  - destruct (reclaim_row_ok now cutoff stale r (Hok r eq_refl)) as [Hrok Hfin].
    pose proof (reclaim_row_le cutoff stale r) as Hle. case_decide as Hin; simpl.
    + assert (Hpend : pending (reclaim_row cutoff stale r)).
      { apply list_elem_of_fmap in Hin as ([k q] & -> & Hin). rewrite Hrows in Hin.
        apply select_due_in in Hin as (Hlk & Hp & _). simpl in *. unfold reclaim in Hlk.
        rewrite lookup_fmap, Hr in Hlk. simpl in Hlk. by injection Hlk as ->. }
      split; [|split].
      * eapply row_le_trans; [exact Hle|]. unfold row_le, finished; simpl. split_and!; [done|done|lia|].
        unfold pending in Hpend. intros Hf. rewrite Hf in Hpend. by destruct Hpend.
      * intros _. split; [right; by left|]. intros _. simpl. exists now. split; [done|lia].
      * unfold finished; simpl. done.
    + split; [done|]. split; [done|]. intros Hf. left. by apply Hfin.
  - by case_decide.
Qed.

(** *** The system *)

Section System.
Context (d : Dialect) (lease_ok : Z -> Prop) (prompt : sys -> worker -> Prop).

Definition inv (s : sys) : Prop :=
  (forall i r, (tbl s : gmap string OutRow) !! i = Some r ->
     row_ok (now s) r /\ (finished r -> i ∈ handled s)) /\
  (forall k w, workers s !! k = Some w -> verdict w = Some true ->
     exists r l, todo w = r :: l /\ id r ∈ handled s).

Lemma inv_evolves P s t :
  inv s -> evolves (now s) P (tbl s) t -> (forall i, P i -> i ∈ handled s) ->
  forall i r, (t : gmap string OutRow) !! i = Some r -> row_ok (now s) r /\ (finished r -> i ∈ handled s).
Proof.
  intros [Ht _] He HP i r Hr. specialize (He i). rewrite Hr in He.
  destruct ((tbl s : gmap string OutRow) !! i) as [q|] eqn:Hq.
  - destruct He as (_ & Hok & Hf), (Ht i q Hq) as [Hqok Hqf]. split; [auto|].
    intros Hfin. destruct (Hf Hfin); auto.
  - split; [by apply pending_ok|]. unfold finished, pending in *. intros Hf. rewrite Hf in He. by destruct He.
Qed.

Definition grows (s s' : sys) : Prop :=
  forall i r, (tbl s : gmap string OutRow) !! i = Some r ->
    exists r', (tbl s' : gmap string OutRow) !! i = Some r' /\ row_le r r'.

Lemma evolves_grows now P s s' : evolves now P (tbl s) (tbl s') -> grows s s'.
Proof.
  intros He i r Hr. specialize (He i). rewrite Hr in He.
  destruct ((tbl s' : gmap string OutRow) !! i) as [r'|]; [|done]. exists r'. split; [done|apply He].
Qed.

Lemma tbl_advance res k w s : tbl (advance res k w s) = tbl s.
Proof. by destruct res. Qed.

Lemma inv_advance s t res k w r l :
  inv s -> workers s !! k = Some w -> todo w = r :: l ->
  (forall i q, (t : gmap string OutRow) !! i = Some q -> row_ok (now s) q /\ (finished q -> i ∈ handled s)) ->
  inv (advance res k w (set_tbl t s)).
Proof.
  intros [_ Hw] Hk Htodo Ht. split.
  - intros i q. rewrite tbl_advance. simpl. intros Hq. destruct res; by apply (Ht i).
  - intros k' w' Hk' Hv. destruct res as [u|e]; simpl in *.
    + destruct (decide (k' = k)) as [->|Hne].
      * rewrite lookup_insert_eq in Hk'. by inv Hk'.
      * rewrite lookup_insert_ne in Hk' by done. by apply (Hw k').
    + apply lookup_delete_Some in Hk' as [_ Hk']. by apply (Hw k').
Qed.

Lemma outbox_inv_step s s' : inv s -> step d lease_ok prompt s s' -> inv s' /\ grows s s'.
Proof.
  intros Hi Hst. pose proof Hi as [Ht Hw].
  assert (Hsame : grows s s) by (intros i r Hr; exists r; split; [done|apply row_le_refl]).
  destruct Hst as [f r res t Ha|n Hn|k f limit lease res t Hk Hl Ha|k w r l ok Hk Htodo Hv|
                   k w r l f res t Hk Htodo Hv _ Ha|k w r l f res t Hk Htodo Hv _ Ha|k].
  - apply (append_evolves _ _ _ _ _ _ (now s)) in Ha. split; [|by eapply evolves_grows].
    split; [|done]. exact (inv_evolves _ _ _ Hi Ha (fun _ => False_ind _)).
  - split; [|done]. split; [|done]. intros i r Hr. destruct (Ht i r Hr) as [[Hst Hp] Hf].
    split; [|done]. split; [done|]. intros Hpr. destruct (Hp Hpr) as (c & Hc & Hle). exists c.
    split; [done|simpl; lia].
  - apply claim_evolves in Ha; [|intros i r Hr; exact (proj1 (Ht i r Hr))]. split; [|by eapply evolves_grows].
    split; [exact (inv_evolves _ _ _ Hi Ha (fun _ => False_ind _))|]. intros k' w' Hk' Hv. simpl in *. destruct res as [rs|e].
    + destruct (decide (k' = k)) as [->|Hne].
      * rewrite lookup_insert_eq in Hk'. by inv Hk'.
      * rewrite lookup_insert_ne in Hk' by done. by apply (Hw k').
    + apply lookup_delete_Some in Hk' as [_ Hk']. by apply (Hw k').
  - split; [|done]. assert (Hmono : forall j, j ∈ handled s -> j ∈ (if ok : bool then {[id r]} ∪ handled s else handled s))
      by (intros j Hj; destruct ok; set_solver).
    split.
    + intros i q Hq. destruct (Ht i q Hq) as [Hok Hf]. split; [done|]. intros Hfin. by apply Hmono, Hf.
    + intros k' w' Hk' Hv'. simpl in Hk' |- *. destruct (decide (k' = k)) as [->|Hne].
      * rewrite lookup_insert_eq in Hk'. inv Hk'. simpl in *. exists r, l. split; [done|].
        injection Hv' as ->. set_solver.
      * rewrite lookup_insert_ne in Hk' by done. destruct (Hw k' w' Hk' Hv') as (q & l' & Hq & Hin).
        exists q, l'. split; [done|]. by apply Hmono.
  - apply (mark_done_evolves _ _ _ _ _ _ (now s)) in Ha.
    split; [|eapply (evolves_grows (now s)); by rewrite tbl_advance].
    eapply inv_advance; [done..|]. eapply inv_evolves; [done|exact Ha|]. intros i ->.
    destruct (Hw k w Hk Hv) as (q & l' & Hq & Hin). congruence.
  - apply mark_failed_evolves in Ha. split; [|eapply (evolves_grows (now s)); by rewrite tbl_advance].
    eapply inv_advance; [done..|]. exact (inv_evolves _ _ _ Hi Ha (fun _ => False_ind _)).
  - split; [|done]. split; [done|]. intros k' w' Hk'. simpl in Hk'.
    apply lookup_delete_Some in Hk' as [_ Hk']. by apply (Hw k').
Qed.

Lemma outbox_reachable_inv s : reachable init (step d lease_ok prompt) s -> inv s.
Proof.
  apply invariant_reachable. split.
  - intros s0 (Ht & Hw & _). split.
    + intros i r Hr. rewrite Ht in Hr. by rewrite lookup_empty in Hr.
    + intros k w Hk. by rewrite Hw, lookup_empty in Hk.
  - intros s1 s2 Hi Hst. by apply (outbox_inv_step s1).
Qed.

End System.

(** *** A claim that succeeds *)

(** The rows the code can read back, with room for some more attempts. *)
Definition healthy (now room : Z) (t : table_) : Prop :=
  forall i r, t !! i = Some r -> row_ok now r /\ 0 <= r_attempts r <= u32_max - room.

Definition in_range (now lease : Z) : Prop :=
  min_instant <= now - lease <= max_instant /\ min_instant <= now + STALE_BACKOFF <= max_instant.

Lemma pending_from_row i r :
  pending r -> 0 <= r_attempts r <= u32_max ->
  exists q, from_row i r = Ok q /\ id q = i /\ aggregate q = r_aggregate r /\
            payload q = r_payload r /\ attempts q = r_attempts r.
Proof.
  intros Hp [Hlo Hhi]. unfold from_row.
  assert (Hs : exists st, parse (r_status r) = Ok st) by (destruct Hp as [-> | ->]; eexists; reflexivity).
  destruct Hs as [st ->]. simpl.
  replace (0 <=? r_attempts r) with true by lia. replace (r_attempts r <=? u32_max) with true by lia.
  simpl. eexists. split_and!; reflexivity.
Qed.

Lemma from_rows_ok l :
  (forall e, e ∈ l -> pending e.2 /\ 0 <= r_attempts e.2 <= u32_max) ->
  exists rs, from_rows l = Ok rs /\
    Forall2 (fun e q => id q = e.1 /\ aggregate q = r_aggregate e.2 /\
                        payload q = r_payload e.2 /\ attempts q = r_attempts e.2) l rs.
Proof.
  induction l as [|[i r] l IH]; intros Hl; [by eexists|].
  destruct (Hl (i, r)) as [Hp Hn]; [left|].
  destruct (pending_from_row i r Hp Hn) as (q & Hq & Hspec).
  destruct IH as (rs & Hrs & Hall); [intros e He; apply Hl; by right|].
  exists (q :: rs). simpl. rewrite Hq. simpl. rewrite Hrs. split; [done|]. by constructor.
Qed.

Lemma reclaimed_lookup cutoff stale t i :
  reclaim cutoff stale t !! i = reclaim_row cutoff stale <$> t !! i.
Proof. apply lookup_fmap. Qed.

Lemma reclaim_row_attempts cutoff stale r :
  r_attempts r <= r_attempts (reclaim_row cutoff stale r) <= r_attempts r + 1.
Proof.
  unfold reclaim_row. destruct (r_claimed r); [|lia]. destruct (_ && _); simpl; lia.
Qed.

Lemma reclaim_stale cutoff stale r c :
  processing r -> r_claimed r = Some c -> c < cutoff ->
  reclaim_row cutoff stale r =
    {| r_aggregate := r_aggregate r; r_payload := r_payload r; r_status := "pending";
       r_attempts := r_attempts r + 1; r_next := stale; r_claimed := None |}.
Proof.
  unfold processing. intros Hp Hc Hlt. unfold reclaim_row. rewrite Hc, Hp. simpl.
  by replace (c <? cutoff) with true by lia.
Qed.

Lemma reclaim_live cutoff stale r c :
  r_claimed r = Some c -> cutoff <= c -> reclaim_row cutoff stale r = r.
Proof.
  intros Hc Hge. unfold reclaim_row. rewrite Hc. replace (c <? cutoff) with false by lia.
  by rewrite andb_false_r.
Qed.

Lemma select_due_all now limit t i r :
  t !! i = Some r -> pending r -> r_next r <= now -> (size t <= limit)%nat ->
  (i, r) ∈ select_due now limit t.
Proof.
  intros Hi Hp Hn Hsz. unfold select_due. rewrite take_ge.
  - rewrite sort_by_perm. apply list_elem_of_In, List.filter_In. split.
    + by apply list_elem_of_In, elem_of_map_to_list.
    + unfold due. simpl. replace (r_next r <=? now) with true by lia.
      destruct Hp as [-> | ->]; reflexivity.
  - rewrite (Permutation_length (sort_by_perm _ _)).
    pose proof (List.filter_length_le (due now) (map_to_list t)) as Hlen.
    rewrite length_map_to_list in Hlen. lia.
Qed.

(** Without a fault a claim returns the due rows it selected and leases them. *)
Lemma claim_ok d now limit lease t :
  check_dialect d = Ok tt -> limit <> O -> healthy now 1 t -> in_range now lease ->
  let t1 := reclaim (now - lease) (now + STALE_BACKOFF) t in
  let rows := select_due now limit t1 in
  exists records,
    claim d now NoFault limit lease t =
      (Ok (map set_processing records), mark_processing now (map fst rows) t1) /\
    Forall2 (fun e q => id q = e.1 /\ aggregate q = r_aggregate e.2 /\
                        payload q = r_payload e.2 /\ attempts q = r_attempts e.2) rows records.
Proof.
  intros Hd Hl Ht [[Hr1 Hr2] [Hr3 Hr4]] t1 rows.
  destruct (from_rows_ok rows) as (rs & Hrs & Hall).
  { intros [i r] He. unfold rows in He. apply select_due_in in He as (Hlk & Hp & _).
    split; [done|]. simpl in *. unfold t1 in Hlk. rewrite reclaimed_lookup in Hlk.
    destruct (t !! i) as [q|] eqn:Hq; [|done]. simpl in Hlk. injection Hlk as <-.
    pose proof (reclaim_row_attempts (now - lease) (now + STALE_BACKOFF) q).
    destruct (Ht i q Hq) as [_ Hn]. lia. }
  exists rs. split; [|done]. unfold claim. destruct limit as [|limit]; [done|]. rewrite Hd.
  unfold checked_add. replace (now + - lease) with (now - lease) by lia.
  replace (min_instant <=? now - lease) with true by lia.
  replace (now - lease <=? max_instant) with true by lia.
  replace (min_instant <=? now + STALE_BACKOFF) with true by lia.
  replace (now + STALE_BACKOFF <=? max_instant) with true by lia.
  cbn [andb]. fold t1. fold rows. by rewrite Hrs.
Qed.

Lemma row_ok_later n n' r : n <= n' -> row_ok n r -> row_ok n' r.
Proof.
  intros Hle [Hs Hp]. split; [done|]. intros Hpr. destruct (Hp Hpr) as (c & Hc & Hcn).
  exists c. split; [done|lia].
Qed.

Lemma claim_healthy d now now' room f limit lease t res t' :
  now <= now' -> healthy now (room + 1) t -> claim d now f limit lease t = (res, t') ->
  healthy now' room t'.
Proof.
  intros Hle Ht Hc i r Hr.
  assert (Hev : evolves now (fun _ => False) t t').
  { eapply claim_evolves; [exact Hc|]. intros j q Hq. exact (proj1 (Ht j q Hq)). }
  specialize (Hev i). rewrite Hr in Hev. destruct (t !! i) as [q|] eqn:Hq.
  - destruct (Ht i q Hq) as [Hok Hn], Hev as (_ & Hkeep & _).
    split; [by apply (row_ok_later now), Hkeep|]. apply claim_spec in Hc as [[-> _]|Hc].
    + rewrite Hq in Hr. injection Hr as ->. lia.
    + destruct Hc as (cutoff & stale & rows & rs & _ & _ & Hrows & _ & -> & _).
      rewrite mark_processing_lookup in Hr by (rewrite Hrows; apply select_due_nodup).
      rewrite reclaimed_lookup, Hq in Hr. pose proof (reclaim_row_attempts cutoff stale q).
      case_decide; simpl in Hr; injection Hr as <-; simpl; lia.
  - exfalso. apply claim_spec in Hc as [[-> _]|Hc]; [congruence|].
    destruct Hc as (cutoff & stale & rows & rs & _ & _ & Hrows & _ & -> & _).
    rewrite mark_processing_lookup in Hr by (rewrite Hrows; apply select_due_nodup).
    rewrite reclaimed_lookup, Hq in Hr. by case_decide.
Qed.

End OutboxFacts.
