(* ===== verification/OutboxSpec.v ===== *)
(** * What the outbox promises

    Done only after the handler succeeded, abandoned records come back, punctual
    relays never share a record - and the two ways the leases are weaker than the
    comments say. *)

From S2P Require Import Prelude Dialect Clock Json ShardCatalog Outbox.

Local Open Scope Z_scope.
Local Open Scope ecat_scope.

(** ** Leases of punctual relays *)

Module OutboxLeases.
Import Catalog Outbox Relay OutboxFacts.

Lemma claim_keeps_leased d now f limit lease t res t' i r c :
  claim d now f limit lease t = (res, t') ->
  t !! i = Some r -> processing r -> r_claimed r = Some c -> now - lease <= c ->
  t' !! i = Some r /\ (forall l q, res = Ok l -> q ∈ l -> id q <> i).
Proof.
  intros Hc Hi Hp Hcl Hlive. apply claim_spec in Hc as [[-> Hres]|Hc].
  - split; [done|]. intros l q -> Hq. destruct Hres as [Hres|[e Hres]]; simplify_eq.
    by apply elem_of_nil in Hq.
  - destruct Hc as (cutoff & stale & rows & rs & -> & _ & Hrows & Hrs & -> & Hres).
    assert (Hnot : i ∉ map fst rows).
    { intros Hin. apply list_elem_of_fmap in Hin as ([k q] & -> & Hin). rewrite Hrows in Hin.
      apply select_due_in in Hin as (Hlk & Hpend & _). simpl in *.
      rewrite reclaimed_lookup, Hi in Hlk. simpl in Hlk. injection Hlk as <-.
      rewrite (reclaim_live _ _ _ c) in Hpend by done.
      unfold pending, processing in *. rewrite Hp in Hpend. by destruct Hpend. }
    split.
    + rewrite mark_processing_lookup by (rewrite Hrows; apply select_due_nodup).
      rewrite decide_False by done. rewrite reclaimed_lookup, Hi. simpl.
      by rewrite (reclaim_live _ _ _ c).
    + intros l q -> Hq. destruct Hres as [Hres|[e Hres]]; simplify_eq.
      apply list_elem_of_fmap in Hq as (q0 & -> & Hq). intros Hid. apply Hnot.
      rewrite <- (from_rows_ids _ _ Hrs), <- Hid. apply list_elem_of_fmap. by exists q0.
Qed.

Lemma claim_leases d now f limit lease t l t' :
  claim d now f limit lease t = (Ok l, t') ->
  NoDup (map id l) /\
  forall q, q ∈ l -> exists r, t' !! id q = Some r /\ processing r /\ r_claimed r = Some now.
Proof.
  intros Hc. apply claim_spec in Hc as [[-> Hres]|Hc].
  - destruct Hres as [Hres|[e Hres]]; simplify_eq. split; [constructor|].
    intros q Hq. by apply elem_of_nil in Hq.
  - destruct Hc as (cutoff & stale & rows & rs & _ & _ & Hrows & Hrs & -> & Hres).
    destruct Hres as [Hres|[e Hres]]; simplify_eq.
    pose proof (from_rows_ids _ _ Hrs) as Hids.
    assert (Hl : map id (map set_processing rs) = map fst (select_due now limit (reclaim cutoff stale t))).
    { rewrite <- Hids, map_map. by apply map_ext. }
    split; [rewrite Hl; apply select_due_nodup|]. intros q Hq.
    assert (Hin : id q ∈ map fst (select_due now limit (reclaim cutoff stale t))).
    { rewrite <- Hl. by apply list_elem_of_fmap_2. }
    rewrite mark_processing_lookup by apply select_due_nodup. rewrite decide_True by done.
    apply list_elem_of_fmap in Hin as ([k r] & Hk & Hin). apply select_due_in in Hin as (Hlk & _).
    simpl in *. rewrite Hk, Hlk. simpl. eexists. split_and!; reflexivity.
Qed.

Lemma perform_alter_keeps f (g : OutRow -> OutRow) i t res t' j r :
  perform f (fun t => alter g i t) t = (res, t') -> j <> i -> t !! j = Some r -> t' !! j = Some r.
Proof.
  intros Hp Hne Hj. unfold perform in Hp. destruct f as [|e [|]]; simplify_eq; auto;
    by rewrite lookup_alter_ne.
Qed.

Lemma mark_done_keeps d f i t res t' j r :
  mark_done d f i t = (res, t') -> j <> i -> t !! j = Some r -> t' !! j = Some r.
Proof.
  unfold mark_done. destruct (check_dialect d); [apply perform_alter_keeps|]. intros; by simplify_eq.
Qed.

Lemma mark_failed_keeps d now f i a t res t' j r :
  mark_failed d now f i a t = (res, t') -> j <> i -> t !! j = Some r -> t' !! j = Some r.
Proof.
  unfold mark_failed. destruct (check_dialect d); [|intros; by simplify_eq].
  destruct (checked_add now a); [apply perform_alter_keeps|]. intros; by simplify_eq.
Qed.

Lemma append_keeps d f q t res t' j r :
  append d f q t = (res, t') -> t !! j = Some r -> t' !! j = Some r.
Proof.
  unfold append. case_decide; [intros; by simplify_eq|].
  destruct (check_dialect d); [|intros; by simplify_eq].
  destruct (t !! id q) eqn:Hq; [intros; by simplify_eq|].
  intros Ha Hj. assert (j <> id q) by congruence.
  unfold perform in Ha. destruct f as [|e [|]]; simplify_eq; auto; by rewrite lookup_insert_ne.
Qed.

(** *** Abandoned records *)

Lemma size_claimed now ids cutoff stale t :
  size (mark_processing now ids (reclaim cutoff stale t)) = size t.
Proof.
  unfold mark_processing. induction ids as [|j ids IH]; cbn [foldr].
  - apply map_size_fmap.
  - rewrite <- size_dom, dom_alter_L, size_dom. exact IH.
Qed.

(** The row of an expired lease after a claim, which does not select it. *)
Lemma stale_row_after_claim now limit cutoff t i r c :
  t !! i = Some r -> processing r -> r_claimed r = Some c -> c < cutoff ->
  let t1 := reclaim cutoff (now + STALE_BACKOFF) t in
  mark_processing now (map fst (select_due now limit t1)) t1 !! i =
    Some {| r_aggregate := r_aggregate r; r_payload := r_payload r; r_status := "pending";
            r_attempts := r_attempts r + 1; r_next := now + STALE_BACKOFF; r_claimed := None |}.
Proof.
  intros Hr Hp Hc Hlt t1.
  assert (H1 : t1 !! i = Some {| r_aggregate := r_aggregate r; r_payload := r_payload r;
    r_status := "pending"; r_attempts := r_attempts r + 1; r_next := now + STALE_BACKOFF;
    r_claimed := None |}).
  { unfold t1. rewrite reclaimed_lookup, Hr. cbn [fmap option_fmap option_map].
    by rewrite (reclaim_stale _ _ _ c). }
  rewrite mark_processing_lookup by apply select_due_nodup. rewrite decide_False; [done|].
  intros Hin. apply list_elem_of_fmap in Hin as ([k q] & -> & Hin).
  apply select_due_in in Hin as (Hlk & _ & Hn). simpl in *. rewrite H1 in Hlk. injection Hlk as <-.
  simpl in Hn. unfold STALE_BACKOFF, second in Hn. lia.
Qed.

(** A due row is handed out, when the limit leaves room for all rows. *)
Lemma claim_returns d now limit lease t i r :
  check_dialect d = Ok tt -> healthy now 1 t -> in_range now lease -> (size t <= limit)%nat ->
  t !! i = Some r -> pending r -> r_next r <= now ->
  exists l t' q, claim d now NoFault limit lease t = (Ok l, t') /\ q ∈ l /\ id q = i /\
    status q = Processing /\ payload q = r_payload r /\ attempts q = r_attempts r.
Proof.
  intros Hd Ht Hrg Hsz Hr Hp Hn.
  assert (Hl : limit <> O).
  { intros ->. assert (He : size t = 0%nat) by lia. apply map_size_empty_iff in He.
    rewrite He in Hr. by rewrite lookup_empty in Hr. }
  destruct (claim_ok d now limit lease t Hd Hl Ht Hrg) as (rs & Hclaim & Hall).
  set (rows := select_due _ _ _) in *.
  assert (Hin : (i, r) ∈ rows).
  { apply select_due_all; [|done|done|by unfold reclaim; rewrite map_size_fmap].
    rewrite reclaimed_lookup, Hr. cbn [fmap option_fmap option_map]. f_equal.
    unfold reclaim_row. destruct (r_claimed r); [|done]. by destruct Hp as [-> | ->]. }
  apply list_elem_of_lookup in Hin as [n Hrow].
  destruct (Forall2_lookup_l _ _ _ _ _ Hall Hrow) as (q & Hq & Hid & _ & Hpay & Hat).
  eexists _, _, (set_processing q). split; [exact Hclaim|]. split_and!; [|done..].
  apply list_elem_of_fmap_2. by eapply list_elem_of_lookup_2.
Qed.

(** *** The discipline *)

Section Discipline.
Context (d : Dialect) (L : Z).

(** The lease of a worker has not run out. *)
Definition live (s : sys) (w : worker) : Prop := now s <= claimed_at_ w + lease_ w.

(** Relays with one lease, which write a verdict only while their own lease runs. *)
Definition punctual_step : sys -> sys -> Prop := step d (fun l => l = L) live.

Definition held (s : sys) (w : worker) : Prop :=
  live s w -> forall q, q ∈ todo w ->
    exists r, tbl s !! id q = Some r /\ processing r /\ r_claimed r = Some (claimed_at_ w).

Definition leases_ok (s : sys) : Prop :=
  (forall k w, workers s !! k = Some w -> lease_ w = L /\ NoDup (map id (todo w)) /\ held s w) /\
  (forall k k' w w', workers s !! k = Some w -> workers s !! k' = Some w' -> k <> k' ->
     live s w -> live s w' -> forall q q', q ∈ todo w -> q' ∈ todo w' -> id q <> id q').

(** A worker that goes on with a part of its records. *)
Definition continues (w w' : worker) : Prop :=
  claimed_at_ w' = claimed_at_ w /\ lease_ w' = lease_ w /\ exists n, todo w' = drop n (todo w).

Lemma continues_refl w : continues w w.
Proof. split_and!; [done|done|]. by exists 0%nat. Qed.

(** Steps that only shrink what the workers hold, and keep the rows still held. *)
Lemma leases_shrink s s' :
  leases_ok s -> now s <= now s' ->
  (forall k w', workers s' !! k = Some w' -> exists w, workers s !! k = Some w /\ continues w w' /\
     (live s w -> forall q r, q ∈ todo w' -> tbl s !! id q = Some r -> tbl s' !! id q = Some r)) ->
  leases_ok s'.
Proof.
  intros [Hw Hx] Hn Hsub.
  assert (Hlive : forall w w', continues w w' -> live s' w' -> live s w).
  { intros w w' (Hc & Hl & _). unfold live. rewrite Hc, Hl. lia. }
  assert (Hin : forall w w', continues w w' -> forall q, q ∈ todo w' -> q ∈ todo w).
  { intros w w' (_ & _ & n & ->) q Hq. rewrite <- (take_drop n (todo w)). apply elem_of_app. by right. }
  split.
  - intros k w' Hk. destruct (Hsub k w' Hk) as (w & Hkw & Hcont & Hkeep).
    destruct (Hw k w Hkw) as (HL & Hnd & Hheld). pose proof Hcont as (Hc & Hl & n & Htodo).
    split_and!; [congruence| |].
    + rewrite Htodo. rewrite <- (take_drop n (todo w)), map_app in Hnd.
      by apply NoDup_app in Hnd as (_ & _ & ?).
    + intros Hlv q Hq. pose proof (Hlive _ _ Hcont Hlv) as Hlv0.
      destruct (Hheld Hlv0 q (Hin _ _ Hcont q Hq)) as (r & Hr & Hp & Hcl).
      exists r. rewrite Hc. split_and!; [by apply Hkeep|done|done].
  - intros k k' w1 w2 Hk1 Hk2 Hne Hl1 Hl2 q q' Hq Hq'.
    destruct (Hsub k w1 Hk1) as (u1 & Hu1 & Hc1 & _), (Hsub k' w2 Hk2) as (u2 & Hu2 & Hc2 & _).
    apply (Hx k k' u1 u2 Hu1 Hu2 Hne); eauto.
Qed.

Lemma leases_add s k w :
  leases_ok s -> workers s !! k = None -> lease_ w = L -> NoDup (map id (todo w)) -> held s w ->
  (forall k' w', workers s !! k' = Some w' -> live s w' ->
     forall q q', q ∈ todo w -> q' ∈ todo w' -> id q <> id q') ->
  leases_ok (set_workers (<[k := w]> (workers s)) s).
Proof.
  intros [Hw Hx] Hk HL Hnd Hheld Hdis. split.
  - intros k' w' Hk'. simpl in Hk'. apply lookup_insert_Some in Hk' as [[<- <-]|[_ Hk']].
    + split_and!; [done|done|exact Hheld].
    + destruct (Hw k' w' Hk') as (? & ? & ?). by split_and!.
  - intros k1 k2 w1 w2 H1 H2 Hne Hl1 Hl2 q q' Hq Hq'. simpl in H1, H2.
    apply lookup_insert_Some in H1 as [[<- <-]|[_ H1]];
      apply lookup_insert_Some in H2 as [[<- <-]|[_ H2]].
    + done.
    + by apply (Hdis k2 w2).
    + intros He. symmetry in He. revert He. by apply (Hdis k1 w1).
    + by apply (Hx k1 k2 w1 w2).
Qed.

(** After a write about the head of [k]'s list every record still held is untouched. *)
Lemma leases_write s k w r l res t :
  leases_ok s -> workers s !! k = Some w -> todo w = r :: l -> live s w ->
  (forall j q, j <> id r -> tbl s !! j = Some q -> t !! j = Some q) ->
  leases_ok (advance res k w (set_tbl t s)).
Proof.
  intros Hok Hk Htodo Hlv Hkeep. pose proof Hok as [Hw Hx].
  assert (Hother : forall k' w', workers s !! k' = Some w' -> k' <> k -> live s w' ->
            forall q x, q ∈ todo w' -> tbl s !! id q = Some x -> t !! id q = Some x).
  { intros k' w' Hk' Hne Hl q x Hq. apply Hkeep.
    apply (Hx k' k w' w Hk' Hk Hne Hl Hlv); [done|]. rewrite Htodo. by left. }
  apply (leases_shrink s); [done|by destruct res|]. intros k' w' Hk'. destruct res as [u|e]; simpl in Hk'.
  - apply lookup_insert_Some in Hk' as [[<- <-]|[Hne Hk']].
    + exists w. split; [done|]. split; [split_and!; [done|done|by exists 1%nat; rewrite Htodo]|].
      intros _ q x Hq. simpl in *. apply Hkeep. destruct (Hw k w Hk) as (_ & Hnd & _).
      rewrite Htodo in Hnd, Hq. simpl in *. apply NoDup_cons in Hnd as [Hnot _].
      intros Heq. apply Hnot. rewrite <- Heq. by apply list_elem_of_fmap_2.
    + exists w'. split; [done|]. split; [apply continues_refl|]. intros Hl. simpl.
      by apply (Hother k').
  - apply lookup_delete_Some in Hk' as [Hne Hk']. exists w'. split; [done|].
    split; [apply continues_refl|]. simpl. by apply (Hother k').
Qed.

Lemma leases_claim s k f limit res t :
  leases_ok s -> claim d (now s) f limit L (tbl s) = (res, t) ->
  leases_ok (set_tbl t (set_workers match res with
    | Ok l => <[k := {| todo := l; verdict := None; claimed_at_ := now s; lease_ := L |}]> (workers s)
    | Err _ => delete k (workers s)
    end s)).
Proof.
  intros Hok Hc. pose proof Hok as [Hw Hx].
  assert (Hkeep : forall k' w', workers s !! k' = Some w' -> live s w' -> forall q, q ∈ todo w' ->
            (forall r, tbl s !! id q = Some r -> t !! id q = Some r) /\
            (forall l q', res = Ok l -> q' ∈ l -> id q' <> id q)).
  { intros k' w' Hk' Hl q Hq. destruct (Hw k' w' Hk') as (HL & _ & Hheld).
    destruct (Hheld Hl q Hq) as (r & Hr & Hp & Hcl). unfold live in Hl. rewrite HL in Hl.
    destruct (claim_keeps_leased _ _ _ _ _ _ _ _ _ _ _ Hc Hr Hp Hcl) as [Ht Hnot]; [lia|].
    split; [congruence|]. exact Hnot. }
  set (base := set_tbl t (set_workers (delete k (workers s)) s)).
  assert (Hbase : leases_ok base).
  { apply (leases_shrink s); [done|done|]. intros k' w' Hk'. simpl in Hk'.
    apply lookup_delete_Some in Hk' as [_ Hk']. exists w'. split; [done|].
    split; [apply continues_refl|]. intros Hl q r Hq. by apply (Hkeep k' w' Hk' Hl q Hq). }
  destruct res as [l|e]; [|exact Hbase]. destruct (claim_leases _ _ _ _ _ _ _ _ Hc) as [Hnd Hin].
  pose proof (leases_add base k {| todo := l; verdict := None; claimed_at_ := now s; lease_ := L |} Hbase)
    as Hadd.
  unfold base, set_workers, set_tbl in Hadd |- *. simpl in *.
  rewrite insert_delete_eq in Hadd. apply Hadd; clear Hadd.
  - apply lookup_delete_eq.
  - done.
  - done.
  - intros _ q Hq. simpl in *. by apply Hin.
  - intros k' w' Hk' Hl q q' Hq Hq'. apply lookup_delete_Some in Hk' as [_ Hk'].
    exact (proj2 (Hkeep k' w' Hk' Hl q' Hq') l q eq_refl Hq).
Qed.

Lemma leases_step s s' : leases_ok s -> punctual_step s s' -> leases_ok s'.
Proof.
  intros Hok Hst. unfold punctual_step in Hst.
  destruct Hst as [f r res t Ha|n Hn|k f limit lease res t Hk -> Ha|k w r l ok Hk Htodo Hv|
                   k w r l f res t Hk Htodo Hv Hp Ha|k w r l f res t Hk Htodo Hv Hp Ha|k].
  - apply (leases_shrink s); [done|done|]. intros k w Hk. exists w. split; [done|].
    split; [apply continues_refl|]. intros _ q x _. by eapply append_keeps.
  - apply (leases_shrink s); [done|done|]. intros k w Hk. exists w. split; [done|].
    split; [apply continues_refl|done].
  - by eapply leases_claim.
  - apply (leases_shrink s); [done|done|]. intros k' w' Hk'. simpl in Hk'.
    apply lookup_insert_Some in Hk' as [[<- <-]|[_ Hk']].
    + exists w. split; [done|]. split; [split_and!; [done|done|by exists 0%nat]|done].
    + exists w'. split; [done|]. split; [apply continues_refl|done].
  - eapply leases_write; [done..|]. intros j q Hj. by eapply mark_done_keeps.
  - eapply leases_write; [done..|]. intros j q Hj. by eapply mark_failed_keeps.
  - apply (leases_shrink s); [done|done|]. intros k' w' Hk'. simpl in Hk'.
    apply lookup_delete_Some in Hk' as [_ Hk']. exists w'. split; [done|].
    split; [apply continues_refl|done].
Qed.

Lemma reachable_leases s : reachable init punctual_step s -> leases_ok s.
Proof.
  apply invariant_reachable. split; [|intros s1 s2; apply leases_step].
  intros s0 (_ & Hw & _). split; intros k; rewrite Hw; intros; by rewrite lookup_empty in *.
Qed.

End Discipline.
End OutboxLeases.

(** ** Concrete runs *)

Module OutboxRuns.
Import Catalog Outbox Relay OutboxFacts.

Inductive action :=
| AAppend (r : OutboxRecord)
| ATick (n : Z)
| AClaim (k : nat) (lease : Z)
| AHandle (k : nat) (ok : bool)
| AWrite (k : nat).

(** The step an action takes when no database call fails, on SQLite. *)
Definition act (a : action) (s : sys) : option sys :=
  match a with
  | AAppend r => Some (set_tbl (append Sqlite NoFault r (tbl s)).2 s)
  | ATick n =>
      if now s <=? n
      then Some {| tbl := tbl s; now := n; workers := workers s; handled := handled s |} else None
  | AClaim k lease =>
      match workers s !! k with
      | Some _ => None
      | None =>
          let '(res, t) := claim Sqlite (now s) NoFault 32 lease (tbl s) in
          Some (set_tbl t (set_workers match res with
            | Ok l => <[k := {| todo := l; verdict := None; claimed_at_ := now s; lease_ := lease |}]>
                        (workers s)
            | Err _ => delete k (workers s)
            end s))
      end
  | AHandle k ok =>
      match workers s !! k with
      | Some w =>
          match todo w, verdict w with
          | r :: _, None =>
              Some {| tbl := tbl s; now := now s;
                      workers := <[k := {| todo := todo w; verdict := Some ok;
                                           claimed_at_ := claimed_at_ w; lease_ := lease_ w |}]> (workers s);
                      handled := if ok then {[id r]} ∪ handled s else handled s |}
          | _, _ => None
          end
      | None => None
      end
  | AWrite k =>
      match workers s !! k with
      | Some w =>
          match todo w, verdict w with
          | r :: _, Some true =>
              let '(res, t) := mark_done Sqlite NoFault (id r) (tbl s) in
              Some (advance res k w (set_tbl t s))
          | r :: _, Some false =>
              let '(res, t) := mark_failed Sqlite (now s) NoFault (id r) (backoff (attempts r)) (tbl s) in
              Some (advance res k w (set_tbl t s))
          | _, _ => None
          end
      | None => None
      end
  end.

Fixpoint acts (l : list action) (s : sys) : option sys :=
  match l with [] => Some s | a :: l => s' ← act a s; acts l s' end.

Definition allowed (lease_ok : Z -> Prop) (prompt : sys -> worker -> Prop) (a : action) : Prop :=
  match a with
  | AClaim _ lease => lease_ok lease
  | AWrite _ => forall s w, prompt s w
  | _ => True
  end.

Lemma act_step lease_ok prompt a s s' :
  allowed lease_ok prompt a -> act a s = Some s' -> step Sqlite lease_ok prompt s s'.
Proof.
  intros Hl Ha. destruct a as [r|n|k lease|k ok|k]; cbn [act] in Ha.
  - injection Ha as <-. apply (step_append _ _ _ _ NoFault r (append Sqlite NoFault r (tbl s)).1).
    apply surjective_pairing.
  - destruct (now s <=? n) eqn:Hn; [|done]. injection Ha as <-. apply step_tick. lia.
  - destruct (workers s !! k) eqn:Hk; [done|]. destruct (claim _ _ _ _ _ _) as [res t] eqn:Hc.
    injection Ha as <-. eapply step_claim; [by left|done|exact Hc].
  - destruct (workers s !! k) as [w|] eqn:Hk; [|done]. destruct (todo w) as [|r l] eqn:Ht; [done|].
    destruct (verdict w) eqn:Hv; [done|]. injection Ha as <-. rewrite <- Ht. by eapply step_handle.
  - destruct (workers s !! k) as [w|] eqn:Hk; [|done]. destruct (todo w) as [|r l] eqn:Ht; [done|].
    destruct (verdict w) as [[]|] eqn:Hv; [| |done].
    + destruct (mark_done _ _ _ _) as [res t] eqn:Hm. injection Ha as <-. eapply step_done; eauto.
    + destruct (mark_failed _ _ _ _ _ _) as [res t] eqn:Hm. injection Ha as <-. eapply step_failed; eauto.
Qed.

Lemma acts_steps lease_ok prompt l s s' :
  Forall (allowed lease_ok prompt) l -> acts l s = Some s' -> rtc (step Sqlite lease_ok prompt) s s'.
Proof.
  intros Hl. revert s. induction Hl as [|a l Ha Hl IH]; intros s H; simpl in H; [by simplify_eq|].
  destruct (act a s) as [s1|] eqn:H1; [|done]. simpl in H. eapply rtc_l; [by eapply act_step|by apply IH].
Qed.

Definition start : sys := {| tbl := ∅; now := 0; workers := ∅; handled := ∅ |}.

Definition order1 : OutboxRecord :=
  {| id := "o-1"; aggregate := "order"; payload := [1; 2; 3]; status := Pending; attempts := 0;
     next_attempt_at := 0 |}.

Definition order2 : OutboxRecord :=
  {| id := "o-2"; aggregate := "order"; payload := [4]; status := Pending; attempts := 0;
     next_attempt_at := 0 |}.

(** Two relays with a record each. *)
Definition two_relays : list action :=
  [AAppend order1; AClaim 0 (60 * second); AAppend order2; AClaim 1 (60 * second)].

(** Delivered in the first round. *)
Definition delivered : list action :=
  [AAppend order1; AClaim 0 (60 * second); AHandle 0 true; AWrite 0].

(** Relay 0 is slow: its lease runs out, the record is reclaimed for relay 1 and
    leased to relay 2 thirty seconds later; then relay 0 reports its failure, and
    relay 3 claims the record as well. *)
Definition late_failure : list action :=
  [AAppend order1; AClaim 0 (60 * second); ATick (61 * second); AClaim 1 (60 * second);
   ATick (91 * second); AClaim 2 (60 * second); AHandle 0 false; AWrite 0;
   ATick (92 * second); AClaim 3 (60 * second)].

Ltac all_allowed :=
  repeat (apply Forall_cons_2; [first [exact I | exact eq_refl | discriminate | intros ? ?; exact I]|]);
  apply Forall_nil_2.

Lemma delivered_allowed : Forall (allowed (fun l => l <> 0) (fun _ _ => True)) delivered.
Proof. unfold delivered. all_allowed. Qed.

Lemma late_failure_allowed :
  Forall (allowed (fun l => l = 60 * second) (fun _ _ => True)) late_failure.
Proof. unfold late_failure. all_allowed. Qed.

Lemma two_relays_allowed prompt : Forall (allowed (fun l => l = 60 * second) prompt) two_relays.
Proof. unfold two_relays. all_allowed. Qed.

(** The identifiers a worker holds under a lease that has not run out. *)
Definition live_ids (s : sys) (k : nat) : list string :=
  match workers s !! k with
  | Some w => if now s <=? claimed_at_ w + lease_ w then map id (todo w) else []
  | None => []
  end.

Lemma live_ids_spec s k i :
  i ∈ live_ids s k ->
  exists w q, workers s !! k = Some w /\ q ∈ todo w /\ id q = i /\ now s <= claimed_at_ w + lease_ w.
Proof.
  unfold live_ids. destruct (workers s !! k) as [w|]; [|by intros ?%elem_of_nil].
  destruct (now s <=? _) eqn:Hl; [|by intros ?%elem_of_nil].
  intros (q & -> & Hq)%list_elem_of_fmap. exists w, q. split_and!; [done|done|done|lia].
Qed.

(** The status text of a row; empty when there is none. *)
Definition status_at (s : sys) (i : string) : string :=
  match tbl s !! i with Some r => r_status r | None => EmptyString end.

(** What a run and its continuation end with. *)
Definition ends_with (l l' : list action) (check : sys -> sys -> bool) : bool :=
  match acts l start with
  | Some s => match acts l' s with Some s' => check s s' | None => false end
  | None => false
  end.

Lemma ends_with_spec l l' check :
  ends_with l l' check = true ->
  exists s s', acts l start = Some s /\ acts l' s = Some s' /\ check s s' = true.
Proof.
  unfold ends_with. destruct (acts l start) as [s|] eqn:Hs; [|done].
  destruct (acts l' s) as [s'|] eqn:Hs'; [|done]. eauto.
Qed.

Lemma start_init : init start.
Proof. by split_and!. Qed.

End OutboxRuns.

(** ** The theorems *)

Module OutboxSpec.
Import Catalog Outbox Relay OutboxFacts OutboxLeases OutboxRuns.

(** The relays of the code: any lease but zero, verdicts written at any time. *)
Definition relays (d : Dialect) : sys -> sys -> Prop := step d (fun l => l <> 0) (fun _ _ => True).

(** Where a row goes in a run of the relays. *)
Lemma row_evolves d s s' i r :
  reachable init (relays d) s -> rtc (relays d) s s' -> tbl s !! i = Some r ->
  exists r', tbl s' !! i = Some r' /\ row_le r r' /\ (finished r' -> i ∈ handled s').
Proof.
  intros Hs Hrun. pose proof (outbox_reachable_inv _ _ _ _ Hs) as Hinv. clear Hs. revert r Hinv.
  induction Hrun as [s|s1 s2 s3 Hst Hrun IH]; intros r Hinv Hr.
  - exists r. split_and!; [done|apply row_le_refl|]. by apply Hinv.
  - destruct (outbox_inv_step _ _ _ _ _ Hinv Hst) as [Hinv2 Hgrow].
    destruct (Hgrow i r Hr) as (r2 & Hr2 & Hle). destruct (IH r2 Hinv2 Hr2) as (r3 & Hr3 & Hle3 & Hf).
    exists r3. split_and!; [done|by eapply row_le_trans|done].
Qed.

(** *** A round of [run_once] is a run of the system *)

Section Round.
Context (d : Dialect) (env : round) (k : nat).
Context (clock : forall n, time env n <= time env (S n)).

(** The identifiers the handler takes in a round. *)
Definition takes (l : list OutboxRecord) (i : string) : Prop := exists r, r ∈ l /\ id r = i /\ handle env r = Ok tt.

Lemma advance_tbl res w s : tbl (advance res k w s) = tbl s.
Proof. by destruct res. Qed.

Lemma advance_rest res w s : now (advance res k w s) = now s /\ handled (advance res k w s) = handled s.
Proof. by destruct res. Qed.

Lemma deliver_simulated l n rep s c lz :
  workers s !! k = Some {| todo := l; verdict := None; claimed_at_ := c; lease_ := lz |} -> now s <= time env n ->
  exists s', rtc (relays d) s s' /\ tbl s' = (deliver d env n l rep (tbl s)).2 /\
    forall i, i ∈ handled s' -> i ∈ handled s \/ takes l i.
Proof.
  revert n rep s. induction l as [|r l IH]; intros n rep s Hk Hn; [exists s; split_and!; [done|done|auto]|].
  set (w1 ok := {| todo := r :: l; verdict := Some ok; claimed_at_ := c; lease_ := lz |}).
  set (s1 := {| tbl := tbl s; now := now s; workers := <[k := w1 (is_ok (handle env r))]> (workers s);
                handled := if is_ok (handle env r) then {[id r]} ∪ handled s else handled s |}).
  assert (H1 : relays d s s1) by exact (step_handle _ _ _ s k _ r l (is_ok (handle env r)) Hk eq_refl eq_refl).
  (* The write of the verdict, at a time of the round, and the rest of the round. *)
  assert (Hwrite : forall s2 res t, rtc (relays d) s1 s2 -> tbl s2 = tbl s -> handled s2 = handled s1 -> now s2 <= time env (S n) ->
    workers s2 !! k = Some (w1 (is_ok (handle env r))) -> relays d s2 (advance res k (w1 (is_ok (handle env r))) (set_tbl t s2)) ->
    forall rep', exists s', rtc (relays d) s s' /\ tbl s' = match res with Ok _ => (deliver d env (S n) l rep' t).2 | Err _ => t end /\
      forall i, i ∈ handled s' -> i ∈ handled s \/ takes (r :: l) i).
  { intros s2 res t Hrun Ht Hh Hnow Hk2 Hstep rep'. set (s3 := advance res k _ _) in Hstep.
    assert (Hrun3 : rtc (relays d) s s3) by (eapply rtc_l; [exact H1|]; eapply rtc_r; [exact Hrun|exact Hstep]).
    assert (Hh3 : forall i, i ∈ handled s3 -> i ∈ handled s \/ takes (r :: l) i).
    { intros i. unfold s3. rewrite (proj2 (advance_rest _ _ _)). cbn. rewrite Hh. unfold s1. cbn.
      destruct (handle env r) as [[]|e] eqn:Hr; cbn; [|auto]. intros [->%elem_of_singleton|Hi]%elem_of_union; [right|by left].
      exists r. split_and!; [by left|done..]. }
    destruct res as [[]|e]; [|exists s3; split_and!; [done|unfold s3; by rewrite advance_tbl|done]].
    destruct (IH (S n) rep' s3) as (s' & Hrun' & Ht' & Hh').
    - cbn. rewrite lookup_insert_eq. done.
    - exact Hnow.
    - exists s'. split_and!; [by etrans|exact Ht'|]. intros i Hi. destruct (Hh' i Hi) as [Hi3|(q & Hq & Hid & Hok)]; [by apply Hh3|].
      right. exists q. split_and!; [by right|done..]. }
  cbn [deliver]. destruct (handle env r) as [[]|e] eqn:Hr.
  - destruct (mark_done d (answer env n) (id r) (tbl s)) as [res t] eqn:Hm.
    destruct (Hwrite s1 res t) with (rep' := {| claimed := claimed rep; done_ := u32_add (done_ rep) 1; failed := failed rep |}) as (s' & Hs');
      [done|done|done|cbn; specialize (clock n); lia|cbn; by rewrite lookup_insert_eq| |exists s'; by destruct res].
    eapply step_done; [cbn; by rewrite lookup_insert_eq|done|done|done|exact Hm].
  - set (s2 := {| tbl := tbl s1; now := time env n; workers := workers s1; handled := handled s1 |}).
    destruct (mark_failed d (time env n) (answer env n) (id r) (backoff (attempts r)) (tbl s)) as [res t] eqn:Hm.
    destruct (Hwrite s2 res t) with (rep' := {| claimed := claimed rep; done_ := done_ rep; failed := u32_add (failed rep) 1 |}) as (s' & Hs');
      [|done|done|cbn; specialize (clock n); lia|cbn; by rewrite lookup_insert_eq| |exists s'; by destruct res].
    + apply rtc_once. by apply (step_tick _ _ _ s1).
    + eapply step_failed; [cbn; by rewrite lookup_insert_eq|done|done|done|exact Hm].
Qed.

Lemma run_once_simulated c s :
  (workers s !! k = None \/ exists w, workers s !! k = Some w /\ todo w = []) -> now s <= time env 0 ->
  exists s', rtc (relays d) s s' /\ tbl s' = (run_once c d env (tbl s)).2 /\
    forall i, i ∈ handled s' -> i ∈ handled s \/ exists r, id r = i /\ handle env r = Ok tt.
Proof.
  intros Hidle Hn. unfold run_once. destruct (Nat.eqb (batch c) 0); [exists s; split_and!; [done|done|auto]|].
  destruct (lease c =? 0) eqn:Hlease; [exists s; split_and!; [done|done|auto]|]. apply Z.eqb_neq in Hlease.
  set (s1 := {| tbl := tbl s; now := time env 0; workers := workers s; handled := handled s |}).
  assert (H1 : relays d s s1) by by apply step_tick.
  destruct (claim d (time env 0) (answer env 0) (batch c) (lease c) (tbl s)) as [res t] eqn:Hc.
  pose proof (step_claim d (fun l => l <> 0) (fun _ _ => True) s1 k _ _ _ res t Hidle Hlease Hc) as H2.
  destruct res as [l|e]; cbn [snd].
  - destruct (deliver_simulated l 1 {| claimed := Z.min (Z.of_nat (length l)) u32_max; done_ := 0; failed := 0 |}
      (set_tbl t (set_workers (<[k := {| todo := l; verdict := None; claimed_at_ := now s1; lease_ := lease c |}]> (workers s1)) s1))
      (time env 0) (lease c) (lookup_insert_eq _ _ _) (clock 0)) as (s' & Hrun & Ht & Hh).
    exists s'. split_and!; [eapply rtc_l; [exact H1|]; eapply rtc_l; [exact H2|exact Hrun]|exact Ht|].
    intros i Hi. destruct (Hh i Hi) as [|(r & _ & Hid & Hok)]; [by left|right; by exists r].
  - eexists. split_and!; [eapply rtc_l; [exact H1|]; by apply rtc_once|done|auto].
Qed.

End Round.

(** C10. No record is lost and none is finished unhandled.  With any number of relays
    claiming, handling, writing, dying and meeting failed or half-applied database
    calls, a row never disappears, its content never changes and its attempts never
    fall, "done" is final, and a row that reads "done" was given to a handler which
    succeeded; and a whole [run_once], from any state the relays can reach and with any answers
    of database and handler, under a clock that does not go back, leaves each row so: those
    done were handled before or are accepted by its handler. *)
Theorem outbox_done_means_handled d s s' i r :
  reachable init (relays d) s -> rtc (relays d) s s' -> tbl s !! i = Some r ->
  (exists r', tbl s' !! i = Some r' /\ row_le r r' /\ (finished r' -> i ∈ handled s')) /\
  forall c env k,
    (forall n, time env n <= time env (S n)) -> now s <= time env 0 -> workers s !! k = None ->
    exists r', (run_once c d env (tbl s)).2 !! i = Some r' /\ row_le r r' /\
      (finished r' -> i ∈ handled s \/ exists q, id q = i /\ handle env q = Ok tt).
Proof.
  intros Hs Hrun Hr. split; [by eapply row_evolves|]. intros c env k Hclock Hn Hk.
  destruct (run_once_simulated d env k Hclock c s) as (s2 & Hrun2 & Ht & Hh); [by left|done|].
  destruct (row_evolves d s s2 i r Hs Hrun2 Hr) as (r' & Hr' & Hle & Hf). rewrite Ht in Hr'.
  exists r'. split_and!; [done|done|]. intros Hfin. apply Hh. by apply Hf.
Qed.

Lemma outbox_done_means_handled_witness :
  exists s s' r r', reachable init (relays Sqlite) s /\ rtc (relays Sqlite) s s' /\
    tbl s !! "o-1" = Some r /\ tbl s' !! "o-1" = Some r' /\ row_le r r' /\ finished r' /\
    "o-1" ∈ handled s' /\
    exists r2, (run_once {| batch := 32; lease := 60 * second |} Sqlite
                  {| time := fun _ => second; answer := fun _ => NoFault; handle := fun _ => Ok tt |} (tbl s)).2 !! "o-1" = Some r2 /\
      row_le r r2 /\ finished r2.
Proof.
  destruct (ends_with_spec (take 1 delivered) (drop 1 delivered)
    (fun s s' => String.eqb (status_at s "o-1") "pending" && String.eqb (status_at s' "o-1") "done" &&
       bool_decide (workers s !! 0%nat = None) && (now s =? 0) &&
       String.eqb (status_at (set_tbl (run_once {| batch := 32; lease := 60 * second |} Sqlite
         {| time := fun _ => second; answer := fun _ => NoFault; handle := fun _ => Ok tt |} (tbl s)).2 s) "o-1") "done"))
    as (s & s' & Hs & Hs' & Hcheck); [vm_compute; reflexivity|].
  apply andb_prop in Hcheck as [Hcheck Hst2]. apply andb_prop in Hcheck as [Hcheck Hnow]. apply andb_prop in Hcheck as [Hcheck Hidle].
  apply andb_prop in Hcheck as [Hst Hst']. apply String.eqb_eq in Hst, Hst', Hst2. apply bool_decide_eq_true in Hidle. apply Z.eqb_eq in Hnow.
  assert (Hr : reachable init (relays Sqlite) s).
  { exists start. split; [apply start_init|].
    exact (acts_steps _ _ _ _ _ (Forall_take _ 1 _ delivered_allowed) Hs). }
  assert (Hrun : rtc (relays Sqlite) s s').
  { exact (acts_steps _ _ _ _ _ (Forall_drop _ 1 _ delivered_allowed) Hs'). }
  unfold status_at in Hst. destruct (tbl s !! "o-1") as [r|] eqn:Ht; [|done].
  destruct (outbox_done_means_handled Sqlite s s' "o-1" r Hr Hrun Ht) as [(r' & Hr' & Hle & Hh) Hround].
  destruct (Hround {| batch := 32; lease := 60 * second |} {| time := fun _ => second; answer := fun _ => NoFault; handle := fun _ => Ok tt |} 0%nat)
    as (r2 & Hr2 & Hle2 & _); [intros; reflexivity|cbn; rewrite Hnow; discriminate|exact Hidle|].
  unfold status_at in Hst', Hst2. cbn [tbl set_tbl] in Hst2. rewrite Hr' in Hst'. rewrite Hr2 in Hst2.
  exists s, s', r, r'. split_and!; auto. exists r2. auto.
Defined.

(** An abandoned record comes back.  A relay dies holding a record: once the lease
    has run out, the next claim of any relay puts the record back, with the attempt
    counted and thirty seconds of back-off, and a claim after the back-off hands it
    out again with its payload and the new count. *)
Theorem abandoned_record_comes_back d t i r c t1 lease1 limit1 t2 lease2 limit2 :
  check_dialect d = Ok tt -> healthy t1 2 t -> t !! i = Some r ->
  processing r -> r_claimed r = Some c -> c < t1 - lease1 ->
  limit1 <> O -> in_range t1 lease1 -> t1 + STALE_BACKOFF <= t2 ->
  (size t <= limit2)%nat -> in_range t2 lease2 ->
  exists l1 t' l2 t'' q,
    claim d t1 NoFault limit1 lease1 t = (Ok l1, t') /\
    claim d t2 NoFault limit2 lease2 t' = (Ok l2, t'') /\
    q ∈ l2 /\ id q = i /\ status q = Processing /\ payload q = r_payload r /\
    attempts q = r_attempts r + 1.
Proof.
  intros Hd Ht Hr Hp Hc Hold Hl1 Hrg1 Hlater Hl2 Hrg2.
  assert (Ht1 : healthy t1 1 t) by (intros j x Hj; destruct (Ht j x Hj); split; [done|lia]).
  destruct (claim_ok d t1 limit1 lease1 t Hd Hl1 Ht1 Hrg1) as (rs & Hclaim & _).
  pose proof (stale_row_after_claim t1 limit1 _ _ _ _ _ Hr Hp Hc Hold) as Hrow. cbv zeta in Hrow, Hclaim.
  set (t' := mark_processing _ _ _) in Hclaim, Hrow.
  destruct (claim_returns d t2 limit2 lease2 t' i _ Hd
    ltac:(eapply claim_healthy; [|exact Ht|exact Hclaim]; unfold STALE_BACKOFF, second in *; lia) Hrg2
    ltac:(unfold t'; by rewrite size_claimed) Hrow (or_introl eq_refl) ltac:(simpl; lia))
    as (l2 & t'' & q & Hclaim2 & Hin & Hid & Hst & Hpay & Hat).
  exists (map set_processing rs), t', l2, t'', q. by split_and!.
Qed.

(** A table with one record, leased at 0. *)
Definition leased_table : table_ :=
  {["o-1" := {| r_aggregate := "order"; r_payload := [1; 2; 3]; r_status := "processing";
                r_attempts := 0; r_next := 0; r_claimed := Some 0 |}]}.

Lemma leased_table_healthy now room : 0 <= now -> room <= u32_max -> healthy now room leased_table.
Proof.
  intros Hn Hroom i r Hi. unfold leased_table in Hi. apply lookup_singleton_Some in Hi as [<- <-].
  split; [split; [right; by left|]|simpl; lia]. intros _. by exists 0.
Qed.

Lemma abandoned_record_comes_back_witness :
  exists l1 t' l2 t'' q,
    claim Postgres (61 * second) NoFault 32 (60 * second) leased_table = (Ok l1, t') /\
    claim Postgres (91 * second) NoFault 32 (60 * second) t' = (Ok l2, t'') /\
    q ∈ l2 /\ id q = "o-1" /\ status q = Processing /\ payload q = [1; 2; 3] /\ attempts q = 1.
Proof.
  apply (abandoned_record_comes_back Postgres leased_table "o-1"
    {| r_aggregate := "order"; r_payload := [1; 2; 3]; r_status := "processing";
       r_attempts := 0; r_next := 0; r_claimed := Some 0 |} 0 (61 * second) (60 * second) 32
    (91 * second) (60 * second) 32);
    [reflexivity|by apply leased_table_healthy|reflexivity..| | | | | |];
    vm_compute; first [reflexivity | (split; split; discriminate) | discriminate | lia].
Defined.

(** Punctual relays never share a record.  When all relays use one lease and write
    a verdict only while their own lease runs, two relays with running leases never
    hold the same record, whatever fails and whoever dies. *)
Theorem punctual_relays_never_share d L s k k' w w' q q' :
  reachable init (punctual_step d L) s ->
  workers s !! k = Some w -> workers s !! k' = Some w' -> k <> k' ->
  now s <= claimed_at_ w + lease_ w -> now s <= claimed_at_ w' + lease_ w' ->
  q ∈ todo w -> q' ∈ todo w' -> id q <> id q'.
Proof. intros Hs Hk Hk' Hne Hl Hl'. by apply (proj2 (reachable_leases d L s Hs) k k' w w'). Qed.

Lemma punctual_relays_never_share_witness :
  exists s w w' q q',
    reachable init (punctual_step Sqlite (60 * second)) s /\
    workers s !! 0%nat = Some w /\ workers s !! 1%nat = Some w' /\
    q ∈ todo w /\ q' ∈ todo w' /\ id q <> id q'.
Proof.
  destruct (ends_with_spec two_relays []
    (fun s _ => bool_decide (live_ids s 0 = ["o-1"]) && bool_decide (live_ids s 1 = ["o-2"])))
    as (s & s' & Hs & _ & Hcheck); [vm_compute; reflexivity|].
  apply andb_prop in Hcheck as [H0 H1]. apply bool_decide_eq_true in H0, H1.
  destruct (live_ids_spec s 0 "o-1") as (w & q & Hk & Hq & Hid & Hl); [rewrite H0; left|].
  destruct (live_ids_spec s 1 "o-2") as (w' & q' & Hk' & Hq' & Hid' & Hl'); [rewrite H1; left|].
  assert (Hr : reachable init (punctual_step Sqlite (60 * second)) s).
  { exists start. split; [apply start_init|]. exact (acts_steps _ _ _ _ _ (two_relays_allowed _) Hs). }
  exists s, w, w', q, q'. repeat (split; [assumption|]).
  exact (punctual_relays_never_share Sqlite (60 * second) s 0 1 w w' q q' Hr Hk Hk'
           (Nat.neq_succ_diag_r 0) Hl Hl' Hq Hq').
Defined.

(** A late failure takes the record from its new holder.  Without that discipline -
    which the code does not impose - two relays hold one record under running leases,
    although all leases are one minute long and no database call fails: "mark_failed"
    of a relay whose lease ran out turns a row leased to another relay to "failed". *)
Theorem late_failure_shares_a_record :
  exists s k k' w w' q q',
    reachable init (step Sqlite (fun l => l = 60 * second) (fun _ _ => True)) s /\
    workers s !! k = Some w /\ workers s !! k' = Some w' /\ k <> k' /\
    now s <= claimed_at_ w + lease_ w /\ now s <= claimed_at_ w' + lease_ w' /\
    q ∈ todo w /\ q' ∈ todo w' /\ id q = id q'.
Proof.
  destruct (ends_with_spec late_failure []
    (fun s _ => bool_decide (live_ids s 2 = ["o-1"]) && bool_decide (live_ids s 3 = ["o-1"])))
    as (s & s' & Hs & _ & Hcheck); [vm_compute; reflexivity|].
  apply andb_prop in Hcheck as [H2 H3]. apply bool_decide_eq_true in H2, H3.
  destruct (live_ids_spec s 2 "o-1") as (w & q & Hk & Hq & Hid & Hl); [rewrite H2; left|].
  destruct (live_ids_spec s 3 "o-1") as (w' & q' & Hk' & Hq' & Hid' & Hl'); [rewrite H3; left|].
  exists s, 2%nat, 3%nat, w, w', q, q'. split_and!; auto; [|congruence].
  exists start. split; [apply start_init|]. exact (acts_steps _ _ _ _ _ late_failure_allowed Hs).
Qed.

(** A negative lease is no lease.  [run_once] refuses a lease of zero only; a relay
    with a negative lease takes back every record any relay is working on. *)
Theorem negative_lease_reclaims_everything c d env t i r :
  check_dialect d = Ok tt -> batch c <> O -> lease c < 0 -> in_range (time env 0) (lease c) ->
  answer env 0 = NoFault -> healthy (time env 0) 1 t -> t !! i = Some r -> processing r ->
  exists rs t',
    run_once c d env t =
      deliver d env 1 rs
        {| claimed := Z.min (Z.of_nat (length rs)) u32_max; done_ := 0; failed := 0 |} t' /\
    t' !! i = Some {| r_aggregate := r_aggregate r; r_payload := r_payload r; r_status := "pending";
                      r_attempts := r_attempts r + 1; r_next := time env 0 + STALE_BACKOFF;
                      r_claimed := None |}.
Proof.
  intros Hd Hb Hl Hrg Hans Ht Hr Hp. destruct (Ht i r Hr) as [[_ Hcl] _].
  destruct (Hcl Hp) as (x & Hx & Hle).
  destruct (claim_ok d (time env 0) (batch c) (lease c) t Hd Hb Ht Hrg) as (rs & Hclaim & _).
  exists (map set_processing rs). eexists. split.
  - unfold run_once. rewrite (proj2 (Nat.eqb_neq _ _) Hb).
    replace (lease c =? 0) with false by lia. rewrite Hans, Hclaim. reflexivity.
  - apply (stale_row_after_claim _ _ _ _ _ _ x); [done..|lia].
Qed.

Lemma negative_lease_reclaims_everything_witness :
  exists rs t',
    run_once {| batch := 32; lease := - second |} Sqlite
      {| time := fun _ => 0; answer := fun _ => NoFault; handle := fun _ => Ok tt |} leased_table =
      deliver Sqlite {| time := fun _ => 0; answer := fun _ => NoFault; handle := fun _ => Ok tt |} 1 rs
        {| claimed := Z.min (Z.of_nat (length rs)) u32_max; done_ := 0; failed := 0 |} t' /\
    t' !! "o-1" = Some {| r_aggregate := "order"; r_payload := [1; 2; 3]; r_status := "pending";
                          r_attempts := 1; r_next := 0 + STALE_BACKOFF; r_claimed := None |}.
Proof.
  apply (negative_lease_reclaims_everything {| batch := 32; lease := - second |} Sqlite
    {| time := fun _ => 0; answer := fun _ => NoFault; handle := fun _ => Ok tt |} leased_table "o-1"
    {| r_aggregate := "order"; r_payload := [1; 2; 3]; r_status := "processing";
       r_attempts := 0; r_next := 0; r_claimed := Some 0 |});
    [reflexivity|done|done| |reflexivity|by apply leased_table_healthy|reflexivity..]; by vm_compute.
Defined.

(** The back-off doubles from a second up to an hour. *)
Lemma backoff_schedule a :
  0 <= a -> backoff a = (if a <=? 11 then 2 ^ a else 3600) * second.
Proof.
  intros Ha. unfold backoff, MAX_BACKOFF, BASE_BACKOFF. rewrite Z.shiftl_mul_pow2, Z.mul_1_l by lia.
  destruct (a <=? 11) eqn:Hle.
  - assert (Hc : a = 0 \/ a = 1 \/ a = 2 \/ a = 3 \/ a = 4 \/ a = 5 \/ a = 6 \/ a = 7 \/ a = 8 \/
                 a = 9 \/ a = 10 \/ a = 11) by lia.
    destruct_or! Hc; subst a; reflexivity.
  - assert (Hpow : 2 ^ 12 <= 2 ^ Z.min a 20) by (apply Z.pow_le_mono_r; lia).
    unfold second. destruct (_ <? _); lia.
Qed.

End OutboxSpec.
