(* ===== verification/TierConfig.v ===== *)
(** * Tiering configuration ([ecat-data-tiering])

    [src/ecat-data-tiering/src/config.rs]: the configuration and its validation, the
    identifier whitelist every statement relies on, and the daily window; from
    [archive.rs] the test of the window. *)

From Stdlib Require Import Ascii.
From S2P Require Import Prelude Clock Json Text.

Local Open Scope Z_scope.
Local Open Scope ecat_scope.

Module TierConfig.

Inductive TieringError :=
| Config (text : string)
| Db (text : string)
| Cold (text : string)
| State (text : string)
| UnsupportedDialect.

Inductive ColdTarget := Clickhouse | S3.

Record TableTieringConfig := {
  name : string;
  time_col : string;
  id_col : string;
  retention_days : Z;
  target : ColdTarget;
  filter : option string;
}.

Record TieringConfig := {
  enabled : bool;
  hot_days : Z;
  partition_months : Z;
  tables : list TableTieringConfig;
  batch_size : Z;
  max_rows_per_sec : option Z;
  verify_sample : option f64;
  retain_s3_days : Z;
  window : option string;
  dry_run : bool;
}.

(** What a missing key is taken as. *)
Definition default_hot_days : Z := 180.
Definition default_partition_months : Z := 1.
Definition default_batch_size : Z := 1000.
Definition default_retain_s3_days : Z := 7.

(** *** Identifiers

    The bytes of a non-ASCII character are all at least 128, so the test of the
    characters is the test of the bytes. *)

Definition is_alpha (b : Z) : bool := between 65 b 90 || between 97 b 122.
Definition is_digit (b : Z) : bool := between 48 b 57.
Definition head_ok (b : Z) : bool := is_alpha b || (b =? 95).
Definition tail_ok (b : Z) : bool := is_alpha b || is_digit b || (b =? 95).

Definition ident_ok (s : string) : bool :=
  match bytes_of s with
  | [] => false
  | b :: l => head_ok b && forallb tail_ok l
  end.

Definition validate_ident (s : string) : result unit TieringError :=
  if ident_ok s then Ok tt
  else Err (Config ("invalid identifier `" +:+ s +:+ "`: expected ^[A-Za-z_][A-Za-z0-9_]*$")).

(** *** The window *)

Definition window_error (window : string) : TieringError :=
  Config ("invalid window `" +:+ window +:+ "`: expected `HH:MM-HH:MM` in UTC").

Definition parse_hhmm (part window : string) : result Z TieringError :=
  let? (hour, minute) := ok_or (split_once ":" part) (window_error window) in
  let valid_len := Nat.eqb (String.length hour) 2 && Nat.eqb (String.length minute) 2 in
  let? h := ok_or (parse_uint 32 hour) (window_error window) in
  let? m := ok_or (parse_uint 32 minute) (window_error window) in
  if negb valid_len || (23 <? h) || (59 <? m) then Err (window_error window)
  else Ok (h * 60 + m).

Definition parse_window (window : string) : result (Z * Z) TieringError :=
  let? (start, stop) := ok_or (split_once "-" window) (window_error window) in
  let? start := parse_hhmm start window in
  let? stop := parse_hhmm stop window in
  if start =? stop then Err (window_error window) else Ok (start, stop).

Definition window_bounds (c : TieringConfig) : result (option (Z * Z)) TieringError :=
  match window c with
  | None => Ok None
  | Some w => let? b := parse_window w in Ok (Some b)
  end.

Definition window_allows (window : option (Z * Z)) (now : Z) : bool :=
  match window with
  | None => true
  | Some (start, stop) =>
      let minute := minute_of_day now in
      if start <? stop then (start <=? minute) && (minute <? stop)
      else (start <=? minute) || (minute <? stop)
  end.

(** *** Validation *)

Definition check_table (c : TieringConfig) (t : TableTieringConfig) : result unit TieringError :=
  let? _ := validate_ident (name t) in
  let? _ := validate_ident (time_col t) in
  let? _ := validate_ident (id_col t) in
  if retention_days t <? hot_days c
  then Err (Config ("table `" +:+ name t +:+ "`: retention_days (" +:+ dec_text (retention_days t)
                    +:+ ") must be >= hot_days (" +:+ dec_text (hot_days c) +:+ ")"))
  else Ok tt.

Fixpoint check_tables (c : TieringConfig) (l : list TableTieringConfig) : result unit TieringError :=
  match l with
  | [] => Ok tt
  | t :: l => let? _ := check_table c t in check_tables c l
  end.

Definition validate (c : TieringConfig) : result unit TieringError :=
  let? _ := window_bounds c in
  if hot_days c =? 0 then Err (Config "hot_days must be > 0")
  else if partition_months c =? 0 then Err (Config "partition_months must be > 0")
  else check_tables c (tables c).

End TierConfig.

Module TierConfigSpec.
Import TierConfig.

Lemma parse_uint_range w s n : parse_uint w s = Some n -> 0 <= n.
Proof.
  unfold parse_uint. destruct (DecimalString.NilZero.uint_of_string _); [|done].
  destruct (_ <? _); [|done]. intros; simplify_eq. lia.
Qed.

Lemma parse_hhmm_range part w m : parse_hhmm part w = Ok m -> 0 <= m < 1440.
Proof.
  unfold parse_hhmm. destruct (split_once _ part) as [[h s]|]; [|done]. simpl.
  destruct (parse_uint 32 h) as [hour|] eqn:Hh; [|done]. simpl.
  destruct (parse_uint 32 s) as [minute|] eqn:Hm; [|done]. simpl.
  apply parse_uint_range in Hh, Hm. destruct (_ || _) eqn:Hb; [done|]. intros; simplify_eq.
  apply orb_false_iff in Hb as [Hb ?]. apply orb_false_iff in Hb as [_ ?]. lia.
Qed.

(** The window is a cyclic interval of the day: its two ends are minutes of the day
    that differ, and an instant is allowed exactly when its distance past the start,
    modulo a day, is less than the length of the window - whether or not the window
    crosses midnight. *)
Theorem window_is_a_cyclic_interval w start stop now :
  parse_window w = Ok (start, stop) ->
  0 <= start < 1440 /\ 0 <= stop < 1440 /\ start <> stop /\
  (window_allows (Some (start, stop)) now = true <->
   (minute_of_day now - start) mod 1440 < (stop - start) mod 1440).
Proof.
  unfold parse_window. destruct (split_once _ w) as [[a b]|]; [|done]. simpl.
  destruct (parse_hhmm a w) as [s|] eqn:Ha; [|done]. simpl.
  destruct (parse_hhmm b w) as [e|] eqn:Hb; [|done]. simpl.
  destruct (Z.eqb_spec s e) as [|Hne]; [done|]. intros; simplify_eq.
  apply parse_hhmm_range in Ha, Hb. pose proof (minute_of_day_range now) as Hm.
  split_and!; try lia. unfold window_allows. set (m := minute_of_day now) in *.
  assert (Hmod : forall x, - 1440 < x < 1440 -> x mod 1440 = if 0 <=? x then x else x + 1440).
  { intros x Hx. destruct (0 <=? x) eqn:H0.
    - apply Z.mod_small. lia.
    - rewrite <- (Z.mod_add x 1 1440) by lia. rewrite Z.mod_small; lia. }
  rewrite !Hmod by lia. destruct (start <? stop) eqn:Hlt.
  - rewrite andb_true_iff, Z.leb_le, Z.ltb_lt.
    destruct (0 <=? m - start) eqn:?, (0 <=? stop - start) eqn:?; lia.
  - rewrite orb_true_iff, Z.leb_le, Z.ltb_lt.
    destruct (0 <=? m - start) eqn:?, (0 <=? stop - start) eqn:?; lia.
Qed.

Lemma window_is_a_cyclic_interval_witness :
  parse_window "22:00-02:00" = Ok (1320, 120) /\
  0 <= 1320 < 1440 /\ 0 <= 120 < 1440 /\ 1320 <> 120 /\
  (window_allows (Some (1320, 120)) (23 * 60 * minute) = true <->
   (minute_of_day (23 * 60 * minute) - 1320) mod 1440 < (120 - 1320) mod 1440).
Proof.
  split; [reflexivity|]. by apply (window_is_a_cyclic_interval "22:00-02:00").
Defined.

(** *** Identifiers *)

(** The regular language of the error text. *)
Inductive ident_tail : list Z -> Prop :=
| tail_nil : ident_tail []
| tail_cons b l : (65 <= b <= 90 \/ 97 <= b <= 122 \/ 48 <= b <= 57 \/ b = 95) ->
    ident_tail l -> ident_tail (b :: l).

Inductive ident : list Z -> Prop :=
| ident_cons b l : (65 <= b <= 90 \/ 97 <= b <= 122 \/ b = 95) -> ident_tail l -> ident (b :: l).

Lemma between_spec lo b hi : between lo b hi = true <-> lo <= b <= hi.
Proof. unfold between. rewrite andb_true_iff, !Z.leb_le. done. Qed.

Lemma tail_ok_spec b :
  tail_ok b = true <-> 65 <= b <= 90 \/ 97 <= b <= 122 \/ 48 <= b <= 57 \/ b = 95.
Proof. unfold tail_ok, is_alpha, is_digit. rewrite !orb_true_iff, !between_spec, Z.eqb_eq. tauto. Qed.

Lemma head_ok_spec b : head_ok b = true <-> 65 <= b <= 90 \/ 97 <= b <= 122 \/ b = 95.
Proof. unfold head_ok, is_alpha. rewrite !orb_true_iff, !between_spec, Z.eqb_eq. tauto. Qed.

Lemma forallb_tail l : forallb tail_ok l = true <-> ident_tail l.
Proof.
  induction l as [|b l IH]; simpl; [by split; [constructor|]|].
  rewrite andb_true_iff, IH, tail_ok_spec. split; [by intros []; constructor|].
  inversion 1; auto.
Qed.

(** The check accepts exactly the language its error text names. *)
Lemma validate_ident_spec s : validate_ident s = Ok tt <-> ident (bytes_of s).
Proof.
  unfold validate_ident, ident_ok. destruct (bytes_of s) as [|b l].
  - split; [done|]. inversion 1.
  - destruct (head_ok b && forallb tail_ok l) eqn:H; split; intros Hi; try done.
    + apply andb_true_iff in H as [Hh Ht]. constructor; [by apply head_ok_spec|by apply forallb_tail].
    + inv Hi. apply andb_false_iff in H as [H|H].
      * by rewrite (proj2 (head_ok_spec b)) in H.
      * by rewrite (proj2 (forallb_tail l)) in H.
Qed.

Lemma count_char_bytes c s :
  count_char c s = length (List.filter (Z.eqb (byte_of c)) (bytes_of s)).
Proof.
  induction s as [|a s IH]; simpl; [done|]. rewrite IH.
  destruct (Ascii.eqb_spec a c) as [->|Hne]; [by rewrite Z.eqb_refl|].
  destruct (Z.eqb_spec (byte_of c) (byte_of a)) as [He|]; [|done]. exfalso. apply Hne.
  unfold byte_of in He. apply N2Z.inj in He.
  by rewrite <- (Ascii.ascii_N_embedding a), <- (Ascii.ascii_N_embedding c), He.
Qed.

Lemma ident_ok_bytes s b : ident_ok s = true -> b ∈ bytes_of s -> tail_ok b = true.
Proof.
  unfold ident_ok. destruct (bytes_of s) as [|a l]; [done|]. intros [Ha Hl]%andb_true_iff Hb.
  apply elem_of_cons in Hb as [->|Hb].
  - apply tail_ok_spec. apply head_ok_spec in Ha. tauto.
  - rewrite forallb_forall in Hl. apply Hl. by apply list_elem_of_In.
Qed.

(** An accepted identifier cannot end the quotes it is written between, nor hold a
    blank: a statement template keeps its shape. *)
Lemma ident_cannot_escape s c :
  validate_ident s = Ok tt -> tail_ok (byte_of c) = false -> count_char c s = 0%nat.
Proof.
  unfold validate_ident. destruct (ident_ok s) eqn:Hi; [|done]. intros _ Hc. rewrite count_char_bytes.
  destruct (List.filter _ _) as [|x l] eqn:Hf; [done|]. exfalso.
  assert (Hx : List.In x (List.filter (Z.eqb (byte_of c)) (bytes_of s))) by (rewrite Hf; by left).
  apply List.filter_In in Hx as [Hx He]. apply Z.eqb_eq in He. subst x.
  apply list_elem_of_In in Hx. by rewrite (ident_ok_bytes s (byte_of c) Hi Hx) in Hc.
Qed.

End TierConfigSpec.
