(* ===== verification/Tiering.v ===== *)
(** * The archive job ([ecat-data-tiering])

    [src/ecat-data-tiering/src/state.rs] (the table of chunk states),
    [archive.rs] and [archive/pacer.rs] (the loop that copies a partition to the cold
    layer in chunks, verifies them and drops the partition).

    The hot database is its tables: each physical partition holds rows under their
    integer primary key, and a statement is its effect.  A SQL filter and the time
    column of a row are what the engine makes of them ([SqlTerms]); the cold layer is
    a trait object ([ColdSink]).  What the environment does is an input: the clock,
    which calls fail (applied or not), which rows arrive before a page is read. *)

From S2P Require Import Prelude Dialect Clock Crash Json Text TierConfig.

Local Open Scope Z_scope.
Local Open Scope ecat_scope.

Module TierState.
Import TierConfig.

(** *** Phases *)

Inductive ArchivePhase := Pending | Copied | Verified | Dropped.

#[export] Instance archive_phase_eq_dec : EqDecision ArchivePhase.
Proof. solve_decision. Defined.

Definition as_str (p : ArchivePhase) : string :=
  match p with
  | Pending => "pending"
  | Copied => "copied"
  | Verified => "verified"
  | Dropped => "dropped"
  end.

Definition parse (s : string) : result ArchivePhase TieringError :=
  if String.eqb s "pending" then Ok Pending
  else if String.eqb s "copied" then Ok Copied
  else if String.eqb s "verified" then Ok Verified
  else if String.eqb s "dropped" then Ok Dropped
  else Err (State ("unknown archive phase `" +:+ s +:+ "`")).

Definition predecessor (p : ArchivePhase) : option ArchivePhase :=
  match p with
  | Pending => None
  | Copied => Some Pending
  | Verified => Some Copied
  | Dropped => Some Verified
  end.

Record ArchiveJobState := {
  table : string;
  partition : string;
  chunk : Z;
  low_id : Z;
  high_id : Z;
  rows : Z;
  checksum : option string;
  phase : ArchivePhase;
  updated_at : Z;
}.

(** A row of [tier_archive_jobs] under its primary key; the text of an instant is the
    instant. *)
Record JobRow := {
  r_low : Z;
  r_high : Z;
  r_rows : Z;
  r_checksum : option string;
  r_phase : string;
  r_updated : Z;
}.

Definition JobKey : Type := string * string * Z.

Definition out_of_range (col : string) : TieringError :=
  State ("archive state `" +:+ col +:+ "` exceeds i64 range").

(** [i64::try_from] of an unsigned value. *)
Definition as_i64_param (col : string) (n : Z) : result Z TieringError :=
  if n <? 2 ^ 63 then Ok n else Err (out_of_range col).

Definition negative (col : string) : TieringError :=
  State ("archive state column `" +:+ col +:+ "` is negative").

Definition from_row (k : JobKey) (r : JobRow) : result ArchiveJobState TieringError :=
  let? c := (if k.2 <? 0 then Err (negative "chunk") else Ok k.2) in
  let? n := (if r_rows r <? 0 then Err (negative "rows") else Ok (r_rows r)) in
  let? p := parse (r_phase r) in
  Ok {| table := k.1.1; partition := k.1.2; chunk := c; low_id := r_low r; high_id := r_high r;
        rows := n; checksum := r_checksum r; phase := p; updated_at := r_updated r |}.

Definition to_row (s : ArchiveJobState) : result (JobKey * JobRow) TieringError :=
  let? c := as_i64_param "chunk" (chunk s) in
  let? n := as_i64_param "rows" (rows s) in
  Ok ((table s, partition s, c),
      {| r_low := low_id s; r_high := high_id s; r_rows := n; r_checksum := checksum s;
         r_phase := as_str (phase s); r_updated := updated_at s |}).

(** [UPDATE ... WHERE ... AND phase = from]: the row after it and whether it matched. *)
Definition advance_row (to from : ArchivePhase) (sum : option string) (now : Z) (r : JobRow)
    : option JobRow :=
  if String.eqb (r_phase r) (as_str from)
  then Some {| r_low := r_low r; r_high := r_high r; r_rows := r_rows r;
               r_checksum := match sum with Some c => Some c | None => r_checksum r end;
               r_phase := as_str to; r_updated := now |}
  else None.

End TierState.

Module Archive.
Import TierConfig TierState.

(** *** Interfaces *)

Section Interfaces.
Context `{JsonNumber}.

(** What the database engine makes of SQL terms: the filter of a table's configuration
    and the instant in a row's time column. *)
Class SqlTerms := {
  satisfies : string -> Row -> bool;
  instant_of : string -> Row -> Z;
}.

(** [ColdSink]. *)
Class ColdSink (C : Type) := {
  write_chunk : C -> string -> string -> Z -> list Row -> result string TieringError * C;
  verify_chunk : C -> string -> string -> Z -> string -> result bool TieringError;
}.

(** [ecat_lock::DistributedLock] under the job's key and time to live. *)
Class Lock (L : Type) := {
  acquire : L -> result (option string) string * L;
  release : L -> string -> result unit string * L;
}.

End Interfaces.

Record ArchiveReport := {
  chunks : Z;
  rows_ : Z;
  dropped_partitions : Z;
  skipped_drops : Z;
  rep_dry_run : bool;
  skipped : bool;
}.

(** [id_bounds]: the least and greatest id of a page; an id that is no integer is an
    error. *)
Section Job.
Context `{JT : JsonNumber} {ST : SqlTerms} {C L : Type} `{CS : !ColdSink C} `{LK : !Lock L}.

Fixpoint id_bounds_from (bounds : option (Z * Z)) (l : list Row) (id_col : string)
    : result (option (Z * Z)) TieringError :=
  match l with
  | [] => Ok bounds
  | r :: l =>
      let? i := ok_or ((r : gmap string Value) !! id_col ≫= as_i64)
                  (State ("archive chunk row has no integer `" +:+ id_col +:+ "`")) in
      id_bounds_from
        (Some match bounds with
              | None => (i, i)
              | Some (low, high) => (Z.min low i, Z.max high i)
              end) l id_col
  end.

Definition id_bounds (l : list Row) (id_col : string) : result (option (Z * Z)) TieringError :=
  id_bounds_from None l id_col.

(** *** The world *)

(** The statements of the job on a partition of the hot table. *)
Inductive hot_statement :=
| HotRows (t p : string)
| ReadChunk (t p : string)
| CountRows (t p : string)
| DropPartition (t p : string).

(** The environment; the natural number counts the effects so far.  Other clients insert
    rows: [arrivals] are those that arrive right before a statement of the job, which may
    depend on the statement and on the chunk states. *)
Record environment := {
  hot_dialect : Dialect;
  state_dialect : Dialect;
  clock : nat -> Z;
  elapsed : nat -> Z;
  faults : nat -> option (TieringError * bool);
  arrivals : nat -> hot_statement -> gmap JobKey JobRow -> list (string * string * Z * Row);
}.

Record world := {
  hot : gmap (string * string) (gmap Z Row);
  parts : gmap string (list string);
  jobs : gmap JobKey JobRow;
  cold : C;
  lock : option L;
  env : environment;
  tick : nat;
}.

Inductive stop := Failed (e : TieringError) | Panicked | OutOfFuel.

Local Abbreviation M := (M world stop).

Definition lift {A} (r : result A TieringError) : M A := ret (map_err Failed r).

Definition set_hot (h : gmap (string * string) (gmap Z Row)) (w : world) : world :=
  {| hot := h; parts := parts w; jobs := jobs w; cold := cold w; lock := lock w; env := env w;
     tick := tick w |}.
Definition set_parts (p : gmap string (list string)) (w : world) : world :=
  {| hot := hot w; parts := p; jobs := jobs w; cold := cold w; lock := lock w; env := env w;
     tick := tick w |}.
Definition set_jobs (j : gmap JobKey JobRow) (w : world) : world :=
  {| hot := hot w; parts := parts w; jobs := j; cold := cold w; lock := lock w; env := env w;
     tick := tick w |}.
Definition set_cold (c : C) (w : world) : world :=
  {| hot := hot w; parts := parts w; jobs := jobs w; cold := c; lock := lock w; env := env w;
     tick := tick w |}.
Definition set_lock (l : option L) (w : world) : world :=
  {| hot := hot w; parts := parts w; jobs := jobs w; cold := cold w; lock := l; env := env w;
     tick := tick w |}.
Definition bump (w : world) : world :=
  {| hot := hot w; parts := parts w; jobs := jobs w; cold := cold w; lock := lock w; env := env w;
     tick := S (tick w) |}.

(** A call on a database: it may fail, with its effect applied or not. *)
Definition db {A} (f : world -> A * world) : M A :=
  effect (fun w => match faults (env w) (tick w) with
    | None => (Ok (f w).1, bump (f w).2)
    | Some (e, false) => (Err (Failed e), bump w)
    | Some (e, true) => (Err (Failed e), bump (f w).2)
    end).

Definition now_utc : M Z := get (fun w => clock (env w) (tick w)).
Definition elapsed_now : M Z := get (fun w => elapsed (env w) (tick w)).

(** [t - Duration] and [t + Duration] of instants. *)
Definition add_time (t d : Z) : M Z :=
  match checked_add t d with Some r => ret (Ok r) | None => ret (Err Panicked) end.

(** *** The table of chunk states *)

Definition check_state_dialect : M unit :=
  do! d := get (fun w => state_dialect (env w)) in
  lift (match d with Mssql => Err UnsupportedDialect | _ => Ok tt end).

Definition load (t p : string) (n : Z) : M (option ArchiveJobState) :=
  do! _ := check_state_dialect in
  do! c := lift (as_i64_param "chunk" n) in
  do! r := db (fun w => (jobs w !! (t, p, c), w)) in
  match r with
  | None => ret (Ok None)
  | Some r => do! s := lift (from_row (t, p, c) r) in ret (Ok (Some s))
  end.

Definition upsert (s : ArchiveJobState) : M unit :=
  do! _ := check_state_dialect in
  do! kr := lift (to_row s) in
  db (fun w => (tt, set_jobs (<[kr.1 := kr.2]> (jobs w)) w)).

Definition no_predecessor (to : ArchivePhase) : TieringError :=
  State ("archive phase `" +:+ as_str to +:+ "` has no legal predecessor").

Definition job_text (t p : string) (n : Z) : string := t +:+ "/" +:+ p +:+ "/" +:+ dec_text n.

Definition advance (t p : string) (n : Z) (to : ArchivePhase) (sum : option string) : M unit :=
  do! _ := check_state_dialect in
  do! from := lift (ok_or (predecessor to) (no_predecessor to)) in
  do! now := now_utc in
  do! c := lift (as_i64_param "chunk" n) in
  do! matched := db (fun w =>
    match jobs w !! (t, p, c) ≫= advance_row to from sum now with
    | Some r => (true, set_jobs (<[(t, p, c) := r]> (jobs w)) w)
    | None => (false, w)
    end) in
  if matched then ret (Ok tt)
  else
    do! current := load t p n in
    lift (match current with
          | None => Err (State ("archive job " +:+ job_text t p n +:+ " not found"))
          | Some s => Err (State ("invalid archive phase transition " +:+ as_str (phase s) +:+ " -> "
                                  +:+ as_str to +:+ " for " +:+ job_text t p n))
          end).

(** [DELETE ... WHERE table_name = t AND partition_name = p]. *)
Definition reset_partition (t p : string) : M unit :=
  do! _ := check_state_dialect in
  db (fun w => (tt, set_jobs (base.filter (fun kr => kr.1.1 <> (t, p)) (jobs w)) w)).

(** *** The hot database *)

(** A row that arrives; a key that exists is refused. *)
Definition arrive (w : world) (a : string * string * Z * Row) : world :=
  let '(t, p, k, r) := a in
  match hot w !! (t, p) with
  | Some m =>
      if bool_decide (is_Some (m !! k)) then w
      else set_hot (<[(t, p) := <[k := r]> m]> (hot w)) w
  | None => w
  end.

Definition let_in (st : hot_statement) (w : world) : world :=
  foldl arrive w (arrivals (env w) (tick w) st (jobs w)).

Definition partition_rows (w : world) (t p : string) : gmap Z Row := default ∅ (hot w !! (t, p)).

Definition key_le (a b : Z * Row) : bool := a.1 <=? b.1.

(** [SELECT * ... WHERE id > cursor AND (filter) ORDER BY id LIMIT batch]. *)
Definition page (m : gmap Z Row) (filt : option string) (cursor : Z) (limit : nat)
    : list (Z * Row) :=
  take limit (sort_by key_le (List.filter
    (fun kr => (cursor <? kr.1) && match filt with None => true | Some f => satisfies f kr.2 end)
    (map_to_list m))).

Definition read_chunk (c : TieringConfig) (t : TableTieringConfig) (p : string) (cursor : Z)
    : M (list Row) :=
  db (fun w => let w := let_in (ReadChunk (name t) p) w in
    (map snd (page (partition_rows w (name t) p) (filter t) cursor (Z.to_nat (batch_size c))), w)).

Definition partitions (t : string) : M (list string) :=
  do! d := get (fun w => hot_dialect (env w)) in
  match d with
  | MySql => db (fun w => (default [] (parts w !! t), w))
  | _ => lift (Err UnsupportedDialect)
  end.

(** [COUNT( * )] of the rows not older than [hot_days]; the cutoff is written down to
    the second. *)
Definition hot_rows (c : TieringConfig) (t : TableTieringConfig) (p : string) : M Z :=
  do! now := now_utc in
  do! cutoff := add_time now (- (hot_days c * day)) in
  db (fun w => let w := let_in (HotRows (name t) p) w in
    (Z.of_nat (length (List.filter
                  (fun kr => floor_second cutoff <=? instant_of (time_col t) kr.2)
                  (map_to_list (partition_rows w (name t) p)))), w)).

(** [COUNT( * )] as an [i64], compared with the [u64]. *)
Definition row_count_matches (t p : string) (archived : Z) : M bool :=
  do! total := db (fun w => let w := let_in (CountRows t p) w in
                           (Z.of_nat (size (partition_rows w t p)), w)) in
  do! actual := lift (if total <? 2 ^ 63 then Ok total
                      else Err (State "total_rows query returned no count")) in
  ret (Ok (actual =? archived)).

Definition drop_partition (t p : string) : M unit :=
  do! _ := lift (validate_ident t) in
  do! _ := lift (validate_ident p) in
  db (fun w => let w := let_in (DropPartition t p) w in
    (tt, set_parts (alter (List.filter (fun q => negb (String.eqb q p))) t (parts w))
           (set_hot (delete (t, p) (hot w)) w))).

(** *** The cold layer *)

Definition write_cold (t p : string) (n : Z) (l : list Row) : M string :=
  effect (fun w => let '(r, c) := write_chunk (cold w) t p n l in
                   (map_err Failed r, bump (set_cold c w))).

Definition verify_cold (t p : string) (n : Z) (sum : string) : M bool :=
  effect (fun w =>
    match faults (env w) (tick w) with
    | Some (e, _) => (Err (Failed e), bump w)
    | None => (map_err Failed (verify_chunk (cold w) t p n sum), bump w)
    end).

(** *** Pacing *)

(** [Duration::from_secs_f64] in nanoseconds: rounded to the nearest, ties to even;
    [None] where it panics. *)
Definition from_secs_f64 (x : f64) : option Z :=
  match x with
  | S754_zero _ => Some 0
  | S754_finite false m e =>
      let num := Zpos m * second * 2 ^ Z.max e 0 in
      let den := 2 ^ Z.max (- e) 0 in
      let q := num / den in
      let r := num mod den in
      let n := if (den <? 2 * r) || ((den =? 2 * r) && Z.odd q) then q + 1 else q in
      if n <? 2 ^ 64 * second then Some n else None
  | _ => None
  end.

Definition throttle_delay (n rows_per_sec elapsed : Z) : option Z :=
  if rows_per_sec =? 0 then Some 0
  else match from_secs_f64 (f64_div (f64_of_u64 n) (f64_of_u64 rows_per_sec)) with
       | Some required => Some (sat_sub required elapsed)
       | None => None
       end.

(** The wait only lets time pass. *)
Definition throttle (c : TieringConfig) (n : Z) : M unit :=
  match max_rows_per_sec c with
  | Some rate =>
      if 0 <? rate
      then do! e := elapsed_now in
           match throttle_delay n rate e with
           | Some _ => ret (Ok tt)
           | None => ret (Err Panicked)
           end
      else ret (Ok tt)
  | None => ret (Ok tt)
  end.

(** *** One partition *)

(** The local variables of the loop. *)
Record progress := {
  cursor : Z;
  at_chunk : Z;
  all_verified : bool;
  verified_at : option Z;
  copied_any : bool;
  archived_rows : Z;
  report : ArchiveReport;
}.

Inductive walked :=
| AlreadyDropped (r : ArchiveReport)
| Walked (complete : bool) (p : progress).

Definition u64_sat_add (a b : Z) : Z := Z.min u64_max (a + b).

(** Past a chunk: the cursor moves, the counters grow. *)
Definition skip_dry (s : ArchiveJobState) (p : progress) : progress :=
  {| cursor := high_id s; at_chunk := u64_add (at_chunk p) 1; all_verified := all_verified p;
     verified_at := verified_at p; copied_any := copied_any p; archived_rows := archived_rows p;
     report := report p |}.

Definition pass_chunk (high n : Z) (ok : bool) (at_ : option Z) (rep : ArchiveReport) (p : progress)
    : progress :=
  {| cursor := high; at_chunk := u64_add (at_chunk p) 1; all_verified := all_verified p && ok;
     verified_at := at_; copied_any := true; archived_rows := u64_sat_add (archived_rows p) n;
     report := rep |}.

Definition count_chunk (n : Z) (r : ArchiveReport) : ArchiveReport :=
  {| chunks := u64_add (chunks r) 1; rows_ := u64_add (rows_ r) n;
     dropped_partitions := dropped_partitions r; skipped_drops := skipped_drops r;
     rep_dry_run := rep_dry_run r; skipped := skipped r |}.

(** [verify_chunk] and, if it holds, [Verified]: whether it did, and since when. *)
Definition verify_and_advance (t p : string) (n : Z) (sum : string) (since : option Z)
    : M (bool * option Z) :=
  do! ok := verify_cold t p n sum in
  if ok then
    do! _ := advance t p n Verified None in
    do! now := now_utc in
    ret (Ok (true, Some now))
  else ret (Ok (false, since)).

Definition copied_without_checksum (t p : string) (n : Z) : TieringError :=
  State (t +:+ " " +:+ p +:+ "/" +:+ dec_text n +:+ " is copied without checksum").

(** A chunk that is verified already. *)
Definition resume_verified (s : ArchiveJobState) (g : progress) : progress :=
  let since := match verified_at g with
               | Some v => Some (Z.max v (updated_at s))
               | None => Some (updated_at s)
               end in
  pass_chunk (high_id s) (rows s) true since (report g) g.

(** A chunk that is copied but not verified. *)
Definition resume_copied (c : TieringConfig) (t p : string) (s : ArchiveJobState) (g : progress)
    : M progress :=
  if dry_run c then ret (Ok (skip_dry s g))
  else
    do! sum := lift (ok_or (checksum s) (copied_without_checksum t p (at_chunk g))) in
    do! v := verify_and_advance t p (at_chunk g) sum (verified_at g) in
    ret (Ok (pass_chunk (high_id s) (rows s) v.1 v.2 (report g) g)).

(** A chunk that is not copied yet. *)
Definition copy_chunk (c : TieringConfig) (t p : string) (seeded : bool) (low high : Z)
    (l : list Row) (g : progress) : M progress :=
  let n := Z.of_nat (length l) in
  if dry_run c
  then ret (Ok {| cursor := high; at_chunk := u64_add (at_chunk g) 1; all_verified := all_verified g;
                  verified_at := verified_at g; copied_any := copied_any g;
                  archived_rows := archived_rows g; report := count_chunk n (report g) |})
  else
    do! sum := write_cold t p (at_chunk g) l in
    do! now := now_utc in
    do! _ := (if seeded then ret (Ok tt)
              else upsert {| table := t; partition := p; chunk := at_chunk g; low_id := low;
                             high_id := high; rows := n; checksum := Some sum; phase := Pending;
                             updated_at := now |}) in
    do! _ := advance t p (at_chunk g) Copied (Some sum) in
    do! v := verify_and_advance t p (at_chunk g) sum (verified_at g) in
    let g := pass_chunk high n v.1 v.2 (count_chunk n (report g)) g in
    do! _ := throttle c (rows_ (report g)) in
    ret (Ok g).

Definition copy_page (c : TieringConfig) (t : TableTieringConfig) (p : string) (seeded : bool)
    (g : progress) : M (walked + progress) :=
  do! l := read_chunk c t p (cursor g) in
  do! b := lift (id_bounds l (id_col t)) in
  match b with
  | None => ret (Ok (inl (Walked true g)))
  | Some (low, high) =>
      do! g := copy_chunk c (name t) p seeded low high l g in ret (Ok (inr g))
  end.

(** One round of the loop: the way it ends, or the variables of the next round. *)
Definition walk_step (timeout : Z) (c : TieringConfig) (t : TableTieringConfig) (p : string)
    (g : progress) : M (walked + progress) :=
  do! e := elapsed_now in
  if timeout <=? e then ret (Ok (inl (Walked false g)))
  else
    do! s := load (name t) p (at_chunk g) in
    match s with
    | None => copy_page c t p false g
    | Some s =>
        match phase s with
        | Dropped => ret (Ok (inl (AlreadyDropped (report g))))
        | Verified => ret (Ok (inr (resume_verified s g)))
        | Copied => do! g := resume_copied c (name t) p s g in ret (Ok (inr g))
        | Pending => copy_page c t p true g
        end
    end.

Fixpoint walk (fuel : nat) (timeout : Z) (c : TieringConfig) (t : TableTieringConfig) (p : string)
    (g : progress) : M walked :=
  match fuel with
  | O => ret (Err OutOfFuel)
  | S fuel =>
      do! r := walk_step timeout c t p g in
      match r with inl end_ => ret (Ok end_) | inr g => walk fuel timeout c t p g end
  end.

Definition retention_passed (c : TieringConfig) (since : option Z) : M bool :=
  match since with
  | None => ret (Ok false)
  | Some v =>
      do! now := now_utc in
      do! until := add_time v (retain_s3_days c * day) in
      ret (Ok (until <=? now))
  end.

(** [for n in 0..chunk]. *)
Fixpoint mark_dropped (t p : string) (n : Z) (count : nat) : M unit :=
  match count with
  | O => ret (Ok tt)
  | S count =>
      do! _ := advance t p n Dropped None in
      mark_dropped t p (n + 1) count
  end.

Definition count_skipped (r : ArchiveReport) : ArchiveReport :=
  {| chunks := chunks r; rows_ := rows_ r; dropped_partitions := dropped_partitions r;
     skipped_drops := u64_add (skipped_drops r) 1; rep_dry_run := rep_dry_run r; skipped := skipped r |}.
Definition count_dropped (r : ArchiveReport) : ArchiveReport :=
  {| chunks := chunks r; rows_ := rows_ r; dropped_partitions := u64_add (dropped_partitions r) 1;
     skipped_drops := skipped_drops r; rep_dry_run := rep_dry_run r; skipped := skipped r |}.

Definition finish (c : TieringConfig) (t : TableTieringConfig) (p : string) (complete : bool)
    (g : progress) : M ArchiveReport :=
  do! droppable :=
    (if complete && all_verified g && copied_any g
        && match filter t with None => true | Some _ => false end && negb (dry_run c)
     then retention_passed c (verified_at g) else ret (Ok false)) in
  if droppable then
    do! matches := row_count_matches (name t) p (archived_rows g) in
    if matches then
      do! _ := drop_partition (name t) p in
      do! _ := mark_dropped (name t) p 0 (Z.to_nat (at_chunk g)) in
      ret (Ok (count_dropped (report g)))
    else ret (Ok (count_skipped (report g)))
  else ret (Ok (report g)).

(** The cursor starts at [i64::MIN]. *)
Definition archive_partition (fuel : nat) (timeout : Z) (c : TieringConfig) (t : TableTieringConfig)
    (p : string) (r : ArchiveReport) : M ArchiveReport :=
  do! end_ := walk fuel timeout c t p
    {| cursor := - 2 ^ 63; at_chunk := 0; all_verified := true; verified_at := None;
       copied_any := false; archived_rows := 0; report := r |} in
  match end_ with
  | AlreadyDropped r => ret (Ok r)
  | Walked complete g => finish c t p complete g
  end.

(** *** All tables *)

Fixpoint archive_partitions (fuel : nat) (timeout : Z) (c : TieringConfig) (t : TableTieringConfig)
    (l : list string) (r : ArchiveReport) : M ArchiveReport :=
  match l with
  | [] => ret (Ok r)
  | p :: l =>
      do! _ := lift (validate_ident p) in
      do! n := hot_rows c t p in
      do! r := (if 0 <? n then ret (Ok r) else archive_partition fuel timeout c t p r) in
      archive_partitions fuel timeout c t l r
  end.

Fixpoint archive_tables (fuel : nat) (timeout : Z) (c : TieringConfig) (l : list TableTieringConfig)
    (r : ArchiveReport) : M ArchiveReport :=
  match l with
  | [] => ret (Ok r)
  | t :: l =>
      do! _ := lift (validate_ident (name t)) in
      do! _ := lift (validate_ident (time_col t)) in
      do! _ := lift (validate_ident (id_col t)) in
      do! ps := partitions (name t) in
      do! r := archive_partitions fuel timeout c t ps r in
      archive_tables fuel timeout c l r
  end.

(** *** A run *)

(** The lock: [None] without one, [Some None] when another holds it. *)
Definition acquire_lock : M (option (option string)) :=
  effect (fun w => match lock w with
    | None => (Ok None, bump w)
    | Some l => let '(r, l) := acquire l in
        (match r with
         | Ok token => Ok (Some token)
         | Err e => Err (Failed (State ("archive lock acquire failed: " +:+ e)))
         end, bump (set_lock (Some l) w))
    end).

(** The result of the release is ignored. *)
Definition release_lock (token : string) : M unit :=
  effect (fun w => match lock w with
    | None => (Ok tt, bump w)
    | Some l => (Ok tt, bump (set_lock (Some (release l token).2) w))
    end).

Definition empty_report (c : TieringConfig) (skip : bool) : ArchiveReport :=
  {| chunks := 0; rows_ := 0; dropped_partitions := 0; skipped_drops := 0;
     rep_dry_run := dry_run c; skipped := skip |}.

Definition run_once (fuel : nat) (timeout : Z) (c : TieringConfig) : M ArchiveReport :=
  do! _ := lift (validate c) in
  if batch_size c =? 0 then lift (Err (Config "batch_size must be > 0"))
  else
    do! bounds := lift (window_bounds c) in
    do! now := now_utc in
    if negb (window_allows bounds now) then ret (Ok (empty_report c true))
    else
      do! token := acquire_lock in
      match token with
      | Some None => ret (Ok (empty_report c true))
      | _ =>
          do! outcome := try (archive_tables fuel timeout c (tables c) (empty_report c false)) in
          do! _ := (match token with
                    | Some (Some token) => release_lock token
                    | _ => ret (Ok tt)
                    end) in
          ret outcome
      end.

End Job.
End Archive.
