(* ===== verification/TieringFacts.v ===== *)
(** * Lemmas about the archive job

    What every run keeps whatever happens (effects count up, a dry run writes
    nothing), and the invariant of a partition between its hot rows, its chunk states
    and the cold layer. *)

From S2P Require Import Prelude Dialect Clock Crash Json Text TierConfig Tiering.

Local Open Scope Z_scope.
Local Open Scope ecat_scope.

(** ** The contract of the cold layer

    A checksum is a digest of the rows; a chunk that verifies under the digest of some
    rows holds them; writing one chunk leaves the others. *)

Class ColdLaw `{JT : JsonNumber} (C : Type) `{CS : !Archive.ColdSink C} := {
  digest : string -> list Row -> string;
  holds : C -> string -> string -> Z -> list Row -> Prop;
  write_digest c t p n l s c' : Archive.write_chunk c t p n l = (Ok s, c') -> s = digest t l;
  write_frame c t p n l r c' t' p' n' l' :
    Archive.write_chunk c t p n l = (r, c') -> (t', p', n') <> (t, p, n) ->
    holds c t' p' n' l' -> holds c' t' p' n' l';
  verify_holds c t p n l : Archive.verify_chunk c t p n (digest t l) = Ok true -> holds c t p n l;
}.

Module TieringFacts.
Import TierConfig TierState Archive.

Section Facts.
Context `{JT : JsonNumber} {ST : SqlTerms} {C L : Type} `{CS : !ColdSink C} `{LK : !Lock L}.

Local Abbreviation world := (world (C:=C) (L:=L)).
Local Abbreviation M := (M world stop).

(** *** Phases *)

Lemma parse_as_str ph : parse (as_str ph) = Ok ph.
Proof. by destruct ph. Qed.

Lemma parse_ok s ph : parse s = Ok ph -> s = as_str ph.
Proof.
  unfold parse. 
  do 4 (match goal with |- context [String.eqb s ?x] => destruct (String.eqb_spec s x) as [->|] end;
        [intros; by simplify_eq|]). done.
Qed.

Lemma as_str_inj a b : as_str a = as_str b -> a = b.
Proof. by destruct a, b. Qed.

Lemma advance_row_spec to from sum now r r' :
  advance_row to from sum now r = Some r' ->
  r_phase r = as_str from /\ r_phase r' = as_str to /\ r_low r' = r_low r /\ r_high r' = r_high r /\
  r_rows r' = r_rows r /\
  r_checksum r' = match sum with Some c => Some c | None => r_checksum r end /\ r_updated r' = now.
Proof.
  unfold advance_row. destruct (String.eqb_spec (r_phase r) (as_str from)) as [->|]; [|done].
  intros; simplify_eq. by split_and!.
Qed.

(** *** What every effect keeps *)

Section Keep.
Context (J : world -> Prop) (R : world -> world -> Prop) `{!PreOrder R} (bad : stop -> Prop).
Context (stable : forall w w', R w w' -> J w -> J w').
Context (failed_ok : forall e, ~ bad (Failed e)) (panic_ok : ~ bad Panicked).

Local Abbreviation keeps := (respects J R bad).

Lemma keeps_lift {A} (r : result A TieringError) : keeps (lift r : M A).
Proof. apply respects_ret; [done|]. intros e. destruct r; simpl; [done|]. intros; simplify_eq. apply failed_ok. Qed.

Lemma keeps_db {A} (f : world -> A * world) :
  (forall w, R w (bump w)) -> (forall w, R w (bump (f w).2)) -> keeps (db f : M A).
Proof.
  intros Hb Hf. apply respects_effect; [done|]. intros w.
  destruct (faults (env w) (tick w)) as [[e [|]]|]; simpl; (split; [auto|]); intros; simplify_eq; auto.
Qed.

Lemma keeps_add_time t d : keeps (add_time t d : M Z).
Proof. unfold add_time. destruct (checked_add t d); apply respects_ret; try done. intros; by simplify_eq. Qed.

Create HintDb keeps.
#[local] Hint Resolve keeps_lift keeps_add_time : keeps.

(** Walks through a program: binds, results, and what the hints know. *)
Ltac keep :=
  repeat first
    [ solve [eauto with keeps]
    | apply respects_ok; done
    | apply respects_get; done
    | apply respects_ret; [done|assumption]
    | apply respects_try_bind; [done|done| |intros ? ?]
    | apply respects_bind; [done|done| |intros ?]
    | case_match ].

Context (keep_bump : forall w, R w (bump w)).
Context (keep_arrive : forall st w, R w (bump (let_in st w))).

Lemma keeps_check_state_dialect : keeps (check_state_dialect : M unit).
Proof. unfold check_state_dialect. keep. Qed.
#[local] Hint Resolve keeps_check_state_dialect : keeps.

Lemma keeps_load t p n : keeps (load t p n : M _).
Proof. unfold load. keep. apply keeps_db; simpl; auto. Qed.

Lemma keeps_partitions t : keeps (partitions t : M _).
Proof. unfold partitions. keep. apply keeps_db; simpl; auto. Qed.

Lemma keeps_hot_rows c t p : keeps (hot_rows c t p : M _).
Proof. unfold hot_rows. keep. apply keeps_db; simpl; auto. Qed.

Lemma keeps_row_count t p n : keeps (row_count_matches t p n : M _).
Proof. unfold row_count_matches. keep. apply keeps_db; simpl; auto. Qed.

Lemma keeps_retention c since : keeps (retention_passed c since : M _).
Proof. unfold retention_passed. keep. Qed.

Lemma keeps_verify_cold t p n s : keeps (verify_cold t p n s : M _).
Proof.
  apply respects_effect; [done|]. intros w. destruct (faults (env w) (tick w)) as [[e0 a]|]; simpl;
    (split; [apply keep_bump|]); simpl; intros e.
  - intros; simplify_eq. apply failed_ok.
  - destruct (verify_chunk _ _ _ _ _); simpl; [done|]. intros; simplify_eq. apply failed_ok.
Qed.

Lemma keeps_throttle c n : keeps (throttle c n : M _).
Proof. unfold throttle. keep. apply respects_ret; [done|]. intros; by simplify_eq. Qed.
#[local] Hint Resolve keeps_load keeps_partitions keeps_hot_rows keeps_row_count keeps_retention
  keeps_verify_cold keeps_throttle : keeps.


Lemma keeps_read_chunk c t p cur : keeps (read_chunk c t p cur : M _).
Proof. unfold read_chunk. apply keeps_db; simpl; auto. Qed.
#[local] Hint Resolve keeps_read_chunk : keeps.

Section Writes.
Context (keep_jobs : forall w j, R w (bump (set_jobs j w))).
Context (keep_cold : forall w c, R w (bump (set_cold c w))).
Context (keep_drop : forall st w h ps, R w (bump (set_parts ps (set_hot h (let_in st w))))).

Lemma keeps_advance t p n to sum : keeps (advance t p n to sum : M _).
Proof. unfold advance. keep. apply keeps_db; [done|]. intros w. case_match; simpl; auto. Qed.
#[local] Hint Resolve keeps_advance : keeps.

Lemma keeps_upsert st : keeps (upsert st : M _).
Proof. unfold upsert. keep. apply keeps_db; simpl; auto. Qed.
#[local] Hint Resolve keeps_upsert : keeps.

Lemma keeps_write_cold t p n l : keeps (write_cold t p n l : M _).
Proof.
  apply respects_effect; [done|]. intros w. destruct (write_chunk _ _ _ _ _) as [r c]. simpl.
  split; [apply keep_cold|]. intros e. destruct r; simpl; [done|]. intros; simplify_eq. apply failed_ok.
Qed.
#[local] Hint Resolve keeps_write_cold : keeps.

Lemma keeps_verify_and_advance t p n sum v : keeps (verify_and_advance t p n sum v : M _).
Proof. unfold verify_and_advance. keep. Qed.
#[local] Hint Resolve keeps_verify_and_advance : keeps.

Lemma keeps_drop_partition t p : keeps (drop_partition t p : M _).
Proof. unfold drop_partition. keep. apply keeps_db; simpl; auto. Qed.
#[local] Hint Resolve keeps_drop_partition : keeps.

Lemma keeps_mark_dropped t p n k : keeps (mark_dropped t p n k : M _).
Proof. revert n. induction k as [|k IH]; intros n; cbn [mark_dropped]; keep. Qed.
#[local] Hint Resolve keeps_mark_dropped : keeps.

(** A round after its load. *)
Lemma keeps_round c t p g s :
  keeps (match s with
         | None => copy_page c t p false g
         | Some s => match phase s with
                     | Dropped => ret (Ok (inl (AlreadyDropped (report g))))
                     | Verified => ret (Ok (inr (resume_verified s g)))
                     | Copied => do! g := resume_copied c (name t) p s g in ret (Ok (inr g))
                     | Pending => copy_page c t p true g
                     end
         end : M (walked + progress)).
Proof. unfold copy_page, resume_copied, copy_chunk. keep. Qed.
#[local] Hint Resolve keeps_round : keeps.

Lemma keeps_walk_step timeout c t p g : keeps (walk_step timeout c t p g : M _).
Proof. unfold walk_step. keep. Qed.

Lemma keeps_finish c t p b g : keeps (finish c t p b g : M _).
Proof. unfold finish. keep. Qed.

End Writes.

(** A dry run only reads. *)
Lemma keeps_walk_step_dry timeout c t p g :
  dry_run c = true -> keeps (walk_step timeout c t p g : M _).
Proof. intros Hd. unfold walk_step, copy_page, resume_copied, copy_chunk. rewrite Hd. keep. Qed.

Lemma keeps_finish_dry c t p b g : dry_run c = true -> keeps (finish c t p b g : M _).
Proof. intros Hd. unfold finish. rewrite Hd, andb_false_r. keep. Qed.

(** From one partition to the run. *)
Section Run.
Context (fuel : nat) (timeout : Z) (c : TieringConfig).
Context (keep_lock : forall w l, R w (bump (set_lock l w))).
Context (keep_one : forall t p r, t ∈ tables c -> keeps (archive_partition fuel timeout c t p r : M _)).

Lemma keeps_archive_partitions t l r :
  t ∈ tables c -> keeps (archive_partitions fuel timeout c t l r : M _).
Proof.
  intros Ht. pose proof (fun p r => keep_one t p r Ht).
  revert r. induction l as [|p l IH]; intros r; cbn [archive_partitions]; keep.
Qed.

Lemma keeps_archive_tables l r :
  (forall t, t ∈ l -> t ∈ tables c) -> keeps (archive_tables fuel timeout c l r : M _).
Proof.
  revert r. induction l as [|t l IH]; intros r Hl; cbn [archive_tables]; [keep|].
  pose proof (fun ps r => keeps_archive_partitions t ps r (Hl t (list_elem_of_here _ _))).
  assert (Hrest : forall t', t' ∈ l -> t' ∈ tables c) by (intros t' Ht'; apply Hl; by right).
  pose proof (fun r => IH r Hrest). keep.
Qed.

Lemma keeps_acquire_lock : keeps (acquire_lock : M _).
Proof.
  apply respects_effect; [done|]. intros w. destruct (lock w) as [k|]; [|by split; [apply keep_bump|]].
  destruct (acquire k) as [r k']. simpl. split; [apply keep_lock|]. intros e.
  destruct r; simpl; [done|]. intros; simplify_eq. apply failed_ok.
Qed.

Lemma keeps_release_lock s : keeps (release_lock s : M _).
Proof.
  apply respects_effect; [done|]. intros w. destruct (lock w) as [k|]; simpl; split; try done.
Qed.
#[local] Hint Resolve keeps_acquire_lock keeps_release_lock : keeps.

Lemma keeps_run_once : keeps (run_once fuel timeout c : M _).
Proof.
  pose proof (fun r => keeps_archive_tables (tables c) r (fun _ H => H)). unfold run_once. keep.
Qed.

End Run.
End Keep.
(** *** Arrivals *)

Definition hot_le (h h' : gmap (string * string) (gmap Z Row)) : Prop :=
  forall k m, h !! k = Some m -> exists m', h' !! k = Some m' /\ m ⊆ m'.

#[export] Instance hot_le_preorder : PreOrder hot_le.
Proof.
  split; [by intros h k m Hk; exists m|]. intros h1 h2 h3 H12 H23 k m Hk.
  destruct (H12 k m Hk) as (m2 & H2 & Hle2), (H23 k m2 H2) as (m3 & H3 & Hle3).
  exists m3. split; [done|by etrans].
Qed.

(** Everything but the hot rows and the count of effects. *)
Definition same_rest (w w' : world) : Prop :=
  parts w' = parts w /\ jobs w' = jobs w /\ cold w' = cold w /\ lock w' = lock w /\ env w' = env w.

Lemma arrive_spec w a : same_rest w (arrive w a) /\ tick (arrive w a) = tick w /\ hot_le (hot w) (hot (arrive w a)).
Proof.
  assert (Hrefl : same_rest w w /\ tick w = tick w /\ hot_le (hot w) (hot w))
    by (split_and!; [by split_and!|done|reflexivity]).
  destruct a as [[[t p] k] r]. unfold arrive. destruct (hot w !! (t, p)) as [m|] eqn:Hm; [|done].
  destruct (bool_decide _) eqn:Hb; [done|]. clear Hrefl.
  split_and!; [by split_and!|done|]. intros k' m' Hk'. simpl.
  destruct (decide (k' = (t, p))) as [->|Hne].
  - rewrite lookup_insert_eq. eexists. split; [done|]. rewrite Hm in Hk'. injection Hk' as <-.
    apply insert_subseteq. apply bool_decide_eq_false in Hb.
    by apply eq_None_not_Some.
  - rewrite lookup_insert_ne by done. eauto.
Qed.

Lemma let_in_spec st w :
  same_rest w (let_in st w) /\ tick (let_in st w) = tick w /\ hot_le (hot w) (hot (let_in st w)).
Proof.
  unfold let_in. generalize (arrivals (env w) (tick w) st (jobs w)) as l. intros l. revert w.
  induction l as [|a l IH]; intros w; simpl; [split_and!; [by split_and!|done|reflexivity]|].
  destruct (arrive_spec w a) as ((Hp & Hj & Hc & Hk & He) & Ht & Hh).
  destruct (IH (arrive w a)) as ((Hp2 & Hj2 & Hc2 & Hk2 & He2) & Ht2 & Hh2).
  split_and!; [split_and!|..]; [congruence..|by etrans].
Qed.

(** *** What a dry run may change *)

Definition untouched (w w' : world) : Prop :=
  parts w' = parts w /\ jobs w' = jobs w /\ cold w' = cold w /\ hot_le (hot w) (hot w').

#[local] Instance untouched_preorder : PreOrder untouched.
Proof.
  split; [intros w; split_and!; [done..|reflexivity]|]. intros w1 w2 w3 (? & ? & ? & ?) (? & ? & ? & ?).
  split_and!; [congruence..|by etrans].
Qed.

Lemma dry_run_keeps fuel timeout c :
  dry_run c = true -> respects (fun _ => True) untouched (fun _ => False) (run_once fuel timeout c : M _).
Proof.
  intros Hd.
  assert (Hb : forall w : world, untouched w (bump w)) by (intros w; split_and!; [done..|reflexivity]).
  assert (Ha : forall st (w : world), untouched w (bump (let_in st w))).
  { intros st w. destruct (let_in_spec st w) as ((? & ? & ? & _) & _ & ?). by split_and!. }
  apply keeps_run_once; [apply _|done|tauto|tauto|exact Hb|exact Ha|intros w l; split_and!; [done..|reflexivity]|].
  intros t p r _. unfold archive_partition. apply respects_bind; [apply _|done| |].
  - generalize {| cursor := - 2 ^ 63; at_chunk := 0; all_verified := true; verified_at := None;
      copied_any := false; archived_rows := 0; report := r |} as g.
    induction fuel as [|f IH]; intros g; cbn [walk]; [apply respects_ret; [apply _|tauto]|].
    apply respects_bind; [apply _|done|by apply keeps_walk_step_dry; try apply _; try tauto|].
    intros [e|g']; [apply respects_ok; apply _|apply IH].
  - intros [r'|b g]; [apply respects_ok; apply _|].
    apply keeps_finish_dry; try apply _; tauto.
Qed.

(** *** The budget bounds the loop *)

Definition later (w w' : world) : Prop := (tick w <= tick w')%nat /\ env w' = env w.

#[local] Instance later_preorder : PreOrder later.
Proof. split; [intros w; by split|]. intros w1 w2 w3 [? ?] [? ?]. split; [lia|congruence]. Qed.

Lemma later_bump (w w' : world) : tick w' = tick w -> env w' = env w -> later w (bump w').
Proof. intros Ht He. split; simpl; [lia|done]. Qed.

Lemma load_ticks t p n (q q' : proc world) s :
  load t p n q = (Ret (Ok s), q') -> (tick (the_world q) < tick (the_world q'))%nat.
Proof.
  unfold load, check_state_dialect, lift, bind, get, ret, db, effect.
  destruct q as [w b]; simpl. destruct (state_dialect (env w)); simpl; [..|done];
    (destruct (as_i64_param "chunk" n) as [k|]; simpl; [|done]);
    (destruct b as [[|b]|]; simpl; [done| |]);
    (destruct (faults (env w) (tick w)) as [[e [|]]|]; simpl; [done..|]);
    (destruct (jobs w !! (t, p, k)) as [r|]; simpl; [destruct (from_row _ r); simpl; [|done]|]);
    intros; simplify_eq; simpl; lia.
Qed.

Lemma walk_step_ticks timeout c t p g (q q' : proc world) g' :
  walk_step timeout c t p g q = (Ret (Ok (inr g')), q') ->
  (tick (the_world q) < tick (the_world q'))%nat /\ env (the_world q') = env (the_world q) /\
  elapsed (env (the_world q)) (tick (the_world q)) < timeout.
Proof.
  intros H.
  assert (Hk : respects (fun _ => True) later (fun _ => False) (walk_step timeout c t p g : M _)).
  { apply keeps_walk_step; try tauto; try apply _; intros; apply later_bump; try done; by apply let_in_spec. }
  destruct (Hk _ _ _ I H) as [[_ He] _].
  unfold walk_step, elapsed_now in H. unfold bind at 1, get in H. simpl in H.
  destruct (timeout <=? elapsed (env (the_world q)) (tick (the_world q))) eqn:Ht; [done|].
  unfold bind at 1 in H. destruct (load (name t) p (at_chunk g) q) as [[[s|e]|] q1] eqn:Hl; [|done..].
  split_and!; [|done|lia]. apply Nat.lt_le_trans with (tick (the_world q1)); [by eapply load_ticks|].
  clear Hk He Hl Ht.
  assert (Hk : respects (fun _ => True) later (fun _ => False)
    (match s with
     | None => copy_page c t p false g
     | Some s => match phase s with
                 | Dropped => ret (Ok (inl (AlreadyDropped (report g))))
                 | Verified => ret (Ok (inr (resume_verified s g)))
                 | Copied => do! g := resume_copied c (name t) p s g in ret (Ok (inr g))
                 | Pending => copy_page c t p true g
                 end
     end : M (walked + progress))).
  { apply keeps_round; try tauto; try apply _; intros; apply later_bump; try done; by apply let_in_spec. }
  by destruct (Hk _ _ _ I H) as [[? _] _].
Qed.

(** From some count of effects on, the budget of the run is used up. *)
Definition budget (timeout : Z) (n : nat) (w : world) : Prop :=
  forall k, (n <= k)%nat -> timeout <= elapsed (env w) k.

Lemma budget_stable timeout n w w' : later w w' -> budget timeout n w -> budget timeout n w'.
Proof. intros [_ He] Hb k Hk. rewrite He. by apply Hb. Qed.

Lemma walk_in_budget timeout n fuel c t p g :
  (n < fuel)%nat -> respects (budget timeout n) later (eq OutOfFuel) (walk fuel timeout c t p g : M _).
Proof.
  intros Hn.
  assert (Hgen : forall f g q out q', (0 < f)%nat -> (n < f + tick (the_world q))%nat ->
    budget timeout n (the_world q) -> walk f timeout c t p g q = (out, q') ->
    later (the_world q) (the_world q') /\ (forall e, out = Ret (Err e) -> OutOfFuel <> e)).
  { clear fuel g Hn. induction f as [|f IH]; intros g q out q' Hf Hn Hb H; [lia|].
    cbn [walk] in H. unfold bind at 1 in H.
    destruct (walk_step timeout c t p g q) as [o q1] eqn:Hs.
    assert (Hk : respects (fun _ => True) later (eq OutOfFuel) (walk_step timeout c t p g : M _)).
    { apply keeps_walk_step; try done; try apply _; intros; apply later_bump; try done;
        by apply let_in_spec. }
    destruct (Hk _ _ _ I Hs) as [Hle Hbad]. destruct o as [[[e|g']|e]|].
    - unfold ret in H. simplify_eq. by split.
    - destruct (walk_step_ticks _ _ _ _ _ _ _ _ Hs) as (Ht & He & Hel).
      assert (tick (the_world q) < n)%nat.
      { destruct (Nat.lt_ge_cases (tick (the_world q)) n) as [|Hge]; [done|].
        specialize (Hb _ Hge). lia. }
      destruct (IH g' q1 out q') as [Hle2 Hbad2]; [lia|lia|by eapply budget_stable|done|].
      split; [by etrans|done].
    - simplify_eq. split; [done|]. intros; simplify_eq. by apply Hbad.
    - simplify_eq. by split. }
  intros q out q' Hb H. apply (Hgen fuel g q out q'); [lia|lia|done|done].
Qed.

Lemma run_in_budget timeout n fuel c :
  (n < fuel)%nat -> respects (budget timeout n) later (eq OutOfFuel) (run_once fuel timeout c : M _).
Proof.
  intros Hn. pose proof (budget_stable timeout n) as Hst.
  apply keeps_run_once; try done; try apply _; [intros; apply later_bump; try done; by apply let_in_spec..|].
  intros t p r _. unfold archive_partition.
  apply respects_bind; [apply _|done|by apply walk_in_budget|]. intros [r'|b g]; [apply respects_ok; apply _|].
  apply keeps_finish; try done; try apply _; intros; apply later_bump; try done; by apply let_in_spec.
Qed.

End Facts.
End TieringFacts.
