(* ===== verification/TieringInv.v ===== *)
(** * The invariant of the archive job

    What ties a partition's hot rows, its chunk states and the cold layer together
    between any two effects, and that every operation of the job keeps it. *)

From S2P Require Import Prelude Dialect Clock Crash Json Text TierConfig Tiering TieringFacts.

Local Open Scope Z_scope.
Local Open Scope ecat_scope.

Module TieringInv.
Import TierConfig TierState Archive TieringFacts.

Section Inv.
Context `{JT : JsonNumber} {ST : SqlTerms} {C L : Type} `{CS : !ColdSink C} `{LK : !Lock L}
  `{CL : !ColdLaw C}.
Context (c : TieringConfig).

Local Abbreviation world := (world (C:=C) (L:=L)).
Local Abbreviation M := (M world stop).

(** *** One partition *)

Definition job (w : world) (t : TableTieringConfig) (p : string) (n : Z) : option JobRow :=
  jobs w !! (name t, p, n).

Definition rows_in (w : world) (t : TableTieringConfig) (p : string) : option (gmap Z Row) :=
  hot w !! (name t, p).

Definition settled (j : JobRow) : Prop :=
  r_phase j = as_str Verified \/ r_phase j = as_str Dropped.

Definition seeded (j : JobRow) : Prop := r_phase j = as_str Pending.

(** Where the page of a chunk starts. *)
Definition start_of (w : world) (t : TableTieringConfig) (p : string) (n : Z) : Z :=
  if n =? 0 then - 2 ^ 63
  else match job w t p (n - 1) with Some j => r_high j | None => - 2 ^ 63 end.

Definition page_at (t : TableTieringConfig) (m : gmap Z Row) (cur : Z) : list (Z * Row) :=
  page m (filter t) cur (Z.to_nat (batch_size c)).

(** The state of chunk [n], which stands for the rows [l]. *)
Record chunk_ok (w : world) (t : TableTieringConfig) (p : string) (l : list (Z * Row)) (n : Z)
    (j : JobRow) : Prop := {
  ck_nonneg : 0 <= n;
  ck_rows : r_rows j = Z.of_nat (length l);
  ck_some : l <> [];
  ck_high k r : (k, r) ∈ l -> k <= r_high j;
  ck_high_in : exists r, (r_high j, r) ∈ l;
  ck_sum : r_checksum j = Some (digest (name t) (map snd l));
  ck_phase : exists ph, r_phase j = as_str ph;
  ck_held : settled j -> holds (cold w) (name t) p n (map snd l);
  ck_keys : NoDup (map fst l);
  ck_hot m k r : rows_in w t p = Some m -> (k, r) ∈ l -> m !! k = Some r;
  ck_page m : rows_in w t p = Some m -> seeded j -> l = page_at t m (start_of w t p n);
  ck_start k r : (k, r) ∈ l -> start_of w t p n < k;
  ck_prev : n <> 0 -> exists j', job w t p (n - 1) = Some j' /\ ~ seeded j';
}.

Record part_ok (w : world) (t : TableTieringConfig) (p : string) (X : Z -> list (Z * Row)) : Prop := {
  pk_chunks n j : job w t p n = Some j -> chunk_ok w t p (X n) n j;
  pk_keyed m k r : rows_in w t p = Some m -> m !! k = Some r ->
    (r : gmap string Value) !! id_col t ≫= as_i64 = Some k;
}.

(** Rows arrive under their key. *)
Definition keyed_arrivals (e : environment) : Prop :=
  forall i st js t p k r, (name t, p, k, r) ∈ arrivals e i st js -> t ∈ tables c ->
    (r : gmap string Value) !! id_col t ≫= as_i64 = Some k.

(** When rows may arrive: not in a partition while one of its chunks is only seeded, and
    not between the count of a partition and its drop. *)
Definition punctual (e : environment) : Prop :=
  forall i st (js : gmap JobKey JobRow) t p k r, (t, p, k, r) ∈ arrivals e i st js ->
    st <> DropPartition t p /\ forall n j, js !! (t, p, n) = Some j -> ~ seeded j.

Definition env_ok (e : environment) : Prop := punctual e /\ keyed_arrivals e.

Definition inv (w : world) : Prop :=
  env_ok (env w) /\ forall t p, t ∈ tables c -> exists X, part_ok w t p X.

(** *** Accounting *)

(** The cold layer holds the row in a chunk that is verified. *)
Definition archived (w : world) (t : TableTieringConfig) (p : string) (r : Row) : Prop :=
  exists n j l, job w t p n = Some j /\ settled j /\ r_checksum j = Some (digest (name t) l) /\
    holds (cold w) (name t) p n l /\ r ∈ l.

Definition present (w : world) (t : TableTieringConfig) (p : string) (k : Z) (r : Row) : Prop :=
  exists m, rows_in w t p = Some m /\ m !! k = Some r.

(** The rows that must not be lost. *)
Context (kept : TableTieringConfig -> string -> Z -> Row -> Prop).

Definition accounted (w : world) : Prop :=
  forall t p k r, t ∈ tables c -> kept t p k r -> present w t p k r \/ archived w t p r.

Definition good (w : world) : Prop := inv w /\ accounted w.

(** Settled chunks stay settled with what they hold. *)
Definition settles (w w' : world) : Prop :=
  forall key j, jobs w !! key = Some j -> settled j ->
    exists j', jobs w' !! key = Some j' /\ settled j' /\ r_checksum j' = r_checksum j /\
      forall l, holds (cold w) key.1.1 key.1.2 key.2 l -> holds (cold w') key.1.1 key.1.2 key.2 l.

Lemma archived_settles w w' t p r : settles w w' -> archived w t p r -> archived w' t p r.
Proof.
  intros Hs (n & j & l & Hj & Hset & Hsum & Hh & Hr).
  destruct (Hs _ _ Hj Hset) as (j' & Hj' & Hset' & Hsum' & Hkeep).
  exists n, j', l. split_and!; [done|done|congruence|by apply (Hkeep l)|done].
Qed.

Lemma accounted_settles w w' :
  settles w w' -> hot_le (hot w) (hot w') -> accounted w -> accounted w'.
Proof.
  intros Hs Hh Ha t p k r Ht Hk. destruct (Ha t p k r Ht Hk) as [(m & Hm & Hr)|Har].
  - left. destruct (Hh _ _ Hm) as (m' & Hm' & Hsub). exists m'. split; [done|].
    by apply (lookup_weaken m).
  - right. by apply (archived_settles w).
Qed.

Lemma settles_same w w' : jobs w' = jobs w -> cold w' = cold w -> settles w w'.
Proof. intros Hj Hc key j Hk Hs. exists j. rewrite Hj, Hc. by split_and!. Qed.

(** *** Another partition *)

(** Nothing of the partition moved, and its settled chunks are held as before. *)
Definition untouched_part (w w' : world) (t : TableTieringConfig) (p : string) : Prop :=
  rows_in w' t p = rows_in w t p /\ (forall n, job w' t p n = job w t p n) /\
  (forall n j l, job w t p n = Some j -> settled j ->
     holds (cold w) (name t) p n l -> holds (cold w') (name t) p n l).

Lemma start_of_same w w' t p n : (forall n, job w' t p n = job w t p n) -> start_of w' t p n = start_of w t p n.
Proof. intros H. unfold start_of. by rewrite H. Qed.

Lemma untouched_part_ok w w' t p X :
  untouched_part w w' t p -> part_ok w t p X -> part_ok w' t p X.
Proof.
  intros (Hr & Hj & Hh) [Hck Hkey]. split.
  - intros n j Hn. rewrite Hj in Hn. destruct (Hck n j Hn). split; try done.
    + intros Hs. by eapply Hh; [|done|auto].
    + intros m k r. rewrite Hr. eauto.
    + intros m. rewrite Hr, (start_of_same w) by done. eauto.
    + intros k r. rewrite (start_of_same w) by done. eauto.
    + intros H0. rewrite Hj. eauto.
  - intros m k r. rewrite Hr. eauto.
Qed.

(** An operation on one partition. *)
Lemma inv_at w w' t p :
  NoDup (map name (tables c)) -> inv w -> env w' = env w -> t ∈ tables c ->
  (forall t' p', (name t', p') <> (name t, p) -> untouched_part w w' t' p') ->
  (forall X, part_ok w t p X -> exists X', part_ok w' t p X') -> inv w'.
Proof.
  intros Hnd [He Hi] Henv Ht Hother Hthis. split; [by rewrite Henv|]. intros t' p' Ht'.
  destruct (Hi t' p' Ht') as [X HX]. destruct (decide ((name t', p') = (name t, p))) as [Heq|Hne].
  - injection Heq as Hn ->. assert (t' = t) as ->; [|by eapply Hthis].
    apply list_elem_of_lookup in Ht as [i Hi1], Ht' as [i' Hi2].
    assert (i' = i) as ->; [|congruence].
    apply (NoDup_lookup (map name (tables c)) i' i (name t)); [done|..];
      rewrite list_lookup_fmap; [by rewrite Hi2; simpl; f_equal|by rewrite Hi1].
  - exists X. by apply (untouched_part_ok w); [apply Hother|].
Qed.

(** The invariant sees the hot rows, the states, the cold layer and the environment. *)
Lemma good_view (w w' : world) :
  hot w' = hot w -> jobs w' = jobs w -> cold w' = cold w -> env w' = env w -> good w -> good w'.
Proof.
  intros Hh Hj Hc He [[Henv Hi] Ha]. split.
  - split; [by rewrite He|]. intros t p Ht. destruct (Hi t p Ht) as [X HX]. exists X.
    apply (untouched_part_ok w); [|done]. unfold untouched_part, rows_in, job. rewrite Hh, Hj, Hc.
    by split_and!.
  - apply (accounted_settles w); [by apply settles_same|rewrite Hh; apply hot_le_preorder|done].
Qed.

Lemma good_bump w : good w -> good (bump w).
Proof. by apply good_view. Qed.

(** *** Arriving rows *)

Lemma arrive_cases (w : world) t0 p0 k0 r0 :
  arrive w (t0, p0, k0, r0) = w \/
  exists m, hot w !! (t0, p0) = Some m /\ m !! k0 = None /\
    arrive w (t0, p0, k0, r0) = set_hot (<[(t0, p0) := <[k0 := r0]> m]> (hot w)) w.
Proof.
  unfold arrive. destruct (hot w !! (t0, p0)) as [m|] eqn:Hm; [|by left].
  destruct (bool_decide _) eqn:Hb; [by left|]. right. exists m. apply bool_decide_eq_false in Hb.
  split_and!; [done|by apply eq_None_not_Some|done].
Qed.

Lemma arrive_inv (w : world) t0 p0 k0 (r0 : Row) :
  (forall t, t ∈ tables c -> name t = t0 -> (r0 : gmap string Value) !! id_col t ≫= as_i64 = Some k0) ->
  (forall n j, jobs w !! (t0, p0, n) = Some j -> ~ seeded j) ->
  inv w -> inv (arrive w (t0, p0, k0, r0)).
Proof.
  intros Hr0 Hseed Hinv.
  destruct (arrive_cases w t0 p0 k0 r0) as [->|(m & Hm & Hfresh & ->)]; [done|].
  destruct Hinv as [He Hi]. split; [done|]. intros t p Ht. destruct (Hi t p Ht) as [X HX]. exists X.
  destruct (decide ((name t, p) = (t0, p0))) as [Heq|Hne].
  - assert (Hrows0 : rows_in w t p = Some m) by (unfold rows_in; by rewrite Heq).
    assert (Hrows : rows_in (set_hot (<[(t0, p0) := <[k0 := r0]> m]> (hot w)) w) t p = Some (<[k0 := r0]> m))
      by (unfold rows_in; rewrite Heq; apply lookup_insert_eq).
    destruct HX as [Hck Hkey]. split.
    + intros n j Hn. destruct (Hck n j Hn). split; try done.
      * intros m' k r Hm'. rewrite Hrows in Hm'. injection Hm' as <-. intros Hin.
        assert (m !! k = Some r) by eauto. rewrite lookup_insert_ne by congruence. done.
      * intros m' _ Hs. exfalso. injection Heq as Hn0 ->. apply (Hseed n j); [|done].
        unfold job in Hn. by rewrite Hn0 in Hn.
    + intros m' k r Hm'. rewrite Hrows in Hm'. injection Hm' as <-. intros Hk.
      apply lookup_insert_Some in Hk as [[<- <-]|[_ Hk]]; [|by eapply Hkey].
      apply Hr0; [done|]. by injection Heq.
  - apply (untouched_part_ok w); [|done]. split_and!; [|done|done].
    unfold rows_in. simpl. by rewrite lookup_insert_ne.
Qed.

(** Rows that arrive before a statement. *)
Lemma arrive_all (P : world -> Prop) (js : gmap JobKey JobRow) l (w : world) :
  (forall w a, a ∈ l -> jobs w = js -> P w -> P (arrive w a)) -> jobs w = js -> P w -> P (foldl arrive w l).
Proof.
  revert w. induction l as [|a l IH]; intros w Hl Hj Hw; [done|]. cbn [foldl]. apply IH.
  - intros w' b Hb. apply Hl. by right.
  - by destruct (arrive_spec w a) as ((_ & -> & _) & _).
  - apply Hl; [by left|done|done].
Qed.

Lemma let_in_inv st w : inv w -> inv (let_in st w).
Proof.
  intros Hi. pose proof (proj1 Hi) as [Hp Hk]. apply (arrive_all inv (jobs w)); [|done|done].
  intros w' [[[t0 p0] k0] r0] Ha Hj Hw'. apply arrive_inv; [| |done].
  - intros t Ht <-. by eapply Hk.
  - intros n j. rewrite Hj. by eapply Hp.
Qed.

Lemma let_in_good st w : good w -> good (let_in st w).
Proof.
  intros [Hi Ha]. destruct (let_in_spec st w) as ((_ & Hj & Hc & _) & _ & Hh).
  split; [by apply let_in_inv|]. apply (accounted_settles w); [by apply settles_same|done|done].
Qed.

(** Nothing arrives in the partition that is about to be dropped. *)
Lemma let_in_drop (w : world) t p :
  punctual (env w) -> hot (let_in (DropPartition t p) w) !! (t, p) = hot w !! (t, p).
Proof.
  intros Hp. apply (arrive_all (fun w' => hot w' !! (t, p) = hot w !! (t, p)) (jobs w)); [|done|done].
  intros w' [[[t0 p0] k0] r0] Ha Hj Hw'. destruct (Hp _ _ _ _ _ _ _ Ha) as [Hst _].
  destruct (arrive_cases w' t0 p0 k0 r0) as [->|(m & Hm & Hfresh & ->)]; [done|]. simpl.
  rewrite lookup_insert_ne; [done|]. congruence.
Qed.

(** *** Pages *)

Lemma page_sorted m f cur limit :
  StronglySorted (fun a b => key_le a b = true) (page m f cur limit).
Proof.
  unfold page. eapply StronglySorted_sublist; [apply sublist_take|].
  apply (sort_by_sorted key_le (fun _ => True)); [..|by apply Forall_true].
  - intros x y _ _. unfold key_le. rewrite !Z.leb_le. lia.
  - intros x y z _ _ _. unfold key_le. rewrite !Z.leb_le. lia.
Qed.

Lemma page_in m f cur limit k r :
  (k, r) ∈ page m f cur limit -> m !! k = Some r /\ cur < k.
Proof.
  unfold page. intros Hin. apply elem_of_take in Hin as (i & Hi & _).
  apply list_elem_of_lookup_2 in Hi. rewrite sort_by_perm in Hi.
  apply list_elem_of_In, List.filter_In in Hi as [Hi Hf]. apply list_elem_of_In in Hi.
  apply andb_prop in Hf as [Hf _]. simpl in Hf. split; [by apply elem_of_map_to_list|lia].
Qed.

Lemma page_nodup m f cur limit : NoDup (map fst (page m f cur limit)).
Proof.
  unfold page. set (l := List.filter _ _). set (l' := sort_by key_le l).
  assert (Hl : NoDup (map fst l')).
  { assert (Hp : map fst l' ≡ₚ map fst l) by (apply Permutation_map, sort_by_perm). rewrite Hp.
    apply filter_keys_nodup.
    apply NoDup_fst_map_to_list. }
  rewrite <- (take_drop limit l'), map_app in Hl. by apply NoDup_app in Hl as [? _].
Qed.

(** [id_bounds] of a page finds its greatest key. *)
Lemma id_bounds_from_spec (l : list (Z * Row)) id_col b :
  (forall k r, (k, r) ∈ l -> (r : gmap string Value) !! id_col ≫= as_i64 = Some k) ->
  exists b', id_bounds_from b (map snd l) id_col = Ok b' /\
    (b' = None <-> b = None /\ l = []) /\
    (forall lo hi, b' = Some (lo, hi) ->
       (forall k r, (k, r) ∈ l -> k <= hi) /\ (forall lo0 hi0, b = Some (lo0, hi0) -> hi0 <= hi) /\
       ((exists r, (hi, r) ∈ l) \/ exists lo0, b = Some (lo0, hi))).
Proof.
  revert b. induction l as [|[k r] l IH]; intros b Hl; simpl.
  - exists b. split; [done|]. split; [naive_solver|]. intros lo hi ->. split_and!.
    + intros k r Hin. by apply elem_of_nil in Hin.
    + intros; simplify_eq. lia.
    + right. by exists lo.
  - rewrite (Hl k r) by left. simpl.
    destruct (IH (Some match b with None => (k, k) | Some (lo, hi) => (Z.min lo k, Z.max hi k) end))
      as (b' & Hb' & Hnone & Hhi); [intros k' r' Hin; apply Hl; by right|].
    exists b'. split; [done|]. split; [naive_solver|]. intros lo hi ->.
    destruct (Hhi lo hi eq_refl) as (Hin & Hb & Hor).
    assert (Hk : k <= hi) by (destruct b as [[lo0 hi0]|]; specialize (Hb _ _ eq_refl); lia).
    split_and!.
    + intros k' r' Hkr. apply elem_of_cons in Hkr as [Heq|Hkr]; [by simplify_eq|by eapply Hin].
    + intros lo0 hi0 ->. specialize (Hb _ _ eq_refl). lia.
    + destruct Hor as [(r' & Hr')|(lo0 & Hlo)]; [left; exists r'; by right|].
      destruct b as [[lo1 hi1]|]; injection Hlo as <- Hhi'; [|left; exists r; rewrite <- Hhi'; by left].
      destruct (Z.max_spec hi1 k) as [[_ Hm]|[_ Hm]]; rewrite Hm in Hhi'; subst hi.
      * left. exists r. by left.
      * right. by exists lo1.
Qed.

Lemma id_bounds_spec (l : list (Z * Row)) id_col :
  (forall k r, (k, r) ∈ l -> (r : gmap string Value) !! id_col ≫= as_i64 = Some k) ->
  (l = [] /\ id_bounds (map snd l) id_col = Ok None) \/
  exists lo hi, id_bounds (map snd l) id_col = Ok (Some (lo, hi)) /\ l <> [] /\
    (forall k r, (k, r) ∈ l -> k <= hi) /\ exists r, (hi, r) ∈ l.
Proof.
  intros Hl. destruct (id_bounds_from_spec l id_col None Hl) as ([[lo hi]|] & Hb & Hnone & Hhi).
  - right. exists lo, hi. destruct (Hhi lo hi eq_refl) as (Hin & _ & [Hex|[lo0 Hex]]); [|done].
    split_and!; [done| |done|done]. intros ->. destruct Hnone as [_ Hnone]. by specialize (Hnone (conj eq_refl eq_refl)).
  - left. split; [by apply Hnone|done].
Qed.

(** *** Changing the state of a chunk *)

Section At.
Context (t : TableTieringConfig) (p : string) (Ht : t ∈ tables c).
Context (names : NoDup (map name (tables c))).

Definition put_job (n : Z) (j : JobRow) (w : world) : world :=
  set_jobs (<[(name t, p, n) := j]> (jobs w)) w.

Lemma job_put_eq n j w : job (put_job n j w) t p n = Some j.
Proof. apply lookup_insert_eq. Qed.

Lemma job_put_ne n j w t' p' n' : (name t', p', n') <> (name t, p, n) -> job (put_job n j w) t' p' n' = job w t' p' n'.
Proof. intros Hne. apply lookup_insert_ne. congruence. Qed.

Lemma put_job_others n j w t' p' :
  (name t', p') <> (name t, p) -> untouched_part w (put_job n j w) t' p'.
Proof. intros Hne. split_and!; [done| |done]. intros n'. apply job_put_ne. congruence. Qed.

Lemma start_of_put n j j0 w n' :
  job w t p n = Some j0 -> r_high j = r_high j0 -> start_of (put_job n j w) t p n' = start_of w t p n'.
Proof.
  intros Hj Hh. unfold start_of. destruct (n' =? 0); [done|].
  destruct (decide (n' - 1 = n)) as [->|Hne]; [by rewrite job_put_eq, Hj|].
  rewrite job_put_ne by congruence. done.
Qed.

(** A later phase of the same chunk. *)
Lemma replace_job_inv w n j0 j1 :
  inv w -> job w t p n = Some j0 ->
  r_rows j1 = r_rows j0 -> r_high j1 = r_high j0 -> r_checksum j1 = r_checksum j0 ->
  (exists ph, r_phase j1 = as_str ph) -> ~ seeded j1 ->
  (settled j1 -> forall l, r_checksum j0 = Some (digest (name t) l) -> settled j0 \/ holds (cold w) (name t) p n l) ->
  inv (put_job n j1 w).
Proof.
  intros Hinv Hj Hrows Hhigh Hsum Hph Hns Hheld.
  eapply (inv_at w _ t p); [done|done|done|done|intros; by apply put_job_others|].
  intros X [Hck Hkey]. exists X. split; [|exact Hkey]. intros n' j' Hj'.
  assert (Hstart : forall i, start_of (put_job n j1 w) t p i = start_of w t p i)
    by (intros i; by apply (start_of_put n j1 j0)).
  assert (Hprev : forall i, i <> 0 -> (exists j', job w t p (i - 1) = Some j' /\ ~ seeded j') ->
            exists j', job (put_job n j1 w) t p (i - 1) = Some j' /\ ~ seeded j').
  { intros i Hi (jp & Hjp & Hs). destruct (decide (i - 1 = n)) as [->|Hne].
    - exists j1. split; [apply job_put_eq|done].
    - exists jp. by rewrite job_put_ne by congruence. }
  destruct (decide (n' = n)) as [->|Hne].
  - rewrite job_put_eq in Hj'. injection Hj' as <-. destruct (Hck n j0 Hj). split; try done; try congruence.
    + intros k r Hin. rewrite Hhigh. eauto.
    + rewrite Hhigh. done.
    + intros Hset. simpl. destruct (Hheld Hset _ ck_sum0) as [Hset0|Hh]; [auto|done].
    + intros k r. rewrite Hstart. eauto.
    + intros H0. apply Hprev; auto.
  - rewrite job_put_ne in Hj' by congruence. destruct (Hck n' j' Hj'). split; try done.
    + intros m Hm. rewrite Hstart. eauto.
    + intros k r. rewrite Hstart. eauto.
    + intros H0. apply Hprev; auto.
Qed.

(** A chunk that is new: the page after the last chunk. *)
Lemma new_job_inv w n j1 (l : list (Z * Row)) m :
  inv w -> 0 <= n -> job w t p n = None -> rows_in w t p = Some m ->
  l = page_at t m (start_of w t p n) -> l <> [] ->
  (n <> 0 -> exists j', job w t p (n - 1) = Some j' /\ ~ seeded j') ->
  r_rows j1 = Z.of_nat (length l) -> (forall k r, (k, r) ∈ l -> k <= r_high j1) ->
  (exists r, (r_high j1, r) ∈ l) -> r_checksum j1 = Some (digest (name t) (map snd l)) -> seeded j1 ->
  inv (put_job n j1 w).
Proof.
  intros Hinv H0 Hnone Hm Hl Hne Hprev Hrows Hhigh Hhigh_in Hsum Hseed.
  eapply (inv_at w _ t p); [done|done|done|done|intros; by apply put_job_others|].
  intros X [Hck Hkey]. exists (fun i => if decide (i = n) then l else X i). split; [|exact Hkey].
  assert (Hlast : forall i j, job w t p i = Some j -> i <> n + 1).
  { intros i j Hj ->. destruct (Hck _ _ Hj). destruct ck_prev0 as (j' & Hj' & _); [lia|].
    replace (n + 1 - 1) with n in Hj' by lia. congruence. }
  assert (Hstart : forall i, i <> n + 1 -> start_of (put_job n j1 w) t p i = start_of w t p i).
  { intros i Hi. unfold start_of. rewrite job_put_ne; [done|]. intros Heq. injection Heq as Heq. lia. }
  intros i j Hj. destruct (decide (i = n)) as [->|Hi].
  - rewrite job_put_eq in Hj. injection Hj as <-. split; try done.
    + by exists Pending.
    + unfold settled. rewrite Hseed. by intros [].
    + rewrite Hl. apply page_nodup.
    + intros m' k r Hm' Hin. assert (m' = m) as -> by (unfold rows_in in *; simpl in *; congruence).
      rewrite Hl in Hin. by apply page_in in Hin as [].
    + intros m' Hm' _. rewrite Hstart by lia. by assert (m' = m) as -> by (unfold rows_in in *; simpl in *; congruence).
    + intros k r Hin. rewrite Hstart by lia. rewrite Hl in Hin. by apply page_in in Hin as [].
    + intros Hn0. destruct (Hprev Hn0) as (j' & Hj' & Hs). exists j'.
      rewrite job_put_ne; [done|]. intros Heq. injection Heq as Heq. lia.
  - rewrite job_put_ne in Hj by congruence. pose proof (Hlast i j Hj) as Hi2. destruct (Hck i j Hj). split; try done.
    + intros m' Hm'. rewrite Hstart by done. eauto.
    + intros k r. rewrite Hstart by done. eauto.
    + intros Hi0. destruct (ck_prev0 Hi0) as (j' & Hj' & Hs). exists j'.
      rewrite job_put_ne; [done|]. intros Heq. injection Heq as Heq. congruence.
Qed.

(** Writing a chunk that is not settled. *)
Lemma write_inv w n l r c' :
  inv w -> write_chunk (cold w) (name t) p n l = (r, c') ->
  (forall j, job w t p n = Some j -> ~ settled j) -> inv (set_cold c' w).
Proof.
  intros Hinv Hw Hn. eapply (inv_at w _ t p); [done|done|done|done| |].
  - intros t' p' Hne. split_and!; [done|done|]. intros n' j l' Hj Hs Hh. simpl.
    eapply write_frame; [exact Hw|congruence|exact Hh].
  - intros X [Hck Hkey]. exists X. split; [|exact Hkey]. intros i j Hj. destruct (Hck i j Hj).
    split; try done. intros Hs. simpl. eapply write_frame; [exact Hw| |auto].
    intros Heq. injection Heq as ->. by apply (Hn j).
Qed.

Lemma write_settles w n l r c' :
  write_chunk (cold w) (name t) p n l = (r, c') ->
  (forall j, job w t p n = Some j -> ~ settled j) -> settles w (set_cold c' w).
Proof.
  intros Hw Hn [[t' p'] n'] j Hj Hs. exists j. split_and!; [done|done|done|]. intros l' Hh. simpl in *.
  eapply write_frame; [exact Hw| |exact Hh]. intros Heq. injection Heq as -> -> ->. by apply (Hn j).
Qed.

Lemma put_settles w n j0 j1 :
  job w t p n = Some j0 -> (settled j0 -> settled j1) -> r_checksum j1 = r_checksum j0 ->
  settles w (put_job n j1 w).
Proof.
  intros Hj Hs Hsum key j Hk Hset. destruct (decide (key = (name t, p, n))) as [->|Hne].
  - exists j1. unfold job in Hj. rewrite Hj in Hk. injection Hk as <-.
    split_and!; [apply lookup_insert_eq|auto|done|done].
  - exists j. split_and!; [simpl; by rewrite lookup_insert_ne|done|done|done].
Qed.

Lemma new_settles w n j1 : job w t p n = None -> settles w (put_job n j1 w).
Proof.
  intros Hj key j Hk Hset. exists j. split_and!; [|done|done|done]. simpl.
  rewrite lookup_insert_ne; [done|]. intros <-. unfold job in Hj. congruence.
Qed.

End At.
End Inv.
End TieringInv.
