(* ===== verification/TieringSafe.v ===== *)
(** * The archive job keeps its invariant

    Operation by operation, between any two effects and however the run ends. *)

From S2P Require Import Prelude Dialect Clock Crash Json Text TierConfig Tiering TieringFacts TieringInv.

Local Open Scope Z_scope.
Local Open Scope ecat_scope.

Module TieringSafe.
Import TierConfig TierState Archive TieringFacts TieringInv.

Section Safe.
Context `{JT : JsonNumber} {ST : SqlTerms} {C L : Type} `{CS : !ColdSink C} `{LK : !Lock L}
  `{CL : !ColdLaw C}.
Context (c : TieringConfig) (kept : TableTieringConfig -> string -> Z -> Row -> Prop).

Local Abbreviation world := (world (C:=C) (L:=L)).
Local Abbreviation M := (M world stop).
Local Abbreviation good := (good c kept).
Local Abbreviation inv := (inv c).

(** The run keeps [good]; what it returns satisfies [Q]. *)
Definition safe {A} (m : M A) (Q : A -> world -> Prop) (w : world) : Prop :=
  wp m (fun r w' => match r with Ok x => Q x w' | Err _ => good w' end) good w.

Lemma safe_ok {A} (x : A) Q w : Q x w -> safe (ret (Ok x)) Q w.
Proof. intros H. by apply wp_ret. Qed.

Lemma safe_err {A} e (Q : A -> world -> Prop) w : good w -> safe (ret (Err e)) Q w.
Proof. intros H. by apply wp_ret. Qed.

Lemma safe_lift {A} (r : result A TieringError) Q w :
  good w -> (forall x, r = Ok x -> Q x w) -> safe (lift r) Q w.
Proof. intros Hg HQ. apply wp_ret. destruct r; simpl; auto. Qed.

Lemma safe_get {A} (f : world -> A) Q w : Q (f w) w -> safe (get f) Q w.
Proof. intros H. by apply wp_get. Qed.

Lemma safe_bind {A B} (m : M A) (k : A -> M B) Q w :
  safe m (fun x w' => safe (k x) Q w') w -> safe (bind m k) Q w.
Proof. apply wp_bind. Qed.

Lemma safe_mono {A} (m : M A) (Q Q' : A -> world -> Prop) w :
  safe m Q w -> (forall x w', Q x w' -> Q' x w') -> safe m Q' w.
Proof. intros Hm HQ. eapply wp_mono; [exact Hm|]. intros [x|e] w'; auto. Qed.

Lemma safe_db {A} (f : world -> A * world) (Q : A -> world -> Prop) w :
  good w -> good (f w).2 -> Q (f w).1 (bump (f w).2) -> safe (db f) Q w.
Proof.
  intros Hg Hf HQ. apply wp_effect; [done|].
  destruct (faults (env w) (tick w)) as [[e [|]]|]; simpl;
    [by apply good_bump|by apply good_bump|exact HQ].
Qed.

Lemma safe_add_time a d Q w : good w -> (forall r, Q r w) -> safe (add_time a d) Q w.
Proof. intros Hg HQ. unfold add_time. destruct (checked_add a d); [by apply safe_ok|by apply safe_err]. Qed.

Lemma safe_check_dialect (Q : unit -> world -> Prop) w : good w -> Q tt w -> safe check_state_dialect Q w.
Proof.
  intros Hg HQ. apply safe_bind, safe_get, safe_lift; [done|]. intros [] _. done.
Qed.

(** *** Reading *)

Lemma safe_load t p n (Q : option ArchiveJobState -> world -> Prop) w :
  good w ->
  (n < 2 ^ 63 -> job w t p n = None -> Q None (bump w)) ->
  (forall j s, n < 2 ^ 63 -> job w t p n = Some j -> from_row (name t, p, n) j = Ok s -> Q (Some s) (bump w)) ->
  safe (load (name t) p n) Q w.
Proof.
  intros Hg Hnone Hsome. apply safe_bind, safe_check_dialect; [done|].
  apply safe_bind. unfold as_i64_param. destruct (n <? 2 ^ 63) eqn:Hn; cycle 1.
  { by apply safe_lift. }
  apply safe_lift; [done|]. intros x Hx. injection Hx as <-.
  apply safe_bind, safe_db; [done|done|]. cbn [fst snd]. unfold job in *.
  destruct (jobs w !! (name t, p, n)) as [j|] eqn:Hj.
  - apply safe_bind, safe_lift; [by apply good_bump|]. intros s Hs. apply safe_ok. eapply Hsome; [lia|done|done].
  - apply safe_ok. apply Hnone; [lia|done].
Qed.

Lemma safe_read_chunk t p cur (Q : list Row -> world -> Prop) w :
  good w ->
  (forall w', good w' -> jobs w' = jobs w -> cold w' = cold w ->
     Q (map snd (page_at c t (partition_rows w' (name t) p) cur)) w') ->
  safe (read_chunk c t p cur) Q w.
Proof.
  intros Hg HQ. set (st := ReadChunk (name t) p). destruct (let_in_spec st w) as ((_ & Hj & Hc & _) & _ & _).
  pose proof (let_in_good c kept st w Hg) as Hg'. apply safe_db; [done|done|].
  by apply (HQ (bump (let_in st w))); [apply good_bump|..].
Qed.

Lemma safe_verify_cold (t : TableTieringConfig) p n sum (Q : bool -> world -> Prop) w :
  good w -> (verify_chunk (cold w) (name t) p n sum = Ok true -> Q true (bump w)) -> Q false (bump w) ->
  safe (verify_cold (name t) p n sum) Q w.
Proof.
  intros Hg Ht Hf. apply wp_effect; [done|].
  destruct (faults (env w) (tick w)) as [[e a]|]; simpl; [by apply good_bump|].
  destruct (verify_chunk (cold w) (name t) p n sum) as [[|]|e]; simpl; auto using good_bump.
Qed.

(** *** One partition of a table of the configuration *)

Section Part.
Context (t : TableTieringConfig) (p : string) (Ht : t ∈ tables c).
Context (names : NoDup (map name (tables c))).

(** The rows of the first [k] chunks. *)
Fixpoint sum_rows (w : world) (k : nat) : Z :=
  match k with
  | O => 0
  | S k => sum_rows w k + match job w t p (Z.of_nat k) with Some j => r_rows j | None => 0 end
  end.

(** What the local variables say at the start of a round. *)
Record prog (w : world) (g : progress) (k : nat) : Prop := {
  pg_at : at_chunk g = Z.of_nat k;
  pg_cur : cursor g = start_of w t p (Z.of_nat k);
  pg_done i : (i < k)%nat -> exists j, job w t p (Z.of_nat i) = Some j /\ ~ seeded j /\
    (all_verified g = true -> r_phase j = as_str Verified);
  pg_sum : archived_rows g = Z.min u64_max (sum_rows w k);
}.

(** Only the rows and phases of the chunks before matter. *)
Lemma prog_jobs w w' g k :
  (forall i, (i < k)%nat -> job w' t p (Z.of_nat i) = job w t p (Z.of_nat i)) -> prog w g k -> prog w' g k.
Proof.
  intros Hj [H1 H2 H3 H4]. split.
  - done.
  - rewrite H2. unfold start_of. destruct (Z.eqb_spec (Z.of_nat k) 0); [done|].
    replace (Z.of_nat k - 1) with (Z.of_nat (k - 1)) by lia. by rewrite Hj by lia.
  - intros i Hi. rewrite Hj by done. auto.
  - rewrite H4. f_equal. clear - Hj. induction k as [|k IH]; simpl; [done|].
    rewrite Hj by lia. rewrite IH; [done|]. intros i Hi. apply Hj. lia.
Qed.

Lemma prog_same_jobs w w' g k : jobs w' = jobs w -> prog w g k -> prog w' g k.
Proof. intros Hj. apply prog_jobs. intros i _. unfold job. by rewrite Hj. Qed.

Lemma prog_put w n j g k : (k <= n)%nat -> prog w g k -> prog (put_job t p (Z.of_nat n) j w) g k.
Proof. intros Hle. apply prog_jobs. intros i Hi. apply job_put_ne. intros Heq. injection Heq. lia. Qed.

(** Past chunk [k]. *)
Lemma prog_pass w g k j high n ok at_ rep :
  (Z.of_nat k < 2 ^ 63) -> prog w g k -> job w t p (Z.of_nat k) = Some j -> ~ seeded j ->
  (ok = true -> r_phase j = as_str Verified) -> r_rows j = n -> 0 <= n -> r_high j = high ->
  prog w (pass_chunk high n ok at_ rep g) (S k).
Proof.
  intros Hk [H1 H2 H3 H4] Hj Hs Hok Hn Hn0 Hh. split.
  - simpl. rewrite H1. unfold u64_add. rewrite wrap_small; lia.
  - unfold start_of. destruct (Z.eqb_spec (Z.of_nat (S k)) 0); [lia|].
    replace (Z.of_nat (S k) - 1) with (Z.of_nat k) by lia. rewrite Hj. by symmetry.
  - intros i Hi. simpl. destruct (decide (i = k)) as [->|Hne].
    + exists j. split_and!; [done|done|]. intros [_ ?]%andb_prop. auto.
    + destruct (H3 i) as (j' & Hj' & Hs' & Hv); [lia|]. exists j'. split_and!; [done|done|].
      intros [? _]%andb_prop. auto.
  - cbn [sum_rows pass_chunk archived_rows]. rewrite H4, Hj, Hn. unfold u64_sat_add, u64_max. lia.
Qed.

(** [w'] is [w] with the state of chunk [n] in a later phase, [j1] for [j0]. *)
Record moved (w w' : world) (n : nat) (j0 j1 : JobRow) : Prop := {
  mv_good : good w';
  mv_job : job w' t p (Z.of_nat n) = Some j1;
  mv_rest i : i <> n -> job w' t p (Z.of_nat i) = job w t p (Z.of_nat i);
  mv_rows : r_rows j1 = r_rows j0;
  mv_high : r_high j1 = r_high j0;
  mv_sum : r_checksum j1 = r_checksum j0;
}.

Lemma moved_prog w w' n j0 j1 g : moved w w' n j0 j1 -> prog w g n -> prog w' g n.
Proof. intros Hm. apply prog_jobs. intros i Hi. apply (mv_rest _ _ _ _ _ Hm). lia. Qed.

Lemma job_moved_trans w1 w2 w3 n j1 j2 j3 : moved w1 w2 n j1 j2 -> moved w2 w3 n j2 j3 -> moved w1 w3 n j1 j3.
Proof. intros [] []. split; try done; try congruence. intros i Hi. rewrite mv_rest1 by done. auto. Qed.

Lemma moved_later w w' n j0 j1 (w2 : world) :
  moved w w' n j0 j1 -> good w2 -> jobs w2 = jobs w' -> moved w w2 n j0 j1.
Proof. intros [] Hg Hj. split; try done; unfold job in *; by rewrite Hj. Qed.

Lemma safe_advance n to from sum j0 (Q : unit -> world -> Prop) w :
  good w -> job w t p (Z.of_nat n) = Some j0 -> predecessor to = Some from -> r_phase j0 = as_str from ->
  sum = None \/ sum = r_checksum j0 ->
  (to = Verified -> forall l, r_checksum j0 = Some (digest (name t) l) -> holds (cold w) (name t) p (Z.of_nat n) l) ->
  (forall j1 w', moved w w' n j0 j1 -> cold w' = cold w -> r_phase j1 = as_str to -> Q tt w') ->
  safe (advance (name t) p (Z.of_nat n) to sum) Q w.
Proof.
  intros Hg Hj Hpred Hfrom Hsum Hheld HQ.
  apply safe_bind, safe_check_dialect; [done|].
  apply safe_bind. rewrite Hpred. apply safe_lift; [done|]. intros x Hx. injection Hx as <-.
  apply safe_bind, safe_get, safe_bind. unfold as_i64_param.
  destruct (_ <? _); apply safe_lift; try done. intros x Hx. injection Hx as <-.
  set (now := clock (env w) (tick w)).
  set (j1 := {| r_low := r_low j0; r_high := r_high j0; r_rows := r_rows j0;
                r_checksum := match sum with Some s => Some s | None => r_checksum j0 end;
                r_phase := as_str to; r_updated := now |}).
  assert (Hadv : jobs w !! (name t, p, Z.of_nat n) ≫= advance_row to from sum now = Some j1).
  { unfold job in Hj. rewrite Hj. simpl. unfold advance_row. by rewrite Hfrom, String.eqb_refl. }
  assert (Hsum1 : r_checksum j1 = r_checksum j0) by (unfold j1; simpl; destruct Hsum as [-> | ->]; [done|by destruct (r_checksum j0)]).
  assert (Hg1 : good (put_job t p (Z.of_nat n) j1 w)).
  { destruct Hg as [Hi Ha]. split.
    - apply (replace_job_inv c t p Ht names w _ j0 j1); try done.
      + by exists to.
      + intros He. apply (as_str_inj to Pending) in He. by subst to.
      + intros Hs l Hl. destruct (decide (to = Verified)) as [Hv|Hv]; [by right; apply Hheld|].
        left. destruct to; try done; injection Hpred as <-.
        * by destruct Hs.
        * by left.
    - eapply (accounted_settles c kept w); [|apply hot_le_preorder|done].
      eapply put_settles; [exact Hj| |done]. intros Hs. destruct to; [done|..]; injection Hpred as <-.
      + exfalso. by destruct Hs as [Hs|Hs]; rewrite Hs in Hfrom.
      + by left.
      + by right. }
  apply safe_bind, safe_db; cbn beta; [done|by rewrite Hadv|rewrite Hadv; simpl].
  apply safe_ok. apply (HQ j1); [|done|done]. split; try done.
  - by apply good_bump.
  - apply lookup_insert_eq.
  - intros i Hi. apply job_put_ne. intros Heq. injection Heq. lia.
Qed.

(** [verify_and_advance] on a copied chunk. *)
Lemma safe_verify_and_advance n sum since j0 (Q : bool * option Z -> world -> Prop) w :
  good w -> job w t p (Z.of_nat n) = Some j0 -> r_phase j0 = as_str Copied -> r_checksum j0 = Some sum ->
  (forall j1 w' ok at_, moved w w' n j0 j1 -> ~ seeded j1 -> (ok = true -> r_phase j1 = as_str Verified) ->
     Q (ok, at_) w') ->
  safe (verify_and_advance (name t) p (Z.of_nat n) sum since) Q w.
Proof.
  intros Hg Hj Hph Hsum HQ. apply safe_bind, safe_verify_cold; [done|..].
  - intros Hv. apply safe_bind.
    apply (safe_advance n Verified Copied None j0); try done; [by apply good_bump|by left| |].
    + intros _ l Hl. simpl. apply verify_holds. by rewrite Hsum in Hl; injection Hl as <-.
    + intros j1 w' Hm _ Hv1. apply safe_bind, safe_get, safe_ok. apply (HQ j1).
      * destruct Hm. by split.
      * unfold seeded. rewrite Hv1. by intros ?%as_str_inj.
      * done.
  - apply safe_ok. apply (HQ j0); [|unfold seeded; rewrite Hph; by intros ?%as_str_inj|done].
    split; try done. by apply good_bump.
Qed.

(** *** A round of the loop *)

Lemma from_row_ok key j s :
  from_row key j = Ok s ->
  r_high j = high_id s /\ r_rows j = rows s /\ r_checksum j = checksum s /\
  r_phase j = as_str (phase s) /\ 0 <= rows s /\ r_updated j = updated_at s.
Proof.
  unfold from_row. destruct (key.2 <? 0); [done|]. simpl.
  destruct (r_rows j <? 0) eqn:Hn; [done|]. simpl.
  destruct (parse (r_phase j)) as [ph|] eqn:Hp; [|done]. simpl. intros; simplify_eq. simpl.
  apply parse_ok in Hp. split_and!; [done..|lia|done].
Qed.

Lemma safe_write_cold n l (Q : string -> world -> Prop) w :
  good w -> (forall j, job w t p n = Some j -> ~ settled j) ->
  (forall w', good w' -> jobs w' = jobs w -> hot w' = hot w -> Q (digest (name t) l) w') ->
  safe (write_cold (name t) p n l) Q w.
Proof.
  intros Hg Hn HQ. apply wp_effect; [done|].
  destruct (write_chunk (cold w) (name t) p n l) as [r c'] eqn:Hw. simpl.
  assert (Hg' : good (bump (set_cold c' w))).
  { apply good_bump. destruct Hg as [Hi Ha]. split.
    - by eapply write_inv.
    - eapply (accounted_settles c kept w); [|apply hot_le_preorder|done]. by eapply write_settles. }
  destruct r as [s|e]; simpl; [|done]. rewrite (write_digest _ _ _ _ _ _ _ Hw). by apply HQ.
Qed.

Lemma safe_throttle n (Q : unit -> world -> Prop) w : good w -> Q tt w -> safe (throttle c n) Q w.
Proof.
  intros Hg HQ. unfold throttle. destruct (max_rows_per_sec c) as [rate|]; [|by apply safe_ok].
  destruct (0 <? rate); [|by apply safe_ok]. apply safe_bind, safe_get.
  destruct (throttle_delay _ _ _); [by apply safe_ok|by apply safe_err].
Qed.

(** A page only has rows of the partition. *)
Lemma page_keyed (w : world) cur k r :
  inv w -> (k, r) ∈ page_at c t (partition_rows w (name t) p) cur ->
  (r : gmap string Value) !! id_col t ≫= as_i64 = Some k /\ is_Some (rows_in w t p).
Proof.
  intros [_ Hi] Hin. destruct (Hi t p Ht) as [X [_ Hkey]]. apply page_in in Hin as [Hk _].
  unfold partition_rows in Hk. destruct (rows_in w t p) as [m|] eqn:Hm; unfold rows_in in Hm;
    rewrite Hm in Hk; simpl in Hk; [|by rewrite lookup_empty in Hk].
  split; [by eapply Hkey|done].
Qed.

(** The state a copied page starts from: seeded before, or seeded now. *)
Lemma safe_seed (b : bool) k g lo hi (kl : list (Z * Row)) (Q : unit -> world -> Prop) now (w : world) :
  good w -> prog w g k -> Z.of_nat k < 2 ^ 63 ->
  (if b then exists j, job w t p (Z.of_nat k) = Some j /\ seeded j else job w t p (Z.of_nat k) = None) ->
  kl = page_at c t (partition_rows w (name t) p) (cursor g) -> kl <> [] ->
  (forall k r, (k, r) ∈ kl -> k <= hi) -> (exists r, (hi, r) ∈ kl) ->
  (forall w' j0, good w' -> prog w' g k -> job w' t p (Z.of_nat k) = Some j0 -> seeded j0 ->
     r_rows j0 = Z.of_nat (length kl) -> r_high j0 = hi -> r_checksum j0 = Some (digest (name t) (map snd kl)) ->
     Q tt w') ->
  safe (if b then ret (Ok tt)
        else upsert {| table := name t; partition := p; chunk := at_chunk g; low_id := lo; high_id := hi;
                       rows := Z.of_nat (length (map snd kl)); checksum := Some (digest (name t) (map snd kl));
                       phase := Pending; updated_at := now |}) Q w.
Proof.
  intros Hg Hprog Hk Hb Hkl Hne Hhi Hhi_in HQ. pose proof Hg as [Hinv Hacc].
  assert (Hm : is_Some (rows_in w t p)).
  { destruct Hhi_in as [r Hr]. rewrite Hkl in Hr. by eapply page_keyed. }
  destruct Hm as [m Hm].
  assert (Hpart : partition_rows w (name t) p = m) by (unfold partition_rows, rows_in in *; by rewrite Hm).
  rewrite Hpart, (pg_cur _ _ _ Hprog) in Hkl. destruct b.
  - destruct Hb as (j & Hj & Hs). apply safe_ok.
    destruct Hinv as [_ Hi]. destruct (Hi t p Ht) as [X [Hck _]]. destruct (Hck _ _ Hj).
    assert (HX : X (Z.of_nat k) = kl) by (rewrite Hkl; by apply ck_page0).
    apply (HQ w j); try done; [by rewrite <- HX|..|by rewrite <- HX].
    destruct ck_high_in0 as [r Hr], Hhi_in as [r' Hr']. rewrite HX in Hr.
    apply Z.le_antisymm; [by eapply Hhi|]. apply (ck_high0 _ r'). by rewrite HX.
  - apply safe_bind, safe_check_dialect; [done|]. apply safe_bind, safe_lift; [done|].
    intros kr Hkr. unfold to_row, as_i64_param in Hkr. simpl in Hkr.
    rewrite (pg_at _ _ _ Hprog), length_map in Hkr.
    destruct (Z.of_nat k <? 2 ^ 63); [|done]. simpl in Hkr.
    destruct (Z.of_nat (length kl) <? 2 ^ 63); [|done]. simpl in Hkr. injection Hkr as <-. simpl.
    match goal with |- context [set_jobs (<[_ := ?j]> _)] => set (j1 := j) end.
    assert (Hg' : good (put_job t p (Z.of_nat k) j1 w)).
    { split.
      - eapply (new_job_inv c t p Ht names w _ j1 kl m); try done; [lia|]. intros Hk0.
        destruct k as [|k]; [done|]. destruct (pg_done _ _ _ Hprog k) as (j & Hj & Hs & _); [lia|].
        exists j. split; [|done]. by replace (Z.of_nat (S k) - 1) with (Z.of_nat k) by lia.
      - eapply (accounted_settles c kept w); [|apply hot_le_preorder|done]. by apply new_settles. }
    apply safe_db; [done|exact Hg'|]. apply (HQ _ j1); try done.
    + by apply good_bump.
    + apply (prog_same_jobs (put_job t p (Z.of_nat k) j1 w)); [done|]. by apply (prog_put w k j1).
    + apply lookup_insert_eq.
Qed.

Definition after (k : nat) (r : walked + progress) (w : world) : Prop :=
  good w /\ match r with
            | inl (AlreadyDropped _) => True
            | inl (Walked _ g) => exists k, prog w g k
            | inr g => prog w g (S k)
            end.

Lemma safe_copy_page (b : bool) k g w :
  dry_run c = false -> good w -> prog w g k -> Z.of_nat k < 2 ^ 63 ->
  (if b then exists j, job w t p (Z.of_nat k) = Some j /\ seeded j else job w t p (Z.of_nat k) = None) ->
  safe (copy_page c t p b g) (after k) w.
Proof.
  intros Hdry Hg Hprog Hk Hb. unfold copy_page. apply safe_bind, safe_read_chunk; [done|].
  intros w1 Hg1 Hj1 _. set (kl := page_at _ _ _ _).
  assert (Hkeyed : forall k r, (k, r) ∈ kl -> (r : gmap string Value) !! id_col t ≫= as_i64 = Some k).
  { intros k' r Hin. eapply page_keyed; [apply Hg1|exact Hin]. }
  assert (Hprog1 : prog w1 g k) by (by apply (prog_same_jobs w)).
  assert (Hb1 : if b then exists j, job w1 t p (Z.of_nat k) = Some j /\ seeded j
                else job w1 t p (Z.of_nat k) = None) by (unfold job in *; by rewrite Hj1).
  destruct (id_bounds_spec kl (id_col t) Hkeyed) as [[Hnil Hbd]|(lo & hi & Hbd & Hne & Hhi & Hin)];
    apply safe_bind, safe_lift; try done; intros x Hx; rewrite Hbd in Hx; injection Hx as <-.
  { apply safe_ok. split; [done|]. by exists k. }
  apply safe_bind. unfold copy_chunk. rewrite Hdry.
  apply safe_bind, safe_write_cold; [done| |].
  { intros j Hj. rewrite (pg_at _ _ _ Hprog) in Hj. destruct b.
    - destruct Hb1 as (j' & Hj' & Hs). assert (j = j') as -> by congruence. unfold settled, seeded in *.
      rewrite Hs. by intros [].
    - congruence. }
  intros w2 Hg2 Hj2 Hh2.
  assert (Hprog2 : prog w2 g k) by (by apply (prog_same_jobs w1)).
  apply safe_bind, safe_get, safe_bind.
  apply (safe_seed b k g lo hi kl); try done.
  { unfold job in *. by rewrite Hj2. }
  { unfold kl, partition_rows. by rewrite Hh2. }
  intros w3 j0 Hg3 Hprog3 Hj0 Hs0 Hrows Hhigh Hsum.
  apply safe_bind. rewrite (pg_at _ _ _ Hprog).
  apply (safe_advance k Copied Pending _ j0); try done; [by right|].
  intros j1 w4 Hm _ Hcop. apply safe_bind.
  apply (safe_verify_and_advance k _ _ j1); [by destruct Hm|by destruct Hm|done|by destruct Hm; congruence|].
  intros j2 w5 ok at_ Hm2 Hns Hok. pose proof (job_moved_trans _ _ _ _ _ _ _ Hm Hm2) as Hm3.
  apply safe_bind, safe_throttle; [apply (mv_good _ _ _ _ _ Hm3)|]. apply safe_ok, safe_ok.
  split; [apply (mv_good _ _ _ _ _ Hm3)|]. rewrite length_map.
  apply (prog_pass w5 g k j2); try done.
  - by apply (moved_prog w3 w5 k j0 j2).
  - by destruct Hm3.
  - destruct Hm3. congruence.
  - lia.
  - destruct Hm3. congruence.
Qed.

(** A round that does not come to a page. *)
Lemma safe_resume_copied s j k g w :
  dry_run c = false -> good w -> prog w g k -> Z.of_nat k < 2 ^ 63 ->
  job w t p (Z.of_nat k) = Some j -> from_row (name t, p, Z.of_nat k) j = Ok s -> phase s = Copied ->
  safe (resume_copied c (name t) p s g) (fun g' w' => good w' /\ prog w' g' (S k)) w.
Proof.
  intros Hdry Hg Hprog Hk Hj Hs Hph. destruct (from_row_ok _ _ _ Hs) as (Hhi & Hn & Hsum & Hphase & Hn0 & _).
  unfold resume_copied. rewrite Hdry. apply safe_bind, safe_lift; [done|]. intros sum Hx.
  destruct (checksum s) as [sum'|] eqn:Hc; [|done]. injection Hx as ->.
  rewrite (pg_at _ _ _ Hprog). apply safe_bind.
  apply (safe_verify_and_advance k sum _ j); [done|done|congruence|congruence|].
  intros j1 w' ok at_ Hm Hns Hok. apply safe_ok. split; [by destruct Hm|].
  apply (prog_pass w' g k j1); try done.
  - by apply (moved_prog w w' k j j1).
  - by destruct Hm.
  - destruct Hm. congruence.
  - destruct Hm. congruence.
Qed.

Lemma safe_walk_step timeout k g w :
  dry_run c = false -> good w -> prog w g k -> safe (walk_step timeout c t p g) (after k) w.
Proof.
  intros Hdry Hg Hprog. unfold walk_step. apply safe_bind, safe_get.
  destruct (timeout <=? _); [apply safe_ok; split; [done|by exists k]|].
  apply safe_bind. rewrite (pg_at _ _ _ Hprog). apply safe_load; [done|..].
  - intros Hk Hnone. apply (safe_copy_page false); try done; [by apply good_bump|by apply (prog_same_jobs w)].
  - intros j s Hk Hj Hs. destruct (from_row_ok _ _ _ Hs) as (Hhi & Hn & Hsum & Hphase & Hn0 & Hup).
    assert (Hb : good (bump w)) by (by apply good_bump).
    assert (Hprog' : prog (bump w) g k) by (by apply (prog_same_jobs w)).
    destruct (phase s) eqn:Hph.
    + apply (safe_copy_page true); try done. by exists j.
    + apply safe_bind. eapply safe_mono; [by eapply safe_resume_copied|].
      intros g' w' [? ?]. by apply safe_ok.
    + apply safe_ok. split; [done|]. apply (prog_pass _ g k j); try done.
      unfold seeded. rewrite Hphase. by intros ?%as_str_inj.
    + by apply safe_ok.
Qed.

Lemma safe_walk fuel timeout k g w :
  dry_run c = false -> good w -> prog w g k ->
  safe (walk fuel timeout c t p g)
    (fun r w' => good w' /\ match r with Walked _ g' => exists k, prog w' g' k | AlreadyDropped _ => True end) w.
Proof.
  intros Hdry. revert k g w. induction fuel as [|fuel IH]; intros k g w Hg Hprog; cbn [walk].
  - by apply safe_err.
  - apply safe_bind. eapply safe_mono; [by eapply safe_walk_step|]. intros [[r|b g']|g'] w' [Hg' Hr].
    + by apply safe_ok.
    + by apply safe_ok.
    + by eapply IH.
Qed.

(** *** Dropping a partition *)

(** The rows of the first [k] chunks. *)
Fixpoint first_chunks (X : Z -> list (Z * Row)) (k : nat) : list (Z * Row) :=
  match k with O => [] | S k => first_chunks X k ++ X (Z.of_nat k) end.

Lemma first_chunks_in X k e : e ∈ first_chunks X k -> exists i, (i < k)%nat /\ e ∈ X (Z.of_nat i).
Proof.
  induction k as [|k IH]; simpl; [by intros ?%elem_of_nil|]. intros [H|H]%elem_of_app.
  - destruct (IH H) as (i & Hi & He). exists i. split; [lia|done].
  - exists k. split; [lia|done].
Qed.

Section Covers.
Context (w : world) (X : Z -> list (Z * Row)) (HX : part_ok c w t p X) (k : nat)
  (Hjobs : forall i, (i < k)%nat -> is_Some (job w t p (Z.of_nat i))).

(** Chunk after chunk the keys only rise. *)
Lemma chunks_ordered n :
  (n <= k)%nat ->
  NoDup (map fst (first_chunks X n)) /\
  (forall e, e ∈ first_chunks X n -> e.1 <= start_of w t p (Z.of_nat n)).
Proof.
  induction n as [|n IH]; intros Hn; cbn [first_chunks].
  - split; [constructor|]. by intros e ?%elem_of_nil.
  - destruct IH as [Hnd Hle]; [lia|]. destruct (Hjobs n) as [j Hj]; [lia|].
    destruct (pk_chunks _ _ _ _ _ HX _ _ Hj).
    assert (Hstart : start_of w t p (Z.of_nat (S n)) = r_high j).
    { unfold start_of. destruct (Z.eqb_spec (Z.of_nat (S n)) 0); [lia|].
      replace (Z.of_nat (S n) - 1) with (Z.of_nat n) by lia. by rewrite Hj. }
    rewrite Hstart. split.
    + rewrite map_app. apply NoDup_app. split_and!; [done| |done]. intros x Hx Hx'.
      apply list_elem_of_fmap in Hx as ([x1 r1] & -> & H1), Hx' as ([x2 r2] & Heq & H2). simpl in *. subst x2.
      specialize (Hle _ H1). specialize (ck_start0 _ _ H2). simpl in *. lia.
    + intros e [He|He]%elem_of_app.
      * specialize (Hle _ He). destruct ck_high_in0 as [r Hr]. specialize (ck_start0 _ _ Hr). lia.
      * destruct e as [x r]. by eapply ck_high0.
Qed.

Lemma first_chunks_length n : (n <= k)%nat -> Z.of_nat (length (first_chunks X n)) = sum_rows w n.
Proof.
  induction n as [|n IH]; intros Hn; cbn [first_chunks sum_rows]; [done|]. rewrite length_app, Nat2Z.inj_add, IH by lia.
  destruct (Hjobs n) as [j Hj]; [lia|]. rewrite Hj. destruct (pk_chunks _ _ _ _ _ HX _ _ Hj). by rewrite ck_rows0.
Qed.

(** If as many rows are in the chunks as in the partition, every row is in a chunk. *)
Lemma chunks_cover m key r :
  rows_in w t p = Some m -> Z.of_nat (size m) = sum_rows w k -> m !! key = Some r ->
  exists i, (i < k)%nat /\ (key, r) ∈ X (Z.of_nat i).
Proof.
  intros Hm Hsize Hr. apply first_chunks_in.
  assert (Hsub : first_chunks X k ⊆+ map_to_list m).
  { apply NoDup_submseteq.
    - apply (NoDup_fmap_1 fst). by apply chunks_ordered.
    - intros [x y] Hx. apply first_chunks_in in Hx as (i & Hi & Hx). apply elem_of_map_to_list.
      destruct (Hjobs i Hi) as [j Hj]. destruct (pk_chunks _ _ _ _ _ HX _ _ Hj). by eapply ck_hot0. }
  assert (Hp : first_chunks X k ≡ₚ map_to_list m).
  { apply submseteq_length_Permutation; [done|]. rewrite length_map_to_list.
    pose proof (first_chunks_length k). lia. }
  rewrite Hp. by apply elem_of_map_to_list.
Qed.

End Covers.

Lemma drop_good w g k ps :
  good w -> prog w g k -> all_verified g = true ->
  Z.of_nat (size (partition_rows w (name t) p)) < 2 ^ 63 ->
  Z.of_nat (size (partition_rows w (name t) p)) = archived_rows g ->
  good (set_parts ps (set_hot (delete (name t, p) (hot w)) w)).
Proof.
  intros [Hinv Hacc] Hprog Hver Hsmall Hsize. set (w' := set_parts _ _).
  assert (Hother : forall t' p', (name t', p') <> (name t, p) -> rows_in w' t' p' = rows_in w t' p').
  { intros t' p' Hne. unfold rows_in. simpl. by rewrite lookup_delete_ne. }
  assert (Hgone : rows_in w' t p = None) by (unfold rows_in; simpl; apply lookup_delete_eq).
  assert (Hset : settles w w') by (by apply settles_same).
  split.
  - apply (inv_at c w w' t p); try done.
    + intros t' p' Hne. split_and!; [by apply Hother|done|done].
    + intros X [Hck Hkey]. exists X. split; [|intros m k' r Hm; congruence].
      intros n j Hj. destruct (Hck n j Hj). split; try done; intros m Hm; congruence.
  - intros t' p' key r Ht' Hk. destruct (Hacc t' p' key r Ht' Hk) as [(m & Hm & Hr)|Ha];
      [|right; by apply (archived_settles w)].
    destruct (decide ((name t', p') = (name t, p))) as [Heq|Hne]; [|left; exists m; by rewrite Hother].
    right. apply (archived_settles w); [done|].
    assert (Hsame : rows_in w t p = Some m) by (unfold rows_in in *; by rewrite <- Heq).
    destruct Hinv as [_ Hi]. destruct (Hi t p Ht) as [X HX].
    unfold partition_rows in Hsmall, Hsize. unfold rows_in in Hsame. rewrite Hsame in Hsmall, Hsize. simpl in *.
    destruct (chunks_cover w X HX k) with (m := m) (key := key) (r := r) as (i & Hik & Hin); try done.
    + intros i Hik. destruct (pg_done _ _ _ Hprog i Hik) as (j & Hj & _). by exists j.
    + rewrite Hsize, (pg_sum _ _ _ Hprog). rewrite (pg_sum _ _ _ Hprog) in Hsize. unfold u64_max in *. lia.
    + destruct (pg_done _ _ _ Hprog i Hik) as (j & Hj & Hs & Hv). specialize (Hv Hver).
      destruct (pk_chunks _ _ _ _ _ HX _ _ Hj). exists (Z.of_nat i), j, (map snd (X (Z.of_nat i))).
      injection Heq as Hn ->. unfold job, archived in *. rewrite Hn.
      split_and!; [done|by left|done|apply ck_held0; by left|]. by apply (list_elem_of_fmap_2 snd) in Hin.
Qed.

Lemma safe_mark_dropped k n w :
  good w ->
  (forall i, (n <= i < n + k)%nat -> exists j, job w t p (Z.of_nat i) = Some j /\ r_phase j = as_str Verified) ->
  safe (mark_dropped (name t) p (Z.of_nat n) k) (fun _ => good) w.
Proof.
  revert n w. induction k as [|k IH]; intros n w Hg Hv; cbn [mark_dropped]; [by apply safe_ok|].
  destruct (Hv n) as (j & Hj & Hph); [lia|]. apply safe_bind.
  apply (safe_advance n Dropped Verified None j); try done; [by left|]. intros j1 w' Hm _ _.
  replace (Z.of_nat n + 1) with (Z.of_nat (S n)) by lia. apply IH; [by destruct Hm|].
  intros i Hi. destruct (Hv i) as (j' & Hj' & Hph'); [lia|]. exists j'. split; [|done].
  rewrite (mv_rest _ _ _ _ _ Hm) by lia. done.
Qed.

Lemma safe_finish b g k w :
  good w -> prog w g k -> safe (finish c t p b g) (fun _ => good) w.
Proof.
  intros Hg Hprog. unfold finish. apply safe_bind.
  set (cond := _ && _ && _ && _ && _). destruct cond eqn:Hcond; subst cond; [|by apply safe_ok, safe_ok].
  assert (Hver : all_verified g = true).
  { do 3 apply andb_prop in Hcond as [Hcond _]. by apply andb_prop in Hcond as [_ ?]. }
  assert (Hret : safe (retention_passed c (verified_at g)) (fun _ w' => w' = w) w).
  { unfold retention_passed. destruct (verified_at g); [|by apply safe_ok]. apply safe_bind, safe_get, safe_bind.
    apply safe_add_time; [done|]. intros r. by apply safe_ok. }
  eapply safe_mono; [exact Hret|]. intros [] w' ->; [|by apply safe_ok].
  unfold row_count_matches. pose proof (let_in_good c kept (CountRows (name t) p) w Hg) as Hg1.
  apply safe_bind, safe_bind, safe_db; [done|exact Hg1|].
  cbn [fst snd]. set (w1 := let_in _ w) in *. set (size_ := Z.of_nat _). apply safe_bind.
  destruct (size_ <? 2 ^ 63) eqn:Hsmall; apply safe_lift; try done; try (by apply good_bump).
  intros actual Ha. injection Ha as <-. apply safe_ok. destruct (size_ =? archived_rows g) eqn:Heq;
    [|by apply safe_ok, good_bump].
  assert (Hb : good (bump w1)) by (by apply good_bump).
  pose proof (let_in_good c kept (DropPartition (name t) p) _ Hb) as Hg2.
  pose proof (let_in_drop (bump w1) (name t) p (proj1 (proj1 (proj1 Hb)))) as Hsame.
  assert (Hprogb : prog (let_in (DropPartition (name t) p) (bump w1)) g k).
  { apply (prog_same_jobs w); [|done]. destruct (let_in_spec (DropPartition (name t) p) (bump w1)) as ((_ & -> & _) & _).
    by destruct (let_in_spec (CountRows (name t) p) w) as ((_ & ? & _) & _). }
  apply safe_bind. unfold drop_partition.
  apply safe_bind, safe_lift; [done|]. intros _ _. apply safe_bind, safe_lift; [done|]. intros _ _.
  set (w2 := let_in _ (bump w1)) in *.
  assert (Hsize : Z.of_nat (size (partition_rows w2 (name t) p)) = size_)
    by (unfold size_, partition_rows; by rewrite Hsame).
  assert (Hdrop : forall ps, good (set_parts ps (set_hot (delete (name t, p) (hot w2)) w2))).
  { intros ps. apply (drop_good w2 g k ps); try done; rewrite Hsize; lia. }
  apply safe_db; [done|apply Hdrop|]. apply safe_bind. cbn [fst snd].
  rewrite (pg_at _ _ _ Hprog), Nat2Z.id.
  eapply safe_mono; [apply (safe_mark_dropped k 0)|intros x w' Hw'; by apply safe_ok].
  - apply good_bump, Hdrop.
  - intros i Hi. destruct (pg_done _ _ _ Hprogb i) as (j & Hj & _ & Hv); [lia|]. exists j. split; [exact Hj|auto].
Qed.

Lemma safe_archive_partition fuel timeout r w :
  dry_run c = false -> good w -> safe (archive_partition fuel timeout c t p r) (fun _ => good) w.
Proof.
  intros Hdry Hg. unfold archive_partition. apply safe_bind. eapply safe_mono.
  - apply (safe_walk fuel timeout 0); [done|done|]. split; [done|done|intros i Hi; lia|done].
  - intros [r'|b g] w' [Hg' Hr]; [by apply safe_ok|]. destruct Hr as [k Hprog]. by eapply safe_finish.
Qed.

End Part.

(** *** A run *)

Definition keeps_good (w w' : world) : Prop := good w -> good w'.

#[local] Instance keeps_good_preorder : PreOrder keeps_good.
Proof. split; [by intros w Hg|]. intros w1 w2 w3 H12 H23 Hg. auto. Qed.

Lemma safe_respects {A} (m : M A) :
  (forall w, good w -> safe m (fun _ => good) w) -> respects (fun _ => True) keeps_good (fun _ => False) m.
Proof.
  intros Hm [w b] out p' _ Hrun. split; [|naive_solver]. intros Hg.
  pose proof (wp_run _ _ _ _ _ _ _ (Hm w Hg) Hrun) as Hp. destruct out as [[x|e]|]; exact Hp.
Qed.

Lemma run_keeps_good fuel timeout :
  NoDup (map name (tables c)) ->
  respects (fun _ => True) keeps_good (fun _ => False) (run_once fuel timeout c : M _).
Proof.
  intros Hnames.
  assert (Harr : forall st w, keeps_good w (bump (let_in st w))) by (intros st w Hw; by apply good_bump, let_in_good).
  apply keeps_run_once; [apply _|done|tauto|tauto|exact (good_bump c kept)|exact Harr|..].
  { intros w l. exact (good_view c kept w (bump (set_lock l w)) eq_refl eq_refl eq_refl eq_refl). }
  intros t p r Ht. destruct (dry_run c) eqn:Hdry; cycle 1.
  { apply safe_respects. intros w Hg. by apply safe_archive_partition. }
  unfold archive_partition. apply respects_bind; [apply _|done| |].
  - generalize {| cursor := - 2 ^ 63; at_chunk := 0; all_verified := true; verified_at := None;
      copied_any := false; archived_rows := 0; report := r |} as g.
    induction fuel as [|f IH]; intros g; cbn [walk]; [apply respects_ret; [apply _|tauto]|].
    apply respects_bind; [apply _|done| |intros [e|g']; [apply respects_ok; apply _|apply IH]].
    apply keeps_walk_step_dry; try apply _; try tauto; first [exact Harr|exact (good_bump c kept)].
  - intros [r'|b g]; [apply respects_ok; apply _|].
    apply keeps_finish_dry; try apply _; try tauto; first [exact Harr|exact (good_bump c kept)].
Qed.

End Safe.
End TieringSafe.

(** ** Runs one after the other *)

Module TieringRuns.
Import TierConfig TierState Archive TieringFacts TieringInv TieringSafe.

Section Runs.
Context `{JT : JsonNumber} {ST : SqlTerms} {C L : Type} `{CS : !ColdSink C} `{LK : !Lock L}.

Local Abbreviation world := (world (C:=C) (L:=L)).

(** A run, with any fuel and budget, that returns, fails or dies anywhere. *)
Definition attempt (c : TieringConfig) (w w' : world) : Prop :=
  exists fuel timeout lives out q,
    run_once fuel timeout c {| the_world := w; left_ := lives |} = (out, q) /\ the_world q = w'.

(** Before the first run: no states, and rows under their key, those that arrive too. *)
Definition fresh (c : TieringConfig) (w : world) : Prop :=
  jobs w = ∅ /\ keyed_arrivals c (env w) /\
  forall t p m k r, t ∈ tables c -> hot w !! (name t, p) = Some m -> m !! k = Some r ->
    (r : gmap string Value) !! id_col t ≫= as_i64 = Some k.

Lemma fresh_inv `{CL : !ColdLaw C} c w : fresh c w -> punctual (env w) -> inv c w.
Proof.
  intros (Hj & He & Hk) Hp. split; [done|]. intros t p Ht. exists (fun _ => []). split.
  - intros n j Hn. unfold job in Hn. by rewrite Hj, lookup_empty in Hn.
  - intros m k r Hm Hr. by eapply Hk.
Qed.

Lemma attempts_good `{CL : !ColdLaw C} c kept (w w' : world) :
  NoDup (map name (tables c)) -> good c kept w -> rtc (attempt c) w w' -> good c kept w'.
Proof.
  intros Hn Hg Hr. induction Hr as [w|w1 w2 w3 Hat Hr IH]; [done|]. apply IH.
  destruct Hat as (fuel & timeout & lives & out & q & Hrun & <-).
  by apply (run_keeps_good c kept fuel timeout Hn _ _ _ I Hrun).
Qed.

(** The rows of a partition are accounted for through any number of attempts. *)
Lemma no_row_lost `{CL : !ColdLaw C} c (w0 w w' : world) t p m k r :
  NoDup (map name (tables c)) -> fresh c w0 -> punctual (env w0) ->
  rtc (attempt c) w0 w -> rtc (attempt c) w w' ->
  t ∈ tables c -> hot w !! (name t, p) = Some m -> m !! k = Some r ->
  (exists m', hot w' !! (name t, p) = Some m' /\ m' !! k = Some r) \/ archived w' t p r.
Proof.
  intros Hn Hf Hp H0 H1 Ht Hm Hr.
  assert (Hw : inv c w).
  { apply (attempts_good c (fun _ _ _ _ => False) w0 w Hn); [|done].
    split; [by apply fresh_inv|]. by intros ? ? ? ? ?. }
  set (kept := fun t1 p1 k1 r1 => t1 = t /\ p1 = p /\ k1 = k /\ r1 = r).
  assert (Hg : good c kept w).
  { split; [done|]. intros t1 p1 k1 r1 _ (-> & -> & -> & ->). left. by exists m. }
  destruct (attempts_good c kept w w' Hn Hg H1) as [_ Ha]. by apply (Ha t p k r).
Qed.

End Runs.
End TieringRuns.
