(* ===== verification/TieringSpec.v ===== *)
(** * What the archive job promises

    A partition is dropped only when the cold layer holds every row of it, through any
    number of runs that fail or die, as long as no row arrives in a partition while one
    of its chunks is only seeded nor between its count and its drop; a dry run writes
    nothing; the budget ends every run.  And the two gaps, rows that arrive at those
    moments. *)

From S2P Require Import Prelude Dialect Clock Crash Json Text ShardCatalog TierConfig Tiering.
From S2P Require Import TieringFacts TieringInv TieringSafe.

Local Open Scope Z_scope.
Local Open Scope ecat_scope.

(** ** A concrete world

    One table with one partition; the cold layer is a map that a write overwrites. *)

Module TieringDemo.
Import TierConfig TierState Archive TieringFacts.

#[export] Instance demo_number : JsonNumber := CatalogSpec.demo_number.

#[export] Instance demo_terms : SqlTerms := { satisfies _ _ := true; instant_of _ _ := 0 }.

Abbreviation demo_cold := (gmap (string * string * Z) (list Row)).

Definition row_id (r : Row) : Z := default 0 ((r : gmap string Value) !! "id" ≫= as_i64).

Definition ids_text (l : list Row) : string := String.concat "," (map (fun r => dec_text (row_id r)) l).

#[export] Instance demo_sink : ColdSink demo_cold := {
  write_chunk c t p n l := (Ok (ids_text l), <[(t, p, n) := l]> c);
  verify_chunk c t p n s :=
    Ok match c !! (t, p, n) with Some l => String.eqb (ids_text l) s | None => false end;
}.

(** A chunk holds some rows if what it stores has their digest. *)
#[export] Instance demo_law : ColdLaw demo_cold.
Proof.
  refine {| digest _ := ids_text;
            holds := fun c t p n l => exists l0, c !! (t, p, n) = Some l0 /\ ids_text l0 = ids_text l |}.
  - intros c t p n l s c' H. by injection H as <- <-.
  - intros c t p n l r c' t' p' n' l' H Hne (l0 & Hl0 & Hd). injection H as <- <-. exists l0.
    split; [|done]. by rewrite lookup_insert_ne.
  - intros c t p n l H. simpl in H. destruct (c !! (t, p, n)) as [l0|]; [|done].
    injection H as H. exists l0. split; [done|]. by apply String.eqb_eq.
Defined.

#[export] Instance demo_lock : Lock unit := {
  acquire l := (Ok (Some "token"), l);
  release l _ := (Ok tt, l);
}.

Definition demo_row (i : Z) : Row := ({[ "id" := @VNumber demo_number i ]} : gmap string Value).

Definition rows_of (l : list Z) : gmap Z Row := list_to_map (map (fun i => (i, demo_row i)) l).

Definition orders : TableTieringConfig :=
  {| name := "orders"; time_col := "created_at"; id_col := "id"; retention_days := 365;
     target := Clickhouse; filter := None |}.

Definition demo_config (dry : bool) : TieringConfig :=
  {| enabled := true; hot_days := 180; partition_months := 1; tables := [orders]; batch_size := 2;
     max_rows_per_sec := None; verify_sample := None; retain_s3_days := 0; window := None;
     dry_run := dry |}.

(** Which rows other clients insert before a statement. *)
Abbreviation writers := (nat -> hot_statement -> gmap JobKey JobRow -> list Z).

Definition demo_env (late : writers) : environment :=
  {| hot_dialect := MySql; state_dialect := MySql; clock := fun _ => 365 * day;
     elapsed := fun n => Z.of_nat n; faults := fun _ => None;
     arrivals := fun n st js => map (fun i => ("orders", "p202501", i, demo_row i)) (late n st js) |}.

Definition demo_world_with {C} (c : C) (late : writers) (l : list Z) : world :=
  {| hot := {[ ("orders", "p202501") := rows_of l ]};
     parts := {[ "orders" := ["p202501"] ]};
     jobs := ∅; cold := c; lock := Some tt; env := demo_env late; tick := 0 |}.

Definition demo_world := demo_world_with (∅ : demo_cold).

(** Runs one after the other, each with the number of effects it lives for. *)
Fixpoint runs (dry : bool) (lives : list (option nat)) (w : world) : world (C:=demo_cold) (L:=unit) :=
  match lives with
  | [] => w
  | b :: lives =>
      runs dry lives
        (the_world (run_once 100 1000 (demo_config dry) {| the_world := w; left_ := b |}).2)
  end.

Definition hot_ids (w : world (C:=demo_cold) (L:=unit)) : option (list Z) :=
  (fun m => map fst (map_to_list m)) <$> hot w !! ("orders", "p202501").

Definition cold_ids (w : world (C:=demo_cold) (L:=unit)) : list (list Z) :=
  map (fun e => map row_id e.2) (map_to_list (cold w)).

(** Nobody inserts; rows 3 and 7 while a chunk is seeded; row 3 right before the drop;
    rows 3 and 9 before any statement, but not while a chunk is seeded nor before the drop. *)
Definition nobody : writers := fun _ _ _ => [].
Definition late : writers := fun n _ _ => if Nat.eqb n 11 then [3; 7] else [].
Definition at_drop : writers := fun _ st _ => match st with DropPartition _ _ => [3] | _ => [] end.
Definition polite : writers := fun _ st js =>
  match st with
  | DropPartition _ _ => []
  | _ => if bool_decide (map_Exists (fun _ j => r_phase j = as_str Pending) js) then [] else [3; 9]
  end.

End TieringDemo.

Module TieringSpec.
Import TierConfig TierState Archive TieringFacts TieringInv TieringSafe TieringRuns.

Section Theorems.
Context `{JT : JsonNumber} {ST : SqlTerms} {C L : Type} `{CS : !ColdSink C} `{LK : !Lock L}.

Local Abbreviation world := (world (C:=C) (L:=L)).

(** C8. No row is lost by the job itself.  However many runs of it fail or die, a row that
    was in a partition after some of the runs is still there after the others, or the cold
    layer holds it in a chunk that passed verification.  In particular a partition is
    dropped only when every row of it is held.  Other clients may insert rows before any
    statement of the job, under the hypothesis [punctual]: no row arrives in a partition
    while one of its chunks is only seeded, nor between the count of the partition and its
    drop.  The code enforces neither, and both are needed ([late_rows_can_lose_a_row],
    [row_before_drop_is_lost]).  Clients do not change or delete rows. *)
Theorem archive_loses_no_row `{CL : !ColdLaw C} c (w0 w w' : world) t p m k r :
  NoDup (map name (tables c)) -> fresh c w0 -> punctual (env w0) ->
  rtc (attempt c) w0 w -> rtc (attempt c) w w' ->
  t ∈ tables c -> hot w !! (name t, p) = Some m -> m !! k = Some r ->
  (exists m', hot w' !! (name t, p) = Some m' /\ m' !! k = Some r) \/ archived w' t p r.
Proof. apply no_row_lost. Qed.

(** A dry run writes nothing: however it ends, the chunk states, the cold layer and
    the partitions are what they were, and rows of the hot database only arrive. *)
Theorem dry_run_writes_nothing fuel timeout c (w : world) lives out q :
  dry_run c = true -> run_once fuel timeout c {| the_world := w; left_ := lives |} = (out, q) ->
  jobs (the_world q) = jobs w /\ cold (the_world q) = cold w /\ parts (the_world q) = parts w /\
  hot_le (hot w) (hot (the_world q)).
Proof.
  intros Hd Hrun. destruct (dry_run_keeps fuel timeout c Hd _ _ _ I Hrun) as [(? & ? & ? & ?) _].
  by split_and!.
Qed.

(** The budget ends every run.  If the clock of the run has reached the budget after
    [n] effects, no partition takes more than [n] rounds, so that fuel beyond [n] is
    never used up. *)
Theorem run_ends_within_budget fuel timeout n c (w : world) lives out q :
  (forall k, (n <= k)%nat -> timeout <= elapsed (env w) k) -> (n < fuel)%nat ->
  run_once fuel timeout c {| the_world := w; left_ := lives |} = (out, q) -> out <> Ret (Err OutOfFuel).
Proof.
  intros Hb Hn Hrun ->. 
  destruct (run_in_budget timeout n fuel c Hn {| the_world := w; left_ := lives |} _ _ Hb Hrun) as [_ Hbad].
  by apply (Hbad OutOfFuel).
Qed.

End Theorems.

Import TieringDemo.

(** The runs of the demonstration are attempts. *)
Lemma runs_attempts dry lives w : rtc (attempt (demo_config dry)) w (runs dry lives w).
Proof.
  revert w. induction lives as [|b lives IH]; intros w; cbn [runs]; [apply rtc_refl|].
  eapply rtc_l; [|apply IH]. exists 100%nat, 1000, b. by do 2 eexists; split; [apply surjective_pairing|].
Qed.

Lemma demo_row_id i : in_i64 i -> (demo_row i : gmap string Value) !! "id" ≫= as_i64 = Some i.
Proof.
  unfold in_i64. intros Hi. unfold demo_row. rewrite lookup_singleton_eq. simpl.
  replace (- 2 ^ 63 <=? i) with true by lia. by replace (i <? 2 ^ 63) with true by lia.
Qed.

Lemma demo_world_fresh {C} (c : C) (dry : bool) (arr : writers) l :
  (forall i st js, Forall in_i64 (arr i st js)) -> Forall in_i64 l ->
  fresh (demo_config dry) (demo_world_with c arr l).
Proof.
  intros Harr Hl. split_and!; [done| |].
  - intros i st js t p k r Hin Ht. apply list_elem_of_singleton in Ht as ->.
    simpl in Hin. apply list_elem_of_fmap in Hin as (x & Heq & Hx). injection Heq as _ -> ->.
    apply demo_row_id. specialize (Harr i st js). rewrite Forall_forall in Harr. by apply Harr.
  - intros t p m k r Ht Hm Hr. apply list_elem_of_singleton in Ht as ->. simpl in Hm.
    apply lookup_singleton_Some in Hm as [_ <-]. unfold rows_of in Hr.
    apply elem_of_list_to_map_2 in Hr. apply list_elem_of_fmap in Hr as (x & Heq & Hx).
    injection Heq as -> ->. apply demo_row_id. by eapply Forall_forall.
Qed.

Lemma nobody_punctual {C} (c : C) l : punctual (env (demo_world_with c nobody l)).
Proof. intros i st js t p k r Hin. by apply elem_of_nil in Hin. Qed.

Lemma polite_punctual {C} (c : C) l : punctual (env (demo_world_with c polite l)).
Proof.
  intros i st js t p k r Hin. simpl in Hin. apply list_elem_of_fmap in Hin as (x & Heq & Hx). injection Heq as -> -> -> ->.
  assert (Hn : bool_decide (map_Exists (fun _ j => r_phase j = as_str Pending) js) = false).
  { unfold polite in Hx. repeat case_match; try done; by apply elem_of_nil in Hx. }
  apply bool_decide_eq_false in Hn. split; [intros ->; by apply elem_of_nil in Hx|].
  intros n j Hj Hs. apply Hn. by exists ("orders", "p202501", n), j.
Qed.

(** Rows 3 and 9 arrive while the job runs: the first run dies, the second drops the
    partition, and what was there when the first died is in the cold layer. *)
Lemma archive_loses_no_row_witness :
  let w1 := runs false [Some 12%nat] (demo_world polite [1; 5; 7]) in
  let w2 := runs false [None; None] w1 in
  hot_ids w1 = Some [7; 9; 5; 3; 1] /\ hot_ids w2 = None /\
  exists r, row_id r = 9 /\ archived w2 orders "p202501" r.
Proof.
  cbv zeta. set (w0 := demo_world polite [1; 5; 7]). set (w1 := runs false [Some 12%nat] w0).
  set (w2 := runs false [None; None] w1).
  assert (Hthere : hot_ids w1 = Some [7; 9; 5; 3; 1]) by (vm_compute; reflexivity).
  assert (Hgone : hot_ids w2 = None) by (vm_compute; reflexivity).
  assert (Hf : fresh (demo_config false) w0).
  { apply demo_world_fresh; [|repeat constructor; done]. intros i st js. unfold polite.
    repeat case_match; repeat constructor; done. }
  split_and!; [done|done|].
  assert (H9 : row_id <$> (hot w1 !! ("orders", "p202501") ≫= (fun m => m !! 9)) = Some 9) by (vm_compute; reflexivity).
  destruct (hot w1 !! _) as [m|] eqn:Hm; [|done]. cbn [mbind option_bind] in H9.
  destruct (m !! 9) as [r|] eqn:Hr; [|done]. injection H9 as H9. exists r. split; [done|].
unfold hot_ids in Hgone. apply fmap_None in Hgone.
  destruct (archive_loses_no_row (demo_config false) w0 w1 w2 orders "p202501" m 9 r)
    as [(m' & Hm' & _)|Ha]; [| |apply polite_punctual|apply runs_attempts|apply runs_attempts|by left|done|done| |done].
  - apply NoDup_singleton.
  - done.
  - change (name orders) with "orders" in Hm'. rewrite Hgone in Hm'. discriminate Hm'.
Defined.

Lemma hot_ids_none w : hot_ids w = None -> hot w !! ("orders", "p202501") = None.
Proof. unfold hot_ids. apply fmap_None. Qed.

Lemma cold_without w i key l :
  in_i64 i -> forallb (fun l => forallb (fun j => negb (j =? i)) l) (cold_ids w) = true ->
  cold w !! key = Some l -> demo_row i ∉ l.
Proof.
  intros Hi Hcold Hl Hin. rewrite forallb_forall in Hcold.
  assert (Hids : List.In (map row_id l) (cold_ids w)).
  { unfold cold_ids. apply in_map_iff. exists (key, l). split; [done|].
    by apply list_elem_of_In, elem_of_map_to_list. }
  specialize (Hcold _ Hids). rewrite forallb_forall in Hcold.
  assert (H5 : List.In i (map row_id l)).
  { apply in_map_iff. exists (demo_row i). split; [unfold row_id; by rewrite demo_row_id|]. by apply list_elem_of_In. }
  specialize (Hcold _ H5). by rewrite Z.eqb_refl in Hcold.
Qed.

(** Two runs that die after seeding a chunk, two that finish. *)
Definition last_world : Archive.world (C:=demo_cold) (L:=unit) :=
  runs false [Some 7%nat; Some 13%nat; None; None] (demo_world late [1; 5]).

(** The gap.  When rows arrive while a chunk is only seeded, the chunk is copied
    anew but its recorded rows and its recorded end are those of the first copy.  Two
    runs that die and two late rows are enough: with a cold layer that overwrites a
    chunk (and keeps the contract), the partition is dropped although no chunk holds
    row 5, which was there all along. *)
Theorem late_rows_can_lose_a_row :
  exists w' : Archive.world (C:=demo_cold) (L:=unit),
    rtc (attempt (demo_config false)) (demo_world late [1; 5]) w' /\
    hot w' !! ("orders", "p202501") = None /\
    forall key l, cold w' !! key = Some l -> demo_row 5 ∉ l.
Proof.
  assert (Hgone : hot_ids last_world = None) by (vm_compute; reflexivity).
  assert (Hcold : forallb (fun l => forallb (fun i => negb (i =? 5)) l) (cold_ids last_world) = true)
    by (vm_compute; reflexivity).
  exists last_world. split_and!; [apply runs_attempts|by apply hot_ids_none|].
  intros key l Hl. refine (cold_without last_world 5 key l _ Hcold Hl). by split.
Qed.

(** The other gap.  The count and [DROP PARTITION] are two statements: a row that arrives
    between them - row 3 here - is dropped with the partition, and no chunk holds it. *)
Theorem row_before_drop_is_lost :
  exists w' : Archive.world (C:=demo_cold) (L:=unit),
    rtc (attempt (demo_config false)) (demo_world at_drop [1; 5]) w' /\
    hot w' !! ("orders", "p202501") = None /\
    cold_ids w' = [[1; 5]].
Proof.
  set (w' := runs false [None] (demo_world at_drop [1; 5])).
  assert (Hgone : hot_ids w' = None) by (vm_compute; reflexivity).
  exists w'. split_and!; [apply runs_attempts|by apply hot_ids_none|vm_compute; reflexivity].
Qed.

Lemma dry_run_writes_nothing_witness :
  exists (q : proc (Archive.world (C:=demo_cold) (L:=unit))) out,
    run_once 100 1000 (demo_config true) {| the_world := demo_world late [1; 5]; left_ := None |} = (out, q) /\
    jobs (the_world q) = ∅ /\ cold (the_world q) = ∅.
Proof.
  destruct (run_once 100 1000 (demo_config true) {| the_world := demo_world late [1; 5]; left_ := None |})
    as [out q] eqn:Hrun. exists q, out. split; [done|].
  destruct (dry_run_writes_nothing 100 1000 (demo_config true) _ None out q eq_refl Hrun) as (Hj & Hc & _).
  split; [exact Hj|exact Hc].
Defined.

Lemma run_ends_within_budget_witness :
  exists (q : proc (Archive.world (C:=demo_cold) (L:=unit))) out,
    run_once 1001 1000 (demo_config false) {| the_world := demo_world late [1; 5]; left_ := None |} = (out, q) /\
    out <> Ret (Err OutOfFuel).
Proof.
  destruct (run_once 1001 1000 (demo_config false) {| the_world := demo_world late [1; 5]; left_ := None |})
    as [out q] eqn:Hrun. exists q, out. split; [done|].
  apply (run_ends_within_budget 1001 1000 1000 (demo_config false) (demo_world late [1; 5]) None out q);
    [|lia|exact Hrun]. intros k Hk. simpl. lia.
Defined.

End TieringSpec.
