(* ===== verification/S3Sink.v ===== *)
(** * The object-store sink of the archive job ([ecat-data-tiering])

    [src/ecat-data-tiering/src/sink/s3.rs] over the [StorageClient] of
    [src/ecat-data/src/storage.rs]: a chunk is one NDJSON object under a fixed key, written
    once, and a manifest written last; verification reads the object back.

    A bucket is its objects; a [put] may fail, applied or not.  SHA-256, the JSON text of
    a row or manifest and their parsing are the operations of the class [S3Codec].  Bytes
    are strings. *)

From Stdlib Require Import Ascii.
From S2P Require Import Prelude Clock Json Text TierConfig Tiering.

Local Open Scope Z_scope.
Local Open Scope ecat_scope.

Module S3.
Import TierConfig.

Record Manifest := {
  m_table : string;
  m_partition : string;
  m_chunk : Z;
  m_checksum : string;
  m_bytes : Z;
  m_rows : Z;
  m_sample_step : Z;
  m_sample_checksum : string;
  m_sample_rows : Z;
}.

(** Third-party code: [sha2], [serde_json]. *)
Class S3Codec `{JN : JsonNumber} := {
  sha256_hex : string -> string;
  row_text : Row -> string;
  parse_json : string -> result Value string;
  manifest_text : Manifest -> string;
  manifest_parse : string -> result Manifest string;
}.

Record ChunkObject := {
  ndjson_ : string;
  o_checksum : string;
  o_rows : Z;
  o_sample_step : Z;
  o_sample_checksum : string;
  o_sample_rows : Z;
}.

Record S3Table := { s3_name : string; s3_id_col : string }.

(** [S3Sink] without its client. *)
Record Sink := { bucket : string; prefix : string; s3_tables : list S3Table; sample : option f64 }.

(** *** Numbers *)

(** [str::parse::<i64>]. *)
Definition parse_i64 (s : string) : option Z :=
  match s with
  | String c s' =>
      if Ascii.eqb c "-"%char
      then match s' with
           | String "+" _ => None
           | _ => match parse_uint 64 s' with
                  | Some n => if n <=? 2 ^ 63 then Some (- n) else None
                  | None => None
                  end
           end
      else match parse_uint 64 s with
           | Some n => if n <? 2 ^ 63 then Some n else None
           | None => None
           end
  | EmptyString => None
  end.

Definition rate_ok (r : f64) : bool := SFleb f64_zero r && SFleb r f64_one.

(** [f64::ceil], as an integer; [None] where it is not finite. *)
Definition ceil (x : f64) : option Z :=
  match x with
  | S754_zero _ => Some 0
  | S754_finite s m e =>
      let z := if s then Zneg m else Zpos m in
      Some (if 0 <=? e then z * 2 ^ e else - ((- z) / 2 ^ (- e)))
  | _ => None
  end.

(** [as u64] saturates. *)
Definition sample_step (rate : f64) : Z :=
  match ceil (f64_div f64_one rate) with
  | Some c => if 1 <=? c then Z.min c u64_max else 1
  | None => 1
  end.

(** *** Text *)

Definition newline : ascii := ascii_of_nat 10.
Definition return_ : ascii := ascii_of_nat 13.

Definition line_end : string := String newline EmptyString.

Definition join_lines (l : list string) : string := foldr (fun line s => line +:+ line_end +:+ s) EmptyString l.

(** A line loses a carriage return before its newline. *)
Fixpoint strip_return (s : string) : string :=
  match s with
  | EmptyString => EmptyString
  | String c EmptyString => if Ascii.eqb c return_ then EmptyString else s
  | String c s' => String c (strip_return s')
  end.

(** [str::lines]: [acc] is the line so far, reversed. *)
Fixpoint lines_from (acc : string) (s : string) : list string :=
  match s with
  | EmptyString => match acc with EmptyString => [] | _ => [acc] end
  | String c s' =>
      if Ascii.eqb c newline then strip_return acc :: lines_from EmptyString s'
      else lines_from (acc +:+ String c EmptyString) s'
  end.

Definition lines (s : string) : list string := lines_from EmptyString s.

(** [std::str::from_utf8] accepts. *)
Definition cont (b : Z) : bool := between 128 b 191.

Fixpoint utf8_bytes (l : list Z) : bool :=
  match l with
  | [] => true
  | a :: l1 =>
      if a <? 128 then utf8_bytes l1 else
      match l1 with
      | [] => false
      | b :: l2 =>
          if between 194 a 223 && cont b then utf8_bytes l2 else
          match l2 with
          | [] => false
          | c :: l3 =>
              if ((a =? 224) && between 160 b 191 || (between 225 a 236 || between 238 a 239) && cont b
                  || (a =? 237) && between 128 b 159) && cont c
              then utf8_bytes l3 else
              match l3 with
              | [] => false
              | d :: l4 =>
                  if ((a =? 240) && between 144 b 191 || between 241 a 243 && cont b
                      || (a =? 244) && between 128 b 143) && cont c && cont d
                  then utf8_bytes l4 else false
              end
          end
      end
  end.

Definition utf8 (s : string) : bool := utf8_bytes (bytes_of s).

(** *** Chunks *)

Definition MAX_CHUNK_BYTES : Z := 64 * 1024 * 1024.

Section Chunk.
Context `{CD : S3Codec}.

Definition json_i64 (v : Value) : option Z :=
  match v with
  | VNumber n => number_as_i64 n
  | VString s => parse_i64 s
  | _ => None
  end.

Definition row_id (id_col : string) (r : Row) : option Z := (r : gmap string Value) !! id_col ≫= json_i64.

Definition no_id (what id_col : string) : TieringError :=
  Cold (what +:+ " has no integer `" +:+ id_col +:+ "`").

Fixpoint keyed (id_col : string) (l : list Row) : result (list (Z * string)) TieringError :=
  match l with
  | [] => Ok []
  | r :: l =>
      let? i := ok_or (row_id id_col r) (no_id "cold sink row" id_col) in
      let? rest := keyed id_col l in
      Ok ((i, row_text r) :: rest)
  end.

Definition key_le (a b : Z * string) : bool := a.1 <=? b.1.

(** By id modulo the step; the first line when none is picked. *)
Definition pick_sample (l : list (Z * string)) (step : Z) : list string :=
  let step := Z.max 1 (if step <? 2 ^ 63 then step else 2 ^ 63 - 1) in
  match List.filter (fun kl => kl.1 mod step =? 0) l with
  | [] => map snd (take 1 l)
  | picked => map snd picked
  end.

Definition build_chunk (l : list Row) (id_col : string) (verify_sample : option f64)
    : result ChunkObject TieringError :=
  match l with
  | [] => Err (Cold "cannot write an empty chunk")
  | _ =>
      let? k := keyed id_col l in
      let k := sort_by key_le k in
      let ndjson := join_lines (map snd k) in
      let '(step, sum, n) :=
        match verify_sample with
        | Some rate =>
            if SFltb f64_zero rate
            then let step := sample_step rate in
                 let picked := pick_sample k step in
                 (step, sha256_hex (join_lines picked), Z.of_nat (length picked))
            else (0, EmptyString, 0)
        | None => (0, EmptyString, 0)
        end in
      Ok {| ndjson_ := ndjson; o_checksum := sha256_hex ndjson; o_rows := Z.of_nat (length l);
            o_sample_step := step; o_sample_checksum := sum; o_sample_rows := n |}
  end.

Definition byte_len (s : string) : Z := Z.of_nat (String.length s).

Definition ensure_chunk_size (len : Z) : result unit TieringError :=
  if MAX_CHUNK_BYTES <? len
  then Err (Cold ("chunk is " +:+ dec_text len +:+ " bytes, exceeding the "
                  +:+ dec_text MAX_CHUNK_BYTES +:+ " byte S3 sink limit"))
  else Ok tt.

(** [Value::get]. *)
Fixpoint member (l : list (string * Value)) (name : string) : option Value :=
  match l with
  | [] => None
  | (k, v) :: l => if String.eqb k name then Some v else member l name
  end.

Definition value_get (v : Value) (name : string) : option Value :=
  match v with VObject l => member l name | _ => None end.

Fixpoint parse_lines (id_col : string) (l : list string) : result (list (Z * string)) TieringError :=
  match l with
  | [] => Ok []
  | line :: l =>
      let? v := map_err (fun e => Cold ("s3 chunk line is not json: " +:+ e)) (parse_json line) in
      let? i := ok_or (value_get v id_col ≫= json_i64) (no_id "s3 chunk line" id_col) in
      let? rest := parse_lines id_col l in
      Ok ((i, line) :: rest)
  end.

Definition parse_keyed_lines (bytes id_col : string) : result (list (Z * string)) TieringError :=
  if negb (utf8 bytes) then Err (Cold "s3 chunk is not utf-8")
  else
    let? k := parse_lines id_col (List.filter (fun s => negb (String.eqb s "")) (lines bytes)) in
    Ok (sort_by key_le k).

(** *** The bucket *)

Record Bucket := {
  objects : gmap string string;
  puts : nat;
  put_faults : nat -> option (string * bool);
}.

Definition store (b : Bucket) (o : gmap string string) : Bucket :=
  {| objects := o; puts := S (puts b); put_faults := put_faults b |}.

Definition put (key data : string) (b : Bucket) : result unit TieringError * Bucket :=
  match put_faults b (puts b) with
  | Some (e, applied) =>
      (Err (Cold ("s3 put `" +:+ key +:+ "`: " +:+ e)),
       store b (if applied then <[key := data]> (objects b) else objects b))
  | None => (Ok tt, store b (<[key := data]> (objects b)))
  end.

Definition get (key : string) (b : Bucket) : result string TieringError :=
  ok_or (objects b !! key) (Cold ("s3 get `" +:+ key +:+ "`: not found")).

(** [list] with the key as prefix, then equality. *)
Definition exists_ (key : string) (b : Bucket) : bool := bool_decide (is_Some (objects b !! key)).

(** *** The sink *)

(** [trim_matches('/')]. *)
Definition slash : ascii := "/"%char.
Fixpoint trim_slash_start (s : string) : string :=
  match s with
  | String c s' => if Ascii.eqb c slash then trim_slash_start s' else s
  | EmptyString => EmptyString
  end.
Fixpoint trim_slash_end (s : string) : string :=
  match s with
  | EmptyString => EmptyString
  | String c s' =>
      match trim_slash_end s' with
      | EmptyString => if Ascii.eqb c slash then EmptyString else String c EmptyString
      | s'' => String c s''
      end
  end.

Fixpoint check_idents (l : list S3Table) : result unit TieringError :=
  match l with
  | [] => Ok tt
  | t :: l =>
      let? _ := validate_ident (s3_name t) in
      let? _ := validate_ident (s3_id_col t) in
      check_idents l
  end.

(** [rate_text] is the rate in the error. *)
Definition new (rate_text : f64 -> string) (b pre : string) (tables : list S3Table)
    (verify_sample : option f64) : result Sink TieringError :=
  if String.eqb b "" then Err (Config "s3 bucket must not be empty")
  else
    let? _ := check_idents tables in
    let? rate := match verify_sample with
                 | Some r => if negb (rate_ok r)
                             then Err (Config ("verify_sample must be in [0, 1], got " +:+ rate_text r))
                             else Ok (if SFeqb r f64_zero then None else Some r)
                 | None => Ok None
                 end in
    let pre := trim_slash_end (trim_slash_start pre) in
    Ok {| bucket := b; prefix := if String.eqb pre "" then "" else pre +:+ "/";
          s3_tables := tables; sample := rate |}.

Context (sink : Sink).

Definition table_spec (t : string) : result S3Table TieringError :=
  let? _ := validate_ident t in
  ok_or (List.find (fun s => String.eqb (s3_name s) t) (s3_tables sink))
        (Cold ("table `" +:+ t +:+ "` is not in the S3 sink whitelist")).

Definition base_key (t p : string) : string := prefix sink +:+ t +:+ "/" +:+ p.
Definition chunk_key (t p : string) (n : Z) : string := base_key t p +:+ "/" +:+ dec_text n +:+ ".ndjson".
Definition manifest_key (t p : string) (n : Z) : string :=
  base_key t p +:+ "/" +:+ dec_text n +:+ ".manifest.json".

Definition manifest_of (t p : string) (n : Z) (o : ChunkObject) : Manifest :=
  {| m_table := t; m_partition := p; m_chunk := n; m_checksum := o_checksum o;
     m_bytes := byte_len (ndjson_ o); m_rows := o_rows o; m_sample_step := o_sample_step o;
     m_sample_checksum := o_sample_checksum o; m_sample_rows := o_sample_rows o |}.

(** The part of a write before the bucket is touched. *)
Definition prepare (t p : string) (l : list Row) : result ChunkObject TieringError :=
  let? spec := table_spec t in
  let? _ := validate_ident p in
  let? o := build_chunk l (s3_id_col spec) (sample sink) in
  let? _ := ensure_chunk_size (byte_len (ndjson_ o)) in
  Ok o.

Definition write_chunk (b : Bucket) (t p : string) (n : Z) (l : list Row)
    : result string TieringError * Bucket :=
  match prepare t p l with
  | Err e => (Err e, b)
  | Ok o =>
      let '(r, b) := if exists_ (chunk_key t p n) b then (Ok tt, b)
                     else put (chunk_key t p n) (ndjson_ o) b in
      match r with
      | Err e => (Err e, b)
      | Ok _ =>
          let '(r, b) := put (manifest_key t p n) (manifest_text (manifest_of t p n o)) b in
          (match r with Ok _ => Ok (o_checksum o) | Err e => Err e end, b)
      end
  end.

(** The manifest describes the chunk that was read. *)
Definition manifest_fits (m : Manifest) (t p : string) (n : Z) (sum bytes : string) : bool :=
  String.eqb (m_table m) t && String.eqb (m_partition m) p && (m_chunk m =? n)
  && String.eqb (m_checksum m) sum && negb (m_sample_step m =? 0) && (m_bytes m =? byte_len bytes).

Definition verify_sample (b : Bucket) (t p : string) (n : Z) (sum bytes id_col : string)
    : result bool TieringError :=
  if negb (exists_ (manifest_key t p n) b) then Ok false
  else
    let? text := get (manifest_key t p n) b in
    let? m := map_err (fun e => Cold ("s3 manifest `" +:+ manifest_key t p n +:+ "`: " +:+ e))
                (manifest_parse text) in
    if negb (manifest_fits m t p n sum bytes) then Ok false
    else
      let? k := parse_keyed_lines bytes id_col in
      if negb (Z.of_nat (length k) =? m_rows m) then Ok false
      else
        let picked := pick_sample k (m_sample_step m) in
        Ok ((Z.of_nat (length picked) =? m_sample_rows m)
            && String.eqb (sha256_hex (join_lines picked)) (m_sample_checksum m)).

Definition verify_chunk (b : Bucket) (t p : string) (n : Z) (sum : string) : result bool TieringError :=
  let? spec := table_spec t in
  let? _ := validate_ident p in
  let? bytes := get (chunk_key t p n) b in
  if negb (String.eqb (sha256_hex bytes) sum) then Ok false
  else match sample sink with
       | None => Ok true
       | Some _ => verify_sample b t p n sum bytes (s3_id_col spec)
       end.

End Chunk.

#[export] Instance s3_cold_sink `{CD : S3Codec} (sink : Sink) : Archive.ColdSink Bucket := {
  Archive.write_chunk := write_chunk sink;
  Archive.verify_chunk := verify_chunk sink;
}.

End S3.
