(* ===== verification/S3SinkSpec.v ===== *)
(** * What the object-store sink promises

    A chunk object is written once and never changed; a chunk that was written verifies,
    sampled or not; the sink keeps the contract the archive job is proved against, so a
    row that left the hot table is in an object of the bucket.  And a gap: a chunk that
    is copied again with other rows never verifies. *)

From Stdlib Require Import Ascii.
From S2P Require Import Prelude Clock Json Text ShardCatalog Crash TierConfig Tiering.
From S2P Require Import TieringFacts TieringInv TieringSafe TieringSpec S3Sink.

Local Open Scope Z_scope.
Local Open Scope ecat_scope.

Module S3Facts.
Import TierConfig S3.

(** ** Text *)

(** A chunk key is no manifest key. *)
Lemma suffixes_differ a b : a +:+ ".ndjson" <> b +:+ ".manifest.json".
Proof.
  intros H. apply (f_equal bytes_of) in H. rewrite !bytes_of_app in H. apply (f_equal reverse) in H.
  rewrite !reverse_app in H. vm_compute in H. discriminate.
Qed.

Lemma keys_differ sink t p n t' p' n' : chunk_key sink t p n <> manifest_key sink t' p' n'.
Proof.
  unfold chunk_key, manifest_key. intros H. apply (suffixes_differ (base_key sink t p +:+ "/" +:+ dec_text n)
    (base_key sink t' p' +:+ "/" +:+ dec_text n')). by rewrite !append_assoc.
Qed.

Fixpoint plain (s : string) : bool :=
  match s with
  | EmptyString => true
  | String c s => negb (Ascii.eqb c newline) && negb (Ascii.eqb c return_) && plain s
  end.

Lemma strip_plain s : plain s = true -> strip_return s = s.
Proof.
  induction s as [|c s IH]; [done|]. cbn [plain strip_return]. intros [[_ Hr]%andb_prop Hs]%andb_prop.
  apply negb_true_iff in Hr. rewrite Hr. destruct s; [done|]. by rewrite IH.
Qed.

Lemma lines_from_app acc s rest :
  plain s = true -> lines_from acc (s +:+ line_end +:+ rest) = strip_return (acc +:+ s) :: lines rest.
Proof.
  revert acc. induction s as [|c s IH]; intros acc; cbn [plain].
  - intros _. rewrite append_nil_r. change (lines_from acc (String newline rest) = strip_return acc :: lines rest).
    cbn [lines_from]. by rewrite Ascii.eqb_refl.
  - intros [[Hn _]%andb_prop Hs]%andb_prop. apply negb_true_iff in Hn.
    change (lines_from acc (String c (s +:+ line_end +:+ rest)) = strip_return (acc +:+ String c s) :: lines rest).
    cbn [lines_from]. rewrite Hn, IH by done. do 2 f_equal. by rewrite append_assoc.
Qed.

Lemma lines_join l : Forall (fun s => plain s = true) l -> lines (join_lines l) = l.
Proof.
  induction 1 as [|s l Hs Hl IH]; [done|]. unfold lines. cbn [join_lines foldr].
  change (foldr _ _ l) with (join_lines l). rewrite lines_from_app by done. rewrite IH. f_equal.
  by apply strip_plain.
Qed.

(** *** UTF-8 *)

Lemma utf8_bytes_app a b : utf8_bytes a = true -> utf8_bytes b = true -> utf8_bytes (a ++ b) = true.
Proof.
  remember (length a) as n eqn:Hn. assert (Hle : (length a <= n)%nat) by lia. clear Hn. revert a Hle.
  induction n as [|n IH]; intros a Hle Ha Hb; [destruct a; [done|simpl in Hle; lia]|].
  destruct a as [|x a]; [done|]. cbn [app utf8_bytes length] in *.
  destruct (x <? 128); [apply IH; [lia|done..]|].
  destruct a as [|y a]; [done|]. cbn [app length] in *. destruct (_ && _); [apply IH; [lia|done..]|].
  destruct a as [|z a]; [done|]. cbn [app length] in *. destruct (_ && _); [apply IH; [lia|done..]|].
  destruct a as [|u a]; [done|]. cbn [app length] in *. destruct (_ && _); [apply IH; [lia|done..]|done].
Qed.

Lemma utf8_app a b : utf8 a = true -> utf8 b = true -> utf8 (a +:+ b) = true.
Proof. unfold utf8. rewrite bytes_of_app. apply utf8_bytes_app. Qed.

Lemma utf8_join l : Forall (fun s => utf8 s = true) l -> utf8 (join_lines l) = true.
Proof. induction 1 as [|s l Hs Hl IH]; [done|]. cbn [join_lines foldr]. apply utf8_app; [done|]. by apply utf8_app. Qed.

(** ** Sorted lists stay *)

Lemma sort_by_sorted_id {A} (le : A -> A -> bool) l :
  StronglySorted (fun a b => le a b = true) l -> sort_by le l = l.
Proof.
  induction 1 as [|x l Hl IH Hx]; [done|]. change (insert_sorted le x (sort_by le l) = x :: l). rewrite IH.
  destruct Hx as [|y l Hy _]; [done|]. simpl. by rewrite Hy.
Qed.

Lemma key_le_sorted l : StronglySorted (fun a b => key_le a b = true) (sort_by key_le l).
Proof. apply (sort_by_sorted _ (fun _ => True)); unfold key_le; intros; [lia|lia|by apply Forall_true]. Qed.

Section Sink.
Context `{CD : S3Codec} (sink : Sink).

(** ** What the rows of a chunk become *)

Definition keyed_total (id_col : string) (l : list Row) : list (Z * string) :=
  map (fun r => (default 0 (row_id id_col r), row_text r)) l.

Definition ndjson_of (id_col : string) (l : list Row) : string :=
  join_lines (map snd (sort_by key_le (keyed_total id_col l))).

Lemma keyed_ok id_col (l : list Row) k :
  keyed id_col l = Ok k -> k = keyed_total id_col l /\ Forall (fun r => is_Some (row_id id_col r)) l.
Proof.
  revert k. induction l as [|r l IH]; intros k; cbn [keyed]; [intros; simplify_eq; by split|].
  destruct (row_id id_col r) as [i|] eqn:Hi; [|done]. cbn [ok_or rbind].
  destruct (keyed id_col l) as [k'|]; [|done]. cbn [rbind]. intros [= <-]. destruct (IH _ eq_refl) as [-> Hl].
  split; [|by constructor]. unfold keyed_total. cbn [map]. by rewrite Hi.
Qed.

Lemma build_chunk_ok (l : list Row) id_col rate o :
  build_chunk l id_col rate = Ok o ->
  ndjson_ o = ndjson_of id_col l /\ o_checksum o = sha256_hex (ndjson_of id_col l) /\
  o_rows o = Z.of_nat (length l) /\ Forall (fun r => is_Some (row_id id_col r)) l.
Proof.
  unfold build_chunk. destruct l as [|r0 l0] eqn:Hl; [done|]. rewrite <- Hl. clear Hl.
  destruct (keyed id_col l) as [k|] eqn:Hk; [|done]. cbn [rbind]. apply keyed_ok in Hk as [-> Hids].
  intros H. assert (Hr : forall step sum n, Ok {| ndjson_ := ndjson_of id_col l; o_checksum := sha256_hex (ndjson_of id_col l);
    o_rows := Z.of_nat (length l); o_sample_step := step; o_sample_checksum := sum; o_sample_rows := n |} = Ok (E:=TieringError) o ->
    ndjson_ o = ndjson_of id_col l /\ o_checksum o = sha256_hex (ndjson_of id_col l) /\
    o_rows o = Z.of_nat (length l) /\ Forall (fun r => is_Some (row_id id_col r)) l) by by intros ??? [= <-].
  destruct rate as [rate|]; [destruct (SFltb f64_zero rate)|]; by eapply Hr.
Qed.

Lemma prepare_ok t p (l : list Row) o :
  prepare sink t p l = Ok o ->
  exists spec, table_spec sink t = Ok spec /\ validate_ident p = Ok tt /\
    build_chunk l (s3_id_col spec) (sample sink) = Ok o.
Proof.
  unfold prepare. intros H. apply rbind_ok in H as (spec & Hs & H). apply rbind_ok in H as ([] & Hp & H).
  apply rbind_ok in H as (o' & Ho & H). apply rbind_ok in H as ([] & _ & H). injection H as ->. by exists spec.
Qed.

(** ** The bucket *)

(** A write changes at most a chunk object that was not there, and one manifest. *)
Lemma write_objects b t p n (l : list Row) r b' key x :
  write_chunk sink b t p n l = (r, b') -> objects b !! key = Some x ->
  (forall t p n, key <> manifest_key sink t p n) -> objects b' !! key = Some x.
Proof.
  intros H Hx Hm. unfold write_chunk in H. destruct (prepare _ _ _ _) as [o|e]; [|by simplify_eq].
  assert (Hput : forall b0 k d, objects b0 !! key = Some x -> key <> k -> objects (put k d b0).2 !! key = Some x).
  { intros b0 k d Hb0 Hne. unfold put. destruct (put_faults b0 (puts b0)) as [[e [|]]|]; simpl;
      [by rewrite lookup_insert_ne|done|by rewrite lookup_insert_ne]. }
  assert (Hfirst : forall r1 b1,
    (if exists_ (chunk_key sink t p n) b then (Ok tt, b) else put (chunk_key sink t p n) (ndjson_ o) b) = (r1, b1) ->
    objects b1 !! key = Some x).
  { intros r1 b1. unfold exists_. case_bool_decide as He; [intros; by simplify_eq|]. intros Hp.
    change b1 with (r1, b1).2. rewrite <- Hp. apply Hput; [done|]. intros ->. apply He. by eexists. }
  destruct (if exists_ _ _ then _ else _) as [[[]|e] b1] eqn:Hc; [|simplify_eq; by eapply Hfirst].
  destruct (put (manifest_key sink t p n) _ b1) as [r2 b2] eqn:Hp. simplify_eq.
  change b' with (r2, b').2. rewrite <- Hp. apply Hput; [by eapply Hfirst|apply Hm].
Qed.

Lemma chunk_stays b t p n (l : list Row) r b' t' p' n' x :
  write_chunk sink b t p n l = (r, b') -> objects b !! chunk_key sink t' p' n' = Some x ->
  objects b' !! chunk_key sink t' p' n' = Some x.
Proof. intros H Hx. eapply write_objects; [done..|]. intros. apply keys_differ. Qed.

Lemma write_ok b t p n (l : list Row) s b' :
  write_chunk sink b t p n l = (Ok s, b') ->
  exists o, prepare sink t p l = Ok o /\ s = o_checksum o.
Proof.
  unfold write_chunk. destruct (prepare _ _ _ _) as [o|e]; [|done].
  destruct (if exists_ _ _ then _ else _) as [[[]|e] b1]; [|done].
  destruct (put _ _ b1) as [[[]|e] b2]; [|done]. intros [= <- <-]. by exists o.
Qed.

Lemma verify_reads b t p n s :
  verify_chunk sink b t p n s = Ok true ->
  exists spec bytes, table_spec sink t = Ok spec /\ validate_ident p = Ok tt /\
    objects b !! chunk_key sink t p n = Some bytes /\ sha256_hex bytes = s.
Proof.
  unfold verify_chunk. intros H. apply rbind_ok in H as (spec & Hs & H). apply rbind_ok in H as ([] & Hp & H).
  apply rbind_ok in H as (bytes & Hb & H). unfold get in Hb.
  destruct (objects b !! chunk_key sink t p n) as [x|] eqn:Hx; [|done]. injection Hb as ->.
  destruct (String.eqb_spec (sha256_hex bytes) s); [|done]. by exists spec, bytes.
Qed.

(** ** The contract of the cold layer *)

Definition digest_of (t : string) (l : list Row) : string :=
  match table_spec sink t with Ok spec => sha256_hex (ndjson_of (s3_id_col spec) l) | Err _ => "" end.

Definition stored (b : Bucket) (t p : string) (n : Z) (l : list Row) : Prop :=
  exists spec bytes, table_spec sink t = Ok spec /\ validate_ident p = Ok tt /\ objects b !! chunk_key sink t p n = Some bytes /\
    sha256_hex bytes = sha256_hex (ndjson_of (s3_id_col spec) l).

Lemma write_digest_of b t p n (l : list Row) s b' :
  write_chunk sink b t p n l = (Ok s, b') -> s = digest_of t l.
Proof.
  intros (o & Ho & ->)%write_ok. apply prepare_ok in Ho as (spec & Hs & _ & Ho).
  unfold digest_of. rewrite Hs. by apply build_chunk_ok in Ho as (_ & -> & _).
Qed.

Lemma stored_stays b t p n (l : list Row) r b' t' p' n' (l' : list Row) :
  write_chunk sink b t p n l = (r, b') -> stored b t' p' n' l' -> stored b' t' p' n' l'.
Proof.
  intros H (spec & bytes & Hs & Hp & Hb & Hd). exists spec, bytes. split_and!; [done|done| |done].
  by eapply chunk_stays.
Qed.

Lemma verified_stored b t p n (l : list Row) :
  verify_chunk sink b t p n (digest_of t l) = Ok true -> stored b t p n l.
Proof.
  intros (spec & bytes & Hs & Hp & Hb & Hd)%verify_reads. exists spec, bytes. unfold digest_of in Hd.
  rewrite Hs in Hd. by split_and!.
Qed.

End Sink.

#[export] Instance s3_law `{CD : S3Codec} (sink : Sink) : ColdLaw Bucket (CS:=s3_cold_sink sink).
Proof.
  refine {| digest := digest_of sink; holds := stored sink |}.
  - intros b t p n l s b'. apply write_digest_of.
  - intros b t p n l r b' t' p' n' l' H _. exact (stored_stays sink b t p n l r b' t' p' n' l' H).
  - intros b t p n l. apply verified_stored.
Defined.

End S3Facts.

Module S3Spec.
Import TierConfig S3 S3Facts.

Section Theorems.
Context `{CD : S3Codec} (sink : Sink).

(** The JSON of a row is one line of UTF-8 from which its id is read back. *)
Definition row_ok (id_col : string) (r : Row) : Prop :=
  (exists o, parse_json (row_text r) = Ok (VObject o) /\ member o id_col = (r : gmap string Value) !! id_col) /\
  utf8 (row_text r) = true /\ plain (row_text r) = true /\ String.eqb (row_text r) "" = false.

Definition sampled (r : f64) : Prop := SFltb f64_zero r = true.

Lemma parse_lines_total id_col (l : list (Z * string)) :
  Forall (fun kl => exists v, parse_json kl.2 = Ok v /\ value_get v id_col ≫= json_i64 = Some kl.1) l ->
  parse_lines id_col (map snd l) = Ok l.
Proof.
  induction 1 as [|[i line] l (v & Hv & Hi) Hl IH]; [done|]. cbn [map parse_lines snd fst] in *.
  rewrite Hv. cbn [map_err rbind]. rewrite Hi. cbn [ok_or rbind]. rewrite IH. done.
Qed.

(** Reading back what was written. *)
Lemma parse_ndjson id_col (l : list Row) :
  Forall (row_ok id_col) l -> Forall (fun r => is_Some (row_id id_col r)) l ->
  parse_keyed_lines (ndjson_of id_col l) id_col = Ok (sort_by key_le (keyed_total id_col l)).
Proof.
  intros Hok Hid. set (k := sort_by key_le (keyed_total id_col l)).
  assert (Hk : forall i line, (i, line) ∈ k -> exists r, r ∈ l /\ line = row_text r /\ row_id id_col r = Some i).
  { intros i line Hin. unfold k in Hin. rewrite sort_by_perm in Hin.
    apply list_elem_of_fmap in Hin as (r & Heq & Hr). injection Heq as -> ->. exists r. split; [done|]. split; [done|].
    rewrite Forall_forall in Hid. by destruct (Hid r Hr) as [i ->]. }
  assert (Hline : forall line, line ∈ map snd k ->
            utf8 line = true /\ plain line = true /\ String.eqb line "" = false).
  { intros line ([i x] & -> & (r & Hr & -> & _)%Hk)%list_elem_of_fmap. rewrite Forall_forall in Hok. by destruct (Hok r Hr). }
  unfold parse_keyed_lines, ndjson_of. fold k.
  rewrite utf8_join by (apply Forall_forall; intros; by apply Hline). cbn [negb].
  rewrite lines_join by (apply Forall_forall; intros; by apply Hline).
  rewrite filter_forallb.
  2: { apply forallb_forall. intros x Hx. apply list_elem_of_In in Hx. by destruct (Hline x Hx) as (_ & _ & ->). }
  rewrite parse_lines_total; [cbn [rbind]; f_equal; apply sort_by_sorted_id, key_le_sorted|].
  apply Forall_forall. intros [i line] (r & Hr & -> & Hi)%Hk. rewrite Forall_forall in Hok.
  destruct (Hok r Hr) as [(o & Ho & Hm) _]. exists (VObject o). split; [done|]. simpl. by rewrite Hm.
Qed.

Lemma sample_step_pos r : 1 <= sample_step r.
Proof. unfold sample_step. destruct (ceil _) as [z|]; [|lia]. destruct (Z.leb_spec 1 z); unfold u64_max; lia. Qed.

Lemma put_ok key data b : put_faults b (puts b) = None -> put key data b = (Ok tt, store b (<[key := data]> (objects b))).
Proof. unfold put. by intros ->. Qed.

(** A chunk that is written for the first time, without a fault, verifies under the
    checksum the write returned, whether samples are read back or not. *)
Theorem written_chunk_verifies b t p n (l : list Row) spec o :
  (forall m, manifest_parse (manifest_text m) = Ok m) ->
  match sample sink with Some r => sampled r | None => True end ->
  table_spec sink t = Ok spec -> Forall (row_ok (s3_id_col spec)) l ->
  prepare sink t p l = Ok o -> objects b !! chunk_key sink t p n = None ->
  put_faults b (puts b) = None -> put_faults b (S (puts b)) = None ->
  exists b', write_chunk sink b t p n l = (Ok (o_checksum o), b') /\
    verify_chunk sink b' t p n (o_checksum o) = Ok true.
Proof.
  intros Hm Hs Hspec Hok Hp Hfree Hf1 Hf2. pose proof Hp as (spec' & Hspec' & Hpart & Hb)%prepare_ok.
  rewrite Hspec in Hspec'. injection Hspec' as <-. pose proof Hb as (Hnd & Hsum & Hrows & Hids)%build_chunk_ok.
  unfold write_chunk, exists_. rewrite Hp, bool_decide_false by (rewrite Hfree; by intros []).
  rewrite put_ok by done. rewrite put_ok by done. eexists. split; [reflexivity|].
  assert (Hk : chunk_key sink t p n <> manifest_key sink t p n) by apply keys_differ.
  unfold verify_chunk. rewrite Hspec. cbn [rbind]. rewrite Hpart. cbn [rbind]. unfold get, store. cbn [objects].
  rewrite lookup_insert_ne, lookup_insert_eq by done. cbn [ok_or rbind].
  rewrite Hnd, Hsum, String.eqb_refl. cbn [negb]. destruct (sample sink) as [rate|] eqn:Hrate; [|done].
  unfold verify_sample, exists_, get. cbn [objects]. rewrite lookup_insert_eq. cbn [ok_or rbind].
  rewrite bool_decide_true by by eexists. cbn [negb]. rewrite Hm. cbn [map_err rbind].
  unfold build_chunk in Hb. destruct l as [|r0 l0] eqn:Hl; [done|]. rewrite <- Hl in *. clear Hl.
  destruct (keyed _ l) as [k|] eqn:Hkeyed; [|done]. apply keyed_ok in Hkeyed as [-> _]. cbn [rbind] in Hb.
  rewrite Hs in Hb. injection Hb as Ho.
  assert (Hfit : manifest_fits (manifest_of t p n o) t p n (sha256_hex (ndjson_of (s3_id_col spec) l))
                   (ndjson_of (s3_id_col spec) l) = true).
  { unfold manifest_fits, manifest_of. cbn. rewrite !String.eqb_refl, Z.eqb_refl, Hsum, String.eqb_refl, Hnd, Z.eqb_refl.
    rewrite <- Ho. cbn. pose proof (sample_step_pos rate). by replace (sample_step rate =? 0) with false by lia. }
  rewrite Hfit. cbn [negb]. rewrite parse_ndjson by done. cbn [rbind].
  replace (Z.of_nat (length (sort_by key_le _)) =? _) with true.
  2: { symmetry. apply Z.eqb_eq. unfold manifest_of. cbn. rewrite Hrows. f_equal. rewrite sort_by_perm.
       unfold keyed_total. by rewrite length_map. }
  cbn [negb]. rewrite <- Ho. unfold manifest_of. cbn. by rewrite Z.eqb_refl, String.eqb_refl.
Qed.

(** A chunk object is never changed, whatever is written later. *)
Definition written (b b' : Bucket) : Prop :=
  exists t p n (l : list Row) r, write_chunk sink b t p n l = (r, b').

Lemma chunk_object_stays b b' t p n x :
  rtc written b b' -> objects b !! chunk_key sink t p n = Some x -> objects b' !! chunk_key sink t p n = Some x.
Proof.
  induction 1 as [b|b b1 b2 (t0 & p0 & n0 & l & r & Hw) Hr IH]; [done|]. intros Hx. apply IH.
  by eapply chunk_stays.
Qed.

(** A chunk that is copied again with other rows can no longer be verified: the object
    keeps the first copy, the write returns the checksum of the second, and no later
    write mends it. *)
Theorem recopied_chunk_never_verifies b t p n (l : list Row) sum b1 b2 bytes :
  objects b !! chunk_key sink t p n = Some bytes ->
  write_chunk sink b t p n l = (Ok sum, b1) -> sha256_hex bytes <> sum -> rtc written b1 b2 ->
  verify_chunk sink b2 t p n sum = Ok false.
Proof.
  intros Hb Hw Hne Hr. pose proof (chunk_stays _ _ _ _ _ _ _ _ _ _ _ _ Hw Hb) as Hb1.
  pose proof (chunk_object_stays _ _ _ _ _ _ Hr Hb1) as Hb2.
  apply write_ok in Hw as (o & Ho & ->). apply prepare_ok in Ho as (spec & Hs & Hp & _).
  unfold verify_chunk. rewrite Hs. cbn [rbind]. rewrite Hp. cbn [rbind]. unfold get. rewrite Hb2. cbn [ok_or rbind].
  apply String.eqb_neq in Hne. by rewrite Hne.
Qed.

End Theorems.

Section Archive.
Context `{CD : S3Codec} {ST : Archive.SqlTerms} {L : Type} `{LK : !Archive.Lock L} (sink : Sink).

#[local] Existing Instance s3_cold_sink.

Local Abbreviation world := (Archive.world (C:=Bucket) (L:=L)).

(** The sink without sampling. *)
Definition unsampled : Sink :=
  {| bucket := bucket sink; prefix := prefix sink; s3_tables := s3_tables sink; sample := None |}.

(** C21. The job on the object store: through any number of runs that fail or die, a row of a
    partition is still in the hot table, or a chunk of the partition is verified or dropped
    in the table of states, its object is in the bucket, the checksum of the state is the
    SHA-256 of the object, so that the chunk still verifies (without samples; nothing is
    said of the manifest), and the object is the NDJSON of rows with this row - or is
    another text with the same SHA-256, which the theorem cannot exclude.  As for the job
    itself, rows may arrive meanwhile only as [punctual] says: not in a partition with a
    chunk that is only seeded, nor between the count of a partition and its drop; and rows
    of the hot table are not changed or deleted by others. *)
Theorem archive_to_s3_loses_no_row c (w0 w w' : world) t p m k r :
  let run := TieringRuns.attempt (CS:=s3_cold_sink sink) c in
  NoDup (map name (tables c)) -> TieringRuns.fresh c w0 -> TieringInv.punctual (Archive.env w0) ->
  rtc run w0 w -> rtc run w w' ->
  t ∈ tables c -> Archive.hot w !! (name t, p) = Some m -> m !! k = Some r ->
  (exists m', Archive.hot w' !! (name t, p) = Some m' /\ m' !! k = Some r) \/
  exists n j (l : list Row) spec bytes,
    r ∈ l /\ table_spec sink (name t) = Ok spec /\
    Archive.jobs w' !! (name t, p, n) = Some j /\ TieringInv.settled j /\
    objects (Archive.cold w') !! chunk_key sink (name t) p n = Some bytes /\
    TierState.r_checksum j = Some (sha256_hex bytes) /\
    verify_chunk unsampled (Archive.cold w') (name t) p n (sha256_hex bytes) = Ok true /\
    (bytes = ndjson_of (s3_id_col spec) l \/
     bytes <> ndjson_of (s3_id_col spec) l /\ sha256_hex bytes = sha256_hex (ndjson_of (s3_id_col spec) l)).
Proof.
  cbv zeta. intros Hn Hf Hpu H0 H1 Ht Hm Hr.
  destruct (TieringRuns.no_row_lost (CS:=s3_cold_sink sink) (CL:=s3_law sink) c w0 w w' t p m k r Hn Hf Hpu H0 H1 Ht Hm Hr)
    as [Hl|(n & j & l & Hj & Hset & Hsum & (spec & bytes & Hs & Hp & Hb & Hd) & Hin)]; [by left|]. right.
  exists n, j, l, spec, bytes. unfold digest, s3_law, digest_of in Hsum. rewrite Hs, <- Hd in Hsum.
  split_and!; [done..| |].
  { unfold verify_chunk. change (table_spec unsampled (name t)) with (table_spec sink (name t)). rewrite Hs, Hp. cbn [rbind].
    unfold get. change (chunk_key unsampled (name t) p n) with (chunk_key sink (name t) p n). rewrite Hb. cbn [ok_or rbind].
    by rewrite String.eqb_refl. }
  destruct (decide (bytes = ndjson_of (s3_id_col spec) l)); [by left|by right].
Qed.

End Archive.
End S3Spec.

(** ** A concrete codec

    Rows are a number; SHA-256 is replaced by the text itself; a manifest is its encoding
    in binary. *)

Module S3Demo.
Import TierConfig S3 S3Facts S3Spec TieringDemo.

Definition row_number (r : Row) : Z := default 0 ((r : gmap string Value) !! "id" ≫= as_i64).

Fixpoint bits (p : positive) : string :=
  match p with xH => EmptyString | xO p => String "0" (bits p) | xI p => String "1" (bits p) end.
Fixpoint unbits (s : string) : positive :=
  match s with
  | EmptyString => xH
  | String c s => if Ascii.eqb c "1"%char then xI (unbits s) else xO (unbits s)
  end.

Lemma unbits_bits p : unbits (bits p) = p.
Proof. induction p as [p IH|p IH|]; cbn [bits unbits]; rewrite ?IH; done. Qed.

Definition fields (m : Manifest) :=
  (m_table m, m_partition m, m_chunk m, m_checksum m, m_bytes m, m_rows m, m_sample_step m,
   m_sample_checksum m, m_sample_rows m).

Definition manifest_of_fields (f : string * string * Z * string * Z * Z * Z * string * Z) : Manifest :=
  let '(a, b, c, d, e, f, g, h, i) := f in
  {| m_table := a; m_partition := b; m_chunk := c; m_checksum := d; m_bytes := e; m_rows := f;
     m_sample_step := g; m_sample_checksum := h; m_sample_rows := i |}.

#[export] Instance demo_codec : S3Codec := {
  sha256_hex s := s;
  row_text r := dec_text (row_number r);
  parse_json s := match parse_uint 63 s with
                  | Some n => Ok (VObject [("id", @VNumber demo_number n)])
                  | None => Err "bad"
                  end;
  manifest_text m := bits (countable.encode (fields m));
  manifest_parse s := ok_or (manifest_of_fields <$> countable.decode (unbits s)) "bad manifest";
}.

Lemma demo_manifest m : manifest_parse (manifest_text m) = Ok m.
Proof. simpl. rewrite unbits_bits, countable.decode_encode. by destruct m. Qed.

Definition half : f64 := f64_div f64_one (f64_of_u64 2).

Definition demo_sink (rate : option f64) : Sink :=
  {| bucket := "archive"; prefix := "cold/"; s3_tables := [{| s3_name := "orders"; s3_id_col := "id" |}];
     sample := rate |}.

Definition empty_bucket : Bucket := {| objects := ∅; puts := 0; put_faults := fun _ => None |}.

Definition demo_rows : list Row := map demo_row [4; 7; 2].

Definition demo_object : ChunkObject :=
  match prepare (demo_sink (Some half)) "orders" "p202501" demo_rows with
  | Ok o => o
  | Err _ => {| ndjson_ := ""; o_checksum := ""; o_rows := 0; o_sample_step := 0; o_sample_checksum := "";
                o_sample_rows := 0 |}
  end.

Lemma demo_row_number i : in_i64 i -> row_number (demo_row i) = i.
Proof.
  unfold in_i64, row_number, demo_row. intros Hi. rewrite lookup_singleton_eq. simpl.
  replace (- 2 ^ 63 <=? i) with true by lia. by replace (i <? 2 ^ 63) with true by lia.
Qed.

Lemma demo_row_ok i :
  0 <= i < 2 ^ 63 -> utf8 (dec_text i) && plain (dec_text i) && negb (String.eqb (dec_text i) "") = true ->
  row_ok "id" (demo_row i).
Proof.
  intros Hi [[Hu Hp]%andb_prop He%negb_true_iff]%andb_prop. unfold row_ok.
  change (row_text (demo_row i)) with (dec_text (row_number (demo_row i))).
  rewrite demo_row_number by (unfold in_i64; lia). split_and!; [|done..].
  exists [("id", @VNumber demo_number i)]. split; [|unfold demo_row; by rewrite lookup_singleton_eq].
  unfold parse_json, demo_codec. by rewrite parse_dec_text.
Qed.

Lemma written_chunk_verifies_witness :
  exists b', write_chunk (demo_sink (Some half)) empty_bucket "orders" "p202501" 0 demo_rows
               = (Ok (o_checksum demo_object), b') /\
    verify_chunk (demo_sink (Some half)) b' "orders" "p202501" 0 (o_checksum demo_object) = Ok true.
Proof.
  apply (written_chunk_verifies (demo_sink (Some half)) empty_bucket "orders" "p202501" 0 demo_rows
           {| s3_name := "orders"; s3_id_col := "id" |} demo_object).
  - apply demo_manifest.
  - reflexivity.
  - reflexivity.
  - repeat constructor; apply demo_row_ok; [lia|reflexivity|lia|reflexivity|lia|reflexivity].
  - vm_compute. reflexivity.
  - reflexivity.
  - reflexivity.
  - reflexivity.
Defined.

(** Row 9 arrived between two copies of the chunk. *)
Definition once : Bucket := (write_chunk (demo_sink None) empty_bucket "orders" "p202501" 0 demo_rows).2.
Definition twice : result string TieringError * Bucket :=
  write_chunk (demo_sink None) once "orders" "p202501" 0 (demo_rows ++ [demo_row 9]).
Definition second_sum : string := match twice.1 with Ok s => s | Err _ => "" end.
Definition first_bytes : string :=
  default "" (objects once !! chunk_key (demo_sink None) "orders" "p202501" 0).

Lemma recopied_chunk_never_verifies_witness :
  twice.1 = Ok second_sum /\ verify_chunk (demo_sink None) twice.2 "orders" "p202501" 0 second_sum = Ok false.
Proof.
  split; [vm_compute; reflexivity|].
  apply (recopied_chunk_never_verifies (demo_sink None) once "orders" "p202501" 0 (demo_rows ++ [demo_row 9])
           second_sum twice.2 twice.2 first_bytes).
  - vm_compute. reflexivity.
  - change twice with (twice.1, twice.2). vm_compute. reflexivity.
  - vm_compute. discriminate.
  - apply rtc_refl.
Defined.

(** One run of the job into the bucket. *)
Definition demo_job : Archive.world (C:=Bucket) (L:=unit) := demo_world_with empty_bucket polite [1; 5; 7].
Definition demo_done : Archive.world (C:=Bucket) (L:=unit) :=
  the_world (Archive.run_once (CS:=s3_cold_sink (demo_sink None)) 100 1000 (demo_config false)
               {| the_world := demo_job; left_ := None |}).2.

Definition dropped : bool :=
  bool_decide (is_Some (Archive.hot demo_done !! ("orders", "p202501"))).

Lemma archive_to_s3_loses_no_row_witness :
  dropped = false /\
  exists n (l : list Row) bytes, demo_row 5 ∈ l /\
    verify_chunk (unsampled (demo_sink None)) (Archive.cold demo_done) "orders" "p202501" n (sha256_hex bytes) = Ok true /\
    objects (Archive.cold demo_done) !! chunk_key (demo_sink None) "orders" "p202501" n = Some bytes /\
    bytes = ndjson_of "id" l.
Proof.
  assert (Hd : dropped = false) by (vm_compute; reflexivity). split; [exact Hd|].
  destruct (archive_to_s3_loses_no_row (demo_sink None) (demo_config false) demo_job demo_job demo_done orders
              "p202501" (rows_of [1; 5; 7]) 5 (demo_row 5)) as [(m & Hm & _)|(n & j & l & spec & bytes & Hl & Hs & _ & _ & Hb & _ & Hv & He)].
  - apply NoDup_singleton.
  - apply TieringSpec.demo_world_fresh; [|repeat constructor; done]. intros i st js. unfold polite.
    repeat case_match; repeat constructor; done.
  - apply TieringSpec.polite_punctual.
  - apply rtc_refl.
  - eapply rtc_l; [|apply rtc_refl]. exists 100%nat, 1000, None. by do 2 eexists; split; [apply surjective_pairing|].
  - by left.
  - reflexivity.
  - reflexivity.
  - exfalso. unfold dropped in Hd. apply bool_decide_eq_false in Hd. apply Hd. by exists m.
  - exists n, l, bytes. split; [exact Hl|]. split; [exact Hv|]. split; [exact Hb|]. injection Hs as <-.
    destruct He as [He|[Hne He]]; [exact He|]. by contradict Hne.
Defined.

End S3Demo.
