(* ===== verification/TierSql.v ===== *)
(** * SQL text of the cold layer ([ecat-data-tiering])

    [src/ecat-data-tiering/src/sink/mod.rs] (literals) and
    [query/clickhouse.rs] (the fixed shape of the range query).

    A literal is read back by the lexer of the server, [lex_string]: between single
    quotes, a backslash takes the next character as it is. *)

From Stdlib Require Import Ascii.
From S2P Require Import Prelude Json Text TierConfig.

Local Open Scope ecat_scope.

Module TierSql.
Import TierConfig.

Definition quote : ascii := "'"%char.
Definition backslash : ascii := "\"%char.

Fixpoint escape (s : string) : string :=
  match s with
  | EmptyString => EmptyString
  | String c s =>
      if Ascii.eqb c backslash || Ascii.eqb c quote then String backslash (String c (escape s))
      else String c (escape s)
  end.

Definition sql_string (s : string) : string := String quote (escape s +:+ String quote EmptyString).

Section Render.
Context `{JT : JsonText}.

(** [serde_json::to_string] of an array or object is its text. *)
Definition render_sql_value (v : Value) : string :=
  match v with
  | VNull => "NULL"
  | VBool b => if b then "true" else "false"
  | VNumber n => number_text n
  | VString s => sql_string s
  | VArray _ | VObject _ => sql_string (value_text v)
  end.

Definition build_range_sql (table time_col id_col from to : string) (limit offset : Z)
    : result string TieringError :=
  let? _ := validate_ident table in
  let? _ := validate_ident time_col in
  let? _ := validate_ident id_col in
  Ok ("SELECT * FROM " +:+ table +:+ " WHERE " +:+ time_col +:+ " >= "
      +:+ render_sql_value (VString from) +:+ " AND " +:+ time_col +:+ " < "
      +:+ render_sql_value (VString to) +:+ " ORDER BY " +:+ id_col +:+ " ASC LIMIT "
      +:+ dec_text limit +:+ " OFFSET " +:+ dec_text offset).

End Render.

(** *** The server's side *)

(** The characters after the opening quote, up to the closing one. *)
Fixpoint lex_body (s : string) : option (string * string) :=
  match s with
  | EmptyString => None
  | String c s' =>
      if Ascii.eqb c quote then Some (EmptyString, s')
      else if Ascii.eqb c backslash then
        match s' with
        | EmptyString => None
        | String d s'' =>
            match lex_body s'' with Some (v, rest) => Some (String d v, rest) | None => None end
        end
      else match lex_body s' with Some (v, rest) => Some (String c v, rest) | None => None end
  end.

Definition lex_string (s : string) : option (string * string) :=
  match s with
  | String c s' => if Ascii.eqb c quote then lex_body s' else None
  | EmptyString => None
  end.

(** [s] and what follows the quotes come back, whatever [s] is made of: a value cannot
    leave its literal. *)
Theorem sql_string_roundtrip s rest : lex_string (sql_string s +:+ rest) = Some (s, rest).
Proof.
  change (lex_body ((escape s +:+ String quote EmptyString) +:+ rest) = Some (s, rest)).
  induction s as [|c s IH]; [reflexivity|]. cbn [escape].
  destruct (Ascii.eqb_spec c backslash) as [->|Hb]; [|destruct (Ascii.eqb_spec c quote) as [->|Hq]]; cbn [orb].
  - change (match lex_body ((escape s +:+ String quote EmptyString) +:+ rest) with
            | Some (v, rest) => Some (String backslash v, rest) | None => None end
            = Some (String backslash s, rest)). by rewrite IH.
  - change (match lex_body ((escape s +:+ String quote EmptyString) +:+ rest) with
            | Some (v, rest) => Some (String quote v, rest) | None => None end
            = Some (String quote s, rest)). by rewrite IH.
  - change (lex_body (String c ((escape s +:+ String quote EmptyString) +:+ rest)) = Some (String c s, rest)).
    cbn [lex_body]. rewrite IH.
    destruct (Ascii.eqb_spec c quote); [done|]. by destruct (Ascii.eqb_spec c backslash).
Qed.

End TierSql.
