(* ===== verification/TierQuery.v ===== *)
(** * Queries across the tier boundary ([ecat-data-tiering])

    [src/ecat-data-tiering/src/query.rs]: splitting a time range at [hot_days], merging
    the two sides by primary key and paging; [query/clickhouse.rs]: the cold side on
    ClickHouse.

    The hot table is its rows; a statement selects among them.  The cold side is a
    trait object, a function of its arguments. *)

From S2P Require Import Prelude Dialect Clock Json Text TierConfig TierSql Tiering.

Local Open Scope Z_scope.
Local Open Scope ecat_scope.

Module TierQuery.
Import TierConfig.

Section Query.
Context `{JT : JsonText} {ST : Archive.SqlTerms}.

Record TieredTable := { tt_name : string; tt_time_col : string; tt_id_col : string; tt_hot_days : Z }.

(** [ColdQuery::query_range]. *)
Definition ColdQuery : Type :=
  string -> Z -> Z -> list Value -> Z -> Z -> result (list Row) TieringError.

Record TieredQuery := {
  hot_dialect : Dialect;
  hot_rows_of : string -> list Row;
  cold_query : ColdQuery;
  tables_ : list TieredTable;
}.

(** *** Primary keys *)

Definition type_rank (v : Value) : Z :=
  match v with
  | VNumber _ => 0 | VString _ => 1 | VBool _ => 2 | VNull => 3 | VArray _ => 4 | VObject _ => 5
  end.

(** [Option<f64>::partial_cmp] with incomparable values taken as equal. *)
Definition compare_f64 (a b : option f64) : comparison :=
  match a, b with
  | Some x, Some y => match SFcompare x y with Some o => o | None => Eq end
  | None, None => Eq
  | None, Some _ => Lt
  | Some _, None => Gt
  end.

Definition cmp_pk (a b : Value) : comparison :=
  match a, b with
  | VNumber x, VNumber y =>
      match number_as_i64 x, number_as_i64 y with
      | Some i, Some j => i ?= j
      | _, _ => compare_f64 (number_as_f64 x) (number_as_f64 y)
      end
  | VString x, VString y => String.compare x y
  | _, _ => match type_rank a ?= type_rank b with
            | Eq => String.compare (value_text a) (value_text b)
            | o => o
            end
  end.

(** *** Merging *)

Definition keyed : Type := Value * Row.

Definition keyed_row (t : TieredTable) (r : Row) : result keyed TieringError :=
  match (r : gmap string Value) !! tt_id_col t with
  | None => Err (State ("row has no `" +:+ tt_id_col t +:+ "` column"))
  | Some v => if is_null v
              then Err (State ("row has a NULL `" +:+ tt_id_col t +:+ "` primary key"))
              else Ok (v, r)
  end.

Fixpoint keyed_rows (t : TieredTable) (l : list Row) : result (list keyed) TieringError :=
  match l with
  | [] => Ok []
  | r :: l => let? k := keyed_row t r in let? rest := keyed_rows t l in Ok (k :: rest)
  end.

Definition keyed_le (a b : keyed) : bool := match cmp_pk a.1 b.1 with Gt => false | _ => true end.

(** [Vec::dedup_by]: an element equal to the last one kept is removed. *)
Fixpoint dedup_from {A} (same : A -> A -> bool) (kept : A) (l : list A) : list A :=
  match l with
  | [] => []
  | x :: l => if same x kept then dedup_from same kept l else x :: dedup_from same x l
  end.

Definition dedup_by {A} (same : A -> A -> bool) (l : list A) : list A :=
  match l with [] => [] | x :: l => x :: dedup_from same x l end.

Definition same_pk (a b : keyed) : bool := match cmp_pk a.1 b.1 with Eq => true | _ => false end.

Definition sort_dedupe_paginate (t : TieredTable) (l : list Row) (limit offset : Z)
    : result (list Row) TieringError :=
  let? k := keyed_rows t l in
  Ok (map snd (take (Z.to_nat limit)
        (drop (Z.to_nat offset) (dedup_by same_pk (sort_by keyed_le k))))).

(** *** The hot side *)

Definition as_i64_arg (n : Z) (what : string) : result Z TieringError :=
  if n <? 2 ^ 63 then Ok n else Err (Config (what +:+ " out of range: " +:+ dec_text n)).

(** [ORDER BY id]. *)
Definition row_key (t : TieredTable) (r : Row) : Value :=
  match (r : gmap string Value) !! tt_id_col t with Some v => v | None => VNull end.

Definition row_le (t : TieredTable) (a b : Row) : bool :=
  match cmp_pk (row_key t a) (row_key t b) with Gt => false | _ => true end.

(** The rows of a time range; both ends are written down to the second. *)
Definition in_range (t : TieredTable) (from to : Z) (r : Row) : bool :=
  let ts := Archive.instant_of (tt_time_col t) r in
  (floor_second from <=? ts) && (ts <=? floor_second to).

Definition hot_part (q : TieredQuery) (t : TieredTable) (from to : Z) : list Row :=
  sort_by (row_le t) (List.filter (in_range t from to) (hot_rows_of q (tt_name t))).

Definition hot_range (q : TieredQuery) (t : TieredTable) (from to limit offset : Z)
    : result (list Row) TieringError :=
  let? l := as_i64_arg limit "limit" in
  let? o := as_i64_arg offset "offset" in
  Ok (take (Z.to_nat l) (drop (Z.to_nat o) (hot_part q t from to))).

(** *** The query *)

Definition cold_only (table : string) : TieringError :=
  Config ("params are cold-side only; the hot side cannot apply them (table `" +:+ table +:+ "`)").

(** [None] is the panic of the clock arithmetic. *)
Definition query_range (q : TieredQuery) (now : Z) (table : string) (from to : Z)
    (params : list Value) (limit offset : Z) : option (result (list Row) TieringError) :=
  if decide (hot_dialect q <> MySql) then Some (Err UnsupportedDialect)
  else
    match List.find (fun t => String.eqb (tt_name t) table) (tables_ q) with
    | None => Some (Err (Config ("unknown tiered table `" +:+ table +:+ "`")))
    | Some t =>
        match (let? _ := validate_ident (tt_name t) in
               let? _ := validate_ident (tt_time_col t) in validate_ident (tt_id_col t)) with
        | Err e => Some (Err e)
        | Ok _ =>
            match checked_add now (- (tt_hot_days t * day)) with
            | None => None
            | Some boundary =>
                Some (
                if (boundary <=? to) && negb (match params with [] => true | _ => false end)
                then Err (cold_only (tt_name t))
                else if boundary <=? from then hot_range q t from to limit offset
                else if to <? boundary then cold_query q (tt_name t) from to params limit offset
                else
                  let pushdown := Archive.u64_sat_add limit offset in
                  let? hot := hot_range q t boundary to pushdown 0 in
                  let? cold := cold_query q (tt_name t) from boundary params pushdown 0 in
                  sort_dedupe_paginate t (hot ++ cold) limit offset)
            end
        end
    end.

(** *** ClickHouse *)

Record ClickhouseColdQuery := {
  ch_rows : list Row;
  ch_table : string;
  ch_time_col : string;
  ch_id_col : string;
}.

Definition ch_new (rows : list Row) (table time_col id_col : string)
    : result ClickhouseColdQuery TieringError :=
  let? _ := validate_ident table in
  let? _ := validate_ident time_col in
  let? _ := validate_ident id_col in
  Ok {| ch_rows := rows; ch_table := table; ch_time_col := time_col; ch_id_col := id_col |}.

Definition ch_le (c : ClickhouseColdQuery) (a b : Row) : bool :=
  let key r := match (r : gmap string Value) !! ch_id_col c with Some v => v | None => VNull end in
  match cmp_pk (key a) (key b) with Gt => false | _ => true end.

(** What the statement of [build_range_sql] selects: from the first second on, before
    the last. *)
Definition ch_select (c : ClickhouseColdQuery) (from to limit offset : Z) : list Row :=
  take (Z.to_nat limit) (drop (Z.to_nat offset) (sort_by (ch_le c) (List.filter
    (fun r => let ts := Archive.instant_of (ch_time_col c) r in
              (floor_second from <=? ts) && (ts <? floor_second to)) (ch_rows c)))).

(** [fmt] is the text of an instant. *)
Definition ch_query_range (fmt : Z -> string) (c : ClickhouseColdQuery) : ColdQuery :=
  fun table from to params limit offset =>
    if negb (String.eqb table (ch_table c))
    then Err (Config ("ClickHouse cold query is bound to table `" +:+ ch_table c +:+ "`, got `"
                      +:+ table +:+ "`"))
    else if negb (match params with [] => true | _ => false end)
    then Err (Config "ClickHouse cold query does not support bound parameters")
    else
      let? _ := TierSql.build_range_sql (ch_table c) (ch_time_col c) (ch_id_col c)
                  (fmt from) (fmt to) limit offset in
      Ok (ch_select c from to limit offset).

End Query.
End TierQuery.
