(* ===== verification/TierQuerySpec.v ===== *)
(** * What a tiered query returns

    Across the boundary: the page of the two sides merged by key, although each side is
    only asked for a prefix.  And the rows it cannot see. *)

From S2P Require Import Prelude Dialect Clock Json Text ShardCatalog TierConfig TierSql Tiering TierQuery.

Local Open Scope Z_scope.
Local Open Scope ecat_scope.

(** ** Merging prefixes *)

Module PushDown.
Import TierQuery.

Section PushDown.
Context {A : Type} (key : A -> Z).

Definition key_le (a b : A) : bool := key a <=? key b.
Definition key_eq (a b : A) : bool := key a =? key b.
Definition ascending (l : list A) : Prop := StronglySorted (fun a b => key a < key b) l.

(** The merge of two ascending lists; the left one wins. *)
Fixpoint union (h : list A) : list A -> list A :=
  fix union_r (c : list A) : list A :=
    match h, c with
    | [], _ => c
    | _, [] => h
    | x :: h', y :: c' =>
        if key x <? key y then x :: union h' c
        else if key x =? key y then x :: union h' c'
        else y :: union_r c'
    end.

Lemma union_nil_l c : union [] c = c.
Proof. by destruct c. Qed.

Lemma union_nil_r h : union h [] = h.
Proof. by destruct h. Qed.

Lemma union_cons x h y c :
  union (x :: h) (y :: c) =
    if key x <? key y then x :: union h (y :: c)
    else if key x =? key y then x :: union h c
    else y :: union (x :: h) c.
Proof. reflexivity. Qed.

(** Prefixes of length [n] decide the first [n] elements. *)
Lemma union_take n a b h c :
  (n <= a)%nat -> (n <= b)%nat -> take n (union (take a h) (take b c)) = take n (union h c).
Proof.
  revert a b h c. induction n as [|n IH]; intros a b h c Ha Hb; [done|].
  destruct a as [|a], b as [|b]; try lia. destruct h as [|x h].
  - rewrite take_nil, !union_nil_l, take_take. f_equal. lia.
  - destruct c as [|y c]; [rewrite take_nil, !union_nil_r, take_take; f_equal; lia|].
    cbn [take]. rewrite !union_cons.
    destruct (key x <? key y); [|destruct (key x =? key y)]; cbn [take]; f_equal.
    + specialize (IH a (S b) h (y :: c)). cbn [take] in IH. apply IH; lia.
    + apply IH; lia.
    + specialize (IH (S a) b (x :: h) c). cbn [take] in IH. apply IH; lia.
Qed.

Lemma ascending_cons x l : ascending (x :: l) -> ascending l /\ forall y, y ∈ l -> key x < key y.
Proof. intros H. apply StronglySorted_inv in H as [H Hx]. split; [done|]. by apply Forall_forall. Qed.

(** Every key of the two sides once, the left row where both have it. *)
Lemma union_spec h c :
  ascending h -> ascending c ->
  ascending (union h c) /\
  (forall r, r ∈ union h c <-> r ∈ h \/ (r ∈ c /\ forall x, x ∈ h -> key x <> key r)).
Proof.
  revert c. induction h as [|x h IHh]; intros c Hh Hc.
  { rewrite union_nil_l. split; [done|]. set_solver. }
  induction c as [|y c IHc].
  { rewrite union_nil_r. split; [done|]. set_solver. }
  rewrite union_cons. pose proof Hh as Hxh. pose proof Hc as Hyc.
  apply ascending_cons in Hxh as [Hh' Hx], Hyc as [Hc' Hy].
  destruct (Z.ltb_spec (key x) (key y)) as [Hlt|Hge].
  - destruct (IHh (y :: c) Hh' Hc) as [Hs Hin]. split.
    + constructor; [done|]. apply Forall_forall. intros z Hz%Hin.
      destruct Hz as [Hz|[Hz _]]; [by apply Hx|]. apply elem_of_cons in Hz as [->|Hz]; [done|].
      specialize (Hy z Hz). lia.
    + intros r. rewrite elem_of_cons, Hin. split.
      * intros [->|[Hr|[Hr Hne]]]; [set_solver|set_solver|]. right. split; [done|].
        intros z [->|Hz]%elem_of_cons; [|auto].
        rewrite elem_of_cons in Hr; destruct Hr as [->|Hr]; [lia|]. specialize (Hy r Hr). lia.
      * set_solver.
  - destruct (Z.eqb_spec (key x) (key y)) as [Heq|Hne].
    + destruct (IHh c Hh' Hc') as [Hs Hin]. split.
      * constructor; [done|]. apply Forall_forall. intros z Hz%Hin.
        destruct Hz as [Hz|[Hz _]]; [by apply Hx|]. specialize (Hy z Hz). lia.
      * intros r. rewrite elem_of_cons, Hin, (elem_of_cons h r x), (elem_of_cons c r y). split.
        -- intros [->|[Hr|[Hr Hd]]]; [set_solver|set_solver|]. right. split; [by right|].
           intros z [->|Hz]%elem_of_cons; [|auto]. specialize (Hy r Hr). lia.
        -- intros [[->|Hr]|[[->|Hr] Hd]]; [by left|right; by left| |].
           ++ exfalso. apply (Hd x); [left|done].
           ++ right. right. split; [done|]. intros z Hz. apply Hd. by right.
    + destruct (IHc Hc') as [Hs Hin]. split.
      * constructor; [done|]. apply Forall_forall. intros z Hz%Hin.
        destruct Hz as [Hz|[Hz _]]; [|by apply Hy]. apply elem_of_cons in Hz as [->|Hz]; [lia|].
        specialize (Hx z Hz). lia.
      * intros r. rewrite elem_of_cons, Hin, (elem_of_cons h r x), (elem_of_cons c r y). split.
        -- intros [->|[Hr|[Hr Hd]]]; [|set_solver|set_solver]. right. split; [by left|].
           intros z [->|Hz]%elem_of_cons; [lia|]. specialize (Hx z Hz). lia.
        -- set_solver.
Qed.

(** *** Sorting and removing duplicates *)

Fixpoint merge (h : list A) : list A -> list A :=
  fix merge_r (c : list A) : list A :=
    match h, c with
    | [], _ => c
    | _, [] => h
    | x :: h', y :: c' => if key x <=? key y then x :: merge h' c else y :: merge_r c'
    end.

Lemma merge_nil_l c : merge [] c = c.
Proof. by destruct c. Qed.

Lemma merge_nil_r h : merge h [] = h.
Proof. by destruct h. Qed.

Lemma merge_cons x h y c :
  merge (x :: h) (y :: c) = if key x <=? key y then x :: merge h (y :: c) else y :: merge (x :: h) c.
Proof. reflexivity. Qed.

Lemma insert_merge x h c :
  (forall z, z ∈ h -> key x < key z) -> ascending c -> insert_sorted key_le x (merge h c) = merge (x :: h) c.
Proof.
  intros Hx. induction c as [|y c IH]; intros Hc.
  - rewrite !merge_nil_r. destruct h as [|z h]; [done|]. simpl. unfold key_le.
    assert (key x < key z) by (apply Hx; left). by replace (key x <=? key z) with true by lia.
  - apply ascending_cons in Hc as [Hc Hy]. rewrite merge_cons. destruct h as [|z h].
    + rewrite merge_nil_l. cbn [insert_sorted]. unfold key_le at 1.
      destruct (key x <=? key y) eqn:Hxy; [done|].
      f_equal. rewrite <- IH by done. by rewrite merge_nil_l.
    + assert (Hz : key x < key z) by (apply Hx; left). rewrite merge_cons.
      destruct (key z <=? key y) eqn:Hzy.
      * replace (key x <=? key y) with true by lia. cbn [insert_sorted]. unfold key_le at 1.
        replace (key x <=? key z) with true by lia. done.
      * cbn [insert_sorted]. unfold key_le at 1. destruct (key x <=? key y) eqn:Hxy.
        -- done.
        -- f_equal. by apply IH.
Qed.

Lemma sort_merge h c : ascending h -> ascending c -> sort_by key_le (h ++ c) = merge h c.
Proof.
  intros Hh Hc. induction h as [|x h IH].
  - rewrite merge_nil_l. cbn [app]. induction c as [|y c IHc]; [done|]. apply ascending_cons in Hc as [Hc Hy].
    change (insert_sorted key_le y (sort_by key_le c) = y :: c). rewrite IHc by done. destruct c as [|z c]; [done|].
    simpl. unfold key_le. assert (key y < key z) by (apply Hy; left).
    by replace (key y <=? key z) with true by lia.
  - apply ascending_cons in Hh as [Hh Hx].
    change (insert_sorted key_le x (sort_by key_le (h ++ c)) = merge (x :: h) c). rewrite IH by done. by apply insert_merge.
Qed.

Lemma dedup_fresh x l : (forall z, head l = Some z -> key z <> key x) -> dedup_from key_eq x l = dedup_by key_eq l.
Proof.
  destruct l as [|z l]; [done|]. intros Hz. simpl. unfold key_eq at 1.
  specialize (Hz z eq_refl). by destruct (Z.eqb_spec (key z) (key x)).
Qed.

Lemma merge_head h c z : head (merge h c) = Some z -> z ∈ h \/ z ∈ c.
Proof.
  destruct h as [|x h], c as [|y c]; [done|rewrite merge_nil_l|rewrite merge_nil_r|rewrite merge_cons];
    simpl; [intros; simplify_eq; set_solver..|]. destruct (_ <=? _); simpl; intros; simplify_eq; set_solver.
Qed.

Lemma ascending_dedup l : ascending l -> dedup_by key_eq l = l.
Proof.
  induction l as [|x l IH]; [done|]. intros Hl. apply ascending_cons in Hl as [Hl Hx]. simpl. f_equal.
  rewrite dedup_fresh; [by apply IH|]. intros z Hz. destruct l; [done|]. simpl in Hz. injection Hz as <-.
  specialize (Hx a (list_elem_of_here _ _)). lia.
Qed.

Lemma dedup_merge h c : ascending h -> ascending c -> dedup_by key_eq (merge h c) = union h c.
Proof.
  revert c. induction h as [|x h IHh]; intros c Hh Hc.
  { rewrite merge_nil_l, union_nil_l. by apply ascending_dedup. }
  induction c as [|y c IHc].
  { rewrite merge_nil_r, union_nil_r. by apply ascending_dedup. }
  rewrite merge_cons, union_cons. pose proof Hh as Hxh. pose proof Hc as Hyc.
  apply ascending_cons in Hxh as [Hh' Hx], Hyc as [Hc' Hy].
  destruct (key x <? key y) eqn:Hlt.
  - replace (key x <=? key y) with true by lia. cbn [dedup_by]. f_equal.
    rewrite dedup_fresh; [by apply IHh|]. intros z Hz. apply merge_head in Hz as [Hz|Hz].
    + specialize (Hx z Hz). lia.
    + apply elem_of_cons in Hz as [->|Hz]; [lia|]. specialize (Hy z Hz). lia.
  - destruct (key x =? key y) eqn:Heq.
    + replace (key x <=? key y) with true by lia. cbn [dedup_by]. f_equal.
      assert (Hm : merge h (y :: c) = y :: merge h c).
      { destruct h as [|z h]; [by rewrite !merge_nil_l|]. rewrite merge_cons.
        specialize (Hx z (list_elem_of_here _ _)). by replace (key z <=? key y) with false by lia. }
      rewrite Hm. cbn [dedup_from]. unfold key_eq at 1. replace (key y =? key x) with true by lia.
      rewrite dedup_fresh; [by apply IHh|]. intros z Hz. apply merge_head in Hz as [Hz|Hz].
      * specialize (Hx z Hz). lia.
      * specialize (Hy z Hz). lia.
    + replace (key x <=? key y) with false by lia. cbn [dedup_by]. f_equal.
      rewrite dedup_fresh; [by apply IHc|]. intros z Hz. apply merge_head in Hz as [Hz|Hz].
      * apply elem_of_cons in Hz as [->|Hz]; [lia|]. specialize (Hx z Hz). lia.
      * specialize (Hy z Hz). lia.
Qed.

Lemma ascending_keys l : StronglySorted Z.lt (map key l) -> ascending l.
Proof.
  induction l as [|x l IH]; [constructor|]. intros Hs. apply StronglySorted_inv in Hs as [Hs Hx].
  constructor; [by apply IH|]. clear -Hx. induction l as [|y l IH]; [constructor|]. inv Hx. constructor; [done|by apply IH].
Qed.

Lemma ascending_take n l : ascending l -> ascending (take n l).
Proof. apply StronglySorted_sublist, sublist_take. Qed.

(** A page of the whole merge, from prefixes. *)
Lemma page_of_prefixes (limit offset : nat) h c :
  ascending h -> ascending c ->
  take limit (drop offset (dedup_by key_eq (sort_by key_le (take (limit + offset) h ++ take (limit + offset) c)))) =
  take limit (drop offset (union h c)).
Proof.
  intros Hh Hc. rewrite sort_merge, dedup_merge by by apply ascending_take.
  rewrite !take_drop_commute. f_equal. apply union_take; lia.
Qed.

Lemma sorted_ascending l :
  NoDup (map key l) -> StronglySorted (fun a b => key_le a b = true) l -> ascending l.
Proof.
  intros Hn Hs. induction Hs as [|x l Hs IH Hx]; [constructor|]. cbn [map] in Hn.
  apply NoDup_cons in Hn as [Hx' Hn]. constructor; [by apply IH|]. rewrite Forall_forall in Hx |- *.
  intros y Hy. specialize (Hx y Hy). apply Z.leb_le in Hx.
  assert (key x <> key y); [|lia]. intros He. apply Hx'. rewrite He. by apply list_elem_of_fmap_2.
Qed.

Lemma sort_ascending l : NoDup (map key l) -> ascending (sort_by key_le l).
Proof.
  intros Hn. apply sorted_ascending; [by rewrite sort_by_perm|].
  apply (sort_by_sorted _ (fun _ => True)); unfold key_le; intros; [lia|lia|by apply Forall_true].
Qed.

End PushDown.

(** *** Sorting and removing duplicates through a map *)

Section Through.
Context {A B : Type} (f : A -> B) (P : A -> Prop).

Lemma sort_by_map leA leB (l : list A) :
  (forall a b, P a -> P b -> leB (f a) (f b) = leA a b) -> Forall P l ->
  sort_by leB (map f l) = map f (sort_by leA l).
Proof.
  intros Hle Hl. induction Hl as [|x l Hx Hl IH]; [done|].
  change (insert_sorted leB (f x) (sort_by leB (map f l)) = map f (insert_sorted leA x (sort_by leA l))).
  rewrite IH. assert (Hs : Forall P (sort_by leA l)) by by rewrite sort_by_perm.
  clear IH Hl. induction Hs as [|y s Hy Hs IH]; [done|]. cbn [map insert_sorted].
  rewrite Hle by done. destruct (leA x y); [done|]. by rewrite IH.
Qed.

Lemma dedup_by_map eqA eqB (l : list A) :
  (forall a b, P a -> P b -> eqB (f a) (f b) = eqA a b) -> Forall P l ->
  dedup_by eqB (map f l) = map f (dedup_by eqA l).
Proof.
  intros He Hl. destruct Hl as [|x l Hx Hl]; [done|]. cbn [map dedup_by]. f_equal.
  revert x Hx. induction Hl as [|y l Hy Hl IH]; intros x Hx; [done|]. cbn [map dedup_from].
  rewrite He by done. destruct (eqA y x); [by apply IH|]. cbn [map]. f_equal. by apply IH.
Qed.

End Through.
End PushDown.

(** ** The exact page *)

Module TierQuerySpec.
Import TierConfig TierQuery PushDown.

Section Theorems.
Context `{JT : JsonText} {ST : Archive.SqlTerms}.

Definition pk (t : TieredTable) (r : Row) : Z := default 0 ((r : gmap string Value) !! tt_id_col t ≫= as_i64).

(** The row has an integer primary key. *)
Definition has_pk (t : TieredTable) (r : Row) : Prop :=
  exists n i, (r : gmap string Value) !! tt_id_col t = Some (VNumber n) /\ number_as_i64 n = Some i.

Lemma cmp_pk_int t (a b : Row) :
  has_pk t a -> has_pk t b -> cmp_pk (row_key t a) (row_key t b) = (pk t a ?= pk t b).
Proof.
  intros (n & i & Ha & Hi) (m & j & Hb & Hj). unfold row_key, pk. rewrite Ha, Hb. simpl. by rewrite Hi, Hj.
Qed.

Lemma row_le_int t (a b : Row) : has_pk t a -> has_pk t b -> row_le t a b = key_le (pk t) a b.
Proof. intros Ha Hb. unfold row_le, key_le. rewrite cmp_pk_int by done. reflexivity. Qed.

Lemma keyed_rows_int t (l : list Row) :
  Forall (has_pk t) l -> keyed_rows t l = Ok (map (fun r => (row_key t r, r)) l).
Proof.
  induction 1 as [|r l Hr Hl IH]; [done|]. cbn [keyed_rows map]. rewrite IH.
  destruct Hr as (n & i & Hn & _). unfold keyed_row, row_key. by rewrite Hn.
Qed.

(** For integer keys the paging is that of the key alone. *)
Lemma sort_dedupe_paginate_int t (l : list Row) limit offset :
  Forall (has_pk t) l ->
  sort_dedupe_paginate t l limit offset =
  Ok (take (Z.to_nat limit) (drop (Z.to_nat offset)
        (dedup_by (key_eq (pk t)) (sort_by (key_le (pk t)) l)))).
Proof.
  intros Hl. unfold sort_dedupe_paginate. rewrite (keyed_rows_int t l Hl). simpl. f_equal.
  set (f := fun r : Row => (row_key t r, r)).
  rewrite (sort_by_map f (has_pk t) (key_le (pk t))); [|intros a b Ha Hb; by apply row_le_int|done].
  rewrite (dedup_by_map f (has_pk t) (key_eq (pk t))).
  - unfold f. by rewrite skipn_map, firstn_map, map_map, map_id.
  - intros a b Ha Hb. unfold same_pk, key_eq, f. cbn [fst]. rewrite cmp_pk_int by done.
    by rewrite Z.eqb_compare.
  - by rewrite sort_by_perm.
Qed.

Lemma hot_part_facts q t from to :
  let hits := List.filter (in_range t from to) (hot_rows_of q (tt_name t)) in
  Forall (has_pk t) hits -> NoDup (map (pk t) hits) ->
  ascending (pk t) (hot_part q t from to) /\ Forall (has_pk t) (hot_part q t from to) /\
  forall r, r ∈ hot_part q t from to <-> r ∈ hits.
Proof.
  intros hits Hh Hn. unfold hot_part. fold hits.
  assert (He : sort_by (row_le t) hits = sort_by (key_le (pk t)) hits).
  { pose proof (sort_by_map (@id Row) (has_pk t) (key_le (pk t)) (row_le t) hits) as Hm.
    rewrite !map_id in Hm. apply Hm; [|done]. intros a b Ha Hb. by apply row_le_int. }
  rewrite He. split; [by apply sort_ascending|]. split; [by rewrite sort_by_perm|].
  intros r. by rewrite sort_by_perm.
Qed.

(** What the cold side promises: pages of an ascending list with integer keys. *)
Definition cold_serves (q : TieredQuery) (t : TieredTable) (from to : Z) (part : list Row) : Prop :=
  ascending (pk t) part /\ Forall (has_pk t) part /\
  forall limit offset, 0 <= limit < 2 ^ 64 -> 0 <= offset < 2 ^ 64 ->
    cold_query q (tt_name t) from to [] limit offset =
    Ok (take (Z.to_nat limit) (drop (Z.to_nat offset) part)).

(** The table is known and well named, and the range crosses [hot_days]. *)
Definition crosses (q : TieredQuery) (now : Z) (table : string) (from to : Z) (t : TieredTable)
    (boundary : Z) : Prop :=
  hot_dialect q = MySql /\
  List.find (fun t => String.eqb (tt_name t) table) (tables_ q) = Some t /\
  validate_ident (tt_name t) = Ok tt /\ validate_ident (tt_time_col t) = Ok tt /\
  validate_ident (tt_id_col t) = Ok tt /\
  checked_add now (- (tt_hot_days t * day)) = Some boundary /\ from < boundary <= to.

Lemma query_crossing q now table from to t boundary params limit offset :
  crosses q now table from to t boundary ->
  query_range q now table from to params limit offset =
  Some (if negb (match params with [] => true | _ => false end) then Err (cold_only (tt_name t))
        else let? hot := hot_range q t boundary to (Archive.u64_sat_add limit offset) 0 in
             let? cold := cold_query q (tt_name t) from boundary params
                            (Archive.u64_sat_add limit offset) 0 in
             sort_dedupe_paginate t (hot ++ cold) limit offset).
Proof.
  intros (Hd & Hf & H1 & H2 & H3 & Hb & Hlt & Hle). unfold query_range.
  rewrite decide_False by (intros Hne; by apply Hne). rewrite Hf, H1. simpl. rewrite H2. simpl.
  rewrite H3, Hb. replace (boundary <=? to) with true by lia. replace (boundary <=? from) with false by lia.
  replace (to <? boundary) with false by lia. by destruct params.
Qed.

(** C9. A query across the boundary returns the page of one list, although each side is
    only asked for its first [limit + offset] rows: the list is strictly ascending by
    primary key and has every hot row of the range and every cold row whose key no hot
    row has.  Primary keys are integers of an i64, and the hot rows of the range have
    distinct ones. *)
Theorem crossing_page_exact q now table from to t boundary limit offset part :
  let hits := List.filter (in_range t boundary to) (hot_rows_of q (tt_name t)) in
  crosses q now table from to t boundary ->
  Forall (has_pk t) hits -> NoDup (map (pk t) hits) -> cold_serves q t from boundary part ->
  0 <= limit -> 0 <= offset -> limit + offset < 2 ^ 63 ->
  exists whole,
    query_range q now table from to [] limit offset =
      Some (Ok (take (Z.to_nat limit) (drop (Z.to_nat offset) whole))) /\
    ascending (pk t) whole /\
    forall r, r ∈ whole <-> r ∈ hits \/ (r ∈ part /\ forall x, x ∈ hits -> pk t x <> pk t r).
Proof.
  intros hits Hc Hh Hn (Hpa & Hpk & Hcold) Hl Ho Hlo.
  destruct (hot_part_facts q t boundary to Hh Hn) as (Ha & Hk & Hin).
  exists (union (pk t) (hot_part q t boundary to) part).
  destruct (union_spec (pk t) _ _ Ha Hpa) as [Hu Hmem]. split; [|split; [done|]].
  - rewrite (query_crossing _ _ _ _ _ _ _ _ _ _ Hc). cbn [negb]. f_equal.
    assert (Hs : Archive.u64_sat_add limit offset = limit + offset)
      by (unfold Archive.u64_sat_add, u64_max; lia).
    rewrite Hs. unfold hot_range, as_i64_arg. replace (limit + offset <? 2 ^ 63) with true by lia.
    replace (0 <? 2 ^ 63) with true by reflexivity. cbn [rbind]. rewrite Hcold by lia. cbn [rbind].
    change (Z.to_nat 0) with 0%nat. rewrite !drop_0, Z2Nat.inj_add by done.
    rewrite sort_dedupe_paginate_int by (apply Forall_app; split; by apply Forall_take).
    f_equal. by apply page_of_prefixes.
  - intros r. rewrite Hmem. split; intros [Hr|[Hr Hd]].
    + left. by apply Hin.
    + right. split; [done|]. intros x Hx. apply Hd. by apply Hin.
    + left. by apply Hin.
    + right. split; [done|]. intros x Hx. apply Hd. by apply Hin.
Qed.

End Theorems.

(** *** A table in two tiers *)

#[local] Instance demo_number : JsonNumber := CatalogSpec.demo_number.
#[local] Instance demo_text : JsonText := CatalogSpec.demo_text.
#[local] Instance demo_terms : Archive.SqlTerms := {
  satisfies _ _ := true;
  instant_of c r := default 0 ((r : gmap string Value) !! c ≫= as_i64);
}.

Definition row (id at_ : Z) : Row :=
  ({[ "id" := @VNumber demo_number id; "at" := @VNumber demo_number at_ ]} : gmap string Value).

Definition ids (r : option (result (list Row) TieringError)) : option (list Z) :=
  match r with Some (Ok l) => Some (map (fun r => default 0 ((r : gmap string Value) !! "id" ≫= as_i64)) l) | _ => None end.

Definition orders : TieredTable :=
  {| tt_name := "orders"; tt_time_col := "at"; tt_id_col := "id"; tt_hot_days := 10 |}.

Definition two_tiers (hot : list Row) (cold : ColdQuery) : TieredQuery :=
  {| hot_dialect := MySql; hot_rows_of := fun _ => hot; cold_query := cold; tables_ := [orders] |}.

(** A cold side that keeps the contract of the trait for a fixed list. *)
Definition pages (part : list Row) : ColdQuery :=
  fun _ _ _ _ limit offset => Ok (take (Z.to_nat limit) (drop (Z.to_nat offset) part)).

Definition clickhouse (rows : list Row) : ColdQuery :=
  ch_query_range (fun t => dec_text t)
    {| ch_rows := rows; ch_table := "orders"; ch_time_col := "at"; ch_id_col := "id" |}.

(** Row 2 was archived and is still hot. *)
Definition demo_hot : list Row := [row 5 (15 * day); row 2 (12 * day); row 9 (19 * day)].
Definition demo_cold : list Row := [row 1 day; row 2 (12 * day); row 3 (2 * day)].

Lemma row_has_pk id at_ : (- 2 ^ 63 <=? id) && (id <? 2 ^ 63) = true -> has_pk orders (row id at_).
Proof.
  intros Hid. exists id, id. split; [apply lookup_insert_eq|]. simpl. by rewrite Hid.
Qed.

Lemma demo_hits :
  List.filter (in_range orders (10 * day) (20 * day))
    (hot_rows_of (two_tiers demo_hot (pages demo_cold)) (tt_name orders)) = demo_hot.
Proof. apply filter_forallb. vm_compute. reflexivity. Qed.

Lemma demo_hot_pks : map (pk orders) demo_hot = [5; 2; 9].
Proof. vm_compute. reflexivity. Qed.

Lemma demo_cold_ascending : ascending (pk orders) demo_cold.
Proof.
  apply ascending_keys. assert (map (pk orders) demo_cold = [1; 2; 3]) as -> by (vm_compute; reflexivity).
  repeat constructor.
Qed.

Lemma crossing_page_exact_witness :
  ids (query_range (two_tiers demo_hot (pages demo_cold)) (20 * day) "orders" 0 (20 * day) [] 3 1)
    = Some [2; 3; 5] /\
  exists whole,
    query_range (two_tiers demo_hot (pages demo_cold)) (20 * day) "orders" 0 (20 * day) [] 3 1 =
      Some (Ok (take (Z.to_nat 3) (drop (Z.to_nat 1) whole))).
Proof.
  split; [vm_compute; reflexivity|].
  destruct (crossing_page_exact (two_tiers demo_hot (pages demo_cold)) (20 * day) "orders" 0 (20 * day)
              orders (10 * day) 3 1 demo_cold) as (whole & Hq & _ & _).
  - split; [reflexivity|]. split; [reflexivity|]. split; [reflexivity|]. split; [reflexivity|].
    split; [reflexivity|]. split; [reflexivity|]. by split.
  - rewrite demo_hits. repeat constructor; by apply row_has_pk.
  - rewrite demo_hits, demo_hot_pks. apply (bool_decide_unpack _). reflexivity.
  - split; [apply demo_cold_ascending|]. split; [repeat constructor; by apply row_has_pk|].
    intros. reflexivity.
  - lia.
  - lia.
  - lia.
  - exists whole. exact Hq.
Defined.

(** *** Rows a query does not return *)

(** [ClickhouseColdQuery] selects before [to], the trait asks for [[from, to]]: the
    same three rows, the same range, one row less. *)
Theorem clickhouse_misses_the_last_row :
  let cold := [row 1 day; row 2 (2 * day); row 3 (3 * day)] in
  ids (query_range (two_tiers [] (pages cold)) (20 * day) "orders" day (3 * day) [] 10 0) = Some [1; 2; 3] /\
  ids (query_range (two_tiers [] (clickhouse cold)) (20 * day) "orders" day (3 * day) [] 10 0) = Some [1; 2].
Proof. split; vm_compute; reflexivity. Qed.

(** A row older than [hot_days] in a partition that also has newer rows stays hot
    and is not archived; no query returns it, be its range all cold or crossing. *)
Theorem old_hot_rows_are_invisible :
  let q := two_tiers [row 1 (9 * day); row 2 (11 * day)] (pages []) in
  ids (query_range q (20 * day) "orders" 0 (9 * day) [] 10 0) = Some [] /\
  ids (query_range q (20 * day) "orders" 0 (20 * day) [] 10 0) = Some [2].
Proof. split; vm_compute; reflexivity. Qed.

(** Keys past [2 ^ 63] are compared as [f64]: two rows with distinct keys are taken
    for one and a row is dropped from the page; and the order is not transitive. *)
Theorem unsigned_keys_collapse :
  ids (query_range (two_tiers [row (2 ^ 63) (15 * day); row (2 ^ 63 + 1) (16 * day)] (pages []))
         (20 * day) "orders" 0 (20 * day) [] 10 0) = Some [0] /\
  (let a := @VNumber demo_number (2 ^ 63 - 2) in let b := @VNumber demo_number (2 ^ 63 - 1) in
   let c := @VNumber demo_number (2 ^ 63) in
   cmp_pk a b = Lt /\ cmp_pk a c = Eq /\ cmp_pk b c = Eq).
Proof. vm_compute. repeat split; reflexivity. Qed.

End TierQuerySpec.
