(* ===== verification/MigrationPlan.v ===== *)
(** * Planning a shard migration ([ecat-data-sharding])

    [src/ecat-data-sharding/src/migrate/plan.rs]: the moves that lead from one
    topology to another. *)

From S2P Require Import Prelude Json ShardCatalog.

Local Open Scope Z_scope.
Local Open Scope ecat_scope.

Module Plan.
Import Catalog.

(** [low] is included, [high] is not; [None] is unbounded. *)
Record KeyRange := { low : option Z; high : option Z }.

(** [key_range] is [None] for a full copy routed row by row. *)
Record ShardMove := {
  mv_table : string;
  from : string;
  to : string;
  key_range : option KeyRange;
}.

Record ShardPlan := { moves : list ShardMove }.

(** [Vec::dedup]. *)
Fixpoint dedup (l : list Z) : list Z :=
  match l with
  | a :: (b :: _) as l' => if a =? b then dedup l' else a :: dedup l'
  | l => l
  end.

Definition i64_min : Z := - 2 ^ 63.

(** The intervals between the boundaries, each with a representative key. *)
Fixpoint intervals (low : option Z) (boundaries : list Z) : list (option Z * option Z * Z) :=
  match boundaries with
  | [] => [(low, None, default 0 low)]
  | b :: bs =>
      (if i64_min <? b then [(low, Some b, b - 1)] else []) ++ intervals (Some b) bs
  end.

Definition range_index (a : ShardAlgorithm) (key : Z) : result nat ShardError :=
  match a with
  | Range boundaries => Ok (partition_point (fun b => b <=? key) boundaries)
  | HashMod _ => Err (Config "range_index called on a hash algorithm")
  end.

(** The last move grows when the interval continues it.  The moves are held in
    reverse. *)
Definition push_move (rev : list ShardMove) (name f t : string) (lo hi : option Z)
    : list ShardMove :=
  let fresh := {| mv_table := name; from := f; to := t;
                  key_range := Some {| low := lo; high := hi |} |} in
  match rev with
  | last :: rest =>
      match key_range last with
      | Some range =>
          if String.eqb (from last) f && String.eqb (to last) t
             && bool_decide (high range = lo)
          then {| mv_table := mv_table last; from := from last; to := to last;
                  key_range := Some {| low := low range; high := hi |} |} :: rest
          else fresh :: rev
      | None => fresh :: rev
      end
  | [] => [fresh]
  end.

Definition shard_name (t : ShardTable) (i : nat) : result string ShardError :=
  ok_or (ep_name <$> shards t !! i) ShardCountMismatch.

Fixpoint interval_moves (old new : ShardTable) (rev : list ShardMove)
    (l : list (option Z * option Z * Z)) : result (list ShardMove) ShardError :=
  match l with
  | [] => Ok rev
  | (lo, hi, representative) :: l =>
      let? old_index := range_index (algorithm old) representative in
      let? new_index := range_index (algorithm new) representative in
      let? f := shard_name old old_index in
      let? t := shard_name new new_index in
      interval_moves old new
        (if String.eqb f t then rev else push_move rev (tb_name old) f t lo hi) l
  end.

Definition range_moves (old new : ShardTable) : result (list ShardMove) ShardError :=
  match algorithm old, algorithm new with
  | Range old_boundaries, Range new_boundaries =>
      let boundaries := dedup (sort_by Z.leb (old_boundaries ++ new_boundaries)) in
      let? rev := interval_moves old new [] (intervals None boundaries) in
      Ok (reverse rev)
  | _, _ => Err (Config "range_moves called on a non-range algorithm")
  end.

Definition full_copy_moves (old new : ShardTable) : list ShardMove :=
  flat_map (fun f => map (fun t => {| mv_table := tb_name old; from := ep_name f;
                                      to := ep_name t; key_range := None |}) (shards new))
    (shards old).

Definition same_shard_names (a b : ShardTable) : bool :=
  bool_decide (map ep_name (shards a) = map ep_name (shards b)).

(** One table of [diff]. *)
Definition table_moves (old : ShardCatalog) (new_table : ShardTable)
    : result (list ShardMove) ShardError :=
  match List.find (fun t => String.eqb (tb_name t) (tb_name new_table)) (tables old) with
  | None => Ok []
  | Some old_table =>
      if negb (String.eqb (key old_table) (key new_table))
         || negb (String.eqb (pk old_table) (pk new_table))
      then Err (Config ("table `" +:+ tb_name new_table
                        +:+ "` changes key/pk; migration is unsupported"))
      else match algorithm old_table, algorithm new_table with
           | Range _, Range _ => range_moves old_table new_table
           | HashMod _, HashMod _ =>
               if same_shard_names old_table new_table then Ok []
               else Ok (full_copy_moves old_table new_table)
           | _, _ => Ok (full_copy_moves old_table new_table)
           end
  end.

Fixpoint diff_tables (old : ShardCatalog) (l : list ShardTable)
    : result (list ShardMove) ShardError :=
  match l with
  | [] => Ok []
  | t :: l =>
      let? ms := table_moves old t in
      let? rest := diff_tables old l in
      Ok (ms ++ rest)
  end.

Definition diff (old new : ShardCatalog) : result ShardPlan ShardError :=
  let? _ := validate old in
  let? _ := validate new in
  let? ms := diff_tables old (tables new) in
  Ok {| moves := ms |}.

End Plan.

Module PlanFacts.
Import Catalog CatalogFacts Plan.

(** *** Intervals *)

Definition in_range (k : Z) (lo hi : option Z) : bool :=
  match lo with Some l => l <=? k | None => true end &&
  match hi with Some h => k <? h | None => true end.

Definition below (lo : option Z) (k : Z) : Prop :=
  match lo with Some l => l <= k | None => True end.

Definition holding (k : Z) (iv : option Z * option Z * Z) : Prop :=
  in_range k iv.1.1 iv.1.2 = true.

#[export] Instance holding_dec k iv : Decision (holding k iv).
Proof. unfold holding. apply _. Defined.

Lemma in_range_iff k lo hi :
  in_range k lo hi = true <->
  below lo k /\ match hi with Some h => k < h | None => True end.
Proof.
  unfold in_range, below. rewrite andb_true_iff.
  destruct lo, hi; rewrite ?Z.leb_le, ?Z.ltb_lt; tauto.
Qed.

Lemma intervals_above b bs :
  StronglySorted Z.lt bs -> (forall c, c ∈ bs -> b < c) ->
  Forall (fun iv => exists l, iv.1.1 = Some l /\ b <= l) (intervals (Some b) bs).
Proof.
  intros Hs. revert b. induction Hs as [|c bs Hs IH Hc]; intros b Hb; simpl.
  - constructor; [|constructor]. exists b. split; [done|lia].
  - rewrite Forall_forall in Hc. assert (b < c) by (apply Hb; set_solver).
    apply Forall_app. split.
    + destruct (i64_min <? c); constructor; [|constructor]. exists b. split; [done|lia].
    + eapply Forall_impl; [by apply IH|]. intros iv (l & Hl & Hcl). exists l. split; [done|lia].
Qed.

Lemma no_interval_below b bs k :
  StronglySorted Z.lt bs -> (forall c, c ∈ bs -> b < c) -> k < b ->
  filter (holding k) (intervals (Some b) bs) = [].
Proof.
  intros Hs Hb Hk. pose proof (intervals_above b bs Hs Hb) as Hall.
  induction Hall as [|iv ivs (l & Hl & Hbl) Hall IH]; [done|].
  rewrite filter_cons_False; [done|]. unfold holding. rewrite in_range_iff, Hl. simpl. lia.
Qed.

(** Exactly one interval holds the key, and no boundary separates the key from the
    representative of its interval. *)
Lemma intervals_spec lo bs k :
  StronglySorted Z.lt bs -> (forall b, b ∈ bs -> match lo with Some l => l < b | None => True end) ->
  below lo k -> i64_min <= k ->
  exists l h r, filter (holding k) (intervals lo bs) = [(l, h, r)] /\
    below lo r /\ forall b, b ∈ bs -> (b <= k <-> b <= r).
Proof.
  intros Hs. revert lo. induction Hs as [|b bs Hs IH Hb]; intros lo Hlo Hk Hmin; simpl.
  - exists lo, None, (default 0 lo). rewrite filter_cons_True by (by apply in_range_iff).
    split; [done|]. split; [destruct lo; simpl; [lia|done]|]. intros b Hb. by apply elem_of_nil in Hb.
  - rewrite Forall_forall in Hb. rewrite filter_app.
    assert (Hlob : below lo (b - 1)).
    { specialize (Hlo b). destruct lo; simpl; [|done]. assert (z < b) by (apply Hlo; set_solver). lia. }
    destruct (Z.le_gt_cases b k) as [Hbk|Hbk].
    + assert (Hfst : filter (holding k) (if i64_min <? b then [(lo, Some b, b - 1)] else []) = []).
      { destruct (i64_min <? b); [|done]. rewrite filter_cons_False; [done|].
        unfold holding. rewrite in_range_iff. simpl. lia. }
      rewrite Hfst. destruct (IH (Some b)) as (l & h & r & Hf & Hr & Hsep); [auto|done|done|].
      exists l, h, r. split; [done|]. simpl in Hr. split; [destruct lo; simpl in *; [lia|done]|].
      intros b' [->|Hb']%elem_of_cons; [lia|by apply Hsep].
    + assert (Hm : i64_min <? b = true) by (apply Z.ltb_lt; lia). rewrite Hm.
      exists lo, (Some b), (b - 1). rewrite no_interval_below by auto.
      rewrite filter_cons_True by (by apply in_range_iff). split; [done|]. split; [done|].
      intros b' [->|Hb']%elem_of_cons; [lia|]. specialize (Hb b' Hb'). lia.
Qed.

(** The intervals touch: each one's upper bound is the next one's lower bound. *)
Definition bounds_ok (lo : option Z) (iv : option Z * option Z * Z) : Prop :=
  match iv.1.2 with
  | Some h => match iv.1.1 with Some l => l < h | None => True end
  | None => True
  end.

(** *** Sorting and deduplication *)

Lemma dedup_elem l x : x ∈ dedup l <-> x ∈ l.
Proof.
  induction l as [|a [|b l] IH]; [done|done|]. cbn [dedup]. destruct (Z.eqb_spec a b) as [->|Hne].
  - rewrite IH. set_solver.
  - rewrite elem_of_cons, IH. set_solver.
Qed.

Lemma dedup_sorted l : StronglySorted Z.le l -> StronglySorted Z.lt (dedup l).
Proof.
  induction l as [|a [|b l] IH]; intros Hs; [constructor|by repeat constructor|].
  cbn [dedup]. apply StronglySorted_inv in Hs as [Hs Ha].
  destruct (Z.eqb_spec a b) as [->|Hne]; [auto|]. constructor; [auto|].
  rewrite Forall_forall in *. intros x Hx. apply (dedup_elem (b :: l)) in Hx. assert (a <= b) by (apply Ha; set_solver).
  apply elem_of_cons in Hx as [->|Hx]; [lia|].
  apply StronglySorted_inv in Hs as [_ Hb]. rewrite Forall_forall in Hb. specialize (Hb x Hx). lia.
Qed.

Lemma merged_boundaries old new :
  let bs := dedup (sort_by Z.leb (old ++ new)) in
  StronglySorted Z.lt bs /\ forall b, b ∈ bs <-> b ∈ old \/ b ∈ new.
Proof.
  simpl. split.
  - apply dedup_sorted.
    assert (Hs : StronglySorted (fun a b => Z.leb a b = true) (sort_by Z.leb (old ++ new))).
    { apply (sort_by_sorted _ (fun _ => True)); [intros x y _ _| |by apply Forall_true].
      - rewrite !Z.leb_le. lia.
      - intros x y z _ _ _. rewrite !Z.leb_le. lia. }
    induction Hs as [|x l Hs IH Hx]; constructor; [done|].
    eapply Forall_impl; [exact Hx|]. intros y. simpl. by rewrite Z.leb_le.
  - intros b. by rewrite dedup_elem, sort_by_perm, elem_of_app.
Qed.

(** Keys no boundary separates are in the same interval of a shard's algorithm. *)
Lemma partition_point_same bs k r :
  (forall b, b ∈ bs -> (b <= k <-> b <= r)) ->
  partition_point (fun b => b <=? k) bs = partition_point (fun b => b <=? r) bs.
Proof.
  induction bs as [|b bs IH]; intros H; [done|]. simpl.
  assert (Hb : (b <=? k) = (b <=? r)).
  { apply eq_true_iff_eq. rewrite !Z.leb_le. apply H. set_solver. }
  rewrite Hb. destruct (b <=? r); [|done]. f_equal. apply IH. intros c Hc. apply H. set_solver.
Qed.

(** *** The moves of a key *)

Definition covers (k : Z) (m : ShardMove) : Prop :=
  match key_range m with Some r => in_range k (low r) (high r) = true | None => True end.

#[export] Instance covers_dec k m : Decision (covers k m).
Proof. unfold covers. destruct (key_range m); apply _. Defined.

Definition ends (m : ShardMove) : string * string := (from m, to m).

(** Where the moves of [l] send a key. *)
Definition routes (k : Z) (l : list ShardMove) : list (string * string) :=
  map ends (filter (covers k) l).

(** The accumulated moves end at or before the current lower bound. *)
Definition move_ok (lo : option Z) (m : ShardMove) : Prop :=
  exists l h, key_range m = Some {| low := l; high := Some h |} /\
    match l with Some l => l < h | None => True end /\
    match lo with Some b => h <= b | None => False end.

Lemma routes_push k rev name f t lo hi :
  Forall (move_ok lo) rev ->
  match lo, hi with Some l, Some h => l < h | _, _ => True end ->
  routes k (push_move rev name f t lo hi) ≡ₚ
    (if in_range k lo hi then [(f, t)] else []) ++ routes k rev.
Proof.
  intros Hok Hlh.
  assert (Hfresh : forall rev, routes k ({| mv_table := name; from := f; to := t;
      key_range := Some {| low := lo; high := hi |} |} :: rev) =
      (if in_range k lo hi then [(f, t)] else []) ++ routes k rev).
  { intros l. unfold routes. destruct (in_range k lo hi) eqn:E.
    - rewrite filter_cons_True; [done|exact E].
    - rewrite filter_cons_False; [done|]. unfold covers; simpl. congruence. }
  unfold push_move. destruct rev as [|last rest]; [by rewrite Hfresh|].
  destruct (key_range last) as [range|] eqn:Hr; [|by rewrite Hfresh].
  destruct (String.eqb_spec (from last) f) as [Hf|]; simpl; [|by rewrite Hfresh].
  destruct (String.eqb_spec (to last) t) as [Ht|]; simpl; [|by rewrite Hfresh].
  case_bool_decide as Hhi; [|by rewrite Hfresh].
  apply Forall_cons in Hok as [(l & h & Hk & Hlt & Hb) _]. rewrite Hr in Hk. simplify_eq/=.
  assert (Hsplit : in_range k l hi = true <-> in_range k l (Some h) = true \/ in_range k (Some h) hi = true).
  { rewrite !in_range_iff. unfold below. destruct l, hi; lia. }
  assert (Hdisj : ~ (in_range k l (Some h) = true /\ in_range k (Some h) hi = true)).
  { rewrite !in_range_iff. simpl. lia. }
  assert (Hlast : covers k last <-> in_range k l (Some h) = true) by (unfold covers; by rewrite Hr).
  unfold routes. rewrite !filter_cons.
  destruct (decide (covers k last)) as [C2|C2], (in_range k (Some h) hi) eqn:E3;
    case_decide as C1; unfold covers in C1; simpl in C1 |- *; try done; exfalso; naive_solver.
Qed.

(** The shards that own an interval's representative, when they differ. *)
Definition change (old new : ShardTable) (r : Z) : result (list (string * string)) ShardError :=
  let? i := range_index (algorithm old) r in
  let? j := range_index (algorithm new) r in
  let? f := shard_name old i in
  let? t := shard_name new j in
  Ok (if String.eqb f t then [] else [(f, t)]).

Definition changes (old new : ShardTable) (l : list (option Z * option Z * Z))
    : list (string * string) :=
  flat_map (fun iv => match change old new iv.2 with Ok c => c | Err _ => [] end) l.

Lemma interval_moves_cons old new rev lo hi r l res :
  interval_moves old new rev ((lo, hi, r) :: l) = Ok res ->
  exists c, change old new r = Ok c /\
    interval_moves old new
      match c with [] => rev | (f, t) :: _ => push_move rev (tb_name old) f t lo hi end l = Ok res /\
    (c = [] \/ exists f t, c = [(f, t)]).
Proof.
  intros H. cbn [interval_moves] in H. unfold change.
  destruct (range_index (algorithm old) r) as [i|]; [|done].
  destruct (range_index (algorithm new) r) as [j|]; [|done]. simpl in *.
  destruct (shard_name old i) as [f|]; [|done]. destruct (shard_name new j) as [t|]; [|done].
  simpl in *. destruct (String.eqb f t); eexists; (split; [done|]); (split; [exact H|]); eauto.
Qed.

Lemma push_move_ok rev name f t lo h :
  Forall (move_ok lo) rev -> match lo with Some l => l < h | None => True end ->
  Forall (move_ok (Some h)) (push_move rev name f t lo (Some h)).
Proof.
  intros Hok Hlo. assert (Hw : forall l, Forall (move_ok lo) l -> Forall (move_ok (Some h)) l).
  { intros l Hl. eapply Forall_impl; [exact Hl|]. intros m (a & b & Hk & Hab & Hb).
    exists a, b. split; [done|]. split; [done|]. destruct lo; [lia|done]. }
  assert (Hfresh : move_ok (Some h) {| mv_table := name; from := f; to := t;
    key_range := Some {| low := lo; high := Some h |} |}).
  { exists lo, h. split; [done|]. split; [done|lia]. }
  unfold push_move. destruct rev as [|last rest]; [by repeat constructor|].
  destruct (key_range last) as [range|] eqn:Hr; [|by constructor; auto].
  destruct (_ && bool_decide (high range = lo)) eqn:E; [|by constructor; auto].
  apply andb_prop in E as [_ E%bool_decide_eq_true]. apply Forall_cons in Hok as [Hl Hrest].
  constructor; [|auto]. destruct Hl as (a & b & Hk & Hab & Hb). rewrite Hr in Hk. simplify_eq/=.
  exists a, h. split; [done|]. split; [|lia]. destruct a; [lia|done].
Qed.

Lemma interval_moves_routes old new k bs lo rev res :
  StronglySorted Z.lt bs -> (forall b, b ∈ bs -> match lo with Some l => l < b | None => True end) ->
  Forall (move_ok lo) rev -> interval_moves old new rev (intervals lo bs) = Ok res ->
  routes k res ≡ₚ changes old new (filter (holding k) (intervals lo bs)) ++ routes k rev.
Proof.
  intros Hs. revert lo rev. induction Hs as [|b bs Hs IH Hb]; intros lo rev Hlo Hok Hres; cbn [intervals] in Hres |- *.
  - apply interval_moves_cons in Hres as (c & Hc & Hres & Hform). simpl in Hres. simplify_eq.
    assert (Hr : routes k match c with [] => rev | (f, t) :: _ => push_move rev (tb_name old) f t lo None end
              ≡ₚ (if in_range k lo None then c else []) ++ routes k rev).
    { destruct Hform as [-> |(f & t & ->)]; [by destruct (in_range k lo None)|].
      rewrite routes_push; [done|done|by destruct lo]. }
    rewrite Hr. destruct (in_range k lo None) eqn:E.
    + rewrite filter_cons_True by exact E. simpl. by rewrite Hc, !app_nil_r.
    + rewrite filter_cons_False; [done|]. unfold holding; simpl. congruence.
  - rewrite Forall_forall in Hb. assert (Hlob : match lo with Some l => l < b | None => True end).
    { specialize (Hlo b). destruct lo; [|done]. apply Hlo. set_solver. }
    assert (Hnext : forall c, c ∈ bs -> b < c) by auto.
    destruct (i64_min <? b) eqn:Hm.
    + cbn [app] in Hres |- *. apply interval_moves_cons in Hres as (c & Hc & Hres & Hform).
      apply IH in Hres; [|done|destruct Hform as [-> |(f & t & ->)]].
      * rewrite Hres. simpl. destruct (in_range k lo (Some b)) eqn:E.
        -- rewrite filter_cons_True by exact E. simpl. rewrite Hc.
           destruct Hform as [-> |(f & t & ->)]; [done|].
           rewrite routes_push, E by done. simpl. by rewrite Permutation_middle.
        -- rewrite filter_cons_False by (unfold holding; simpl; congruence).
           destruct Hform as [-> |(f & t & ->)]; [done|]. by rewrite routes_push, E by done.
      * eapply Forall_impl; [exact Hok|]. intros m (x & y & Hk & Hxy & Hy).
        exists x, y. split; [done|]. split; [done|]. destruct lo; [lia|done].
      * by apply push_move_ok.
    + cbn [app] in Hres |- *. apply IH in Hres; [done|done|]. eapply Forall_impl; [exact Hok|].
      intros m (x & y & Hk & Hxy & Hy). exists x, y. split; [done|]. split; [done|].
      destruct lo; [lia|done].
Qed.

(** Without fuel or failure: every index of a valid table is in bounds. *)
Lemma interval_moves_total old new ob nb rev l :
  algorithm old = Range ob -> algorithm new = Range nb ->
  (length ob < length (shards old))%nat -> (length nb < length (shards new))%nat ->
  exists res, interval_moves old new rev l = Ok res.
Proof.
  intros Ho Hn Hol Hnl. revert rev. induction l as [|[[lo hi] r] l IH]; intros rev; [by eexists|].
  cbn [interval_moves]. rewrite Ho, Hn. simpl. unfold shard_name.
  pose proof (partition_point_le (fun b => b <=? r) ob) as H1.
  pose proof (partition_point_le (fun b => b <=? r) nb) as H2.
  destruct (lookup_lt_is_Some_2 (shards old) (partition_point (fun b => b <=? r) ob)) as [f Hf]; [lia|].
  destruct (lookup_lt_is_Some_2 (shards new) (partition_point (fun b => b <=? r) nb)) as [t Ht]; [lia|].
  rewrite Hf, Ht. simpl. apply IH.
Qed.

Lemma range_moves_routes old new ob nb k ms :
  algorithm old = Range ob -> algorithm new = Range nb -> i64_min <= k ->
  range_moves old new = Ok ms ->
  exists c, change old new k = Ok c /\ routes k ms = c.
Proof.
  intros Ho Hn Hk Hms. unfold range_moves in Hms. rewrite Ho, Hn in Hms.
  set (bs := dedup _) in Hms. pose proof (merged_boundaries ob nb) as [Hs Hin]. fold bs in Hs, Hin.
  destruct (interval_moves old new [] (intervals None bs)) as [rev|] eqn:Hrev; [|done].
  simpl in Hms. simplify_eq.
  destruct (intervals_spec None bs k Hs) as (l & h & r & Hf & _ & Hsep); [done|done|done|].
  assert (Hsame : change old new k = change old new r).
  { unfold change, range_index. rewrite Ho, Hn. simpl.
    rewrite (partition_point_same ob k r), (partition_point_same nb k r); [done|..];
      intros b Hb; apply Hsep, Hin; auto. }
  assert (Hc : exists c, change old new r = Ok c /\ (c = [] \/ exists f t, c = [(f, t)])).
  { assert (Hiv : (l, h, r) ∈ intervals None bs).
    { assert (H : (l, h, r) ∈ filter (holding k) (intervals None bs)) by (rewrite Hf; set_solver).
      by apply list_elem_of_filter in H as [_ H]. }
    clear -Hrev Hiv. revert Hrev. generalize ([] : list ShardMove) as acc.
    induction (intervals None bs) as [|[[lo hi] r'] ivs IH]; intros acc Hacc; [by apply elem_of_nil in Hiv|].
    apply interval_moves_cons in Hacc as (c & Hc & Hacc & Hform).
    apply elem_of_cons in Hiv as [Hiv|Hiv]; [simplify_eq; eauto|]. by eapply IH. }
  destruct Hc as (c & Hc & Hform). exists c. rewrite Hsame. split; [done|].
  pose proof (interval_moves_routes old new k bs None [] rev Hs) as Hr.
  rewrite Hf in Hr. unfold changes in Hr. simpl in Hr. rewrite Hc, !app_nil_r in Hr.
  assert (Hp : routes k (reverse rev) ≡ₚ c).
  { unfold routes in *. rewrite reverse_Permutation. apply Hr; done. }
  destruct Hform as [-> |(f & t & ->)]; [by apply Permutation_nil_r in Hp|].
  by apply Permutation_singleton_r in Hp.
Qed.

(** *** Whole catalogs *)

Lemma interval_moves_names old new rev l res :
  Forall (fun m => mv_table m = tb_name old) rev -> interval_moves old new rev l = Ok res ->
  Forall (fun m => mv_table m = tb_name old) res.
Proof.
  revert rev. induction l as [|[[lo hi] r] l IH]; intros rev Hrev Hres; [by simpl in Hres; simplify_eq|].
  apply interval_moves_cons in Hres as (c & _ & Hres & Hform). eapply IH; [|exact Hres].
  destruct Hform as [-> |(f & t & ->)]; [done|]. unfold push_move.
  destruct rev as [|last rest]; [by repeat constructor|]. inv Hrev.
  destruct (key_range last); [|by repeat constructor]. destruct (_ && _); by repeat constructor.
Qed.

Lemma table_moves_names old t ms :
  table_moves old t = Ok ms -> Forall (fun m => mv_table m = tb_name t) ms.
Proof.
  unfold table_moves. destruct (List.find _ _) as [o|] eqn:Hf; [|intros; simplify_eq; constructor].
  apply List.find_some in Hf as [_ Hf%String.eqb_eq]. destruct (_ || _); [done|].
  assert (Hfull : Forall (fun m => mv_table m = tb_name t) (full_copy_moves o t)).
  { apply Forall_forall. intros m Hm. unfold full_copy_moves in Hm.
    apply list_elem_of_In, in_flat_map in Hm as (f & _ & Hm). apply in_map_iff in Hm as (e & <- & _).
    exact Hf. }
  destruct (algorithm o) eqn:Ho, (algorithm t) eqn:Ht; [destruct (same_shard_names _ _)| | |];
    intros Hms; try (simplify_eq; by try constructor).
  unfold range_moves in Hms. rewrite Ho, Ht in Hms.
  destruct (interval_moves _ _ _ _) as [rev|] eqn:Hrev; [|done]. simpl in Hms. simplify_eq.
  rewrite reverse_Permutation, <- Hf. by eapply interval_moves_names.
Qed.

Lemma filter_none {A} (P : A -> Prop) `{forall x, Decision (P x)} (l : list A) :
  Forall (fun x => ~ P x) l -> filter P l = [].
Proof. induction 1 as [|x l Hx _ IH]; [done|]. by rewrite filter_cons_False. Qed.

Lemma filter_all {A} (P : A -> Prop) `{forall x, Decision (P x)} (l : list A) :
  Forall P l -> filter P l = l.
Proof. induction 1 as [|x l Hx _ IH]; [done|]. rewrite filter_cons_True by done. by rewrite IH. Qed.

Definition of_table (name : string) (l : list ShardMove) : list ShardMove :=
  filter (fun m => mv_table m = name) l.

(** The moves of a plan for a table are the table's own. *)
Lemma diff_tables_of_table old l ms t :
  NoDup (map tb_name l) -> t ∈ l -> diff_tables old l = Ok ms ->
  table_moves old t = Ok (of_table (tb_name t) ms).
Proof.
  revert ms. induction l as [|t' l IH]; intros ms Hnd Hin Hms; [by apply elem_of_nil in Hin|].
  simpl in *. apply NoDup_cons in Hnd as [Hn Hnd].
  destruct (table_moves old t') as [a|] eqn:Ha; [|done]. simpl in Hms.
  destruct (diff_tables old l) as [b|] eqn:Hb; [|done]. simpl in Hms. simplify_eq.
  unfold of_table. rewrite filter_app. pose proof (table_moves_names _ _ _ Ha) as Hna.
  apply elem_of_cons in Hin as [->|Hin].
  - assert (Hbn : filter (fun m => mv_table m = tb_name t') b = []).
    { clear IH Ha Hna. revert b Hb. induction l as [|t l IHl]; intros b Hb; simpl in *; [by simplify_eq|].
      destruct (table_moves old t) as [c|] eqn:Hc; [|done]. simpl in Hb.
      destruct (diff_tables old l) as [d|]; [|done]. simpl in Hb. simplify_eq. rewrite filter_app.
      apply NoDup_cons in Hnd as [_ Hnd]. rewrite (IHl ltac:(set_solver) Hnd d eq_refl), app_nil_r.
      apply filter_none. eapply Forall_impl; [by eapply table_moves_names|].
      simpl. intros m Hm He. apply Hn. rewrite <- He, Hm. set_solver. }
    rewrite Hbn, app_nil_r, Ha. f_equal. symmetry. by apply filter_all.
  - rewrite (IH b Hnd Hin eq_refl). f_equal.
    assert (filter (fun m => mv_table m = tb_name t) a = []) as ->; [|done].
    apply filter_none. eapply Forall_impl; [exact Hna|].
    simpl. intros m Hm He. apply Hn. rewrite <- Hm, He. by apply list_elem_of_fmap_2.
Qed.

Lemma diff_ok old new p :
  diff old new = Ok p -> wf_catalog old /\ wf_catalog new /\ diff_tables old (tables new) = Ok (moves p).
Proof.
  unfold diff. destruct (validate old) as [[]|] eqn:Ho; [|done]. destruct (validate new) as [[]|] eqn:Hn; [|done].
  simpl. destruct (diff_tables _ _) as [ms|]; [|done]. simpl. intros; simplify_eq.
  split; [by apply validate_ok|]. split; [by apply validate_ok|done].
Qed.

(** The moves a plan has for a table of both catalogs. *)
Lemma plan_of_table old new p name ot nt :
  diff old new = Ok p -> table old name = Ok ot -> table new name = Ok nt ->
  wf_table ot /\ wf_table nt /\ tb_name ot = name /\ tb_name nt = name /\
  match algorithm ot, algorithm nt with
  | Range _, Range _ => range_moves ot nt = Ok (of_table name (moves p))
  | HashMod _, HashMod _ =>
      of_table name (moves p) = if same_shard_names ot nt then [] else full_copy_moves ot nt
  | _, _ => of_table name (moves p) = full_copy_moves ot nt
  end.
Proof.
  intros Hd Hot Hnt. apply diff_ok in Hd as (Ho & Hn & Hd).
  pose proof Hot as Hot'. apply table_ok in Hot' as [Hoi Hon]. apply table_ok in Hnt as [Hni Hnn].
  destruct Ho as [Ho _], Hn as [Hn Hnd]. rewrite Forall_forall in Ho, Hn.
  split; [by apply Ho|]. split; [by apply Hn|]. split; [done|]. split; [done|].
  pose proof (diff_tables_of_table _ _ _ _ Hnd Hni Hd) as Hm. rewrite Hnn in Hm.
  unfold table_moves in Hm. rewrite Hnn in Hm. unfold table, ok_or in Hot.
  destruct (List.find _ _) as [o|]; [|done]. simplify_eq.
  destruct (_ || _); [done|].
  destruct (algorithm ot), (algorithm nt); try destruct (same_shard_names ot nt); congruence.
Qed.

Section Keys.
Context `{JT : JsonText}.

(** A move covers a key: any key if it is a full copy, else those of its range. *)
Definition covers_key (v : Value) (m : ShardMove) : Prop :=
  match key_range m with
  | None => True
  | Some r => exists k, as_i64 v = Some k /\ in_range k (low r) (high r) = true
  end.

(** The name of the shard a catalog routes a key to. *)
Definition owner (c : ShardCatalog) (name : string) (v : Value) : result string ShardError :=
  let? t := table c name in
  let? i := shard_for c name v in
  shard_name t i.

Lemma owner_range c name t b v k n :
  table c name = Ok t -> wf_table t -> algorithm t = Range b -> as_i64 v = Some k ->
  owner c name v = Ok n ->
  (let? i := range_index (algorithm t) k in shard_name t i) = Ok n.
Proof.
  intros Ht Hwf Ha Hv Ho. unfold owner in Ho. rewrite Ht in Ho. simpl in Ho. unfold shard_for in Ho.
  rewrite Ht in Ho. simpl in Ho. destruct (check_algorithm _ _ _); [|done]. simpl in Ho.
  destruct (is_null v); [done|]. rewrite Ha in Ho |- *. by rewrite Hv in Ho.
Qed.

Lemma shard_name_in t i n : shard_name t i = Ok n -> exists e, e ∈ shards t /\ ep_name e = n.
Proof.
  unfold shard_name. destruct (shards t !! i) as [e|] eqn:He; [|done]. simpl. intros; simplify_eq.
  exists e. split; [by eapply list_elem_of_lookup_2|done].
Qed.

Lemma full_copy_has ot nt f t :
  f ∈ shards ot -> t ∈ shards nt ->
  {| mv_table := tb_name ot; from := ep_name f; to := ep_name t; key_range := None |}
    ∈ full_copy_moves ot nt.
Proof.
  intros Hf Ht. unfold full_copy_moves. apply list_elem_of_In, in_flat_map. exists f.
  split; [by apply list_elem_of_In|]. apply in_map_iff. exists t.
  split; [done|by apply list_elem_of_In].
Qed.

Lemma owner_in c name t v n :
  table c name = Ok t -> owner c name v = Ok n -> exists e, e ∈ shards t /\ ep_name e = n.
Proof.
  intros Ht Ho. unfold owner in Ho. rewrite Ht in Ho. simpl in Ho.
  destruct (shard_for c name v) as [i|]; [|done]. by apply shard_name_in in Ho.
Qed.

(** Hash catalogs with the same shard names route alike. *)
Lemma same_names_same_owner old new name ot nt a b v :
  table old name = Ok ot -> table new name = Ok nt -> wf_table ot -> wf_table nt ->
  algorithm ot = HashMod a -> algorithm nt = HashMod b -> same_shard_names ot nt = true ->
  owner old name v = owner new name v.
Proof.
  intros Hot Hnt Hwo Hwn Ha Hb Hs. apply bool_decide_eq_true in Hs.
  assert (Hlen : length (shards ot) = length (shards nt)).
  { by rewrite <- (length_map ep_name (shards ot)), Hs, length_map. }
  destruct Hwo as (_ & _ & _ & Hne & _ & Hwa), Hwn as (_ & _ & _ & Hne' & _ & Hwb).
  rewrite Ha in Hwa. rewrite Hb in Hwb.
  assert (Hab : a = b) by congruence.
  assert (Hnz : a <> 0) by (destruct (shards ot); simpl in *; [done|lia]).
  assert (Hc1 : check_algorithm (tb_name ot) (HashMod a) (length (shards ot)) = Ok tt)
    by (by apply check_algorithm_ok).
  assert (Hc2 : check_algorithm (tb_name nt) (HashMod b) (length (shards nt)) = Ok tt)
    by (apply check_algorithm_ok; split; congruence).
  unfold owner, shard_for. rewrite Hot, Hnt. simpl.
  rewrite Ha, Hb, Hc1, Hc2. simpl. destruct (is_null v); [done|]. rewrite <- Hab.
  destruct (stable_hash64 v) as [h|]; [|done]. simpl. unfold shard_name.
  change (ep_name <$> shards ot = ep_name <$> shards nt) in Hs. by rewrite <- !list_lookup_fmap, Hs.
Qed.

End Keys.
End PlanFacts.

Module PlanSpec.
Import Catalog CatalogFacts Plan PlanFacts.

Section Spec.
Context `{JT : JsonText}.

(** C7. A plan covers every key that changes shard: if the old topology stores a
    key's rows on one shard and the new topology on another, the plan has a move
    between these two shards that covers the key, whatever the algorithms are. *)
Theorem plan_covers_moved_keys (old new : ShardCatalog) (p : ShardPlan) (name f t : string)
    (v : Value) :
  diff old new = Ok p -> owner old name v = Ok f -> owner new name v = Ok t -> f <> t ->
  (forall k, as_i64 v = Some k -> i64_min <= k) ->
  exists m, m ∈ moves p /\ mv_table m = name /\ from m = f /\ to m = t /\ covers_key v m.
Proof.
  intros Hd Hf Ht Hne Hi64.
  destruct (table old name) as [ot|] eqn:Hot; [|unfold owner in Hf; by rewrite Hot in Hf].
  destruct (table new name) as [nt|] eqn:Hnt; [|unfold owner in Ht; by rewrite Hnt in Ht].
  destruct (plan_of_table _ _ _ _ _ _ Hd Hot Hnt) as (Hwo & Hwn & Hon & Hnn & Hm).
  destruct (owner_in _ _ _ _ _ Hot Hf) as (ef & Hef & <-).
  destruct (owner_in _ _ _ _ _ Hnt Ht) as (et & Het & <-).
  assert (Hfull : full_copy_moves ot nt = of_table name (moves p) ->
    exists m, m ∈ moves p /\ mv_table m = name /\ from m = ep_name ef /\ to m = ep_name et /\
              covers_key v m).
  { intros He. pose proof (full_copy_has _ _ _ _ Hef Het) as Hin. rewrite He, Hon in Hin.
    apply list_elem_of_filter in Hin as [_ Hin]. eexists. split; [exact Hin|]. done. }
  destruct (algorithm ot) as [a|ob] eqn:Ha, (algorithm nt) as [b|nb] eqn:Hb; [|auto..|].
  - destruct (same_shard_names ot nt) eqn:Hs; [|auto]. exfalso. apply Hne.
    pose proof (same_names_same_owner old new name ot nt a b v Hot Hnt Hwo Hwn Ha Hb Hs). congruence.
  - destruct (as_i64 v) as [k|] eqn:Hk.
    + pose proof (owner_range _ _ _ _ _ _ _ Hot Hwo Ha Hk Hf) as Ho'.
      pose proof (owner_range _ _ _ _ _ _ _ Hnt Hwn Hb Hk Ht) as Hn'.
      destruct (range_moves_routes ot nt ob nb k _ Ha Hb (Hi64 k eq_refl) Hm) as (c & Hc & Hr).
      unfold change in Hc. rewrite Ha, Hb in *. simpl in Hc, Ho', Hn'. rewrite Ho', Hn' in Hc.
      simpl in Hc. destruct (String.eqb_spec (ep_name ef) (ep_name et)); [done|]. injection Hc as <-.
      assert (Hin : (ep_name ef, ep_name et) ∈ routes k (of_table _ (moves p))) by (rewrite Hr; set_solver).
      apply list_elem_of_fmap in Hin as (m & He & Hin). apply list_elem_of_filter in Hin as [Hcov Hin].
      apply list_elem_of_filter in Hin as [Hname Hin]. unfold ends in He. injection He as He1 He2.
      exists m. split_and!; try done; [congruence..|]. unfold covers in Hcov. unfold covers_key.
      destruct (key_range m); eauto.
    + exfalso. unfold owner, shard_for in Hf. rewrite Hot in Hf.
      simpl in Hf. destruct (check_algorithm _ _ _); [|done]. simpl in Hf. destruct (is_null v); [done|].
      rewrite Ha, Hk in Hf. by destruct (is_u64 v).
Qed.

(** Between two range topologies the plan moves exactly the keys that change
    shard: a key whose shard stays is in no move, a key whose shard changes is in
    exactly one, from its old shard to its new one. *)
Theorem range_plan_exact (old new : ShardCatalog) (p : ShardPlan) (name f t : string)
    (v : Value) (k : Z) ot nt ob nb :
  diff old new = Ok p -> table old name = Ok ot -> table new name = Ok nt ->
  algorithm ot = Range ob -> algorithm nt = Range nb ->
  as_i64 v = Some k -> i64_min <= k ->
  owner old name v = Ok f -> owner new name v = Ok t ->
  map ends (filter (covers k) (of_table name (moves p))) = if String.eqb f t then [] else [(f, t)].
Proof.
  intros Hd Hot Hnt Ha Hb Hk Hmin Hf Ht.
  destruct (plan_of_table _ _ _ _ _ _ Hd Hot Hnt) as (Hwo & Hwn & Hon & Hnn & Hm).
  rewrite Ha, Hb in Hm.
  pose proof (owner_range _ _ _ _ _ _ _ Hot Hwo Ha Hk Hf) as Ho'.
  pose proof (owner_range _ _ _ _ _ _ _ Hnt Hwn Hb Hk Ht) as Hn'.
  destruct (range_moves_routes ot nt ob nb k _ Ha Hb Hmin Hm) as (c & Hc & Hr).
  unfold change in Hc. rewrite Ha, Hb in *. simpl in Hc, Ho', Hn'. rewrite Ho', Hn' in Hc.
  simpl in Hc. injection Hc as <-. exact Hr.
Qed.

End Spec.

(** *** Witnesses: the boundary of two shards moves from 100 to 50. *)
#[local] Existing Instance CatalogSpec.demo_number.
#[local] Existing Instance CatalogSpec.demo_text.

Definition shift_catalog (b : Z) : ShardCatalog :=
  {| tables := [ {| tb_name := "orders"; key := "uid"; pk := "id"; algorithm := Range [b];
                    shards := [CatalogSpec.demo_ep "s0"; CatalogSpec.demo_ep "s1"] |} ] |}.

Definition shift_plan : ShardPlan :=
  {| moves := [ {| mv_table := "orders"; from := "s0"; to := "s1";
                   key_range := Some {| low := Some 50; high := Some 100 |} |} ] |}.

Lemma plan_covers_moved_keys_witness :
  exists m, m ∈ moves shift_plan /\ mv_table m = "orders" /\ from m = "s0" /\ to m = "s1" /\
            covers_key (CatalogSpec.demo_num 70) m.
Proof.
  apply (plan_covers_moved_keys (shift_catalog 100) (shift_catalog 50) shift_plan "orders" "s0" "s1");
    [reflexivity..|done|]. intros k Hk. vm_compute in Hk. injection Hk as <-. vm_compute. done.
Defined.

Lemma range_plan_exact_witness :
  map ends (filter (covers 70) (of_table "orders" (moves shift_plan))) = [("s0", "s1")] /\
  map ends (filter (covers 30) (of_table "orders" (moves shift_plan))) = [].
Proof.
  split.
  - eapply (range_plan_exact (shift_catalog 100) (shift_catalog 50) shift_plan "orders" "s0" "s1"
      (CatalogSpec.demo_num 70) 70); try reflexivity. vm_compute. done.
  - eapply (range_plan_exact (shift_catalog 100) (shift_catalog 50) shift_plan "orders" "s0" "s0"
      (CatalogSpec.demo_num 30) 30); try reflexivity. vm_compute. done.
Defined.

End PlanSpec.
