(* ===== verification/Migrate.v ===== *)
(** * Executing a shard migration ([ecat-data-sharding])

    [src/ecat-data-sharding/src/migrate/mod.rs] (the executor and its job table),
    [backfill.rs], [verify.rs], [cutover.rs] and [schema.rs] (the check of the source
    tables).

    The databases are trait objects: [ShardDb] is what the executor asks of a shard
    (a page of rows in primary-key order, an upsert, the columns of a table),
    [JobStore] the table [shard_migration_jobs].  A client is a handle: two shard
    names may share one. *)

From Stdlib Require Import Ascii.
From S2P Require Import Prelude Dialect Crash Json Text ShardCatalog ShardRouter MigrationPlan.

Local Open Scope Z_scope.
Local Open Scope ecat_scope.

Module Schema.
Import Catalog.

(** The quotes of the code: double quote, backtick, brackets. *)
Definition quoted (table : string) : bool :=
  contains_char (Ascii.ascii_of_N 34) table || contains_char "`" table
  || contains_char "[" table || contains_char "]" table.

Definition split_table (table : string) : result (option string * string) ShardError :=
  if (Nat.ltb 1 (count_char "." table)) || (quoted table && contains_char "." table)
  then Err (Config ("migration preflight: table name `" +:+ table +:+ "` is not supported; only unquoted `table` or two-part `schema.table` / `db.table` names can be inspected. Three-part `db.schema.table` names and quoted identifiers containing dots are not supported; refusing to copy."))
  else Ok match rsplit_once "." table with
          | Some (schema, name) => (Some schema, name)
          | None => (None, table)
          end.

Definition mysql_binary : list string :=
  ["binary"; "varbinary"; "tinyblob"; "blob"; "mediumblob"; "longblob"; "bit"; "geometry";
   "point"; "linestring"; "polygon"; "multipoint"; "multilinestring"; "multipolygon";
   "geometrycollection"; "geomcollection"; "vector"].

Definition is_binary_type (dialect : Dialect) (type_name : string) : bool :=
  let normalized := to_ascii_lowercase (trim type_name) in
  match dialect with
  | MySql => existsb (String.eqb normalized) mysql_binary
  | Postgres => String.eqb normalized "bytea"
  | Sqlite => String.eqb normalized "" || contains "blob" normalized || contains "binary" normalized
  | Mssql | Standard => false
  end.

End Schema.

Module Migrate.
Import Catalog Router Plan Schema.

(** *** Phases *)

Inductive Phase := Pending | Backfilling | Verified | Cutover | Done | RolledBack.

#[export] Instance phase_eq_dec : EqDecision Phase.
Proof. solve_decision. Defined.

Definition as_str (p : Phase) : string :=
  match p with
  | Pending => "pending"
  | Backfilling => "backfilling"
  | Verified => "verified"
  | Cutover => "cutover"
  | Done => "done"
  | RolledBack => "rolled_back"
  end.

Definition parse (text : string) : result Phase ShardError :=
  if String.eqb text "pending" then Ok Pending
  else if String.eqb text "backfilling" then Ok Backfilling
  else if String.eqb text "verified" then Ok Verified
  else if String.eqb text "cutover" then Ok Cutover
  else if String.eqb text "done" then Ok Done
  else if String.eqb text "rolled_back" then Ok RolledBack
  else Err (Database ("unknown migration phase `" +:+ text +:+ "`")).

Record JobState := { phase : Phase; cursor : option string; rows : Z; checksum : Z }.

(** The columns of a row of [shard_migration_jobs] the executor reads back. *)
Record JobRow := {
  row_phase : string;
  row_cursor : option string;
  row_rows : Z;
  row_checksum_text : string;
}.

(** The error texts leave out what the integer parser says. *)
Definition decode_job (r : JobRow) : result JobState ShardError :=
  let? n := (if 0 <=? row_rows r then Ok (row_rows r)
             else Err (Database "migration rows_moved out of range")) in
  let? c := ok_or (parse_uint 64 (row_checksum_text r)) (Database "migration checksum is invalid") in
  let? p := parse (row_phase r) in
  Ok {| phase := p; cursor := row_cursor r; rows := n; checksum := c |}.

(** [i64::try_from(job.rows)]. *)
Definition encode_job (j : JobState) : result JobRow ShardError :=
  if rows j <? 2 ^ 63
  then Ok {| row_phase := as_str (phase j); row_cursor := cursor j; row_rows := rows j;
             row_checksum_text := dec_text (checksum j) |}
  else Err (Database "migration rows_moved out of range").

(** *** Interfaces *)

Section Interfaces.
Context `{JT : JsonText}.

(** A shard's database.  [scan] is the page query of [scan_chunk]: rows after the
    cursor, in the key range, by ascending primary key, at most [limit]. *)
Class ShardDb (D : Type) := {
  dialect : D -> Dialect;
  scan : D -> ShardTable -> option KeyRange -> option Value -> nat -> result (list Row) ShardError;
  upsert : D -> ShardTable -> Row -> result unit ShardError * D;
  columns : D -> option string -> string -> result (list (string * string)) ShardError;
}.

(** The job table and its dialect. *)
Class JobStore (J : Type) := {
  state_dialect : J -> Dialect;
  create_jobs : J -> result unit ShardError * J;
  select_job : J -> string -> result (option JobRow) ShardError;
  insert_job : J -> string -> JobRow -> result unit ShardError * J;
  update_job : J -> string -> JobRow -> result unit ShardError * J;
}.

(** [serde_json::to_string] and [from_str] of a cursor. *)
Class CursorCodec := {
  cursor_text : Value -> result string ShardError;
  cursor_value : string -> result Value ShardError;
}.

(** [ecat_lock::FencedLock] under the configured key and TTL. *)
Class Fence (F G : Type) := {
  acquire_fenced : F -> result (option G) string * F;
  renew : F -> G -> result unit string * F;
  release : F -> G -> result unit string * F;
}.

End Interfaces.

Section Migrator.
Context `{JT : JsonText}.
Context {D J F G : Type} `{SD : !ShardDb D} `{JS : !JobStore J} `{CC : !CursorCodec} `{FN : !Fence F G}.

(** A client handle. *)
Local Abbreviation client := positive.

Record ShardMigrator := {
  plan : ShardPlan;
  clients : gmap string client;
  old_catalog : ShardCatalog;
  new_catalog : ShardCatalog;
  chunk_size : nat;
}.

(** The outside world: the databases behind the handles, the job table, the fence and
    the router the service reads from. *)
Record world := {
  dbs : gmap client D;
  jobs : J;
  fence : option F;
  router : ShardRouter client;
}.

Record MigrationReport := { moved_rows : Z; chunks : Z; verified : bool }.

(** A run ends with an error of the code or, in the model, without fuel. *)
Inductive stop := Failed (e : ShardError) | OutOfFuel.

Local Abbreviation M := (M world stop).

Definition lift {A} (r : result A ShardError) : M A := ret (map_err Failed r).

(** *** Construction *)

Definition check_move (old new : ShardCatalog) (clients : gmap string client) (mv : ShardMove)
    : result unit ShardError :=
  let? old_table := table old (mv_table mv) in
  let? new_table := table new (mv_table mv) in
  if negb (String.eqb (key old_table) (key new_table))
     || negb (String.eqb (pk old_table) (pk new_table))
  then Err (Config ("table `" +:+ mv_table mv +:+ "` changes key/pk; migration is unsupported"))
  else if negb (existsb (fun s => String.eqb (ep_name s) (from mv)) (shards old_table))
  then Err (Config ("move source shard `" +:+ from mv +:+ "` is not in the old catalog"))
  else if negb (existsb (fun s => String.eqb (ep_name s) (to mv)) (shards new_table))
  then Err (Config ("move target shard `" +:+ to mv +:+ "` is not in the new catalog"))
  else ShardingConfig.for_each
         (fun shard => match clients !! shard with
                       | Some _ => Ok tt
                       | None => Err (Config ("move references shard `" +:+ shard
                                              +:+ "` without a client"))
                       end)
         [from mv; to mv].

Definition new (p : ShardPlan) (cl : gmap string client) (old new : ShardCatalog)
    : result ShardMigrator ShardError :=
  let? _ := validate old in
  let? _ := validate new in
  let? _ := ShardingConfig.for_each (check_move old new cl) (moves p) in
  Ok {| plan := p; clients := cl; old_catalog := old; new_catalog := new; chunk_size := 1000 |}.

Definition with_chunk_size (n : nat) (m : ShardMigrator) : ShardMigrator :=
  {| plan := plan m; clients := clients m; old_catalog := old_catalog m;
     new_catalog := new_catalog m; chunk_size := Nat.max n 1 |}.

(** *** The job table *)

Definition set_jobs (j : J) (w : world) : world := {| dbs := dbs w; jobs := j; fence := fence w; router := router w |}.

Definition on_jobs {A} (f : J -> result A ShardError * J) : M A :=
  effect (fun w => let '(r, j) := f (jobs w) in (map_err Failed r, set_jobs j w)).

(** [state_dialect()?]. *)
Definition check_dialect : M unit :=
  do! d := get (fun w => state_dialect (jobs w)) in
  lift (match d with Mssql => Err UnsupportedDialect | _ => Ok tt end).

Definition ensure_schema : M unit := do! _ := check_dialect in on_jobs create_jobs.

Definition range_text (lo : option Z) : string :=
  match lo with
  | Some v => (if v <? 0 then "-" else "") +:+ dec_text (Z.abs v)
  | None => "*"
  end.

Definition move_id (mv : ShardMove) : string :=
  mv_table mv +:+ "|" +:+ from mv +:+ "|" +:+ to mv +:+ "|" +:+
  match key_range mv with
  | Some r => range_text (low r) +:+ ":" +:+ range_text (high r)
  | None => "none"
  end.

Definition load_job (id : string) : M (option JobState) :=
  do! _ := check_dialect in
  do! r := on_jobs (fun j => (select_job j id, j)) in
  match r with
  | None => ret (Ok None)
  | Some row => do! job := lift (decode_job row) in ret (Ok (Some job))
  end.

Definition fresh_job : JobRow :=
  {| row_phase := as_str Pending; row_cursor := None; row_rows := 0; row_checksum_text := "0" |}.

Definition ensure_job (mv : ShardMove) : M JobState :=
  do! found := load_job (move_id mv) in
  match found with
  | Some job => ret (Ok job)
  | None =>
      do! _ := check_dialect in
      do! _ := on_jobs (fun j => insert_job j (move_id mv) fresh_job) in
      do! found := load_job (move_id mv) in
      lift (ok_or found (Database "migration job vanished after insert"))
  end.

Definition save_job (mv : ShardMove) (job : JobState) : M unit :=
  do! _ := check_dialect in
  do! row := lift (encode_job job) in
  on_jobs (fun j => update_job j (move_id mv) row).

Definition set_phase (p : Phase) (j : JobState) : JobState :=
  {| phase := p; cursor := cursor j; rows := rows j; checksum := checksum j |}.

(** *** The fence *)

Definition lock_error (e : string) : stop := Failed (Config ("migration lock: " +:+ e)).

Definition on_fence {A} (none : A) (f : F -> result A stop * F) : M A :=
  effect (fun w => match fence w with
    | None => (Ok none, w)
    | Some l => let '(r, l) := f l in (r, {| dbs := dbs w; jobs := jobs w; fence := Some l; router := router w |})
    end).

Definition acquire_fence : M (option G) :=
  on_fence None (fun l =>
    let '(r, l) := acquire_fenced l in
    (match r with
     | Err e => Err (lock_error e)
     | Ok None => Err (Failed (Config "another migration holds the fence"))
     | Ok (Some g) => Ok (Some g)
     end, l)).

Definition check_fence (guard : option G) : M unit :=
  on_fence tt (fun l => match guard with
    | None => (Ok tt, l)
    | Some g => let '(r, l) := renew l g in (map_err lock_error r, l)
    end).

Definition release_fence (guard : option G) : M unit :=
  on_fence tt (fun l => match guard with
    | None => (Ok tt, l)
    | Some g => let '(r, l) := release l g in (map_err lock_error r, l)
    end).

(** *** Rows *)

Definition no_client (shard : string) : ShardError :=
  Config ("no client for shard `" +:+ shard +:+ "`").

Definition find_client (m : ShardMigrator) (shard : string) : M client :=
  lift (ok_or (clients m !! shard) (no_client shard)).

Definition set_dbs (l : gmap client D) (w : world) : world :=
  {| dbs := l; jobs := jobs w; fence := fence w; router := router w |}.

(** A call on the database behind a handle. *)
Definition on_db {A} (c : client) (f : D -> result A ShardError * D) : M A :=
  effect (fun w => match dbs w !! c with
    | None => (Err (Failed (Database "connection closed")), w)
    | Some d => let '(r, d) := f d in
        (map_err Failed r, set_dbs (<[c := d]> (dbs w)) w)
    end).

Definition row_value (r : Row) (column : string) : result Value ShardError :=
  ok_or ((r : gmap string Value) !! column) (Database ("migration row missing column `" +:+ column +:+ "`")).

(** The columns as one object, so that their order does not matter. *)
Definition row_checksum (r : Row) : result Z ShardError :=
  stable_hash64 (VObject (map_to_list (r : gmap string Value))).

Definition routes_to (m : ShardMigrator) (mv : ShardMove) (r : Row) : result bool ShardError :=
  match key_range mv with
  | Some _ => Ok true
  | None =>
      let? t := table (new_catalog m) (mv_table mv) in
      let? k := row_value r (key t) in
      let? index := shard_for (new_catalog m) (mv_table mv) k in
      let? name := ok_or (ep_name <$> shards t !! index) ShardCountMismatch in
      Ok (String.eqb name (to mv))
  end.

Definition upsert_row (m : ShardMigrator) (target : client) (mv : ShardMove) (r : Row) : M unit :=
  do! d := get (fun w => dialect <$> dbs w !! target) in
  if decide (d = Some Mssql) then lift (Err UnsupportedDialect)
  else
    do! t := lift (table (new_catalog m) (mv_table mv)) in
    if decide (size (r : gmap string Value) = 0%nat)
    then lift (Err (Database ("row from `" +:+ mv_table mv +:+ "` has no columns")))
    else on_db target (fun d => upsert d t r).

Definition scan_chunk (m : ShardMigrator) (c : client) (t : ShardTable) (range : option KeyRange)
    (cur : option Value) : M (list Row) :=
  on_db c (fun d => (scan d t range cur (chunk_size m), d)).

(** *** The check of the source tables *)

Definition uninspectable (name : string) : ShardError :=
  Config ("migration preflight: dialect `" +:+ name
          +:+ "` cannot be inspected for binary columns; refusing to copy").

(** [Standard] and SQL Server cannot be inspected; no columns is refused. *)
Definition source_columns (c : client) (name : string) : M (list (string * string)) :=
  do! d := get (fun w => dialect <$> dbs w !! c) in
  do! st := lift (split_table name) in
  match d with
  | Some Mssql => lift (Err (uninspectable "Mssql"))
  | Some Standard => lift (Err (uninspectable "Standard"))
  | _ =>
    do! cols := on_db c (fun d => (columns d st.1 st.2, d)) in
    match cols with
    | [] => lift (Err (Config ("migration preflight: cannot inspect source schema for table `"
              +:+ name +:+ "`; refusing to copy without column metadata")))
    | _ => ret (Ok cols)
    end
  end.

Definition binary_column (mv : ShardMove) (col : string * string) : ShardError :=
  Config ("migration preflight: binary column `" +:+ mv_table mv +:+ "`.`" +:+ col.1
    +:+ "` has type `" +:+ col.2
    +:+ "`; BLOB/BYTEA would be copied as base64 text and corrupted. Refusing to copy; use a native dump/restore tool for this table.").

(** [inspected] are the pairs of source shard and table already looked at. *)
Fixpoint preflight_moves (m : ShardMigrator) (inspected : list (string * string))
    (l : list ShardMove) : M unit :=
  match l with
  | [] => ret (Ok tt)
  | mv :: l =>
      if decide ((from mv, mv_table mv) ∈ inspected) then preflight_moves m inspected l
      else
        do! source := find_client m (from mv) in
        do! d := get (fun w => dialect <$> dbs w !! source) in
        do! cols := source_columns source (mv_table mv) in
        match List.find (fun col => match d with
                                    | Some d => is_binary_type d col.2
                                    | None => false end) cols with
        | Some col => lift (Err (binary_column mv col))
        | None => preflight_moves m ((from mv, mv_table mv) :: inspected) l
        end
  end.

Definition preflight_schema (m : ShardMigrator) : M unit := preflight_moves m [] (moves (plan m)).

(** *** Backfill *)

(** The rows of one page: the job and the number of copied rows grow with each row
    the move takes. *)
Fixpoint copy_rows (m : ShardMigrator) (mv : ShardMove) (target : client) (batch : list Row)
    (job : JobState) (copied : Z) : M (JobState * Z) :=
  match batch with
  | [] => ret (Ok (job, copied))
  | r :: batch =>
      do! takes := lift (routes_to m mv r) in
      if takes then
        do! _ := upsert_row m target mv r in
        do! n := lift (if rows job <? u64_max then Ok (rows job + 1)
                       else Err (Database "migration row count overflow")) in
        do! c := lift (row_checksum r) in
        copy_rows m mv target batch
          {| phase := phase job; cursor := cursor job; rows := n;
             checksum := Z.lxor (checksum job) c |} (u64_add copied 1)
      else copy_rows m mv target batch job copied
  end.

Definition add_report (copied : Z) (rep : MigrationReport) : MigrationReport :=
  {| moved_rows := Z.min u64_max (moved_rows rep + copied); chunks := u64_add (chunks rep) 1;
     verified := verified rep |}.

(** The loop over the pages; the fuel bounds their number. *)
Fixpoint backfill_loop (fuel : nat) (m : ShardMigrator) (mv : ShardMove) (t : ShardTable)
    (source target : client) (guard : option G) (job : JobState) (cur : option Value)
    (rep : MigrationReport) : M MigrationReport :=
  match fuel with
  | O => ret (Err OutOfFuel)
  | S fuel =>
      do! _ := check_fence guard in
      do! batch := scan_chunk m source t (key_range mv) cur in
      match last batch with
      | None => ret (Ok rep)
      | Some r =>
          do! jc := copy_rows m mv target batch job 0 in
          do! last_pk := lift (row_value r (pk t)) in
          do! text := lift (cursor_text last_pk) in
          let job := {| phase := Backfilling; cursor := Some text;
                        rows := rows jc.1; checksum := checksum jc.1 |} in
          do! _ := save_job mv job in
          backfill_loop fuel m mv t source target guard job (Some last_pk) (add_report jc.2 rep)
      end
  end.

Definition backfill_move (fuel : nat) (m : ShardMigrator) (mv : ShardMove) (guard : option G)
    (rep : MigrationReport) : M MigrationReport :=
  do! job := ensure_job mv in
  if decide (phase job ∈ [Verified; Cutover; Done]) then ret (Ok rep)
  else
    do! job := (if decide (phase job = RolledBack)
                then let job := set_phase Backfilling job in
                     do! _ := save_job mv job in ret (Ok job)
                else ret (Ok job)) in
    do! source := find_client m (from mv) in
    do! target := find_client m (to mv) in
    do! t := lift (table (new_catalog m) (mv_table mv)) in
    do! cur := (match cursor job with
                | Some text => do! v := lift (cursor_value text) in ret (Ok (Some v))
                | None => ret (Ok None)
                end) in
    backfill_loop fuel m mv t source target guard job cur rep.

Fixpoint run_backfill (fuel : nat) (m : ShardMigrator) (guard : option G) (l : list ShardMove)
    (rep : MigrationReport) : M MigrationReport :=
  match l with
  | [] => ret (Ok rep)
  | mv :: l =>
      do! rep := backfill_move fuel m mv guard rep in
      run_backfill fuel m guard l rep
  end.

Definition backfill (fuel : nat) (m : ShardMigrator) : M MigrationReport :=
  do! _ := preflight_schema m in
  do! _ := ensure_schema in
  do! guard := acquire_fence in
  do! outcome := try (run_backfill fuel m guard (moves (plan m))
                        {| moved_rows := 0; chunks := 0; verified := false |}) in
  do! released := try (release_fence guard) in
  do! rep := ret outcome in
  do! _ := ret released in
  ret (Ok rep).

(** *** Verify *)

(** Rows and checksum of the rows a predicate takes, page by page. *)
Fixpoint count_batch (takes : Row -> result bool ShardError) (batch : list Row) (rc : Z * Z)
    : result (Z * Z) ShardError :=
  match batch with
  | [] => Ok rc
  | r :: batch =>
      let? b := takes r in
      if b then
        let n := Z.min u64_max (rc.1 + 1) in
        let? c := row_checksum r in
        count_batch takes batch (n, Z.lxor rc.2 c)
      else count_batch takes batch rc
  end.

Fixpoint scan_stats (fuel : nat) (m : ShardMigrator) (c : client) (t : ShardTable)
    (range : option KeyRange) (takes : Row -> result bool ShardError) (cur : option Value)
    (rc : Z * Z) : M (Z * Z) :=
  match fuel with
  | O => ret (Err OutOfFuel)
  | S fuel =>
      do! batch := scan_chunk m c t range cur in
      match last batch with
      | None => ret (Ok rc)
      | Some r =>
          do! rc := lift (count_batch takes batch rc) in
          do! last_pk := lift (row_value r (pk t)) in
          scan_stats fuel m c t range takes (Some last_pk) rc
      end
  end.

Definition scan_move_stats (fuel : nat) (m : ShardMigrator) (c : client) (t : ShardTable)
    (mv : ShardMove) : M (Z * Z) :=
  scan_stats fuel m c t (key_range mv) (routes_to m mv) None (0, 0).

Definition in_scope (m : ShardMigrator) (t : ShardTable) (mv : ShardMove) (r : Row)
    : result bool ShardError :=
  match key_range mv with
  | None => routes_to m mv r
  | Some range =>
      let? v := row_value r (key t) in
      let? k := ok_or (as_i64 v) (Database ("range migration key in `" +:+ mv_table mv
                                            +:+ "` is not an integer")) in
      Ok (match low range with None => true | Some l => l <=? k end
          && match high range with None => true | Some h => k <? h end)
  end.

Fixpoint row_in_any_scope (m : ShardMigrator) (t : ShardTable) (l : list ShardMove) (r : Row)
    : result bool ShardError :=
  match l with
  | [] => Ok false
  | mv :: l => let? b := in_scope m t mv r in if b then Ok true else row_in_any_scope m t l r
  end.

Definition scan_target_stats (fuel : nat) (m : ShardMigrator) (c : client) (t : ShardTable)
    (l : list ShardMove) : M (Z * Z) :=
  scan_stats fuel m c t None (row_in_any_scope m t l) None (0, 0).

Definition missing_job (mv : ShardMove) (tail : string) : ShardError :=
  Config ("migration job for " +:+ mv_table mv +:+ " " +:+ from mv +:+ "→" +:+ to mv
          +:+ " is missing" +:+ tail).

Fixpoint load_jobs (l : list ShardMove) : M (list JobState) :=
  match l with
  | [] => ret (Ok [])
  | mv :: l =>
      do! found := load_job (move_id mv) in
      do! job := lift (ok_or found (missing_job mv "; run backfill first")) in
      do! rest := load_jobs l in
      ret (Ok (job :: rest))
  end.

Definition settled (j : JobState) : bool := bool_decide (phase j = Done \/ phase j = RolledBack).

(** [saturating_add] and XOR over the jobs or the sources of a group. *)
Definition sum_stats (l : list (Z * Z)) : Z * Z :=
  foldl (fun acc rc => (Z.min u64_max (acc.1 + rc.1), Z.lxor acc.2 rc.2)) (0, 0) l.

Fixpoint source_stats (fuel : nat) (m : ShardMigrator) (t : ShardTable) (l : list ShardMove)
    : M (list (Z * Z)) :=
  match l with
  | [] => ret (Ok [])
  | mv :: l =>
      do! source := find_client m (from mv) in
      do! rc := scan_move_stats fuel m source t mv in
      do! rest := source_stats fuel m t l in
      ret (Ok (rc :: rest))
  end.

Fixpoint save_verified (l : list (ShardMove * JobState)) : M unit :=
  match l with
  | [] => ret (Ok tt)
  | (mv, job) :: l => do! _ := save_job mv (set_phase Verified job) in save_verified l
  end.

Definition stats_text (rc : Z * Z) : string := dec_text rc.1 +:+ "/" +:+ hex16 rc.2.

(** One group: the moves of a table to one shard. *)
Definition verify_group (fuel : nat) (m : ShardMigrator) (name target_shard : string)
    (l : list ShardMove) : M unit :=
  do! t := lift (table (new_catalog m) name) in
  do! js := load_jobs l in
  if forallb settled js then ret (Ok tt)
  else
    let job := sum_stats (map (fun j => (rows j, checksum j)) js) in
    do! srcs := source_stats fuel m t l in
    let source := sum_stats srcs in
    do! target := find_client m target_shard in
    do! tgt := scan_target_stats fuel m target t l in
    if negb (bool_decide (source = job))
    then lift (Err (Config ("backfill incomplete for table `" +:+ name +:+ "` target `"
               +:+ target_shard +:+ "`: source " +:+ stats_text source +:+ ", job "
               +:+ stats_text job)))
    else if negb (bool_decide (source = tgt))
    then lift (Err (Config ("verify mismatch for table `" +:+ name +:+ "` target `"
               +:+ target_shard +:+ "`: source " +:+ stats_text source +:+ ", target "
               +:+ stats_text tgt)))
    else save_verified (zip l js).

(** The [BTreeMap] of groups, in key order. *)
Fixpoint add_to_group (mv : ShardMove) (l : list ((string * string) * list ShardMove))
    : list ((string * string) * list ShardMove) :=
  match l with
  | [] => [((mv_table mv, to mv), [mv])]
  | (k, g) :: l' =>
      if decide (k = (mv_table mv, to mv)) then (k, g ++ [mv]) :: l'
      else if String.ltb (mv_table mv) k.1
              || (String.eqb (mv_table mv) k.1 && String.ltb (to mv) k.2)
      then ((mv_table mv, to mv), [mv]) :: l
      else (k, g) :: add_to_group mv l'
  end.

Definition groups (l : list ShardMove) : list ((string * string) * list ShardMove) :=
  foldl (fun acc mv => add_to_group mv acc) [] l.

Fixpoint verify_groups (fuel : nat) (m : ShardMigrator)
    (l : list ((string * string) * list ShardMove)) : M unit :=
  match l with
  | [] => ret (Ok tt)
  | (k, g) :: l => do! _ := verify_group fuel m k.1 k.2 g in verify_groups fuel m l
  end.

Definition verify (fuel : nat) (m : ShardMigrator) : M unit :=
  do! _ := preflight_schema m in
  verify_groups fuel m (groups (moves (plan m))).

(** *** Cutover and rollback *)

Definition reload_router (c : ShardCatalog) : M unit :=
  effect (fun w => let '(r, res) := reload (router w) c in
    (map_err Failed res,
     {| dbs := dbs w; jobs := jobs w; fence := fence w; router := r |})).

Fixpoint require_verified (l : list ShardMove) : M unit :=
  match l with
  | [] => ret (Ok tt)
  | mv :: l =>
      do! found := load_job (move_id mv) in
      do! job := lift (ok_or found (missing_job mv "")) in
      if decide (phase job ∈ [Verified; Done]) then require_verified l
      else lift (Err (Config ("migration job for " +:+ mv_table mv +:+ " " +:+ from mv +:+ "→"
             +:+ to mv +:+ " is not verified (phase `" +:+ as_str (phase job) +:+ "`)")))
  end.

Fixpoint mark_jobs (p : Phase) (l : list ShardMove) : M unit :=
  match l with
  | [] => ret (Ok tt)
  | mv :: l =>
      do! found := load_job (move_id mv) in
      do! _ := (match found with
                | Some job => save_job mv (set_phase p job)
                | None => ret (Ok tt)
                end) in
      mark_jobs p l
  end.

Definition cutover (m : ShardMigrator) (catalog : ShardCatalog) : M unit :=
  do! _ := preflight_schema m in
  do! _ := require_verified (moves (plan m)) in
  do! _ := reload_router catalog in
  mark_jobs Done (moves (plan m)).

Definition rollback (m : ShardMigrator) : M unit :=
  do! _ := reload_router (old_catalog m) in
  mark_jobs RolledBack (moves (plan m)).

End Migrator.
End Migrate.
