(* ===== verification/MigrateFacts.v ===== *)
(** * Shard migration: contracts and lemmas

    What the executor relies on in its databases and its job table
    ([ShardDbContract], [JobStoreContract]), the page-by-page scan, and the
    invariant of the job table under a backfill that can die anywhere. *)

From S2P Require Import Prelude Dialect Crash Json Text ShardCatalog ShardRouter MigrationPlan Migrate.

Local Open Scope Z_scope.
Local Open Scope ecat_scope.

Module MigrateFacts.
Import Catalog CatalogFacts Router Plan Schema Migrate.

Section Contracts.
Context `{JT : JsonText}.

Definition col (r : Row) (c : string) : option Value := (r : gmap string Value) !! c.

(** [key >= low AND key < high]; a value that is no integer is in no range. *)
Definition inside (t : ShardTable) (range : option KeyRange) (r : Row) : bool :=
  match range with
  | None => true
  | Some g =>
      match col r (key t) with
      | Some v => match as_i64 v with
                  | Some k => PlanFacts.in_range k (low g) (high g)
                  | None => false
                  end
      | None => false
      end
  end.

(** The primary key is at most the cursor. *)
Definition upto (lt : Value -> Value -> bool) (t : ShardTable) (cur : option Value) (r : Row) : bool :=
  match cur with
  | None => false
  | Some c => match col r (pk t) with Some v => negb (lt c v) | None => false end
  end.

(** The row is there, in place of the one with its primary key. *)
Definition upserted (t : ShardTable) (r : Row) (old new : list Row) : Prop :=
  r ∈ new /\
  (forall q, q ∈ old -> q ∈ new \/ col q (pk t) = col r (pk t)) /\
  (forall q, q ∈ new -> q = r \/ (q ∈ old /\ col q (pk t) <> col r (pk t))).

(** [content] is a table, [pk_lt] the order of the primary key. *)
Class ShardDbContract (D : Type) `{!ShardDb D} := {
  content : D -> string -> list Row;
  pk_lt : Value -> Value -> bool;
  pk_lt_irrefl v : pk_lt v v = false;
  pk_lt_trans a b c : pk_lt a b = true -> pk_lt b c = true -> pk_lt a c = true;
  scan_law d t range cur n l : scan d t range cur n = Ok l ->
    l = take n (List.filter (fun r => negb (upto pk_lt t cur r) && inside t range r)
                  (content d (tb_name t)));
  (** An upsert that reports an error may still have been applied. *)
  upsert_law d t r : let '(res, d') := upsert d t r in
    (content d' (tb_name t) = content d (tb_name t) \/
     upserted t r (content d (tb_name t)) (content d' (tb_name t))) /\
    (res = Ok tt -> upserted t r (content d (tb_name t)) (content d' (tb_name t))) /\
    forall name, name <> tb_name t -> content d' name = content d name;
}.

Class JobStoreContract (J : Type) `{!JobStore J} := {
  job_rows : J -> gmap string JobRow;
  create_law j : job_rows (create_jobs j).2 = job_rows j;
  select_law j id o : select_job j id = Ok o -> o = job_rows j !! id;
  insert_law j id r : let '(res, j') := insert_job j id r in
    job_rows j' = job_rows j \/ (job_rows j !! id = None /\ job_rows j' = <[id := r]> (job_rows j));
  update_law j id r : let '(res, j') := update_job j id r in
    (job_rows j' = job_rows j \/
     (is_Some (job_rows j !! id) /\ job_rows j' = <[id := r]> (job_rows j))) /\
    (res = Ok tt -> is_Some (job_rows j !! id) -> job_rows j' = <[id := r]> (job_rows j));
}.

Class CursorLaw `{!CursorCodec} :=
  cursor_roundtrip : forall v s, cursor_text v = Ok s -> cursor_value s = Ok v.

End Contracts.

(** ** Pages of a sorted table *)

Section Pages.
Context `{JT : JsonText} (lt : Value -> Value -> bool).
Context (lt_irrefl : forall v, lt v v = false).
Context (lt_trans : forall a b c, lt a b = true -> lt b c = true -> lt a c = true).

Definition row_lt (t : ShardTable) (a b : Row) : Prop :=
  exists va vb, col a (pk t) = Some va /\ col b (pk t) = Some vb /\ lt va vb = true.

(** A table in ascending order of a primary key that no row lacks. *)
Definition keyed (t : ShardTable) (l : list Row) : Prop :=
  StronglySorted (row_lt t) l /\ Forall (fun r => is_Some (col r (pk t))) l.

Lemma filter_true {A} (f : A -> bool) l : Forall (fun x => f x = true) l -> List.filter f l = l.
Proof. induction 1 as [|x l Hx _ IH]; simpl; [done|]. by rewrite Hx, IH. Qed.

Lemma filter_false {A} (f : A -> bool) l : Forall (fun x => f x = false) l -> List.filter f l = [].
Proof. induction 1 as [|x l Hx _ IH]; simpl; [done|]. by rewrite Hx, IH. Qed.

Lemma filter_and {A} (f g : A -> bool) l :
  List.filter (fun x => f x && g x) l = List.filter f (List.filter g l).
Proof. induction l as [|x l IH]; simpl; [done|]. destruct (g x); simpl; destruct (f x); simpl; congruence. Qed.

Lemma keyed_filter t f l : keyed t l -> keyed t (List.filter f l).
Proof.
  intros [Hs Hp]. split.
  - induction Hs as [|x l Hs IH Hx]; simpl; [constructor|]. inv Hp.
    destruct (f x); [|auto]. constructor; [auto|]. rewrite Forall_forall in Hx |- *.
    intros y Hy. apply Hx. apply list_elem_of_In, List.filter_In in Hy as [Hy _].
    by apply list_elem_of_In.
  - rewrite Forall_forall in Hp |- *. intros y Hy. apply Hp.
    apply list_elem_of_In, List.filter_In in Hy as [Hy _]. by apply list_elem_of_In.
Qed.

Lemma upto_before t cur a b : row_lt t a b -> upto lt t cur b = true -> upto lt t cur a = true.
Proof.
  intros (va & vb & Ha & Hb & Hlt). unfold upto. destruct cur as [c|]; [|done]. rewrite Ha, Hb.
  destruct (lt c va) eqn:E; [|done]. by rewrite (lt_trans _ _ _ E Hlt).
Qed.

(** What a cursor has passed is a prefix. *)
Lemma upto_prefix t cur l :
  keyed t l -> List.filter (upto lt t cur) l ++ List.filter (fun r => negb (upto lt t cur r)) l = l.
Proof.
  intros [Hs _]. induction Hs as [|x l Hs IH Hx]; [done|]. simpl.
  destruct (upto lt t cur x) eqn:E; simpl; [by rewrite IH|].
  assert (Hnone : List.filter (upto lt t cur) l = []).
  { apply filter_false. eapply Forall_impl; [exact Hx|]. simpl. intros y Hy.
    destruct (upto lt t cur y) eqn:Ey; [|done]. by rewrite (upto_before _ _ _ _ Hy Ey) in E. }
  rewrite Hnone in IH |- *. simpl in *. by rewrite IH.
Qed.

(** Moving the cursor to the last row of a page passes exactly the page. *)
Lemma page_advances t cur l n r v :
  keyed t l -> let page := take n (List.filter (fun r => negb (upto lt t cur r)) l) in
  last page = Some r -> col r (pk t) = Some v ->
  List.filter (upto lt t (Some v)) l = List.filter (upto lt t cur) l ++ page.
Proof.
  intros Hk page Hlast Hv. pose proof (upto_prefix t cur l Hk) as Hpre.
  set (after := List.filter (fun r => negb (upto lt t cur r)) l) in *.
  set (before := List.filter (upto lt t cur) l) in *.
  apply last_Some in Hlast as [front Hpage].
  assert (Hsplit : l = ((before ++ front) ++ [r]) ++ drop n after).
  { rewrite <- (app_assoc before front [r]), <- Hpage, <- app_assoc. unfold page.
    by rewrite take_drop. }
  destruct Hk as [Hs Hp]. rewrite Hsplit in Hs.
  apply StronglySorted_app in Hs as (Hrest & Hs & _). apply StronglySorted_app in Hs as (Hbr & _ & _).
  rewrite Hsplit at 1. rewrite List.filter_app, (filter_false _ (drop n after)), app_nil_r.
  - rewrite filter_true; [by rewrite Hpage, app_assoc|]. apply Forall_app. split.
    + apply Forall_forall. intros x Hx.
      destruct (Hbr x r Hx ltac:(set_solver)) as (va & vb & Ha & Hb & Hlt).
      unfold upto. rewrite Ha. rewrite Hv in Hb. simplify_eq.
      destruct (lt vb va) eqn:E; [|done]. pose proof (lt_trans _ _ _ Hlt E) as Hc.
      by rewrite lt_irrefl in Hc.
    + constructor; [|constructor]. unfold upto. by rewrite Hv, lt_irrefl.
  - apply Forall_forall. intros x Hx.
    destruct (Hrest r x ltac:(set_solver) Hx) as (va & vb & Ha & Hb & Hlt).
    unfold upto. rewrite Hb. rewrite Hv in Ha. simplify_eq. by rewrite Hlt.
Qed.

(** An empty page means that the cursor has passed everything. *)
Lemma page_empty t cur l n :
  keyed t l -> (1 <= n)%nat ->
  last (take n (List.filter (fun r => negb (upto lt t cur r)) l)) = None ->
  List.filter (upto lt t cur) l = l.
Proof.
  intros Hk Hn Hlast. apply last_None in Hlast.
  assert (Ha : List.filter (fun r => negb (upto lt t cur r)) l = []).
  { destruct (List.filter _ l); [done|]. destruct n; [lia|done]. }
  pose proof (upto_prefix t cur l Hk) as Hpre. by rewrite Ha, app_nil_r in Hpre.
Qed.

(** What is left after the cursor shrinks with every page. *)
Lemma page_shrinks t cur l n r v :
  keyed t l ->
  last (take n (List.filter (fun r => negb (upto lt t cur r)) l)) = Some r ->
  col r (pk t) = Some v ->
  (length (List.filter (fun r => negb (upto lt t (Some v) r)) l) <
   length (List.filter (fun r => negb (upto lt t cur r)) l))%nat.
Proof.
  intros Hk Hlast Hv. pose proof (page_advances _ _ _ _ _ _ Hk Hlast Hv) as Hadv. simpl in Hadv.
  pose proof (f_equal length (upto_prefix t cur l Hk)) as H1.
  pose proof (f_equal length (upto_prefix t (Some v) l Hk)) as H2.
  rewrite !length_app in H1, H2. rewrite Hadv, length_app in H2.
  apply last_Some in Hlast as [front Hpage]. rewrite Hpage, length_app in H2. cbn [length] in H2. lia.
Qed.

End Pages.
(** ** The job table *)

Section Jobs.
Context `{JT : JsonText}.
Context {D J F G : Type} `{SD : !ShardDb D} `{JS : !JobStore J} `{CC : !CursorCodec} `{FN : !Fence F G}.
Context `{SC : !ShardDbContract D} `{JC : !JobStoreContract J} `{CL : !CursorLaw}.

Local Abbreviation world := (Migrate.world (D := D) (J := J) (F := F)).

Definition job_row (w : world) (mv : ShardMove) : option JobRow := job_rows (jobs w) !! move_id mv.

(** A table behind a client handle. *)
Definition tb (w : world) (c : positive) (name : string) : list Row :=
  match dbs w !! c with Some d => content d name | None => [] end.

Lemma wp_lift {A} (r : result A ShardError) (Q : result A stop -> world -> Prop) I w :
  (forall x, r = Ok x -> Q (Ok x) w) -> (forall e, r = Err e -> Q (Err (Failed e)) w) ->
  wp (lift r) Q I w.
Proof. intros Ho He. apply wp_ret. destruct r; simpl; auto. Qed.

Lemma wp_check_dialect (Q : result unit stop -> world -> Prop) I w :
  Q (Ok tt) w -> (forall e, Q (Err (Failed e)) w) -> wp check_dialect Q I w.
Proof.
  intros Ho He. unfold check_dialect. apply wp_bind, wp_get. apply wp_lift.
  - intros [] _. exact Ho.
  - intros e _. apply He.
Qed.

(** Statements on the job table leave the rest of the world. *)
Definition jobs_only (w w' : world) : Prop := dbs w' = dbs w /\ router w' = router w.

Lemma wp_on_jobs {A} (f : J -> result A ShardError * J) (Q : result A stop -> world -> Prop)
    (I : world -> Prop) w :
  I w ->
  (forall r j, f (jobs w) = (r, j) -> Q (map_err Failed r) (set_jobs j w)) ->
  wp (on_jobs f) Q I w.
Proof.
  intros Hi Hq. apply wp_effect; [done|]. destruct (f (jobs w)) as [r j] eqn:E. by apply Hq.
Qed.

Lemma wp_load_job id (Q : result (option JobState) stop -> world -> Prop) (I : world -> Prop) w :
  I w -> (forall e, Q (Err (Failed e)) w) ->
  (forall o, match job_rows (jobs w) !! id with
             | None => o = None
             | Some row => exists job, decode_job row = Ok job /\ o = Some job end -> Q (Ok o) w) ->
  wp (load_job id) Q I w.
Proof.
  intros Hi He Hq. unfold load_job. apply wp_bind, wp_check_dialect; [|auto].
  apply wp_bind, wp_on_jobs; [done|]. intros r j Hr. simplify_eq.
  assert (Hw : set_jobs (jobs w) w = w) by (by destruct w). rewrite Hw.
  destruct (select_job (jobs w) id) as [o|e] eqn:Hs; simpl; [|auto].
  apply select_law in Hs as ->. destruct (job_rows (jobs w) !! id) as [row|] eqn:Hrow.
  - apply wp_bind, wp_lift; [|auto]. intros job Hjob. apply wp_ret, Hq. eauto.
  - by apply wp_ret, Hq.
Qed.

Lemma decode_fresh : decode_job fresh_job = Ok {| phase := Pending; cursor := None; rows := 0; checksum := 0 |}.
Proof. reflexivity. Qed.

(** A saved job reads back. *)
Lemma decode_encode job row :
  0 <= rows job -> 0 <= checksum job < 2 ^ 64 -> encode_job job = Ok row -> decode_job row = Ok job.
Proof.
  intros Hn Hc. unfold encode_job. destruct (rows job <? 2 ^ 63) eqn:E; [|done].
  intros; simplify_eq. unfold decode_job; simpl. rewrite (proj2 (Z.leb_le _ _) Hn). simpl.
  rewrite parse_dec_text by done. simpl. by destruct job as [[] ? ? ?].
Qed.

(** Other jobs are untouched. *)
Definition others_same (mv : ShardMove) (w w' : world) : Prop :=
  forall id, id <> move_id mv -> job_rows (jobs w') !! id = job_rows (jobs w) !! id.

Lemma wp_ensure_job mv (Q : result JobState stop -> world -> Prop) (I : world -> Prop) w :
  (forall w', jobs_only w w' -> others_same mv w w' ->
     (job_row w' mv = job_row w mv \/ (job_row w mv = None /\ job_row w' mv = Some fresh_job)) ->
     I w' /\ (forall e, Q (Err (Failed e)) w') /\
     (forall row job, job_row w' mv = Some row -> decode_job row = Ok job -> Q (Ok job) w')) ->
  wp (ensure_job mv) Q I w.
Proof.
  intros Hw. destruct (Hw w) as (Hi & He & Hok); [done|by intros ? ?|by left|].
  unfold ensure_job. apply wp_bind, wp_load_job; [done|auto|]. intros o Ho.
  fold (job_row w mv) in Ho. destruct (job_row w mv) as [row|] eqn:Hrow.
  - destruct Ho as (job & Hd & ->). apply wp_ret. by eapply Hok.
  - subst o. apply wp_bind, wp_check_dialect; [|auto]. apply wp_bind, wp_on_jobs; [done|].
    intros r j Hr. pose proof (insert_law (jobs w) (move_id mv) fresh_job) as Hl. rewrite Hr in Hl.
    destruct (Hw (set_jobs j w)) as (Hi' & He' & Hok'); [done| | |].
    + intros id Hid. simpl. destruct Hl as [->|[_ ->]]; [done|]. by rewrite lookup_insert_ne.
    + unfold job_row; simpl. destruct Hl as [->|[Hn ->]]; [left; exact Hrow|].
      right. by rewrite lookup_insert_eq.
    + destruct r as [u|e]; simpl; [|auto]. apply wp_bind, wp_load_job; [done|auto|].
      intros o Ho. fold (job_row (set_jobs j w) mv) in Ho. apply wp_lift; [|auto].
      intros job Hjob. destruct (job_row (set_jobs j w) mv) as [row|] eqn:Hr'.
      * destruct Ho as (job' & Hd & ->). simpl in Hjob. simplify_eq. by eapply Hok'.
      * subst o. done.
Qed.

Lemma wp_save_job mv job (Q : result unit stop -> world -> Prop) (I : world -> Prop) w :
  is_Some (job_row w mv) -> I w ->
  (forall e w', jobs_only w w' -> others_same mv w w' ->
     (job_row w' mv = job_row w mv \/
      exists row, encode_job job = Ok row /\ job_row w' mv = Some row) -> Q (Err (Failed e)) w') ->
  (forall w' row, jobs_only w w' -> others_same mv w w' -> encode_job job = Ok row ->
     job_row w' mv = Some row -> Q (Ok tt) w') ->
  wp (save_job mv job) Q I w.
Proof.
  intros Hsome Hi He Hq.
  assert (He0 : forall e, Q (Err (Failed e)) w) by (intros e; apply He; [done|by intros ? ?|by left]).
  unfold save_job. apply wp_bind, wp_check_dialect; [|auto].
  apply wp_bind, wp_lift; [|auto]. intros row Hrow. apply wp_on_jobs; [done|].
  intros r j Hr. pose proof (update_law (jobs w) (move_id mv) row) as Hl. rewrite Hr in Hl.
  destruct Hl as [Hor Hok].
  assert (Hoth : others_same mv w (set_jobs j w)).
  { intros id Hid. simpl. destruct Hor as [->|[_ ->]]; [done|]. by rewrite lookup_insert_ne. }
  destruct r as [[]|e]; simpl.
  - apply (Hq _ row); [done|done|done|]. unfold job_row; simpl.
    by rewrite (Hok eq_refl Hsome), lookup_insert_eq.
  - apply He; [done|done|]. unfold job_row; simpl. destruct Hor as [->|[_ ->]]; [by left|].
    right. exists row. by rewrite lookup_insert_eq.
Qed.

(** ** One executor *)

Section Executor.
Context (m : ShardMigrator) (w0 : world).

(** The rows of a move: in its range, at its source, routed to its target. *)
Definition mine (mv : ShardMove) (t : ShardTable) (c : positive) : list Row :=
  List.filter (inside t (key_range mv)) (tb w0 c (mv_table mv)).

Definition carried (mv : ShardMove) (r : Row) : Prop :=
  exists t c, table (new_catalog m) (mv_table mv) = Ok t /\ clients m !! from mv = Some c /\
    r ∈ mine mv t c /\ routes_to m mv r = Ok true.

(** The situation a migration is planned for: no client is both a source and a
    target, every source is in primary-key order, two rows with one primary key
    that go to the same table of the same target are the same row, and the moves
    have different identifiers. *)
Record planned : Prop := {
  no_self : forall mv mv' c, mv ∈ moves (plan m) -> mv' ∈ moves (plan m) ->
    clients m !! from mv = Some c -> clients m !! to mv' = Some c -> False;
  sources_keyed : forall mv t c, mv ∈ moves (plan m) -> table (new_catalog m) (mv_table mv) = Ok t ->
    clients m !! from mv = Some c -> keyed pk_lt t (tb w0 c (mv_table mv));
  no_conflict : forall mv mv' t r r', mv ∈ moves (plan m) -> mv' ∈ moves (plan m) ->
    mv_table mv = mv_table mv' -> clients m !! to mv = clients m !! to mv' ->
    table (new_catalog m) (mv_table mv) = Ok t -> carried mv r -> carried mv' r' ->
    col r (pk t) = col r' (pk t) -> r = r';
  unique_ids : NoDup (map move_id (moves (plan m)));
  chunks_progress : (1 <= chunk_size m)%nat;
}.

Context (Hplan : planned).

Lemma same_id mv mv' :
  mv ∈ moves (plan m) -> mv' ∈ moves (plan m) -> move_id mv = move_id mv' -> mv = mv'.
Proof.
  intros Hm Hm' He. apply list_elem_of_lookup in Hm as [i Hi], Hm' as [j Hj].
  assert (i = j) as ->; [|congruence].
  eapply (NoDup_lookup (map move_id (moves (plan m))) i j (move_id mv)); [apply Hplan|..];
    rewrite list_lookup_fmap, ?Hi, ?Hj; simpl; congruence.
Qed.

Definition sources_same (w : world) : Prop :=
  forall mv c name, mv ∈ moves (plan m) -> clients m !! from mv = Some c -> tb w c name = tb w0 c name.

(** A row of a move is at the move's target. *)
Definition delivered (w : world) (mv : ShardMove) (r : Row) : Prop :=
  exists c, clients m !! to mv = Some c /\ r ∈ tb w c (mv_table mv).

Definition kept_rows (w w' : world) : Prop :=
  forall mv r, mv ∈ moves (plan m) -> carried mv r -> delivered w mv r -> delivered w' mv r.

Definition cursor_at (s : option string) (cur : option Value) : Prop :=
  match s with
  | None => cur = None
  | Some s => exists v, cursor_value s = Ok v /\ cur = Some v
  end.

(** A job is honest about what it has done: its counters are those of the rows up to
    its cursor, and these rows have arrived. *)
Definition honest (w : world) (mv : ShardMove) (job : JobState) (cur : option Value) : Prop :=
  cursor_at (cursor job) cur /\
  forall t c, table (new_catalog m) (mv_table mv) = Ok t -> clients m !! from mv = Some c ->
    let done_ := List.filter (upto pk_lt t cur) (mine mv t c) in
    count_batch (routes_to m mv) done_ (0, 0) = Ok (rows job, checksum job) /\
    forall r, r ∈ done_ -> routes_to m mv r = Ok true -> delivered w mv r.

Definition job_inv (w : world) (mv : ShardMove) : Prop :=
  match job_row w mv with
  | None => True
  | Some row => exists job cur, decode_job row = Ok job /\
      (phase job = Pending \/ phase job = Backfilling) /\ honest w mv job cur
  end.

Definition inv (w : world) : Prop :=
  sources_same w /\ forall mv, mv ∈ moves (plan m) -> job_inv w mv.

(** Everything of a move has arrived and its job has counted it. *)
Definition complete (w : world) (mv : ShardMove) : Prop :=
  exists row job t c, job_row w mv = Some row /\ decode_job row = Ok job /\
    table (new_catalog m) (mv_table mv) = Ok t /\ clients m !! from mv = Some c /\
    count_batch (routes_to m mv) (mine mv t c) (0, 0) = Ok (rows job, checksum job) /\
    forall r, r ∈ mine mv t c -> routes_to m mv r = Ok true -> delivered w mv r.

(** What an operation on one move leaves of the others. *)
Definition elsewhere (mv : ShardMove) (w w' : world) : Prop :=
  kept_rows w w' /\ others_same mv w w'.

Lemma elsewhere_refl mv w : elsewhere mv w w.
Proof. split; [by intros ? ? ? ?|by intros ? ?]. Qed.

Lemma elsewhere_trans mv w1 w2 w3 : elsewhere mv w1 w2 -> elsewhere mv w2 w3 -> elsewhere mv w1 w3.
Proof.
  intros [Hk1 Ho1] [Hk2 Ho2]. split; [intros mv' r Hin Hc Hd; auto|].
  intros id Hid. by rewrite Ho2, Ho1.
Qed.

Lemma elsewhere_complete mv mv' w w' :
  mv ∈ moves (plan m) -> mv' ∈ moves (plan m) -> mv' <> mv -> elsewhere mv w w' ->
  complete w mv' -> complete w' mv'.
Proof.
  intros Hin Hin' Hne [Hk Ho] (row & job & t & c & Hr & Hd & Ht & Hc & Hcount & Hall).
  exists row, job, t, c. split.
  - unfold job_row in *. rewrite Ho; [done|]. intros He. apply Hne. by apply same_id.
  - split_and!; try done. intros r Hrm Hrt. apply Hk; [done| |auto]. by exists t, c.
Qed.

(** The invariant only depends on the sources, the job's own row and its deliveries. *)
Lemma inv_elsewhere mv w w' :
  mv ∈ moves (plan m) -> inv w -> sources_same w' -> elsewhere mv w w' -> job_inv w' mv -> inv w'.
Proof.
  intros Hin [_ Hj] Hs [Hk Ho] Hmv. split; [done|]. intros mv' Hin'.
  destruct (decide (move_id mv' = move_id mv)) as [He|Hne].
  { by rewrite (same_id mv' mv Hin' Hin He). }
  specialize (Hj mv' Hin'). unfold job_inv, job_row in *. rewrite Ho by done.
  destruct (job_rows (jobs w) !! move_id mv') as [row|]; [|done].
  destruct Hj as (job & cur & Hd & Hph & Hcur & Hh). exists job, cur. split; [done|]. split; [done|].
  split; [done|]. intros t c Ht Hc. destruct (Hh t c Ht Hc) as [Hn Hall]. split; [done|].
  intros r Hr Hrt. apply Hk; [done| |auto]. exists t, c. split; [done|]. split; [done|]. split; [|done].
  apply list_elem_of_In, List.filter_In in Hr as [Hr _]. by apply list_elem_of_In.
Qed.

Lemma jobs_only_tb w w' c name : jobs_only w w' -> tb w' c name = tb w c name.
Proof. intros [Hd _]. unfold tb. by rewrite Hd. Qed.

Lemma jobs_only_elsewhere mv w w' : jobs_only w w' -> others_same mv w w' -> elsewhere mv w w'.
Proof.
  intros Hj Ho. split; [|done]. intros mv' r _ _ (c & Hc & Hr). exists c. split; [done|].
  by rewrite (jobs_only_tb w w').
Qed.

Lemma jobs_only_sources w w' : jobs_only w w' -> sources_same w -> sources_same w'.
Proof. intros Hj Hs mv c name Hin Hc. rewrite (jobs_only_tb w w') by done. by eapply Hs. Qed.

Lemma honest_jobs_only w w' mv job cur : jobs_only w w' -> honest w mv job cur -> honest w' mv job cur.
Proof.
  intros Hj [Hc Hh]. split; [done|]. intros t c Ht Hcl. destruct (Hh t c Ht Hcl) as [Hn Hall].
  split; [done|]. intros r Hr Hrt. destruct (Hall r Hr Hrt) as (c' & Hc' & Hr').
  exists c'. split; [done|]. by rewrite (jobs_only_tb w w').
Qed.

(** *** Counting *)

Lemma count_batch_app takes l1 l2 rc :
  count_batch takes (l1 ++ l2) rc = rbind (count_batch takes l1 rc) (count_batch takes l2).
Proof.
  revert rc. induction l1 as [|r l1 IH]; intros rc; [done|]. simpl.
  destruct (takes r) as [[|]|]; simpl; [|auto|done]. destruct (row_checksum r); simpl; auto.
Qed.

Lemma row_checksum_range r c : row_checksum r = Ok c -> 0 <= c < 2 ^ 64.
Proof.
  unfold row_checksum, stable_hash64. intros; simplify_eq. apply fnv1a64_range.
Qed.

Definition counted (rc : Z * Z) : Prop := 0 <= rc.1 <= u64_max /\ 0 <= rc.2 < 2 ^ 64.

Lemma lxor_u64 a b : 0 <= a < 2 ^ 64 -> 0 <= b < 2 ^ 64 -> 0 <= Z.lxor a b < 2 ^ 64.
Proof.
  intros Ha Hb. assert (Hnn : 0 <= Z.lxor a b) by (apply Z.lxor_nonneg; lia). split; [done|].
  destruct (Z.eq_dec (Z.lxor a b) 0) as [->|Hne]; [lia|].
  apply Z.log2_lt_pow2; [lia|]. pose proof (Z.log2_lxor a b ltac:(lia) ltac:(lia)) as Hl.
  assert (Hlog : forall x, 0 <= x < 2 ^ 64 -> Z.log2 x < 64).
  { intros x Hx. destruct (Z.eq_dec x 0) as [->|]; [done|]. apply Z.log2_lt_pow2; lia. }
  pose proof (Hlog a Ha). pose proof (Hlog b Hb). lia.
Qed.

Lemma count_batch_counted takes l rc rc' :
  counted rc -> count_batch takes l rc = Ok rc' -> counted rc'.
Proof.
  revert rc. induction l as [|r l IH]; intros rc Hrc Hl; simpl in Hl; [by simplify_eq|].
  destruct (takes r) as [[|]|]; simpl in Hl; [|by eapply IH|done].
  destruct (row_checksum r) as [c|] eqn:Hc; [|done]. simpl in Hl. apply IH in Hl; [done|].
  destruct Hrc as [[? ?] ?]. split; simpl; [lia|]. apply lxor_u64; [done|by eapply row_checksum_range].
Qed.

(** *** Reading and writing rows *)

Lemma wp_read_db {A} c (f : D -> result A ShardError) (Q : result A stop -> world -> Prop)
    (I : world -> Prop) w :
  I w -> (forall e, Q (Err (Failed e)) w) ->
  (forall d x, dbs w !! c = Some d -> f d = Ok x -> Q (Ok x) w) ->
  wp (on_db c (fun d => (f d, d))) Q I w.
Proof.
  intros Hi He Hq. apply wp_effect; [done|]. destruct (dbs w !! c) as [d|] eqn:Hd; simpl; [|auto].
  assert (Hw : set_dbs (<[c:=d]> (dbs w)) w = w) by (unfold set_dbs; rewrite insert_id by done; by destruct w).
  rewrite Hw. destruct (f d) eqn:Hf; simpl; eauto.
Qed.

Lemma wp_scan_chunk c t range cur (Q : result (list Row) stop -> world -> Prop)
    (I : world -> Prop) w :
  I w -> (forall e, Q (Err (Failed e)) w) ->
  Q (Ok (take (chunk_size m) (List.filter (fun r => negb (upto pk_lt t cur r))
            (List.filter (inside t range) (tb w c (tb_name t)))))) w ->
  wp (scan_chunk m c t range cur) Q I w.
Proof.
  intros Hi He Hq. unfold scan_chunk. apply wp_read_db; [done|auto|].
  intros d l Hd Hl. apply scan_law in Hl as ->. rewrite filter_and. unfold tb in Hq. by rewrite Hd in Hq.
Qed.

Lemma wp_upsert_row mv target r (Q : result unit stop -> world -> Prop) (I : world -> Prop) w :
  mv ∈ moves (plan m) -> carried mv r -> clients m !! to mv = Some target -> sources_same w ->
  I w ->
  (forall e w', sources_same w' -> elsewhere mv w w' -> job_row w' mv = job_row w mv ->
     Q (Err (Failed e)) w') ->
  (forall w', sources_same w' -> elsewhere mv w w' -> job_row w' mv = job_row w mv ->
     delivered w' mv r -> Q (Ok tt) w') ->
  wp (upsert_row m target mv r) Q I w.
Proof.
  intros Hin Hcar Hto Hs Hi He Hq.
  assert (He0 : forall e, Q (Err (Failed e)) w) by (intros e; apply He; [done|apply elsewhere_refl|done]).
  unfold upsert_row. apply wp_bind, wp_get. case_decide; [apply wp_lift; [done|auto]|].
  destruct Hcar as (t & c & Ht & Hfrom & Hmine & Hroute).
  apply wp_bind, wp_lift; [|auto]. intros t' Ht'. rewrite Ht in Ht'. simplify_eq.
  pose proof (table_ok _ _ _ Ht) as [_ Hname]. case_decide; [apply wp_lift; [done|auto]|].
  apply wp_effect; [done|]. destruct (dbs w !! target) as [d|] eqn:Hd; simpl; [|auto].
  pose proof (upsert_law d t' r) as Hl. destruct (upsert d t' r) as [res d'].
  destruct Hl as (Hor & Hok & Hother). rewrite Hname in *.
  set (w' := set_dbs (<[target := d']> (dbs w)) w).
  assert (Htb : forall c0 name, tb w' c0 name = if decide (c0 = target) then content d' name else tb w c0 name).
  { intros c0 name. unfold tb; simpl. case_decide; subst; [by rewrite lookup_insert_eq|].
    by rewrite lookup_insert_ne. }
  assert (Hold : forall name, tb w target name = content d name) by (intros; unfold tb; by rewrite Hd).
  assert (Hs' : sources_same w').
  { intros mv' c0 name Hin' Hc0. rewrite Htb. case_decide as Heq; [|by eapply Hs].
    subst c0. exfalso. by eapply (no_self Hplan mv' mv). }
  assert (Helse : elsewhere mv w w').
  { split; [|by intros ? ?]. intros mv' q Hin' Hcar' (c0 & Hc0 & Hq0). exists c0. split; [done|].
    rewrite Htb. case_decide as Heq; [|done]. subst c0. rewrite Hold in Hq0.
    destruct (decide (mv_table mv' = mv_table mv)) as [Htab|Htab]; [|by rewrite Hother].
    rewrite Htab in *. destruct Hor as [->|(Hr & Hput & _)]; [done|].
    destruct (Hput q Hq0) as [?|Hpk]; [done|].
    assert (q = r) as ->; [|done].
    eapply (no_conflict Hplan mv' mv t'); [done|done|done|congruence|congruence|done| |done].
    by exists t', c. }
  destruct res as [[]|e]; simpl; [|by apply He].
  apply Hq; [done|done|done|]. exists target. split; [done|]. rewrite Htb, decide_True by done.
  by apply Hok.
Qed.

(** What the copy of a page has achieved. *)
Lemma wp_copy_rows mv t c target batch job copied (Q : result (JobState * Z) stop -> world -> Prop)
    (I : world -> Prop) w :
  mv ∈ moves (plan m) -> table (new_catalog m) (mv_table mv) = Ok t ->
  clients m !! from mv = Some c -> clients m !! to mv = Some target ->
  (forall r, r ∈ batch -> r ∈ mine mv t c) ->
  sources_same w -> rows job <= u64_max ->
  (forall w', sources_same w' -> elsewhere mv w w' -> job_row w' mv = job_row w mv -> I w') ->
  (forall e w', sources_same w' -> elsewhere mv w w' -> job_row w' mv = job_row w mv ->
     Q (Err (Failed e)) w') ->
  (forall job' n w', sources_same w' -> elsewhere mv w w' -> job_row w' mv = job_row w mv ->
     phase job' = phase job -> cursor job' = cursor job ->
     count_batch (routes_to m mv) batch (rows job, checksum job) = Ok (rows job', checksum job') ->
     (forall r, r ∈ batch -> routes_to m mv r = Ok true -> delivered w' mv r) ->
     Q (Ok (job', n)) w') ->
  wp (copy_rows m mv target batch job copied) Q I w.
Proof.
  intros Hin Ht Hfrom Hto. revert job copied w Q.
  induction batch as [|r batch IH]; intros job copied w Q Hmine Hs Hle Hi He Hq; cbn [copy_rows].
  - apply wp_ret, Hq; try done; [apply elsewhere_refl|]. intros r Hr. by apply elem_of_nil in Hr.
  - apply wp_bind, wp_lift; [|intros e _; apply He; [done|apply elsewhere_refl|done]].
    intros [|] Hroute.
    + assert (Hcar : carried mv r) by (exists t, c; split_and!; try done; apply Hmine; set_solver).
      apply wp_bind. eapply wp_upsert_row; [done|exact Hcar|done|done|by apply Hi; [|apply elsewhere_refl|]|done|].
      intros w1 Hs1 He1 Hj1 Hd1. apply wp_bind, wp_lift; [|intros e _; by apply He].
      intros n Hn. destruct (rows job <? u64_max) eqn:Hlt; [|done]. simplify_eq. bool_prop.
      apply wp_bind, wp_lift; [|intros e _; by apply He]. intros x Hx.
      apply IH; simpl.
      * intros q Hq'. apply Hmine. set_solver.
      * done.
      * lia.
      * intros w2 Hs2 He2 Hj2. apply Hi; [done|by eapply elsewhere_trans|congruence].
      * intros e w2 Hs2 He2 Hj2. apply He; [done|by eapply elsewhere_trans|congruence].
      * intros job' k w2 Hs2 He2 Hj2 Hph Hcu Hcnt Hdel. apply Hq; try done.
        -- by eapply elsewhere_trans.
        -- congruence.
        -- cbn [count_batch]. rewrite Hroute. cbn [rbind]. rewrite Hx. cbn [rbind fst snd]. by rewrite Z.min_r by lia.
        -- intros q [->|Hq']%elem_of_cons Hqr; [|auto]. by apply He2.
    + apply IH; [intros q Hq'; apply Hmine; set_solver|done|done|done|done|].
      intros job' k w2 Hs2 He2 Hj2 Hph Hcu Hcnt Hdel. apply Hq; try done.
      * cbn [count_batch]. by rewrite Hroute.
      * intros q [->|Hq']%elem_of_cons Hqr; [congruence|auto].
Qed.

(** *** The loop over the pages *)

Lemma honest_elsewhere mv w w' job cur :
  mv ∈ moves (plan m) -> elsewhere mv w w' -> honest w mv job cur -> honest w' mv job cur.
Proof.
  intros Hin [Hk _] [Hc Hh]. split; [done|]. intros t c Ht Hcl.
  destruct (Hh t c Ht Hcl) as [Hn Hall]. split; [done|]. intros r Hr Hrt. apply Hk; [done| |auto].
  exists t, c. split; [done|]. split; [done|]. split; [|done].
  apply list_elem_of_In, List.filter_In in Hr as [Hr _]. by apply list_elem_of_In.
Qed.

(** An operation on a move that leaves its job alone keeps the invariant. *)
Lemma inv_same_job mv w w' :
  mv ∈ moves (plan m) -> inv w -> sources_same w' -> elsewhere mv w w' ->
  job_row w' mv = job_row w mv -> inv w'.
Proof.
  intros Hin Hi Hs He Hj. apply (inv_elsewhere mv w); [done..|]. destruct Hi as [_ Hall].
  specialize (Hall mv Hin). unfold job_inv in *. rewrite Hj. destruct (job_row w mv) as [row|]; [|done].
  destruct Hall as (job & cur & Hd & Hph & Hh). exists job, cur. split; [done|]. split; [done|].
  by eapply honest_elsewhere.
Qed.

(** A world that only differs in its fence or its router. *)
Definition same_data (w w' : world) : Prop := dbs w' = dbs w /\ jobs w' = jobs w.

Lemma same_data_facts mv w w' :
  same_data w w' -> sources_same w ->
  sources_same w' /\ elsewhere mv w w' /\ job_row w' mv = job_row w mv.
Proof.
  intros [Hd Hj] Hs. assert (Htb : forall c name, tb w' c name = tb w c name)
    by (intros; unfold tb; by rewrite Hd).
  split; [intros mv' c name Hin Hc; rewrite Htb; by eapply Hs|]. split.
  - split; [|intros id _; by rewrite Hj]. intros mv' r _ _ (c & Hc & Hr). exists c. by rewrite Htb.
  - unfold job_row. by rewrite Hj.
Qed.

Lemma wp_on_fence {A} (none : A) (f : F -> result A stop * F) (Q : result A stop -> world -> Prop)
    (I : world -> Prop) w :
  I w -> (forall l, match (f l).1 with Err OutOfFuel => False | _ => True end) ->
  (forall r w', same_data w w' -> router w' = router w -> r <> Err OutOfFuel -> Q r w') ->
  wp (on_fence none f) Q I w.
Proof.
  intros Hi Hf Hq. apply wp_effect; [done|]. destruct (fence w) as [l|]; simpl; [|by apply Hq].
  specialize (Hf l). destruct (f l) as [r l']. simpl. apply Hq; [done|done|]. intros ->. done.
Qed.

Lemma wp_check_fence guard (Q : result unit stop -> world -> Prop) (I : world -> Prop) w :
  I w -> (forall r w', same_data w w' -> router w' = router w -> r <> Err OutOfFuel -> Q r w') ->
  wp (check_fence guard) Q I w.
Proof.
  intros Hi Hq. apply wp_on_fence; [done| |done]. intros l. destruct guard as [g|]; [|done].
  by destruct (renew l g) as [[]].
Qed.

Lemma filter_mine t range (l : list Row) r :
  r ∈ List.filter (inside t range) l -> r ∈ l /\ inside t range r = true.
Proof. intros Hr. apply list_elem_of_In, List.filter_In in Hr. by rewrite list_elem_of_In. Qed.

Definition remaining (mv : ShardMove) (t : ShardTable) (c : positive) (cur : option Value) : nat :=
  length (List.filter (fun r => negb (upto pk_lt t cur r)) (mine mv t c)).

(** The new state of a job after a page. *)
Lemma honest_page mv t c cur batch r v text job job' w w' :
  mv ∈ moves (plan m) -> table (new_catalog m) (mv_table mv) = Ok t -> clients m !! from mv = Some c ->
  batch = take (chunk_size m) (List.filter (fun r => negb (upto pk_lt t cur r)) (mine mv t c)) ->
  last batch = Some r -> col r (pk t) = Some v -> cursor_text v = Ok text ->
  honest w mv job cur -> elsewhere mv w w' ->
  count_batch (routes_to m mv) batch (rows job, checksum job) = Ok (rows job', checksum job') ->
  (forall r, r ∈ batch -> routes_to m mv r = Ok true -> delivered w' mv r) ->
  honest w' mv {| phase := Backfilling; cursor := Some text; rows := rows job';
                  checksum := checksum job' |} (Some v).
Proof.
  intros Hin Ht Hc Hb Hlast Hv Htext Hh Hels Hcnt Hdel. split.
  { exists v. split; [by apply cursor_roundtrip|done]. }
  intros t' c' Ht' Hc'. rewrite Ht in Ht'. rewrite Hc in Hc'. simplify_eq.
  apply (honest_elsewhere _ _ _ _ _ Hin Hels) in Hh as [_ Hh]. destruct (Hh t' c' Ht Hc) as [Hn Hall].
  assert (Hk : keyed pk_lt t' (mine mv t' c')) by (by apply keyed_filter, (sources_keyed Hplan)).
  rewrite (page_advances pk_lt pk_lt_irrefl pk_lt_trans t' cur (mine mv t' c') (chunk_size m) r v Hk Hlast Hv).
  split.
  - by rewrite count_batch_app, Hn.
  - intros q [Hq|Hq]%elem_of_app Hqr; auto.
Qed.

Lemma wp_backfill_loop fuel mv t c target guard job cur rep
    (Q : result MigrationReport stop -> world -> Prop) (I : world -> Prop) w :
  mv ∈ moves (plan m) -> table (new_catalog m) (mv_table mv) = Ok t ->
  clients m !! from mv = Some c -> clients m !! to mv = Some target ->
  inv w -> honest w mv job cur ->
  (exists row, job_row w mv = Some row /\ decode_job row = Ok job) ->
  (remaining mv t c cur < fuel)%nat ->
  (forall w', inv w' -> elsewhere mv w w' -> I w') ->
  (forall e w', inv w' -> elsewhere mv w w' -> Q (Err (Failed e)) w') ->
  (forall rep' w', inv w' -> elsewhere mv w w' -> complete w' mv -> Q (Ok rep') w') ->
  wp (backfill_loop fuel m mv t c target guard job cur rep) Q I w.
Proof.
  intros Hin Ht Hfrom Hto. pose proof (table_ok _ _ _ Ht) as [_ Hname].
  revert job cur rep w. induction fuel as [|fuel IH]; intros job cur rep w Hi Hh Hrow Hfuel HI He Hq; [lia|].
  assert (Hk : keyed pk_lt t (mine mv t c)) by (by apply keyed_filter, (sources_keyed Hplan)).
  assert (Hcnt : counted (rows job, checksum job)).
  { destruct Hh as [_ Hh]. destruct (Hh t c Ht Hfrom) as [Hn _]. eapply count_batch_counted; [|exact Hn].
    done. }
  cbn [backfill_loop]. apply wp_bind, wp_check_fence; [by apply HI; [|apply elsewhere_refl]|].
  intros r w1 Hw1 _ Hr. destruct (same_data_facts mv w w1 Hw1 (proj1 Hi)) as (Hs1 & He1 & Hj1).
  assert (Hi1 : inv w1) by (by eapply inv_same_job). destruct r as [[]|[e|]]; [|by apply He|done].
  apply (honest_elsewhere _ _ _ _ _ Hin He1) in Hh.
  apply wp_bind, wp_scan_chunk; [by apply HI|intros e; by apply He|].
  rewrite Hname, (proj1 Hi1 mv c _ Hin Hfrom). fold (mine mv t c).
  set (batch := take _ _). destruct (last batch) as [r|] eqn:Hlast.
  - apply wp_bind.
    eapply (wp_copy_rows mv t c target batch job 0); [done|done|done|done| |done|apply Hcnt| | |].
    + intros q Hq'. unfold batch in Hq'. apply (elem_of_take _ _ _) in Hq' as (i & Hq' & _).
      apply list_elem_of_lookup_2, list_elem_of_In, List.filter_In in Hq' as [Hq' _].
      by apply list_elem_of_In.
    + intros w2 Hs2 He2 Hj2. apply HI; [by eapply inv_same_job|by eapply elsewhere_trans].
    + intros e w2 Hs2 He2 Hj2. apply He; [by eapply inv_same_job|by eapply elsewhere_trans].
    + intros job' n w2 Hs2 He2 Hj2 _ _ Hcount Hdel.
      assert (Hi2 : inv w2) by (by eapply inv_same_job).
      assert (Herr : forall e, Q (Err (Failed e)) w2) by (intros e; apply He; [done|by eapply elsewhere_trans]).
      cbn [fst snd]. apply wp_bind, wp_lift; [|auto]. intros v Hv.
      assert (Hcol : col r (pk t) = Some v).
      { unfold row_value, ok_or in Hv. unfold col. destruct (_ !! pk t); [by simplify_eq|done]. }
      apply wp_bind, wp_lift; [|auto]. intros text Htext.
      set (job2 := {| phase := Backfilling; cursor := Some text; rows := rows job'; checksum := checksum job' |}).
      assert (Hh2 : honest w2 mv job2 (Some v)) by (by eapply (honest_page mv t c cur batch r v text job job' w1 w2)).
      assert (Hc2 : counted (rows job', checksum job')) by (by eapply count_batch_counted).
      apply wp_bind, wp_save_job.
      * rewrite Hj2, Hj1. destruct Hrow as (row & -> & _). by eexists.
      * apply HI; [done|by eapply elsewhere_trans].
      * intros e w3 Hjo Hos Hr3.
        pose proof (jobs_only_elsewhere mv _ _ Hjo Hos) as He3.
        pose proof (jobs_only_sources _ _ Hjo Hs2) as Hs3.
        apply He; [|eapply elsewhere_trans; [exact He1|by eapply elsewhere_trans]].
        destruct Hr3 as [Hr3|(row & Henc & Hr3)]; [by eapply inv_same_job|].
        eapply inv_elsewhere; [exact Hin|exact Hi2|done|done|]. unfold job_inv. rewrite Hr3.
        exists job2, (Some v). split; [by apply decode_encode; [apply Hc2|apply Hc2|]|].
        split; [by right|]. by eapply honest_jobs_only.
      * intros w3 row Hjo Hos Henc Hr3.
        pose proof (jobs_only_elsewhere mv _ _ Hjo Hos) as He3.
        pose proof (jobs_only_sources _ _ Hjo Hs2) as Hs3.
        assert (Hd3 : decode_job row = Ok job2) by (by apply decode_encode; [apply Hc2|apply Hc2|]).
        assert (Hh3 : honest w3 mv job2 (Some v)) by (by eapply honest_jobs_only).
        assert (Hi3 : inv w3).
        { eapply inv_elsewhere; [exact Hin|exact Hi2|done|done|]. unfold job_inv. rewrite Hr3.
          exists job2, (Some v). split; [done|]. split; [by right|done]. }
        assert (Hels : elsewhere mv w w3)
          by (eapply elsewhere_trans; [exact He1|by eapply elsewhere_trans]).
        apply IH; [done|done|by eauto| | | |].
        -- pose proof (page_shrinks pk_lt pk_lt_irrefl pk_lt_trans t cur _ _ _ _ Hk Hlast Hcol) as Hsh.
           unfold remaining in *. lia.
        -- intros w4 Hi4 He4. apply HI; [done|by eapply elsewhere_trans].
        -- intros e w4 Hi4 He4. apply He; [done|by eapply elsewhere_trans].
        -- intros rep' w4 Hi4 He4. apply Hq; [done|by eapply elsewhere_trans].
  - apply wp_ret, Hq; [done|done|]. destruct Hrow as (row & Hrow & Hdec).
    exists row, job, t, c. rewrite Hj1. split; [done|]. split; [done|]. split; [done|]. split; [done|].
    destruct Hh as [_ Hh]. specialize (Hh t c Ht Hfrom). cbv zeta in Hh.
    rewrite (page_empty pk_lt pk_lt_trans t cur (mine mv t c) _ Hk (chunks_progress Hplan) Hlast) in Hh.
    exact Hh.
Qed.

(** *** One move, all moves *)

Definition fuel_covers (fuel : nat) : Prop :=
  forall mv t c, mv ∈ moves (plan m) -> table (new_catalog m) (mv_table mv) = Ok t ->
    clients m !! from mv = Some c -> (length (mine mv t c) < fuel)%nat.

Lemma filter_length {A} (f : A -> bool) l : (length (List.filter f l) <= length l)%nat.
Proof. induction l as [|x l IH]; simpl; [lia|]. destruct (f x); simpl; lia. Qed.

Lemma honest_fresh w mv : honest w mv {| phase := Pending; cursor := None; rows := 0; checksum := 0 |} None.
Proof.
  split; [done|]. intros t c _ _. simpl. rewrite filter_false; [|by apply Forall_true].
  split; [done|]. intros r Hr. by apply elem_of_nil in Hr.
Qed.

(** The result of an operation of a backfill: no step runs out of fuel. *)
Definition backfill_post {A} (P : A -> world -> Prop) (w : world) (mv : ShardMove)
    (r : result A stop) (w' : world) : Prop :=
  match r with
  | Ok x => P x w'
  | Err (Failed _) => inv w' /\ elsewhere mv w w'
  | Err OutOfFuel => False
  end.

Lemma wp_backfill_move fuel mv guard rep w :
  mv ∈ moves (plan m) -> inv w -> fuel_covers fuel ->
  wp (backfill_move fuel m mv guard rep)
     (backfill_post (fun _ w' => inv w' /\ elsewhere mv w w' /\ complete w' mv) w mv)
     inv w.
Proof.
  intros Hin Hi Hfuel. unfold backfill_move. apply wp_bind, wp_ensure_job.
  intros w1 Hjo Hos Hrow1.
  pose proof (jobs_only_elsewhere mv _ _ Hjo Hos) as He1.
  pose proof (jobs_only_sources _ _ Hjo (proj1 Hi)) as Hs1.
  assert (Hi1 : inv w1).
  { destruct Hrow1 as [Hr|[_ Hr]]; [by eapply inv_same_job|].
    eapply inv_elsewhere; [exact Hin|done..|]. unfold job_inv. rewrite Hr.
    exists {| phase := Pending; cursor := None; rows := 0; checksum := 0 |}, None.
    split; [apply decode_fresh|]. split; [by left|apply honest_fresh]. }
  split; [done|]. split; [by intros e|]. intros row job Hrow Hdec.
  assert (Hjob : exists cur, (phase job = Pending \/ phase job = Backfilling) /\ honest w1 mv job cur).
  { destruct Hi1 as [_ Hall]. specialize (Hall mv Hin). unfold job_inv in Hall. rewrite Hrow in Hall.
    destruct Hall as (job' & cur & Hd & Hph & Hh). rewrite Hdec in Hd. simplify_eq. by exists cur. }
  destruct Hjob as (cur & Hph & Hh).
  assert (Herr : forall e, backfill_post (A := MigrationReport)
    (fun _ w' => inv w' /\ elsewhere mv w w' /\ complete w' mv) w mv (Err (Failed e)) w1) by (by intros e).
  rewrite decide_False by (destruct Hph as [-> | ->]; set_solver).
  rewrite decide_False by (by destruct Hph as [-> | ->]).
  apply wp_bind, wp_ret. apply wp_bind, wp_lift; [|auto]. intros c Hc.
  apply wp_bind, wp_lift; [|auto]. intros target Htarget.
  apply wp_bind, wp_lift; [|auto]. intros t Ht.
  assert (Hcl : clients m !! from mv = Some c) by (destruct (clients m !! from mv); simpl in Hc; congruence).
  assert (Htl : clients m !! to mv = Some target) by (destruct (clients m !! to mv); simpl in Htarget; congruence).
  assert (Hloop : wp (backfill_loop fuel m mv t c target guard job cur rep)
     (backfill_post (fun _ w' => inv w' /\ elsewhere mv w w' /\ complete w' mv) w mv) inv w1).
  { apply wp_backfill_loop; try done.
    - by exists row.
    - unfold remaining. pose proof (filter_length (fun r => negb (upto pk_lt t cur r)) (mine mv t c)).
      specialize (Hfuel mv t c Hin Ht Hcl). lia.
    - intros e w2 Hi2 He2. split; [done|by eapply elsewhere_trans].
    - intros rep' w2 Hi2 He2 Hcp. split; [done|]. split; [by eapply elsewhere_trans|done]. }
  destruct Hh as [Hcur _]. unfold cursor_at in Hcur. apply wp_bind.
  destruct (cursor job) as [text|].
  - destruct Hcur as (v & Hv & ->). apply wp_bind, wp_lift; [|auto]. intros v' Hv'.
    rewrite Hv in Hv'. simplify_eq. by apply wp_ret.
  - subst cur. by apply wp_ret.
Qed.

Lemma wp_run_backfill fuel guard l rep w :
  (forall mv, mv ∈ l -> mv ∈ moves (plan m)) -> NoDup l -> inv w -> fuel_covers fuel ->
  wp (run_backfill fuel m guard l rep)
     (fun r w' => match r with
        | Ok _ => inv w' /\ (forall mv, mv ∈ l -> complete w' mv) /\
                  (forall mv, mv ∈ moves (plan m) -> mv ∉ l -> complete w mv -> complete w' mv)
        | Err (Failed _) => inv w'
        | Err OutOfFuel => False
        end) inv w.
Proof.
  intros Hl Hnd Hi Hfuel. revert rep w Hi. induction l as [|mv l IH]; intros rep w Hi; cbn [run_backfill].
  - apply wp_ret. split; [done|]. split; [|done]. intros mv Hmv. by apply elem_of_nil in Hmv.
  - apply NoDup_cons in Hnd as [Hn Hnd]. assert (Hin : mv ∈ moves (plan m)) by (apply Hl; set_solver).
    apply wp_bind. eapply wp_mono; [by apply wp_backfill_move|].
    intros [rep'|[e|]] w1 Hpost; simpl in Hpost; [|by destruct Hpost|done].
    destruct Hpost as (Hi1 & He1 & Hc1). eapply wp_mono; [apply IH; [set_solver|done|done]|].
    intros [rep2|[e|]] w2 Hpost; [|done|done]. destruct Hpost as (Hi2 & Hall & Hold).
    split; [done|]. split.
    + intros mv' [->|Hm']%elem_of_cons; [by apply Hold|auto].
    + intros mv' Hm' Hn' Hcp. apply Hold; [done|set_solver|].
      eapply elsewhere_complete; [exact Hin|done|set_solver|done|done].
Qed.

Lemma wp_source_columns c name (Q : result (list (string * string)) stop -> world -> Prop)
    (I : world -> Prop) w :
  I w -> (forall e, Q (Err (Failed e)) w) -> (forall cols, Q (Ok cols) w) ->
  wp (source_columns c name) Q I w.
Proof.
  intros Hi He Hq. unfold source_columns. apply wp_bind, wp_get, wp_bind, wp_lift; [|auto].
  intros st _. assert (Hcols : wp (do! cols := on_db c (fun d => (columns d st.1 st.2, d)) in
    match cols with
    | [] => lift (Err (Config ("migration preflight: cannot inspect source schema for table `"
              +:+ name +:+ "`; refusing to copy without column metadata")))
    | _ => ret (Ok cols)
    end) Q I w).
  { apply wp_bind, wp_read_db; [done|auto|]. intros d [|x cols] _ _; [by apply wp_lift; [|auto]|].
    by apply wp_ret. }
  destruct (dialect <$> dbs w !! c) as [[]|]; try exact Hcols; by apply wp_lift; [|auto].
Qed.

Lemma wp_preflight l inspected (Q : result unit stop -> world -> Prop) (I : world -> Prop) w :
  I w -> (forall e, Q (Err (Failed e)) w) -> Q (Ok tt) w -> wp (preflight_moves m inspected l) Q I w.
Proof.
  intros Hi He Hq. revert inspected. induction l as [|mv l IH]; intros inspected; cbn [preflight_moves].
  - by apply wp_ret.
  - case_decide; [apply IH|]. apply wp_bind, wp_lift; [|auto]. intros c _.
    apply wp_bind, wp_get, wp_bind, wp_source_columns; [done|auto|]. intros cols.
    destruct (List.find _ cols); [by apply wp_lift; [|auto]|apply IH].
Qed.

Lemma inv_same_data w w' : same_data w w' -> inv w -> inv w'.
Proof.
  intros Hd [Hs Hall]. split; [by apply (same_data_facts {| mv_table := ""; from := ""; to := ""; key_range := None |}) in Hd as (? & _)|].
  intros mv Hin. destruct (same_data_facts mv w w' Hd Hs) as (_ & He & Hj).
  specialize (Hall mv Hin). unfold job_inv in *. rewrite Hj. destruct (job_row w mv) as [row|]; [|done].
  destruct Hall as (job & cur & Hdc & Hph & Hh). exists job, cur. split; [done|]. split; [done|].
  by eapply honest_elsewhere.
Qed.

Lemma complete_same_data w w' mv : mv ∈ moves (plan m) -> same_data w w' -> complete w mv -> complete w' mv.
Proof.
  intros Hin [Hd Hj] (row & job & t & c & Hr & Hdc & Ht & Hc & Hcount & Hall).
  exists row, job, t, c. unfold job_row, delivered, tb in *. rewrite Hd, Hj. done.
Qed.

(** A whole backfill keeps the invariant at every point and completes every move if
    it returns a report. *)
Lemma wp_backfill fuel w :
  inv w -> fuel_covers fuel ->
  wp (backfill fuel m)
     (fun r w' => match r with
        | Ok _ => inv w' /\ forall mv, mv ∈ moves (plan m) -> complete w' mv
        | Err (Failed _) => inv w'
        | Err OutOfFuel => False
        end) inv w.
Proof.
  intros Hi Hfuel. unfold backfill, preflight_schema. apply wp_bind, wp_preflight; [done|done|].
  apply wp_bind. unfold ensure_schema. apply wp_bind, wp_check_dialect; [|done].
  apply wp_on_jobs; [done|]. intros r j Hr. pose proof (create_law (jobs w)) as Hc. rewrite Hr in Hc.
  simpl in Hc. set (w1 := set_jobs j w).
  assert (Hi1 : inv w1).
  { destruct Hi as [Hs Hall]. split; [by eapply jobs_only_sources|]. intros mv Hin.
    specialize (Hall mv Hin). unfold job_inv, job_row in *. simpl. rewrite Hc.
    destruct (_ !! move_id mv) as [row|]; [|done]. destruct Hall as (job & cur & ? & ? & Hh).
    exists job, cur. split; [done|]. split; [done|]. by apply (honest_jobs_only w). }
  destruct r as [u|e]; simpl; [|done]. apply wp_bind. unfold acquire_fence. apply wp_on_fence; [done| |].
  { intros l. by destruct (acquire_fenced l) as [[[]|] ?]. }
  intros r w2 Hd2 _ Hr2. assert (Hi2 : inv w2) by (by eapply inv_same_data).
  destruct r as [guard|[e|]]; [|done|done].
  assert (Hnd : NoDup (moves (plan m))) by (eapply (NoDup_fmap_1 move_id); exact (unique_ids Hplan)).
  apply wp_bind, wp_try. eapply wp_mono; [by apply wp_run_backfill|].
  intros out w3 Hout.
  assert (Hi3 : inv w3) by (destruct out as [?|[?|]]; [apply Hout|done|done]).
  apply wp_bind, wp_try. unfold release_fence. apply wp_on_fence; [done| |].
  { intros l. destruct guard as [g|]; [|done]. by destruct (release l g) as [[]]. }
  intros released w4 Hd4 _ Hr4. assert (Hi4 : inv w4) by (by eapply inv_same_data).
  apply wp_bind, wp_ret. destruct out as [rep'|[e|]]; [|done|done].
  apply wp_bind, wp_ret. destruct released as [u'|[e|]]; [|done|done].
  apply wp_ret. split; [done|]. intros mv Hin. destruct Hout as (_ & Hall & _).
  eapply complete_same_data; [done|exact Hd4|]. by apply Hall.
Qed.

End Executor.

(** ** Verify and cutover *)

Section Checks.
Context (m : ShardMigrator).

Lemma count_batch_nil takes rc : count_batch takes [] rc = Ok rc.
Proof. done. Qed.

(** The page-by-page count is the count of the whole table. *)
Lemma wp_scan_stats fuel c t range takes cur rc w (Q : result (Z * Z) stop -> world -> Prop)
    (I : world -> Prop) :
  let rows := List.filter (inside t range) (tb w c (tb_name t)) in
  keyed pk_lt t rows -> (1 <= chunk_size m)%nat ->
  (length (List.filter (fun r => negb (upto pk_lt t cur r)) rows) < fuel)%nat ->
  I w -> (forall e, Q (Err (Failed e)) w) ->
  (forall rc', count_batch takes (List.filter (fun r => negb (upto pk_lt t cur r)) rows) rc = Ok rc' ->
     Q (Ok rc') w) ->
  wp (scan_stats fuel m c t range takes cur rc) Q I w.
Proof.
  intros rows Hk Hchunk. revert cur rc. induction fuel as [|fuel IH]; intros cur rc Hfuel Hi He Hq; [lia|].
  cbn [scan_stats]. apply wp_bind, wp_scan_chunk; [done|auto|]. fold rows.
  set (rest := List.filter (fun r => negb (upto pk_lt t cur r)) rows) in *.
  destruct (last (take (chunk_size m) rest)) as [r|] eqn:Hlast.
  - apply wp_bind, wp_lift; [|auto]. intros rc1 Hrc1. apply wp_bind, wp_lift; [|auto]. intros v Hv.
    assert (Hcol : col r (pk t) = Some v).
    { unfold row_value, ok_or in Hv. unfold col. destruct (_ !! pk t); [by simplify_eq|done]. }
    pose proof (page_advances pk_lt pk_lt_irrefl pk_lt_trans t cur rows _ _ _ Hk Hlast Hcol) as Hadv.
    pose proof (page_shrinks pk_lt pk_lt_irrefl pk_lt_trans t cur rows _ _ _ Hk Hlast Hcol) as Hsh.
    assert (Hsplit : rest = take (chunk_size m) rest ++ List.filter (fun r => negb (upto pk_lt t (Some v) r)) rows).
    { pose proof (upto_prefix pk_lt pk_lt_trans t cur rows Hk) as H1.
      pose proof (upto_prefix pk_lt pk_lt_trans t (Some v) rows Hk) as H2.
      rewrite Hadv, <- app_assoc in H2. fold rest in H1, H2.
      apply (app_inv_head (List.filter (upto pk_lt t cur) rows)). rewrite H1. symmetry. exact H2. }
    apply IH; [fold rest in Hsh; lia|done|done|]. intros rc' Hrc'. apply Hq.
    rewrite Hsplit, count_batch_app, Hrc1. exact Hrc'.
  - apply wp_ret, Hq. apply last_None in Hlast. destruct rest; [done|].
    destruct (chunk_size m); [lia|done].
Qed.

Definition job_loaded (w : world) (mv : ShardMove) (job : JobState) : Prop :=
  exists row, job_row w mv = Some row /\ decode_job row = Ok job.

Lemma wp_load_jobs l w (Q : result (list JobState) stop -> world -> Prop) (I : world -> Prop) :
  I w -> (forall e, Q (Err (Failed e)) w) ->
  (forall js, Forall2 (job_loaded w) l js -> Q (Ok js) w) -> wp (load_jobs l) Q I w.
Proof.
  intros Hi He. revert Q He. induction l as [|mv l IH]; intros Q He Hq; cbn [load_jobs].
  - by apply wp_ret, Hq.
  - apply wp_bind, wp_load_job; [done|auto|]. intros o Ho. apply wp_bind, wp_lift; [|auto].
    intros job Hjob. fold (job_row w mv) in Ho. destruct (job_row w mv) as [row|] eqn:Hrow; [|by subst o].
    destruct Ho as (j & Hd & ->). simpl in Hjob. simplify_eq. apply wp_bind, IH; [auto|].
    intros js Hjs. apply wp_ret, Hq. constructor; [by exists row|done].
Qed.

(** What the sources hold for each move of a group. *)
Definition source_count (w : world) (t : ShardTable) (mv : ShardMove) (rc : Z * Z) : Prop :=
  exists c, clients m !! from mv = Some c /\
    count_batch (routes_to m mv) (List.filter (inside t (key_range mv)) (tb w c (tb_name t))) (0, 0) = Ok rc.

Definition readable (fuel : nat) (w : world) (t : ShardTable) (shard : string) : Prop :=
  forall c, clients m !! shard = Some c ->
    keyed pk_lt t (tb w c (tb_name t)) /\ (length (tb w c (tb_name t)) < fuel)%nat.

Lemma readable_rest fuel w t shard c range cur :
  readable fuel w t shard -> clients m !! shard = Some c ->
  let rows := List.filter (inside t range) (tb w c (tb_name t)) in
  keyed pk_lt t rows /\
  (length (List.filter (fun r => negb (upto pk_lt t cur r)) rows) < fuel)%nat.
Proof.
  intros Hr Hc rows. destruct (Hr c Hc) as [Hk Hl]. split; [by apply keyed_filter|].
  pose proof (filter_length (fun r => negb (upto pk_lt t cur r)) rows).
  pose proof (filter_length (inside t range) (tb w c (tb_name t))). subst rows. lia.
Qed.

Lemma filter_not_upto_none t (l : list Row) :
  List.filter (fun r => negb (upto pk_lt t None r)) l = l.
Proof. apply filter_true. by apply Forall_true. Qed.

Lemma wp_source_stats fuel t l w (Q : result (list (Z * Z)) stop -> world -> Prop) (I : world -> Prop) :
  (forall mv, mv ∈ l -> readable fuel w t (from mv)) -> (1 <= chunk_size m)%nat ->
  I w -> (forall e, Q (Err (Failed e)) w) ->
  (forall rcs, Forall2 (source_count w t) l rcs -> Q (Ok rcs) w) ->
  wp (source_stats fuel m t l) Q I w.
Proof.
  intros Hread Hchunk Hi. revert Q. induction l as [|mv l IH]; intros Q He Hq; cbn [source_stats].
  - by apply wp_ret, Hq.
  - apply wp_bind, wp_lift; [|auto]. intros c Hc.
    assert (Hcl : clients m !! from mv = Some c) by (destruct (clients m !! from mv); simpl in Hc; congruence).
    destruct (readable_rest fuel w t (from mv) c (key_range mv) None) as [Hk Hf]; [apply Hread; set_solver|done|].
    apply wp_bind. unfold scan_move_stats. apply wp_scan_stats; [done|done|done|done|auto|].
    intros rc Hrc. rewrite filter_not_upto_none in Hrc. apply wp_bind, IH; [|auto|].
    + intros mv' Hm'. apply Hread. set_solver.
    + intros rcs Hrcs. apply wp_ret, Hq. constructor; [by exists c|done].
Qed.

(** A group is only marked verified when its sources, its jobs and its target agree. *)
Definition agreed (w : world) (t : ShardTable) (target : string) (l : list ShardMove)
    (js : list JobState) : Prop :=
  exists rcs c tgt, Forall2 (source_count w t) l rcs /\ clients m !! target = Some c /\
    count_batch (row_in_any_scope m t l) (tb w c (tb_name t)) (0, 0) = Ok tgt /\
    sum_stats rcs = sum_stats (map (fun j => (rows j, checksum j)) js) /\ sum_stats rcs = tgt.

Lemma wp_save_verified l w (Q : result unit stop -> world -> Prop) (I : world -> Prop) :
  (forall mv job, (mv, job) ∈ l -> is_Some (job_row w mv)) ->
  (forall w', jobs_only w w' -> I w') ->
  (forall r w', jobs_only w w' -> r <> Err OutOfFuel -> Q r w') ->
  wp (save_verified l) Q I w.
Proof.
  revert w. induction l as [|[mv job] l IH]; intros w Hsome Hi Hq; cbn [save_verified].
  - by apply wp_ret, Hq.
  - apply wp_bind, wp_save_job; [by eapply Hsome; left|by apply Hi|by intros; apply Hq|].
    intros w1 row Hjo Hos _ Hrow. apply IH.
    + intros mv' job' Hin. destruct (decide (move_id mv' = move_id mv)) as [He|Hne].
      * unfold job_row. rewrite He. by eexists.
      * unfold job_row. rewrite Hos by done. eapply Hsome. by right.
    + intros w2 [? ?]. apply Hi. destruct Hjo. split; congruence.
    + intros r w2 [? ?]. apply Hq. destruct Hjo. split; congruence.
Qed.

Lemma wp_verify_group fuel name target l t w (Q : result unit stop -> world -> Prop)
    (I : world -> Prop) :
  table (new_catalog m) name = Ok t -> (1 <= chunk_size m)%nat ->
  (forall mv, mv ∈ l -> readable fuel w t (from mv)) -> readable fuel w t target ->
  (forall w', jobs_only w w' -> I w') ->
  (forall e w', jobs_only w w' -> Q (Err (Failed e)) w') ->
  (forall w' js, jobs_only w w' -> Forall2 (job_loaded w) l js ->
     (forallb settled js = true /\ jobs w' = jobs w) \/ agreed w t target l js -> Q (Ok tt) w') ->
  wp (verify_group fuel m name target l) Q I w.
Proof.
  intros Ht Hchunk Hsrc Htgt Hi He Hq. assert (Hrefl : jobs_only w w) by done.
  unfold verify_group. apply wp_bind, wp_lift; [|auto]. intros t' Ht'. rewrite Ht in Ht'. simplify_eq.
  apply wp_bind, wp_load_jobs; [auto|auto|]. intros js Hjs.
  destruct (forallb settled js) eqn:Hset; [by apply wp_ret, (Hq _ js); [..|left]|].
  apply wp_bind, wp_source_stats; [done|done|auto|auto|]. intros rcs Hrcs.
  apply wp_bind, wp_lift; [|auto]. intros c Hc.
  assert (Hcl : clients m !! target = Some c) by (destruct (clients m !! target); simpl in Hc; congruence).
  destruct (readable_rest fuel w t' target c None None) as [Hk Hf]; [done|done|].
  assert (Hall : List.filter (inside t' None) (tb w c (tb_name t')) = tb w c (tb_name t')).
  { apply filter_true. by apply Forall_true. }
  apply wp_bind. unfold scan_target_stats. apply wp_scan_stats; [done|done|done|auto|auto|].
  intros tgt Htg. rewrite filter_not_upto_none, Hall in Htg.
  case_bool_decide as H1; simpl; [|by apply wp_lift; [|auto]].
  case_bool_decide as H2; simpl; [|by apply wp_lift; [|auto]].
  assert (Hagreed : agreed w t' target l js) by (exists rcs, c, tgt; done).
  apply wp_save_verified; [|auto|].
  - intros mv job Hin. apply list_elem_of_lookup in Hin as [i Hi'].
    apply lookup_zip_with_Some in Hi' as (? & ? & ? & Hl & Hj). simplify_eq.
    destruct (Forall2_lookup_lr _ _ _ _ _ _ Hjs Hl Hj) as (row & Hrow & _). by eexists.
  - intros [[]|[e|]] w' Hjo Hr; [|auto|done]. eapply Hq; [done|exact Hjs|by right].
Qed.

(** *** Cutover *)

Definition ready (w : world) (mv : ShardMove) : Prop :=
  exists job, job_loaded w mv job /\ (phase job = Verified \/ phase job = Done).

Lemma wp_require_verified l w (Q : result unit stop -> world -> Prop) (I : world -> Prop) :
  I w -> (forall e, Q (Err (Failed e)) w) -> (Forall (ready w) l -> Q (Ok tt) w) ->
  wp (require_verified l) Q I w.
Proof.
  intros Hi. revert Q. induction l as [|mv l IH]; intros Q He Hq; cbn [require_verified].
  - apply wp_ret, Hq. constructor.
  - apply wp_bind, wp_load_job; [done|auto|]. intros o Ho. apply wp_bind, wp_lift; [|auto].
    intros job Hjob. fold (job_row w mv) in Ho. destruct (job_row w mv) as [row|] eqn:Hrow; [|by subst o].
    destruct Ho as (j & Hd & ->). simpl in Hjob. simplify_eq.
    case_decide as Hph; [|apply wp_lift; [done|auto]].
    apply IH; [auto|]. intros Hl. apply Hq. constructor; [|done]. exists job.
    split; [by exists row|]. set_solver.
Qed.

Lemma wp_mark_jobs p l w (Q : result unit stop -> world -> Prop) (I : world -> Prop) :
  (forall w', jobs_only w w' -> I w') ->
  (forall r w', jobs_only w w' -> r <> Err OutOfFuel -> Q r w') -> wp (mark_jobs p l) Q I w.
Proof.
  revert w. induction l as [|mv l IH]; intros w Hi Hq; cbn [mark_jobs]; [by apply wp_ret, Hq|].
  apply wp_bind, wp_load_job; [by apply Hi|by intros; apply Hq|]. intros o Ho.
  assert (Hnext : forall w1, jobs_only w w1 -> wp (mark_jobs p l) Q I w1).
  { intros w1 [? ?]. apply IH.
    - intros w2 [? ?]. apply Hi. split; congruence.
    - intros r w2 [? ?]. apply Hq. split; congruence. }
  apply wp_bind. destruct o as [job|]; [|by apply wp_ret, Hnext].
  fold (job_row w mv) in Ho. destruct (job_row w mv) as [row|] eqn:Hrow; [|done].
  apply wp_save_job; [by rewrite Hrow; eexists|by apply Hi|by intros; apply Hq|].
  intros w1 row1 Hjo _ _ _. by apply Hnext.
Qed.

(** The router only moves to the catalog of a cutover whose moves were all verified. *)
Definition cut_over (c : ShardCatalog) (w w' : world) : Prop :=
  dbs w' = dbs w /\
  (router w' = router w \/
   (Forall (ready w) (moves (plan m)) /\ Router.catalog (router w') = c /\
    Router.clients (router w') = Router.clients (router w) /\ validate c = Ok tt)).

Lemma wp_cutover c w :
  wp (cutover m c)
     (fun r w' => cut_over c w w' /\ r <> Err OutOfFuel /\
        (r = Ok tt -> Forall (ready w) (moves (plan m)) /\ Router.catalog (router w') = c))
     (cut_over c w) w.
Proof.
  assert (Hrefl : cut_over c w w) by (split; [done|by left]).
  unfold cutover, preflight_schema. apply wp_bind, wp_preflight; [done|done|].
  apply wp_bind, wp_require_verified; [done|done|]. intros Hready.
  apply wp_bind, wp_effect; [done|]. unfold reload.
  destruct (validate c) as [[]|e] eqn:Hv; [|simpl; split; [split; [done|by left]|done]].
  destruct (validate_clients c (Router.clients (router w))) as [u|e]; simpl; [|split; [split; [done|by left]|done]].
  set (w1 := {| dbs := dbs w |}).
  assert (Hcut : forall w2, jobs_only w1 w2 -> cut_over c w w2).
  { intros w2 [Hd Hr]. split; [done|]. right. rewrite Hr. done. }
  apply wp_mark_jobs; [done|]. intros r w2 Hjo Hr. split; [by apply Hcut|]. split; [done|].
  intros _. split; [done|]. destruct Hjo as [_ ->]. done.
Qed.

End Checks.
End Jobs.
End MigrateFacts.
