(* ===== verification/MigrateSpec.v ===== *)
(** * Shard migration: what the executor guarantees

    [MigrateDemo]: databases and a job table held in memory, on which the witnesses
    run.  [MigrateSpec]: the properties of [Migrate]. *)

From Stdlib Require Import Ascii.
From S2P Require Import Prelude Dialect Crash Json Text ShardCatalog ShardRouter MigrationPlan Migrate MigrateFacts.
From stdpp Require pretty.

Local Open Scope Z_scope.
Local Open Scope ecat_scope.

Module MigrateDemo.
Import Catalog Router Plan Schema Migrate MigrateFacts.

#[export] Instance demo_number : JsonNumber := CatalogSpec.demo_number.
#[export] Instance demo_text : JsonText := CatalogSpec.demo_text.

Definition num (z : Z) : Value := @VNumber demo_number z.

(** A row of the table: the integer primary key is also the shard key. *)
Definition demo_row (id amount : Z) : Row :=
  ({[ "id" := num id; "amount" := num amount ]} : gmap string Value).

(** A database: its tables, the rows of a table by ascending primary key. *)
Abbreviation demo_db := (gmap string (list Row)).

Definition rows_at (d : demo_db) (name : string) : list Row := default [] (d !! name).

Definition demo_lt (a b : Value) : bool :=
  match a, b with VNumber x, VNumber y => x <? y | _, _ => false end.

Definition has_pk (t : ShardTable) (n : Z) (q : Row) : bool :=
  match col q (pk t) with Some (VNumber k) => k =? n | _ => false end.

Fixpoint place (t : ShardTable) (n : Z) (r : Row) (l : list Row) : list Row :=
  match l with
  | [] => [r]
  | q :: l' =>
      match col q (pk t) with
      | Some (VNumber k) => if n <? k then r :: l else q :: place t n r l'
      | _ => q :: place t n r l'
      end
  end.

Definition put (t : ShardTable) (n : Z) (r : Row) (l : list Row) : list Row :=
  place t n r (List.filter (fun q => negb (has_pk t n q)) l).

#[export] Instance demo_shard_db : ShardDb demo_db := {
  dialect _ := Sqlite;
  scan d t range cur n :=
    Ok (take n (List.filter (fun r => negb (upto demo_lt t cur r) && inside t range r)
                  (rows_at d (tb_name t))));
  upsert d t r :=
    match col r (pk t) with
    | Some (VNumber n) => (Ok tt, <[tb_name t := put t n r (rows_at d (tb_name t))]> d)
    | _ => (Err (Database "no primary key"), d)
    end;
  columns _ _ _ := Ok [("id", "INTEGER"); ("amount", "INTEGER")];
}.

Lemma place_elem t n r l q : q ∈ place t n r l <-> q = r \/ q ∈ l.
Proof.
  induction l as [|x l IH]; simpl; [set_solver|].
  destruct (col x (pk t)) as [[| |k| | |]|]; [| |destruct (n <? k)| | | |]; set_solver.
Qed.

#[export] Instance demo_shard_contract : ShardDbContract demo_db.
Proof.
  refine {| content := rows_at; pk_lt := demo_lt |}.
  - intros []; try done. apply Z.ltb_irrefl.
  - intros [] [] []; simpl; try done. rewrite !Z.ltb_lt. apply Z.lt_trans.
  - intros d t range cur n l [= <-]. done.
  - intros d t r. simpl. destruct (col r (pk t)) as [[| |n| | |]|] eqn:Hr; try by split; [left|].
    assert (Hup : upserted t r (rows_at d (tb_name t))
      (rows_at (<[tb_name t := put t n r (rows_at d (tb_name t))]> d) (tb_name t))).
    { assert (Hl : forall l, rows_at (<[tb_name t := l]> d) (tb_name t) = l)
        by (intros; unfold rows_at; by rewrite lookup_insert_eq).
      rewrite Hl. unfold put.
      set (l := rows_at d (tb_name t)). split; [apply place_elem; by left|]. split.
      - intros q Hq. destruct (has_pk t n q) eqn:E.
        + right. unfold has_pk in E. rewrite Hr. destruct (col q (pk t)) as [[]|]; try done.
          apply Z.eqb_eq in E as ->. done.
        + left. apply place_elem. right. apply list_elem_of_In, List.filter_In.
          split; [by apply list_elem_of_In|by rewrite E].
      - intros q Hq. apply place_elem in Hq as [->|Hq]; [by left|]. right.
        apply list_elem_of_In, List.filter_In in Hq as [Hq E]. split; [by apply list_elem_of_In|].
        intros He. unfold has_pk in E. rewrite He, Hr, Z.eqb_refl in E. done. }
    split; [by right|]. split; [done|]. intros name Hne. unfold rows_at.
    by rewrite lookup_insert_ne.
Defined.

#[export] Instance demo_jobs : JobStore (gmap string JobRow) := {
  state_dialect _ := Sqlite;
  create_jobs j := (Ok tt, j);
  select_job j id := Ok (j !! id);
  insert_job j id r := (Ok tt, match j !! id with Some _ => j | None => <[id := r]> j end);
  update_job j id r := (Ok tt, match j !! id with Some _ => <[id := r]> j | None => j end);
}.

#[export] Instance demo_jobs_contract : JobStoreContract (gmap string JobRow).
Proof.
  refine {| job_rows j := j |}; simpl; try done.
  - intros j id o [= <-]. done.
  - intros j id r. destruct (j !! id) eqn:E; auto.
  - intros j id r. destruct (j !! id) eqn:E; [by split; [right|]|]. split; [by left|]. intros _ [? ?]. done.
Defined.

(** A cursor is the decimal text of its number. *)
#[export] Instance demo_codec : CursorCodec := {
  cursor_text v :=
    match v with
    | VNumber n => if (0 <=? n) && (n <? 2 ^ 63) then Ok (dec_text n) else Err (Database "cursor")
    | _ => Err (Database "cursor")
    end;
  cursor_value s :=
    match parse_uint 63 s with Some n => Ok (num n) | None => Err (Database "cursor") end;
}.

#[export] Instance demo_cursor_law : CursorLaw.
Proof.
  intros v text Hs. destruct v as [| |n| | |]; try done. simpl in *.
  destruct ((0 <=? n) && (n <? 2 ^ 63)) eqn:E; [|done]. simplify_eq. bool_prop.
  by rewrite parse_dec_text.
Defined.

#[export] Instance demo_fence : Fence unit unit := {
  acquire_fenced f := (Ok (Some tt), f);
  renew f _ := (Ok tt, f);
  release f _ := (Ok tt, f);
}.

Definition demo_table (shards : list string) : ShardTable :=
  {| tb_name := "orders"; key := "id"; pk := "id";
     algorithm := HashMod (Z.of_nat (length shards));
     shards := map (fun s => {| ep_name := s; url := None |}) shards |}.

Definition demo_catalog (shards : list string) : ShardCatalog := {| tables := [demo_table shards] |}.

End MigrateDemo.

Module MigrateSpec.
Import Catalog Router Plan Schema Migrate MigrateFacts MigrateDemo.

Definition growth_old := demo_catalog ["s0"; "s1"].
Definition growth_new := demo_catalog ["s0"; "s1"; "s2"].
Definition owner_of (c : ShardCatalog) (id : Z) := PlanFacts.owner c "orders" (num id).

Definition growth_plan : ShardPlan :=
  match diff growth_old growth_new with Ok p => p | Err _ => {| moves := [] |} end.

Definition growth_clients : gmap string positive := {[ "s0" := 1%positive; "s1" := 2%positive; "s2" := 3%positive ]}.

Definition migrator (p : ShardPlan) (old new : ShardCatalog) : ShardMigrator :=
  {| plan := p; clients := growth_clients; old_catalog := old; new_catalog := new; chunk_size := 2 |}.

Definition growth := migrator growth_plan growth_old growth_new.

Definition demo_world (a b c : demo_db) (old : ShardCatalog)
    : world (D := demo_db) (J := gmap string JobRow) (F := unit) :=
  {| dbs := {[ 1%positive := a; 2%positive := b; 3%positive := c ]}; jobs := ∅; fence := None;
     router := {| Router.catalog := old; Router.clients := growth_clients |} |}.

Definition rows_of (l : list Z) : demo_db :=
  {[ "orders" := map (fun i => demo_row i (10 * i)) l ]}.

Definition growth_world := demo_world (rows_of [1; 3; 5; 7]) (rows_of [2; 4; 6; 8]) ∅ growth_old.

Definition live {A} (m : M (world (D := demo_db) (J := gmap string JobRow) (F := unit)) stop A) w :=
  m {| the_world := w; left_ := None |}.

Definition growth_backfilled := live (backfill 10 growth) growth_world.

(** The identifiers of the rows behind a client. *)
Definition ids_at (w : world (D := demo_db) (J := gmap string JobRow) (F := unit)) (c : positive)
    : list Z :=
  map (fun r => match col r "id" with Some (VNumber n) => n | _ => -1 end) (tb w c "orders").

(** *** A migration to fresh shards, whose first attempt dies *)

Definition move_old := demo_catalog ["s0"].
Definition move_new := demo_catalog ["s1"; "s2"].
Definition to_shard (s : string) : ShardMove :=
  {| mv_table := "orders"; from := "s0"; to := s; key_range := None |}.
Definition moving := migrator {| moves := [to_shard "s1"; to_shard "s2"] |} move_old move_new.
Definition move_world := demo_world (rows_of [1; 2; 3]) ∅ ∅ move_old.

Local Abbreviation demo_run := (M (world (D := demo_db) (J := gmap string JobRow) (F := unit)) stop).

Definition crashed_attempt := backfill 10 moving {| the_world := move_world; left_ := Some 11%nat |}.
Definition second_attempt := live (backfill 10 moving) (the_world crashed_attempt.2).

Section Spec.
Context `{JT : JsonText}.
Context {D J F G : Type} `{SD : !ShardDb D} `{JS : !JobStore J} `{CC : !CursorCodec} `{FN : !Fence F G}.
Context `{SC : !ShardDbContract D} `{JC : !JobStoreContract J} `{CL : !CursorLaw}.

Local Abbreviation world := (Migrate.world (D := D) (J := J) (F := F)).

(** One attempt at the backfill, which may die after any number of effects. *)
Definition attempt (m : ShardMigrator) (fuel : nat) (w w' : world) : Prop :=
  exists b, the_world (backfill fuel m {| the_world := w; left_ := b |}).2 = w'.

(** No move of the plan has a job yet. *)
Definition no_jobs (m : ShardMigrator) (w : world) : Prop :=
  forall mv, mv ∈ moves (plan m) -> job_row w mv = None.

Lemma attempts_inv m w0 fuel w :
  planned m w0 -> fuel_covers m w0 fuel -> no_jobs m w0 ->
  rtc (attempt m fuel) w0 w -> inv m w0 w.
Proof.
  intros Hplan Hfuel Hjobs Hr.
  assert (H0 : inv m w0 w0).
  { split; [by intros ? ?|]. intros mv Hmv. unfold job_inv. by rewrite Hjobs. }
  assert (Hgen : forall w1, inv m w0 w1 -> rtc (attempt m fuel) w1 w -> inv m w0 w); [|by apply (Hgen w0)].
  clear Hr H0. intros w1 H1 Hr. induction Hr as [w|w1 w2 w3 (b & Hb) Hr IH]; [done|]. apply IH.
  pose proof (wp_backfill m w0 Hplan fuel w1 H1 Hfuel b) as Hwp.
  destruct (backfill fuel m _) as [[[rep|[e|]]|] p]; simpl in *; subst w2; try done. by destruct Hwp.
Qed.

(** C5. A backfill completes across crashes: however many attempts died, at any
    point of a copy or of a write to the job table, an attempt that returns a report
    leaves every row of every move at its target, and the job of each move with the
    row count and checksum of the move's rows.  No attempt loops for ever: the fuel,
    more than the rows of any source table, is never used up.

    This is for a migration whose moves have no job yet and which is [planned]: no database
    client is the source of one move and the target of another, every source table is in
    primary-key order and no row lacks its key, two rows with one primary key that go to
    the same table of the same target are the same row, the moves have different
    identifiers, and nobody else writes to the source and target tables or the job table.
    A plan between range topologies that split shards, or from the old shards to new ones,
    is of this kind.  A hash topology that keeps one of its shards is not, since then a
    shard is both a source and a target: its rows arrive but are counted again
    ([hash_growth_cannot_be_verified]). *)
Theorem backfill_completes_across_crashes (m : ShardMigrator) (w0 w : world) (fuel : nat) b out p :
  planned m w0 -> no_jobs m w0 -> fuel_covers m w0 fuel ->
  rtc (attempt m fuel) w0 w ->
  backfill fuel m {| the_world := w; left_ := b |} = (out, p) ->
  out <> Ret (Err OutOfFuel) /\
  forall rep, out = Ret (Ok rep) -> forall mv, mv ∈ moves (plan m) ->
    (forall r, carried m w0 mv r -> delivered m (the_world p) mv r) /\
    exists job t c, job_loaded (the_world p) mv job /\
      table (new_catalog m) (mv_table mv) = Ok t /\ clients m !! from mv = Some c /\
      count_batch (routes_to m mv) (mine w0 mv t c) (0, 0) = Ok (rows job, checksum job).
Proof.
  intros Hplan Hjobs Hfuel Hr Hrun. pose proof (attempts_inv _ _ _ _ Hplan Hfuel Hjobs Hr) as Hi.
  pose proof (wp_run _ _ _ _ _ _ _ (wp_backfill m w0 Hplan fuel w Hi Hfuel) Hrun) as Hpost.
  split; [by intros ->|]. intros rep -> mv Hin. destruct Hpost as [_ Hall].
  destruct (Hall mv Hin) as (row & job & t & c & Hrow & Hdec & Ht & Hc & Hcount & Hdel).
  split.
  - intros r (t' & c' & Ht' & Hc' & Hmine & Hroute). apply Hdel; [|done]. congruence.
  - exists job, t, c. split; [by exists row|done].
Qed.

(** C6. Cutover switches the router only to verified data: whatever happens during a
    cutover, errors and death included, the shards' data is untouched, and the router
    either keeps its topology or has the new one, and then it was valid and the job of
    every move was "verified" or "done" at the start. *)
Theorem cutover_requires_verified (m : ShardMigrator) (c : ShardCatalog) (w : world) b out p :
  cutover m c {| the_world := w; left_ := b |} = (out, p) ->
  dbs (the_world p) = dbs w /\
  (router (the_world p) = router w \/
   (Forall (ready w) (moves (plan m)) /\ Router.catalog (router (the_world p)) = c /\
    validate c = Ok tt)) /\
  (out = Ret (Ok tt) -> Forall (ready w) (moves (plan m)) /\
                        Router.catalog (router (the_world p)) = c).
Proof.
  intros Hrun. pose proof (wp_run _ _ _ _ _ _ _ (wp_cutover m c w) Hrun) as Hpost.
  destruct out as [r|].
  - destruct Hpost as ([Hd Hcut] & _ & Hok). split; [done|]. split; [tauto|].
    intros [= ->]. by apply Hok.
  - destruct Hpost as [Hd Hcut]. split; [done|]. split; [tauto|done].
Qed.

(** A group of moves passes [verify] only if its data agree: unless all its jobs
    were already done or rolled back (and then nothing is written), the rows and
    checksums of the sources, summed over the moves, are those the jobs recorded and
    those of the rows in scope at the target.  Verifying never touches the data. *)
Theorem verify_group_sound (m : ShardMigrator) (fuel : nat) (name target : string)
    (l : list ShardMove) (t : ShardTable) (w : world) b out p :
  table (new_catalog m) name = Ok t -> (1 <= chunk_size m)%nat ->
  (forall mv, mv ∈ l -> readable m fuel w t (from mv)) -> readable m fuel w t target ->
  verify_group fuel m name target l {| the_world := w; left_ := b |} = (out, p) ->
  out <> Ret (Err OutOfFuel) /\ dbs (the_world p) = dbs w /\
  (out = Ret (Ok tt) -> exists js, Forall2 (job_loaded w) l js /\
     ((forallb settled js = true /\ jobs (the_world p) = jobs w) \/ agreed m w t target l js)).
Proof.
  intros Ht Hchunk Hsrc Htgt Hrun.
  pose (Q := fun (r : result unit stop) (w' : world) => r <> Err OutOfFuel /\ dbs w' = dbs w /\
    (r = Ok tt -> exists js, Forall2 (job_loaded w) l js /\
       ((forallb settled js = true /\ jobs w' = jobs w) \/ agreed m w t target l js))).
  assert (Hwp : wp (verify_group fuel m name target l) Q (fun w' => dbs w' = dbs w) w).
  { eapply wp_verify_group; try done.
    - by intros w' [].
    - intros e w' []. split; [done|]. split; [done|done].
    - intros w' js [] Hjs Hor. split; [done|]. split; [done|]. intros _. by exists js. }
  pose proof (wp_run _ _ _ _ _ _ _ Hwp Hrun) as Hpost. destruct out as [r|].
  - destruct Hpost as (Hr & Hd & Hok). split; [congruence|]. split; [done|]. intros [= ->]. auto.
  - split; [done|]. split; [done|done].
Qed.

End Spec.

(** A hash topology cannot be grown: when shards of the old topology stay in the
    new one, the plan copies rows into a shard that is also a source.  The backfill
    succeeds and every row arrives, but [verify] counts the arrived rows again as
    source rows and refuses, after every backfill. *)
Theorem hash_growth_cannot_be_verified :
  diff growth_old growth_new = Ok growth_plan /\
  growth_backfilled.1 = Ret (Ok {| moved_rows := 9; chunks := 15; verified := false |}) /\
  map (owner_of growth_new) [1; 2; 3; 4; 5; 6; 7; 8] =
    map Ok ["s1"; "s1"; "s0"; "s1"; "s0"; "s0"; "s2"; "s1"] /\
  map (ids_at (the_world growth_backfilled.2)) [1%positive; 2%positive; 3%positive] =
    [[1; 3; 5; 6; 7]; [1; 2; 4; 6; 8]; [7]] /\
  (exists msg, (live (verify 10 growth) (the_world growth_backfilled.2)).1
     = Ret (Err (Failed (Config msg)))) /\
  let again := live (backfill 10 growth) (the_world growth_backfilled.2) in
  is_ok (match again.1 with Ret r => r | Died => Err OutOfFuel end) = true /\
  exists msg, (live (verify 10 growth) (the_world again.2)).1 = Ret (Err (Failed (Config msg))).
Proof.
  split; [vm_compute; reflexivity|]. split; [vm_compute; reflexivity|]. split; [vm_compute; reflexivity|].
  split; [vm_compute; reflexivity|]. split; [eexists; vm_compute; reflexivity|].
  split; [vm_compute; reflexivity|]. eexists. vm_compute. reflexivity.
Qed.

(** *** Witnesses *)

Lemma col_demo_row i : col (demo_row i (10 * i)) "id" = Some (num i).
Proof. unfold col, demo_row. by rewrite lookup_insert_eq. Qed.

Lemma move_rows c r : clients moving !! "s0" = Some c -> r ∈ tb move_world c "orders" ->
  exists i, i ∈ [1; 2; 3] /\ r = demo_row i (10 * i).
Proof.
  intros Hc. assert (c = 1%positive) as -> by (vm_compute in Hc; congruence).
  unfold tb, move_world; simpl. intros Hr.
  apply elem_of_cons in Hr as [->|Hr]; [exists 1; split; [set_solver|done]|].
  apply elem_of_cons in Hr as [->|Hr]; [exists 2; split; [set_solver|done]|].
  apply list_elem_of_singleton in Hr as ->. exists 3. split; [set_solver|done].
Qed.

Lemma moving_from mv : mv ∈ moves (plan moving) -> from mv = "s0" /\ mv_table mv = "orders" /\
  (to mv = "s1" \/ to mv = "s2").
Proof.
  simpl. intros Hm. apply elem_of_cons in Hm as [->|Hm]; [auto|].
  apply list_elem_of_singleton in Hm as ->. auto.
Qed.

Lemma moving_planned : planned moving move_world.
Proof.
  split.
  - intros mv mv' c Hm Hm' Hc Hc'. destruct (moving_from mv Hm) as (Hf & _ & _).
    destruct (moving_from mv' Hm') as (_ & _ & Ht). rewrite Hf in Hc. vm_compute in Hc.
    destruct Ht as [Ht|Ht]; rewrite Ht in Hc'; vm_compute in Hc'; congruence.
  - intros mv t c Hm Ht Hc. destruct (moving_from mv Hm) as (Hf & Hn & _). rewrite Hn in *.
    rewrite Hf in Hc. assert (c = 1%positive) as -> by (vm_compute in Hc; congruence).
    unfold table in Ht. simpl in Ht. injection Ht as <-.
    assert (Hlt : forall i j, i < j -> row_lt pk_lt (demo_table ["s1"; "s2"]) (demo_row i (10 * i)) (demo_row j (10 * j))).
    { intros i j Hij. exists (num i), (num j). split; [apply col_demo_row|]. split; [apply col_demo_row|].
      simpl. by apply Z.ltb_lt. }
    split.
    + unfold tb; simpl. repeat constructor; apply Hlt; lia.
    + apply Forall_forall. intros r Hr. destruct (move_rows 1%positive r eq_refl Hr) as (i & _ & ->).
      exists (num i). apply col_demo_row.
  - intros mv mv' t r r' Hm Hm' _ _ Ht (t1 & c1 & Ht1 & Hc1 & Hr & _) (t2 & c2 & Ht2 & Hc2 & Hr' & _) Hpk.
    destruct (moving_from mv Hm) as (Hf & Hn & _), (moving_from mv' Hm') as (Hf' & Hn' & _).
    rewrite Hn in *. rewrite Hn' in *. rewrite Hf in Hc1. rewrite Hf' in Hc2.
    unfold table in Ht. simpl in Ht. injection Ht as <-.
    apply filter_mine in Hr as [Hr _], Hr' as [Hr' _]. rewrite Hn in Hr. rewrite Hn' in Hr'.
    apply (move_rows c1) in Hr as (i & _ & ->); [|done]. apply (move_rows c2) in Hr' as (j & _ & ->); [|done].
    simpl in Hpk. rewrite !col_demo_row in Hpk. by injection Hpk as ->.
  - apply (bool_decide_unpack _). vm_compute. exact I.
  - simpl. lia.
Qed.

Lemma moving_fuel : fuel_covers moving move_world 10.
Proof.
  intros mv t c Hm Ht Hc. destruct (moving_from mv Hm) as (Hf & Hn & _). rewrite Hf in Hc.
  assert (c = 1%positive) as -> by (vm_compute in Hc; congruence).
  unfold mine. pose proof (filter_length (inside t (key_range mv)) (tb move_world 1%positive (mv_table mv))) as Hl.
  rewrite Hn in *. assert (Hlen : length (tb move_world 1%positive "orders") = 3%nat) by reflexivity. lia.
Qed.

Lemma moving_no_jobs : no_jobs moving move_world.
Proof. intros mv _. unfold job_row, move_world, demo_world. cbn [jobs job_rows demo_jobs_contract]. apply lookup_empty. Qed.

(** The first attempt dies in the middle of its copies; the second completes. *)
Lemma backfill_completes_across_crashes_witness :
  crashed_attempt.1 = Died /\
  second_attempt.1 = Ret (Ok {| moved_rows := 2; chunks := 3; verified := false |}) /\
  forall mv, mv ∈ moves (plan moving) ->
    forall r, carried moving move_world mv r -> delivered moving (the_world second_attempt.2) mv r.
Proof.
  split; [vm_compute; reflexivity|]. split; [vm_compute; reflexivity|].
  assert (Hatt : rtc (attempt moving 10) move_world (the_world crashed_attempt.2)).
  { apply rtc_once. exists (Some 11%nat). reflexivity. }
  assert (Hres : second_attempt.1 = Ret (Ok {| moved_rows := 2; chunks := 3; verified := false |}))
    by (vm_compute; reflexivity).
  intros mv Hm. eapply (backfill_completes_across_crashes moving move_world
    (the_world crashed_attempt.2) 10 None second_attempt.1 second_attempt.2
    moving_planned moving_no_jobs moving_fuel); [exact Hatt|apply surjective_pairing|exact Hres|exact Hm].
Defined.

Definition verified_run := live (verify 10 moving) (the_world second_attempt.2).
Definition cutover_run := live (cutover moving move_new) (the_world verified_run.2).

Lemma cutover_requires_verified_witness :
  cutover_run.1 = Ret (Ok tt) /\
  Forall (ready (the_world verified_run.2)) (moves (plan moving)) /\
  Router.catalog (router (the_world cutover_run.2)) = move_new.
Proof.
  split; [vm_compute; reflexivity|].
  apply (cutover_requires_verified moving move_new (the_world verified_run.2) None cutover_run.1 cutover_run.2);
    [apply surjective_pairing|vm_compute; reflexivity].
Defined.

Definition group_run := live (verify_group 10 moving "orders" "s1" [to_shard "s1"]) (the_world second_attempt.2).

Lemma rows_keyed l :
  StronglySorted Z.lt l ->
  keyed pk_lt (demo_table ["s1"; "s2"]) (map (fun i => demo_row i (10 * i)) l).
Proof.
  intros Hs. split.
  - induction Hs as [|i l Hs IH Hi]; simpl; constructor; [done|].
    rewrite Forall_forall in Hi. apply Forall_forall. intros r Hr. apply list_elem_of_fmap in Hr as (j & -> & Hj).
    exists (num i), (num j). split; [apply col_demo_row|]. split; [apply col_demo_row|].
    apply Z.ltb_lt. by apply Hi.
  - apply Forall_forall. intros r Hr. apply list_elem_of_fmap in Hr as (i & -> & _).
    exists (num i). apply col_demo_row.
Qed.

Lemma rows_readable c shard l :
  clients moving !! shard = Some c ->
  tb (the_world second_attempt.2) c "orders" = map (fun i => demo_row i (10 * i)) l ->
  StronglySorted Z.lt l -> (length l < 10)%nat ->
  readable moving 10 (the_world second_attempt.2) (demo_table ["s1"; "s2"]) shard.
Proof.
  intros Hc Htb Hs Hl c' Hc'. rewrite Hc in Hc'. injection Hc' as <-.
  change (tb_name (demo_table ["s1"; "s2"])) with "orders". rewrite Htb.
  split; [by apply rows_keyed|]. by rewrite length_map.
Qed.

Lemma sorted_ids l : bool_decide (l = [1; 2; 3] \/ l = [1; 3]) = true -> StronglySorted Z.lt l.
Proof. intros [-> | ->]%bool_decide_eq_true; repeat constructor; lia. Qed.

Lemma verify_group_sound_witness :
  group_run.1 = Ret (Ok tt) /\
  exists js, Forall2 (job_loaded (the_world second_attempt.2)) [to_shard "s1"] js /\
    ((forallb settled js = true /\ jobs (the_world group_run.2) = jobs (the_world second_attempt.2)) \/
     agreed moving (the_world second_attempt.2) (demo_table ["s1"; "s2"]) "s1" [to_shard "s1"] js).
Proof.
  split; [vm_compute; reflexivity|].
  assert (Hsrc : forall mv, mv ∈ [to_shard "s1"] ->
    readable moving 10 (the_world second_attempt.2) (demo_table ["s1"; "s2"]) (from mv)).
  { intros mv Hm. apply list_elem_of_singleton in Hm as ->.
    apply (rows_readable 1%positive _ [1; 2; 3]); [reflexivity|reflexivity|by apply sorted_ids|simpl; lia]. }
  assert (Htgt : readable moving 10 (the_world second_attempt.2) (demo_table ["s1"; "s2"]) "s1").
  { apply (rows_readable 2%positive _ [1; 3]); [reflexivity| |by apply sorted_ids|simpl; lia].
    vm_cast_no_check (eq_refl (tb (the_world second_attempt.2) 2%positive "orders")). }
  apply (verify_group_sound moving 10 "orders" "s1" [to_shard "s1"] (demo_table ["s1"; "s2"])
    (the_world second_attempt.2) None group_run.1 group_run.2);
    [reflexivity|simpl; lia|exact Hsrc|exact Htgt|apply surjective_pairing|vm_compute; reflexivity].
Defined.

End MigrateSpec.
