(* ===== verification/Mq.v ===== *)
(** * The in-memory message queue (ecat-mq)

    [InMemoryMq] keeps one broadcast channel and one [Notify] per subscription; the queue
    and the stream it hands out share both.  [publish] sends to every channel of the topic
    and notifies; [poll_recv] tries to receive, waits on the notification and tries again.
    The sections of [poll_recv] are separate definitions: module [Conn] interleaves them
    with those of [publish].

    The channel and the notification are tokio's: parameters, with their documented
    behaviour as laws. *)

From S2P Require Import Prelude Text.

Local Open Scope ecat_scope.

Definition Bytes : Type := list Byte.byte.

(** ** tokio's broadcast channel and Notify *)

Inductive TryRecv :=
| Received (b : Bytes)
| Lagged (n : nat)
| Closed
| Empty.

(** A channel with one receiver, a notification and the futures waiting on it.  [send]
    answers whether a receiver is left; [notify_waiters] answers the tasks it wakes;
    [poll] registers the task when it is pending. *)
Class Tokio := {
  ring : Type;
  channel : nat -> ring;
  send : ring -> Bytes -> ring * bool;
  try_recv : ring -> ring * TryRecv;
  drop_sender : ring -> ring;
  drop_receiver : ring -> ring;
  notify : Type;
  future : Type;
  new_notify : notify;
  notify_waiters : notify -> notify * list nat;
  notified_owned : notify -> future;
  poll_notified : notify -> future -> nat -> notify * future * bool
}.

(** What the documentation says of a channel: the messages it keeps for the receiver, how
    many it overwrote since the last read, its capacity and which halves are left. *)
Record RingView := { kept : list Bytes; lost : nat; cap : nat; tx : bool; rx : bool }.

(** A full channel overwrites its oldest message. *)
Definition after_send (v : RingView) (b : Bytes) : RingView :=
  if rx v then
    if (length (kept v) <? cap v)%nat
    then {| kept := kept v ++ [b]; lost := lost v; cap := cap v; tx := tx v; rx := rx v |}
    else {| kept := tl (kept v) ++ [b]; lost := S (lost v); cap := cap v; tx := tx v; rx := rx v |}
  else v.

Definition after_recv (v : RingView) : RingView * TryRecv :=
  match lost v, kept v with
  | S n, _ => ({| kept := kept v; lost := 0; cap := cap v; tx := tx v; rx := rx v |}, Lagged (S n))
  | 0, b :: l => ({| kept := l; lost := 0; cap := cap v; tx := tx v; rx := rx v |}, Received b)
  | 0, [] => (v, if tx v then Empty else Closed)
  end%nat.

(** A future completes by the first [notify_waiters] after its creation, polled or not;
    a pending poll leaves the task of the poll to be woken. *)
Class TokioLaw `{TK : Tokio} := {
  view : ring -> RingView;
  view_channel k : view (channel (2 ^ k)) = {| kept := []; lost := 0; cap := 2 ^ k; tx := true; rx := true |};
  view_send r b : view (send r b).1 = after_send (view r) b /\ (send r b).2 = rx (view r);
  view_recv r : (view (try_recv r).1, (try_recv r).2) = after_recv (view r);
  view_drop_sender r : view (drop_sender r) =
    {| kept := kept (view r); lost := lost (view r); cap := cap (view r); tx := false; rx := rx (view r) |};
  view_drop_receiver r : view (drop_receiver r) =
    {| kept := kept (view r); lost := lost (view r); cap := cap (view r); tx := tx (view r); rx := false |};
  calls : notify -> nat;
  waiting : notify -> list nat;
  born : future -> nat;
  new_silent : calls new_notify = 0 /\ waiting new_notify = [];
  notify_wakes n : (notify_waiters n).2 = waiting n /\ waiting (notify_waiters n).1 = [] /\
    calls (notify_waiters n).1 = S (calls n);
  future_born n : born (notified_owned n) = calls n;
  poll_ready n f w : (born f < calls n)%nat -> poll_notified n f w = (n, f, true);
  poll_waits n f w n' f' r : (calls n <= born f)%nat -> poll_notified n f w = (n', f', r) ->
    r = false /\ born f' = born f /\ calls n' = calls n /\ w ∈ waiting n'
}.

(** ** The queue *)

Module Mq.

Inductive MqError := Other (msg : string).

Inductive Poll (A : Type) := Ready (a : A) | Pending.
Arguments Ready {A} a.
Arguments Pending {A}.

(** [Option<Result<Bytes, MqError>>]: [None] ends the stream. *)
Definition Frame : Type := option (result Bytes MqError).

Definition lagged (n : nat) : MqError :=
  Other ("subscriber lagged: " +:+ dec_text (Z.of_nat n) +:+ " messages dropped").

Section Mq.
Context {TK : Tokio}.

(** What a [SenderEntry] and its stream share. *)
Record Slot := { slot_ring : ring; slot_notify : notify }.

(** The stream of slot [sub]. *)
Record InMemoryStream := { sub : nat; notified : option future }.

(** The slots by number, and those of each topic in the order of subscription. *)
Record InMemoryMq := { slots : list Slot; senders : gmap string (list nat) }.

Definition new : InMemoryMq := {| slots := []; senders := ∅ |}.

Definition CAPACITY : nat := 256.

Definition subscribe (topic : string) (mq : InMemoryMq) : InMemoryMq * InMemoryStream :=
  let id := length (slots mq) in
  ({| slots := slots mq ++ [{| slot_ring := channel CAPACITY; slot_notify := new_notify |}];
      senders := <[topic := default [] (senders mq !! topic) ++ [id]]> (senders mq) |},
   {| sub := id; notified := None |}).

(** *** publish *)

(** A channel without a receiver drops the message with a warning. *)
Definition send_slot (b : Bytes) (s : Slot) : Slot :=
  {| slot_ring := (send (slot_ring s) b).1; slot_notify := slot_notify s |}.

Definition notify_slot (s : Slot) : Slot * list nat :=
  let '(n, woken) := notify_waiters (slot_notify s) in
  ({| slot_ring := slot_ring s; slot_notify := n |}, woken).

Definition publish_slot (b : Bytes) (s : Slot) : Slot * list nat := notify_slot (send_slot b s).

(** Every entry of the topic in turn, and the tasks woken. *)
Fixpoint publish_entries (b : Bytes) (entries : list nat) (l : list Slot) : list Slot * list nat :=
  match entries with
  | [] => (l, [])
  | id :: entries =>
      match l !! id with
      | Some s =>
          let '(s, w) := publish_slot b s in
          let '(l, ws) := publish_entries b entries (<[id := s]> l) in (l, w ++ ws)
      | None => publish_entries b entries l
      end
  end.

Definition publish (topic : string) (payload : Bytes) (mq : InMemoryMq) : InMemoryMq * list nat :=
  match senders mq !! topic with
  | Some entries =>
      let '(l, woken) := publish_entries payload entries (slots mq) in
      ({| slots := l; senders := senders mq |}, woken)
  | None => (mq, [])
  end.

(** *** poll_recv *)

Definition frame_of (r : TryRecv) : option Frame :=
  match r with
  | Received b => Some (Some (Ok b))
  | Lagged n => Some (Some (Err (lagged n)))
  | Closed => Some None
  | Empty => None
  end.

(** Either [try_recv] of a poll. *)
Definition recv_slot (s : Slot) : Slot * option Frame :=
  let '(r, x) := try_recv (slot_ring s) in ({| slot_ring := r; slot_notify := slot_notify s |}, frame_of x).

(** A future is made when the stream holds none. *)
Definition arm (s : Slot) (n : option future) : future :=
  match n with Some f => f | None => notified_owned (slot_notify s) end.

Definition wait_slot (task : nat) (f : future) (s : Slot) : Slot * option future * bool :=
  let '(n, f, ready) := poll_notified (slot_notify s) f task in
  ({| slot_ring := slot_ring s; slot_notify := n |}, if ready then None else Some f, ready).

Definition poll_slot (task : nat) (s : Slot) (n : option future) : Slot * option future * Poll Frame :=
  match recv_slot s with
  | (s, Some fr) => (s, n, Ready fr)
  | (s, None) =>
      let '(s, n, ready) := wait_slot task (arm s n) s in
      if ready then
        match recv_slot s with
        | (s, Some fr) => (s, n, Ready fr)
        | (s, None) => (s, n, Pending)
        end
      else (s, n, Pending)
  end.

Definition poll_recv (task : nat) (st : InMemoryStream) (mq : InMemoryMq)
    : option (InMemoryMq * InMemoryStream * Poll Frame) :=
  s ← slots mq !! sub st;
  let '(s, n, p) := poll_slot task s (notified st) in
  Some ({| slots := <[sub st := s]> (slots mq); senders := senders mq |}, {| sub := sub st; notified := n |}, p).

(** Dropping the queue drops every sender, dropping a stream its receiver. *)
Definition drop_sender_slot (s : Slot) : Slot :=
  {| slot_ring := drop_sender (slot_ring s); slot_notify := slot_notify s |}.

Definition drop_mq (mq : InMemoryMq) : list Slot := drop_sender_slot <$> slots mq.

Definition drop_stream (st : InMemoryStream) (mq : InMemoryMq) : InMemoryMq :=
  {| slots := alter (fun s => {| slot_ring := drop_receiver (slot_ring s); slot_notify := slot_notify s |})
       (sub st) (slots mq);
     senders := senders mq |}.

End Mq.
End Mq.

(** ** One subscription, its consumer task and its publishers *)

Module Conn.
Import Mq.

(** Where the consumer's poll is: before the first try, with an empty channel, holding a
    future, woken by it. *)
Inductive rpc := Idle | Tried | Armed | Woken.

Section Conn.
Context {TK : Tokio}.

(** [parked]: the last poll was pending and no wake has come since.  [owed]: publishers
    between their send and their notification.  [closed]: the queue is dropped, after which nobody
    publishes.  [sent] and [got] are what was published and received, oldest first. *)
Record conn := {
  slot : Slot;
  fut : option future;
  pc : rpc;
  parked : bool;
  owed : nat;
  closed : bool;
  sent : list Bytes;
  got : list Frame
}.

(** The task of the consumer. *)
Definition consumer : nat := 0.

Definition fresh (s : Slot) : conn :=
  {| slot := s; fut := None; pc := Idle; parked := false; owed := 0; closed := false; sent := []; got := [] |}.

Definition init (c : conn) : Prop :=
  exists mq topic, slots (subscribe topic mq).1 !! sub (subscribe topic mq).2 = Some (slot c) /\ c = fresh (slot c).

(** A poll that answers a frame, and one that is pending. *)
Definition answers (s : Slot) (n : option future) (fr : Frame) (c : conn) : conn :=
  {| slot := s; fut := n; pc := Idle; parked := false; owed := owed c; closed := closed c; sent := sent c; got := got c ++ [fr] |}.

Definition pends (s : Slot) (n : option future) (c : conn) : conn :=
  {| slot := s; fut := n; pc := Idle; parked := true; owed := owed c; closed := closed c; sent := sent c; got := got c |}.

Definition at_pc (p : rpc) (s : Slot) (n : option future) (c : conn) : conn :=
  {| slot := s; fut := n; pc := p; parked := false; owed := owed c; closed := closed c; sent := sent c; got := got c |}.

Inductive step : conn -> conn -> Prop :=
| S_send c b :
    closed c = false ->
    step c {| slot := send_slot b (slot c); fut := fut c; pc := pc c; parked := parked c; owed := S (owed c);
              closed := closed c; sent := sent c ++ [b]; got := got c |}
| S_notify c k :
    owed c = S k ->
    step c {| slot := (notify_slot (slot c)).1; fut := fut c; pc := pc c;
              parked := parked c && negb (bool_decide (consumer ∈ (notify_slot (slot c)).2)); owed := k;
              closed := closed c; sent := sent c; got := got c |}
| S_recv c :
    pc c = Idle -> parked c = false ->
    step c match recv_slot (slot c) with
           | (s, Some fr) => answers s (fut c) fr c
           | (s, None) => at_pc Tried s (fut c) c
           end
| S_arm c : pc c = Tried -> step c (at_pc Armed (slot c) (Some (arm (slot c) (fut c))) c)
| S_wait c f :
    pc c = Armed -> fut c = Some f ->
    step c (let '(s, n, ready) := wait_slot consumer f (slot c) in
            if ready then at_pc Woken s n c else pends s n c)
| S_again c :
    pc c = Woken ->
    step c match recv_slot (slot c) with
           | (s, Some fr) => answers s (fut c) fr c
           | (s, None) => pends s (fut c) c
           end
| S_close c :
    closed c = false -> owed c = 0 ->
    step c {| slot := drop_sender_slot (slot c); fut := fut c; pc := pc c; parked := parked c; owed := 0;
              closed := true; sent := sent c; got := got c |}.

End Conn.
End Conn.
