(* ===== verification/MqSpec.v ===== *)
(** * What the in-memory queue delivers

    Under any interleaving of publishers and one consumer, every message is received in
    order, counted in a lag frame, or still in the channel.  A consumer that has to wait is
    woken by the next publication -- unless it waited before: the notification of the
    previous wait is left in the stream, and the poll that finds it is pending with nobody
    to wake it. *)

From S2P Require Import Prelude Text Mq.

Local Open Scope ecat_scope.

Module MqSpec.
Import Mq Conn.

(** The frames [fs] account for all of the published messages but the last ones. *)
Inductive accounts (l : list Bytes) : list Frame -> list Bytes -> Prop :=
| A_start : accounts l [] l
| A_message fs b r : accounts l fs (b :: r) -> accounts l (fs ++ [Some (Ok b)]) r
| A_lag fs d r : accounts l fs (d ++ r) -> accounts l (fs ++ [Some (Err (lagged (length d)))]) r
| A_end fs : accounts l fs [] -> accounts l (fs ++ [None]) [].

Lemma accounts_app l b fs r : accounts l fs r -> None ∉ fs -> accounts (l ++ [b]) fs (r ++ [b]).
Proof.
  induction 1 as [|fs x r H IH|fs d r H IH|fs H IH]; intros Hn.
  - constructor.
  - constructor. apply IH. set_solver.
  - constructor. rewrite (assoc_L (++)). apply IH. set_solver.
  - set_solver.
Qed.

Section Spec.
Context `{TL : TokioLaw}.

Definition seen (s : Slot) : RingView := view (slot_ring s).

Lemma recv_slot_view s : exists s' x, recv_slot s = (s', frame_of x) /\ after_recv (seen s) = (seen s', x) /\
  slot_notify s' = slot_notify s.
Proof.
  unfold recv_slot, seen. pose proof (view_recv (slot_ring s)) as H. destruct (try_recv (slot_ring s)) as [r x].
  eexists _, x. split; [done|]. by rewrite <- H.
Qed.

Lemma send_slot_view b s : seen (send_slot b s) = after_send (seen s) b /\ slot_notify (send_slot b s) = slot_notify s.
Proof. split; [|done]. apply (view_send (slot_ring s) b). Qed.

Lemma notify_slot_view s : seen (notify_slot s).1 = seen s /\ (notify_slot s).2 = waiting (slot_notify s) /\
  waiting (slot_notify (notify_slot s).1) = [] /\ calls (slot_notify (notify_slot s).1) = S (calls (slot_notify s)).
Proof.
  unfold notify_slot, seen. pose proof (notify_wakes (slot_notify s)) as (H1 & H2 & H3).
  by destruct (notify_waiters (slot_notify s)).
Qed.

(** A wait leaves the channel alone: it is over, or the task is registered. *)
Lemma wait_slot_view t f s : exists s' n r, wait_slot t f s = (s', n, r) /\ seen s' = seen s /\
  ((r = true /\ n = None /\ (born f < calls (slot_notify s))%nat /\ slot_notify s' = slot_notify s) \/
   (r = false /\ (exists f', n = Some f' /\ born f' = born f) /\ (calls (slot_notify s) <= born f)%nat /\
    calls (slot_notify s') = calls (slot_notify s) /\ t ∈ waiting (slot_notify s'))).
Proof.
  unfold wait_slot, seen. destruct (decide (born f < calls (slot_notify s))%nat) as [Hl|Hl].
  - rewrite poll_ready by done. eexists _, _, _. split; [done|]. split; [done|]. by left.
  - destruct (poll_notified (slot_notify s) f t) as [[n' f'] r] eqn:E.
    apply poll_waits in E as (-> & H1 & H2 & H3); [|lia]. eexists _, _, _. split; [done|]. split; [done|].
    right. split; [done|]. split; [eauto|]. split; [lia|]. done.
Qed.

(** *** The queue *)

Lemma publish_entries_length b es l : length (publish_entries b es l).1 = length l.
Proof.
  revert l. induction es as [|id es IH]; intros l; [done|]. cbn. destruct (l !! id) as [s|]; [|done].
  destruct (publish_slot b s) as [s' w]. specialize (IH (<[id := s']> l)).
  destruct (publish_entries b es (<[id := s']> l)). cbn in *. by rewrite IH, length_insert.
Qed.

Lemma publish_entries_lookup b es l i :
  NoDup es -> (publish_entries b es l).1 !! i =
    if bool_decide (i ∈ es) then (fun s => (publish_slot b s).1) <$> l !! i else l !! i.
Proof.
  revert l. induction es as [|id es IH]; intros l Hn; [by rewrite bool_decide_false by apply not_elem_of_nil|].
  apply NoDup_cons in Hn as [Hi Hn]. cbn. destruct (l !! id) as [s|] eqn:E.
  - destruct (publish_slot b s) as [s' w] eqn:Es. pose proof (IH (<[id := s']> l) Hn) as H.
    destruct (publish_entries b es (<[id := s']> l)) as [l' ws]. cbn in *. rewrite H. destruct (decide (i = id)) as [-> | Hne].
    + rewrite (bool_decide_false (id ∈ es)), (bool_decide_true (id ∈ id :: es)) by (done || by left).
      rewrite list_lookup_insert_eq by by eapply lookup_lt_Some. by rewrite E; cbn; rewrite Es.
    + rewrite list_lookup_insert_ne by done. by rewrite (bool_decide_ext (i ∈ id :: es) (i ∈ es)) by set_solver.
  - rewrite IH by done. destruct (decide (i = id)) as [-> | Hne].
    + rewrite (bool_decide_false (id ∈ es)), (bool_decide_true (id ∈ id :: es)) by (done || by left). by rewrite E.
    + by rewrite (bool_decide_ext (i ∈ id :: es) (i ∈ es)) by set_solver.
Qed.

(** The queues a sequence of subscriptions and publications makes. *)
Inductive built : InMemoryMq -> Prop :=
| B_new : built Mq.new
| B_subscribe mq topic : built mq -> built (subscribe topic mq).1
| B_publish mq topic b : built mq -> built (publish topic b mq).1
| B_poll mq task st mq' st' p : built mq -> poll_recv task st mq = Some (mq', st', p) -> built mq'
| B_drop mq st : built mq -> built (drop_stream st mq).

(** Every slot belongs to one topic. *)
Definition mq_inv (mq : InMemoryMq) : Prop :=
  forall topic es, senders mq !! topic = Some es -> NoDup es /\ Forall (fun id => id < length (slots mq))%nat es /\
    forall topic' es' id, senders mq !! topic' = Some es' -> id ∈ es -> id ∈ es' -> topic' = topic.

Lemma mq_inv_slots mq mq' :
  senders mq' = senders mq -> length (slots mq') = length (slots mq) -> mq_inv mq -> mq_inv mq'.
Proof. unfold mq_inv. by intros -> ->. Qed.

Lemma subscribe_inv topic mq : mq_inv mq -> mq_inv (subscribe topic mq).1.
Proof.
  intros H. assert (Hlt : forall t es id, senders mq !! t = Some es -> id ∈ es -> (id < length (slots mq))%nat).
  { intros t es id Ht Hi. destruct (H t es Ht) as (_ & Hf & _). rewrite Forall_forall in Hf. by apply Hf. }
  assert (Hd : forall id, id ∈ default [] (senders mq !! topic) -> (id < length (slots mq))%nat).
  { intros id Hi. destruct (senders mq !! topic) as [es|] eqn:E; [by eapply Hlt | by apply not_elem_of_nil in Hi]. }
  intros t es Ht. cbn [subscribe fst senders slots] in *. rewrite length_app. cbn [length].
  assert (Hin : forall t es id, <[topic := default [] (senders mq !! topic) ++ [length (slots mq)]]> (senders mq) !! t = Some es ->
    id ∈ es -> (id = length (slots mq) /\ t = topic) \/ exists es', senders mq !! t = Some es' /\ id ∈ es').
  { clear t es Ht. intros t es id Ht Hi. destruct (decide (topic = t)) as [<-|Hne].
    - rewrite lookup_insert_eq in Ht. injection Ht as <-. apply elem_of_app in Hi as [Hi | ->%list_elem_of_singleton].
      + right. destruct (senders mq !! topic) as [es|]; [by exists es | by apply not_elem_of_nil in Hi].
      + by left.
    - rewrite lookup_insert_ne in Ht by done. eauto. }
  split; [|split].
  - destruct (decide (topic = t)) as [<-|Hne].
    + rewrite lookup_insert_eq in Ht. injection Ht as <-. apply NoDup_app. split; [|split].
      * destruct (senders mq !! topic) as [es|] eqn:E; [by apply (H topic) | constructor].
      * intros id Hi ->%list_elem_of_singleton. apply Hd in Hi. lia.
      * apply NoDup_singleton.
    + rewrite lookup_insert_ne in Ht by done. by apply (H t).
  - apply Forall_forall. intros id Hi. destruct (Hin t es id Ht Hi) as [[-> _] | (es' & Hs & Hi')]; [lia|].
    specialize (Hlt t es' id Hs Hi'). lia.
  - intros t' es' id Ht' Hi Hi'.
    destruct (Hin t es id Ht Hi) as [[-> ->] | (e1 & H1 & Hi1)], (Hin t' es' _ Ht' Hi') as [[E ->] | (e2 & H2 & Hi2)].
    + done.
    + specialize (Hlt t' e2 _ H2 Hi2). lia.
    + subst id. specialize (Hlt t e1 _ H1 Hi1). lia.
    + by eapply (H t e1 H1).
Qed.

Lemma built_inv mq : built mq -> mq_inv mq.
Proof.
  induction 1 as [|mq topic _ IH|mq topic b _ IH|mq task st mq' st' p _ IH Hp|mq st _ IH].
  - intros t es Ht. cbn in Ht. by rewrite lookup_empty in Ht.
  - by apply subscribe_inv.
  - revert IH. apply mq_inv_slots; unfold publish; destruct (senders mq !! topic) as [es|]; try done;
      pose proof (publish_entries_length b es (slots mq)) as Hl; by destruct (publish_entries b es (slots mq)).
  - revert IH. unfold poll_recv in Hp. destruct (slots mq !! sub st) as [s|]; [|done]. cbn in Hp.
    destruct (poll_slot task s (notified st)) as [[s' n] q]. injection Hp as <- <- <-.
    apply mq_inv_slots; [done|]. cbn. by rewrite length_insert.
  - revert IH. apply mq_inv_slots; [done|]. cbn. apply length_alter.
Qed.

(** A publication is sent once to every subscription of its topic, with its
    notification, and touches no other. *)
Theorem publish_reaches_the_topic mq topic b i s :
  built mq -> slots mq !! i = Some s ->
  slots (publish topic b mq).1 !! i =
    Some (if bool_decide (i ∈ default [] (senders mq !! topic)) then (publish_slot b s).1 else s).
Proof.
  intros Hb Hs. unfold publish. destruct (senders mq !! topic) as [es|] eqn:E; cbn [default].
  - destruct (built_inv mq Hb topic es E) as (Hn & _ & _). pose proof (publish_entries_lookup b es (slots mq) i Hn) as H.
    destruct (publish_entries b es (slots mq)) as [l w]. cbn in *. rewrite H, Hs. by destruct (bool_decide (i ∈ es)).
  - cbn. by rewrite Hs.
Qed.

(** *** The invariant of a subscription *)

Record conn_inv (c : conn) : Prop := {
  ci_rx : rx (seen (slot c)) = true;
  ci_cap : cap (seen (slot c)) = CAPACITY;
  ci_kept : (length (kept (seen (slot c))) <= CAPACITY)%nat;
  ci_tx : tx (seen (slot c)) = negb (closed c);
  ci_open : closed c = false -> None ∉ got c;
  ci_accounts : exists d, length d = lost (seen (slot c)) /\ accounts (sent c) (got c) (d ++ kept (seen (slot c)));
  ci_parked : parked c = true -> pc c = Idle /\
    (fut c = None \/ exists f, fut c = Some f /\ consumer ∈ waiting (slot_notify (slot c)));
  ci_woken : pc c = Woken -> fut c = None
}.

Lemma conn_init_inv c : init c -> conn_inv c.
Proof.
  intros (mq & topic & Hs & Hc). rewrite Hc in *. cbn in Hs. rewrite list_lookup_middle in Hs by done. injection Hs as <-.
  assert (Hv : seen {| slot_ring := channel CAPACITY; slot_notify := new_notify |} =
    {| kept := []; lost := 0; cap := CAPACITY; tx := true; rx := true |}) by apply (view_channel 8).
  split; cbn [fresh slot closed got sent parked]; rewrite ?Hv; cbn [rx cap kept tx lost].
  - done.
  - done.
  - cbn. lia.
  - done.
  - set_solver.
  - exists []. split; [done|constructor].
  - done.
  - done.
Qed.

(** One [try_recv], by its answer. *)
Lemma recv_accounts c s x :
  conn_inv c -> after_recv (seen (slot c)) = (seen s, x) ->
  rx (seen s) = true /\ cap (seen s) = CAPACITY /\ (length (kept (seen s)) <= CAPACITY)%nat /\
  tx (seen s) = negb (closed c) /\
  match frame_of x with
  | Some fr => (closed c = false -> None ∉ got c ++ [fr]) /\
      exists d, length d = lost (seen s) /\ accounts (sent c) (got c ++ [fr]) (d ++ kept (seen s))
  | None => exists d, length d = lost (seen s) /\ accounts (sent c) (got c) (d ++ kept (seen s))
  end.
Proof.
  intros [Hr Hc Hk Ht Ho (d & Hd & Ha) _ _] Hx. unfold after_recv in Hx.
  destruct (lost (seen (slot c))) as [|n] eqn:El; [destruct (kept (seen (slot c))) as [|b l] eqn:Ek|];
    injection Hx as Hs <-; rewrite <- Hs; cbn [rx cap kept tx lost frame_of].
  - rewrite Ek, El. do 4 (split; [done|]). apply nil_length_inv in Hd as ->. rewrite Ht.
    destruct (closed c); cbn [negb frame_of]; [split; [done|]|]; exists []; split; try done. by apply A_end.
  - cbn [length] in Hk. do 2 (split; [done|]). split; [lia|]. split; [done|]. apply nil_length_inv in Hd as ->. split; [set_solver|].
    exists []. split; [done|]. by apply A_message.
  - do 4 (split; [done|]). split; [set_solver|]. exists []. split; [done|]. cbn [app]. rewrite <- Hd. by apply A_lag.
Qed.
Lemma recv_step_inv c (h : Frame -> Slot -> conn) (k : Slot -> conn) :
  conn_inv c ->
  (forall fr s, slot (h fr s) = s /\ closed (h fr s) = closed c /\ sent (h fr s) = sent c /\
     got (h fr s) = got c ++ [fr] /\ parked (h fr s) = false /\ pc (h fr s) = Idle) ->
  (forall s, slot (k s) = s /\ closed (k s) = closed c /\ sent (k s) = sent c /\ got (k s) = got c /\
     pc (k s) <> Woken /\ (parked (k s) = true -> pc (k s) = Idle /\ fut (k s) = None)) ->
  conn_inv match recv_slot (slot c) with (s, Some fr) => h fr s | (s, None) => k s end.
Proof.
  intros Hc Hh Hk. destruct (recv_slot_view (slot c)) as (s & x & -> & Hx & Hn).
  pose proof (recv_accounts c s x Hc Hx) as (H1 & H2 & H3 & H4 & H5).
  destruct (frame_of x) as [fr|].
  - destruct (Hh fr s) as (E1 & E2 & E3 & E4 & E5 & E6). destruct H5. split; rewrite ?E1, ?E2, ?E3, ?E4, ?E5, ?E6; done.
  - destruct (Hk s) as (E1 & E2 & E3 & E4 & E5 & Hp). split; rewrite ?E1, ?E2, ?E3, ?E4; try done; [apply Hc|].
    intros Hq. destruct (Hp Hq). eauto.
Qed.

Lemma conn_step_inv c c' : conn_inv c -> step c c' -> conn_inv c'.
Proof.
  intros Hc Hs. destruct Hs as [c b Hcl|c k Hk|c Hp Hq|c Hp|c f Hp Hf|c Hp|c Hcl Hk].
  - destruct Hc as [Hr Hca Hke Ht Ho (d & Hd & Ha) Hpk Hwo]. destruct (send_slot_view b (slot c)) as [Hv Hn].
    unfold after_send in Hv. rewrite Hr, Hca in Hv. split; cbn [slot closed got sent parked]; rewrite ?Hv, ?Hn; try done.
    + by case_match.
    + by case_match.
    + case_match eqn:E; cbn [kept]; rewrite length_app; cbn [length]; [apply Nat.ltb_lt in E; lia|].
      destruct (kept (seen (slot c))); cbn [tl length] in *; unfold CAPACITY in *; lia.
    + by case_match.
    + apply (accounts_app _ b) in Ha; [|by apply Ho]. rewrite <- (assoc_L (++)) in Ha.
      case_match eqn:E; cbn [kept lost]; [by eauto|]. apply Nat.ltb_ge in E.
      destruct (kept (seen (slot c))) as [|b0 t]; [cbn in E; unfold CAPACITY in E; lia|].
      exists (d ++ [b0]). split; [rewrite length_app; cbn; lia|]. by rewrite <- (assoc_L (++)).
  - destruct Hc as [Hr Hca Hke Ht Ho Ha Hpk Hwo]. destruct (notify_slot_view (slot c)) as (Hv & Hw & _).
    split; cbn [slot closed got sent parked pc fut]; rewrite ?Hv; try done.
    intros [Hp Hb]%andb_true_iff. apply negb_true_iff, bool_decide_eq_false in Hb. destruct (Hpk Hp) as [Hi [Hf | (f & Hf & Hx)]].
    + by eauto.
    + by rewrite Hw in Hb.
  - by apply recv_step_inv.
  - by destruct Hc; split.
  - destruct (wait_slot_view consumer f (slot c)) as (s & n & r & -> & Hv & Hcase).
    destruct Hc as [Hr Hca Hke Ht Ho Ha Hpk Hwo]. destruct Hcase as [(-> & -> & _) | (-> & (f' & -> & _) & _ & _ & Hw)];
      split; cbn [at_pc pends slot closed got sent parked pc fut]; rewrite ?Hv; try done. eauto.
  - apply recv_step_inv; [done..|]. intros s. cbn [pends slot closed got sent parked pc fut].
    do 5 (split; [done|]). intros _. split; [done|]. by apply Hc.
  - destruct Hc as [Hr Hca Hke Ht Ho Ha Hpk Hwo].
    assert (Hv : seen (drop_sender_slot (slot c)) = {| kept := kept (seen (slot c)); lost := lost (seen (slot c));
      cap := cap (seen (slot c)); tx := false; rx := rx (seen (slot c)) |}) by apply view_drop_sender.
    split; cbn [slot closed got sent parked]; rewrite ?Hv; done.
Qed.

Lemma reachable_conn_inv c : reachable init step c -> conn_inv c.
Proof. apply invariant_reachable. split; [apply conn_init_inv | apply conn_step_inv]. Qed.

(** Every message published to a subscription is, in the order of publication, received
    by its stream, counted in a lag frame, or still in the channel, which holds 256 at
    most; the stream ends only when nothing is left. *)
Theorem frames_account_for_every_message c :
  reachable init step c ->
  (length (kept (seen (slot c))) <= CAPACITY)%nat /\
  exists overwritten, length overwritten = lost (seen (slot c)) /\
    accounts (sent c) (got c) (overwritten ++ kept (seen (slot c))).
Proof. intros [_ _ Hk _ _ Ha _ _]%reachable_conn_inv. by split. Qed.

(** A message sent to a channel with a receiver is there for the next [try_recv]. *)
Lemma recv_after_send b s s' : rx (seen s) = true -> cap (seen s) = CAPACITY -> seen s' = seen (send_slot b s) ->
  exists t fr, recv_slot s' = (t, Some fr) /\ slot_notify t = slot_notify s'.
Proof.
  intros Hr Hc Hs. destruct (recv_slot_view s') as (t & x & -> & Hx & Hn). rewrite Hs, (proj1 (send_slot_view b s)) in Hx.
  unfold after_send, after_recv in Hx. rewrite Hr, Hc in Hx.
  destruct (length _ <? CAPACITY)%nat; cbn [kept lost] in Hx.
  - destruct (lost (seen s)); [|by injection Hx as _ <-; exists t; eexists].
    destruct (kept (seen s)); injection Hx as _ <-; exists t; eexists; done.
  - injection Hx as _ <-. exists t. by eexists.
Qed.

(** A consumer that waits for its first message is woken by the next publication, and
    its next poll answers a frame. *)
Theorem publish_wakes_a_waiting_stream c f b :
  reachable init step c -> closed c = false -> parked c = true -> fut c = Some f ->
  consumer ∈ (publish_slot b (slot c)).2 /\
  exists s n fr, poll_slot consumer (publish_slot b (slot c)).1 (Some f) = (s, n, Ready fr).
Proof.
  intros Hr Hcl Hp Hf. destruct (reachable_conn_inv c Hr) as [Hx Hc _ _ _ _ Hpk _].
  destruct (Hpk Hp) as [_ [Hf' | (g & _ & Hw)]]; [congruence|].
  unfold publish_slot. destruct (notify_slot_view (send_slot b (slot c))) as (Hv & Hn & _).
  split; [by rewrite Hn, (proj2 (send_slot_view b (slot c)))|].
  unfold poll_slot. destruct (recv_after_send b (slot c) _ Hx Hc Hv) as (t & fr & -> & _). eauto.
Qed.

(** *** The second wait *)

(** A parked stream without a future: its task waits for nobody. *)
Definition stranded (c : conn) : Prop :=
  pc c = Idle /\ parked c = true /\ fut c = None /\ waiting (slot_notify (slot c)) = [].

Lemma stranded_step c c' : stranded c -> step c c' -> stranded c' /\ got c' = got c.
Proof.
  intros (Hp & Hq & Hf & Hw) Hs. destruct Hs as [c b Hcl|c k Hk|c ? Hn|c ?|c f ?|c ?|c Hcl Hk]; try congruence.
  - done.
  - destruct (notify_slot_view (slot c)) as (_ & Hwk & Hw' & _). split; [|done].
    repeat split; cbn [pc parked fut slot]; try done. rewrite Hwk, Hw, Hq. by rewrite bool_decide_false by apply not_elem_of_nil.
  - done.
Qed.

Lemma stranded_forever c c' : rtc step c c' -> stranded c -> got c' = got c.
Proof.
  intros H. induction H as [|x y z Hxy _ IH]; [done|]. intros Hs. destruct (stranded_step x y Hs Hxy) as [Hy <-]. by apply IH.
Qed.

(** Publishers never wait for the consumer. *)
Lemma publish_all bs c : closed c = false -> exists c', rtc step c c' /\ sent c' = sent c ++ bs /\ closed c' = false.
Proof.
  revert c. induction bs as [|b bs IH]; intros c Hc.
  - exists c. by rewrite app_nil_r.
  - destruct (IH _ (Hc : closed {| slot := send_slot b (slot c); fut := fut c; pc := pc c; parked := parked c; owed := S (owed c);
      closed := closed c; sent := sent c ++ [b]; got := got c |} = false)) as (c' & H1 & H2 & H3).
    exists c'. split; [|split; [|done]].
    + eapply rtc_l; [by apply S_send|done].
    + rewrite H2. cbn [sent]. by rewrite <- (assoc_L (++)).
Qed.

(** The stream after a wait on an empty channel: the first try, the future, the wait. *)
Lemma first_wait s :
  seen s = {| kept := []; lost := 0; cap := CAPACITY; tx := true; rx := true |} ->
  exists s' f, rtc step (fresh s) (pends s' (Some f) (fresh s)) /\ seen s' = seen s /\
    born f = calls (slot_notify s') /\ consumer ∈ waiting (slot_notify s').
Proof.
  intros Hs. destruct (recv_slot_view s) as (s1 & x & E1 & Hx & Hn). rewrite Hs in Hx. injection Hx as Hs1 <-.
  destruct (wait_slot_view consumer (arm s1 None) s1) as (s2 & n & r & E2 & Hs2 & Hcase).
  destruct Hcase as [(_ & _ & Hl & _) | (-> & (f & -> & Hb) & _ & Hcl & Hwk)].
  { cbn [arm] in Hl. rewrite future_born in Hl. lia. }
  exists s2, f. split; [|split; [congruence|split; [|done]]].
  - eapply rtc_l; [apply S_recv; done|]. cbn [fresh slot]. rewrite E1. cbn [frame_of].
    eapply rtc_l; [apply S_arm; done|]. cbn [fresh slot at_pc fut].
    eapply rtc_l; [by eapply S_wait|]. cbn [fresh slot at_pc fut]. rewrite E2. apply rtc_refl.
  - rewrite Hb. cbn [arm]. by rewrite future_born, Hcl.
Qed.

(** The stream after the message it waited for: the future is still there, completed. *)
Lemma message_after_wait s f b c :
  seen s = {| kept := []; lost := 0; cap := CAPACITY; tx := true; rx := true |} ->
  born f = calls (slot_notify s) -> consumer ∈ waiting (slot_notify s) -> c = pends s (Some f) (fresh s) ->
  exists s', rtc step c {| slot := s'; fut := Some f; pc := Idle; parked := false; owed := 0; closed := false;
                           sent := [b]; got := [Some (Ok b)] |} /\
    seen s' = seen s /\ (born f < calls (slot_notify s'))%nat /\ waiting (slot_notify s') = [].
Proof.
  intros Hs Hb Hw ->. destruct (send_slot_view b s) as [Hv Hn]. destruct (notify_slot_view (send_slot b s)) as (Hv' & Hwk & Hw0 & Hc).
  rewrite Hv, Hs in Hv'. cbn in Hv'. destruct (recv_slot_view (notify_slot (send_slot b s)).1) as (s' & x & E & Hx & Hn').
  rewrite Hv' in Hx. injection Hx as Hs' <-. exists s'. rewrite Hn', Hw0, Hc, Hn, <- Hs', Hs. split; [|by auto with lia].
  eapply rtc_l; [by apply (S_send _ b)|]. eapply rtc_l; [by apply (S_notify _ 0)|].
  eapply rtc_l; [apply S_recv; cbn [pc parked slot pends]; [done|]|].
  - by rewrite Hwk, Hn, bool_decide_true by done.
  - cbn [slot pends fresh fut sent got]. rewrite E. apply rtc_refl.
Qed.

(** The next wait finds that future completed, the channel empty, and stops there. *)
Lemma second_wait_strands s f c b :
  c = {| slot := s; fut := Some f; pc := Idle; parked := false; owed := 0; closed := false;
         sent := [b]; got := [Some (Ok b)] |} ->
  seen s = {| kept := []; lost := 0; cap := CAPACITY; tx := true; rx := true |} ->
  (born f < calls (slot_notify s))%nat -> waiting (slot_notify s) = [] ->
  exists c', rtc step c c' /\ stranded c' /\ got c' = got c /\ sent c' = sent c /\ closed c' = false.
Proof.
  intros -> Hs Hb Hw. destruct (recv_slot_view s) as (s1 & x & E1 & Hx & Hn). rewrite Hs in Hx. injection Hx as Hs1 <-.
  destruct (wait_slot_view consumer f s1) as (s2 & n & r & E2 & Hs2 & Hcase). rewrite Hn in Hcase.
  destruct Hcase as [(-> & -> & _ & Hn2) | (_ & _ & Hl & _)]; [|lia].
  destruct (recv_slot_view s2) as (s3 & x & E3 & Hx & Hn3). rewrite Hs2, <- Hs1 in Hx. injection Hx as Hs3 <-.
  eexists. split.
  - eapply rtc_l; [apply S_recv; done|]. cbn [slot]. rewrite E1. cbn [frame_of].
    eapply rtc_l; [apply S_arm; done|]. cbn [slot at_pc fut arm].
    eapply rtc_l; [by eapply S_wait|]. cbn [slot at_pc fut]. rewrite E2.
    eapply rtc_l; [by apply S_again|]. cbn [slot at_pc fut]. rewrite E3. apply rtc_refl.
  - repeat split. cbn [frame_of pends slot]. by rewrite Hn3, Hn2.
Qed.

(** After the first message a stream had to wait for, it can stop for ever: its next
    poll is pending with nobody to wake it, and of whatever is published afterwards, by any
    interleaving, it receives nothing. *)
Theorem second_wait_is_never_woken b bs :
  exists c, reachable init step c /\ sent c = b :: bs /\ forall c', rtc step c c' -> got c' = [Some (Ok b)].
Proof.
  set (s0 := {| slot_ring := channel CAPACITY; slot_notify := new_notify |}).
  assert (H0 : seen s0 = {| kept := []; lost := 0; cap := CAPACITY; tx := true; rx := true |}) by apply (view_channel 8).
  destruct (first_wait s0 H0) as (s1 & f & R1 & Hs1 & Hb1 & Hw1). rewrite H0 in Hs1.
  destruct (message_after_wait s1 f b (pends s1 (Some f) (fresh s0)) Hs1 Hb1 Hw1 eq_refl) as (s2 & R2 & Hs2 & Hb2 & Hw2).
  rewrite Hs1 in Hs2.
  destruct (second_wait_strands s2 f _ b eq_refl Hs2 Hb2 Hw2) as (c3 & R3 & Hst & Hg & Hsn & Hcl).
  destruct (publish_all bs c3 Hcl) as (c & R4 & Hsent & _).
  exists c. split; [|split].
  - exists (fresh s0). split; [by exists new, "t"%string|]. by do 3 (etrans; [eassumption|]).
  - by rewrite Hsent, Hsn.
  - intros c' R5. rewrite (stranded_forever c3 c') by (done || by etrans). exact Hg.
Qed.

End Spec.
End MqSpec.

(** ** A channel and a notification *)

Module MqDemo.
Import Mq Conn MqSpec.

#[local] Instance demo_tokio : Tokio := {|
  ring := RingView;
  channel n := {| kept := []; lost := 0; cap := n; tx := true; rx := true |};
  send r b := (after_send r b, rx r);
  try_recv := after_recv;
  drop_sender r := {| kept := kept r; lost := lost r; cap := cap r; tx := false; rx := rx r |};
  drop_receiver r := {| kept := kept r; lost := lost r; cap := cap r; tx := tx r; rx := false |};
  notify := nat * list nat;
  future := nat;
  new_notify := (0, []);
  notify_waiters n := ((S n.1, []), n.2);
  notified_owned n := n.1;
  poll_notified n f w := if bool_decide (f < n.1)%nat then (n, f, true) else ((n.1, w :: n.2), f, false)
|}.

#[local] Instance demo_law : TokioLaw.
Proof.
  refine {| view (r : @ring demo_tokio) := r : RingView;
            calls (n : @notify demo_tokio) := (n : nat * list nat).1;
            waiting (n : @notify demo_tokio) := (n : nat * list nat).2;
            born (f : @future demo_tokio) := f : nat |}.
  - done.
  - done.
  - intros r. cbn. by destruct (after_recv r).
  - done.
  - done.
  - done.
  - done.
  - done.
  - intros n f w H. cbn in *. by rewrite bool_decide_true.
  - intros n f w n' f' r H E. cbn in *. rewrite bool_decide_false in E by lia. injection E as <- <- <-. cbn. set_solver.
Defined.

Definition slot0 : Slot := {| slot_ring := channel CAPACITY; slot_notify := new_notify |}.

Definition hello : Bytes := [Byte.x68].

(** A subscription whose consumer waits. *)
Definition waiting_conn : conn :=
  {| slot := {| slot_ring := channel CAPACITY; slot_notify := (0, [consumer]) |}; fut := Some 0; pc := Idle; parked := true;
     owed := 0; closed := false; sent := []; got := [] |}.

Lemma waiting_reached : reachable init step waiting_conn.
Proof.
  exists (fresh slot0). split; [by exists Mq.new, "t"%string|].
  eapply rtc_l; [by apply S_recv|]. eapply rtc_l; [by apply S_arm|]. eapply rtc_l; [by eapply S_wait|]. apply rtc_refl.
Qed.

Lemma publish_reaches_the_topic_witness :
  slots (publish "t" hello (subscribe "u" (subscribe "t" Mq.new).1).1).1 !! 1 = Some slot0.
Proof.
  exact (publish_reaches_the_topic (subscribe "u" (subscribe "t" Mq.new).1).1 "t" hello 1 slot0
    (B_subscribe _ "u" (B_subscribe _ "t" B_new)) eq_refl).
Defined.

Lemma publish_wakes_a_waiting_stream_witness :
  consumer ∈ (publish_slot hello (slot waiting_conn)).2 /\
  exists s n fr, poll_slot consumer (publish_slot hello (slot waiting_conn)).1 (Some 0) = (s, n, Ready fr).
Proof.
  exact (publish_wakes_a_waiting_stream waiting_conn 0 hello waiting_reached eq_refl eq_refl eq_refl).
Defined.

Lemma frames_account_for_every_message_witness :
  (length (kept (seen (slot waiting_conn))) <= CAPACITY)%nat /\
  exists overwritten, length overwritten = lost (seen (slot waiting_conn)) /\
    accounts (sent waiting_conn) (got waiting_conn) (overwritten ++ kept (seen (slot waiting_conn))).
Proof. exact (frames_account_for_every_message waiting_conn waiting_reached). Defined.

Lemma second_wait_is_never_woken_witness :
  exists c, reachable init step c /\ sent c = [hello; hello] /\
    forall c', rtc step c c' -> got c' = [Some (Ok hello)].
Proof. exact (second_wait_is_never_woken hello [hello]). Defined.

End MqDemo.
