(* ===== verification/Events.v ===== *)
(** * The event bus (ecat-events)

    [EventBus] dispatches events by the name of their type: locally to the handlers
    registered for it, or through a message queue, with one consumer task per type that
    dispatches what the queue delivers.  [subscribe] has four sections, between which other
    calls run: it registers the handler, claims the type, subscribes to the queue and binds
    the task it spawned.

    The serialisation of events and the queue are parameters: a queue answers a
    subscription or fails, and a stream hands frames to the task that polls it. *)

From S2P Require Import Prelude Mq.

Local Open Scope ecat_scope.

(** serde_json on the type of an event, by its name. *)
Class EventSerde := {
  event : Type;
  to_vec : string -> event -> result Bytes string;
  from_slice : string -> Bytes -> option event
}.

Module EventBus.

Section EventBus.
Context {ES : EventSerde}.

Inductive EventBusError := BusError (msg : string).

(** A consumer task: its type, and whether it still runs. *)
Record Task := { topic : string; running : bool }.

(** A call of [subscribe] after its handler is registered. *)
Inductive call :=
| Checking (name : string)
| Subscribing (name : string)
| Binding (name : string) (t : nat).

(** Handlers are numbered; [runs] are the handlers run with their events, oldest first,
    and [consumers] holds [None] while a consumer is being set up. *)
Record bus := {
  handlers : gmap string (list nat);
  consumers : gmap string (option nat);
  tasks : list Task;
  calls : list call;
  runs : list (nat * event)
}.

Definition empty : bus := {| handlers := ∅; consumers := ∅; tasks := []; calls := []; runs := [] |}.

(** A handler ignores, with a log line, what is not an event of its type. *)
Definition handle (name : string) (payload : Bytes) (h : nat) : list (nat * event) :=
  match from_slice name payload with Some e => [(h, e)] | None => [] end.

(** Every handler of the type, each in a task of its own. *)
Definition dispatch (name : string) (payload : Bytes) (hs : gmap string (list nat)) : list (nat * event) :=
  match hs !! name with
  | Some [h] => handle name payload h
  | Some l => l ≫= handle name payload
  | None => []
  end.

Definition register (name : string) (h : nat) (hs : gmap string (list nat)) : gmap string (list nat) :=
  <[name := default [] (hs !! name) ++ [h]]> hs.

Definition is_finished (s : bus) (t : nat) : bool :=
  match tasks s !! t with Some k => negb (running k) | None => true end.

(** The claim of a type stands while its consumer is set up or runs. *)
Definition claimed (s : bus) (name : string) : bool :=
  match consumers s !! name with
  | Some (Some t) => negb (is_finished s t)
  | Some None => true
  | None => false
  end.

Definition put (hs : gmap string (list nat)) (cs : gmap string (option nat)) (ts : list Task) (l : list call)
    (s : bus) : bus :=
  {| handlers := hs; consumers := cs; tasks := ts; calls := l; runs := runs s |}.

Definition ran (l : list (nat * event)) (s : bus) : bus :=
  {| handlers := handlers s; consumers := consumers s; tasks := tasks s; calls := calls s; runs := runs s ++ l |}.

Definition stop (k : Task) : Task := {| topic := topic k; running := false |}.

(** *** The bus of one process, without a queue *)

Definition subscribe_local (name : string) (h : nat) (s : bus) : bus :=
  put (register name h (handlers s)) (consumers s) (tasks s) (calls s) s.

Definition publish_local (name : string) (e : event) (s : bus) : bus * result unit EventBusError :=
  match to_vec name e with
  | Err m => (s, Err (BusError ("serialize: " +:+ m)))
  | Ok payload => (ran (default [] (handlers s !! name) ≫= handle name payload) s, Ok tt)
  end.

(** With a queue, [publish] only hands it the payload. *)
Definition publish_remote (name : string) (e : event) (mq_publish : string -> Bytes -> result unit Mq.MqError)
    (display : Mq.MqError -> string) : result unit EventBusError :=
  match to_vec name e with
  | Err m => Err (BusError ("serialize: " +:+ m))
  | Ok payload => map_err (fun x => BusError ("mq publish: " +:+ display x)) (mq_publish name payload)
  end.

(** *** The sections of [subscribe], the frames and the ends of tasks *)

Inductive step : bus -> bus -> Prop :=
| S_register s name h :
    step s (put (register name h (handlers s)) (consumers s) (tasks s) (calls s ++ [Checking name]) s)
| S_check s l1 name l2 :
    calls s = l1 ++ Checking name :: l2 ->
    step s (if claimed s name then put (handlers s) (consumers s) (tasks s) (l1 ++ l2) s
            else put (handlers s) (<[name := None]> (consumers s)) (tasks s) (l1 ++ Subscribing name :: l2) s)
| S_subscribed s l1 name l2 :
    calls s = l1 ++ Subscribing name :: l2 ->
    step s (put (handlers s) (consumers s) (tasks s ++ [{| topic := name; running := true |}])
              (l1 ++ Binding name (length (tasks s)) :: l2) s)
| S_failed s l1 name l2 :
    calls s = l1 ++ Subscribing name :: l2 ->
    step s (put (handlers s) (delete name (consumers s)) (tasks s) (l1 ++ l2) s)
| S_bind s l1 name t l2 :
    calls s = l1 ++ Binding name t :: l2 ->
    step s (put (handlers s) (<[name := Some t]> (consumers s)) (tasks s) (l1 ++ l2) s)
| S_cancelled s l1 name l2 :
    calls s = l1 ++ Subscribing name :: l2 ->
    step s (put (handlers s) (consumers s) (tasks s) (l1 ++ l2) s)
| S_payload s t k payload :
    tasks s !! t = Some k -> running k = true ->
    step s (ran (dispatch (topic k) payload (handlers s)) s)
| S_finish s t k :
    tasks s !! t = Some k ->
    step s (put (handlers s) (consumers s) (<[t := stop k]> (tasks s)) (calls s) s).

Definition init (s : bus) : Prop := s = empty.

End EventBus.
End EventBus.
