(* ===== verification/EventsSpec.v ===== *)
(** * What the event bus promises

    However subscriptions interleave, fail, are cancelled or see their consumer die, one
    consumer at most runs for a type, so that a message of the queue reaches every handler
    registered for its type once.  The other half does not hold: a subscription that fails
    or is cancelled can leave registered handlers without a consumer, and a cancelled one
    leaves them so for ever. *)

From S2P Require Import Prelude Mq Events.

Local Open Scope ecat_scope.

Module EventsSpec.
Import EventBus.

Section Spec.
Context {ES : EventSerde}.

Definition starting (name : string) (c : call) : Prop :=
  match c with Checking _ => False | Subscribing n | Binding n _ => n = name end.

#[export] Instance starting_dec name c : Decision (starting name c).
Proof. destruct c; cbn; apply _. Defined.

Definition live (s : bus) (t : nat) (name : string) : Prop :=
  exists k, tasks s !! t = Some k /\ running k = true /\ topic k = name.

(** Who is setting up or running the consumer of a type. *)
Record bus_inv (s : bus) : Prop := {
  bi_one : forall name, (length (filter (starting name) (calls s)) <= 1)%nat;
  bi_claim : forall name c, c ∈ calls s -> starting name c -> consumers s !! name = Some None;
  bi_live : forall name t, live s t name ->
    consumers s !! name = Some (Some t) \/ (consumers s !! name = Some None /\ Binding name t ∈ calls s)
}.

Lemma starting_count name l1 c l2 :
  length (filter (starting name) (l1 ++ c :: l2)) =
    (length (filter (starting name) (l1 ++ l2)) + if decide (starting name c) then 1 else 0)%nat.
Proof.
  rewrite !filter_app, !length_app, filter_cons. destruct (decide (starting name c)); cbn [length]; lia.
Qed.

Lemma fewer_starting s name l1 c l2 :
  (forall n, (length (filter (starting n) (calls s)) <= 1)%nat) -> calls s = l1 ++ c :: l2 ->
  (length (filter (starting name) (l1 ++ l2)) <= 1)%nat.
Proof. intros H E. specialize (H name). rewrite E, starting_count in H. destruct (decide _); lia. Qed.

Lemma starting_none name (l : list call) :
  length (filter (starting name) l) = 0%nat -> forall c, c ∈ l -> ~ starting name c.
Proof.
  intros H%nil_length_inv c Hc Hs. assert (Hf : c ∈ filter (starting name) l) by by apply list_elem_of_filter.
  rewrite H in Hf. by apply not_elem_of_nil in Hf.
Qed.

(** A call in its sections is the only one of its type. *)
Lemma only_starting s l1 name c l2 :
  bus_inv s -> calls s = l1 ++ c :: l2 -> starting name c ->
  (forall c', c' ∈ l1 ++ l2 -> ~ starting name c') /\ consumers s !! name = Some None.
Proof.
  intros Hs E Hc. pose proof (bi_one s Hs name) as H. rewrite E, starting_count, decide_True in H by done. split.
  - apply starting_none. lia.
  - apply (bi_claim s Hs name c); [rewrite E; set_solver | done].
Qed.

(** While a subscription to the queue is under way no consumer of the type runs. *)
Lemma subscribing_alone s l1 name l2 t :
  bus_inv s -> calls s = l1 ++ Subscribing name :: l2 -> ~ live s t name.
Proof.
  intros Hs E Hl. destruct (only_starting s l1 name _ l2 Hs E eq_refl) as [Ho Hn].
  destruct (bi_live s Hs name t Hl) as [H | [_ H]]; [congruence|]. rewrite E in H.
  apply elem_of_app in H as [H | [H | H]%elem_of_cons]; [|done|]; (eapply (Ho (Binding name t)); [set_solver | done]).
Qed.

(** The invariant when the claim of one type and one call change. *)
Lemma call_step s s' l1 c l2 new name :
  bus_inv s -> calls s = l1 ++ c :: l2 -> calls s' = l1 ++ new ++ l2 ->
  (forall t n, n <> name -> live s' t n -> live s t n) ->
  (forall n, n <> name -> consumers s' !! n = consumers s !! n) ->
  (forall n, n <> name -> filter (starting n) new = [] /\ ~ starting n c) ->
  (length (filter (starting name) (l1 ++ new ++ l2)) <= 1)%nat ->
  (forall c', c' ∈ l1 ++ new ++ l2 -> starting name c' -> consumers s' !! name = Some None) ->
  (forall t, live s' t name -> consumers s' !! name = Some (Some t) \/
     (consumers s' !! name = Some None /\ Binding name t ∈ l1 ++ new ++ l2)) ->
  bus_inv s'.
Proof.
  intros Hs E E' Hl Hcs Hnew H1 H2 H3. split.
  - intros n. rewrite E'. destruct (decide (n = name)) as [-> | Hne]; [done|]. destruct (Hnew n Hne) as [Hn Hc].
    pose proof (bi_one s Hs n) as H. rewrite E, starting_count in H. rewrite !filter_app, Hn, !length_app in *. cbn. lia.
  - intros n c'. rewrite E'. destruct (decide (n = name)) as [-> | Hne]; [by apply H2|]. intros Hc' Hst. rewrite Hcs by done.
    destruct (Hnew n Hne) as [Hn Hc]. apply (bi_claim s Hs n c'); [|done]. rewrite E.
    assert (c' ∉ new).
    { intros Hx. assert (Hf : c' ∈ filter (starting n) new) by by apply list_elem_of_filter. rewrite Hn in Hf. by apply not_elem_of_nil in Hf. }
    set_solver.
  - intros n t Hlt. rewrite E'. destruct (decide (n = name)) as [-> | Hne]; [by apply H3|]. apply (Hl t n Hne) in Hlt. rewrite Hcs by done.
    destruct (bi_live s Hs n t Hlt) as [H | [H Hb]]; [by left|]. right. split; [done|]. rewrite E in Hb.
    destruct (Hnew n Hne) as [_ Hc]. apply elem_of_app in Hb as [Hb | [Hb | Hb]%elem_of_cons]; [set_solver| |set_solver].
    subst c. by cbn in Hc.
Qed.

Lemma register_inv s name h :
  bus_inv s -> bus_inv (put (register name h (handlers s)) (consumers s) (tasks s) (calls s ++ [Checking name]) s).
Proof.
  intros [H1 H2 H3]. split; cbn [put calls consumers].
  - intros n. rewrite filter_app, filter_cons_False, filter_nil, app_nil_r by tauto. apply H1.
  - intros n c [Hc | ->%list_elem_of_singleton]%elem_of_app; [by apply H2 | done].
  - intros n t Hl. destruct (H3 n t Hl) as [H | [H Hb]]; [by left | right; split; [done | set_solver]].
Qed.

Lemma unclaimed_idle s name :
  bus_inv s -> claimed s name = false ->
  (forall c, c ∈ calls s -> ~ starting name c) /\ forall t, ~ live s t name.
Proof.
  intros Hs Hc. unfold claimed in Hc. split.
  - intros c Hin Hst. by rewrite (bi_claim s Hs name c Hin Hst) in Hc.
  - intros t Hl. destruct (bi_live s Hs name t Hl) as [H | [H _]]; rewrite H in Hc; [|done].
    destruct Hl as (k & Hk & Hr & _). unfold is_finished in Hc. by rewrite Hk, Hr in Hc.
Qed.

Lemma check_inv s l1 name l2 :
  bus_inv s -> calls s = l1 ++ Checking name :: l2 ->
  bus_inv (if claimed s name then put (handlers s) (consumers s) (tasks s) (l1 ++ l2) s
           else put (handlers s) (<[name := None]> (consumers s)) (tasks s) (l1 ++ Subscribing name :: l2) s).
Proof.
  intros Hs E. destruct (claimed s name) eqn:Ec.
  - apply (call_step s _ l1 (Checking name) l2 [] name); try done.
    + intros n _. split; [done | tauto].
    + by apply (fewer_starting s name l1 (Checking name) l2 (bi_one s Hs)).
    + intros c' Hc' Hst. apply (bi_claim s Hs name c'); [rewrite E; set_solver | done].
    + intros t Hl. destruct (bi_live s Hs name t Hl) as [H | [H Hb]]; [by left | right; split; [done|]].
      rewrite E in Hb. cbn [app]. set_solver.
  - destruct (unclaimed_idle s name Hs Ec) as [Hn Hl]. rewrite E in Hn.
    apply (call_step s _ l1 (Checking name) l2 [Subscribing name] name); try done.
    + intros n Hne. cbn. by rewrite lookup_insert_ne.
    + intros n Hne. split; [|tauto]. rewrite filter_cons_False; [done|]. cbn. congruence.
    + cbn [app]. rewrite starting_count, decide_True by done.
      destruct (filter (starting name) (l1 ++ l2)) as [|c f] eqn:Ef; [cbn; lia|].
      assert (Hc : c ∈ filter (starting name) (l1 ++ l2)) by (rewrite Ef; left).
      apply list_elem_of_filter in Hc as [Hst Hin]. by destruct (Hn c ltac:(set_solver)).
    + intros _ _ _. cbn. apply lookup_insert_eq.
    + intros t Hl'. by destruct (Hl t).
Qed.

Lemma subscribed_inv s l1 name l2 :
  bus_inv s -> calls s = l1 ++ Subscribing name :: l2 ->
  bus_inv (put (handlers s) (consumers s) (tasks s ++ [{| topic := name; running := true |}])
             (l1 ++ Binding name (length (tasks s)) :: l2) s).
Proof.
  intros Hs E. destruct (only_starting s l1 name _ l2 Hs E eq_refl) as [Ho Hn].
  assert (Hlive : forall t n, live (put (handlers s) (consumers s) (tasks s ++ [{| topic := name; running := true |}])
      (l1 ++ Binding name (length (tasks s)) :: l2) s) t n -> live s t n \/ (t = length (tasks s) /\ n = name)).
  { intros t n (k & Hk & Hr & <-). cbn [put tasks] in Hk. apply lookup_app_Some in Hk as [Hk | [Hge Hk]]; [by left; exists k|].
    right. apply list_lookup_singleton_Some in Hk as [Ht <-]. split; [lia | done]. }
  apply (call_step s _ l1 (Subscribing name) l2 [Binding name (length (tasks s))] name); try done.
  - intros t n Hne Hl. destruct (Hlive t n Hl) as [H | [_ H]]; done.
  - intros n Hne. split; [rewrite filter_cons_False; [done|]|]; cbn; congruence.
  - pose proof (bi_one s Hs name) as H. rewrite E, starting_count in H. cbn [app]. rewrite starting_count. by rewrite !decide_True in * by done.
  - intros t Hl. destruct (Hlive t name Hl) as [H | [-> _]]; [by destruct (subscribing_alone s l1 name l2 t)|].
    right. split; [done|]. set_solver.
Qed.

Lemma dropped_call_inv s cs l1 name l2 :
  bus_inv s -> calls s = l1 ++ Subscribing name :: l2 -> (forall n, n <> name -> cs !! n = consumers s !! n) ->
  bus_inv (put (handlers s) cs (tasks s) (l1 ++ l2) s).
Proof.
  intros Hs E Hcs. destruct (only_starting s l1 name _ l2 Hs E eq_refl) as [Ho Hn].
  apply (call_step s _ l1 (Subscribing name) l2 [] name); try done.
  - intros n Hne. split; [done|]. cbn. congruence.
  - by eapply (fewer_starting s name l1 _ l2 (bi_one s Hs)).
  - intros c' Hc' Hst. by destruct (Ho c').
  - intros t Hl. by destruct (subscribing_alone s l1 name l2 t).
Qed.

Lemma bind_inv s l1 name t l2 :
  bus_inv s -> calls s = l1 ++ Binding name t :: l2 ->
  bus_inv (put (handlers s) (<[name := Some t]> (consumers s)) (tasks s) (l1 ++ l2) s).
Proof.
  intros Hs E. destruct (only_starting s l1 name _ l2 Hs E eq_refl) as [Ho Hn].
  apply (call_step s _ l1 (Binding name t) l2 [] name); try done.
  - intros n Hne. cbn. by rewrite lookup_insert_ne.
  - intros n Hne. split; [done|]. cbn. congruence.
  - by eapply (fewer_starting s name l1 _ l2 (bi_one s Hs)).
  - intros c' Hc' Hst. by destruct (Ho c').
  - intros t' Hl. left. cbn. rewrite lookup_insert_eq. destruct (bi_live s Hs name t' Hl) as [H | [_ H]]; [congruence|].
    rewrite E in H. apply elem_of_app in H as [H | [H | H]%elem_of_cons]; [|congruence|];
      by destruct (Ho (Binding name t') ltac:(set_solver)).
Qed.

Lemma live_after_stop s t k t' n cs hs l :
  tasks s !! t = Some k -> live (put hs cs (<[t := stop k]> (tasks s)) l s) t' n -> live s t' n.
Proof.
  intros Hk (k' & Hk' & Hr & Hn). cbn [put tasks] in Hk'. destruct (decide (t = t')) as [<-|Hne].
  - rewrite list_lookup_insert_eq in Hk' by by eapply lookup_lt_Some. by injection Hk' as <-.
  - rewrite list_lookup_insert_ne in Hk' by done. by exists k'.
Qed.

Lemma bus_step_inv s s' : bus_inv s -> step s s' -> bus_inv s'.
Proof.
  intros Hs Hst. destruct Hst as [s name h|s l1 name l2 E|s l1 name l2 E|s l1 name l2 E|s l1 name t l2 E|s l1 name l2 E|s t k b Hk Hr|s t k Hk].
  - by apply register_inv.
  - by apply check_inv.
  - by apply subscribed_inv.
  - apply (dropped_call_inv s _ l1 name l2); try done. intros n Hne. by rewrite lookup_delete_ne.
  - by apply bind_inv.
  - by apply (dropped_call_inv s _ l1 name l2).
  - by destruct Hs; split.
  - split; [apply Hs | apply Hs|]. intros n t' Hl. apply live_after_stop in Hl; [|done]. by apply (bi_live s Hs).
Qed.

Lemma reachable_bus_inv s : reachable init step s -> bus_inv s.
Proof.
  apply invariant_reachable. split; [|apply bus_step_inv]. intros ? ->. split; cbn.
  - intros name. lia.
  - intros ? ? H. by apply not_elem_of_nil in H.
  - intros ? ? (k & Hk & _). done.
Qed.

(** C27. However calls of [subscribe] interleave, fail or are cancelled, and whatever
    consumer tasks end, two running consumers are never of one type: a message of the queue
    is dispatched once. *)
Theorem one_consumer_per_event s t t' name :
  reachable init step s -> live s t name -> live s t' name -> t = t'.
Proof.
  intros Hs%reachable_bus_inv Hl Hl'. destruct (bi_live s Hs name t Hl) as [H | [H Hb]], (bi_live s Hs name t' Hl') as [H' | [H' Hb']];
    try congruence.
  apply list_elem_of_split in Hb as (l1 & l2 & E). rewrite E in Hb'. destruct (only_starting s l1 name _ l2 Hs E eq_refl) as [Ho _].
  apply elem_of_app in Hb' as [Hb' | [Hb' | Hb']%elem_of_cons]; [|congruence|]; by destruct (Ho (Binding name t') ltac:(set_solver)).
Qed.

(** What a consumer receives goes to every handler registered for its type, once and in
    the order of registration, except to those that cannot read it. *)
Theorem payload_reaches_every_handler s t k payload e :
  tasks s !! t = Some k -> running k = true -> from_slice (topic k) payload = Some e ->
  exists s', step s s' /\ runs s' = runs s ++ ((fun h => (h, e)) <$> default [] (handlers s !! topic k)).
Proof.
  intros Hk Hr He. eexists. split; [by eapply S_payload|]. cbn. f_equal. unfold dispatch.
  assert (Hb : forall l, l ≫= handle (topic k) payload = (fun h => (h, e)) <$> l).
  { intros l. induction l as [|h l IH]; [done|]. cbn. unfold handle at 1. rewrite He, IH. done. }
  destruct (handlers s !! topic k) as [[|h [|h' l]]|]; cbn [default];
    first [done | apply Hb | unfold handle; by rewrite He].
Qed.

(** *** Types that stay silent *)

(** A claim without a call behind it. *)
Definition orphaned (name : string) (s : bus) : Prop :=
  consumers s !! name = Some None /\ forall c, c ∈ calls s -> ~ starting name c.

Lemma orphaned_dead s name t : bus_inv s -> orphaned name s -> ~ live s t name.
Proof.
  intros Hs [Hc Hn] Hl. destruct (bi_live s Hs name t Hl) as [H | [_ H]]; [congruence|]. by destruct (Hn _ H).
Qed.

Lemma orphaned_step s s' name : orphaned name s -> step s s' -> orphaned name s'.
Proof.
  intros [Hc Hn] Hst.
  destruct Hst as [s n h|s l1 n l2 E|s l1 n l2 E|s l1 n l2 E|s l1 n t l2 E|s l1 n l2 E|s t k b Hk Hr|s t k Hk]; try done;
    try (rewrite E in Hn; assert (Hno : forall c, c ∈ l1 ++ l2 -> ~ starting name c) by set_solver).
  - split; [done|]. cbn. intros c [Hin | ->%list_elem_of_singleton]%elem_of_app; [by apply Hn | tauto].
  - unfold claimed. destruct (decide (n = name)) as [-> | Hne]; [by rewrite Hc|].
    case_match; (split; cbn; [by rewrite ?lookup_insert_ne|]); [done|].
    intros c [Hin | [-> | Hin]%elem_of_cons]%elem_of_app; [apply Hno; set_solver | cbn; congruence | apply Hno; set_solver].
  - assert (n <> name) by (intros ->; apply (Hn (Subscribing name)); [set_solver | done]). split; [done|]. cbn.
    intros c [Hin | [-> | Hin]%elem_of_cons]%elem_of_app; [apply Hno; set_solver | cbn; congruence | apply Hno; set_solver].
  - assert (n <> name) by (intros ->; apply (Hn (Subscribing name)); [set_solver | done]). split; cbn; [by rewrite lookup_delete_ne | done].
  - assert (n <> name) by (intros ->; apply (Hn (Binding name t)); [set_solver | done]). split; cbn; [by rewrite lookup_insert_ne | done].
  - split; [done|]. cbn. done.
Qed.

Lemma orphaned_forever s s' name : rtc step s s' -> orphaned name s -> orphaned name s'.
Proof. induction 1 as [|x y z Hxy _ IH]; [done|]. intros H. apply IH. by eapply orphaned_step. Qed.

(** A subscription cancelled while the queue answers leaves its claim behind: its
    handler is registered, and no consumer of the type ever runs again, whatever is
    subscribed afterwards. *)
Theorem cancelled_subscribe_silences_the_type name h :
  exists s, reachable init step s /\ handlers s !! name = Some [h] /\ calls s = [] /\
    forall s' t, rtc step s s' -> ~ live s' t name.
Proof.
  eexists {| handlers := {[name := [h]]}; consumers := {[name := None]}; tasks := []; calls := []; runs := [] |}.
  assert (Hr : rtc step empty {| handlers := {[name := [h]]}; consumers := {[name := None]}; tasks := []; calls := []; runs := [] |}).
  { eapply rtc_l; [apply (S_register _ name h)|]. eapply rtc_l; [by apply (S_check _ [] name [])|]. cbn. unfold claimed. cbn.
    rewrite lookup_empty. eapply rtc_l; [by apply (S_cancelled _ [] name [])|]. unfold put, register. cbn.
    rewrite lookup_empty. apply rtc_refl. }
  split; [by exists empty|]. split; [apply lookup_singleton_eq|]. split; [done|]. intros s' t Hs'.
  apply orphaned_dead.
  - apply reachable_bus_inv. exists empty. split; [done|]. by etrans.
  - eapply orphaned_forever; [exact Hs'|]. split; cbn; [apply lookup_singleton_eq|]. intros c Hc. by apply not_elem_of_nil in Hc.
Qed.

(** When the first of two concurrent subscriptions fails, the second has already returned:
    both handlers are registered and nothing consumes. *)
Lemma failed_subscribe_orphans_the_other name h h' :
  exists s, reachable init step s /\ handlers s !! name = Some [h; h'] /\ calls s = [] /\ tasks s = [].
Proof.
  eexists. split; [exists empty; split; [done|]|].
  - eapply rtc_l; [apply (S_register _ name h)|]. eapply rtc_l; [by apply (S_check _ [] name [])|]. unfold claimed. cbn.
    rewrite lookup_empty. eapply rtc_l; [apply (S_register _ name h')|]. cbn.
    eapply rtc_l; [by apply (S_check _ [Subscribing name] name [])|]. unfold claimed. cbn. rewrite lookup_insert_eq.
    eapply rtc_l; [by apply (S_failed _ [] name [])|]. apply rtc_refl.
  - cbn. unfold register. split; [|done]. rewrite !lookup_insert_eq. cbn. by rewrite lookup_empty.
Qed.

End Spec.
End EventsSpec.

Module EventsDemo.
Import EventBus EventsSpec.

(** Events are bytes. *)
#[local] Instance demo_serde : EventSerde :=
  {| event := Bytes; to_vec _ b := Ok b; from_slice _ b := Some b |}.

Definition demo_bus : bus :=
  {| handlers := {["Created" := [7]]}; consumers := {["Created" := None]}; tasks := [{| topic := "Created"; running := true |}];
     calls := [Binding "Created" 0]; runs := [] |}.

Lemma demo_reached : reachable init step demo_bus.
Proof.
  exists empty. split; [done|]. eapply rtc_l; [apply (S_register _ "Created" 7)|].
  eapply rtc_l; [by apply (S_check _ [] "Created" [])|]. eapply rtc_l; [by apply (S_subscribed _ [] "Created" [])|]. apply rtc_refl.
Qed.

Lemma one_consumer_per_event_witness : 0 = 0.
Proof.
  exact (one_consumer_per_event demo_bus 0 0 "Created" demo_reached
    (ex_intro _ _ (conj eq_refl (conj eq_refl eq_refl))) (ex_intro _ _ (conj eq_refl (conj eq_refl eq_refl)))).
Defined.

Lemma payload_reaches_every_handler_witness :
  exists s', step demo_bus s' /\ runs s' = runs demo_bus ++ [(7, [Byte.x68])].
Proof.
  exact (payload_reaches_every_handler demo_bus 0 {| topic := "Created"; running := true |} [Byte.x68] [Byte.x68] eq_refl eq_refl eq_refl).
Defined.

End EventsDemo.
