(* ===== verification/Saga.v ===== *)
(** * The saga engine ([ecat-saga])

    [src/ecat-saga/src/saga.rs] (run, resume, forward execution, reverse
    compensation) over the store interface of [state.rs], with its in-memory
    implementation and the status codes of its SQL one.

    Everything the engine does to the outside is an effect of a small monad:
    [execute]/[compensate] of a step and the two writes of the store.  A process
    can die before any effect; [budget] is the number of effects it still
    performs, [None] when it does not die.  What survives a crash is the store
    and the outside world [Ext], not the context in memory. *)

From S2P Require Import Prelude.
From stdpp Require Import pretty.

Local Open Scope ecat_scope.

Module State.

Inductive SagaStatus := Running | Compensating | Completed | Compensated | Failed.
Inductive StepStatus := Pending | Done | StepCompensated | StepFailed.

#[export] Instance SagaStatus_eq_dec : EqDecision SagaStatus.
Proof. solve_decision. Defined.
#[export] Instance StepStatus_eq_dec : EqDecision StepStatus.
Proof. solve_decision. Defined.

(** [Debug] of the status, used in an error text. *)
Definition debug (s : SagaStatus) : string :=
  match s with
  | Running => "Running" | Compensating => "Compensating" | Completed => "Completed"
  | Compensated => "Compensated" | Failed => "Failed"
  end.

Inductive SagaError :=
| ErrStepFailed (step message : string)
| CompensationFailed (step message : string)
| NotFound (saga_id : string)
| InvalidState (saga_id : string) (status : SagaStatus)
| ErrState (message : string)
| Context (message : string).

(** [Display for SagaError]. *)
Definition display (e : SagaError) : string :=
  match e with
  | ErrStepFailed step m => "saga step `" +:+ step +:+ "` failed: " +:+ m
  | CompensationFailed step m => "saga compensation `" +:+ step +:+ "` failed: " +:+ m
  | NotFound id => "saga `" +:+ id +:+ "` not found"
  | InvalidState id s =>
      "saga `" +:+ id +:+ "` is " +:+ debug s +:+ "; manual intervention required"
  | ErrState m => "saga state: " +:+ m
  | Context m => "saga context: " +:+ m
  end.

Definition saga_as_str (s : SagaStatus) : string :=
  match s with
  | Running => "running" | Compensating => "compensating" | Completed => "completed"
  | Compensated => "compensated" | Failed => "failed"
  end.

Definition saga_parse (text : string) : result SagaStatus SagaError :=
  if String.eqb text "running" then Ok Running
  else if String.eqb text "compensating" then Ok Compensating
  else if String.eqb text "completed" then Ok Completed
  else if String.eqb text "compensated" then Ok Compensated
  else if String.eqb text "failed" then Ok Failed
  else Err (ErrState ("unknown saga status `" +:+ text +:+ "`")).

Definition step_as_str (s : StepStatus) : string :=
  match s with
  | Pending => "pending" | Done => "done" | StepCompensated => "compensated"
  | StepFailed => "failed"
  end.

Definition step_parse (text : string) : result StepStatus SagaError :=
  if String.eqb text "pending" then Ok Pending
  else if String.eqb text "done" then Ok Done
  else if String.eqb text "compensated" then Ok StepCompensated
  else if String.eqb text "failed" then Ok StepFailed
  else Err (ErrState ("unknown step status `" +:+ text +:+ "`")).

Record SagaState {V : Type} := {
  saga_id : string;
  status : SagaStatus;
  current_step : nat;
  context : V;
}.
Arguments SagaState : clear implicits.

Definition set_status {V} (s : SagaStatus) (st : SagaState V) : SagaState V :=
  {| saga_id := saga_id st; status := s; current_step := current_step st; context := context st |}.
Definition set_current {V} (n : nat) (st : SagaState V) : SagaState V :=
  {| saga_id := saga_id st; status := status st; current_step := n; context := context st |}.
Definition set_context {V} (c : V) (st : SagaState V) : SagaState V :=
  {| saga_id := saga_id st; status := status st; current_step := current_step st; context := c |}.

(** The trait [SagaStateStore]: two reads and two writes, all fallible. *)
Class SagaStateStore (V S : Type) := {
  load : S -> string -> result (option (SagaState V)) SagaError;
  save : S -> SagaState V -> result unit SagaError * S;
  step_status : S -> string -> string -> result StepStatus SagaError;
  set_step : S -> string -> string -> StepStatus -> result unit SagaError * S;
}.

(** What the engine's guarantees assume of a store: reads and writes succeed, and
    a write is what the next read of the same key returns. *)
Class ReliableStore (V S : Type) `{SagaStateStore V S} := {
  load_ok s id : exists o, load s id = Ok o;
  save_ok s st : (save s st).1 = Ok tt;
  step_status_ok s id n : exists x, step_status s id n = Ok x;
  set_step_ok s id n x : (set_step s id n x).1 = Ok tt;
  load_save s st id :
    load (save s st).2 id = if decide (id = saga_id st) then Ok (Some st) else load s id;
  step_status_save s st id n : step_status (save s st).2 id n = step_status s id n;
  load_set_step s id n x id' : load (set_step s id n x).2 id' = load s id';
  step_status_set_step s id n x id' n' :
    step_status (set_step s id n x).2 id' n' =
      if decide ((id', n') = (id, n)) then Ok x else step_status s id' n';
}.

(** [MemorySagaStateStore]: two hash maps behind one lock. *)
Record Inner {V : Type} := {
  states : gmap string (SagaState V);
  steps : gmap (string * string) StepStatus;
}.
Arguments Inner : clear implicits.

Definition mem_load {V} (s : Inner V) (id : string) : result (option (SagaState V)) SagaError :=
  Ok (states s !! id).
Definition mem_save {V} (s : Inner V) (st : SagaState V) : result unit SagaError * Inner V :=
  (Ok tt, {| states := <[saga_id st := st]> (states s); steps := steps s |}).
Definition mem_step_status {V} (s : Inner V) (id step : string) : result StepStatus SagaError :=
  Ok (default Pending (steps s !! (id, step))).
Definition mem_set_step {V} (s : Inner V) (id step : string) (x : StepStatus)
    : result unit SagaError * Inner V :=
  (Ok tt, {| states := states s; steps := <[(id, step) := x]> (steps s) |}).
Definition mem_empty {V} : Inner V := {| states := ∅; steps := ∅ |}.

#[export] Instance MemorySagaStateStore V : SagaStateStore V (Inner V) := {|
  load := mem_load; save := mem_save;
  step_status := mem_step_status; set_step := mem_set_step |}.

End State.

Module Saga.
Import State.

Section Engine.
(** The encoded context ([serde_json::Value]) and its derived conversions. *)
Context {V D Ext S : Type} `{ST : SagaStateStore V S}.

Record SagaContext := { ctx_saga_id : string; idempotency_key : string; data : D }.

Context (to_value : SagaContext -> result V string).
Context (from_value : V -> result SagaContext string).

Definition encode_context (c : SagaContext) : result V SagaError :=
  map_err (fun e => Context ("failed to encode saga context: " +:+ e)) (to_value c).
Definition decode_context (st : SagaState V) : result SagaContext SagaError :=
  map_err (fun e => Context ("failed to decode saga context: " +:+ e)) (from_value (context st)).

(** [SagaStep]: both actions may change the context and the outside world,
    whether they succeed or not. *)
Record SagaStep := {
  name : string;
  execute : SagaContext -> Ext -> result unit SagaError * SagaContext * Ext;
  compensate_step : SagaContext -> Ext -> result unit SagaError * SagaContext * Ext;
}.

Inductive event := Executed (step : string) (ok : bool) | Compensation (step : string) (ok : bool).

Record world := { store : S; ext : Ext; trace : list event; budget : option nat }.

Inductive outcome (A : Type) := Ret (r : result A SagaError) | Crash.
Arguments Ret {A} r.
Arguments Crash {A}.

Definition M (A : Type) : Type := world -> outcome A * world.

Definition ret {A} (r : result A SagaError) : M A := fun w => (Ret r, w).

(** The [?] operator: an error or a crash ends the function. *)
Definition bind {A B} (m : M A) (k : A -> M B) : M B :=
  fun w => match m w with
           | (Ret (Ok x), w) => k x w
           | (Ret (Err e), w) => (Ret (Err e), w)
           | (Crash, w) => (Crash, w)
           end.

(** An effect happens only while the process lives. *)
Definition effect {A} (f : world -> outcome A * world) : M A :=
  fun w => match budget w with
           | Some O => (Crash, w)
           | Some (Datatypes.S n) =>
               f {| store := store w; ext := ext w; trace := trace w; budget := Some n |}
           | None => f w
           end.

Definition set_store (s : S) (w : world) : world :=
  {| store := s; ext := ext w; trace := trace w; budget := budget w |}.

Definition do_load (id : string) : M (option (SagaState V)) :=
  fun w => (Ret (load (store w) id), w).
Definition do_step_status (id n : string) : M StepStatus :=
  fun w => (Ret (step_status (store w) id n), w).
Definition do_save (st : SagaState V) : M unit :=
  effect (fun w => let '(r, s) := save (store w) st in (Ret r, set_store s w)).
Definition do_set_step (id n : string) (x : StepStatus) : M unit :=
  effect (fun w => let '(r, s) := set_step (store w) id n x in (Ret r, set_store s w)).

(** Runs a step action; its own error is a value the engine inspects. *)
Definition do_execute (s : SagaStep) (c : SagaContext) : M (result unit SagaError * SagaContext) :=
  effect (fun w => let '(r, c, x) := execute s c (ext w) in
    (Ret (Ok (r, c)), {| store := store w; ext := x;
       trace := trace w ++ [Executed (name s) (is_ok r)]; budget := budget w |})).
Definition do_compensate (s : SagaStep) (c : SagaContext) : M (result unit SagaError * SagaContext) :=
  effect (fun w => let '(r, c, x) := compensate_step s c (ext w) in
    (Ret (Ok (r, c)), {| store := store w; ext := x;
       trace := trace w ++ [Compensation (name s) (is_ok r)]; budget := budget w |})).

Notation "'do?' x := m 'in' k" := (bind m (fun x => k))
  (at level 10, x pattern, m at level 100, k at level 200) : ecat_scope.

Context (steps : list SagaStep).

(** [state.context = encode_context(&ctx)?; store.save(&state).await?]. *)
Definition save_with (st : SagaState V) (c : SagaContext) : M (SagaState V) :=
  do? v := ret (encode_context c) in
  do? _ := do_save (set_context v st) in
  ret (Ok (set_context v st)).

(** [compensate]: the loop over [(0..before.min(len)).rev()]; [k] counts down. *)
Fixpoint compensate_from (k : nat) (st : SagaState V) (c : SagaContext)
    (cause : option SagaError) : M unit :=
  match k with
  | O =>
      do? _ := save_with (set_status Compensated st) c in
      match cause with Some e => ret (Err e) | None => ret (Ok tt) end
  | Datatypes.S k =>
      match steps !! k with
      | None => compensate_from k st c cause
      | Some s =>
          do? x := do_step_status (saga_id st) (name s) in
          if decide (x <> Done) then compensate_from k st c cause
          else
            do? (r, c) := do_compensate s c in
            match r with
            | Err e =>
                do? _ := do_set_step (saga_id st) (name s) StepFailed in
                do? _ := save_with (set_status Failed st) c in
                ret (Err (CompensationFailed (name s) (display e)))
            | Ok _ =>
                do? _ := do_set_step (saga_id st) (name s) StepCompensated in
                do? st := save_with st c in
                compensate_from k st c cause
            end
      end
  end.

Definition compensate (st : SagaState V) (c : SagaContext) (before : nat)
    (cause : option SagaError) : M unit :=
  compensate_from (Nat.min before (length steps)) st c cause.

(** [forward]: [todo] are the steps from [index] on. *)
Fixpoint forward_from (index : nat) (todo : list SagaStep) (st : SagaState V)
    (c : SagaContext) : M unit :=
  match todo with
  | [] => do? _ := save_with (set_status Completed st) c in ret (Ok tt)
  | s :: todo =>
      do? x := do_step_status (saga_id st) (name s) in
      if decide (x = Done) then forward_from (Datatypes.S index) todo st c
      else
        do? (r, c) := do_execute s c in
        match r with
        | Ok _ =>
            do? _ := do_set_step (saga_id st) (name s) Done in
            do? st := save_with (set_current (Datatypes.S index) st) c in
            forward_from (Datatypes.S index) todo st c
        | Err e =>
            do? _ := do_set_step (saga_id st) (name s) StepFailed in
            do? st := save_with (set_status Compensating st) c in
            compensate st c index (Some (ErrStepFailed (name s) (display e)))
        end
  end.

Definition forward (st : SagaState V) (c : SagaContext) : M unit :=
  forward_from (current_step st) (drop (current_step st) steps) st c.

Definition continue_state (st : SagaState V) : M unit :=
  if decide (length steps < current_step st)%nat
  then ret (Err (ErrState ("saga `" +:+ saga_id st +:+ "` current_step "
                           +:+ pretty (N.of_nat (current_step st)) +:+ " exceeds "
                           +:+ pretty (N.of_nat (length steps)) +:+ " steps")))
  else
    match status st with
    | Completed | Compensated => ret (Ok tt)
    | Failed => ret (Err (InvalidState (saga_id st) (status st)))
    | Compensating =>
        do? c := ret (decode_context st) in
        compensate st c (current_step st) None
    | Running =>
        do? c := ret (decode_context st) in
        forward st c
    end.

Definition run (id : string) (c : SagaContext) : M unit :=
  let c := {| ctx_saga_id := id; idempotency_key := idempotency_key c; data := data c |} in
  do? found := do_load id in
  match found with
  | Some st => continue_state st
  | None =>
      do? v := ret (encode_context c) in
      let st := {| saga_id := id; status := Running; current_step := 0; context := v |} in
      do? _ := do_save st in
      forward st c
  end.

Definition resume (id : string) : M unit :=
  do? found := do_load id in
  do? st := ret (ok_or found (NotFound id)) in
  continue_state st.

(** *** The specification

    What a saga means, without a store: run the steps in order; on a failure run
    the compensations of the completed ones, latest first. *)

Inductive verdict :=
| AllDone
| RolledBack (cause : SagaError)
| Stuck (e : SagaError).

Fixpoint spec_compensate (done : list SagaStep) (c : SagaContext) (x : Ext) (cause : SagaError)
    : verdict * list event * Ext :=
  match done with
  | [] => (RolledBack cause, [], x)
  | s :: done =>
      match compensate_step s c x with
      | (Err e, _, x) => (Stuck (CompensationFailed (name s) (display e)),
                          [Compensation (name s) false], x)
      | (Ok _, c, x) =>
          let '(v, tr, x) := spec_compensate done c x cause in
          (v, Compensation (name s) true :: tr, x)
      end
  end.

(** [done] are the completed steps, latest first. *)
Fixpoint spec_forward (done todo : list SagaStep) (c : SagaContext) (x : Ext)
    : verdict * list event * Ext :=
  match todo with
  | [] => (AllDone, [], x)
  | s :: todo =>
      match execute s c x with
      | (Ok _, c, x) =>
          let '(v, tr, x) := spec_forward (s :: done) todo c x in
          (v, Executed (name s) true :: tr, x)
      | (Err e, c, x) =>
          let '(v, tr, x) :=
            spec_compensate done c x (ErrStepFailed (name s) (display e)) in
          (v, Executed (name s) false :: tr, x)
      end
  end.

Definition verdict_result (v : verdict) : result unit SagaError :=
  match v with AllDone => Ok tt | RolledBack e | Stuck e => Err e end.
Definition verdict_status (v : verdict) : SagaStatus :=
  match v with AllDone => Completed | RolledBack _ => Compensated | Stuck _ => Failed end.

End Engine.
Arguments SagaContext : clear implicits.
Arguments SagaStep : clear implicits.
Arguments world : clear implicits.
Arguments Ret {A} r.
Arguments Crash {A}.
End Saga.

(** ** Lemmas *)

Module SagaFacts.
Import State Saga.

#[export] Instance MemoryReliable V : ReliableStore V (Inner V).
Proof.
  split; simpl; try eauto.
  - intros s st id. unfold mem_load, mem_save; simpl. rewrite lookup_insert.
    repeat case_decide; congruence.
  - intros s id n x id' n'. unfold mem_step_status, mem_set_step; simpl. rewrite lookup_insert.
    repeat case_decide; simpl; congruence.
Qed.

Section Facts.
Context {V D Ext S : Type} `{RS : ReliableStore V S}.
Context (to_value : SagaContext D -> result V string).
Context (from_value : V -> result (SagaContext D) string).
Context (codec : forall c, exists v, to_value c = Ok v /\ from_value v = Ok c).
Context (steps : list (SagaStep D Ext)).
Context (names : NoDup (map name steps)).

Local Abbreviation world := (world Ext S).
Local Abbreviation save_with := (save_with (Ext := Ext) to_value).
Local Abbreviation compensate_from := (compensate_from to_value steps).
Local Abbreviation compensate := (compensate to_value steps).
Local Abbreviation forward_from := (forward_from to_value steps).
Local Abbreviation forward := (forward to_value steps).

(** The status a read returns. *)
Definition stat (s : S) (id n : string) : StepStatus :=
  match step_status s id n with Ok x => x | Err _ => Pending end.

Definition step_done (s : S) (id : string) (i : nat) : Prop :=
  exists p, steps !! i = Some p /\ stat s id (name p) = Done.

Lemma step_status_stat s id n : step_status s id n = Ok (stat s id n).
Proof. unfold stat. destruct (step_status_ok s id n) as [x Hx]. by rewrite Hx. Qed.

Lemma stat_save s st id n : stat (save s st).2 id n = stat s id n.
Proof. unfold stat. by rewrite step_status_save. Qed.

Lemma stat_set s id n x n' :
  stat (set_step s id n x).2 id n' = if decide (n' = n) then x else stat s id n'.
Proof.
  unfold stat. rewrite step_status_set_step. destruct (decide (n' = n)) as [->|Hn].
  - by rewrite decide_True.
  - by rewrite decide_False by congruence.
Qed.

Lemma step_done_save s st id i : step_done (save s st).2 id i <-> step_done s id i.
Proof. unfold step_done. by setoid_rewrite stat_save. Qed.

Lemma same_name i j p q :
  steps !! i = Some p -> steps !! j = Some q -> name p = name q -> i = j.
Proof.
  intros Hp Hq He. apply (NoDup_lookup (map name steps) i j (name p)); [exact names|..];
    rewrite list_lookup_fmap, ?Hp, ?Hq; simpl; congruence.
Qed.

Lemma step_done_set s id i p x j :
  steps !! i = Some p ->
  step_done (set_step s id (name p) x).2 id j <->
  (if decide (j = i) then x = Done else step_done s id j).
Proof.
  intros Hp. unfold step_done. setoid_rewrite stat_set. case_decide as Hj.
  - subst j. split.
    + intros (q & Hq & Hs). simplify_eq. by rewrite decide_True in Hs.
    + intros ->. exists p. by rewrite decide_True.
  - split; intros (q & Hq & Hs); exists q; (split; [done|]);
      (destruct (decide (name q = name p)) as [He|]; [|done]);
      destruct Hj; eapply same_name; eauto.
Qed.

(** What the store says of the saga after any effect of the engine: the statuses
    it still allows, given the instance row. *)
Definition decodable (st : SagaState V) : Prop := exists c, from_value (context st) = Ok c.

Definition persisted (s : S) (id : string) : Prop :=
  match load s id with
  | Err _ => False
  | Ok None => forall i, ~ step_done s id i
  | Ok (Some st) =>
      saga_id st = id /\ decodable st /\ (current_step st <= length steps)%nat /\
      match status st with
      | Running => forall i, (current_step st < i)%nat -> ~ step_done s id i
      | Compensating => forall i, (current_step st <= i)%nat -> ~ step_done s id i
      | Compensated => forall i, ~ step_done s id i
      | Completed | Failed => True
      end
  end.

(** The world after an effect that was performed. *)
Definition spent (s : S) (x : Ext) (tr : list event) (w : world) : world :=
  {| store := s; ext := x; trace := tr; budget := pred <$> budget w |}.

Lemma effect_cases {A} (f : world -> outcome A * world) w :
  (effect f w = (Crash, w) /\ budget w = Some 0%nat) \/
  (effect f w = f (spent (store w) (ext w) (trace w) w) /\ budget w <> Some 0%nat).
Proof. destruct w as [s x tr [[|n]|]]; [left|right..]; done. Qed.

Lemma save_with_cases st c w :
  exists v, to_value c = Ok v /\ from_value v = Ok c /\
  ((save_with st c w = (Crash, w) /\ budget w = Some 0%nat) \/
   (save_with st c w = (Ret (Ok (set_context v st)),
      spent (save (store w) (set_context v st)).2 (ext w) (trace w) w) /\
    budget w <> Some 0%nat)).
Proof.
  destruct (codec c) as (v & Hv & Hd). exists v. split; [done|]. split; [done|].
  unfold Saga.save_with, encode_context, bind, ret, do_save. rewrite Hv. simpl.
  destruct (effect_cases (fun w : world => let '(r, s) := save (store w) (set_context v st) in
    (Ret r, set_store s w)) w) as [[-> Hb]|[-> Hb]]; [by left|right]. split; [|done].
  pose proof (save_ok (store w) (set_context v st)) as Hs. simpl.
  destruct (save _ _) as [r s']; simpl in *; by subst.
Qed.

Lemma do_set_step_cases id n x (w : world) :
  (do_set_step id n x w = (Crash, w) /\ budget w = Some 0%nat) \/
  (do_set_step id n x w =
     (Ret (Ok tt), spent (set_step (store w) id n x).2 (ext w) (trace w) w) /\
   budget w <> Some 0%nat).
Proof.
  unfold do_set_step.
  destruct (effect_cases (fun w : world => let '(r, s) := set_step (store w) id n x in
    (Ret r, set_store s w)) w) as [[-> Hb]|[-> Hb]]; [by left|right]. split; [|done].
  pose proof (set_step_ok (store w) id n x) as Hs. simpl.
  destruct (set_step _ _ _) as [r s']; simpl in *; by subst.
Qed.

Lemma do_compensate_cases (p : SagaStep D Ext) c (w : world) :
  (do_compensate p c w = (Crash, w) /\ budget w = Some 0%nat) \/
  (do_compensate p c w =
     (Ret (Ok (compensate_step p c (ext w)).1),
      spent (store w) (compensate_step p c (ext w)).2
        (trace w ++ [Compensation (name p) (is_ok (compensate_step p c (ext w)).1.1)]) w) /\
   budget w <> Some 0%nat).
Proof.
  unfold do_compensate.
  match goal with |- context [effect ?f w] => destruct (effect_cases f w) as [[-> Hb]|[-> Hb]] end;
    [by left|right]. split; [|done]. simpl. by destruct (compensate_step p c (ext w)) as [[? ?] ?].
Qed.

Lemma do_execute_cases (p : SagaStep D Ext) c (w : world) :
  (do_execute p c w = (Crash, w) /\ budget w = Some 0%nat) \/
  (do_execute p c w =
     (Ret (Ok (execute p c (ext w)).1),
      spent (store w) (execute p c (ext w)).2
        (trace w ++ [Executed (name p) (is_ok (execute p c (ext w)).1.1)]) w) /\
   budget w <> Some 0%nat).
Proof.
  unfold do_execute.
  match goal with |- context [effect ?f w] => destruct (effect_cases f w) as [[-> Hb]|[-> Hb]] end;
    [by left|right]. split; [|done]. simpl. by destruct (execute p c (ext w)) as [[? ?] ?].
Qed.

(** *** Any crash point *)

Lemma persisted_row s id st :
  load s id = Ok (Some st) -> saga_id st = id -> decodable st ->
  (current_step st <= length steps)%nat ->
  match status st with
  | Running => forall i, (current_step st < i)%nat -> ~ step_done s id i
  | Compensating => forall i, (current_step st <= i)%nat -> ~ step_done s id i
  | Compensated => forall i, ~ step_done s id i
  | Completed | Failed => True
  end -> persisted s id.
Proof. intros Hl. unfold persisted. rewrite Hl. auto. Qed.

(** A row just saved is the row that is loaded. *)
Lemma load_saved s st id : saga_id st = id -> load (save s st).2 id = Ok (Some st).
Proof. intros <-. rewrite load_save. by rewrite decide_True. Qed.

(** The promise of the compensation loop at [k]: nothing at or above [k] is done.
    When it returns, the row it leaves is a persisted one; when it dies, it is
    one provided the row it started from was. *)
Definition comp_post (id : string) (cur : nat) (w : world) (o : outcome unit) (w' : world) : Prop :=
  match o with
  | Ret _ => persisted (store w') id
  | Crash => (forall i, (cur <= i)%nat -> ~ step_done (store w) id i) ->
             persisted (store w') id
  end.

Record comp_pre (id : string) (k : nat) (st : SagaState V) (w : world) : Prop := {
  cp_k : (k <= length steps)%nat;
  cp_id : saga_id st = id;
  cp_status : status st = Compensating;
  cp_cur : (current_step st <= length steps)%nat;
  cp_load : load (store w) id = Ok (Some st);
  cp_dec : decodable st;
  cp_done : forall i, (k <= i)%nat -> ~ step_done (store w) id i;
}.

(** Dying in the loop leaves the row it started from. *)
Lemma comp_crash id k st w s :
  comp_pre id k st w -> load s id = Ok (Some st) ->
  (forall i, step_done s id i -> step_done (store w) id i) ->
  (forall i, (current_step st <= i)%nat -> ~ step_done (store w) id i) -> persisted s id.
Proof.
  intros [] Hl Hsub Hc. eapply persisted_row; eauto. rewrite cp_status0.
  intros i Hi Hd. by apply (Hc i), Hsub.
Qed.

Lemma comp_step_done id k p x s :
  steps !! k = Some p -> x <> Done ->
  forall i, step_done (set_step s id (name p) x).2 id i -> step_done s id i /\ i <> k.
Proof. intros Hp Hx i. rewrite step_done_set by done. by case_decide. Qed.

Lemma compensate_persisted id k st c cause w o w' :
  comp_pre id k st w -> compensate_from k st c cause w = (o, w') ->
  comp_post id (current_step st) w o w'.
Proof.
  revert st c w. induction k as [|k IH]; intros st c w Hp; simpl; unfold bind.
  - destruct (save_with_cases (set_status Compensated st) c w) as (v & Hv & Hd & [[-> _]|[-> _]]).
    + intros; simplify_eq/=. intros Hc. eapply comp_crash; eauto. apply Hp.
    + assert (Hps : persisted (save (store w) (set_context v (set_status Compensated st))).2 id).
      { destruct Hp. eapply persisted_row; [by apply load_saved|done|by exists c|done|].
        simpl. intros i. rewrite step_done_save. apply cp_done0. lia. }
      destruct cause; unfold ret; intros He; simplify_eq/=; exact Hps.
  - destruct (steps !! k) as [p|] eqn:Hk.
    2:{ apply lookup_ge_None in Hk. destruct Hp. lia. }
    unfold do_step_status. rewrite step_status_stat. destruct (decide _) as [Hx|Hx].
    { apply IH. destruct Hp. split; auto; [lia|]. intros i Hi.
      destruct (decide (i = k)) as [->|]; [|apply cp_done0; lia]. intros (q & Hq & Hs).
      by simplify_eq. }
    destruct (do_compensate_cases p c w) as [[-> _]|[-> _]].
    { intros; simplify_eq. intros Hc. eapply comp_crash; eauto. apply Hp. }
    destruct (compensate_step p c (ext w)) as [[r c1] x1]; simpl.
    set (w1 := spent _ _ _ w). assert (Hid : saga_id st = id) by apply Hp. rewrite Hid.
    destruct r as [[]|e].
    + destruct (do_set_step_cases id (name p) StepCompensated w1) as [[-> _]|[-> _]].
      { intros; simplify_eq. intros Hc. eapply comp_crash; eauto. apply Hp. }
      set (w2 := spent _ _ _ w1).
      pose proof (comp_step_done id k p StepCompensated (store w) Hk ltac:(done)) as Hsd.
      destruct (save_with_cases st c1 w2) as (v & Hv & Hd & [[-> _]|[-> _]]).
      { intros; simplify_eq. intros Hc. eapply comp_crash; [exact Hp|..|exact Hc].
        - simpl. rewrite load_set_step. apply Hp.
        - intros i Hi. by apply Hsd. }
      intros He. apply IH in He.
      * destruct o; [exact He|]. simpl in *. intros Hc. apply He. intros i Hi.
        rewrite step_done_save. intros Hd'. apply Hsd in Hd' as [Hd' _]. by apply (Hc i).
      * destruct Hp. split; simpl; auto; [lia|by apply load_saved|by exists c1|].
        intros i Hi. rewrite step_done_save. intros Hd'.
        apply Hsd in Hd' as [Hd' Hne]. apply (cp_done0 i); [lia|done].
    + destruct (do_set_step_cases id (name p) StepFailed w1) as [[-> _]|[-> _]].
      { intros; simplify_eq. intros Hc. eapply comp_crash; eauto. apply Hp. }
      set (w2 := spent _ _ _ w1).
      pose proof (comp_step_done id k p StepFailed (store w) Hk ltac:(done)) as Hsd.
      destruct (save_with_cases (set_status Failed st) c1 w2) as (v & Hv & Hd & [[-> _]|[-> _]]).
      { intros; simplify_eq. intros Hc. eapply comp_crash; [exact Hp|..|exact Hc].
        - simpl. rewrite load_set_step. apply Hp.
        - intros i Hi. by apply Hsd. }
      unfold ret. intros; simplify_eq/=.
      destruct Hp. eapply persisted_row; [by apply load_saved|done|by exists c1|done|done].
Qed.

(** The forward loop at [index]: nothing above it is done.  It is [strict] when the
    row is up to date and the step itself is not done; resuming after a crash
    between the two writes of a step starts one behind. *)
Record fwd_pre (id : string) (index : nat) (st : SagaState V) (w : world) : Prop := {
  fp_index : (index <= length steps)%nat;
  fp_id : saga_id st = id;
  fp_status : status st = Running;
  fp_cur : (current_step st <= index)%nat;
  fp_load : load (store w) id = Ok (Some st);
  fp_dec : decodable st;
  fp_done : forall i, (index < i)%nat -> ~ step_done (store w) id i;
}.

Definition strict (id : string) (index : nat) (st : SagaState V) (w : world) : Prop :=
  current_step st = index /\ ~ step_done (store w) id index.

Definition fwd_post (id : string) (index : nat) (st : SagaState V) (w : world)
    (o : outcome unit) (w' : world) : Prop :=
  match o with
  | Ret _ => persisted (store w') id
  | Crash => strict id index st w -> persisted (store w') id
  end.

Lemma fwd_crash id index st w s :
  fwd_pre id index st w -> load s id = Ok (Some st) ->
  (forall i, (index < i)%nat -> step_done s id i -> step_done (store w) id i) ->
  strict id index st w -> persisted s id.
Proof.
  intros [] Hl Hsub [Hs _]. eapply persisted_row; eauto; [lia|]. rewrite fp_status0, Hs.
  intros i Hi Hd. by apply (fp_done0 i), Hsub.
Qed.

(** The failing branch: the row turns to [Compensating] and the loop above runs. *)
Lemma fwd_failure id index st c p e w o w' :
  fwd_pre id index st w -> steps !! index = Some p ->
  bind (do_set_step id (name p) StepFailed) (fun _ =>
    bind (save_with (set_status Compensating st) c) (fun st' =>
      compensate st' c index (Some e))) w = (o, w') ->
  fwd_post id index st w o w'.
Proof.
  intros Hp Hi. unfold bind.
  pose proof (comp_step_done id index p StepFailed (store w) Hi ltac:(done)) as Hsd.
  destruct (do_set_step_cases id (name p) StepFailed w) as [[-> _]|[-> _]].
  { intros; simplify_eq. intros Hc. eapply fwd_crash; eauto. apply Hp. }
  destruct (save_with_cases (set_status Compensating st) c
    (spent (set_step (store w) id (name p) StepFailed).2 (ext w) (trace w) w))
    as (v & Hv & Hd & [[-> _]|[-> _]]).
  { intros; simplify_eq. intros Hc. eapply fwd_crash; [exact Hp|..|exact Hc].
    - simpl. rewrite load_set_step. apply Hp.
    - intros i _ Hd'. by apply Hsd. }
  unfold Saga.compensate. destruct Hp. rewrite Nat.min_l by done. intros He.
  assert (Hnd : forall i, (index <= i)%nat -> ~ step_done
    (save (set_step (store w) id (name p) StepFailed).2
       (set_context v (set_status Compensating st))).2 id i).
  { intros i Hi'. rewrite step_done_save. intros Hd'. apply Hsd in Hd' as [Hd' Hne].
    apply (fp_done0 i); [lia|done]. }
  apply (compensate_persisted id) in He.
  - destruct o; [exact He|]. simpl in *. intros [Hs _]. apply He. intros i. rewrite Hs. apply Hnd.
  - split; simpl; auto; [lia|by apply load_saved|by exists c].
Qed.

Lemma forward_persisted id index todo st c w o w' :
  fwd_pre id index st w -> todo = drop index steps ->
  forward_from index todo st c w = (o, w') -> fwd_post id index st w o w'.
Proof.
  revert index st c w. induction todo as [|p todo IH]; intros index st c w Hp Ht; simpl; unfold bind.
  - destruct (save_with_cases (set_status Completed st) c w) as (v & Hv & Hd & [[-> _]|[-> _]]).
    + intros; simplify_eq/=. eapply fwd_crash; eauto. apply Hp.
    + unfold ret. intros; simplify_eq/=. destruct Hp.
      eapply persisted_row; [by apply load_saved|done|by exists c|simpl; lia|done].
  - assert (Hi : steps !! index = Some p)
      by (pose proof (lookup_drop steps index 0) as Hl; rewrite <- Ht, Nat.add_0_r in Hl; done).
    assert (Ht' : todo = drop (Datatypes.S index) steps)
      by (rewrite <- Nat.add_1_r, <- drop_drop, <- Ht; done).
    assert (Hlt : (index < length steps)%nat) by (by eapply lookup_lt_Some).
    assert (Hid : saga_id st = id) by apply Hp. rewrite Hid.
    unfold do_step_status. rewrite step_status_stat. destruct (decide _) as [Hx|Hx].
    { intros He. apply IH in He; [|destruct Hp; split; auto; try lia; intros; apply fp_done0; lia|done].
      destruct o; [exact He|]. intros [_ Hs]. destruct Hs. by exists p. }
    destruct (do_execute_cases p c w) as [[-> _]|[-> _]].
    { intros; simplify_eq. intros Hc. eapply fwd_crash; eauto. apply Hp. }
    destruct (execute p c (ext w)) as [[[[]|e] c1] x1]; simpl.
    2:{ intros He. eapply (fwd_failure id index st c1 p) in He; [|destruct Hp; by split|done].
        exact He. }
    set (w1 := spent _ _ _ w).
    destruct (do_set_step_cases id (name p) Done w1) as [[-> _]|[-> _]].
    { intros; simplify_eq. intros Hc. eapply fwd_crash; eauto. apply Hp. }
    set (w2 := spent _ _ _ w1).
    assert (Hsd : forall i, (index < i)%nat -> step_done (store w2) id i -> step_done (store w) id i).
    { intros i Hi' Hd. unfold w2 in Hd. simpl in Hd. rewrite step_done_set in Hd by done.
      case_decide; [lia|done]. }
    destruct (save_with_cases (set_current (Datatypes.S index) st) c1 w2)
      as (v & Hv & Hd & [[-> _]|[-> _]]).
    { intros; simplify_eq. intros Hc. eapply fwd_crash; [exact Hp|..|exact Hc]; [|exact Hsd].
      simpl. rewrite load_set_step. apply Hp. }
    intros He. apply (IH _ _ _ _) in He; [| |done].
    + destruct o; [exact He|]. intros _. apply He. split; [done|].
      simpl. rewrite step_done_save. intros Hd'. apply Hsd in Hd'; [|lia].
      destruct Hp. apply (fp_done0 (Datatypes.S index)); [lia|done].
    + destruct Hp. split; simpl; auto; [by apply load_saved|by exists c1|].
      intros i Hi'. rewrite step_done_save. intros Hd'. apply Hsd in Hd'; [|lia].
      apply (fp_done0 i); [lia|done].
Qed.

(** *** Run and resume *)

Lemma continue_persisted id st w r w' :
  load (store w) id = Ok (Some st) -> persisted (store w) id ->
  continue_state to_value from_value steps st w = (Ret r, w') -> persisted (store w') id.
Proof.
  intros Hl Hp. pose proof Hp as Hp'. unfold persisted in Hp. rewrite Hl in Hp.
  destruct Hp as (Hid & [c Hc] & Hcur & Hst). unfold continue_state.
  destruct (decide _); [lia|]. unfold bind, ret, decode_context.
  destruct (status st) eqn:Hs; rewrite ?Hc; simpl; try (intros; by simplify_eq).
  - intros He. eapply (forward_persisted id) in He; [exact He| |done].
    split; auto. by exists c.
  - unfold compensate, Saga.compensate. rewrite Nat.min_l by done. intros He.
    eapply (compensate_persisted id) in He; [exact He|]. split; auto. by exists c.
Qed.

Lemma resume_persisted id w r w' :
  persisted (store w) id ->
  resume to_value from_value steps id w = (Ret r, w') -> persisted (store w') id.
Proof.
  intros Hp. unfold resume, bind, do_load, ret.
  destruct (load_ok (store w) id) as [[st|] Hl]; rewrite Hl; simpl; [|intros; by simplify_eq].
  by apply continue_persisted.
Qed.

(** A first run, wherever it dies. *)
Lemma run_persisted id c w o w' :
  load (store w) id = Ok None -> (forall i, ~ step_done (store w) id i) ->
  run to_value from_value steps id c w = (o, w') -> persisted (store w') id.
Proof.
  intros Hl Hnd. unfold run, bind, do_load. rewrite Hl.
  set (c' := {| ctx_saga_id := id; idempotency_key := _; data := _ |}).
  destruct (codec c') as (v & Hv & Hd). unfold ret, encode_context. rewrite Hv. simpl.
  set (st0 := {| saga_id := id; status := Running; current_step := 0; context := v |}).
  pose proof (save_ok (store w) st0) as Hs. unfold do_save.
  match goal with |- context [effect ?f w] => destruct (effect_cases f w) as [[-> _]|[-> _]] end.
  { intros; simplify_eq. unfold persisted. by rewrite Hl. }
  cbn [store spent]. rewrite (surjective_pairing (save (store w) st0)), Hs.
  unfold forward, Saga.forward. simpl. rewrite drop_0. intros He.
  set (w1 := set_store _ _) in He.
  assert (Hst : strict id 0 st0 w1).
  { split; [done|]. simpl. rewrite step_done_save. apply Hnd. }
  apply (forward_persisted id) in He; [| |by rewrite drop_0].
  - destruct o; [exact He|]. by apply He.
  - split; simpl; auto; [lia|by apply load_saved|by exists c'|].
    intros i _. rewrite step_done_save. apply Hnd.
Qed.

(** *** Refinement of the specification, when the process lives *)

Definition refines (id : string) (w : world) (v : verdict) (tr : list event) (x : Ext)
    (o : outcome unit) (w' : world) : Prop :=
  o = Ret (verdict_result v) /\ ext w' = x /\ trace w' = trace w ++ tr /\
  exists st, load (store w') id = Ok (Some st) /\ status st = verdict_status v.

Lemma refines_cons id (w w1 : world) v ev tr x o w' :
  trace w1 = trace w ++ [ev] -> refines id w1 v tr x o w' -> refines id w v (ev :: tr) x o w'.
Proof.
  intros Ht (-> & Hx & Htr & Hst). split; [done|]. split; [done|]. split; [|done].
  by rewrite Htr, Ht, <- app_assoc.
Qed.

Lemma compensate_refines id k st c e w v tr x o w' :
  (k <= length steps)%nat -> saga_id st = id -> budget w = None ->
  (forall i, (i < k)%nat -> step_done (store w) id i) ->
  spec_compensate (reverse (take k steps)) c (ext w) e = (v, tr, x) ->
  compensate_from k st c (Some e) w = (o, w') -> refines id w v tr x o w'.
Proof.
  revert st c w v tr x. induction k as [|k IH]; intros st c w v tr x Hk Hid Hb Hd Hs;
    simpl; unfold bind, ret.
  - rewrite take_0 in Hs. simpl in Hs. simplify_eq.
    destruct (save_with_cases (set_status Compensated st) c w) as (v & _ & _ & [[_ ?]|[-> _]]);
      [congruence|]. intros; simplify_eq. split; [done|]. split; [done|].
    split; [simpl; by rewrite app_nil_r|]. eexists. split; [by apply load_saved|done].
  - destruct (Hd k) as (p & Hp & Hpd); [lia|]. rewrite Hp.
    rewrite (take_S_r _ _ p), reverse_snoc in Hs by done. simpl in Hs.
    unfold do_step_status. rewrite step_status_stat, Hid, Hpd. rewrite decide_False by (intros Hn; by apply Hn).
    destruct (do_compensate_cases p c w) as [[_ ?]|[-> _]]; [congruence|].
    destruct (compensate_step p c (ext w)) as [[[[]|e1] c1] x1]; simpl.
    + destruct (spec_compensate _ c1 x1 e) as [[v1 tr1] x2] eqn:Hs1. simplify_eq.
      destruct (do_set_step_cases (saga_id st) (name p) StepCompensated
        (spent (store w) x1 (trace w ++ [Compensation (name p) true]) w)) as [[_ Hb2]|[-> _]];
        [simpl in Hb2; by rewrite Hb in Hb2|].
      match goal with |- context [Saga.save_with _ _ _ ?w0] =>
        destruct (save_with_cases st c1 w0) as (v2 & _ & _ & [[_ Hb2]|[-> _]]) end;
        [simpl in Hb2; by rewrite Hb in Hb2|].
      intros He. eapply refines_cons; [|eapply IH in He; [exact He|lia|done|simpl; by rewrite Hb| |exact Hs1]];
        [done|].
      intros i Hi. simpl. rewrite step_done_save, step_done_set by done.
      rewrite decide_False by lia. apply Hd. lia.
    + simplify_eq.
      destruct (do_set_step_cases (saga_id st) (name p) StepFailed
        (spent (store w) x (trace w ++ [Compensation (name p) false]) w)) as [[_ Hb2]|[-> _]];
        [simpl in Hb2; by rewrite Hb in Hb2|].
      match goal with |- context [Saga.save_with _ _ _ ?w0] =>
        destruct (save_with_cases (set_status Failed st) c1 w0) as (v2 & _ & _ & [[_ Hb2]|[-> _]]) end;
        [simpl in Hb2; by rewrite Hb in Hb2|].
      intros; simplify_eq. split; [done|]. split; [done|]. split; [done|].
      eexists. split; [by apply load_saved|done].
Qed.

Lemma forward_refines id index todo st c w v tr x o w' :
  todo = drop index steps -> (index <= length steps)%nat -> saga_id st = id -> budget w = None ->
  (forall i, (i < index)%nat -> step_done (store w) id i) ->
  (forall i, (index <= i)%nat -> ~ step_done (store w) id i) ->
  spec_forward (reverse (take index steps)) todo c (ext w) = (v, tr, x) ->
  forward_from index todo st c w = (o, w') -> refines id w v tr x o w'.
Proof.
  revert index st c w v tr x. induction todo as [|p todo IH];
    intros index st c w v tr x Ht Hle Hid Hb Hd Hn Hs; simpl in *; unfold bind, ret.
  - simplify_eq.
    destruct (save_with_cases (set_status Completed st) c w) as (v & _ & _ & [[_ ?]|[-> _]]);
      [congruence|]. intros; simplify_eq. split; [done|]. split; [done|].
    split; [simpl; by rewrite app_nil_r|]. eexists. split; [by apply load_saved|done].
  - assert (Hi : steps !! index = Some p)
      by (pose proof (lookup_drop steps index 0) as Hl; rewrite <- Ht, Nat.add_0_r in Hl; done).
    assert (Ht' : todo = drop (Datatypes.S index) steps)
      by (rewrite <- Nat.add_1_r, <- drop_drop, <- Ht; done).
    unfold do_step_status. rewrite step_status_stat, Hid, decide_False
      by (intros Hx; apply (Hn index); [lia|by exists p]).
    destruct (do_execute_cases p c w) as [[_ ?]|[-> _]]; [congruence|].
    destruct (execute p c (ext w)) as [[[[]|e1] c1] x1]; simpl.
    + destruct (spec_forward _ todo c1 x1) as [[v1 tr1] x2] eqn:Hs1. simplify_eq.
      destruct (do_set_step_cases (saga_id st) (name p) Done
        (spent (store w) x1 (trace w ++ [Executed (name p) true]) w)) as [[_ Hb2]|[-> _]];
        [simpl in Hb2; by rewrite Hb in Hb2|].
      match goal with |- context [Saga.save_with _ ?s0 _ ?w0] =>
        destruct (save_with_cases s0 c1 w0) as (v2 & _ & _ & [[_ Hb2]|[-> _]]) end;
        [simpl in Hb2; by rewrite Hb in Hb2|].
      intros He. eapply refines_cons; [|eapply (IH (Datatypes.S index)) in He; [exact He|..]];
        try done; simpl.
      * apply lookup_lt_Some in Hi. lia.
      * by rewrite Hb.
      * intros i Hi'. rewrite step_done_save, step_done_set by done.
        case_decide; [done|]. apply Hd. lia.
      * intros i Hi'. rewrite step_done_save, step_done_set by done.
        case_decide; [lia|]. apply Hn. lia.
      * by rewrite (take_S_r _ _ p), reverse_snoc.
    + destruct (spec_compensate _ c1 x1 _) as [[v1 tr1] x2] eqn:Hs1. simplify_eq.
      destruct (do_set_step_cases (saga_id st) (name p) StepFailed
        (spent (store w) x1 (trace w ++ [Executed (name p) false]) w)) as [[_ Hb2]|[-> _]];
        [simpl in Hb2; by rewrite Hb in Hb2|].
      match goal with |- context [Saga.save_with _ ?s0 _ ?w0] =>
        destruct (save_with_cases s0 c1 w0) as (v2 & _ & _ & [[_ Hb2]|[-> _]]) end;
        [simpl in Hb2; by rewrite Hb in Hb2|].
      unfold Saga.compensate. rewrite Nat.min_l by done.
      intros He. eapply refines_cons; [|eapply compensate_refines in He; [exact He|..]];
        try done; simpl; [by rewrite Hb|].
      intros i Hi'. rewrite step_done_save, step_done_set by done.
      rewrite decide_False by lia. by apply Hd.
Qed.

Lemma run_refines id c (w : world) :
  budget w = None -> load (store w) id = Ok None ->
  (forall i, ~ step_done (store w) id i) ->
  let c' := {| ctx_saga_id := id; idempotency_key := idempotency_key c; data := data c |} in
  let '(v, tr, x) := spec_forward [] steps c' (ext w) in
  let '(o, w') := run to_value from_value steps id c w in
  refines id w v tr x o w'.
Proof.
  intros Hb Hl Hn c'. destruct (spec_forward _ _ _ _) as [[v tr] x] eqn:Hs.
  destruct (run _ _ _ _ _ _) as [o w'] eqn:Hr.
  unfold run, bind, do_load in Hr. rewrite Hl in Hr. fold c' in Hr.
  destruct (codec c') as (v0 & Hv & Hd). unfold ret, encode_context in Hr. rewrite Hv in Hr.
  simpl in Hr. set (st0 := {| saga_id := id; status := Running; current_step := 0; context := v0 |}) in Hr.
  pose proof (save_ok (store w) st0) as Hsv. unfold do_save, effect in Hr. rewrite Hb in Hr.
  rewrite (surjective_pairing (save (store w) st0)), Hsv in Hr.
  unfold forward, Saga.forward in Hr. simpl in Hr. rewrite drop_0 in Hr.
  assert (Href : refines id (set_store (save (store w) st0).2 w) v tr x o w'); [|exact Href].
  eapply (forward_refines id 0) in Hr; [exact Hr|..];
    simpl; rewrite ?drop_0; try done; [lia|intros; lia|].
  intros i _. rewrite step_done_save. apply Hn.
Qed.

End Facts.
End SagaFacts.

Module SagaSpec.
Import State Saga SagaFacts.

(** *** A concrete saga: [a] succeeds, [b] fails; the world is a log. *)
Definition Ctx : Type := SagaContext nat.
Definition demo_to (c : Ctx) : result Ctx string := Ok c.
Definition demo_from (c : Ctx) : result Ctx string := Ok c.
Definition demo_step (n : string) (ok : bool) : SagaStep nat (list string) := {|
  name := n;
  execute c x := (if ok then Ok tt else Err (ErrState "boom"), c, x ++ ["do " +:+ n]);
  compensate_step c x := (Ok tt, c, x ++ ["undo " +:+ n]) |}.
Definition demo_steps : list (SagaStep nat (list string)) :=
  [demo_step "a" true; demo_step "b" false].
Definition demo_ctx : Ctx := {| ctx_saga_id := ""; idempotency_key := "k"; data := 0 |}.
Definition demo_world (b : option nat) : world (list string) (Inner Ctx) :=
  {| store := mem_empty; ext := []; trace := []; budget := b |}.

Lemma demo_codec : forall c, exists v, demo_to c = Ok v /\ demo_from v = Ok c.
Proof. intros c. by exists c. Defined.
Lemma demo_names : NoDup (map name demo_steps).
Proof. apply NoDup_cons. split; [set_solver|]. apply NoDup_singleton. Defined.
Lemma demo_fresh b i : ~ step_done demo_steps (store (demo_world b)) "x" i.
Proof. intros (p & _ & Hs). unfold stat, step_status in Hs. simpl in Hs. done. Qed.

(** The process comes back: the same store and world, a new budget. *)
Definition reborn {Ext S} (b : option nat) (w : world Ext S) : world Ext S :=
  {| store := store w; ext := ext w; trace := trace w; budget := b |}.

(** C12. While the process lives, [Saga::run] of a new saga over a reliable store
    refines the specification: the same result, the same effects on the world in
    the same order, and a final row [Completed], [Compensated] or [Failed] as the
    specification says. *)
Theorem run_refines_spec V D Ext S `{RS : ReliableStore V S} to_value from_value
    (steps : list (SagaStep D Ext)) id c (w : world Ext S) :
  (forall c, exists v, to_value c = Ok v /\ from_value v = Ok c) ->
  NoDup (map name steps) -> budget w = None -> load (store w) id = Ok None ->
  (forall i, ~ step_done steps (store w) id i) ->
  let c' := {| ctx_saga_id := id; idempotency_key := idempotency_key c; data := data c |} in
  let '(v, tr, x) := spec_forward [] steps c' (ext w) in
  let '(o, w') := run to_value from_value steps id c w in
  o = Ret (verdict_result v) /\ ext w' = x /\ trace w' = trace w ++ tr /\
  exists st, load (store w') id = Ok (Some st) /\ status st = verdict_status v.
Proof.
  intros codec names. by apply run_refines.
Qed.

Lemma run_refines_spec_witness :
  let '(v, tr, x) := spec_forward [] demo_steps
      {| ctx_saga_id := "x"; idempotency_key := "k"; data := 0 |} [] in
  let '(o, w') := run demo_to demo_from demo_steps "x" demo_ctx (demo_world None) in
  o = Ret (verdict_result v) /\ ext w' = x /\ trace w' = [] ++ tr /\
  exists st, load (store w') "x" = Ok (Some st) /\ status st = verdict_status v.
Proof.
  exact (run_refines_spec Ctx nat (list string) (Inner Ctx) demo_to demo_from demo_steps "x"
    demo_ctx (demo_world None) demo_codec demo_names eq_refl eq_refl (demo_fresh None)).
Defined.

(** The compensations of a completed prefix, latest first, up to a failure. *)
Lemma spec_compensate_shape {D Ext} (done : list (SagaStep D Ext)) c x e v tr x' :
  spec_compensate done c x e = (v, tr, x') ->
  match v with
  | AllDone => False
  | RolledBack e' => e' = e /\ tr = map (fun p => Compensation (name p) true) done
  | Stuck _ => exists j p, done !! j = Some p /\
      tr = map (fun p => Compensation (name p) true) (take j done) ++ [Compensation (name p) false]
  end.
Proof.
  revert c x tr. induction done as [|p done IH]; intros c x tr; simpl; [intros; by simplify_eq|].
  destruct (compensate_step p c x) as [[[[]|e1] c1] x1].
  - destruct (spec_compensate done c1 x1 e) as [[v1 tr1] x2] eqn:Hs. intros; simplify_eq.
    specialize (IH _ _ _ Hs). destruct v; [done| |].
    + destruct IH as [-> ->]. done.
    + destruct IH as (j & q & Hq & ->). by exists (Datatypes.S j), q.
  - intros; simplify_eq. by exists 0, p.
Qed.

Lemma spec_forward_shape {D Ext} (done todo : list (SagaStep D Ext)) c x v tr x' :
  spec_forward done todo c x = (v, tr, x') ->
  match v with
  | AllDone => tr = map (fun p => Executed (name p) true) todo
  | _ => exists k p tail, todo !! k = Some p /\
      tr = map (fun p => Executed (name p) true) (take k todo)
           ++ [Executed (name p) false] ++ tail /\
      match v with
      | Stuck _ => exists j q, (reverse (take k todo) ++ done) !! j = Some q /\
          tail = map (fun p => Compensation (name p) true) (take j (reverse (take k todo) ++ done))
                 ++ [Compensation (name q) false]
      | _ => tail = map (fun p => Compensation (name p) true) (reverse (take k todo) ++ done)
      end
  end.
Proof.
  revert done c x tr. induction todo as [|p todo IH]; intros done c x tr; simpl;
    [intros; by simplify_eq|].
  destruct (execute p c x) as [[[[]|e1] c1] x1].
  - destruct (spec_forward _ todo c1 x1) as [[v1 tr1] x2] eqn:Hs. intros; simplify_eq.
    specialize (IH _ _ _ _ Hs). destruct v; [by rewrite IH|..];
      destruct IH as (k & q & tl & Hq & -> & Htl); exists (Datatypes.S k), q, tl;
      simpl; rewrite reverse_cons, <- app_assoc; done.
  - destruct (spec_compensate done c1 x1 _) as [[v1 tr1] x2] eqn:Hs. intros; simplify_eq.
    apply spec_compensate_shape in Hs. destruct v; [done|destruct Hs as [_ ->]|];
      exists 0, p; eexists; done.
Qed.

(** Order of effects: a new saga that ends [Completed] has executed every step
    once, in order; one that ends [Compensated] has executed a prefix, met one
    failure, and compensated exactly that prefix in reverse order; one that ends
    [Failed] stopped at the first compensation that failed. *)
Theorem saga_effects_in_order V D Ext S `{RS : ReliableStore V S} to_value from_value
    (steps : list (SagaStep D Ext)) id c (w : world Ext S) :
  (forall c, exists v, to_value c = Ok v /\ from_value v = Ok c) ->
  NoDup (map name steps) -> budget w = None -> load (store w) id = Ok None ->
  (forall i, ~ step_done steps (store w) id i) ->
  let w' := (run to_value from_value steps id c w).2 in
  exists st tr, load (store w') id = Ok (Some st) /\ trace w' = trace w ++ tr /\
  match status st with
  | Completed => tr = map (fun p => Executed (name p) true) steps
  | Compensated => exists k p, steps !! k = Some p /\
      tr = map (fun p => Executed (name p) true) (take k steps) ++ [Executed (name p) false]
           ++ map (fun p => Compensation (name p) true) (reverse (take k steps))
  | Failed => exists k p j q, steps !! k = Some p /\ reverse (take k steps) !! j = Some q /\
      tr = map (fun p => Executed (name p) true) (take k steps) ++ [Executed (name p) false]
           ++ map (fun p => Compensation (name p) true) (take j (reverse (take k steps)))
           ++ [Compensation (name q) false]
  | Running | Compensating => False
  end.
Proof.
  intros codec names Hb Hl Hn. cbv zeta.
  pose proof (run_refines to_value from_value codec steps names id c w Hb Hl Hn) as Hr.
  set (c' := {| ctx_saga_id := id; idempotency_key := _; data := _ |}) in Hr.
  destruct (spec_forward [] steps c' (ext w)) as [[v tr] x] eqn:Hs.
  destruct (run _ _ _ _ _ _) as [o w'] eqn:He.
  cbv zeta in Hr. rewrite Hs in Hr. unfold refines in Hr. simpl. destruct Hr as (_ & _ & Htr & st & Hst & Hv).
  exists st, tr. split; [done|]. split; [done|]. apply spec_forward_shape in Hs. rewrite Hv.
  destruct v; simpl; [done|..]; destruct Hs as (k & p & tl & Hp & -> & Htl).
  - subst tl. exists k, p. by rewrite app_nil_r.
  - destruct Htl as (j & q & Hq & ->). rewrite app_nil_r in Hq |- *. by exists k, p, j, q.
Qed.

Lemma saga_effects_in_order_witness :
  exists st tr,
    load (store (run demo_to demo_from demo_steps "x" demo_ctx (demo_world None)).2) "x"
      = Ok (Some st) /\
    trace (run demo_to demo_from demo_steps "x" demo_ctx (demo_world None)).2 = [] ++ tr /\
    status st = Compensated.
Proof.
  destruct (saga_effects_in_order Ctx nat (list string) (Inner Ctx) demo_to demo_from demo_steps "x"
    demo_ctx (demo_world None) demo_codec demo_names ltac:(reflexivity) ltac:(reflexivity)
    (demo_fresh None)) as (st & tr & Hl & Ht & _).
  exists st, tr. split; [exact Hl|]. split; [exact Ht|].
  vm_compute in Hl. injection Hl as <-. reflexivity.
Defined.

(** C13. One crash is survived: a new saga dies at any point, the process comes
    back and resumes it (perhaps as often as it takes to return without dying
    again); if the saga then is [Compensated], no step is left done. *)
Theorem crash_then_resume_compensates V D Ext S `{RS : ReliableStore V S} to_value from_value
    (steps : list (SagaStep D Ext)) id c (w : world Ext S) b st r :
  (forall c, exists v, to_value c = Ok v /\ from_value v = Ok c) ->
  NoDup (map name steps) -> load (store w) id = Ok None ->
  (forall i, ~ step_done steps (store w) id i) ->
  let w1 := (run to_value from_value steps id c w).2 in
  let '(o, w2) := resume to_value from_value steps id (reborn b w1) in
  o = Ret r -> load (store w2) id = Ok (Some st) -> status st = Compensated ->
  forall i, ~ step_done steps (store w2) id i.
Proof.
  intros codec names Hl Hn. cbv zeta.
  destruct (run _ _ _ _ _ _) as [o1 w1] eqn:Hr.
  apply (run_persisted to_value from_value codec steps names id) in Hr; [|done..].
  destruct (resume _ _ _ _ _) as [o w2] eqn:Hres. intros -> Hst Hs.
  apply (resume_persisted to_value from_value codec steps names id) in Hres; [|exact Hr].
  unfold persisted in Hres. rewrite Hst, Hs in Hres. tauto.
Qed.

Lemma crash_then_resume_compensates_witness :
  let w1 := (run demo_to demo_from demo_steps "x" demo_ctx (demo_world (Some 3))).2 in
  let w2 := (resume demo_to demo_from demo_steps "x" (reborn None w1)).2 in
  trace w2 = [Executed "a" true; Executed "b" false; Compensation "a" true] /\
  forall i, ~ step_done demo_steps (store w2) "x" i.
Proof.
  split; [reflexivity|].
  pose proof (crash_then_resume_compensates Ctx nat (list string) (Inner Ctx) demo_to demo_from
    demo_steps "x" demo_ctx (demo_world (Some 3)) None
    {| saga_id := "x"; status := Compensated; current_step := 0;
       context := {| ctx_saga_id := "x"; idempotency_key := "k"; data := 0 |} |}
    (Err (ErrStepFailed "b" "saga state: boom"))
    demo_codec demo_names eq_refl (demo_fresh (Some 3))) as H.
  cbv zeta in H. destruct (resume _ _ _ _ _) as [o w2] eqn:E.
  apply H; [change o with (o, w2).1 | change w2 with (o, w2).2 | done]; rewrite <- E; vm_compute; reflexivity.
Defined.

(** Two crashes are not: when the process dies between marking a step done and
    saving the row, resumes, meets a failure and dies again right after saving
    [Compensating], the next resume compensates nothing and reports success; the
    row is [Compensated] while step [a] is still done and was never undone. *)
Theorem two_crashes_skip_compensation :
  let w1 := (run demo_to demo_from demo_steps "x" demo_ctx (demo_world (Some 3))).2 in
  let w2 := (resume demo_to demo_from demo_steps "x" (reborn (Some 3) w1)).2 in
  let '(o, w3) := resume demo_to demo_from demo_steps "x" (reborn None w2) in
  o = Ret (Ok tt) /\
  trace w3 = [Executed "a" true; Executed "b" false] /\
  (exists st, load (store w3) "x" = Ok (Some st) /\ status st = Compensated) /\
  stat (store w3) "x" "a" = Done.
Proof. vm_compute. do 2 (split; [reflexivity|]). split; [|reflexivity]. by eexists. Qed.

(** Finished sagas are left alone: running or resuming a saga whose row is
    [Completed] or [Compensated] returns [Ok] without any effect, and one whose
    row is [Failed] is refused with [InvalidState], also without effect. *)
Theorem finished_saga_untouched V D Ext S `{RS : ReliableStore V S} to_value from_value
    (steps : list (SagaStep D Ext)) id c (w : world Ext S) st :
  load (store w) id = Ok (Some st) -> (current_step st <= length steps)%nat ->
  status st = Completed \/ status st = Compensated \/ status st = Failed ->
  let r := if decide (status st = Failed) then Err (InvalidState (saga_id st) Failed) else Ok tt in
  run to_value from_value steps id c w = (Ret r, w) /\
  resume to_value from_value steps id w = (Ret r, w).
Proof.
  intros Hl Hc Hs. cbv zeta. unfold run, resume, bind, do_load, ret. rewrite Hl. simpl.
  unfold continue_state. rewrite decide_False by lia.
  destruct Hs as [->|[->| ->]]; done.
Qed.

Definition demo_failed : world (list string) (Inner Ctx) :=
  {| store := (mem_save mem_empty {| saga_id := "x"; status := Failed; current_step := 1;
                                     context := demo_ctx |}).2;
     ext := []; trace := []; budget := None |}.

Lemma finished_saga_untouched_witness :
  run demo_to demo_from demo_steps "x" demo_ctx demo_failed =
    (Ret (Err (InvalidState "x" Failed)), demo_failed).
Proof.
  refine (proj1 (finished_saga_untouched Ctx nat (list string) (Inner Ctx) demo_to demo_from
    demo_steps "x" demo_ctx demo_failed
    {| saga_id := "x"; status := Failed; current_step := 1; context := demo_ctx |} eq_refl _ _)).
  - simpl. lia.
  - by right; right.
Defined.

(** Status codes of the SQL store round-trip: parsing is the inverse of
    printing, for sagas and for steps, and every other text is refused. *)
Theorem status_codes_roundtrip :
  (forall s, saga_parse (saga_as_str s) = Ok s) /\
  (forall t s, saga_parse t = Ok s -> t = saga_as_str s) /\
  (forall s, step_parse (step_as_str s) = Ok s) /\
  (forall t s, step_parse t = Ok s -> t = step_as_str s).
Proof.
  split_and!; [by intros []| |by intros []|]; intros t s; unfold saga_parse, step_parse;
    repeat match goal with
    | |- context [String.eqb ?a ?b] => destruct (String.eqb_spec a b) as [->|]
    end; intros; by simplify_eq.
Qed.

End SagaSpec.
