(* ===== verification/SagaSql.v ===== *)
(** * The SQL saga store (ecat-saga)

    [SqlSagaStateStore]: the store interface of the saga engine over a relational client,
    with one table of instances and one of steps.  Under what the documentation of the
    databases says of its statements, it answers as the in-memory store does. *)

From S2P Require Import Prelude Json Text Dialect Rdbms Saga.

Local Open Scope Z_scope.
Local Open Scope ecat_scope.

(** [serde_json::from_str] and the text of its errors. *)
Class JsonParse `{JT : JsonText} := { value_parse : string -> result Value string }.

Module SagaSql.
Import Rdbms State.

Definition INSTANCES : string := "saga_instances".
Definition STEPS : string := "saga_steps".

(** [Display for RdbmsError]. *)
Definition rdbms_text (e : RdbmsError) : string :=
  match e with
  | Database m => "database error: " +:+ m
  | Connection m => "connection error: " +:+ m
  | ConfigError m => "configuration error: " +:+ m
  | Timeout_ m => "timeout: " +:+ m
  | NoAvailableReplica => "no available replica"
  end.

Definition db_error (e : RdbmsError) : SagaError := ErrState (rdbms_text e).

Definition placeholder (d : Dialect) (n : Z) : string :=
  match d with Postgres => "$" +:+ dec_text n | _ => "?" end.

(** *** The statements *)

Definition id_type (d : Dialect) : string := match d with MySql => "VARCHAR(255)" | _ => "TEXT" end.

(** The line breaks and the indentation of the source's literals. *)
Definition nl : string := String (Ascii.ascii_of_nat 10) "                    ".
Definition nl_end : string := String (Ascii.ascii_of_nat 10) "                )".

Definition create_instances (d : Dialect) : string :=
  "CREATE TABLE IF NOT EXISTS " +:+ INSTANCES +:+ " (" +:+ nl +:+ "saga_id " +:+ id_type d +:+ " PRIMARY KEY," +:+ nl
    +:+ "status TEXT NOT NULL," +:+ nl +:+ "current_step BIGINT NOT NULL," +:+ nl +:+ "context TEXT NOT NULL," +:+ nl
    +:+ "updated_at TEXT NOT NULL" +:+ nl_end.

Definition create_steps (d : Dialect) : string :=
  "CREATE TABLE IF NOT EXISTS " +:+ STEPS +:+ " (" +:+ nl +:+ "saga_id " +:+ id_type d +:+ " NOT NULL," +:+ nl
    +:+ "step_name " +:+ id_type d +:+ " NOT NULL," +:+ nl +:+ "status TEXT NOT NULL," +:+ nl
    +:+ "updated_at TEXT NOT NULL," +:+ nl +:+ "PRIMARY KEY (saga_id, step_name)" +:+ nl_end.

Definition load_sql (d : Dialect) : string :=
  "SELECT saga_id, status, current_step, context FROM " +:+ INSTANCES +:+ " WHERE saga_id = " +:+ placeholder d 1.

Definition save_sql (d : Dialect) : string :=
  match d with
  | MySql =>
      "INSERT INTO " +:+ INSTANCES +:+ " (saga_id, status, current_step, context, updated_at) "
        +:+ "VALUES (?, ?, ?, ?, ?) AS ecat_new ON DUPLICATE KEY UPDATE status = ecat_new.status, "
        +:+ "current_step = ecat_new.current_step, context = ecat_new.context, updated_at = ecat_new.updated_at"
  | _ =>
      "INSERT INTO " +:+ INSTANCES +:+ " (saga_id, status, current_step, context, updated_at) VALUES ("
        +:+ placeholder d 1 +:+ ", " +:+ placeholder d 2 +:+ ", " +:+ placeholder d 3 +:+ ", " +:+ placeholder d 4 +:+ ", "
        +:+ placeholder d 5 +:+ ") ON CONFLICT(saga_id) DO UPDATE SET status = EXCLUDED.status, "
        +:+ "current_step = EXCLUDED.current_step, context = EXCLUDED.context, updated_at = EXCLUDED.updated_at"
  end.

Definition step_status_sql (d : Dialect) : string :=
  "SELECT status FROM " +:+ STEPS +:+ " WHERE saga_id = " +:+ placeholder d 1 +:+ " AND step_name = " +:+ placeholder d 2.

Definition set_step_sql (d : Dialect) : string :=
  match d with
  | MySql =>
      "INSERT INTO " +:+ STEPS +:+ " (saga_id, step_name, status, updated_at) VALUES (?, ?, ?, ?) AS ecat_new "
        +:+ "ON DUPLICATE KEY UPDATE status = ecat_new.status, updated_at = ecat_new.updated_at"
  | _ =>
      "INSERT INTO " +:+ STEPS +:+ " (saga_id, step_name, status, updated_at) VALUES ("
        +:+ placeholder d 1 +:+ ", " +:+ placeholder d 2 +:+ ", " +:+ placeholder d 3 +:+ ", " +:+ placeholder d 4
        +:+ ") ON CONFLICT(saga_id, step_name) DO UPDATE SET status = EXCLUDED.status, updated_at = EXCLUDED.updated_at"
  end.

Section Store.
Context `{JP : JsonParse} {JI : JsonInt} {W Tx : Type}.
Context (now : W -> string) (db : RdbmsClient W Tx).

Definition supported : result Dialect SagaError :=
  match dialect_ db with Mssql => Err (ErrState "MSSQL saga store is unsupported") | d => Ok d end.

(** *** The client's answers *)

Definition execute (r : Request) (w : W) : result unit SagaError * W :=
  let '(x, w) := perform_ db r w in (rbind (map_err db_error x) (fun _ => Ok tt), w).

Definition query (r : Request) (w : W) : result (list Row) SagaError * W :=
  let '(x, w) := perform_ db r w in
  (let? reply := map_err db_error x in Ok (match reply with Rows l => l | Affected _ => [] end), w).

Definition text (r : Row) (c : string) : result string SagaError :=
  ok_or ((r : gmap string Value) !! c ≫= as_str) (ErrState ("saga row missing text column `" +:+ c +:+ "`")).

Definition int (r : Row) (c : string) : result Z SagaError :=
  ok_or ((r : gmap string Value) !! c ≫= as_i64) (ErrState ("saga row missing integer column `" +:+ c +:+ "`")).

(** *** The store *)

Definition ensure_schema (w : W) : result unit SagaError * W :=
  match supported with
  | Err e => (Err e, w)
  | Ok d =>
      match execute (Execute (create_instances d)) w with
      | (Err e, w) => (Err e, w)
      | (Ok _, w) => execute (Execute (create_steps d)) w
      end
  end.

Definition out_of_range : SagaError := ErrState "saga current_step out of range".

(** A row as a state; [usize] has 64 bits. *)
Definition state_of (r : Row) : result (SagaState Value) SagaError :=
  let? n := int r "current_step" in
  if n <? 0 then Err out_of_range
  else
    let? context := text r "context" in
    let? id := text r "saga_id" in
    let? s := text r "status" in
    let? status := saga_parse s in
    let? c := map_err (fun e => ErrState ("saga context is invalid JSON: " +:+ e)) (value_parse context) in
    Ok {| saga_id := id; status := status; current_step := Z.to_nat n; context := c |}.

Definition load (id : string) (w : W) : result (option (SagaState Value)) SagaError * W :=
  match supported with
  | Err e => (Err e, w)
  | Ok d =>
      let '(r, w) := query (QueryWith (load_sql d) [VString id]) w in
      (let? rows := r in
       match rows with
       | [] => Ok None
       | row :: _ => let? st := state_of row in Ok (Some st)
       end, w)
  end.

Definition save (st : SagaState Value) (w : W) : result unit SagaError * W :=
  match supported with
  | Err e => (Err e, w)
  | Ok d =>
      let n := Z.of_nat (current_step st) in
      if n <? 2 ^ 63 then
        execute (ExecuteWith (save_sql d)
          [VString (saga_id st); VString (saga_as_str (status st)); VNumber (number_of_i64 n);
           VString (value_text (context st)); VString (now w)]) w
      else (Err out_of_range, w)
  end.

Definition step_status (id step : string) (w : W) : result StepStatus SagaError * W :=
  match supported with
  | Err e => (Err e, w)
  | Ok d =>
      let '(r, w) := query (QueryWith (step_status_sql d) [VString id; VString step]) w in
      (let? rows := r in
       match rows with
       | [] => Ok Pending
       | row :: _ => let? s := text row "status" in step_parse s
       end, w)
  end.

Definition set_step (id step : string) (x : StepStatus) (w : W) : result unit SagaError * W :=
  match supported with
  | Err e => (Err e, w)
  | Ok d =>
      execute (ExecuteWith (set_step_sql d) [VString id; VString step; VString (step_as_str x); VString (now w)]) w
  end.

End Store.
End SagaSql.

(** ** The SQL store implements the in-memory one

    Over a database whose upserts and selects behave as documented, any sequence of store
    operations answers the same on the tables as on the two maps of the in-memory store. *)

Module SagaSqlSpec.
Import Rdbms State SagaSql.

(** The rows of the two tables, by their keys. *)
Record tables := { t_instances : gmap string (string * Z * string); t_steps : gmap (string * string) string }.

Section Spec.
Context `{JP : JsonParse} {JI : JsonInt} {W Tx : Type}.
Context (now : W -> string) (db : RdbmsClient W Tx).

Definition instance_row (id : string) (x : string * Z * string) : Row :=
  <["saga_id" := VString id]> (<["status" := VString x.1.1]> (<["current_step" := VNumber (number_of_i64 x.1.2)]>
    (<["context" := VString x.2]> (∅ : gmap string Value)))).

(** What the statements of the store do to the tables. *)
Class SagaDatabase := {
  tables_of : W -> tables;
  supported_dialect : dialect_ db <> Mssql;
  db_save w id s n c t : exists a w',
    perform_ db (ExecuteWith (save_sql (dialect_ db)) [VString id; VString s; VNumber (number_of_i64 n); VString c; VString t]) w
      = (Ok (Affected a), w') /\
    tables_of w' = {| t_instances := <[id := (s, n, c)]> (t_instances (tables_of w)); t_steps := t_steps (tables_of w) |};
  db_load w id : exists w',
    perform_ db (QueryWith (load_sql (dialect_ db)) [VString id]) w
      = (Ok (Rows (match t_instances (tables_of w) !! id with Some x => [instance_row id x] | None => [] end)), w') /\
    tables_of w' = tables_of w;
  db_set_step w id step x t : exists a w',
    perform_ db (ExecuteWith (set_step_sql (dialect_ db)) [VString id; VString step; VString x; VString t]) w
      = (Ok (Affected a), w') /\
    tables_of w' = {| t_instances := t_instances (tables_of w); t_steps := <[(id, step) := x]> (t_steps (tables_of w)) |};
  db_step_status w id step : exists w',
    perform_ db (QueryWith (step_status_sql (dialect_ db)) [VString id; VString step]) w
      = (Ok (Rows (match t_steps (tables_of w) !! (id, step) with
                   | Some x => [<["status" := VString x]> (∅ : gmap string Value)]
                   | None => [] end)), w') /\
    tables_of w' = tables_of w
}.

Context {SD : SagaDatabase}.

(** *** Operations and their answers *)

Inductive op :=
| Load (id : string)
| Save (st : SagaState Value)
| StepStatusOf (id step : string)
| SetStep (id step : string) (x : StepStatus).

Inductive answer :=
| Loaded (r : result (option (SagaState Value)) SagaError)
| Done (r : result unit SagaError)
| Read (r : result StepStatus SagaError).

Definition sql_op (o : op) (w : W) : answer * W :=
  match o with
  | Load id => let '(r, w) := load db id w in (Loaded r, w)
  | Save st => let '(r, w) := save now db st w in (Done r, w)
  | StepStatusOf id step => let '(r, w) := step_status db id step w in (Read r, w)
  | SetStep id step x => let '(r, w) := set_step now db id step x w in (Done r, w)
  end.

Definition mem_op (o : op) (s : Inner Value) : answer * Inner Value :=
  match o with
  | Load id => (Loaded (mem_load s id), s)
  | Save st => let '(r, s) := mem_save s st in (Done r, s)
  | StepStatusOf id step => (Read (mem_step_status s id step), s)
  | SetStep id step x => let '(r, s) := mem_set_step s id step x in (Done r, s)
  end.

Definition run {S} (f : op -> S -> answer * S) : list op -> S -> list answer * S :=
  fix run l s := match l with
  | [] => ([], s)
  | o :: l => let '(a, s) := f o s in let '(r, s) := run l s in (a :: r, s)
  end.

(** *** The tables of a store *)

Definition encoded (st : SagaState Value) : string * Z * string :=
  (saga_as_str (status st), Z.of_nat (current_step st), value_text (context st)).

(** The step fits a BIGINT and the context is one its text reads back to. *)
Definition storable (st : SagaState Value) : Prop :=
  Z.of_nat (current_step st) < 2 ^ 63 /\ value_parse (value_text (context st)) = Ok (context st).

Record holds (w : W) (s : Inner Value) : Prop := {
  h_instances id : t_instances (tables_of w) !! id = encoded <$> states s !! id;
  h_keys id st : states s !! id = Some st -> saga_id st = id /\ storable st;
  h_steps k : t_steps (tables_of w) !! k = step_as_str <$> steps s !! k
}.

Definition storable_op (o : op) : Prop := match o with Save st => storable st | _ => True end.

Lemma saga_status_roundtrip x : saga_parse (saga_as_str x) = Ok x.
Proof. by destruct x. Qed.

Lemma step_status_roundtrip x : step_parse (step_as_str x) = Ok x.
Proof. by destruct x. Qed.

Lemma supported_ok : supported db = Ok (dialect_ db).
Proof. unfold supported. pose proof supported_dialect. by destruct (dialect_ db). Qed.

Lemma state_of_row id st :
  saga_id st = id -> storable st -> state_of (instance_row id (encoded st)) = Ok st.
Proof.
  intros <- [Hn Hc]. unfold state_of, int, text, instance_row, encoded. cbn [fst snd].
  rewrite !(lookup_insert_ne _ "saga_id"), !(lookup_insert_ne _ "status"), lookup_insert_eq by done. cbn [mbind option_bind as_i64].
  rewrite number_of_i64_as by (unfold in_i64; lia). cbn [ok_or rbind].
  assert (Z.of_nat (current_step st) <? 0 = false) as -> by lia.
  rewrite (lookup_insert_ne _ "current_step"), lookup_insert_eq by done. cbn [mbind option_bind as_str ok_or rbind].
  rewrite lookup_insert_eq. cbn [mbind option_bind as_str ok_or rbind].
  rewrite (lookup_insert_ne _ "saga_id"), lookup_insert_eq by done. cbn [mbind option_bind as_str ok_or rbind].
  rewrite saga_status_roundtrip, Hc. cbn [map_err rbind]. rewrite Nat2Z.id. by destruct st.
Qed.

(** One operation on a store and on its tables. *)
Lemma op_refines o w s :
  holds w s -> storable_op o -> (sql_op o w).1 = (mem_op o s).1 /\ holds (sql_op o w).2 (mem_op o s).2.
Proof.
  intros [Hi Hk Hs] Ho. destruct o as [id|st|id step|id step x]; cbn [sql_op mem_op].
  - unfold load, query. rewrite supported_ok. destruct (db_load w id) as (w' & -> & Hw). cbn [map_err rbind fst snd].
    rewrite Hi. unfold mem_load. destruct (states s !! id) as [st|] eqn:E; cbn [fmap option_fmap option_map].
    + destruct (Hk id st E) as [Hid Hst]. rewrite (state_of_row id st Hid Hst). split; [done|]. split; rewrite ?Hw; done.
    + split; [done|]. split; rewrite ?Hw; done.
  - destruct Ho as [Hn Hc]. unfold save, execute. rewrite supported_ok. assert (Z.of_nat (current_step st) <? 2 ^ 63 = true) as -> by lia.
    destruct (db_save w (saga_id st) (saga_as_str (status st)) (Z.of_nat (current_step st)) (value_text (context st)) (now w))
      as (a & w' & -> & Hw). cbn [map_err rbind fst snd mem_save]. split; [done|].
    split; rewrite ?Hw; cbn [t_instances Saga.State.states t_steps Saga.State.steps]; try done.
    + intros id. destruct (decide (id = saga_id st)) as [->|Hne]; [by rewrite !lookup_insert_eq | by rewrite !lookup_insert_ne].
    + intros id st'. destruct (decide (id = saga_id st)) as [->|Hne].
      * rewrite lookup_insert_eq. intros [= <-]. split; [done|]. by split.
      * rewrite lookup_insert_ne by done. apply Hk.
  - unfold step_status, query. rewrite supported_ok. destruct (db_step_status w id step) as (w' & -> & Hw). cbn [map_err rbind fst snd].
    rewrite Hs. unfold mem_step_status. destruct (steps s !! (id, step)) as [x|]; cbn [fmap option_fmap option_map].
    + unfold text. rewrite lookup_insert_eq. cbn [mbind option_bind as_str ok_or rbind]. rewrite step_status_roundtrip.
      split; [done|]. split; rewrite ?Hw; done.
    + split; [done|]. split; rewrite ?Hw; done.
  - unfold set_step, execute. rewrite supported_ok.
    destruct (db_set_step w id step (step_as_str x) (now w)) as (a & w' & -> & Hw). cbn [map_err rbind fst snd mem_set_step].
    split; [done|]. split; rewrite ?Hw; cbn [t_instances Saga.State.states t_steps Saga.State.steps]; try done.
    intros k. destruct (decide (k = (id, step))) as [->|Hne]; [by rewrite !lookup_insert_eq | by rewrite !lookup_insert_ne].
Qed.

(** C29. The SQL store refines the in-memory store: from tables that hold a store, every
    sequence of loads, saves and step updates gets the same answers from both, and leaves
    tables that hold the new store. *)
Theorem sql_store_refines_memory l w s :
  holds w s -> Forall storable_op l ->
  (run sql_op l w).1 = (run mem_op l s).1 /\ holds (run sql_op l w).2 (run mem_op l s).2.
Proof.
  revert w s. induction l as [|o l IH]; intros w s Hh Hl; [done|]. apply Forall_cons in Hl as [Ho Hl]. cbn.
  destruct (op_refines o w s Hh Ho) as [H1 H2]. destruct (sql_op o w) as [a w'], (mem_op o s) as [b s']. cbn [fst snd] in *. subst b.
  destruct (IH w' s' H2 Hl) as [H3 H4]. destruct (run sql_op l w'), (run mem_op l s'). cbn [fst snd] in *. by subst.
Qed.

End Spec.
End SagaSqlSpec.

(** ** A database *)

Module SagaSqlDemo.
Import Rdbms State SagaSql SagaSqlSpec.

#[local] Instance demo_number : JsonNumber := {|
  Number := Z;
  number_as_i64 n := if bool_decide (in_i64 n) then Some n else None;
  number_is_u64 n := 0 <=? n;
  number_as_f64 n := None;
  number_text n := dec_text n
|}.

#[local] Instance demo_text : JsonText := {| value_text v := match v with VString s => s | _ => "null" end |}.
#[local] Instance demo_parse : JsonParse := {| value_parse s := Ok (VString s) |}.

#[local] Instance demo_int : JsonInt := {| number_of_i64 n := (n : @Number demo_number); number_of_i64_as n H := ltac:(by cbn; rewrite bool_decide_true) |}.

Definition demo_perform (r : Request) (w : tables) : result Reply RdbmsError * tables :=
  match r with
  | ExecuteWith sql [VString id; VString s; VNumber n; VString c; VString _] =>
      (Ok (Affected 1), {| t_instances := <[id := (s, n : Z, c)]> (t_instances w); t_steps := t_steps w |})
  | ExecuteWith sql [VString id; VString step; VString x; VString _] =>
      (Ok (Affected 1), {| t_instances := t_instances w; t_steps := <[(id, step) := x]> (t_steps w) |})
  | QueryWith sql [VString id] =>
      (Ok (Rows (match t_instances w !! id with Some x => [instance_row id x] | None => [] end)), w)
  | QueryWith sql [VString id; VString step] =>
      (Ok (Rows (match t_steps w !! (id, step) with Some x => [<["status" := VString x]> (∅ : gmap string Value)] | None => [] end)), w)
  | _ => (Err (Database "syntax error"), w)
  end.

Definition demo_db : RdbmsClient tables unit :=
  {| perform_ := demo_perform; begin_ w := (Ok tt, w); replica_lag _ := None; dialect_ := Postgres |}.

#[local] Instance demo_database : SagaDatabase demo_db.
Proof.
  refine {| tables_of (w : tables) := w |}.
  - done.
  - intros w id s n c t. by eexists _, _.
  - intros w id. by eexists.
  - intros w id step x t. by eexists _, _.
  - intros w id step. by eexists.
Defined.

Definition order_saga : SagaState Value :=
  {| saga_id := "order-1"; status := Running; current_step := 2; context := VString "{}" |}.

Definition demo_ops : list op := [Save order_saga; SetStep "order-1" "pay" StepFailed; Load "order-1"; StepStatusOf "order-1" "pay"].

Definition no_tables : tables := {| t_instances := ∅; t_steps := ∅ |}.

Lemma sql_store_refines_memory_witness :
  (run (sql_op (fun _ => "now") demo_db) demo_ops no_tables).1 =
    [Done (Ok tt); Done (Ok tt); Loaded (Ok (Some order_saga)); Read (Ok StepFailed)] /\
  holds demo_db (run (sql_op (fun _ => "now") demo_db) demo_ops no_tables).2 (run mem_op demo_ops mem_empty).2.
Proof.
  apply (sql_store_refines_memory (fun _ => "now") demo_db demo_ops no_tables mem_empty).
  - split; cbn.
    + intros id. by rewrite !lookup_empty.
    + intros id st H. by rewrite lookup_empty in H.
    + intros k. by rewrite !lookup_empty.
  - repeat constructor.
Defined.

End SagaSqlDemo.
