(* ===== verification/ClickSink.v ===== *)
(** * The ClickHouse sink of the archive job ([ecat-data-tiering])

    [src/ecat-data-tiering/src/sink/clickhouse.rs] over the client of
    [src/ecat-data-clickhouse/src/lib.rs]: a chunk is one INSERT of its rows and one row of
    checksums; verification compares the checksum, and reads a sample of the rows back
    when it is configured to.

    The server is behind HTTP: a request that changes it may fail, applied or not, and so
    stands for a breaker that is open and for a time limit too.  SHA-256 and the parsing of JSON are operations of classes. *)

From Stdlib Require Import Ascii.
From S2P Require Import Prelude Json Text Rdbms SagaSql TierConfig Tiering S3Sink TierSql.

Local Open Scope Z_scope.
Local Open Scope ecat_scope.

Module Clickhouse.
Import Rdbms TierConfig TierSql.

(** [i64] as decimal text. *)
Definition int_text (z : Z) : string := if z <? 0 then "-" +:+ dec_text (- z) else dec_text z.

(** A response of the server: the status, the header the client reads, the body. *)
Record Response := { success : bool; summary : option string; body : result string string }.

(** Third-party code: [sha2], [serde_json], [reqwest] and the server behind it.  A SELECT
    leaves the server as it is. *)
Class ClickhouseHttp `{JT : JsonText} := {
  sha256 : string -> string;
  from_str : string -> result Value string;
  value_as_u64 : Number -> option Z;
  server : Type;
  post : server -> string -> result Response string * server;
  read : server -> string -> result Response string;
}.

(** The columns of a row in the order of the query it comes from. *)
Class RowOrder `{JN : JsonNumber} := {
  row_iter : Row -> list (string * Value);
  row_iter_map r : list_to_map (row_iter r) = (r : gmap string Value);
}.

Record ClickhouseTable := { ch_name : string; ch_id_col : string }.

(** [ClickhouseSink] without its client and its [OnceCell]. *)
Record ClickhouseSink := { ch_tables : list ClickhouseTable; ch_sample : option f64 }.

(** The server, and whether [metadata_ready] is filled. *)
Record World `{CH : ClickhouseHttp} := { metadata_ready : bool; behind : server }.

Record ChunkDigest := {
  checksum : string;
  sample_checksum : string;
  sample_rows : Z;
  low_id : Z;
  high_id : Z;
}.

Section Client.
Context `{CH : ClickhouseHttp}.

(** [ClickhouseClient::execute]. *)
Definition affected (r : Response) : Z :=
  default 0 (
    s ← summary r;
    v ← (match from_str s with Ok v => Some v | Err _ => None end);
    n ← S3.value_get v "written_rows";
    t ← as_str n;
    parse_uint 64 t).

Definition execute (sql : string) (s : server) : result Z RdbmsError * server :=
  match post s sql with
  | (Err e, s) => (Err (Database ("ch: " +:+ e)), s)
  | (Ok r, s) =>
      if negb (success r) then (Err (Database (match body r with Ok t => t | Err _ => "" end)), s)
      else (Ok (affected r), s)
  end.

(** [chars().take(n).collect()]: a continuation byte belongs to the character before. *)
Fixpoint take_chars (n : nat) (s : string) : string :=
  match s with
  | EmptyString => EmptyString
  | String c s =>
      if S3.cont (byte_of c) then String c (take_chars n s)
      else match n with O => EmptyString | S n => String c (take_chars n s) end
  end.

Definition unparseable (e line : string) : RdbmsError :=
  Database ("ch query: unparseable row (first 200 bytes shown): " +:+ e +:+ ": " +:+ take_chars 200 line).

Fixpoint parse_rows (l : list string) : result (list Row) RdbmsError :=
  match l with
  | [] => Ok []
  | line :: l =>
      if is_blank line then parse_rows l
      else
        let? v := map_err (fun e => unparseable e line) (from_str line) in
        let? rest := parse_rows l in
        Ok (match v with VObject o => (list_to_map o : gmap string Value) :: rest | _ => rest end)
  end.

(** [ClickhouseClient::query]: the status is not looked at. *)
Definition query (sql : string) (s : server) : result (list Row) RdbmsError :=
  let? r := map_err (fun e => Database ("ch query: " +:+ e)) (read s sql) in
  let? text := map_err (fun e => Database ("ch read: " +:+ e)) (body r) in
  parse_rows (S3.lines text).

End Client.

Section Digest.
Context `{CH : ClickhouseHttp}.

Definition json_i64 (v : Value) : option Z :=
  match v with
  | VNumber n => number_as_i64 n
  | VString s => S3.parse_i64 s
  | _ => None
  end.

Definition json_u64 (v : Value) : option Z :=
  match v with
  | VNumber n => value_as_u64 n
  | VString s => parse_uint 64 s
  | _ => None
  end.

Definition row_id (id_col : string) (r : Row) : option Z := (r : gmap string Value) !! id_col ≫= json_i64.

Fixpoint keyed (id_col : string) (l : list Row) : result (list (Z * Row)) TieringError :=
  match l with
  | [] => Ok []
  | r :: l =>
      let? i := ok_or (row_id id_col r) (Cold ("cold sink row has no integer `" +:+ id_col +:+ "`")) in
      let? rest := keyed id_col l in
      Ok ((i, r) :: rest)
  end.

Definition key_le (a b : Z * Row) : bool := a.1 <=? b.1.

Definition sorted_by_id (l : list Row) (id_col : string) : result (list (Z * Row)) TieringError :=
  let? k := keyed id_col l in Ok (sort_by key_le k).

(** An id that came as a string is written as the number it is. *)
Definition canonical_json_value (col id_col : string) (v : Value) : string :=
  match v with
  | VString _ =>
      if String.eqb col id_col then match json_i64 v with Some id => int_text id | None => value_text v end
      else value_text v
  | _ => value_text v
  end.

Definition column_le (a b : string * Value) : bool := str_le a.1 b.1.

Definition columns (r : Row) : list (string * Value) := sort_by column_le (map_to_list (r : gmap string Value)).

Definition member_text (id_col : string) (cv : string * Value) : string :=
  value_text (VString cv.1) +:+ ":" +:+ canonical_json_value cv.1 id_col cv.2.

Definition canonical_row (id_col : string) (r : Row) : string :=
  "{" +:+ String.concat "," (map (member_text id_col) (columns r)) +:+ "}".

Definition canonical_ndjson (l : list Row) (id_col : string) : string :=
  S3.join_lines (map (canonical_row id_col) l).

Definition sample_step (rate : f64) : Z :=
  match S3.ceil (f64_div f64_one rate) with
  | Some c => if 1 <=? c then Z.min c u64_max else 1
  | None => 1
  end.

(** By id modulo the step; the first row when none is picked. *)
Definition pick_sample (k : list (Z * Row)) (step : Z) : list Row :=
  let step := if step <? 2 ^ 63 then step else 2 ^ 63 - 1 in
  match List.filter (fun ir => ir.1 mod step =? 0) k with
  | [] => map snd (take 1 k)
  | picked => map snd picked
  end.

Definition chunk_digest (l : list Row) (id_col : string) (verify_sample : option f64)
    : result ChunkDigest TieringError :=
  let? k := sorted_by_id l id_col in
  match head k, last k with
  | Some (low, _), Some (high, _) =>
      let sum := sha256 (canonical_ndjson (map snd k) id_col) in
      let '(ssum, n) :=
        match verify_sample with
        | Some rate =>
            if SFltb f64_zero rate
            then let picked := pick_sample k (sample_step rate) in
                 (sha256 (canonical_ndjson picked id_col), Z.of_nat (length picked))
            else ("", 0)
        | None => ("", 0)
        end in
      Ok {| checksum := sum; sample_checksum := ssum; sample_rows := n; low_id := low; high_id := high |}
  | _, _ => Err (Cold "cannot write an empty chunk")
  end.

End Digest.

(** ** The statements *)

Section Statements.
Context `{CH : ClickhouseHttp} `{RO : !RowOrder}.

Definition CHECKSUM_TABLE : string := "ecat_tier_checksums".

Definition CHECKSUM_TABLE_DDL : string :=
  "CREATE TABLE IF NOT EXISTS ecat_tier_checksums (`table` String, `partition` String, `chunk` UInt64, `checksum` String, `sample_checksum` String, `sample_rows` UInt64, `low_id` Int64, `high_id` Int64) ENGINE = ReplacingMergeTree ORDER BY (`table`, `partition`, `chunk`)".

(** The rows between parentheses, their values in the order of the row. *)
Definition row_values (r : Row) : list Value := map snd (row_iter r).

Definition tuple_text (vs : list Value) : string := "(" +:+ String.concat ", " (map render_sql_value vs) +:+ ")".

Definition values_text (l : list (list Value)) : string := String.concat ", " (map tuple_text l).

Definition insert_sql (t : string) (l : list Row) : string :=
  "INSERT INTO `" +:+ t +:+ "` VALUES " +:+ values_text (map row_values l).

(** The first three and the last five values of a row of checksums. *)
Definition metadata_values (t p : string) (n : Z) (d : ChunkDigest) : string :=
  "(" +:+ sql_string t +:+ ", " +:+ sql_string p +:+ ", " +:+ dec_text n +:+ ", " +:+ sql_string (checksum d) +:+ ", "
    +:+ sql_string (sample_checksum d) +:+ ", " +:+ dec_text (sample_rows d) +:+ ", " +:+ int_text (low_id d)
    +:+ ", " +:+ int_text (high_id d) +:+ ")".

Definition metadata_sql (t p : string) (n : Z) (d : ChunkDigest) : string :=
  "INSERT INTO " +:+ CHECKSUM_TABLE
    +:+ " (`table`, `partition`, `chunk`, `checksum`, `sample_checksum`, `sample_rows`, `low_id`, `high_id`) VALUES "
    +:+ metadata_values t p n d.

Definition select_metadata_sql (t p : string) (n : Z) : string :=
  "SELECT `checksum`, `sample_checksum`, `sample_rows`, `low_id`, `high_id` FROM " +:+ CHECKSUM_TABLE
    +:+ " FINAL WHERE `table` = " +:+ sql_string t +:+ " AND `partition` = " +:+ sql_string p +:+ " AND `chunk` = " +:+ dec_text n.

Definition select_range_sql (t id : string) (low high : Z) : string :=
  "SELECT * FROM `" +:+ t +:+ "` FINAL WHERE `" +:+ id +:+ "` >= " +:+ int_text low +:+ " AND `" +:+ id +:+ "` <= "
    +:+ int_text high +:+ " ORDER BY `" +:+ id +:+ "` SETTINGS output_format_json_quote_64bit_integers = 0".

End Statements.

(** ** The sink *)

Fixpoint check_idents (l : list ClickhouseTable) : result unit TieringError :=
  match l with
  | [] => Ok tt
  | t :: l =>
      let? _ := validate_ident (ch_name t) in
      let? _ := validate_ident (ch_id_col t) in
      check_idents l
  end.

(** [rate_text] is the rate in the error. *)
Definition new (rate_text : f64 -> string) (tables : list ClickhouseTable) (verify_sample : option f64)
    : result ClickhouseSink TieringError :=
  let? _ := check_idents tables in
  match verify_sample with
  | Some r =>
      if negb (S3.rate_ok r) then Err (Config ("verify_sample must be in [0, 1], got " +:+ rate_text r))
      else Ok {| ch_tables := tables; ch_sample := if SFeqb r f64_zero then None else Some r |}
  | None => Ok {| ch_tables := tables; ch_sample := None |}
  end.

Section Sink.
Context `{CH : ClickhouseHttp} `{RO : !RowOrder} (sink : ClickhouseSink).

Definition table_spec (t : string) : result ClickhouseTable TieringError :=
  let? _ := validate_ident t in
  ok_or (List.find (fun s => String.eqb (ch_name s) t) (ch_tables sink))
        (Cold ("table `" +:+ t +:+ "` is not in the ClickHouse sink whitelist")).

Definition db_failed (e : RdbmsError) : TieringError := Db (SagaSql.rdbms_text e).

Definition on_server (sql : string) (w : World) : result Z TieringError * World :=
  let '(r, s) := execute sql (behind w) in
  (map_err db_failed r, {| metadata_ready := metadata_ready w; behind := s |}).

(** [OnceCell::get_or_try_init]: a failure leaves the cell empty. *)
Definition ensure_metadata_table (w : World) : result unit TieringError * World :=
  if metadata_ready w then (Ok tt, w)
  else match on_server CHECKSUM_TABLE_DDL w with
       | (Err e, w) => (Err e, w)
       | (Ok _, w) => (Ok tt, {| metadata_ready := true; behind := behind w |})
       end.

Definition prepare (t p : string) (l : list Row) : result ChunkDigest TieringError :=
  let? spec := table_spec t in
  let? _ := validate_ident p in
  chunk_digest l (ch_id_col spec) (ch_sample sink).

Definition write_chunk (w : World) (t p : string) (n : Z) (l : list Row) : result string TieringError * World :=
  match prepare t p l with
  | Err e => (Err e, w)
  | Ok d =>
      match ensure_metadata_table w with
      | (Err e, w) => (Err e, w)
      | (Ok _, w) =>
          match on_server (insert_sql t l) w with
          | (Err e, w) => (Err e, w)
          | (Ok _, w) =>
              match on_server (metadata_sql t p n d) w with
              | (Err e, w) => (Err e, w)
              | (Ok _, w) => (Ok (checksum d), w)
              end
          end
      end
  end.

Definition rows_of (sql : string) (w : World) : result (list Row) TieringError := map_err db_failed (query sql (behind w)).

Definition no_column (c : string) : TieringError := Cold ("checksum row has no `" +:+ c +:+ "`").

Definition column {A} (meta : Row) (c : string) (f : Value -> option A) : result A TieringError :=
  ok_or ((meta : gmap string Value) !! c ≫= f) (no_column c).

(** The rows of the range read back, of which the sample must be what was written. *)
Definition verify_sample (w : World) (t id : string) (step : Z) (meta : Row) : result bool TieringError :=
  let? sum := column meta "sample_checksum" as_str in
  let? n := column meta "sample_rows" json_u64 in
  let? low := column meta "low_id" json_i64 in
  let? high := column meta "high_id" json_i64 in
  let? cold := rows_of (select_range_sql t id low high) w in
  let? k := sorted_by_id cold id in
  let picked := pick_sample k step in
  if negb (Z.of_nat (length picked) =? n) then Ok false
  else Ok (String.eqb (sha256 (canonical_ndjson picked id)) sum).

Definition verify_chunk (w : World) (t p : string) (n : Z) (sum : string) : result bool TieringError :=
  let? spec := table_spec t in
  let? _ := validate_ident p in
  let? l := rows_of (select_metadata_sql t p n) w in
  match l with
  | [] => Ok false
  | meta :: _ =>
      let? stored := column meta "checksum" as_str in
      if negb (String.eqb stored sum) then Ok false
      else match ch_sample sink with
           | None => Ok true
           | Some rate => verify_sample w t (ch_id_col spec) (sample_step rate) meta
           end
  end.

Definition health_check (w : World) : result unit TieringError := let? _ := rows_of "SELECT 1" w in Ok tt.

End Sink.

#[export] Instance clickhouse_cold_sink `{CH : ClickhouseHttp} `{RO : !RowOrder} (sink : ClickhouseSink)
    : Archive.ColdSink World := {
  Archive.write_chunk := write_chunk sink;
  Archive.verify_chunk := verify_chunk sink;
}.

End Clickhouse.
