(* ===== verification/ClickSinkSpec.v ===== *)
(** * What the ClickHouse sink promises

    The text of an INSERT is read back by the server's lexer as the values that were
    rendered; the sink keeps the contract the archive job is proved against, so that a row
    that left the hot table is a row of the cold one; and a chunk that was written verifies,
    sampled or not. *)

From Stdlib Require Import Ascii.
From S2P Require Import Prelude Json Text Rdbms ShardCatalog Clock Crash TierConfig Tiering S3Sink TierSql.
From S2P Require Import TieringFacts TieringInv TieringSafe TieringSpec S3SinkSpec ClickSink.

Local Open Scope Z_scope.
Local Open Scope ecat_scope.

(** ** The values of a statement as the server reads them *)

Module ClickLexer.
Import TierSql Clickhouse.

Inductive literal := LString (s : string) | LWord (w : string).

Definition comma : ascii := ",".
Definition close : ascii := ")".
Definition open : ascii := "(".
Definition blank : ascii := " ".

(** A word ends before a comma or a parenthesis. *)
Fixpoint lex_word (s : string) : string * string :=
  match s with
  | EmptyString => (EmptyString, EmptyString)
  | String c s' =>
      if Ascii.eqb c comma || Ascii.eqb c close then (EmptyString, s)
      else let '(w, rest) := lex_word s' in (String c w, rest)
  end.

Definition lex_literal (s : string) : option (literal * string) :=
  match s with
  | String c _ =>
      if Ascii.eqb c quote then match lex_string s with Some (v, rest) => Some (LString v, rest) | None => None end
      else match lex_word s with (EmptyString, _) => None | (w, rest) => Some (LWord w, rest) end
  | EmptyString => None
  end.

(** The values of a row after its opening parenthesis. *)
Fixpoint lex_items (fuel : nat) (s : string) : option (list literal * string) :=
  match fuel with
  | O => None
  | S fuel =>
      match lex_literal s with
      | Some (x, String c rest) =>
          if Ascii.eqb c close then Some ([x], rest)
          else match rest with
               | String _ rest => match lex_items fuel rest with Some (l, rest) => Some (x :: l, rest) | None => None end
               | EmptyString => None
               end
      | _ => None
      end
  end.

Definition lex_tuple (fuel : nat) (s : string) : option (list literal * string) :=
  match s with
  | String o (String c rest as s') =>
      if negb (Ascii.eqb o open) then None
      else if Ascii.eqb c close then Some ([], rest) else lex_items fuel s'
  | _ => None
  end.

Fixpoint lex_rows (fuel : nat) (s : string) : option (list (list literal)) :=
  match fuel with
  | O => None
  | S fuel' =>
      match lex_tuple fuel s with
      | Some (x, EmptyString) => Some [x]
      | Some (x, String _ (String _ rest)) => match lex_rows fuel' rest with Some l => Some (x :: l) | None => None end
      | _ => None
      end
  end.

Definition lex_values (s : string) : option (list (list literal)) := lex_rows (S (String.length s)) s.

Fixpoint word_chars (w : string) : bool :=
  match w with EmptyString => true | String c w => negb (Ascii.eqb c comma || Ascii.eqb c close) && word_chars w end.

Definition is_word (w : string) : bool :=
  match w with EmptyString => false | String c _ => negb (Ascii.eqb c quote) && word_chars w end.

(** The text of a JSON number is a word. *)
Class NumberWords `{JN : JsonNumber} := { number_word n : is_word (number_text n) = true }.

Lemma string_cons_app c a b : String c a +:+ b = String c (a +:+ b).
Proof. done. Qed.

Lemma lex_word_app w rest :
  word_chars w = true -> match rest with String c _ => Ascii.eqb c comma || Ascii.eqb c close = true | EmptyString => True end ->
  lex_word (w +:+ rest) = (w, rest).
Proof.
  intros Hw Hr. induction w as [|c w IH].
  - change (lex_word rest = (EmptyString, rest)). destruct rest as [|c rest]; [done|]. cbn [lex_word]. by rewrite Hr.
  - cbn [word_chars] in Hw. apply andb_prop in Hw as [Hc Hw]. apply negb_true_iff in Hc.
    rewrite string_cons_app. cbn [lex_word]. rewrite Hc, IH by done. done.
Qed.

Section Lexer.
Context `{JT : JsonText} `{NW : !NumberWords}.

Definition literal_of (v : Value) : literal :=
  match v with
  | VNull => LWord "NULL"
  | VBool b => LWord (if b then "true" else "false")
  | VNumber n => LWord (number_text n)
  | VString s => LString s
  | VArray _ | VObject _ => LString (value_text v)
  end.

(** What a literal looks like in a statement. *)
Definition literal_text (x : literal) : string := match x with LString s => sql_string s | LWord w => w end.
Definition literal_ok (x : literal) : Prop := match x with LString _ => True | LWord w => is_word w = true end.

Lemma render_literal v : render_sql_value v = literal_text (literal_of v) /\ literal_ok (literal_of v).
Proof. destruct v as [|b|n|s|l|l]; cbn; split; try done; [by destruct b..|apply number_word]. Qed.

Lemma lex_literal_text x c rest :
  literal_ok x -> Ascii.eqb c comma || Ascii.eqb c close = true ->
  lex_literal (literal_text x +:+ String c rest) = Some (x, String c rest).
Proof.
  intros Hx Hc. destruct x as [s|w]; cbn [literal_text].
  - unfold sql_string at 1. rewrite string_cons_app. cbn [lex_literal]. rewrite Ascii.eqb_refl.
    change (String quote ((escape s +:+ String quote EmptyString) +:+ String c rest)) with (sql_string s +:+ String c rest).
    by rewrite sql_string_roundtrip.
  - destruct w as [|d w]; [done|]. cbn [literal_ok is_word] in Hx. apply andb_prop in Hx as [Hq Hw]. apply negb_true_iff in Hq.
    pose proof (lex_word_app (String d w) (String c rest) Hw Hc) as Hl. rewrite string_cons_app in *. cbn [lex_literal]. by rewrite Hq, Hl.
Qed.

Definition items_text (l : list literal) : string := String.concat ", " (map literal_text l).

Lemma items_cons x y l : items_text (x :: y :: l) = literal_text x +:+ String comma (String blank (items_text (y :: l))).
Proof. done. Qed.

Lemma lex_items_text l x fuel rest :
  Forall literal_ok (x :: l) -> (length l < fuel)%nat ->
  lex_items fuel (items_text (x :: l) +:+ String close rest) = Some (x :: l, rest).
Proof.
  revert x fuel. induction l as [|y l IH]; intros x fuel Hf Hn; (destruct fuel as [|fuel]; [lia|]); apply Forall_cons in Hf as [Hx Hf].
  - change (items_text [x]) with (literal_text x). cbn [lex_items]. by rewrite lex_literal_text.
  - rewrite items_cons, append_assoc, !string_cons_app. cbn [lex_items]. rewrite lex_literal_text by done.
    change (Ascii.eqb comma close) with false. cbv iota. rewrite IH; [done|done|]. cbn [length] in Hn. lia.
Qed.

Definition tuple_of (l : list literal) : string := String open (items_text l +:+ String close EmptyString).

Lemma lex_tuple_text l fuel rest :
  Forall literal_ok l -> (length l < fuel)%nat -> lex_tuple fuel (tuple_of l +:+ rest) = Some (l, rest).
Proof.
  intros Hl Hn. unfold tuple_of. rewrite string_cons_app, append_assoc, string_cons_app. destruct l as [|x l].
  - reflexivity.
  - assert (Hc : exists c s, items_text (x :: l) = String c s /\ Ascii.eqb c close = false).
    { apply Forall_cons in Hl as [Hx _].
      assert (H1 : exists c s, literal_text x = String c s /\ Ascii.eqb c close = false).
      { destruct x as [s|[|c w]]; [by eexists _, _|done|]. exists c, w. split; [done|]. cbn in Hx.
        apply andb_prop in Hx as [_ [Hx _]%andb_prop]. apply negb_true_iff, orb_false_iff in Hx. tauto. }
      destruct H1 as (c & s & Hs & Hc). destruct l as [|y l].
      - exists c, s. by split.
      - exists c. eexists. rewrite items_cons, Hs. split; [reflexivity|done]. }
    destruct Hc as (c & s & Hs & Hc). pose proof (lex_items_text l x fuel rest Hl) as Hi. rewrite Hs in *. rewrite string_cons_app in *.
    cbn [lex_tuple]. rewrite Ascii.eqb_refl. cbn [negb]. rewrite Hc. change (EmptyString +:+ rest) with rest. apply Hi. cbn [length] in Hn. lia.
Qed.

Lemma literal_length x : literal_ok x -> (1 <= String.length (literal_text x))%nat.
Proof. destruct x as [s|[|c w]]; cbn; [lia|done|lia]. Qed.

Lemma items_length l : Forall literal_ok l -> (length l <= String.length (items_text l))%nat.
Proof.
  induction 1 as [|x l Hx Hl IH]; [done|]. apply literal_length in Hx. destruct l as [|y l]; [cbn in *; lia|].
  rewrite items_cons, length_sapp. cbn [String.length length] in *. lia.
Qed.

Lemma tuple_length l : Forall literal_ok l -> (length l + 2 <= String.length (tuple_of l))%nat.
Proof. intros Hi%items_length. unfold tuple_of. cbn [String.length]. rewrite length_sapp. cbn [String.length]. lia. Qed.

Definition rows_text (l : list (list literal)) : string := String.concat ", " (map tuple_of l).

Lemma lex_rows_text l x fuel :
  Forall (Forall literal_ok) (x :: l) -> (String.length (rows_text (x :: l)) < fuel)%nat ->
  lex_rows fuel (rows_text (x :: l)) = Some (x :: l).
Proof.
  revert x fuel. induction l as [|y l IH]; intros x fuel Hf Hn; (destruct fuel as [|fuel]; [lia|]); apply Forall_cons in Hf as [Hx Hf];
    pose proof (tuple_length x Hx) as Hlen; cbn [lex_rows].
  - change (rows_text [x]) with (tuple_of x) in *. pose proof (lex_tuple_text x (S fuel) EmptyString Hx) as Ht.
    rewrite append_nil_r in Ht. rewrite Ht by lia. done.
  - change (rows_text (x :: y :: l)) with (tuple_of x +:+ String comma (String blank (rows_text (y :: l)))) in *.
    rewrite length_sapp in Hn. cbn [String.length] in Hn. rewrite lex_tuple_text by (done || lia). rewrite IH; [done|done|lia].
Qed.

(** The rows rendered into an INSERT are read back value by value, whatever is in them. *)
Theorem insert_text_is_unambiguous (l : list (list Value)) :
  l <> [] -> lex_values (values_text l) = Some (map (map literal_of) l).
Proof.
  intros Hne. assert (Ht : forall vs, tuple_text vs = tuple_of (map literal_of vs)).
  { intros vs. unfold tuple_text, tuple_of, items_text. rewrite map_map. do 3 f_equal. apply map_ext. intros v. apply render_literal. }
  assert (Hr : values_text l = rows_text (map (map literal_of) l)).
  { unfold values_text, rows_text. rewrite map_map. f_equal. by apply map_ext. }
  unfold lex_values. rewrite Hr. destruct l as [|vs l]; [done|]. cbn [map]. apply lex_rows_text; [|lia].
  apply Forall_forall. intros y Hy. apply (list_elem_of_fmap (map literal_of) (vs :: l)) in Hy as (ws & -> & _).
  apply Forall_forall. intros x Hx. apply list_elem_of_fmap in Hx as (v & -> & _). apply render_literal.
Qed.

End Lexer.
End ClickLexer.

(** ** The server

    Documented behaviour of the statements the sink sends.  [cold_row] are the rows a
    SELECT .. FINAL of a table can give; a row may be replaced by an inserted one with the
    same sorting key ([ReplacingMergeTree]), never lost.  [same_key] is equality for an engine that
    replaces nothing.  [read_row] is how the columns of a table take the values of a row, by
    position.  [meta] is the row of checksums of a chunk, as it was inserted. *)

Module ClickFacts.
Import TierConfig Rdbms TierSql Clickhouse ClickLexer.

Definition shown `{JT : JsonText} (x : literal) (v : Value) : Prop :=
  match x with LString s => v = VString s | LWord w => (exists n, v = VNumber n /\ number_text n = w) \/ v = VString w end.

Definition METADATA_COLUMNS : list string := ["checksum"; "sample_checksum"; "sample_rows"; "low_id"; "high_id"].

(** An INSERT of the rows of checksums names its columns. *)
Definition metadata_prefix : string :=
  "INSERT INTO " +:+ CHECKSUM_TABLE
    +:+ " (`table`, `partition`, `chunk`, `checksum`, `sample_checksum`, `sample_rows`, `low_id`, `high_id`) VALUES ".

Class ClickhouseLaw `{CH : ClickhouseHttp} := {
  cold_row : server -> string -> Row -> Prop;
  same_key : string -> Row -> Row -> Prop;
  same_key_equiv t : PreOrder (same_key t);
  read_row : string -> list literal -> Row;
  meta : server -> string * string * string -> option (list literal);
  ddl_law s r s' : execute CHECKSUM_TABLE_DDL s = (r, s') ->
    (forall k, meta s' k = meta s k) /\ (forall t q, cold_row s t q -> cold_row s' t q);
  insert_law s t text rows r s' :
    validate_ident t = Ok tt -> t <> CHECKSUM_TABLE -> lex_values text = Some rows ->
    execute ("INSERT INTO `" +:+ t +:+ "` VALUES " +:+ text) s = (r, s') ->
    (forall k, meta s' k = meta s k) /\
    (forall u q, cold_row s u q -> cold_row s' u q \/
       u = t /\ exists vs, vs ∈ rows /\ cold_row s' t (read_row t vs) /\ same_key t q (read_row t vs)) /\
    (is_ok r = true -> forall vs, vs ∈ rows ->
       exists vs', vs' ∈ rows /\ cold_row s' t (read_row t vs') /\ same_key t (read_row t vs) (read_row t vs'));
  metadata_law s text t p n fields r s' :
    lex_values text = Some [LString t :: LString p :: LWord n :: fields] ->
    execute (metadata_prefix +:+ text) s = (r, s') ->
    (forall u q, cold_row s u q -> cold_row s' u q) /\
    (forall k, meta s' k = meta s k \/ k = (t, p, n) /\ meta s' k = Some fields) /\
    (is_ok r = true -> meta s' (t, p, n) = Some fields);
  select_law s t p n l :
    query (select_metadata_sql t p n) s = Ok l ->
    match meta s (t, p, dec_text n) with
    | None => l = []
    | Some fields => exists row rest, l = row :: rest /\
        Forall2 (fun c x => exists v, (row : gmap string Value) !! c = Some v /\ shown x v) METADATA_COLUMNS fields
    end;
}.

#[export] Existing Instance same_key_equiv.

(** A number is printed as a word, and read as the integer whose text it has. *)
Class NumberLaw `{CH : ClickhouseHttp} `{NW : !NumberWords} := {
  printed_i64 n z : number_text n = int_text z -> in_i64 z -> number_as_i64 n = Some z;
  printed_u64 n z : number_text n = dec_text z -> in_u64 z -> value_as_u64 n = Some z;
}.

Section Numbers.

Lemma dec_word z : is_word (dec_text z) = true.
Proof.
  unfold dec_text. set (d := N.to_uint (Z.to_N z)). assert (Hd : d <> Decimal.Nil) by apply to_uint_nonnil.
  assert (Hw : forall d, word_chars (DecimalString.NilEmpty.string_of_uint d) = true) by (clear; induction d; cbn; auto).
  destruct d; cbn; [done|apply Hw..].
Qed.

Lemma int_word z : is_word (int_text z) = true.
Proof.
  unfold int_text. destruct (z <? 0); [|apply dec_word]. pose proof (dec_word (- z)) as Hw.
  destruct (dec_text (- z)) as [|c s]; [done|]. cbn [is_word] in Hw. by apply andb_prop in Hw as [_ Hw].
Qed.

Lemma parse_int_text z : in_i64 z -> S3.parse_i64 (int_text z) = Some z.
Proof.
  unfold in_i64, int_text. intros Hz. destruct (Z.ltb_spec z 0) as [Hn|Hn].
  - assert (Hp : parse_uint 64 (dec_text (- z)) = Some (- z)) by (apply parse_dec_text; lia).
    change (match dec_text (- z) with
            | String "+" _ => None
            | _ => match parse_uint 64 (dec_text (- z)) with Some n => if n <=? 2 ^ 63 then Some (- n) else None | None => None end
            end = Some z).
    rewrite Hp. replace (- z <=? 2 ^ 63) with true by lia. rewrite Z.opp_involutive.
    destruct (dec_text (- z)) as [|c s] eqn:E; [done|]. destruct (Ascii.ascii_dec c "+") as [->|Hc].
    + unfold dec_text in E. by apply string_of_uint_no_plus in E.
    + by repeat (destruct c as [[] [] [] [] [] [] [] []]; try done).
  - assert (Hp : parse_uint 64 (dec_text z) = Some z) by (apply parse_dec_text; lia).
    destruct (dec_text z) as [|c s] eqn:E; [done|]. unfold S3.parse_i64.
    assert (Hc : Ascii.eqb c "-" = false).
    { unfold dec_text in E. clear -E. by destruct (N.to_uint (Z.to_N z)); cbn in E; injection E as <- _. }
    rewrite Hc, Hp. by replace (z <? 2 ^ 63) with true by lia.
Qed.

Context `{CH : ClickhouseHttp} `{NW : !NumberWords} `{NL : !NumberLaw}.

Lemma shown_i64 z v : in_i64 z -> shown (LWord (int_text z)) v -> json_i64 v = Some z.
Proof. intros Hz [(n & -> & Hn)| ->]; [by apply printed_i64|by apply parse_int_text]. Qed.

Lemma shown_u64 z v : in_u64 z -> shown (LWord (dec_text z)) v -> json_u64 v = Some z.
Proof. intros Hz [(n & -> & Hn)| ->]; [by apply printed_u64|by apply parse_dec_text]. Qed.

End Numbers.

Section Sink.
Context `{CH : ClickhouseHttp} `{RO : !RowOrder} `{NW : !NumberWords} `{CL : !ClickhouseLaw}.
Context (sink : ClickhouseSink).

(** The table of the checksums is none of the cold tables. *)
Context (apart : Forall (fun t => ch_name t <> CHECKSUM_TABLE) (ch_tables sink)).

(** ** What the rows of a chunk become *)

Definition ordered (id : string) (l : list Row) : list (Z * Row) :=
  sort_by key_le (map (fun r => (default 0 (row_id id r), r)) l).

Lemma keyed_rows_ok id (l : list Row) k :
  keyed id l = Ok k -> k = map (fun r => (default 0 (row_id id r), r)) l /\ Forall (fun r => is_Some (row_id id r)) l.
Proof.
  revert k. induction l as [|r l IH]; intros k; cbn [keyed]; [intros; simplify_eq; by split|].
  destruct (row_id id r) as [i|] eqn:Hi; [|done]. cbn [ok_or rbind].
  destruct (keyed id l) as [k'|]; [|done]. cbn [rbind]. intros [= <-]. destruct (IH _ eq_refl) as [-> Hl].
  split; [by cbn [map]; rewrite Hi|by constructor].
Qed.

Lemma sorted_by_id_ok id (l : list Row) k :
  sorted_by_id l id = Ok k -> k = ordered id l /\ Forall (fun r => is_Some (row_id id r)) l.
Proof. unfold sorted_by_id. intros (k0 & Hk & [= <-])%rbind_ok. apply keyed_rows_ok in Hk as [-> Hl]. by split. Qed.

Lemma chunk_digest_ok (l : list Row) id rate d :
  chunk_digest l id rate = Ok d ->
  checksum d = sha256 (canonical_ndjson (map snd (ordered id l)) id) /\ l <> [] /\ Forall (fun r => is_Some (row_id id r)) l.
Proof.
  unfold chunk_digest. intros (k & Hk & Hd)%rbind_ok. apply sorted_by_id_ok in Hk as [-> Hl].
  destruct (head _) as [[low r0]|] eqn:Eh; [|done]. destruct (last _) as [[high r1]|]; [|done].
  split; [|split; [|done]]; [|by intros ->]. destruct rate as [rate|]; [destruct (SFltb f64_zero rate)|]; by injection Hd as <-.
Qed.

Lemma table_spec_ok t spec :
  table_spec sink t = Ok spec -> validate_ident t = Ok tt /\ t <> CHECKSUM_TABLE /\ ch_name spec = t.
Proof.
  unfold table_spec. intros ([] & Hv & Hf)%rbind_ok. split; [done|]. destruct (List.find _ _) as [s|] eqn:E; [|done].
  injection Hf as ->. apply find_some in E as [Hin Hn]. apply String.eqb_eq in Hn. split; [|done].
  rewrite Forall_forall in apart. rewrite <- Hn. apply apart, list_elem_of_In, Hin.
Qed.

(** ** The chunks the server holds *)

Definition placed (t : string) (r : Row) : Row := read_row t (map literal_of (row_values r)).

(** The cold table has every row of [l], or one that replaced it; both are among the rows
    [g] the sink was given to write. *)
Definition present (g : list (string * Row)) (s : server) (t : string) (l : list Row) : Prop :=
  forall r, r ∈ l -> (t, r) ∈ g /\
    exists r', (t, r') ∈ g /\ cold_row s t (placed t r') /\ same_key t (placed t r) (placed t r').

Definition digest_of (t : string) (l : list Row) : string :=
  match table_spec sink t with
  | Ok spec => sha256 (canonical_ndjson (map snd (ordered (ch_id_col spec) l)) (ch_id_col spec))
  | Err _ => ""
  end.

(** The row of checksums of a chunk is of rows that the table has. *)
Definition sound (g : list (string * Row)) (s : server) : Prop :=
  forall t p n fields spec, table_spec sink t = Ok spec -> meta s (t, p, n) = Some fields ->
  exists rest l, fields = LString (digest_of t l) :: rest /\ present g s t l.

(** No row is lost from [s] to [s'], but rows of [g] may replace some. *)
Definition keeps_rows (g : list (string * Row)) (s s' : server) : Prop :=
  forall u q, cold_row s u q -> cold_row s' u q \/
    exists r, (u, r) ∈ g /\ cold_row s' u (placed u r) /\ same_key u q (placed u r).

Lemma present_later g g' s s' t l :
  g ⊆ g' -> keeps_rows g' s s' -> present g s t l -> present g' s' t l.
Proof.
  intros Hg Hs Hp r Hr. destruct (Hp r Hr) as (Hrg & r' & Hr' & Hq & Hk). split; [by apply Hg|].
  destruct (Hs t _ Hq) as [Hq'|(r2 & Hr2 & Hq2 & Hk2)].
  - exists r'. split_and!; [by apply Hg|done|done].
  - exists r2. split_and!; [done|done|by etransitivity].
Qed.

Lemma kept_as_it_is g (s s' : server) :
  (forall u q, cold_row s u q -> cold_row s' u q) -> keeps_rows g s s'.
Proof. intros Hs u q Hq. left. by apply Hs. Qed.

Lemma ddl_step w r w' :
  ensure_metadata_table w = (r, w') ->
  (forall k, meta (behind w') k = meta (behind w) k) /\ (forall t q, cold_row (behind w) t q -> cold_row (behind w') t q).
Proof.
  unfold ensure_metadata_table, on_server. destruct (metadata_ready w); [by intros [= <- <-]|].
  destruct (execute _ _) as [r0 s0] eqn:E. apply ddl_law in E. destruct r0; cbn [map_err]; by intros [= <- <-].
Qed.

Lemma metadata_lexed t p n d :
  lex_values (metadata_values t p n d) =
    Some [[LString t; LString p; LWord (dec_text n); LString (checksum d); LString (sample_checksum d);
           LWord (dec_text (sample_rows d)); LWord (int_text (low_id d)); LWord (int_text (high_id d))]].
Proof.
  set (ls := [LString t; _; _; _; _; _; _; _]). unfold lex_values.
  assert (Ht : metadata_values t p n d = rows_text [ls]).
  { unfold metadata_values, rows_text, ls. cbn [map String.concat]. unfold tuple_of, items_text. cbn [map String.concat literal_text].
    by rewrite !append_assoc. }
  rewrite Ht. apply lex_rows_text; [|lia]. constructor; [|constructor].
  repeat (constructor; [first [exact I|apply dec_word|apply int_word]|]). constructor.
Qed.

(** The checksums of no chunk change, and no row is lost: so what they are of is still there. *)
Lemma sound_kept g g' s s' :
  g ⊆ g' -> (forall k, meta s' k = meta s k) -> keeps_rows g' s s' -> sound g s -> sound g' s'.
Proof.
  intros Hg Hm Hr Hs t p n fields spec Ht Hf. rewrite Hm in Hf. destruct (Hs _ _ _ _ _ Ht Hf) as (rest & l & -> & Hl).
  exists rest, l. split; [done|]. by eapply present_later.
Qed.

(** The rows given to the sink after a write. *)
Definition given (g : list (string * Row)) (t : string) (l : list Row) : list (string * Row) := g ++ map (pair t) l.

Lemma given_before g t l : g ⊆ given g t l.
Proof. intros x Hx. apply elem_of_app. by left. Qed.

Lemma given_now g t l r : r ∈ l -> (t, r) ∈ given g t l.
Proof. intros Hr. apply elem_of_app. right. apply list_elem_of_fmap. by exists r. Qed.

Lemma insert_step g t l s r s' :
  validate_ident t = Ok tt -> t <> CHECKSUM_TABLE -> l <> [] -> execute (insert_sql t l) s = (r, s') ->
  (forall k, meta s' k = meta s k) /\ keeps_rows (given g t l) s s' /\
  (is_ok r = true -> present (given g t l) s' t l).
Proof.
  intros Ht Hc Hl He. eapply insert_law in He; [|done|done|apply insert_text_is_unambiguous; by destruct l].
  destruct He as (Hm & Hr & Hp). rewrite map_map in Hr, Hp. split_and!; [done|..].
  - intros u q Hq. destruct (Hr u q Hq) as [Hq'|(-> & vs & Hvs & Hq' & Hk)]; [by left|right].
    apply list_elem_of_fmap in Hvs as (r' & -> & Hr'). exists r'. split_and!; [by apply given_now|done|done].
  - intros Hok q Hq. split; [by apply given_now|].
    destruct (Hp Hok (map literal_of (row_values q))) as (vs & Hvs & Hq' & Hk); [apply list_elem_of_fmap; by exists q|].
    apply list_elem_of_fmap in Hvs as (r' & -> & Hr'). exists r'. split_and!; [by apply given_now|done|done].
Qed.

Lemma metadata_step g t p n d s r s' l :
  digest_of t l = checksum d -> present g s t l -> sound g s -> execute (metadata_sql t p n d) s = (r, s') -> sound g s'.
Proof.
  intros Hd Hp Hs He. change (metadata_sql t p n d) with (metadata_prefix +:+ metadata_values t p n d) in He.
  eapply metadata_law in He; [|apply metadata_lexed]. destruct He as (Hr & Hm & _). pose proof (kept_as_it_is g s s' Hr) as Hk.
  intros u p0 n0 fields spec Hspec Hf. destruct (Hm (u, p0, n0)) as [E|[E Hnew]].
  - rewrite E in Hf. destruct (Hs _ _ _ _ _ Hspec Hf) as (rest & l0 & -> & Hl0). exists rest, l0. split; [done|]. by eapply present_later.
  - injection E as -> -> ->. rewrite Hnew in Hf. injection Hf as <-. rewrite <- Hd. eexists _, l. split; [reflexivity|]. by eapply present_later.
Qed.

(** A write, however it ends, loses no row and leaves sound rows of checksums. *)
Lemma write_step g w t p n l r w' :
  write_chunk sink w t p n l = (r, w') ->
  (sound g (behind w) -> sound (given g t l) (behind w')) /\
  (forall u l0, present g (behind w) u l0 -> present (given g t l) (behind w') u l0).
Proof.
  intros Hw. pose proof (given_before g t l) as Hg. assert (Hgg : given g t l ⊆ given g t l) by done.
  assert (Hsame : forall s, keeps_rows (given g t l) s s) by (intros s; by apply kept_as_it_is).
  unfold write_chunk in Hw. destruct (prepare sink t p l) as [d|e] eqn:Hp.
  2: { injection Hw as <- <-. split; [by apply sound_kept|intros u l0; by apply present_later]. }
  unfold prepare in Hp. apply rbind_ok in Hp as (spec & Hspec & ([] & _ & Hd)%rbind_ok).
  apply chunk_digest_ok in Hd as (Hsum & Hne & _). pose proof (table_spec_ok t spec Hspec) as (Hv & Hc & _).
  assert (Hdig : digest_of t l = checksum d) by (unfold digest_of; by rewrite Hspec).
  destruct (ensure_metadata_table w) as [r0 w0] eqn:E0. pose proof (ddl_step w r0 w0 E0) as [Hm0 Hr0].
  pose proof (kept_as_it_is (given g t l) _ _ Hr0) as Hk0.
  destruct r0 as [[]|e].
  2: { injection Hw as <- <-. split; [by apply sound_kept|intros u l0; by apply present_later]. }
  unfold on_server in Hw. destruct (execute (insert_sql t l) (behind w0)) as [r1 s1] eqn:E1.
  pose proof (insert_step g t l _ _ _ Hv Hc Hne E1) as (Hm1 & Hk1 & Hp1).
  assert (Hs1 : sound g (behind w) -> sound (given g t l) s1).
  { intros Hs. apply (sound_kept (given g t l) _ (behind w0)); [done..|]. by apply (sound_kept g _ (behind w)). }
  assert (Hl1 : forall u l0, present g (behind w) u l0 -> present (given g t l) s1 u l0).
  { intros u l0 Hl0. apply (present_later (given g t l) _ (behind w0)); [done..|]. by apply (present_later g _ (behind w)). }
  destruct r1 as [x|e]; cbn [map_err] in Hw; [|by injection Hw as <- <-]. cbn [behind] in Hw.
  destruct (execute (metadata_sql t p n d) s1) as [r2 s2] eqn:E2.
  assert (Hs2 : sound g (behind w) -> sound (given g t l) s2).
  { intros Hs. apply (metadata_step _ t p n d s1 r2 s2 l Hdig); [by apply Hp1|by apply Hs1|done]. }
  change (metadata_sql t p n d) with (metadata_prefix +:+ metadata_values t p n d) in E2.
  eapply metadata_law in E2; [|apply metadata_lexed]. destruct E2 as (Hr2 & _).
  assert (Hl2 : forall u l0, present g (behind w) u l0 -> present (given g t l) s2 u l0).
  { intros u l0 Hl0. apply (present_later (given g t l) _ s1); [done|by apply kept_as_it_is|by apply Hl1]. }
  by destruct r2; cbn [map_err] in Hw; injection Hw as <- <-.
Qed.

Lemma written_digest w t p n l s w' : write_chunk sink w t p n l = (Ok s, w') -> s = digest_of t l.
Proof.
  unfold write_chunk. destruct (prepare sink t p l) as [d|e] eqn:Hp; [|done].
  unfold prepare in Hp. apply rbind_ok in Hp as (spec & Hspec & ([] & _ & Hd)%rbind_ok). apply chunk_digest_ok in Hd as (Hsum & _).
  destruct (ensure_metadata_table w) as [[[]|e] w0]; [|done]. destruct (on_server _ w0) as [[x|e] w1]; [|done].
  destruct (on_server _ w1) as [[y|e] w2]; [|done]. intros [= <- <-]. unfold digest_of. by rewrite Hspec.
Qed.

Lemma verified_present g w t p n l :
  sound g (behind w) -> verify_chunk sink w t p n (digest_of t l) = Ok true ->
  exists spec l', table_spec sink t = Ok spec /\ digest_of t l' = digest_of t l /\ present g (behind w) t l'.
Proof.
  intros Hs Hv. unfold verify_chunk in Hv. apply rbind_ok in Hv as (spec & Hspec & ([] & _ & (rows & Hq & Hv)%rbind_ok)%rbind_ok).
  destruct rows as [|row rest]; [done|]. apply rbind_ok in Hv as (stored & Hst & Hv).
  unfold rows_of in Hq. destruct (query _ _) as [q|e] eqn:Eq; [|done]. injection Hq as ->. apply select_law in Eq.
  destruct (meta (behind w) (t, p, dec_text n)) as [fields|] eqn:Em; [|done].
  destruct Eq as (row0 & rest0 & [= <- <-] & Hf). destruct (Hs _ _ _ _ _ Hspec Em) as (rest1 & l' & -> & Hp).
  apply Forall2_cons in Hf as [(v & Hrow & Hv') _]. cbn [shown] in Hv'. subst v.
  unfold column in Hst. rewrite Hrow in Hst. injection Hst as <-.
  destruct (String.eqb_spec (digest_of t l') (digest_of t l)) as [He|]; [|done]. by exists spec, l'.
Qed.

(** A sink with a server on which every row of checksums is of rows that are there, and
    the rows it was given to write. *)
Record Kept := { world : World; sent : list (string * Row); kept : sound sent (behind world) }.

Definition kept_write (k : Kept) (t p : string) (n : Z) (l : list Row) : result string TieringError * Kept :=
  let out := write_chunk sink (world k) t p n l in
  (out.1, {| world := out.2; sent := given (sent k) t l;
             kept := proj1 (write_step (sent k) (world k) t p n l out.1 out.2 (surjective_pairing out)) (kept k) |}).

#[export] Instance kept_sink : Archive.ColdSink Kept := {
  Archive.write_chunk := kept_write;
  Archive.verify_chunk k := verify_chunk sink (world k);
}.

Definition in_table (k : Kept) (t p : string) (n : Z) (l : list Row) : Prop :=
  exists spec l', table_spec sink t = Ok spec /\ digest_of t l' = digest_of t l /\ present (sent k) (behind (world k)) t l'.

#[export] Instance clickhouse_law : ColdLaw Kept.
Proof.
  refine {| digest := digest_of; holds := in_table |}.
  - intros k t p n l s k' Hw. apply (written_digest (world k) t p n l s (world k')). change (kept_write k t p n l = (Ok s, k')) in Hw.
    unfold kept_write in Hw. injection Hw as Hr <-. cbn [world]. destruct (write_chunk sink (world k) t p n l). cbn in *. by subst.
  - intros k t p n l r k' t' p' n' l' Hw _ (spec & l0 & Hs & Hd & Hp). exists spec, l0. split; [done|]. split; [done|].
    change (kept_write k t p n l = (r, k')) in Hw. unfold kept_write in Hw. injection Hw as _ <-. cbn [world sent].
    by apply (write_step _ _ _ _ _ _ _ _ (surjective_pairing (write_chunk sink (world k) t p n l))).
  - intros k t p n l. apply verified_present, kept.
Defined.

End Sink.
End ClickFacts.

Module ClickSpec.
Import TierConfig Rdbms TierSql Clickhouse ClickLexer ClickFacts.

(** The JSON text of a value has no line break. *)
Class PlainJson `{JT : JsonText} := { plain_json v : S3Facts.plain (value_text v) = true }.

Section Text.
Context `{CH : ClickhouseHttp} `{PJ : !PlainJson}.

Lemma plain_app a b : S3Facts.plain (a +:+ b) = S3Facts.plain a && S3Facts.plain b.
Proof.
  induction a as [|c a IH]; [done|]. rewrite string_cons_app. cbn [S3Facts.plain]. by rewrite IH, andb_assoc.
Qed.

Lemma plain_concat sep l :
  S3Facts.plain sep = true -> Forall (fun s => S3Facts.plain s = true) l -> S3Facts.plain (String.concat sep l) = true.
Proof.
  intros Hsep Hl. induction Hl as [|x l Hx Hl IH]; [done|]. destruct l as [|y l]; [done|].
  change (S3Facts.plain (x +:+ sep +:+ String.concat sep (y :: l)) = true). by rewrite !plain_app, Hx, Hsep, IH.
Qed.

Lemma plain_dec z : S3Facts.plain (dec_text z) = true.
Proof.
  unfold dec_text. assert (Hd : forall d, S3Facts.plain (DecimalString.NilEmpty.string_of_uint d) = true) by (induction d; cbn; auto).
  destruct (N.to_uint (Z.to_N z)); [done|apply Hd..].
Qed.

Lemma plain_int z : S3Facts.plain (int_text z) = true.
Proof. unfold int_text. destruct (z <? 0); [rewrite plain_app, plain_dec; done|apply plain_dec]. Qed.

Lemma plain_row id r : S3Facts.plain (canonical_row id r) = true.
Proof.
  unfold canonical_row. rewrite !plain_app. rewrite (plain_concat ","); [done|done|]. apply Forall_forall.
  intros s ([c v] & -> & _)%list_elem_of_fmap. unfold member_text. rewrite !plain_app, plain_json. cbn [fst snd andb].
  change (S3Facts.plain ":") with true. unfold canonical_json_value. destruct v; try apply plain_json.
  destruct (String.eqb c id); [|apply plain_json]. destruct (json_i64 _); [apply plain_int|apply plain_json].
Qed.

(** The text of a chunk determines the texts of its rows. *)
Lemma same_ndjson id l l' :
  canonical_ndjson l id = canonical_ndjson l' id -> map (canonical_row id) l = map (canonical_row id) l'.
Proof.
  intros He. unfold canonical_ndjson in He. apply (f_equal S3.lines) in He.
  assert (Hp : forall l, Forall (fun s => S3Facts.plain s = true) (map (canonical_row id) l)).
  { intros l0. apply Forall_forall. intros s (r & -> & _)%list_elem_of_fmap. apply plain_row. }
  by rewrite !S3Facts.lines_join in He by apply Hp.
Qed.

Lemma ordered_rows id (l : list Row) r : r ∈ map snd (ordered id l) <-> r ∈ l.
Proof.
  unfold ordered. rewrite list_elem_of_fmap. split.
  - intros ([i r'] & -> & Hin). rewrite sort_by_perm in Hin. apply list_elem_of_fmap in Hin as (r & [= -> ->] & Hr). done.
  - intros Hr. exists (default 0 (row_id id r), r). split; [done|]. rewrite sort_by_perm. apply list_elem_of_fmap. by exists r.
Qed.

End Text.

Section Archive.
Context `{CH : ClickhouseHttp} `{RO : !RowOrder} `{NW : !NumberWords} `{CL : !ClickhouseLaw} `{PJ : !PlainJson}.
Context {ST : Archive.SqlTerms} {L : Type} `{LK : !Archive.Lock L}.
Context (sink : ClickhouseSink) (apart : Forall (fun t => ch_name t <> CHECKSUM_TABLE) (ch_tables sink)).

Local Abbreviation K := (Kept sink).
Local Abbreviation wrld := (Archive.world (C:=K) (L:=L)).

(** C35. The job on ClickHouse: through any number of runs that fail or die, a row of a
    partition is still in the hot table, or the cold table has a row that a SELECT .. FINAL
    gives and that is a row the job sent with the canonical JSON of this one.  A
    [ReplacingMergeTree] keeps one of the rows that share a sorting key, so this takes that
    rows sent to a cold table under one sorting key have one canonical JSON; without it the
    row may be replaced by another under its key.  Two texts with one SHA-256 are a way out
    which the theorem cannot exclude.  As for the job itself, rows may arrive meanwhile only
    as [punctual] says: not in a partition with a chunk that is only seeded, nor between the
    count of a partition and its drop; and rows of the hot table are not changed or deleted
    by others. *)
Theorem archive_to_clickhouse_loses_no_row c (w0 w w' : wrld) t p m k r :
  let run := TieringRuns.attempt (CS:=kept_sink sink apart) c in
  NoDup (map name (tables c)) -> TieringRuns.fresh c w0 -> TieringInv.punctual (Archive.env w0) ->
  rtc run w0 w -> rtc run w w' ->
  (forall spec a b, table_spec sink (name t) = Ok spec ->
     (name t, a) ∈ sent sink (Archive.cold w') -> (name t, b) ∈ sent sink (Archive.cold w') ->
     same_key (name t) (placed (name t) a) (placed (name t) b) ->
     canonical_row (ch_id_col spec) a = canonical_row (ch_id_col spec) b) ->
  t ∈ tables c -> Archive.hot w !! (name t, p) = Some m -> m !! k = Some r ->
  (exists m', Archive.hot w' !! (name t, p) = Some m' /\ m' !! k = Some r) \/
  (exists spec r', table_spec sink (name t) = Ok spec /\ (name t, r') ∈ sent sink (Archive.cold w') /\
     canonical_row (ch_id_col spec) r' = canonical_row (ch_id_col spec) r /\
     cold_row (behind (world sink (Archive.cold w'))) (name t) (placed (name t) r')) \/
  (exists a b, a <> b /\ sha256 a = sha256 b).
Proof.
  cbv zeta. intros Hn Hf Hpu H0 H1 Huniq Ht Hm Hr.
  destruct (TieringRuns.no_row_lost (CS:=kept_sink sink apart) (CL:=clickhouse_law sink apart) c w0 w w' t p m k r Hn Hf Hpu H0 H1 Ht Hm Hr)
    as [Hl|(n & j & l & _ & _ & _ & (spec & l' & Hs & Hd & Hp) & Hin)]; [by left|]. right.
  unfold digest_of in Hd. rewrite Hs in Hd.
  destruct (decide (canonical_ndjson (map snd (ordered (ch_id_col spec) l')) (ch_id_col spec) =
                    canonical_ndjson (map snd (ordered (ch_id_col spec) l)) (ch_id_col spec))) as [He|Hne]; [left|right; by eexists _, _].
  apply same_ndjson in He. assert (Hrow : canonical_row (ch_id_col spec) r ∈ map (canonical_row (ch_id_col spec)) (map snd (ordered (ch_id_col spec) l'))).
  { rewrite He. apply list_elem_of_fmap. exists r. split; [done|]. by apply ordered_rows. }
  apply list_elem_of_fmap in Hrow as (r' & Hcan & Hr'). apply ordered_rows in Hr'. destruct (Hp r' Hr') as (Hg & r2 & Hg2 & Hq & Hk).
  exists spec, r2. split_and!; [done|done| |done]. rewrite Hcan. symmetry. by apply (Huniq spec).
Qed.

End Archive.

(** ** Reading back *)

Section Readback.
Context `{CH : ClickhouseHttp} (id : string).

(** The same row for the checksum. *)
Definition alike (a b : Z * Row) : Prop := a.1 = b.1 /\ canonical_row id a.2 = canonical_row id b.2.

Lemma alike_filter k k' (f : Z -> bool) :
  Forall2 alike k k' -> Forall2 alike (List.filter (fun ir => f ir.1) k) (List.filter (fun ir => f ir.1) k').
Proof.
  induction 1 as [|a b k k' Hab Hk IH]; [constructor|]. cbn [List.filter]. destruct Hab as [He Hc]. rewrite He.
  destruct (f b.1); [by constructor|done].
Qed.

Lemma alike_texts k k' :
  Forall2 alike k k' -> length k = length k' /\ canonical_ndjson (map snd k) id = canonical_ndjson (map snd k') id.
Proof.
  intros Hk. split; [by eapply Forall2_length|]. unfold canonical_ndjson. f_equal.
  induction Hk as [|a b k k' [_ Hc] Hk IH]; [done|]. cbn [map]. by rewrite Hc, IH.
Qed.

Lemma alike_sample k k' step :
  Forall2 alike k k' ->
  length (pick_sample k step) = length (pick_sample k' step) /\
  canonical_ndjson (pick_sample k step) id = canonical_ndjson (pick_sample k' step) id.
Proof.
  intros Hk. unfold pick_sample. set (m := if step <? 2 ^ 63 then step else 2 ^ 63 - 1).
  pose proof (alike_filter k k' (fun i => i mod m =? 0) Hk) as Hf.
  destruct Hf as [|a b f f' Hab Hf].
  - destruct (alike_texts (take 1 k) (take 1 k')) as [H1 H2]; [by apply Forall2_take|]. by rewrite !length_map.
  - destruct (alike_texts (a :: f) (b :: f')) as [H1 H2]; [by constructor|]. by rewrite !length_map.
Qed.

Lemma keyed_alike k cold :
  Forall2 (fun ir r => row_id id r = Some ir.1 /\ canonical_row id ir.2 = canonical_row id r) k cold ->
  exists k', keyed id cold = Ok k' /\ Forall2 alike k k'.
Proof.
  induction 1 as [|ir r k cold [Hi Hc] Hk IH]; [by exists []|]. destruct IH as (k' & Hk' & Ha). exists ((ir.1, r) :: k').
  cbn [keyed]. rewrite Hi, Hk'. by split; [|constructor].
Qed.

Lemma alike_sorted k k' :
  Forall2 alike k k' -> StronglySorted (fun a b => key_le a b = true) k -> StronglySorted (fun a b => key_le a b = true) k'.
Proof.
  induction 1 as [|a b k k' [Hab _] Hk IH]; [constructor|]. intros [Hs Ha]%StronglySorted_inv. constructor; [by apply IH|].
  clear -Hab Hk Ha. induction Hk as [|c d k k' [Hcd _] Hk IH]; [constructor|]. apply Forall_cons in Ha as [Hc Ha].
  constructor; [|by apply IH]. unfold key_le in *. by rewrite <- Hab, <- Hcd.
Qed.

(** A cold read in the order of the ids is keyed as the chunk was. *)
Lemma sorted_alike l cold :
  Forall2 (fun ir r => row_id id r = Some ir.1 /\ canonical_row id ir.2 = canonical_row id r) (ordered id l) cold ->
  exists k', sorted_by_id cold id = Ok k' /\ Forall2 alike (ordered id l) k'.
Proof.
  intros (k' & Hk & Ha)%keyed_alike. exists k'. split; [|done]. unfold sorted_by_id. rewrite Hk. cbn [rbind]. f_equal.
  apply S3Facts.sort_by_sorted_id. eapply alike_sorted; [done|].
  apply (sort_by_sorted key_le (fun _ => True)); unfold key_le; intros; [lia|lia|by apply Forall_true].
Qed.

End Readback.

Section Verify.
Context `{CH : ClickhouseHttp} `{RO : !RowOrder} `{NW : !NumberWords} `{NL : !NumberLaw} `{CL : !ClickhouseLaw}.
Context (sink : ClickhouseSink) (apart : Forall (fun t => ch_name t <> CHECKSUM_TABLE) (ch_tables sink)).

Definition fields_of (d : ChunkDigest) : list literal :=
  [LString (checksum d); LString (sample_checksum d); LWord (dec_text (sample_rows d)); LWord (int_text (low_id d));
   LWord (int_text (high_id d))].

Lemma written_metadata w t p n l sum w' :
  write_chunk sink w t p n l = (Ok sum, w') ->
  exists d, prepare sink t p l = Ok d /\ sum = checksum d /\ meta (behind w') (t, p, dec_text n) = Some (fields_of d).
Proof.
  unfold write_chunk. destruct (prepare sink t p l) as [d|e]; [|done].
  destruct (ensure_metadata_table w) as [[[]|e] w0]; [|done]. destruct (on_server _ w0) as [[x|e] w1]; [|done]. unfold on_server.
  destruct (execute (metadata_sql t p n d) (behind w1)) as [[y|e] s2] eqn:E; [|done]. cbn [map_err]. intros [= <- <-]. exists d.
  split; [done|]. split; [done|]. change (metadata_sql t p n d) with (metadata_prefix +:+ metadata_values t p n d) in E.
  eapply metadata_law in E as (_ & _ & Hm); [|apply metadata_lexed]. by apply Hm.
Qed.

Lemma column_ok {A} (row : Row) c (f : Value -> option A) v x :
  (row : gmap string Value) !! c = Some v -> f v = Some x -> column row c f = Ok x.
Proof. intros Hr Hf. unfold column. rewrite Hr. cbn. by rewrite Hf. Qed.

(** A chunk that was written verifies under the checksum the write returned: without a
    sample whenever the checksums can be read; with one when the table gives the rows of
    the chunk back, whose 64-bit ids may come as strings. *)
Theorem clickhouse_chunk_verifies w t p n l spec d w' metadata :
  table_spec sink t = Ok spec -> prepare sink t p l = Ok d -> write_chunk sink w t p n l = (Ok (checksum d), w') ->
  rows_of (select_metadata_sql t p n) w' = Ok metadata ->
  (forall rate, ch_sample sink = Some rate ->
     SFltb f64_zero rate = true /\ in_i64 (low_id d) /\ in_i64 (high_id d) /\ in_u64 (sample_rows d) /\
     exists cold, rows_of (select_range_sql t (ch_id_col spec) (low_id d) (high_id d)) w' = Ok cold /\
       Forall2 (fun ir r => row_id (ch_id_col spec) r = Some ir.1 /\
                            canonical_row (ch_id_col spec) ir.2 = canonical_row (ch_id_col spec) r)
               (ordered (ch_id_col spec) l) cold) ->
  verify_chunk sink w' t p n (checksum d) = Ok true.
Proof.
  intros Hspec Hp Hw Hq Hsample. pose proof (written_metadata _ _ _ _ _ _ _ Hw) as (d' & Hp' & _ & Hm). rewrite Hp in Hp'. injection Hp' as <-.
  unfold prepare in Hp. apply rbind_ok in Hp as (spec' & Hspec' & ([] & Hpart & Hd)%rbind_ok). rewrite Hspec in Hspec'. injection Hspec' as <-.
  unfold verify_chunk. rewrite Hspec, Hpart, Hq. cbn [rbind]. unfold rows_of in Hq.
  destruct (query (select_metadata_sql t p n) (behind w')) as [q|e] eqn:Eq; [|done]. injection Hq as ->. apply select_law in Eq. rewrite Hm in Eq.
  destruct Eq as (row & rest & -> & Hf). unfold METADATA_COLUMNS, fields_of in Hf.
  apply Forall2_cons in Hf as [(v1 & R1 & S1) Hf]. apply Forall2_cons in Hf as [(v2 & R2 & S2) Hf]. apply Forall2_cons in Hf as [(v3 & R3 & S3) Hf].
  apply Forall2_cons in Hf as [(v4 & R4 & S4) Hf]. apply Forall2_cons in Hf as [(v5 & R5 & S5) _]. cbn [shown] in S1, S2. subst v1 v2.
  rewrite (column_ok row _ as_str _ _ R1 eq_refl). cbn [rbind]. rewrite String.eqb_refl. cbn [negb].
  destruct (ch_sample sink) as [rate|] eqn:Hrate; [|done]. destruct (Hsample rate eq_refl) as (Hpos & Hlow & Hhigh & Hn & cold & Hcold & Hrows).
  unfold verify_sample. rewrite (column_ok row _ as_str _ _ R2 eq_refl), (column_ok row _ json_u64 _ _ R3 (shown_u64 _ _ Hn S3)).
  rewrite (column_ok row _ json_i64 _ _ R4 (shown_i64 _ _ Hlow S4)), (column_ok row _ json_i64 _ _ R5 (shown_i64 _ _ Hhigh S5)). cbn [rbind].
  rewrite Hcold. cbn [rbind]. destruct (sorted_alike _ _ _ Hrows) as (k' & -> & Ha). cbn [rbind].
  unfold chunk_digest in Hd. apply rbind_ok in Hd as (k & Hk & Hd). apply sorted_by_id_ok in Hk as [-> _].
  destruct (head _) as [[low r0]|]; [|done]. destruct (last _) as [[high r1]|]; [|done]. rewrite Hpos in Hd. injection Hd as <-. cbn [sample_rows sample_checksum].
  destruct (alike_sample (ch_id_col spec) _ _ (sample_step rate) Ha) as [Hl Ht]. by rewrite <- Hl, <- Ht, Z.eqb_refl, String.eqb_refl.
Qed.

End Verify.
End ClickSpec.

(** ** A server

    It reads statements with the lexer above; a table keeps every row; SHA-256 is replaced by
    the text itself. *)

Module ClickDemo.
Import TierConfig Rdbms TierSql Clickhouse ClickLexer ClickFacts ClickSpec.

Record demo_server := { d_rows : list (string * (bool * string)); d_meta : gmap (string * string * string) (list literal) }.

Definition backtick : ascii := "`".

(** A table has one column, [id]; its rows come back with the id as a string. *)
Definition as_pair (x : literal) : bool * string := match x with LString s => (true, s) | LWord w => (false, w) end.
Definition of_pair (p : bool * string) : literal := if p.1 then LString p.2 else LWord p.2.

Definition first_word (l : list literal) : bool * string := match l with x :: _ => as_pair x | [] => (false, EmptyString) end.

Definition run (sql : string) (s : demo_server) : bool * demo_server :=
  match strip_prefix metadata_prefix sql with
  | Some text =>
      match lex_values text with
      | Some [LString t :: LString p :: LWord n :: fields] =>
          if Nat.eqb (length fields) 5 then (true, {| d_rows := d_rows s; d_meta := <[(t, p, n) := fields]> (d_meta s) |})
          else (false, s)
      | _ => (false, s)
      end
  | None =>
      match strip_prefix "INSERT INTO `" sql with
      | Some rest =>
          match split_once backtick rest with
          | Some (t, rest) =>
              match strip_prefix " VALUES " rest with
              | Some text =>
                  match lex_values text with
                  | Some rows => (true, {| d_rows := d_rows s ++ map (fun l => (t, first_word l)) rows; d_meta := d_meta s |})
                  | None => (false, s)
                  end
              | None => (false, s)
              end
          | None => (false, s)
          end
      | None => (true, s)
      end
  end.

Definition row_of_checksums (s : demo_server) (k : string * string * string) : option (list literal) :=
  f ← d_meta s !! k; if Nat.eqb (length f) 5 then Some f else None.

Definition metadata_select : string :=
  "SELECT `checksum`, `sample_checksum`, `sample_rows`, `low_id`, `high_id` FROM " +:+ CHECKSUM_TABLE +:+ " FINAL WHERE `table` = ".

Definition literals_after (sql : string) : option (string * string * string) :=
  '(t, sql) ← lex_string sql;
  sql ← strip_prefix " AND `partition` = " sql;
  '(p, sql) ← lex_string sql;
  n ← strip_prefix " AND `chunk` = " sql;
  Some (t, p, n).

Fixpoint bits (p : positive) : string :=
  match p with xH => EmptyString | xO p => String "0" (bits p) | xI p => String "1" (bits p) end.
Fixpoint unbits (s : string) : positive :=
  match s with
  | EmptyString => xH
  | String c s => if Ascii.eqb c "1"%char then xI (unbits s) else xO (unbits s)
  end.

Lemma demo_unbits p : unbits (bits p) = p.
Proof. induction p as [p IH|p IH|]; cbn [bits unbits]; rewrite ?IH; done. Qed.

Lemma plain_bits p : S3Facts.plain (bits p) = true.
Proof. by induction p. Qed.

Definition line_of (tag : ascii) (l : list (bool * string)) : string := String tag (bits (countable.encode l)).

(** The body of a response. *)
Definition answer (sql : string) (s : demo_server) : string :=
  match strip_prefix metadata_select sql with
  | Some rest =>
      match literals_after rest with
      | Some k => match row_of_checksums s k with Some f => S3.join_lines [line_of "m" (map as_pair f)] | None => EmptyString end
      | None => EmptyString
      end
  | None => S3.join_lines (map (fun r => line_of "d" [r.2]) (d_rows s))
  end.

Section Server.
Context `{JT : JsonText}.

Definition parse_line (s : string) : result Value string :=
  match s with
  | String tag s =>
      match countable.decode (A := list (bool * string)) (unbits s) with
      | Some l => Ok (VObject (combine (if Ascii.eqb tag "m" then METADATA_COLUMNS else ["id"]) (map (fun p => VString p.2) l)))
      | None => Err "bad"
      end
  | EmptyString => Err "empty"
  end.

#[export] Instance demo_http (as_u64 : Number -> option Z) : ClickhouseHttp := {
  sha256 s := s;
  from_str := parse_line;
  value_as_u64 := as_u64;
  server := demo_server;
  post s sql := let '(ok, s) := run sql s in (Ok {| success := ok; summary := None; body := Ok EmptyString |}, s);
  read s sql := Ok {| success := true; summary := None; body := Ok (answer sql s) |};
}.

Context `{NW : !NumberWords} (as_u64 : Number -> option Z).
#[local] Instance the_http : ClickhouseHttp := demo_http as_u64.

Definition row_of (x : bool * string) : Row := ({[ "id" := VString x.2 ]} : gmap string Value).

Lemma no_backtick t : validate_ident t = Ok tt -> count_char backtick t = 0%nat.
Proof.
  unfold validate_ident, ident_ok. intros Ht. assert (Hl : forallb tail_ok (bytes_of t) = true).
  { destruct t as [|c t]; [done|]. cbn [bytes_of] in *. destruct (head_ok (byte_of c)) eqn:Eh; [|done]. cbn [forallb].
    destruct (forallb tail_ok (bytes_of t)); [|done]. rewrite andb_true_r. unfold head_ok, tail_ok in *.
    apply orb_prop in Eh as [->| ->]; [done|]. by rewrite orb_true_r. }
  clear Ht. induction t as [|c t IH]; [done|]. cbn [bytes_of forallb] in Hl. apply andb_prop in Hl as [Hc Hl]. cbn [count_char].
  rewrite IH by done. destruct (Ascii.eqb_spec c backtick) as [->|]; [by vm_compute in Hc|done].
Qed.

Lemma run_insert s t text rows :
  validate_ident t = Ok tt -> lex_values text = Some rows ->
  run ("INSERT INTO `" +:+ t +:+ "` VALUES " +:+ text) s =
    (true, {| d_rows := d_rows s ++ map (fun l => (t, first_word l)) rows; d_meta := d_meta s |}).
Proof.
  intros Ht Hl. unfold run. change (strip_prefix metadata_prefix ("INSERT INTO `" +:+ t +:+ "` VALUES " +:+ text)) with (@None string).
  cbv iota. rewrite strip_prefix_app. change ("` VALUES " +:+ text) with (String backtick (" VALUES " +:+ text)).
  rewrite split_once_app by (by apply no_backtick). by rewrite strip_prefix_app, Hl.
Qed.

Lemma execute_run sql s : execute sql s = (if (run sql s).1 then Ok 0 else Err (Database EmptyString), (run sql s).2).
Proof. unfold execute. cbn. destruct (run sql s) as [[] s']; reflexivity. Qed.

Lemma query_line l (s : demo_server) sql v :
  answer sql s = S3.join_lines [line_of "m" l] -> parse_line (line_of "m" l) = Ok (VObject v) ->
  query sql s = Ok [(list_to_map v : gmap string Value)].
Proof.
  intros Ha Hv. unfold query. cbn [read the_http demo_http map_err rbind body]. rewrite Ha.
  rewrite S3Facts.lines_join by (constructor; [apply (plain_bits _)|constructor]). cbn [parse_rows].
  assert (Hb : is_blank (line_of "m" l) = false).
  { unfold is_blank, line_of. cbn [bytes_of blank_bytes]. change (space1 (byte_of "m")) with false. cbv iota.
    destruct (bytes_of _) as [|b l2]; [done|]. change (space2 (byte_of "m") b) with false. cbv iota. by destruct l2. }
  rewrite Hb. cbn [from_str the_http demo_http]. by rewrite Hv.
Qed.

#[export] Instance demo_click_law : ClickhouseLaw (CH := demo_http as_u64).
Proof.
  refine {| cold_row (s : @server _ _ (demo_http as_u64)) t q := exists x, (t, x) ∈ d_rows s /\ q = row_of x;
            same_key _ := eq; read_row _ l := row_of (first_word l); meta s k := row_of_checksums s k |}.
  - intros s r s' He. rewrite execute_run in He. injection He as _ <-. by change (run CHECKSUM_TABLE_DDL s) with (true, s).
  - intros s t text rows r s' Ht _ Hl He. rewrite execute_run, (run_insert s t text rows Ht Hl) in He. injection He as <- <-. cbn [fst snd d_meta d_rows]. split_and!.
    + done.
    + intros u q (x & Hx & ->). left. exists x. split; [|done]. apply elem_of_app. by left.
    + intros _ vs Hvs. exists vs. split; [done|]. split; [|done]. exists (first_word vs). split; [|done]. apply elem_of_app. right.
      apply list_elem_of_fmap. by exists vs.
  - intros s text t p n fields r s' Hl He. rewrite execute_run in He. injection He as <- <-. unfold run. rewrite strip_prefix_app, Hl.
    destruct (Nat.eqb (length fields) 5) eqn:E; cbn [fst snd].
    + unfold row_of_checksums. cbn [d_meta d_rows]. split; [done|]. split; [|by rewrite lookup_insert_eq; cbn; rewrite E].
      intros k. destruct (decide (k = (t, p, n))) as [->|Hne]; [right|left; by rewrite lookup_insert_ne].
      split; [done|]. rewrite lookup_insert_eq. cbn. by rewrite E.
    + split; [done|]. split; [by left|done].
  - intros s t p n l Hq.
    assert (Ha : answer (select_metadata_sql t p n) s =
                 match row_of_checksums s (t, p, dec_text n) with Some f => S3.join_lines [line_of "m" (map as_pair f)] | None => EmptyString end).
    { unfold answer. change (select_metadata_sql t p n) with
        (metadata_select +:+ (sql_string t +:+ " AND `partition` = " +:+ sql_string p +:+ " AND `chunk` = " +:+ dec_text n)).
      rewrite strip_prefix_app. unfold literals_after. rewrite sql_string_roundtrip. cbn [mbind option_bind].
      rewrite strip_prefix_app. cbn [mbind option_bind]. rewrite sql_string_roundtrip. cbn [mbind option_bind].
      by rewrite strip_prefix_app. }
    destruct (row_of_checksums s (t, p, dec_text n)) as [f|] eqn:Ef.
    + assert (Hlen : length f = 5%nat).
      { unfold row_of_checksums in Ef. destruct (d_meta s !! _) as [g|]; [|done]. cbn in Ef. destruct (Nat.eqb_spec (length g) 5); [|done]. by injection Ef as <-. }
      erewrite query_line in Hq; [|exact Ha|unfold parse_line, line_of; by rewrite demo_unbits, countable.decode_encode].
      injection Hq as <-. eexists _, []. split; [reflexivity|].
      destruct f as [|f1 [|f2 [|f3 [|f4 [|f5 [|]]]]]]; try discriminate Hlen.
      assert (Hsh : forall x, shown x (VString (as_pair x).2)) by (intros [x|x]; cbn; [done|by right]).
      unfold METADATA_COLUMNS. cbn [map combine Ascii.eqb Bool.eqb list_to_map foldr uncurry].
      repeat (constructor; [eexists; split; [by simplify_map_eq|apply Hsh]|]). constructor.
    + unfold query in Hq. cbn [read the_http demo_http map_err rbind body] in Hq. rewrite Ha in Hq. by injection Hq as <-.
Defined.

End Server.
End ClickDemo.

(** *** A run of the job *)

Module ClickArchiveDemo.
Import TierConfig Rdbms TierSql Clickhouse ClickLexer ClickFacts ClickSpec ClickDemo TieringDemo.

Fixpoint digits (s : string) : bool :=
  match s with EmptyString => true | String c s => between 48 (byte_of c) 57 && digits s end.

Lemma digits_word s : digits s = true -> word_chars s = true.
Proof.
  induction s as [|c s IH]; [done|]. cbn [digits word_chars]. intros [Hc Hs]%andb_prop. rewrite IH by done.
  destruct (Ascii.eqb_spec c comma) as [->|]; [by vm_compute in Hc|]. by destruct (Ascii.eqb_spec c close) as [->|]; [vm_compute in Hc|].
Qed.

Lemma pretty_digits x acc :
  digits acc = true -> digits (pretty.pretty_N_go x acc) = true /\ (acc <> EmptyString -> pretty.pretty_N_go x acc <> EmptyString).
Proof.
  revert acc. induction x as [x IH] using (well_founded_induction N.lt_wf_0). intros acc Ha.
  destruct (decide (0 < x)%N) as [Hx|Hx].
  - rewrite pretty.pretty_N_go_step by lia. assert (Hd : digits (String (pretty.pretty_N_char (x mod 10)) acc) = true).
    { cbn [digits]. rewrite Ha, andb_true_r. by repeat (destruct (x mod 10)%N as [|p]; try done; repeat (destruct p as [p|p|]; try done)). }
    destruct (IH (x / 10)%N) with (acc := String (pretty.pretty_N_char (x mod 10)) acc) as [H1 H2]; [by apply N.div_lt|done|].
    split; [done|]. intros _. by apply H2.
  - assert (x = 0%N) as -> by lia. rewrite pretty.pretty_N_go_0. done.
Qed.

Lemma digits_is_word s : digits s = true -> s <> EmptyString -> is_word s = true.
Proof.
  destruct s as [|c s]; [done|]. intros Hd _. unfold is_word. rewrite digits_word by done. rewrite andb_true_r. cbn [digits] in Hd.
  destruct (Ascii.eqb_spec c quote) as [->|]; [by vm_compute in Hd|done].
Qed.

Lemma positive_digits p : digits (pretty.pretty (Npos p)) = true /\ pretty.pretty (Npos p) <> EmptyString.
Proof.
  unfold pretty.pretty, pretty.pretty_N. destruct (decide (Npos p = 0%N)); [done|]. rewrite pretty.pretty_N_go_step by lia.
  destruct (pretty_digits (N.pos p / 10) (String (pretty.pretty_N_char (N.pos p mod 10)) EmptyString)) as [H1 H2].
  - cbn [digits]. by repeat (destruct (N.pos p mod 10)%N as [|q]; try done; repeat (destruct q as [q|q|]; try done)).
  - split; [done|]. by apply H2.
Qed.

#[export] Instance demo_words : @NumberWords demo_number.
Proof.
  refine {| number_word := _ |}. intros [|p|p].
  - reflexivity.
  - destruct (positive_digits p). by apply (digits_is_word (pretty.pretty (Npos p))).
  - destruct (positive_digits p) as [Hd _]. change (negb (Ascii.eqb "-" quote) && (true && word_chars (pretty.pretty (Npos p))) = true).
    by rewrite digits_word.
Defined.

#[export] Instance demo_json : @JsonText demo_number := {|
  value_text v := match v with
                  | VNumber n => int_text n
                  | VString s => bits (countable.encode s)
                  | _ => "null"
                  end |}.

#[export] Instance demo_plain : @PlainJson demo_number demo_json.
Proof. refine {| plain_json := _ |}. intros [| |n|s| |]; cbn; first [done|apply plain_int|apply plain_bits]. Defined.

#[export] Instance demo_order : @RowOrder demo_number.
Proof. refine {| row_iter r := map_to_list (r : gmap string Value); row_iter_map := _ |}. intros r. apply list_to_map_to_list. Defined.

#[export] Instance the_server : @ClickhouseHttp demo_number demo_json := demo_http (fun _ => None).

Definition click_sink (rate : option f64) : ClickhouseSink :=
  {| ch_tables := [{| ch_name := "orders"; ch_id_col := "id" |}]; ch_sample := rate |}.

Lemma demo_apart rate : Forall (fun t => ch_name t <> CHECKSUM_TABLE) (ch_tables (click_sink rate)).
Proof. by repeat constructor. Qed.

Definition empty_server : @server _ _ the_server := {| d_rows := []; d_meta := ∅ |}.

Lemma empty_sound rate : sound (click_sink rate) [] empty_server.
Proof. intros t p n f spec _ Hf. unfold meta, demo_click_law, row_of_checksums, empty_server in Hf. cbn in Hf. by rewrite lookup_empty in Hf. Qed.

Definition empty_click : Kept (click_sink None) :=
  {| world := {| metadata_ready := false; behind := empty_server |}; sent := []; kept := empty_sound None |}.

Definition click_job : Archive.world (C:=Kept (click_sink None)) (L:=unit) := demo_world_with empty_click polite [1; 5; 7].

Definition click_done : Archive.world (C:=Kept (click_sink None)) (L:=unit) :=
  the_world (Archive.run_once (CS:=kept_sink (click_sink None) (demo_apart None)) 100 1000 (demo_config false)
               {| the_world := click_job; left_ := None |}).2.

Definition click_dropped : bool := bool_decide (is_Some (Archive.hot click_done !! ("orders", "p202501"))).

(** The column the demonstration's engine sorts by. *)
Definition sorting_key (r : Row) : string := (first_word (map literal_of (row_values r))).2.

Lemma sent_apart :
  forallb (fun a => forallb (fun b => if String.eqb (sorting_key a.2) (sorting_key b.2)
                                       then String.eqb (canonical_row "id" a.2) (canonical_row "id" b.2) else true)
                     (sent _ (Archive.cold click_done))) (sent _ (Archive.cold click_done)) = true.
Proof. vm_compute. reflexivity. Qed.

(** Row 5 was dropped, and is in the cold table; rows 3 and 9 arrived while the job ran. *)
Lemma archive_to_clickhouse_loses_no_row_witness :
  click_dropped = false /\
  exists r' : Row, canonical_row "id" r' = canonical_row "id" (demo_row 5) /\
    cold_row (behind (world _ (Archive.cold click_done))) "orders" (placed "orders" r').
Proof.
  assert (Hd : click_dropped = false) by (vm_compute; reflexivity). split; [exact Hd|].
  destruct (archive_to_clickhouse_loses_no_row (click_sink None) (demo_apart None) (demo_config false) click_job click_job click_done orders
              "p202501" (TieringDemo.rows_of [1; 5; 7]) 5 (demo_row 5)) as [(m & Hm & _)|[(spec & r' & Hs & _ & Hc & Hq)|(a & b & Hne & He)]].
  - apply NoDup_singleton.
  - apply TieringSpec.demo_world_fresh; [|repeat constructor; done]. intros i st js. unfold polite.
    repeat case_match; repeat constructor; done.
  - apply TieringSpec.polite_punctual.
  - apply rtc_refl.
  - eapply rtc_l; [|apply rtc_refl]. exists 100%nat, 1000, None. by do 2 eexists; split; [apply surjective_pairing|].
  - intros spec a b [= <-] Ha Hb Hk. pose proof sent_apart as Hs. rewrite forallb_forall in Hs.
    specialize (Hs _ (proj1 (list_elem_of_In _ _) Ha)). rewrite forallb_forall in Hs.
    specialize (Hs _ (proj1 (list_elem_of_In _ _) Hb)). cbn [snd] in Hs.
    assert (He : sorting_key a = sorting_key b).
    { apply (f_equal (fun q : Row => (q : gmap string Value) !! "id")) in Hk. cbn [placed read_row demo_click_law] in Hk.
      unfold placed, read_row, demo_click_law, row_of in Hk. rewrite !lookup_singleton_eq in Hk. by injection Hk. }
    rewrite He, String.eqb_refl in Hs. by apply String.eqb_eq in Hs.
  - by left.
  - reflexivity.
  - reflexivity.
  - exfalso. unfold click_dropped in Hd. apply bool_decide_eq_false in Hd. apply Hd. by exists m.
  - exists r'. injection Hs as <-. split; [exact Hc|exact Hq].
  - by contradict Hne.
Defined.

End ClickArchiveDemo.

(** *** A chunk read back, its ids as strings *)

Module ClickVerifyDemo.
Import TierConfig Rdbms TierSql Clickhouse ClickLexer ClickFacts ClickSpec ClickDemo.

#[local] Instance int_number : JsonNumber := {|
  Number := Z;
  number_as_i64 n := if (- 2 ^ 63 <=? n) && (n <? 2 ^ 63) then Some n else None;
  number_is_u64 n := (0 <=? n) && (n <? 2 ^ 64);
  number_as_f64 n := Some (f64_of_u64 n);
  number_text := int_text |}.

#[local] Instance int_words : NumberWords := {| number_word := int_word |}.

#[local] Instance int_json : JsonText := {|
  value_text v := match v with VNumber n => int_text n | VString s => bits (countable.encode s) | _ => "null" end |}.

#[local] Instance int_order : RowOrder.
Proof. refine {| row_iter r := map_to_list (r : gmap string Value); row_iter_map := _ |}. intros r. apply list_to_map_to_list. Defined.

Definition z_as_u64 (n : Z) : option Z := if (0 <=? n) && (n <? 2 ^ 64) then Some n else None.

#[local] Instance int_server : ClickhouseHttp := demo_http z_as_u64.

Lemma dec_text_inj a b : 0 <= a -> 0 <= b -> dec_text a = dec_text b -> a = b.
Proof.
  intros Ha Hb He. assert (Hw : forall n, 0 <= n <= Z.max a b -> parse_uint (Z.max a b) (dec_text n) = Some n).
  { intros n Hn. apply parse_dec_text. split; [lia|]. pose proof (Z.pow_gt_lin_r 2 (Z.max a b)). lia. }
  pose proof (Hw a) as H1. rewrite He, Hw in H1 by lia. injection (H1 ltac:(lia)) as ->. done.
Qed.

Lemma dec_no_dash a s : dec_text a <> "-" +:+ s.
Proof. unfold dec_text. intros He. by destruct (N.to_uint (Z.to_N a)); cbn in He. Qed.

Lemma int_text_inj a b : int_text a = int_text b -> a = b.
Proof.
  unfold int_text. destruct (Z.ltb_spec a 0), (Z.ltb_spec b 0); intros He.
  - injection He as He. apply dec_text_inj in He; lia.
  - by apply eq_sym, dec_no_dash in He.
  - by apply dec_no_dash in He.
  - apply dec_text_inj; done.
Qed.

#[local] Instance int_law : NumberLaw.
Proof.
  split.
  - intros n z He Hz. apply int_text_inj in He as ->. unfold in_i64 in Hz. cbn. replace (- 2 ^ 63 <=? z) with true by lia. by replace (z <? 2 ^ 63) with true by lia.
  - intros n z He Hz. unfold in_u64 in Hz. assert (Ht : int_text z = dec_text z) by (unfold int_text; by replace (z <? 0) with false by lia).
    change (int_text n = dec_text z) in He. rewrite <- Ht in He. apply int_text_inj in He as ->. cbn. unfold z_as_u64.
    replace (0 <=? z) with true by lia. by replace (z <? 2 ^ 64) with true by lia.
Defined.

Definition int_row (i : Z) : Row := ({[ "id" := VNumber i ]} : gmap string Value).

Definition half_rate : f64 := f64_div f64_one (f64_of_u64 2).
Definition sampling_sink : ClickhouseSink := {| ch_tables := [{| ch_name := "orders"; ch_id_col := "id" |}]; ch_sample := Some half_rate |}.
Definition three_rows : list Row := map int_row [-7; 2; 4].
Definition before_write : World := {| metadata_ready := false; behind := ({| d_rows := []; d_meta := ∅ |} : @server _ _ int_server) |}.
Definition three_digest : ChunkDigest :=
  match prepare sampling_sink "orders" "p202501" three_rows with
  | Ok d => d
  | Err _ => {| checksum := ""; sample_checksum := ""; sample_rows := 0; low_id := 0; high_id := 0 |}
  end.
Definition after_write : result string TieringError * World := write_chunk sampling_sink before_write "orders" "p202501" 0 three_rows.
Definition metadata_read : list Row := match rows_of (select_metadata_sql "orders" "p202501" 0) after_write.2 with Ok l => l | Err _ => [] end.
Definition cold_read : list Row := match rows_of (select_range_sql "orders" "id" (-7) 4) after_write.2 with Ok l => l | Err _ => [] end.

Lemma int_row_id i : in_i64 i -> row_id "id" (int_row i) = Some i.
Proof.
  unfold in_i64, row_id, int_row. intros Hi. rewrite lookup_singleton_eq. cbn. replace (- 2 ^ 63 <=? i) with true by lia.
  by replace (i <? 2 ^ 63) with true by lia.
Qed.

Lemma ok_read (o : result (list Row) TieringError) :
  is_ok o = true -> o = Ok match o with Ok l => l | Err _ => [] end.
Proof. by destruct o. Qed.

Lemma clickhouse_chunk_verifies_witness :
  after_write.1 = Ok (checksum three_digest) /\
  verify_chunk sampling_sink after_write.2 "orders" "p202501" 0 (checksum three_digest) = Ok true.
Proof.
  assert (Hw : after_write.1 = Ok (checksum three_digest)) by (vm_compute; reflexivity). split; [exact Hw|].
  apply (clickhouse_chunk_verifies sampling_sink before_write "orders" "p202501" 0 three_rows
           {| ch_name := "orders"; ch_id_col := "id" |} three_digest after_write.2 metadata_read).
  - reflexivity.
  - vm_compute. reflexivity.
  - rewrite <- Hw. apply surjective_pairing.
  - apply ok_read. vm_compute. reflexivity.
  - intros rate [= <-]. split; [vm_compute; reflexivity|]. do 3 (split; [split; [vm_compute; discriminate|vm_compute; reflexivity]|]).
    exists cold_read. split; [apply ok_read; vm_compute; reflexivity|].
    assert (Ho : ordered "id" three_rows = [(-7, int_row (-7)); (2, int_row 2); (4, int_row 4)]).
    { unfold ordered, three_rows. cbn [map]. rewrite !int_row_id by (unfold in_i64; lia). reflexivity. }
    assert (Hc : cold_read = map (fun i => row_of (false, int_text i)) [-7; 2; 4]) by reflexivity.
    change (ch_id_col _) with "id". rewrite Ho, Hc. repeat (constructor; [split; vm_compute; reflexivity|]). constructor.
Defined.

End ClickVerifyDemo.
