(* ===== verification/Partition.v ===== *)
(** * Partition plans and restores (ecat-data-tiering)

    [src/ecat-data-tiering/src/partition.rs]: the RANGE COLUMNS plan of a table, the drop of
    a partition, the staging table of a restore and the exchange; with the
    [reset_partition] of [state.rs] it ends in.

    A point in time is its date and time in UTC.  The calendar is the time crate's: how long
    a month is, and the texts of its errors, are the class [Calendar]. *)

From S2P Require Import Prelude Json Text Dialect Rdbms SagaSql TierConfig.

Local Open Scope Z_scope.
Local Open Scope ecat_scope.

(** [days_in_month] and [Date::from_calendar_date], which rejects years beyond four digits. *)
Class Calendar := {
  days_in_month : Z -> Z -> Z;
  days_range m y : 28 <= days_in_month m y <= 31;
  year_error : string
}.

Module Partition.
Import Rdbms TierConfig.

Record PartitionSpec := { ps_table : string; ps_column : string; ps_months : Z }.

Inductive RestoreSource := FromClickhouse | FromS3.
Record RestorePlan := { rp_table : string; rp_partition : string; rp_source : RestoreSource }.

(** *** Dates *)

(** [time] in nanoseconds of the day. *)
Record DateTime := { year : Z; month : Z; day : Z; time : Z }.

Definition date_key (t : DateTime) : Z := (year t * 12 + (month t - 1)) * 32 + day t.
Definition day_ns : Z := 86400 * 10 ^ 9.

(** Where a point in time is in the order. *)
Definition rank (t : DateTime) : Z := date_key t * day_ns + time t.
Definition before (a b : DateTime) : bool := rank a <? rank b.
Definition min_time (a b : DateTime) : DateTime := if before b a then b else a.

Section Plan.
Context {CA : Calendar}.

Definition add_months (ts : DateTime) (months : Z) : result DateTime TieringError :=
  let total := year ts * 12 + (month ts - 1) + months in
  let y := total / 12 in
  if negb ((- 2 ^ 31 <=? y) && (y <? 2 ^ 31)) then
    Err (Config ("partition boundary year out of range: " +:+ dec_text total))
  else
    let m := total mod 12 + 1 in
    if (-9999 <=? y) && (y <=? 9999) then
      Ok {| year := y; month := m; day := Z.min (day ts) (days_in_month m y); time := time ts |}
    else Err (Config ("invalid partition boundary: " +:+ year_error)).

(** *** Texts *)

Fixpoint zeros (n : nat) : string := match n with O => "" | S n => "0" +:+ zeros n end.

(** [{:0w}], the sign within the width. *)
Definition padded (w : nat) (n : Z) : string :=
  if n <? 0 then let t := dec_text (- n) in "-" +:+ zeros (w - 1 - String.length t) +:+ t
  else let t := dec_text n in zeros (w - String.length t) +:+ t.

Definition partition_name (start : DateTime) : result string TieringError :=
  let name := "p" +:+ padded 4 (year start) +:+ padded 2 (month start) in
  let? _ := validate_ident name in Ok name.

(** [[year]-[month]-[day] [hour]:[minute]:[second]]: the second is cut off, a negative year
    keeps four digits behind its sign. *)
Definition second_of_day (t : DateTime) : Z := time t / 10 ^ 9.

Definition fmt_utc (t : DateTime) : string :=
  let s := second_of_day t in
  (if year t <? 0 then "-" +:+ padded 4 (- year t) else padded 4 (year t)) +:+ "-" +:+ padded 2 (month t) +:+ "-" +:+ padded 2 (day t)
    +:+ " " +:+ padded 2 (s / 3600) +:+ ":" +:+ padded 2 (s / 60 mod 60) +:+ ":" +:+ padded 2 (s mod 60).

(** *** The plan *)

(** One partition: its name and its upper bound. *)
Definition part : Type := string * DateTime.

(** The loop; [None] when the fuel runs out. *)
Fixpoint plan_parts (fuel : nat) (months : Z) (start to : DateTime) : option (result (list part) TieringError) :=
  if before start to then
    match fuel with
    | O => None
    | S fuel =>
        match add_months start months with
        | Err e => Some (Err e)
        | Ok next =>
            let stop := min_time next to in
            match partition_name start with
            | Err e => Some (Err e)
            | Ok name =>
                match plan_parts fuel months stop to with
                | Some (Ok l) => Some (Ok ((name, stop) :: l))
                | r => r
                end
            end
        end
    end
  else Some (Ok []).

(** A month at a time, more than there are. *)
Definition plan_fuel (from to : DateTime) : nat := Z.to_nat ((year to - year from + 1) * 12 + 1).

Definition part_text (p : part) : string := "PARTITION " +:+ p.1 +:+ " VALUES LESS THAN ('" +:+ fmt_utc p.2 +:+ "')".

Fixpoint join (sep : string) (l : list string) : string :=
  match l with
  | [] => ""
  | [x] => x
  | x :: l => x +:+ sep +:+ join sep l
  end.

Definition newline : string := String (Ascii.ascii_of_nat 10) "".

Definition plan_sql (spec : PartitionSpec) (l : list part) : string :=
  let parts := (part_text <$> l) ++ ["PARTITION pmax VALUES LESS THAN (MAXVALUE)"] in
  "ALTER TABLE `" +:+ ps_table spec +:+ "` PARTITION BY RANGE COLUMNS(`" +:+ ps_column spec +:+ "`) (" +:+ newline
    +:+ join ("," +:+ newline) ((fun p => "  " +:+ p) <$> parts) +:+ newline +:+ ")".

Definition checked_spec (spec : PartitionSpec) (from to : DateTime) : result unit TieringError :=
  let? _ := validate_ident (ps_table spec) in
  let? _ := validate_ident (ps_column spec) in
  if ps_months spec =? 0 then Err (Config "partition months must be > 0")
  else if negb (before from to) then Err (Config "partition range end must be after start")
  else Ok tt.

Definition plan_range_partitions (spec : PartitionSpec) (from to : DateTime) : option (result string TieringError) :=
  match checked_spec spec from to with
  | Err e => Some (Err e)
  | Ok _ =>
      match plan_parts (plan_fuel from to) (ps_months spec) from to with
      | None => None
      | Some (Err e) => Some (Err e)
      | Some (Ok l) => Some (Ok (plan_sql spec l))
      end
  end.

End Plan.

(** *** Restores *)

Section Restore.
Context `{JT : JsonText} {W Tx : Type}.
Context (db : RdbmsClient W Tx).

Definition PARTITION_EXISTS_SQL : string :=
  "SELECT COUNT(*) AS n FROM information_schema.PARTITIONS WHERE TABLE_SCHEMA = DATABASE() AND TABLE_NAME = ? AND PARTITION_NAME = ?".

Definition JOBS : string := "tier_archive_jobs".

Definition db_failed (e : RdbmsError) : TieringError := Db (SagaSql.rdbms_text e).

Definition ensure_mysql : result unit TieringError := match dialect_ db with MySql => Ok tt | _ => Err UnsupportedDialect end.

Definition execute (r : Request) (w : W) : result Z TieringError * W :=
  let '(x, w) := perform_ db r w in
  (let? reply := map_err db_failed x in Ok (match reply with Affected n => n | Rows _ => 0 end), w).

Definition query_rows (r : Request) (w : W) : result (list Row) TieringError * W :=
  let '(x, w) := perform_ db r w in
  (let? reply := map_err db_failed x in Ok (match reply with Rows l => l | Affected _ => [] end), w).

Definition count_rows (r : Request) (w : W) : result Z TieringError * W :=
  let '(x, w) := query_rows r w in
  (let? rows := x in
   ok_or (head rows ≫= fun row : Row => (row : gmap string Value) !! "n" ≫= as_i64) (State "count query returned no `n` column"), w).

Definition staging_name (plan : RestorePlan) : result string TieringError :=
  let staging := rp_table plan +:+ "_restore_" +:+ rp_partition plan in
  let? _ := validate_ident staging in Ok staging.

Definition source_name (s : RestoreSource) : string := match s with FromClickhouse => "ClickHouse" | FromS3 => "S3" end.

Definition drop_partition (table partition : string) (w : W) : result Z TieringError * W :=
  match (let? _ := validate_ident table in let? _ := validate_ident partition in ensure_mysql) with
  | Err e => (Err e, w)
  | Ok _ => execute (Execute ("ALTER TABLE `" +:+ table +:+ "` DROP PARTITION `" +:+ partition +:+ "`")) w
  end.

Definition checked_plan (plan : RestorePlan) : result string TieringError :=
  let? _ := validate_ident (rp_table plan) in
  let? _ := validate_ident (rp_partition plan) in
  let? _ := ensure_mysql in
  staging_name plan.

Definition drop_staging_sql (staging : string) : string := "DROP TABLE IF EXISTS `" +:+ staging +:+ "`".
Definition create_staging_sql (staging table : string) : string := "CREATE TABLE `" +:+ staging +:+ "` LIKE `" +:+ table +:+ "`".
Definition flatten_sql (staging : string) : string := "ALTER TABLE `" +:+ staging +:+ "` REMOVE PARTITIONING".
Definition count_sql (staging : string) : string := "SELECT COUNT(*) AS n FROM `" +:+ staging +:+ "`".
Definition exchange_sql (table partition staging : string) : string :=
  "ALTER TABLE `" +:+ table +:+ "` EXCHANGE PARTITION `" +:+ partition +:+ "` WITH TABLE `" +:+ staging +:+ "`".
Definition reset_sql : string := "DELETE FROM " +:+ JOBS +:+ " WHERE table_name = ? AND partition_name = ?".

Definition prepare_staging (plan : RestorePlan) (w : W) : result string TieringError * W :=
  match checked_plan plan with
  | Err e => (Err e, w)
  | Ok staging =>
      match execute (Execute (drop_staging_sql staging)) w with
      | (Err e, w) => (Err e, w)
      | (Ok _, w) =>
          match execute (Execute (create_staging_sql staging (rp_table plan))) w with
          | (Err e, w) => (Err e, w)
          | (Ok _, w) =>
              match execute (Execute (flatten_sql staging)) w with
              | (Err e, w) => (Err e, w)
              | (Ok _, w) => (Ok staging, w)
              end
          end
      end
  end.

Definition empty_staging (plan : RestorePlan) (staging : string) : TieringError :=
  State ("staging table `" +:+ staging +:+ "` is empty; load it from " +:+ source_name (rp_source plan) +:+ " before restoring `"
    +:+ rp_table plan +:+ "`.`" +:+ rp_partition plan +:+ "`").

Definition no_partition (plan : RestorePlan) : TieringError :=
  State ("partition `" +:+ rp_partition plan +:+ "` does not exist on `" +:+ rp_table plan
    +:+ "`; ADD PARTITION or REORGANIZE it first").

(** [state::reset_partition]; the dialect is MySQL here. *)
Definition reset_partition (table partition : string) (w : W) : result Z TieringError * W :=
  execute (ExecuteWith reset_sql [VString table; VString partition]) w.

Definition restore_partition (plan : RestorePlan) (w : W) : result Z TieringError * W :=
  match checked_plan plan with
  | Err e => (Err e, w)
  | Ok staging =>
      match count_rows (QueryWith (count_sql staging) []) w with
      | (Err e, w) => (Err e, w)
      | (Ok staging_rows, w) =>
          if staging_rows =? 0 then (Err (empty_staging plan staging), w)
          else
            match count_rows (QueryWith PARTITION_EXISTS_SQL [VString (rp_table plan); VString (rp_partition plan)]) w with
            | (Err e, w) => (Err e, w)
            | (Ok partition_exists, w) =>
                if partition_exists =? 0 then (Err (no_partition plan), w)
                else
                  match execute (Execute (exchange_sql (rp_table plan) (rp_partition plan) staging)) w with
                  | (Err e, w) => (Err e, w)
                  | (Ok rows, w) =>
                      match reset_partition (rp_table plan) (rp_partition plan) w with
                      | (Err e, w) => (Err e, w)
                      | (Ok _, w) => (Ok rows, w)
                      end
                  end
            end
      end
  end.

End Restore.
End Partition.
