(* ===== verification/PartitionSpec.v ===== *)
(** * Partition plans cover their range; restores

    The loop of a plan ends; its partitions follow each other from the start of the range to
    its end and no two have one name.  A restore swaps the staging table in and clears the
    archive's state; its failure after the swap is not one to retry. *)

From S2P Require Import Prelude Json Text Dialect Rdbms SagaSql TierConfig Partition.

Local Open Scope Z_scope.
Local Open Scope ecat_scope.

Module PartitionSpec.
Import Rdbms TierConfig Partition.

(** *** Names *)

Definition digits_value (s : string) : option N := N.of_uint <$> DecimalString.NilEmpty.uint_of_string s.

Lemma digits_dec_text n : 0 <= n -> digits_value (dec_text n) = Some (Z.to_N n).
Proof.
  intros Hn. unfold digits_value, dec_text. pose proof (DecimalString.NilZero.usu (N.to_uint (Z.to_N n)) (to_uint_nonnil _)) as E.
  unfold DecimalString.NilZero.uint_of_string in E. destruct (DecimalString.NilZero.string_of_uint _) eqn:Es; [done|].
  rewrite E. cbn. by rewrite DecimalN.Unsigned.of_to.
Qed.

Lemma digits_zeros k s : digits_value s <> None -> digits_value (zeros k +:+ s) = digits_value s.
Proof.
  intros Hs. induction k as [|k IH]; [done|]. change (zeros (S k) +:+ s) with (String (Ascii.ascii_of_nat 48) (zeros k +:+ s)).
  unfold digits_value in *. cbn [DecimalString.NilEmpty.uint_of_string]. destruct (DecimalString.NilEmpty.uint_of_string (zeros k +:+ s)) as [d|] eqn:E; cbn in *.
  - by rewrite <- IH.
  - by rewrite <- IH in Hs.
Qed.

Lemma padded_value w n : 0 <= n -> digits_value (padded w n) = Some (Z.to_N n).
Proof.
  intros Hn. unfold padded. destruct (Z.ltb_spec n 0); [lia|]. cbv zeta. rewrite digits_zeros; rewrite digits_dec_text by lia; done.
Qed.

Lemma sapp_inj a b a' b' : a +:+ b = a' +:+ b' -> String.length b = String.length b' -> a = a' /\ b = b'.
Proof.
  intros E Hl. assert (Ha : String.length a = String.length a').
  { apply (f_equal String.length) in E. rewrite !length_sapp in E. lia. }
  clear Hl. revert a' Ha E. induction a as [|x a IH]; intros [|y a'] Ha E; try done.
  injection Ha as Ha. change (String x (a +:+ b) = String y (a' +:+ b')) in E. injection E as -> E. by destruct (IH a' Ha E) as [-> ->].
Qed.

Lemma month_text_length m : 1 <= m <= 12 -> String.length (padded 2 m) = 2%nat.
Proof.
  intros Hm. assert (Hc : m ∈ [1; 2; 3; 4; 5; 6; 7; 8; 9; 10; 11; 12]) by set_solver by lia.
  repeat (apply elem_of_cons in Hc as [->|Hc]; [reflexivity|]). by apply not_elem_of_nil in Hc.
Qed.

Lemma partition_name_inj a b name :
  0 <= year a -> 0 <= year b -> 1 <= month a <= 12 -> 1 <= month b <= 12 ->
  partition_name a = Ok name -> partition_name b = Ok name -> year a = year b /\ month a = month b.
Proof.
  intros Hya Hyb Hma Hmb Ha Hb. unfold partition_name in *.
  assert (Hn : forall t, (let? _ := validate_ident t in Ok t) = Ok name -> t = name) by (intros t; destruct (validate_ident t); [by intros [= <-] | done]).
  apply Hn in Ha, Hb. rewrite <- Hb in Ha. apply sapp_inj in Ha as [_ Ha].
  2: { rewrite !length_sapp. apply (f_equal String.length) in Ha. rewrite !length_sapp in Ha. lia. }
  destruct (sapp_inj _ _ _ _ Ha) as [E1 E2]; [by rewrite !month_text_length|].
  apply (f_equal digits_value) in E1, E2. rewrite !padded_value in E1 by lia. rewrite !padded_value in E2 by lia. injection E1 as E1. injection E2 as E2. lia.
Qed.

(** A name is only given to a year that has no sign. *)
Lemma named_year a name : partition_name a = Ok name -> 0 <= year a.
Proof.
  intros H. destruct (Z.ltb_spec (year a) 0) as [Hn|]; [|done]. exfalso. unfold partition_name, padded in H.
  assert (year a <? 0 = true) as E by lia. rewrite E in H. by cbn in H.
Qed.

(** *** Plans *)

Section Plan.
Context {CA : Calendar}.

Definition valid (t : DateTime) : Prop := 1 <= month t <= 12 /\ 1 <= day t <= 31 /\ 0 <= time t < day_ns.
Definition month_key (t : DateTime) : Z := year t * 12 + (month t - 1).

Lemma before_spec a b : before a b = true <-> rank a < rank b.
Proof. unfold before. apply Z.ltb_lt. Qed.

Lemma rank_months a b : valid a -> valid b -> month_key a < month_key b -> rank a < rank b.
Proof.
  unfold valid, rank, date_key. fold (month_key a) (month_key b). intros (_ & Ha & Hta) (_ & Hb & Htb) Hk.
  assert (month_key a * 32 + day a + 1 <= month_key b * 32 + day b) by lia. unfold day_ns in *. nia.
Qed.

Lemma months_rank a b : valid a -> valid b -> rank a < rank b -> month_key a <= month_key b.
Proof. intros Ha Hb Hr. destruct (Z.le_gt_cases (month_key a) (month_key b)) as [|Hk]; [done|]. pose proof (rank_months b a Hb Ha ltac:(lia)). lia. Qed.

Lemma rank_inj a b : valid a -> valid b -> rank a = rank b -> a = b.
Proof.
  intros Ha Hb E. unfold rank, day_ns in E. destruct Ha as (Ha1 & Ha2 & Ha3), Hb as (Hb1 & Hb2 & Hb3). unfold day_ns in *.
  assert (date_key a = date_key b /\ time a = time b) as [Ed Et] by nia. unfold date_key in Ed.
  assert (day a = day b /\ month a = month b /\ year a = year b) as (E1 & E2 & E3) by lia.
  destruct a, b; cbn in *; congruence.
Qed.

Lemma add_months_advances t k t' :
  valid t -> 0 < k -> add_months t k = Ok t' -> valid t' /\ month_key t' = month_key t + k /\ rank t < rank t'.
Proof.
  intros Hv Hk. unfold add_months. fold (month_key t). cbv zeta. destruct (negb _); [done|]. destruct (_ && _); [|done]. intros [= <-].
  set (n := month_key t + k). pose proof (days_range (n mod 12 + 1) (n / 12)) as Hd. pose proof (Z.mod_pos_bound n 12) as Hm. pose proof (Z.div_mod n 12) as Hdm.
  destruct Hv as (Hv1 & Hv2 & Hv3).
  assert (Hval : valid {| year := n / 12; month := n mod 12 + 1; day := Z.min (day t) (days_in_month (n mod 12 + 1) (n / 12)); time := time t |}) by (repeat split; cbn; lia).
  assert (Hmk : month_key {| year := n / 12; month := n mod 12 + 1; day := Z.min (day t) (days_in_month (n mod 12 + 1) (n / 12)); time := time t |} = n) by (unfold month_key; cbn; lia).
  split; [done|]. split; [done|]. apply rank_months; [done|done|]. rewrite Hmk. unfold n. lia.
Qed.

(** The partitions one after the other: each starts where the one before ends, is named after
    its start and lasts [months] months, or less at the end of the range. *)
Fixpoint chain (months : Z) (start : DateTime) (l : list part) (to : DateTime) : Prop :=
  match l with
  | [] => start = to
  | (name, stop) :: l =>
      partition_name start = Ok name /\ rank start < rank stop /\
      (exists next, add_months start months = Ok next /\ stop = min_time next to) /\ chain months stop l to
  end.

Lemma chain_names months start l to :
  valid start -> valid to -> 0 < months -> chain months start l to ->
  forall name, name ∈ l.*1 -> exists t, valid t /\ partition_name t = Ok name /\ month_key start <= month_key t.
Proof.
  intros Hs Ht Hm. revert start Hs. induction l as [|[n stop] l IH]; intros start Hs Hc name Hin; [by apply not_elem_of_nil in Hin|].
  cbn in Hc, Hin. destruct Hc as (Hn & Hr & (next & Ha & ->) & Hc). apply elem_of_cons in Hin as [->|Hin]; [by exists start|].
  destruct (add_months_advances _ _ _ Hs Hm Ha) as (Hv & Hk & _). unfold min_time in *. destruct (before to next).
  - destruct (IH to Ht Hc name Hin) as (t & H1 & H2 & H3). exists t. split_and!; [done|done|]. apply months_rank in Hr; [lia|done|done].
  - destruct (IH next Hv Hc name Hin) as (t & H1 & H2 & H3). exists t. split_and!; [done|done|lia].
Qed.

Lemma chain_end months l to : chain months to l to -> valid to -> 0 < months -> l = [].
Proof.
  destruct l as [|[n stop] l]; [done|]. cbn. intros (_ & Hr & (next & _ & ->) & _) _ _. exfalso. unfold min_time in Hr.
  destruct (before to next) eqn:E; [lia|]. assert (rank to < rank next) as Hb%before_spec by done. congruence.
Qed.

Lemma chain_nodup months start l to :
  valid start -> valid to -> 0 < months -> chain months start l to -> NoDup l.*1.
Proof.
  intros Hs Ht Hm. revert start Hs. induction l as [|[n stop] l IH]; intros start Hs Hc; [constructor|].
  pose proof Hc as (Hn & Hr & (next & Ha & ->) & Hc'). destruct (add_months_advances _ _ _ Hs Hm Ha) as (Hv & Hk & _). cbn.
  assert (Hstop : month_key start < month_key (min_time next to) \/ min_time next to = to).
  { unfold min_time. destruct (before to next); [by right|left; lia]. }
  assert (Hvs : valid (min_time next to)) by (unfold min_time; by destruct (before to next)).
  apply NoDup_cons. split; [|by apply (IH (min_time next to))]. intros Hin.
  destruct Hstop as [Hlt | He].
  - destruct (chain_names _ _ _ _ Hvs Ht Hm Hc' n Hin) as (t & H1 & H2 & H3).
    destruct (partition_name_inj start t n) as [E1 E2]; try done; [by eapply named_year|by eapply named_year|apply Hs|apply H1|].
    unfold month_key in *. lia.
  - rewrite He in Hc'. rewrite (chain_end _ _ _ Hc' Ht Hm) in Hin. by apply not_elem_of_nil in Hin.
Qed.

Lemma plan_chain fuel months start to :
  valid start -> valid to -> 0 < months -> before start to = true \/ start = to ->
  (start = to \/ month_key to - month_key start + 1 <= Z.of_nat fuel) ->
  exists r, plan_parts fuel months start to = Some r /\ forall l, r = Ok l -> chain months start l to.
Proof.
  intros Hs Ht Hm. revert start Hs. induction fuel as [|fuel IH]; intros start Hs Hb Hf.
  - destruct Hf as [->|Hf]; [|destruct Hb as [Hb| ->]; [apply before_spec, months_rank in Hb; [lia|done|done]|]];
      (exists (Ok []); cbn; unfold before; rewrite Z.ltb_irrefl; split; [done|by intros l [= <-]]).
  - cbn. destruct (before start to) eqn:E; [|exists (Ok []); split; [done|]; intros l [= <-]; by destruct Hb].
    destruct (add_months start months) as [next|e] eqn:Ea; [|by exists (Err e)].
    destruct (partition_name start) as [name|e] eqn:En; [|by exists (Err e)].
    destruct (add_months_advances _ _ _ Hs Hm Ea) as (Hv & Hk & Hr). pose proof E as Hlt%before_spec.
    destruct (IH (min_time next to)) as (r & Hr1 & Hr2).
    + unfold min_time. by destruct (before to next).
    + unfold min_time. destruct (before to next) eqn:E2; [by right|]. destruct (before next to) eqn:E3; [by left|]. right.
      apply rank_inj; [done|done|]. unfold before in E2, E3. lia.
    + unfold min_time. destruct (before to next) eqn:E2; [by left|]. right. destruct Hf as [->|Hf]; [unfold before in E; lia|lia].
    + rewrite Hr1. destruct r as [l|e]; [|by exists (Err e)]. exists (Ok ((name, min_time next to) :: l)). split; [done|].
      intros l' [= <-]. cbn. split; [done|]. split; [|split; [by exists next|by apply Hr2]].
      unfold min_time. by destruct (before to next).
Qed.

Lemma plan_step fuel months start to next name :
  before start to = true -> add_months start months = Ok next -> partition_name start = Ok name ->
  plan_parts (S fuel) months start to =
    match plan_parts fuel months (min_time next to) to with
    | Some (Ok l) => Some (Ok ((name, min_time next to) :: l))
    | r => r
    end.
Proof. intros E1 E2 E3. cbn [plan_parts]. by rewrite E1, E2, E3. Qed.

(** Where the server puts a row: the first partition whose bound is past it. *)
Definition home (l : list part) (v : DateTime) : option part := List.find (fun p => before v p.2) l.

Lemma chain_home months start l to v :
  chain months start l to -> rank start <= rank v < rank to ->
  exists s name stop, home l v = Some (name, stop) /\ partition_name s = Ok name /\ rank s <= rank v < rank stop /\
    exists next, add_months s months = Ok next /\ stop = min_time next to.
Proof.
  revert start. induction l as [|[n stop] l IH]; intros start Hc Hv; cbn in Hc; [subst; lia|].
  destruct Hc as (Hn & Hr & Hnext & Hc). unfold home. cbn [List.find snd]. destruct (before v stop) eqn:E.
  - exists start, n, stop. apply before_spec in E. split_and!; [done|done|lia|lia|done].
  - apply (IH stop Hc). unfold before in E. lia.
Qed.

(** C33. The loop of a partition plan ends. The partitions it gives follow each other over the
    range without a gap or an overlap, no two share a name, and every instant of the range is
    placed in a partition that is named after the month it starts in and starts at most the
    configured months before. *)
Theorem plan_partitions_the_range spec from to :
  valid from -> valid to -> 0 < ps_months spec -> before from to = true ->
  exists r, plan_parts (plan_fuel from to) (ps_months spec) from to = Some r /\
    forall l, r = Ok l -> chain (ps_months spec) from l to /\ NoDup l.*1 /\
      forall v, rank from <= rank v < rank to ->
        exists s name stop, home l v = Some (name, stop) /\ partition_name s = Ok name /\ rank s <= rank v < rank stop /\
          exists next, add_months s (ps_months spec) = Ok next /\ stop = min_time next to.
Proof.
  intros Hf Ht Hm Hb. destruct (plan_chain (plan_fuel from to) (ps_months spec) from to Hf Ht Hm) as (r & Hr & Hc).
  - by left.
  - right. unfold plan_fuel, month_key. apply before_spec, (months_rank _ _ Hf Ht) in Hb. unfold month_key in Hb. destruct Hf as [? _], Ht as [? _]. lia.
  - exists r. split; [done|]. intros l E. specialize (Hc l E). split; [done|]. split; [exact (chain_nodup _ _ _ _ Hf Ht Hm Hc)|].
    intros v Hv. by eapply chain_home.
Qed.

(** The bounds are written without their fraction of a second: a range that ends less
    than a second after a boundary gives two partitions with the same bound, which the
    server refuses. *)
Theorem subsecond_end_repeats_a_bound months from next name name' to fuel :
  add_months from months = Ok next -> partition_name from = Ok name -> partition_name next = Ok name' -> 
  before from next = true -> time next mod 10 ^ 9 = 0 ->
  to = {| year := year next; month := month next; day := day next; time := time next + 1 |} ->
  (exists later, add_months next months = Ok later /\ before to later = true) ->
  plan_parts (S (S fuel)) months from to = Some (Ok [(name, next); (name', to)]) /\ fmt_utc next = fmt_utc to.
Proof.
  intros Ha Hn Hn' Hb Hz -> (later & Hl & Hbl). set (to := {| year := _; month := _; day := _; time := _ |}) in *.
  assert (Hr : rank to = rank next + 1) by (unfold rank, date_key, to; cbn; lia).
  assert (E1 : before from to = true) by (apply before_spec; apply before_spec in Hb; lia).
  assert (E2 : before next to = true) by (apply before_spec; lia).
  assert (E3 : before to next = false) by (unfold before; lia).
  assert (E4 : before to to = false) by (unfold before; lia).
  split.
  - rewrite (plan_step _ _ _ _ _ _ E1 Ha Hn). unfold min_time at 1 2. rewrite E3, (plan_step _ _ _ _ _ _ E2 Hl Hn').
    unfold min_time. rewrite Hbl. destruct fuel; cbn; by rewrite E4.
  - assert (Hs : second_of_day next = second_of_day to).
    { unfold second_of_day, to. cbn [time]. apply Z.div_exact in Hz; [|done]. 
      apply Z.div_unique with (r := 1); [left; split; [lia | by vm_compute] | lia]. }
    unfold fmt_utc. cbn [year month day]. by rewrite Hs.
Qed.

End Plan.

(** *** Restores *)

Section Restore.
Context `{JT : JsonText} {W Tx : Type}.
Context (db : RdbmsClient W Tx) (plan : RestorePlan) (staging : string).

(** What the statements of a restore do: the rows of the partition, those of the staging
    table, and whether the archive's state knows the partition.  An exchange checks nothing
    of the rows, and the reset may fail. *)
Class RestoreDb := {
  Contents : Type;
  size : Contents -> Z;
  in_partition : W -> Contents;
  in_staging : W -> Contents;
  archived : W -> bool;
  count_law w : exists row w', perform_ db (QueryWith (count_sql staging) []) w = (Ok (Rows [row]), w') /\
    (row : gmap string Value) !! "n" ≫= as_i64 = Some (size (in_staging w)) /\
    in_partition w' = in_partition w /\ in_staging w' = in_staging w /\ archived w' = archived w;
  exists_law w : exists row w',
    perform_ db (QueryWith PARTITION_EXISTS_SQL [VString (rp_table plan); VString (rp_partition plan)]) w = (Ok (Rows [row]), w') /\
    (row : gmap string Value) !! "n" ≫= as_i64 = Some 1 /\
    in_partition w' = in_partition w /\ in_staging w' = in_staging w /\ archived w' = archived w;
  exchange_law w : exists n w',
    perform_ db (Execute (exchange_sql (rp_table plan) (rp_partition plan) staging)) w = (Ok (Affected n), w') /\
    in_partition w' = in_staging w /\ in_staging w' = in_partition w /\ archived w' = archived w;
  reset_law w : let '(r, w') := perform_ db (ExecuteWith reset_sql [VString (rp_table plan); VString (rp_partition plan)]) w in
    in_partition w' = in_partition w /\ in_staging w' = in_staging w /\
    archived w' = if is_ok r then false else archived w
}.

Context {RD : RestoreDb} (Hplan : checked_plan db plan = Ok staging).

Lemma count_rows_of r w row w' n :
  perform_ db r w = (Ok (Rows [row]), w') -> (row : gmap string Value) !! "n" ≫= as_i64 = Some n -> count_rows db r w = (Ok n, w').
Proof. intros E En. unfold count_rows, query_rows. rewrite E. cbn [map_err rbind]. cbn [head]. cbn. unfold Row in *. by rewrite En. Qed.

(** The state after a call that found rows to restore. *)
Lemma restore_swaps w : size (in_staging w) <> 0 ->
  in_partition (restore_partition db plan w).2 = in_staging w /\ in_staging (restore_partition db plan w).2 = in_partition w /\
  archived (restore_partition db plan w).2 = if is_ok (restore_partition db plan w).1 then false else archived w.
Proof.
  intros Hs. unfold restore_partition. rewrite Hplan. destruct (count_law w) as (row & w1 & E1 & En1 & Hp1 & Ht1 & Ha1).
  rewrite (count_rows_of _ _ _ _ _ E1 En1). destruct (Z.eqb_spec (size (in_staging w)) 0); [done|].
  destruct (exists_law w1) as (row2 & w2 & E2 & En2 & Hp2 & Ht2 & Ha2). rewrite (count_rows_of _ _ _ _ _ E2 En2). cbn [Z.eqb].
  destruct (exchange_law w2) as (m & w3 & E3 & Hp3 & Ht3 & Ha3). unfold execute at 1 2 3 4. rewrite E3. cbn [map_err rbind].
  unfold reset_partition, execute. pose proof (reset_law w3) as Hr. destruct (perform_ db _ w3) as [[y|e] w4]; cbn in *;
    destruct Hr as (Hp4 & Ht4 & Ha4); split_and!; congruence.
Qed.

Lemma restore_refuses_empty w : size (in_staging w) = 0 ->
  (restore_partition db plan w).1 = Err (empty_staging plan staging) /\
  in_partition (restore_partition db plan w).2 = in_partition w /\ archived (restore_partition db plan w).2 = archived w.
Proof.
  intros Hs. unfold restore_partition. rewrite Hplan. destruct (count_law w) as (row & w1 & E1 & En1 & Hp1 & Ht1 & Ha1).
  rewrite (count_rows_of _ _ _ _ _ E1 En1), Hs. cbn. done.
Qed.

(** A restore that exchanged the partition and then failed to reset the archive's state
    cannot be repeated: into a partition that was empty, every further call fails and the
    state stays; otherwise the second call puts the old rows back. *)
Theorem failed_reset_is_not_retried w e :
  size (in_staging w) <> 0 -> (restore_partition db plan w).1 = Err e ->
  let w1 := (restore_partition db plan w).2 in
  in_partition w1 = in_staging w /\ archived w1 = archived w /\
  (size (in_partition w) = 0 ->
     (restore_partition db plan w1).1 = Err (empty_staging plan staging) /\ archived (restore_partition db plan w1).2 = archived w) /\
  (size (in_partition w) <> 0 -> in_partition (restore_partition db plan w1).2 = in_partition w).
Proof.
  intros Hs He w1. destruct (restore_swaps w Hs) as (Hp & Ht & Ha). rewrite He in Ha. cbn in Ha. fold w1 in Hp, Ht, Ha.
  split; [done|]. split; [done|]. split; intros Hz; rewrite <- Ht in Hz.
  - destruct (restore_refuses_empty w1 Hz) as (H1 & _ & H3). split; congruence.
  - destruct (restore_swaps w1 Hz) as (H1 & _ & _). congruence.
Qed.

(** A restore that succeeds has put the staged rows into the partition, kept the rows
    that were there in the staging table, and left no archive state that would have the next
    run drop them; repeated, it puts the partition back as it was. *)
Theorem restore_roundtrip w n :
  size (in_staging w) <> 0 -> size (in_partition w) <> 0 -> (restore_partition db plan w).1 = Ok n ->
  let w1 := (restore_partition db plan w).2 in
  in_partition w1 = in_staging w /\ in_staging w1 = in_partition w /\ archived w1 = false /\
  in_partition (restore_partition db plan w1).2 = in_partition w /\ in_staging (restore_partition db plan w1).2 = in_staging w.
Proof.
  intros Hs Hp Hok w1. destruct (restore_swaps w Hs) as (H1 & H2 & H3). rewrite Hok in H3. cbn in H3. fold w1 in H1, H2, H3.
  do 3 (split; [done|]). rewrite <- H2 in Hp. destruct (restore_swaps w1 Hp) as (H4 & H5 & _). split; congruence.
Qed.

End Restore.

End PartitionSpec.

Module PartitionDemo.
Import Rdbms TierConfig Partition PartitionSpec.

(** The Gregorian calendar. *)
#[local] Instance demo_calendar : Calendar.
Proof.
  refine {| days_in_month m y :=
              if m =? 2 then (if (y mod 4 =? 0) && (negb (y mod 100 =? 0) || (y mod 400 =? 0)) then 29 else 28)
              else if (m =? 4) || (m =? 6) || (m =? 9) || (m =? 11) then 30 else 31;
            year_error := "component out of range" |}.
  intros m y. destruct (m =? 2); [destruct (_ && _); lia|]. destruct (_ || _); lia.
Defined.

Definition jan31 : DateTime := {| year := 2026; month := 1; day := 31; time := 0 |}.
Definition mar15 : DateTime := {| year := 2026; month := 3; day := 15; time := 0 |}.
Definition monthly : Partition.PartitionSpec := {| ps_table := "events"; ps_column := "ts"; ps_months := 1 |}.

Example monthly_plan : plan_range_partitions monthly jan31 mar15 = Some (Ok (plan_sql monthly
  [("p202601", {| year := 2026; month := 2; day := 28; time := 0 |}); ("p202602", mar15)])).
Proof. reflexivity. Qed.

Lemma plan_partitions_the_range_witness :
  exists r, plan_parts (plan_fuel jan31 mar15) 1 jan31 mar15 = Some r /\
    forall l, r = Ok l -> chain 1 jan31 l mar15 /\ NoDup l.*1 /\
      forall v, rank jan31 <= rank v < rank mar15 ->
        exists s name stop, home l v = Some (name, stop) /\ partition_name s = Ok name /\ rank s <= rank v < rank stop /\
          exists next, add_months s 1 = Ok next /\ stop = min_time next mar15.
Proof.
  apply (plan_partitions_the_range monthly jan31 mar15); [| |reflexivity|reflexivity]; unfold valid, day_ns; cbn; lia.
Defined.

Definition feb28 : DateTime := {| year := 2026; month := 2; day := 28; time := 0 |}.
Definition feb28_late : DateTime := {| year := 2026; month := 2; day := 28; time := 1 |}.

Lemma subsecond_end_repeats_a_bound_witness :
  plan_parts 2 1 jan31 feb28_late = Some (Ok [("p202601", feb28); ("p202602", feb28_late)]) /\ fmt_utc feb28 = fmt_utc feb28_late.
Proof.
  apply (subsecond_end_repeats_a_bound 1 jan31 feb28 "p202601" "p202602" feb28_late 0); try reflexivity.
  by exists {| year := 2026; month := 3; day := 28; time := 0 |}.
Defined.

(** *** A database whose contents are numbers of rows *)

#[local] Instance demo_json : JsonNumber :=
  {| Number := Z; number_as_i64 n := Some n; number_is_u64 n := bool_decide (0 <= n); number_as_f64 n := None; number_text := dec_text |}.
#[local] Instance demo_text : JsonText := {| value_text _ := "null" |}.

Record demo := { d_partition : Z; d_staging : Z; d_archived : bool; d_down : bool }.

Definition number_row (n : Z) : Row := {[ "n" := VNumber n ]}.

Definition demo_plan : RestorePlan := {| rp_table := "events"; rp_partition := "p202601"; rp_source := FromS3 |}.
Definition demo_staging : string := "events_restore_p202601".

Definition demo_perform (r : Request) (w : demo) : result Reply RdbmsError * demo :=
  match r with
  | QueryWith sql _ => (Ok (Rows [number_row (if String.eqb sql PARTITION_EXISTS_SQL then 1 else d_staging w)]), w)
  | Execute _ => (Ok (Affected 0), {| d_partition := d_staging w; d_staging := d_partition w; d_archived := d_archived w; d_down := d_down w |})
  | ExecuteWith _ _ =>
      if d_down w then (Err (Connection "gone"), w)
      else (Ok (Affected 1), {| d_partition := d_partition w; d_staging := d_staging w; d_archived := false; d_down := false |})
  | _ => (Ok (Rows []), w)
  end.

Definition demo_db : RdbmsClient demo unit :=
  {| perform_ := demo_perform; begin_ w := (Ok tt, w); replica_lag _ := None; dialect_ := MySql |}.

#[local] Instance demo_restore : RestoreDb demo_db demo_plan demo_staging.
Proof.
  refine {| Contents := Z; size n := n; in_partition := d_partition; in_staging := d_staging; archived := d_archived |}.
  - intros w. by exists (number_row (d_staging w)), w.
  - intros w. by exists (number_row 1), w.
  - intros w. by eexists _, _.
  - intros w. cbn. unfold demo_perform. by destruct (d_down w).
Defined.

Definition loaded (down : bool) : demo := {| d_partition := 0; d_staging := 7; d_archived := true; d_down := down |}.
Definition swapped : demo := {| d_partition := 3; d_staging := 7; d_archived := true; d_down := false |}.

Lemma failed_reset_is_not_retried_witness :
  let w1 := (restore_partition demo_db demo_plan (loaded true)).2 in
  d_partition w1 = 7 /\ d_archived w1 = true /\
  (0 = 0 -> (restore_partition demo_db demo_plan w1).1 = Err (empty_staging demo_plan demo_staging) /\
            d_archived (restore_partition demo_db demo_plan w1).2 = true) /\
  (0 <> 0 -> d_partition (restore_partition demo_db demo_plan w1).2 = 0).
Proof.
  exact (failed_reset_is_not_retried demo_db demo_plan demo_staging (RD := demo_restore) eq_refl (loaded true) (db_failed (Connection "gone"))
    ltac:(by vm_compute) eq_refl).
Defined.

Lemma restore_roundtrip_witness :
  let w1 := (restore_partition demo_db demo_plan swapped).2 in
  d_partition w1 = 7 /\ d_staging w1 = 3 /\ d_archived w1 = false /\
  d_partition (restore_partition demo_db demo_plan w1).2 = 3 /\ d_staging (restore_partition demo_db demo_plan w1).2 = 7.
Proof.
  exact (restore_roundtrip demo_db demo_plan demo_staging (RD := demo_restore) eq_refl swapped 0 ltac:(by vm_compute) ltac:(by vm_compute) eq_refl).
Defined.

End PartitionDemo.
