(* ===== verification/DualWrite.v ===== *)
(** * Double writes during a cutover (ecat-data-sharding)

    [src/ecat-data-sharding/src/migrate/dual_write.rs]: a key bound to its shard in two
    topologies at once, with writes to the primary and then to the mirror; and the keyed
    client of [client.rs], which passes every operation on.

    A client is a pointer ([Arc]): two are the same physical target when the pointers are
    equal, and nothing else is evidence. *)

From S2P Require Import Prelude Json Dialect Rdbms SagaSql ShardCatalog ShardRouter.

Local Open Scope Z_scope.
Local Open Scope ecat_scope.

Module DualWrite.
Import Rdbms Catalog Router.

Inductive IdentityPolicy := PolicyError | WriteBoth | PrimaryOnly.

(** The database behind a pointer. *)
Section DualWrite.
Context `{JT : JsonText} {W Tx : Type}.
Context (deref : nat -> RdbmsClient W Tx).

Local Abbreviation Router := (ShardRouter nat).
Local Abbreviation Keyed := (KeyedClient nat).

(** *** The keyed client *)

Definition keyed_perform (c : Keyed) (r : Request) (w : W) : result Reply RdbmsError * W := perform_ (deref (kc_client c)) r w.
Definition keyed_dialect (c : Keyed) : Dialect := dialect_ (deref (kc_client c)).
Definition keyed_transaction (c : Keyed) (w : W) : result Tx RdbmsError * W := begin_ (deref (kc_client c)) w.

(** *** Binding a key in both topologies *)

Record DualWrite := {
  primary : Router;
  mirror : Router;
  primary_topology : string;
  mirror_topology : string;
  identity : IdentityPolicy
}.

Definition before_cutover (old new : Router) : DualWrite :=
  {| primary := old; mirror := new; primary_topology := "old"; mirror_topology := "new"; identity := PolicyError |}.

Definition after_cutover (new old : Router) : DualWrite :=
  {| primary := new; mirror := old; primary_topology := "new"; mirror_topology := "old"; identity := PolicyError |}.

Definition set_identity (p : IdentityPolicy) (d : DualWrite) : DualWrite :=
  {| primary := primary d; mirror := mirror d; primary_topology := primary_topology d; mirror_topology := mirror_topology d;
     identity := p |}.

Definition assume_distinct : DualWrite -> DualWrite := set_identity WriteBoth.
Definition assume_same : DualWrite -> DualWrite := set_identity PrimaryOnly.

Record DualWriteClient := { dw_primary : Keyed; dw_mirror : option Keyed }.

Definition unproven (d : DualWrite) (primary_shard mirror_shard : string) : ShardError :=
  Config ("dual-write: shard `" +:+ primary_shard +:+ "` in the " +:+ primary_topology d +:+ " topology and shard `"
    +:+ mirror_shard +:+ "` in the " +:+ mirror_topology d +:+ " topology use different clients; physical identity is unproven. "
    +:+ "Call DualWrite::assume_same() if they are the same physical shard, or DualWrite::assume_distinct() (requires "
    +:+ "idempotent/replay-safe SQL) to write both.").

(** [None] is the panic of [for_key_with_shard]. *)
Definition for_key (d : DualWrite) (table : string) (key : Value) : option (result DualWriteClient ShardError) :=
  match for_key_with_shard (primary d) table key with
  | None => None
  | Some (Err e) => Some (Err e)
  | Some (Ok (primary_shard, p)) =>
      match for_key_with_shard (mirror d) table key with
      | None => None
      | Some (Err e) => Some (Err e)
      | Some (Ok (mirror_shard, m)) =>
          Some
            (if Nat.eqb (kc_client p) (kc_client m) then Ok {| dw_primary := p; dw_mirror := None |}
             else match identity d with
                  | PolicyError => Err (unproven d primary_shard mirror_shard)
                  | WriteBoth => Ok {| dw_primary := p; dw_mirror := Some m |}
                  | PrimaryOnly => Ok {| dw_primary := p; dw_mirror := None |}
                  end)
      end
  end.

(** *** The operations *)

Definition mirror_client (c : DualWriteClient) : option Keyed := dw_mirror c.

Definition mirror_failure (c : DualWriteClient) (e : RdbmsError) : RdbmsError :=
  Rdbms.Database ("dual-write mirror failed for table `" +:+ kc_table (dw_primary c) +:+ "` after the primary write committed; do not "
    +:+ "retry through DualWriteClient, replay the same statement on mirror_client(): " +:+ SagaSql.rdbms_text e).

(** What the mirror gets of an operation: reads nothing, a write followed by a read only
    the write. *)
Definition replayed (r : Request) : option Request :=
  match r with
  | Execute _ | ExecuteWith _ _ | QueryWrite _ _ => Some r
  | Query _ | QueryWith _ _ => None
  | ExecuteThenQuery first params _ => Some (ExecuteWith first params)
  end.

Definition perform (c : DualWriteClient) (r : Request) (w : W) : result Reply RdbmsError * W :=
  match keyed_perform (dw_primary c) r w with
  | (Err e, w) => (Err e, w)
  | (Ok reply, w) =>
      match dw_mirror c, replayed r with
      | Some m, Some r =>
          match keyed_perform m r w with
          | (Ok _, w) => (Ok reply, w)
          | (Err e, w) => (Err (mirror_failure c e), w)
          end
      | _, _ => (Ok reply, w)
      end
  end.

Definition dialect (c : DualWriteClient) : Dialect := keyed_dialect (dw_primary c).

(** Transactions are the primary's alone. *)
Definition transaction (c : DualWriteClient) (w : W) : result Tx RdbmsError * W := keyed_transaction (dw_primary c) w.

(** As a client itself; a mirror has no lag to report. *)
Definition client_of (c : DualWriteClient) : RdbmsClient W Tx :=
  {| perform_ := perform c; begin_ := transaction c; replica_lag _ := None; dialect_ := dialect c |}.

End DualWrite.
End DualWrite.

(** ** What the double writes guarantee

    Over two databases on which statements are deterministic.  An operation that is
    answered with an error - a timeout, a lost connection - may have been executed all the
    same.  So a session leaves both databases equal as long as every operation was
    answered; whatever is answered with an error may be on the primary alone, never on the
    mirror alone; and a mirror write that failed is repaired by replaying the statement on
    the mirror client, if it is replay-safe. *)

Local Close Scope Z_scope.

Module DualWriteSpec.
Import Rdbms Router DualWrite.

Section Spec.
Context `{JT : JsonText} {W Tx S : Type}.
Context (deref : nat -> RdbmsClient W Tx).

(** What the databases hold, and what a statement makes of it.  A statement answered with
    an error has been executed when the answer comes, or never will be. *)
Class Databases := {
  content : nat -> W -> S;
  effect : Request -> S -> S;
  effect_ok c r w reply w' : perform_ (deref c) r w = (Ok reply, w') -> content c w' = effect r (content c w);
  effect_err c r w e w' : perform_ (deref c) r w = (Err e, w') ->
    content c w' = content c w \/ content c w' = effect r (content c w);
  effect_isolated c c' r w : c <> c' -> content c' (perform_ (deref c) r w).2 = content c' w;
  effect_read sql params s : effect (Rdbms.Query sql) s = s /\ effect (QueryWith sql params) s = s;
  effect_write_read first params second s : effect (ExecuteThenQuery first params second) s = effect (ExecuteWith first params) s
}.

Context {DB : Databases}.

Lemma replayed_effect r s : match replayed r with Some r' => effect r' s = effect r s | None => effect r s = s end.
Proof. destruct r; cbn; try done; [apply (effect_read sql [] s) | apply (effect_read sql params s) | symmetry; apply effect_write_read]. Qed.

(** A client writing to two databases. *)
Definition distinct (c : DualWriteClient) (m : KeyedClient nat) : Prop :=
  dw_mirror c = Some m /\ kc_client (dw_primary c) <> kc_client m.

Definition held (k : KeyedClient nat) (w : W) : S := content (kc_client k) w.

(** The statement was executed, or not. *)
Definition when (b : bool) (r : Request) (s : S) : S := if b then effect r s else s.

Lemma effect_in_doubt c r w e w' :
  perform_ (deref c) r w = (Err e, w') -> exists b, content c w' = when b r (content c w).
Proof. intros [He|He]%effect_err; [by exists false|by exists true]. Qed.

(** The ends of an operation: answered, failed on the mirror, failed on the primary. *)
Lemma dual_perform_cases c m r w :
  distinct c m ->
  let '(x, w') := perform deref c r w in
  exists p q, held (dw_primary c) w' = when p r (held (dw_primary c) w) /\ held m w' = when q r (held m w) /\
    match x with
    | Ok _ => p = true /\ q = true
    | Err e => (q = true -> p = true) /\ ((exists e', e = mirror_failure c e') \/ q = false)
    end.
Proof.
  intros [Hm Hne]. unfold perform, keyed_perform, held. rewrite Hm.
  pose proof (effect_isolated _ _ r w Hne) as Hi. destruct (perform_ (deref (kc_client (dw_primary c))) r w) as [[reply|e] w1] eqn:E; cbn in Hi.
  - apply effect_ok in E as Ep. destruct (replayed r) as [r'|] eqn:Er; pose proof (fun s => replayed_effect r s) as Hr; rewrite Er in Hr.
    + assert (Hne' : kc_client m <> kc_client (dw_primary c)) by done. pose proof (effect_isolated _ _ r' w1 Hne') as Hi'.
      destruct (perform_ (deref (kc_client m)) r' w1) as [[reply'|e] w2] eqn:E2; cbn in Hi'.
      * exists true, true. apply effect_ok in E2. cbn [when]. rewrite <- Hr. split_and!; congruence.
      * apply effect_in_doubt in E2 as [b E2]. exists true, b. cbn [when]. rewrite E2, Hi'.
        split_and!; [done| |done|left; by exists e]. destruct b; cbn [when]; [by rewrite Hr, Hi|done].
    + exists true, true. cbn [when]. rewrite Hr in Ep. rewrite Ep, Hi, !Hr. by split_and!.
  - apply effect_in_doubt in E as [b E]. exists b, false. split_and!; [done|done|done|by right].
Qed.

(** A session: operations one after the other, with their answers. *)
Fixpoint session (c : DualWriteClient) (l : list Request) (w : W) : list (result Reply RdbmsError) * W :=
  match l with
  | [] => ([], w)
  | r :: l => let '(x, w) := perform deref c r w in let '(xs, w) := session c l w in (x :: xs, w)
  end.

(** The operations that were executed, on a content. *)
Fixpoint effects (l : list Request) (bs : list bool) (s : S) : S :=
  match l, bs with
  | r :: l, b :: bs => effects l bs (when b r s)
  | _, _ => s
  end.

(** What the answer of an operation says of it: answered, it was executed on both
    databases; it was never executed on the mirror alone; and with an error that is none
    of the mirror's it was not executed on the mirror. *)
Definition told (c : DualWriteClient) (x : result Reply RdbmsError) (pq : bool * bool) : Prop :=
  match x with
  | Ok _ => pq = (true, true)
  | Err e => (pq.2 = true -> pq.1 = true) /\ ((exists e', e = mirror_failure c e') \/ pq.2 = false)
  end.

(** C30. The mirror follows the primary.  From equal contents, after any session each database
    holds the effects, in order, of the operations it executed: an operation that was
    answered is executed on both, one that was answered with an error on the primary or on
    neither or on both, never on the mirror alone, and not on the mirror unless the error
    is a mirror failure.  So if every operation was answered, both hold the effects of all
    of them; otherwise they may differ by the operations that were answered with an error,
    a timed-out primary write among them. *)
Theorem mirror_follows_primary c m l w :
  distinct c m -> held (dw_primary c) w = held m w ->
  exists pqs, Forall2 (told c) (session c l w).1 pqs /\
    held (dw_primary c) (session c l w).2 = effects l (map fst pqs) (held (dw_primary c) w) /\
    held m (session c l w).2 = effects l (map snd pqs) (held (dw_primary c) w) /\
    (Forall (fun x => is_ok x = true) (session c l w).1 ->
       held m (session c l w).2 = held (dw_primary c) (session c l w).2 /\
       held m (session c l w).2 = foldl (fun s r => effect r s) (held m w) l).
Proof.
  intros Hd He.
  assert (Hgen : forall w, exists pqs, Forall2 (told c) (session c l w).1 pqs /\ length pqs = length l /\
    held (dw_primary c) (session c l w).2 = effects l (map fst pqs) (held (dw_primary c) w) /\
    held m (session c l w).2 = effects l (map snd pqs) (held m w)).
  { clear w He. induction l as [|r l IH]; intros w; [by exists []|]. cbn [session].
    pose proof (dual_perform_cases c m r w Hd) as Hc. destruct (perform deref c r w) as [x w1].
    destruct Hc as (p & q & Hp & Hq & Hx). destruct (IH w1) as (pqs & Ht & Hlen & Hp2 & Hq2).
    destruct (session c l w1) as [xs w2]. cbn [fst snd] in *. exists ((p, q) :: pqs). cbn [map effects length fst snd].
    rewrite <- Hp, <- Hq. split_and!; [|by f_equal|done|done]. constructor; [|done].
    destruct x; [by destruct Hx as [-> ->]|exact Hx]. }
  destruct (Hgen w) as (pqs & Ht & Hlen & Hp & Hq). exists pqs. rewrite <- He in Hq. split_and!; [done..|].
  intros Hok. assert (Hall : Forall (fun pq => pq = (true, true)) pqs).
  { clear -Ht Hok. induction Ht as [|x pq xs pqs Hx Ht IH]; [constructor|]. apply Forall_cons in Hok as [Ho Hok].
    constructor; [|by apply IH]. by destruct x. }
  assert (Hboth : map fst pqs = map snd pqs /\ forall s, effects l (map snd pqs) s = foldl (fun s r => effect r s) s l).
  { clear -Hall Hlen. revert l Hlen. induction Hall as [|pq pqs -> Hall IH]; intros [|r l]; try done. intros [= Hlen].
    destruct (IH l Hlen) as [H1 H2]. cbn [map fst snd]. split; [by rewrite H1|]. intros s. apply (H2 (effect r s)). }
  destruct Hboth as [Hb Hf]. rewrite Hq, Hp, Hb. split; [done|]. by rewrite Hf, He.
Qed.

(** When the mirror write fails after the primary's, the primary has taken the statement and the mirror has
    it or not; replayed on the mirror client, a statement whose effect twice is its effect
    once - which the client's callers must see to - makes them equal again. *)
Theorem replay_repairs_the_mirror c m r w e w' reply w'' :
  distinct c m -> held (dw_primary c) w = held m w ->
  (forall s, effect r (effect r s) = effect r s) ->
  is_ok (perform_ (deref (kc_client (dw_primary c))) r w).1 = true ->
  perform deref c r w = (Err (mirror_failure c e), w') ->
  exists r', replayed r = Some r' /\
    (keyed_perform deref m r' w' = (Ok reply, w'') -> held m w'' = held (dw_primary c) w'').
Proof.
  intros Hd He Hidem Hok Hf. unfold perform, keyed_perform in Hf. destruct Hd as [Hm Hne]. rewrite Hm in Hf.
  pose proof (effect_isolated _ _ r w Hne) as Hi. destruct (perform_ (deref (kc_client (dw_primary c))) r w) as [[y|e0] w0] eqn:E; cbn in *; [|done].
  apply effect_ok in E. destruct (replayed r) as [r'|] eqn:Er; [|done]. exists r'. split; [done|].
  pose proof (fun s => replayed_effect r s) as Hr. rewrite Er in Hr. unfold held, keyed_perform in *.
  destruct (perform_ (deref (kc_client m)) r' w0) as [[y'|e1] w1] eqn:E1; [done|]. injection Hf as _ <-.
  assert (Hne' : kc_client m <> kc_client (dw_primary c)) by done. pose proof (effect_isolated _ _ r' w0 Hne') as Hi1. rewrite E1 in Hi1. cbn in Hi1.
  apply effect_in_doubt in E1 as [b E1]. intros E2. pose proof (effect_isolated _ _ r' w1 Hne') as Hi2. rewrite E2 in Hi2. cbn in Hi2.
  apply effect_ok in E2. rewrite Hr in E2. destruct b; cbn [when] in E1; rewrite ?Hr in E1; [|congruence].
  rewrite E2, E1, Hidem. congruence.
Qed.

(** A bound client writes to two different databases or to one: to the shards the two
    catalogs give the key, to both only when the pointers differ and the caller declared
    the targets distinct, and never twice to one. *)
Theorem bound_client_targets d table key c :
  for_key d table key = Some (Ok c) ->
  exists ps p ms m, for_key_with_shard (primary d) table key = Some (Ok (ps, p)) /\
    for_key_with_shard (mirror d) table key = Some (Ok (ms, m)) /\ dw_primary c = p /\
    match dw_mirror c with
    | Some m' => m' = m /\ kc_client m <> kc_client p /\ identity d = WriteBoth
    | None => kc_client p = kc_client m \/ identity d = PrimaryOnly
    end.
Proof.
  unfold for_key. destruct (for_key_with_shard (primary d) table key) as [[[ps p]|]|]; [|done..].
  destruct (for_key_with_shard (mirror d) table key) as [[[ms m]|]|]; [|done..]. intros Hc.
  exists ps, p, ms, m. do 2 (split; [done|]). destruct (Nat.eqb_spec (kc_client p) (kc_client m)).
  - injection Hc as <-. cbn. auto.
  - destruct (identity d); [done | |]; injection Hc as <-; cbn; auto.
Qed.

End Spec.
End DualWriteSpec.

(** ** Two databases of statements *)

Module DualWriteDemo.
Import Rdbms Catalog Router DualWrite DualWriteSpec.

#[local] Instance demo_number : JsonNumber := {|
  Number := Z; number_as_i64 n := Some n; number_is_u64 n := (0 <=? n)%Z;
  number_as_f64 n := Some (f64_of_u64 n); number_text n := "" |}.
#[local] Instance demo_text : JsonText := {| value_text v := match v with VString s => s | _ => "?" end |}.

(** A database is the list of the writes it took, a write it has already taken changing
    nothing; one of them may cut its next call off, executed or not. *)
Definition written (r : Request) : option string :=
  match r with
  | Execute sql | ExecuteWith sql _ | QueryWrite sql _ | ExecuteThenQuery sql _ _ => Some sql
  | Rdbms.Query _ | QueryWith _ _ => None
  end.

Definition take_write (r : Request) (s : list string) : list string :=
  match written r with Some x => if decide (x ∈ s) then s else s ++ [x] | None => s end.

Record world := { dbs : nat -> list string; trouble : option (nat * bool) }.

Definition demo_answer (r : Request) : Reply :=
  match r with Execute _ | ExecuteWith _ _ => Affected 1 | _ => Rows [] end.

Definition apply_at (c : nat) (b : bool) (r : Request) (w : world) : nat -> list string :=
  fun x => if decide (x = c) then (if b then take_write r (dbs w x) else dbs w x) else dbs w x.

Definition demo_db (c : nat) : RdbmsClient world unit :=
  {| perform_ r w :=
       match trouble w with
       | Some (c', b) =>
           if decide (c' = c) then (Err (Timeout_ "cut off"), {| dbs := apply_at c b r w; trouble := None |})
           else (Ok (demo_answer r), {| dbs := apply_at c true r w; trouble := trouble w |})
       | None => (Ok (demo_answer r), {| dbs := apply_at c true r w; trouble := None |})
       end;
     begin_ w := (Ok tt, w); replica_lag _ := None; dialect_ := Postgres |}.

#[local] Instance demo_databases : Databases (S := list string) demo_db.
Proof.
  refine {| content c w := dbs w c; effect := take_write |}.
  - intros c r w reply w' E. cbn in E. destruct (trouble w) as [[c' b]|]; [destruct (decide _); [done|]|];
      injection E as _ <-; cbn; unfold apply_at; by rewrite decide_True.
  - intros c r w e w' E. cbn in E. destruct (trouble w) as [[c' b]|]; [destruct (decide _); [|done]|done].
    injection E as _ <-. cbn. unfold apply_at. rewrite decide_True by done. destruct b; [by right|by left].
  - intros c c' r w Hne. cbn. destruct (trouble w) as [[c1 b]|]; [destruct (decide _)|]; cbn; unfold apply_at; by rewrite decide_False by congruence.
  - done.
  - done.
Defined.

Lemma take_write_twice r s : take_write r (take_write r s) = take_write r s.
Proof.
  unfold take_write. destruct (written r) as [x|]; [|done]. destruct (decide (x ∈ s)) as [Hx|Hx]; [by rewrite decide_True|].
  rewrite decide_True; [done|]. apply elem_of_app. right. by left.
Qed.

Definition users (shards : list string) : ShardCatalog :=
  {| tables := [{| tb_name := "users"; key := "uid"; pk := "id"; algorithm := HashMod (Z.of_nat (length shards));
       shards := (fun s => {| ep_name := s; url := None |}) <$> shards |}] |}.

Definition old_router : ShardRouter nat := {| catalog := users ["a"]; clients := {["a" := 0]} |}.
Definition new_router : ShardRouter nat := {| catalog := users ["b"]; clients := {["b" := 1]} |}.
Definition demo_dual : DualWrite := assume_distinct (before_cutover old_router new_router).

Definition demo_primary : KeyedClient nat := {| kc_client := 0; kc_table := "users" |}.
Definition demo_mirror : KeyedClient nat := {| kc_client := 1; kc_table := "users" |}.
Definition demo_client : DualWriteClient := {| dw_primary := demo_primary; dw_mirror := Some demo_mirror |}.
Definition empty_world (d : option (nat * bool)) : world := {| dbs _ := []; trouble := d |}.

Lemma demo_distinct : distinct demo_client demo_mirror.
Proof. by split. Qed.

Lemma bound_client_targets_witness :
  exists ps p ms m, for_key_with_shard (primary demo_dual) "users" (VString "bob") = Some (Ok (ps, p)) /\
    for_key_with_shard (mirror demo_dual) "users" (VString "bob") = Some (Ok (ms, m)) /\ dw_primary demo_client = p /\
    demo_mirror = m /\ kc_client m <> kc_client p /\ identity demo_dual = WriteBoth.
Proof. exact (bound_client_targets demo_dual "users" (VString "bob") demo_client eq_refl). Defined.

Definition demo_session : list Request :=
  [Execute "INSERT INTO users VALUES (1)"; Rdbms.Query "SELECT 1"; ExecuteThenQuery "UPDATE users" [] "SELECT 2"].

Definition demo_end (d : option (nat * bool)) := session demo_db demo_client demo_session (empty_world d).

(** A session that is answered; and one whose first write times out on the primary, which
    executed it. *)
Lemma mirror_follows_primary_witness :
  held demo_db demo_mirror (demo_end None).2 = ["INSERT INTO users VALUES (1)"; "UPDATE users"] /\
  held demo_db demo_mirror (demo_end None).2 = held demo_db demo_primary (demo_end None).2 /\
  exists pqs, Forall2 (told demo_client) (demo_end (Some (0, true))).1 pqs /\
    ["INSERT INTO users VALUES (1)"; "UPDATE users"] = effects demo_db demo_session (map fst pqs) [] /\
    ["UPDATE users"] = effects demo_db demo_session (map snd pqs) [].
Proof.
  destruct (mirror_follows_primary (DB := demo_databases) demo_db demo_client demo_mirror demo_session (empty_world None) demo_distinct eq_refl) as (_ & _ & _ & _ & H1).
  destruct (mirror_follows_primary (DB := demo_databases) demo_db demo_client demo_mirror demo_session (empty_world (Some (0, true))) demo_distinct eq_refl)
    as (pqs & Ht & Hp & Hq & _).
  destruct H1 as [He Hf]; [by repeat constructor|]. split; [exact Hf|]. split; [exact He|].
  exists pqs. split; [exact Ht|]. split; [exact Hp|exact Hq].
Defined.

(** The mirror executed the write and timed out. *)
Lemma replay_repairs_the_mirror_witness :
  let w' := (perform demo_db demo_client (Execute "INSERT") (empty_world (Some (1, true)))).2 in
  let w'' := (keyed_perform demo_db demo_mirror (Execute "INSERT") w').2 in
  exists r', replayed (Execute "INSERT") = Some r' /\
    (keyed_perform demo_db demo_mirror r' w' = (Ok (Affected 1), w'') ->
     held demo_db demo_mirror w'' = held demo_db demo_primary w'').
Proof.
  exact (replay_repairs_the_mirror (DB := demo_databases) demo_db demo_client demo_mirror (Execute "INSERT") (empty_world (Some (1, true))) (Timeout_ "cut off")
    _ (Affected 1) _ demo_distinct eq_refl (take_write_twice (Execute "INSERT")) eq_refl eq_refl).
Defined.

End DualWriteDemo.
