(* ===== verification/Security.v ===== *)
(** * Attack scanning (ecat-security)

    [SecurityLayer] scans the URI and the headers of a request, [SecurityBodyLayer] also
    its body, with the detectors of the security_rust crate: a parameter that answers, for
    a text, what it found.  A request found dangerous does not reach the service. *)

From S2P Require Import Prelude Json Text.

Local Open Scope Z_scope.
Local Open Scope ecat_scope.

(** The crate's severities, results and scanner. *)
Class Detectors := {
  Severity : Type;
  is_high_or_critical : Severity -> bool;
  attack_scan : string -> list (string * Severity)
}.

Module Security.

Inductive SecurityError :=
| AttackBlocked (types : string)
| BodyTooLarge
| Inner (m : string).

Definition to_http_status (e : SecurityError) : Z :=
  match e with AttackBlocked _ => 403 | BodyTooLarge => 413 | Inner _ => 500 end.

(** *** Percent-decoding *)

Definition hex_val (b : Z) : option Z :=
  if between 48 b 57 then Some (b - 48)
  else if between 97 b 102 then Some (b - 97 + 10)
  else if between 65 b 70 then Some (b - 65 + 10)
  else None.

Fixpoint decode_bytes (l : list Z) : list Z :=
  match l with
  | [] => []
  | b :: l1 =>
      match l1 with
      | h :: (x :: rest) as l2 =>
          if b =? 37 then
            match hex_val h, hex_val x with
            | Some h', Some l' => (h' * 16 + l') :: decode_bytes rest
            | _, _ => b :: decode_bytes l1
            end
          else b :: decode_bytes l1
      | _ => b :: decode_bytes l1
      end
  end.

Definition percent_decode (s : string) : string := Utf8.from_utf8_lossy (decode_bytes (bytes_of s)).

(** *** What is scanned *)

(** Header names are lower case; [None] is a value that is not visible ASCII. *)
Record Request := { uri : string; headers : list (string * option string); body : list Z }.

Definition is_proxy_header (name : string) : bool :=
  bool_decide (name ∈ ["x-forwarded-for"; "x-real-ip"; "forwarded"; "x-forwarded-host"; "x-forwarded-proto";
                       "x-forwarded-port"; "authorization"]).

Fixpoint header_parts (l : list (string * option string)) : list string :=
  match l with
  | [] => []
  | (name, value) :: l =>
      if is_proxy_header name then header_parts l
      else match value with Some v => v :: header_parts l | None => header_parts l end
  end.

Definition request_parts (r : Request) : list string := percent_decode (uri r) :: header_parts (headers r).

Section Scan.
Context {DT : Detectors}.

Definition DetectionResult : Type := string * Severity.

Definition scan_parts (parts : list string) : list DetectionResult := parts ≫= attack_scan.

Definition scan_body (b : list Z) : list DetectionResult :=
  match Utf8.from_utf8 b with Some s => attack_scan s | None => [] end.

(** A JWT is only logged. *)
Definition blocks (r : DetectionResult) : bool := negb (String.eqb r.1 "jwt_attack") && is_high_or_critical r.2.

Fixpoint join (sep : string) (l : list string) : string :=
  match l with
  | [] => ""
  | [x] => x
  | x :: l => x +:+ sep +:+ join sep l
  end.

Definition evaluate (results : list DetectionResult) : option SecurityError :=
  if existsb blocks results then Some (AttackBlocked (join ", " (fst <$> results))) else None.

(** *** The services *)

(** A response of the layer, or the service called with the request. *)
Inductive handled := Refused (status : Z) | Passed (r : Request).

(** [SecurityService]: the refusal is a response. *)
Definition call (r : Request) : result handled SecurityError :=
  match evaluate (scan_parts (request_parts r)) with
  | Some e => Ok (Refused (to_http_status e))
  | None => Ok (Passed r)
  end.

(** What [to_bytes] answers when it does not answer the body. *)
Inductive read_error := LengthLimitError | OtherRead (m : string).

Definition read_failed (e : read_error) : SecurityError :=
  match e with LengthLimitError => BodyTooLarge | OtherRead m => Inner m end.

(** [SecurityBodyService]: the refusal is an error; [to_bytes] collects the body up to the
    limit. *)
Definition call_body (to_bytes : list Z -> nat -> result (list Z) read_error) (body_limit : nat) (r : Request)
    : result handled SecurityError :=
  let header_results := scan_parts (request_parts r) in
  let? bytes := map_err read_failed (to_bytes (body r) body_limit) in
  match evaluate (header_results ++ scan_body bytes) with
  | Some e => Err e
  | None => Ok (Passed {| uri := uri r; headers := headers r; body := bytes |})
  end.

End Scan.
End Security.
