(* ===== verification/SecuritySpec.v ===== *)
(** * What the scanning layers catch

    A request that passes had nothing dangerous in its decoded URI, its scanned headers and
    its body; no percent-encoding of a URI hides an attack from the scanner.  A body with
    one byte that is not UTF-8 is not scanned at all. *)

From S2P Require Import Prelude Json Text GraphQL GraphQLFacts Security.

Local Open Scope Z_scope.
Local Open Scope ecat_scope.

Module SecuritySpec.
Import Security.

(** The bytes [e] are a percent-encoding of [d]: any byte may be written as two
    hexadecimal digits, and a per cent sign has to be. *)
Inductive encodes : list Z -> list Z -> Prop :=
| E_end : encodes [] []
| E_plain b d e : b <> 37 -> encodes d e -> encodes (b :: d) (b :: e)
| E_hex h l x y d e : hex_val h = Some x -> hex_val l = Some y -> encodes d e -> encodes ((x * 16 + y) :: d) (37 :: h :: l :: e).

Lemma decode_plain b e : b <> 37 -> decode_bytes (b :: e) = b :: decode_bytes e.
Proof. intros Hb. cbn. destruct e as [|h [|x e]]; try done. by assert (b =? 37 = false) as -> by lia. Qed.

Lemma decode_encoded d e : encodes d e -> decode_bytes e = d.
Proof.
  induction 1 as [|b d e Hb _ IH|h l x y d e Hh Hl _ IH]; [done| |].
  - by rewrite decode_plain, IH.
  - cbn. by rewrite Hh, Hl, IH.
Qed.

Section Spec.
Context {DT : Detectors}.

Definition dangerous (text : string) : bool := existsb blocks (attack_scan text).

Lemma scan_parts_blocks parts : existsb blocks (scan_parts parts) = existsb dangerous parts.
Proof. unfold scan_parts. induction parts as [|p parts IH]; [done|].
  etransitivity; [apply existsb_app|]. cbn [existsb]. f_equal. exact IH.
Qed.

Lemma evaluate_none results : evaluate results = None <-> existsb blocks results = false.
Proof. unfold evaluate. by destruct (existsb blocks results). Qed.

(** C31. Whatever percent-encoding a client writes its URI in, an attack the scanner finds in
    the decoded text is refused with 403. *)
Theorem encoding_hides_no_attack r d :
  encodes d (bytes_of (uri r)) -> Utf8.valid d = true -> dangerous (of_bytes d) = true ->
  call r = Ok (Refused 403).
Proof.
  intros He Hv Hd. unfold call, evaluate. rewrite scan_parts_blocks. unfold request_parts, percent_decode.
  rewrite (decode_encoded d _ He), Utf8.lossy_valid by done. cbn [existsb]. by rewrite Hd.
Qed.

Lemma header_parts_in l name v :
  (name, Some v) ∈ l -> is_proxy_header name = false -> v ∈ header_parts l.
Proof.
  induction l as [|[n o] l IH]; intros Hin Hp; [by apply not_elem_of_nil in Hin|].
  apply elem_of_cons in Hin as [[= <- <-] | Hin]; cbn.
  - rewrite Hp. left.
  - destruct (is_proxy_header n); [by apply IH|]. destruct o; [right|]; by apply IH.
Qed.

(** A request that passes the body layer is the one received, with its whole body, and
    no detector found anything dangerous in its decoded URI, in a header that is not a
    proxy's, or in a body that is text. *)
Theorem passed_request_is_clean to_bytes limit r r' :
  call_body to_bytes limit r = Ok (Passed r') ->
  uri r' = uri r /\ headers r' = headers r /\ to_bytes (body r) limit = Ok (body r') /\
  dangerous (percent_decode (uri r')) = false /\
  (forall name v, (name, Some v) ∈ headers r' -> is_proxy_header name = false -> dangerous v = false) /\
  (Utf8.valid (body r') = true -> dangerous (of_bytes (body r')) = false).
Proof.
  unfold call_body. destruct (to_bytes (body r) limit) as [b|e]; [|done]. cbn [map_err rbind].
  destruct (evaluate _) eqn:Ev; [done|]. intros [= <-]. apply evaluate_none in Ev. rewrite existsb_app in Ev.
  apply orb_false_iff in Ev as [Hp Hb]. rewrite scan_parts_blocks in Hp. unfold request_parts in Hp. cbn [existsb] in Hp.
  apply orb_false_iff in Hp as [Hu Hh]. cbn [uri headers body]. do 4 (split; [done|]). split.
  - intros name v Hin Hn. pose proof (header_parts_in _ _ _ Hin Hn) as Hx. destruct (dangerous v) eqn:E; [|done].
    rewrite <- Hh. symmetry. apply existsb_exists. exists v. split; [by apply list_elem_of_In | done].
  - intros Hv. unfold scan_body, Utf8.from_utf8 in Hb. by rewrite Hv in Hb.
Qed.

Lemma valid_from_end skip l : Utf8.valid_from skip (l ++ [255]) = true -> (skip >= S (length l))%nat.
Proof.
  revert skip. induction l as [|a l IH]; intros skip H; cbn in H.
  - destruct skip; [done | cbn; lia].
  - destruct skip as [|k]; [|apply IH in H; cbn; lia]. exfalso.
    destruct (Utf8.first_piece a (l ++ [255])) as [n|n] eqn:E; [|done]. apply IH in H.
    assert (Hc : forall i, (i = length l)%nat -> Utf8.continuation (Utf8.at_ (l ++ [255]) i) = false).
    { intros i ->. unfold Utf8.at_. by rewrite list_lookup_middle. }
    unfold Utf8.first_piece in E. destruct (a <? 128); [injection E as <-; lia|].
    destruct (between 194 a 223).
    { destruct (Utf8.continuation (Utf8.at_ (l ++ [255]) 0)) eqn:E0; [injection E as <-|done].
      rewrite Hc in E0; [done|lia]. }
    destruct (between 224 a 239).
    { destruct (Utf8.second_of_three _ _); [|done]. destruct (Utf8.continuation (Utf8.at_ (l ++ [255]) 1)) eqn:E1; [injection E as <-|done].
      destruct (decide (length l = 1%nat)) as [Hl|Hl]; [by rewrite Hc in E1|]. destruct l as [|b [|c l]]; cbn in *; [|lia|lia].
      unfold Utf8.at_ in E1. done. }
    destruct (between 240 a 244); [|done].
    destruct (Utf8.second_of_four _ _); [|done]. destruct (Utf8.continuation (Utf8.at_ (l ++ [255]) 1)) eqn:E1; [|done].
    destruct (Utf8.continuation (Utf8.at_ (l ++ [255]) 2)) eqn:E2; [injection E as <-|done].
    destruct l as [|b [|c [|x l]]]; cbn in *; try lia; done.
Qed.

(** A text with one more byte, 255, is no text. *)
Lemma appended_byte_invalid l : Utf8.valid (l ++ [255]) = false.
Proof. destruct (Utf8.valid (l ++ [255])) eqn:E; [|done]. apply valid_from_end in E. lia. Qed.

(** One byte that is not UTF-8 at the end of a body keeps the detectors away from it:
    the request passes, whatever the body holds. *)
Theorem one_byte_hides_the_body to_bytes limit r attack :
  body r = attack ++ [255] -> to_bytes (body r) limit = Ok (body r) -> evaluate (scan_parts (request_parts r)) = None ->
  call_body to_bytes limit r = Ok (Passed r).
Proof.
  intros Hb Ht He. unfold call_body. rewrite Ht. cbn [map_err rbind]. unfold scan_body, Utf8.from_utf8.
  rewrite Hb, appended_byte_invalid, app_nil_r, He, <- Hb. by destruct r.
Qed.

End Spec.
End SecuritySpec.

Module SecurityDemo.
Import Security SecuritySpec.

(** A detector of one word. *)
#[local] Instance demo_detectors : Detectors := {|
  Severity := bool;
  is_high_or_critical b := b;
  attack_scan text := if contains "DROP" text then [("sql_injection", true)] else []
|}.

Definition demo_request (uri : string) (body : list Z) : Request :=
  {| uri := uri; headers := [("accept", Some "text/html"); ("cookie", None)]; body := body |}.

Definition read_all (b : list Z) (limit : nat) : result (list Z) read_error :=
  if (limit <? length b)%nat then Err LengthLimitError else Ok b.

Definition demo_attack : list Z := bytes_of "DROP TABLE users".

Lemma encoding_hides_no_attack_witness : call (demo_request "/?q=D%52O%50" []) = Ok (Refused 403).
Proof.
  apply (encoding_hides_no_attack (demo_request "/?q=D%52O%50" []) (bytes_of "/?q=DROP")).
  - cbn. do 5 (apply E_plain; [discriminate|]). apply (E_hex 53 50 5 2); [done|done|]. apply E_plain; [discriminate|].
    apply (E_hex 53 48 5 0); [done|done|]. apply E_end.
  - reflexivity.
  - reflexivity.
Defined.

Lemma passed_request_is_clean_witness :
  uri (demo_request "/" [104]) = "/" /\ headers (demo_request "/" [104]) = headers (demo_request "/" [104]) /\
  read_all [104] 10 = Ok [104] /\ dangerous (percent_decode "/") = false /\
  (forall name v, (name, Some v) ∈ headers (demo_request "/" [104]) -> is_proxy_header name = false -> dangerous v = false) /\
  (Utf8.valid [104] = true -> dangerous (of_bytes [104]) = false).
Proof. exact (passed_request_is_clean read_all 10 (demo_request "/" [104]) (demo_request "/" [104]) eq_refl). Defined.

Lemma one_byte_hides_the_body_witness :
  call_body read_all 100 (demo_request "/" (demo_attack ++ [255])) = Ok (Passed (demo_request "/" (demo_attack ++ [255]))).
Proof.
  exact (one_byte_hides_the_body read_all 100 (demo_request "/" (demo_attack ++ [255])) demo_attack eq_refl eq_refl eq_refl).
Defined.

End SecurityDemo.
