(* ===== verification/TwoPhase.v ===== *)
(** * Two-phase commit ([ecat-data-2pc])

    [src/ecat-data-2pc/src/coordinator.rs] (begin, commit, rollback, abort and the
    coordination log) and [recovery.rs] (the replay of the log).

    The participants are trait objects and the log is a database: the classes
    [XaParticipant] and [TxLog] are their operations, [XaContract] and
    [TxLogContract] what the coordinator relies on.  An operation may fail before
    or after it took effect; the laws only bind what it can do to a branch.  A
    name stands for one participant: the handle [begin] is given for a name is the
    one registered under it. *)

From S2P Require Import Prelude Dialect Crash.

Local Open Scope ecat_scope.

(** *** Interfaces *)

Module Xa.

Inductive XaError :=
| UnsupportedDialect
| UnknownParticipant (name : string)
| UnknownXid (xid : string)
| State (message : string)
| DatabaseError (message : string)
| Lock (message : string).

(** [Display for XaError]. *)
Definition display (e : XaError) : string :=
  match e with
  | UnsupportedDialect => "unsupported dialect for XA"
  | UnknownParticipant p => "unknown XA participant `" +:+ p +:+ "`"
  | UnknownXid x => "XA transaction `" +:+ x +:+ "` is not active"
  | State m => "XA state: " +:+ m
  | DatabaseError m => "XA database: " +:+ m
  | Lock m => "XA lock: " +:+ m
  end.

(** The trait [XaParticipant]; [P] is a participant with whatever it talks to. *)
Class XaParticipant (P : Type) := {
  xa_start : P -> string -> result unit XaError * P;
  xa_end : P -> string -> result unit XaError * P;
  xa_prepare : P -> string -> result unit XaError * P;
  xa_commit : P -> string -> result unit XaError * P;
  xa_rollback : P -> string -> result unit XaError * P;
  xa_recover : P -> result (list string) XaError * P;
  Params : Type;
  xa_execute : P -> string -> string -> Params -> result Z XaError * P;
}.

(** The life of one branch at a participant. *)
Inductive branch := Absent | Active | Ended | Prepared | Committed | RolledBack.

#[export] Instance branch_eq_dec : EqDecision branch.
Proof. solve_decision. Defined.

(** How each call can move a branch from [b] to [b']. *)
Abbreviation start_moves b b' := (b' = b \/ (b = Absent /\ b' = Active)).
Abbreviation end_moves b b' := (b' = b \/ (b = Active /\ b' = Ended)).
Abbreviation prepare_moves b b' :=
  (b' = b \/ ((b = Active \/ b = Ended) /\ (b' = Prepared \/ b' = RolledBack))).
Abbreviation commit_moves b b' := (b' = b \/ (b = Prepared /\ b' = Committed)).
Abbreviation rollback_moves b b' := (b' = b \/ (b <> Absent /\ b <> Committed /\ b' = RolledBack)).
Abbreviation execute_moves b b' := (b' = b \/ (b = Active /\ b' = RolledBack)).

(** The XA contract: which way each call can move its branch, what a reported
    success means, and that no call touches another transaction.  A commit or
    rollback of a branch the server does not know reports success. *)
Class XaContract (P : Type) `{XaParticipant P} := {
  view : P -> string -> branch;
  crash : P -> P;
  start_law p x : let '(_, p') := xa_start p x in
    start_moves (view p x) (view p' x) /\
    forall y, y <> x -> view p' y = view p y;
  end_law p x : let '(_, p') := xa_end p x in
    end_moves (view p x) (view p' x) /\
    forall y, y <> x -> view p' y = view p y;
  prepare_law p x : let '(r, p') := xa_prepare p x in
    prepare_moves (view p x) (view p' x) /\
    (r = Ok tt -> view p' x = Prepared) /\
    forall y, y <> x -> view p' y = view p y;
  commit_law p x : let '(r, p') := xa_commit p x in
    commit_moves (view p x) (view p' x) /\
    (r = Ok tt -> view p' x <> Prepared) /\
    forall y, y <> x -> view p' y = view p y;
  rollback_law p x : let '(r, p') := xa_rollback p x in
    rollback_moves (view p x) (view p' x) /\
    (r = Ok tt -> view p' x <> Prepared) /\
    forall y, y <> x -> view p' y = view p y;
  recover_law p : let '(r, p') := xa_recover p in
    (forall x, view p' x = view p x) /\
    (forall l, r = Ok l -> forall x, x ∈ l <-> view p x = Prepared);
  execute_law p x sql args : let '(_, p') := xa_execute p x sql args in
    execute_moves (view p x) (view p' x) /\
    forall y, y <> x -> view p' y = view p y;
  (** The client process died: branches that are not prepared may be rolled back
      with their connection. *)
  crash_law p x : view (crash p) x = view p x \/
    ((view p x = Active \/ view p x = Ended) /\ view (crash p) x = RolledBack);
}.

Record LogRow := {
  id : string;
  status : string;
  participants : list string;
  decision : option string;
}.

(** The table [distributed_tx]. *)
Class TxLog (DB : Type) := {
  ensure_table : DB -> result unit XaError * DB;
  insert_row : DB -> LogRow -> result unit XaError * DB;
  update_row : DB -> string -> string -> option string -> result unit XaError * DB;
  select_status : DB -> string -> result (option string) XaError;
  select_recoverable : DB -> result (list LogRow) XaError;
}.

Definition set_row (s : string) (d : option string) (r : LogRow) : LogRow :=
  {| id := id r; status := s; participants := participants r; decision := d |}.

Definition recoverable (s : string) : bool :=
  String.eqb s "started" || String.eqb s "prepared" || String.eqb s "committing"
  || String.eqb s "rolling_back".

(** A statement that reports an error may still have been applied. *)
Class TxLogContract (DB : Type) `{TxLog DB} := {
  rows : DB -> gmap string LogRow;
  ensure_law db : rows (ensure_table db).2 = rows db;
  insert_law db r : let '(res, db') := insert_row db r in
    (rows db' = rows db \/ rows db' = <[id r := r]> (rows db)) /\
    (res = Ok tt -> rows db' = <[id r := r]> (rows db));
  update_law db x s d : let '(res, db') := update_row db x s d in
    (rows db' = rows db \/ rows db' = alter (set_row s d) x (rows db)) /\
    (res = Ok tt -> rows db' = alter (set_row s d) x (rows db));
  status_law db x o : select_status db x = Ok o -> o = status <$> rows db !! x;
  recoverable_law db l : select_recoverable db = Ok l ->
    (forall r, r ∈ l <-> rows db !! id r = Some r /\ recoverable (status r) = true) /\
    NoDup (map id l);
}.

End Xa.

Module Coordinator.
Import Xa.

Section Coordinator.
Context {P DB F G : Type} `{XP : XaParticipant P} `{TL : TxLog DB}.
(** The database dialect, and the lock behind [with_fence] ([ecat_lock]). *)
Context (dialect : Dialect).
Context (acquire_fenced : F -> result (option G) string * F).
Context (release : F -> G -> result unit string * F).

(** The outside world: the registered participants, the log, the fence. *)
Record world := { parts : gmap string P; db : DB; fence : option F }.

Definition set_parts (m : gmap string P) (w : world) : world :=
  {| parts := m; db := db w; fence := fence w |}.
Definition set_db (d : DB) (w : world) : world :=
  {| parts := parts w; db := d; fence := fence w |}.

Local Abbreviation M := (M world XaError).

(** A call on the participant registered under a name. *)
Definition on {A} (f : P -> result A XaError * P) (name : string) : M A :=
  effect (fun w => match parts w !! name with
                   | None => (Err (UnknownParticipant name), w)
                   | Some p => let '(r, p) := f p in (r, set_parts (<[name := p]> (parts w)) w)
                   end).

Definition xa_start (x : string) := on (fun p => Xa.xa_start p x).
Definition xa_end (x : string) := on (fun p => Xa.xa_end p x).
Definition xa_prepare (x : string) := on (fun p => Xa.xa_prepare p x).
Definition xa_commit (x : string) := on (fun p => Xa.xa_commit p x).
Definition xa_rollback (x : string) := on (fun p => Xa.xa_rollback p x).
Definition xa_recover := on (fun p => Xa.xa_recover p).

Definition state_dialect : result unit XaError :=
  match dialect with Mssql => Err UnsupportedDialect | _ => Ok tt end.

Definition ensure_schema : M unit :=
  do! _ := ret state_dialect in
  effect (fun w => let '(r, d) := ensure_table (db w) in (r, set_db d w)).

Definition insert_log (x s : string) (names : list string) (d : option string) : M unit :=
  do! _ := ret state_dialect in
  effect (fun w =>
    let '(r, d) := insert_row (db w) {| id := x; status := s; participants := names; decision := d |}
    in (r, set_db d w)).

Definition set_log (x s : string) (d : option string) : M unit :=
  do! _ := ret state_dialect in
  effect (fun w => let '(r, d) := update_row (db w) x s d in (r, set_db d w)).

Definition read_status (x : string) : M (option string) :=
  do! _ := ret state_dialect in
  effect (fun w => (select_status (db w) x, w)).

Definition recoverable_logs : M (list LogRow) :=
  do! _ := ret state_dialect in
  effect (fun w => (select_recoverable (db w), w)).

(** [let _ = m.await]. *)
Definition ignore {A} (m : M A) : M unit := do! _ := try m in ret (Ok tt).

(** *** Begin *)

(** The checks before anything is written. *)
Fixpoint check_names (registered : gset string) (seen : gset string) (names : list string)
    : result unit XaError :=
  match names with
  | [] => Ok tt
  | n :: names =>
      if decide (n ∈ seen) then Err (State ("duplicate participant `" +:+ n +:+ "`"))
      else if decide (n ∈ registered) then check_names registered ({[n]} ∪ seen) names
      else Err (State ("participant `" +:+ n +:+ "` is not registered with the coordinator"))
  end.

(** [rollback_started]: the started participants, latest first. *)
Fixpoint rollback_started (x : string) (l : list string) : M unit :=
  match l with
  | [] => ret (Ok tt)
  | n :: l =>
      do! _ := ignore (xa_end x n) in
      do! _ := xa_rollback x n in
      rollback_started x l
  end.

Fixpoint start_all (x : string) (started names : list string) : M (list string) :=
  match names with
  | [] => ret (Ok started)
  | n :: names =>
      do! r := try (xa_start x n) in
      match r with
      | Ok _ => start_all x (started ++ [n]) names
      | Err e =>
          do! _ := ignore (xa_end x n) in
          do! _ := ignore (xa_rollback x n) in
          do! rollback := try (rollback_started x (reverse started)) in
          do! _ := (if is_ok rollback
                    then ignore (set_log x "rolled_back" (Some "rollback"))
                    else ret (Ok tt)) in
          ret (Err (State ("participant `" +:+ n +:+ "` XA START failed: " +:+ display e)))
      end
  end.

(** [DistributedTx]: the identifier and the started participants. *)
Record DistributedTx := { tx_id : string; tx_participants : list string }.

(** [uuid] is the fresh identifier [Uuid::new_v4] returns. *)
Definition begin (uuid : string) (names : list string) : M DistributedTx :=
  match names with
  | [] => ret (Err (State "2PC requires at least one participant"))
  | _ =>
      do! registered := get (fun w => dom (parts w)) in
      do! _ := ret (check_names registered ∅ names) in
      do! _ := ensure_schema in
      do! _ := insert_log uuid "started" names None in
      do! started := start_all uuid [] names in
      ret (Ok {| tx_id := uuid; tx_participants := started |})
  end.

(** [DistributedTx::execute]. *)
Definition execute (tx : DistributedTx) (name sql : string) (args : Params) : M Z :=
  if decide (name ∈ tx_participants tx)
  then on (fun p => xa_execute p (tx_id tx) sql args) name
  else ret (Err (UnknownParticipant name)).

(** *** Commit, rollback, abort *)

(** A loop over participants whose first failure is handed to [handler]. *)
Fixpoint for_participants (op : string -> M unit) (names : list string)
    : M (option (string * XaError)) :=
  match names with
  | [] => ret (Ok None)
  | n :: names =>
      do! r := try (op n) in
      match r with
      | Ok _ => for_participants op names
      | Err e => ret (Ok (Some (n, e)))
      end
  end.

Definition failed (what : string) (ne : string * XaError) : XaError :=
  State ("participant `" +:+ ne.1 +:+ "` XA " +:+ what +:+ " failed: " +:+ display ne.2).

(** The reverse loop of [rollback] and [abort]: END ignored, ROLLBACK checked. *)
Definition rollback_one (x : string) (n : string) : M unit :=
  do! _ := ignore (xa_end x n) in xa_rollback x n.

Definition abort (tx : DistributedTx) (original : XaError) : M unit :=
  do! _ := set_log (tx_id tx) "rolling_back" (Some "rollback") in
  do! r := for_participants (rollback_one (tx_id tx)) (reverse (tx_participants tx)) in
  match r with
  | Some (_, e) =>
      ret (Err (State (display original +:+ "; rollback failed: " +:+ display e)))
  | None =>
      do! _ := set_log (tx_id tx) "rolled_back" (Some "rollback") in
      ret (Err original)
  end.

Definition commit (tx : DistributedTx) : M unit :=
  do! s := read_status (tx_id tx) in
  if decide (s = Some "committed") then ret (Ok tt)
  else if decide (s = Some "rolled_back")
  then ret (Err (State ("distributed tx `" +:+ tx_id tx +:+ "` was rolled back")))
  else
    do! r := for_participants (xa_end (tx_id tx)) (tx_participants tx) in
    match r with
    | Some ne => abort tx (failed "END" ne)
    | None =>
        do! r := for_participants (xa_prepare (tx_id tx)) (tx_participants tx) in
        match r with
        | Some ne => abort tx (failed "PREPARE" ne)
        | None =>
            do! _ := set_log (tx_id tx) "prepared" None in
            do! _ := set_log (tx_id tx) "committing" (Some "commit") in
            do! r := for_participants (xa_commit (tx_id tx)) (tx_participants tx) in
            match r with
            | Some ne => ret (Err (failed "COMMIT" ne))
            | None => set_log (tx_id tx) "committed" (Some "commit")
            end
        end
    end.

Definition rollback (tx : DistributedTx) : M unit :=
  do! s := read_status (tx_id tx) in
  if decide (s = Some "rolled_back") then ret (Ok tt)
  else if decide (s = Some "committed")
  then ret (Err (State ("distributed tx `" +:+ tx_id tx +:+ "` was committed")))
  else
    do! _ := set_log (tx_id tx) "rolling_back" (Some "rollback") in
    do! r := for_participants (rollback_one (tx_id tx)) (reverse (tx_participants tx)) in
    match r with
    | Some ne => ret (Err (failed "ROLLBACK" ne))
    | None => set_log (tx_id tx) "rolled_back" (Some "rollback")
    end.

(** *** Recovery *)

Record RecoveryReport := { recovered : Z; failed_count : Z }.

Definition should_commit (r : LogRow) : bool :=
  if String.eqb (status r) "started" then false
  else if String.eqb (status r) "rolling_back" then false
  else if String.eqb (status r) "prepared"
  then negb (bool_decide (decision r = Some "rollback"))
  else String.eqb (status r) "committing".

(** [already_resolved]: the participant answers and does not list the branch. *)
Definition already_resolved (x n : string) : M bool :=
  do! r := try (xa_recover n) in
  match r with
  | Ok in_doubt => ret (Ok (negb (bool_decide (x ∈ in_doubt))))
  | Err _ => ret (Ok false)
  end.

Definition skip_check (cross_check : bool) (x n : string) : M bool :=
  if cross_check then already_resolved x n else ret (Ok false).

Fixpoint replay_commit (x : string) (cross_check : bool) (names : list string) : M unit :=
  match names with
  | [] => set_log x "committed" (Some "commit")
  | n :: names =>
      do! skip := skip_check cross_check x n in
      do! _ := (if skip then ret (Ok tt) else xa_commit x n) in
      replay_commit x cross_check names
  end.

Fixpoint replay_rollback (x : string) (cross_check : bool) (names : list string) : M unit :=
  match names with
  | [] => set_log x "rolled_back" (Some "rollback")
  | n :: names =>
      do! skip := skip_check cross_check x n in
      do! _ := (if skip then ret (Ok tt) else rollback_one x n) in
      replay_rollback x cross_check names
  end.

Definition recover_commit (x : string) (names : list string) (cross_check : bool) : M unit :=
  replay_commit x cross_check names.
Definition recover_rollback (x : string) (names : list string) (cross_check : bool) : M unit :=
  replay_rollback x cross_check (reverse names).

(** One row of [recover_locked]; [None] when a participant is not registered. *)
Definition recover_row (r : LogRow) : M (option (result unit XaError)) :=
  do! registered := get (fun w => dom (parts w)) in
  if forallb (fun n => bool_decide (n ∈ registered)) (participants r) then
    let cross_check := String.eqb (status r) "prepared" || String.eqb (status r) "committing" in
    do! out := try (if should_commit r
                    then recover_commit (id r) (participants r) cross_check
                    else recover_rollback (id r) (participants r) cross_check) in
    ret (Ok (Some out))
  else ret (Ok None).

Fixpoint recover_rows (l : list LogRow) (rep : RecoveryReport) : M RecoveryReport :=
  match l with
  | [] => ret (Ok rep)
  | r :: l =>
      do! out := recover_row r in
      recover_rows l
        (match out with
         | Some (Ok _) => {| recovered := u32_add (recovered rep) 1; failed_count := failed_count rep |}
         | _ => {| recovered := recovered rep; failed_count := u32_add (failed_count rep) 1 |}
         end)
  end.

Definition recover_locked : M RecoveryReport :=
  do! l := recoverable_logs in
  recover_rows l {| recovered := 0; failed_count := 0 |}.

Definition acquire_fence : M (option G) :=
  effect (fun w => match fence w with
    | None => (Ok None, w)
    | Some f =>
        let '(r, f) := acquire_fenced f in
        (match r with
         | Err e => Err (Lock e)
         | Ok None => Err (Lock "another recovery holds the fence")
         | Ok (Some g) => Ok (Some g)
         end, {| parts := parts w; db := db w; fence := Some f |})
    end).

Definition release_fence (guard : option G) : M unit :=
  effect (fun w => match fence w, guard with
    | Some f, Some g =>
        let '(r, f) := release f g in
        (map_err Lock r, {| parts := parts w; db := db w; fence := Some f |})
    | _, _ => (Ok tt, w)
    end).

Definition recover : M RecoveryReport :=
  do! _ := ensure_schema in
  do! guard := acquire_fence in
  do! out := try recover_locked in
  do! released := try (release_fence guard) in
  match out with
  | Ok report => do! _ := ret released in ret (Ok report)
  | Err e => ret (Err e)
  end.

End Coordinator.
Arguments world : clear implicits.
End Coordinator.
