(* ===== verification/TwoPhaseFacts.v ===== *)
(** * Two-phase commit: the invariant of the log

    What a log row says of the branches of its transaction ([consistent]), and that
    every operation of [TwoPhase.Coordinator] keeps it at every point where the
    process can die ([wp_begin], [wp_commit], [wp_rollback], [wp_recover]). *)

From S2P Require Import Prelude Dialect Crash TwoPhase.

Local Open Scope ecat_scope.

Module CoordinatorFacts.
Import Xa Coordinator.

Section Facts.
Context {P DB F G : Type} `{XC : XaContract P} `{TC : TxLogContract DB}.
Context (dialect : Dialect).

Local Abbreviation world := (world P DB F).
Local Abbreviation xa_start := (Coordinator.xa_start (P := P) (DB := DB) (F := F)).
Local Abbreviation xa_end := (Coordinator.xa_end (P := P) (DB := DB) (F := F)).
Local Abbreviation xa_prepare := (Coordinator.xa_prepare (P := P) (DB := DB) (F := F)).
Local Abbreviation xa_commit := (Coordinator.xa_commit (P := P) (DB := DB) (F := F)).
Local Abbreviation xa_rollback := (Coordinator.xa_rollback (P := P) (DB := DB) (F := F)).
Local Abbreviation set_log := (Coordinator.set_log (P := P) (F := F) dialect).

(** The branch of transaction [x] at the participant named [n]. *)
Definition pv (w : world) (n x : string) : branch :=
  match parts w !! n with Some p => view p x | None => Absent end.

Definition row (w : world) (x : string) : option LogRow := rows (db w) !! x.

Definition commit_side (s : string) : bool :=
  String.eqb s "prepared" || String.eqb s "committing" || String.eqb s "committed".

(** What the log row of [x] says of the branches. *)
Definition row_ok (w : world) (x : string) (r : LogRow) : Prop :=
  id r = x /\ NoDup (participants r) /\
  (status r = "committed" -> forall n, n ∈ participants r -> pv w n x = Committed) /\
  (commit_side (status r) = true ->
     decision r <> Some "rollback" /\
     forall n, n ∈ participants r -> pv w n x = Prepared \/ pv w n x = Committed) /\
  (commit_side (status r) = false -> forall n, n ∈ participants r -> pv w n x <> Committed) /\
  (status r = "rolled_back" -> forall n, n ∈ participants r -> pv w n x <> Prepared).

Definition consistent (w : world) (x : string) : Prop :=
  match row w x with
  | None => forall n, pv w n x = Absent
  | Some r => row_ok w x r
  end.

(** Nothing but transaction [x] has changed. *)
Definition frame (x : string) (w w' : world) : Prop :=
  dom (parts w') = dom (parts w) /\
  forall y, y <> x -> row w' y = row w y /\ forall n, pv w' n y = pv w n y.

Lemma frame_refl x w : frame x w w.
Proof. split; [done|]. auto. Qed.

Lemma frame_trans x w1 w2 w3 : frame x w1 w2 -> frame x w2 w3 -> frame x w1 w3.
Proof.
  intros [Hd1 Hf1] [Hd2 Hf2]. split; [congruence|]. intros y Hy.
  destruct (Hf1 y Hy) as [Hr1 Hp1], (Hf2 y Hy) as [Hr2 Hp2].
  split; [congruence|]. intros n. by rewrite Hp2.
Qed.

Lemma consistent_frame x w w' :
  (forall y, consistent w y) -> frame x w w' -> consistent w' x -> forall y, consistent w' y.
Proof.
  intros Hc [_ Hf] Hx y. destruct (decide (y = x)) as [->|Hy]; [done|].
  destruct (Hf y Hy) as [Hr Hp]. specialize (Hc y). unfold consistent, row_ok in *. rewrite Hr.
  destruct (row w y) as [r|]; [|intros n; by rewrite Hp].
  setoid_rewrite Hp. exact Hc.
Qed.

(** *** The calls *)

(** One branch moved, nothing else. *)
Definition moved (x n : string) (w w' : world) : Prop :=
  dom (parts w') = dom (parts w) /\ db w' = db w /\
  forall m y, (m, y) <> (n, x) -> pv w' m y = pv w m y.

Lemma moved_frame x n w w' : moved x n w w' -> frame x w w'.
Proof.
  intros (Hd & Hdb & Hp). split; [done|]. intros y Hy. split; [by unfold row; rewrite Hdb|].
  intros m. apply Hp. congruence.
Qed.

Lemma moved_row x n w w' y : moved x n w w' -> row w' y = row w y.
Proof. intros (_ & Hdb & _). unfold row. by rewrite Hdb. Qed.

Lemma moved_other x n w w' m : moved x n w w' -> m <> n -> pv w' m x = pv w m x.
Proof. intros (_ & _ & Hp) Hm. apply Hp. congruence. Qed.

Lemma wp_on {A} (f : P -> result A XaError * P) x n (Q : result A XaError -> world -> Prop) I w :
  I w ->
  (parts w !! n = None -> Q (Err (UnknownParticipant n)) w) ->
  (forall p r p', parts w !! n = Some p -> f p = (r, p') ->
     (forall y, y <> x -> view p' y = view p y) -> forall w', moved x n w w' ->
     pv w n x = view p x -> pv w' n x = view p' x -> Q r w') ->
  (forall p, forall y, y <> x -> view (f p).2 y = view p y) ->
  wp (on f n) Q I w.
Proof.
  intros Hi Hnone Hq Hl. apply wp_effect; [done|].
  destruct (parts w !! n) as [p|] eqn:Hp; simpl; [|auto].
  specialize (Hl p). destruct (f p) as [r p'] eqn:Hf. simpl in *.
  eapply Hq; [done|exact Hf|exact Hl|..].
  - split_and!; simpl; [|done|].
    + rewrite dom_insert_L. assert (n ∈ dom (parts w)) by (by apply elem_of_dom_2 in Hp). set_solver.
    + intros m y Hne. unfold pv; simpl. destruct (decide (m = n)) as [->|Hmn].
      * rewrite lookup_insert_eq, Hp. apply Hl. congruence.
      * by rewrite lookup_insert_ne.
  - unfold pv. by rewrite Hp.
  - unfold pv; simpl. by rewrite lookup_insert_eq.
Qed.

Lemma moved_refl x n w : moved x n w w.
Proof. done. Qed.

(** A specification of each call in terms of [moved] and [pv]. *)
Definition call_spec (m : M world XaError unit) (x n : string)
    (R : result unit XaError -> branch -> branch -> Prop) : Prop :=
  forall Q (I : world -> Prop) w, I w ->
    (forall r w', moved x n w w' -> R r (pv w n x) (pv w' n x) -> Q r w') -> wp m Q I w.

Ltac call_spec_tac law :=
  match goal with |- call_spec _ ?x ?n _ =>
    intros Q I w Hi Hq; apply (wp_on _ x n _ _ _ Hi);
    [ intros Hnone; apply Hq; [apply moved_refl|]; unfold pv; rewrite Hnone; naive_solver
    | intros p r p' Hp Hf _ w' Hm Hv Hv'; apply Hq; [done|]; rewrite Hv, Hv';
      pose proof (law p) as Hl; cbv beta in Hl; rewrite Hf in Hl; tauto
    | intros p; pose proof (law p) as Hl; cbv beta in Hl ]
  end.

Lemma start_spec x n :
  call_spec (xa_start x n) x n (fun _ b b' => b' = b \/ (b = Absent /\ b' = Active)).
Proof.
  call_spec_tac (fun p => start_law p x). destruct (Xa.xa_start p x); tauto.
Qed.

Lemma end_spec x n :
  call_spec (xa_end x n) x n (fun _ b b' => b' = b \/ (b = Active /\ b' = Ended)).
Proof. call_spec_tac (fun p => end_law p x). destruct (Xa.xa_end p x); tauto. Qed.

Lemma prepare_spec x n :
  call_spec (xa_prepare x n) x n (fun r b b' =>
    (b' = b \/ ((b = Active \/ b = Ended) /\ (b' = Prepared \/ b' = RolledBack))) /\
    (r = Ok tt -> b' = Prepared)).
Proof. call_spec_tac (fun p => prepare_law p x). destruct (Xa.xa_prepare p x); tauto. Qed.

Lemma commit_spec x n :
  call_spec (xa_commit x n) x n (fun r b b' =>
    (b' = b \/ (b = Prepared /\ b' = Committed)) /\ (r = Ok tt -> b' <> Prepared)).
Proof. call_spec_tac (fun p => commit_law p x). destruct (Xa.xa_commit p x); tauto. Qed.

Lemma rollback_spec x n :
  call_spec (xa_rollback x n) x n (fun r b b' =>
    (b' = b \/ (b <> Absent /\ b <> Committed /\ b' = RolledBack)) /\
    (r = Ok tt -> b' <> Prepared)).
Proof. call_spec_tac (fun p => rollback_law p x). destruct (Xa.xa_rollback p x); tauto. Qed.

Lemma wp_set_log x s d Q (I : world -> Prop) w :
  I w ->
  (forall r w', parts w' = parts w ->
     (rows (db w') = rows (db w) \/ rows (db w') = alter (set_row s d) x (rows (db w))) ->
     (r = Ok tt -> rows (db w') = alter (set_row s d) x (rows (db w))) -> Q r w') ->
  wp (set_log x s d) Q I w.
Proof.
  intros Hi Hq. unfold Coordinator.set_log, state_dialect. apply wp_bind, wp_ret.
  assert (He : wp (effect (fun w : world =>
    let '(r, d) := update_row (db w) x s d in (r, Coordinator.set_db d w))) Q I w).
  { apply wp_effect; [done|]. pose proof (update_law (db w) x s d) as Hl.
    destruct (update_row _ _ _ _) as [r db']. simpl. apply Hq; tauto. }
  destruct dialect; auto. apply Hq; [done|by left|done].
Qed.

Lemma wp_ignore {A} (m : M world XaError A) Q (I : world -> Prop) w :
  wp m (fun _ w' => Q (Ok tt) w') I w -> wp (ignore m) Q I w.
Proof.
  intros Hm. unfold ignore. apply wp_bind, wp_try. eapply wp_mono; [exact Hm|].
  intros r w' Hq. by apply wp_ret.
Qed.

(** *** Phases

    [w] is [w0] up to transaction [x], whose row is [r] and whose branches satisfy
    [A]. *)
Definition phase (x : string) (w0 : world) (r : LogRow) (A : branch -> Prop) (w : world) : Prop :=
  frame x w0 w /\ row w x = Some r /\ forall n, n ∈ participants r -> A (pv w n x).

Definition not_committed (b : branch) : Prop := b <> Committed.
Definition in_commit (b : branch) : Prop := b = Prepared \/ b = Committed.

(** What every stopping point of an operation on [x] guarantees; [ok] restricts
    the status the row may have. *)
Definition safe (x : string) (w0 : world) (ok : string -> Prop) (names : list string)
    (w : world) : Prop :=
  frame x w0 w /\ consistent w x /\
  exists r, row w x = Some r /\ participants r = names /\ ok (status r).

Definition undecided (s : string) : Prop := commit_side s = false /\ s <> "rolled_back".
Definition rollback_side (s : string) : Prop := commit_side s = false.
Definition any_status (s : string) : Prop := True.

Lemma phase_consistent x w0 r A w :
  phase x w0 r A w -> id r = x -> NoDup (participants r) ->
  (commit_side (status r) = false -> forall b, A b -> b <> Committed) ->
  (status r = "rolled_back" -> forall b, A b -> b <> Prepared) ->
  (commit_side (status r) = true -> decision r <> Some "rollback" /\ forall b, A b -> in_commit b) ->
  (status r = "committed" -> forall b, A b -> b = Committed) ->
  consistent w x.
Proof.
  intros (_ & Hr & HA) Hid Hnd H1 H2 H3 H4. unfold consistent. rewrite Hr.
  split; [done|]. split; [done|]. split; [auto|]. split; [|split; auto].
  intros Hc. destruct (H3 Hc) as [Hd Hb]. split; [done|]. intros n Hn. by apply Hb, HA.
Qed.

Lemma phase_weaken x w0 r (A B : branch -> Prop) w :
  (forall b, A b -> B b) -> phase x w0 r A w -> phase x w0 r B w.
Proof. intros Hab (? & ? & ?). split; [done|]. split; [done|]. auto. Qed.

(** A phase before the decision is a safe place to stop. *)
Lemma undecided_safe x w0 r w (ok : string -> Prop) :
  phase x w0 r not_committed w -> id r = x -> NoDup (participants r) ->
  undecided (status r) -> ok (status r) -> safe x w0 ok (participants r) w.
Proof.
  intros Hp Hid Hnd [Hs Hrb] Hok. split; [apply Hp|]. split; [|exists r; split; [apply Hp|done]].
  eapply phase_consistent; [exact Hp|done|done|done|done|congruence|].
  intros He. rewrite He in Hs. done.
Qed.

(** The branches all resolved and none committed. *)
Lemma resolved_safe x w0 r w (ok : string -> Prop) :
  phase x w0 r (fun b => b <> Committed /\ b <> Prepared) w -> id r = x ->
  NoDup (participants r) -> commit_side (status r) = false -> ok (status r) ->
  safe x w0 ok (participants r) w.
Proof.
  intros Hp Hid Hnd Hs Hok. split; [apply Hp|]. split; [|exists r; split; [apply Hp|done]].
  eapply phase_consistent; [exact Hp|done|done|by intros _ b []|by intros _ b []|congruence|].
  intros He. rewrite He in Hs. done.
Qed.

(** All prepared or committed: safe before and after the decision is logged. *)
Lemma prepared_safe x w0 r w (ok : string -> Prop) :
  phase x w0 r in_commit w -> id r = x -> NoDup (participants r) ->
  commit_side (status r) = true -> decision r <> Some "rollback" -> status r <> "committed" ->
  ok (status r) -> safe x w0 ok (participants r) w.
Proof.
  intros Hp Hid Hnd Hs Hd Hne Hok. split; [apply Hp|].
  split; [|exists r; split; [apply Hp|done]].
  eapply phase_consistent; [exact Hp|done|done|congruence| |done|done].
  intros He. rewrite He in Hs. done.
Qed.

Lemma committed_safe x w0 r w (ok : string -> Prop) :
  phase x w0 r (fun b => b = Committed) w -> id r = x -> NoDup (participants r) ->
  commit_side (status r) = true -> decision r <> Some "rollback" ->
  ok (status r) -> safe x w0 ok (participants r) w.
Proof.
  intros Hp Hid Hnd Hs Hd Hok. split; [apply Hp|].
  split; [|exists r; split; [apply Hp|done]].
  eapply phase_consistent; [exact Hp|done|done|congruence| | |done].
  - intros He. rewrite He in Hs. done.
  - intros _. split; [done|]. intros b ->. by right.
Qed.

(** The log write on [x]: the row is the old one or the new one. *)
Lemma set_log_phase x w0 r A w w' s d :
  phase x w0 r A w -> parts w' = parts w ->
  rows (db w') = rows (db w) \/ rows (db w') = alter (set_row s d) x (rows (db w)) ->
  (phase x w0 r A w' \/ phase x w0 (set_row s d r) A w') /\
  (rows (db w') = alter (set_row s d) x (rows (db w)) -> phase x w0 (set_row s d r) A w').
Proof.
  intros (Hf & Hr & HA) Hp Hrows.
  assert (Hpv : forall n y, pv w' n y = pv w n y) by (intros; unfold pv; by rewrite Hp).
  assert (Hold : rows (db w') = rows (db w) -> phase x w0 r A w').
  { intros He. split; [|split; [unfold row; by rewrite He|intros n Hn; rewrite Hpv; auto]].
    eapply frame_trans; [exact Hf|]. split; [by rewrite Hp|]. intros y _.
    unfold row. rewrite He. auto. }
  assert (Hnew : rows (db w') = alter (set_row s d) x (rows (db w)) ->
                 phase x w0 (set_row s d r) A w').
  { intros He. split; [|split].
    - eapply frame_trans; [exact Hf|]. split; [by rewrite Hp|]. intros y Hy.
      unfold row. rewrite He, lookup_alter_ne by done. auto.
    - unfold row in *. rewrite He, lookup_alter_eq, Hr. done.
    - intros n Hn. rewrite Hpv. by apply HA. }
  split; [destruct Hrows; auto|done].
Qed.

(** *** Loops over participants *)

Definition op_spec (op : string -> M world XaError unit) (x : string) (A K : branch -> Prop) : Prop :=
  forall n Q (I : world -> Prop) w,
    (forall w', moved x n w w' -> (A (pv w n x) -> A (pv w' n x)) -> I w') ->
    (forall res w', moved x n w w' -> (A (pv w n x) -> A (pv w' n x)) ->
       (res = Ok tt -> A (pv w n x) -> K (pv w' n x)) -> Q res w') ->
    wp (op n) Q I w.

Lemma call_op_spec (op : string -> M world XaError unit) x R (A K : branch -> Prop) :
  (forall n, call_spec (op n) x n R) ->
  (forall r b b', R r b b' -> A b -> A b') -> (forall b b', R (Ok tt) b b' -> A b -> K b') ->
  op_spec op x A K.
Proof.
  intros Hc Ha Hk n Q I w Hi Hq. apply Hc.
  - apply Hi; [apply moved_refl|done].
  - intros r w' Hm Hr. apply Hq; [done|by eapply Ha|]. intros ->. by apply Hk.
Qed.

Lemma moved_trans x n w1 w2 w3 : moved x n w1 w2 -> moved x n w2 w3 -> moved x n w1 w3.
Proof.
  intros (H1 & H2 & H3) (H4 & H5 & H6). split_and!; [congruence..|].
  intros m y Hne. by rewrite H6, H3.
Qed.

Lemma rollback_one_spec x :
  op_spec (rollback_one x) x not_committed (fun b => b <> Committed /\ b <> Prepared).
Proof.
  intros n Q I w Hi Hq. unfold rollback_one. apply wp_bind, wp_ignore. apply (end_spec x n).
  - apply Hi; [apply moved_refl|done].
  - intros _ w1 Hm1 H1. assert (Ha1 : not_committed (pv w n x) -> not_committed (pv w1 n x)).
    { unfold not_committed. destruct H1 as [->|[_ ->]]; [done|]. done. }
    apply (rollback_spec x n); [auto|]. intros r w2 Hm2 [H2 H2'].
    assert (Ha2 : not_committed (pv w n x) -> not_committed (pv w2 n x)).
    { intros Ha. apply Ha1 in Ha. unfold not_committed in *. destruct H2 as [->|(_ & _ & ->)]; done. }
    apply Hq; [by eapply moved_trans|done|]. intros Hr Ha. split; [by apply Ha2|auto].
Qed.

Lemma phase_moved x n w0 r (A : branch -> Prop) w w' :
  phase x w0 r A w -> moved x n w w' -> (A (pv w n x) -> A (pv w' n x)) -> phase x w0 r A w'.
Proof.
  intros (Hf & Hr & HA) Hm Ha. split; [eapply frame_trans; [exact Hf|by eapply moved_frame]|].
  split; [by rewrite (moved_row _ _ _ _ _ Hm)|]. intros m Hin.
  destruct (decide (m = n)) as [->|Hne]; [auto|]. rewrite (moved_other _ _ _ _ _ Hm Hne). auto.
Qed.

Lemma wp_for_participants op x w0 r (A K : branch -> Prop) names Q (I : world -> Prop) w :
  op_spec op x A K -> (forall w, phase x w0 r A w -> I w) ->
  NoDup names -> (forall n, n ∈ names -> n ∈ participants r) -> phase x w0 r A w ->
  (forall o w', phase x w0 r A w' ->
     (forall m, m ∉ names -> pv w' m x = pv w m x) ->
     (o = None -> forall n, n ∈ names -> K (pv w' n x)) -> Q (Ok o) w') ->
  wp (for_participants op names) Q I w.
Proof.
  intros Hop HI. revert w Q. induction names as [|n names IH]; intros w Q Hnd Hin Hp Hq; simpl.
  - apply wp_ret, Hq; [done|done|set_solver].
  - apply NoDup_cons in Hnd as [Hn Hnd]. apply wp_bind, wp_try. apply Hop.
    + intros w' Hm Ha. apply HI. by eapply phase_moved.
    + intros res w' Hm Ha Hk. assert (Hp' : phase x w0 r A w') by (by eapply phase_moved).
      destruct res as [[]|e].
      * apply IH; [done|set_solver|done|]. intros o w2 Hp2 Ho Hn2. apply Hq; [done|..].
        -- intros m Hm'. rewrite Ho by set_solver. eapply moved_other; [done|set_solver].
        -- intros Hnone m [->|Hm']%elem_of_cons; [|by apply Hn2].
           rewrite Ho by done. apply Hk; [done|]. apply Hp. apply Hin. set_solver.
      * apply wp_ret, Hq; [done| |done].
        intros m Hm'. eapply moved_other; [done|set_solver].
Qed.

(** *** Rolling back *)

Lemma wp_finish_rollback x w0 r w Q (I : world -> Prop) :
  phase x w0 r (fun b => b <> Committed /\ b <> Prepared) w ->
  id r = x -> NoDup (participants r) -> commit_side (status r) = false ->
  (forall w, safe x w0 rollback_side (participants r) w -> I w) ->
  (forall res w', safe x w0 rollback_side (participants r) w' -> Q res w') ->
  wp (set_log x "rolled_back" (Some "rollback")) Q I w.
Proof.
  intros Hp Hid Hnd Hs Hi Hq. apply wp_set_log.
  - apply Hi. by apply (resolved_safe x w0 r).
  - intros res w' Hparts Hrows _. apply Hq.
    destruct (set_log_phase _ _ _ _ _ _ _ _ Hp Hparts Hrows) as [[Hp'|Hp'] _].
    + by apply (resolved_safe x w0 r).
    + by apply (resolved_safe x w0 (set_row "rolled_back" (Some "rollback") r)).
Qed.

(** The common body of [rollback] and [abort]: from an undecided row to the end. *)
Lemma wp_roll_back {B} x w0 r names w (k : option (string * XaError) -> M world XaError B) Q I :
  phase x w0 r not_committed w -> id r = x -> NoDup (participants r) -> undecided (status r) ->
  names = participants r ->
  (forall w, safe x w0 rollback_side names w -> I w) ->
  (forall e w, safe x w0 rollback_side names w -> Q (Err e) w) ->
  (forall o w r', phase x w0 r' not_committed w -> id r' = x -> participants r' = names ->
     undecided (status r') ->
     (o = None -> phase x w0 r' (fun b => b <> Committed /\ b <> Prepared) w) ->
     wp (k o) Q I w) ->
  wp (bind (set_log x "rolling_back" (Some "rollback")) (fun _ =>
        bind (for_participants (rollback_one x) (reverse names)) k)) Q I w.
Proof.
  intros Hp Hid Hnd Hs -> Hi He Hk. apply wp_bind, wp_set_log.
  - apply Hi. by apply undecided_safe; [..|apply Hs].
  - intros res w1 Hparts Hrows Hok.
    destruct (set_log_phase _ _ _ _ _ _ _ _ Hp Hparts Hrows) as [Hor Hnew].
    set (r' := set_row "rolling_back" (Some "rollback") r) in *.
    assert (Hu' : undecided (status r')) by done.
    destruct res as [[]|e].
    + specialize (Hnew (Hok eq_refl)). apply wp_bind.
      apply (wp_for_participants (rollback_one x) x w0 r' not_committed
               (fun b => b <> Committed /\ b <> Prepared)); [apply rollback_one_spec|..].
      * intros w2 Hp2. apply Hi. by apply (undecided_safe x w0 r').
      * rewrite reverse_Permutation. exact Hnd.
      * intros n. by rewrite elem_of_reverse.
      * done.
      * intros o w2 Hp2 _ Hres. apply (Hk o w2 r'); try done.
        intros Hnone. destruct Hp2 as (Hf2 & Hr2 & _). split; [done|]. split; [done|].
        intros n Hn. apply Hres; [done|]. by apply elem_of_reverse.
    + apply He. destruct Hor as [Hp1|Hp1].
      * by apply undecided_safe; [..|apply Hs].
      * by apply (undecided_safe x w0 r').
Qed.

Lemma safe_weaken x w0 (ok ok' : string -> Prop) names w :
  (forall s, ok s -> ok' s) -> safe x w0 ok names w -> safe x w0 ok' names w.
Proof. intros Ho (? & ? & r & ? & ? & ?). split; [done|]. split; [done|]. exists r; auto. Qed.

Lemma undecided_rollback_side s : undecided s -> rollback_side s.
Proof. by intros []. Qed.

#[local] Hint Resolve undecided_rollback_side : core.

Lemma wp_read_status x (Q : result (option string) XaError -> world -> Prop) (I : world -> Prop) w :
  I w -> (forall e, Q (Err e) w) -> Q (Ok (status <$> row w x)) w ->
  wp (read_status dialect x) Q I w.
Proof.
  intros Hi He Hq. unfold read_status, state_dialect. apply wp_bind, wp_ret.
  assert (Heff : wp (effect (fun w : world => (select_status (db w) x, w))) Q I w).
  { apply wp_effect; [done|]. simpl. destruct (select_status _ _) as [o|e] eqn:Hs; [|done].
    apply status_law in Hs as ->. exact Hq. }
  by destruct dialect.
Qed.

(** An abort, from any point before the decision. *)
Lemma wp_abort tx w0 r w err Q (I : world -> Prop) :
  phase (tx_id tx) w0 r not_committed w -> id r = tx_id tx -> NoDup (participants r) ->
  undecided (status r) -> participants r = tx_participants tx ->
  (forall w, safe (tx_id tx) w0 rollback_side (tx_participants tx) w -> I w) ->
  (forall e w, safe (tx_id tx) w0 rollback_side (tx_participants tx) w -> Q (Err e) w) ->
  wp (abort dialect tx err) Q I w.
Proof.
  intros Hp Hid Hnd Hs Hnames Hi He. unfold abort.
  eapply (wp_roll_back (tx_id tx) w0 r (tx_participants tx)); [done..| |].
  - exact He.
  - intros o w1 r1 Hp1 Hid1 Hn1 Hu1 Hres. rewrite <- Hn1 in *.
    assert (Hnd1 : NoDup (participants r1)) by congruence.
    destruct o as [[n e]|].
    + apply wp_ret, He. apply undecided_safe; auto.
    + apply wp_bind. eapply (wp_finish_rollback _ w0 r1); [auto|done..|apply Hu1|exact Hi|].
      intros res w2 Hsafe. destruct res; [by apply wp_ret, He|by apply He].
Qed.

Lemma row_safe x w r (ok : string -> Prop) :
  consistent w x -> row w x = Some r -> ok (status r) -> safe x w ok (participants r) w.
Proof.
  intros Hc Hr Hok. split; [apply frame_refl|]. split; [done|]. by exists r.
Qed.

Lemma row_phase x w r :
  consistent w x -> row w x = Some r -> commit_side (status r) = false ->
  phase x w r not_committed w /\ id r = x /\ NoDup (participants r).
Proof.
  intros Hc Hr Hs. unfold consistent in Hc. rewrite Hr in Hc.
  destruct Hc as (Hid & Hnd & _ & _ & Hnc & _). split; [|done].
  split; [apply frame_refl|]. split; [done|]. intros n Hn. by apply Hnc.
Qed.

Lemma end_op_spec x : op_spec (xa_end x) x not_committed (fun _ => True).
Proof.
  eapply call_op_spec; [intros n; apply end_spec| |done].
  intros r b b' [->|[_ ->]]; done.
Qed.

Lemma prepare_op_spec x : op_spec (xa_prepare x) x not_committed (fun b => b = Prepared).
Proof.
  eapply call_op_spec; [intros n; apply prepare_spec|..]; unfold not_committed.
  - intros r b b' [[->|[_ [->| ->]]] _]; done.
  - intros b b' [_ Hb] _. auto.
Qed.

Lemma commit_op_spec x : op_spec (xa_commit x) x in_commit (fun b => b = Committed).
Proof.
  eapply call_op_spec; [intros n; apply commit_spec|..]; unfold in_commit.
  - intros r b b' [[->|[_ ->]] _]; auto.
  - intros b b' [[->|[_ ->]] Hok] Hb; [|done]. destruct Hb as [Hb|Hb]; [|done].
    destruct (Hok eq_refl Hb).
Qed.

(** One write of the log between two safe phases. *)
Lemma wp_logged {B} x w0 r A w s d ok names (k : unit -> M world XaError B) Q (I : world -> Prop) :
  phase x w0 r A w ->
  (forall w, phase x w0 r A w -> safe x w0 ok names w) ->
  (forall w, phase x w0 (set_row s d r) A w -> safe x w0 ok names w) ->
  (forall w, safe x w0 ok names w -> I w) ->
  (forall e w, safe x w0 ok names w -> Q (Err e) w) ->
  (forall w, phase x w0 (set_row s d r) A w -> wp (k tt) Q I w) ->
  wp (bind (set_log x s d) k) Q I w.
Proof.
  intros Hp Hs Hs' Hi He Hk. apply wp_bind, wp_set_log; [auto|].
  intros res w' Hparts Hrows Hok.
  destruct (set_log_phase _ _ _ _ _ _ _ _ Hp Hparts Hrows) as [Hor Hnew].
  destruct res as [[]|e]; [auto|]. apply He. destruct Hor; auto.
Qed.

(** The decision: from all branches prepared to the row "committed". *)
Lemma wp_decide x names w0 r w fail Q (I : world -> Prop) :
  phase x w0 r (fun b => b = Prepared) w -> id r = x -> NoDup (participants r) ->
  undecided (status r) -> participants r = names ->
  (forall w, safe x w0 any_status names w -> I w) ->
  (forall e w, safe x w0 any_status names w -> Q (Err e) w) ->
  (forall w, safe x w0 any_status names w -> (forall n, n ∈ names -> pv w n x = Committed) ->
     status <$> row w x = Some "committed" -> Q (Ok tt) w) ->
  wp (bind (set_log x "prepared" None) (fun _ =>
      bind (set_log x "committing" (Some "commit")) (fun _ =>
      bind (for_participants (xa_commit x) names) (fun o =>
        match o with
        | Some ne => ret (Err (fail ne))
        | None => set_log x "committed" (Some "commit")
        end)))) Q I w.
Proof.
  intros Hp Hid Hnd Hu Hn Hi He Hok. subst names.
  set (r1 := set_row "prepared" None r).
  set (r2 := set_row "committing" (Some "commit") r1).
  set (r3 := set_row "committed" (Some "commit") r2).
  assert (Hin : forall w r', phase x w0 r' (fun b => b = Prepared) w -> phase x w0 r' in_commit w).
  { intros v r' Hv. eapply phase_weaken; [|exact Hv]. by left. }
  assert (Hs1 : forall w, phase x w0 r1 (fun b => b = Prepared) w ->
                safe x w0 any_status (participants r) w).
  { intros v Hv%Hin. by apply (prepared_safe x w0 r1). }
  assert (Hs2 : forall w, phase x w0 r2 in_commit w -> safe x w0 any_status (participants r) w).
  { intros v Hv. by apply (prepared_safe x w0 r2). }
  eapply (wp_logged x w0 r (fun b => b = Prepared)); [exact Hp| |exact Hs1|exact Hi|exact He|].
  { intros v Hv. apply undecided_safe; [|done..]. eapply phase_weaken; [|exact Hv]. by intros b ->. }
  intros w1 Hp1. eapply (wp_logged x w0 r1 (fun b => b = Prepared));
    [exact Hp1|exact Hs1| |exact Hi|exact He|].
  { intros v Hv%Hin. by apply Hs2. }
  intros w2 Hp2. apply wp_bind, (wp_for_participants _ x w0 r2 in_commit (fun b => b = Committed));
    [apply commit_op_spec|auto|exact Hnd|auto|auto|].
  intros [ne|] w3 Hp3 _ Hall; [by apply wp_ret, He, Hs2|].
  assert (Hc3 : phase x w0 r2 (fun b => b = Committed) w3).
  { destruct Hp3 as (? & ? & ?). split; [done|]. split; [done|]. by apply Hall. }
  apply wp_set_log; [by apply Hi, Hs2|]. intros res w4 Hparts Hrows Hnew.
  destruct (set_log_phase _ _ _ _ _ _ _ _ Hc3 Hparts Hrows) as [Hor Hc4].
  destruct res as [[]|e].
  - specialize (Hc4 (Hnew eq_refl)). apply Hok.
    + by apply (committed_safe x w0 r3).
    + apply Hc4.
    + by destruct Hc4 as (_ & -> & _).
  - apply He. destruct Hor; [by apply (committed_safe x w0 r2)|by apply (committed_safe x w0 r3)].
Qed.

Lemma wp_commit tx w r Q (I : world -> Prop) :
  consistent w (tx_id tx) -> row w (tx_id tx) = Some r -> commit_side (status r) = false ->
  participants r = tx_participants tx ->
  (forall w', safe (tx_id tx) w any_status (tx_participants tx) w' -> I w') ->
  (forall e w', safe (tx_id tx) w any_status (tx_participants tx) w' -> Q (Err e) w') ->
  (forall w', safe (tx_id tx) w any_status (tx_participants tx) w' ->
     (forall n, n ∈ tx_participants tx -> pv w' n (tx_id tx) = Committed) ->
     status <$> row w' (tx_id tx) = Some "committed" -> Q (Ok tt) w') ->
  wp (commit dialect tx) Q I w.
Proof.
  intros Hc Hr Hcs Hn Hi He Hok. set (x := tx_id tx) in *.
  destruct (row_phase x w r Hc Hr Hcs) as (Hp & Hid & Hnd).
  assert (Hsafe : safe x w any_status (tx_participants tx) w).
  { rewrite <- Hn. by apply row_safe. }
  unfold commit. apply wp_bind, wp_read_status; [auto..|]. fold x. rewrite Hr. simpl.
  destruct (decide (Some (status r) = Some "committed")) as [[= Hst]|_].
  { by rewrite Hst in Hcs. }
  destruct (decide (Some (status r) = Some "rolled_back")) as [_|Hrb]; [by apply wp_ret, He|].
  assert (Hu : undecided (status r)) by (split; [done|congruence]).
  assert (Hsafes : forall v, phase x w r not_committed v ->
                   safe x w any_status (tx_participants tx) v).
  { intros v Hv. rewrite <- Hn. by apply undecided_safe. }
  assert (Habort : forall v err, phase x w r not_committed v -> wp (abort dialect tx err) Q I v).
  { intros v err Hv. eapply wp_abort; [exact Hv|done..| |].
    - intros v' Hv'. apply Hi. by eapply safe_weaken.
    - intros e v' Hv'. apply He. by eapply safe_weaken. }
  apply wp_bind, (wp_for_participants _ x w r not_committed (fun _ => True));
    [apply end_op_spec|auto|congruence|congruence|done|].
  intros [ne|] w1 Hp1 _ _; [by apply Habort|].
  apply wp_bind, (wp_for_participants _ x w r not_committed (fun b => b = Prepared));
    [apply prepare_op_spec|auto|congruence|congruence|done|].
  intros [ne|] w2 Hp2 _ Hall; [by apply Habort|].
  apply (wp_decide x (tx_participants tx) w r); [|done..].
  destruct Hp2 as (? & ? & _). split; [done|]. split; [done|].
  intros n Hin. apply Hall; [done|]. congruence.
Qed.

Lemma wp_rollback tx w r Q (I : world -> Prop) :
  consistent w (tx_id tx) -> row w (tx_id tx) = Some r -> commit_side (status r) = false ->
  participants r = tx_participants tx ->
  (forall w', safe (tx_id tx) w rollback_side (tx_participants tx) w' -> I w') ->
  (forall res w', safe (tx_id tx) w rollback_side (tx_participants tx) w' -> Q res w') ->
  wp (rollback dialect tx) Q I w.
Proof.
  intros Hc Hr Hcs Hn Hi Hq. set (x := tx_id tx) in *.
  destruct (row_phase x w r Hc Hr Hcs) as (Hp & Hid & Hnd).
  assert (Hsafe : safe x w rollback_side (tx_participants tx) w).
  { rewrite <- Hn. by apply row_safe. }
  unfold rollback. apply wp_bind, wp_read_status; [auto..|]. fold x. rewrite Hr. simpl.
  destruct (decide (Some (status r) = Some "rolled_back")) as [_|Hrb]; [by apply wp_ret, Hq|].
  destruct (decide (Some (status r) = Some "committed")) as [[= Hst]|_].
  { by rewrite Hst in Hcs. }
  eapply (wp_roll_back x w r (tx_participants tx)); [done..| |done|auto|auto|].
  { split; [done|congruence]. }
  intros o w1 r1 Hp1 Hid1 Hn1 Hu1 Hres. rewrite <- Hn1 in *.
  assert (Hnd1 : NoDup (participants r1)) by congruence.
  destruct o as [[n e]|].
  - apply wp_ret, Hq. apply undecided_safe; auto.
  - eapply (wp_finish_rollback _ w r1); [auto|done..|apply Hu1|exact Hi|auto].
Qed.

(** *** Beginning *)

(** No branch of the transaction is past its work. *)
Definition working (b : branch) : Prop := b <> Committed /\ b <> Prepared.

Lemma start_op_spec x : op_spec (xa_start x) x working (fun _ => True).
Proof.
  eapply call_op_spec; [intros n; apply start_spec| |done].
  unfold working. intros r b b' [->|[_ ->]]; done.
Qed.

Lemma end_op_working x : op_spec (xa_end x) x working (fun _ => True).
Proof.
  eapply call_op_spec; [intros n; apply end_spec| |done].
  unfold working. intros r b b' [->|[_ ->]]; done.
Qed.

Lemma rollback_op_working x : op_spec (xa_rollback x) x working (fun _ => True).
Proof.
  eapply call_op_spec; [intros n; apply rollback_spec| |done].
  unfold working. intros r b b' [[->|(_ & _ & ->)] _]; done.
Qed.

(** One call that keeps a phase. *)
Lemma wp_op_phase op x A K w0 r n w Q (I : world -> Prop) :
  op_spec op x A K -> phase x w0 r A w -> (forall w, phase x w0 r A w -> I w) ->
  (forall res w', phase x w0 r A w' -> Q res w') -> wp (op n) Q I w.
Proof.
  intros Hop Hp Hi Hq. apply Hop.
  - intros w' Hm Ha. apply Hi. by eapply phase_moved.
  - intros res w' Hm Ha _. apply Hq. by eapply phase_moved.
Qed.

Lemma wp_rollback_started x w0 r l w Q (I : world -> Prop) :
  phase x w0 r working w -> (forall w, phase x w0 r working w -> I w) ->
  (forall res w', phase x w0 r working w' -> Q res w') ->
  wp (rollback_started x l) Q I w.
Proof.
  intros Hp Hi Hq. revert w Hp. induction l as [|n l IH]; intros w Hp; simpl.
  - by apply wp_ret, Hq.
  - apply wp_bind, wp_ignore. eapply wp_op_phase; [apply end_op_working|exact Hp|exact Hi|].
    intros _ w1 Hp1. apply wp_bind.
    eapply wp_op_phase; [apply rollback_op_working|exact Hp1|exact Hi|].
    intros [[]|e] w2 Hp2; auto.
Qed.

Lemma wp_start_all x w0 r started names w Q (I : world -> Prop) :
  phase x w0 r working w -> id r = x -> NoDup (participants r) -> commit_side (status r) = false ->
  (forall w, safe x w0 rollback_side (participants r) w -> I w) ->
  (forall e w', safe x w0 rollback_side (participants r) w' -> Q (Err e) w') ->
  (forall w', phase x w0 r working w' -> Q (Ok (started ++ names)) w') ->
  wp (start_all dialect x started names) Q I w.
Proof.
  intros Hp Hid Hnd Hs Hi He Hok.
  assert (Hsafe : forall w, phase x w0 r working w -> safe x w0 rollback_side (participants r) w).
  { intros v Hv. by apply resolved_safe. }
  revert started Hok w Hp. induction names as [|n names IH]; intros started Hok w Hp; simpl.
  - apply wp_ret. rewrite app_nil_r in Hok. auto.
  - apply wp_bind, wp_try. eapply wp_op_phase; [apply start_op_spec|exact Hp|auto|].
    intros [[]|e] w1 Hp1.
    + apply IH; [|done]. rewrite <- app_assoc. exact Hok.
    + apply wp_bind, wp_ignore. eapply wp_op_phase; [apply end_op_working|exact Hp1|auto|].
      intros _ w2 Hp2. apply wp_bind, wp_ignore.
      eapply wp_op_phase; [apply rollback_op_working|exact Hp2|auto|].
      intros _ w3 Hp3. apply wp_bind, wp_try.
      eapply wp_rollback_started; [exact Hp3|auto|]. intros res w4 Hp4. apply wp_bind.
      destruct (is_ok res).
      * apply wp_ignore. eapply wp_finish_rollback; [exact Hp4|done..|exact Hi|].
        intros _ w5 H5. by apply wp_ret, He.
      * by apply wp_ret, wp_ret, He, Hsafe.
Qed.

Lemma check_names_nodup reg seen names :
  check_names reg seen names = Ok tt -> NoDup names /\ forall n, n ∈ names -> n ∉ seen.
Proof.
  revert seen. induction names as [|n names IH]; intros seen Hok; simpl in *.
  - split; [apply NoDup_nil_2|set_solver].
  - case_decide as Hseen; [done|]. case_decide; [|done].
    apply IH in Hok as [Hnd Hout]. split; [|set_solver].
    apply NoDup_cons. split; [|done]. intros Hin. apply (Hout n Hin). set_solver.
Qed.

(** The transaction is known nowhere. *)
Definition unused (w : world) (x : string) : Prop :=
  row w x = None /\ forall n, pv w n x = Absent.

Lemma wp_begin uuid names w Q (I : world -> Prop) :
  unused w uuid ->
  (forall w', frame uuid w w' -> consistent w' uuid -> I w') ->
  (forall e w', frame uuid w w' -> consistent w' uuid -> Q (Err e) w') ->
  (forall w', safe uuid w rollback_side names w' ->
     Q (Ok {| tx_id := uuid; tx_participants := names |}) w') ->
  wp (begin dialect uuid names) Q I w.
Proof.
  intros [Hrow Habs] Hi He Hok.
  assert (Hsame : forall w', parts w' = parts w -> rows (db w') = rows (db w) ->
                  frame uuid w w' /\ unused w' uuid).
  { intros w' Hpw Hrw. split; [split; [by rewrite Hpw|]|split].
    - intros y _. unfold row, pv. rewrite Hpw, Hrw. auto.
    - unfold row. by rewrite Hrw.
    - intros n. unfold pv. rewrite Hpw. apply Habs. }
  assert (Hcons : forall w', unused w' uuid -> consistent w' uuid).
  { intros w' [Hr Ha]. unfold consistent. by rewrite Hr. }
  assert (Hi0 : forall w', parts w' = parts w -> rows (db w') = rows (db w) -> I w').
  { intros w' Hpw Hrw. destruct (Hsame w' Hpw Hrw). auto. }
  assert (He0 : forall e w', parts w' = parts w -> rows (db w') = rows (db w) -> Q (Err e) w').
  { intros e w' Hpw Hrw. destruct (Hsame w' Hpw Hrw). auto. }
  unfold begin. destruct names as [|n0 names0] eqn:Hnames; [by apply wp_ret, He0|].
  rewrite <- Hnames in *. apply wp_bind, wp_get, wp_bind, wp_ret.
  destruct (check_names _ _ _) as [[]|e] eqn:Hck; [|by apply He0].
  apply check_names_nodup in Hck as [Hnd _]. apply wp_bind.
  unfold ensure_schema. apply wp_bind, wp_ret.
  destruct (state_dialect dialect) as [[]|e] eqn:Hd; [|by apply He0].
  apply wp_effect; [by apply Hi0|]. pose proof (ensure_law (db w)) as Hens.
  destruct (ensure_table (db w)) as [[[]|e] d1]; simpl in *; [|by apply He0].
  apply wp_bind. unfold insert_log. apply wp_bind, wp_ret. rewrite Hd.
  apply wp_effect; [by apply Hi0|]. simpl.
  set (r := {| id := uuid; status := "started"; participants := names; decision := None |}).
  pose proof (insert_law d1 r) as Hins. destruct (insert_row d1 r) as [res d2]; simpl in *.
  set (w2 := set_db d2 (set_db d1 w)).
  assert (Hnew : rows d2 = <[uuid := r]> (rows d1) -> phase uuid w r working w2).
  { intros Hr2. split; [split; [done|]|split].
    - intros y Hy. unfold row, pv; simpl. by rewrite Hr2, lookup_insert_ne, Hens by done.
    - unfold row; simpl. by rewrite Hr2, lookup_insert_eq.
    - intros n _. unfold pv; simpl. change (working (pv w n uuid)). by rewrite Habs. }
  assert (Hstart : phase uuid w r working w2 -> safe uuid w rollback_side names w2).
  { intros Hp. by apply (resolved_safe uuid w r). }
  destruct Hins as [Hor Hset]. destruct res as [[]|e].
  - apply wp_bind. eapply (wp_start_all uuid w r [] names); [by apply Hnew, Hset|done..| | |].
    + intros w' (? & ? & _). by apply Hi.
    + intros e w' (? & ? & _). by apply He.
    + intros w' Hp'. by apply wp_ret, Hok, (resolved_safe uuid w r).
  - destruct Hor as [Hr2|Hr2].
    + apply He0; [done|]. unfold w2; simpl. congruence.
    + destruct (Hstart (Hnew Hr2)) as (? & ? & _). by apply He.
Qed.

(** *** Recovering *)

(** [already_resolved] only reads; a branch it skips is not prepared. *)
Lemma wp_skip_check x cross n w0 r A w Q (I : world -> Prop) :
  phase x w0 r A w -> (forall w, phase x w0 r A w -> I w) ->
  (forall skip w', phase x w0 r A w' -> pv w' n x = pv w n x ->
     (forall m, pv w' m x = pv w m x) ->
     (skip = true -> cross = true /\ pv w n x <> Prepared) -> Q (Ok skip) w') ->
  wp (skip_check cross x n) Q I w.
Proof.
  intros Hp Hi Hq. unfold skip_check. destruct cross; [|by apply wp_ret, Hq].
  apply wp_bind, wp_try, wp_effect; [auto|].
  destruct (parts w !! n) as [p|] eqn:Hpn; simpl; [|by apply wp_ret, Hq].
  pose proof (recover_law p) as Hl. destruct (Xa.xa_recover p) as [res p']. destruct Hl as [Hv Hlist].
  assert (Hpv : forall m y, pv (set_parts (<[n:=p']> (parts w)) w) m y = pv w m y).
  { intros m y. unfold pv; simpl. destruct (decide (m = n)) as [->|Hm].
    - by rewrite lookup_insert_eq, Hpn.
    - by rewrite lookup_insert_ne. }
  assert (Hp' : phase x w0 r A (set_parts (<[n:=p']> (parts w)) w)).
  { destruct Hp as (Hf & Hr & HA). split; [|split; [done|intros m Hm; rewrite Hpv; auto]].
    eapply frame_trans; [exact Hf|]. split; [|intros y _; split; [done|auto]].
    simpl. rewrite dom_insert_L. apply elem_of_dom_2 in Hpn. set_solver. }
  destruct res as [l|e]; [|by apply wp_ret, Hq; auto]. apply wp_ret, Hq; [done|apply Hpv|auto|].
  intros Hskip. split; [done|]. unfold pv. rewrite Hpn. rewrite <- (Hlist l eq_refl).
  destruct (decide (x ∈ l)) as [Hin|]; [|done]. by rewrite bool_decide_eq_true_2 in Hskip.
Qed.

(** The loop of a replay: skip or act on each participant. *)
Lemma wp_replay op x cross w0 r (A K : branch -> Prop) names last
    (loop : list string -> M world XaError unit) Q (I : world -> Prop) w :
  op_spec op x A K -> (cross = true -> forall b, A b -> b <> Prepared -> K b) ->
  (loop [] = last) ->
  (forall n names, loop (n :: names) =
     do! skip := skip_check cross x n in
     do! _ := (if skip then ret (Ok tt) else op n) in
     loop names) ->
  (forall w, phase x w0 r A w -> I w) ->
  (forall e w, phase x w0 r A w -> Q (Err e) w) ->
  NoDup names -> (forall n, n ∈ names -> n ∈ participants r) -> phase x w0 r A w ->
  (forall w', phase x w0 r A w' -> (forall n, n ∈ names -> K (pv w' n x)) ->
     (forall m, m ∉ names -> pv w' m x = pv w m x) -> wp last Q I w') ->
  wp (loop names) Q I w.
Proof.
  intros Hop Hskip Hnil Hcons Hi He. revert w. induction names as [|n names IH];
    intros w Hnd Hin Hp Hlast.
  - rewrite Hnil. apply Hlast; [done|set_solver|done].
  - apply NoDup_cons in Hnd as [Hn Hnd]. rewrite Hcons. apply wp_bind.
    eapply wp_skip_check; [exact Hp|exact Hi|]. intros skip w1 Hp1 Hv1 Hvm1 Hs1.
    assert (HA : A (pv w1 n x)) by (apply Hp1, Hin; set_solver).
    assert (Hnext : forall w2, phase x w0 r A w2 -> K (pv w2 n x) ->
              (forall m, m <> n -> pv w2 m x = pv w1 m x) -> wp (loop names) Q I w2).
    { intros w2 Hp2 HK Hoth. apply IH; [done|set_solver|done|].
      intros w3 Hp3 HK3 Hoth3. apply Hlast; [done|..].
      - intros m [->|Hm]%elem_of_cons; [by rewrite Hoth3|auto].
      - intros m Hm. rewrite Hoth3, Hoth, Hvm1 by set_solver. done. }
    apply wp_bind. destruct skip.
    + apply wp_ret, Hnext; [done| |done]. destruct (Hs1 eq_refl) as [-> Hnp].
      apply Hskip; [done|exact HA|congruence].
    + apply Hop.
      * intros w2 Hm Ha. apply Hi. by eapply phase_moved.
      * intros res w2 Hm Ha HK. assert (Hp2 : phase x w0 r A w2) by (by eapply phase_moved).
        destruct res as [[]|e]; [|by apply He]. apply Hnext; [done|by apply HK|].
        intros m Hm'. by eapply moved_other.
Qed.

(** A recovery of a row keeps its decision and, if it succeeds, completes it. *)
Definition same_decision (r : LogRow) (s : string) : Prop :=
  commit_side s = commit_side (status r).

Definition completed (w : world) (r : LogRow) : Prop :=
  (forall n, n ∈ participants r -> pv w n (id r) <> Prepared) /\
  status <$> row w (id r) =
    Some (if commit_side (status r) then "committed" else "rolled_back").

Lemma should_commit_side r :
  recoverable (status r) = true -> (commit_side (status r) = true -> decision r <> Some "rollback") ->
  should_commit r = commit_side (status r) /\
  (commit_side (status r) = true ->
     String.eqb (status r) "prepared" || String.eqb (status r) "committing" = true /\
     status r <> "committed") /\
  (commit_side (status r) = false -> undecided (status r) /\
     String.eqb (status r) "prepared" || String.eqb (status r) "committing" = false).
Proof.
  unfold recoverable, should_commit, undecided. destruct r as [i s ps d]; simpl.
  intros Hr Hd. apply orb_prop in Hr as [Hr|Hr]; [apply orb_prop in Hr as [Hr|Hr];
    [apply orb_prop in Hr as [Hr|Hr]|]|]; apply String.eqb_eq in Hr as ->; simpl in *; try done.
  rewrite bool_decide_eq_false_2 by auto. done.
Qed.

Lemma wp_recover_row r w Q (I : world -> Prop) :
  consistent w (id r) -> row w (id r) = Some r -> recoverable (status r) = true ->
  (forall w', safe (id r) w (same_decision r) (participants r) w' -> I w') ->
  (forall o w', safe (id r) w (same_decision r) (participants r) w' ->
     (o = Some (Ok tt) -> completed w' r) -> Q (Ok o) w') ->
  wp (recover_row dialect r) Q I w.
Proof.
  intros Hc Hr Hrec Hi Hq. set (x := id r) in *. set (names := participants r) in *.
  assert (Hsafe : safe x w (same_decision r) names w) by (by apply row_safe).
  assert (Hok : row_ok w x r) by (unfold consistent in Hc; by rewrite Hr in Hc).
  destruct Hok as (_ & Hnd & _ & Hcommit & Hroll & _).
  destruct (should_commit_side r Hrec (fun h => proj1 (Hcommit h))) as (Hsc & Hcs & Hrs).
  unfold recover_row. apply wp_bind, wp_get. simpl. fold names x.
  destruct (forallb _ names); [|by apply wp_ret, Hq].
  apply wp_bind, wp_try. rewrite Hsc. destruct (commit_side (status r)) eqn:Hside.
  - destruct (Hcs eq_refl) as [-> Hnc]. destruct (Hcommit eq_refl) as [Hd Hall].
    set (r' := set_row "committed" (Some "commit") r).
    assert (Hs1 : forall v, phase x w r in_commit v -> safe x w (same_decision r) names v).
    { intros v Hv. by apply prepared_safe. }
    assert (Hs2 : forall v q, q = r \/ q = r' -> phase x w q (fun b => b = Committed) v ->
                  safe x w (same_decision r) names v).
    { intros v q [-> | ->] Hv; [by apply (committed_safe x w r)|by apply (committed_safe x w r')]. }
    unfold recover_commit.
    eapply (wp_replay (xa_commit x) x true w r in_commit (fun b => b = Committed) names
             (set_log x "committed" (Some "commit")) (replay_commit dialect x true));
      [apply commit_op_spec| |done|done|auto| |done|auto| |].
    + intros _ b [->| ->]; done.
    + intros e v Hv. by apply wp_ret, Hq; [auto|].
    + split; [apply frame_refl|done].
    + intros v Hv HK _. assert (Hcv : phase x w r (fun b => b = Committed) v).
      { destruct Hv as (? & ? & _). done. }
      apply wp_set_log; [by apply Hi, (Hs2 v r); [left|]|]. intros res v' Hparts Hrows Hnew.
      destruct (set_log_phase _ _ _ _ _ _ _ _ Hcv Hparts Hrows) as [Hor Hset].
      apply wp_ret, Hq; [destruct Hor as [Ho|Ho]; eapply Hs2; [|exact Ho| |exact Ho]; auto|].
      intros [= ->]. specialize (Hset (Hnew eq_refl)). destruct Hset as (_ & Hrow & Hpv).
      split; [|by fold x; rewrite Hrow, Hside]. intros n Hn. by rewrite Hpv.
  - destruct (Hrs eq_refl) as [Hu ->].
    set (r' := set_row "rolled_back" (Some "rollback") r).
    assert (Hs1 : forall v, phase x w r not_committed v -> safe x w (same_decision r) names v).
    { intros v Hv. by apply undecided_safe. }
    assert (Hs2 : forall v q, q = r \/ q = r' -> phase x w q working v ->
                  safe x w (same_decision r) names v).
    { intros v q [-> | ->] Hv; [by apply (resolved_safe x w r)|by apply (resolved_safe x w r')]. }
    unfold recover_rollback.
    eapply (wp_replay (rollback_one x) x false w r not_committed working (reverse names)
             (set_log x "rolled_back" (Some "rollback")) (replay_rollback dialect x false));
      [apply rollback_one_spec|done|done|done|auto| | | | |].
    + intros e v Hv. by apply wp_ret, Hq; [auto|].
    + rewrite reverse_Permutation. exact Hnd.
    + intros n. by rewrite elem_of_reverse.
    + split; [apply frame_refl|]. split; [done|]. intros n Hn. by apply Hroll.
    + intros v Hv HK _. assert (Hcv : phase x w r working v).
      { destruct Hv as (? & ? & _). split; [done|]. split; [done|].
        intros n Hn. apply HK. by rewrite elem_of_reverse. }
      apply wp_set_log; [by apply Hi, (Hs2 v r); [left|]|]. intros res v' Hparts Hrows Hnew.
      destruct (set_log_phase _ _ _ _ _ _ _ _ Hcv Hparts Hrows) as [Hor Hset].
      apply wp_ret, Hq; [destruct Hor as [Ho|Ho]; eapply Hs2; [|exact Ho| |exact Ho]; auto|].
      intros [= ->]. specialize (Hset (Hnew eq_refl)). destruct Hset as (_ & Hrow & Hpv).
      split; [|by fold x; rewrite Hrow, Hside]. intros n Hn. by apply Hpv.
Qed.

(** *** Recovering the log *)

Definition all_consistent (w : world) : Prop := forall y, consistent w y.

(** Every row is still there, for the same participants and with the same decision. *)
Definition kept (w w' : world) : Prop :=
  forall y, match row w y with
            | None => row w' y = None
            | Some r => exists r', row w' y = Some r' /\ participants r' = participants r /\
                                   commit_side (status r') = commit_side (status r)
            end.

Definition recovering (w w' : world) : Prop := all_consistent w' /\ kept w w'.

Lemma kept_trans w1 w2 w3 : kept w1 w2 -> kept w2 w3 -> kept w1 w3.
Proof.
  intros H1 H2 y. specialize (H1 y). specialize (H2 y). destruct (row w1 y) as [r|].
  - destruct H1 as (r2 & Hr2 & Hp & Hc). rewrite Hr2 in H2.
    destruct H2 as (r3 & Hr3 & Hp3 & Hc3). exists r3. split; [done|]. split; congruence.
  - by rewrite H1 in H2.
Qed.

Lemma recovering_same w w' :
  all_consistent w -> parts w' = parts w -> rows (db w') = rows (db w) -> recovering w w'.
Proof.
  intros Hc Hp Hr. split.
  - intros y. specialize (Hc y). unfold consistent, row_ok, row, pv in *. by rewrite Hp, Hr.
  - intros y. unfold row. rewrite Hr. destruct (rows (db w) !! y) as [r|]; [|done]. by exists r.
Qed.

Lemma safe_recovering w w' r :
  all_consistent w -> row w (id r) = Some r ->
  safe (id r) w (same_decision r) (participants r) w' -> recovering w w'.
Proof.
  intros Hc Hr (Hf & Hx & r' & Hr' & Hn & Hs). split; [exact (consistent_frame _ _ _ Hc Hf Hx)|].
  intros y. destruct (decide (y = id r)) as [->|Hy].
  - rewrite Hr. by exists r'.
  - destruct Hf as [_ Hf]. destruct (Hf y Hy) as [-> _].
    destruct (row w y) as [q|]; [|done]. by exists q.
Qed.

(** Nothing of transaction [y] has changed. *)
Definition same_at (y : string) (w w' : world) : Prop :=
  row w' y = row w y /\ forall n, pv w' n y = pv w n y.

Lemma completed_same w w' r : same_at (id r) w w' -> completed w r -> completed w' r.
Proof.
  intros [Hr Hp] [Hc Hs]. split; [|by rewrite Hr]. intros n Hn. rewrite Hp. auto.
Qed.

Definition report_total (rep : RecoveryReport) (n : nat) : Prop :=
  (0 <= recovered rep /\ 0 <= failed_count rep /\
   recovered rep + failed_count rep + Z.of_nat n <= u32_max)%Z.

Lemma wp_recover_rows l rep w Q (I : world -> Prop) :
  all_consistent w -> NoDup (map id l) ->
  (forall r, r ∈ l -> row w (id r) = Some r /\ recoverable (status r) = true) ->
  (forall w', recovering w w' -> I w') ->
  (forall e w', recovering w w' -> Q (Err e) w') ->
  (forall rep' w', recovering w w' ->
     (forall y, y ∉ map id l -> same_at y w w') ->
     (report_total rep (length l) ->
        (failed_count rep <= failed_count rep')%Z /\
        (recovered rep' + failed_count rep' =
           recovered rep + failed_count rep + Z.of_nat (length l))%Z /\
        (failed_count rep' = failed_count rep -> forall r, r ∈ l -> completed w' r)) ->
     Q (Ok rep') w') ->
  wp (recover_rows dialect l rep) Q I w.
Proof.
  revert rep w Q. induction l as [|r l IH]; intros rep w Q Hc Hnd Hin Hi He Hq; simpl.
  - apply wp_ret, Hq; [by apply recovering_same|done|]. intros _. simpl.
    split; [lia|]. split; [lia|]. intros _ r Hr. by apply elem_of_nil in Hr.
  - simpl in Hnd. apply NoDup_cons in Hnd as [Hnot Hnd].
    destruct (Hin r) as [Hr Hrec]; [set_solver|].
    apply wp_bind, wp_recover_row; [apply Hc|done|done|by intros; eapply Hi, safe_recovering|].
    intros o w1 Hsafe Hdone. pose proof (safe_recovering _ _ _ Hc Hr Hsafe) as [Hc1 Hk1].
    destruct Hsafe as [Hf1 _].
    assert (Hrec1 : forall w2, recovering w1 w2 -> recovering w w2).
    { intros w2 [Hc2 Hk2]. split; [done|]. by eapply kept_trans. }
    apply IH; [done|done| |auto|auto|].
    + intros q Hql. assert (id q <> id r).
      { intros Heq. apply Hnot. rewrite <- Heq. by apply list_elem_of_fmap_2. }
      destruct (Hin q) as [Hrow ?]; [set_solver|]. split; [|done].
      destruct Hf1 as [_ Hf1]. by destruct (Hf1 (id q)) as [-> _].
    + intros rep' w2 Hrec2 Hkeep Htot. apply Hq; [auto|..].
      * intros y Hy. simpl in Hy. destruct (Hkeep y) as [Hr2 Hp2]; [set_solver|].
        destruct Hf1 as [_ Hf1]. destruct (Hf1 y) as [Hr1 Hp1]; [set_solver|].
        split; [congruence|]. intros n. by rewrite Hp2.
      * intros (H1 & H2 & H3). unfold report_total in Htot. simpl in *.
        unfold u32_max, u32_add in *. destruct o as [[[]|e]|]; simpl in Htot;
          (destruct Htot as (Hle & Hsum & Hall); [rewrite wrap_small by lia; lia|]);
          rewrite wrap_small in * by lia; (split; [lia|split; [lia|]]); intros Hz; [|lia|lia].
        intros q [->|Hql]%elem_of_cons; [|by apply Hall]. eapply completed_same; [by apply Hkeep|]. by apply Hdone.
Qed.

Context (acquire_fenced : F -> result (option G) string * F).
Context (release : F -> G -> result unit string * F).

(** No transaction of the log is left unfinished. *)
Definition settled (w : world) : Prop :=
  forall x r, row w x = Some r -> recoverable (status r) = false /\
    forall n, n ∈ participants r -> pv w n x <> Prepared.

Lemma backlog_bound (l : list LogRow) (m : gmap string LogRow) :
  NoDup (map id l) -> (forall r, r ∈ l -> is_Some (m !! id r)) -> length l <= size m.
Proof.
  intros Hnd Hin. rewrite <- (length_map id l), <- size_dom, <- (size_list_to_set (C := gset string))
    by done.
  apply subseteq_size. intros y Hy%elem_of_list_to_set.
  apply list_elem_of_fmap in Hy as (r & -> & Hr). by apply elem_of_dom, Hin.
Qed.

(** A recovered log: every row is as before or completed. *)
Definition recovered_all (w w' : world) : Prop :=
  forall x r, row w x = Some r ->
    (recoverable (status r) = false -> same_at x w w') /\
    (recoverable (status r) = true -> completed w' r).

Definition log_fits (w : world) : Prop := (Z.of_nat (size (rows (db w))) <= u32_max)%Z.

Lemma wp_recover_locked w Q (I : world -> Prop) :
  all_consistent w -> (forall w', recovering w w' -> I w') ->
  (forall e w', recovering w w' -> Q (Err e) w') ->
  (forall rep w', recovering w w' ->
     (log_fits w -> failed_count rep = 0%Z -> recovered_all w w') -> Q (Ok rep) w') ->
  wp (recover_locked dialect) Q I w.
Proof.
  intros Hc Hi He Hq. assert (Hrefl : recovering w w) by (by apply recovering_same).
  unfold recover_locked, recoverable_logs, state_dialect. apply wp_bind, wp_bind, wp_ret.
  assert (Heff : wp (effect (fun w : world => (select_recoverable (db w), w)))
    (fun r w' => match r with
      | Ok x => wp (recover_rows dialect x {| recovered := 0; failed_count := 0 |}) Q I w'
      | Err e => Q (Err e) w' end) I w).
  { apply wp_effect; [auto|]. simpl.
    destruct (select_recoverable (db w)) as [l|e] eqn:Hl; [|auto].
    apply recoverable_law in Hl as [Hl Hnd]. apply wp_recover_rows; [done|done|apply Hl|auto|auto|].
    intros rep w' Hrec Hsame Htot. apply Hq; [done|]. intros Hfit Hz x r Hr. split.
    - intros Hrr. apply Hsame. intros (q & -> & Hq')%list_elem_of_fmap.
      apply Hl in Hq' as [Hq1 Hq2]. unfold row in Hr. congruence.
    - intros Hrr. destruct Htot as (_ & _ & Hall).
      + pose proof (backlog_bound l (rows (db w)) Hnd) as Hb. unfold log_fits in Hfit.
        split_and!; simpl; [lia|lia|]. rewrite Z.add_0_l.
        assert (length l <= size (rows (db w))); [|lia]. apply Hb. intros q Hq'.
        apply Hl in Hq' as [-> _]. by eexists.
      + apply Hall; [done|]. apply Hl. split; [|done]. pose proof (Hc x) as Hx.
        unfold consistent in Hx. rewrite Hr in Hx. destruct Hx as [-> _]. exact Hr. }
  destruct dialect; auto.
Qed.

Lemma recovering_trans w1 w2 w3 : recovering w1 w2 -> recovering w2 w3 -> recovering w1 w3.
Proof. intros [_ H1] [H2 H3]. split; [done|]. by eapply kept_trans. Qed.

Lemma wp_acquire_fence (Q : result (option G) XaError -> world -> Prop) (I : world -> Prop) w :
  I w -> (forall res w', parts w' = parts w -> db w' = db w -> Q res w') ->
  wp (acquire_fence acquire_fenced) Q I w.
Proof.
  intros Hi Hq. apply wp_effect; [done|]. destruct (fence w) as [f|]; [|by apply Hq].
  destruct (acquire_fenced f) as [r f']. by apply Hq.
Qed.

Lemma wp_release_fence guard (Q : result unit XaError -> world -> Prop) (I : world -> Prop) w :
  I w -> (forall res w', parts w' = parts w -> db w' = db w -> Q res w') ->
  wp (release_fence release guard) Q I w.
Proof.
  intros Hi Hq. apply wp_effect; [done|]. destruct (fence w) as [f|]; [|by apply Hq].
  destruct guard as [g|]; [|by apply Hq]. destruct (release f g) as [r f']. by apply Hq.
Qed.

Lemma recovered_all_mono w0 w1 w w' :
  parts w1 = parts w0 -> rows (db w1) = rows (db w0) -> parts w' = parts w -> db w' = db w ->
  (log_fits w1 -> recovered_all w1 w) -> log_fits w0 -> recovered_all w0 w'.
Proof.
  intros Hp0 Hr0 Hp Hd Hall Hfit. unfold log_fits in *. rewrite Hr0 in Hall.
  specialize (Hall Hfit). unfold recovered_all, same_at, completed, row, pv in *.
  by rewrite Hr0, Hp0, <- Hp, <- Hd in Hall.
Qed.

Lemma wp_recover w Q (I : world -> Prop) :
  all_consistent w -> (forall w', recovering w w' -> I w') ->
  (forall e w', recovering w w' -> Q (Err e) w') ->
  (forall rep w', recovering w w' ->
     (log_fits w -> failed_count rep = 0%Z -> recovered_all w w') -> Q (Ok rep) w') ->
  wp (recover dialect acquire_fenced release) Q I w.
Proof.
  intros Hc Hi He Hq. unfold recover, ensure_schema. apply wp_bind, wp_bind, wp_ret.
  assert (Hrefl : recovering w w) by (by apply recovering_same).
  destruct (state_dialect dialect) as [[]|e]; [|auto]. apply wp_effect; [auto|].
  pose proof (ensure_law (db w)) as Hens. destruct (ensure_table (db w)) as [res d]. simpl in *.
  assert (H1 : recovering w (set_db d w)) by (by apply recovering_same).
  destruct res as [[]|e]; [|auto]. apply wp_bind, wp_acquire_fence; [auto|].
  intros res w1 Hp1 Hd1. assert (H2 : recovering w w1).
  { eapply recovering_trans; [exact H1|]. apply recovering_same; [apply H1|done|congruence]. }
  destruct res as [guard|e]; [|auto].
  assert (Hr1 : rows (db w1) = rows (db w)) by (by rewrite Hd1).
  assert (Hrel : forall res w', recovering w w' ->
    (forall rep, res = Ok rep -> failed_count rep = 0%Z -> log_fits w1 -> recovered_all w1 w') ->
    wp (bind (try (release_fence release guard)) (fun released =>
          match res with
          | Ok report => bind (ret released) (fun _ => ret (Ok report))
          | Err e => ret (Err e)
          end)) Q I w').
  { intros out w' Hrec Hall. apply wp_bind, wp_try, wp_release_fence; [auto|].
    intros r w3 Hp3 Hd3. assert (H3 : recovering w w3).
    { eapply recovering_trans; [exact Hrec|].
      apply recovering_same; [apply Hrec|done|congruence]. }
    destruct out as [rep|e]; [|by apply wp_ret, He]. apply wp_bind, wp_ret.
    destruct r as [u|e]; [|by apply He]. apply wp_ret, Hq; [done|].
    intros Hfit Hz. eapply recovered_all_mono; [exact Hp1|exact Hr1|exact Hp3|exact Hd3| |done].
    exact (Hall rep eq_refl Hz). }
  apply wp_bind, wp_try, wp_recover_locked; [apply H2|..].
  - intros w' Hr. apply Hi. by eapply recovering_trans.
  - intros e w' Hr. apply (Hrel (Err e)); [by eapply recovering_trans|done].
  - intros rep w' Hr Hall. apply (Hrel (Ok rep)); [by eapply recovering_trans|]. intros rep' [= <-] Hz Hfit.
    exact (Hall Hfit Hz).
Qed.

End Facts.
End CoordinatorFacts.
