(* ===== verification/TwoPhaseSpec.v ===== *)
(** * Two-phase commit: the system and what it guarantees

    [System]: one coordinator process that begins, commits, rolls back and recovers
    transactions, can die between any two of its durable effects and is started
    again.  The theorems of [TwoPhaseSpec] hold in every state it can reach. *)

From S2P Require Import Prelude Dialect Crash TwoPhase TwoPhaseFacts.

Local Open Scope ecat_scope.

Module System.
Import Xa Coordinator CoordinatorFacts.

Section System.
Context {P DB F G : Type} `{XC : XaContract P} `{TC : TxLogContract DB}.
Context (dialect : Dialect).
Context (acquire_fenced : F -> result (option G) string * F).
Context (release : F -> G -> result unit string * F).

(** The world and the [DistributedTx] values the process still holds. *)
Record sys := { sw : world P DB F; live : gmap string (list string) }.

(** The process dies: its transactions are gone, its participants see the
    connections drop. *)
Definition crashed (w : world P DB F) : sys :=
  {| sw := set_parts (crash <$> parts w) w; live := ∅ |}.

Definition after {A} (out : outcome XaError A) (p : proc (world P DB F))
    (next : result A XaError -> gmap string (list string)) : sys :=
  match out with
  | Ret r => {| sw := the_world p; live := next r |}
  | Died => crashed (the_world p)
  end.

Definition start (s : sys) (b : option nat) : proc (world P DB F) :=
  {| the_world := sw s; left_ := b |}.

(** [commit] and [rollback] consume the transaction. *)
Inductive step (s : sys) : sys -> Prop :=
| step_begin uuid names b out p :
    unused (sw s) uuid -> begin dialect uuid names (start s b) = (out, p) ->
    step s (after out p (fun r => match r with
      | Ok tx => <[tx_id tx := tx_participants tx]> (live s)
      | Err _ => live s end))
| step_execute x names name sql args b out p :
    live s !! x = Some names ->
    execute {| tx_id := x; tx_participants := names |} name sql args (start s b) = (out, p) ->
    step s (after out p (fun _ => live s))
| step_commit x names b out p :
    live s !! x = Some names ->
    commit dialect {| tx_id := x; tx_participants := names |} (start s b) = (out, p) ->
    step s (after out p (fun _ => delete x (live s)))
| step_rollback x names b out p :
    live s !! x = Some names ->
    rollback dialect {| tx_id := x; tx_participants := names |} (start s b) = (out, p) ->
    step s (after out p (fun _ => delete x (live s)))
| step_recover b out p :
    recover dialect acquire_fenced release (start s b) = (out, p) ->
    step s (after out p (fun _ => live s))
| step_crash : step s (crashed (sw s)).

Definition init (s : sys) : Prop :=
  live s = ∅ /\ rows (db (sw s)) = ∅ /\ forall n x, pv (sw s) n x = Absent.

(** *** The invariant *)

Definition live_ok (w : world P DB F) (l : gmap string (list string)) : Prop :=
  forall x names, l !! x = Some names ->
    exists r, row w x = Some r /\ participants r = names /\ rollback_side (status r).

Definition inv (s : sys) : Prop := all_consistent (sw s) /\ live_ok (sw s) (live s).

Lemma crashed_consistent w : all_consistent w -> all_consistent (sw (crashed w)).
Proof.
  intros Hc x. specialize (Hc x).
  assert (Hpv : forall n, pv (sw (crashed w)) n x = pv w n x \/
    ((pv w n x = Active \/ pv w n x = Ended) /\ pv (sw (crashed w)) n x = RolledBack)).
  { intros n. unfold pv; simpl. rewrite lookup_fmap. destruct (parts w !! n) as [p|]; simpl; [|by left].
    apply crash_law. }
  unfold consistent in *. change (row (sw (crashed w)) x) with (row w x).
  destruct (row w x) as [r|].
  - destruct Hc as (Hid & Hnd & Hcm & Hcs & Hrs & Hrb).
    assert (Hst : forall n, pv w n x = Prepared \/ pv w n x = Committed ->
                  pv (sw (crashed w)) n x = pv w n x).
    { intros n Hn. destruct (Hpv n) as [?|[[He|He] _]]; [done|..]; rewrite He in Hn; by destruct Hn. }
    split; [done|]. split; [done|]. split; [|split; [|split]].
    + intros Hs n Hn. rewrite Hst; auto.
    + intros Hs. destruct (Hcs Hs) as [Hd Hall]. split; [done|]. intros n Hn. rewrite Hst; auto.
    + intros Hs n Hn. destruct (Hpv n) as [->|[_ ->]]; [auto|done].
    + intros Hs n Hn. destruct (Hpv n) as [->|[_ ->]]; [auto|done].
  - intros n. destruct (Hpv n) as [->|[[He|He] _]]; [done|..]; by rewrite Hc in He.
Qed.

Lemma crashed_inv w : all_consistent w -> inv (crashed w).
Proof. intros Hc. split; [by apply crashed_consistent|]. intros x names Hl. simpl in Hl. by rewrite lookup_empty in Hl. Qed.

(** A transaction whose row nobody touched keeps its promise. *)
Lemma live_frame w w' l x :
  live_ok w l -> frame x w w' ->
  (forall names, l !! x = Some names ->
     exists r, row w' x = Some r /\ participants r = names /\ rollback_side (status r)) ->
  live_ok w' l.
Proof.
  intros Hl [_ Hf] Hx y names Hy. destruct (decide (y = x)) as [->|Hne]; [auto|].
  destruct (Hf y Hne) as [-> _]. auto.
Qed.

Lemma live_delete w w' l x : live_ok w l -> frame x w w' -> live_ok w' (delete x l).
Proof.
  intros Hl Hf. eapply live_frame; [|exact Hf|by intros names; rewrite lookup_delete_eq].
  intros y names Hy. apply lookup_delete_Some in Hy as [_ Hy]. auto.
Qed.

Lemma live_kept w w' l : live_ok w l -> kept w w' -> live_ok w' l.
Proof.
  intros Hl Hk x names Hx. destruct (Hl x names Hx) as (r & Hr & Hn & Hs). specialize (Hk x).
  rewrite Hr in Hk. destruct Hk as (r' & Hr' & Hn' & Hs'). exists r'. split; [done|].
  split; [congruence|]. unfold rollback_side in *. congruence.
Qed.

Lemma all_consistent_frame x (w w' : world P DB F) :
  all_consistent w -> frame x w w' -> consistent w' x -> all_consistent w'.
Proof. intros Hc Hf Hx. exact (consistent_frame x w w' Hc Hf Hx). Qed.

(** A statement executed on a branch. *)
Lemma moved_consistent x n (w w' : world P DB F) :
  all_consistent w -> moved x n w w' ->
  pv w' n x = pv w n x \/ (pv w n x = Active /\ pv w' n x = RolledBack) -> all_consistent w'.
Proof.
  intros Hc Hm Hb. apply (all_consistent_frame x w); [done|by eapply moved_frame|].
  specialize (Hc x). unfold consistent in *. rewrite (moved_row _ _ _ _ _ Hm).
  destruct Hm as (_ & _ & Hp).
  assert (Hpv : forall m, pv w' m x = pv w m x \/ (pv w m x = Active /\ pv w' m x = RolledBack)).
  { intros m. destruct (decide (m = n)) as [->|Hne]; [done|]. left. apply Hp. congruence. }
  destruct (row w x) as [r|].
  - destruct Hc as (Hid & Hnd & Hcm & Hcs & Hrs & Hrb).
    split; [done|]. split; [done|]. split; [|split; [|split]].
    + intros Hs m Hin. destruct (Hpv m) as [->|[Ha _]]; [auto|]. by rewrite Hcm in Ha.
    + intros Hs. destruct (Hcs Hs) as [Hd Hall]. split; [done|]. intros m Hin.
      destruct (Hpv m) as [->|[Ha _]]; [auto|]. destruct (Hall m Hin) as [He|He]; congruence.
    + intros Hs m Hin. destruct (Hpv m) as [->|[_ ->]]; [auto|done].
    + intros Hs m Hin. destruct (Hpv m) as [->|[_ ->]]; [auto|done].
  - intros m. destruct (Hpv m) as [->|[Ha _]]; [done|]. by rewrite Hc in Ha.
Qed.

Lemma wp_execute tx name sql args w Q (I : world P DB F -> Prop) :
  all_consistent w -> I w ->
  (forall res w', frame (tx_id tx) w w' -> all_consistent w' ->
     (forall y, row w' y = row w y) -> Q res w') ->
  wp (execute tx name sql args) Q I w.
Proof.
  intros Hc Hi Hq. unfold execute. case_decide; [|by apply wp_ret, Hq; [apply frame_refl|..]].
  apply (wp_on _ (tx_id tx) name _ _ _ Hi).
  - intros _. by apply Hq; [apply frame_refl|..].
  - intros p r p' Hp He _ w' Hm Hv Hv'. pose proof (execute_law p (tx_id tx) sql args) as Hl.
    rewrite He in Hl. destruct Hl as [Hl _]. apply Hq; [by eapply moved_frame| |].
    + eapply moved_consistent; [done|exact Hm|]. by rewrite Hv, Hv'.
    + intros y. by eapply moved_row.
  - intros p. pose proof (execute_law p (tx_id tx) sql args) as Hl.
    destruct (xa_execute p (tx_id tx) sql args). apply Hl.
Qed.

(** What one operation promises of the next state: the invariant, and that no
    decision to commit is taken back. *)
Definition good (s s' : sys) : Prop :=
  inv s' /\
  forall x r, row (sw s) x = Some r -> commit_side (status r) = true ->
    exists r', row (sw s') x = Some r' /\ participants r' = participants r /\
               commit_side (status r') = true.

Definition decisions_kept (w w' : world P DB F) : Prop :=
  forall x r, row w x = Some r -> commit_side (status r) = true ->
    exists r', row w' x = Some r' /\ participants r' = participants r /\
               commit_side (status r') = true.

Lemma frame_decisions x (w w' : world P DB F) :
  frame x w w' -> (forall r, row w x = Some r -> commit_side (status r) = false) ->
  decisions_kept w w'.
Proof.
  intros [_ Hf] Hx y r Hr Hc. destruct (decide (y = x)) as [->|Hne].
  - rewrite (Hx r Hr) in Hc. done.
  - destruct (Hf y Hne) as [-> _]. eauto.
Qed.

Lemma kept_decisions (w w' : world P DB F) : kept w w' -> decisions_kept w w'.
Proof.
  intros Hk x r Hr Hc. specialize (Hk x). rewrite Hr in Hk.
  destruct Hk as (r' & Hr' & Hn & Hs). exists r'. split; [done|]. split; [done|congruence].
Qed.

(** From the weakest precondition of an operation to its step. *)
Lemma step_good {A} (m : M (world P DB F) XaError A) s b out p next (R : result A XaError -> world P DB F -> Prop)
    (I : world P DB F -> Prop) :
  wp m R I (sw s) -> m (start s b) = (out, p) ->
  (forall w, I w -> all_consistent w /\ decisions_kept (sw s) w) ->
  (forall r w, R r w -> all_consistent w /\ decisions_kept (sw s) w /\ live_ok w (next r)) ->
  good s (after out p next).
Proof.
  intros Hwp Hrun HI HR. pose proof (wp_run _ _ _ _ _ _ _ Hwp Hrun) as Hp.
  destruct out as [r|]; simpl.
  - destruct (HR _ _ Hp) as (Hc & Hd & Hl). split; [done|exact Hd].
  - destruct (HI _ Hp) as [Hc Hd]. split; [by apply crashed_inv|exact Hd].
Qed.

Lemma begin_good s uuid names b out p :
  inv s -> unused (sw s) uuid -> begin dialect uuid names (start s b) = (out, p) ->
  good s (after out p (fun r => match r with
    | Ok tx => <[tx_id tx := tx_participants tx]> (live s)
    | Err _ => live s end)).
Proof.
  intros [Hc Hl] Hu Hrun.
  assert (Hfr : forall w', frame uuid (sw s) w' -> consistent w' uuid ->
                all_consistent w' /\ decisions_kept (sw s) w').
  { intros w' Hf Hx. split; [by eapply all_consistent_frame|].
    apply (frame_decisions uuid); [done|]. destruct Hu as [Hr _]. intros r. by rewrite Hr. }
  eapply (step_good _ _ _ _ _ _
    (fun r w' => frame uuid (sw s) w' /\ consistent w' uuid /\
      match r with
      | Ok tx => tx = {| tx_id := uuid; tx_participants := names |} /\
                 safe uuid (sw s) rollback_side names w'
      | Err _ => True end)
    (fun w' => frame uuid (sw s) w' /\ consistent w' uuid)); [|exact Hrun|..].
  - apply wp_begin; [done|auto|auto|]. intros w' Hs. split; [apply Hs|]. split; [apply Hs|done].
  - intros w' [Hf Hx]. auto.
  - intros [tx|e] w' (Hf & Hx & Hr); destruct (Hfr w' Hf Hx) as [? ?]; split_and!; try done.
    + destruct Hr as [-> (_ & _ & r & Hr)]. simpl.
      intros y ns Hy. destruct (decide (y = uuid)) as [->|Hne].
      * rewrite lookup_insert_eq in Hy. inv Hy. eauto.
      * rewrite lookup_insert_ne in Hy by done. destruct Hf as [_ Hf].
        destruct (Hf y Hne) as [-> _]. auto.
    + eapply live_frame; [done|exact Hf|]. intros ns Hns.
      destruct (Hl _ _ Hns) as (r & Hr' & _). destruct Hu as [Hu _]. congruence.
Qed.

Lemma inv_step s s' : inv s -> step s s' -> good s s'.
Proof.
  intros [Hc Hl] Hst.
  assert (Hdrop : forall x r names w', live s !! x = Some names ->
    row (sw s) x = Some r -> rollback_side (status r) ->
    frame x (sw s) w' -> consistent w' x ->
    all_consistent w' /\ decisions_kept (sw s) w' /\ live_ok w' (delete x (live s))).
  { intros x r names w' Hx Hr Hs Hf Hcx. split_and!.
    - by eapply all_consistent_frame.
    - apply (frame_decisions x); [done|]. intros r'. by rewrite Hr; intros [= <-].
    - by eapply live_delete. }
  destruct Hst as [uuid names b out p Hu Hrun|x names name sql args b out p Hx Hrun|
                   x names b out p Hx Hrun|x names b out p Hx Hrun|b out p Hrun|].
  - by apply begin_good with uuid names b.
  - eapply (step_good _ _ _ _ _ _
      (fun _ w' => frame x (sw s) w' /\ all_consistent w' /\ forall y, row w' y = row (sw s) y)
      (fun w' => w' = sw s)); [|exact Hrun|..].
    + apply wp_execute; [done|done|auto].
    + intros w' ->. split; [done|]. intros y r Hr Hcs. eauto.
    + intros _ w' (Hf & Hc' & Hr). split; [done|]. split.
      * intros y r Hy Hcs. rewrite Hr. eauto.
      * intros y ns Hy. rewrite Hr. auto.
  - destruct (Hl x names Hx) as (r & Hr & Hn & Hs).
    eapply (step_good _ _ _ _ _ _ (fun _ => safe x (sw s) any_status names)
              (safe x (sw s) any_status names)); [|exact Hrun|..].
    + by eapply (wp_commit dialect {| tx_id := x; tx_participants := names |}).
    + intros w' (Hf & Hcx & _). destruct (Hdrop x r names w' Hx Hr Hs Hf Hcx) as (? & ? & _). done.
    + intros _ w' (Hf & Hcx & _). by apply (Hdrop x r names).
  - destruct (Hl x names Hx) as (r & Hr & Hn & Hs).
    eapply (step_good _ _ _ _ _ _ (fun _ => safe x (sw s) rollback_side names)
              (safe x (sw s) rollback_side names)); [|exact Hrun|..].
    + by eapply (wp_rollback dialect {| tx_id := x; tx_participants := names |}).
    + intros w' (Hf & Hcx & _). destruct (Hdrop x r names w' Hx Hr Hs Hf Hcx) as (? & ? & _). done.
    + intros _ w' (Hf & Hcx & _). by apply (Hdrop x r names).
  - eapply (step_good _ _ _ _ _ _ (fun _ => recovering (sw s)) (recovering (sw s)));
      [|exact Hrun|..].
    + by apply wp_recover.
    + intros w' [Hc' Hk]. split; [done|by apply kept_decisions].
    + intros _ w' [Hc' Hk]. split; [done|]. split; [by apply kept_decisions|by eapply live_kept].
  - split; [by apply crashed_inv|]. intros y r Hr Hcs. exists r. done.
Qed.

Lemma init_inv s : init s -> inv s.
Proof.
  intros (Hl & Hr & Hp). split.
  - intros x. unfold consistent, row. by rewrite Hr, lookup_empty.
  - intros x names Hx. by rewrite Hl, lookup_empty in Hx.
Qed.

Lemma reachable_inv s : reachable init step s -> inv s.
Proof.
  apply invariant_reachable. split; [apply init_inv|]. intros s1 s2 Hi Hst. by apply (inv_step s1).
Qed.

End System.
End System.

(** ** A participant and a log that keep their contracts *)

Module TwoPhaseDemo.
Import Xa Coordinator CoordinatorFacts System.

Definition at_ (m : gmap string branch) (x : string) : branch := default Absent (m !! x).

Definition demo_prepare (m : gmap string branch) (x : string)
    : result unit XaError * gmap string branch :=
  match at_ m x with
  | Active | Ended => (Ok tt, <[x := Prepared]> m)
  | Prepared => (Ok tt, m)
  | _ => (Err (UnknownXid x), m)
  end.

Definition demo_rollback (m : gmap string branch) (x : string)
    : result unit XaError * gmap string branch :=
  match at_ m x with
  | Absent | Committed => (Ok tt, m)
  | _ => (Ok tt, <[x := RolledBack]> m)
  end.

Definition move (from to : branch) (m : gmap string branch) (x : string)
    : result unit XaError * gmap string branch :=
  (Ok tt, if decide (at_ m x = from) then <[x := to]> m else m).

#[export] Instance demo_xa : XaParticipant (gmap string branch) := {
  Xa.xa_start := move Absent Active;
  Xa.xa_end := move Active Ended;
  Xa.xa_prepare := demo_prepare;
  Xa.xa_commit := move Prepared Committed;
  Xa.xa_rollback := demo_rollback;
  Xa.xa_recover m :=
    (Ok (map fst (filter (fun kv : string * branch => kv.2 = Prepared) (map_to_list m))), m);
  Params := unit;
  xa_execute m _ _ _ := (Ok 1%Z, m);
}.

Definition drop (b : branch) : branch :=
  match b with Active | Ended => RolledBack | b => b end.

Lemma at_insert m x y b : at_ (<[x := b]> m) y = if decide (x = y) then b else at_ m y.
Proof. unfold at_. case_decide; subst; by rewrite ?lookup_insert_eq, ?lookup_insert_ne. Qed.

Lemma move_at from to m x y :
  at_ (if decide (at_ m x = from) then <[x := to]> m else m) y =
  if decide (x = y /\ at_ m x = from) then to else at_ m y.
Proof.
  destruct (decide (at_ m x = from)); [rewrite at_insert|];
    repeat case_decide; naive_solver.
Qed.

#[export] Instance demo_contract : XaContract (gmap string branch).
Proof.
  refine {| view := at_; crash m := drop <$> m |}; simpl.
  - intros p x. split; [|intros y Hy]; rewrite move_at; case_decide; naive_solver.
  - intros p x. split; [|intros y Hy]; rewrite move_at; case_decide; naive_solver.
  - intros p x. unfold demo_prepare. destruct (at_ p x) eqn:E; split_and!; try intros y Hy;
      rewrite ?at_insert, ?decide_True by done; rewrite ?decide_False by congruence; auto; done.
  - intros p x. unfold move. split_and!; [..|intros y Hy];
      destruct (decide (at_ p x = Prepared)); rewrite ?at_insert, ?decide_True by done;
      rewrite ?decide_False by congruence; auto; done.
  - intros p x. unfold demo_rollback. destruct (at_ p x) eqn:E; split_and!; try intros y Hy;
      try (rewrite at_insert in Hy; rewrite decide_True in Hy by done);
      rewrite ?at_insert, ?decide_True by done; rewrite ?decide_False by congruence;
      solve [auto; congruence | right; split_and!; congruence].
  - intros p. split; [done|]. intros l Hl x. injection Hl as <-. rewrite list_elem_of_fmap. unfold at_. split.
    + intros ([k b] & -> & [Hb Hin]%list_elem_of_filter). simpl in *. subst b.
      apply elem_of_map_to_list in Hin. by rewrite Hin.
    + intros Hx. exists (x, Prepared). split; [done|]. apply list_elem_of_filter.
      split; [done|]. apply elem_of_map_to_list. destruct (p !! x) as [b|]; simpl in Hx; congruence.
  - intros p x _ _. auto.
  - intros p x. unfold at_. rewrite lookup_fmap. destruct (p !! x) as [[]|]; simpl; auto.
Defined.

Definition pending (m : gmap string LogRow) (k : string) : option LogRow :=
  match m !! k with
  | Some r => if decide (id r = k /\ recoverable (status r) = true) then Some r else None
  | None => None
  end.

#[export] Instance demo_log : TxLog (gmap string LogRow) := {
  ensure_table m := (Ok tt, m);
  insert_row m r := (Ok tt, <[id r := r]> m);
  update_row m x s d := (Ok tt, alter (set_row s d) x m);
  select_status m x := Ok (status <$> m !! x);
  select_recoverable m := Ok (omap (pending m) (elements (dom m)));
}.

Lemma pending_ids m ks : NoDup ks -> NoDup (map id (omap (pending m) ks)).
Proof.
  assert (Hid : forall k r, pending m k = Some r -> id r = k).
  { intros k r. unfold pending. destruct (m !! k); [|done]. case_decide; naive_solver. }
  induction 1 as [|k ks Hk Hnd IH]; simpl; [apply NoDup_nil_2|].
  destruct (pending m k) as [r|] eqn:Hr; simpl; [|done]. apply NoDup_cons. split; [|done].
  rewrite (Hid k r Hr). intros (q & He & Hq)%list_elem_of_fmap. apply list_elem_of_omap in Hq.
  destruct Hq as (k' & Hk' & Hq'). apply Hid in Hq'. congruence.
Qed.

#[export] Instance demo_log_contract : TxLogContract (gmap string LogRow).
Proof.
  refine {| rows m := m |}; simpl; auto.
  - intros m x o [= <-]. done.
  - intros m l [= <-]. split; [|apply pending_ids, NoDup_elements].
    intros r. rewrite list_elem_of_omap. unfold pending. split.
    + intros (k & _ & Hr). destruct (m !! k) eqn:E; [|done]. case_decide; naive_solver.
    + intros [Hr Hrec]. exists (id r). split.
      * by apply elem_of_elements, elem_of_dom.
      * rewrite Hr. by rewrite decide_True.
Defined.

End TwoPhaseDemo.

(** ** The properties *)

Module TwoPhaseSpec.
Import Xa Coordinator CoordinatorFacts System.

(** *** A run of the demonstration instance

    A transfer over two participants; the process dies after it told the first one
    to commit, is started again and recovers. *)
Section Run.
Import TwoPhaseDemo.

Definition no_fence (f : unit) : result (option unit) string * unit := (Ok (Some tt), f).
Definition no_release (f _ : unit) : result unit string * unit := (Ok tt, f).

Definition demo_world : world (gmap string branch) (gmap string LogRow) unit :=
  {| parts := {[ "a" := ∅; "b" := ∅ ]}; db := ∅; fence := None |}.

Definition sys0 : sys (P := gmap string branch) (DB := gmap string LogRow) (F := unit) :=
  {| sw := demo_world; live := ∅ |}.

Definition run_begin :=
  begin Postgres "t" ["a"; "b"] (start sys0 None).
Definition sys1 := after run_begin.1 run_begin.2 (fun r => match r with
  | Ok tx => <[tx_id tx := tx_participants tx]> (live sys0)
  | Err _ => live sys0 end).

(** Effects before the death: the status, two ENDs, two PREPAREs, two log writes and
    one COMMIT. *)
Definition run_commit (b : option nat) :=
  commit Postgres {| tx_id := "t"; tx_participants := ["a"; "b"] |} (start sys1 b).
Definition sys2 := after (run_commit (Some 8)).1 (run_commit (Some 8)).2
  (fun _ => delete "t" (live sys1)).

Definition run_recover := recover Postgres no_fence no_release (start sys2 None).
Definition sys3 := after run_recover.1 run_recover.2 (fun _ => live sys2).

Definition status_of (s : sys (P := gmap string branch) (DB := gmap string LogRow) (F := unit)) :=
  status <$> row (sw s) "t".

Lemma run_init : init sys0.
Proof.
  split; [done|]. split; [done|]. intros n x. unfold pv; simpl.
  destruct (({["a" := ∅; "b" := ∅]} : gmap string (gmap string branch)) !! n) as [p|] eqn:E; [|done].
  assert (p = ∅) as ->; [|done].
  apply lookup_insert_Some in E as [[_ <-]|[_ E]]; [done|].
  apply lookup_singleton_Some in E as [_ <-]. done.
Qed.

Local Abbreviation demo_step := (step (F := unit) Postgres no_fence no_release).

Lemma reach_sys1 : reachable init demo_step sys1.
Proof.
  apply (reachable_step _ _ sys0); [apply reachable_refl; exact run_init|].
  apply (step_begin Postgres no_fence no_release sys0 "t" ["a"; "b"] None run_begin.1 run_begin.2);
    [split; [done|intros n; apply run_init]|apply surjective_pairing].
Qed.

Lemma reach_sys2 : reachable init demo_step sys2.
Proof.
  apply (reachable_step _ _ sys1); [apply reach_sys1|].
  apply (step_commit Postgres no_fence no_release sys1 "t" ["a"; "b"] (Some 8));
    [reflexivity|apply surjective_pairing].
Qed.

End Run.
Section Spec.
Context {P DB F G : Type} `{XC : XaContract P} `{TC : TxLogContract DB}.
Context (dialect : Dialect).
Context (acquire_fenced : F -> result (option G) string * F).
Context (release : F -> G -> result unit string * F).

Local Abbreviation reach := (reachable init (step dialect acquire_fenced release)).

(** C3. Atomicity: in every state the coordinator can reach, through any sequence of
    begins, commits, rollbacks, recoveries and deaths at any point of them, the
    participants of one transaction agree: if one has committed then every other
    one has committed or is prepared (so none was rolled back), a row "committed"
    means all have committed, and a row "rolled_back" that none has committed or
    can still commit. *)
Theorem two_phase_atomicity (s : sys) (x : string) (r : LogRow) :
  reach s -> row (sw s) x = Some r ->
  (forall n m, n ∈ participants r -> m ∈ participants r -> pv (sw s) n x = Committed ->
     pv (sw s) m x = Committed \/ pv (sw s) m x = Prepared) /\
  (status r = "committed" -> forall n, n ∈ participants r -> pv (sw s) n x = Committed) /\
  (status r = "rolled_back" -> forall n, n ∈ participants r ->
     pv (sw s) n x <> Committed /\ pv (sw s) n x <> Prepared).
Proof.
  intros Hreach Hr. apply reachable_inv in Hreach as [Hc _]. specialize (Hc x).
  unfold consistent in Hc. rewrite Hr in Hc. destruct Hc as (_ & _ & Hcm & Hcs & Hrs & Hrb).
  split; [|split; [done|]].
  - intros n m Hn Hm Hv. destruct (commit_side (status r)) eqn:Hs; [|by destruct (Hrs eq_refl n Hn)].
    destruct (Hcs eq_refl) as [_ Hall]. destruct (Hall m Hm); auto.
  - intros Hs n Hn. split; [apply Hrs; [by rewrite Hs|done]|auto].
Qed.

(** No decision is taken back: once the log says a transaction is prepared,
    committing or committed, every further step of the coordinator, a death
    included, leaves it on that side with the same participants. *)
Theorem decision_irrevocable (s s' : sys) (x : string) (r : LogRow) :
  reach s -> step dialect acquire_fenced release s s' ->
  row (sw s) x = Some r -> commit_side (status r) = true ->
  exists r', row (sw s') x = Some r' /\ participants r' = participants r /\
             commit_side (status r') = true.
Proof.
  intros Hreach Hst. apply reachable_inv in Hreach.
  destruct (inv_step dialect acquire_fenced release s s' Hreach Hst) as [_ Hd]. apply Hd.
Qed.

(** A commit that reports success has committed: the row says "committed" and
    so does every participant. *)
Theorem commit_ok_commits_all (s : sys) (x : string) (names : list string) b p :
  reach s -> live s !! x = Some names ->
  commit dialect {| tx_id := x; tx_participants := names |} (start s b) = (Ret (Ok tt), p) ->
  status <$> row (the_world p) x = Some "committed" /\
  forall n, n ∈ names -> pv (the_world p) n x = Committed.
Proof.
  intros Hreach Hx Hrun. apply reachable_inv in Hreach as [Hc Hl].
  destruct (Hl x names Hx) as (r & Hr & Hn & Hs).
  apply (wp_run _ (fun res w => res = Ok tt -> status <$> row w x = Some "committed" /\
    forall n, n ∈ names -> pv w n x = Committed) (fun _ => True) _ _ _ _) in Hrun; [auto|].
  by eapply (wp_commit dialect {| tx_id := x; tx_participants := names |}).
Qed.

(** C4. A recovery that reports no failure completes every transaction: each row the
    log left in doubt is now "committed" if the log had it prepared or committing,
    "rolled_back" otherwise, no participant is left prepared, and the other rows are
    untouched.  The report counts in 32 bits: the log holds fewer than 2^32 rows. *)
Theorem recover_settles (s : sys) b rep p x r :
  reach s -> (Z.of_nat (size (rows (db (sw s)))) <= u32_max)%Z ->
  recover dialect acquire_fenced release (start s b) = (Ret (Ok rep), p) ->
  failed_count rep = 0%Z -> row (sw s) x = Some r ->
  if recoverable (status r)
  then status <$> row (the_world p) x =
         Some (if commit_side (status r) then "committed" else "rolled_back") /\
       forall n, n ∈ participants r -> pv (the_world p) n x <> Prepared
  else row (the_world p) x = Some r /\ forall n, pv (the_world p) n x = pv (sw s) n x.
Proof.
  intros Hreach Hfit Hrun Hz Hr. apply reachable_inv in Hreach as [Hc Hl].
  assert (Hid : id r = x).
  { specialize (Hc x). unfold consistent in Hc. rewrite Hr in Hc. apply Hc. }
  apply (wp_run _ (fun res w => forall rep, res = Ok rep -> failed_count rep = 0%Z ->
    recovered_all (sw s) w) (fun _ => True) _ _ _ _) in Hrun.
  - simpl in Hrun. destruct (Hrun rep eq_refl Hz x r Hr) as [Hno Hyes].
    destruct (recoverable (status r)) eqn:Hrec.
    + destruct (Hyes eq_refl) as [Hb Hs]. rewrite Hid in *. done.
    + destruct (Hno eq_refl) as [Hr' Hp']. split; [congruence|done].
  - apply wp_recover; [done|done|done|]. intros rep' w' _ Hall rep'' [= <-]. by apply Hall.
Qed.

End Spec.

(** *** Witnesses: the run above *)

Section Witnesses.
Import TwoPhaseDemo.

(** The process died in the middle of the commit: one participant has committed, the
    other is prepared. *)
Lemma two_phase_atomicity_witness :
  pv (sw sys2) "a" "t" = Committed /\
  (pv (sw sys2) "b" "t" = Committed \/ pv (sw sys2) "b" "t" = Prepared).
Proof.
  split; [reflexivity|].
  apply (two_phase_atomicity Postgres no_fence no_release sys2 "t"
    {| id := "t"; status := "committing"; participants := ["a"; "b"]; decision := Some "commit" |}
    reach_sys2 eq_refl) with "a"; [set_solver|set_solver|reflexivity].
Defined.

Lemma decision_irrevocable_witness :
  exists r', row (sw sys3) "t" = Some r' /\ participants r' = ["a"; "b"] /\
             commit_side (status r') = true.
Proof.
  apply (decision_irrevocable Postgres no_fence no_release sys2 sys3 "t"
    {| id := "t"; status := "committing"; participants := ["a"; "b"]; decision := Some "commit" |}
    reach_sys2); [|reflexivity|reflexivity].
  exact (step_recover Postgres no_fence no_release sys2 None run_recover.1 run_recover.2
    (surjective_pairing _)).
Defined.

Lemma commit_ok_commits_all_witness :
  (run_commit None).1 = Ret (Ok tt) /\
  status <$> row (the_world (run_commit None).2) "t" = Some "committed" /\
  forall n, n ∈ ["a"; "b"] -> pv (the_world (run_commit None).2) n "t" = Committed.
Proof.
  split; [reflexivity|].
  apply (commit_ok_commits_all Postgres no_fence no_release sys1 "t" ["a"; "b"] None);
    [apply reach_sys1|reflexivity|reflexivity].
Defined.

Lemma recover_settles_witness :
  run_recover.1 = Ret (Ok {| recovered := 1; failed_count := 0 |}) /\
  status <$> row (the_world run_recover.2) "t" = Some "committed" /\
  forall n, n ∈ ["a"; "b"] -> pv (the_world run_recover.2) n "t" <> Prepared.
Proof.
  split; [reflexivity|].
  apply (recover_settles Postgres no_fence no_release sys2 None
    {| recovered := 1; failed_count := 0 |} run_recover.2 "t"
    {| id := "t"; status := "committing"; participants := ["a"; "b"]; decision := Some "commit" |});
    [apply reach_sys2|apply Z.leb_le; reflexivity|reflexivity..].
Defined.

End Witnesses.
End TwoPhaseSpec.
