(* ===== verification/XaSqlx.v ===== *)
(** * The sqlx participant (ecat-data-2pc)

    [src/ecat-data-2pc/src/xa.rs]: an XA participant over a pool of MySQL or PostgreSQL
    connections.  A branch is pinned to the connection it was started on until it is
    committed or rolled back.

    The pool and the server are the class [Sqlx]; its operations answer with the text of
    their errors.  [acquire] and [PoolGuard] are those of [ecat-data-sqlx/src/pool.rs]. *)

From S2P Require Import Prelude Json Text Dialect TwoPhase.

Local Open Scope Z_scope.
Local Open Scope ecat_scope.

(** [Number::as_u64]. *)
Class JsonU64 `{JN : JsonNumber} := { number_as_u64 : Number -> option Z }.

(** What a statement binds. *)
Inductive Arg := ArgText (s : string) | ArgI64 (z : Z) | ArgU64 (z : Z) | ArgF64 (f : f64) | ArgBool (b : bool) | ArgNull.

(** The pool and its server: taking a connection, a statement with its arguments, the text
    of one column of a query, and a connection going back when its guard is dropped. *)
Class Sqlx := {
  Server : Type;
  Conn : Type;
  pool_acquire : Server -> result Conn string * Server;
  sql_execute : Server -> Conn -> string -> list Arg -> result Z string * Server;
  sql_fetch : Server -> Conn -> string -> string -> result (list string) string * Server;
  give_back : Server -> Conn -> Server
}.

Module XaSqlx.
Import Xa.

Section Participant.
Context {SX : Sqlx} `{JT : JsonText} {JU : JsonU64}.

(** *** The pool *)

Inductive Pool := PoolPg | PoolMy | PoolSq.
Inductive PoolGuard := GuardPg (c : Conn) | GuardMy (c : Conn) | GuardSq (c : Conn).

Definition pool_dialect (p : Pool) : Dialect := match p with PoolPg => Postgres | PoolMy => MySql | PoolSq => Sqlite end.

Definition guard_of (p : Pool) (c : Conn) : PoolGuard :=
  match p with PoolPg => GuardPg c | PoolMy => GuardMy c | PoolSq => GuardSq c end.

Definition conn_of (g : PoolGuard) : Conn := match g with GuardPg c | GuardMy c | GuardSq c => c end.

(** *** Statements *)

Definition apostrophe : Ascii.ascii := Ascii.ascii_of_nat 39.
Definition comma : Ascii.ascii := Ascii.ascii_of_nat 44.

Definition db_error (m : string) : XaError := DatabaseError m.

(** [xid.replace('\'', "''")]. *)
Fixpoint quote_xid (xid : string) : string :=
  match xid with
  | EmptyString => EmptyString
  | String a xid => if Ascii.eqb a apostrophe then String a (String a (quote_xid xid)) else String a (quote_xid xid)
  end.

Definition mysql_xid (data : string) : string :=
  match rsplit_once comma data with Some (gtrid, _) => gtrid | None => data end.

Definition unknown_xid (e : XaError) : bool :=
  let text := to_ascii_lowercase (display e) in
  contains "xaer_nota" text || contains "does not exist" text || contains "unknown xid" text.

Definition quoted (keyword x : string) : string := keyword +:+ " '" +:+ quote_xid x +:+ "'".

Definition exec_guard (g : PoolGuard) (sql : string) (s : Server) : result Z XaError * Server :=
  match g with
  | GuardMy c | GuardPg c => let '(r, s) := sql_execute s c sql [] in (map_err db_error r, s)
  | GuardSq _ => (Err UnsupportedDialect, s)
  end.

Definition unsupported_parameter (v : Value) : XaError := DatabaseError ("unsupported XA parameter type: " +:+ value_text v).

Definition bind_mysql (v : Value) : result Arg XaError :=
  match v with
  | VString text => Ok (ArgText text)
  | VNumber n =>
      match number_as_i64 n with
      | Some z => Ok (ArgI64 z)
      | None =>
          match number_as_u64 n with
          | Some z => Ok (ArgU64 z)
          | None =>
              match number_as_f64 n with
              | Some f => Ok (ArgF64 f)
              | None => Err (DatabaseError "unsupported XA number")
              end
          end
      end
  | VBool b => Ok (ArgBool b)
  | VNull => Ok ArgNull
  | other => Err (unsupported_parameter other)
  end.

Definition bind_postgres (v : Value) : result Arg XaError :=
  match v with
  | VString text => Ok (ArgText text)
  | VNumber n =>
      match number_as_i64 n with
      | Some z => Ok (ArgI64 z)
      | None =>
          match number_as_f64 n with
          | Some f => Ok (ArgF64 f)
          | None => Err (DatabaseError "u64 XA parameters are unsupported on PostgreSQL")
          end
      end
  | VBool b => Ok (ArgBool b)
  | VNull => Ok ArgNull
  | other => Err (unsupported_parameter other)
  end.

Fixpoint bind_all (bind : Value -> result Arg XaError) (l : list Value) : result (list Arg) XaError :=
  match l with
  | [] => Ok []
  | v :: l => let? a := bind v in let? l := bind_all bind l in Ok (a :: l)
  end.

Definition exec_params (g : PoolGuard) (sql : string) (params : list Value) (s : Server) : result Z XaError * Server :=
  let exec c bind :=
    match bind_all bind params with
    | Err e => (Err e, s)
    | Ok args => let '(r, s) := sql_execute s c sql args in (map_err db_error r, s)
    end in
  match g with
  | GuardMy c => exec c bind_mysql
  | GuardPg c => exec c bind_postgres
  | GuardSq _ => (Err UnsupportedDialect, s)
  end.

(** *** The participant *)

Record Pinned := { guard : PoolGuard; prepared : bool }.

Record SqlxXaParticipant := { dialect : Dialect; pool : Pool; conns : gmap string Pinned; server : Server }.

Definition set_server (s : Server) (p : SqlxXaParticipant) : SqlxXaParticipant :=
  {| dialect := dialect p; pool := pool p; conns := conns p; server := s |}.

Definition set_conns (m : gmap string Pinned) (p : SqlxXaParticipant) : SqlxXaParticipant :=
  {| dialect := dialect p; pool := pool p; conns := m; server := server p |}.

Definition new (client : Pool) (s : Server) : result SqlxXaParticipant XaError :=
  match pool_dialect client with
  | MySql | Postgres => Ok {| dialect := pool_dialect client; pool := client; conns := ∅; server := s |}
  | _ => Err UnsupportedDialect
  end.

Definition acquire (p : SqlxXaParticipant) : result PoolGuard XaError * SqlxXaParticipant :=
  let '(r, s) := pool_acquire (server p) in
  (match r with Ok c => Ok (guard_of (pool p) c) | Err m => Err (db_error m) end, set_server s p).

(** A statement on a guard, and the guard dropped. *)
Definition run (g : PoolGuard) (sql : string) (p : SqlxXaParticipant) : result Z XaError * SqlxXaParticipant :=
  let '(r, s) := exec_guard g sql (server p) in (r, set_server s p).

Definition drop (g : PoolGuard) (p : SqlxXaParticipant) : SqlxXaParticipant := set_server (give_back (server p) (conn_of g)) p.

(** The last section of [xa_start], the map locked again. *)
Definition pin (x : string) (g : PoolGuard) (p : SqlxXaParticipant) : result unit XaError * SqlxXaParticipant :=
  match conns p !! x with
  | Some _ =>
      match (match dialect p with MySql => Some (quoted "XA ROLLBACK" x) | Postgres => Some "ROLLBACK" | _ => None end) with
      | None => (Err UnsupportedDialect, drop g p)
      | Some rollback => let '(_, p) := run g rollback p in (Err (UnknownXid x), drop g p)
      end
  | None => (Ok tt, set_conns (<[x := {| guard := g; prepared := false |}]> (conns p)) p)
  end.

Definition xa_start (p : SqlxXaParticipant) (x : string) : result unit XaError * SqlxXaParticipant :=
  if decide (x ∈ dom (conns p)) then (Ok tt, p)
  else
    match acquire p with
    | (Err e, p) => (Err e, p)
    | (Ok g, p) =>
        match (match dialect p with MySql => Some (quoted "XA START" x) | Postgres => Some "BEGIN" | _ => None end) with
        | None => (Err UnsupportedDialect, drop g p)
        | Some sql =>
            match run g sql p with
            | (Err e, p) => (Err e, drop g p)
            | (Ok _, p) => pin x g p
            end
        end
    end.

Definition xa_end (p : SqlxXaParticipant) (x : string) : result unit XaError * SqlxXaParticipant :=
  match conns p !! x with
  | None => (Err (UnknownXid x), p)
  | Some pinned =>
      match dialect p with
      | MySql => let '(r, p) := run (guard pinned) (quoted "XA END" x) p in (rbind r (fun _ => Ok tt), p)
      | Postgres => (Ok tt, p)
      | _ => (Err UnsupportedDialect, p)
      end
  end.

Definition xa_prepare (p : SqlxXaParticipant) (x : string) : result unit XaError * SqlxXaParticipant :=
  match conns p !! x with
  | None => (Err (UnknownXid x), p)
  | Some pinned =>
      match (match dialect p with
             | MySql => Some (quoted "XA PREPARE" x)
             | Postgres => Some (quoted "PREPARE TRANSACTION" x)
             | _ => None
             end) with
      | None => (Err UnsupportedDialect, p)
      | Some sql =>
          match run (guard pinned) sql p with
          | (Err e, p) => (Err e, p)
          | (Ok _, p) => (Ok tt, set_conns (<[x := {| guard := guard pinned; prepared := true |}]> (conns p)) p)
          end
      end
  end.

(** The pinned guard taken out of the map, or a connection of the pool; and whether the
    branch was still open. *)
Definition take (x : string) (p : SqlxXaParticipant) : result (PoolGuard * bool) XaError * SqlxXaParticipant :=
  match conns p !! x with
  | Some pinned => (Ok (guard pinned, negb (prepared pinned)), set_conns (delete x (conns p)) p)
  | None => let '(r, p) := acquire p in (let? g := r in Ok (g, false), p)
  end.

(** The last statement of a branch: one the server does not know is resolved. *)
Definition finish (g : PoolGuard) (sql : string) (p : SqlxXaParticipant) : result unit XaError * SqlxXaParticipant :=
  let '(r, p) := run g sql p in
  (match r with
   | Ok _ => Ok tt
   | Err e => if unknown_xid e then Ok tt else Err e
   end, drop g p).

Definition xa_commit (p : SqlxXaParticipant) (x : string) : result unit XaError * SqlxXaParticipant :=
  match take x p with
  | (Err e, p) => (Err e, p)
  | (Ok (g, _), p) =>
      match dialect p with
      | MySql => finish g (quoted "XA COMMIT" x) p
      | Postgres => finish g (quoted "COMMIT PREPARED" x) p
      | _ => (Err UnsupportedDialect, drop g p)
      end
  end.

Definition xa_rollback (p : SqlxXaParticipant) (x : string) : result unit XaError * SqlxXaParticipant :=
  match take x p with
  | (Err e, p) => (Err e, p)
  | (Ok (g, active), p) =>
      match dialect p with
      | MySql => finish g (quoted "XA ROLLBACK" x) p
      | Postgres => finish g (if active then "ROLLBACK" else quoted "ROLLBACK PREPARED" x) p
      | _ => (Err UnsupportedDialect, drop g p)
      end
  end.

Definition fetch (g : PoolGuard) (sql column : string) (f : string -> string) (p : SqlxXaParticipant)
    : result (list string) XaError * SqlxXaParticipant :=
  let '(r, s) := sql_fetch (server p) (conn_of g) sql column in
  (match r with Ok l => Ok (f <$> l) | Err m => Err (db_error m) end, drop g (set_server s p)).

Definition xa_recover (p : SqlxXaParticipant) : result (list string) XaError * SqlxXaParticipant :=
  match acquire p with
  | (Err e, p) => (Err e, p)
  | (Ok g, p) =>
      match g with
      | GuardMy _ => fetch g "XA RECOVER" "data" mysql_xid p
      | GuardPg _ => fetch g "SELECT gid FROM pg_prepared_xacts" "gid" (fun gid => gid) p
      | GuardSq _ => (Err UnsupportedDialect, drop g p)
      end
  end.

Definition execute (p : SqlxXaParticipant) (x sql : string) (params : list Value) : result Z XaError * SqlxXaParticipant :=
  match conns p !! x with
  | None => (Err (UnknownXid x), p)
  | Some pinned => let '(r, s) := exec_params (guard pinned) sql params (server p) in (r, set_server s p)
  end.

(** The trait, implemented. *)
#[export] Instance sqlx_participant : XaParticipant SqlxXaParticipant := {
  Xa.xa_start := xa_start;
  Xa.xa_end := xa_end;
  Xa.xa_prepare := xa_prepare;
  Xa.xa_commit := xa_commit;
  Xa.xa_rollback := xa_rollback;
  Xa.xa_recover := xa_recover;
  Xa.Params := list Value;
  Xa.xa_execute := execute
}.

End Participant.
End XaSqlx.
