(* ===== verification/XaSqlxSpec.v ===== *)
(** * The sqlx participant and the contract of the coordinator

    Over PostgreSQL as documented, the calls of the participant simulate the branches of
    [TwoPhase.Xa.XaContract]: the state of a branch is spread over the map of pinned
    connections, the sessions of these connections and the server's prepared transactions.
    One promise is not kept: a branch whose transaction has failed reports a prepare, and
    then a commit.  The simulation says so: a prepare keeps the contract, or it is such a
    void prepare. *)

From S2P Require Import Prelude Json Text Dialect TwoPhase XaSqlx.

Local Open Scope Z_scope.
Local Open Scope ecat_scope.

Module XaSqlxSpec.
Import Xa XaSqlx.

(** A connection: idle, in a transaction, in one that a statement failed, or lost. *)
Inductive session_state := Idle | InTx | FailedTx | Gone.

#[export] Instance session_state_eq_dec : EqDecision session_state.
Proof. solve_decision. Defined.

(** PostgreSQL and the pool: the prepared transactions by their identifier, the sessions,
    and the connections that are out of the pool. *)
Class PgServer `{SX : Sqlx} := {
  gid : Server -> string -> branch;
  session : Server -> Conn -> session_state;
  held : Server -> Conn -> Prop;
  data_statement : string -> Prop;

  acquire_law s : let '(r, s') := pool_acquire s in
    (forall x, gid s' x = gid s x) /\ (forall d, held s d -> session s' d = session s d) /\
    match r with
    | Ok c => ~ held s c /\ session s' c = Idle /\ forall d, held s' d <-> d = c \/ held s d
    | Err _ => forall d, held s' d <-> held s d
    end;
  give_back_law s c :
    (forall x, gid (give_back s c) x = gid s x) /\
    forall d, d <> c -> held s d -> held (give_back s c) d /\ session (give_back s c) d = session s d;

  (** A statement is the business of its own session. *)
  session_law s c sql args : let s' := (sql_execute s c sql args).2 in
    (forall d, held s' d <-> held s d) /\ forall d, d <> c -> session s' d = session s d;
  gone_law s c sql args : session s c = Gone ->
    exists m, (sql_execute s c sql args).1 = Err m /\ unknown_xid (db_error m) = false /\
      session (sql_execute s c sql args).2 c = Gone /\ forall x, gid (sql_execute s c sql args).2 x = gid s x;

  begin_law s c : session s c = Idle -> let '(r, s') := sql_execute s c "BEGIN" [] in
    (forall x, gid s' x = gid s x) /\ (is_ok r = true -> session s' c = InTx);
  (** A prepare of an open transaction ends it, one way or the other; out of a transaction, or
      in a failed one, it prepares nothing. *)
  prepare_open s c x : session s c = InTx ->
    let '(r, s') := sql_execute s c (quoted "PREPARE TRANSACTION" x) [] in
    (forall y, y <> x -> gid s' y = gid s y) /\
    match r with
    | Ok _ => gid s' x = Prepared /\ session s' c = Idle
    | Err _ => (gid s' x = gid s x /\ session s' c <> InTx) \/ (gid s' x = Prepared /\ session s' c = Gone)
    end;
  prepare_closed s c x : session s c <> InTx ->
    let '(r, s') := sql_execute s c (quoted "PREPARE TRANSACTION" x) [] in
    (forall y, gid s' y = gid s y) /\ session s' c <> InTx /\
    (session s c = FailedTx -> is_ok r = true /\ session s' c = Idle);
  rollback_law s c : forall x, gid (sql_execute s c "ROLLBACK" []).2 x = gid s x;
  commit_prepared s c x : let '(r, s') := sql_execute s c (quoted "COMMIT PREPARED" x) [] in
    (forall y, y <> x -> gid s' y = gid s y) /\
    (gid s' x = gid s x \/ (gid s x = Prepared /\ gid s' x = Committed)) /\
    match r with Ok _ => gid s' x <> Prepared | Err m => unknown_xid (db_error m) = true -> gid s' x <> Prepared end /\
    (session s c = Idle -> gid s x <> Prepared -> exists m, r = Err m /\ contains "does not exist" m = true);
  rollback_prepared s c x : let '(r, s') := sql_execute s c (quoted "ROLLBACK PREPARED" x) [] in
    (forall y, y <> x -> gid s' y = gid s y) /\
    (gid s' x = gid s x \/ (gid s x = Prepared /\ gid s' x = RolledBack)) /\
    match r with Ok _ => gid s' x <> Prepared | Err m => unknown_xid (db_error m) = true -> gid s' x <> Prepared end;
  data_law s c sql args : data_statement sql -> let s' := (sql_execute s c sql args).2 in
    (forall x, gid s' x = gid s x) /\ (session s c <> InTx -> session s' c <> InTx);
  recover_pg s c : let '(r, s') := sql_fetch s c "SELECT gid FROM pg_prepared_xacts" "gid" in
    (forall x, gid s' x = gid s x) /\ (forall d, held s' d <-> held s d) /\
    (forall d, d <> c -> session s' d = session s d) /\
    forall l, r = Ok l -> forall x, x ∈ l <-> gid s x = Prepared
}.

Section Spec.
Context {SX : Sqlx} `{JT : JsonText} {JU : JsonU64} {PG : PgServer}.

Local Abbreviation P := SqlxXaParticipant.

(** *** The branches of a participant *)

Definition pinned_conn (p : P) (x : string) (b : bool) (c : Conn) : Prop :=
  conns p !! x = Some {| guard := GuardPg c; prepared := b |}.

(** One branch: where it is [a], what the map holds for it and what the server knows. *)
Record sim_at (s : Server) (o : option Pinned) (x : string) (a : branch) : Prop := {
  at_guard pinned : o = Some pinned -> exists b c, pinned = {| guard := GuardPg c; prepared := b |} /\ held s c;
  at_prepared : gid s x = Prepared <-> a = Prepared;
  at_committed : gid s x = Committed <-> a = Committed;
  at_active : a = Active -> exists c, o = Some {| guard := GuardPg c; prepared := false |} /\ session s c = InTx;
  at_open b c : o = Some {| guard := GuardPg c; prepared := b |} -> session s c = InTx -> a = Active;
  at_lost c : o = Some {| guard := GuardPg c; prepared := false |} -> a = Prepared -> session s c = Gone;
  at_ended : a <> Ended
}.

(** All branches but [x]; no connection is pinned twice. *)
Record others (x : string) (p : P) (A : string -> branch) : Prop := {
  others_pg : dialect p = Postgres /\ pool p = PoolPg;
  others_at y : y <> x -> sim_at (server p) (conns p !! y) y (A y);
  others_held y b c : pinned_conn p y b c -> held (server p) c;
  others_distinct y z b b' c : pinned_conn p y b c -> pinned_conn p z b' c -> y = z
}.

Definition sim (p : P) (A : string -> branch) : Prop :=
  forall x, others x p A /\ sim_at (server p) (conns p !! x) x (A x).

(** *** The calls and what the contract allows them *)

Inductive call :=
| Start (x : string)
| End_ (x : string)
| Prepare (x : string)
| Commit (x : string)
| Rollback (x : string)
| Execute (x sql : string) (params : list Value).

Definition xid (c : call) : string :=
  match c with Start x | End_ x | Prepare x | Commit x | Rollback x => x | Execute x _ _ => x end.

Definition forget {T E} (r : result T E) : result unit E := rbind r (fun _ => Ok tt).

Definition perform (c : call) (p : P) : result unit XaError * P :=
  match c with
  | Start x => xa_start p x
  | End_ x => xa_end p x
  | Prepare x => xa_prepare p x
  | Commit x => xa_commit p x
  | Rollback x => xa_rollback p x
  | Execute x sql params => let '(r, p) := execute p x sql params in (forget r, p)
  end.

(** What the coordinator never does: reuse an identifier, commit before the prepare, or
    control the transaction with a statement. *)
Definition enabled (c : call) (A : string -> branch) : Prop :=
  match c with
  | Start x => A x = Absent
  | Commit x => A x <> Active
  | Execute _ sql _ => data_statement sql
  | _ => True
  end.

(** The laws of [XaContract] on the branch of the call and its answer. *)
Definition contract (c : call) (r : result unit XaError) (b b' : branch) : Prop :=
  match c with
  | Start _ => start_moves b b'
  | End_ _ => end_moves b b'
  | Prepare _ => prepare_moves b b' /\ (r = Ok tt -> b' = Prepared)
  | Commit _ => commit_moves b b' /\ (r = Ok tt -> b' <> Prepared)
  | Rollback _ => rollback_moves b b' /\ (r = Ok tt -> b' <> Prepared)
  | Execute _ _ _ => execute_moves b b'
  end.

(** What breaks them: a prepare that answers [Ok] of a branch that is pinned although the
    server has failed or ended its transaction. *)
Definition void_prepare (c : call) (p : P) (A : string -> branch) (r : result unit XaError) : Prop :=
  exists x b conn, c = Prepare x /\ r = Ok tt /\ A x <> Active /\ A x <> Prepared /\
    pinned_conn p x b conn /\ session (server p) conn <> InTx.

(** The moves, and the promises of success but for a prepare of a branch that is not
    active. *)
Definition allowed (c : call) (r : result unit XaError) (b b' : branch) : Prop :=
  match c with
  | Start _ => start_moves b b'
  | End_ _ => end_moves b b'
  | Prepare _ => prepare_moves b b' /\ (r = Ok tt -> b = Active -> b' = Prepared)
  | Commit _ => commit_moves b b' /\ (r = Ok tt -> b' <> Prepared)
  | Rollback _ => rollback_moves b b' /\ (r = Ok tt -> b' <> Prepared)
  | Execute _ _ _ => execute_moves b b'
  end.

Definition upd (x : string) (a : branch) (A : string -> branch) : string -> branch :=
  fun y => if decide (y = x) then a else A y.

(** *** Keeping the other branches *)

Lemma sim_at_server s s' o x a :
  sim_at s o x a -> gid s' x = gid s x ->
  (forall b c, o = Some {| guard := GuardPg c; prepared := b |} -> held s' c /\ session s' c = session s c) ->
  sim_at s' o x a.
Proof.
  intros [Hg Hp Hc Ha Ho Hl He] Hx Hs. split; [|by rewrite Hx|by rewrite Hx| | | |done].
  - intros pinned E. destruct (Hg _ E) as (b & c & -> & _). exists b, c. split; [done|]. by apply (Hs b).
  - intros E. destruct (Ha E) as (c & Eo & Ec). exists c. split; [done|]. by rewrite (proj2 (Hs _ _ Eo)).
  - intros b c Eo. rewrite (proj2 (Hs _ _ Eo)). exact (Ho _ _ Eo).
  - intros c Eo Ea. rewrite (proj2 (Hs _ _ Eo)). by apply Hl.
Qed.

Lemma others_server x p A s' :
  others x p A -> (forall y, y <> x -> gid s' y = gid (server p) y) ->
  (forall y b c, pinned_conn p y b c -> held s' c) ->
  (forall y b c, y <> x -> pinned_conn p y b c -> session s' c = session (server p) c) ->
  others x (set_server s' p) A.
Proof.
  intros [Hp Ha Hh Hd] Hx Hk Hs. split; [done| |exact Hk|exact Hd].
  intros y Hy. cbn. apply (sim_at_server (server p)); [by apply Ha|by apply Hx|]. intros b c E. split; [by eapply Hk|by eapply Hs].
Qed.

Lemma others_conns x p A m :
  others x p A -> (forall y, y <> x -> m !! y = conns p !! y) ->
  (forall b c, m !! x = Some {| guard := GuardPg c; prepared := b |} ->
     held (server p) c /\ forall y b', y <> x -> ~ pinned_conn p y b' c) ->
  others x (set_conns m p) A.
Proof.
  intros [Hp Ha Hh Hd] Hm Hx.
  assert (Hy : forall y b c, pinned_conn (set_conns m p) y b c -> (y = x /\ m !! x = Some {| guard := GuardPg c; prepared := b |}) \/ (y <> x /\ pinned_conn p y b c)).
  { intros y b c E. unfold pinned_conn in E. cbn in E. destruct (decide (y = x)) as [->|Hne]; [by left|]. right. by rewrite Hm in E. }
  split; [done| | |].
  - intros y Hne. cbn. rewrite Hm by done. by apply Ha.
  - intros y b c E. destruct (Hy _ _ _ E) as [[-> E']|[_ E']]; [by apply (Hx b)|by eapply Hh].
  - intros y z b b' c E1 E2. destruct (Hy _ _ _ E1) as [[-> E1']|[Hn1 E1']], (Hy _ _ _ E2) as [[-> E2']|[Hn2 E2']]; [done| | |by eapply Hd].
    + by destruct (proj2 (Hx _ _ E1') z b').
    + by destruct (proj2 (Hx _ _ E2') y b).
Qed.

Lemma others_upd x p A a : others x p A -> others x p (upd x a A).
Proof.
  intros [Hp Ha Hh Hd]. split; [done| |done|done]. intros y Hy. unfold upd. rewrite decide_False by done. by apply Ha.
Qed.

Lemma sim_close x p A a : others x p A -> sim_at (server p) (conns p !! x) x a -> sim p (upd x a A).
Proof.
  intros Ho Hx y. assert (Hat : forall y, sim_at (server p) (conns p !! y) y (upd x a A y)).
  { intros z. unfold upd. case_decide as E; [by subst|]. by apply (others_at _ _ _ Ho). }
  split; [|apply Hat]. destruct Ho as [Hp Ha Hh Hd]. split; auto.
Qed.

Lemma sim_server p A s' :
  sim p A -> (forall y, gid s' y = gid (server p) y) ->
  (forall y b c, pinned_conn p y b c -> held s' c /\ session s' c = session (server p) c) -> sim (set_server s' p) A.
Proof.
  intros Hs Hg Hc x. destruct (Hs x) as [Ho Hx]. split.
  - apply others_server; [done|auto|intros; by eapply Hc|intros; by eapply Hc].
  - cbn. apply (sim_at_server (server p)); [done|done|]. intros b c E. by apply (Hc x b).
Qed.

(** *** Connections *)

Definition unpinned (p : P) (c : Conn) : Prop := forall y b, ~ pinned_conn p y b c.

Lemma acquire_sim p A : sim p A ->
  sim (acquire p).2 A /\ conns (acquire p).2 = conns p /\
  forall g, (acquire p).1 = Ok g -> exists c, g = GuardPg c /\ unpinned (acquire p).2 c /\
    held (server (acquire p).2) c /\ session (server (acquire p).2) c = Idle.
Proof.
  intros Hs. unfold acquire. pose proof (acquire_law (server p)) as Hl. destruct (pool_acquire (server p)) as [r s'] eqn:E. cbn.
  destruct Hl as (Hg & Hse & Hr). assert (Hheld : forall y b c, pinned_conn p y b c -> held (server p) c) by (intros y b c; apply (Hs y)).
  split; [|split; [done|]].
  - apply sim_server; [done|done|]. intros y b c Hp. pose proof (Hheld _ _ _ Hp) as Hc. split; [|by apply Hse].
    destruct r as [d|]; [destruct Hr as (_ & _ & Hr); apply Hr; by right | by apply Hr].
  - intros g. destruct r as [c|]; [|done]. destruct Hr as (Hn & Hi & Hr). intros [= <-].
    exists c. destruct (Hs "") as [[[_ ->] _ _ _] _]. split; [done|]. split; [|split; [apply Hr; by left | done]].
    intros y b Hp. by apply Hn, (Hheld y b).
Qed.

Lemma drop_others x p A c :
  others x p A -> unpinned p c -> others x (drop (GuardPg c) p) A /\ forall y, gid (server (drop (GuardPg c) p)) y = gid (server p) y.
Proof.
  intros Ho Hu. destruct (give_back_law (server p) c) as [Hg Hd]. split; [|exact Hg].
  assert (Hk : forall y b d, pinned_conn p y b d -> held (give_back (server p) c) d /\ session (give_back (server p) c) d = session (server p) d).
  { intros y b d Hp. apply Hd; [intros ->; by destruct (Hu y b) | by eapply Ho]. }
  apply others_server; [done|auto| |]; intros; by eapply Hk.
Qed.

Lemma drop_sim p A c : sim p A -> unpinned p c -> sim (drop (GuardPg c) p) A.
Proof.
  intros Hs Hu. destruct (give_back_law (server p) c) as [Hg Hd]. apply sim_server; [done|done|].
  intros y b d Hp. apply Hd; [intros ->; by destruct (Hu y b) | by eapply (Hs y)].
Qed.

(** A statement on a connection that only [x] may have pinned. *)
Lemma exec_others x p A c sql args :
  others x p A -> (forall y b, y <> x -> ~ pinned_conn p y b c) ->
  (forall y, y <> x -> gid (sql_execute (server p) c sql args).2 y = gid (server p) y) ->
  others x (set_server (sql_execute (server p) c sql args).2 p) A.
Proof.
  intros Ho Hu Hg. destruct (session_law (server p) c sql args) as [Hh Hs]. apply others_server; [done|done| |].
  - intros y b d Hp. apply Hh. by eapply Ho.
  - intros y b d Hy Hp. apply Hs. intros ->. by apply (Hu y b).
Qed.

Lemma run_pg c sql p :
  run (GuardPg c) sql p =
    (map_err db_error (sql_execute (server p) c sql []).1, set_server (sql_execute (server p) c sql []).2 p).
Proof. unfold run, exec_guard. by destruct (sql_execute (server p) c sql []). Qed.

(** A branch that nothing is pinned for. *)
Lemma sim_at_none s x a :
  (gid s x = Prepared <-> a = Prepared) -> (gid s x = Committed <-> a = Committed) -> a <> Active -> a <> Ended -> sim_at s None x a.
Proof. intros. by split. Qed.

(** The last statement of a branch. *)
Lemma finish_sim x p A c sql a' :
  others x p A -> conns p !! x = None -> unpinned p c ->
  (forall y, y <> x -> gid (sql_execute (server p) c sql []).2 y = gid (server p) y) ->
  sim_at (sql_execute (server p) c sql []).2 None x a' ->
  sim (finish (GuardPg c) sql p).2 (upd x a' A) /\
  ((finish (GuardPg c) sql p).1 = Ok tt ->
   match (sql_execute (server p) c sql []).1 with Ok _ => True | Err m => unknown_xid (db_error m) = true end).
Proof.
  intros Ho Hn Hu Hg Ha. unfold finish. rewrite run_pg. cbn [fst snd]. split.
  - destruct (drop_others x (set_server (sql_execute (server p) c sql []).2 p) A c) as [Hd Hdg]; [by apply exec_others | exact Hu|].
    apply sim_close; [done|]. change (conns (drop _ _)) with (conns p). rewrite Hn. destruct Ha as [_ H1 H2 H3 _ _ H4].
    apply sim_at_none; [by rewrite Hdg|by rewrite Hdg| |done]. intros E. by destruct (H3 E) as (? & ? & _).
  - destruct (sql_execute (server p) c sql []) as [[r|m] s']; [done|]. cbn. by destruct (unknown_xid (db_error m)).
Qed.

(** *** The calls *)

Lemma take_sim x p A : sim p A ->
  match take x p with
  | (Err _, p1) => sim p1 A
  | (Ok (g, active), p1) => exists c, g = GuardPg c /\ others x p1 A /\ conns p1 !! x = None /\ unpinned p1 c /\
      (gid (server p1) x = Prepared <-> A x = Prepared) /\ (gid (server p1) x = Committed <-> A x = Committed) /\
      (active = true -> A x = Prepared -> session (server p1) c = Gone) /\ (active = false -> A x <> Active)
  end.
Proof.
  intros Hs. destruct (Hs x) as [Ho Hx]. unfold take. destruct (conns p !! x) as [pinned|] eqn:E.
  - destruct (at_guard _ _ _ _ Hx _ eq_refl) as (b & c & -> & Hc). exists c. cbn. split; [done|]. split; [|split; [|split; [|split; [|split; [|split]]]]].
    + apply others_conns; [done| |]; [intros y Hy; by rewrite lookup_delete_ne | intros b' c'; by rewrite lookup_delete_eq].
    + by rewrite lookup_delete_eq.
    + intros y b' Hp. unfold pinned_conn in Hp. cbn in Hp. apply lookup_delete_Some in Hp as [Hne Hp].
      apply Hne. eapply (others_distinct _ _ _ Ho); [exact E|exact Hp].
    + apply Hx.
    + apply Hx.
    + destruct b; [done|]. intros _. by apply Hx.
    + destruct b; [|done]. intros _ Ha. by destruct (at_active _ _ _ _ Hx Ha) as (? & ? & _).
  - destruct (acquire_sim p A Hs) as (Hs1 & Hc1 & Hg). destruct (acquire p) as [[g|e] p1]; cbn in *; [|done].
    destruct (Hg g eq_refl) as (c & -> & Hu & _ & _). destruct (Hs1 x) as [Ho1 Hx1]. exists c. rewrite Hc1.
    split_and!; [done|done|done|done|apply Hx1|apply Hx1|done|]. intros _ Ha. destruct (at_active _ _ _ _ Hx Ha) as (? & ? & _). congruence.
Qed.

(** Resolving a branch that is not open. *)
Lemma resolve_at s s' x a final :
  (gid s x = Prepared <-> a = Prepared) -> (gid s x = Committed <-> a = Committed) -> a <> Active -> a <> Ended ->
  final = Committed \/ final = RolledBack ->
  gid s' x = gid s x \/ (gid s x = Prepared /\ gid s' x = final) ->
  exists a', sim_at s' None x a' /\ (a' = a \/ (a = Prepared /\ a' = final)) /\ (gid s' x <> Prepared -> a' <> Prepared).
Proof.
  intros Hp Hc Ha He Hf [E|[E1 E2]].
  - exists a. split; [|split; [by left | rewrite E; tauto]]. by apply sim_at_none; rewrite ?E.
  - exists final. split; [|split; [right; tauto | by rewrite E2]].
    apply sim_at_none; rewrite ?E2; destruct Hf as [-> | ->]; done.
Qed.

(** What the theorem says of one call and its answer. *)
Definition simulated (c : call) (A : string -> branch) (r : result unit XaError) (p' : P) : Prop :=
  exists A', allowed c r (A (xid c)) (A' (xid c)) /\ (forall y, y <> xid c -> A' y = A y) /\ sim p' A'.

Lemma simulated_upd c A a r p' : allowed c r (A (xid c)) a -> sim p' (upd (xid c) a A) -> simulated c A r p'.
Proof.
  intros Ha Hs. exists (upd (xid c) a A). split; [unfold upd; by rewrite decide_True|]. split; [|done].
  intros y Hy. unfold upd. by rewrite decide_False.
Qed.

Lemma simulated_same c A r p' : allowed c r (A (xid c)) (A (xid c)) -> sim p' A -> simulated c A r p'.
Proof. intros Ha Hs. by exists A. Qed.

Lemma commit_simulated x p A : sim p A -> A x <> Active -> simulated (Commit x) A (xa_commit p x).1 (xa_commit p x).2.
Proof.
  intros Hs Ha. pose proof (take_sim x p A Hs) as Ht. destruct (Hs x) as [_ Hx]. pose proof (at_ended _ _ _ _ Hx) as He. clear Hx.
  unfold xa_commit. destruct (take x p) as [[[g active]|e] p1].
  - destruct Ht as (c & -> & Ho & Hn & Hu & Hp & Hc & _ & _). destruct (others_pg _ _ _ Ho) as [-> _].
    pose proof (commit_prepared (server p1) c x) as Hl. pose proof (finish_sim x p1 A c (quoted "COMMIT PREPARED" x)) as Hf.
    destruct (sql_execute (server p1) c (quoted "COMMIT PREPARED" x) []) as [r s'] eqn:E. cbn [fst snd] in Hf.
    destruct Hl as (Hg & Hm & Hr & _). destruct (resolve_at (server p1) s' x (A x) Committed) as (a' & Hat & Hmv & Hnp); try done; [by left|].
    destruct (Hf a') as [Hf1 Hf2]; try done. apply (simulated_upd (Commit x) A a'); [split; [exact Hmv|]|exact Hf1].
    intros Hok. apply Hnp. specialize (Hf2 Hok). destruct r; [done|by apply Hr].
  - apply simulated_same; [split; [by left|done]|done].
Qed.

(** The ROLLBACK of a transaction that is still open. *)
Lemma rollback_open_at s c x a :
  (gid s x = Prepared <-> a = Prepared) -> (gid s x = Committed <-> a = Committed) -> a <> Ended ->
  exists a', sim_at (sql_execute s c "ROLLBACK" []).2 None x a' /\ rollback_moves a a' /\ (a' = Prepared -> a = Prepared).
Proof.
  intros Hp Hc He. pose proof (rollback_law s c x) as Hl. destruct (decide (a = Active)) as [->|Ha].
  - exists RolledBack. split; [|split; [by right|done]]. apply sim_at_none; rewrite ?Hl; intuition congruence.
  - exists a. split; [|split; [by left|done]]. by apply sim_at_none; rewrite ?Hl.
Qed.

Lemma rollback_simulated x p A : sim p A -> simulated (Rollback x) A (xa_rollback p x).1 (xa_rollback p x).2.
Proof.
  intros Hs. pose proof (take_sim x p A Hs) as Ht. destruct (Hs x) as [_ Hx]. pose proof (at_ended _ _ _ _ Hx) as He. clear Hx.
  unfold xa_rollback. destruct (take x p) as [[[g active]|e] p1].
  2: { apply simulated_same; [split; [by left|done]|done]. }
  destruct Ht as (c & -> & Ho & Hn & Hu & Hp & Hc & Hlost & Hact). destruct (others_pg _ _ _ Ho) as [-> _]. destruct active.
  - pose proof (finish_sim x p1 A c "ROLLBACK") as Hf. destruct (rollback_open_at (server p1) c x (A x)) as (a' & Hat & Hmv & Hnp); try done.
    destruct (Hf a') as [Hf1 Hf2]; try done; [intros; apply rollback_law|]. apply (simulated_upd (Rollback x) A a'); [split; [exact Hmv|]|exact Hf1]. intros Hok ->. specialize (Hf2 Hok).
    destruct (gone_law (server p1) c "ROLLBACK" []) as (m & Em & Eu & _); [by apply Hlost, Hnp|]. rewrite Em in Hf2. congruence.
  - pose proof (rollback_prepared (server p1) c x) as Hl. pose proof (finish_sim x p1 A c (quoted "ROLLBACK PREPARED" x)) as Hf.
    destruct (sql_execute (server p1) c (quoted "ROLLBACK PREPARED" x) []) as [r s'] eqn:E. cbn [fst snd] in Hf.
    destruct Hl as (Hg & Hm & Hr). destruct (resolve_at (server p1) s' x (A x) RolledBack) as (a' & Hat & Hmv & Hnp); try done; [by apply Hact|by right|].
    destruct (Hf a') as [Hf1 Hf2]; try done. apply (simulated_upd (Rollback x) A a'); [|exact Hf1]. split.
    + cbn [xid]. destruct Hmv as [E0|[E1 E2]]; [by left|right]. rewrite E1. done.
    + intros Hok. apply Hnp. specialize (Hf2 Hok). destruct r; [done|by apply Hr].
Qed.

(** A branch moved by its pinned connection, which stays pinned. *)
Lemma pinned_exec x p A c b b' sql args a' :
  sim p A -> pinned_conn p x b c ->
  (forall y, y <> x -> gid (sql_execute (server p) c sql args).2 y = gid (server p) y) ->
  sim_at (sql_execute (server p) c sql args).2 (Some {| guard := GuardPg c; prepared := b' |}) x a' ->
  sim (set_conns (<[x := {| guard := GuardPg c; prepared := b' |}]> (conns p)) (set_server (sql_execute (server p) c sql args).2 p)) (upd x a' A).
Proof.
  intros Hs Hp Hg Ha. destruct (Hs x) as [Ho _].
  assert (Hu : forall y b0, y <> x -> ~ pinned_conn p y b0 c) by (intros y b0 Hy Hq; apply Hy; by eapply (others_distinct _ _ _ Ho)).
  apply sim_close; [|cbn; by rewrite lookup_insert_eq]. apply (others_conns x (set_server _ p)).
  - by apply exec_others.
  - intros y Hy. cbn. by rewrite lookup_insert_ne.
  - intros b0 c0. rewrite lookup_insert_eq. intros [= <- _]. split; [apply (session_law (server p)), (others_held _ _ _ Ho x b), Hp | exact Hu].
Qed.

Lemma pinned_exec_same x p A c b sql args a' :
  sim p A -> pinned_conn p x b c ->
  (forall y, y <> x -> gid (sql_execute (server p) c sql args).2 y = gid (server p) y) ->
  sim_at (sql_execute (server p) c sql args).2 (Some {| guard := GuardPg c; prepared := b |}) x a' ->
  sim (set_server (sql_execute (server p) c sql args).2 p) (upd x a' A).
Proof.
  intros Hs Hp Hg Ha. pose proof (pinned_exec x p A c b b sql args a' Hs Hp Hg Ha) as H1.
  by rewrite (insert_id (conns p) x _ Hp) in H1.
Qed.

(** A pinned branch that is not open, after a statement that opens nothing. *)
Lemma closed_at s s' c b b' x a :
  sim_at s (Some {| guard := GuardPg c; prepared := b |}) x a -> a <> Active -> held s' c -> gid s' x = gid s x ->
  session s' c <> InTx -> (b' = false -> a = Prepared -> session s' c = Gone) ->
  sim_at s' (Some {| guard := GuardPg c; prepared := b' |}) x a.
Proof.
  intros [_ Hp Hc _ _ _ He] Ha Hh Hg Hn Hl. split; [|by rewrite Hg|by rewrite Hg|done| | |done].
  - intros pinned [= <-]. by exists b', c.
  - intros b0 c0 [= <- <-]. done.
  - intros c0 [= <- Hb]. by apply Hl.
Qed.

(** An open branch: its pin, and what the server does not know of it. *)
Lemma open_at s c b x a :
  sim_at s (Some {| guard := GuardPg c; prepared := b |}) x a -> session s c = InTx ->
  a = Active /\ b = false /\ gid s x <> Prepared /\ gid s x <> Committed.
Proof.
  intros Hx Hi. pose proof (at_open _ _ _ _ Hx _ _ eq_refl Hi) as ->. split; [done|].
  destruct (at_active _ _ _ _ Hx eq_refl) as (c' & [= _ ->] & _). split; [done|]. split; intros E; apply Hx in E; done.
Qed.

Lemma closed_not_active s c b x a :
  sim_at s (Some {| guard := GuardPg c; prepared := b |}) x a -> session s c <> InTx -> a <> Active.
Proof. intros Hx Hi Ha. by destruct (at_active _ _ _ _ Hx Ha) as (c' & [= -> _] & E). Qed.

(** A pinned branch where the server says: not open any more. *)
Lemma ended_at s' c b x a :
  held s' c -> session s' c <> InTx -> (gid s' x = Prepared <-> a = Prepared) -> (gid s' x = Committed <-> a = Committed) ->
  a <> Active -> a <> Ended -> (b = false -> a = Prepared -> session s' c = Gone) ->
  sim_at s' (Some {| guard := GuardPg c; prepared := b |}) x a.
Proof.
  intros Hh Hi Hp Hc Ha He Hl. split; [|done..| | |done].
  - intros pinned [= <-]. by exists b, c.
  - by intros b0 c0 [= <- <-].
  - intros c0 [= <- Hb]. by apply Hl.
Qed.

Lemma prepare_simulated x p A : sim p A -> simulated (Prepare x) A (xa_prepare p x).1 (xa_prepare p x).2.
Proof.
  intros Hs. destruct (Hs x) as [Ho Hx]. unfold xa_prepare.
  destruct (conns p !! x) as [pinned|] eqn:E; [|by apply simulated_same; [split; [left|done]|]].
  destruct (at_guard _ _ _ _ Hx _ eq_refl) as (b & c & -> & Hc). destruct (others_pg _ _ _ Ho) as [-> _].
  cbn [guard]. rewrite run_pg.   pose proof (fun b' => pinned_exec x p A c b b' (quoted "PREPARE TRANSACTION" x) []) as Hpin. pose proof (pinned_exec_same x p A c b (quoted "PREPARE TRANSACTION" x) []) as Hsame.
  assert (Hh : held (sql_execute (server p) c (quoted "PREPARE TRANSACTION" x) []).2 c) by (by apply (session_law (server p))).
  pose proof (gone_law (server p) c (quoted "PREPARE TRANSACTION" x) []) as Hgone. pose proof (prepare_open (server p) c x) as Hop. pose proof (prepare_closed (server p) c x) as Hcl.
  destruct (sql_execute (server p) c (quoted "PREPARE TRANSACTION" x) []) as [r s']. cbn [fst snd] in *.
  pose proof (fun a => simulated_upd (Prepare x) A a) as Hup. cbn [xid] in Hup.
  destruct (decide (session (server p) c = InTx)) as [Hi|Hi].
  - destruct (open_at _ _ _ _ _ Hx Hi) as (Ha & -> & Hnp & Hnc). destruct (Hop Hi) as [Hg Hr]. rewrite Ha in *. destruct r as [n|m]; cbn [map_err].
    + destruct Hr as [H1 H2]. apply (Hup Prepared); [by split; [right; auto|]|]. apply Hpin; [done..|].
      apply ended_at; rewrite ?H1, ?H2; done.
    + destruct Hr as [[H1 H2] | [H1 H2]].
      * apply (Hup RolledBack); [by split; [right; auto|]|]. apply Hsame; [done..|]. apply ended_at; rewrite ?H1; done.
      * apply (Hup Prepared); [by split; [right; auto|]|]. apply Hsame; [done..|]. apply ended_at; rewrite ?H1, ?H2; done.
  - pose proof (closed_not_active _ _ _ _ _ Hx Hi) as Ha. destruct (Hcl Hi) as (Hg & Hn & _). destruct r as [n|m]; cbn [map_err]; apply (Hup (A x)).
    + by split; [left|].
    + apply Hpin; [done..| |]; [auto|]. by apply (closed_at (server p) s' c b).
    + by split; [left|].
    + apply Hsame; [done..| |]; [auto|]. apply (closed_at (server p) s' c b); try done. intros -> Hp.
      destruct Hgone as (_ & _ & _ & Hg' & _); [by apply Hx|done].
Qed.

Lemma start_simulated x p A : sim p A -> A x = Absent -> simulated (Start x) A (xa_start p x).1 (xa_start p x).2.
Proof.
  intros Hs Ha. unfold xa_start. case_decide as Hin; [by apply simulated_same; [left|]|]. apply not_elem_of_dom in Hin.
  destruct (acquire_sim p A Hs) as (Hs1 & Hc1 & Hg). destruct (acquire p) as [[g|e] p1]; cbn in *; [|by apply simulated_same; [left|]].
  destruct (Hg g eq_refl) as (c & -> & Hu & Hh & Hi). destruct (Hs1 x) as [Ho Hx]. destruct (others_pg _ _ _ Ho) as [Hpg _]. rewrite Hpg, run_pg.
  assert (Hnp : forall y b, y <> x -> ~ pinned_conn p1 y b c) by (intros y b _; apply Hu).
  pose proof (exec_others x p1 A c "BEGIN" [] Ho Hnp) as Hox. pose proof (begin_law (server p1) c Hi) as Hb.
  destruct (session_law (server p1) c "BEGIN" []) as [Hh' Hse]. destruct (sql_execute (server p1) c "BEGIN" []) as [[n|m] s']; cbn [map_err fst snd] in *.
  - destruct Hb as [Hb1 Hb2]. unfold pin. cbn [conns set_server]. rewrite Hc1, Hin. apply (simulated_upd (Start x) A Active); [by right|].
    apply sim_close; [apply (others_conns x (set_server s' p1)); [by apply Hox| |]|].
    + intros y Hy. cbn. by rewrite Hc1, lookup_insert_ne.
    + intros b c0. rewrite lookup_insert_eq. intros [= <- _]. split; [by apply Hh'|]. intros y b' _. apply Hu.
    + cbn. rewrite lookup_insert_eq. rewrite Hc1, Hin, Ha in Hx. split; try done.
      * intros pinned [= <-]. exists false, c. split; [done|by apply Hh'].
      * rewrite Hb1, (at_prepared _ _ _ _ Hx). split; done.
      * rewrite Hb1, (at_committed _ _ _ _ Hx). split; done.
      * intros _. exists c. split; [done|by apply Hb2].
  - destruct Hb as [Hb1 _]. apply simulated_same; [by left|].
    apply drop_sim; [|done]. apply sim_server; [done|done|]. intros y b d Hp. split; [apply Hh'; by eapply Ho|].
    apply Hse. intros ->. by apply (Hu y b).
Qed.

Lemma end_simulated x p A : sim p A -> simulated (End_ x) A (xa_end p x).1 (xa_end p x).2.
Proof.
  intros Hs. destruct (Hs x) as [Ho _]. unfold xa_end. destruct (conns p !! x); [|by apply simulated_same; [left|]].
  destruct (others_pg _ _ _ Ho) as [-> _]. by apply simulated_same; [left|].
Qed.

Lemma execute_simulated x sql params p A : sim p A -> data_statement sql ->
  simulated (Execute x sql params) A (perform (Execute x sql params) p).1 (perform (Execute x sql params) p).2.
Proof.
  intros Hs Hd. destruct (Hs x) as [Ho Hx]. unfold perform, execute.
  destruct (conns p !! x) as [pinned|] eqn:E; [|by apply simulated_same; [left|]].
  destruct (at_guard _ _ _ _ Hx _ eq_refl) as (b & c & -> & Hc). cbn [guard exec_params].
  destruct (bind_all bind_postgres params) as [args|e].
  2: { apply simulated_same; [by left|]. by destruct p. }
  destruct (data_law (server p) c sql args Hd) as [Hg Hn]. destruct (session_law (server p) c sql args) as [Hh _]. pose proof (gone_law (server p) c sql args) as Hgone.
  pose proof (pinned_exec_same x p A c b sql args) as Hsame. destruct (sql_execute (server p) c sql args) as [r s']. cbn [fst snd] in *.
  apply Hh in Hc. destruct (decide (session (server p) c = InTx)) as [Hi|Hi].
  - destruct (open_at _ _ _ _ _ Hx Hi) as (Ha & -> & Hnp & Hnc). destruct (decide (session s' c = InTx)) as [Hi'|Hi'].
    + apply (simulated_upd (Execute x sql params) A Active); [left; exact (eq_sym Ha)|]. apply Hsame; [done|done|auto|]. rewrite Ha in Hx.
      apply (sim_at_server (server p)); [done|done|]. intros b0 c0 [= <- <-]. split; [done|congruence].
    + apply (simulated_upd (Execute x sql params) A RolledBack); [right; exact (conj Ha eq_refl)|]. apply Hsame; [done|done|auto|].
      apply ended_at; rewrite ?Hg; done.
  - pose proof (closed_not_active _ _ _ _ _ Hx Hi) as Ha. apply (simulated_upd (Execute x sql params) A (A x)); [by left|].
    apply Hsame; [done|done|auto|]. apply (closed_at (server p) s' c b); try done; [auto|]. intros -> Hp.
    destruct Hgone as (_ & _ & _ & Hg' & _); [by apply Hx|done].
Qed.

(** *** The text of an error *)

Lemma prefix_lower a b : String.prefix a b = true -> String.prefix (to_ascii_lowercase a) (to_ascii_lowercase b) = true.
Proof.
  revert b. induction a as [|x a IH]; intros [|y b] E; try done. cbn in *. destruct (Ascii.ascii_dec x y) as [->|]; [|done].
  destruct (Ascii.ascii_dec (lower_ascii y) (lower_ascii y)); [by apply IH|done].
Qed.

Lemma contains_lower a b : contains a b = true -> contains (to_ascii_lowercase a) (to_ascii_lowercase b) = true.
Proof.
  induction b as [|y b IH]; intros E; cbn [contains] in *.
  - rewrite orb_false_r in E. apply prefix_lower in E. change (String.prefix (to_ascii_lowercase a) "" || false = true). by rewrite orb_false_r.
  - apply orb_true_iff in E as [E|E].
    + apply prefix_lower in E. change (contains (to_ascii_lowercase a) (to_ascii_lowercase (String y b)))
        with (String.prefix (to_ascii_lowercase a) (to_ascii_lowercase (String y b)) || contains (to_ascii_lowercase a) (to_ascii_lowercase b)).
      by rewrite E.
    + apply IH in E. cbn [to_ascii_lowercase contains]. by rewrite E, orb_true_r.
Qed.

Lemma contains_after a b m : contains a b = true -> contains a (m +:+ b) = true.
Proof. intros E. induction m as [|y m IH]; [done|]. change (contains a (String y (m +:+ b)) = true). cbn [contains]. by rewrite IH, orb_true_r. Qed.

Lemma lower_app a b : to_ascii_lowercase (a +:+ b) = to_ascii_lowercase a +:+ to_ascii_lowercase b.
Proof. induction a as [|x a IH]; [done|]. change (String (lower_ascii x) (to_ascii_lowercase (a +:+ b)) = String (lower_ascii x) (to_ascii_lowercase a +:+ to_ascii_lowercase b)). by rewrite IH. Qed.

Lemma does_not_exist m : contains "does not exist" m = true -> contains "does not exist" (to_ascii_lowercase ("XA database: " +:+ m)) = true.
Proof. intros E. rewrite lower_app. apply contains_after. by apply (contains_lower "does not exist"). Qed.

Lemma prepare_ok_pinned x p A :
  sim p A -> (xa_prepare p x).1 = Ok tt -> A x <> Active ->
  exists b conn, pinned_conn p x b conn /\ session (server p) conn <> InTx.
Proof.
  intros Hs Hok Ha. destruct (Hs x) as [_ Hx]. unfold xa_prepare in Hok.
  destruct (conns p !! x) as [pinned|] eqn:E; [|done]. destruct (at_guard _ _ _ _ Hx _ eq_refl) as (b & c & -> & _).
  exists b, c. split; [exact E|]. intros Hi. by destruct (open_at _ _ _ _ _ Hx Hi) as [? _].
Qed.

(** C32. Over PostgreSQL, every call the coordinator may make keeps the participant contract
    of the coordinator: the map of pinned connections, their sessions and the prepared
    transactions keep simulating the branches, no other branch is touched, and the branch of the
    call moves, with the call's answer, by the laws of [XaContract] - with one exception
    that is part of the statement: a prepare can answer [Ok] of a branch that is still
    pinned although the server has failed or ended its transaction; then nothing is
    prepared and no branch changes.  (That this happens, and that a commit then answers
    [Ok] too, is [failed_branch_reports_commit].) *)
Theorem pg_participant_simulates_the_contract p A c :
  sim p A -> enabled c A ->
  exists A', sim (perform c p).2 A' /\ (forall y, y <> xid c -> A' y = A y) /\
    (contract c (perform c p).1 (A (xid c)) (A' (xid c)) \/
     void_prepare c p A (perform c p).1 /\ A' (xid c) = A (xid c)).
Proof.
  intros Hs He.
  assert (Hsim : simulated c A (perform c p).1 (perform c p).2).
  { destruct c; [by apply start_simulated|by apply end_simulated|by apply prepare_simulated|
      by apply commit_simulated|by apply rollback_simulated|by apply execute_simulated]. }
  destruct Hsim as (A' & Hal & Hoth & Hs'). exists A'. split; [done|]. split; [done|].
  destruct c as [x|x|x|x|x|x sql params]; try by left. cbn [perform xid allowed contract] in *. destruct Hal as [Hm Hp].
  destruct (xa_prepare p x).1 as [[]|e] eqn:Hok; [|left; by split].
  destruct (decide (A x = Active)) as [Ha|Ha]; [left; split; auto|].
  assert (Hsame : A' x = A x \/ A x = Ended) by (destruct Hm as [->|[[?|?] _]]; auto).
  destruct Hsame as [Hsame|Hend]; [|exfalso; destruct (Hs x) as [_ Hx]; by apply (at_ended _ _ _ _ Hx)].
  destruct (decide (A x = Prepared)) as [Hpr|Hnp]; [left; split; [done|]; congruence|right].
  destruct (prepare_ok_pinned x p A Hs Hok Ha) as (b & conn & Hpin & Hin). split; [|done]. by exists x, b, conn.
Qed.

(** On PostgreSQL, what XA RECOVER is for MySQL lists exactly the prepared branches. *)
Theorem recover_lists_prepared_branches p A :
  sim p A -> sim (xa_recover p).2 A /\ forall l, (xa_recover p).1 = Ok l -> forall x, x ∈ l <-> A x = Prepared.
Proof.
  intros Hs. unfold xa_recover. destruct (acquire_sim p A Hs) as (Hs1 & Hc1 & Hg). destruct (acquire p) as [[g|e] p1]; cbn in *; [|done].
  destruct (Hg g eq_refl) as (c & -> & Hu & Hh & Hi). unfold fetch. cbn [conn_of].
  pose proof (recover_pg (server p1) c) as Hl. destruct (sql_fetch (server p1) c _ _) as [r s']. destruct Hl as (Hg1 & Hh1 & Hse & Hl). cbn. split.
  - apply drop_sim; [|done]. apply sim_server; [done|done|]. intros y b d Hp. split; [apply Hh1; by eapply (Hs1 y)|].
    apply Hse. intros ->. by apply (Hu y b).
  - intros l. destruct r as [l0|m]; [|done]. intros [= <-] x. rewrite list_fmap_id, (Hl l0 eq_refl). apply (Hs1 x).
Qed.

Lemma commit_unknown p x c b :
  pinned_conn p x b c -> dialect p = Postgres -> session (server p) c = Idle -> gid (server p) x = Absent ->
  (xa_commit p x).1 = Ok tt /\ gid (server (xa_commit p x).2) x = Absent.
Proof.
  intros Hp Hd Hi Hg. unfold xa_commit, take. rewrite Hp. cbn [guard dialect set_conns]. rewrite Hd. unfold finish. rewrite run_pg. cbn [server set_conns].
  pose proof (commit_prepared (server p) c x) as Hc. destruct (sql_execute (server p) c (quoted "COMMIT PREPARED" x) []) as [r s2].
  destruct Hc as (_ & Hm & _ & Hx). destruct (Hx Hi) as (m & -> & Hct); [by rewrite Hg|]. cbn [fst snd map_err]. split.
  - unfold unknown_xid, db_error. cbn [display]. cbv zeta. by rewrite (does_not_exist m Hct), orb_true_r.
  - destruct (give_back_law s2 c) as [Hgb _]. cbn. rewrite Hgb. destruct Hm as [-> | [E _]]; congruence.
Qed.

(** A transaction that a statement has failed on PostgreSQL reports a prepare, then a
    commit: each call answers [Ok], and nothing of it was committed. *)
Theorem failed_branch_reports_commit p A x c :
  sim p A -> pinned_conn p x false c -> session (server p) c = FailedTx -> gid (server p) x = Absent ->
  (xa_end p x).1 = Ok tt /\ (xa_prepare (xa_end p x).2 x).1 = Ok tt /\
  (xa_commit (xa_prepare (xa_end p x).2 x).2 x).1 = Ok tt /\
  gid (server (xa_commit (xa_prepare (xa_end p x).2 x).2 x).2) x = Absent.
Proof.
  intros Hs Hp Hf Hg. destruct (Hs x) as [Ho _]. destruct (others_pg _ _ _ Ho) as [Hd _].
  assert (He : xa_end p x = (Ok tt, p)) by (unfold xa_end; by rewrite Hp, Hd). rewrite He. cbn [fst snd]. split; [done|].
  pose proof (prepare_closed (server p) c x) as Hc. unfold xa_prepare. rewrite Hp, Hd. cbn [guard]. rewrite run_pg.
  destruct (sql_execute (server p) c (quoted "PREPARE TRANSACTION" x) []) as [[n|m] s'];
    destruct Hc as (Hg1 & _ & Hr); try congruence; destruct (Hr Hf) as [Hok Hi]; [|done].
  cbn [map_err fst snd]. split; [done|]. apply (commit_unknown _ x c true); [cbn; apply lookup_insert_eq|exact Hd|exact Hi|by rewrite <- Hg, <- Hg1].
Qed.

End Spec.
End XaSqlxSpec.

(** ** A server *)

Module XaSqlxDemo.
Import Xa XaSqlx XaSqlxSpec.

Inductive command := CBegin | CPrepare (x : string) | CRollback | CCommitPrepared (x : string) | CRollbackPrepared (x : string) | CData.

Fixpoint strip (pre s : string) : option string :=
  match pre, s with
  | EmptyString, _ => Some s
  | String a pre, String b s => if Ascii.eqb a b then strip pre s else None
  | _, _ => None
  end.

(** The text of a literal, from behind its first quote. *)
Fixpoint literal (s : string) : string :=
  match s with
  | String a s =>
      if Ascii.eqb a apostrophe then
        match s with String b s => String b (literal s) | EmptyString => EmptyString end
      else String a (literal s)
  | EmptyString => EmptyString
  end.

Definition parse (sql : string) : command :=
  if String.eqb sql "BEGIN" then CBegin
  else if String.eqb sql "ROLLBACK" then CRollback
  else match strip "PREPARE TRANSACTION '" sql, strip "COMMIT PREPARED '" sql, strip "ROLLBACK PREPARED '" sql with
       | Some t, _, _ => CPrepare (literal t)
       | _, Some t, _ => CCommitPrepared (literal t)
       | _, _, Some t => CRollbackPrepared (literal t)
       | _, _, _ => CData
       end.

Lemma literal_quote x : literal (quote_xid x +:+ "'") = x.
Proof.
  induction x as [|a x IH]; [done|]. cbn [quote_xid]. destruct (Ascii.eqb a apostrophe) eqn:E.
  - change (literal (String a (String a (quote_xid x) +:+ "'")) = String a x). cbn [literal]. rewrite E.
    change (String a (literal (quote_xid x +:+ "'")) = String a x). by rewrite IH.
  - change (literal (String a (quote_xid x +:+ "'")) = String a x). cbn [literal]. by rewrite E, IH.
Qed.

Lemma parse_prepare x : parse (quoted "PREPARE TRANSACTION" x) = CPrepare x.
Proof. change (CPrepare (literal (quote_xid x +:+ "'")) = CPrepare x). by rewrite literal_quote. Qed.
Lemma parse_commit x : parse (quoted "COMMIT PREPARED" x) = CCommitPrepared x.
Proof. change (CCommitPrepared (literal (quote_xid x +:+ "'")) = CCommitPrepared x). by rewrite literal_quote. Qed.
Lemma parse_rollback x : parse (quoted "ROLLBACK PREPARED" x) = CRollbackPrepared x.
Proof. change (CRollbackPrepared (literal (quote_xid x +:+ "'")) = CRollbackPrepared x). by rewrite literal_quote. Qed.

Record demo := { gids : gmap string branch; sessions : gmap nat session_state; out : gset nat }.

Definition state (s : demo) (c : nat) : session_state := default Idle (sessions s !! c).
Definition branch_at (s : demo) (x : string) : branch := default Absent (gids s !! x).
Definition put (c : nat) (t : session_state) (s : demo) : demo := {| gids := gids s; sessions := <[c := t]> (sessions s); out := out s |}.
Definition put_gid (x : string) (b : branch) (s : demo) : demo := {| gids := <[x := b]> (gids s); sessions := sessions s; out := out s |}.

Definition resolve (s : demo) (c : nat) (x : string) (b : branch) : result Z string * demo :=
  if decide (state s c = Idle) then
    if decide (branch_at s x = Prepared) then (Ok 0, put_gid x b s) else (Err "prepared transaction does not exist", s)
  else (Err "cannot run inside a transaction block", s).

Definition demo_execute (s : demo) (c : nat) (sql : string) (args : list Arg) : result Z string * demo :=
  if decide (state s c = Gone) then (Err "connection closed", s)
  else match parse sql with
  | CBegin => (Ok 0, if decide (state s c = Idle) then put c InTx s else s)
  | CPrepare x =>
      if decide (state s c = InTx) then
        if decide (branch_at s x = Prepared) then (Err "identifier is already in use", put c Idle s)
        else (Ok 0, put_gid x Prepared (put c Idle s))
      else (Ok 0, put c Idle s)
  | CRollback => (Ok 0, put c Idle s)
  | CCommitPrepared x => resolve s c x Committed
  | CRollbackPrepared x => resolve s c x RolledBack
  | CData => (Ok 1, s)
  end.

#[local] Instance demo_sqlx : Sqlx := {
  Server := demo;
  Conn := nat;
  pool_acquire s := let c := fresh (out s) in (Ok c, {| gids := gids s; sessions := <[c := Idle]> (sessions s); out := {[c]} ∪ out s |});
  sql_execute := demo_execute;
  sql_fetch s c sql column := (Ok (fst <$> filter (fun kv => kv.2 = Prepared) (map_to_list (gids s))), s);
  give_back s c := {| gids := gids s; sessions := sessions s; out := out s ∖ {[c]} |}
}.

Lemma state_put s c t d : state (put c t s) d = if decide (d = c) then t else state s d.
Proof. unfold state, put. cbn. case_decide as E; [subst; by rewrite lookup_insert_eq | by rewrite lookup_insert_ne]. Qed.

Lemma branch_put s x b y : branch_at (put_gid x b s) y = if decide (y = x) then b else branch_at s y.
Proof. unfold branch_at, put_gid. cbn. case_decide as E; [subst; by rewrite lookup_insert_eq | by rewrite lookup_insert_ne]. Qed.

Lemma resolve_law s c x b : b = Committed \/ b = RolledBack ->
  (forall y, y <> x -> branch_at (resolve s c x b).2 y = branch_at s y) /\
  (branch_at (resolve s c x b).2 x = branch_at s x \/ (branch_at s x = Prepared /\ branch_at (resolve s c x b).2 x = b)) /\
  match (resolve s c x b).1 with
  | Ok _ => branch_at (resolve s c x b).2 x <> Prepared
  | Err m => unknown_xid (db_error m) = true -> branch_at (resolve s c x b).2 x <> Prepared
  end.
Proof.
  intros Hb. unfold resolve. case_decide; [case_decide|]; cbn [fst snd].
  - split; [intros y Hy; by rewrite branch_put, decide_False|]. rewrite branch_put, decide_True by done. split; [by right|].
    destruct Hb as [-> | ->]; done.
  - split; [done|]. split; [by left|done].
  - split; [done|]. split; [by left|]. by vm_compute.
Qed.

Lemma resolve_sessions s c x b : sessions (resolve s c x b).2 = sessions s /\ out (resolve s c x b).2 = out s.
Proof. unfold resolve. by repeat case_decide. Qed.

Lemma execute_sessions s c sql args d :
  (d ∈ out (demo_execute s c sql args).2 <-> d ∈ out s) /\ (d <> c -> state (demo_execute s c sql args).2 d = state s d).
Proof.
  unfold demo_execute. case_decide; [done|]. destruct (parse sql).
  - case_decide; [|done]. split; [done|]. intros Hd. cbn [snd]. by rewrite state_put, decide_False.
  - case_decide; [case_decide|]; (split; [done|]); intros Hd; cbn [snd]; [|change (state (put c Idle s) d = state s d)|]; by rewrite state_put, decide_False.
  - split; [done|]. intros Hd. cbn [snd]. by rewrite state_put, decide_False.
  - destruct (resolve_sessions s c x Committed) as [E1 E2]. split; [by rewrite E2|]. intros _. unfold state. by rewrite E1.
  - destruct (resolve_sessions s c x RolledBack) as [E1 E2]. split; [by rewrite E2|]. intros _. unfold state. by rewrite E1.
  - done.
Qed.

#[local] Instance demo_pg : PgServer.
Proof.
  refine {| gid := branch_at; session := state; held s c := c ∈ out s; data_statement sql := parse sql = CData |}.
  - intros s. cbn. split; [done|]. pose proof (is_fresh (out s)) as Hf. split.
    + intros d Hd. unfold state. cbn. rewrite lookup_insert_ne; [done|]. congruence.
    + split; [done|]. split; [unfold state; cbn; by rewrite lookup_insert_eq|]. intros d. set_solver.
  - intros s c. split; [done|]. intros d Hd Hh. cbn. set_solver.
  - intros s c sql args. cbn. split; intros d; by apply execute_sessions.
  - intros s c sql args E. exists "connection closed". cbn. unfold demo_execute. rewrite decide_True by done. done.
  - intros s c E. cbn. unfold demo_execute. rewrite decide_False by (by rewrite E). cbn. rewrite decide_True by done.
    split; [done|]. intros _. by rewrite state_put, decide_True.
  - intros s c x E. cbn. unfold demo_execute. rewrite decide_False by (by rewrite E). rewrite parse_prepare, decide_True by done.
    case_decide as Ep.
    + split; [done|]. left. split; [done|]. by rewrite state_put, decide_True.
    + split; [intros y Hy; by rewrite branch_put, decide_False|]. rewrite branch_put, decide_True by done. split; [done|].
      change (state (put c Idle s) c = Idle). by rewrite state_put, decide_True.
  - intros s c x E. cbn. unfold demo_execute. case_decide as Eg; [split; [done|]; split; [done|]; rewrite Eg; done|].
    rewrite parse_prepare, decide_False by done. split; [done|]. by rewrite state_put, decide_True.
  - intros s c x. cbn. unfold demo_execute. by case_decide.
  - intros s c x. cbn. unfold demo_execute. case_decide as Eg; [|rewrite parse_commit].
    + split; [done|]. split; [by left|]. split; [by vm_compute|]. rewrite Eg. done.
    + pose proof (resolve_law s c x Committed (or_introl eq_refl)) as Hl. unfold resolve in *. destruct (decide (state s c = Idle)); [|by split_and!; try apply Hl].
      destruct (decide (branch_at s x = Prepared)); split_and!; try apply Hl; [done|]. intros _ _. by eexists.
  - intros s c x. cbn. unfold demo_execute. case_decide as Eg; [|rewrite parse_rollback].
    + split; [done|]. split; [by left|]. by vm_compute.
    + pose proof (resolve_law s c x RolledBack (or_intror eq_refl)) as Hl. by destruct (resolve s c x RolledBack).
  - intros s c sql args E. cbn. unfold demo_execute. case_decide; [done|]. by rewrite E.
  - intros s c. cbn. split; [done|]. split; [done|]. split; [done|]. intros l [= <-] x. rewrite list_elem_of_fmap. split.
    + intros ((y & b) & -> & Hin). apply list_elem_of_filter in Hin as [Eb Hin]. cbn in Eb. subst b. apply elem_of_map_to_list in Hin. unfold branch_at. cbn. by rewrite Hin.
    + intros E. unfold branch_at in E. destruct (gids s !! x) as [b|] eqn:Eb; cbn in E; [subst|done].
      exists (x, Prepared). split; [done|]. apply list_elem_of_filter. split; [done|]. by apply elem_of_map_to_list.
Defined.

(** *** Instances of the theorems *)

#[local] Instance demo_json : JsonNumber :=
  {| Number := Z; number_as_i64 n := Some n; number_is_u64 n := bool_decide (0 <= n); number_as_f64 n := None; number_text := dec_text |}.
#[local] Instance demo_text : JsonText := {| value_text _ := "null" |}.
#[local] Instance demo_u64 : JsonU64 := {| number_as_u64 n := Some n |}.

Definition start_of (s : demo) (m : gmap string Pinned) : SqlxXaParticipant :=
  {| dialect := Postgres; pool := PoolPg; conns := m; server := s |}.

Definition empty_server : demo := {| gids := ∅; sessions := ∅; out := ∅ |}.

Lemma sim_empty : sim (start_of empty_server ∅) (fun _ => Absent).
Proof.
  intros x. assert (Hat : forall y, sim_at empty_server None y Absent) by (intros y; by apply sim_at_none).
  split; [|apply Hat]. by split.
Qed.

(** A branch from its start to its commit: each call keeps the contract, and the answers
    and what the server committed are as they should be. *)
Definition run_calls (l : list call) : list (result unit XaError) * SqlxXaParticipant :=
  foldl (fun acc c => let '(r, p) := perform c acc.2 in (acc.1 ++ [r], p)) ([], start_of empty_server ∅) l.

Definition demo_insert : call := Execute "t" "INSERT INTO orders VALUES (1)" [].
Definition p1 := (run_calls [Start "t"]).2.
Definition p2 := (run_calls [Start "t"; demo_insert]).2.
Definition p3 := (run_calls [Start "t"; demo_insert; Prepare "t"]).2.
Definition p4 := (run_calls [Start "t"; demo_insert; Prepare "t"; Commit "t"]).2.

(** The branch of an open pinned connection, of a prepared transaction, of a committed one. *)
Lemma shown_active p A : sim p A ->
  (exists b c, conns p !! "t" = Some {| guard := GuardPg c; prepared := b |} /\ session (server p) c = InTx) -> A "t" = Active.
Proof. intros Hs (b & c & Hp & Hi). destruct (Hs "t") as [_ Hx]. by apply (at_open _ _ _ _ Hx b c). Qed.

Lemma shown_known p A b : sim p A -> gid (server p) "t" = b -> b = Prepared \/ b = Committed -> A "t" = b.
Proof. intros Hs <- Hb. destruct (Hs "t") as [_ Hx]. destruct Hb as [E|E]; rewrite E; by apply Hx. Qed.

Lemma pg_participant_simulates_the_contract_witness :
  (run_calls [Start "t"; demo_insert; Prepare "t"; Commit "t"]).1 = [Ok tt; Ok tt; Ok tt; Ok tt] /\
  exists A1 A2 A3 A4,
    (sim p1 A1 /\ A1 "t" = Active /\ contract (Start "t") (Ok tt) Absent (A1 "t")) /\
    (sim p2 A2 /\ A2 "t" = Active /\ contract demo_insert (Ok tt) (A1 "t") (A2 "t")) /\
    (sim p3 A3 /\ A3 "t" = Prepared /\ contract (Prepare "t") (Ok tt) (A2 "t") (A3 "t")) /\
    (sim p4 A4 /\ A4 "t" = Committed /\ contract (Commit "t") (Ok tt) (A3 "t") (A4 "t")).
Proof.
  split; [vm_compute; reflexivity|].
  destruct (pg_participant_simulates_the_contract (start_of empty_server ∅) (fun _ => Absent) (Start "t") sim_empty eq_refl)
    as (A1 & S1 & _ & [C1|[(x & b & conn & E & _) _]]); [|discriminate E].
  assert (H1 : A1 "t" = Active) by (apply (shown_active p1 A1 S1); eexists _, _; split; reflexivity).
  destruct (pg_participant_simulates_the_contract p1 A1 demo_insert S1 eq_refl) as (A2 & S2 & _ & [C2|[(x & b & conn & E & _) _]]); [|discriminate E].
  assert (H2 : A2 "t" = Active) by (apply (shown_active p2 A2 S2); eexists _, _; split; reflexivity).
  destruct (pg_participant_simulates_the_contract p2 A2 (Prepare "t") S2 I) as (A3 & S3 & _ & C3).
  assert (H3 : A3 "t" = Prepared) by (apply (shown_known p3 A3 _ S3); [reflexivity|by left]).
  destruct C3 as [C3|[(x & b & conn & [= <-] & _ & Hn & _) _]]; [|by destruct (Hn H2)].
  assert (Hen : enabled (Commit "t") A3) by (cbn [enabled]; rewrite H3; discriminate).
  destruct (pg_participant_simulates_the_contract p3 A3 (Commit "t") S3 Hen) as (A4 & S4 & _ & [C4|[(x & b & conn & E & _) _]]); [|discriminate E].
  assert (H4 : A4 "t" = Committed) by (apply (shown_known p4 A4 _ S4); [reflexivity|by right]).
  exists A1, A2, A3, A4. split; [split; [exact S1|split; [exact H1|exact C1]]|]. split; [split; [exact S2|split; [exact H2|exact C2]]|].
  split; [split; [exact S3|split; [exact H3|exact C3]]|]. split; [exact S4|split; [exact H4|exact C4]].
Defined.

(** A transaction after a statement that failed. *)
Definition failed_server : demo := {| gids := ∅; sessions := {[ 0%nat := FailedTx ]}; out := {[ 0%nat ]} |}.
Definition failed_pins : gmap string Pinned := {[ "t" := {| guard := GuardPg 0%nat; prepared := false |} ]}.

Lemma sim_failed : sim (start_of failed_server failed_pins) (fun _ => Absent).
Proof.
  assert (Hp : forall y b c, pinned_conn (start_of failed_server failed_pins) y b c -> y = "t" /\ c = 0%nat).
  { intros y b c E. unfold pinned_conn, failed_pins in E. cbn in E. by apply lookup_singleton_Some in E as [-> [= -> _]]. }
  assert (Hat : forall y, sim_at failed_server (failed_pins !! y) y Absent).
  { intros y. split; try done.
    - intros pinned E. unfold failed_pins in E. apply lookup_singleton_Some in E as [_ <-]. exists false, 0%nat. split; [done|]. cbn. set_solver.
    - intros b c E. unfold failed_pins in E. apply lookup_singleton_Some in E as [_ [= <- _]]. done. }
  intros x. split; [|apply Hat]. split; [done|auto| |].
  - intros y b c E. apply Hp in E as [_ ->]. cbn. set_solver.
  - intros y z b b' c E1 E2. apply Hp in E1 as [-> _], E2 as [-> _]. done.
Qed.

Lemma recover_lists_prepared_branches_witness :
  sim (xa_recover (start_of failed_server failed_pins)).2 (fun _ => Absent) /\
  forall l, (xa_recover (start_of failed_server failed_pins)).1 = Ok l -> forall x, x ∈ l <-> Absent = Prepared.
Proof. exact (recover_lists_prepared_branches (start_of failed_server failed_pins) (fun _ => Absent) sim_failed). Defined.

Lemma failed_branch_reports_commit_witness :
  let p := start_of failed_server failed_pins in
  (xa_end p "t").1 = Ok tt /\ (xa_prepare (xa_end p "t").2 "t").1 = Ok tt /\
  (xa_commit (xa_prepare (xa_end p "t").2 "t").2 "t").1 = Ok tt /\
  gid (server (xa_commit (xa_prepare (xa_end p "t").2 "t").2 "t").2) "t" = Absent.
Proof.
  exact (failed_branch_reports_commit (start_of failed_server failed_pins) (fun _ => Absent) "t" 0%nat sim_failed eq_refl eq_refl eq_refl).
Defined.

End XaSqlxDemo.
