(* ===== verification/Workflow.v ===== *)
(** * Calls that leave the process: errors, time limits, the shell of workflow calls

    [src/ecat-errors/src] and [src/ecat-data/src/timeout.rs] ([Module Errors], [Module Timeout]):
    the error type of the clients that are not relational, its HTTP status, and the time limit
    that counts what it cuts by family.  [src/ecat-workflow/src/{spec,error,http,lib}.rs]
    ([Module Workflow]): the types the four engines share, the request builder, and
    [WorkflowHttp::guarded], which puts a call behind a permit, then the breaker, then a time
    limit.  [Workflow.Shell.step] interleaves the calls of one client.

    A future is a program of [Crash]: its effects are the moments where it waits, and
    dropping it stops it before one of them.  How many of its effects fit into a time limit
    is an argument, so every theorem holds for any timing.  The engine behind the network is
    the class [Engine]; an answer is received in a step of its own, so that a call can be
    dropped after the engine has acted and before it is heard. *)

From Stdlib Require Import Ascii.
From S2P Require Import Prelude Json Text Rdbms CircuitBreaker Crash.

Local Open Scope Z_scope.
Local Open Scope ecat_scope.

Module Errors.

Inductive ErrorCode :=
| COk | Unknown | InvalidArgument | NotFound | AlreadyExists | PermissionDenied
| Unauthenticated | ResourceExhausted | Internal | Unavailable | DeadlineExceeded.

Record Error := { code : ErrorCode; reason : string; message : string; metadata : gmap string string }.

Definition new (c : ErrorCode) (r m : string) : Error :=
  {| code := c; reason := r; message := m; metadata := ∅ |}.

Definition with_metadata (e : Error) (k v : string) : Error :=
  {| code := code e; reason := reason e; message := message e; metadata := <[k := v]> (metadata e) |}.

Definition http_status (c : ErrorCode) : Z :=
  match c with
  | COk => 200
  | InvalidArgument => 400
  | NotFound => 404
  | AlreadyExists => 409
  | PermissionDenied => 403
  | Unauthenticated => 401
  | ResourceExhausted => 429
  | Internal | Unknown => 500
  | Unavailable => 503
  | DeadlineExceeded => 504
  end.

Definition to_http_status (e : Error) : Z := http_status (code e).

(** [tonic::Code]. *)
Inductive Code :=
| GOk | GCancelled | GUnknown | GInvalidArgument | GDeadlineExceeded | GNotFound | GAlreadyExists
| GPermissionDenied | GResourceExhausted | GFailedPrecondition | GAborted | GOutOfRange
| GUnimplemented | GInternal | GUnavailable | GDataLoss | GUnauthenticated.

Definition code_of (c : Code) : ErrorCode :=
  match c with
  | GOk => COk
  | GNotFound => NotFound
  | GInvalidArgument => InvalidArgument
  | GPermissionDenied => PermissionDenied
  | GUnauthenticated => Unauthenticated
  | GResourceExhausted => ResourceExhausted
  | GAlreadyExists => AlreadyExists
  | GUnavailable => Unavailable
  | GDeadlineExceeded => DeadlineExceeded
  | GUnknown => Unknown
  | _ => Internal
  end.

Definition from_status (c : Code) (msg : string) : Error := new (code_of c) "grpc_error" msg.

(** [Display for BreakerError] of a call that was not let through. *)
Definition refusal_text (e : Breaker.BreakerError Empty_set) : string :=
  match e with
  | Breaker.BreakerOpen => "circuit breaker is open"
  | Breaker.ProbesExhausted => "circuit breaker: too many probes"
  | Breaker.InnerError e => match e with end
  end.

Definition breaker_error_to_backend_error (e : Breaker.BreakerError Error) (reason : string) : Error :=
  match e with
  | Breaker.InnerError inner => inner
  | Breaker.BreakerOpen => new Unavailable reason (refusal_text Breaker.BreakerOpen)
  | Breaker.ProbesExhausted => new Unavailable reason (refusal_text Breaker.ProbesExhausted)
  end.

End Errors.

(** *** Dropping a future *)
Module Drop.

(** A future that was polled to its end, one that a timer dropped, and one that its caller
    dropped. *)
Inductive ended (E A : Type) := Finished (r : result A E) | Cut | Dropped.
Arguments Finished {E A} r.
Arguments Cut {E A}.
Arguments Dropped {E A}.

Definition opt_min (a b : option nat) : option nat :=
  match a, b with
  | None, x | x, None => x
  | Some a, Some b => Some (min a b)
  end.

(** [before] less what was used of [budget]. *)
Definition spend (before budget after : option nat) : option nat :=
  match before, budget, after with
  | Some n, Some m, Some k => Some (n - (m - k))%nat
  | Some n, _, _ => Some n
  | None, _, _ => None
  end.

(** [fut] on [w], of whose effects [fits] end before the timer; its caller is dropped after
    [left] effects.  A future that needs no effect ends, whatever the timer. *)
Definition run_for {W E A} (fits : option nat) (fut : M W E A) (w : W) (left : option nat) :
    ended E A * W * option nat :=
  let budget := opt_min fits left in
  match fut {| the_world := w; left_ := budget |} with
  | (Ret r, q) => (Finished r, the_world q, spend left budget (left_ q))
  | (Died, q) =>
      let caller_first := match left, fits with
                          | Some l, Some f => (l <? f)%nat
                          | Some _, None => true
                          | None, _ => false
                          end in
      (if caller_first then Dropped else Cut, the_world q, spend left budget (left_ q))
  end.

End Drop.

Module Timeout.
Import Errors Drop.

Inductive BackendKind := KRdbms | KCache | KSearch | KGraph | KDocument | KStorage | KTsdb.

#[export] Instance BackendKind_eq_dec : EqDecision BackendKind.
Proof. solve_decision. Defined.

(** [kind as usize]. *)
Definition discriminant (k : BackendKind) : nat :=
  match k with
  | KRdbms => 0 | KCache => 1 | KSearch => 2 | KGraph => 3 | KDocument => 4 | KStorage => 5 | KTsdb => 6
  end.

Definition slug (k : BackendKind) : string :=
  match k with
  | KRdbms => "rdbms" | KCache => "cache" | KSearch => "search" | KGraph => "graph"
  | KDocument => "document" | KStorage => "storage" | KTsdb => "tsdb"
  end.

(** The slot of [TIMEOUTS]. *)
Definition timeout_counter (k : BackendKind) : nat :=
  match k with
  | KRdbms => 0 | KCache => 1 | KSearch => 2 | KGraph => 3 | KDocument => 4 | KStorage => 5 | KTsdb => 6
  end.

(** [Debug for Duration]: the digits after the point, without the zeros at the end. *)
Fixpoint fraction (n : nat) (part divisor : Z) : string :=
  match n with
  | O => ""
  | S n => if part =? 0 then "" else dec_text (part / divisor) +:+ fraction n (part mod divisor) (divisor / 10)
  end.

Definition decimal (int part : Z) (digits : nat) (divisor : Z) : string :=
  dec_text int +:+ (if part =? 0 then "" else "." +:+ fraction digits part divisor).

Definition micro_sign : string := of_bytes [194; 181].

Definition duration_text (d : Z) : string :=
  if 1000000000 <=? d then decimal (d / 1000000000) (d mod 1000000000) 9 100000000 +:+ "s"
  else if 1000000 <=? d then decimal (d / 1000000) (d mod 1000000) 6 100000 +:+ "ms"
  else if 1000 <=? d then decimal (d / 1000) (d mod 1000) 3 100 +:+ micro_sign +:+ "s"
  else dec_text d +:+ "ns".

Class TimeoutError (E : Type) := { from_timeout : BackendKind -> Z -> E }.

#[export] Instance rdbms_timeout : TimeoutError Rdbms.RdbmsError := {|
  from_timeout _ d := Rdbms.Timeout_ ("query exceeded " +:+ duration_text d);
|}.

#[export] Instance error_timeout : TimeoutError Error := {|
  from_timeout k d := new DeadlineExceeded (slug k) ("call exceeded " +:+ duration_text d);
|}.

(** The counters of the process and what lies outside it. *)
Record World (W : Type) := { TIMEOUTS : list Z; outside : W }.
Arguments TIMEOUTS {W} _.
Arguments outside {W} _.
Arguments Build_World {W} _ _.

Definition count (k : BackendKind) (l : list Z) : list Z := alter (fun n => u64_add n 1) (timeout_counter k) l.

Section Run.
Context {W E : Type} `{TE : TimeoutError E}.
Context (fits : Z -> W -> option nat).

Definition run_with_timeout {A} (kind : BackendKind) (timeout : option Z) (fut : M W E A) : M (World W) E A :=
  fun p =>
    let w := the_world p in
    let limit := match timeout with Some d => fits d (outside w) | None => None end in
    match run_for limit fut (outside w) (left_ p) with
    | (Finished r, o, l) => (Ret r, {| the_world := {| TIMEOUTS := TIMEOUTS w; outside := o |}; left_ := l |})
    | (Dropped, o, l) => (Died, {| the_world := {| TIMEOUTS := TIMEOUTS w; outside := o |}; left_ := l |})
    | (Cut, o, l) =>
        match timeout with
        | Some d => (Ret (Err (from_timeout kind d)),
                     {| the_world := {| TIMEOUTS := count kind (TIMEOUTS w); outside := o |}; left_ := l |})
        | None => (Died, {| the_world := {| TIMEOUTS := TIMEOUTS w; outside := o |}; left_ := l |})
        end
    end.

End Run.
End Timeout.

Module Workflow.

Inductive WorkflowError :=
| Config (m : string)
| Transport (m : string)
| Http (status : Z) (body : string)
| Parse (m : string)
| Remote (m : string)
| Unsupported (m : string)
| Timeout (m : string)
| Unavailable (m : string).

(** [Display for WorkflowError]. *)
Definition error_text (e : WorkflowError) : string :=
  match e with
  | Config m => "config: " +:+ m
  | Transport m => "transport: " +:+ m
  | Http status body => "http " +:+ dec_text status +:+ ": " +:+ body
  | Parse m => "parse: " +:+ m
  | Remote m => "remote: " +:+ m
  | Unsupported m => "unsupported: " +:+ m
  | Timeout m => "timeout: " +:+ m
  | Unavailable m => "unavailable: " +:+ m
  end.

Definition WorkflowId : Type := string.
Definition RunId : Type := string.

Inductive RunState := Queued | Running | Succeeded | Failed | Cancelled | UnknownState.

#[export] Instance RunState_eq_dec : EqDecision RunState.
Proof. solve_decision. Defined.

Section Types.
Context `{JN : JsonNumber}.

Record WorkflowSpec := { name : string; definition : Value; params : Value; schedule : option string }.

Record RunStatus := {
  run_id : RunId;
  workflow_id : WorkflowId;
  state : RunState;
  started_at : option string;
  finished_at : option string;
  message : option string;
  raw : Value;
}.

Record RunFilter := { f_workflow_id : option WorkflowId; f_state : option RunState; f_limit : option Z }.

Record WorkflowCapabilities := { can_create : bool; can_trigger : bool; can_cancel : bool; can_list_runs : bool }.

(** *** Requests *)

Inductive Method := GET | POST | PUT | PATCH.

Inductive Auth := NoAuth | Bearer (token : string) | Basic (user password : string).

Inductive Part := Text (name value : string) | File (name file_name mime : string) (bytes : list Z).

Inductive Body :=
| NoBody
| JsonBody (v : Value)
| Form (fields : list (string * string))
| Multipart (parts : list Part)
| Raw (text : string).

Record Request := {
  method : Method;
  url : string;
  query : list (string * string);
  auth : Auth;
  headers : list (string * string);
  body : Body;
}.

Definition with_query (l : list (string * string)) (r : Request) : Request :=
  {| method := method r; url := url r; query := query r ++ l; auth := auth r; headers := headers r; body := body r |}.
Definition with_header (k v : string) (r : Request) : Request :=
  {| method := method r; url := url r; query := query r; auth := auth r; headers := headers r ++ [(k, v)]; body := body r |}.
Definition with_body (b : Body) (r : Request) : Request :=
  {| method := method r; url := url r; query := query r; auth := auth r; headers := headers r; body := b |}.

(** What a response is read for: its status, its [Set-Cookie] headers, its text. *)
Record Response := { status : Z; set_cookies : list string; text : result string string }.

(** *** The shell *)

Record WorkflowHttpConfig := {
  cfg_base_url : string;
  cfg_username : option string;
  cfg_password : option string;
  cfg_bearer_token : option string;
  cfg_headers : list (string * string);
  query_timeout_secs : option Z;
  cfg_breaker : option Breaker.BreakerConfig;
  max_concurrency : option Z;
}.

Definition DEFAULT_TIMEOUT_SECS : Z := 30.
Definition DEFAULT_MAX_CONCURRENCY : Z := 32.

Definition query_timeout (secs : option Z) : option Z :=
  match secs with
  | None => Some (CircuitBreaker.secs DEFAULT_TIMEOUT_SECS)
  | Some s => if s =? 0 then None else Some (CircuitBreaker.secs s)
  end.

(** The permits of the semaphore, [None] without one. *)
Definition concurrency_limit (max : option Z) : option Z :=
  match max with
  | Some n => if n =? 0 then None else Some n
  | None => Some DEFAULT_MAX_CONCURRENCY
  end.

Record WorkflowHttp := {
  base_url : string;
  username : option string;
  password : option string;
  bearer_token : option string;
  http_headers : list (string * string);
  timeout : option Z;
  breaker : Breaker.BreakerConfig;
  semaphore : option Z;
}.

(** [str::trim_end_matches(c)] and [str::trim_start_matches(c)]. *)
Fixpoint trim_end_matches (c : Ascii.ascii) (s : string) : string :=
  match s with
  | EmptyString => EmptyString
  | String a s =>
      match trim_end_matches c s with
      | EmptyString => if Ascii.eqb a c then EmptyString else String a EmptyString
      | t => String a t
      end
  end.

Fixpoint trim_start_matches (c : Ascii.ascii) (s : string) : string :=
  match s with
  | EmptyString => EmptyString
  | String a t => if Ascii.eqb a c then trim_start_matches c t else s
  end.

(** [WorkflowHttp::new]; building the TLS client may fail. *)
Definition new (tls : result unit string) (cfg : WorkflowHttpConfig) : result WorkflowHttp WorkflowError :=
  let? _ := map_err (fun e => Config ("TLS: " +:+ e)) tls in
  Ok {| base_url := trim_end_matches "/"%char (cfg_base_url cfg);
        username := cfg_username cfg; password := cfg_password cfg; bearer_token := cfg_bearer_token cfg;
        http_headers := cfg_headers cfg;
        timeout := query_timeout (query_timeout_secs cfg);
        breaker := match cfg_breaker cfg with Some b => b | None => Breaker.BreakerConfig_default end;
        semaphore := concurrency_limit (max_concurrency cfg) |}.

Definition apply_basic_auth (user pass : option string) : Auth :=
  match user, pass with Some u, Some p => Basic u p | _, _ => NoAuth end.

Definition request (h : WorkflowHttp) (m : Method) (path : string) : Request := {|
  method := m;
  url := base_url h +:+ "/" +:+ trim_start_matches "/"%char path;
  query := [];
  auth := match bearer_token h with
          | Some token => Bearer token
          | None => apply_basic_auth (username h) (password h)
          end;
  headers := http_headers h;
  body := NoBody;
|}.

End Types.

(** What an engine does with a request; a call can fail without an answer, whether the
    engine saw it or not. *)
Class Engine `{JN : JsonNumber} (R : Type) := { respond : Request -> R -> result Response string * R }.

(** *** One call *)

Section Call.
Context `{EN : Engine R}.

(** [req.send().await], then [resp.text().await], the status checked between the two. *)
Definition send_text (q : Request) : M R WorkflowError (Response * string) :=
  do! answer := effect (fun r => let '(a, r) := respond q r in (Ok a, r)) in
  match answer with
  | Err e => ret (Err (Transport e))
  | Ok resp =>
      do! read := effect (fun r => (Ok (text resp), r)) in
      match read with
      | Err e => ret (Err (Transport e))
      | Ok body =>
          if (200 <=? status resp) && (status resp <? 300) then ret (Ok (resp, body))
          else ret (Err (Http (status resp) body))
      end
  end.

End Call.

(** The state of one client: its breaker and the clock, and the engine outside. *)
Record Client (R : Type) := { inner : Breaker.Inner; tick : nat; remote : R }.
Arguments inner {R} _.
Arguments tick {R} _.
Arguments remote {R} _.
Arguments Build_Client {R} _ _ _.

Section Guarded.
Import Drop.
Context {R : Type}.
Context (clk : nat -> Z) (warn_enabled : bool).
(** How many effects of a future end within a budget. *)
Context (fits : Z -> Client R -> option nat).
Context (h : WorkflowHttp).

Definition budget_text (budget : Z) : string :=
  "workflow request exceeded " +:+ dec_text (budget / 1000000000) +:+ "s".

(** The second section of [Breaker::call], or the permit of a dropped call. *)
Definition settle {A} (r : result A WorkflowError) (c : Client R) : Client R :=
  let '(i, t) := Breaker.finish clk warn_enabled (breaker h) None (inner c) r (tick c) in
  {| inner := i; tick := t; remote := remote c |}.

Definition dropped (probe : bool) (c : Client R) : Client R :=
  {| inner := if probe then Breaker.drop_permit (inner c) else inner c; tick := tick c; remote := remote c |}.

(** [WorkflowHttp::guarded] once it has its permit: the breaker around the time limit. *)
Definition guarded {A} (fut : M R WorkflowError A) : M (Client R) WorkflowError A :=
  fun p =>
    let c := the_world p in
    match Breaker.enter clk (breaker h) (inner c) (tick c) with
    | (Breaker.Rejected e, i, t) =>
        (Ret (Err (Unavailable (Errors.refusal_text e))),
         {| the_world := {| inner := i; tick := t; remote := remote c |}; left_ := left_ p |})
    | (Breaker.Granted probe, i, t) =>
        let limit := match timeout h with
                     | Some budget => fits budget {| inner := i; tick := t; remote := remote c |}
                     | None => None
                     end in
        match run_for limit fut (remote c) (left_ p) with
        | (Finished r, o, l) =>
            (Ret r, {| the_world := settle r {| inner := i; tick := t; remote := o |}; left_ := l |})
        | (Dropped, o, l) =>
            (Died, {| the_world := dropped probe {| inner := i; tick := t; remote := o |}; left_ := l |})
        | (Cut, o, l) =>
            match timeout h with
            | Some budget =>
                let r := Err (Timeout (budget_text budget)) in
                (Ret r, {| the_world := settle r {| inner := i; tick := t; remote := o |}; left_ := l |})
            | None => (Died, {| the_world := dropped probe {| inner := i; tick := t; remote := o |}; left_ := l |})
            end
        end
    end.

End Guarded.

(** *** The contract of the engines *)

(** [trait WorkflowClient], its state [S] around the client of one engine. *)
Class WorkflowClient `{EN : Engine R} (S : Type) := {
  engine : string;
  capabilities : WorkflowCapabilities;
  client : S -> Client R;
  create : WorkflowSpec -> M S WorkflowError WorkflowId;
  trigger : WorkflowId -> Value -> M S WorkflowError RunId;
  status_of : RunId -> M S WorkflowError RunStatus;
  cancel : RunId -> M S WorkflowError unit;
  list_runs : RunFilter -> M S WorkflowError (list RunStatus);
}.

(** *** The calls of one client, interleaved *)

Module Shell.
Import Breaker.

(** A call waits for a permit, holds one, or is past the breaker, with or without a probe. *)
Inductive phase := Waiting | Permitted | InFlight (probe : bool).

Record sys := { brk : Inner; now : nat; available : option nat; calls : gmap nat phase }.

(** A permit comes back, a permit goes. *)
Definition release (a : option nat) : option nat := option_map S a.
Definition acquire (a : option nat) : option (option nat) :=
  match a with
  | None => Some None
  | Some O => None
  | Some (S n) => Some (Some n)
  end.

Section Machine.
Context (clk : nat -> Z) (warn_enabled : bool) (h : WorkflowHttp).

Definition start (s : sys) : Prop :=
  (exists t, (brk s, now s) = new clk (breaker h) t) /\ available s = option_map Z.to_nat (semaphore h) /\ calls s = ∅.

Definition set_calls (s : sys) (i : Inner) (t : nat) (a : option nat) (m : gmap nat phase) : sys :=
  {| brk := i; now := t; available := a; calls := m |}.

Inductive step : sys -> sys -> Prop :=
| step_arrive s id :
    calls s !! id = None ->
    step s (set_calls s (brk s) (now s) (available s) (<[id := Waiting]> (calls s)))
| step_permit s id a :
    calls s !! id = Some Waiting -> acquire (available s) = Some a ->
    step s (set_calls s (brk s) (now s) a (<[id := Permitted]> (calls s)))
| step_admit s id probe i t :
    calls s !! id = Some Permitted ->
    enter clk (breaker h) (brk s) (now s) = (Granted probe, i, t) ->
    step s (set_calls s i t (available s) (<[id := InFlight probe]> (calls s)))
| step_reject s id e i t :
    calls s !! id = Some Permitted ->
    enter clk (breaker h) (brk s) (now s) = (Rejected e, i, t) ->
    step s (set_calls s i t (release (available s)) (delete id (calls s)))
| step_end s id probe (r : result unit WorkflowError) i t :
    calls s !! id = Some (InFlight probe) ->
    finish clk warn_enabled (breaker h) None (brk s) r (now s) = (i, t) ->
    step s (set_calls s i t (release (available s)) (delete id (calls s)))
| step_leave_queue s id :
    calls s !! id = Some Waiting ->
    step s (set_calls s (brk s) (now s) (available s) (delete id (calls s)))
| step_drop_permitted s id :
    calls s !! id = Some Permitted ->
    step s (set_calls s (brk s) (now s) (release (available s)) (delete id (calls s)))
| step_drop s id probe :
    calls s !! id = Some (InFlight probe) ->
    step s (set_calls s (if probe then drop_permit (brk s) else brk s) (now s)
              (release (available s)) (delete id (calls s)))
| step_time s : step s (set_calls s (brk s) (S (now s)) (available s) (calls s)).

(** What the breaker sees of the calls: those in flight and their probes. *)
Definition flight (ph : phase) : option bool := match ph with InFlight b => Some b | _ => None end.
Definition seen (s : sys) : Breaker.sys :=
  {| Breaker.inner := brk s; Breaker.tick := now s; inflight := omap flight (calls s) |}.

Definition holds_permit (ph : phase) : bool := match ph with Waiting => false | _ => true end.
Definition holders (m : gmap nat phase) : nat := size (filter (fun kv : nat * phase => holds_permit kv.2 = true) m).

End Machine.
End Shell.

End Workflow.
