(* ===== verification/Engines.v ===== *)
(** * The four workflow adapters

    [src/ecat-workflow-{airflow,azkaban,oozie}/src/lib.rs] and
    [src/ecat-workflow-dolphinscheduler/src/{lib,util}.rs]: how each engine's requests are
    built and its answers read, over the guarded calls of [Workflow.v]. *)

From Stdlib Require Import Ascii.
From S2P Require Import Prelude Json Text Rdbms CircuitBreaker Crash SagaSql S3Sink OrmDialect XaSqlx ClickSink Workflow.

Local Open Scope Z_scope.
Local Open Scope ecat_scope.

(** Library functions: [{:?}] of a [str] (its table of printable characters), the [base64]
    crate. *)
Class EngineTexts := {
  debug_text : string -> string;
  base64_decode : string -> result (list Z) string;
}.

Section Values.
Context `{JN : JsonNumber}.

(** [v[k]]. *)
Definition index (v : Value) (k : string) : Value :=
  match S3.value_get v k with Some x => x | None => VNull end.

Definition as_array (v : Value) : option (list Value) :=
  match v with VArray l => Some l | _ => None end.

(** [collect] of results: the first error. *)
Fixpoint collect {A B E} (f : A -> result B E) (l : list A) : result (list B) E :=
  match l with
  | [] => Ok []
  | x :: l => let? y := f x in let? ys := collect f l in Ok (y :: ys)
  end.

End Values.

Module Airflow.
Import Workflow.

Inductive ApiVersion := V1 | V2.

Record AirflowClient := { http : WorkflowHttp; api_version : ApiVersion; dag_run_id_prefix : option string }.

Definition as_str_version (v : ApiVersion) : string := match v with V1 => "v1" | V2 => "v2" end.

(** [str::strip_suffix]. *)
Definition strip_suffix (p s : string) : option string :=
  option_map (fun r => of_bytes (rev (bytes_of r))) (strip_prefix (of_bytes (rev (bytes_of p))) (of_bytes (rev (bytes_of s)))).

Definition normalize_base_url (raw : string) : string :=
  let trimmed := trim_end_matches "/"%char raw in
  match strip_suffix "/api/v1" trimmed with
  | Some base => base
  | None => match strip_suffix "/api/v2" trimmed with Some base => base | None => trimmed end
  end.

(** Percent encoding of a path segment. *)
Definition unreserved (a : ascii) : bool :=
  let b := byte_of a in
  between 48 b 57 || between 65 b 90 || between 97 b 122 || (b =? 45) || (b =? 95) || (b =? 46) || (b =? 126).

Definition upper_digit (n : Z) : ascii := ascii_of_N (Z.to_N (if n <? 10 then 48 + n else 55 + n)).

Fixpoint segment (raw : string) : string :=
  match raw with
  | EmptyString => EmptyString
  | String a s =>
      if unreserved a then String a (segment s)
      else String "%"%char (String (upper_digit (byte_of a / 16)) (String (upper_digit (byte_of a mod 16)) (segment s)))
  end.

Definition map_state (state : string) : RunState :=
  if String.eqb state "queued" then Queued
  else if String.eqb state "running" then Running
  else if String.eqb state "success" then Succeeded
  else if String.eqb state "failed" || String.eqb state "upstream_failed" then Failed
  else if String.eqb state "skipped" then Cancelled
  else UnknownState.

Definition filter_state (s : RunState) : result string WorkflowError :=
  match s with
  | Queued => Ok "queued"
  | Running => Ok "running"
  | Succeeded => Ok "success"
  | Failed | Cancelled => Ok "failed"
  | UnknownState => Err (Config "cannot filter Airflow runs by RunState::Unknown")
  end.

Section Client.
Context {R : Type} `{JP : JsonParse} `{EN : !Engine R} `{ET : EngineTexts}.
Context (clk : nat -> Z) (warn_enabled : bool) (fits : Z -> Client R -> option nat) (nanos : Client R -> Z).

Definition parse_version (raw : string) : result ApiVersion WorkflowError :=
  if String.eqb raw "v2" then Ok V2
  else if String.eqb raw "v1" then Ok V1
  else Err (Config ("Airflow api_version must be " +:+ Spec.dq +:+ "v2" +:+ Spec.dq +:+ " or " +:+ Spec.dq +:+ "v1" +:+ Spec.dq
                      +:+ ", got " +:+ debug_text raw)).

Record AirflowConfig := {
  cfg_http : WorkflowHttpConfig;
  cfg_api_version : option string;
  cfg_dag_run_id_prefix : option string;
}.

Definition with_base_url (u : string) (c : WorkflowHttpConfig) : WorkflowHttpConfig :=
  {| cfg_base_url := u; cfg_username := cfg_username c; cfg_password := cfg_password c;
     cfg_bearer_token := cfg_bearer_token c; cfg_headers := cfg_headers c;
     query_timeout_secs := query_timeout_secs c; cfg_breaker := cfg_breaker c; max_concurrency := max_concurrency c |}.

Definition from_config (tls : result unit string) (cfg : AirflowConfig) : result AirflowClient WorkflowError :=
  let? v := parse_version (match cfg_api_version cfg with Some v => v | None => "v2" end) in
  let? h := Workflow.new tls (with_base_url (normalize_base_url (cfg_base_url (cfg_http cfg))) (cfg_http cfg)) in
  Ok {| http := h; api_version := v; dag_run_id_prefix := cfg_dag_run_id_prefix cfg |}.

Context (a : AirflowClient).
Local Abbreviation guarded := (guarded clk warn_enabled fits (http a)).

Definition path (tail : string) : string := "api/" +:+ as_str_version (api_version a) +:+ "/" +:+ tail.

Definition send (q : Request) : M R WorkflowError Value :=
  do! got := send_text q in
  ret (map_err (fun e => Parse ("Airflow response is not JSON: " +:+ e)) (value_parse got.2)).

Definition split_run (run : RunId) : result (string * string) WorkflowError :=
  ok_or (split_once "/"%char run) (Config ("Airflow RunId must be 'dag_id/dag_run_id', got " +:+ debug_text run)).

Definition run_id_of (dag_id run : string) : RunId := dag_id +:+ "/" +:+ run.

Definition run_status (v : Value) : result RunStatus WorkflowError :=
  let? dag_id := ok_or (as_str (index v "dag_id")) (Parse "DAG run has no dag_id") in
  let? run := ok_or (as_str (index v "dag_run_id")) (Parse "DAG run has no dag_run_id") in
  let? state := ok_or (as_str (index v "state")) (Parse "DAG run has no state") in
  Ok {| run_id := run_id_of dag_id run;
        workflow_id := dag_id;
        state := map_state state;
        started_at := as_str (index v "start_date");
        finished_at := as_str (index v "end_date");
        message := None;
        raw := v |}.

(** The members of the body in the order they are inserted. *)
Definition trigger_body (now : Z) (params : Value) : Value :=
  VObject ((match api_version a with
            | V2 => [("logical_date", match S3.value_get params "logical_date" with Some v => v | None => VNull end)]
            | V1 => []
            end)
           ++ [("conf", if is_null params then VObject [] else params)]
           ++ (match dag_run_id_prefix a with
               | Some prefix => [("dag_run_id", VString (prefix +:+ dec_text now))]
               | None => []
               end)).

Definition trigger_request (now : Z) (workflow : WorkflowId) (params : Value) : Request :=
  with_body (JsonBody (trigger_body now params))
    (request (http a) POST (path ("dags/" +:+ segment workflow +:+ "/dagRuns"))).

Definition run_path (dag_id run : string) : string :=
  path ("dags/" +:+ segment dag_id +:+ "/dagRuns/" +:+ segment run).

Definition create (_ : WorkflowSpec) : M (Client R) WorkflowError WorkflowId :=
  ret (Err (Unsupported "Airflow DAGs are deployed as files; REST cannot create them")).

Definition trigger (workflow : WorkflowId) (params : Value) : M (Client R) WorkflowError RunId :=
  do! now := get nanos in
  do! resp := guarded (send (trigger_request now workflow params)) in
  ret (let? run := ok_or (as_str (index resp "dag_run_id")) (Parse "trigger response has no dag_run_id") in
       Ok (run_id_of workflow run)).

Definition status_of (run : RunId) : M (Client R) WorkflowError RunStatus :=
  do! parts := ret (split_run run) in
  do! resp := guarded (send (request (http a) GET (run_path parts.1 parts.2))) in
  ret (run_status resp).

Definition cancel_request (parts : string * string) : Request :=
  with_body (JsonBody (VObject [("state", VString "failed")])) (request (http a) PATCH (run_path parts.1 parts.2)).

Definition cancel (run : RunId) : M (Client R) WorkflowError unit :=
  do! parts := ret (split_run run) in
  guarded (do! _ := send (cancel_request parts) in ret (Ok tt)).

Definition list_path (filter : RunFilter) (workflow : WorkflowId) : result string WorkflowError :=
  let? by_state := match f_state filter with
                   | Some s => let? v := filter_state s in Ok ["state=" +:+ v]
                   | None => Ok []
                   end in
  let query := match f_limit filter with Some n => ["limit=" +:+ dec_text n] | None => [] end ++ by_state in
  Ok (path ("dags/" +:+ segment workflow +:+ "/dagRuns")
        +:+ match query with [] => "" | _ => "?" +:+ Spec.join "&" query end).

Definition list_runs (filter : RunFilter) : M (Client R) WorkflowError (list RunStatus) :=
  do! workflow := ret (ok_or (f_workflow_id filter) (Remote "workflow_id (dag_id) is required")) in
  do! p := ret (list_path filter workflow) in
  do! resp := guarded (send (request (http a) GET p)) in
  ret (let? runs := ok_or (as_array (index resp "dag_runs")) (Parse "list response has no dag_runs array") in
       collect run_status runs).

#[export] Instance airflow : WorkflowClient (Client R) := {
  engine := "airflow";
  capabilities := {| can_create := false; can_trigger := true; can_cancel := true; can_list_runs := true |};
  client c := c;
  Workflow.create := create;
  Workflow.trigger := trigger;
  Workflow.status_of := status_of;
  Workflow.cancel := cancel;
  Workflow.list_runs := list_runs;
}.

End Client.
End Airflow.

Module Azkaban.
Import Workflow.

Definition SESSION_COOKIE : string := "azkaban.browser.session.id".

(** The client: the session of its last login is state. *)
Record AzkabanClient := { http : WorkflowHttp; project : option string; username : string; password : string }.

Record World (R : Type) := { client : Client R; session_slot : option string }.
Arguments client {R} _.
Arguments session_slot {R} _.
Arguments Build_World {R} _ _.

(** The parts of [str::split(c)]. *)
Fixpoint split_on (c : ascii) (s : string) : list string :=
  match s with
  | EmptyString => [EmptyString]
  | String a s =>
      if Ascii.eqb a c then EmptyString :: split_on c s
      else match split_on c s with
           | part :: parts => String a part :: parts
           | [] => [String a EmptyString]
           end
  end.

(** The values of [Set-Cookie] that are visible ASCII, cut at the semicolons. *)
Definition cookie_session (cookies : list string) : option string :=
  head (omap (fun part =>
          match strip_prefix SESSION_COOKIE (trim part) with
          | Some rest => strip_prefix "=" rest
          | None => None
          end) (flat_map (split_on ";"%char) cookies)).

Definition map_state (s : string) : RunState :=
  if existsb (String.eqb s) ["READY"; "DISPATCHING"; "PREPARING"; "QUEUED"] then Queued
  else if existsb (String.eqb s) ["RUNNING"; "PAUSED"; "FAILED_FINISHING"; "KILLING"] then Running
  else if existsb (String.eqb s) ["SUCCEEDED"; "FAILED_SUCCEEDED"; "SKIPPED"] then Succeeded
  else if existsb (String.eqb s) ["FAILED"; "EXECUTION_STOPPED"] then Failed
  else if existsb (String.eqb s) ["KILLED"; "CANCELLED"] then Cancelled
  else UnknownState.

Definition snippet (body : string) : string := Clickhouse.take_chars 512 body.

(** No character but the ASCII letters has a lower-case form that could complete one of
    the words, so the ASCII form decides as [to_lowercase] does. *)
Definition session_expired (e : WorkflowError) : bool :=
  match e with
  | Http status _ => (status =? 401) || (status =? 403)
  | e =>
      let text := to_ascii_lowercase (error_text e) in
      contains "session" text || contains "re-login" text || contains "login error" text
  end.

Section Client.
Context {R : Type} `{JP : JsonParse} `{JU : !JsonU64} `{EN : !Engine R} `{ET : EngineTexts}.
Context (clk : nat -> Z) (warn_enabled : bool) (fits : Z -> Client R -> option nat).

Definition display_json (v : Value) : string :=
  match as_str v with Some s => s | None => value_text v end.

Definition id_string (v : Value) : option string :=
  match v with
  | VString s => Some s
  | VNumber n => Some (number_text n)
  | _ => None
  end.

Definition timestamp (v : Value) (key : string) : option string :=
  match S3.value_get v key with
  | Some (VNumber n) =>
      match number_as_u64 n with
      | Some k => if 0 <? k then Some (dec_text k) else None
      | None => None
      end
  | Some (VString s) => if String.eqb s "" then None else Some s
  | _ => None
  end.

Definition split_id (id : string) : result (string * string) WorkflowError :=
  let bad := Err (Config ("azkaban: workflow id must be project/flow, got " +:+ debug_text id)) in
  match split_once "/"%char id with
  | Some (project, flow) =>
      if negb (String.eqb project "") && negb (String.eqb flow "") && negb (contains_char "/"%char flow)
      then Ok (project, flow) else bad
  | None => bad
  end.

Definition from_config (tls : result unit string) (cfg : WorkflowHttpConfig) (project : option string) :
    result AzkabanClient WorkflowError :=
  let? user := ok_or (cfg_username cfg) (Config "azkaban: username is required") in
  let? pass := ok_or (cfg_password cfg) (Config "azkaban: password is required") in
  let? h := Workflow.new tls cfg in
  Ok {| http := h; project := project; username := user; password := pass |}.

Context (a : AzkabanClient).

(** A guarded call of the client, which leaves the session alone. *)
Definition on_client {A} (m : M (Client R) WorkflowError A) : M (World R) WorkflowError A :=
  fun p =>
    let '(out, q) := m {| the_world := client (the_world p); left_ := left_ p |} in
    (out, {| the_world := {| client := the_world q; session_slot := session_slot (the_world p) |};
             left_ := left_ q |}).

Definition guarded {A} (m : M R WorkflowError A) : M (World R) WorkflowError A :=
  on_client (Workflow.guarded clk warn_enabled fits (http a) m).

(** Assigning the slot under its lock. *)
Definition set_session (s : option string) : M (World R) WorkflowError unit :=
  fun p => (Ret (Ok tt),
            {| the_world := {| client := client (the_world p); session_slot := s |}; left_ := left_ p |}).

Definition login_request : Request :=
  with_body (Form [("action", "login"); ("username", username a); ("password", password a)])
    (request (http a) POST "/?action=login").

Definition login : M (World R) WorkflowError string :=
  guarded (
    do! got := send_text login_request in
    let cookie := cookie_session (set_cookies got.1) in
    do! v := ret (map_err (fun e => Parse ("azkaban: login response: " +:+ e +:+ ": " +:+ snippet got.2)) (value_parse got.2)) in
    match S3.value_get v "error" with
    | Some err => ret (Err (Remote ("azkaban: login failed: " +:+ display_json err)))
    | None =>
        let from_body := match S3.value_get v "session.id" with Some s => as_str s | None => None end in
        ret (ok_or (match from_body with Some s => Some s | None => cookie end)
               (Remote "azkaban: login response missing session.id"))
    end).

(** The lock is held across the login. *)
Definition session : M (World R) WorkflowError string :=
  do! slot := get session_slot in
  match slot with
  | Some sid => ret (Ok sid)
  | None =>
      do! sid := login in
      do! _ := set_session (Some sid) in
      ret (Ok sid)
  end.

Definition invalidate (used : string) : M (World R) WorkflowError unit :=
  do! slot := get session_slot in
  match slot with
  | Some sid => if String.eqb sid used then set_session None else ret (Ok tt)
  | None => ret (Ok tt)
  end.

Definition attempt (sid : string) (build : string -> Request) : M (World R) WorkflowError Value :=
  guarded (
    do! got := send_text (build sid) in
    do! v := ret (map_err (fun e => Parse ("azkaban: invalid JSON: " +:+ e +:+ ": " +:+ snippet got.2)) (value_parse got.2)) in
    match S3.value_get v "error" with
    | Some err => ret (Err (Remote ("azkaban: " +:+ display_json err)))
    | None => ret (Ok v)
    end).

Definition call (build : string -> Request) : M (World R) WorkflowError Value :=
  do! sid := session in
  do! r := try (attempt sid build) in
  match r with
  | Err e =>
      if session_expired e then
        do! _ := invalidate sid in
        do! sid := session in
        attempt sid build
      else ret (Err e)
  | Ok v => ret (Ok v)
  end.

Definition or_else {A} (x y : option A) : option A := match x with Some _ => x | None => y end.

Definition definition_parts (spec : WorkflowSpec) : result (string * string * string) WorkflowError :=
  let default {A} (d : A) (o : option A) := match o with Some x => x | None => d end in
  match definition spec with
  | VString encoded => Ok (default (name spec) (project a), name spec, encoded)
  | VObject l =>
      let str k := match S3.member l k with Some v => as_str v | None => None end in
      let? encoded := ok_or (str "zip_base64") (Config "azkaban: definition.zip_base64 is required") in
      Ok (default (name spec) (or_else (str "project") (project a)), default (name spec) (str "flow"), encoded)
  | _ => Err (Config ("azkaban: definition must be a base64 zip string or {" +:+ Spec.dq +:+ "project" +:+ Spec.dq +:+ ", "
                        +:+ Spec.dq +:+ "flow" +:+ Spec.dq +:+ ", " +:+ Spec.dq +:+ "zip_base64" +:+ Spec.dq +:+ "}"))
  end.

Definition decode_definition (spec : WorkflowSpec) : result (string * string * list Z) WorkflowError :=
  let? parts := definition_parts spec in
  let? zip := map_err (fun e => Config ("azkaban: zip_base64 is not valid base64: " +:+ e)) (base64_decode parts.2) in
  Ok (parts.1, zip).

Definition create_request (project description sid : string) : Request :=
  with_body (Form [("session.id", sid); ("name", project); ("description", description)])
    (request (http a) POST "/manager?action=create").

Definition upload_request (project flow : string) (zip : list Z) (sid : string) : Request :=
  with_body (Multipart [Text "ajax" "upload"; Text "session.id" sid; Text "project" project;
                        File "file" (flow +:+ ".zip") "application/zip" zip])
    (request (http a) POST "/manager?ajax=upload").

Definition create (spec : WorkflowSpec) : M (World R) WorkflowError WorkflowId :=
  do! d := ret (decode_definition spec) in
  let '(project, flow, zip) := d in
  do! _ := call (create_request project (name spec)) in
  do! _ := call (upload_request project flow zip) in
  ret (Ok (project +:+ "/" +:+ flow)).

Definition overrides (params : Value) : result (list (string * string)) WorkflowError :=
  match params with
  | VNull => Ok []
  | VObject l => Ok (map (fun kv => ("flowOverride[" +:+ kv.1 +:+ "]", display_json kv.2)) l)
  | _ => Err (Unsupported "azkaban: trigger params must be a JSON object")
  end.

Definition execute_request (project flow : string) (over : list (string * string)) (sid : string) : Request :=
  with_body (Form ([("session.id", sid); ("project", project); ("flow", flow)] ++ over))
    (request (http a) POST "/executor?ajax=executeFlow").

Definition trigger (workflow : WorkflowId) (params : Value) : M (World R) WorkflowError RunId :=
  do! id := ret (split_id workflow) in
  do! over := ret (overrides params) in
  do! v := call (execute_request id.1 id.2 over) in
  ret (ok_or (match S3.value_get v "execid" with Some x => id_string x | None => None end)
         (Parse "azkaban: executeFlow response missing execid")).

Definition exec_request (ajax : string) (run : RunId) (sid : string) : Request :=
  with_query [("execid", run); ("session.id", sid)] (request (http a) GET ("/executor?ajax=" +:+ ajax)).

Definition str_or_empty (o : option Value) : string :=
  match o with Some (VString s) => s | _ => "" end.

Definition run_status (run : RunId) (v : Value) : RunStatus :=
  let project := str_or_empty (S3.value_get v "project") in
  let flow := str_or_empty (or_else (S3.value_get v "flow") (S3.value_get v "id")) in
  {| run_id := run;
     workflow_id := if String.eqb project "" then flow else project +:+ "/" +:+ flow;
     state := map_state (str_or_empty (S3.value_get v "status"));
     started_at := timestamp v "startTime";
     finished_at := timestamp v "endTime";
     message := None;
     raw := v |}.

Definition status_of (run : RunId) : M (World R) WorkflowError RunStatus :=
  do! v := call (exec_request "fetchexecflow" run) in ret (Ok (run_status run v)).

Definition cancel (run : RunId) : M (World R) WorkflowError unit :=
  do! _ := call (exec_request "cancelFlow" run) in ret (Ok tt).

Definition list_runs (_ : RunFilter) : M (World R) WorkflowError (list RunStatus) :=
  ret (Err (Unsupported "azkaban: list_runs is not supported")).

#[export] Instance azkaban : WorkflowClient (World R) := {
  engine := "azkaban";
  capabilities := {| can_create := true; can_trigger := true; can_cancel := true; can_list_runs := false |};
  Workflow.client := client;
  Workflow.create := create;
  Workflow.trigger := trigger;
  Workflow.status_of := status_of;
  Workflow.cancel := cancel;
  Workflow.list_runs := list_runs;
}.

End Client.
End Azkaban.

Module Dolphin.
Import Workflow.

Inductive ApiStyle := WorkflowStyle | Legacy.

Record DolphinClient := {
  http : WorkflowHttp;
  project_code : Z;
  token : option string;
  tenant_code : option string;
  api_style : ApiStyle;
}.

Definition TRIGGER_POLL_ATTEMPTS : nat := 50.

Definition map_state (s : string) : RunState :=
  if existsb (String.eqb s) ["SUBMITTED_SUCCESS"; "DELAY_EXECUTION"; "SERIAL_WAIT"; "READY_BLOCK"; "BLOCK"; "WAIT_TO_RUN"]
  then Queued
  else if existsb (String.eqb s) ["RUNNING_EXECUTION"; "READY_PAUSE"; "READY_STOP"] then Running
  else if String.eqb s "SUCCESS" then Succeeded
  else if String.eqb s "FAILURE" then Failed
  else if String.eqb s "STOP" then Cancelled
  else UnknownState.

Definition engine_state (s : RunState) : result string WorkflowError :=
  match s with
  | Queued => Ok "SUBMITTED_SUCCESS"
  | Running => Ok "RUNNING_EXECUTION"
  | Succeeded => Ok "SUCCESS"
  | Failed => Ok "FAILURE"
  | Cancelled => Ok "STOP"
  | UnknownState => Err (Config "cannot filter DolphinScheduler runs by RunState::Unknown")
  end.

Section Client.
Context {R : Type} `{JP : JsonParse} `{EN : !Engine R} `{ET : EngineTexts}.
Context (clk : nat -> Z) (warn_enabled : bool) (fits : Z -> Client R -> option nat).
(** [now_schedule_time]: the current time in the time crate's format. *)
Context (now_schedule_time : Client R -> string).

Definition json_i64 (v : Value) (what : string) : result Z WorkflowError :=
  match v with
  | VNumber n => ok_or (number_as_i64 n) (Parse (what +:+ " is not an integer"))
  | VString s => ok_or (S3.parse_i64 s) (Parse (what +:+ " is not an integer"))
  | _ => Err (Parse (what +:+ " is missing"))
  end.

Definition parse_i64 (raw what : string) : result Z WorkflowError :=
  ok_or (S3.parse_i64 raw) (Config (what +:+ " must be a decimal integer, got " +:+ debug_text raw)).

Definition required (l : list (string * Value)) (key : string) : result Value WorkflowError :=
  ok_or (S3.member l key) (Config ("DolphinScheduler definition needs `" +:+ key +:+ "`")).

Definition form_json (v : Value) : string := match v with VString s => s | v => value_text v end.

Definition parse_style (raw : string) : result ApiStyle WorkflowError :=
  if String.eqb raw "workflow" then Ok WorkflowStyle
  else if String.eqb raw "legacy" then Ok Legacy
  else Err (Config ("DolphinScheduler api_style must be " +:+ Spec.dq +:+ "workflow" +:+ Spec.dq +:+ " or " +:+ Spec.dq
                      +:+ "legacy" +:+ Spec.dq +:+ ", got " +:+ debug_text raw)).

Record DolphinConfig := {
  cfg_http : WorkflowHttpConfig;
  cfg_project_code : Z;
  cfg_token : option string;
  cfg_tenant_code : option string;
  cfg_api_style : option string;
}.

Definition with_headers (l : list (string * string)) (c : WorkflowHttpConfig) : WorkflowHttpConfig :=
  {| cfg_base_url := cfg_base_url c; cfg_username := cfg_username c; cfg_password := cfg_password c;
     cfg_bearer_token := cfg_bearer_token c; cfg_headers := l;
     query_timeout_secs := query_timeout_secs c; cfg_breaker := cfg_breaker c; max_concurrency := max_concurrency c |}.

Definition from_config (tls : result unit string) (cfg : DolphinConfig) : result DolphinClient WorkflowError :=
  if cfg_project_code cfg <=? 0 then Err (Config "DolphinScheduler project_code must be positive")
  else
    let? style := parse_style (match cfg_api_style cfg with Some s => s | None => "workflow" end) in
    let c := match cfg_token cfg with
             | Some _ => with_headers (List.filter (fun kv => negb (String.eqb (to_ascii_lowercase kv.1) "token"))
                                         (cfg_headers (cfg_http cfg))) (cfg_http cfg)
             | None => cfg_http cfg
             end in
    let? h := Workflow.new tls c in
    Ok {| http := h; project_code := cfg_project_code cfg; token := cfg_token cfg;
          tenant_code := cfg_tenant_code cfg; api_style := style |}.

Context (d : DolphinClient).
Local Abbreviation guarded := (guarded clk warn_enabled fits (http d)).

Definition form_request (m : Method) (path : string) : Request :=
  let req := request (http d) m path in
  match token d with Some t => with_header "token" t req | None => req end.

Definition definition_segment : string :=
  match api_style d with WorkflowStyle => "workflow-definition" | Legacy => "process-definition" end.
Definition instance_segment : string :=
  match api_style d with WorkflowStyle => "workflow-instances" | Legacy => "process-instances" end.

(** [projects/{project_code}/{tail}]. *)
Definition project_path (tail : string) : string :=
  "projects/" +:+ Clickhouse.int_text (project_code d) +:+ "/" +:+ tail.

Definition start_form (now definition_field : string) (definition : Z) (params : Value) : list (string * string) :=
  [(definition_field, Clickhouse.int_text definition); ("scheduleTime", now);
   ("failureStrategy", "CONTINUE"); ("warningType", "NONE")]
  ++ match api_style d with
     | WorkflowStyle => [("workflowInstancePriority", "MEDIUM"); ("workerGroup", "default")]
     | Legacy => []
     end
  ++ match tenant_code d with Some t => [("tenantCode", t)] | None => [] end
  ++ (if is_null params then [] else [("startParams", form_json params)]).

(** [Deserialize] of [Envelope], from an object or from an array of its fields: the code,
    the message, the data. *)
Definition envelope_of (code msg data : option Value) : result (Z * option string * Value) string :=
  let? c := ok_or code "missing field `code`" in
  let? code := ok_or (as_i64 c) "invalid type for code" in
  let? msg := match msg with
              | Some (VString m) => Ok (Some m)
              | None | Some VNull => Ok None
              | Some _ => Err "invalid type for msg"
              end in
  Ok (code, msg, match data with Some v => v | None => VNull end).

Definition envelope (v : Value) : result (Z * option string * Value) string :=
  match v with
  | VObject l => envelope_of (S3.member l "code") (S3.member l "msg") (S3.member l "data")
  | VArray l => if (3 <? length l)%nat then Err "trailing characters" else envelope_of (l !! 0%nat) (l !! 1%nat) (l !! 2%nat)
  | _ => Err "invalid type"
  end.

Definition send (q : Request) : M R WorkflowError Value :=
  do! got := send_text q in
  do! e := ret (map_err (fun e => Parse ("DolphinScheduler response is not JSON: " +:+ e))
                  (let? v := value_parse got.2 in envelope v)) in
  let '(code, msg, data) := e in
  if negb (code =? 0)
  then ret (Err (Remote ("DolphinScheduler error " +:+ Clickhouse.int_text code +:+ ": "
                           +:+ match msg with Some m => m | None => "" end)))
  else ret (Ok data).

(** The timer between two polls. *)
Definition sleep : M R WorkflowError unit := effect (fun r => (Ok tt, r)).

Definition no_instance (trigger_code : Z) (label : string) : WorkflowError :=
  Remote ("DolphinScheduler accepted triggerCode " +:+ Clickhouse.int_text trigger_code +:+ " but no " +:+ label
            +:+ " appeared within ~10s").

(** The polls that are left. *)
Fixpoint polls (n : nat) (poll : Request) (none : WorkflowError) : M R WorkflowError RunId :=
  match n with
  | O => ret (Err none)
  | S n =>
      do! data := send poll in
      match data with
      | VArray (x :: _) =>
          ret (let? id := json_i64 (index x "id") "workflow instance id" in Ok (Clickhouse.int_text id))
      | _ =>
          match n with
          | O => ret (Err none)
          | S _ => do! _ := sleep in polls n poll none
          end
      end
  end.

Definition poll_request (trigger_path : string) (trigger_code : Z) : Request :=
  form_request GET (trigger_path +:+ "?triggerCode=" +:+ Clickhouse.int_text trigger_code).

Definition poll_trigger (trigger_path : string) (data : Value) (label : string) : M R WorkflowError RunId :=
  do! code := ret (json_i64 data "trigger code") in
  polls TRIGGER_POLL_ATTEMPTS (poll_request trigger_path code) (no_instance code label).

Definition or_else {A E} (r : result A E) (alt : result A E) : result A E :=
  match r with Ok _ => r | Err _ => alt end.

Definition run_status (v : Value) : result RunStatus WorkflowError :=
  let? id := json_i64 (index v "id") "workflow instance id" in
  let? definition := or_else (json_i64 (index v "workflowDefinitionCode") "workflow definition code")
                       (json_i64 (index v "processDefinitionCode") "process definition code") in
  let? state := ok_or (as_str (index v "state")) (Parse "workflow instance has no state") in
  Ok {| run_id := Clickhouse.int_text id;
        workflow_id := Clickhouse.int_text definition;
        state := map_state state;
        started_at := as_str (index v "startTime");
        finished_at := as_str (index v "endTime");
        message := None;
        raw := v |}.

Definition create_form (spec : WorkflowSpec) : result (list (string * string)) WorkflowError :=
  match definition spec with
  | VObject l =>
      let? tasks := required l "taskDefinitionJson" in
      let? relations := required l "taskRelationJson" in
      let str k := match S3.member l k with Some v => as_str v | None => None end in
      Ok ([("name", name spec); ("taskDefinitionJson", form_json tasks); ("taskRelationJson", form_json relations);
           ("locations", form_json (match S3.member l "locations" with Some v => v | None => VArray [] end));
           ("executionType", match str "executionType" with Some s => s | None => "PARALLEL" end)]
          ++ match str "description" with Some s => [("description", s)] | None => [] end
          ++ match api_style d, tenant_code d with Legacy, Some t => [("tenantCode", t)] | _, _ => [] end)
  | _ => Err (Config "DolphinScheduler definition must be a JSON object")
  end.

Definition create_request (form : list (string * string)) : Request :=
  with_body (Form form) (form_request POST (project_path definition_segment)).

Definition release_request (code : Z) : Request :=
  with_body (Form [("releaseState", "ONLINE")])
    (form_request POST (project_path (definition_segment +:+ "/" +:+ Clickhouse.int_text code +:+ "/release"))).

Definition create (spec : WorkflowSpec) : M (Client R) WorkflowError WorkflowId :=
  do! form := ret (create_form spec) in
  do! code := guarded (
    do! data := send (create_request form) in
    do! code := ret (json_i64 (index data "code") "workflow definition code") in
    match api_style d with
    | WorkflowStyle => do! _ := send (release_request code) in ret (Ok code)
    | Legacy => ret (Ok code)
    end) in
  ret (Ok (Clickhouse.int_text code)).

Definition start_request (now : string) (definition : Z) (params : Value) : Request :=
  match api_style d with
  | WorkflowStyle =>
      with_body (Form (start_form now "workflowDefinitionCode" definition params))
        (form_request POST (project_path "executors/start-workflow-instance"))
  | Legacy =>
      with_body (Form (start_form now "processDefinitionCode" definition params))
        (form_request POST (project_path "executors/start-process-instance"))
  end.

(** What the answer to a start becomes. *)
Definition started (data : Value) : M R WorkflowError RunId :=
  match api_style d with
  | WorkflowStyle =>
      match data with
      | VArray (x :: _) => ret (let? id := json_i64 x "workflow instance id" in Ok (Clickhouse.int_text id))
      | VArray [] => ret (Err (Remote "start-workflow-instance returned no workflow instance"))
      | _ => poll_trigger (project_path "workflow-instances/trigger") data "workflow instance"
      end
  | Legacy => poll_trigger (project_path "process-instances/trigger") data "process instance"
  end.

Definition trigger (workflow : WorkflowId) (params : Value) : M (Client R) WorkflowError RunId :=
  do! definition := ret (parse_i64 workflow "workflow_id (definition code)") in
  do! now := get now_schedule_time in
  guarded (do! data := send (start_request now definition params) in started data).

Definition status_request (id : Z) : Request :=
  form_request GET (project_path (instance_segment +:+ "/" +:+ Clickhouse.int_text id)).

Definition status_of (run : RunId) : M (Client R) WorkflowError RunStatus :=
  do! id := ret (parse_i64 run "run_id (workflow instance id)") in
  do! data := guarded (send (status_request id)) in
  ret (run_status data).

Definition stop_request (id : Z) : Request :=
  let req := form_request POST (project_path "executors/execute") in
  match api_style d with
  | WorkflowStyle => with_query [("workflowInstanceId", Clickhouse.int_text id); ("executeType", "STOP")] req
  | Legacy => with_body (Form [("processInstanceId", Clickhouse.int_text id); ("executeType", "STOP")]) req
  end.

Definition cancel (run : RunId) : M (Client R) WorkflowError unit :=
  do! id := ret (parse_i64 run "run_id (workflow instance id)") in
  guarded (do! _ := send (stop_request id) in ret (Ok tt)).

Definition list_path (filter : RunFilter) : result string WorkflowError :=
  let? by_workflow := match f_workflow_id filter with
                      | Some w =>
                          let? definition := parse_i64 w "workflow_id (definition code)" in
                          Ok ("&" +:+ match api_style d with
                                      | WorkflowStyle => "workflowDefinitionCode"
                                      | Legacy => "processDefineCode"
                                      end +:+ "=" +:+ Clickhouse.int_text definition)
                      | None => Ok ""
                      end in
  let? by_state := match f_state filter with
                   | Some s => let? v := engine_state s in Ok ("&stateType=" +:+ v)
                   | None => Ok ""
                   end in
  Ok (project_path (instance_segment +:+ "?pageNo=1&pageSize="
                      +:+ dec_text (match f_limit filter with Some n => n | None => 10 end)) +:+ by_workflow +:+ by_state).

Definition list_runs (filter : RunFilter) : M (Client R) WorkflowError (list RunStatus) :=
  do! p := ret (list_path filter) in
  do! data := guarded (send (form_request GET p)) in
  ret (let? runs := ok_or (as_array (index data "totalList")) (Parse "list response has no data.totalList array") in
       collect run_status runs).

#[export] Instance dolphin : WorkflowClient (Client R) := {
  engine := "dolphinscheduler";
  capabilities := {| can_create := true; can_trigger := true; can_cancel := true; can_list_runs := true |};
  client c := c;
  Workflow.create := create;
  Workflow.trigger := trigger;
  Workflow.status_of := status_of;
  Workflow.cancel := cancel;
  Workflow.list_runs := list_runs;
}.

End Client.
End Dolphin.

Module Oozie.
Import Workflow.

(** What [quick_xml::Reader] reports of a document, in order, with [buffer_position] after
    each event: an end tag, an empty element, anything else, or the error that ends it. *)
Inductive XmlEvent := End_ (tag : string) (pos : nat) | Empty (tag : string) | Other.

Class Xml := {
  read_events : string -> list XmlEvent * option (nat * string);
  escape : string -> string;
}.

Definition map_state (s : string) : RunState :=
  if existsb (String.eqb s) ["PREP"; "PREPARED"] then Queued
  else if existsb (String.eqb s) ["RUNNING"; "SUSPENDED"] then Running
  else if String.eqb s "SUCCEEDED" then Succeeded
  else if String.eqb s "FAILED" then Failed
  else if String.eqb s "KILLED" then Cancelled
  else UnknownState.

Definition snippet (body : string) : string := Clickhouse.take_chars 512 body.

(** [str::rfind(c)]. *)
Fixpoint rfind (c : ascii) (s : string) : option nat :=
  match s with
  | EmptyString => None
  | String a s =>
      match rfind c s with
      | Some n => Some (S n)
      | None => if Ascii.eqb a c then Some 0%nat else None
      end
  end.

Definition id_char (a : ascii) : bool :=
  let b := byte_of a in
  between 48 b 57 || between 65 b 90 || between 97 b 122 || (b =? 45) || (b =? 95) || (b =? 46).

Fixpoint all_chars (f : ascii -> bool) (s : string) : bool :=
  match s with EmptyString => true | String a s => f a && all_chars f s end.

Section Client.
Context {R : Type} `{JP : JsonParse} `{EN : !Engine R} `{ET : EngineTexts} `{XM : Xml}.
Context (clk : nat -> Z) (warn_enabled : bool) (fits : Z -> Client R -> option nat).

Definition time (v : Value) (key : string) : option string :=
  match S3.value_get v key with
  | Some (VString s) => if String.eqb s "" then None else Some s
  | _ => None
  end.

Definition needs_xml : WorkflowError :=
  Config ("oozie: definition must be XML or {" +:+ Spec.dq +:+ "xml" +:+ Spec.dq +:+ ": " +:+ Spec.dq +:+ "..."
            +:+ Spec.dq +:+ "}").

Definition definition_xml (v : Value) : result string WorkflowError :=
  match v with
  | VString xml => Ok xml
  | VObject l => ok_or (match S3.member l "xml" with Some x => as_str x | None => None end) needs_xml
  | _ => Err needs_xml
  end.

Definition property_text (kv : string * Value) : string :=
  let value := match as_str kv.2 with Some s => s | None => value_text kv.2 end in
  "<property><name>" +:+ escape kv.1 +:+ "</name><value>" +:+ escape value +:+ "</value></property>".

Definition properties (params : Value) : result (list string) WorkflowError :=
  match params with
  | VNull => Ok []
  | VObject l => Ok (map property_text l)
  | _ => Err (Unsupported "oozie: params must be a JSON object")
  end.

(** The reading loop: the position of the first [</configuration>]. *)
Fixpoint find_close (events : list XmlEvent) (fault : option (nat * string)) (close_at : option nat) :
    result (option nat) WorkflowError :=
  match events with
  | [] =>
      match fault with
      | None => Ok close_at
      | Some (pos, e) =>
          Err (Parse ("oozie: invalid definition XML at byte " +:+ dec_text (Z.of_nat pos) +:+ ": " +:+ e))
      end
  | End_ tag pos :: events =>
      find_close events fault
        (match close_at with
         | None => if String.eqb tag "configuration" then Some pos else None
         | Some _ => close_at
         end)
  | Empty tag :: events =>
      match close_at with
      | None =>
          if String.eqb tag "configuration"
          then Err (Config "oozie: empty <configuration/> has nowhere to inject params")
          else find_close events fault close_at
      | Some _ => find_close events fault close_at
      end
  | Other :: events => find_close events fault close_at
  end.

Definition drop_to (n : nat) (s : string) : string := String.substring n (String.length s - n) s.
Definition take_to (n : nat) (s : string) : string := String.substring 0 n s.

Definition inject_params (xml : string) (params : Value) : result string WorkflowError :=
  let? props := properties params in
  let '(events, fault) := read_events xml in
  let? close := find_close events fault None in
  let? close_at := ok_or close (Config "oozie: definition XML has no <configuration> element") in
  let? open_at := ok_or (rfind "<"%char (take_to close_at xml)) (Parse "oozie: cannot locate </configuration>") in
  Ok (take_to open_at xml +:+ String.concat "" props +:+ drop_to open_at xml).

Definition job_url (id : string) : result string WorkflowError :=
  if String.eqb id "" || negb (all_chars id_char id)
  then Err (Config ("oozie: invalid job id " +:+ debug_text id))
  else Ok ("/oozie/v2/job/" +:+ id).

Context (h : WorkflowHttp).
Local Abbreviation guarded := (guarded clk warn_enabled fits h).

Definition json (q : Request) : M (Client R) WorkflowError Value :=
  guarded (
    do! got := send_text q in
    ret (map_err (fun e => Parse ("oozie: invalid JSON: " +:+ e +:+ ": " +:+ snippet got.2)) (value_parse got.2))).

Definition ok (q : Request) : M (Client R) WorkflowError unit :=
  guarded (do! _ := send_text q in ret (Ok tt)).

Definition submit_request (xml : string) : Request :=
  with_body (Raw xml) (with_header "content-type" "application/xml" (request h POST "/oozie/v2/jobs")).

Definition create (spec : WorkflowSpec) : M (Client R) WorkflowError WorkflowId :=
  do! xml := ret (let? xml := definition_xml (definition spec) in inject_params xml (params spec)) in
  do! v := json (submit_request xml) in
  ret (ok_or (match S3.value_get v "id" with Some x => as_str x | None => None end)
         (Parse "oozie: submit response missing id")).

Definition action_request (url action : string) : Request := with_query [("action", action)] (request h PUT url).

Definition trigger (workflow : WorkflowId) (params : Value) : M (Client R) WorkflowError RunId :=
  if negb (is_null params)
  then ret (Err (Unsupported "oozie: trigger params are not supported; put them in the definition"))
  else
    do! url := ret (job_url workflow) in
    do! _ := ok (action_request url "start") in
    ret (Ok workflow).

Definition str_of (v : Value) (key : string) : option string :=
  match S3.value_get v key with Some x => as_str x | None => None end.

Definition job_status (run : RunId) (workflow : WorkflowId) (v : Value) : RunStatus := {|
  run_id := run;
  workflow_id := workflow;
  state := map_state (match str_of v "status" with Some s => s | None => "" end);
  started_at := time v "startTime";
  finished_at := time v "endTime";
  message := str_of v "errorMessage";
  raw := v;
|}.

Definition status_request (url : string) : Request := with_query [("show", "status")] (request h GET url).

Definition status_of (run : RunId) : M (Client R) WorkflowError RunStatus :=
  do! url := ret (job_url run) in
  do! v := json (status_request url) in
  ret (Ok (job_status run (match str_of v "id" with Some id => id | None => run end) v)).

Definition cancel (run : RunId) : M (Client R) WorkflowError unit :=
  do! url := ret (job_url run) in
  ok (action_request url "kill").

Definition list_request (filter : RunFilter) : Request :=
  let len := dec_text (Z.max (match f_limit filter with Some n => n | None => 50 end) 1) in
  with_query ([("jobtype", "wf"); ("len", len)]
              ++ match f_workflow_id filter with Some w => [("filter", "id=" +:+ w)] | None => [] end)
    (request h GET "/oozie/v2/jobs").

Definition entry (job : Value) : result RunStatus WorkflowError :=
  let? id := ok_or (str_of job "id") (Parse "oozie: workflow entry missing id") in
  Ok (job_status id id job).

(** What remains of the server's answer. *)
Definition select (filter : RunFilter) (runs : list RunStatus) : list RunStatus :=
  let runs := match f_state filter with
              | Some s => List.filter (fun r => bool_decide (state r = s)) runs
              | None => runs
              end in
  match f_limit filter with Some n => take (Z.to_nat n) runs | None => runs end.

Definition list_runs (filter : RunFilter) : M (Client R) WorkflowError (list RunStatus) :=
  do! v := json (list_request filter) in
  ret (let? jobs := ok_or (match S3.value_get v "workflows" with Some x => as_array x | None => None end)
                      (Parse "oozie: jobs response missing workflows") in
       let? runs := collect entry jobs in
       Ok (select filter runs)).

#[export] Instance oozie : WorkflowClient (Client R) := {
  engine := "oozie";
  capabilities := {| can_create := true; can_trigger := true; can_cancel := true; can_list_runs := true |};
  client c := c;
  Workflow.create := create;
  Workflow.trigger := trigger;
  Workflow.status_of := status_of;
  Workflow.cancel := cancel;
  Workflow.list_runs := list_runs;
}.

End Client.
End Oozie.
