(* ===== verification/WorkflowSpec.v ===== *)
(** * What the shell of the workflow calls promises

    [Module ShellFacts] shows that the interleaved calls of one client refine the breaker's
    own machine; [Module GuardFacts] what one guarded call does to the client, and the law
    [WorkflowContract] that every adapter meets; [Module ShellSpec] holds the theorems, that
    a call of [guarded] is a run of the interleaved machine among them. *)

From S2P Require Import Prelude Json Text Rdbms CircuitBreaker Crash Workflow.

Local Open Scope Z_scope.
Local Open Scope ecat_scope.

Module ShellFacts.
Import Breaker Workflow Workflow.Shell.

Section Counting.
Context {A : Type} (p : A -> bool).

Definition count_if (m : gmap nat A) : nat := size (filter (fun kv : nat * A => p kv.2 = true) m).

Lemma count_if_insert m id x :
  m !! id = None -> count_if (<[id := x]> m) = ((if p x then 1 else 0) + count_if m)%nat.
Proof.
  intros Hid. unfold count_if. destruct (p x) eqn:Hx.
  - rewrite map_filter_insert_True by done. rewrite map_size_insert_None; [done|].
    apply map_lookup_filter_None. by left.
  - rewrite map_filter_insert_False by (cbn; congruence). by rewrite delete_id.
Qed.

Lemma count_if_delete m id x :
  m !! id = Some x -> count_if m = ((if p x then 1 else 0) + count_if (delete id m))%nat.
Proof.
  intros Hid. rewrite <- (insert_delete_id m id x) at 1 by done.
  apply count_if_insert. apply lookup_delete_eq.
Qed.

Lemma count_if_update m id x y :
  m !! id = Some x ->
  ((if p x then 1 else 0) + count_if (<[id := y]> m) = (if p y then 1 else 0) + count_if m)%nat.
Proof.
  intros Hid. rewrite (count_if_delete m id x) by done. rewrite <- (insert_delete_eq m id y).
  rewrite count_if_insert by apply lookup_delete_eq. lia.
Qed.

End Counting.

(** The calls in flight are among the holders of a permit. *)
Lemma in_flight_hold (m : gmap nat phase) : (size (omap flight m) <= holders m)%nat.
Proof.
  unfold holders. induction m as [|id x m Hid IH] using map_ind; [done|].
  rewrite (omap_insert flight).
  change (size (filter (fun kv : nat * phase => holds_permit kv.2 = true) (<[id:=x]> m)))
    with (count_if holds_permit (<[id:=x]> m)).
  rewrite count_if_insert by done.
  assert (Ho : omap flight m !! id = None) by (rewrite lookup_omap, Hid; done).
  destruct x; cbn [flight holds_permit];
    [rewrite delete_id by done; exact IH|rewrite delete_id by done; unfold count_if; lia|].
  rewrite map_size_insert_None by done. unfold count_if. lia.
Qed.

Section Machine.
Context (clk : nat -> Z) (warn : bool) (h : WorkflowHttp).

Local Abbreviation step := (step clk warn h).
Local Abbreviation b_step := (Breaker.step clk warn (breaker h) (T := unit) (E := WorkflowError) None).

(** *** Permits *)

Definition permits_inv (s : sys) : Prop :=
  match semaphore h, available s with
  | None, None => True
  | Some n, Some a => (a + holders (calls s))%nat = Z.to_nat n
  | _, _ => False
  end.

Lemma holders_empty : holders ∅ = 0%nat.
Proof. done. Qed.

Local Ltac count_calls :=
  match goal with
  | Hid : ?m !! ?id = Some ?x |- context [<[?id := ?y]> ?m] =>
      pose proof (count_if_update holds_permit m id x y Hid)
  | Hid : ?m !! ?id = Some ?x |- context [delete ?id ?m] =>
      pose proof (count_if_delete holds_permit m id x Hid)
  | Hid : ?m !! ?id = None |- context [<[?id := ?y]> ?m] =>
      pose proof (count_if_insert holds_permit m id y Hid)
  end.

Lemma permits_preserved : inductive_invariant (start clk h) step permits_inv.
Proof.
  split.
  - intros s (_ & Ha & Hc). unfold permits_inv. rewrite Ha, Hc, holders_empty.
    destruct (semaphore h); cbn; [lia|done].
  - intros s s' Hi Hs. unfold permits_inv, holders in *. fold (count_if holds_permit) in *.
    destruct Hs as [s id Hid|s id a Hid Ha|s id probe i t Hid He|s id e i t Hid He|s id probe r i t Hid Hf|s id Hid|s id Hid
                   |s id probe Hid|s]; cbn [available calls set_calls] in *;
      try count_calls; cbn [holds_permit] in *;
      change (size (filter (fun kv : nat * phase => holds_permit kv.2 = true) ?m)) with (count_if holds_permit m) in *;
      destruct (semaphore h) as [n|], (available s) as [[|k]|]; cbn in *; simplify_eq; try done; lia.
Qed.

(** *** The breaker's view *)

Lemma seen_start s : start clk h s -> Breaker.init clk (breaker h) (seen s).
Proof. intros ([t Ht] & _ & Hc). exists t. split; [done|]. cbn. by rewrite Hc. Qed.

Lemma omap_delete_flight id (m : gmap nat phase) : omap flight (delete id m) = delete id (omap flight m).
Proof. by rewrite omap_delete. Qed.

Lemma omap_no_flight id x (m : gmap nat phase) :
  m !! id = Some x -> flight x = None -> delete id (omap flight m) = omap flight m.
Proof. intros Hid Hx. apply delete_id. by rewrite lookup_omap, Hid. Qed.

(** A step of the calls is a step of the breaker, or one it does not see. *)
Lemma seen_step s s' : step s s' -> b_step (seen s) (seen s') \/ seen s' = seen s.
Proof.
  intros Hs. destruct Hs as [s id Hid|s id a Hid Ha|s id probe i t Hid He|s id e i t Hid He|s id probe r i t Hid Hf|s id Hid|s id Hid
                   |s id probe Hid|s]; unfold seen; cbn [brk now calls set_calls available].
  - right. rewrite (omap_insert flight). cbn [flight]. rewrite delete_id; [done|]. by rewrite lookup_omap, Hid.
  - right. rewrite (omap_insert flight). cbn [flight]. by rewrite (omap_no_flight _ _ _ Hid).
  - left. rewrite (omap_insert flight). cbn [flight].
    refine (Breaker.step_admit clk warn (breaker h) None (seen s) id probe i t _ He).
    cbn. by rewrite lookup_omap, Hid.
  - left. rewrite omap_delete_flight, (omap_no_flight _ _ _ Hid) by done.
    exact (Breaker.step_reject clk warn (breaker h) None (seen s) e i t He).
  - left. rewrite omap_delete_flight.
    refine (Breaker.step_finish clk warn (breaker h) None (seen s) id probe r i t _ Hf).
    cbn. by rewrite lookup_omap, Hid.
  - right. by rewrite omap_delete_flight, (omap_no_flight _ _ _ Hid).
  - right. by rewrite omap_delete_flight, (omap_no_flight _ _ _ Hid).
  - left. rewrite omap_delete_flight.
    refine (Breaker.step_cancel clk warn (breaker h) None (seen s) id probe _).
    cbn. by rewrite lookup_omap, Hid.
  - left. exact (Breaker.step_time clk warn (breaker h) None (seen s)).
Qed.

Lemma seen_reachable s :
  reachable (start clk h) step s -> reachable (Breaker.init clk (breaker h)) b_step (seen s).
Proof.
  apply (invariant_reachable _ _ (fun s => reachable (Breaker.init clk (breaker h)) b_step (seen s))).
  split; [intros; by apply reachable_refl, seen_start|].
  intros s1 s2 Hr Hs. destruct (seen_step _ _ Hs) as [Hb|Hb]; [by eapply reachable_step|by rewrite Hb].
Qed.

End Machine.
End ShellFacts.

Module GuardFacts.
Import Drop Breaker Window BreakerFacts Workflow.

Section Guard.
Context {R : Type} (clk : nat -> Z) (warn : bool) (fits : Z -> Client R -> option nat) (h : WorkflowHttp).

Local Abbreviation guarded := (guarded clk warn fits h).

(** A breaker that is open, and whose cool-down the next [n] readings of the clock do not
    reach. *)
Definition shut (n : nat) (c : Client R) : Prop :=
  Breaker.state (inner c) = Open /\
  exists a, opened_at (inner c) = Some a /\
    forall t, (tick c <= t < tick c + n)%nat -> sat_sub (clk t) a < open_duration (breaker h).

(** The engine was not asked, and the breaker did not move. *)
Definition untouched (c c' : Client R) : Prop := remote c' = remote c /\ inner c' = inner c.

#[export] Instance untouched_preorder : PreOrder untouched.
Proof. split; [done|]. intros x y z [H1 H2] [H3 H4]. split; congruence. Qed.

Lemma shut_less n m c : (m <= n)%nat -> shut n c -> shut m c.
Proof. intros Hm (Hs & a & Ha & Ht). split; [done|]. exists a. split; [done|]. intros t Hr. apply Ht. lia. Qed.

(** A call that the breaker refuses. *)
Lemma guarded_refused {A} (m : M R WorkflowError A) (p : proc (Client R)) a :
  Breaker.state (inner (the_world p)) = Open -> opened_at (inner (the_world p)) = Some a ->
  sat_sub (clk (tick (the_world p))) a < open_duration (breaker h) ->
  guarded m p =
    (Ret (Err (Unavailable "circuit breaker is open")),
     {| the_world := {| inner := inner (the_world p); tick := S (tick (the_world p)); remote := remote (the_world p) |};
        left_ := left_ p |}).
Proof.
  intros Hs Ha Ht. unfold Workflow.guarded, enter, elapsed. rewrite Hs, Ha.
  by rewrite (proj2 (Z.leb_gt _ _) Ht).
Qed.

Lemma guarded_shut {A} (m : M R WorkflowError A) p n :
  shut (S n) (the_world p) ->
  exists c', guarded m p = (Ret (Err (Unavailable "circuit breaker is open")), {| the_world := c'; left_ := left_ p |}) /\
             untouched (the_world p) c' /\ shut n c'.
Proof.
  intros (Hs & a & Ha & Ht). eexists. split; [apply (guarded_refused m p a Hs Ha); apply Ht; lia|].
  split; [done|]. split; [done|]. exists a. split; [done|]. intros t Hr. apply Ht. cbn in Hr. lia.
Qed.

(** *** A call the time limit cuts *)

Context (budget : Z) (Hb : timeout h = Some budget).

Lemma guarded_cut {A} (m : M R WorkflowError A) c o :
  Breaker.state (inner c) = Closed -> run_for (fits budget c) m (remote c) None = (Cut, o, None) ->
  guarded m {| the_world := c; left_ := None |} =
    (Ret (Err (Timeout (budget_text budget))),
     {| the_world := settle clk warn h (Err (Timeout (budget_text budget)) : result A WorkflowError)
                       {| inner := inner c; tick := tick c; remote := o |}; left_ := None |}).
Proof.
  intros Hs Hr. unfold Workflow.guarded, enter. cbn [the_world left_]. rewrite Hs, Hb.
  destruct c as [i t r]. cbn in *. by rewrite Hr.
Qed.

(** The readings [t0 .. t0 + n - 1] of the clock fall in the window. *)
Definition in_window (w : SlidingWindow) (t0 n : nat) : Prop :=
  forall t, (t0 <= t < t0 + n)%nat -> sat_sub (clk t) (window_start w) < window w.

Lemma rotate_in w t : sat_sub (clk t) (window_start w) < window w -> rotate clk w t = (w, S t).
Proof. intros Ht. unfold rotate, elapsed. by rewrite (proj2 (Z.leb_gt _ _) Ht). Qed.

(** The failure a cut call counts in a closed breaker. *)
Lemma settle_failure {A} (e : WorkflowError) (c : Client R) :
  Breaker.state (inner c) = Closed -> in_window (win (inner c)) (tick c) 4 ->
  let w := sample (win (inner c)) false in
  let n := u64_add (successes w) (failures w) in
  let trips := (5 <=? n) && f64_ge (ratio w) (cfg_failure_ratio (breaker h)) in
  let c' := settle clk warn h (Err e : result A WorkflowError) c in
  Breaker.state (inner c') = (if trips then Open else Closed) /\ win (inner c') = w /\
  (trips = true -> is_Some (opened_at (inner c'))) /\ remote c' = remote c /\
  (n < 5 -> tick c' = S (S (tick c))).
Proof.
  intros Hs Hin. cbv zeta. unfold settle, finish, record.
  rewrite rotate_in by (apply Hin; lia). set (w := sample (win (inner c)) false).
  change {| successes := successes (win (inner c)); failures := u64_add (failures (win (inner c))) 1;
            window_start := window_start (win (inner c)); window := window (win (inner c)) |} with w.
  assert (Hw : forall t, (tick c <= t < tick c + 4)%nat -> rotate clk w t = (w, S t)).
  { intros t Ht. apply rotate_in. exact (Hin t Ht). }
  assert (Hr : forall t, (tick c <= t < tick c + 4)%nat -> Window.failure_ratio clk w t = (ratio w, w, S t)).
  { intros t Ht. unfold Window.failure_ratio, total, ratio. rewrite Hw by done. by case_match. }
  cbn [Breaker.state with_win]. rewrite Hs. unfold should_open, total. cbn [win with_win]. rewrite Hw by lia.
  destruct (5 <=? u64_add (successes w) (failures w)) eqn:E5; cbn [andb].
  - rewrite Hr by lia. destruct (f64_ge (ratio w) (cfg_failure_ratio (breaker h))).
    + destruct warn; cbn [win with_win]; [rewrite Hr by lia|]; unfold reopen; cbn [Breaker.state win opened_at inner remote tick with_win];
        (split_and!; [done|done|by eexists|done|lia]).
    + cbn [inner remote tick Breaker.state win with_win]. split_and!; [done|done|done|done|lia].
  - cbn [inner remote tick Breaker.state win with_win]. by split_and!.
Qed.

End Guard.

(** *** What every adapter owes to its callers *)

Section Operations.
Context `{EN : Engine R} {S : Type} {WC : WorkflowClient S}.

Inductive Operation :=
| Create (spec : WorkflowSpec)
| Trigger (w : WorkflowId) (params : Value)
| Status (run : RunId)
| Cancel (run : RunId)
| ListRuns (f : RunFilter).

(** An operation, of whose answer only the error is looked at. *)
Definition perform (op : Operation) : M S WorkflowError unit :=
  match op with
  | Create spec => do! _ := create spec in ret (Ok tt)
  | Trigger w v => do! _ := trigger w v in ret (Ok tt)
  | Status r => do! _ := status_of r in ret (Ok tt)
  | Cancel r => do! _ := cancel r in ret (Ok tt)
  | ListRuns f => do! _ := list_runs f in ret (Ok tt)
  end.

(** One operation after the other, whatever they answer. *)
Fixpoint perform_all (ops : list Operation) (p : proc S) : list (outcome WorkflowError unit) * proc S :=
  match ops with
  | [] => ([], p)
  | op :: ops =>
      let '(out, p) := perform op p in
      let '(outs, p) := perform_all ops p in
      (out :: outs, p)
  end.

(** Does the client list the operation among its capabilities?  [status] needs none. *)
Definition listed (op : Operation) : bool :=
  match op with
  | Create _ => can_create capabilities
  | Trigger _ _ => can_trigger capabilities
  | Status _ => true
  | Cancel _ => can_cancel capabilities
  | ListRuns _ => can_list_runs capabilities
  end.

Context (clk : nat -> Z) (h : WorkflowHttp).

(** While the breaker is open, [m] answers that it is, and reads the clock once. *)
Definition refused {A} (m : M S WorkflowError A) : Prop :=
  forall p n, shut clk h (Datatypes.S n) (client (the_world p)) ->
    exists p', m p = (Ret (Err (Unavailable "circuit breaker is open")), p') /\
               untouched (client (the_world p)) (client (the_world p')) /\ shut clk h n (client (the_world p')).

(** Whatever the state, [m] answers [e] and does nothing. *)
Definition rejects {A} (m : M S WorkflowError A) (e : WorkflowError) : Prop := forall p, m p = (Ret (Err e), p).

Definition turned_away {A} (m : M S WorkflowError A) : Prop := refused m \/ exists e, rejects m e.

Lemma refused_bind {A B} (m : M S WorkflowError A) (k : A -> M S WorkflowError B) : refused m -> refused (bind m k).
Proof. intros Hm p n Hs. destruct (Hm p n Hs) as (p' & E & Hp). exists p'. unfold bind. by rewrite E. Qed.

Lemma refused_get {A B} (f : S -> A) (k : A -> M S WorkflowError B) : (forall x, refused (k x)) -> refused (bind (get f) k).
Proof. intros Hk p n Hs. exact (Hk _ p n Hs). Qed.

Lemma rejects_bind {A B} (m : M S WorkflowError A) (k : A -> M S WorkflowError B) e : rejects m e -> rejects (bind m k) e.
Proof. intros Hm p. unfold bind. by rewrite Hm. Qed.

Lemma turned_bind {A B} (m : M S WorkflowError A) (k : A -> M S WorkflowError B) : turned_away m -> turned_away (bind m k).
Proof. intros [H0|[e H0]]; [left; by apply refused_bind|right; exists e; by apply rejects_bind]. Qed.

Lemma turned_err {A} e : turned_away (ret (Err e) : M S WorkflowError A).
Proof. right. by exists e. Qed.

(** An operation that checks its arguments first. *)
Lemma turned_checked {A B} (r : result A WorkflowError) (k : A -> M S WorkflowError B) :
  (forall x, turned_away (k x)) -> turned_away (bind (ret r) k).
Proof.
  intros Hk. destruct r as [x|e]; [|right; exists e; by intros p].
  destruct (Hk x) as [H0|[e H0]]; [left; exact H0|right; exists e; exact H0].
Qed.

End Operations.

(** An operation of an adapter whose breaker is open is refused, unless its arguments alone
    are reason enough to reject it; and one that the capabilities do not list answers
    [Unsupported] in any state. *)
Class WorkflowContract `{EN : Engine R} {S : Type} {WC : WorkflowClient S} (clk : nat -> Z) (h : WorkflowHttp) := {
  shielded op : turned_away clk h (perform op);
  unlisted op : listed op = false -> exists m, rejects (perform op) (Unsupported m);
}.

Section Shield.
Context `{EN : Engine R} {S : Type} {WC : WorkflowClient S}.
Context (clk : nat -> Z) (h : WorkflowHttp).

(** The operations [ops] of the client leave its engine alone while its breaker is open:
    each answers an error, that of the breaker or that of its own arguments. *)
Definition shields : Prop :=
  (forall ops p, shut clk h (length ops) (client (the_world p)) ->
     exists outs p', perform_all ops p = (outs, p') /\ untouched (client (the_world p)) (client (the_world p')) /\
       Forall2 (fun op out => exists e, out = Ret (Err e) /\
                  (e = Unavailable "circuit breaker is open" \/ rejects (perform op) e)) ops outs) /\
  (forall op, listed op = false -> exists m, rejects (perform op) (Unsupported m)).

Lemma contract_shields : WorkflowContract clk h -> shields.
Proof.
  intros CO. split; [|apply unlisted]. induction ops as [|op ops IH]; intros p Hs.
  { exists [], p. split_and!; [done|done|constructor]. }
  cbn [length] in Hs. cbn [perform_all].
  assert (Hop : exists e p1, perform op p = (Ret (Err e), p1) /\ untouched (client (the_world p)) (client (the_world p1)) /\
            shut clk h (length ops) (client (the_world p1)) /\ (e = Unavailable "circuit breaker is open" \/ rejects (perform op) e)).
  { destruct (shielded op) as [Hr|[e Hr]].
    - destruct (Hr p _ Hs) as (p1 & E & Hu & H1). exists (Unavailable "circuit breaker is open"), p1. eauto.
    - exists e, p. split_and!; [apply Hr|done|apply (shut_less _ _ (Datatypes.S (length ops))); [lia|done]|by right]. }
  destruct Hop as (e & p1 & E & Hu & H1 & He). destruct (IH p1 H1) as (outs & p' & E' & Hu' & Hf).
  exists (Ret (Err e) :: outs), p'. rewrite E, E'. split_and!; [done|by etrans|]. constructor; [by exists e|done].
Qed.

End Shield.
End GuardFacts.

Module ShellSpec.
Import Drop Breaker Window BreakerFacts Workflow ShellFacts GuardFacts.

(** C36. However the calls of one client interleave, queue and are cancelled, they refine the
    breaker's own machine, which sees exactly the calls that hold a permit and were let
    through; and never more calls than
    the [semaphore] of the client has permits are in flight. *)
Theorem calls_refine_the_breaker clk warn h s :
  (forall n, semaphore h = Some n -> 0 <= n) ->
  reachable (Shell.start clk h) (Shell.step clk warn h) s ->
  reachable (Breaker.init clk (breaker h)) (Breaker.step clk warn (breaker h) (T := unit) (E := WorkflowError) None)
    (Shell.seen s) /\
  match semaphore h with
  | Some n => Z.of_nat (size (Breaker.inflight (Shell.seen s))) <= n
  | None => True
  end.
Proof.
  intros Hn Hr. split; [by apply seen_reachable|].
  pose proof (invariant_reachable _ _ _ _ (permits_preserved clk warn h) Hr) as Hp. unfold permits_inv in Hp.
  pose proof (in_flight_hold (Shell.calls s)) as Hf.
  destruct (semaphore h) as [n|]; [|done]. specialize (Hn n eq_refl).
  destruct (Shell.available s) as [a|]; [|done]. change (Breaker.inflight (Shell.seen s)) with (omap Shell.flight (Shell.calls s)). lia.
Qed.

(** A waiting call of a client that [new] built finds a permit as soon as no other call
    holds one: no configuration makes it wait for ever. *)
Theorem waiting_call_can_go clk warn tls cfg h s :
  new tls cfg = Ok h -> (forall n, max_concurrency cfg = Some n -> 0 <= n) ->
  reachable (Shell.start clk h) (Shell.step clk warn h) s ->
  Shell.holders (Shell.calls s) = 0%nat ->
  Shell.acquire (Shell.available s) <> None.
Proof.
  intros Hnew Hn Hr H0.
  pose proof (invariant_reachable _ _ _ _ (permits_preserved clk warn h) Hr) as Hp. unfold permits_inv in Hp.
  assert (Hs : forall n, semaphore h = Some n -> 0 < n).
  { unfold new in Hnew. destruct tls; cbn in Hnew; simplify_eq. cbn. unfold concurrency_limit, DEFAULT_MAX_CONCURRENCY.
    intros n. destruct (max_concurrency cfg) as [m|] eqn:Hm; [|intros; simplify_eq; lia].
    specialize (Hn m eq_refl). destruct (m =? 0) eqn:Hz; intros; simplify_eq. bool_prop. lia. }
  destruct (semaphore h) as [n|], (Shell.available s) as [[|a]|]; cbn; try done. specialize (Hs n eq_refl). lia.
Qed.

Section Hung.
Context {R : Type} (clk : nat -> Z) (warn : bool) (fits : Z -> Client R -> option nat) (h : WorkflowHttp).
Context {A : Type} (fut : M R WorkflowError A).

(** The same call, again and again: the answers, and the client that is left. *)
Fixpoint in_a_row (n : nat) (p : proc (Client R)) : list (outcome WorkflowError A) * proc (Client R) :=
  match n with
  | O => ([], p)
  | S n =>
      let '(out, p) := guarded clk warn fits h fut p in
      let '(outs, p) := in_a_row n p in
      (out :: outs, p)
  end.

(** A closed breaker with [n] failures and no success in its window, which the next [r]
    readings of the clock do not leave. *)
Definition failing (n : Z) (r : nat) (c : Client R) : Prop :=
  Breaker.state (inner c) = Closed /\ successes (win (inner c)) = 0 /\ failures (win (inner c)) = n /\
  in_window clk (win (inner c)) (tick c) r.

Context (budget : Z) (Hb : timeout h = Some budget).
Context (Hfut : forall c, exists o, run_for (fits budget c) fut (remote c) None = (Cut, o, None)).

Lemma sampled_failure n w :
  0 <= n < 5 -> successes w = 0 -> failures w = n ->
  successes (sample w false) = 0 /\ failures (sample w false) = n + 1 /\
  u64_add (successes (sample w false)) (failures (sample w false)) = n + 1.
Proof.
  intros Hn Hs Hf. cbn [sample successes failures]. rewrite Hs, Hf.
  assert (Ha : u64_add n 1 = n + 1) by (unfold u64_add; apply wrap_small; lia). rewrite Ha.
  split_and!; [done|done|]. unfold u64_add; apply wrap_small; lia.
Qed.

Lemma failing_step n r c :
  failing n (4 + r) c -> 0 <= n < 4 ->
  exists c', guarded clk warn fits h fut {| the_world := c; left_ := None |} =
               (Ret (Err (Timeout (budget_text budget))), {| the_world := c'; left_ := None |}) /\
             failing (n + 1) (2 + r) c'.
Proof.
  intros (H1 & H2 & H3 & H4) Hn. destruct (Hfut c) as [o Ho].
  rewrite (guarded_cut clk warn fits h budget Hb fut c o H1 Ho). eexists. split; [done|].
  pose proof (settle_failure clk warn h (A := A) (Timeout (budget_text budget))
                {| inner := inner c; tick := tick c; remote := o |} H1) as Hset.
  destruct Hset as (E1 & E2 & _ & _ & E5); [intros t Ht; apply H4; cbn in *; lia|].
  destruct (sampled_failure n (win (inner c)) ltac:(lia) H2 H3) as (S1 & S2 & S3). cbn [inner tick] in *.
  rewrite S3 in E1, E5. replace (5 <=? n + 1) with false in E1 by lia. unfold failing. rewrite E1, E2, E5 by lia.
  split_and!; [done|done|done|]. intros t Ht. apply H4. lia.
Qed.

Lemma tripping_step c :
  failing 4 4 c -> f64_ge f64_one (cfg_failure_ratio (breaker h)) = true ->
  exists c', guarded clk warn fits h fut {| the_world := c; left_ := None |} =
               (Ret (Err (Timeout (budget_text budget))), {| the_world := c'; left_ := None |}) /\
             Breaker.state (inner c') = Open /\ is_Some (opened_at (inner c')).
Proof.
  intros (H1 & H2 & H3 & H4) Hr. destruct (Hfut c) as [o Ho].
  rewrite (guarded_cut clk warn fits h budget Hb fut c o H1 Ho). eexists. split; [done|].
  pose proof (settle_failure clk warn h (A := A) (Timeout (budget_text budget))
                {| inner := inner c; tick := tick c; remote := o |} H1 H4) as (E1 & _ & E4 & _).
  destruct (sampled_failure 4 (win (inner c)) ltac:(lia) H2 H3) as (S1 & S2 & S3). cbn [inner tick] in *.
  assert (Ho1 : ratio (sample (win (inner c)) false) = f64_one).
  { unfold ratio. rewrite S3, S2. vm_compute. reflexivity. }
  rewrite S3, Ho1, Hr in E1, E4. split; [done|by apply E4].
Qed.

(** *** Calls that each outlast the window *)

(** The window of the breaker has run out when the call ends. *)
Definition outlasted (c : Client R) : Prop :=
  window (win (inner c)) <= sat_sub (clk (tick c)) (window_start (win (inner c))).

Lemma outlasted_step c :
  Breaker.state (inner c) = Closed -> outlasted c ->
  exists c', guarded clk warn fits h fut {| the_world := c; left_ := None |} =
               (Ret (Err (Timeout (budget_text budget))), {| the_world := c'; left_ := None |}) /\
             Breaker.state (inner c') = Closed.
Proof.
  intros Hs Hold. destruct (Hfut c) as [o Ho].
  rewrite (guarded_cut clk warn fits h budget Hb fut c o Hs Ho). eexists. split; [done|].
  unfold settle, finish, record, rotate, elapsed. cbn [inner tick]. rewrite (proj2 (Z.leb_le _ _) Hold).
  cbn [Breaker.state with_win successes failures window_start window]. rewrite Hs.
  unfold should_open, total, rotate, elapsed. cbn [win with_win successes failures window_start window].
  destruct (window (win (inner c)) <=? _); cbn [successes failures]; vm_compute (u64_add 0 0); vm_compute (u64_add 0 1);
    vm_compute (u64_add 0 1); change (5 <=? 0) with false; change (5 <=? 1) with false; done.
Qed.

End Hung.

(** C37. A backend that hangs opens the breaker, if it is hit often enough: because the time
    limit is inside, each call it cuts is a failure; five of them with nothing else, all
    ending inside one window of the breaker (the twelve readings of the clock they take do
    not leave it), open the breaker, and every call until the cool-down is refused with
    [Unavailable] and leaves the backend alone.  That takes time limits well below the window
    or concurrent calls: one after the other, calls that run to the default limit never
    fill a window ([sequential_timeouts_never_open]). *)
Theorem hung_backend_opens_breaker R clk warn fits h A (fut : M R WorkflowError A) budget c :
  timeout h = Some budget ->
  (forall c, exists o, run_for (fits budget c) fut (remote c) None = (Cut, o, None)) ->
  f64_ge f64_one (cfg_failure_ratio (breaker h)) = true ->
  failing clk 0 12 c ->
  exists c5 a,
    in_a_row clk warn fits h fut 5 {| the_world := c; left_ := None |} =
      (repeat (Ret (Err (Timeout (budget_text budget)))) 5, {| the_world := c5; left_ := None |}) /\
    Breaker.state (inner c5) = Open /\ opened_at (inner c5) = Some a /\
    (sat_sub (clk (tick c5)) a < open_duration (breaker h) ->
     forall B (other : M R WorkflowError B) q,
       guarded clk warn fits h other {| the_world := c5; left_ := q |} =
         (Ret (Err (Unavailable "circuit breaker is open")),
          {| the_world := {| inner := inner c5; tick := S (tick c5); remote := remote c5 |}; left_ := q |})).
Proof.
  intros Hb Hf Hr H0.
  destruct (failing_step clk warn fits h fut budget Hb Hf 0 8 c H0 ltac:(lia)) as (c1 & E1 & H1).
  destruct (failing_step clk warn fits h fut budget Hb Hf 1 6 c1 H1 ltac:(lia)) as (c2 & E2 & H2).
  destruct (failing_step clk warn fits h fut budget Hb Hf 2 4 c2 H2 ltac:(lia)) as (c3 & E3 & H3).
  destruct (failing_step clk warn fits h fut budget Hb Hf 3 2 c3 H3 ltac:(lia)) as (c4 & E4 & H4).
  destruct (tripping_step clk warn fits h fut budget Hb Hf c4 H4 Hr) as (c5 & E5 & Hs & [a Ha]).
  exists c5, a. cbn [in_a_row]. rewrite E1, E2, E3, E4, E5. do 3 (split; [done|]).
  intros Ht B other q. exact (guarded_refused clk warn fits h other {| the_world := c5; left_ := q |} a Hs Ha Ht).
Qed.

(** The other side: calls that the limit cuts one after the other, each ending when the
    window has run out, as it has when the limit is as long as the window, never open the
    breaker, however many they are. *)
Theorem sequential_timeouts_never_open R clk warn fits h A (fut : M R WorkflowError A) budget n c :
  timeout h = Some budget ->
  (forall c, exists o, run_for (fits budget c) fut (remote c) None = (Cut, o, None)) ->
  Breaker.state (inner c) = Closed ->
  (forall k, (k < n)%nat -> outlasted clk (the_world (in_a_row clk warn fits h fut k {| the_world := c; left_ := None |}).2)) ->
  exists c', in_a_row clk warn fits h fut n {| the_world := c; left_ := None |} =
      (repeat (Ret (Err (Timeout (budget_text budget)))) n, {| the_world := c'; left_ := None |}) /\
    Breaker.state (inner c') = Closed.
Proof.
  intros Hb Hf. revert c. induction n as [|n IH]; intros c Hs Hold; [by exists c|].
  destruct (outlasted_step clk warn fits h fut budget Hb Hf c Hs (Hold 0%nat ltac:(lia))) as (c1 & E1 & H1).
  destruct (IH c1 H1) as (c' & E & H').
  { intros k Hk. specialize (Hold (Datatypes.S k) ltac:(lia)). cbn [in_a_row] in Hold. rewrite E1 in Hold.
    by destruct (in_a_row clk warn fits h fut k {| the_world := c1; left_ := None |}). }
  exists c'. cbn [in_a_row repeat]. by rewrite E1, E.
Qed.

(** *** A guarded call is a run of the shell *)

(** The breaker looks at the kind of an answer only. *)
Lemma finish_kind {A} clk warn cfg i (r : result A WorkflowError) t :
  Breaker.finish clk warn cfg None i r t =
  Breaker.finish clk warn cfg None i (match r with Ok _ => Ok tt | Err e => Err e end : result unit WorkflowError) t.
Proof. by destruct r. Qed.

Lemma shell_end R A clk warn h id probe (r : result A WorkflowError) (c : Client R) (s : Shell.sys) :
  Shell.calls s !! id = Some (Shell.InFlight probe) -> Shell.brk s = inner c -> Shell.now s = tick c ->
  Shell.step clk warn h s (Shell.set_calls s (inner (settle clk warn h r c)) (tick (settle clk warn h r c))
                             (Shell.release (Shell.available s)) (delete id (Shell.calls s))).
Proof.
  intros Hid Hb Ht. unfold settle. destruct (Breaker.finish _ _ _ _ _ _ _) as [i t] eqn:E. cbn [inner tick].
  rewrite finish_kind, <- Hb, <- Ht in E. by eapply Shell.step_end.
Qed.

(** A call of [guarded] that finds a permit free is a run of the machine from its arrival:
    the machine ends with the breaker and the clock of the client, and with the permit back,
    whether the call was refused, ended, was cut or was dropped. *)
Theorem guarded_runs_the_shell R A clk warn fits h (m : M R WorkflowError A) p out p' s id a :
  guarded clk warn fits h m p = (out, p') ->
  Shell.calls s !! id = None -> Shell.acquire (Shell.available s) = Some a ->
  Shell.brk s = inner (the_world p) -> Shell.now s = tick (the_world p) ->
  rtc (Shell.step clk warn h) s
    (Shell.set_calls s (inner (the_world p')) (tick (the_world p')) (Shell.available s) (Shell.calls s)).
Proof.
  intros Hg Hid Ha Hb Ht. destruct s as [b u av cs]. cbn in Hid, Ha, Hb, Ht. subst b u.
  assert (Hrel : Shell.release a = av) by (destruct av as [[|k]|]; cbn in Ha; by simplify_eq/=).
  subst av.
  assert (Hlook : forall x, <[id := x]> cs !! id = Some x) by (intros; apply lookup_insert_eq).
  assert (Hdel : forall x, delete id (<[id := x]> cs) = cs) by (intros; rewrite delete_insert_eq; by apply delete_id).
  eapply rtc_l; [by apply (Shell.step_arrive clk warn h _ id)|].
  eapply rtc_l; [apply (Shell.step_permit clk warn h _ id a); [apply Hlook|exact Ha]|].
  unfold Shell.set_calls. cbn [Shell.brk Shell.now Shell.available Shell.calls]. rewrite insert_insert_eq.
  unfold guarded in Hg. destruct (Breaker.enter _ _ _ _) as [[[e|probe] i] t] eqn:He.
  - simplify_eq. cbn [the_world inner tick]. apply rtc_once. rewrite <- (Hdel Shell.Permitted) at 2.
    exact (Shell.step_reject clk warn h (Shell.Build_sys _ _ a _) id e i t (Hlook _) He).
  - eapply rtc_l; [exact (Shell.step_admit clk warn h (Shell.Build_sys _ _ a _) id probe i t (Hlook _) He)|].
    unfold Shell.set_calls. cbn [Shell.brk Shell.now Shell.available Shell.calls]. rewrite insert_insert_eq.
    apply rtc_once. rewrite <- (Hdel (Shell.InFlight probe)) at 2.
    destruct (run_for _ _ _ _) as [[[r| |] o] l]; [|destruct (timeout h) as [d|]|]; simplify_eq; cbn [the_world];
      first [exact (shell_end _ _ clk warn h id probe _ {| inner := i; tick := t; remote := o |} (Shell.Build_sys i t a _) (Hlook _) eq_refl eq_refl)
            |exact (Shell.step_drop clk warn h (Shell.Build_sys i t a _) id probe (Hlook _))].
Qed.

End ShellSpec.

(** *** Time limits counted by family *)
Module TimeoutSpec.
Import Drop Errors Timeout.

Lemma timeout_counter_inj k k' : timeout_counter k = timeout_counter k' -> k = k'.
Proof. by destruct k, k'. Qed.

(** The slot is the discriminant, as the table of the source numbers them. *)
Lemma timeout_counter_discriminant k : timeout_counter k = discriminant k.
Proof. by destruct k. Qed.

(** A call either ends as its future does, and counts nothing, or is cut by its limit: then
    the error is that of a timeout, one is added to the counter of its family, and the
    counters of the other families stay. *)
Theorem timeouts_count_by_family W E (TE : TimeoutError E) fits A kind timeout (fut : M W E A) p out p' :
  run_with_timeout fits kind timeout fut p = (out, p') ->
  (TIMEOUTS (the_world p') = TIMEOUTS (the_world p) /\
   exists l q, fut {| the_world := outside (the_world p); left_ := l |} = (out, q) /\
               outside (the_world p') = the_world q) \/
  (exists d, timeout = Some d /\ out = Ret (Err (from_timeout kind d)) /\
     (exists l q, fut {| the_world := outside (the_world p); left_ := l |} = (Died, q) /\
                  outside (the_world p') = the_world q) /\
     forall k, TIMEOUTS (the_world p') !! timeout_counter k =
       (if bool_decide (k = kind) then fun o => option_map (fun n => u64_add n 1) o else id)
         (TIMEOUTS (the_world p) !! timeout_counter k)).
Proof.
  unfold run_with_timeout, run_for. set (lim := match timeout with Some d => _ | None => _ end).
  destruct (fut _) as [[r|] q] eqn:Hf.
  - intros. simplify_eq/=. left. split; [done|]. eauto.
  - destruct (match left_ p with Some l => _ | None => false end); [intros; simplify_eq/=; left; split; [done|]; eauto|].
    destruct timeout as [d|]; intros; simplify_eq/=; [|left; split; [done|]; eauto].
    right. exists d. do 2 (split; [done|]). split; [eauto|]. intros k. unfold count.
    case_bool_decide as Hk.
    + subst k. cbn [the_world TIMEOUTS]. by rewrite list_lookup_alter_eq.
    + cbn [the_world TIMEOUTS]. rewrite list_lookup_alter_ne; [done|]. intros Heq. by apply Hk, timeout_counter_inj.
Qed.

End TimeoutSpec.

Module ShellDemo.
Import Drop Breaker Window BreakerFacts Workflow ShellFacts GuardFacts ShellSpec.

Definition demo_http : WorkflowHttp := {|
  base_url := "http://engine"; username := None; password := None; bearer_token := None; http_headers := [];
  timeout := query_timeout None; breaker := BreakerConfig_default; semaphore := concurrency_limit (Some 2) |}.

Definition still (_ : nat) : Z := 7.

(** Two calls in flight, a third that waits. *)
Definition busy : Shell.sys := {|
  Shell.brk := (Breaker.new still BreakerConfig_default 0).1; Shell.now := 1; Shell.available := Some 0%nat;
  Shell.calls := {[ 1%nat := Shell.InFlight false; 2%nat := Shell.InFlight false; 3%nat := Shell.Waiting ]} |}.

Definition at_start : Shell.sys := {|
  Shell.brk := (Breaker.new still BreakerConfig_default 0).1; Shell.now := 1; Shell.available := Some 2%nat; Shell.calls := ∅ |}.

Lemma arrive_and_go s id i t :
  Shell.calls s !! id = None -> Shell.brk s = i -> Shell.now s = t -> Breaker.state i = Closed ->
  forall n, Shell.available s = Some (Datatypes.S n) ->
  reachable (Shell.start still demo_http) (Shell.step still true demo_http) s ->
  reachable (Shell.start still demo_http) (Shell.step still true demo_http)
    {| Shell.brk := i; Shell.now := t; Shell.available := Some n; Shell.calls := <[id := Shell.InFlight false]> (Shell.calls s) |}.
Proof.
  intros Hid Hi Ht Hc n Ha Hr. destruct s as [b u a m]. cbn in *. subst b u a.
  pose proof (reachable_step _ _ _ _ Hr (Shell.step_arrive still true demo_http (Shell.Build_sys i t (Some (S n)) m) id Hid)) as H1.
  assert (Hw : Shell.calls (Shell.set_calls {| Shell.brk := i; Shell.now := t; Shell.available := Some (S n); Shell.calls := m |} i t
                 (Some (S n)) (<[id := Shell.Waiting]> m)) !! id = Some Shell.Waiting) by apply lookup_insert_eq.
  pose proof (reachable_step _ _ _ _ H1 (Shell.step_permit still true demo_http _ id (Some n) Hw eq_refl)) as H2.
  cbn [Shell.set_calls Shell.calls Shell.brk Shell.now] in H2.
  refine (eq_rect _ _ (reachable_step _ _ _ _ H2 (Shell.step_admit still true demo_http _ id false i t _ _)) _ _).
  - apply lookup_insert_eq.
  - cbn. unfold enter. by rewrite Hc.
  - cbn. unfold Shell.set_calls. cbn. by rewrite !insert_insert_eq.
Qed.

Definition after (m : gmap nat Shell.phase) (a : nat) : Shell.sys := {|
  Shell.brk := (Breaker.new still BreakerConfig_default 0).1; Shell.now := 1; Shell.available := Some a; Shell.calls := m |}.
Definition one_call : gmap nat Shell.phase := <[2%nat := Shell.InFlight false]> ∅.
Definition two_calls : gmap nat Shell.phase := <[1%nat := Shell.InFlight false]> one_call.

Lemma busy_reachable : reachable (Shell.start still demo_http) (Shell.step still true demo_http) busy.
Proof.
  assert (H0 : reachable (Shell.start still demo_http) (Shell.step still true demo_http) at_start).
  { apply reachable_refl. split; [by exists 0%nat|]. split; reflexivity. }
  pose proof (arrive_and_go at_start 2%nat _ _ eq_refl eq_refl eq_refl eq_refl 1%nat eq_refl H0) as H1.
  pose proof (arrive_and_go (after one_call 1) 1%nat _ _ eq_refl eq_refl eq_refl eq_refl 0%nat eq_refl H1) as H2.
  refine (eq_rect _ _ (reachable_step _ _ _ _ H2 (Shell.step_arrive still true demo_http (after two_calls 0) 3%nat eq_refl)) _ _).
  reflexivity.
Qed.

Lemma calls_refine_the_breaker_witness :
  Z.of_nat (size (Breaker.inflight (Shell.seen busy))) <= 2.
Proof.
  refine (proj2 (calls_refine_the_breaker still true demo_http busy _ busy_reachable)).
  intros n [= <-]. discriminate.
Defined.

Definition fresh_client : Client nat := {| inner := (Breaker.new still BreakerConfig_default 0).1; tick := 1; remote := 4%nat |}.
Definition hang : M nat WorkflowError unit := effect (fun r => (Ok tt, Datatypes.S r)).
Definition at_once (_ : Z) (_ : Client nat) : option nat := Some 0%nat.

(** A client whose limit is one second, and a clock that moves on by a second with every
    reading, so that two pass between the end of a call and that of the next. *)
Definition brief_http : WorkflowHttp := {|
  base_url := "http://engine"; username := None; password := None; bearer_token := None; http_headers := [];
  timeout := query_timeout (Some 1); breaker := BreakerConfig_default; semaphore := concurrency_limit None |}.
Definition ticking (t : nat) : Z := secs (Z.of_nat t).
Definition ticking_client : Client nat := {| inner := (Breaker.new ticking BreakerConfig_default 0).1; tick := 1; remote := 4%nat |}.

Lemma hung_backend_opens_breaker_witness :
  exists c5 a,
    in_a_row ticking true at_once brief_http hang 5 {| the_world := ticking_client; left_ := None |} =
      (repeat (Ret (Err (Timeout (budget_text (secs 1))))) 5, {| the_world := c5; left_ := None |}) /\
    Breaker.state (inner c5) = Open /\ opened_at (inner c5) = Some a /\
    (sat_sub (ticking (tick c5)) a < open_duration (breaker brief_http) ->
     forall B (other : M nat WorkflowError B) q,
       guarded ticking true at_once brief_http other {| the_world := c5; left_ := q |} =
         (Ret (Err (Unavailable "circuit breaker is open")),
          {| the_world := {| inner := inner c5; tick := Datatypes.S (tick c5); remote := remote c5 |}; left_ := q |})).
Proof.
  apply (hung_backend_opens_breaker nat ticking true at_once brief_http unit hang (secs 1) ticking_client).
  - reflexivity.
  - intros c. exists (remote c). reflexivity.
  - vm_compute. reflexivity.
  - do 3 (split; [reflexivity|]). intros t Ht. change (tick ticking_client) with 1%nat in Ht.
    do 13 (destruct t as [|t]; [first [lia|vm_compute; reflexivity]|]). lia.
Defined.

(** The default limit: every call, with its three readings at the end, ends half a minute
    after the one before. *)
Definition half_minutes (t : nat) : Z := secs (30 * (Z.of_nat (t + 2) / 3)).
Definition slow_client : Client nat := {| inner := (Breaker.new half_minutes BreakerConfig_default 0).1; tick := 1; remote := 4%nat |}.

Lemma sequential_timeouts_never_open_witness :
  exists c', in_a_row half_minutes true at_once demo_http hang 20 {| the_world := slow_client; left_ := None |} =
      (repeat (Ret (Err (Timeout (budget_text (secs 30))))) 20, {| the_world := c'; left_ := None |}) /\
    Breaker.state (inner c') = Closed.
Proof.
  apply (sequential_timeouts_never_open nat half_minutes true at_once demo_http unit hang (secs 30) 20 slow_client).
  - reflexivity.
  - intros c. exists (remote c). reflexivity.
  - reflexivity.
  - intros k Hk. do 20 (destruct k as [|k]; [vm_compute; discriminate|]). lia.
Defined.

End ShellDemo.
