(* ===== verification/EnginesSpec.v ===== *)
(** * What the four workflow adapters promise

    [Module Contracts] shows that each adapter meets [WorkflowContract], [Module ContractSpec]
    what that means for the engine of each;
    the other modules hold the theorems about one engine each. *)

From Stdlib Require Import Ascii.
From S2P Require Import Prelude Json Text Rdbms CircuitBreaker Crash SagaSql S3Sink OrmDialect XaSqlx ClickSink Security SecuritySpec Workflow WorkflowSpec Engines.

Local Open Scope Z_scope.
Local Open Scope ecat_scope.

Module Contracts.
Import Workflow GuardFacts.

(** A client that is nothing more than its [Client]: Airflow, DolphinScheduler and Oozie. *)
Section Plain.
Context `{EN : Engine R} {WC : WorkflowClient (Client R)} (clk : nat -> Z) (warn : bool) (fits : Z -> Client R -> option nat).
Context (h : WorkflowHttp) (same : forall c, client c = c).

Lemma guarded_refuses {A} (m : M R WorkflowError A) : refused clk h (guarded clk warn fits h m).
Proof.
  intros p n Hs. rewrite same in Hs. destruct (guarded_shut clk warn fits h m p n Hs) as (c' & E & Hu & Hn).
  eexists. split; [exact E|]. cbn [the_world]. by rewrite !same.
Qed.

Lemma guarded_turned {A} (m : M R WorkflowError A) : turned_away clk h (guarded clk warn fits h m).
Proof. left. apply guarded_refuses. Qed.

End Plain.

Ltac turned :=
  repeat first
    [ by apply turned_err | by apply guarded_turned
    | apply turned_checked; intros ?
    | left; apply refused_get; intros ?; first [by apply guarded_refuses|apply refused_bind; by apply guarded_refuses]
    | apply turned_bind
    | match goal with |- turned_away _ _ (if ?x then _ else _) => destruct x end ].

Section Engines.
Context {R : Type} `{JP : JsonParse} `{JU : !JsonU64} `{EN : !Engine R} `{ET : EngineTexts} `{XM : Oozie.Xml}.
Context (clk : nat -> Z) (warn : bool) (fits : Z -> Client R -> option nat).

#[export] Instance airflow_contract nanos a :
  WorkflowContract (WC := Airflow.airflow clk warn fits nanos a) clk (Airflow.http a).
Proof.
  split.
  - intros []; cbn; apply turned_bind;
      unfold Airflow.create, Airflow.trigger, Airflow.status_of, Airflow.cancel, Airflow.list_runs; turned.
  - intros []; try done. intros _. eexists. by intros p.
Qed.

#[export] Instance dolphin_contract now d :
  WorkflowContract (WC := Dolphin.dolphin clk warn fits now d) clk (Dolphin.http d).
Proof.
  split; [|by intros []].
  intros []; cbn; apply turned_bind;
    unfold Dolphin.create, Dolphin.trigger, Dolphin.status_of, Dolphin.cancel, Dolphin.list_runs; turned.
Qed.

#[export] Instance oozie_contract h : WorkflowContract (WC := Oozie.oozie clk warn fits h) clk h.
Proof.
  split; [|by intros []].
  intros []; cbn; apply turned_bind;
    unfold Oozie.create, Oozie.trigger, Oozie.status_of, Oozie.cancel, Oozie.list_runs, Oozie.json, Oozie.ok; turned.
Qed.

(** The session of Azkaban is state of the adapter, not of the client. *)
Section AzkabanShield.
Context (a : Azkaban.AzkabanClient).
#[local] Existing Instance Azkaban.azkaban.
Local Abbreviation azkaban := (Azkaban.azkaban clk warn fits a).

Lemma azkaban_refuses {A} (m : M R WorkflowError A) :
  refused (WC := azkaban) clk (Azkaban.http a) (Azkaban.guarded clk warn fits a m).
Proof.
  intros p n Hs. destruct (guarded_shut clk warn fits (Azkaban.http a) m
    {| the_world := Azkaban.client (the_world p); left_ := left_ p |} n Hs) as (c' & E & Hu & Hn).
  unfold Azkaban.guarded, Azkaban.on_client. rewrite E. eexists. split; [done|]. by split.
Qed.

(** Without a session the login is refused; with one, the request, which is no reason to log
    in again. *)
Lemma azkaban_call_refuses build : refused (WC := azkaban) clk (Azkaban.http a) (Azkaban.call clk warn fits a build).
Proof.
  intros p n Hs. unfold Azkaban.call, Azkaban.session, Azkaban.login, Azkaban.attempt, bind, try, get, ret.
  destruct (Azkaban.session_slot (the_world p)) as [sid|].
  - match goal with |- context [Azkaban.guarded clk warn fits a ?m p] => destruct (azkaban_refuses m p n Hs) as (p' & E & Hp) end.
    exists p'. by rewrite E.
  - match goal with |- context [Azkaban.guarded clk warn fits a ?m p] => destruct (azkaban_refuses m p n Hs) as (p' & E & Hp) end.
    exists p'. by rewrite E.
Qed.

#[export] Instance azkaban_contract : WorkflowContract (WC := azkaban) clk (Azkaban.http a).
Proof.
  split.
  - intros []; cbn; apply turned_bind;
      unfold Azkaban.create, Azkaban.trigger, Azkaban.status_of, Azkaban.cancel, Azkaban.list_runs;
      repeat first [by apply turned_err | apply turned_checked; intros ?
      | match goal with |- turned_away _ _ (match ?x with _ => _ end) => destruct x end
      | apply turned_bind; left; apply azkaban_call_refuses].
  - intros []; try done. intros _. eexists. by intros p.
Qed.

End AzkabanShield.
End Engines.
End Contracts.

Module ContractSpec.
Import Workflow GuardFacts Contracts.

(** C38. While its breaker is open, no engine hears of any operation of its adapter: for the
    adapters of Airflow, Azkaban, DolphinScheduler and Oozie alike, whatever operations
    follow one another within the cool-down, each answers an error, [Unavailable] of the
    breaker or, in any state the same, the error of its own arguments, while the engine and
    the breaker stay as they are; and an operation that the capabilities do not list answers
    [Unsupported] whatever the state. *)
Theorem open_breaker_shields_the_engine R (JN : JsonNumber) (JT : JsonText) (JP : JsonParse) (JU : JsonU64) (EN : Engine R)
    (ET : EngineTexts) (XM : Oozie.Xml) clk warn fits nanos now airflow azkaban dolphin h :
  shields (WC := Airflow.airflow clk warn fits nanos airflow) clk (Airflow.http airflow) /\
  shields (WC := Azkaban.azkaban clk warn fits azkaban) clk (Azkaban.http azkaban) /\
  shields (WC := Dolphin.dolphin clk warn fits now dolphin) clk (Dolphin.http dolphin) /\
  shields (WC := Oozie.oozie clk warn fits h) clk h.
Proof. split_and!; apply contract_shields, _. Qed.

End ContractSpec.

(** ** Airflow *)
Module AirflowFacts.
Import Workflow SecuritySpec Airflow.

Lemma hex_pair a :
  Security.hex_val (byte_of (upper_digit (byte_of a / 16))) = Some (byte_of a / 16) /\
  Security.hex_val (byte_of (upper_digit (byte_of a mod 16))) = Some (byte_of a mod 16).
Proof. destruct a as [[] [] [] [] [] [] [] []]; by vm_compute. Qed.

Lemma unreserved_plain a : unreserved a = true -> byte_of a <> 37.
Proof. destruct a as [[] [] [] [] [] [] [] []]; vm_compute; congruence. Qed.

Lemma segment_encodes s : encodes (bytes_of s) (bytes_of (segment s)).
Proof.
  induction s as [|a s IH]; [constructor|]. cbn [segment bytes_of]. destruct (unreserved a) eqn:Ha.
  - cbn [bytes_of]. constructor; [by apply unreserved_plain|done].
  - cbn [bytes_of]. destruct (hex_pair a) as [H1 H2].
    replace (byte_of a) with (byte_of a / 16 * 16 + byte_of a mod 16) at 1 by (pose proof (Z.div_mod (byte_of a) 16); lia).
    by constructor.
Qed.

(** Decoding a segment gives back what was encoded. *)
Lemma segment_decodes s : Security.decode_bytes (bytes_of (segment s)) = bytes_of s.
Proof. apply decode_encoded, segment_encodes. Qed.

Lemma segment_inj s t : segment s = segment t -> s = t.
Proof. intros H. apply bytes_of_inj. by rewrite <- segment_decodes, H, segment_decodes. Qed.

Lemma segment_no_slash s : count_char "/"%char (segment s) = 0%nat.
Proof.
  assert (Hd : forall n, 0 <= n < 16 -> Ascii.eqb (upper_digit n) "/"%char = false).
  { intros n Hn. assert (Hc : n = 0 \/ n = 1 \/ n = 2 \/ n = 3 \/ n = 4 \/ n = 5 \/ n = 6 \/ n = 7 \/ n = 8 \/ n = 9 \/ n = 10
      \/ n = 11 \/ n = 12 \/ n = 13 \/ n = 14 \/ n = 15) by lia. by repeat destruct Hc as [->|Hc]; subst. }
  induction s as [|a s IH]; [done|]. cbn [segment]. pose proof (byte_of_range a). destruct (unreserved a) eqn:Ha.
  - cbn [count_char]. rewrite IH. destruct (Ascii.eqb_spec a "/"%char) as [->|]; [by vm_compute in Ha|done].
  - cbn [count_char]. rewrite IH, !Hd; [done|apply Z.mod_pos_bound; lia|].
    split; [apply Z.div_pos; lia|apply Z.div_lt_upper_bound; lia].
Qed.

Section Client.
Context `{JN : JsonNumber} (a : AirflowClient).

(** The path of a run is that of no other. *)
Lemma run_path_inj w id w' id' : run_path a w' id' = run_path a w id -> w' = w /\ id' = id.
Proof.
  unfold run_path, path. intros H. do 4 apply sapp_cancel in H.
  assert (Hs : forall x y, split_once "/"%char (segment x +:+ "/dagRuns/" +:+ segment y) = Some (segment x, "dagRuns/" +:+ segment y))
    by (intros; apply split_once_app, segment_no_slash).
  pose proof (Hs w id) as H1. rewrite <- H, Hs in H1. injection H1 as E1 E2. change (segment id' = segment id) in E2.
  split; by apply segment_inj.
Qed.

End Client.
End AirflowFacts.

(** *** What a call that succeeded has seen *)
Module Answers.
Import Drop Workflow.

Section Call.
Context `{EN : Engine R} (clk : nat -> Z) (warn : bool) (fits : Z -> Client R -> option nat) (h : WorkflowHttp).

(** Only the program itself makes an [Ok]. *)
Lemma guarded_ok {A} (m : M R WorkflowError A) p v p' :
  guarded clk warn fits h m p = (Ret (Ok v), p') ->
  exists l q, m {| the_world := remote (the_world p); left_ := l |} = (Ret (Ok v), q) /\
              remote (the_world p') = the_world q.
Proof.
  unfold guarded, run_for. destruct (Breaker.enter _ _ _ _) as [[[e|probe] i] t]; [done|].
  destruct (m _) as [[r|] q] eqn:Hm.
  - intros H. simplify_eq. do 2 eexists. split; [exact Hm|]. cbn. unfold settle. by destruct (Breaker.finish _ _ _ _ _ _ _).
  - destruct (match left_ _ with Some l => _ | None => false end); [done|]. by destruct (timeout h).
Qed.

Lemma bind_ok {W E A B} (m : M W E A) (k : A -> M W E B) p v p' :
  bind m k p = (Ret (Ok v), p') -> exists x q, m p = (Ret (Ok x), q) /\ k x q = (Ret (Ok v), p').
Proof. unfold bind. destruct (m p) as [[[x|e]|] q]; [eauto|done..]. Qed.

Lemma ret_ok {W E A} (r : result A E) (p : proc W) v p' : ret r p = (Ret (Ok v), p') -> r = Ok v /\ p' = p.
Proof. unfold ret. intros. by simplify_eq. Qed.

Lemma get_ok {W E A} (f : W -> A) (p : proc W) v p' :
  (get f : M W E A) p = (Ret (Ok v), p') -> v = f (the_world p) /\ p' = p.
Proof. unfold get. intros. by simplify_eq. Qed.

Lemma effect_ok {W E A} (f : W -> result A E * W) p v p' :
  effect f p = (Ret (Ok v), p') -> f (the_world p) = (Ok v, the_world p').
Proof. unfold effect. destruct (left_ p) as [[|n]|]; [done|..]; destruct (f _) as [r w]; intros; by simplify_eq. Qed.

(** The engine answered the request with a status that says success, and the body could be read. *)
Lemma send_text_ok q p got p' :
  send_text q p = (Ret (Ok got), p') ->
  respond q (the_world p) = (Ok got.1, the_world p') /\ text got.1 = Ok got.2 /\ 200 <= status got.1 < 300.
Proof.
  unfold send_text. intros H. apply bind_ok in H as (answer & p1 & H1 & H). apply effect_ok in H1.
  destruct (respond q (the_world p)) as [x w] eqn:Hr. simplify_eq/=. destruct answer as [resp|e]; [|done].
  apply bind_ok in H as (read & p2 & H2 & H). apply effect_ok in H2. simplify_eq/=.
  destruct (text resp) as [body|e] eqn:Ht; [|done].
  destruct (_ && _) eqn:Hs; [|done]. apply ret_ok in H as [? ->]. simplify_eq/=. bool_prop. by rewrite H1.
Qed.

End Call.
End Answers.

Module AirflowSpec.
Import Workflow Airflow AirflowFacts Answers.

(** The id that [trigger] returns finds the run again: it holds the run that Airflow
    named in its answer to the request for this DAG, [status] and [cancel] take it apart into
    the same DAG and run, and the path they ask for is that of no other run. *)
Theorem triggered_run_is_the_one_addressed R (JN : JsonNumber) (JT : JsonText) (JP : JsonParse) (EN : Engine R) (ET : EngineTexts)
    clk warn fits nanos a w params p run p' :
  count_char "/"%char w = 0%nat ->
  trigger clk warn fits nanos a w params p = (Ret (Ok run), p') ->
  exists resp body v id,
    respond (trigger_request a (nanos (the_world p)) w params) (remote (the_world p)) = (Ok resp, remote (the_world p')) /\
    text resp = Ok body /\ value_parse body = Ok v /\ as_str (index v "dag_run_id") = Some id /\
    split_run run = Ok (w, id) /\
    (forall w' id', run_path a w' id' = run_path a w id -> w' = w /\ id' = id).
Proof.
  intros Hw H. unfold trigger in H. apply bind_ok in H as (now & p0 & H0 & H). apply get_ok in H0 as [-> ->].
  apply bind_ok in H as (v & p1 & H1 & H). apply ret_ok in H as [H ->].
  apply guarded_ok in H1 as (l & q & H1 & ->). unfold send in H1. apply bind_ok in H1 as (got & q1 & Hs & H1).
  apply send_text_ok in Hs as (Hr & Ht & _). apply ret_ok in H1 as [Hv ->].
  destruct (value_parse got.2) as [v'|e] eqn:Hp; cbn in Hv; simplify_eq.
  destruct (as_str (index v "dag_run_id")) as [id|] eqn:Hid; cbn in H; simplify_eq.
  exists got.1, got.2, v, id. do 4 (split; [done|]). split; [|intros w' id'; apply run_path_inj].
  unfold split_run, run_id_of. change (w +:+ "/" +:+ id) with (w +:+ String "/" id). by rewrite split_once_app.
Qed.

(** A filter asks for runs that read back in the state it names; only a cancelled run, which
    Airflow does not tell from a failed one, reads back as failed. *)
Theorem filtered_state_reads_back s t :
  filter_state s = Ok t -> map_state t = match s with Cancelled => Failed | _ => s end.
Proof. by destruct s; intros [= <-]. Qed.

End AirflowSpec.

(** ** Oozie *)
Module OozieFacts.
Import Workflow Oozie.

Lemma take_app a b : take_to (String.length a) (a +:+ b) = a.
Proof.
  unfold take_to. induction a as [|c a IH]; [by destruct b|].
  change (String.substring 0 (S (String.length a)) (String c (a +:+ b)) = String c a). cbn [String.substring]. by rewrite IH.
Qed.

Lemma substring_skip a n b : String.substring (String.length a) n (a +:+ b) = String.substring 0 n b.
Proof. induction a as [|c a IH]; [done|]. exact IH. Qed.

Lemma substring_all b : String.substring 0 (String.length b) b = b.
Proof. induction b as [|c b IH]; [done|]. cbn [String.length String.substring]. by rewrite IH. Qed.

Lemma drop_app a b : drop_to (String.length a) (a +:+ b) = b.
Proof.
  unfold drop_to. rewrite length_sapp, substring_skip.
  replace (String.length a + String.length b - String.length a)%nat with (String.length b) by lia. apply substring_all.
Qed.

Lemma rfind_none c s : count_char c s = 0%nat -> rfind c s = None.
Proof.
  induction s as [|a s IH]; [done|]. cbn [count_char rfind]. destruct (Ascii.eqb a c); [done|]. intros H. by rewrite IH.
Qed.

Lemma rfind_last c before after : count_char c after = 0%nat -> rfind c (before +:+ String c after) = Some (String.length before).
Proof.
  intros H. induction before as [|a s IH].
  - change (rfind c (String c after) = Some 0%nat). cbn [rfind]. by rewrite rfind_none, Ascii.eqb_refl.
  - change (rfind c (String a (s +:+ String c after)) = Some (S (String.length s))). cbn [rfind]. by rewrite IH.
Qed.

Lemma count_char_app c a b : count_char c (a +:+ b) = (count_char c a + count_char c b)%nat.
Proof. induction a as [|x a IH]; [done|]. change (count_char c (String x (a +:+ b)) = (count_char c (String x a) + count_char c b)%nat). cbn [count_char]. rewrite IH. lia. Qed.

(** The text of a closing tag, with the blanks it may hold. *)
Definition end_tag (tag blank : string) : string := "</" +:+ tag +:+ blank +:+ ">".

(** The documentation of quick-xml: after an end tag, [buffer_position] is just past its [>]. *)
Class XmlLaw `{XM : Xml} := {
  end_position xml tag pos : In (End_ tag pos) (read_events xml).1 ->
    exists before blank after, xml = before +:+ end_tag tag blank +:+ after /\
      pos = String.length (before +:+ end_tag tag blank) /\ count_char "<"%char blank = 0%nat;
}.

Lemma find_close_some events fault close pos :
  find_close events fault close = Ok (Some pos) -> close = Some pos \/ In (End_ "configuration" pos) events.
Proof.
  revert close. induction events as [|[tag q|tag|] events IH]; intros close; cbn [find_close].
  - destruct fault as [[? ?]|]; intros; simplify_eq. by left.
  - intros H. apply IH in H as [H|H]; [|right; by right]. destruct close as [c|]; [by left|].
    destruct (String.eqb_spec tag "configuration") as [->|]; [|done]. simplify_eq. right. by left.
  - destruct close as [c|]; [|destruct (String.eqb tag "configuration"); [done|]];
      intros H; apply IH in H as [H|H]; (by left) || (right; by right).
  - intros H. apply IH in H as [H|H]; [by left|right; by right].
Qed.

End OozieFacts.

Module OozieSpec.
Import Workflow Oozie OozieFacts.

(** A definition that is submitted is the caller's document with the properties of the
    parameters, in order, put right before a closing [</configuration>] tag; everything else
    stays as it was, and without parameters nothing changes. *)
Theorem params_go_inside_configuration (JN : JsonNumber) (JT : JsonText) (XM : Xml) (XL : XmlLaw) xml params out :
  inject_params xml params = Ok out ->
  exists props before blank after,
    properties params = Ok props /\
    xml = before +:+ end_tag "configuration" blank +:+ after /\
    out = before +:+ String.concat "" props +:+ end_tag "configuration" blank +:+ after /\
    (params = VNull -> out = xml).
Proof.
  unfold inject_params. destruct (properties params) as [props|e] eqn:Hp; [|done]. cbn [rbind].
  destruct (read_events xml) as [events fault] eqn:Hr.
  destruct (find_close events fault None) as [[pos|]|e] eqn:Hc; [|done..]. cbn [rbind ok_or].
  apply find_close_some in Hc as [Hc|Hc]; [done|].
  assert (Hin : In (End_ "configuration" pos) (read_events xml).1) by (by rewrite Hr).
  destruct (end_position xml "configuration" pos Hin) as (before & blank & after & Hx & -> & Hb).
  assert (Htake : take_to (String.length (before +:+ end_tag "configuration" blank)) xml = before +:+ end_tag "configuration" blank)
    by (by rewrite Hx, <- append_assoc, take_app).
  assert (Hlt : rfind "<"%char (before +:+ end_tag "configuration" blank) = Some (String.length before)).
  { refine (rfind_last "<"%char before ("/configuration" +:+ blank +:+ ">") _). by rewrite !count_char_app, Hb. }
  rewrite Htake, Hlt. cbn [ok_or rbind]. intros [= <-]. exists props, before, blank, after.
  assert (Hcut : take_to (String.length before) xml = before /\ drop_to (String.length before) xml = end_tag "configuration" blank +:+ after)
    by (rewrite Hx; split; [apply take_app|apply drop_app]).
  destruct Hcut as [-> ->]. do 3 (split; [done|]). intros ->. cbn in Hp. simplify_eq. done.
Qed.

End OozieSpec.

(** ** Azkaban *)
Module AzkabanSpec.
Import Workflow Azkaban.

Section Client.
Context {R : Type} `{JP : JsonParse} `{JU : !JsonU64} `{EN : !Engine R} `{ET : EngineTexts}.
Context (clk : nat -> Z) (warn : bool) (fits : Z -> Client R -> option nat) (a : AzkabanClient).

Definition with_slot (s : option string) (p : proc (World R)) : proc (World R) :=
  {| the_world := {| client := client (the_world p); session_slot := s |}; left_ := left_ p |}.

(** Guarded calls leave the session alone. *)
Lemma guarded_slot {A} (m : M R WorkflowError A) p out p' :
  guarded clk warn fits a m p = (out, p') -> session_slot (the_world p') = session_slot (the_world p).
Proof. unfold guarded, on_client. destruct (Workflow.guarded _ _ _ _ _ _). intros. by simplify_eq. Qed.

(** A call with a cached session: what the attempt answers is what the caller gets, unless
    the answer says that the session is gone; then the client logs in once, keeps the new
    session, and the second attempt's answer is final, whatever it is. *)
Theorem expired_session_is_replaced_once build p sid out p1 :
  session_slot (the_world p) = Some sid ->
  attempt clk warn fits a sid build p = (Ret out, p1) ->
  match out with
  | Err e =>
      if session_expired e then
        forall new p2, login clk warn fits a (with_slot None p1) = (Ret (Ok new), p2) ->
          call clk warn fits a build p = attempt clk warn fits a new build (with_slot (Some new) p2)
      else call clk warn fits a build p = (Ret (Err e), p1)
  | Ok v => call clk warn fits a build p = (Ret (Ok v), p1)
  end.
Proof.
  intros Hs Ha.
  assert (H1 : call clk warn fits a build p =
    match out with
    | Err e => if session_expired e
               then (do! _ := invalidate sid in do! sid := session clk warn fits a in attempt clk warn fits a sid build) p1
               else (Ret (Err e), p1)
    | Ok v => (Ret (Ok v), p1)
    end).
  { unfold call. unfold bind at 1. unfold session at 1. unfold bind at 1, get. rewrite Hs. unfold ret at 1.
    unfold bind at 1, try. rewrite Ha. destruct out as [v|e]; [done|]. by destruct (session_expired e). }
  rewrite H1. destruct out as [v|e]; [done|]. destruct (session_expired e); [|done]. intros new p2 Hl.
  assert (Hp1 : session_slot (the_world p1) = Some sid) by (unfold attempt in Ha; apply guarded_slot in Ha; congruence).
  unfold bind at 1, invalidate. unfold bind at 1, get. rewrite Hp1, String.eqb_refl. unfold set_session.
  unfold bind at 1. unfold session. unfold bind at 1, get. cbn [the_world session_slot].
  unfold bind at 1. fold (with_slot None p1). rewrite Hl. reflexivity.
Qed.

End Client.
End AzkabanSpec.

(** ** DolphinScheduler *)
Module DolphinSpec.
Import Workflow Dolphin Answers.

Section Client.
Context {R : Type} `{JP : JsonParse} `{EN : !Engine R} `{ET : EngineTexts}.
Context (clk : nat -> Z) (warn : bool) (fits : Z -> Client R -> option nat) (d : DolphinClient).

(** Polls that found nothing, each with the pause after it. *)
Inductive waited (poll : Request) : nat -> proc R -> proc R -> Prop :=
| waited_none p : waited poll 0 p p
| waited_more n p data p1 p2 p3 :
    send poll p = (Ret (Ok data), p1) -> (forall x l, data <> VArray (x :: l)) ->
    sleep p1 = (Ret (Ok tt), p2) -> waited poll n p2 p3 -> waited poll (S n) p p3.

Lemma polls_skip poll none n k p p1 :
  waited poll n p p1 -> polls (n + S k) poll none p = polls (S k) poll none p1.
Proof.
  induction 1 as [|n p data p1 p2 p3 Hs Hd Hz _ IH]; [done|]. rewrite <- IH.
  assert (Hstep : polls (S n + S k) poll none p =
    match data with
    | VArray (x :: _) => ret (let? id := json_i64 (index x "id") "workflow instance id" in Ok (Clickhouse.int_text id)) p1
    | _ => (do! _ := sleep in polls (n + S k) poll none) p1
    end).
  { cbn [polls Nat.add]. unfold bind at 1. rewrite Hs. rewrite Nat.add_succ_r. by destruct data as [| | | |[|x l]|]. }
  rewrite Hstep. destruct data as [| | | |[|x l]|]; try (unfold bind; by rewrite Hz). by specialize (Hd x l).
Qed.

(** A start that only answers with a trigger code: the first instance that one of the fifty
    polls sees is the run, however many came back empty before; and after fifty without an
    instance the caller is told so. *)
Theorem polls_find_the_instance poll none n p p1 data p2 :
  (n < TRIGGER_POLL_ATTEMPTS)%nat -> waited poll n p p1 -> send poll p1 = (Ret (Ok data), p2) ->
  (forall x l id, data = VArray (x :: l) -> json_i64 (index x "id") "workflow instance id" = Ok id ->
     polls TRIGGER_POLL_ATTEMPTS poll none p = (Ret (Ok (Clickhouse.int_text id)), p2)) /\
  ((forall x l, data <> VArray (x :: l)) -> n = pred TRIGGER_POLL_ATTEMPTS ->
     polls TRIGGER_POLL_ATTEMPTS poll none p = (Ret (Err none), p2)).
Proof.
  intros Hn Hw Hs.
  assert (Hall : polls TRIGGER_POLL_ATTEMPTS poll none p = polls (S (TRIGGER_POLL_ATTEMPTS - S n)) poll none p1).
  { rewrite <- (polls_skip poll none n _ p p1 Hw). f_equal. lia. }
  rewrite Hall. split.
  - intros x l id -> Hid. cbn [polls]. unfold bind at 1. by rewrite Hs, Hid.
  - intros Hd ->. change (TRIGGER_POLL_ATTEMPTS - S (pred TRIGGER_POLL_ATTEMPTS))%nat with 0%nat.
    cbn [polls]. unfold bind at 1. rewrite Hs. destruct data as [| | | |[|x l]|]; try done; by specialize (Hd x l).
Qed.

(** A definition that [create] returns is online: in the style that needs a release, the
    engine has accepted the release of the very code that the id spells. *)
Theorem created_workflow_is_online spec p id p' :
  api_style d = WorkflowStyle -> create clk warn fits d spec p = (Ret (Ok id), p') ->
  exists code r resp body,
    id = Clickhouse.int_text code /\
    respond (release_request d code) r = (Ok resp, remote (the_world p')) /\
    200 <= status resp < 300 /\ text resp = Ok body /\
    exists v msg data, value_parse body = Ok v /\ envelope v = Ok (0, msg, data).
Proof.
  intros Hst Hc0. unfold create in Hc0. apply bind_ok in Hc0 as (form & p0 & Hf & Hc0). apply ret_ok in Hf as [_ ->].
  apply bind_ok in Hc0 as (code & p1 & Hg & Hc0). apply ret_ok in Hc0 as [Hc0 ->]. simplify_eq.
  apply guarded_ok in Hg as (l & q & Hg & ->). apply bind_ok in Hg as (data & q1 & _ & Hg).
  apply bind_ok in Hg as (c & q2 & Hc & Hg). rewrite Hst in Hg. apply bind_ok in Hg as (x & q3 & Hr & Hg).
  apply ret_ok in Hg as [Hg ->]. simplify_eq.
  unfold send in Hr. apply bind_ok in Hr as (got & q4 & Hsend & Hr). apply send_text_ok in Hsend as (Hresp & Ht & Hstatus).
  apply bind_ok in Hr as ([[code' msg] data'] & q5 & He & Hr). apply ret_ok in He as [He ->].
  destruct (code' =? 0) eqn:Hz; cbn in Hr; [|done]. apply ret_ok in Hr as [_ ->]. bool_prop. subst code'.
  destruct (value_parse got.2) as [v|e] eqn:Hv; cbn in He; [|done].
  destruct (envelope v) as [y|e] eqn:Hy; cbn in He; simplify_eq.
  exists code, (the_world q2), got.1, got.2. do 4 (split; [done|]). by eauto.
Qed.

End Client.
End DolphinSpec.

(** ** Examples *)
Module EnginesDemo.
Import Workflow GuardFacts ShellDemo.

#[local] Instance demo_number : JsonNumber := {|
  Number := Z;
  number_as_i64 n := if bool_decide (in_i64 n) then Some n else None;
  number_is_u64 n := 0 <=? n;
  number_as_f64 n := None;
  number_text n := dec_text n
|}.
#[local] Instance demo_text : JsonText := {| value_text _ := "null" |}.
(** Three documents; anything else is not JSON. *)
#[local] Instance demo_parse : JsonParse := {| value_parse s :=
  if String.eqb s "run" then Ok (VObject [("dag_run_id", VString "manual/1 of 2")])
  else if String.eqb s "login" then Ok (VObject [("session.id", VString "s1")])
  else Err "expected value" |}.
#[local] Instance demo_u64 : JsonU64 := {| number_as_u64 n := Some n |}.
#[local] Instance demo_debug : EngineTexts := {| debug_text s := s; base64_decode s := Ok (bytes_of s) |}.

(** An engine that keeps the requests it saw and answers each with the same document, except
    a login. *)
Definition log_engine (answer : string) : Engine (list string) := {| respond q seen :=
  (Ok {| status := 200; set_cookies := [];
         text := Ok (if String.eqb (url q) "http://engine/?action=login" then "login" else answer) |}, seen ++ [url q]) |}.

Definition idle : Client (list string) := {| inner := (Breaker.new still Breaker.BreakerConfig_default 0).1; tick := 1; remote := [] |}.
Definition never (_ : Z) (_ : Client (list string)) : option nat := None.
Definition demo_airflow : Airflow.AirflowClient := {| Airflow.http := demo_http; Airflow.api_version := Airflow.V2; Airflow.dag_run_id_prefix := Some "m" |}.

Definition triggered : outcome WorkflowError RunId * proc (Client (list string)) :=
  Airflow.trigger (EN := log_engine "run") still true never (fun _ => 5) demo_airflow "etl" VNull {| the_world := idle; left_ := None |}.

Lemma triggered_run_is_the_one_addressed_witness :
  exists resp body v id,
    respond (Engine := log_engine "run") (Airflow.trigger_request demo_airflow 5 "etl" VNull) [] = (Ok resp, remote (the_world triggered.2)) /\
    text resp = Ok body /\ value_parse body = Ok v /\ as_str (index v "dag_run_id") = Some id /\
    Airflow.split_run "etl/manual/1 of 2" = Ok ("etl", id) /\
    (forall w' id', Airflow.run_path demo_airflow w' id' = Airflow.run_path demo_airflow "etl" id -> w' = "etl" /\ id' = id).
Proof.
  apply (AirflowSpec.triggered_run_is_the_one_addressed (list string) demo_number demo_text demo_parse (log_engine "run") demo_debug
           still true never (fun _ => 5) demo_airflow "etl" VNull {| the_world := idle; left_ := None |} "etl/manual/1 of 2" triggered.2).
  - reflexivity.
  - vm_compute. reflexivity.
Defined.

(** A document with a configuration, as the reader reports it. *)
Definition demo_xml : string := "<configuration><a/></configuration >".
#[local] Instance demo_reader : Oozie.Xml := {|
  Oozie.read_events s := if String.eqb s demo_xml then ([Oozie.Other; Oozie.Empty "a"; Oozie.End_ "configuration" 36], None) else ([], None);
  Oozie.escape s := s |}.

#[local] Instance demo_reader_law : OozieFacts.XmlLaw.
Proof.
  split. intros xml tag pos. cbn. destruct (String.eqb_spec xml demo_xml) as [->|]; [|by intros []].
  intros [H|[H|[H|[]]]]; try done. injection H as <- <-. exists "<configuration><a/>", " ", "". by vm_compute.
Qed.

Definition injected : string := "<configuration><a/><property><name>k</name><value>v</value></property></configuration >".

Lemma params_go_inside_configuration_witness :
  exists props before blank after,
    Oozie.properties (VObject [("k", VString "v")]) = Ok props /\
    demo_xml = before +:+ OozieFacts.end_tag "configuration" blank +:+ after /\
    injected = before +:+ String.concat "" props +:+ OozieFacts.end_tag "configuration" blank +:+ after /\
    (VObject [("k", VString "v")] = VNull -> injected = demo_xml).
Proof.
  apply (OozieSpec.params_go_inside_configuration demo_number demo_text demo_reader demo_reader_law demo_xml
           (VObject [("k", VString "v")]) injected).
  vm_compute. reflexivity.
Defined.

Definition demo_dolphin : Dolphin.DolphinClient :=
  {| Dolphin.http := demo_http; Dolphin.project_code := 1; Dolphin.token := None; Dolphin.tenant_code := None;
     Dolphin.api_style := Dolphin.Legacy |}.

Definition demo_azkaban : Azkaban.AzkabanClient :=
  {| Azkaban.http := demo_http; Azkaban.project := None; Azkaban.username := "u"; Azkaban.password := "p" |}.

(** A client whose breaker has opened, on a clock that moves on; its engine would log what
    it is asked. *)
Definition opened : Client (list string) := {|
  inner := {| Breaker.state := Breaker.Open; Breaker.win := Breaker.win (inner idle); Breaker.opened_at := Some (ticking 8);
              Breaker.half_open_count := 0; Breaker.opened_total := 1 |}; tick := 9; remote := ["seen"] |}.

Definition some_operations : list Operation :=
  [Trigger "p/f" VNull; Create {| name := "n"; definition := VString "zip"; params := VNull; schedule := None |};
   ListRuns {| f_workflow_id := None; f_state := None; f_limit := None |}; Trigger "p" VNull; Cancel "7"].

Definition after_opening :=
  perform_all (EN := log_engine "x") (WC := @Azkaban.azkaban _ _ _ demo_parse _ (log_engine "x") _ ticking true never demo_azkaban)
    some_operations {| the_world := {| Azkaban.client := opened; Azkaban.session_slot := Some "s1" |}; left_ := None |}.

Lemma open_breaker_shields_the_engine_witness :
  exists outs p', after_opening = (outs, p') /\
    untouched opened (Azkaban.client (the_world p')) /\
    Forall2 (fun op out => exists e, out = Ret (Err e) /\
      (e = Unavailable "circuit breaker is open" \/
       rejects (perform (WC := @Azkaban.azkaban _ _ _ demo_parse _ (log_engine "x") _ ticking true never demo_azkaban) op) e))
      some_operations outs.
Proof.
  refine (proj1 (proj1 (proj2 (ContractSpec.open_breaker_shields_the_engine (list string) demo_number demo_text demo_parse demo_u64
           (log_engine "x") demo_debug demo_reader ticking true never (fun _ => 5) (fun _ => "") demo_airflow demo_azkaban
           demo_dolphin demo_http))) some_operations
           {| the_world := {| Azkaban.client := opened; Azkaban.session_slot := Some "s1" |}; left_ := None |} _).
  split; [reflexivity|]. exists (ticking 8). split; [reflexivity|]. intros t Ht. change (tick _) with 9%nat in Ht.
  cbn [length some_operations] in Ht. do 15 (destruct t as [|t]; [first [lia|vm_compute; reflexivity]|]). lia.
Defined.

(** What these operations answer: the first two and the last what the breaker says, the
    other two what is wrong with them. *)
Example operations_while_open :
  after_opening.1 =
    [Ret (Err (Unavailable "circuit breaker is open")); Ret (Err (Unavailable "circuit breaker is open"));
     Ret (Err (Unsupported "azkaban: list_runs is not supported"));
     Ret (Err (Config "azkaban: workflow id must be project/flow, got p"));
     Ret (Err (Unavailable "circuit breaker is open"))].
Proof. vm_compute. reflexivity. Qed.

(** An answer that is not JSON but holds the word, as a page that mentions a session does,
    counts as an expired session although the engine has started the flow: the flow is
    started a second time, and the caller is told of an error. *)
Theorem unreadable_answer_starts_the_flow_twice :
  let '(out, p) := Azkaban.trigger (EN := log_engine "<p>session ok</p>") still true never demo_azkaban "p/f" VNull
    {| the_world := {| Azkaban.client := idle; Azkaban.session_slot := Some "s0" |}; left_ := None |} in
  out = Ret (Err (Parse "azkaban: invalid JSON: expected value: <p>session ok</p>")) /\
  remote (Azkaban.client (the_world p)) =
    ["http://engine/executor?ajax=executeFlow"; "http://engine/?action=login"; "http://engine/executor?ajax=executeFlow"].
Proof. vm_compute. done. Qed.

(** A dot segment passes both for a job id of Oozie and for a segment of a path of Airflow. *)
Theorem dot_segments_are_let_through :
  Oozie.job_url ".." = Ok "/oozie/v2/job/.." /\ Airflow.segment ".." = "..".
Proof. done. Qed.

End EnginesDemo.
