(* ===== verification/RemoteSql.v ===== *)
(** * SQL engines behind HTTP: Livy and Trino ([ecat-data-spark], [ecat-data-trino])

    [src/ecat-data-spark/src/{lib,protocol}.rs] ([Module Spark]) and
    [src/ecat-data-trino/src/lib.rs] ([Module Trino]): a statement is a conversation of
    requests under one guarded call, [SqlHttp.guarded], which composes the breaker with
    [run_with_timeout].  [Module Rows] is the [Row] of [src/ecat-data/src/rdbms.rs] as it is.

    The polling loops have no bound of their own: they run on fuel, and a program out of
    fuel is one that is still polling, which only its time limit or its caller ends. *)

From S2P Require Import Prelude Json Text Rdbms CircuitBreaker Crash SagaSql S3Sink OrmDialect XaSqlx ClickSink Workflow Engines.

Local Open Scope Z_scope.
Local Open Scope ecat_scope.

(** Library functions: [Display for StatusCode] and [Response::json]. *)
Class HttpTexts `{JN : JsonNumber} := {
  status_text : Z -> string;
  json_of : result string string -> result Value string;
}.

Module Rows.

Section Rows.
Context `{JN : JsonNumber}.

Record Row := { columns : list string; values : list Value }.

Definition position (col : string) (l : list string) : option nat := fst <$> list_find (fun c => c = col) l.

Definition get (r : Row) (col : string) : option Value :=
  match position col (columns r) with
  | Some i => values r !! i
  | None => None
  end.

Definition iter (r : Row) : list (string * Value) := zip (columns r) (values r).

End Rows.
End Rows.

(** *** One guarded call of a client: the breaker around the time limit *)
Module Outbound.
Import Timeout.

(** The breaker, the clock, and the counters of the process around the conversation's state. *)
Record Client (W : Type) := { inner : Breaker.Inner; tick : nat; world : World W }.
Arguments inner {W} _.
Arguments tick {W} _.
Arguments world {W} _.
Arguments Build_Client {W} _ _ _.

Section Guarded.
Context {W E : Type} `{TE : TimeoutError E}.
Context (kind : BackendKind) (refused : Breaker.BreakerError Empty_set -> E).
Context (clk : nat -> Z) (warn_enabled : bool) (fits : Z -> W -> option nat).
Context (config : Breaker.BreakerConfig) (timeout : option Z).

Definition guarded {A} (fut : M W E A) : M (Client W) E A :=
  fun p =>
    let c := the_world p in
    match Breaker.enter clk config (inner c) (tick c) with
    | (Breaker.Rejected e, i, t) =>
        (Ret (Err (refused e)), {| the_world := {| inner := i; tick := t; world := world c |}; left_ := left_ p |})
    | (Breaker.Granted probe, i, t) =>
        match run_with_timeout fits kind timeout fut {| the_world := world c; left_ := left_ p |} with
        | (Ret r, q) =>
            let '(i, t) := Breaker.finish clk warn_enabled config None i r t in
            (Ret r, {| the_world := {| inner := i; tick := t; world := the_world q |}; left_ := left_ q |})
        | (Died, q) =>
            (Died, {| the_world := {| inner := if probe then Breaker.drop_permit i else i; tick := t; world := the_world q |};
                      left_ := left_ q |})
        end
    end.

End Guarded.
End Outbound.

Module SqlHttp.
Import Timeout Workflow.

Definition query_timeout (secs : option Z) : option Z :=
  match secs with
  | None => Some (CircuitBreaker.secs 30)
  | Some s => if s =? 0 then None else Some (CircuitBreaker.secs s)
  end.

Definition concurrency (max : option Z) : option Z :=
  match max with
  | Some n => if n =? 0 then None else Some n
  | None => Some 32
  end.

Definition map_breaker_error (e : Breaker.BreakerError Empty_set) : Rdbms.RdbmsError :=
  Rdbms.Connection (Errors.refusal_text e).

Definition guarded {W} := @Outbound.guarded W Rdbms.RdbmsError _ KRdbms map_breaker_error.
Arguments guarded {W} clk warn_enabled fits config timeout {A} fut.

Definition database {A} (m : string) : result A Rdbms.RdbmsError := Err (Rdbms.Database m).

(** A loop that has not ended. *)
Definition polling {W E A} : M W E A := fun p => (Died, p).

(** The pause between two polls. *)
Definition sleep {W E} : M W E unit := effect (fun w => (Ok tt, w)).

End SqlHttp.

(** ** Livy *)
Module Spark.
Import Rows SqlHttp Workflow.

Record SparkClient := {
  base_url : string;
  username : option string;
  password : option string;
  session_conf : list (string * string);
  timeout : option Z;
  breaker : Breaker.BreakerConfig;
  semaphore : option Z;
}.

(** The server, and the session that is cached under the client's lock, which a statement
    holds from its first request to its last. *)
Record World (R : Type) := { server : R; slot : option Z }.
Arguments server {R} _.
Arguments slot {R} _.
Arguments Build_World {R} _ _.

Section Client.
Context {R : Type} `{JP : JsonParse} `{EN : !Engine R} `{ET : EngineTexts} `{HT : !HttpTexts}.
Context (c : SparkClient).

Definition num (n : Z) : string := Clickhouse.int_text n.

Definition get_request (path : string) : Request :=
  {| method := GET; url := base_url c +:+ path; query := []; auth := apply_basic_auth (username c) (password c);
     headers := []; body := NoBody |}.

Definition post_request (path : string) (v : Value) : Request :=
  {| method := POST; url := base_url c +:+ path; query := []; auth := apply_basic_auth (username c) (password c);
     headers := []; body := JsonBody v |}.

(** A request, and what is read of its answer in a second step. *)
Definition exchange (q : Request) : M (World R) Rdbms.RdbmsError (result Response string) :=
  effect (fun w => let '(a, r) := respond q (server w) in (Ok a, {| server := r; slot := slot w |})).

Definition read (resp : Response) : M (World R) Rdbms.RdbmsError (result string string) :=
  effect (fun w => (Ok (text resp), w)).

Definition prefixed (what e : string) : string := "spark: " +:+ what +:+ ": " +:+ e.

Definition send (q : Request) (what : string) : M (World R) Rdbms.RdbmsError Value :=
  do! answer := exchange q in
  match answer with
  | Err e => ret (database (prefixed what e))
  | Ok resp =>
      do! t := read resp in
      if (200 <=? status resp) && (status resp <? 300)
      then match json_of t with
           | Ok v => ret (Ok v)
           | Err e => ret (database (prefixed what ("parse: " +:+ e)))
           end
      else ret (database (prefixed what ("HTTP " +:+ status_text (status resp) +:+ ": "
                                           +:+ match t with Ok b => b | Err _ => "" end)))
  end.

(** *** Protocol objects *)

(** [Deserialize] of a struct of [n] fields, from an object or an array of them. *)
Definition struct_of (n : nat) (v : Value) : result unit string :=
  match v with
  | VObject _ => Ok tt
  | VArray l => if (n <? length l)%nat then Err "fewer elements in array" else Ok tt
  | _ => Err "invalid type"
  end.

Definition field (i : nat) (name : string) (v : Value) : option Value :=
  match v with
  | VObject l => S3.member l name
  | VArray l => l !! i
  | _ => None
  end.

Definition str_field (i : nat) (name : string) (v : Value) : result string string :=
  let? x := ok_or (field i name v) ("missing field `" +:+ name +:+ "`") in
  ok_or (as_str x) ("invalid type for " +:+ name).

Definition int_field (i : nat) (name : string) (v : Value) : result Z string :=
  let? x := ok_or (field i name v) ("missing field `" +:+ name +:+ "`") in
  ok_or (as_i64 x) ("invalid type for " +:+ name).

(** [EntityId], [SessionState]. *)
Definition entity_id (v : Value) : result Z string := let? _ := struct_of 1 v in int_field 0 "id" v.
Definition session_state (v : Value) : result string string := let? _ := struct_of 1 v in str_field 0 "state" v.

Record Output := { o_status : string; evalue : option string; traceback : option (list string); data : option Value }.
Record Statement := { st_id : Z; st_state : string; output : option Output }.

(** An optional field: absent, or null, is none. *)
Definition optional {A} (f : Value -> option A) (i : nat) (name : string) (v : Value) : result (option A) string :=
  match field i name v with
  | None | Some VNull => Ok None
  | Some x => let? y := ok_or (f x) ("invalid type for " +:+ name) in Ok (Some y)
  end.

Fixpoint strings (l : list Value) : option (list string) :=
  match l with
  | [] => Some []
  | VString s :: l => match strings l with Some r => Some (s :: r) | None => None end
  | _ => None
  end.

Definition output_of (v : Value) : result Output string :=
  let? _ := struct_of 4 v in
  let? s := str_field 0 "status" v in
  let? e := optional as_str 1 "evalue" v in
  let? t := optional (fun x => match x with VArray l => strings l | _ => None end) 2 "traceback" v in
  let? d := optional Some 3 "data" v in
  Ok {| o_status := s; evalue := e; traceback := t; data := d |}.

Definition statement_of (v : Value) : result Statement string :=
  let? _ := struct_of 3 v in
  let? i := int_field 0 "id" v in
  let? s := str_field 1 "state" v in
  let? o := match field 2 "output" v with
            | None | Some VNull => Ok None
            | Some x => let? o := output_of x in Ok (Some o)
            end in
  Ok {| st_id := i; st_state := s; output := o |}.

Definition error_text (o : Output) : string :=
  match match evalue o with Some e => if is_blank e then None else Some e | None => None end with
  | Some e => e
  | None =>
      match traceback o with
      | Some t => let joined := Spec.join (String (Ascii.ascii_of_nat 10) EmptyString) t in
                  if String.eqb joined "" then "unknown error" else joined
      | None => "unknown error"
      end
  end.

Definition failure (o : Output) : Rdbms.RdbmsError := Rdbms.Database ("spark: statement failed: " +:+ error_text o).

Definition row_of (v : Value) : result Row Rdbms.RdbmsError :=
  match v with
  | VObject l => Ok {| columns := map fst l; values := map snd l |}
  | _ => database ("spark: result row is not an object: " +:+ value_text v)
  end.

Definition json_rows (v : Value) : result (list Row) Rdbms.RdbmsError :=
  let? v := match v with
            | VString text => map_err (fun e => Rdbms.Database ("spark: output is not valid JSON: " +:+ e)) (value_parse text)
            | v => Ok v
            end in
  let? rows := ok_or (as_array v) (Rdbms.Database ("spark: expected a JSON array of rows, got " +:+ value_text v)) in
  collect row_of rows.

Definition text_rows (text : string) : result (list Row) Rdbms.RdbmsError :=
  match value_parse text with
  | Ok (VArray l) => json_rows (VArray l)
  | _ =>
      Ok (map (fun line => {| columns := ["value"]; values := [VString line] |})
            (List.filter (fun line => negb (String.eqb line "")) (S3.lines text)))
  end.

(** The MIME types, as [{:?}] prints their list. *)
Definition mime_list (l : list (string * Value)) : string :=
  "[" +:+ Spec.join ", " (map (fun kv => debug_text kv.1) l) +:+ "]".

Definition rows_from_data (d : option Value) : result (list Row) Rdbms.RdbmsError :=
  match d with
  | None => Ok []
  | Some (VObject l) =>
      match S3.member l "application/json" with
      | Some v => json_rows v
      | None =>
          match S3.member l "text/plain" with
          | Some (VString text) => text_rows text
          | _ =>
              match l with
              | [] => Ok []
              | _ => database ("spark: unsupported output MIME types: " +:+ mime_list l)
              end
          end
      end
  | Some v => database ("spark: output.data is not an object: " +:+ value_text v)
  end.

Definition output_rows (o : Output) : result (list Row) Rdbms.RdbmsError :=
  if String.eqb (o_status o) "ok" then rows_from_data (data o)
  else if String.eqb (o_status o) "error" then Err (failure o)
  else database ("spark: statement output status " +:+ debug_text (o_status o)).

(** Still running, or its rows. *)
Definition phase (s : Statement) : result (option (list Row)) Rdbms.RdbmsError :=
  let state := st_state s in
  let named tail : result (option (list Row)) Rdbms.RdbmsError := database ("spark: statement " +:+ num (st_id s) +:+ " " +:+ tail) in
  if String.eqb state "waiting" || String.eqb state "running" then Ok None
  else if String.eqb state "available" then
    match output s with
    | Some o => let? rows := output_rows o in Ok (Some rows)
    | None => named "is available without output"
    end
  else if String.eqb state "error" then
    match output s with Some o => Err (failure o) | None => named "failed without output" end
  else if String.eqb state "cancelling" || String.eqb state "cancelled" then named "was cancelled"
  else named ("entered unexpected state " +:+ debug_text state).

(** *** A statement *)

Definition session_path (id : Z) : string := "/sessions/" +:+ num id.
Definition statements_path (id : Z) : string := "/sessions/" +:+ num id +:+ "/statements".
Definition statement_path (id stmt : Z) : string := "/sessions/" +:+ num id +:+ "/statements/" +:+ num stmt.

Definition set_slot (s : option Z) : M (World R) Rdbms.RdbmsError unit :=
  fun p => (Ret (Ok tt), {| the_world := {| server := server (the_world p); slot := s |}; left_ := left_ p |}).

Definition parsed {A} (what : string) (f : Value -> result A string) (v : Value) : result A Rdbms.RdbmsError :=
  map_err (fun e => Rdbms.Database (prefixed what ("parse: " +:+ e))) (f v).

Definition create_session : M (World R) Rdbms.RdbmsError Z :=
  do! v := send (post_request "/sessions"
                   (VObject [("kind", VString "sql"); ("conf", VObject (map (fun kv => (kv.1, VString kv.2)) (session_conf c)))]))
             "create session" in
  ret (parsed "create session" entity_id v).

Definition ended (state : string) : bool :=
  existsb (String.eqb state) ["dead"; "error"; "killed"; "shutting_down"; "success"].
Definition pending (state : string) : bool := existsb (String.eqb state) ["not_started"; "starting"; "busy"].

Fixpoint wait_idle (n : nat) (id : Z) : M (World R) Rdbms.RdbmsError unit :=
  match n with
  | O => polling
  | S n =>
      do! v := send (get_request (session_path id)) "session state" in
      do! state := ret (parsed "session state" session_state v) in
      if String.eqb state "idle" then ret (Ok tt)
      else if pending state then do! _ := sleep in wait_idle n id
      else if ended state then
        do! _ := set_slot None in
        ret (database ("spark: session " +:+ num id +:+ " is " +:+ state))
      else ret (database ("spark: session " +:+ num id +:+ " entered unexpected state " +:+ debug_text state))
  end.

Fixpoint poll_statement (n : nat) (id stmt : Z) : M (World R) Rdbms.RdbmsError (list Row) :=
  match n with
  | O => polling
  | S n =>
      do! v := send (get_request (statement_path id stmt)) "statement state" in
      do! s := ret (parsed "statement" statement_of v) in
      do! rows := ret (phase s) in
      match rows with
      | Some rows => ret (Ok rows)
      | None => do! _ := sleep in poll_statement n id stmt
      end
  end.

Definition submit_request (id : Z) (sql : string) : Request :=
  post_request (statements_path id) (VObject [("code", VString sql)]).

Definition run_statement (n : nat) (sql : string) : M (World R) Rdbms.RdbmsError (list Row) :=
  do! cached := Crash.get slot in
  do! id := match cached with
            | Some id => ret (Ok id)
            | None => do! id := create_session in do! _ := set_slot (Some id) in ret (Ok id)
            end in
  do! _ := wait_idle n id in
  do! v := send (submit_request id sql) "submit statement" in
  do! stmt := ret (parsed "submit statement" entity_id v) in
  poll_statement n id stmt.

Context (clk : nat -> Z) (warn_enabled : bool) (fits : Z -> World R -> option nat) (n : nat).

Definition run (sql : string) : M (Outbound.Client (World R)) Rdbms.RdbmsError (list Row) :=
  SqlHttp.guarded clk warn_enabled fits (breaker c) (timeout c) (run_statement n sql).

Definition execute (sql : string) : M (Outbound.Client (World R)) Rdbms.RdbmsError Z :=
  do! _ := run sql in ret (Ok 0).

Definition query (sql : string) : M (Outbound.Client (World R)) Rdbms.RdbmsError (list Row) := run sql.

Definition transaction : M (Outbound.Client (World R)) Rdbms.RdbmsError Empty_set :=
  ret (database "Spark does not support transactions").

End Client.
End Spark.

(** ** Trino *)
Module Trino.
Import Rows SqlHttp Workflow.

Definition DEFAULT_USER : string := "ecat".
Definition SOURCE : string := "ecat".

Record TrinoClient := {
  base_url : string;
  user : string;
  password : option string;
  catalog : option string;
  schema : option string;
  session_properties : list (string * string);
  timeout : option Z;
  breaker : Breaker.BreakerConfig;
  semaphore : option Z;
}.

Section Client.
Context {R : Type} `{JP : JsonParse} `{JU : !JsonU64} `{EN : !Engine R} `{HT : !HttpTexts}.
Context (c : TrinoClient).

Definition error_message (body : Value) : option string :=
  match S3.value_get body "error" with
  | None | Some VNull => None
  | Some err =>
      Some match match S3.value_get err "message" with Some m => as_str m | None => None end with
           | Some m => m
           | None => value_text err
           end
  end.

Definition auth_of : Auth := match password c with Some p => Basic (user c) p | None => NoAuth end.

(** The pairs of a map, in the order of their keys. *)
Definition prop_le (a b : string * string) : bool := str_le a.1 b.1.

Definition start_request (sql : string) : Request := {|
  method := POST;
  url := base_url c +:+ "/v1/statement";
  Workflow.query := [];
  auth := auth_of;
  headers := [("Content-Type", "text/plain; charset=utf-8"); ("X-Trino-User", user c); ("X-Trino-Source", SOURCE)]
             ++ match catalog c with Some x => [("X-Trino-Catalog", x)] | None => [] end
             ++ match schema c with Some x => [("X-Trino-Schema", x)] | None => [] end
             ++ match session_properties c with
                | [] => []
                | l => [("X-Trino-Session", Spec.join "," (map (fun kv => kv.1 +:+ "=" +:+ kv.2) (sort_by prop_le l)))]
                end;
  body := Raw sql;
|}.

Definition next_request (uri : string) : Request :=
  {| method := GET; url := uri; Workflow.query := []; auth := auth_of; headers := []; body := NoBody |}.

Definition fetch (q : Request) : M R Rdbms.RdbmsError Value :=
  do! answer := effect (fun r => let '(a, r) := respond q r in (Ok a, r)) in
  match answer with
  | Err e => ret (database ("trino: " +:+ e))
  | Ok resp =>
      do! t := effect (fun r => (Ok (text resp), r)) in
      if (200 <=? status resp) && (status resp <? 300)
      then match json_of t with
           | Ok v => ret (Ok v)
           | Err e => ret (database ("trino parse: " +:+ e))
           end
      else ret (database match t with Ok b => b | Err e => "trino: " +:+ e end)
  end.

(** What the loop has gathered: the columns, the rows, the number of processed rows. *)
Record Gathered := { cols : option (list string); rows : list Row; processed : Z }.

Definition start_gathered : Gathered := {| cols := None; rows := []; processed := 0 |}.

Definition column_names (l : list Value) : list string :=
  omap (fun v => match S3.value_get v "name" with Some n => as_str n | None => None end) l.

Definition page_columns (body : Value) (old : option (list string)) : option (list string) :=
  match S3.value_get body "columns" with
  | Some (VArray l) => Some (column_names l)
  | _ => old
  end.

Definition page_rows (body : Value) (cols : option (list string)) : list Row :=
  match S3.value_get body "data", cols with
  | Some (VArray l), Some cols =>
      omap (fun v => match v with VArray vals => Some {| columns := cols; values := vals |} | _ => None end) l
  | _, _ => []
  end.

Definition page_processed (body : Value) (old : Z) : Z :=
  match match S3.value_get body "stats" with Some s => S3.value_get s "processedRows" | None => None end with
  | Some (VNumber n) => match number_as_u64 n with Some n => n | None => old end
  | _ => old
  end.

Definition gather (g : Gathered) (body : Value) : Gathered :=
  let cols := page_columns body (cols g) in
  {| cols := cols; rows := rows g ++ page_rows body cols; processed := page_processed body (processed g) |}.

Definition next_uri (body : Value) : option string :=
  match S3.value_get body "nextUri" with Some v => as_str v | None => None end.

Fixpoint pages (n : nat) (g : Gathered) (body : Value) : M R Rdbms.RdbmsError (Z * list Row) :=
  match n with
  | O => polling
  | S n =>
      match error_message body with
      | Some m => ret (database m)
      | None =>
          let g := gather g body in
          match next_uri body with
          | None => ret (Ok (processed g, rows g))
          | Some next => do! body := fetch (next_request next) in pages n g body
          end
      end
  end.

Definition statement (n : nat) (sql : string) : M R Rdbms.RdbmsError (Z * list Row) :=
  do! body := fetch (start_request sql) in pages n start_gathered body.

Context (clk : nat -> Z) (warn_enabled : bool) (fits : Z -> R -> option nat) (n : nat).

Definition run (sql : string) : M (Outbound.Client R) Rdbms.RdbmsError (Z * list Row) :=
  SqlHttp.guarded clk warn_enabled fits (breaker c) (timeout c) (statement n sql).

Definition execute (sql : string) : M (Outbound.Client R) Rdbms.RdbmsError Z := do! r := run sql in ret (Ok r.1).
Definition query (sql : string) : M (Outbound.Client R) Rdbms.RdbmsError (list Row) := do! r := run sql in ret (Ok r.2).

Definition transaction : M (Outbound.Client R) Rdbms.RdbmsError Empty_set :=
  ret (database "Trino client does not support transactions").

End Client.
End Trino.
