(* ===== verification/RemoteSqlSpec.v ===== *)
(** * What the Livy and Trino clients answer

    [Module TrinoSpec]: the rows of a statement are those of all its pages.  [Module
    SparkSpec]: a statement reads its own output, a dead session is replaced, a session the
    server has forgotten is not.  [Module SqlHttpSpec]: a statement the time limit cuts
    counts once as a timeout and once as a failure. *)

From S2P Require Import Prelude Json Text Rdbms CircuitBreaker Crash SagaSql S3Sink OrmDialect XaSqlx ClickSink Workflow Engines WorkflowSpec EnginesSpec RemoteSql.

Local Open Scope Z_scope.
Local Open Scope ecat_scope.

Module TrinoSpec.
Import Workflow Rows SqlHttp Trino Answers.

Section Client.
Context {R : Type} `{JP : JsonParse} `{JU : !JsonU64} `{EN : !Engine R} `{HT : !HttpTexts}.
Context (c : TrinoClient).

(** The pages that follow a page, none of which reports an error. *)
Inductive turned : Value -> list Value -> proc R -> proc R -> Prop :=
| turned_last body p : error_message body = None -> next_uri body = None -> turned body [] p p
| turned_next body next body' l p p1 p2 :
    error_message body = None -> next_uri body = Some next ->
    fetch (next_request c next) p = (Ret (Ok body'), p1) -> turned body' l p1 p2 ->
    turned body (body' :: l) p p2.

(** The rows of a list of pages: each page under the last columns that were announced. *)
Fixpoint all_rows (cols : option (list string)) (l : list Value) : list Row :=
  match l with
  | [] => []
  | body :: l => page_rows body (page_columns body cols) ++ all_rows (page_columns body cols) l
  end.

(** The last count of processed rows. *)
Definition last_processed (l : list Value) : Z := fold_left (fun n body => page_processed body n) l 0.

Definition total (g : Gathered) (l : list Value) : Gathered := fold_left gather l g.

Lemma total_rows g l : rows (total g l) = rows g ++ all_rows (cols g) l.
Proof.
  revert g. induction l as [|body l IH]; intros g; [by rewrite app_nil_r|].
  cbn [total fold_left all_rows]. fold (total (gather g body) l). rewrite IH. cbn [gather rows cols]. by rewrite <- app_assoc.
Qed.

Lemma total_processed g l : processed (total g l) = fold_left (fun n body => page_processed body n) l (processed g).
Proof. revert g. induction l as [|body l IH]; intros g; [done|]. cbn [total fold_left]. fold (total (gather g body) l). by rewrite IH. Qed.

Lemma pages_turned n g body p v p' :
  pages c n g body p = (Ret (Ok v), p') <->
  exists l, turned body l p p' /\ (length l < n)%nat /\ v = (processed (total g (body :: l)), rows (total g (body :: l))).
Proof.
  revert g body p. induction n as [|n IH]; intros g body p; [split; [done|intros (l & _ & Hl & _); lia]|].
  cbn [pages]. destruct (error_message body) as [m|] eqn:He.
  { split; [done|]. intros (l & Ht & _). destruct Ht; congruence. }
  destruct (next_uri body) as [next|] eqn:Hn.
  - split.
    + intros Hr. apply bind_ok in Hr as (body' & q & Hf & Hr). apply IH in Hr as (l & Ht & Hl & ->).
      exists (body' :: l). split; [by eapply turned_next|]. split; [cbn; lia|done].
    + intros (l & Ht & Hl & ->). destruct Ht as [|body0 next' body' l p0 p1 p2 _ Hn' Hf Ht]; [congruence|].
      rewrite Hn in Hn'. simplify_eq. unfold bind. rewrite Hf. apply IH. exists l. split; [done|]. cbn in Hl. split; [lia|done].
  - split.
    + intros Hr. apply ret_ok in Hr as [Hr ->]. simplify_eq. exists []. split; [by constructor|]. split; [cbn; lia|done].
    + intros (l & Ht & _ & ->). destruct Ht; [done|congruence].
Qed.

(** A statement succeeds exactly when its pages can be followed to the last without an
    error (and the loop is given as many rounds as there are pages); then its rows are the
    rows of every page in order, each under the columns announced last, and its count is the
    last one that a page reports. *)
Theorem rows_are_those_of_every_page n sql p k rs p' :
  statement c n sql p = (Ret (Ok (k, rs)), p') <->
  exists body l p1,
    fetch (start_request c sql) p = (Ret (Ok body), p1) /\ turned body l p1 p' /\ (length l < n)%nat /\
    k = last_processed (body :: l) /\ rs = all_rows None (body :: l).
Proof.
  unfold statement. split.
  - intros Hr. apply bind_ok in Hr as (body & p1 & Hf & Hr). apply pages_turned in Hr as (l & Ht & Hl & Hv). simplify_eq.
    exists body, l, p1. rewrite total_rows, total_processed. done.
  - intros (body & l & p1 & Hf & Ht & Hl & -> & ->). unfold bind. rewrite Hf. apply pages_turned. exists l.
    rewrite total_rows, total_processed. done.
Qed.

End Client.
End TrinoSpec.

Module SparkSpec.
Import Workflow Rows SqlHttp Spark Answers.

Section Client.
Context {R : Type} `{JP : JsonParse} `{EN : !Engine R} `{ET : EngineTexts} `{HT : !HttpTexts}.
Context (c : SparkClient).

(** A request whose answer was a success. *)
Lemma send_ok q what p v p' :
  send q what p = (Ret (Ok v), p') ->
  exists resp, respond q (server (the_world p)) = (Ok resp, server (the_world p')) /\
    200 <= status resp < 300 /\ json_of (text resp) = Ok v /\ slot (the_world p') = slot (the_world p).
Proof.
  unfold send. intros Hs. apply bind_ok in Hs as (answer & p1 & H1 & Hs). apply effect_ok in H1.
  destruct (respond q (server (the_world p))) as [x w] eqn:Hr. simplify_eq/=. destruct answer as [resp|e]; [|done].
  apply bind_ok in Hs as (t & p2 & H2 & Hs). apply effect_ok in H2. simplify_eq/=.
  destruct (_ && _) eqn:Hst; [|done]. destruct (json_of (text resp)) as [y|e] eqn:Hj; [|done].
  apply ret_ok in Hs as [? ->]. simplify_eq. exists resp. bool_prop. rewrite <- H2, <- H1. done.
Qed.

Lemma sleep_same {W E} (p : proc W) x p' : (sleep : M W E unit) p = (Ret (Ok x), p') -> the_world p' = the_world p.
Proof. intros Hs. apply effect_ok in Hs. by simplify_eq. Qed.

Lemma parsed_ok {A} what (f : Value -> result A string) v x : parsed what f v = Ok x -> f v = Ok x.
Proof. unfold parsed. destruct (f v); cbn; intros; by simplify_eq. Qed.

Lemma wait_idle_slot n id p x p' :
  wait_idle c n id p = (Ret (Ok x), p') -> slot (the_world p') = slot (the_world p).
Proof.
  revert p. induction n as [|n IH]; intros p Hw; [done|]. cbn [wait_idle] in Hw.
  apply bind_ok in Hw as (v & p1 & H1 & Hw). apply send_ok in H1 as (resp & _ & _ & _ & H1).
  apply bind_ok in Hw as (st & p2 & H2 & Hw). apply ret_ok in H2 as [_ ->].
  destruct (String.eqb st "idle"); [apply ret_ok in Hw as [_ ->]; done|].
  destruct (pending st).
  - apply bind_ok in Hw as (y & p3 & H3 & Hw). apply sleep_same in H3. apply IH in Hw. by rewrite Hw, H3.
  - destruct (ended st); [|done]. apply bind_ok in Hw as (y & p3 & _ & Hw). done.
Qed.

Lemma poll_reads n id stmt p rows p' :
  poll_statement c n id stmt p = (Ret (Ok rows), p') ->
  slot (the_world p') = slot (the_world p) /\
  exists resp v s r,
    respond (get_request c (statement_path id stmt)) r = (Ok resp, server (the_world p')) /\
    json_of (text resp) = Ok v /\ statement_of v = Ok s /\ phase s = Ok (Some rows).
Proof.
  revert p. induction n as [|n IH]; intros p Hw; [done|]. cbn [poll_statement] in Hw.
  apply bind_ok in Hw as (v & p1 & H1 & Hw). apply send_ok in H1 as (resp & Hr & _ & Hj & H1).
  apply bind_ok in Hw as (s & p2 & H2 & Hw). apply ret_ok in H2 as [H2 ->]. apply parsed_ok in H2.
  apply bind_ok in Hw as (o & p3 & H3 & Hw). apply ret_ok in H3 as [H3 ->]. destruct o as [rs|].
  - apply ret_ok in Hw as [Hw ->]. simplify_eq. split; [done|]. eauto 8.
  - apply bind_ok in Hw as (y & p4 & H4 & Hw). apply sleep_same in H4. apply IH in Hw as [Hs Hx]. by rewrite Hs, H4.
Qed.

(** The rows of a statement are those of its own output: Livy answered the submission of
    this text in the cached session with a statement id, and the rows are what the last
    answer about that id, in that session, holds. *)
Theorem statement_reads_its_own_output n sql p rows p' :
  run_statement c n sql p = (Ret (Ok rows), p') ->
  exists id stmt r1 resp1 r1' r2 resp2 v s,
    slot (the_world p') = Some id /\
    respond (submit_request c id sql) r1 = (Ok resp1, r1') /\
    (exists v1, json_of (text resp1) = Ok v1 /\ entity_id v1 = Ok stmt) /\
    respond (get_request c (statement_path id stmt)) r2 = (Ok resp2, server (the_world p')) /\
    json_of (text resp2) = Ok v /\ statement_of v = Ok s /\ phase s = Ok (Some rows).
Proof.
  unfold run_statement. intros Hr. apply bind_ok in Hr as (cached & p0 & H0 & Hr). apply get_ok in H0 as [-> ->].
  apply bind_ok in Hr as (id & p1 & H1 & Hr).
  assert (Hslot : slot (the_world p1) = Some id).
  { destruct (slot (the_world p)) as [i|] eqn:Hi; [apply ret_ok in H1 as [? ->]; by simplify_eq|].
    apply bind_ok in H1 as (i & q & _ & H1). apply bind_ok in H1 as (x & q2 & H2 & H1). unfold set_slot in H2.
    apply ret_ok in H1 as [? ->]. by simplify_eq/=. }
  apply bind_ok in Hr as (x & p2 & H2 & Hr). apply wait_idle_slot in H2.
  apply bind_ok in Hr as (v1 & p3 & H3 & Hr). apply send_ok in H3 as (resp1 & Hresp & _ & Hj & H3).
  apply bind_ok in Hr as (stmt & p4 & H4 & Hr). apply ret_ok in H4 as [H4 ->]. apply parsed_ok in H4.
  apply poll_reads in Hr as [Hs (resp2 & v & s & r & ? & ? & ? & ?)].
  exists id, stmt, (server (the_world p2)), resp1, (server (the_world p3)), r, resp2, v, s.
  split; [congruence|]. split; [done|]. split; [by eauto|]. done.
Qed.

(** *** Sessions that end *)

(** A session that Livy reports as ended is given up: the statement fails, and the next one
    starts from a new session. *)
Theorem dead_session_is_given_up n id st p v p1 :
  send (get_request c (session_path id)) "session state" p = (Ret (Ok v), p1) ->
  session_state v = Ok st -> ended st = true ->
  exists m p', wait_idle c (S n) id p = (Ret (database m), p') /\ slot (the_world p') = None.
Proof.
  intros Hs Hst He. cbn [wait_idle]. unfold bind at 1. rewrite Hs. unfold bind at 1, ret at 1, parsed. rewrite Hst. cbn [map_err].
  assert (Hi : String.eqb st "idle" = false).
  { destruct (String.eqb_spec st "idle") as [->|]; [by vm_compute in He|done]. }
  assert (Hp : pending st = false).
  { unfold ended, pending in *. cbn [existsb] in *. repeat (apply orb_true_iff in He as [He|He]); try done;
      apply String.eqb_eq in He; by subst. }
  rewrite Hi, Hp, He. unfold bind, set_slot. cbn. eauto.
Qed.

(** A session the server has forgotten, as it does with idle ones: asking for it is an error,
    404, and not a state. *)
Definition forgotten (id : Z) : Prop :=
  forall r, exists resp r', respond (get_request c (session_path id)) r = (Ok resp, r') /\ status resp = 404.

Fixpoint statements (n : nat) (l : list string) (p : proc (World R)) : list (outcome Rdbms.RdbmsError (list Row)) * proc (World R) :=
  match l with
  | [] => ([], p)
  | sql :: l =>
      let '(out, p) := run_statement c n sql p in
      let '(outs, p) := statements n l p in
      (out :: outs, p)
  end.

Lemma forgotten_statement n id sql p out p' :
  forgotten id -> slot (the_world p) = Some id -> run_statement c n sql p = (out, p') ->
  (forall rows, out <> Ret (Ok rows)) /\ slot (the_world p') = Some id.
Proof.
  intros Hf Hs Hr. destruct (Hf (server (the_world p))) as (resp & r' & Hresp & Hst).
  unfold run_statement, bind at 1 2, Crash.get in Hr. rewrite Hs in Hr. unfold ret at 1 in Hr.
  destruct n as [|n]; [unfold bind, polling in Hr; cbn in Hr; simplify_eq; done|].
  cbn [wait_idle] in Hr. unfold send, exchange, bind, effect in Hr.
  assert (Hcode : ((200 <=? status resp) && (status resp <? 300)) = false) by (by rewrite Hst).
  destruct (left_ p) as [[|[|k]]|]; rewrite ?Hresp in Hr; cbn in Hr; rewrite ?Hcode in Hr; cbn in Hr; unfold ret, database in Hr;
    simplify_eq/=; done.
Qed.

(** Such a session is never replaced: from then on every statement fails, with the session
    still cached, whatever the statements are. *)
Theorem forgotten_session_fails_every_statement n id l p :
  forgotten id -> slot (the_world p) = Some id ->
  Forall (fun out => forall rows, out <> Ret (Ok rows)) (statements n l p).1 /\
  slot (the_world (statements n l p).2) = Some id.
Proof.
  intros Hf. revert p. induction l as [|sql l IH]; intros p Hs; [done|]. cbn [statements].
  destruct (run_statement c n sql p) as [out p1] eqn:Hr. destruct (forgotten_statement _ _ _ _ _ _ Hf Hs Hr) as [Ho Hs1].
  specialize (IH p1 Hs1). destruct (statements n l p1) as [outs p2]. cbn in *. destruct IH. by split; [constructor|].
Qed.

End Client.
End SparkSpec.

Module SqlHttpSpec.
Import Drop Breaker Window BreakerFacts Timeout Outbound.

(** A call that its time limit cuts is counted once as a timeout of its family and once as
    a failure of its client, and its error says so; what the server did before the cut
    stays. *)
Theorem cut_statement_counts_once W E (TE : TimeoutError E) kind refused clk warn fits config d A (fut : M W E A) c o :
  Breaker.state (inner c) = Closed -> fresh clk (win (inner c)) ->
  run_for (fits d (outside (world c))) fut (outside (world c)) None = (Cut, o, None) ->
  exists c', guarded kind refused clk warn fits config (Some d) fut {| the_world := c; left_ := None |} =
               (Ret (Err (from_timeout kind d)), {| the_world := c'; left_ := None |}) /\
    win (inner c') = sample (win (inner c)) false /\
    world c' = {| TIMEOUTS := count kind (TIMEOUTS (world c)); outside := o |}.
Proof.
  intros Hs Hf Hr. unfold guarded, enter. cbn [the_world]. rewrite Hs. unfold run_with_timeout. cbn [the_world left_ outside].
  rewrite Hr. cbn [the_world left_].
  pose proof (BreakerSpec.closed_trips_iff clk warn config A E None (inner c) (Err (from_timeout kind d)) (tick c) Hs Hf) as (_ & Hw & _).
  destruct (finish _ _ _ _ _ _ _) as [i t]. eexists. split; [reflexivity|]. cbn in *. done.
Qed.

End SqlHttpSpec.

(** *** Examples *)
Module RemoteSqlDemo.
Import Workflow Drop Breaker Window BreakerFacts Timeout SqlHttp Spark EnginesDemo SparkSpec.

#[local] Instance small_number : JsonNumber := {|
  Number := Z; number_as_i64 n := Some n; number_is_u64 n := true; number_as_f64 n := None; number_text n := "0" |}.
#[local] Instance small_text : JsonText := {| value_text _ := "null" |}.
#[local] Instance small_parse : JsonParse := {| value_parse s := Ok (VString s) |}.
#[local] Existing Instance EnginesDemo.demo_debug.

Definition letter (s : string) : result Value string :=
  if String.eqb s "session" then Ok (VObject [("state", VString "idle")])
  else if String.eqb s "statement" then Ok (VObject [("id", VNumber (4 : @Number small_number))])
  else if String.eqb s "done"
  then Ok (VObject [("id", VNumber (4 : @Number small_number)); ("state", VString "available");
                    ("output", VObject [("status", VString "ok");
                                        ("data", VObject [("application/json", VArray [VObject [("a", VString "1")]])])])])
  else Err "expected value".
#[local] Instance demo_letters : HttpTexts := {| status_text _ := "404 Not Found"; json_of t := match t with Ok b => letter b | Err e => Err e end |}.

Definition demo_spark : SparkClient :=
  {| base_url := "http://livy"; username := None; password := None; session_conf := []; timeout := query_timeout None;
     breaker := BreakerConfig_default; semaphore := concurrency None |}.

(** A server that has session 3, or has forgotten it. *)
Definition livy (alive : bool) : Engine unit := {| respond q r :=
  (Ok (if String.eqb (url q) "http://livy/sessions/3"
       then if alive then {| status := 200; set_cookies := []; text := Ok "session" |}
            else {| status := 404; set_cookies := []; text := Ok "Session '3' not found." |}
       else if String.eqb (url q) "http://livy/sessions/3/statements" then {| status := 201; set_cookies := []; text := Ok "statement" |}
       else {| status := 200; set_cookies := []; text := Ok "done" |}), r) |}.

Definition cached : proc (Spark.World unit) := {| the_world := {| server := tt; slot := Some 3 |}; left_ := None |}.

Lemma forgotten_session_fails_every_statement_witness :
  slot (the_world (statements (EN := livy false) demo_spark 5 ["select 1"; "select 2"] cached).2) = Some 3.
Proof.
  refine (proj2 (forgotten_session_fails_every_statement (EN := livy false) demo_spark 5 3 ["select 1"; "select 2"] cached _ eq_refl)).
  intros r. eexists _, _. split; reflexivity.
Defined.

Definition answered : outcome Rdbms.RdbmsError (list Rows.Row) * proc (Spark.World unit) :=
  run_statement (EN := livy true) demo_spark 5 "select 1 as a" cached.

Lemma statement_reads_its_own_output_witness :
  exists id stmt r1 resp1 r1' r2 resp2 v s,
    slot (the_world answered.2) = Some id /\
    respond (Engine := livy true) (submit_request demo_spark id "select 1 as a") r1 = (Ok resp1, r1') /\
    (exists v1, json_of (text resp1) = Ok v1 /\ entity_id v1 = Ok stmt) /\
    respond (Engine := livy true) (get_request demo_spark (statement_path id stmt)) r2 = (Ok resp2, server (the_world answered.2)) /\
    json_of (text resp2) = Ok v /\ statement_of v = Ok s /\
    phase s = Ok (Some [{| Rows.columns := ["a"]; Rows.values := [VString "1"] |}]).
Proof.
  apply (statement_reads_its_own_output (EN := livy true) demo_spark 5 "select 1 as a" cached
           [{| Rows.columns := ["a"]; Rows.values := [VString "1"] |}] answered.2).
  vm_compute. reflexivity.
Defined.

Definition hang : M nat Rdbms.RdbmsError unit := effect (fun n => (Ok tt, Datatypes.S n)).
Definition quiet_client : Outbound.Client nat :=
  {| Outbound.inner := (Breaker.new ShellDemo.still BreakerConfig_default 0).1; Outbound.tick := 1;
     Outbound.world := {| TIMEOUTS := [0; 0; 0; 0; 0; 0; 0]; outside := 4%nat |} |}.

Lemma cut_statement_counts_once_witness :
  exists c', SqlHttp.guarded ShellDemo.still true (fun _ _ => Some 0%nat) BreakerConfig_default (Some (secs 30)) hang {| the_world := quiet_client; left_ := None |} =
               (Ret (Err (Rdbms.Timeout_ ("query exceeded " +:+ duration_text (secs 30)))), {| the_world := c'; left_ := None |}) /\
    win (Outbound.inner c') = sample (win (Outbound.inner quiet_client)) false /\
    Outbound.world c' = {| TIMEOUTS := count KRdbms [0; 0; 0; 0; 0; 0; 0]; outside := 4%nat |}.
Proof.
  exact (SqlHttpSpec.cut_statement_counts_once nat Rdbms.RdbmsError _ KRdbms map_breaker_error ShellDemo.still true (fun _ _ => Some 0%nat)
           BreakerConfig_default (secs 30) unit hang quiet_client 4%nat eq_refl (fun t => eq_refl) eq_refl).
Defined.

Lemma dead_session_is_given_up_witness :
  exists m p', wait_idle (EN := {| respond q r := (Ok {| status := 200; set_cookies := []; text := Ok "statement" |}, r) |})
                 (HT := {| status_text _ := ""; json_of _ := Ok (VObject [("state", VString "dead")]) |}) demo_spark 1 3 cached
               = (Ret (database m), p') /\ slot (the_world p') = None.
Proof.
  eapply (dead_session_is_given_up (EN := {| respond q r := (Ok {| status := 200; set_cookies := []; text := Ok "statement" |}, r) |})
            (HT := {| status_text _ := ""; json_of _ := Ok (VObject [("state", VString "dead")]) |}) demo_spark 0 3 "dead" cached);
    reflexivity.
Defined.

End RemoteSqlDemo.
