(* ===== verification/Caches.v ===== *)
(** * Caches ([ecat-data], [ecat-data-memcached], [ecat-data-redis])

    [src/ecat-data/src/cache.rs] is the class [Cache]; [Module Memcached] is the cache in
    memory of [src/ecat-data-memcached/src/lib.rs], [Module RedisCache] the client of
    [src/ecat-data-redis/src/lib.rs] and the settings of its pool in [redis_pool.rs].

    The theorems: the cache in memory answers as a map of values with expiry times of which
    nothing is ever swept, over a clock that moves; what Redis stores and gives back.

    The iteration order of a [HashMap] is an argument, a list of its entries in any order.
    [Instant::now()] is the [t]-th value of a clock, as in [CircuitBreaker]. *)

From S2P Require Import Prelude Json Text Rdbms CircuitBreaker Crash ClickSink Workflow RemoteSql WorkflowSpec EnginesSpec.

Local Open Scope Z_scope.
Local Open Scope ecat_scope.

Module Cache.
Import Errors.

(** [trait Cache]: bytes are strings, durations nanoseconds; [S] is what a call changes. *)
Class Cache (S : Type) := {
  get : string -> M S Error (option string);
  set : string -> string -> Z -> M S Error unit;
  delete : string -> M S Error unit;
  increment : string -> Z -> M S Error Z;
  ttl : string -> M S Error (option Z);
  multi_get : list string -> M S Error (list (option string));
}.

(** The default methods. *)
Definition unsupported {S A} (what : string) : M S Error A :=
  ret (Err (new Internal "cache" (what +:+ " not supported by this backend"))).

End Cache.

(** ** In memory *)
Module Memcached.
Import Errors.

Definition Entry : Type := string * option Z.

Record World := { store : gmap string (string * option Z); tick : nat }.

Definition SWEEP_THRESHOLD : Z := 1024.
Definition SWEEP_SAMPLE : nat := 64.

Section Client.
Context (clk : nat -> Z).
(** The entries in the order the map is walked. *)
Context (order : gmap string (string * option Z) -> list (string * (string * option Z))).
(** The last instant of the platform; an [Instant] beyond it panics. *)
Context (max_instant : Z).

Definition at_world {A} (f : World -> result A Error * World) : M World Error A :=
  fun p => let '(r, w) := f (the_world p) in (Ret r, {| the_world := w; left_ := left_ p |}).

(** A lookup reads the clock when the entry has an expiry. *)
Definition get (key : string) (w : World) : result (option string) Error * World :=
  match store w !! key with
  | Some (v, Some exp) =>
      if exp <? clk (tick w)
      then (Ok None, {| store := base.delete key (store w); tick := S (tick w) |})
      else (Ok (Some v), {| store := store w; tick := S (tick w) |})
  | Some (v, None) => (Ok (Some v), w)
  | None => (Ok None, w)
  end.

(** The entries [retain] removes: the first [n] expired ones. *)
Fixpoint swept (n : nat) (now : Z) (l : list (string * (string * option Z))) : list string :=
  match l with
  | [] => []
  | (k, (_, exp)) :: l =>
      match n with
      | O => []
      | S n' =>
          match exp with
          | Some e => if e <=? now then k :: swept n' now l else swept n now l
          | None => swept n now l
          end
      end
  end.

Definition retain (now : Z) (m : gmap string (string * option Z)) : gmap string (string * option Z) :=
  foldr base.delete m (swept SWEEP_SAMPLE now (order m)).

Definition sweep (w : World) : World :=
  if SWEEP_THRESHOLD <=? Z.of_nat (size (store w))
  then {| store := retain (clk (tick w)) (store w); tick := S (tick w) |} else w.

(** The expiry of a new entry, [None] when the addition panics. *)
Definition expires (ttl : Z) (w : World) : option (option Z) * World :=
  if ttl =? 0 then (Some None, w)
  else (if clk (tick w) + ttl <=? max_instant then Some (Some (clk (tick w) + ttl)) else None,
        {| store := store w; tick := S (tick w) |}).

Definition set (key value : string) (ttl : Z) : M World Error unit :=
  fun p =>
    let '(exp, w) := expires ttl (sweep (the_world p)) in
    match exp with
    | Some e => (Ret (Ok tt), {| the_world := {| store := <[key := (value, e)]> (store w); tick := tick w |}; left_ := left_ p |})
    | None => (Died, {| the_world := w; left_ := left_ p |})
    end.

Definition delete (key : string) (w : World) : result unit Error * World :=
  (Ok tt, {| store := base.delete key (store w); tick := tick w |}).

#[export] Instance memcached : Cache.Cache World := {
  Cache.get k := at_world (get k);
  Cache.set := set;
  Cache.delete k := at_world (delete k);
  Cache.increment _ _ := Cache.unsupported "increment";
  Cache.ttl _ := Cache.unsupported "ttl";
  Cache.multi_get _ := Cache.unsupported "multi_get";
}.

End Client.
End Memcached.

(** ** Redis *)
Module RedisCache.
Import Errors Timeout.

Record RedisConfig := {
  url : string;
  tls_enabled : bool;
  query_timeout_secs : option Z;
  cfg_breaker : option Breaker.BreakerConfig;
}.

(** [str::replacen(from, to, 1)]. *)
Fixpoint replace_first (from to s : string) : string :=
  match strip_prefix from s with
  | Some rest => to +:+ rest
  | None => match s with EmptyString => EmptyString | String a s => String a (replace_first from to s) end
  end.

Definition build_url (cfg : RedisConfig) : string :=
  if tls_enabled cfg then replace_first "redis://" "rediss://" (url cfg) else url cfg.

(** [RedisPoolConfig]: the sizes and times of the pool. *)
Record PoolConfig := {
  max_size : option Z;
  acquire_timeout_secs : option Z;
  create_timeout_secs : option Z;
  recycle_timeout_secs : option Z;
}.

Definition DEFAULT_MAX_SIZE : Z := 10.
Definition DEFAULT_TIMEOUT_SECS : Z := 30.

Definition or_default (d : Z) (o : option Z) : Z := match o with Some x => x | None => d end.

Definition pool_defaults (cfg : PoolConfig) : Z * Z * Z * Z :=
  (Z.max (or_default DEFAULT_MAX_SIZE (max_size cfg)) 1,
   or_default DEFAULT_TIMEOUT_SECS (acquire_timeout_secs cfg),
   or_default DEFAULT_TIMEOUT_SECS (create_timeout_secs cfg),
   or_default DEFAULT_TIMEOUT_SECS (recycle_timeout_secs cfg)).

Definition timeout_secs (s : Z) : option Z := if s =? 0 then None else Some (CircuitBreaker.secs s).

(** The commands that the cache sends, and their replies as the redis crate types them. *)
Inductive Command :=
| Get (k : string)
| Set_ (k v : string)
| PSetEx (k v : string) (ms : Z)
| Del (k : string)
| IncrBy (k : string) (d : Z)
| Ttl (k : string)
| MGet (ks : list string).

Inductive Reply := Bulk (v : option string) | Done | Int (n : Z) | Bulks (l : list (option string)).

(** A server behind a connection: acquiring one can fail, and so can a command, applied or
    not. *)
Class Redis (R : Type) := {
  acquire : R -> result unit string * R;
  command : Command -> R -> result Reply string * R;
}.

Section Client.
Context `{RE : Redis R}.
Context (clk : nat -> Z) (warn_enabled : bool) (fits : Z -> R -> option nat) (config : Breaker.BreakerConfig).
Context (query_timeout : option Z).

Definition internal (m : string) : Error := new Internal "redis" m.

Definition refused (e : Breaker.BreakerError Empty_set) : Error :=
  breaker_error_to_backend_error (match e with
                                  | Breaker.BreakerOpen => Breaker.BreakerOpen
                                  | Breaker.ProbesExhausted => Breaker.ProbesExhausted
                                  | Breaker.InnerError e => match e with end
                                  end) "redis".

Definition guarded {A} (fut : M R Error A) : M (Outbound.Client R) Error A :=
  Outbound.guarded KCache refused clk warn_enabled fits config query_timeout fut.

Definition conn : M R Error unit :=
  effect (fun r => let '(a, r) := acquire r in (map_err (fun e => internal ("redis acquire: " +:+ e)) a, r)).

(** A command and the type its reply is read at. *)
Definition call {A} (op : string) (f : Reply -> result A string) (c : Command) : M R Error A :=
  do! _ := conn in
  do! answer := effect (fun r => let '(a, r) := command c r in (Ok a, r)) in
  ret (map_err (fun e => internal ("redis " +:+ op +:+ ": " +:+ e)) (let? reply := answer in f reply)).

Definition mistyped {A} : result A string := Err "Response type not convertible".

Definition as_bulk (r : Reply) : result (option string) string := match r with Bulk v => Ok v | _ => mistyped end.
Definition as_unit (_ : Reply) : result unit string := Ok tt.
Definition as_int (r : Reply) : result Z string := match r with Int n => Ok n | _ => mistyped end.
Definition as_bulks (r : Reply) : result (list (option string)) string := match r with Bulks l => Ok l | _ => mistyped end.

Definition get (k : string) : M (Outbound.Client R) Error (option string) := guarded (call "get" as_bulk (Get k)).

(** [ttl.as_millis()], saturated to 64 bits. *)
Definition millis (ttl : Z) : Z := Z.min (ttl / 1000000) u64_max.

Definition set (k v : string) (ttl : Z) : M (Outbound.Client R) Error unit :=
  guarded (if 0 <? ttl / 1000000 then call "psetex" as_unit (PSetEx k v (millis ttl)) else call "set" as_unit (Set_ k v)).

Definition delete (k : string) : M (Outbound.Client R) Error unit := guarded (call "del" as_unit (Del k)).

Definition increment (k : string) (d : Z) : M (Outbound.Client R) Error Z := guarded (call "incr" as_int (IncrBy k d)).

Definition ttl_to_duration (t : Z) : option Z := if t <? 0 then None else Some (CircuitBreaker.secs t).

Definition ttl (k : string) : M (Outbound.Client R) Error (option Z) :=
  guarded (do! t := call "ttl" as_int (Ttl k) in ret (Ok (ttl_to_duration t))).

Definition multi_get (ks : list string) : M (Outbound.Client R) Error (list (option string)) :=
  match ks with
  | [] => ret (Ok [])
  | _ => guarded (call "mget" as_bulks (MGet ks))
  end.

#[export] Instance redis_cache : Cache.Cache (Outbound.Client R) := {
  Cache.get := get;
  Cache.set := set;
  Cache.delete := delete;
  Cache.increment := increment;
  Cache.ttl := ttl;
  Cache.multi_get := multi_get;
}.

End Client.
End RedisCache.

(** ** The cache in memory answers as a map *)
Module MemcachedFacts.
Import Memcached.

Lemma lookup_deleted (m : gmap string (string * option Z)) ks k :
  foldr base.delete m ks !! k = if bool_decide (k ∈ ks) then None else m !! k.
Proof.
  induction ks as [|x ks IH]; [done|]. cbn [foldr]. destruct (decide (k = x)) as [->|Hne].
  - rewrite lookup_delete_eq, bool_decide_true; [done|]. left.
  - rewrite lookup_delete_ne, IH by done. do 2 case_bool_decide; set_solver.
Qed.

Section Facts.
Context (clk : nat -> Z) (order : gmap string (string * option Z) -> list (string * (string * option Z))) (max_instant : Z).
Context (clock_moves : forall t t', (t < t')%nat -> clk t < clk t').
Context (walks : forall m, order m ≡ₚ map_to_list m).

Lemma swept_expired n now l k :
  In k (swept n now l) -> exists v e, In (k, (v, Some e)) l /\ e <= now.
Proof.
  revert n. induction l as [|[k0 [v0 exp]] l IH]; intros n; [done|]. cbn [swept]. destruct n as [|n]; [done|].
  destruct exp as [e|]; [destruct (e <=? now) eqn:He|].
  - intros [<-|Hk]; [exists v0, e; bool_prop; by split; [left|]|].
    destruct (IH _ Hk) as (v & e' & ? & ?). exists v, e'. by split; [right|].
  - intros Hk. destruct (IH _ Hk) as (v & e' & ? & ?). exists v, e'. by split; [right|].
  - intros Hk. destruct (IH _ Hk) as (v & e' & ? & ?). exists v, e'. by split; [right|].
Qed.

Lemma swept_some n now l k v e :
  In (k, (v, Some e)) l -> e <= now -> swept (S n) now l <> [].
Proof.
  induction l as [|[k0 [v0 exp]] l IH]; [done|]. intros [Hk|Hk] He; cbn [swept].
  - simplify_eq. by apply Z.leb_le in He as ->.
  - destruct exp as [e0|]; [destruct (e0 <=? now); [done|]|]; by apply IH.
Qed.

(** What a sweep takes is expired by the time it read. *)
Lemma retain_lookup now m k :
  retain order now m !! k = m !! k \/
  (retain order now m !! k = None /\ exists v e, m !! k = Some (v, Some e) /\ e <= now).
Proof.
  unfold retain. rewrite lookup_deleted. case_bool_decide as Hk; [|by left]. right. split; [done|].
  apply list_elem_of_In in Hk. apply swept_expired in Hk as (v & e & Hin & He).
  exists v, e. split; [|done]. apply elem_of_map_to_list. rewrite <- walks. by apply list_elem_of_In.
Qed.

(** The concrete entries are the ideal ones, but for some that have expired. *)
Definition agree (t : nat) (m a : gmap string (string * option Z)) : Prop :=
  forall k, m !! k = a !! k \/ (m !! k = None /\ exists v e, a !! k = Some (v, Some e) /\ e < clk t).

Definition live (now : Z) (e : option Z) : bool := match e with Some x => now <=? x | None => true end.

Definition ideal_get (k : string) (now : Z) (a : gmap string (string * option Z)) : option string :=
  match a !! k with Some (v, e) => if live now e then Some v else None | None => None end.

Lemma agree_later t t' m a : (t <= t')%nat -> agree t m a -> agree t' m a.
Proof.
  intros Ht Ha k. destruct (Ha k) as [?|(? & v & e & ? & ?)]; [by left|]. right. split; [done|]. exists v, e. split; [done|].
  destruct (decide (t = t')) as [->|]; [done|]. pose proof (clock_moves t t' ltac:(lia)). lia.
Qed.

Lemma get_agrees k w a r w' :
  agree (tick w) (store w) a -> get clk k w = (r, w') ->
  r = Ok (ideal_get k (clk (tick w)) a) /\ agree (tick w') (store w') a.
Proof.
  intros Ha. unfold get, ideal_get. pose proof (clock_moves (tick w) (S (tick w)) ltac:(lia)) as Hc.
  destruct (Ha k) as [Hk|(Hk & v & e & Hak & He)]; rewrite Hk.
  - destruct (a !! k) as [[v [e|]]|] eqn:Hak; [|intros; by simplify_eq..]. unfold live.
    destruct (e <? clk (tick w)) eqn:He; intros; simplify_eq/=; bool_prop.
    + assert (clk (tick w) <=? e = false) as -> by lia. split; [done|].
      intros k'. destruct (decide (k' = k)) as [->|Hne].
      * rewrite lookup_delete_eq. right. split; [done|]. exists v, e. split; [done|lia].
      * rewrite lookup_delete_ne by done. by apply (agree_later (tick w) (S (tick w)) _ _ ltac:(lia) Ha).
    + assert (clk (tick w) <=? e = true) as -> by lia. split; [done|]. apply (agree_later (tick w)); [lia|done].
  - rewrite Hak. unfold live. assert (clk (tick w) <=? e = false) as -> by lia. intros; by simplify_eq.
Qed.

Lemma sweep_agrees w a :
  agree (tick w) (store w) a -> agree (tick (sweep clk order w)) (store (sweep clk order w)) a.
Proof.
  intros Ha. unfold sweep. destruct (SWEEP_THRESHOLD <=? _); [|done]. cbn [tick store]. intros k.
  pose proof (clock_moves (tick w) (S (tick w)) ltac:(lia)) as Hc.
  apply (agree_later (tick w) (S (tick w)) _ _ ltac:(lia)) in Ha. specialize (Ha k).
  destruct (retain_lookup (clk (tick w)) (store w) k) as [->|(-> & v & e & Hk & He)]; [done|].
  destruct Ha as [Ha|(Ha & _)]; [|congruence]. right. split; [done|]. exists v, e. split; [congruence|lia].
Qed.

(** The expiry a [set] gives its entry. *)
Definition expiry (ttl : Z) (w : World) : option Z :=
  if ttl =? 0 then None else Some (clk (tick (sweep clk order w)) + ttl).

Lemma set_agrees k v ttl w a p' l :
  agree (tick w) (store w) a ->
  set clk order max_instant k v ttl {| the_world := w; left_ := l |} = (Ret (Ok tt), p') ->
  agree (tick (the_world p')) (store (the_world p')) (<[k := (v, expiry ttl w)]> a).
Proof.
  intros Ha. unfold set, expires, expiry. cbn [the_world]. apply sweep_agrees in Ha.
  set (s := sweep clk order w) in *. destruct (ttl =? 0); [|destruct (_ <=? max_instant)]; [| |done]; intros; simplify_eq/=; intros k';
    (destruct (decide (k' = k)) as [->|Hne]; [rewrite !lookup_insert_eq; by left|rewrite !lookup_insert_ne by done]); [apply Ha|].
  by apply (agree_later (tick s) (S (tick s)) _ _ ltac:(lia) Ha).
Qed.

Lemma delete_agrees k w a r w' :
  agree (tick w) (store w) a -> delete k w = (r, w') -> agree (tick w') (store w') (base.delete k a).
Proof.
  intros Ha Hd k'. unfold delete in Hd. simplify_eq/=. destruct (decide (k' = k)) as [->|Hne].
  - rewrite !lookup_delete_eq. by left.
  - rewrite !lookup_delete_ne by done. apply Ha.
Qed.

(** *** Histories *)

Inductive event :=
| Got (k : string) (r : option string) (now : Z)
| Stored (k v : string) (exp : option Z)
| Deleted (k : string)
| Waited.

Inductive does : World -> event -> World -> Prop :=
| does_get w k r w' : get clk k w = (Ok r, w') -> does w (Got k r (clk (tick w))) w'
| does_set w k v ttl l p' :
    set clk order max_instant k v ttl {| the_world := w; left_ := l |} = (Ret (Ok tt), p') ->
    does w (Stored k v (expiry ttl w)) (the_world p')
| does_delete w k r w' : delete k w = (r, w') -> does w (Deleted k) w'
| does_wait w : does w Waited {| store := store w; tick := S (tick w) |}.

Inductive history : World -> list event -> World -> Prop :=
| no_history w : history w [] w
| more_history w e w' l w'' : does w e w' -> history w' l w'' -> history w (e :: l) w''.

(** A map with expiry times, from which only [delete] takes away. *)
Definition ideal_next (a : gmap string (string * option Z)) (e : event) : gmap string (string * option Z) :=
  match e with
  | Stored k v exp => <[k := (v, exp)]> a
  | Deleted k => base.delete k a
  | Got _ _ _ | Waited => a
  end.

Fixpoint ideal_answers (a : gmap string (string * option Z)) (l : list event) : Prop :=
  match l with
  | [] => True
  | e :: l =>
      match e with Got k r now => r = ideal_get k now a | _ => True end /\ ideal_answers (ideal_next a e) l
  end.

Lemma does_agrees w e w' a :
  agree (tick w) (store w) a -> does w e w' ->
  match e with Got k r now => r = ideal_get k now a | _ => True end /\ agree (tick w') (store w') (ideal_next a e).
Proof.
  intros Ha Hdo. revert Ha. destruct Hdo as [w0 k r w1 Hg|w0 k v ttl l p' Hs|w0 k r w1 Hd|w0]; intros Ha; cbn [ideal_next].
  - destruct (get_agrees _ _ _ _ _ Ha Hg) as [Hr Ha']. by simplify_eq.
  - split; [done|]. by eapply set_agrees.
  - split; [done|]. by eapply delete_agrees.
  - split; [done|]. apply (agree_later (tick w0)); [cbn; lia|done].
Qed.

Lemma history_agrees w l w' a : agree (tick w) (store w) a -> history w l w' -> ideal_answers a l.
Proof.
  intros Ha Hh. revert a Ha. induction Hh as [|w e w1 l w2 Hd Hh IH]; intros a Ha; [done|].
  destruct (does_agrees _ _ _ _ Ha Hd) as [He Ha']. split; [done|]. by apply IH.
Qed.

End Facts.
End MemcachedFacts.

(** ** What Redis stores *)
Module RedisCacheFacts.
Import RedisCache Drop Timeout Errors Answers.

(** A value, and the millisecond from which it is gone. *)
Definition alive (now : Z) (kv : string * (string * option Z)) : Prop :=
  match kv.2.2 with Some e => now < e | None => True end.

#[export] Instance alive_dec now kv : Decision (alive now kv).
Proof. unfold alive. destruct (kv.2.2); apply _. Defined.

(** What the documentation of the commands says: the server's clock does not go back, what
    has expired is gone, and a command that is answered has done what it says. *)
Class RedisLaw `{RE : Redis R} := {
  time : R -> Z;
  view : R -> gmap string (string * option Z);
  acquire_law r a r' : acquire r = (a, r') -> time r <= time r' /\ view r' = filter (alive (time r')) (view r);
  get_law k r reply r' : command (Get k) r = (Ok reply, r') ->
    time r <= time r' /\ view r' = filter (alive (time r')) (view r) /\ reply = Bulk (fst <$> view r' !! k);
  set_law k v r reply r' : command (Set_ k v) r = (Ok reply, r') -> view r' = <[k := (v, None)]> (filter (alive (time r')) (view r));
  psetex_law k v ms r reply r' : command (PSetEx k v ms) r = (Ok reply, r') ->
    view r' = <[k := (v, Some (time r' + ms))]> (filter (alive (time r')) (view r));
}.

Section Facts.
Context `{RL : RedisLaw R}.
Context (clk : nat -> Z) (warn : bool) (fits : Z -> R -> option nat) (config : Breaker.BreakerConfig) (limit : option Z).

Local Abbreviation server c := (outside (Outbound.world c)).

Lemma guarded_run {A} (m : M R Error A) p v p' :
  guarded clk warn fits config limit m p = (Ret (Ok v), p') ->
  exists l q, m {| the_world := server (the_world p); left_ := l |} = (Ret (Ok v), q) /\ server (the_world p') = the_world q.
Proof.
  unfold guarded, Outbound.guarded. destruct (Breaker.enter _ _ _ _) as [[[e|probe] i] t]; [done|].
  unfold run_with_timeout, run_for. cbn [the_world left_ outside]. destruct (m _) as [[r|] q] eqn:Hm.
  - destruct (Breaker.finish _ _ _ _ _ _ _) as [i' t'] eqn:Hfin. intros Hr. simplify_eq/=. eauto.
  - destruct (match left_ p with Some l => _ | None => false end); [done|]. destruct limit; [|done].
    by destruct (Breaker.finish _ _ _ _ _ _ _).
Qed.

Lemma call_ok {A} op (f : Reply -> result A string) c p v p' :
  call op f c p = (Ret (Ok v), p') ->
  exists r1 reply, (exists a, acquire (the_world p) = (a, r1)) /\ command c r1 = (Ok reply, the_world p') /\ f reply = Ok v.
Proof.
  unfold call, conn. intros Hc. apply bind_ok in Hc as (x & p1 & H1 & Hc). apply effect_ok in H1.
  destruct (acquire (the_world p)) as [a r1] eqn:Ha. injection H1 as _ Hr1.
  apply bind_ok in Hc as (answer & p2 & H2 & Hc). apply effect_ok in H2.
  destruct (command c (the_world p1)) as [b r2] eqn:Hb. simplify_eq/=. apply ret_ok in Hc as [Hc ->].
  destruct answer as [reply|e]; cbn in Hc; [|done]. destruct (f reply) as [y|e] eqn:Hf; cbn in Hc; simplify_eq.
  exists (the_world p1), reply. by eauto.
Qed.

Lemma alive_later (t : Z) (m : gmap string (string * option Z)) k : filter (alive t) m !! k = match m !! k with
  | Some x => if decide (alive t (k, x)) then Some x else None | None => None end.
Proof.
  destruct (m !! k) as [x|] eqn:Hk.
  - destruct (decide (alive t (k, x))) as [Ha|Ha]; [by apply map_lookup_filter_Some|].
    apply map_lookup_filter_None. right. intros y Hy. congruence.
  - apply map_lookup_filter_None. by left.
Qed.

(** A get finds what is alive when the server answers. *)
Lemma get_reads k p v p' :
  get clk warn fits config limit k p = (Ret (Ok v), p') ->
  exists r0, time (server (the_world p)) <= time r0 /\ time r0 <= time (server (the_world p')) /\
    v = (match view (server (the_world p)) !! k with
         | Some x => if decide (alive (time (server (the_world p'))) (k, x)) then Some x.1 else None
         | None => None
         end).
Proof.
  unfold get. intros Hg. apply guarded_run in Hg as (l & q & Hg & ->). apply call_ok in Hg as (r1 & reply & [a Ha] & Hc & Hf).
  apply acquire_law in Ha as [Ht Hv]. apply get_law in Hc as (Ht2 & Hv2 & ->). cbn in Hf. simplify_eq. cbn [the_world] in *.
  exists r1. do 2 (split; [done|]). rewrite Hv2, Hv, !alive_later.
  destruct (view _ !! k) as [x|]; [|done].
  destruct (decide (alive (time r1) (k, x))) as [H1|H1].
  - by destruct (decide (alive (time (the_world q)) (k, x))).
  - destruct (decide (alive (time (the_world q)) (k, x))) as [H2|H2]; [|done]. exfalso. apply H1.
    unfold alive in *. cbn in *. destruct (x.2); [lia|done].
Qed.

End Facts.
End RedisCacheFacts.

Module CacheSpec.
Import Memcached MemcachedFacts.

(** The cache in memory answers as a map of values with expiry times from which only
    [delete] takes anything away: whatever it sweeps, and in whatever order it walks its
    entries, every [get] of a history finds exactly the last value stored that has not
    expired by the time the clock shows. *)
Theorem memory_cache_answers_as_a_map clk order max_instant t l w :
  (forall t t', (t < t')%nat -> clk t < clk t') ->
  (forall m : gmap string (string * option Z), order m ≡ₚ map_to_list m) ->
  history clk order max_instant {| store := ∅; tick := t |} l w ->
  ideal_answers ∅ l.
Proof. intros Hc Ho Hh. eapply history_agrees; [done|done| |done]. intros k. by left. Qed.

Lemma size_deleted (m : gmap string (string * option Z)) ks :
  (size (foldr base.delete m ks) <= size m)%nat.
Proof.
  induction ks as [|k ks IH]; [done|]. cbn [foldr]. rewrite map_size_delete. case_match; unfold id; lia.
Qed.

Lemma size_shrinks (m : gmap string (string * option Z)) k ks :
  is_Some (m !! k) -> (S (size (foldr base.delete m (k :: ks))) <= size m)%nat.
Proof.
  intros [x Hx]. cbn [foldr].
  assert (Hc : base.delete k (foldr base.delete m ks) = foldr base.delete (base.delete k m) ks).
  { apply map_eq. intros k'. destruct (decide (k' = k)) as [->|Hne].
    - rewrite lookup_delete_eq, lookup_deleted, lookup_delete_eq. by case_bool_decide.
    - by rewrite lookup_delete_ne, !lookup_deleted, lookup_delete_ne. }
  rewrite Hc. pose proof (size_deleted (base.delete k m) ks) as Hs. rewrite map_size_delete, Hx in Hs.
  assert (size m <> 0%nat) by (eapply map_size_ne_0_lookup_2; eauto). lia.
Qed.

(** A store at its threshold in which something has expired does not grow by a [set]. *)
Theorem full_store_gives_space_back clk order max_instant k v ttl w l p' k0 v0 e0 :
  (forall m : gmap string (string * option Z), order m ≡ₚ map_to_list m) ->
  SWEEP_THRESHOLD <= Z.of_nat (size (store w)) ->
  store w !! k0 = Some (v0, Some e0) -> e0 <= clk (tick w) ->
  set clk order max_instant k v ttl {| the_world := w; left_ := l |} = (Ret (Ok tt), p') ->
  (size (store (the_world p')) <= size (store w))%nat.
Proof.
  intros Ho Hfull H0 He. unfold set, sweep. cbn [the_world]. assert ((SWEEP_THRESHOLD <=? Z.of_nat (size (store w))) = true) as -> by lia.
  assert (Hshrunk : (S (size (retain order (clk (tick w)) (store w))) <= size (store w))%nat).
  { unfold retain, SWEEP_SAMPLE.
    destruct (swept 64 (clk (tick w)) (order (store w))) as [|k1 ks] eqn:Hs.
    - exfalso. revert Hs. apply (swept_some _ _ _ k0 v0 e0); [|done]. apply list_elem_of_In. rewrite Ho. by apply elem_of_map_to_list.
    - apply size_shrinks. assert (Hk : In k1 (swept 64 (clk (tick w)) (order (store w)))) by (rewrite Hs; by left).
      apply swept_expired in Hk as (v1 & e1 & Hin & _). exists (v1, Some e1). apply elem_of_map_to_list. rewrite <- Ho. by apply list_elem_of_In. }
  set (m := retain order (clk (tick w)) (store w)) in *. unfold expires. cbn [store tick].
  assert (Hins : forall x, (size (<[k := x]> m) <= S (size m))%nat) by (intros x; rewrite map_size_insert; case_match; unfold id; lia).
  destruct (ttl =? 0); [|destruct (_ <=? max_instant)]; intros; simplify_eq/=; [pose proof (Hins (v, None))|pose proof (Hins (v, Some (clk (S (tick w)) + ttl)))]; lia.
Qed.

(** What Redis was told to store comes back until its time to live, in whole milliseconds,
    has passed on the server's clock; and a time to live below a millisecond is none at all:
    the value stays. *)
Theorem stored_value_comes_back R (RE : RedisCache.Redis R) (RL : RedisCacheFacts.RedisLaw) clk warn fits config limit k v ttl p p1 x p2 :
  0 <= ttl ->
  RedisCache.set clk warn fits config limit k v ttl p = (Ret (Ok tt), p1) ->
  RedisCache.get clk warn fits config limit k p1 = (Ret (Ok x), p2) ->
  let stored_at := RedisCacheFacts.time (Timeout.outside (Outbound.world (the_world p1))) in
  let read_at := RedisCacheFacts.time (Timeout.outside (Outbound.world (the_world p2))) in
  x = if ttl <? 1000000 then Some v
      else if read_at <? stored_at + RedisCache.millis ttl then Some v else None.
Proof.
  intros Ht Hs Hg. cbv zeta. apply RedisCacheFacts.get_reads in Hg as (r0 & _ & _ & ->).
  unfold RedisCache.set in Hs. apply RedisCacheFacts.guarded_run in Hs as (l & q & Hs & Hp). rewrite Hp.
  assert (Hms : (0 <? ttl / 1000000) = negb (ttl <? 1000000)).
  { destruct (ttl <? 1000000) eqn:Hlt; bool_prop; cbn.
    - rewrite Z.div_small by lia. done.
    - pose proof (Z.div_le_mono 1000000 ttl 1000000 ltac:(lia) Hlt) as Hd. rewrite Z.div_same in Hd by lia. lia. }
  rewrite Hms in Hs. destruct (ttl <? 1000000); cbn [negb] in Hs; apply RedisCacheFacts.call_ok in Hs as (r1 & reply & _ & Hc & _).
  - apply RedisCacheFacts.set_law in Hc as ->. rewrite lookup_insert_eq. unfold RedisCacheFacts.alive. cbn. by rewrite decide_True.
  - apply RedisCacheFacts.psetex_law in Hc as ->. rewrite lookup_insert_eq. unfold RedisCacheFacts.alive. cbn [snd fst].
    destruct (Z.ltb_spec (RedisCacheFacts.time (Timeout.outside (Outbound.world (the_world p2)))) (RedisCacheFacts.time (the_world q) + RedisCache.millis ttl));
      [by rewrite decide_True by lia|by rewrite decide_False by lia].
Qed.

(** Asking for no keys at all sends nothing and leaves the breaker alone. *)
Theorem empty_multi_get_is_local R (RE : RedisCache.Redis R) clk warn fits config limit p :
  RedisCache.multi_get clk warn fits config limit [] p = (Ret (Ok []), p).
Proof. done. Qed.

End CacheSpec.

Module CacheDemo.
Import Memcached MemcachedFacts.

Definition ticking (t : nat) : Z := Z.of_nat t.

Definition a_history : list event := [Stored "k" "v" (Some 12); Got "k" (Some "v") 3; Waited; Deleted "k"; Got "k" None 5].

Lemma memory_cache_answers_as_a_map_witness : ideal_answers ∅ a_history.
Proof.
  apply (CacheSpec.memory_cache_answers_as_a_map ticking map_to_list 1000 2%nat a_history {| store := base.delete "k" {["k" := ("v", Some 12)]}; tick := 5 |}).
  - unfold ticking. lia.
  - done.
  - eapply more_history; [exact (does_set ticking map_to_list 1000 {| store := ∅; tick := 2 |} "k" "v" 10 None
                             {| the_world := {| store := {["k" := ("v", Some 12)]}; tick := 3 |}; left_ := None |} eq_refl)|].
    eapply more_history; [exact (does_get ticking map_to_list 1000 {| store := {["k" := ("v", Some 12)]}; tick := 3 |} "k" (Some "v") _ eq_refl)|].
    eapply more_history; [apply does_wait|]. eapply more_history; [by eapply (does_delete _ _ _ _ "k" (Ok tt))|].
    eapply more_history; [|apply no_history].
    exact (does_get ticking map_to_list 1000 {| store := base.delete "k" {["k" := ("v", Some 12)]}; tick := 5 |} "k" None _ eq_refl).
Defined.

(** A server that does what the documentation says; a millisecond passes with each command. *)
#[local] Existing Instance RedisCacheFacts.alive_dec.
Record server := { clock : Z; data : gmap string (string * option Z) }.
Definition tidy (s : server) : server :=
  {| clock := clock s + 1; data := filter (RedisCacheFacts.alive (clock s + 1)) (data s) |}.
Definition put (k : string) (x : string * option Z) (s : server) : server := {| clock := clock s; data := <[k := x]> (data s) |}.

#[local] Instance demo_redis : RedisCache.Redis server := {|
  RedisCache.acquire s := (Ok tt, tidy s);
  RedisCache.command c s :=
    let s := tidy s in
    match c with
    | RedisCache.Get k => (Ok (RedisCache.Bulk (fst <$> data s !! k)), s)
    | RedisCache.Set_ k v => (Ok RedisCache.Done, put k (v, None) s)
    | RedisCache.PSetEx k v ms => (Ok RedisCache.Done, put k (v, Some (clock s + ms)) s)
    | _ => (Err "unknown command", s)
    end |}.

#[local] Instance demo_redis_law : RedisCacheFacts.RedisLaw.
Proof.
  refine {| RedisCacheFacts.time := clock; RedisCacheFacts.view := data |}.
  - intros r a r' [= <- <-]. split; [cbn; lia|done].
  - intros k r reply r' [= <- <-]. split; [cbn; lia|]. done.
  - intros k v r reply r' [= <- <-]. done.
  - intros k v ms r reply r' [= <- <-]. done.
Defined.

Definition redis_client : Outbound.Client server :=
  {| Outbound.inner := (Breaker.new ShellDemo.still Breaker.BreakerConfig_default 0).1; Outbound.tick := 1;
     Outbound.world := {| Timeout.TIMEOUTS := [0; 0; 0; 0; 0; 0; 0]; Timeout.outside := {| clock := 0; data := ∅ |} |} |}.

Definition after_set : outcome Errors.Error unit * proc (Outbound.Client server) :=
  RedisCache.set ShellDemo.still true (fun _ _ => None) Breaker.BreakerConfig_default None "k" "v" 3000000 {| the_world := redis_client; left_ := None |}.
Definition after_get : outcome Errors.Error (option string) * proc (Outbound.Client server) :=
  RedisCache.get ShellDemo.still true (fun _ _ => None) Breaker.BreakerConfig_default None "k" after_set.2.

Lemma stored_value_comes_back_witness :
  Some "v" = (if clock (Timeout.outside (Outbound.world (the_world after_get.2))) <?
                 clock (Timeout.outside (Outbound.world (the_world after_set.2))) + 3 then Some "v" else None).
Proof.
  apply (CacheSpec.stored_value_comes_back server demo_redis demo_redis_law ShellDemo.still true (fun _ _ => None)
           Breaker.BreakerConfig_default None "k" "v" 3000000 {| the_world := redis_client; left_ := None |} after_set.2 (Some "v") after_get.2).
  - lia.
  - reflexivity.
  - reflexivity.
Defined.

End CacheDemo.
