(* ===== verification/Config.v ===== *)
(** * Configuration and topology sources (ecat-config, ecat-config-remote, ecat-data-sharding)

    [Config] with its sources (the environment, files, obfuscated values), the key-value
    stores of Consul and etcd with the watch of Consul, and the shard topologies read from
    them: the watch tasks that keep the last good catalog, and the check of proxy mode.
    HTTP, base64, the JSON and YAML parsers and the file system are operations of classes.
    A function that can panic answers an [option]; [None] is the panic. *)

From Stdlib Require Import Ascii.
From S2P Require Import Prelude Json Text SagaSql S3Sink ShardCatalog.

Local Open Scope Z_scope.
Local Open Scope ecat_scope.

Module Config.

Inductive ConfigError := Other (message : string).

Notation settings := (gmap string Value).

(** Third-party parsers, the error texts the code passes on, Unicode lower case, and the
    order in which a hash map is iterated. *)
Class Parsers `{JP : JsonParse} := {
  parse_finite_f64 : string -> option Number;
  yaml_parse : string -> result Value string;
  utf8_error : list Z -> string;
  to_lowercase : string -> string;
  iter : gmap string Value -> list (string * Value);
}.

Class ParsersLaw `{PA : Parsers} := { iter_perm m : iter m ≡ₚ map_to_list m }.

Section Sources.
Context `{PA : Parsers} {JI : JsonInt} {W : Type}.

Record ConfigSource := { load_ : W -> option (result settings ConfigError) * W }.

(** [Config::load]: the later source wins. *)
Definition extend (data values : settings) : settings := values ∪ data.

Definition load (data : settings) (source : ConfigSource) (w : W)
    : settings * option (result unit ConfigError) * W :=
  let '(answer, w) := load_ source w in
  match answer with
  | None => (data, None, w)
  | Some (Err e) => (data, Some (Err e), w)
  | Some (Ok values) => (extend data values, Some (Ok tt), w)
  end.

Definition get {T} (deserialize : Value -> option T) (data : settings) (key : string) : option T :=
  match data !! key with Some v => deserialize v | None => None end.

(** *** The environment *)

Definition parse_env_value (s : string) : Value :=
  if String.eqb (to_ascii_lowercase s) "true" then VBool true
  else if String.eqb (to_ascii_lowercase s) "false" then VBool false
  else match S3.parse_i64 s with
       | Some n => VNumber (number_of_i64 n)
       | None => match parse_finite_f64 s with Some n => VNumber n | None => VString s end
       end.

Definition insert_var (prefix : string) (key value : string) (map : settings) : settings :=
  match strip_prefix prefix key with
  | Some rest => <[to_lowercase rest := parse_env_value value]> map
  | None => map
  end.

(** [std::env::vars] panics at a variable that is not Unicode: [None]. *)
Fixpoint load_vars (prefix : string) (vars : list (option (string * string))) (map : settings) : option settings :=
  match vars with
  | [] => Some map
  | None :: _ => None
  | Some (key, value) :: vars => load_vars prefix vars (insert_var prefix key value map)
  end.

Definition EnvSource (vars : W -> list (option (string * string))) (prefix : string) : ConfigSource :=
  {| load_ := fun w => (Ok <$> load_vars prefix (vars w) ∅, w) |}.

(** *** Files *)

Record PathBuf := { display : string; file_name : option string }.

(** [Path::extension]: what follows the last dot, unless the name starts with it. *)
Definition extension (p : PathBuf) : option string :=
  match file_name p with
  | None => None
  | Some name =>
      match rsplit_once "."%char name with
      | Some (before, after) => if String.eqb before "" then None else Some after
      | None => None
      end
  end.

Definition is_yaml (p : PathBuf) : bool :=
  match extension p with Some e => String.eqb e "yaml" || String.eqb e "yml" | None => false end.

Definition collect (l : list (string * Value)) : settings :=
  foldl (fun m kv => <[kv.1 := kv.2]> m) (∅ : gmap string Value) l.

Definition read_file (p : PathBuf) (content : result string string) : result settings ConfigError :=
  match content with
  | Err e => Err (Other ("read " +:+ display p +:+ ": " +:+ e))
  | Ok content =>
      match (if is_yaml p then yaml_parse content else value_parse content) with
      | Err e => Err (Other e)
      | Ok (VObject members) => Ok (collect members)
      | Ok _ => Err (Other "expected a JSON/YAML object at top level")
      end
  end.

Definition FileSource (read_to_string : W -> PathBuf -> result string string) (p : PathBuf) : ConfigSource :=
  {| load_ := fun w => (Some (read_file p (read_to_string w p)), w) |}.

(** *** Obfuscated values *)

Definition hex_value (b : Z) : option Z :=
  if between 48 b 57 then Some (b - 48)
  else if between 97 b 102 then Some (b - 87)
  else if between 65 b 70 then Some (b - 55)
  else None.

(** [u8::from_str_radix] of two bytes in base 16; a leading plus sign is a sign. *)
Definition byte_from_hex (a b : Z) : result Z string :=
  ok_or (if a =? 43 then hex_value b
         else match hex_value a, hex_value b with Some x, Some y => Some (16 * x + y) | _, _ => None end)
    "invalid digit found in string".

(** Whether the next byte is inside a character: a slice that starts or ends there panics. *)
Definition inside_char (l : list Z) : bool := match l with b :: _ => Utf8.continuation b | [] => false end.

Fixpoint hex_pairs (l : list Z) : option (result (list Z) string) :=
  match l with
  | a :: b :: l =>
      if inside_char [a] || inside_char l then None else
      match byte_from_hex a b with
      | Err e => Some (Err e)
      | Ok n =>
          match hex_pairs l with
          | Some (Ok rest) => Some (Ok (n :: rest))
          | other => other
          end
      end
  | _ => Some (Ok [])
  end.

Definition hex_decode (s : string) : option (result (list Z) string) :=
  let bytes := bytes_of (trim s) in
  if Nat.even (length bytes) then hex_pairs bytes else Some (Err "odd hex length").

Definition xor_key (key bytes : list Z) : list Z :=
  imap (fun i b => Z.lxor b (default 0 (key !! (i mod length key)%nat))) bytes.

Definition deobfuscate (encoded : string) (key : list Z) : option (result string ConfigError) :=
  match hex_decode encoded with
  | None => None
  | Some (Err e) => Some (Err (Other ("hex: " +:+ e)))
  | Some (Ok bytes) =>
      match key with
      | [] => Some (Err (Other "empty obfuscation key"))
      | _ =>
          let out := xor_key key bytes in
          Some (ok_or (Utf8.from_utf8 out) (Other ("utf8: " +:+ utf8_error out)))
      end
  end.

(** A text is read as JSON where it is JSON. *)
Definition typed (text : string) : Value :=
  match value_parse text with Ok v => v | Err _ => VString text end.

Definition reveal (key : list Z) (v : Value) : option (result Value ConfigError) :=
  match v with
  | VString s =>
      match strip_prefix "obfs:" s with
      | Some stripped =>
          match deobfuscate stripped key with
          | None => None
          | Some (Err e) => Some (Err e)
          | Some (Ok dec) => Some (Ok (typed dec))
          end
      | None => Some (Ok v)
      end
  | _ => Some (Ok v)
  end.

Fixpoint reveal_all (key : list Z) (l : list (string * Value)) (out : settings) : option (result settings ConfigError) :=
  match l with
  | [] => Some (Ok out)
  | (k, v) :: l =>
      match reveal key v with
      | None => None
      | Some (Err e) => Some (Err e)
      | Some (Ok v) => reveal_all key l (<[k := v]> out)
      end
  end.

Definition ObfuscatedSource (inner : ConfigSource) (key : list Z) : ConfigSource :=
  {| load_ := fun w =>
       match load_ inner w with
       | (Some (Ok map), w) => (reveal_all key (iter map) ∅, w)
       | other => other
       end |}.

End Sources.
End Config.

Module Remote.
Import Config.

(** *** Keys and values of both stores *)

Fixpoint trim_slash_start (s : string) : string :=
  match s with
  | String c rest => if Ascii.eqb c "/"%char then trim_slash_start rest else s
  | EmptyString => s
  end.

Fixpoint trim_slash_end (s : string) : string :=
  match s with
  | EmptyString => s
  | String c rest =>
      match trim_slash_end rest with
      | EmptyString => if Ascii.eqb c "/"%char then EmptyString else String c EmptyString
      | rest => String c rest
      end
  end.

Definition trim_slashes (s : string) : string := trim_slash_end (trim_slash_start s).

Fixpoint dotted (s : string) : string :=
  match s with
  | EmptyString => EmptyString
  | String c s => String (if Ascii.eqb c "/"%char then "."%char else c) (dotted s)
  end.

Definition relative_key (prefix key : string) : string :=
  dotted (trim_slashes (default key (strip_prefix prefix key))).

Section Remote.
Context `{PA : Parsers} {W : Type}.

(** [base64], and the servers behind [reqwest]. *)
Class Base64 := { base64_encode : list Z -> string; base64_decode : string -> option (list Z) }.

Record ConsulResponse := {
  c_success : bool;
  c_index : option string;
  c_text : string;
  c_entries : result (list (string * option string)) string;
}.

Record ConsulRequest := {
  c_url : string;
  c_query : list (string * string);
  c_timeout_secs : Z;
  c_token : option string;
}.

Record EtcdResponse := {
  e_success : bool;
  e_status : string;
  e_text : string;
  e_kvs : result (list (string * string)) string;
}.

Record EtcdRequest := {
  e_url : string;
  e_body : list (string * string);
  e_auth : option (string * string);
  e_timeout_secs : Z;
}.

Class Servers := {
  consul_send : ConsulRequest -> W -> result ConsulResponse string * W;
  etcd_send : EtcdRequest -> W -> result EtcdResponse string * W;
}.

Context {B64 : Base64} {SV : Servers}.

Definition decoded (bytes : option (list Z)) : option string :=
  match bytes with Some bytes => Utf8.from_utf8 bytes | None => None end.

(** *** Consul *)

Definition CONSUL_BLOCK_WAIT : string := "5m".
Definition CONSUL_TIMEOUT_SECS : Z := 330.
Definition WATCH_CHANNEL_CAPACITY : nat := 8.

Record ConsulConfigSource := { cs_base_url : string; cs_prefix : string; cs_token : option string }.

Definition consul_request (s : ConsulConfigSource) (index : option string) : ConsulRequest :=
  {| c_url := cs_base_url s +:+ "/v1/kv/" +:+ cs_prefix s;
     c_query := ("recurse", "true") ::
                match index with Some i => [("index", i); ("wait", CONSUL_BLOCK_WAIT)] | None => [] end;
     c_timeout_secs := CONSUL_TIMEOUT_SECS;
     c_token := cs_token s |}.

Definition decoded_value (value : option string) : option string :=
  match value with Some v => decoded (base64_decode v) | None => None end.

Definition consul_entry (prefix : string) (map : settings) (entry : string * option string) : settings :=
  match decoded_value entry.2 with
  | Some text => <[relative_key prefix entry.1 := typed text]> map
  | None => map
  end.

Definition consul_read (s : ConsulConfigSource) (index : option string) (sent : result ConsulResponse string)
    : result (settings * option string) ConfigError :=
  match sent with
  | Err e => Err (Other ("consul kv: " +:+ e))
  | Ok r =>
      if negb (c_success r) then Err (Other ("consul kv failed: " +:+ c_text r))
      else if (match index with Some _ => true | None => false end) && (match c_index r with None => true | Some _ => false end)
      then Err (Other "consul kv: blocking query response missing X-Consul-Index")
      else match c_entries r with
           | Err e => Err (Other ("consul parse: " +:+ e))
           | Ok entries => Ok (foldl (consul_entry (cs_prefix s)) ∅ entries, c_index r)
           end
  end.

Definition consul_fetch (s : ConsulConfigSource) (index : option string) (w : W)
    : result (settings * option string) ConfigError * W :=
  let '(sent, w) := consul_send (consul_request s index) w in
  (consul_read s index sent, w).

Definition consul_load (s : ConsulConfigSource) (w : W) : result settings ConfigError * W :=
  let '(fetched, w) := consul_fetch s None w in
  (let? p := fetched in Ok p.1, w).

Definition frame : Type := result settings ConfigError.

(** One turn of the loop of [watch]: what it sends, its next index, and whether it sleeps. *)
Definition watch_turn (index : option string) (fetched : result (settings * option string) ConfigError)
    : option frame * option string * bool :=
  match fetched with
  | Ok (map, new_index) =>
      (if negb (bool_decide (index = new_index)) || bool_decide (index = None) then Some (Ok map) else None,
       new_index,
       bool_decide (new_index = None))
  | Err e => (Some (Err e), index, true)
  end.

(** *** etcd *)

Definition ETCD_TIMEOUT_SECS : Z := 10.

Record EtcdConfigSource := { es_endpoints : list string; es_prefix : string; es_auth : option (string * string) }.

(** [prefix_end], on the reversed bytes: the last byte that is not 255 is incremented. *)
Fixpoint bump (rev_bytes : list Z) : list Z :=
  match rev_bytes with
  | [] => [0]
  | last :: rest => if last =? 255 then bump rest else reverse ((last + 1) :: rest)
  end.

Definition prefix_end (prefix : list Z) : list Z := bump (reverse prefix).

Definition etcd_request (s : EtcdConfigSource) (endpoint : string) : EtcdRequest :=
  {| e_url := trim_slash_end endpoint +:+ "/v3/kv/range";
     e_body := [("key", base64_encode (bytes_of (es_prefix s)));
                ("range_end", base64_encode (prefix_end (bytes_of (es_prefix s))))];
     e_auth := es_auth s;
     e_timeout_secs := ETCD_TIMEOUT_SECS |}.

Definition etcd_entry (prefix : string) (map : settings) (kv : string * string) : settings :=
  match base64_decode kv.1, base64_decode kv.2 with
  | Some key, Some value =>
      match Utf8.from_utf8 key, Utf8.from_utf8 value with
      | Some key, Some value => <[relative_key prefix key := typed value]> map
      | _, _ => map
      end
  | _, _ => map
  end.

Definition etcd_read (s : EtcdConfigSource) (endpoint : string) (sent : result EtcdResponse string) : result settings ConfigError :=
  match sent with
  | Err e => Err (Other ("etcd kv " +:+ endpoint +:+ ": " +:+ e))
  | Ok r =>
      if negb (e_success r) then Err (Other ("etcd kv " +:+ endpoint +:+ ": " +:+ e_status r +:+ ": " +:+ e_text r))
      else match e_kvs r with
           | Err e => Err (Other ("etcd parse " +:+ endpoint +:+ ": " +:+ e))
           | Ok kvs => Ok (foldl (etcd_entry (es_prefix s)) ∅ kvs)
           end
  end.

Definition fetch_from (s : EtcdConfigSource) (endpoint : string) (w : W) : result settings ConfigError * W :=
  let '(sent, w) := etcd_send (etcd_request s endpoint) w in
  (etcd_read s endpoint sent, w).

Fixpoint fetch_first (s : EtcdConfigSource) (endpoints : list string) (last_error : option ConfigError) (w : W)
    : result settings ConfigError * W :=
  match endpoints with
  | [] => (Err (default (Other "etcd kv: no endpoints") last_error), w)
  | endpoint :: endpoints =>
      match fetch_from s endpoint w with
      | (Ok map, w) => (Ok map, w)
      | (Err e, w) => fetch_first s endpoints (Some e) w
      end
  end.

Definition etcd_fetch (s : EtcdConfigSource) (w : W) : result settings ConfigError * W :=
  match es_endpoints s with
  | [] => (Err (Other "etcd kv: no endpoints configured"), w)
  | endpoints => fetch_first s endpoints None w
  end.

End Remote.
End Remote.

Module Topology.
Import Config Remote Catalog.

Section Topology.
Context `{PA : Parsers}.

(** Third-party: reading a catalog out of a JSON value, and the equality of values. *)
Class CatalogJson := {
  catalog_of_value : Value -> result ShardCatalog string;
  value_eqb : Value -> Value -> bool;
}.

Context {CJ : CatalogJson}.

Definition TOPOLOGY_KEY : string := "topology".

Definition error_text (e : ConfigError) : string := match e with Other m => "config error: " +:+ m end.

Definition topology_value (map : settings) : result Value ShardError :=
  ok_or (map !! TOPOLOGY_KEY) (Catalog.Config ("missing `" +:+ TOPOLOGY_KEY +:+ "` key in remote config")).

Definition parse_catalog (value : Value) : result ShardCatalog ShardError :=
  let? catalog := map_err (fun e => Catalog.Config ("invalid shard topology JSON: " +:+ e)) (catalog_of_value value) in
  let? _ := Catalog.validate catalog in
  Ok catalog.

(** What a frame of settings holds, [what] being the name of the store. *)
Definition read_topology (what : string) (f : frame) : result ShardCatalog ShardError :=
  let? map := map_err (fun e => Catalog.Config (what +:+ " topology: " +:+ error_text e)) f in
  let? value := topology_value map in
  parse_catalog value.

Section Load.
Context {W : Type} {B64 : Base64} {SV : Servers (W := W)}.

Definition consul_load_topology (s : ConsulConfigSource) (w : W) : result ShardCatalog ShardError * W :=
  let '(loaded, w) := consul_load s w in (read_topology "consul" loaded, w).

(** [EtcdTopologySource::load_value]. *)
Definition etcd_load_value (s : EtcdConfigSource) (w : W) : result Value ShardError * W :=
  let '(loaded, w) := etcd_fetch s w in
  (let? map := map_err (fun e => Catalog.Config ("etcd topology: " +:+ error_text e)) loaded in topology_value map, w).

Definition etcd_load_topology (s : EtcdConfigSource) (w : W) : result ShardCatalog ShardError * W :=
  let '(value, w) := etcd_load_value s w in (let? v := value in parse_catalog v, w).

End Load.

(** *** The watch of Consul: two tasks joined by a channel

    The task of [ConsulConfigSource::watch] fetches and sends frames, waiting while the
    channel is full; the task of [ConsulTopologySource::watch] receives them. *)

Record Watch := {
  w_index : option string;
  w_pending : option frame;
  w_queue : list frame;
  w_catalog : ShardCatalog;
  w_running : bool;
}.

Definition watch_start (initial : ShardCatalog) : Watch :=
  {| w_index := None; w_pending := None; w_queue := []; w_catalog := initial; w_running := true |}.

Inductive watch_event :=
| Fetched (answer : result (settings * option string) ConfigError)
| Sent
| Received (receivers : bool).

(** The producer fetches once its frame is sent. *)
Definition on_fetched (s : Watch) (answer : result (settings * option string) ConfigError) : option Watch :=
  match w_pending s with
  | Some _ => None
  | None =>
      let '(sent, index, _) := watch_turn (w_index s) answer in
      Some {| w_index := index; w_pending := sent; w_queue := w_queue s; w_catalog := w_catalog s; w_running := w_running s |}
  end.

Definition on_sent (s : Watch) : option Watch :=
  match w_pending s with
  | Some f =>
      if w_running s && Nat.ltb (length (w_queue s)) WATCH_CHANNEL_CAPACITY
      then Some {| w_index := w_index s; w_pending := None; w_queue := w_queue s ++ [f]; w_catalog := w_catalog s; w_running := w_running s |}
      else None
  | None => None
  end.

(** A catalog nobody receives ends the task, and with it the channel between the two. *)
Definition deliver (what : string) (f : frame) (receivers : bool) (c : ShardCatalog) : ShardCatalog * bool :=
  match read_topology what f with
  | Ok catalog => if receivers then (catalog, true) else (c, false)
  | Err _ => (c, true)
  end.

Definition on_received (s : Watch) (receivers : bool) : option Watch :=
  match w_queue s with
  | f :: rest =>
      if w_running s
      then let '(c, running) := deliver "consul" f receivers (w_catalog s) in
           Some {| w_index := w_index s; w_pending := w_pending s; w_queue := rest; w_catalog := c; w_running := running |}
      else None
  | [] => None
  end.

Definition watch_step (s : Watch) (e : watch_event) : option Watch :=
  match e with
  | Fetched answer => on_fetched s answer
  | Sent => on_sent s
  | Received receivers => on_received s receivers
  end.

Fixpoint watch_run (s : Watch) (l : list watch_event) : option Watch :=
  match l with
  | [] => Some s
  | e :: l => match watch_step s e with Some s => watch_run s l | None => None end
  end.

(** *** The watch of etcd: one task that polls *)

Record Poll := { p_last : option Value; p_catalog : ShardCatalog; p_running : bool }.

Definition poll_start (initial_value : Value) : result Poll ShardError :=
  let? initial := parse_catalog initial_value in
  Ok {| p_last := Some initial_value; p_catalog := initial; p_running := true |}.

Definition poll_turn (s : Poll) (loaded : frame) (receivers : bool) : Poll :=
  match loaded with
  | Err _ => s
  | Ok map =>
      match topology_value map with
      | Err _ => s
      | Ok value =>
          if (match p_last s with Some last => value_eqb last value | None => false end) then s
          else match parse_catalog value with
               | Err _ => s
               | Ok catalog =>
                   if receivers then {| p_last := Some value; p_catalog := catalog; p_running := true |}
                   else {| p_last := Some value; p_catalog := p_catalog s; p_running := false |}
               end
      end
  end.

Fixpoint poll_run (s : Poll) (l : list (frame * bool)) : Poll :=
  match l with
  | [] => s
  | (loaded, receivers) :: l => if p_running s then poll_run (poll_turn s loaded receivers) l else s
  end.

End Topology.

(** *** [StaticTopology] and [validate_proxy] *)

Definition static_load (catalog : ShardCatalog) : result ShardCatalog ShardError := Ok catalog.

Definition validate_proxy (cfg : ShardingConfig.ShardingConfig) : result unit ShardError :=
  match ShardingConfig.mode cfg with
  | ShardingConfig.Client => Err (Catalog.Config "proxy mode required: `mode` must be `proxy`")
  | ShardingConfig.Proxy =>
      match tables (ShardingConfig.catalog cfg) with
      | [] => Err (Catalog.Config "proxy mode requires at least one catalog table")
      | _ => ShardingConfig.validate cfg
      end
  end.

End Topology.
