(* ===== verification/ConfigSpec.v ===== *)
(** * What the configuration sources guarantee

    Layers of settings, the environment, obfuscated values; the prefix range of etcd; and
    the watches: the topology a router gets is that of the last good answer. *)

From Stdlib Require Import Ascii.
From S2P Require Import Prelude Json Text SagaSql S3Sink ShardCatalog ClickSink ClickSinkSpec Config.

Local Open Scope Z_scope.
Local Open Scope ecat_scope.

Module RangeFacts.
Import Remote.

Definition is_byte (b : Z) : Prop := 0 <= b < 256.

(** The order of keys in etcd. *)
Fixpoint key_leb (a b : list Z) : bool :=
  match a, b with
  | [], _ => true
  | _ :: _, [] => false
  | x :: a, y :: b => if x =? y then key_leb a b else x <? y
  end.

(** The keys of a range request: from [key] up to [range_end], or with no end where it is
    a zero byte. *)
Definition in_range (key range_end k : list Z) : bool :=
  key_leb key k && (bool_decide (range_end = [0]) || negb (key_leb range_end k)).

Lemma key_leb_app p a b : key_leb (p ++ a) (p ++ b) = key_leb a b.
Proof. induction p as [|x p IH]; [done|]. cbn. by rewrite Z.eqb_refl. Qed.

Lemma key_leb_prefix p k : key_leb p (p ++ k) = true.
Proof. rewrite <- (app_nil_r p) at 1. by rewrite key_leb_app. Qed.

(** Between [lo ++ b :: hi] and [lo ++ [b + 1]]. *)
Lemma between_keys lo b hi k :
  key_leb (lo ++ b :: hi) k = true -> key_leb (lo ++ [b + 1]) k = false ->
  exists k1, k = lo ++ b :: k1 /\ key_leb hi k1 = true.
Proof.
  revert k. induction lo as [|x lo IH]; intros [|y k] Hle Hlt; cbn in *; try done.
  - destruct (Z.eqb_spec b y) as [->|]; [by exists k|]. destruct (Z.eqb_spec (b + 1) y); [done|]. apply Z.ltb_lt in Hle. apply Z.ltb_ge in Hlt. lia.
  - destruct (Z.eqb_spec x y) as [->|]; [|congruence]. destruct (IH k Hle Hlt) as (k1 & -> & H). by exists k1.
Qed.

(** Nothing is above 255s but what starts with them. *)
Lemma all_max_above p k : Forall (fun b => b = 255) p -> Forall is_byte k -> key_leb p k = true -> p `prefix_of` k.
Proof.
  intros Hp. revert k. induction Hp as [|x p -> _ IH]; intros k Hk H; [apply prefix_nil|]. destruct k as [|y k]; [done|].
  apply Forall_cons in Hk as [Hy Hk]. unfold is_byte in Hy. cbn [key_leb] in H. destruct (Z.eqb_spec 255 y) as [<-|]; [|apply Z.ltb_lt in H; lia].
  apply prefix_cons, IH; done.
Qed.

Lemma bump_cases r : Forall is_byte r ->
  (Forall (fun b => b = 255) r /\ bump r = [0]) \/
  exists hi b lo, r = hi ++ b :: lo /\ Forall (fun b => b = 255) hi /\ b < 255 /\ bump r = reverse lo ++ [b + 1].
Proof.
  induction 1 as [|b r Hb _ IH]; [by left|]. cbn. destruct (Z.eqb_spec b 255) as [->|Hne].
  - destruct IH as [[H ->]|(hi & b & lo & -> & Hhi & Hlt & ->)]; [left; split; [by constructor|done]|].
    right. exists (255 :: hi), b, lo. split_and!; [done|by constructor|done|done].
  - right. exists [], b, r. unfold is_byte in Hb. split_and!; [done|done|lia|apply reverse_cons].
Qed.

Lemma prefix_end_cases p : Forall is_byte p ->
  (Forall (fun b => b = 255) p /\ prefix_end p = [0]) \/
  exists lo b hi, p = lo ++ b :: hi /\ Forall (fun b => b = 255) hi /\ b < 255 /\ prefix_end p = lo ++ [b + 1].
Proof.
  intros Hp. destruct (bump_cases (reverse p)) as [[H E]|(hi & b & lo & Hr & Hhi & Hlt & E)].
  - by apply Forall_reverse.
  - left. split; [|done]. by apply Forall_reverse.
  - right. exists (reverse lo), b, (reverse hi). split_and!; [|by apply Forall_reverse|done|done].
    rewrite <- (reverse_involutive p), Hr, reverse_app, reverse_cons, <- app_assoc. done.
Qed.

End RangeFacts.

Module SettingsFacts.
Import Config.

(** *** Hexadecimal *)

Definition hex_char (n : Z) : Z := if n <? 10 then 48 + n else 87 + n.

(** Two lower-case digits a byte, as [{:02x}] writes them. *)
Definition hex_bytes (l : list Z) : list Z := flat_map (fun b => [hex_char (b / 16); hex_char (b mod 16)]) l.
Definition hex_text (l : list Z) : string := of_bytes (hex_bytes l).

Lemma hex_char_range n : 0 <= n < 16 -> 48 <= hex_char n < 128.
Proof. unfold hex_char. destruct (Z.ltb_spec n 10); lia. Qed.

Lemma hex_value_char n : 0 <= n < 16 -> hex_value (hex_char n) = Some n.
Proof.
  intros H. assert (Hall : Forall (fun n => hex_value (hex_char n) = Some n) (seqZ 0 16)) by (vm_compute; repeat constructor).
  eapply Forall_forall in Hall; [exact Hall|]. apply elem_of_seqZ. lia.
Qed.

Lemma nibbles b : 0 <= b < 256 -> 0 <= b / 16 < 16 /\ 0 <= b mod 16 < 16.
Proof. intros H. pose proof (Z.mod_pos_bound b 16). repeat split; try lia; [apply Z.div_pos|apply Z.div_lt_upper_bound]; lia. Qed.

Lemma byte_from_hex_chars b : 0 <= b < 256 -> byte_from_hex (hex_char (b / 16)) (hex_char (b mod 16)) = Ok b.
Proof.
  intros H. unfold byte_from_hex. destruct (nibbles b H) as [Hh Hl].
  replace (hex_char (b / 16) =? 43) with false by (symmetry; apply Z.eqb_neq; pose proof (hex_char_range (b / 16)); lia).
  rewrite !hex_value_char by done. cbn. by rewrite <- Z.div_mod.
Qed.

Definition plain (b : Z) : Prop := 48 <= b < 128.

Lemma hex_bytes_plain l : Forall (fun b => 0 <= b < 256) l -> Forall plain (hex_bytes l).
Proof.
  induction 1 as [|b l Hb _ IH]; [constructor|]. destruct (nibbles b Hb) as [Hh Hl].
  apply Forall_cons. split; [by apply hex_char_range|]. apply Forall_cons. split; [by apply hex_char_range|done].
Qed.

Lemma plain_space a : plain a -> space1 a = false /\ forall b, space2 a b = false /\ space2 b a = false.
Proof. unfold plain, space1, space2, between. intros H. split; [lia|]. intros b. split; lia. Qed.

Lemma plain_space3 a b c : plain a -> space3 a b c = false /\ space3 c b a = false.
Proof. unfold plain, space3, between. intros H. split; lia. Qed.

Lemma trim_start_plain l : Forall plain l -> trim_start l = l.
Proof.
  destruct 1 as [|a l Ha Hl]; [done|]. cbn. rewrite (proj1 (plain_space a Ha)). destruct l as [|b l]; [done|].
  rewrite (proj1 (proj2 (plain_space a Ha) b)). destruct l as [|c l]; [done|]. by rewrite (proj1 (plain_space3 a b c Ha)).
Qed.

Lemma trim_rev_plain l : Forall plain l -> trim_rev l = l.
Proof.
  destruct 1 as [|a l Ha Hl]; [done|]. cbn. rewrite (proj1 (plain_space a Ha)). destruct l as [|b l]; [done|].
  rewrite (proj2 (proj2 (plain_space a Ha) b)). destruct l as [|c l]; [done|]. by rewrite (proj2 (plain_space3 a b c Ha)).
Qed.

Lemma trim_plain l : Forall plain l -> trim (of_bytes l) = of_bytes l.
Proof.
  intros H. unfold trim. rewrite bytes_of_of_bytes by (eapply Forall_impl; [exact H|unfold plain; intros; lia]).
  rewrite trim_start_plain by done. rewrite trim_rev_plain by by apply Forall_reverse. by rewrite reverse_involutive.
Qed.

Lemma inside_plain l : Forall plain l -> inside_char l = false.
Proof. destruct 1 as [|a l Ha _]; [done|]. cbn. unfold plain, Utf8.continuation, between in *. lia. Qed.

Lemma hex_pairs_bytes l : Forall (fun b => 0 <= b < 256) l -> hex_pairs (hex_bytes l) = Some (Ok l).
Proof.
  induction 1 as [|b l Hb Hl IH]; [done|]. pose proof (hex_bytes_plain _ Hl) as Hp.
  destruct (nibbles b Hb) as [Hh _].
  change (hex_bytes (b :: l)) with (hex_char (b / 16) :: hex_char (b mod 16) :: hex_bytes l). cbn [hex_pairs].
  rewrite (inside_plain (hex_bytes l)), byte_from_hex_chars, IH by done.
  by rewrite (inside_plain [_]) by (constructor; [by apply hex_char_range|done]).
Qed.

Lemma hex_length l : Nat.even (length (hex_bytes l)) = true.
Proof. by induction l. Qed.

Lemma hex_roundtrip l : Forall (fun b => 0 <= b < 256) l -> hex_decode (hex_text l) = Some (Ok l).
Proof.
  intros H. pose proof (hex_bytes_plain l H) as Hp. unfold hex_decode, hex_text. rewrite trim_plain by done.
  rewrite bytes_of_of_bytes by (eapply Forall_impl; [exact Hp|unfold plain; intros; lia]).
  by rewrite hex_length, hex_pairs_bytes.
Qed.

(** *** The key *)

Lemma log2_byte a : 0 <= a < 256 -> Z.log2 a < 8.
Proof. intros H. destruct (Z.eq_dec a 0) as [->|]; [done|]. apply Z.log2_lt_pow2; lia. Qed.

Lemma lxor_byte a b : 0 <= a < 256 -> 0 <= b < 256 -> 0 <= Z.lxor a b < 256.
Proof.
  intros Ha Hb. assert (Hx : 0 <= Z.lxor a b) by (apply Z.lxor_nonneg; lia). split; [done|].
  destruct (Z.eq_dec (Z.lxor a b) 0) as [->|Hne]; [lia|]. apply (Z.log2_lt_pow2 _ 8); [lia|].
  eapply Z.le_lt_trans; [apply Z.log2_lxor; lia|]. by apply Z.max_lub_lt; apply log2_byte.
Qed.

Lemma key_at_byte key i : Forall (fun b => 0 <= b < 256) key -> 0 <= default 0 (key !! i) < 256.
Proof. intros H. destruct (key !! i) as [b|] eqn:E; cbn; [by eapply (Forall_lookup_1 (fun b => 0 <= b < 256))|lia]. Qed.

Lemma xor_key_bytes key l : Forall (fun b => 0 <= b < 256) key -> Forall (fun b => 0 <= b < 256) l -> Forall (fun b => 0 <= b < 256) (xor_key key l).
Proof.
  intros Hk Hl. apply Forall_lookup. intros i b H. unfold xor_key in H. rewrite list_lookup_imap in H.
  destruct (l !! i) as [a|] eqn:E; cbn in H; simplify_eq. apply lxor_byte; [by eapply (Forall_lookup_1 (fun b => 0 <= b < 256))|by apply key_at_byte].
Qed.

Lemma xor_key_involutive key l : xor_key key (xor_key key l) = l.
Proof.
  apply list_eq. intros i. unfold xor_key. rewrite !list_lookup_imap. destruct (l !! i) as [a|]; cbn; [|done].
  by rewrite Z.lxor_assoc, Z.lxor_nilpotent, Z.lxor_0_r.
Qed.

Section Reveal.
Context `{PA : Parsers}.

(** A value as an operator hides it. *)
Definition obfuscate (key : list Z) (text : string) : string := "obfs:" +:+ hex_text (xor_key key (bytes_of text)).

Lemma reveal_all_spec key l out out' :
  NoDup l.*1 -> reveal_all key l out = Some (Ok out') ->
  forall k, (out' : gmap string Value) !! k =
    match (list_to_map l : gmap string Value) !! k with
    | Some v => match reveal key v with Some (Ok v') => Some v' | _ => None end
    | None => (out : gmap string Value) !! k
    end.
Proof.
  revert out. induction l as [|[k0 v0] l IH]; intros out Hnd Hr k.
  - cbn in Hr. simplify_eq. by rewrite list_to_map_nil, lookup_empty.
  - apply NoDup_cons in Hnd as [Hk0 Hnd]. cbn [reveal_all] in Hr. destruct (reveal key v0) as [[v|e]|] eqn:Hv; try done.
    rewrite (IH _ Hnd Hr k). rewrite list_to_map_cons.
    destruct (decide (k = k0)) as [->|Hne].
    + rewrite (not_elem_of_list_to_map_1 l k0 Hk0), !lookup_insert_eq. by rewrite Hv.
    + by rewrite !lookup_insert_ne by done.
Qed.

Lemma reveal_all_total key l out :
  Forall (fun kv => exists v, reveal key kv.2 = Some (Ok v)) l -> exists out', reveal_all key l out = Some (Ok out').
Proof.
  intros Hr. revert out. induction Hr as [|[k v] l [v' Hv] _ IH]; intros out; [by exists out|]. cbn in *. rewrite Hv. apply IH.
Qed.

End Reveal.
End SettingsFacts.


Module SettingsSpec.
Import Config SettingsFacts.

Section Spec.
Context `{PL : ParsersLaw} {JI : JsonInt} {W : Type}.

(** A load either lays the values of the source over what was there, or changes nothing. *)
Theorem load_layers_or_keeps (data : settings) (s : ConfigSource (W := W)) w :
  match load_ s w with
  | (Some (Ok values), w') =>
      load data s w = (extend data values, Some (Ok tt), w') /\
      forall T (d : Value -> option T) k,
        get d (extend data values) k = match (values : gmap string Value) !! k with Some v => d v | None => get d data k end
  | (Some (Err e), w') => load data s w = (data, Some (Err e), w')
  | (None, w') => load data s w = (data, None, w')
  end.
Proof.
  unfold load. destruct (load_ s w) as [[[values|e]|] w']; [|done..]. split; [done|]. intros T d k. unfold get, extend.
  rewrite lookup_union. by destruct ((values : gmap string Value) !! k), ((data : gmap string Value) !! k).
Qed.

Lemma number_is_no_word s w n : S3.parse_i64 s = Some n -> w = "true" \/ w = "false" -> String.eqb (to_ascii_lowercase s) w = false.
Proof.
  intros Hp Hw. apply String.eqb_neq. intros E. destruct s as [|a s]; [done|].
  assert (Ha : lower_ascii a = "t"%char \/ lower_ascii a = "f"%char).
  { destruct Hw as [-> | ->]; cbn [to_ascii_lowercase] in E; injection E as E _; auto. }
  clear E Hw. destruct a as [[] [] [] [] [] [] [] []]; vm_compute in Ha; destruct Ha as [Ha|Ha]; try discriminate Ha; clear Ha;
    unfold S3.parse_i64, parse_uint in Hp; cbn in Hp; by destruct (DecimalString.NilEmpty.uint_of_string s).
Qed.

(** A variable that is a decimal integer of 64 bits is read as that number. *)
Theorem env_integer_is_read (z : Z) : in_i64 z -> parse_env_value (Clickhouse.int_text z) = VNumber (number_of_i64 z).
Proof.
  intros Hz. pose proof (ClickFacts.parse_int_text z Hz) as Hp. unfold parse_env_value.
  rewrite !(number_is_no_word _ _ z) by auto. by rewrite Hp.
Qed.

(** One variable that is not Unicode fails the source, whatever its prefix. *)
Theorem foreign_variable_panics prefix vars map : None ∈ vars -> load_vars prefix vars map = None.
Proof.
  revert map. induction vars as [|[[k v]|] vars IH]; intros map Hin; [by apply not_elem_of_nil in Hin| |done].
  cbn. apply elem_of_cons in Hin as [?|Hin]; [done|]. by apply IH.
Qed.

(** What an environment without such a variable gives: under every key a variable of the
    prefix, and every variable of the prefix under its key. *)
Theorem env_settings_are_the_prefixed prefix (vars : list (string * string)) :
  exists m, load_vars prefix (Some <$> vars) ∅ = Some m /\
    (forall k v, (m : gmap string Value) !! k = Some v ->
       exists key value rest, (key, value) ∈ vars /\ strip_prefix prefix key = Some rest /\ to_lowercase rest = k /\ v = parse_env_value value) /\
    (forall key value rest, (key, value) ∈ vars -> strip_prefix prefix key = Some rest -> is_Some ((m : gmap string Value) !! to_lowercase rest)).
Proof.
  assert (Hgen : forall m0 : settings, exists m, load_vars prefix (Some <$> vars) m0 = Some m /\
    (forall k v, (m : gmap string Value) !! k = Some v -> (m0 : gmap string Value) !! k = Some v \/
       exists key value rest, (key, value) ∈ vars /\ strip_prefix prefix key = Some rest /\ to_lowercase rest = k /\ v = parse_env_value value) /\
    (forall k, is_Some ((m0 : gmap string Value) !! k) -> is_Some ((m : gmap string Value) !! k)) /\
    (forall key value rest, (key, value) ∈ vars -> strip_prefix prefix key = Some rest -> is_Some ((m : gmap string Value) !! to_lowercase rest))).
  { induction vars as [|[key0 value0] vars IH]; intros m0.
    - exists m0. split_and!; [done|auto|done|]. intros ??? Hin. by apply not_elem_of_nil in Hin.
    - destruct (IH (insert_var prefix key0 value0 m0)) as (m & Hm & Hin & Hkeep & Hall). exists m. cbn [fmap list_fmap load_vars].
      unfold insert_var in *. split_and!; [done|..].
      + intros k v Hk. destruct (Hin k v Hk) as [H0|(key & value & rest & Hi & Hr)].
        * destruct (strip_prefix prefix key0) as [rest|] eqn:Hs; [|by left].
          destruct (decide (to_lowercase rest = k)) as [<-|Hne]; [|rewrite lookup_insert_ne in H0 by done; by left].
          rewrite lookup_insert_eq in H0. simplify_eq. right. exists key0, value0, rest. split_and!; [by left|done..].
        * right. exists key, value, rest. split; [by right|done].
      + intros k Hk. apply Hkeep. destruct (strip_prefix prefix key0) as [rest|]; [|done].
        destruct (decide (to_lowercase rest = k)) as [<-|Hne]; [by rewrite lookup_insert_eq|by rewrite lookup_insert_ne].
      + intros key value rest Hi Hs. apply elem_of_cons in Hi as [[= -> ->]|Hi]; [|by eapply Hall].
        apply Hkeep. rewrite Hs. by rewrite lookup_insert_eq. }
  destruct (Hgen ∅) as (m & Hm & Hin & _ & Hall). exists m. split_and!; [done| |done].
  intros k v Hk. destruct (Hin k v Hk) as [He|He]; [by rewrite lookup_empty in He|done].
Qed.

Lemma reveal_obfuscated key text :
  key <> [] -> Forall (fun b => 0 <= b < 256) key -> Utf8.valid (bytes_of text) = true ->
  reveal key (VString (obfuscate key text)) = Some (Ok (typed text)).
Proof.
  intros Hne Hk Hv. unfold reveal, obfuscate. rewrite strip_prefix_app. unfold deobfuscate.
  rewrite hex_roundtrip by (apply xor_key_bytes; [done|apply bytes_of_range]).
  destruct key as [|b key]; [done|]. rewrite xor_key_involutive. unfold Utf8.from_utf8. rewrite Hv. cbn [ok_or].
  by rewrite of_bytes_bytes_of.
Qed.

(** Settings that an operator hid with the key of the source come back as they were: every
    text, parsed where it is JSON, under its own key, whatever order the map is walked in. *)
Theorem hidden_settings_come_back (inner : ConfigSource (W := W)) key (texts : gmap string string) w w' :
  key <> [] -> Forall (fun b => 0 <= b < 256) key ->
  map_Forall (fun _ text => Utf8.valid (bytes_of text) = true) texts ->
  load_ inner w = (Some (Ok ((fun text => VString (obfuscate key text)) <$> texts)), w') ->
  load_ (ObfuscatedSource inner key) w = (Some (Ok (typed <$> texts)), w').
Proof.
  intros Hne Hk Hv Hl. cbn [load_ ObfuscatedSource]. rewrite Hl. f_equal. set (m := _ <$> texts).
  pose proof (iter_perm m) as Hp. assert (Hnd : NoDup (iter m).*1) by (rewrite Hp; apply NoDup_fst_map_to_list).
  assert (Hlm : list_to_map (iter m) = (m : gmap string Value)).
  { etransitivity; [by apply list_to_map_proper|apply list_to_map_to_list]. }
  destruct (reveal_all_total key (iter m) ∅) as [out Ho].
  { rewrite Hp. apply Forall_forall. intros [k v] Hin. apply elem_of_map_to_list in Hin. unfold m in Hin.
    rewrite lookup_fmap in Hin. destruct (texts !! k) as [text|] eqn:Ht; cbn in Hin; simplify_eq.
    exists (typed text). apply reveal_obfuscated; [done..|]. by apply (Hv k). }
  rewrite Ho. do 2 f_equal. apply map_eq. intros k. rewrite (reveal_all_spec key _ _ _ Hnd Ho), Hlm. unfold m. rewrite !lookup_fmap.
  destruct (texts !! k) as [text|] eqn:Ht; cbn [fmap option_fmap option_map]; [|by rewrite lookup_empty].
  rewrite reveal_obfuscated; [done..|]. by apply (Hv k).
Qed.

(** A value whose digits are not ASCII panics; a sign passes for a digit. *)
Theorem hex_slices_characters key :
  deobfuscate (of_bytes [97; 195; 169; 49]) key = None /\ hex_decode "+f+f" = Some (Ok [15; 15]).
Proof. done. Qed.

End Spec.
End SettingsSpec.

Module RangeSpec.
Import Remote RangeFacts.

(** The range an etcd source asks for, from its prefix to [prefix_end], holds exactly the
    keys that start with the prefix, whatever bytes it ends with; a prefix of 255s, and the
    empty one, have no upper end. *)
Theorem prefix_end_selects_the_prefix (p k : list Z) :
  Forall is_byte p -> Forall is_byte k ->
  in_range p (prefix_end p) k = true <-> p `prefix_of` k.
Proof.
  intros Hp Hk. unfold in_range. rewrite andb_true_iff.
  destruct (prefix_end_cases p Hp) as [[Hmax ->]|(lo & b & hi & -> & Hhi & Hlt & ->)].
  - rewrite (bool_decide_true ([0] = [0])) by done. split; [intros [H _]; by apply all_max_above|]. intros [t ->]. split; [apply key_leb_prefix|done].
  - assert (bool_decide (lo ++ [b + 1] = [0]) = false) as ->.
    { apply bool_decide_false. intros E. apply Forall_app in Hp as [_ Hp]. apply Forall_cons in Hp as [Hb _]. unfold is_byte in Hb.
      destruct lo as [|? [|]]; simplify_eq/=; lia. }
    split.
    + intros [Hle Hlt']. rewrite orb_false_l, negb_true_iff in Hlt'.
      destruct (between_keys lo b hi k Hle Hlt') as (k1 & -> & H).
      apply Forall_app in Hk as [_ Hk]. apply Forall_cons in Hk as [_ Hk].
      apply prefix_app, prefix_cons, all_max_above; done.
    + intros [t ->]. split; [apply key_leb_prefix|]. rewrite <- app_assoc, key_leb_app. cbn.
      destruct (Z.eqb_spec (b + 1) b); [lia|]. apply negb_true_iff, Z.ltb_ge. lia.
Qed.

(** The endpoints [before] failed one after the other. *)
Fixpoint all_failed `{PA : Config.Parsers} {W} {B64 : Base64} {SV : Servers (W := W)} (s : EtcdConfigSource) (before : list string) (w : W) : option W :=
  match before with
  | [] => Some w
  | e :: before => match fetch_from s e w with (Err _, w) => all_failed s before w | (Ok _, _) => None end
  end.

(** The first endpoint that answers is the one that counts, whatever the errors before it. *)
Theorem etcd_falls_back_in_order `{PA : Config.Parsers} {W} {B64 : Base64} {SV : Servers (W := W)} (s : EtcdConfigSource) before e after w w1 m w2 :
  es_endpoints s = before ++ e :: after -> all_failed s before w = Some w1 -> fetch_from s e w1 = (Ok m, w2) ->
  etcd_fetch s w = (Ok m, w2).
Proof.
  intros He Hb Hf. assert (Hgen : forall last w, all_failed s before w = Some w1 -> fetch_first s (before ++ e :: after) last w = (Ok m, w2)).
  { clear Hb He. induction before as [|e0 before IH]; intros last w0 Hb; cbn [app fetch_first all_failed] in *.
    - simplify_eq. by rewrite Hf.
    - destruct (fetch_from s e0 w0) as [[m0|e1] w3]; [done|]. by apply IH. }
  unfold etcd_fetch. rewrite He. destruct before; by apply Hgen.
Qed.

End RangeSpec.

Module WatchFacts.
Import Config Remote Topology Catalog CatalogFacts.

(** Equal values are read as the same catalog. *)
Class CatalogJsonLaw `{CJ : CatalogJson} := {
  value_eqb_catalog a b c : value_eqb a b = true -> catalog_of_value a = Ok c -> catalog_of_value b = Ok c;
}.

Section Facts.
Context `{PA : Parsers} {CJ : CatalogJson} {CL : CatalogJsonLaw}.

(** The abstract watch: an answer that holds a valid catalog replaces the one known. *)
Definition settle (what : string) (c : ShardCatalog) (f : frame) : ShardCatalog :=
  match read_topology what f with Ok c' => c' | Err _ => c end.

Definition latest (what : string) (c : ShardCatalog) (l : list frame) : ShardCatalog := foldl (settle what) c l.

Lemma settle_twice what c f : settle what (settle what c f) f = settle what c f.
Proof. unfold settle. by destruct (read_topology what f). Qed.

Lemma parse_catalog_ok v c : parse_catalog v = Ok c -> catalog_of_value v = Ok c /\ wf_catalog c.
Proof.
  unfold parse_catalog. destruct (catalog_of_value v) as [c'|e]; cbn; [|done]. destruct (Catalog.validate c') as [[]|e] eqn:E; cbn; [|done].
  intros. simplify_eq. split; [done|]. by apply validate_ok.
Qed.

Lemma parse_catalog_eqb a b c : value_eqb a b = true -> parse_catalog a = Ok c -> parse_catalog b = Ok c.
Proof.
  intros He Ha. destruct (parse_catalog_ok a c Ha) as [Hc Hwf]. unfold parse_catalog.
  rewrite (value_eqb_catalog a b c He Hc). cbn. by rewrite (proj2 (validate_ok c) Hwf).
Qed.

Lemma read_topology_wf what f c : read_topology what f = Ok c -> wf_catalog c.
Proof.
  unfold read_topology. destruct f as [m|e]; cbn; [|done]. destruct (topology_value m) as [v|e]; cbn; [|done].
  intros Hp. apply (parse_catalog_ok v c Hp).
Qed.

Lemma latest_wf what c l : wf_catalog c -> wf_catalog (latest what c l).
Proof.
  revert c. induction l as [|f l IH]; intros c Hc; [done|]. apply IH. unfold settle.
  destruct (read_topology what f) eqn:E; [by eapply read_topology_wf|done].
Qed.

(** *** The poll of etcd *)

Definition poll_inv (s : Poll) : Prop :=
  match p_last s with Some v => parse_catalog v = Ok (p_catalog s) | None => False end.

Lemma poll_turn_settles s f receivers :
  poll_inv s -> p_running (poll_turn s f receivers) = true -> p_running s = true ->
  poll_inv (poll_turn s f receivers) /\ p_catalog (poll_turn s f receivers) = settle "etcd" (p_catalog s) f.
Proof.
  intros Hi Hr Hs. unfold poll_turn, settle, read_topology in *. destruct f as [m|e]; cbn [map_err rbind]; [|done].
  destruct (topology_value m) as [v|e]; cbn [rbind]; [|done]. unfold poll_inv in *. destruct (p_last s) as [last|] eqn:Hl; [|done].
  destruct (value_eqb last v) eqn:He.
  - rewrite (parse_catalog_eqb last v _ He Hi). by rewrite Hl.
  - destruct (parse_catalog v) as [c|e] eqn:Hp; [|by rewrite Hl]. destruct receivers; [|done]. cbn. by rewrite Hp.
Qed.

Lemma poll_stopped s l : p_running s = false -> poll_run s l = s.
Proof. intros Hr. destruct l as [|[f b] l]; [done|]. cbn. by rewrite Hr. Qed.

Lemma poll_run_latest s l :
  poll_inv s -> p_running s = true -> p_running (poll_run s l) = true ->
  p_catalog (poll_run s l) = latest "etcd" (p_catalog s) l.*1.
Proof.
  revert s. induction l as [|[f b] l IH]; intros s Hi Hs Hr; [done|]. cbn [poll_run] in *. rewrite Hs in *.
  destruct (p_running (poll_turn s f b)) eqn:Ht; [|rewrite (poll_stopped _ l Ht) in Hr; congruence].
  destruct (poll_turn_settles s f b Hi Ht Hs) as [Hi' Hc]. rewrite IH by done. by rewrite Hc.
Qed.

(** *** The two tasks of Consul *)

Definition frame_of (answer : result (gmap string Value * option string) ConfigError) : frame :=
  match answer with Ok (m, _) => Ok m | Err e => Err e end.

Definition answers (l : list watch_event) : list (result (gmap string Value * option string) ConfigError) :=
  omap (fun e => match e with Fetched a => Some a | _ => None end) l.

(** The documented index: one index, one content. *)
Definition indexed (content : string -> gmap string Value) (a : result (gmap string Value * option string) ConfigError) : Prop :=
  match a with Ok (m, Some i) => m = content i | _ => True end.

Definition in_flight (s : Watch) : list frame := w_queue s ++ match w_pending s with Some f => [f] | None => [] end.

(** What is in flight makes the catalog known to the receivers the latest; the answer the
    index stands for would change nothing. *)
Definition watch_inv (content : string -> gmap string Value) (c : ShardCatalog) (s : Watch) : Prop :=
  (w_running s = true -> latest "consul" (w_catalog s) (in_flight s) = c) /\
  (forall i, w_index s = Some i -> settle "consul" c (Ok (content i)) = c).

Lemma latest_snoc what c l f : latest what c (l ++ [f]) = settle what (latest what c l) f.
Proof. unfold latest. by rewrite foldl_app. Qed.

Lemma settle_error what c e : settle what c (Err e) = c.
Proof. done. Qed.

Lemma fetched_inv content c s a s' :
  watch_inv content c s -> indexed content a -> on_fetched s a = Some s' -> watch_inv content (settle "consul" c (frame_of a)) s'.
Proof.
  intros [Hc Hi] Ha. unfold on_fetched. destruct (w_pending s) as [f|] eqn:Hp; [done|]. unfold in_flight in Hc. rewrite Hp, app_nil_r in Hc.
  assert (Hsent : forall f, w_running s = true -> latest "consul" (w_catalog s) (w_queue s ++ [f]) = settle "consul" c f).
  { intros f Hr. by rewrite latest_snoc, Hc. }
  destruct a as [[m new]|e]; cbn [watch_turn frame_of]; [|intros [= <-]; split; [apply Hsent|exact Hi]].
  assert (Hm : forall i, new = Some i -> m = content i) by (intros i ->; exact Ha).
  case_bool_decide as Hn; [case_bool_decide as Hnone|]; cbn [negb orb]; intros [= <-]; unfold watch_inv, in_flight; cbn [w_running w_queue w_pending w_catalog w_index]; split.
  - apply Hsent.
  - intros i Hx. congruence.
  - intros Hr. rewrite app_nil_r, Hc by done. destruct new as [i|]; [|congruence]. by rewrite (Hm i), (Hi i).
  - intros i Hx. rewrite <- (Hm i Hx). apply settle_twice.
  - apply Hsent.
  - intros i Hx. rewrite <- (Hm i Hx). apply settle_twice.
Qed.

Lemma sent_inv content c s s' : watch_inv content c s -> on_sent s = Some s' -> watch_inv content c s'.
Proof.
  intros [Hc Hi]. unfold on_sent, in_flight in *. destruct (w_pending s) as [f|]; [|done]. destruct (_ && _); [|done].
  intros E. simplify_eq. split; cbn; [|done]. by rewrite app_nil_r.
Qed.

Lemma received_inv content c s b s' : watch_inv content c s -> on_received s b = Some s' -> watch_inv content c s'.
Proof.
  intros [Hc Hi]. unfold on_received. destruct (w_queue s) as [|f q] eqn:Hq; [done|]. destruct (w_running s) eqn:Hr; [|done].
  destruct (deliver "consul" f b (w_catalog s)) as [c' r] eqn:Hd. intros E. simplify_eq. split; [|done]. cbn. intros ->.
  rewrite <- Hc by done. unfold in_flight. rewrite Hq. cbn. f_equal. unfold deliver, settle in *.
  destruct (read_topology "consul" f) as [c2|e]; [destruct b|]; by simplify_eq.
Qed.

Lemma watch_run_inv content l c s s' :
  watch_inv content c s -> Forall (indexed content) (answers l) -> watch_run s l = Some s' ->
  watch_inv content (latest "consul" c (map frame_of (answers l))) s'.
Proof.
  revert c s. induction l as [|e l IH]; intros c s Hi Ha Hr; cbn in *; [by simplify_eq|].
  destruct (watch_step s e) as [s1|] eqn:E; [|done]. destruct e as [a| |b]; cbn in *.
  - apply Forall_cons in Ha as [Ha Has]. eapply IH; [|done|done]. by eapply fetched_inv.
  - eapply IH; [|done|done]. by eapply sent_inv.
  - eapply IH; [|done|done]. by eapply received_inv.
Qed.

Lemma watch_start_inv content c : watch_inv content c (watch_start c).
Proof. by split. Qed.

(** Receiving all that is in flight. *)
Lemma watch_run_app s l1 l2 : watch_run s (l1 ++ l2) = match watch_run s l1 with Some s' => watch_run s' l2 | None => None end.
Proof. revert s. induction l1 as [|e l1 IH]; intros s; [done|]. cbn. by destruct (watch_step s e). Qed.

Lemma receive_all s : w_running s = true ->
  exists s', watch_run s (repeat (Received true) (length (w_queue s))) = Some s' /\
    w_running s' = true /\ w_queue s' = [] /\ w_pending s' = w_pending s.
Proof.
  remember (w_queue s) as q eqn:Hq. revert s Hq. induction q as [|f q IH]; intros s Hq Hr; [by exists s|].
  cbn [length repeat watch_run watch_step]. unfold on_received. rewrite <- Hq, Hr.
  destruct (deliver "consul" f true (w_catalog s)) as [c r] eqn:Hd.
  assert (r = true) as -> by (unfold deliver in Hd; by destruct (read_topology "consul" f); simplify_eq).
  destruct (IH {| w_index := w_index s; w_pending := w_pending s; w_queue := q; w_catalog := c; w_running := true |}) as (s' & ? & ? & ? & ?); [done..|].
  by exists s'.
Qed.

End Facts.
End WatchFacts.

Module WatchSpec.
Import Config Remote Topology Catalog CatalogFacts WatchFacts.

Section Spec.
Context `{PA : Parsers} {CJ : CatalogJson} {CL : CatalogJsonLaw}.

(** C39. The watch of Consul converges: whatever the interleaving of the task that fetches, the
    channel of eight frames and the task that receives, as long as the index of an answer
    stands for its content, receiving what is in flight leaves the catalog of the last answer
    that held a valid one, and a valid catalog; answers skipped for their index, errors and
    bad data lose nothing. *)
Theorem consul_watch_follows_the_last_good_answer (content : string -> gmap string Value) (initial : ShardCatalog) l s :
  wf_catalog initial -> Forall (indexed content) (answers l) ->
  watch_run (watch_start initial) l = Some s -> w_running s = true ->
  exists l' s', watch_run s l' = Some s' /\ answers l' = [] /\ in_flight s' = [] /\
    w_catalog s' = latest "consul" initial (map frame_of (answers l)) /\ wf_catalog (w_catalog s').
Proof.
  intros Hwf Ha Hrun Hr. assert (Hrec : forall n, answers (repeat (Received true) n) = []) by (by induction n).
  destruct (receive_all s Hr) as (s1 & H1 & Hr1 & Hq1 & Hp1).
  assert (exists l' s', watch_run s l' = Some s' /\ answers l' = [] /\ in_flight s' = [] /\ w_running s' = true) as (l' & s' & Hrun' & Hl' & Hf & Hr').
  { destruct (w_pending s) as [f|] eqn:Hp.
    - destruct (receive_all {| w_index := w_index s1; w_pending := None; w_queue := [f]; w_catalog := w_catalog s1; w_running := true |})
        as (s2 & H2 & Hr2 & Hq2 & Hp2); [done|].
      exists (repeat (Received true) (length (w_queue s)) ++ Sent :: [Received true]), s2. split_and!; [|by unfold answers; rewrite omap_app; fold (answers (repeat (Received true) (length (w_queue s)))); rewrite Hrec| |done].
      + rewrite watch_run_app, H1. cbn [watch_run watch_step]. unfold on_sent. rewrite Hp1, Hr1, Hq1. exact H2.
      + unfold in_flight. by rewrite Hq2, Hp2.
    - exists (repeat (Received true) (length (w_queue s))), s1. split_and!; [done|done| |done]. unfold in_flight. by rewrite Hq1, Hp1. }
  exists l', s'. assert (Hc : w_catalog s' = latest "consul" initial (map frame_of (answers l))).
  { assert (Hall : watch_run (watch_start initial) (l ++ l') = Some s') by by rewrite watch_run_app, Hrun.
    destruct (watch_run_inv content (l ++ l') initial _ s' (watch_start_inv content initial)) as [Hi _]; [|done|].
    - unfold answers. rewrite omap_app. fold (answers l) (answers l'). by rewrite Hl', app_nil_r.
    - unfold answers in Hi. rewrite omap_app in Hi. fold (answers l) (answers l') in Hi. rewrite Hl', app_nil_r, Hf in Hi. by apply Hi. }
  split_and!; [done..|]. rewrite Hc. by apply latest_wf.
Qed.

(** The poll of etcd does so after every turn. *)
Theorem etcd_watch_follows_the_last_good_answer (initial_value : Value) s0 l :
  poll_start initial_value = Ok s0 -> p_running (poll_run s0 l) = true ->
  p_catalog (poll_run s0 l) = latest "etcd" (p_catalog s0) l.*1 /\ wf_catalog (p_catalog (poll_run s0 l)).
Proof.
  unfold poll_start. destruct (parse_catalog initial_value) as [c|e] eqn:Hp; cbn; [|done]. intros ? Hr. simplify_eq.
  rewrite poll_run_latest by done. split; [done|]. apply latest_wf, (parse_catalog_ok _ _ Hp).
Qed.

End Spec.

(** The names of both stores: a key beside the prefix is taken for one below it, and etcd
    answers it after the other. *)
Theorem sibling_key_is_taken_for_the_topology :
  relative_key "app" "apptopology" = TOPOLOGY_KEY /\ relative_key "app" "app/topology" = TOPOLOGY_KEY /\
  RangeFacts.in_range (bytes_of "app") (prefix_end (bytes_of "app")) (bytes_of "apptopology") = true /\
  RangeFacts.key_leb (bytes_of "app/topology") (bytes_of "apptopology") = true.
Proof. done. Qed.

(** What proxy mode accepts. *)
Theorem validate_proxy_ok (cfg : ShardingConfig.ShardingConfig) :
  validate_proxy cfg = Ok tt <->
  ShardingConfig.mode cfg = ShardingConfig.Proxy /\ tables (ShardingConfig.catalog cfg) <> [] /\
  wf_catalog (ShardingConfig.catalog cfg) /\
  forall t s, t ∈ tables (ShardingConfig.catalog cfg) -> s ∈ shards t -> ShardingConfig.has_url s = false.
Proof.
  unfold validate_proxy, ShardingConfig.validate. destruct (ShardingConfig.mode cfg) eqn:Hm; [|naive_solver].
  rewrite <- validate_ok. destruct (tables (ShardingConfig.catalog cfg)) as [|t0 l] eqn:Ht; [naive_solver|]. rewrite <- Ht.
  destruct (Catalog.validate (ShardingConfig.catalog cfg)) as [[]|e]; cbn; [|naive_solver].
  rewrite for_each_ok. setoid_rewrite for_each_ok. setoid_rewrite check_endpoint_ok. rewrite Ht. naive_solver.
Qed.

End WatchSpec.

Module ConfigDemo.
Import Config Remote Topology Catalog CatalogFacts WatchFacts SettingsFacts.

#[local] Instance demo_number : JsonNumber := {|
  Number := Z; number_as_i64 n := Some n; number_is_u64 n := 0 <=? n; number_as_f64 _ := None; number_text := dec_text |}.
#[local] Instance demo_text : JsonText := {| value_text _ := "" |}.
#[local] Instance demo_parse : JsonParse := {| value_parse s := if String.eqb s "42" then Ok (VNumber (42 : @Number demo_number)) else Err "expected value" |}.
#[local] Instance demo_int : JsonInt := {| number_of_i64 n := (n : @Number demo_number); number_of_i64_as n _ := eq_refl |}.
#[local] Instance demo_parsers : Parsers := {|
  parse_finite_f64 _ := None; yaml_parse _ := Err "yaml"; utf8_error _ := "invalid utf-8"; to_lowercase := to_ascii_lowercase;
  iter m := map_to_list m |}.
#[local] Instance demo_parsers_law : ParsersLaw := {| iter_perm m := reflexivity (map_to_list m) |}.

(** A password and a port, hidden with a short key. *)
Definition demo_texts : gmap string string := {[ "password" := "s3cret"; "port" := "42" ]}.
Definition demo_key : list Z := [7; 200; 65].
Definition hidden : ConfigSource (W := unit) :=
  {| load_ := fun w => (Some (Ok ((fun text => VString (obfuscate demo_key text)) <$> demo_texts)), w) |}.

Lemma hidden_settings_come_back_witness :
  load_ (ObfuscatedSource hidden demo_key) tt = (Some (Ok (typed <$> demo_texts)), tt) /\
  typed "s3cret" = VString "s3cret" /\ typed "42" = VNumber (42 : @Number demo_number).
Proof.
  split; [|split; reflexivity].
  apply (@SettingsSpec.hidden_settings_come_back demo_number demo_text demo_parse demo_parsers demo_parsers_law unit hidden demo_key demo_texts tt tt).
  - discriminate.
  - repeat constructor; discriminate.
  - apply (bool_decide_unpack _). vm_compute. exact I.
  - reflexivity.
Defined.

(** The topologies of the demo are named by a text. *)
Definition shards_named (l : list string) : ShardCatalog :=
  {| tables := [{| tb_name := "orders"; key := "uid"; pk := "id"; algorithm := HashMod (Z.of_nat (length l));
                   shards := map (fun n => {| ep_name := n; url := None |}) l |}] |}.
#[local] Instance demo_catalogs : CatalogJson := {|
  catalog_of_value v := match v with
                        | VString "one" => Ok (shards_named ["a"])
                        | VString "two" => Ok (shards_named ["a"; "b"])
                        | VString "twins" => Ok (shards_named ["a"; "a"])
                        | _ => Err "no catalog" end;
  value_eqb a b := match a, b with VString s, VString t => String.eqb s t | _, _ => false end |}.

Lemma demo_catalogs_law a b c : value_eqb a b = true -> catalog_of_value a = Ok c -> catalog_of_value b = Ok c.
Proof. destruct a; try done. destruct b; try done. cbn [value_eqb demo_catalogs]. by intros ->%String.eqb_eq. Qed.

#[local] Instance demo_catalog_law : CatalogJsonLaw := {| value_eqb_catalog := demo_catalogs_law |}.

Definition at_ (name : string) : gmap string Value := {[ TOPOLOGY_KEY := VString name ]}.
Definition demo_content (i : string) : gmap string Value := if String.eqb i "7" then at_ "two" else if String.eqb i "8" then at_ "twins" else at_ "one".

(** A first answer, an answer with the same index, a failed request, a new topology and a bad
    one; the receiver lags behind. *)
Definition demo_events : list watch_event :=
  [Fetched (Ok (at_ "one", Some "5")); Sent; Fetched (Ok (at_ "one", Some "5")); Fetched (Err (Other "refused")); Received true; Sent;
   Fetched (Ok (at_ "two", Some "7")); Sent; Fetched (Ok (at_ "twins", Some "8"))].
Definition demo_watch : Watch := default (watch_start (shards_named ["a"])) (watch_run (watch_start (shards_named ["a"])) demo_events).

Lemma consul_watch_follows_the_last_good_answer_witness :
  w_catalog demo_watch = shards_named ["a"] /\
  exists l' s', watch_run demo_watch l' = Some s' /\ answers l' = [] /\ in_flight s' = [] /\
    w_catalog s' = shards_named ["a"; "b"] /\ wf_catalog (w_catalog s').
Proof.
  split; [reflexivity|].
  apply (@WatchSpec.consul_watch_follows_the_last_good_answer demo_number demo_catalogs
           demo_content (shards_named ["a"]) demo_events demo_watch).
  - apply validate_ok. reflexivity.
  - repeat constructor.
  - reflexivity.
  - reflexivity.
Defined.

Definition demo_poll : Poll := {| p_last := Some (VString "one"); p_catalog := shards_named ["a"]; p_running := true |}.
Definition demo_polls : list (frame * bool) :=
  [(Ok (at_ "one"), true); (Err (Other "down"), true); (Ok (at_ "two"), true); (Ok (at_ "twins"), true)].

Lemma etcd_watch_follows_the_last_good_answer_witness :
  p_catalog (poll_run demo_poll demo_polls) = shards_named ["a"; "b"] /\ wf_catalog (p_catalog (poll_run demo_poll demo_polls)).
Proof.
  apply (@WatchSpec.etcd_watch_follows_the_last_good_answer demo_number demo_catalogs demo_catalog_law
           (VString "one") demo_poll demo_polls); reflexivity.
Defined.

Lemma prefix_end_selects_the_prefix_witness :
  RangeFacts.in_range [97; 255] (prefix_end [97; 255]) [97; 255; 255; 1] = true <-> [97; 255] `prefix_of` [97; 255; 255; 1].
Proof. apply RangeSpec.prefix_end_selects_the_prefix; repeat constructor; discriminate. Defined.

Lemma env_integer_is_read_witness : parse_env_value (Clickhouse.int_text (-8080)) = VNumber (-8080 : @Number demo_number).
Proof. apply (@SettingsSpec.env_integer_is_read demo_number demo_text demo_parse demo_parsers demo_int (-8080)). split; vm_compute; congruence. Defined.

End ConfigDemo.
