(* ===== verification/Transaction.v ===== *)
(** * Transactions (ecat-data, ecat-data-sqlx)

    [Transaction] of [src/ecat-data/src/rdbms.rs], the wrapper of [ecat-data-sqlx/src/
    transaction.rs] around a transaction of sqlx, and [SqlxClient::execute_then_query], which
    opens one for two statements.  sqlx and the server are the class [TxServer]; a request and
    its answer are effects of their own, so a call can be dropped between them.  Destructors
    run when a value goes out of scope, also when its future is dropped ([finally]). *)

From S2P Require Import Prelude Json Text Dialect Rdbms Crash Workflow.

Local Open Scope Z_scope.
Local Open Scope ecat_scope.

Module Transaction.
Import Rdbms Drop Timeout.

Section Tx.
Context `{JT : JsonText} {S : Type}.

(** What a parameter is bound as. *)
Inductive Bound := BText (s : string) | BInt (i : Z) | BFloat (f : f64) | BBool (b : bool) | BNull.

Definition bind_param (v : Value) : Bound :=
  match v with
  | VString s => BText s
  | VNumber n =>
      match number_as_i64 n with
      | Some i => BInt i
      | None => match number_as_f64 n with Some f => BFloat f | None => BText (number_text n) end
      end
  | VBool b => BBool b
  | VNull => BNull
  | v => BText (value_text v)
  end.

(** The four calls of sqlx: a plain statement or a prepared one, executed or fetched. *)
Inductive Statement :=
| Plain (fetch : bool) (sql : string)
| Prepared (fetch : bool) (sql : string) (params : list Bound).

(** One connection: [BEGIN], a statement inside, the two ends, and what sqlx does with a
    transaction that goes out of scope. *)
Class TxServer := {
  tx_begin : S -> result unit RdbmsError * S;
  tx_run : Statement -> S -> result Reply RdbmsError * S;
  tx_commit : S -> result unit RdbmsError * S;
  tx_rollback : S -> result unit RdbmsError * S;
  tx_drop : S -> S;
}.

Context {TS : TxServer}.

(** A [Transaction]: its flags, whether it has a backing, and whether the wrapper behind it
    still holds its sqlx transaction. *)
Record TxState := { committed : bool; rolled_back : bool; backing : bool; open_ : bool }.

(** The process: [TRANSACTIONS_LEAKED], the server, and the transaction in scope. *)
Record Held := { TRANSACTIONS_LEAKED : Z; server : S; tx : option TxState }.

(** [fits_held d] says how many effects end within the time limit [d]. *)
Context (fits_held : Z -> Held -> option nat) (query_timeout : option Z).

Definition NO_BACKING : string := "transaction has no backing connection (created via Transaction::new)".

Definition tx_finished : RdbmsError := Database "transaction already finished".

Definition new : TxState := {| committed := false; rolled_back := false; backing := false; open_ := false |}.
Definition with_inner : TxState := {| committed := false; rolled_back := false; backing := true; open_ := true |}.

Definition set_server (h : Held) (s : S) : Held := {| TRANSACTIONS_LEAKED := TRANSACTIONS_LEAKED h; server := s; tx := tx h |}.
Definition set_tx (t : option TxState) (h : Held) : Held := {| TRANSACTIONS_LEAKED := TRANSACTIONS_LEAKED h; server := server h; tx := t |}.

Definition modify {W E} (f : W -> W) : M W E unit := fun p => (Ret (Ok tt), {| the_world := f (the_world p); left_ := left_ p |}).

(** A request to the server, and the answer when it comes. *)
Definition ask {A} (f : S -> result A RdbmsError * S) : M Held RdbmsError A :=
  do! r := try (effect (fun h => let '(r, s) := f (server h) in (r, set_server h s))) in
  effect (fun h => (r, h)).

Definition lift {A} (m : M Held RdbmsError A) : M (World Held) RdbmsError A :=
  fun p => let '(o, q) := m {| the_world := outside (the_world p); left_ := left_ p |} in
           (o, {| the_world := {| TIMEOUTS := TIMEOUTS (the_world p); outside := the_world q |}; left_ := left_ q |}).

(** [f] on the world when [m] is over, however it is. *)
Definition finally {W E A} (f : W -> W) (m : M W E A) : M W E A :=
  fun p => let '(o, q) := m p in (o, {| the_world := f (the_world q); left_ := left_ q |}).

(** [f] unless [m] succeeds. *)
Definition unless_ok {W E A} (f : W -> W) (m : M W E A) : M W E A :=
  fun p => match m p with
           | (Ret (Ok x), q) => (Ret (Ok x), q)
           | (o, q) => (o, {| the_world := f (the_world q); left_ := left_ q |})
           end.

(** *** The wrapper of [ecat-data-sqlx] *)

Definition is_open (h : Held) : bool := match tx h with Some t => open_ t | None => false end.
Definition has_backing (h : Held) : bool := match tx h with Some t => backing t | None => false end.

Definition statement (r : Statement) : M Held RdbmsError Reply :=
  do! o := get is_open in if o then ask (tx_run r) else ret (Err tx_finished).

Definition timed (r : Statement) : M (World Held) RdbmsError Reply :=
  run_with_timeout fits_held KRdbms query_timeout (statement r).

Definition execute (sql : string) := timed (Plain false sql).
Definition query (sql : string) := timed (Plain true sql).
Definition execute_with (sql : string) (params : list Value) := timed (Prepared false sql (map bind_param params)).
Definition query_with (sql : string) (params : list Value) := timed (Prepared true sql (map bind_param params)).

Definition close (t : TxState) : TxState :=
  {| committed := committed t; rolled_back := rolled_back t; backing := backing t; open_ := false |}.

Definition drop_server (h : Held) : Held := set_server h (tx_drop (server h)).

(** [self.inner.take()]: the transaction of sqlx is consumed by its end. *)
Definition wrapper_end (f : S -> result unit RdbmsError * S) : M Held RdbmsError unit :=
  do! o := get is_open in
  if o then do! _ := modify (fun h => set_tx (close <$> tx h) h) in unless_ok drop_server (ask f)
  else ret (Ok tt).

Definition wrapper_commit : M Held RdbmsError unit := wrapper_end tx_commit.
Definition wrapper_rollback : M Held RdbmsError unit := wrapper_end tx_rollback.

(** *** [Transaction] *)

Definition tx_perform (r : Request) : M (World Held) RdbmsError Reply :=
  do! b := get (fun w => has_backing (outside w)) in
  if b
  then match r with
       | Execute sql => execute sql
       | Query sql => query sql
       | ExecuteWith sql params => execute_with sql params
       | QueryWith sql params | QueryWrite sql params => query_with sql params
       | ExecuteThenQuery first params second => do! _ := execute_with first params in query second
       end
  else ret (Err (Database NO_BACKING)).

(** [Drop for Transaction], then its fields. *)
Definition drop_transaction (h : Held) : Held :=
  match tx h with
  | Some t =>
      {| TRANSACTIONS_LEAKED := if negb (committed t) && negb (rolled_back t) then u64_add (TRANSACTIONS_LEAKED h) 1 else TRANSACTIONS_LEAKED h;
         server := if open_ t then tx_drop (server h) else server h;
         tx := None |}
  | None => h
  end.

Definition out_of_scope {A} (m : M (World Held) RdbmsError A) : M (World Held) RdbmsError A :=
  finally (fun w => {| TIMEOUTS := TIMEOUTS w; outside := drop_transaction (outside w) |}) m.

Definition mark (c r : bool) (t : TxState) : TxState :=
  {| committed := c; rolled_back := r || rolled_back t; backing := backing t; open_ := open_ t |}.

Definition mark_tx (c r : bool) : M (World Held) RdbmsError unit :=
  lift (modify (fun h => set_tx (mark c r <$> tx h) h)).

Definition commit : M (World Held) RdbmsError unit :=
  out_of_scope (do! b := get (fun w => has_backing (outside w)) in
                do! _ := if b then lift wrapper_commit else ret (Ok tt) in
                mark_tx true false).

Definition rollback : M (World Held) RdbmsError unit :=
  out_of_scope (do! b := get (fun w => has_backing (outside w)) in
                do! _ := if b then lift wrapper_rollback else ret (Ok tt) in
                mark_tx false true).

(** *** [SqlxClient] *)

Definition transaction : M (World Held) RdbmsError unit :=
  lift (do! _ := ask tx_begin in modify (set_tx (Some with_inner))).

Definition execute_then_query (first : string) (params : list Value) (second : string) : M (World Held) RdbmsError Reply :=
  do! _ := transaction in
  out_of_scope (do! _ := tx_perform (ExecuteWith first params) in
                do! rows := tx_perform (Query second) in
                do! _ := commit in
                ret (Ok rows)).

End Tx.
End Transaction.

Module TransactionFacts.
Import Rdbms Drop Timeout Transaction.

Section Facts.
Context `{JT : JsonText} {S D : Type}.
Context {TS : TxServer (S := S)} (fits : Z -> Held (S := S) -> option nat) (query_timeout : option Z).

(** What others see of the connection, what its transaction would make of it, and whether it
    has one open; [live]: it has, and no statement has failed in it.  A statement that is
    [tame], one that neither ends the transaction nor commits it on the side as DDL does on
    MySQL, changes what is pending only.  A failed commit is in doubt, and sqlx rolls back a
    transaction that goes out of scope. *)
Class TxLaws := {
  durable : S -> D;
  pending : S -> D;
  opened : S -> bool;
  live : S -> Prop;
  effect_of : Statement -> D -> D;
  tame : Statement -> Prop;
  live_opened s : live s -> opened s = true;
  begin_keeps s : durable (tx_begin s).2 = durable s;
  begin_starts s s' : tx_begin s = (Ok tt, s') -> live s' /\ pending s' = durable s';
  begin_fails s e s' : opened s = false -> tx_begin s = (Err e, s') -> opened s' = false;
  run_keeps r s : tame r -> durable (tx_run r s).2 = durable s;
  run_works r s a s' : tame r -> live s -> tx_run r s = (Ok a, s') -> live s' /\ pending s' = effect_of r (pending s);
  commit_works s s' : live s -> tx_commit s = (Ok tt, s') -> durable s' = pending s /\ opened s' = false;
  commit_in_doubt s : live s -> durable (tx_commit s).2 = durable s \/ durable (tx_commit s).2 = pending s;
  drop_keeps s : durable (tx_drop s) = durable s;
  drop_closes s : opened (tx_drop s) = false;
}.

Lemma wp_lifted {A} (m : M (Held (S := S)) RdbmsError A) (Q : result A RdbmsError -> Held (S := S) -> Prop) I w :
  wp m Q I (outside w) -> wp (lift m) (fun r w' => Q r (outside w')) (fun w' => I (outside w')) w.
Proof.
  intros Hm b. specialize (Hm b). unfold lift. cbn. destruct (m _) as [[r|] q]; exact Hm.
Qed.

Lemma wp_modify {W E} (f : W -> W) (Q : result unit E -> W -> Prop) I w : Q (Ok tt) (f w) -> wp (modify f) Q I w.
Proof. by intros ? ?. Qed.

Lemma wp_finally {W E A} (f : W -> W) (m : M W E A) Q (I : W -> Prop) w :
  wp m (fun r w' => Q r (f w')) (fun w' => I (f w')) w -> wp (finally f m) Q I w.
Proof. intros Hm b. specialize (Hm b). unfold finally. by destruct (m _) as [[r|] q]. Qed.

Lemma wp_unless_ok {W E A} (f : W -> W) (m : M W E A) Q (I : W -> Prop) w :
  wp m (fun r w' => match r with Ok _ => Q r w' | Err _ => Q r (f w') end) (fun w' => I (f w')) w -> wp (unless_ok f m) Q I w.
Proof. intros Hm b. specialize (Hm b). unfold unless_ok. by destruct (m _) as [[[x|e]|] q]. Qed.

Lemma wp_ask {A} (f : S -> result A RdbmsError * S) Q (I : Held (S := S) -> Prop) h :
  I h -> I (set_server h (f (server h)).2) -> Q (f (server h)).1 (set_server h (f (server h)).2) -> wp (ask f) Q I h.
Proof.
  intros H0 H1 H2. unfold ask. apply wp_bind, wp_try, wp_effect; [done|]. destruct (f (server h)) as [r s]. cbn. by apply wp_effect.
Qed.

(** A time limit adds its own error, on a world where the call could have been dropped. *)
Lemma wp_timed (r : Statement) (Q : result Reply RdbmsError -> Held (S := S) -> Prop) I w :
  wp (statement r) Q I (outside w) -> (forall d h, I h -> Q (Err (from_timeout KRdbms d)) h) ->
  wp (timed fits query_timeout r) (fun r w' => Q r (outside w')) (fun w' => I (outside w')) w.
Proof.
  intros Hm Ht b. unfold timed. generalize dependent (statement r). intros m Hm. unfold run_with_timeout, run_for. cbn.
  set (limit := match query_timeout with Some d => fits d (outside w) | None => None end).
  specialize (Hm (opt_min limit b)). destruct (m _) as [[x|] q]; [exact Hm|].
  destruct (match b with Some _ => _ | None => _ end); [exact Hm|]. destruct query_timeout; [by apply Ht|exact Hm].
Qed.

(** Two states that differ in what is pending only. *)
Context {TL : TxLaws}.
Definition same (h h' : Held (S := S)) : Prop :=
  tx h' = tx h /\ TRANSACTIONS_LEAKED h' = TRANSACTIONS_LEAKED h /\ durable (server h') = durable (server h).

Lemma same_refl h : same h h.
Proof. done. Qed.

Lemma same_server h s : durable s = durable (server h) -> same h (set_server h s).
Proof. intros Hd. unfold same. cbn. by split_and!. Qed.

Lemma wp_weaken {W E A} (m : M W E A) (Q Q' : result A E -> W -> Prop) (I I' : W -> Prop) w :
  wp m Q I w -> (forall r w', Q r w' -> Q' r w') -> (forall w', I w' -> I' w') -> wp m Q' I' w.
Proof. intros Hm HQ HI b. specialize (Hm b). destruct (m _) as [[r|] p]; auto. Qed.

(** The transaction lives on after a statement that worked. *)
Definition worked (r : Statement) (h : Held (S := S)) (a : result Reply RdbmsError) (h' : Held (S := S)) : Prop :=
  same h h' /\ match a with
                | Ok _ => live (server h') /\ pending (server h') = effect_of r (pending (server h))
                | Err _ => True
                end.

Lemma wp_statement r (h : Held (S := S)) :
  tame r -> live (server h) -> is_open h = true -> wp (statement r) (worked r h) (same h) h.
Proof.
  intros Hr Hl Ho. unfold statement. apply wp_bind, wp_get. rewrite Ho.
  apply wp_ask; [done|by apply same_server, run_keeps|]. split; [by apply same_server, run_keeps|].
  destruct (tx_run r (server h)) as [[a|e] s] eqn:E; [|done]. cbn. by eapply run_works.
Qed.

Lemma wp_call r (w : World (Held (S := S))) :
  tame r -> live (server (outside w)) -> is_open (outside w) = true ->
  wp (timed fits query_timeout r) (fun a w' => worked r (outside w) a (outside w')) (fun w' => same (outside w) (outside w')) w.
Proof.
  intros Hr Hl Ho. apply (wp_timed r (worked r (outside w)) (same (outside w))); [by apply wp_statement|].
  intros d h Hh. by split.
Qed.

(** How a transaction in scope can leave the process. *)
Definition gone (h h' : Held (S := S)) (leaks : Z) : Prop :=
  tx h' = None /\ TRANSACTIONS_LEAKED h' = u64_add (TRANSACTIONS_LEAKED h) leaks.

(** The server of [h] after a commit: that worked; that answered [e]; that was perhaps not
    sent, or whose answer nobody heard. *)
Definition committed_at (h h' : Held (S := S)) : Prop := durable (server h') = pending (server h) /\ opened (server h') = false.
Definition refused_at (h : Held (S := S)) (e : RdbmsError) (h' : Held (S := S)) : Prop :=
  server h' = tx_drop (tx_commit (server h)).2 /\ (tx_commit (server h)).1 = Err e.
Definition unheard_at (h h' : Held (S := S)) : Prop :=
  server h' = tx_drop (server h) \/ server h' = tx_drop (tx_commit (server h)).2.

Definition kept_flags (h h' : Held (S := S)) : Prop := tx h' = tx h /\ TRANSACTIONS_LEAKED h' = TRANSACTIONS_LEAKED h.

Lemma wp_ask_commit (h : Held (S := S)) :
  live (server h) ->
  wp (unless_ok drop_server (ask tx_commit))
    (fun a h' => kept_flags h h' /\ match a with Ok _ => committed_at h h' | Err e => refused_at h e h' end)
    (fun h' => kept_flags h h' /\ unheard_at h h') h.
Proof.
  intros Hl. apply wp_unless_ok, wp_ask; unfold kept_flags, unheard_at, refused_at, committed_at, drop_server, set_server; cbn; [auto|auto|].
  destruct (tx_commit (server h)) as [[[]|e] s] eqn:E; cbn; [|done]. split; [done|]. by apply commit_works.
Qed.

Lemma wp_tx_commit (w : World (Held (S := S))) :
  live (server (outside w)) -> tx (outside w) = Some with_inner -> 0 <= TRANSACTIONS_LEAKED (outside w) < 2 ^ 64 ->
  wp commit
    (fun a w' => match a with
                 | Ok _ => gone (outside w) (outside w') 0 /\ committed_at (outside w) (outside w')
                 | Err e => gone (outside w) (outside w') 1 /\ refused_at (outside w) e (outside w')
                 end)
    (fun w' => gone (outside w) (outside w') 1 /\ unheard_at (outside w) (outside w')) w.
Proof.
  intros Hl Ht Hb. unfold commit, out_of_scope. apply wp_finally, wp_bind, wp_get. unfold has_backing. rewrite Ht. cbn [with_inner backing].
  apply wp_bind. eapply wp_mono; [apply (wp_lifted wrapper_commit (fun a h' => tx h' = Some (close with_inner) /\
     TRANSACTIONS_LEAKED h' = TRANSACTIONS_LEAKED (outside w) /\
     match a with Ok _ => committed_at (outside w) h' | Err e => refused_at (outside w) e h' end)
     (fun h' => gone (outside w) (drop_transaction h') 1 /\ unheard_at (outside w) (drop_transaction h')))|].
  - unfold wrapper_commit, wrapper_end. apply wp_bind, wp_get. unfold is_open. rewrite Ht. cbn [with_inner open_ fmap option_fmap option_map].
    apply wp_bind, wp_modify. rewrite Ht. eapply wp_weaken; [by apply wp_ask_commit|..]; cbn [fmap option_fmap option_map].
    + intros a h' [[Htx Hlk] Hd]. done.
    + intros h' [[Htx Hlk] Hd]. unfold gone, unheard_at, drop_transaction. rewrite Htx. cbn. rewrite Hlk. split; [done|]. exact Hd.
  - intros [[]|e] w' (Htx & Hlk & Hd); cbn.
    + intros b. cbn. unfold gone, committed_at, drop_transaction. cbn. rewrite Htx. cbn. rewrite Hlk. split; [|exact Hd]. split; [done|].
      unfold u64_add. rewrite Z.add_0_r. symmetry. by apply wrap_small.
    + unfold gone, refused_at, drop_transaction in *. rewrite Htx. cbn. rewrite Hlk. by split.
Qed.

End Facts.
End TransactionFacts.

Module TransactionSpec.
Import Rdbms Drop Timeout Transaction TransactionFacts.

Section Spec.
Context `{JT : JsonText} {S D : Type}.
Context {TS : TxServer (S := S)} {TL : TxLaws (D := D)} (fits : Z -> Held (S := S) -> option nat) (query_timeout : option Z).

(** How a call of [execute_then_query] that does not answer [Ok] can leave the process, [why]
    the error it answered, if it was not dropped.  Either nothing has become durable and no
    transaction is open; or the commit was sent with everything pending and its answer was
    [why], or not heard; or nothing happened but a [BEGIN] whose answer was not heard. *)
Definition undone (all : D -> D) (why : option RdbmsError) (h h' : Held (S := S)) : Prop :=
  tx h' = None /\
  (TRANSACTIONS_LEAKED h' = TRANSACTIONS_LEAKED h \/ TRANSACTIONS_LEAKED h' = u64_add (TRANSACTIONS_LEAKED h) 1) /\
  ((durable (server h') = durable (server h) /\ opened (server h') = false) \/
   (exists s, durable s = durable (server h) /\ pending s = all (durable (server h)) /\
      match why with Some e => (tx_commit s).1 = Err e | None => True end /\
      server h' = tx_drop (tx_commit s).2 /\ opened (server h') = false /\
      (durable (server h') = durable (server h) \/ durable (server h') = all (durable (server h)))) \/
   (why = None /\ server h' = (tx_begin (server h)).2 /\ durable (server h') = durable (server h))).

Definition done_ (all : D -> D) (h h' : Held (S := S)) : Prop :=
  tx h' = None /\ TRANSACTIONS_LEAKED h' = TRANSACTIONS_LEAKED h /\
  durable (server h') = all (durable (server h)) /\ opened (server h') = false.

(** In the scope of the transaction nothing is durable. *)
Definition inside (h h' : Held (S := S)) : Prop :=
  tx h' = Some with_inner /\ TRANSACTIONS_LEAKED h' = TRANSACTIONS_LEAKED h /\ durable (server h') = durable (server h).

Lemma inside_same h h' h2 : inside h h' -> same h' h2 -> inside h h2.
Proof. unfold inside, same. intros (-> & -> & ->) (-> & -> & ->). done. Qed.

Lemma inside_dropped all why h h' : inside h h' -> undone all why h (drop_transaction h').
Proof.
  intros (Ht & Hl & Hd). unfold undone, drop_transaction. rewrite Ht. cbn. rewrite drop_keeps, drop_closes, Hl, Hd. auto.
Qed.

Lemma wp_transaction all (w : World (Held (S := S))) :
  tx (outside w) = None -> opened (server (outside w)) = false ->
  wp transaction
    (fun a w' => match a with
                 | Ok _ => inside (outside w) (outside w') /\ live (server (outside w')) /\
                           pending (server (outside w')) = durable (server (outside w))
                 | Err e => undone all (Some e) (outside w) (outside w')
                 end)
    (fun w' => undone all None (outside w) (outside w')) w.
Proof.
  intros Ht Ho. set (h := outside w) in *. apply (wp_lifted _ (fun a h' => match a with
      | Ok _ => inside h h' /\ live (server h') /\ pending (server h') = durable (server h)
      | Err e => undone all (Some e) h h' end) (undone all None h)).
  fold h. pose proof (begin_keeps (server h)) as Hk. apply wp_bind. apply wp_ask.
  - unfold undone. auto.
  - unfold undone. cbn. split; [done|]. split; [by left|]. right. by right.
  - destruct (tx_begin (server h)) as [[[]|e] s] eqn:E; cbn in *.
    + apply wp_modify. apply begin_starts in E as [Hl E]. unfold inside. cbn. by rewrite E.
    + unfold undone. cbn. split; [done|]. split; [by left|]. left. split; [done|]. by eapply begin_fails.
Qed.

(** Both statements of the call go to the wrapper. *)
Lemma wp_performed q stmt h (w : World (Held (S := S))) Q (I : World (Held (S := S)) -> Prop) :
  inside h (outside w) ->
  (exists sql params, q = ExecuteWith sql params /\ stmt = Prepared false sql (map bind_param params)) \/
  (exists sql, q = Query sql /\ stmt = Plain true sql) ->
  wp (timed fits query_timeout stmt) Q I w -> wp (tx_perform fits query_timeout q) Q I w.
Proof.
  intros (Ht & _) Hq Hw. unfold tx_perform. apply wp_bind, wp_get. unfold has_backing. rewrite Ht. cbn [with_inner backing].
  destruct Hq as [(sql & params & -> & ->)|(sql & -> & ->)]; exact Hw.
Qed.

Lemma wp_inside all r h (w : World (Held (S := S))) :
  tame r -> inside h (outside w) -> live (server (outside w)) ->
  wp (timed fits query_timeout r)
    (fun a w' => match a with
                 | Ok _ => inside h (outside w') /\ live (server (outside w')) /\
                           pending (server (outside w')) = effect_of r (pending (server (outside w)))
                 | Err e => undone all (Some e) h (drop_transaction (outside w'))
                 end)
    (fun w' => undone all None h (drop_transaction (outside w'))) w.
Proof.
  intros Hr Hi Hl. eapply wp_weaken; [apply wp_call; [done|done|]; destruct Hi as (Ht & _); unfold is_open; by rewrite Ht|..]; cbn.
  - intros [a|e] w' [Hs Hp]; [split; [by eapply inside_same|done]|]. by eapply inside_dropped, inside_same.
  - intros w' Hs. by eapply inside_dropped, inside_same.
Qed.

(** What a commit that did not answer [Ok] leaves. *)
Lemma doubt_undone all (h h' h2 : Held (S := S)) s why :
  tx h2 = None -> TRANSACTIONS_LEAKED h2 = u64_add (TRANSACTIONS_LEAKED h') 1 -> TRANSACTIONS_LEAKED h' = TRANSACTIONS_LEAKED h ->
  live s -> durable s = durable (server h) -> pending s = all (durable (server h)) ->
  match why with Some e => (tx_commit s).1 = Err e | None => True end ->
  server h2 = tx_drop (tx_commit s).2 -> undone all why h h2.
Proof.
  intros Ht Hl2 Hl Hs Hd Hp Hw E. split; [done|]. split; [right; by rewrite Hl2, Hl|]. right. left. exists s.
  pose proof (commit_in_doubt s Hs) as Hc. rewrite E, drop_keeps, drop_closes. rewrite Hd, Hp in Hc. by split_and!.
Qed.

Lemma gone_stays h : tx h = None -> drop_transaction (S := S) h = h.
Proof. unfold drop_transaction. by intros ->. Qed.

(** What the two statements of a call make of the data together. *)
Definition both (first : string) (params : list Value) (second : string) (d : D) : D :=
  effect_of (Plain true second) (effect_of (Prepared false first (map bind_param params)) d).

Lemma wp_committing all h (w : World (Held (S := S))) :
  inside h (outside w) -> live (server (outside w)) -> 0 <= TRANSACTIONS_LEAKED h < 2 ^ 64 ->
  pending (server (outside w)) = all (durable (server h)) ->
  wp commit
    (fun a w' => match a with Ok _ => done_ all h (outside w') | Err e => undone all (Some e) h (outside w') end)
    (fun w' => undone all None h (outside w')) w.
Proof.
  intros (Ht & Hl & Hd) Hs Hb Hp. eapply wp_weaken; [apply wp_tx_commit; [done|done|by rewrite Hl]|..].
  - intros [[]|e] w' [[Ht' Hl'] Hc].
    + destruct Hc as [Hc Ho]. unfold done_. rewrite Ht', Hl', Hc, Hl, Hp. unfold u64_add. by rewrite Z.add_0_r, wrap_small.
    + destruct Hc as [Hc He]. by eapply (doubt_undone all h (outside w)).
  - intros w' [[Ht' Hl'] [Hc|Hc]]; [|by eapply (doubt_undone all h (outside w))].
    split; [done|]. split; [right; by rewrite Hl', Hl|]. left. by rewrite Hc, drop_keeps, drop_closes.
Qed.

Lemma wp_execute_then_query first params second (w : World (Held (S := S))) :
  tame (Prepared false first (map bind_param params)) -> tame (Plain true second) ->
  tx (outside w) = None -> opened (server (outside w)) = false -> 0 <= TRANSACTIONS_LEAKED (outside w) < 2 ^ 64 ->
  wp (execute_then_query fits query_timeout first params second)
    (fun a w' => match a with
                 | Ok _ => done_ (both first params second) (outside w) (outside w')
                 | Err e => undone (both first params second) (Some e) (outside w) (outside w')
                 end)
    (fun w' => undone (both first params second) None (outside w) (outside w')) w.
Proof.
  intros Hf Hq Ht Ho Hb. set (all := both first params second). set (h := outside w) in *.
  unfold execute_then_query. apply wp_bind. eapply wp_weaken; [by apply (wp_transaction all)| |done].
  intros [[]|e] w1 H1; [|done]. destruct H1 as (Hi1 & Hl1 & Hp1). unfold out_of_scope. apply wp_finally, wp_bind.
  eapply wp_performed; [done|left; by eexists _, _|]. eapply wp_weaken; [by apply (wp_inside all)| |done].
  intros [a|e] w2 H2; [|exact H2]. destruct H2 as (Hi2 & Hl2 & Hp2). apply wp_bind.
  eapply wp_performed; [done|right; by eexists|]. eapply wp_weaken; [by apply (wp_inside all)| |done].
  intros [rows|e] w3 H3; [|exact H3]. destruct H3 as (Hi3 & Hl3 & Hp3). apply wp_bind.
  eapply wp_weaken; [apply (wp_committing all h); [done..|by rewrite Hp3, Hp2, Hp1]|..].
  - intros [[]|e] w4 H4; [apply wp_ret|]; cbn; rewrite gone_stays; (exact H4 || exact (proj1 H4)).
  - intros w4 H4. cbn. rewrite gone_stays; [exact H4|exact (proj1 H4)].
Qed.

(** C40. Two statements on one connection are atomic.  [execute_then_query] answers only when
    both are durable as one whole.  Refused, cut by the time limit at any point, or failed,
    nothing is durable, unless the error is that of the commit itself: then either nothing
    is, or all of it.  The same holds when the caller is dropped, the commit sent but not
    answered being the one moment of doubt.  No transaction stays open on the server, except
    that a caller dropped before its [BEGIN] is answered leaves that to sqlx.  The statements
    are [tame]: neither ends the transaction nor commits it on the side. *)
Theorem execute_then_query_is_atomic first params second (w : World (Held (S := S))) b out p :
  tame (Prepared false first (map bind_param params)) -> tame (Plain true second) ->
  tx (outside w) = None -> opened (server (outside w)) = false -> 0 <= TRANSACTIONS_LEAKED (outside w) < 2 ^ 64 ->
  execute_then_query fits query_timeout first params second {| the_world := w; left_ := b |} = (out, p) ->
  match out with
  | Ret (Ok _) => done_ (both first params second) (outside w) (outside (the_world p))
  | Ret (Err e) => undone (both first params second) (Some e) (outside w) (outside (the_world p))
  | Died => undone (both first params second) None (outside w) (outside (the_world p))
  end.
Proof.
  intros Hf Hq Ht Ho Hb Hrun.
  pose proof (wp_run _ _ _ _ _ _ _ (wp_execute_then_query first params second w Hf Hq Ht Ho Hb) Hrun) as Hp.
  by destruct out as [[a|e]|].
Qed.

End Spec.
End TransactionSpec.

Module TransactionFindings.
Import Rdbms Drop Timeout Transaction.

Section Findings.
Context `{JT : JsonText} {S : Type}.
Context {TS : TxServer (S := S)} (fits : Z -> Held (S := S) -> option nat).

Lemma run_ok {W E A B} (m : M W E A) (k : A -> M W E B) p x q : m p = (Ret (Ok x), q) -> bind m k p = k x q.
Proof. unfold bind. by intros ->. Qed.

Lemma run_err {W E A B} (m : M W E A) (k : A -> M W E B) p e q : m p = (Ret (Err e), q) -> bind m k p = (Ret (Err e), q).
Proof. unfold bind. by intros ->. Qed.

(** A call that nobody drops. *)
Lemma ask_alive {A} (f : S -> result A RdbmsError * S) (h : Held (S := S)) r s :
  f (server h) = (r, s) -> ask f {| the_world := h; left_ := None |} = (Ret r, {| the_world := set_server h s; left_ := None |}).
Proof. intros E. unfold ask, bind, try, effect. cbn. by rewrite E. Qed.

Lemma transaction_alive (w : World (Held (S := S))) s :
  tx_begin (server (outside w)) = (Ok tt, s) ->
  transaction {| the_world := w; left_ := None |} =
    (Ret (Ok tt), {| the_world := {| TIMEOUTS := TIMEOUTS w; outside := set_tx (Some with_inner) (set_server (outside w) s) |}; left_ := None |}).
Proof. intros E. unfold transaction, lift. cbn [the_world left_]. by rewrite (run_ok _ _ _ _ _ (ask_alive _ _ _ _ E)). Qed.

Lemma timed_alive r (w : World (Held (S := S))) a s :
  is_open (outside w) = true -> tx_run r (server (outside w)) = (a, s) ->
  timed fits None r {| the_world := w; left_ := None |} =
    (Ret a, {| the_world := {| TIMEOUTS := TIMEOUTS w; outside := set_server (outside w) s |}; left_ := None |}).
Proof.
  intros Ho E. unfold timed, run_with_timeout, run_for. cbn [the_world left_ opt_min]. unfold statement.
  rewrite (run_ok _ _ {| the_world := outside w; left_ := None |} true {| the_world := outside w; left_ := None |}) by (unfold get; cbn; by rewrite Ho).
  by rewrite (ask_alive _ _ _ _ E).
Qed.

(** A statement the server refuses, as a duplicate key, ends the call with that error; its
    transaction is rolled back, and counted as leaked. *)
Theorem refused_statement_counts_as_leak first params second (w : World (Held (S := S))) s1 e s2 :
  tx (outside w) = None -> tx_begin (server (outside w)) = (Ok tt, s1) ->
  tx_run (Prepared false first (map bind_param params)) s1 = (Err e, s2) ->
  exists p, execute_then_query fits None first params second {| the_world := w; left_ := None |} = (Ret (Err e), p) /\
    server (outside (the_world p)) = tx_drop s2 /\
    TRANSACTIONS_LEAKED (outside (the_world p)) = u64_add (TRANSACTIONS_LEAKED (outside w)) 1.
Proof.
  intros Ht Hb Hr. eexists. unfold execute_then_query. rewrite (run_ok _ _ _ _ _ (transaction_alive w s1 Hb)).
  unfold out_of_scope, finally. erewrite run_err; [|unfold tx_perform; erewrite run_ok by reflexivity; cbn; by apply timed_alive].
  split_and!; reflexivity.
Qed.

(** A placeholder runs no statement, and commits without one. *)
Theorem placeholder_runs_nothing timeout q (w : World (Held (S := S))) b :
  tx (outside w) = Some new ->
  tx_perform fits timeout q {| the_world := w; left_ := b |} = (Ret (Err (Database NO_BACKING)), {| the_world := w; left_ := b |}) /\
  exists p, commit {| the_world := w; left_ := b |} = (Ret (Ok tt), p) /\ server (outside (the_world p)) = server (outside w).
Proof.
  intros Ht. unfold tx_perform, commit, out_of_scope, finally, bind, get, has_backing. cbn. rewrite Ht. cbn. split; [done|].
  eexists. split; [reflexivity|]. cbn. unfold drop_transaction. cbn. by rewrite Ht.
Qed.

(** Once taken, the transaction behind the wrapper is finished. *)
Theorem ended_wrapper_refuses r (h : Held (S := S)) t b :
  tx h = Some (close t) -> statement r {| the_world := h; left_ := b |} = (Ret (Err tx_finished), {| the_world := h; left_ := b |}).
Proof. intros Ht. unfold statement, bind, get, is_open. cbn. by rewrite Ht. Qed.

End Findings.
End TransactionFindings.

Module TransactionDemo.
Import Rdbms Drop Timeout Transaction TransactionFacts TransactionSpec.

#[local] Instance demo_number : JsonNumber := {|
  Number := Z; number_as_i64 n := Some n; number_is_u64 n := 0 <=? n; number_as_f64 _ := None; number_text := dec_text |}.
#[local] Instance demo_text : JsonText := {| value_text _ := "" |}.

(** A server that logs its statements; one named "bad" it refuses. *)
Record log := { table : list string; uncommitted : option (list string) }.

#[local] Instance demo_server : TxServer (S := log) := {|
  tx_begin s := (Ok tt, {| table := table s; uncommitted := Some (table s) |});
  tx_run r s :=
    match uncommitted s with
    | None => (Err (Database "no transaction"), s)
    | Some l =>
        match r with
        | Prepared false sql _ => if String.eqb sql "bad" then (Err (Database "duplicate key"), s)
                                  else (Ok (Affected 1), {| table := table s; uncommitted := Some (l ++ [sql]) |})
        | _ => (Ok (Rows []), s)
        end
    end;
  tx_commit s := match uncommitted s with
                 | Some l => (Ok tt, {| table := l; uncommitted := None |})
                 | None => (Err (Database "no transaction"), s) end;
  tx_rollback s := (Ok tt, {| table := table s; uncommitted := None |});
  tx_drop s := {| table := table s; uncommitted := None |};
|}.

#[local] Instance demo_laws : TxLaws (D := list string).
Proof.
  refine {| durable s := table s; pending s := default (table s) (uncommitted s);
            opened s := bool_decide (is_Some (uncommitted s)); live s := is_Some (uncommitted s);
            effect_of r d := match r with Prepared false sql _ => d ++ [sql] | _ => d end; tame _ := True |}.
  - intros s Hl. by apply bool_decide_eq_true.
  - done.
  - intros s s' E. cbn in E. by simplify_eq.
  - intros s e s' _ E. by cbn in E.
  - intros r [t [l|]] _; [|done]. destruct r as [|[] sql ps]; try done. cbn. by destruct (String.eqb sql "bad").
  - intros r [t [l|]] a s' _ Hl E; [|by destruct Hl]. destruct r as [|[] sql ps]; cbn in E; try by simplify_eq.
    destruct (String.eqb sql "bad"); by simplify_eq.
  - intros [t [l|]] s' Hl E; cbn in E; [|by destruct Hl]. by simplify_eq.
  - intros [t [l|]]; [by right|by left].
  - done.
  - done.
Defined.

Definition demo_world : World (Held (S := log)) :=
  {| TIMEOUTS := [0; 0; 0; 0; 0; 0; 0];
     outside := {| TRANSACTIONS_LEAKED := 0; server := {| table := ["old"]; uncommitted := None |}; tx := None |} |}.
Definition never (_ : Z) (_ : Held (S := log)) : option nat := None.

(** The caller is dropped before the commit is answered: here the commit had gone through. *)
Definition cut_run := execute_then_query never None "INSERT" [] "SELECT LAST_INSERT_ID()" {| the_world := demo_world; left_ := Some 7%nat |}.
Definition whole_run := execute_then_query never None "INSERT" [] "SELECT LAST_INSERT_ID()" {| the_world := demo_world; left_ := None |}.
Definition refused_run := execute_then_query never None "bad" [] "SELECT LAST_INSERT_ID()" {| the_world := demo_world; left_ := None |}.
Definition appended (sql : string) : list string -> list string := both sql [] "SELECT LAST_INSERT_ID()".

Lemma execute_then_query_is_atomic_witness :
  done_ (appended "INSERT") (outside demo_world) (outside (the_world whole_run.2)) /\
  (undone (appended "bad") (Some (Database "duplicate key")) (outside demo_world) (outside (the_world refused_run.2)) /\
   server (outside (the_world refused_run.2)) = {| table := ["old"]; uncommitted := None |}) /\
  (undone (appended "INSERT") None (outside demo_world) (outside (the_world cut_run.2)) /\
   server (outside (the_world cut_run.2)) = {| table := ["old"; "INSERT"]; uncommitted := None |}).
Proof.
  split; [|split; (split; [|reflexivity])].
  - apply (@execute_then_query_is_atomic demo_number demo_text log (list string) demo_server demo_laws never None "INSERT" []
             "SELECT LAST_INSERT_ID()" demo_world None (Ret (Ok (Rows []))) whole_run.2);
      [exact I|exact I|reflexivity|reflexivity|split; reflexivity || discriminate|reflexivity].
  - apply (@execute_then_query_is_atomic demo_number demo_text log (list string) demo_server demo_laws never None "bad" []
             "SELECT LAST_INSERT_ID()" demo_world None (Ret (Err (Database "duplicate key"))) refused_run.2);
      [exact I|exact I|reflexivity|reflexivity|split; reflexivity || discriminate|reflexivity].
  - apply (@execute_then_query_is_atomic demo_number demo_text log (list string) demo_server demo_laws never None "INSERT" []
             "SELECT LAST_INSERT_ID()" demo_world (Some 7%nat) Died cut_run.2);
      [exact I|exact I|reflexivity|reflexivity|split; reflexivity || discriminate|reflexivity].
Defined.

Lemma refused_statement_counts_as_leak_witness :
  exists p, execute_then_query never None "bad" [] "q" {| the_world := demo_world; left_ := None |} = (Ret (Err (Database "duplicate key")), p) /\
    server (outside (the_world p)) = {| table := ["old"]; uncommitted := None |} /\
    TRANSACTIONS_LEAKED (outside (the_world p)) = u64_add 0 1.
Proof.
  apply (@TransactionFindings.refused_statement_counts_as_leak demo_number demo_text log demo_server never "bad" [] "q" demo_world {| table := ["old"]; uncommitted := Some ["old"] |}
           (Database "duplicate key") {| table := ["old"]; uncommitted := Some ["old"] |}); reflexivity.
Defined.

End TransactionDemo.
