(* ===== verification/Services.v ===== *)
(** * Small services (ecat-registry, ecat-client, ecat-health, ecat-versioning, ecat-scheduler, ecat-metadata)

    The registry in memory with the handles that deregister when they are dropped; the
    resolvers, balancers and clients of ecat-client; the readiness answer; the version in a
    header and the routers built for versions; periodic jobs; metadata.  [axum], [reqwest],
    [tonic], [uuid] and the timer of tokio are operations of classes or arguments. *)

From Stdlib Require Import Ascii.
From S2P Require Import Prelude Json Text.

Local Open Scope Z_scope.
Local Open Scope ecat_scope.

Module Registry.

Record ServiceInfo := { name : string; version : string; endpoints : list string; metadata : gmap string string }.

Definition service (n v : string) : ServiceInfo := {| name := n; version := v; endpoints := []; metadata := ∅ |}.

Definition with_endpoint (s : ServiceInfo) (e : string) : ServiceInfo :=
  {| name := name s; version := version s; endpoints := endpoints s ++ [e]; metadata := metadata s |}.

Inductive RegistryError := NotFound (id : string) | Other (message : string).

(** The map behind the lock; the [Registration]s alive, the tasks their drops spawned. *)
Record Registry := { services : gmap string ServiceInfo; handles : gmap string ServiceInfo; tasks : list string }.

Definition start : Registry := {| services := ∅; handles := ∅; tasks := [] |}.

(** [register], [id] being the fresh identifier. *)
Definition register (id : string) (s : ServiceInfo) (r : Registry) : Registry :=
  {| services := <[id := s]> (services r); handles := <[id := s]> (handles r); tasks := tasks r |}.

Definition deregister (id : string) (r : Registry) : result unit RegistryError * Registry :=
  match services r !! id with
  | None => (Err (NotFound id), r)
  | Some _ => (Ok tt, {| services := base.delete id (services r); handles := handles r; tasks := tasks r |})
  end.

(** [iter] is the order of the hash map. *)
Definition discover (iter : gmap string ServiceInfo -> list (string * ServiceInfo)) (n : string) (r : Registry) : list ServiceInfo :=
  List.filter (fun s => String.eqb (name s) n) (iter (services r)).*2.

Definition list_services (iter : gmap string ServiceInfo -> list (string * ServiceInfo)) (r : Registry) : list string :=
  map name (iter (services r)).*2.

(** [Drop for Registration]: a task where there is a runtime, a warning where there is none. *)
Definition drop_handle (runtime : bool) (id : string) (r : Registry) : Registry :=
  {| services := services r; handles := base.delete id (handles r); tasks := if runtime then id :: tasks r else tasks r |}.

(** A spawned task; that its service is gone already is only logged. *)
Definition run_task (before : list string) (id : string) (after : list string) (r : Registry) : Registry :=
  let r' := (deregister id r).2 in
  {| services := services r'; handles := handles r'; tasks := before ++ after |}.

Inductive step (r : Registry) : Registry -> Prop :=
| step_register id s : services r !! id = None -> handles r !! id = None -> id ∉ tasks r -> step r (register id s r)
| step_deregister id : step r (deregister id r).2
| step_drop id runtime s : handles r !! id = Some s -> step r (drop_handle runtime id r)
| step_task before id after : tasks r = before ++ id :: after -> step r (run_task before id after r).

(** Without explicit calls of [deregister] and inside a runtime. *)
Inductive handle_step (r : Registry) : Registry -> Prop :=
| handle_register id s : services r !! id = None -> handles r !! id = None -> id ∉ tasks r -> handle_step r (register id s r)
| handle_drop id s : handles r !! id = Some s -> handle_step r (drop_handle true id r)
| handle_task before id after : tasks r = before ++ id :: after -> handle_step r (run_task before id after r).

End Registry.

Module Client.

(** *** Resolvers and balancers *)

Definition StaticResolver : Type := gmap string (list string).

Definition add_service (r : StaticResolver) (n : string) (eps : list string) : StaticResolver := <[n := eps]> (r : gmap _ _).

Definition single (n e : string) : StaticResolver := {[ n := [e] ]}.

Definition resolve_static (r : StaticResolver) (n : string) : result (list string) string :=
  ok_or ((r : gmap _ _) !! n) ("no endpoints for service '" +:+ n +:+ "'").

(** [RoundRobin::pick]: [fetch_add] on a [usize] of 64 bits. *)
Definition pick (counter : Z) (eps : list string) : option string * Z :=
  match eps with
  | [] => (None, counter)
  | _ => (eps !! Z.to_nat (counter mod Z.of_nat (length eps)), u64_add counter 1)
  end.

(** [RandomBalancer::pick], [hash] being the finish of a fresh hasher. *)
Definition pick_random (hash : Z) (eps : list string) : option string :=
  match eps with
  | [] => None
  | _ => eps !! Z.to_nat (hash mod Z.of_nat (length eps))
  end.

Fixpoint picks (n : nat) (counter : Z) (eps : list string) : list (option string) * Z :=
  match n with
  | O => ([], counter)
  | S n => let '(e, c) := pick counter eps in let '(l, c) := picks n c eps in (e :: l, c)
  end.

(** *** The HTTP client *)

Section Http.
Context {W Response : Type}.

Class Net := {
  join_url : string -> string -> result string string;
  send : bool -> string -> list Z -> W -> result Response string * W;
  is_success : Response -> bool;
  status_text : Response -> string;
}.

Context {N : Net} (resolve : string -> W -> result (list string) string * W) (balance : list string -> W -> option string * W).

(** [get] and [post], [post] being true of the second. *)
Definition request (post : bool) (service path : string) (body : list Z) (w : W) : result Response string * W :=
  match resolve service w with
  | (Err e, w) => (Err e, w)
  | (Ok eps, w) =>
      match balance eps w with
      | (None, w) => (Err ("no available endpoint for '" +:+ service +:+ "'"), w)
      | (Some e, w) =>
          match join_url e path with
          | Err m => (Err ("invalid endpoint '" +:+ e +:+ "': " +:+ m), w)
          | Ok url =>
              let '(r, w) := send post url body w in
              (map_err (fun m => "http request failed: " +:+ m) r, w)
          end
      end
  end.

Definition health (service : string) (w : W) : result unit string * W :=
  match request false service "/health" [] w with
  | (Err e, w) => (Err e, w)
  | (Ok r, w) => (if is_success r then Ok tt else Err ("health check returned " +:+ status_text r), w)
  end.

End Http.
End Client.

Module Health.

Record CheckResult := { check_name : string; status : string; error : option string }.

Definition check_result (n : string) (answer : result unit string) : CheckResult :=
  match answer with
  | Ok _ => {| check_name := n; status := "ok"; error := None |}
  | Err e => {| check_name := n; status := "fail"; error := Some e |}
  end.

Inductive Readiness := NoChecks | Results (code : Z) (l : list CheckResult).

(** [checks] in the order of the hash map, with what each answers. *)
Definition readiness (checks : list (string * result unit string)) : Readiness :=
  match checks with
  | [] => NoChecks
  | _ =>
      let results := map (fun c => check_result c.1 c.2) checks in
      Results (if forallb (fun r => String.eqb (status r) "ok") results then 200 else 503) results
  end.

Definition readiness_code (r : Readiness) : Z := match r with NoChecks => 200 | Results code _ => code end.

Definition liveness : Z := 200.

End Health.

Module Versioning.

(** [str::split(';')]. *)
Fixpoint split_on (c : ascii) (s : string) : list string :=
  match s with
  | EmptyString => [EmptyString]
  | String a s =>
      if Ascii.eqb a c then EmptyString :: split_on c s
      else match split_on c s with
           | [] => [String a EmptyString]
           | p :: l => String a p :: l
           end
  end.

(** [trim_start_matches] of a prefix that is not empty: as often as it is there. *)
Fixpoint strip_all (fuel : nat) (p s : string) : string :=
  match fuel with
  | O => s
  | S fuel => match strip_prefix p s with Some s' => strip_all fuel p s' | None => s end
  end.

Fixpoint trim_char_start (c : ascii) (s : string) : string :=
  match s with
  | String a s' => if Ascii.eqb a c then trim_char_start c s' else s
  | EmptyString => s
  end.

Fixpoint trim_char_end (c : ascii) (s : string) : string :=
  match s with
  | EmptyString => s
  | String a s =>
      match trim_char_end c s with
      | EmptyString => if Ascii.eqb a c then EmptyString else String a EmptyString
      | s => String a s
      end
  end.

Definition trim_char (c : ascii) (s : string) : string := trim_char_end c (trim_char_start c s).

Definition quote : ascii := ascii_of_nat 34.

(** [extract_version], [accept] being the header where it is a text. *)
Definition extract_version (accept : option string) : option string :=
  match accept with
  | None => None
  | Some s =>
      match List.find (fun p => String.prefix "version=" (trim p)) (split_on ";"%char s) with
      | Some p => let t := trim p in Some (trim_char quote (strip_all (String.length t) "version=" t))
      | None => None
      end
  end.

Inductive VersionStrategy := PathPrefix | Header.

Section Router.
Context {Router Req Res : Type}.

(** [axum::Router]. *)
Class Axum := {
  empty_router : Router;
  nest : string -> Router -> Router -> Router;
  merge : Router -> Router -> Router;
  call : Router -> Req -> option Res;
  accept_of : Req -> option string;
  not_found : Res;
}.

Context {AX : Axum}.

Record VersionedRouter := { versions : list (string * Router); default_version : option string; strategy : VersionStrategy }.

Definition get_version (v : string) (l : list (string * Router)) : option Router :=
  match List.find (fun p => String.eqb p.1 v) l with Some p => Some p.2 | None => None end.

(** [versions] in the order of the hash map. *)
Definition build_path_router (r : VersionedRouter) : Router :=
  let nested := foldl (fun router v => nest ("/" +:+ v.1) v.2 router) empty_router (versions r) in
  match (match default_version r with Some v => get_version v (versions r) | None => None end) with
  | Some d => merge nested d
  | None => nested
  end.

Definition merged (r : VersionedRouter) : Router := foldl (fun router v => merge router v.2) empty_router (versions r).

(** The router with its layer, as a function of the request. *)
Definition header_call (r : VersionedRouter) (req : Req) : option Res :=
  match extract_version (accept_of req) with
  | Some v => if existsb (String.eqb v) (versions r).*1 then call (merged r) req else Some not_found
  | None => call (merged r) req
  end.

Definition build (r : VersionedRouter) (req : Req) : option Res :=
  match strategy r with PathPrefix => call (build_path_router r) req | Header => header_call r req end.

End Router.
End Versioning.

Module Scheduler.

(** How a job ends: after some time, with a panic of its future, or with one in the closure
    that makes the future, which is the task's own. *)
Inductive job_end := Finished (d : Z) | FuturePanicked (d : Z) | ClosurePanicked.

(** When a run starts and when the loop goes on; [None] when the task is gone. *)
Definition run_job (now : Z) (j : job_end) : option Z :=
  match j with
  | Finished d | FuturePanicked d => Some (now + d)
  | ClosurePanicked => None
  end.

(** [every] from [first], the deadline of the next tick: a tick that is late fires at once, and
    none is dropped.  The runs are given by how they end. *)
Fixpoint every_from (first interval now : Z) (jobs : list job_end) : list (Z * option Z) :=
  match jobs with
  | [] => []
  | j :: jobs =>
      let at_ := Z.max now first in
      match run_job at_ j with
      | Some finish => (at_, Some finish) :: every_from (first + interval) interval finish jobs
      | None => [(at_, None)]
      end
  end.

(** [interval_at] refuses a period of zero with a panic, in the task. *)
Definition every (start interval : Z) (jobs : list job_end) : list (Z * option Z) :=
  if interval =? 0 then [] else every_from (start + interval) interval start jobs.

Definition once (start delay : Z) (j : job_end) : Z * option Z := (start + delay, run_job (start + delay) j).

End Scheduler.

Module Metadata.

Definition TRACE_ID : string := "x-ecat-trace-id".
Definition SERVICE_NAME : string := "x-ecat-service".
Definition CLIENT_IP : string := "x-ecat-client-ip".

Definition Metadata : Type := gmap string string.

Definition get (m : Metadata) (k : string) : option string := (m : gmap _ _) !! k.
Definition set (k v : string) (m : Metadata) : Metadata := <[k := v]> (m : gmap _ _).
Definition trace_id (m : Metadata) : option string := get m TRACE_ID.

(** A header whose value is not a text is skipped: [None]. *)
Definition from_headers (l : list (string * option string)) : Metadata :=
  foldl (fun m kv => match kv.2 with Some v => set kv.1 v m | None => m end) ∅ l.

(** The entries of gRPC metadata; binary ones are skipped. *)
Inductive Entry := AsciiEntry (k : string) (v : option string) | BinaryEntry.

Definition from_metadata_map (l : list Entry) : Metadata :=
  foldl (fun m e => match e with AsciiEntry k (Some v) => set k v m | _ => m end) ∅ l.

End Metadata.

Module RegistrySpec.
Import Registry.

(** Of the life of handles: who holds one is registered, and what is registered has a handle
    or a task that will deregister it. *)
Definition registry_inv (r : Registry) : Prop :=
  (forall id s, handles r !! id = Some s -> services r !! id = Some s) /\
  (forall id s, services r !! id = Some s -> handles r !! id = Some s \/ id ∈ tasks r) /\
  (forall id, id ∈ tasks r -> handles r !! id = None).

Lemma deregistered id r : services (deregister id r).2 = base.delete id (services r).
Proof. unfold deregister. destruct (services r !! id) eqn:E; [done|]. symmetry. by apply delete_id. Qed.

Lemma deregister_handles id r : handles (deregister id r).2 = handles r.
Proof. unfold deregister. by destruct (services r !! id). Qed.

Lemma registry_inv_inductive : inductive_invariant (fun r => r = start) handle_step registry_inv.
Proof.
  split.
  - intros r ->. unfold registry_inv. cbn. split_and!; [intros id s; by rewrite lookup_empty|intros id s; by rewrite lookup_empty|intros id Hin; by apply not_elem_of_nil in Hin].
  - intros r r' (Hh & Hs & Ht) Hstep. unfold registry_inv. destruct Hstep as [id s Hn Hm Hi|id s Hl|before id after E]; cbn; split_and!.
    + intros id' s' H. destruct (decide (id' = id)) as [->|]; [by rewrite lookup_insert_eq in *|]. rewrite lookup_insert_ne in * by done. by apply Hh.
    + intros id' s' H. destruct (decide (id' = id)) as [->|]; [rewrite lookup_insert_eq in *; by left|]. rewrite lookup_insert_ne in * by done. by apply Hs.
    + intros id' H. destruct (decide (id' = id)) as [->|]; [done|]. rewrite lookup_insert_ne by done. by apply Ht.
    + intros id' s' H. destruct (decide (id' = id)) as [->|]; [by rewrite lookup_delete_eq in H|]. rewrite lookup_delete_ne in H by done. by apply Hh.
    + intros id' s' H. destruct (decide (id' = id)) as [->|]; [right; by left|]. rewrite lookup_delete_ne by done.
      destruct (Hs id' s' H); [by left|right; by right].
    + intros id' H. destruct (decide (id' = id)) as [->|]; [by rewrite lookup_delete_eq|]. rewrite lookup_delete_ne by done.
      apply Ht. apply elem_of_cons in H as [|]; done.
    + intros id' s' H. rewrite deregister_handles in H. rewrite deregistered. assert (id' <> id).
      { intros ->. rewrite (Ht id) in H; [done|]. rewrite E. set_solver. }
      rewrite lookup_delete_ne by done. by apply Hh.
    + intros id' s' H. rewrite deregister_handles. rewrite deregistered in H. destruct (decide (id' = id)) as [->|]; [by rewrite lookup_delete_eq in H|].
      rewrite lookup_delete_ne in H by done. destruct (Hs id' s' H) as [|Hin]; [by left|]. right. rewrite E in Hin. set_solver.
    + intros id' H. rewrite deregister_handles. apply Ht. rewrite E. set_solver.
Qed.

(** What discovery answers follows the handles: a service whose handle is alive is found at any
    time, and when the tasks of dropped handles have run, nothing else is. *)
Theorem discovery_follows_the_handles (iter : gmap string ServiceInfo -> list (string * ServiceInfo)) r :
  (forall m, iter m ≡ₚ map_to_list m) -> reachable (fun r => r = start) handle_step r ->
  (forall id s, handles r !! id = Some s -> s ∈ discover iter (name s) r) /\
  (tasks r = [] -> services r = handles r).
Proof.
  intros Hit Hr. destruct (invariant_reachable _ _ _ _ registry_inv_inductive Hr) as (Hh & Hs & Ht). split.
  - intros id s H. unfold discover. apply list_elem_of_In, List.filter_In. split; [|apply String.eqb_refl].
    apply list_elem_of_In. rewrite Hit. apply list_elem_of_fmap. exists (id, s). split; [done|]. apply elem_of_map_to_list. by apply Hh.
  - intros Hn. apply map_eq. intros id. destruct (services r !! id) as [s|] eqn:E.
    + destruct (Hs id s E) as [|Hin]; [done|]. rewrite Hn in Hin. by apply not_elem_of_nil in Hin.
    + destruct (handles r !! id) as [s|] eqn:E2; [|done]. apply Hh in E2. congruence.
Qed.

(** Outside a runtime a dropped handle leaves its service behind. *)
Theorem dropped_outside_runtime_stays id s r : services r !! id = Some s -> services (drop_handle false id r) !! id = Some s /\ tasks (drop_handle false id r) = tasks r.
Proof. done. Qed.

(** [deregister] removes one service, or says that there is none and changes nothing. *)
Theorem deregister_exact id r :
  match services r !! id with
  | Some _ => (deregister id r).1 = Ok tt /\ services (deregister id r).2 = base.delete id (services r)
  | None => deregister id r = (Err (NotFound id), r)
  end.
Proof. unfold deregister. by destruct (services r !! id). Qed.

End RegistrySpec.

Module BalancerSpec.
Import Client.

Lemma pick_some c eps : eps <> [] -> pick c eps = (eps !! Z.to_nat (c mod Z.of_nat (length eps)), u64_add c 1).
Proof. by destruct eps. Qed.

Lemma picks_lookup n c eps i :
  eps <> [] -> 0 <= c -> c + Z.of_nat n <= 2 ^ 64 -> (i < n)%nat ->
  (picks n c eps).1 !! i = Some (eps !! Z.to_nat ((c + Z.of_nat i) mod Z.of_nat (length eps))).
Proof.
  intros He. revert c i. induction n as [|n IH]; intros c i Hc Hb Hi; [lia|]. cbn [picks]. rewrite pick_some by done.
  assert (Hu : n = 0%nat \/ u64_add c 1 = c + 1) by (destruct n; [by left|right; apply wrap_small; lia]).
  specialize (IH (u64_add c 1)). destruct (picks n (u64_add c 1) eps) as [l c'] eqn:E. cbn [fst] in *. destruct i as [|i].
  - cbn. by rewrite Z.add_0_r.
  - destruct Hu as [->|Hu]; [lia|]. cbn. rewrite IH by lia. rewrite Hu. do 4 f_equal. lia.
Qed.

Lemma picks_length n c eps : length (picks n c eps).1 = n.
Proof.
  revert c. induction n as [|n IH]; intros c; [done|]. cbn [picks]. destruct (pick c eps) as [e c1]. specialize (IH c1).
  destruct (picks n c1 eps). cbn in *. by rewrite IH.
Qed.

Lemma picks_counter n c eps : eps <> [] -> 0 <= c -> c + Z.of_nat n < 2 ^ 64 -> (picks n c eps).2 = c + Z.of_nat n.
Proof.
  intros He. revert c. induction n as [|n IH]; intros c Hc Hb; [cbn; lia|]. cbn [picks]. rewrite pick_some by done.
  assert (Hu : u64_add c 1 = c + 1) by (apply wrap_small; lia). specialize (IH (c + 1)). rewrite Hu.
  destruct (picks n (c + 1) eps) as [l c']. cbn in *. rewrite IH by lia. lia.
Qed.

Lemma picks_app a b c eps :
  (picks (a + b) c eps).1 = (picks a c eps).1 ++ (picks b (picks a c eps).2 eps).1.
Proof.
  revert c. induction a as [|a IH]; intros c; [done|]. cbn [Nat.add picks]. destruct (pick c eps) as [e c1]. specialize (IH c1).
  destruct (picks (a + b) c1 eps), (picks a c1 eps). cbn in *. by rewrite IH.
Qed.

(** One lap visits every endpoint once, from wherever it starts. *)
Lemma one_lap c eps :
  eps <> [] -> 0 <= c -> c + Z.of_nat (length eps) <= 2 ^ 64 -> (picks (length eps) c eps).1 ≡ₚ Some <$> eps.
Proof.
  intros He Hc Hb. set (s := Z.to_nat (c mod Z.of_nat (length eps))).
  assert (Hn : (0 < length eps)%nat) by (destruct eps; [done|cbn; lia]).
  assert (Hs : (s < length eps)%nat) by (unfold s; pose proof (Z.mod_pos_bound c (Z.of_nat (length eps))); lia).
  trans (Some <$> (drop s eps ++ take s eps)).
  - apply reflexive_eq, list_eq. intros i. destruct (decide (i < length eps)%nat) as [Hi|Hi].
    + rewrite picks_lookup by done. rewrite list_lookup_fmap.
      assert (Hm : (c + Z.of_nat i) mod Z.of_nat (length eps) = Z.of_nat ((s + i) mod length eps)).
      { rewrite Nat2Z.inj_mod, Nat2Z.inj_add. unfold s. rewrite Z2Nat.id by (apply Z.mod_pos_bound; lia). by rewrite Zplus_mod_idemp_l. }
      rewrite Hm, Nat2Z.id. destruct (decide (s + i < length eps)%nat) as [Hl|Hl].
      * rewrite Nat.mod_small by done. rewrite lookup_app_l by (rewrite length_drop; lia). rewrite lookup_drop.
        destruct (eps !! (s + i)%nat) eqn:E; [done|]. apply lookup_ge_None in E. lia.
      * replace (s + i)%nat with ((s + i - length eps) + 1 * length eps)%nat by lia. rewrite Nat.Div0.mod_add, Nat.mod_small by lia.
        rewrite lookup_app_r by (rewrite length_drop; lia). rewrite length_drop, lookup_take_lt by lia.
        replace (i - (length eps - s))%nat with (s + i - length eps)%nat by lia.
        destruct (eps !! (s + i - length eps)%nat) eqn:E; [done|]. apply lookup_ge_None in E. lia.
    + rewrite !lookup_ge_None_2; [done|rewrite length_fmap, length_app, length_drop, length_take; lia|rewrite picks_length; lia].
  - apply fmap_Permutation. rewrite Permutation_app_comm. by rewrite take_drop.
Qed.

(** Round robin is fair: over a whole number of laps, however the calls of several threads are
    ordered (each takes its own count), every endpoint is picked once a lap. *)
Theorem round_robin_is_fair k c eps :
  eps <> [] -> 0 <= c -> c + Z.of_nat (k * length eps) < 2 ^ 64 ->
  (picks (k * length eps) c eps).1 ≡ₚ Some <$> concat (repeat eps k).
Proof.
  intros He Hc. revert c Hc. induction k as [|k IH]; intros c Hc Hb; [done|]. cbn [Nat.mul repeat concat]. rewrite picks_app, fmap_app.
  rewrite one_lap by (done || lia). rewrite picks_counter by (done || lia). rewrite IH by lia. done.
Qed.

(** A call needs a resolved service, an endpoint of it and a URL, in this order; nothing is
    sent without them. *)
Theorem request_goes_to_a_picked_endpoint {W Response} `{N : Net W Response} resolve balance post service path body w r w' :
  (forall eps w e w', balance eps w = (Some e, w') -> e ∈ eps) ->
  request resolve balance post service path body w = (Ok r, w') ->
  exists eps w1 e w2 url, resolve service w = (Ok eps, w1) /\ balance eps w1 = (Some e, w2) /\ e ∈ eps /\
    join_url e path = Ok url /\ send post url body w2 = (Ok r, w').
Proof.
  intros Hb. unfold request. destruct (resolve service w) as [[eps|m] w1] eqn:E1; [|done]. destruct (balance eps w1) as [[e|] w2] eqn:E2; [|done].
  destruct (join_url e path) as [url|m] eqn:E3; [|done]. destruct (send post url body w2) as [[a|m] w3] eqn:E4; cbn; intros; simplify_eq.
  exists eps, w1, e, w2, url. split_and!; eauto.
Qed.

End BalancerSpec.

Module ServicesSpec.
Import Health Versioning Scheduler.

(** Ready exactly when every check passed. *)
Theorem ready_iff_all_pass checks : readiness_code (readiness checks) = 200 <-> Forall (fun c => c.2 = Ok tt) checks.
Proof.
  assert (Hall : forallb (fun r => String.eqb (status r) "ok") (map (fun c : string * result unit string => check_result c.1 c.2) checks) = true
                 <-> Forall (fun c => c.2 = Ok tt) checks).
  { induction checks as [|[n [[]|e]] l IH]; cbn; [done|..]; rewrite Forall_cons; [|naive_solver]. rewrite IH. naive_solver. }
  rewrite <- Hall. destruct checks as [|c l]; [done|]. unfold readiness. cbn [readiness_code].
  destruct (forallb _ (map _ (c :: l))); done.
Qed.

(** [Router::merge] serves the routes of both. *)
Class AxumLaw {Router Req Res} `{AX : Axum Router Req Res} := {
  call_merge a b q : call (merge a b) q = match call a q with Some x => Some x | None => call b q end;
  call_empty q : call empty_router q = None;
}.

(** The header strategy checks that the version exists, and then serves the request from
    whichever version has the route: the version in the header selects nothing. *)
Theorem header_version_selects_nothing {Router Req Res} `{AL : AxumLaw Router Req Res} (v1 v2 : string) (a b : Router) d (q : Req) (x : Res) :
  extract_version (accept_of q) = Some v2 -> call a q = Some x ->
  build {| versions := [(v1, a); (v2, b)]; default_version := d; strategy := Header |} q = Some x.
Proof.
  intros Hv Ha. unfold build, header_call. cbn [strategy versions]. rewrite Hv. cbn. rewrite String.eqb_refl, orb_true_r.
  unfold merged. cbn. by rewrite !call_merge, call_empty, Ha.
Qed.

(** Versions of a header. *)
Example extract_version_ex :
  extract_version (Some "application/json; version=v2") = Some "v2" /\
  extract_version (Some "version=") = Some "" /\ extract_version (Some "application/json") = None /\
  extract_version (Some "text/html;version=v1, application/json") = Some "v1, application/json".
Proof. done. Qed.

(** No run starts before its tick or before the one before it is over. *)
Theorem runs_follow_each_other first interval now jobs i s e :
  every_from first interval now jobs !! i = Some (s, e) ->
  first + Z.of_nat i * interval <= s /\
  forall s' e', every_from first interval now jobs !! S i = Some (s', e') -> exists f, e = Some f /\ f <= s'.
Proof.
  revert first now jobs. induction i as [|i IH]; intros first now jobs Hl; (destruct jobs as [|j jobs]; [done|]); cbn [every_from] in *.
  - destruct (run_job (Z.max now first) j) as [f|] eqn:Hj; cbn in Hl; simplify_eq; split; try lia.
    + intros s' e' Hl'. cbn in Hl'. destruct jobs as [|j' jobs]; [done|]. cbn in Hl'. exists f. split; [done|].
      destruct (run_job _ j'); cbn in Hl'; simplify_eq; lia.
    + intros s' e' Hl'. done.
  - destruct (run_job (Z.max now first) j) as [f|] eqn:Hj; cbn in Hl; [|done].
    destruct (IH _ _ _ Hl) as [Hs Hn]. split; [lia|]. intros s' e' Hl'. apply (Hn s' e'). exact Hl'.
Qed.

(** A job whose future panics stops nothing; one whose closure does is the last. *)
Theorem only_the_closure_ends_the_loop first interval now jobs :
  Forall (fun j => j <> ClosurePanicked) jobs -> length (every_from first interval now jobs) = length jobs.
Proof.
  intros Hj. revert first now. induction Hj as [|j l Hne _ IH]; intros first now; [done|]. cbn. destruct j; cbn; [f_equal; apply IH..|done].
Qed.

End ServicesSpec.

Module ServicesDemo.
Import Registry Client.

Definition auth : ServiceInfo := with_endpoint (service "auth" "1.0.0") "http://localhost:8080".

(** Two services, one of whose handles is dropped and its task run. *)
Definition demo_registry : Registry := run_task [] "a" [] (drop_handle true "a" (register "b" auth (register "a" auth start))).

Lemma demo_registry_reachable : reachable (fun r => r = start) handle_step demo_registry.
Proof.
  unfold demo_registry. eapply reachable_step; [|by apply (handle_task _ [] "a" [])].
  eapply reachable_step; [|by apply (handle_drop _ "a" auth)].
  eapply reachable_step; [|apply handle_register; [done|done|apply not_elem_of_nil]].
  eapply reachable_step; [|apply handle_register; [done|done|apply not_elem_of_nil]]. by apply reachable_refl.
Qed.

Lemma discovery_follows_the_handles_witness : services demo_registry = {[ "b" := auth ]}.
Proof.
  apply (proj2 (RegistrySpec.discovery_follows_the_handles map_to_list demo_registry (fun m => reflexivity _) demo_registry_reachable)).
  reflexivity.
Defined.

Lemma round_robin_is_fair_witness : (picks 6 5 ["a"; "b"; "c"]).1 ≡ₚ Some <$> ["a"; "b"; "c"; "a"; "b"; "c"].
Proof. apply (BalancerSpec.round_robin_is_fair 2 5 ["a"; "b"; "c"]); [discriminate|lia|reflexivity]. Defined.

End ServicesDemo.
